(* ===== verification/_CoqProject ===== *)
-Q . S2P
Prelude.v
Crypto.v
NoteRules.v
Layout.v
Verifier.v
VerifierProps.v
Interfaces.v
Frame.v
SchedulerTime.v
ZkTree.v
ZkTreeProps.v
Shielded.v
ShieldedPlan.v
ShieldedSettle.v
ShieldedProps.v
ShieldedFees.v
ShieldedWitnesses.v
MiningRewards.v
Qpow.v
RandomX.v
Vesting.v
VestingProps.v
Multisig.v
MultisigProps.v
MultisigTheorems.v
MultisigWitnesses.v
Runtime.v
RuntimeProps.v
RuntimeWitnesses.v
Reversible.v
ReversibleProps.v
ReversibleTheorems.v
ReversibleWitnesses.v
Scheduler.v
SchedulerProps.v
SchedulerService.v
SchedulerTheorems.v
SchedulerWitnesses.v
Admission.v
SeedCache.v
SeedCacheProps.v
Header.v
PowImport.v
PowImportProps.v
PowForkChoice.v
Miner.v
MinerProps.v
PowWitnesses.v
CircuitMerkle.v
CircuitMerkleProps.v
WalletTyping.v
WalletTypingProps.v
WalletText.v
WalletExtrinsic.v
WalletStore.v
WalletStoreProps.v
WalletChain.v
WalletChainProps.v
WalletSync.v
WalletSyncProps.v
WalletSyncTheorems.v
WalletSyncWitnesses.v
Profile.v
NoteCore.v
LeafCircuit.v
LeafCircuitProps.v
LeafCircuitTheorems.v
LeafCircuitWitnesses.v
BatchCircuit.v
BatchCircuitProps.v
BatchCircuitTheorems.v
BatchWitnesses.v
NoteCipher.v
NoteCipherProps.v
WalletSpend.v
WalletLedger.v
WalletLedgerWitnesses.v
WalletSend.v
WalletSendProps.v
WalletSendWitnesses.v
