(* ===== verification/Prelude.v ===== *)
(** * Qnero: a verification of the chain's core

    Qnero is a proof-of-work chain whose value lives in a shielded pool. A
    wallet proves a spend in zero knowledge; a private batch bundles spends, a
    public batch bundles private batches, and the chain settles a batch by
    checking the proof, spending its nullifiers and appending its output
    commitments to a Merkle tree whose root the next proofs anchor to. This
    development models the parts of the program that decide whether value is
    created, lost or spent twice, and whether every node agrees on it.

    ** The program and the files

    - [Prelude]: results, loops that may fail ([fold_result], [all_ok]),
      machine integers kept at their width, sums, little-endian bytes, and the
      automation shared by every file ([res_inv], [u_lia], the [qnero] hints).
    - [Crypto]: the code that is not part of the repository, as classes of
      operations and laws: the Goldilocks field and the Poseidon2 sponge
      (collisions are never excluded, see below), the proof system behind
      plonky2, Blake2 and [Permill]. [ToyCrypto] instantiates every class with
      computable functions, so the laws are satisfiable and the witnesses run.
    - [NoteRules]: [crates/qnero-circuit/src/chain.rs], the rules the chain
      shares with the circuits: note commitments, ciphertext digests, the
      suite table.
    - [Layout], [Verifier], [VerifierProps]: [layout.rs], [batch_layout.rs],
      [padding.rs] and [crates/qnero-verifier]: where each public input sits,
      the parsers, padding, the public-batch artifact header, canonical
      decoding, [verify_proof_bytes] of both verifiers.
    - [Interfaces]: the traits between the pallets as an operation class and a
      law class each: [ZkCommitmentRecorder], [Currency], [CoinbaseSink],
      [Ledger], [Reservable], [HoldLedger], [ProofRecorder],
      [HighSecurityInspector].
    - [Frame]: what the pallets use of FRAME: weights, origins, bounded
      vectors, sums over maps.
    - [ZkTree], [ZkTreeProps]: [chain/pallets/zk-tree]. The storage is
      [TreeState]; appends only count a pending leaf, and [on_finalize] folds
      the pending range into the stored nodes with [update_range]. [ref_node]
      is the specification: the root of the plain 4-ary tree over the leaves.
    - [Shielded], [ShieldedPlan], [ShieldedSettle], [ShieldedProps],
      [ShieldedFees], [ShieldedWitnesses]: [chain/pallets/shielded]. [Pool] is
      the pallet's storage with the tree and the currency it reaches; the walk
      of [plan_settlement] is a fold over segments and slots with its loop
      variables in [Walk]; [settle], [do_shield], [do_coinbase],
      [mint_coinbase] are the state changes; [validate_unsigned] and
      [pre_dispatch] are the two admission gates. [call_body] is a dispatchable
      and [dispatch] rolls a failed one back.
    - [MiningRewards]: [chain/pallets/mining-rewards], emission and payout,
      against [Currency] and [CoinbaseSink]; [chain_step] runs it over the
      shielded pool.
    - [Qpow]: [chain/pallets/qpow], the difficulty retarget.
    - [RandomX]: [chain/client/consensus/randomx]: [seed.rs], [target.rs],
      [blob.rs], [seal.rs] and the heavier-chain rule of
      [chain_management.rs].
    - [Vesting], [VestingProps]: [chain/pallets/vesting], schedules paid from
      a pot account, against [Ledger] and [ProofRecorder].

    - [Multisig], [MultisigProps], [MultisigTheorems], [MultisigWitnesses]:
      [chain/pallets/multisig]. Storage is the record [Multisig]; the calls
      carry the weight they report, in success and in error; [execute] is its
      checks ([execute_effects]), the dispatch of the inner call, and the
      closing event. The module [Spec] is the abstract specification, a voting
      machine over policies and open votes.
    - [Runtime], [RuntimeProps], [RuntimeWitnesses]: [chain/runtime]:
      [QneroCallFilter], [HighSecurityConfig] and the high-security transaction
      extension, and [batch_all] of [chain/pallets/utility]. [RuntimeCall]
      keeps the calls these functions distinguish.
    - [Reversible], [ReversibleProps], [ReversibleTheorems],
      [ReversibleWitnesses]: [chain/pallets/reversible-transfers], delayed
      transfers under a guardian, against [HoldLedger], [ProofRecorder] and the
      scheduler as [ScheduleNamed].
    - [SchedulerTime], [Scheduler], [SchedulerProps], [SchedulerService],
      [SchedulerTheorems], [SchedulerWitnesses]:
      [chain/primitives/scheduler] and [chain/pallets/scheduler]. The storage
      is [Scheduler]; [service_loop] is the [while] loop of both clocks,
      [service_task] one task with its retry, and [next_block] a block's
      [on_initialize] followed by its clock.

    - [Header]: [chain/primitives/header] and the off-circuit half of
      [crates/qnero-circuit/src/header.rs]: the header's Poseidon2 hash over a
      fixed digest window.
    - [Admission], [SeedCache], [SeedCacheProps], [PowImport],
      [PowImportProps], [PowForkChoice], [Miner], [MinerProps],
      [PowWitnesses]: the rest of [chain/client/consensus/randomx]: the
      hashing budgets of [admission.rs], the VM cache of [vm.rs] over its
      threads, block verification and import around the import lock, the
      cumulative work that decides the tip, and the mining worker with its
      trigger and build tasks. The client and librandomx are parameters
      ([PowClient], [RandomXOps]).
    - [CircuitMerkle], [CircuitMerkleProps], [Profile]:
      [crates/qnero-circuit]: [merkle.rs] outside the circuit, and the protocol
      profile of [profile.rs].
    - [NoteCore], [NoteCipher], [NoteCipherProps]: [crates/qnero-note-core],
      [crates/qnero-notes] and [crates/qnero-pqcrypto]: notes, commitments,
      nullifiers, key derivation, miner keys, addresses, note encryption.
      ML-KEM, SHA-256 and ChaCha20-Poly1305 are the parameter [NoteCrypto].
    - [LeafCircuit], [LeafCircuitProps], [LeafCircuitTheorems],
      [LeafCircuitWitnesses]: the spend leaf of [crates/qnero-circuit]
      ([circuit.rs], its gadgets, [witness.rs], the padding leaf). A target is
      the field element an assignment gives it and [build_constraints] is the
      set of assignments that satisfy the circuit; the gates are [CircuitOps].
    - [BatchCircuit], [BatchCircuitProps], [BatchCircuitTheorems],
      [BatchWitnesses]: [crates/qnero-aggregator]: the two batch
      circuits over a recursive verifier, and the admission rules of the
      provers. That a verifying proof has a satisfying assignment is the
      hypothesis [leaf_sound], [private_sound], [public_sound] of the theorems
      that use it, never a definition.
    - [WalletText], [WalletExtrinsic], [WalletChain], [WalletTyping],
      [WalletStore], [WalletSync], [WalletSpend], [WalletLedger], [WalletSend]
      and their [Props], [Theorems] and [Witnesses]: [crates/qnero-wallet]:
      amounts and memos, extrinsics and metadata checks, the reads of a node
      ([chain.rs]), the typing of leaves, the store, a sync pass, selection and
      fees, the ledger of a seed, and the send command. The node is the
      parameter [Node]: an arbitrary answer to every question.

    The components meet through the interfaces: the shielded pool is proved
    against [ZkCommitmentRecorderLaws], which [ZkTreeProps] discharges
    ([tree_recorder_laws]); the reward pallet is proved against
    [CoinbaseSinkLaws], which [ShieldedProps] discharges for the pool; the
    filter's theorem about multisig payloads composes [Runtime] with
    [Multisig]; [SchedulerTheorems] runs the reversible transfers on the
    scheduler pallet itself ([scheduler_named]); [BatchCircuitTheorems]
    composes the pallet's verifier, both batch circuits, the leaf, the header
    and the tree; [CircuitMerkleProps] relates the wallet's tree to the
    pallet's; and [WalletSendProps] feeds the wallet's ledger to the leaf.

    ** Collisions

    The sponge is an arbitrary function of the right type: it has collisions,
    and a conclusion of the form "or some collision exists" would say nothing.
    Where a theorem has to speak of one, it names the finite list of inputs the
    code at hand hashes, computed from the objects of the statement, and the
    alternative is that two different inputs of that list have the same hash
    ([collides], [bytes_collide], [broken_on]; the lists are [opening_pres],
    [climb_pres], [leaf_queries], [batch_queries], [path_pres], [tree_pres],
    [note_pres], [walk_pres] and the like). A witness shows that its list has
    no collision on a concrete run.

    ** What the theorems show

    - The circuits (C2, C3, C5, C11, C21, C22). An assignment satisfies the
      leaf exactly when it is a spend that balances over the integers, opens
      real notes below the header's root and publishes their nullifiers; one
      note has one nullifier; the batch circuits publish exactly the masked
      slots of agreeing, distinct leaves. Every real slot of a batch the pallet
      accepts, anchored at a block of the chain, spends notes settled in that
      block's tree. An honest witness, and a batch the prover admits, always
      satisfies its circuit.
    - Settlement (C1, C6 to C8, C32). From genesis, over any sequence of calls,
      coinbases and blocks, no nullifier is spent twice. The checks are
      complete: a submission that passes them settles, and what the inclusion
      gate admits cannot fail when dispatched. A settlement writes its plan and
      nothing else; no call creates value.
    - The tree (C9, C30). The batched root is the root of the reference tree,
      and the wallet's frontier reaches the same one, over histories that stay
      within the tree's capacity (appending a transfer proof is not guarded by
      it; the commitment insert is). In the middle of a block
      a proof of a settled leaf may fail ([mid_block_proof_does_not_verify]).
    - The wallet (C4, C12 to C15, C23 to C27, C29, C31). A payment encrypted to
      a seed's address is credited by a pass over its leaf; a committed pass
      settled every leaf it scanned and every payload it can read out of a
      block (those of outermost calls), keeps every secret, holds only notes that
      open, and marks as spent what the chain settled; it always reaches a
      verdict. What a pass believes is bound by the head's hash: the header
      walk, the kinds of the leaves. A spend it assembles is provable, balanced
      and pays what was asked; a send can be interrupted anywhere without
      losing its change. Ciphertexts and extrinsics read back.
    - Consensus (C10, C28, C37 to C40). The tip is the heaviest of the imported
      chain whatever the order of the imports, in histories without a header
      collision or a failed re-import of a known block; the verifier and the importer
      accept the same blocks; a header hash binds its header; a hash is
      computed with its seed's own dataset; no rebuild request of the miner is
      lost; the budgets bound every window of time.
    - Multisigs (C16, C17). The pallet refines the voting specification; a
      payload is executed only after the threshold of distinct signers approved
      those bytes.
    - The runtime's gates (C33). The call filter admits exactly the calls that
      carry none of the twelve calls v1 rules out at any depth, and whose
      opaque payloads are canonical, light, free of the twelve and of further
      payloads.
    - Reversible transfers and the scheduler (C18 to C20, C34). The key of an
      enrolled account takes nothing out of it within this pallet; held
      balances are the pending transfers; a transfer on the scheduler pallet
      does not run before its delay; every task in a past agenda is still
      inside the range the next block services, once the timestamp agendas were
      first serviced ([starved_first_servicing] shows what happens before). The
      scheduler's theorems take as hypotheses what the filed calls do to it; in
      this runtime [execute_transfer] is the only call a pallet files.
    - Vesting (C35) and supply (C36). The vesting pallet's own consistency
      check fails on nothing but a treasury that is the pot, unless the launch
      rebase overflowed ([rebase_can_break_a_schedule]); issuance, pool and owed
      rewards together never exceed the cap, if transaction fees are withdrawn
      and the other pallets do not mint.

    Further theorems of the files, not in this list, cover the remaining
    branches: replay and swapped ciphertexts, exact burns, Merkle proofs of the
    pallet, deposits, quotas, claims, placement, note selection, fee floors,
    public-batch provers, profiles, address and miner-key codecs, share and
    block rules, the retarget.

    ** Bounds and fuel

    Integers are [Z] with the width's wrap, saturation or check written out;
    [usize] is the 32-bit one of the runtime's wasm target. Fuel is used in
    these places: [GROW_FUEL] = 20 for the growth loop, which stops at
    [CIRCUIT_MAX_TREE_DEPTH] = 20 ([grow_depth_spec] shows it is enough); the
    [max_walk] bound the branch walk takes as an argument; one unit for the
    payloads the call filter opens ([filter_terminates]: any positive fuel
    gives the same answer); the number of agendas left for the scheduler's
    servicing loop ([service_loop_fuel]: the fuel never decides); the number of
    blocks left for the wallet's chunked walk and of leaves left for its
    windows ([pass_reaches_a_verdict]: they never decide); and the output
    length for the deterministic expander of the key schedule. The leaf's
    Merkle path has the circuit's twenty levels and its depth five bits. The
    inclusion wait of a send is a list of polls, as many as fit its deadline.
    Every other loop is structural. A panic of the source is an error value of
    the model, and the totality theorems show it is not reached.

    ** What is not modelled

    Code outside the repository is a parameter: plonky2's proving and verifying
    (with soundness as a hypothesis), the sponge, ML-KEM (decapsulation taken
    to be always right, where FIPS 203 allows a negligible failure rate),
    librandomx, the client database, the trie behind a block body's root. The
    id of a reversible transfer is taken not to collide across counters. A save
    of the wallet's store is three outcomes: written, not written, or published
    by the rename without the directory being synced. Left out are
    networking, the node service and its RPC server, the stratum server,
    JSON and HTTP, the files behind the store and the circuit artifacts,
    benchmarks and weights except where the code acts on them (multisig,
    scheduler), the forked Substrate pallets reached through interfaces
    (balances, timestamp, treasury), the wormhole recorder, the wallet's
    command line and its signed shield call, zeroization and redacted
    printing, the bech32m rendering of addresses, the vendored Substrate
    crates, and the runtime's macro-generated composition. The constants the
    runtime fixes are parameters with the hypotheses the code's own assertions
    state. *)

From stdpp Require Import base option list list_numbers numbers gmap sets sorting.
From Stdlib Require Import ZArith Lia.

#[export] Set Default Goal Selector "!".
Global Open Scope Z_scope.
Declare Scope qnero_scope.
Delimit Scope qnero_scope with qnero.

(** ** Results

    Rust's [Result<A, E>], with the error type first so that [result E] is a
    monad and stdpp's [x ← c; k] notation reads as the source's [?]. *)
Inductive result (E A : Type) : Type :=
| Ok (a : A)
| Err (e : E).
Arguments Ok {E A} a.
Arguments Err {E A} e.

#[global] Instance result_ret {E} : MRet (result E) := fun A a => Ok a.
#[global] Instance result_bind {E} : MBind (result E) := fun A B f r =>
  match r with Ok a => f a | Err e => Err e end.
#[global] Instance result_eq_dec {E A} `{EqDecision E, EqDecision A} : EqDecision (result E A).
Proof. solve_decision. Defined.

(** [ensure!(cond, err)]. *)
Definition ensure {E} (b : bool) (e : E) : result E unit :=
  if b then Ok tt else Err e.

(** [Option::ok_or]. *)
Definition ok_or {E A} (o : option A) (e : E) : result E A :=
  match o with Some a => Ok a | None => Err e end.

(** [Result::map_err]. *)
Definition map_err {E E' A} (f : E → E') (r : result E A) : result E' A :=
  match r with Ok a => Ok a | Err e => Err (f e) end.

Definition is_ok {E A} (r : result E A) : bool :=
  match r with Ok _ => true | Err _ => false end.

(** [Result::unwrap_or]. *)
Definition unwrap_or {E A} (r : result E A) (d : A) : A :=
  match r with Ok a => a | Err _ => d end.

(** A [for] loop whose body may return early: the state-and-error fold. *)
Fixpoint fold_result {E S A} (f : S → A → result E S) (s : S) (l : list A) : result E S :=
  match l with
  | [] => Ok s
  | x :: l' => s' ← f s x; fold_result f s' l'
  end.

(** A loop that only checks. *)
Fixpoint all_ok {E A} (f : A → result E unit) (l : list A) : result E unit :=
  match l with
  | [] => Ok tt
  | x :: l' => _ ← f x; all_ok f l'
  end.

Section Results.
Context {E : Type}.

Lemma bind_Ok {A B} (r : result E A) (f : A → result E B) b :
  (r ≫= f) = Ok b ↔ ∃ a, r = Ok a ∧ f a = Ok b.
Proof. destruct r; naive_solver. Qed.

Lemma bind_Err {A B} (r : result E A) (f : A → result E B) e :
  (r ≫= f) = Err e ↔ r = Err e ∨ ∃ a, r = Ok a ∧ f a = Err e.
Proof. destruct r; naive_solver. Qed.

Lemma ensure_Ok b (e : E) u : ensure b e = Ok u ↔ b = true.
Proof. destruct b, u; naive_solver. Qed.

Lemma ok_or_Ok {A} (o : option A) (e : E) a : ok_or o e = Ok a ↔ o = Some a.
Proof. destruct o; naive_solver. Qed.

Lemma map_err_Ok {E' A} (f : E' → E) (r : result E' A) a :
  map_err f r = Ok a ↔ r = Ok a.
Proof. destruct r; naive_solver. Qed.

Lemma is_ok_spec {A} (r : result E A) : is_ok r = true ↔ ∃ a, r = Ok a.
Proof. destruct r; naive_solver. Qed.

Lemma unwrap_or_Ok {A} (r : result E A) d : is_ok r = true → r = Ok (unwrap_or r d).
Proof. by destruct r. Qed.

Lemma fold_result_app {S A} (f : S → A → result E S) s l1 l2 :
  fold_result f s (l1 ++ l2) = (s' ← fold_result f s l1; fold_result f s' l2).
Proof. revert s; induction l1 as [|x l1 IH]; intros s; [done|]. cbn. destruct (f s x); cbn; auto. Qed.

(** The loop rule: an invariant indexed by the prefix already walked. *)
Lemma fold_result_inv {S A} (I : list A → S → Prop) (f : S → A → result E S) l s s' :
  I [] s →
  (∀ pre x s1 s2, I pre s1 → f s1 x = Ok s2 → x ∈ l → I (pre ++ [x]) s2) →
  fold_result f s l = Ok s' → I l s'.
Proof.
  intros H0 Hstep.
  assert (Hgen : ∀ l2 pre s1, pre ++ l2 = l → I pre s1 → fold_result f s1 l2 = Ok s' → I l s').
  { induction l2 as [|x l2 IH]; intros pre s1 Heq HI Hf.
    - cbn in Hf. simplify_eq. by rewrite app_nil_r.
    - cbn in Hf. apply bind_Ok in Hf as (s2 & Hx & Hf).
      apply (IH (pre ++ [x]) s2); [by rewrite <- app_assoc| |done].
      eapply Hstep; eauto. rewrite <- Heq. set_solver. }
  intros Hf. by apply (Hgen l [] s).
Qed.

(** Progress for a loop: each body succeeds from every state the
    invariant allows. *)
Lemma fold_result_total {S A} (I : list A → S → Prop) (f : S → A → result E S) l s :
  I [] s →
  (∀ pre x s1, I pre s1 → pre ++ [x] `prefix_of` l →
     ∃ s2, f s1 x = Ok s2 ∧ I (pre ++ [x]) s2) →
  ∃ s', fold_result f s l = Ok s' ∧ I l s'.
Proof.
  intros H0 Hstep.
  assert (Hgen : ∀ l2 pre s1, pre ++ l2 = l → I pre s1 →
    ∃ s', fold_result f s1 l2 = Ok s' ∧ I l s').
  { induction l2 as [|x l2 IH]; intros pre s1 Heq HI.
    - exists s1. rewrite app_nil_r in Heq. by subst.
    - destruct (Hstep pre x s1 HI) as (s2 & Hf & HI2).
      { exists l2. by rewrite <- app_assoc. }
      destruct (IH (pre ++ [x]) s2) as (s' & Hf' & HI'); [by rewrite <- app_assoc|done|].
      exists s'. cbn. by rewrite Hf. }
  by apply (Hgen l [] s).
Qed.

Lemma all_ok_Ok {A} (f : A → result E unit) l :
  all_ok f l = Ok tt ↔ Forall (λ x, f x = Ok tt) l.
Proof.
  induction l as [|x l IH]; cbn; [naive_solver|].
  rewrite bind_Ok, Forall_cons. split.
  - intros ([] & ? & ?). naive_solver.
  - intros [? ?]. exists tt. naive_solver.
Qed.

(** Every error a computation can end with satisfies [P]. *)
Definition errs_in {A} (P : E → Prop) (r : result E A) : Prop :=
  match r with Err e => P e | Ok _ => True end.

Lemma errs_in_bind {A B} P (r : result E A) (f : A → result E B) :
  errs_in P r → (∀ a, r = Ok a → errs_in P (f a)) → errs_in P (r ≫= f).
Proof. destruct r; cbn; auto. Qed.

Lemma errs_in_ensure {B} P b e (f : unit → result E B) :
  P e → (b = true → errs_in P (f tt)) → errs_in P (ensure b e ≫= f).
Proof. by destruct b; cbn; auto. Qed.

Lemma errs_in_ok_or {A B} P (o : option A) e (f : A → result E B) :
  P e → (∀ x, o = Some x → errs_in P (f x)) → errs_in P (ok_or o e ≫= f).
Proof. destruct o; cbn; auto. Qed.

Lemma errs_in_map_err {E' A B} P (g : E' → E) (r : result E' A) (f : A → result E B) :
  (∀ e, P (g e)) → (∀ x, r = Ok x → errs_in P (f x)) → errs_in P (map_err g r ≫= f).
Proof. destruct r; cbn; auto. Qed.
End Results.

(** Steps through a monadic chain, leaving the errors' own goals. *)
Ltac errs_step :=
  first [ apply errs_in_ensure | apply errs_in_ok_or | apply errs_in_map_err | apply errs_in_bind ].

(** ** Tactics

    [res_inv] turns every successful bind, [ensure], [ok_or] and [map_err]
    hypothesis into the facts it stands for. *)
Ltac res_inv_step :=
  match goal with
  | H : (_ ≫= _) = Ok _ |- _ =>
      apply bind_Ok in H; let x := fresh "v" in let Hx := fresh "Hv" in
      destruct H as (x & Hx & H)
  | H : mbind _ _ = Ok _ |- _ =>
      apply bind_Ok in H; let x := fresh "v" in let Hx := fresh "Hv" in
      destruct H as (x & Hx & H)
  | H : ensure _ _ = Ok _ |- _ => apply ensure_Ok in H
  | H : ok_or _ _ = Ok _ |- _ => apply ok_or_Ok in H
  | H : map_err _ _ = Ok _ |- _ => apply map_err_Ok in H
  | H : Ok _ = Ok _ |- _ => injection H as H
  | H : Err _ = Ok _ |- _ => discriminate H
  | H : Ok _ = Err _ |- _ => discriminate H
  | u : unit |- _ => destruct u
  | H : bool_decide _ = true |- _ => apply bool_decide_eq_true in H
  | H : negb _ = true |- _ => apply negb_true_iff in H
  | H : bool_decide _ = false |- _ => apply bool_decide_eq_false in H
  | H : _ && _ = true |- _ => apply andb_true_iff in H as [? ?]
  | H : (_ <=? _) = true |- _ => apply Z.leb_le in H
  | H : (_ <? _) = true |- _ => apply Z.ltb_lt in H
  | H : (_ =? _) = true |- _ => apply Z.eqb_eq in H
  | H : (_ <=? _) = false |- _ => apply Z.leb_gt in H
  | H : (_ <? _) = false |- _ => apply Z.ltb_ge in H
  | H : (_ =? _) = false |- _ => apply Z.eqb_neq in H
  end.
Ltac res_inv := repeat res_inv_step.

(** Splits the innermost [match]/[if] scrutinee of a hypothesis. *)
Ltac case_in H :=
  match type of H with
  | context [ match ?e with _ => _ end ] =>
      lazymatch e with
      | context [ match _ with _ => _ end ] => fail
      | _ => let E := fresh "E" in destruct e eqn:E
      end
  end.

(** ** Machine integers

    A [w]-bit unsigned integer is a [Z] in [[0, 2^w)]; the operations below
    are Rust's saturating, checked and truncating ones at that width. *)
Definition u_max (w : Z) : Z := 2 ^ w - 1.
Definition in_u (w z : Z) : Prop := 0 ≤ z < 2 ^ w.
Definition sat_add (w a b : Z) : Z := Z.min (a + b) (u_max w).
Definition sat_sub (a b : Z) : Z := Z.max 0 (a - b).
Definition sat_mul (w a b : Z) : Z := Z.min (a * b) (u_max w).
Definition sat_pow (w a b : Z) : Z := Z.min (a ^ b) (u_max w).
Definition checked_add (w a b : Z) : option Z :=
  if a + b <=? u_max w then Some (a + b) else None.
Definition checked_sub (a b : Z) : option Z :=
  if b <=? a then Some (a - b) else None.
Definition checked_mul (w a b : Z) : option Z :=
  if a * b <=? u_max w then Some (a * b) else None.
Definition checked_div (a b : Z) : option Z :=
  if b =? 0 then None else Some (a / b).
(** [uN::try_from] of a non-negative integer. *)
Definition try_u (w a : Z) : option Z :=
  if a <=? u_max w then Some a else None.
(** [uN::div_ceil]. *)
Definition div_ceil (a b : Z) : Z := if a mod b =? 0 then a / b else a / b + 1.
(** [usize] of the wasm32 runtime the pallets are compiled to. *)
Definition usize_bits : Z := 32.

#[global] Instance in_u_dec w z : Decision (in_u w z).
Proof. unfold in_u. apply _. Defined.

Section Integers.
Lemma u_max_nonneg w : 0 ≤ w → 0 ≤ u_max w.
Proof. intros. unfold u_max. pose proof (Z.pow_pos_nonneg 2 w). lia. Qed.

Lemma sat_add_exact w a b : a + b ≤ u_max w → sat_add w a b = a + b.
Proof. unfold sat_add. lia. Qed.

Lemma sat_mul_exact w a b : a * b ≤ u_max w → sat_mul w a b = a * b.
Proof. unfold sat_mul. lia. Qed.

Lemma sat_sub_exact a b : b ≤ a → sat_sub a b = a - b.
Proof. unfold sat_sub. lia. Qed.

Lemma sat_add_in w a b : 0 ≤ w → 0 ≤ a → 0 ≤ b → in_u w (sat_add w a b).
Proof. intros. pose proof (u_max_nonneg w). unfold in_u, sat_add, u_max in *. lia. Qed.

Lemma sat_sub_in w a b : in_u w a → 0 ≤ b → in_u w (sat_sub a b).
Proof. unfold in_u, sat_sub. lia. Qed.

Lemma checked_add_Some w a b c :
  checked_add w a b = Some c ↔ c = a + b ∧ a + b ≤ u_max w.
Proof. unfold checked_add. destruct (Z.leb_spec (a + b) (u_max w)); naive_solver lia. Qed.

Lemma checked_mul_Some w a b c :
  checked_mul w a b = Some c ↔ c = a * b ∧ a * b ≤ u_max w.
Proof. unfold checked_mul. destruct (Z.leb_spec (a * b) (u_max w)); naive_solver lia. Qed.

Lemma checked_sub_Some a b c : checked_sub a b = Some c ↔ c = a - b ∧ b ≤ a.
Proof. unfold checked_sub. destruct (Z.leb_spec b a); naive_solver lia. Qed.

Lemma try_u_Some w a c : try_u w a = Some c ↔ c = a ∧ a ≤ u_max w.
Proof. unfold try_u. destruct (Z.leb_spec a (u_max w)); naive_solver lia. Qed.

(** [div_ceil] is the least [q] with [a <= q * b]. *)
Lemma div_ceil_spec a b q : 0 < b → (div_ceil a b ≤ q ↔ a ≤ q * b).
Proof.
  intros Hb. unfold div_ceil. pose proof (Z.mod_pos_bound a b Hb).
  pose proof (Z.div_mod a b). destruct (Z.eqb_spec (a mod b) 0); nia.
Qed.

Lemma div_ceil_lower a b : 0 < b → a ≤ div_ceil a b * b.
Proof. intros Hb. by apply div_ceil_spec. Qed.

Lemma div_ceil_nonneg a b : 0 < b → 0 ≤ a → 0 ≤ div_ceil a b.
Proof. intros Hb Ha. pose proof (div_ceil_lower a b Hb). nia. Qed.

(** Rounding up once costs at most rounding up each summand. *)
Lemma div_ceil_add_le a1 a2 b :
  0 < b → div_ceil (a1 + a2) b ≤ div_ceil a1 b + div_ceil a2 b.
Proof.
  intros Hb. apply div_ceil_spec; [done|].
  pose proof (div_ceil_lower a1 b Hb). pose proof (div_ceil_lower a2 b Hb). nia.
Qed.
End Integers.

Lemma filter_none {A} (Q : A → Prop) `{∀ x, Decision (Q x)} (l : list A) :
  (∀ x, x ∈ l → ¬ Q x) → base.filter Q l = [].
Proof.
  induction l as [|x l IH]; intros Hn; [done|]. rewrite filter_cons_False by (apply Hn; by left).
  apply IH. intros. apply Hn. by right.
Qed.

Lemma Forall_mono {A} (P Q : A → Prop) (l : list A) :
  (∀ x, P x → Q x) → Forall P l → Forall Q l.
Proof. induction 2; constructor; auto. Qed.

(** Sums of a [Z]-valued measure over a list. *)
Definition sum_by {A} (f : A → Z) (l : list A) : Z := foldr (λ x s, f x + s) 0 l.

Section Sums.
Context {A : Type}.
Implicit Types (f g : A → Z) (l : list A).

Lemma sum_by_cons f x l : sum_by f (x :: l) = f x + sum_by f l.
Proof. done. Qed.

Lemma sum_by_app f l1 l2 : sum_by f (l1 ++ l2) = sum_by f l1 + sum_by f l2.
Proof. induction l1 as [|x l1 IH]; [done|]. cbn [app]. rewrite !sum_by_cons. lia. Qed.

Lemma sum_by_le f g l : (∀ x, x ∈ l → f x ≤ g x) → sum_by f l ≤ sum_by g l.
Proof.
  induction l as [|x l IH]; intros Hf; [done|]. rewrite !sum_by_cons.
  apply Z.add_le_mono; [apply Hf; set_solver|]. apply IH. intros. apply Hf. set_solver.
Qed.

Lemma sum_by_const c l : sum_by (λ _, c) l = c * Z.of_nat (length l).
Proof. induction l as [|x l IH]; [cbn; lia|]. rewrite sum_by_cons, IH. cbn [length]. lia. Qed.

Lemma sum_by_nonneg f l : (∀ x, x ∈ l → 0 ≤ f x) → 0 ≤ sum_by f l.
Proof. intros Hf. etrans; [|by apply (sum_by_le (λ _, 0))]. rewrite sum_by_const. lia. Qed.

Lemma sum_by_perm f l1 l2 : l1 ≡ₚ l2 → sum_by f l1 = sum_by f l2.
Proof. induction 1; rewrite ?sum_by_cons in *; lia. Qed.

(** [ceil (sum b_i / q) <= sum (ceil (b_i / q))]. *)
Lemma div_ceil_sum_le f l b :
  0 < b → div_ceil (sum_by f l) b ≤ sum_by (λ x, div_ceil (f x) b) l.
Proof.
  intros Hb. induction l as [|x l IH].
  - apply div_ceil_spec; cbn; lia.
  - rewrite !sum_by_cons. etrans; [by apply div_ceil_add_le|]. lia.
Qed.
End Sums.

(** ** Bytes *)

(** The [n] little-endian bytes of [z]: [uN::to_le_bytes]. *)
Fixpoint le_bytes (n : nat) (z : Z) : list Z :=
  match n with
  | O => []
  | S n' => z mod 256 :: le_bytes n' (z / 256)
  end.

(** [uN::from_le_bytes]. *)
Fixpoint le_val (bs : list Z) : Z :=
  match bs with
  | [] => 0
  | b :: bs' => b + 256 * le_val bs'
  end.

Definition is_byte (b : Z) : Prop := 0 ≤ b < 256.

Section Bytes.
Lemma length_le_bytes n z : length (le_bytes n z) = n.
Proof. revert z; induction n; intros; cbn; auto. Qed.

Lemma le_bytes_are_bytes n z : Forall is_byte (le_bytes n z).
Proof.
  revert z; induction n as [|n IH]; intros z; cbn; constructor; [|done].
  apply Z.mod_pos_bound. lia.
Qed.

Lemma pow256_S n : 256 ^ Z.of_nat (S n) = 256 * 256 ^ Z.of_nat n.
Proof. rewrite Nat2Z.inj_succ, Z.pow_succ_r; lia. Qed.

Lemma le_val_le_bytes n z : 0 ≤ z < 256 ^ Z.of_nat n → le_val (le_bytes n z) = z.
Proof.
  revert z; induction n as [|n IH]; intros z Hz; cbn.
  - cbn in Hz. lia.
  - rewrite pow256_S in Hz. rewrite IH.
    + pose proof (Z.div_mod z 256). lia.
    + split; [apply Z.div_pos; lia|apply Z.div_lt_upper_bound; lia].
Qed.

Lemma le_val_bound bs : Forall is_byte bs → 0 ≤ le_val bs < 256 ^ Z.of_nat (length bs).
Proof.
  induction 1 as [|b bs Hb _ IH]; [cbn; lia|].
  cbn [le_val length]. rewrite pow256_S. unfold is_byte in Hb. nia.
Qed.

Lemma le_bytes_le_val bs n : Forall is_byte bs → length bs = n → le_bytes n (le_val bs) = bs.
Proof.
  intros Hbs <-. induction Hbs as [|b bs Hb Hbs IH]; [done|].
  cbn [le_val length le_bytes]. unfold is_byte in Hb.
  replace ((b + 256 * le_val bs) mod 256) with b.
  2: { rewrite (Z.mul_comm 256), Z.mod_add by lia. by rewrite Z.mod_small. }
  replace ((b + 256 * le_val bs) / 256) with (le_val bs); [by rewrite IH|].
  rewrite (Z.mul_comm 256), Z.div_add by lia. rewrite Z.div_small by lia. lia.
Qed.

Lemma le_bytes_inj n z1 z2 :
  0 ≤ z1 < 256 ^ Z.of_nat n → 0 ≤ z2 < 256 ^ Z.of_nat n →
  le_bytes n z1 = le_bytes n z2 → z1 = z2.
Proof.
  intros H1 H2 Heq. rewrite <- (le_val_le_bytes n z1), <- (le_val_le_bytes n z2) by done.
  by rewrite Heq.
Qed.
End Bytes.

Arguments le_bytes : simpl never.
Arguments le_val : simpl never.
Arguments sum_by : simpl never.

(** ** Shared automation *)
Create HintDb qnero.
Create Rewrite HintDb qnero.
#[export] Hint Resolve length_le_bytes le_bytes_are_bytes : qnero.
#[export] Hint Resolve sat_add_in sat_sub_in : qnero.
#[export] Hint Rewrite @sum_by_app @length_app length_le_bytes : qnero.

(** [u_lia] is [lia] with the machine-integer definitions opened. *)
Ltac u_unfold :=
  unfold in_u, sat_add, sat_sub, sat_mul, sat_pow, u_max, usize_bits, is_byte in *.
Ltac u_lia := u_unfold; lia.
