(* ===== verification/Crypto.v ===== *)
(** * External primitives

    What the repository takes from crates it does not contain, as type
    classes: an operation class that the models are parameterised by, and a
    law class with the documented behaviour the theorems rely on. Nothing here
    is defined; [ToyCrypto] at the end is the concrete instance the witnesses
    evaluate, and it discharges every law. *)

From stdpp Require Import base list numbers.
From S2P Require Import Prelude.
#[local] Open Scope Z_scope.

(** The Goldilocks prime, [tree::GOLDILOCKS_P]. *)
Definition GOLDILOCKS_P : Z := 0xFFFFFFFF00000001.

(** A 32-byte digest, as bytes. *)
Abbreviation Hash256 := (list Z).

Definition zero_hash : Hash256 := replicate 32 0.

(** The four little-endian 8-byte limbs of a digest:
    [digest.chunks_exact(8).map(u64::from_le_bytes)]. *)
Definition limbs (h : Hash256) : list Z :=
  [le_val (take 8 h); le_val (take 8 (drop 8 h));
   le_val (take 8 (drop 16 h)); le_val (take 8 (drop 24 h))].

Definition is_digest (h : Hash256) : Prop := length h = 32%nat ∧ Forall is_byte h.

(** Every limb is below the modulus. *)
Definition canonical_limbs (h : Hash256) : bool := forallb (λ l, l <? GOLDILOCKS_P) (limbs h).

(** A sponge output's shape. *)
Definition good_hash (h : Hash256) : Prop := is_digest h ∧ canonical_limbs h = true.

Arguments limbs : simpl never.
Arguments canonical_limbs : simpl never.

(** [qp_plonky2_verifier]'s field: a public input is a field element, and the
    only thing the chain reads of one is [to_canonical_u64]. *)
Class FieldOps (F : Type) := {
  to_canonical_u64 : F → Z;
}.
Class FieldLaws (F : Type) `{FieldOps F} := {
  (** The canonical representative is below the modulus. *)
  to_canonical_u64_range (x : F) : 0 ≤ to_canonical_u64 x < GOLDILOCKS_P;
}.

(** [qp_poseidon_core]: the Poseidon2 sponge and its codecs. [felt] is its
    [Goldilocks] type. *)
Class PoseidonOps := {
  felt : Type;
  felt_eq_dec :: EqDecision felt;
  goldilocks_zero : felt;
  (** [Goldilocks::new], for constants. *)
  goldilocks_new : Z → felt;
  (** [Goldilocks::from_u64], reducing. *)
  from_u64 : Z → felt;
  (** [serialization::bytes_to_digest], strict. *)
  bytes_to_digest : Hash256 → option (list felt);
  (** [serialization::bytes_to_u64s_compact]. *)
  bytes_to_u64s_compact : list Z → list Z;
  (** [serialization::u64_to_felts]. *)
  u64_to_felts : Z → list felt;
  (** [hash_to_bytes], over field elements. *)
  hash_to_bytes : list felt → Hash256;
  (** [hash_bytes], the byte-mode sponge. *)
  hash_bytes : list Z → Hash256;
}.
Class PoseidonLaws `{PoseidonOps} := {
  (** A digest decodes exactly when its four limbs are canonical. *)
  bytes_to_digest_Some h :
    is_digest h → (is_Some (bytes_to_digest h) ↔ canonical_limbs h = true);
  (** A strict decode is injective, and yields four elements. *)
  bytes_to_digest_length h fs : bytes_to_digest h = Some fs → length fs = 4%nat;
  bytes_to_digest_inj h1 h2 fs :
    is_digest h1 → is_digest h2 →
    bytes_to_digest h1 = Some fs → bytes_to_digest h2 = Some fs → h1 = h2;
  (** Reduction is injective below the modulus. *)
  from_u64_inj a b :
    0 ≤ a < GOLDILOCKS_P → 0 ≤ b < GOLDILOCKS_P → from_u64 a = from_u64 b → a = b;
  (** The compact codec reads eight little-endian bytes per element. *)
  bytes_to_u64s_compact_nil : bytes_to_u64s_compact [] = [];
  bytes_to_u64s_compact_limb limb rest :
    length limb = 8%nat → Forall is_byte limb →
    bytes_to_u64s_compact (limb ++ rest) = le_val limb :: bytes_to_u64s_compact rest;
  (** A sponge output is four canonical limbs. *)
  hash_to_bytes_digest fs : is_digest (hash_to_bytes fs);
  hash_to_bytes_canonical fs : canonical_limbs (hash_to_bytes fs) = true;
}.

(** [plonky2]: proof bytes, circuit data and verification. *)
Class PlonkyOps (F : Type) := {
  proof : Type;
  common_data : Type;
  verifier_data : Type;
  common : verifier_data → common_data;
  (** [ProofWithPublicInputs::from_bytes] against a circuit's common data. *)
  proof_from_bytes : list Z → common_data → option proof;
  proof_to_bytes : proof → list Z;
  public_inputs : proof → list F;
  (** [VerifierCircuitData::verify]. *)
  plonky_verify : verifier_data → proof → bool;
}.

(** [sp_arithmetic] and [sp_io]. *)
Class SpOps := {
  (** [Permill::mul_ceil]; the rate is given in parts per million. *)
  mul_ceil : Z → Z → Z;
  blake2_256 : list Z → Hash256;
}.
Class SpLaws `{SpOps} := {
  (** "Multiplication that always rounds up." *)
  mul_ceil_spec parts n :
    0 ≤ parts ≤ 1000000 → 0 ≤ n → mul_ceil parts n = div_ceil (parts * n) 1000000;
}.

(** ** Digest lemmas *)
Section Digests.
Lemma GOLDILOCKS_P_lt : GOLDILOCKS_P < 256 ^ 8.
Proof. vm_compute. done. Qed.

Lemma is_digest_zero : is_digest zero_hash.
Proof. split; [done|]. apply Forall_replicate. u_lia. Qed.

(** Four canonical limbs, each written as eight bytes. *)
Definition digest_of_limbs (ls : list Z) : Hash256 := concat (le_bytes 8 <$> ls).

Lemma digest_of_limbs_digest ls : length ls = 4%nat → is_digest (digest_of_limbs ls).
Proof.
  intros Hl. unfold is_digest, digest_of_limbs. split.
  - do 5 (destruct ls as [|? ls]; try done).
  - apply Forall_concat, Forall_fmap, Forall_true. intros. apply le_bytes_are_bytes.
Qed.

Lemma limbs_digest_of_limbs a b c d :
  limbs (digest_of_limbs [a; b; c; d]) =
    [le_val (le_bytes 8 a); le_val (le_bytes 8 b); le_val (le_bytes 8 c); le_val (le_bytes 8 d)].
Proof. done. Qed.

Lemma digest_of_limbs_canonical ls :
  length ls = 4%nat → Forall (λ l, 0 ≤ l < GOLDILOCKS_P) ls →
  limbs (digest_of_limbs ls) = ls ∧ canonical_limbs (digest_of_limbs ls) = true.
Proof.
  intros Hl Hls. pose proof GOLDILOCKS_P_lt as HP.
  destruct ls as [|a [|b [|c [|d [|]]]]]; try done.
  assert (Hlimbs : limbs (digest_of_limbs [a; b; c; d]) = [a; b; c; d]).
  { rewrite limbs_digest_of_limbs. decompose_Forall_hyps.
    change (Z.of_nat 8) with 8 in *. rewrite !le_val_le_bytes by (cbn in *; lia). done. }
  split; [done|]. unfold canonical_limbs. rewrite Hlimbs. decompose_Forall_hyps.
  cbn. rewrite !(proj2 (Z.ltb_lt _ _)) by lia. done.
Qed.
End Digests.
#[export] Hint Resolve digest_of_limbs_digest is_digest_zero : qnero.

Section LimbRoundTrip.
Lemma digest_of_limbs_limbs h : is_digest h → digest_of_limbs (limbs h) = h.
Proof.
  intros [Hlen Hb]. unfold digest_of_limbs, limbs. cbn [fmap list_fmap concat].
  rewrite !le_bytes_le_val.
  - rewrite app_nil_r. replace 24%nat with (16 + 8)%nat by done. rewrite <- drop_drop.
    replace 16%nat with (8 + 8)%nat at 1 2 by done. rewrite <- !drop_drop.
    rewrite (take_ge (drop 8 (drop 8 (drop 8 h)))) by (rewrite !length_drop; lia).
    by rewrite !take_drop.
  - apply Forall_take, Forall_drop, Hb.
  - rewrite length_take, length_drop. lia.
  - apply Forall_take, Forall_drop, Hb.
  - rewrite length_take, length_drop. lia.
  - apply Forall_take, Forall_drop, Hb.
  - rewrite length_take, length_drop. lia.
  - by apply Forall_take.
  - rewrite length_take. lia.
Qed.

Lemma limbs_inj h1 h2 : is_digest h1 → is_digest h2 → limbs h1 = limbs h2 → h1 = h2.
Proof.
  intros H1 H2 Heq. rewrite <- (digest_of_limbs_limbs h1), <- (digest_of_limbs_limbs h2) by done.
  by rewrite Heq.
Qed.
End LimbRoundTrip.

(** ** A concrete instance

    Small, total and executable: what the witnesses run. It satisfies the laws
    above, so every hypothesis that names one of these classes can hold. *)
Module ToyCrypto.
Definition mix (seed : Z) (xs : list Z) : Z :=
  foldl (λ acc x, (acc * 1000003 + x + 1) mod GOLDILOCKS_P) seed xs.

Definition sponge (xs : list Z) : Hash256 :=
  digest_of_limbs ((λ seed, mix seed xs mod GOLDILOCKS_P) <$> [1; 2; 3; 4]).

Fixpoint u64s (fuel : nat) (bs : list Z) : list Z :=
  match fuel, bs with
  | S fuel', _ :: _ => le_val (take 8 bs) :: u64s fuel' (drop 8 bs)
  | _, _ => []
  end.

(** Any fuel of at least the length reads everything. *)
Lemma u64s_fuel n m bs : (length bs ≤ n)%nat → (length bs ≤ m)%nat → u64s n bs = u64s m bs.
Proof.
  revert m bs. induction n as [|n IH]; intros [|m] [|b bs]; cbn [u64s length]; try lia; try done.
  intros Hn Hm. f_equal. apply IH; rewrite length_drop; cbn [length]; lia.
Qed.

#[global] Instance field_ops : FieldOps Z := {| to_canonical_u64 x := x mod GOLDILOCKS_P |}.
#[global] Instance field_laws : FieldLaws Z.
Proof. constructor. intros x. apply Z.mod_pos_bound. done. Qed.

#[global] Instance poseidon_ops : PoseidonOps := {|
  felt := Z;
  felt_eq_dec := _;
  goldilocks_zero := 0;
  goldilocks_new z := z mod GOLDILOCKS_P;
  from_u64 z := z mod GOLDILOCKS_P;
  bytes_to_digest h := if canonical_limbs h then Some (limbs h) else None;
  bytes_to_u64s_compact bs := u64s (length bs) bs;
  u64_to_felts z := [z / 2 ^ 32; z mod 2 ^ 32];
  hash_to_bytes := sponge;
  hash_bytes bs := digest_of_limbs [Z.of_nat (length bs); foldl Z.add 0 bs; 7; 9];
|}.

Lemma sponge_limbs xs :
  Forall (λ l, 0 ≤ l < GOLDILOCKS_P) ((λ seed, mix seed xs mod GOLDILOCKS_P) <$> [1; 2; 3; 4]).
Proof. apply Forall_fmap, Forall_true. intros. apply Z.mod_pos_bound. done. Qed.

#[global] Instance poseidon_laws : PoseidonLaws.
Proof.
  constructor; cbn -[sponge].
  - intros h _. destruct (canonical_limbs h); [split; intros _; [done|by eexists]|].
    split; [by intros [? ?]|done].
  - intros h fs. destruct (canonical_limbs h); naive_solver.
  - intros h1 h2 fs Hd1 Hd2 E1 E2. apply limbs_inj; [done..|].
    destruct (canonical_limbs h1), (canonical_limbs h2); congruence.
  - intros a b Ha Hb. rewrite !Z.mod_small by done. done.
  - done.
  - intros l rest Hl _. do 8 (destruct l as [|? l]; [done|]). destruct l; [|done].
    match goal with |- u64s (length ?l) ?l = _ =>
      transitivity (u64s (S (length l)) l); [apply u64s_fuel; lia|] end.
    cbn [app]. match goal with |- u64s (S ?n) (?b :: ?l) = _ =>
      change (le_val (take 8 (b :: l)) :: u64s n (drop 8 (b :: l)) = le_val [z; z0; z1; z2; z3; z4; z5; z6]
        :: u64s (length rest) rest) end.
    cbn [take drop]. f_equal. apply u64s_fuel; cbn; lia.
  - intros fs. by apply digest_of_limbs_digest.
  - intros fs. apply digest_of_limbs_canonical; [done|apply sponge_limbs].
Qed.

#[global] Instance sp_ops : SpOps := {|
  mul_ceil parts n := div_ceil (parts * n) 1000000;
  blake2_256 := sponge;
|}.
#[global] Instance sp_laws : SpLaws.
Proof. constructor. done. Qed.
End ToyCrypto.
