(* ===== verification/NoteRules.v ===== *)
(** * The rules a chain evaluates natively

    [crates/qnero-circuit/src/chain.rs]: the ciphertext length table, the
    ciphertext digest and the outer half of the note commitment. Both the
    shielded pallet and the wallet call these. *)

From stdpp Require Import base list numbers.
From S2P Require Import Prelude Crypto.
#[local] Open Scope Z_scope.

(** [domain::CM]. *)
Definition CM : Z := 0x716e0004.
Definition MAX_TREE_DEPTH : Z := 20.
Definition VALUE_BITS : Z := 62.
Definition MAX_VALUE : Z := 2 ^ VALUE_BITS - 1.
Definition CRYPTO_SUITE_ML_KEM_1024 : Z := 1.
Definition SUITE_1_CIPHERTEXT_BYTES : Z := 1792.
Definition CT_SUITE_OFFSET : nat := 1.
Definition CT_HEADER_LEN : nat := 3.
(** [b"qnero/ct"]. *)
Definition CT_DIGEST_PREFIX : list Z := [113; 110; 101; 114; 111; 47; 99; 116].

(** The suite a serialized note ciphertext declares: the little-endian pair
    after the version byte, when there are three bytes to read. *)
Definition declared_crypto_suite (bytes : list Z) : option Z :=
  if (length bytes <? CT_HEADER_LEN)%nat then None
  else Some (le_val [nth CT_SUITE_OFFSET bytes 0; nth (CT_SUITE_OFFSET + 1) bytes 0]).

Definition ciphertext_len (suite : Z) : option Z :=
  if suite =? CRYPTO_SUITE_ML_KEM_1024 then Some SUITE_1_CIPHERTEXT_BYTES else None.

(** The bytes [ct_digest] hashes. [len as u32] truncates, and so does
    [le_bytes 4]. *)
Definition ct_preimage (ciphertexts : list (list Z)) : list Z :=
  CT_DIGEST_PREFIX ++ le_bytes 4 (Z.of_nat (length ciphertexts))
    ++ concat ((λ ct, le_bytes 4 (Z.of_nat (length ct)) ++ ct) <$> ciphertexts).

Section Rules.
Context `{PoseidonOps}.

Definition ct_digest (ciphertexts : list (list Z)) : Hash256 :=
  hash_bytes (ct_preimage ciphertexts).

(** [cm = H(CM, inner, value)], or nothing for a non-canonical [inner]. *)
Definition commitment (inner : Hash256) (value : Z) : option Hash256 :=
  inner_felts ← bytes_to_digest inner;
  Some (hash_to_bytes ((goldilocks_new CM :: inner_felts) ++ [from_u64 value])).

(** A collision among given inputs. Some collision always exists, since the
    sponge compresses; what a claim may except is that the inputs hashed in the
    very runs it speaks of, [qs], contain two different ones with one output. *)
Definition collides (qs : list (list felt)) : Prop :=
  ∃ x y, x ∈ qs ∧ y ∈ qs ∧ x ≠ y ∧ hash_to_bytes x = hash_to_bytes y.
Definition bytes_collide (qs : list (list Z)) : Prop :=
  ∃ x y, x ∈ qs ∧ y ∈ qs ∧ x ≠ y ∧ hash_bytes x = hash_bytes y.
(** A collision among [qs], or one of them is a preimage of the absence
    sentinel. *)
Definition broken_on (qs : list (list felt)) : Prop := collides qs ∨ ∃ x, x ∈ qs ∧ hash_to_bytes x = zero_hash.

Lemma collides_mono qs qs' : qs ⊆ qs' → collides qs → collides qs'.
Proof. intros Hs (x & y & Hx & Hy & Hne & E). exists x, y. auto. Qed.
Lemma broken_on_mono qs qs' : qs ⊆ qs' → broken_on qs → broken_on qs'.
Proof. intros Hs [Hc|(x & Hx & E)]; [left; by eapply collides_mono|right; exists x; auto]. Qed.
Lemma sponge_eq x y : hash_to_bytes x = hash_to_bytes y → collides [x; y] ∨ x = y.
Proof. intros E. destruct (decide (x = y)); [by right|left]. exists x, y. split_and!; [by left|by right; left|done|done]. Qed.
Lemma byte_sponge_eq x y : hash_bytes x = hash_bytes y → bytes_collide [x; y] ∨ x = y.
Proof. intros E. destruct (decide (x = y)); [by right|left]. exists x, y. split_and!; [by left|by right; left|done|done]. Qed.
Lemma collides_twice qs : collides (qs ++ qs) → collides qs.
Proof. apply collides_mono. intros x. rewrite elem_of_app. tauto. Qed.
(** Inputs that are seen not to collide. *)
Lemma no_collision qs : NoDup (hash_to_bytes <$> qs) → ¬ collides qs.
Proof.
  intros Hn (x & y & Hx & Hy & Hne & E). apply list_elem_of_lookup in Hx as [i Hi], Hy as [j Hj].
  assert (i = j) as <-.
  { eapply (NoDup_lookup _ _ _ _ Hn); [by rewrite list_lookup_fmap, Hi|rewrite list_lookup_fmap, Hj; cbn; by rewrite E]. }
  congruence.
Qed.
End Rules.

Section Framing.
Definition fits_u32 (ct : list Z) : Prop := Z.of_nat (length ct) < 2 ^ 32.

Lemma u32_len_inj (a b : nat) :
  Z.of_nat a < 2 ^ 32 → Z.of_nat b < 2 ^ 32 →
  le_bytes 4 (Z.of_nat a) = le_bytes 4 (Z.of_nat b) → a = b.
Proof.
  intros Ha Hb E. apply le_bytes_inj in E; [lia| |]; change (256 ^ Z.of_nat 4) with (2 ^ 32); lia.
Qed.

(** One length-prefixed field can be split off unambiguously. *)
Lemma framed_app_inj ct1 ct2 rest1 rest2 :
  fits_u32 ct1 → fits_u32 ct2 →
  (le_bytes 4 (Z.of_nat (length ct1)) ++ ct1) ++ rest1 =
    (le_bytes 4 (Z.of_nat (length ct2)) ++ ct2) ++ rest2 →
  ct1 = ct2 ∧ rest1 = rest2.
Proof.
  intros H1 H2 E. rewrite <- !app_assoc in E.
  apply app_inj_1 in E as [El E]; [|by rewrite !length_le_bytes].
  apply u32_len_inj in El; [|done..]. by apply app_inj_1 in E.
Qed.

Lemma framed_concat_inj cts1 cts2 :
  Forall fits_u32 cts1 → Forall fits_u32 cts2 → length cts1 = length cts2 →
  concat ((λ ct, le_bytes 4 (Z.of_nat (length ct)) ++ ct) <$> cts1) =
    concat ((λ ct, le_bytes 4 (Z.of_nat (length ct)) ++ ct) <$> cts2) →
  cts1 = cts2.
Proof.
  intros HF1. revert cts2. induction HF1 as [|ct1 cts1 Hct1 _ IH]; intros [|ct2 cts2] HF2 Hlen E;
    try done.
  inversion HF2; subst. cbn [fmap list_fmap concat] in E.
  apply framed_app_inj in E as [-> E]; [|done..]. f_equal. apply IH; [done| |done].
  cbn in Hlen. lia.
Qed.

Lemma ct_preimage_determines cts1 cts2 :
  Z.of_nat (length cts1) < 2 ^ 32 → Z.of_nat (length cts2) < 2 ^ 32 →
  Forall fits_u32 cts1 → Forall fits_u32 cts2 →
  ct_preimage cts1 = ct_preimage cts2 → cts1 = cts2.
Proof.
  intros Hn1 Hn2 HF1 HF2 E. unfold ct_preimage in E. apply app_inv_head in E.
  apply app_inj_1 in E as [En E]; [|by rewrite !length_le_bytes].
  apply u32_len_inj in En; [|done..]. by apply framed_concat_inj.
Qed.

(** The byte string [ct_digest] hashes determines the list of
    ciphertexts: their number, their order and every boundary between them.
    Two different output lists never share a preimage, so a relayer cannot
    move bytes from one ciphertext to the other under one digest. *)
Theorem ct_preimage_inj cts1 cts2 :
  Z.of_nat (length cts1) < 2 ^ 32 → Z.of_nat (length cts2) < 2 ^ 32 →
  Forall fits_u32 cts1 → Forall fits_u32 cts2 →
  ct_preimage cts1 = ct_preimage cts2 → cts1 = cts2.
Proof. exact (ct_preimage_determines cts1 cts2). Qed.
End Framing.

Section Commitments.
Context `{PoseidonOps, !PoseidonLaws}.

Lemma MAX_VALUE_lt_P : MAX_VALUE < GOLDILOCKS_P.
Proof. vm_compute. done. Qed.

Lemma commitment_is_Some inner v :
  is_digest inner → (is_Some (commitment inner v) ↔ canonical_limbs inner = true).
Proof.
  intros Hd. rewrite <- bytes_to_digest_Some by done. unfold commitment.
  destruct (bytes_to_digest inner); cbn; rewrite !is_Some_alt; naive_solver.
Qed.

Lemma commitment_digest inner v cm :
  commitment inner v = Some cm → is_digest cm ∧ canonical_limbs cm = true.
Proof.
  unfold commitment. destruct (bytes_to_digest inner); cbn; [|done].
  intros [= <-]. split; [apply hash_to_bytes_digest|apply hash_to_bytes_canonical].
Qed.

(** What [commitment] hashes. *)
Definition commitment_preimage (inner : Hash256) (v : Z) : list felt :=
  (goldilocks_new CM :: default [] (bytes_to_digest inner)) ++ [from_u64 v].

(** A note commitment binds both the note and its value: within the
    62-bit range two commitments agree only for the same [inner] and the
    same value, or the two preimages hashed are a collision of the sponge. *)
Theorem commitment_binds inner1 inner2 v1 v2 cm :
  is_digest inner1 → is_digest inner2 →
  0 ≤ v1 ≤ MAX_VALUE → 0 ≤ v2 ≤ MAX_VALUE →
  commitment inner1 v1 = Some cm → commitment inner2 v2 = Some cm →
  collides [commitment_preimage inner1 v1; commitment_preimage inner2 v2] ∨ (inner1 = inner2 ∧ v1 = v2).
Proof.
  intros Hd1 Hd2 Hv1 Hv2. pose proof MAX_VALUE_lt_P. unfold commitment.
  destruct (bytes_to_digest inner1) as [f1|] eqn:E1; [|done].
  destruct (bytes_to_digest inner2) as [f2|] eqn:E2; [|done].
  cbn. unfold commitment_preimage. rewrite E1, E2. cbn [default from_option]. intros [= <-] [= Hh]. symmetry in Hh.
  apply sponge_eq in Hh as [?|Ex]; [by left|right]. injection Ex as Ex. apply app_inj_2 in Ex as [-> [= Ev]]; [|done].
  split; [by eapply bytes_to_digest_inj|]. apply from_u64_inj; [lia..|done].
Qed.
End Commitments.

(** ** Witnesses *)
Lemma ct_preimage_inj_witness :
  ct_preimage [[1; 2]; [3]] = ct_preimage [[1; 2]; [3]] ∧ [[1; 2]; [3]] = [[1; 2]; [3]].
Proof.
  split; [done|].
  apply (ct_preimage_inj [[1; 2]; [3]] [[1; 2]; [3]]); repeat constructor.
Defined.

Lemma commitment_binds_witness :
  collides (H := ToyCrypto.poseidon_ops) [commitment_preimage zero_hash 7; commitment_preimage zero_hash 7] ∨ (zero_hash = zero_hash ∧ 7 = 7).
Proof.
  eapply (commitment_binds zero_hash zero_hash 7 7).
  - apply is_digest_zero.
  - apply is_digest_zero.
  - vm_compute; split; discriminate.
  - vm_compute; split; discriminate.
  - vm_compute; reflexivity.
  - vm_compute; reflexivity.
Defined.
