(* ===== verification/Layout.v ===== *)
(** * Public-input layouts

    [crates/qnero-circuit/src/layout.rs] (one spend leaf) and
    [batch_layout.rs] (the private and the public batch): where each public
    value sits in a proof's public-input vector. The arithmetic is the
    source's, on [nat] indices; [validate_proof_count] is the front door that
    keeps it far below any machine width. *)

From stdpp Require Import base list numbers.
From S2P Require Import Prelude.
#[local] Open Scope nat_scope.

Definition DIGEST_FELTS : nat := 4.

(** ** The leaf, [layout.rs] *)
Module Leaf.
Definition NUM_INPUTS : nat := 2.
Definition NUM_OUTPUTS : nat := 2.
Definition BLOCK_HASH_START : nat := 0.
Definition BLOCK_NUMBER_INDEX : nat := BLOCK_HASH_START + DIGEST_FELTS.
Definition NULLIFIER_START : nat := BLOCK_NUMBER_INDEX + 1.
Definition COMMITMENT_START : nat := NULLIFIER_START + NUM_INPUTS * DIGEST_FELTS.
Definition FEE_INDEX : nat := COMMITMENT_START + NUM_OUTPUTS * DIGEST_FELTS.
Definition CT_DIGEST_START : nat := FEE_INDEX + 1.
Definition PUBLIC_INPUT_LEN : nat := CT_DIGEST_START + DIGEST_FELTS.
Definition nullifier_index (i : nat) : nat := NULLIFIER_START + i * DIGEST_FELTS.
Definition commitment_index (j : nat) : nat := COMMITMENT_START + j * DIGEST_FELTS.
End Leaf.

(** ** The batches, [batch_layout.rs] *)
Definition MAX_PROOF_COUNT : nat := 64.
Definition BLOCK_HASH_START : nat := 0.
Definition BLOCK_NUMBER_INDEX : nat := BLOCK_HASH_START + DIGEST_FELTS.
Definition HEADER_LEN : nat := BLOCK_NUMBER_INDEX + 1.
Definition SLOT_NULLIFIER_START : nat := 0.
Definition SLOT_COMMITMENT_START : nat := SLOT_NULLIFIER_START + 2 * DIGEST_FELTS.
Definition SLOT_FEE_INDEX : nat := SLOT_COMMITMENT_START + 2 * DIGEST_FELTS.
Definition SLOT_CT_DIGEST_START : nat := SLOT_FEE_INDEX + 1.
Definition SLOT_LEN : nat := SLOT_CT_DIGEST_START + DIGEST_FELTS.

Definition slot_start (slot : nat) : nat := HEADER_LEN + slot * SLOT_LEN.
Definition slot_nullifier_index (slot i : nat) : nat :=
  slot_start slot + SLOT_NULLIFIER_START + i * DIGEST_FELTS.
Definition slot_commitment_index (slot j : nat) : nat :=
  slot_start slot + SLOT_COMMITMENT_START + j * DIGEST_FELTS.
Definition slot_fee_index (slot : nat) : nat := slot_start slot + SLOT_FEE_INDEX.
Definition slot_ct_digest_index (slot : nat) : nat := slot_start slot + SLOT_CT_DIGEST_START.
Definition private_batch_pi_len (num_leaves : nat) : nat := HEADER_LEN + num_leaves * SLOT_LEN.

Definition AGGREGATOR_ADDRESS_LEN : nat := DIGEST_FELTS.
Definition AGGREGATOR_ADDRESS_START : nat := 0.
Definition PUBLIC_BATCH_HEADER_LEN : nat := AGGREGATOR_ADDRESS_START + AGGREGATOR_ADDRESS_LEN.
Definition public_batch_inner_start (inner num_leaves : nat) : nat :=
  PUBLIC_BATCH_HEADER_LEN + inner * private_batch_pi_len num_leaves.
Definition public_batch_pi_len (n_inner num_leaves : nat) : nat :=
  PUBLIC_BATCH_HEADER_LEN + n_inner * private_batch_pi_len num_leaves.
Definition validate_proof_count (count : nat) : bool :=
  (0 <? count) && (count <=? MAX_PROOF_COUNT).

Lemma validate_proof_count_spec c : validate_proof_count c = true ↔ 0 < c ≤ 64.
Proof.
  unfold validate_proof_count. rewrite andb_true_iff, Nat.ltb_lt, Nat.leb_le. done.
Qed.

Lemma private_batch_pi_len_eq n : private_batch_pi_len n = 5 + 21 * n.
Proof. unfold private_batch_pi_len. change HEADER_LEN with 5. change SLOT_LEN with 21. lia. Qed.

(** The private layout is injective in its only dimension; the public layout
    is not, which is why its artifact carries a header. *)
Lemma private_batch_pi_len_inj n m : private_batch_pi_len n = private_batch_pi_len m → n = m.
Proof. rewrite !private_batch_pi_len_eq. lia. Qed.

Lemma public_batch_pi_len_collides : public_batch_pi_len 34 1 = public_batch_pi_len 13 3.
Proof. done. Qed.
