(* ===== verification/Verifier.v ===== *)
(** * The batch verifier

    [crates/qnero-verifier/src/{lib,batch,leaf}.rs]: reading a proof's public
    inputs at the layout's indices, the padding tests, the canonical decoding
    of proof bytes, the artifact dimension header, and the two verifiers. The
    proof system itself is [PlonkyOps], a parameter. *)

From stdpp Require Import base list numbers.
From S2P Require Import Prelude Crypto Layout.
#[local] Open Scope Z_scope.

Definition MAX_VERIFIER_ARTIFACT_BYTES : Z := 1024 * 1024.
Definition MAX_PROOF_BYTES : Z := 1024 * 1024.

(** [PADDING_BLOCK_HASH] of [qnero-circuit/src/padding.rs]. *)
Definition PADDING_BLOCK_HASH : list Z :=
  [0x2a7010a968e4b434; 0x2eeda5104a12c6e5; 0xbba8fa909e36ea2e; 0x6992931530e84452].

(** Why a serialized batch proof was refused, in the order the checks run. *)
Inductive ProofRejection :=
| TooLarge
| Deserialization
| NonCanonicalEncoding
| PublicInputLayout
| Verification.
#[global] Instance ProofRejection_eq_dec : EqDecision ProofRejection.
Proof. solve_decision. Defined.

(** [usize] indexing panics out of range; every read below is behind a length
    check, so the reads are total on the paths the code takes, and a read out
    of range is [None] here. *)
Definition digest_at {F} (public_inputs : list F) (start : nat) : option (list F) :=
  mapM (λ i, public_inputs !! (start + i)%nat) (seq 0 DIGEST_FELTS).

Record BatchLeafSlot {F : Type} := {
  nullifiers : list F * list F;
  commitments : list F * list F;
  fee : F;
  ct_digest : list F;
}.
Arguments BatchLeafSlot : clear implicits.

Record PrivateBatchPublicInputs {F : Type} := {
  block_hash : list F;
  block_number : F;
  slots : list (BatchLeafSlot F);
}.
Arguments PrivateBatchPublicInputs : clear implicits.

Record PublicBatchPublicInputs {F : Type} := {
  aggregator_address : list F;
  batches : list (PrivateBatchPublicInputs F);
}.
Arguments PublicBatchPublicInputs : clear implicits.

(** One leaf's public inputs, [leaf.rs]. *)
Record LeafPublicInputs {F : Type} := {
  leaf_block_hash : list F;
  leaf_block_number : F;
  leaf_nullifiers : list F * list F;
  leaf_commitments : list F * list F;
  leaf_fee : F;
  leaf_ct_digest : list F;
}.
Arguments LeafPublicInputs : clear implicits.

Section Parsing.
Context {F : Type}.
Implicit Types (pis : list F).

Definition parse_slot pis (slot : nat) : option (BatchLeafSlot F) :=
  n0 ← digest_at pis (slot_nullifier_index slot 0);
  n1 ← digest_at pis (slot_nullifier_index slot 1);
  c0 ← digest_at pis (slot_commitment_index slot 0);
  c1 ← digest_at pis (slot_commitment_index slot 1);
  f ← pis !! slot_fee_index slot;
  d ← digest_at pis (slot_ct_digest_index slot);
  Some {| nullifiers := (n0, n1); commitments := (c0, c1); fee := f; ct_digest := d |}.

Definition parse_private_batch_public_input_felts pis (num_leaves : nat)
  : option (PrivateBatchPublicInputs F) :=
  if negb (validate_proof_count num_leaves) then None
  else if negb (length pis =? private_batch_pi_len num_leaves)%nat then None
  else
    ss ← mapM (parse_slot pis) (seq 0 num_leaves);
    bh ← digest_at pis BLOCK_HASH_START;
    bn ← pis !! BLOCK_NUMBER_INDEX;
    Some {| block_hash := bh; block_number := bn; slots := ss |}.

Definition parse_public_batch_public_input_felts pis (num_inner num_leaves : nat)
  : option (PublicBatchPublicInputs F) :=
  if negb (validate_proof_count num_inner && validate_proof_count num_leaves) then None
  else if negb (length pis =? public_batch_pi_len num_inner num_leaves)%nat then None
  else
    bs ← mapM (λ inner,
           let start := public_batch_inner_start inner num_leaves in
           parse_private_batch_public_input_felts
             (take (private_batch_pi_len num_leaves) (drop start pis)) num_leaves)
         (seq 0 num_inner);
    addr ← digest_at pis AGGREGATOR_ADDRESS_START;
    Some {| aggregator_address := addr; batches := bs |}.

(** [leaf.rs]: [parse_public_input_felts]. *)
Definition parse_public_input_felts pis : option (LeafPublicInputs F) :=
  if negb (length pis =? Leaf.PUBLIC_INPUT_LEN)%nat then None
  else
    bh ← digest_at pis Leaf.BLOCK_HASH_START;
    bn ← pis !! Leaf.BLOCK_NUMBER_INDEX;
    n0 ← digest_at pis (Leaf.nullifier_index 0);
    n1 ← digest_at pis (Leaf.nullifier_index 1);
    c0 ← digest_at pis (Leaf.commitment_index 0);
    c1 ← digest_at pis (Leaf.commitment_index 1);
    f ← pis !! Leaf.FEE_INDEX;
    d ← digest_at pis Leaf.CT_DIGEST_START;
    Some {| leaf_block_hash := bh; leaf_block_number := bn; leaf_nullifiers := (n0, n1);
            leaf_commitments := (c0, c1); leaf_fee := f; leaf_ct_digest := d |}.

(** ** The writer's side

    What the aggregator's circuits lay out: the felts of each field in the
    documented order. These are the reference the parser is compared with. *)
Definition slot_felts (s : BatchLeafSlot F) : list F :=
  (nullifiers s).1 ++ (nullifiers s).2 ++ (commitments s).1 ++ (commitments s).2
    ++ fee s :: ct_digest s.
Definition private_batch_felts (b : PrivateBatchPublicInputs F) : list F :=
  block_hash b ++ block_number b :: concat (slot_felts <$> slots b).
Definition public_batch_felts (p : PublicBatchPublicInputs F) : list F :=
  aggregator_address p ++ concat (private_batch_felts <$> batches p).

(** The four-felt shape of every digest field. *)
Definition slot_wf (s : BatchLeafSlot F) : Prop :=
  length (nullifiers s).1 = 4%nat ∧ length (nullifiers s).2 = 4%nat ∧
  length (commitments s).1 = 4%nat ∧ length (commitments s).2 = 4%nat ∧
  length (ct_digest s) = 4%nat.
Definition private_batch_wf (n : nat) (b : PrivateBatchPublicInputs F) : Prop :=
  length (block_hash b) = 4%nat ∧ length (slots b) = n ∧ Forall slot_wf (slots b).
Definition public_batch_wf (m n : nat) (p : PublicBatchPublicInputs F) : Prop :=
  length (aggregator_address p) = 4%nat ∧ length (batches p) = m ∧
  Forall (private_batch_wf n) (batches p).
End Parsing.

Section Padding.
Context {F : Type} `{FieldOps F}.

Definition slot_is_padding (s : BatchLeafSlot F) : bool :=
  forallb (λ commitment, forallb (λ limb, to_canonical_u64 limb =? 0) commitment)
    [(commitments s).1; (commitments s).2].

Definition block_hash_is_the_padding_sentinel (bh : list F) : bool :=
  forallb (λ '(limb, expected), to_canonical_u64 limb =? expected) (zip bh PADDING_BLOCK_HASH).

Definition is_padding (b : PrivateBatchPublicInputs F) : bool :=
  block_hash_is_the_padding_sentinel (block_hash b).

Definition settleable_batches (p : PublicBatchPublicInputs F) : list (PrivateBatchPublicInputs F) :=
  filter (λ b, is_padding b = false) (batches p).
End Padding.

(** ** The public-batch artifact header *)
(** [*b"QNROPBV1"]. *)
Definition PUBLIC_BATCH_ARTIFACT_MAGIC : list Z := [81; 78; 82; 79; 80; 66; 86; 49].
Definition PUBLIC_BATCH_ARTIFACT_HEADER_LEN : nat := 16.

Definition public_batch_artifact_header (num_inner num_leaves : nat) : option (list Z) :=
  if negb (validate_proof_count num_inner && validate_proof_count num_leaves) then None
  else Some (PUBLIC_BATCH_ARTIFACT_MAGIC ++ le_bytes 4 (Z.of_nat num_inner)
               ++ le_bytes 4 (Z.of_nat num_leaves)).

Definition split_public_batch_artifact (bytes : list Z) (num_inner num_leaves : nat)
  : option (list Z) :=
  expected ← public_batch_artifact_header num_inner num_leaves;
  if negb (PUBLIC_BATCH_ARTIFACT_HEADER_LEN <? length bytes)%nat then None
  else
    let header := take PUBLIC_BATCH_ARTIFACT_HEADER_LEN bytes in
    let body := drop PUBLIC_BATCH_ARTIFACT_HEADER_LEN bytes in
    if negb (bool_decide (take 8 header = PUBLIC_BATCH_ARTIFACT_MAGIC)) then None
    else if negb (bool_decide (header = expected)) then None
    else Some body.

(** ** Proof bytes *)
Section Proofs.
Context {F : Type} `{PlonkyOps F}.

Definition decode_canonical_proof (proof_bytes : list Z) (cd : common_data)
  : result ProofRejection proof :=
  if MAX_PROOF_BYTES <? Z.of_nat (length proof_bytes) then Err TooLarge
  else
    p ← ok_or (proof_from_bytes proof_bytes cd) Deserialization;
    if bool_decide (proof_to_bytes p = proof_bytes) then Ok p else Err NonCanonicalEncoding.

Record QneroPrivateBatchVerifier := {
  prv_circuit_data : verifier_data;
  prv_num_leaves : nat;
}.
Record QneroPublicBatchVerifier := {
  pub_circuit_data : verifier_data;
  pub_num_inner : nat;
  pub_num_leaves : nat;
}.

Definition private_parse_proof_bytes (v : QneroPrivateBatchVerifier) (bytes : list Z)
  : result ProofRejection (PrivateBatchPublicInputs F) :=
  p ← decode_canonical_proof bytes (common (prv_circuit_data v));
  ok_or (parse_private_batch_public_input_felts (public_inputs p) (prv_num_leaves v))
    PublicInputLayout.

Definition private_verify_proof_bytes (v : QneroPrivateBatchVerifier) (bytes : list Z)
  : result ProofRejection (PrivateBatchPublicInputs F) :=
  p ← decode_canonical_proof bytes (common (prv_circuit_data v));
  public ← ok_or (parse_private_batch_public_input_felts (public_inputs p) (prv_num_leaves v))
             PublicInputLayout;
  _ ← ensure (plonky_verify (prv_circuit_data v) p) Verification;
  Ok public.

Definition public_parse_proof_bytes (v : QneroPublicBatchVerifier) (bytes : list Z)
  : result ProofRejection (PublicBatchPublicInputs F) :=
  p ← decode_canonical_proof bytes (common (pub_circuit_data v));
  ok_or (parse_public_batch_public_input_felts (public_inputs p) (pub_num_inner v)
           (pub_num_leaves v)) PublicInputLayout.

Definition public_verify_proof_bytes (v : QneroPublicBatchVerifier) (bytes : list Z)
  : result ProofRejection (PublicBatchPublicInputs F) :=
  p ← decode_canonical_proof bytes (common (pub_circuit_data v));
  public ← ok_or (parse_public_batch_public_input_felts (public_inputs p) (pub_num_inner v)
                    (pub_num_leaves v)) PublicInputLayout;
  _ ← ensure (plonky_verify (pub_circuit_data v) p) Verification;
  Ok public.
End Proofs.
