(* ===== verification/VerifierProps.v ===== *)
(** * Properties of the batch verifier

    The parser and the writer of a public-input vector are inverse to each
    other, an artifact loads only under the dimensions it was built for, and a
    canonical decoding gives one proof one byte string. *)

From stdpp Require Import base list numbers.
From S2P Require Import Prelude Crypto Layout Verifier.
#[local] Open Scope Z_scope.

Section Reads.
Context {F : Type}.
Implicit Types (pis l : list F) (d : list F).

Lemma digest_at_spec pis s d :
  digest_at pis s = Some d ↔ length d = 4%nat ∧ take 4 (drop s pis) = d.
Proof.
  assert (digest_at pis s = mapM (λ i, drop s pis !! i) [0; 1; 2; 3]%nat) as ->.
  { unfold digest_at. change (seq 0 DIGEST_FELTS) with [0; 1; 2; 3]%nat.
    apply mapM_ext. intros. by rewrite lookup_drop. }
  generalize (drop s pis) as m. clear. intros m.
  destruct m as [|a [|b [|c [|e m]]]]; cbn; (split; [intros [= <-]; done|intros [? <-]; done]).
Qed.

Lemma digest_at_app pre l k : digest_at (pre ++ l) (length pre + k) = digest_at l k.
Proof.
  unfold digest_at. apply mapM_ext. intros i.
  rewrite lookup_app_r by lia. f_equal. lia.
Qed.

Lemma lookup_app_add pre l k : (pre ++ l) !! (length pre + k)%nat = l !! k.
Proof. rewrite lookup_app_r by lia. f_equal. lia. Qed.

Lemma four_felts d : length d = 4%nat → ∃ x0 x1 x2 x3, d = [x0; x1; x2; x3].
Proof. destruct d as [|? [|? [|? [|? [|]]]]]; naive_solver. Qed.

(** Joining two adjacent windows of a vector. *)
Lemma window_app n m k l : take n (drop k l) ++ take m (drop (k + n) l) = take (n + m) (drop k l).
Proof. rewrite <- drop_drop. apply take_take_drop. Qed.

Lemma window_cons k l x m :
  l !! k = Some x → x :: take m (drop (k + 1) l) = take (1 + m) (drop k l).
Proof.
  intros Hx. by rewrite <- window_app, (drop_S l x k Hx).
Qed.

(** ** Slots *)
Lemma slot_felts_length (s : BatchLeafSlot F) : slot_wf s → length (slot_felts s) = SLOT_LEN.
Proof.
  intros (H1 & H2 & H3 & H4 & H5). unfold slot_felts.
  rewrite !length_app. cbn [length]. rewrite H1, H2, H3, H4, H5. done.
Qed.

Lemma parse_slot_write pre post (s : BatchLeafSlot F) i :
  slot_wf s → length pre = slot_start i →
  parse_slot (pre ++ slot_felts s ++ post) i = Some s.
Proof.
  intros (H1 & H2 & H3 & H4 & H5) Hpre. destruct s as [[n1 n2] [c1 c2] f d].
  cbn [nullifiers commitments ct_digest fst snd] in *.
  apply four_felts in H1 as (?&?&?&?&->). apply four_felts in H2 as (?&?&?&?&->).
  apply four_felts in H3 as (?&?&?&?&->). apply four_felts in H4 as (?&?&?&?&->).
  apply four_felts in H5 as (?&?&?&?&->).
  unfold parse_slot, slot_nullifier_index, slot_commitment_index, slot_fee_index,
    slot_ct_digest_index. rewrite <- !Hpre, <- !Nat.add_assoc.
  rewrite !digest_at_app, lookup_app_add. done.
Qed.

Lemma parse_slot_read pis i (s : BatchLeafSlot F) :
  parse_slot pis i = Some s →
  slot_wf s ∧ slot_felts s = take SLOT_LEN (drop (slot_start i) pis).
Proof.
  unfold parse_slot. intros H. simplify_option_eq.
  repeat match goal with
  | Hd : digest_at _ _ = Some _ |- _ => apply digest_at_spec in Hd as [? ?]
  end.
  split; [done|]. unfold slot_felts; cbn [nullifiers commitments ct_digest fee fst snd].
  unfold slot_nullifier_index, slot_commitment_index, slot_fee_index, slot_ct_digest_index in *.
  change SLOT_NULLIFIER_START with 0%nat in *. change SLOT_COMMITMENT_START with 8%nat in *.
  change DIGEST_FELTS with 4%nat in *. change SLOT_FEE_INDEX with 16%nat in *.
  change SLOT_CT_DIGEST_START with 17%nat in *. change SLOT_LEN with 21%nat.
  set (k := slot_start i) in *. clearbody k. subst.
  replace (k + 0 + 0 * 4)%nat with k by lia.
  replace (k + 0 + 1 * 4)%nat with (k + 4)%nat by lia.
  replace (k + 8 + 0 * 4)%nat with (k + 4 + 4)%nat by lia.
  replace (k + 8 + 1 * 4)%nat with (k + 4 + 4 + 4)%nat by lia.
  replace (k + 17)%nat with (k + 4 + 4 + 4 + 4 + 1)%nat by lia.
  match goal with H : pis !! (k + 16)%nat = Some _ |- _ =>
    replace (k + 16)%nat with (k + 4 + 4 + 4 + 4)%nat in H by (clear; lia); rewrite (window_cons _ _ _ _ H)
  end.
  by rewrite !window_app.
Qed.

(** ** Concatenations of equal-length blocks *)
Lemma length_concat_blocks {A} (g : A → list F) (xs : list A) k :
  Forall (λ x, length (g x) = k) xs → length (concat (g <$> xs)) = (length xs * k)%nat.
Proof.
  induction 1 as [|x xs Hx _ IH]; [done|].
  rewrite fmap_cons, concat_cons, length_app, Hx, IH. cbn [length]. lia.
Qed.

Lemma concat_blocks_split {A} (g : A → list F) (xs : list A) k i x :
  Forall (λ x, length (g x) = k) xs → xs !! i = Some x →
  ∃ pre post, concat (g <$> xs) = pre ++ g x ++ post ∧ length pre = (i * k)%nat.
Proof.
  intros HF Hi. exists (concat (g <$> take i xs)), (concat (g <$> drop (S i) xs)). split.
  - rewrite <- (take_drop_middle xs i x Hi) at 1.
    by rewrite fmap_app, fmap_cons, concat_app, concat_cons.
  - rewrite (length_concat_blocks _ _ k) by (by apply Forall_take).
    rewrite length_take_le; [done|]. apply lookup_lt_Some in Hi. lia.
Qed.

(** Consecutive windows reassemble the range they cut. *)
Lemma concat_windows {A} (g : A → list F) (start : nat) k pis (xs : list A) :
  (∀ i x, xs !! i = Some x → g x = take k (drop (start + i * k) pis)) →
  concat (g <$> xs) = take (length xs * k) (drop start pis).
Proof.
  induction xs as [|x xs IH] using rev_ind; intros Hg; [done|].
  rewrite fmap_app, concat_app, IH.
  - rewrite fmap_cons, fmap_nil, concat_cons, concat_nil, app_nil_r.
    rewrite (Hg (length xs) x) by (by rewrite list_lookup_middle).
    rewrite window_app, length_app. f_equal. cbn. lia.
  - intros i y Hi. apply Hg. rewrite lookup_app_l; [done|]. by apply lookup_lt_Some in Hi.
Qed.
End Reads.

Section RoundTrips.
Context {F : Type}.
Implicit Types (pis : list F) (b : PrivateBatchPublicInputs F) (p : PublicBatchPublicInputs F).

Lemma Forall2_seq {A} (P : nat → A → Prop) n (l : list A) :
  Forall2 P (seq 0 n) l ↔ length l = n ∧ ∀ i x, l !! i = Some x → P i x.
Proof.
  rewrite Forall2_same_length_lookup, length_seq. split.
  - intros [Hlen H]. split; [done|]. intros i x Hi. apply (H i); [|done].
    apply lookup_seq. apply lookup_lt_Some in Hi. lia.
  - intros [Hlen H]. split; [done|]. intros i x y Hi Hl.
    apply lookup_seq in Hi as [-> ?]. by apply H.
Qed.

Lemma slots_length b n :
  private_batch_wf n b → Forall (λ s, length (slot_felts s) = SLOT_LEN) (slots b).
Proof. intros (_ & _ & H). revert H. apply Forall_mono, slot_felts_length. Qed.

Lemma private_batch_felts_length b n :
  private_batch_wf n b → length (private_batch_felts b) = private_batch_pi_len n.
Proof.
  intros Hwf. pose proof (slots_length b n Hwf) as HS. destruct Hwf as (Hbh & Hn & _).
  unfold private_batch_felts. rewrite length_app. cbn [length].
  rewrite (length_concat_blocks _ _ SLOT_LEN), Hbh, Hn by done.
  rewrite private_batch_pi_len_eq. change SLOT_LEN with 21%nat. lia.
Qed.

Lemma parse_private_write b n :
  validate_proof_count n = true → private_batch_wf n b →
  parse_private_batch_public_input_felts (private_batch_felts b) n = Some b.
Proof.
  intros Hn Hwf. pose proof (slots_length b n Hwf) as HS.
  unfold parse_private_batch_public_input_felts. rewrite Hn. cbn [negb].
  rewrite (private_batch_felts_length b n Hwf), Nat.eqb_refl. cbn [negb].
  destruct Hwf as (Hbh & Hlen & Hws). destruct b as [bh bn ss]; cbn [block_hash slots] in *.
  assert (mapM (parse_slot (private_batch_felts {| block_hash := bh; block_number := bn; slots := ss |}))
            (seq 0 n) = Some ss) as ->.
  { apply mapM_Some, Forall2_seq. split; [done|]. intros i s Hi.
    destruct (concat_blocks_split _ _ _ _ _ HS Hi) as (pre & post & E & Hpre).
    unfold private_batch_felts; cbn [block_hash block_number slots]. rewrite E.
    rewrite app_comm_cons, (app_assoc bh). apply parse_slot_write.
    - by eapply Forall_lookup_1.
    - rewrite length_app; cbn [length]. rewrite Hbh, Hpre. unfold slot_start. change HEADER_LEN with 5%nat. lia. }
  cbn [mbind option_bind]. apply four_felts in Hbh as (?&?&?&?&->). done.
Qed.

Lemma parse_private_read pis b n :
  parse_private_batch_public_input_felts pis n = Some b →
  pis = private_batch_felts b ∧ private_batch_wf n b.
Proof.
  unfold parse_private_batch_public_input_felts. intros H.
  destruct (validate_proof_count n) eqn:Hn; [|done]. cbn [negb] in H.
  destruct (Nat.eqb_spec (length pis) (private_batch_pi_len n)) as [Hlen|]; [|done].
  cbn [negb] in H. simplify_option_eq.
  match goal with H : mapM _ _ = Some _ |- _ => apply mapM_Some, Forall2_seq in H as [Hss Hs] end.
  match goal with H : digest_at _ _ = Some _ |- _ => apply digest_at_spec in H as [Hbh Ebh] end.
  match goal with H : pis !! _ = Some _ |- _ => rename H into Hbn end.
  assert (Hs' := λ i x Hi, parse_slot_read pis i x (Hs i x Hi)).
  split.
  - unfold private_batch_felts; cbn [block_hash block_number slots].
    rewrite (concat_windows _ HEADER_LEN SLOT_LEN pis) by (intros i x Hi; apply Hs', Hi).
    rewrite Hss. change HEADER_LEN with (4 + 1)%nat.
    rewrite (window_cons 4) by done. rewrite <- Ebh.
    change BLOCK_HASH_START with 0%nat. change 4%nat with (0 + 4)%nat at 2.
    rewrite window_app. rewrite drop_0, take_ge; [done|].
    rewrite Hlen. unfold private_batch_pi_len. change HEADER_LEN with 5%nat. lia.
  - repeat split; [done|done|]. apply Forall_lookup_2. intros i x Hi. by apply Hs' in Hi as [? _].
Qed.

(** The private-batch parser and the circuit's layout are inverse to
    each other: reading back a laid-out batch gives the batch, and any vector
    that parses is exactly the layout of what it parsed to. So no felt of a
    proof is dropped, shifted or read twice. *)
Theorem private_batch_parse_roundtrip n pis b :
  validate_proof_count n = true →
  (parse_private_batch_public_input_felts pis n = Some b ↔
     pis = private_batch_felts b ∧ private_batch_wf n b).
Proof.
  intros Hn. split; [apply parse_private_read|]. intros [-> Hwf]. by apply parse_private_write.
Qed.

Lemma public_batches_length p m n :
  public_batch_wf m n p →
  Forall (λ b, length (private_batch_felts b) = private_batch_pi_len n) (batches p).
Proof.
  intros (_ & _ & H). revert H. apply Forall_mono. intros. by apply private_batch_felts_length.
Qed.

Lemma public_batch_felts_length p m n :
  public_batch_wf m n p → length (public_batch_felts p) = public_batch_pi_len m n.
Proof.
  intros Hwf. pose proof (public_batches_length p m n Hwf) as HB.
  destruct Hwf as (Ha & Hm & _). unfold public_batch_felts. rewrite length_app, Ha.
  rewrite (length_concat_blocks _ _ _ HB), Hm. done.
Qed.

Lemma parse_public_write p m n :
  validate_proof_count m = true → validate_proof_count n = true → public_batch_wf m n p →
  parse_public_batch_public_input_felts (public_batch_felts p) m n = Some p.
Proof.
  intros Hm Hn Hwf. pose proof (public_batches_length p m n Hwf) as HB.
  unfold parse_public_batch_public_input_felts. rewrite Hm, Hn. cbn [negb andb].
  rewrite (public_batch_felts_length p m n Hwf), Nat.eqb_refl. cbn [negb].
  destruct Hwf as (Ha & Hlen & Hws). destruct p as [addr bs]; cbn [aggregator_address batches] in *.
  set (pis := public_batch_felts {| aggregator_address := addr; batches := bs |}).
  assert (mapM (λ inner, parse_private_batch_public_input_felts
            (take (private_batch_pi_len n) (drop (public_batch_inner_start inner n) pis)) n)
            (seq 0 m) = Some bs) as ->.
  { apply mapM_Some, Forall2_seq. split; [done|]. intros i b Hi.
    destruct (concat_blocks_split _ _ _ _ _ HB Hi) as (pre & post & E & Hpre).
    unfold pis, public_batch_felts; cbn [aggregator_address batches]. rewrite E, app_assoc.
    rewrite drop_app_length' by (rewrite length_app, Ha, Hpre; done).
    rewrite take_app_length' by (by eapply Forall_lookup_1 in HB).
    apply parse_private_write; [done|]. by eapply Forall_lookup_1. }
  cbn [mbind option_bind]. unfold pis, public_batch_felts; cbn [aggregator_address].
  apply four_felts in Ha as (?&?&?&?&->). done.
Qed.

Lemma parse_public_read pis p m n :
  parse_public_batch_public_input_felts pis m n = Some p →
  pis = public_batch_felts p ∧ public_batch_wf m n p.
Proof.
  unfold parse_public_batch_public_input_felts. intros H.
  destruct (validate_proof_count m && validate_proof_count n); [|done]. cbn [negb] in H.
  destruct (Nat.eqb_spec (length pis) (public_batch_pi_len m n)) as [Hlen|]; [|done].
  cbn [negb] in H. simplify_option_eq.
  match goal with H : mapM _ _ = Some _ |- _ => apply mapM_Some, Forall2_seq in H as [Hbs Hb] end.
  match goal with H : digest_at _ _ = Some _ |- _ => apply digest_at_spec in H as [Ha Ea] end.
  assert (Hb' := λ i x Hi, parse_private_read _ x n (Hb i x Hi)). cbn beta in Hb'.
  split.
  - unfold public_batch_felts; cbn [aggregator_address batches].
    rewrite (concat_windows _ PUBLIC_BATCH_HEADER_LEN (private_batch_pi_len n) pis)
      by (intros i x Hi; symmetry; apply Hb', Hi).
    rewrite Hbs, <- Ea. change AGGREGATOR_ADDRESS_START with 0%nat.
    change PUBLIC_BATCH_HEADER_LEN with (0 + 4)%nat. rewrite window_app, drop_0, take_ge; [done|].
    by rewrite Hlen.
  - repeat split; [done|done|]. apply Forall_lookup_2. intros i x Hi. by apply Hb' in Hi as [_ ?].
Qed.

(** The same for a public batch: its vector is the aggregator address
    followed by each inner batch's own vector, in order, and the parser
    recovers exactly that, so each inner proof owns one contiguous segment. *)
Theorem public_batch_parse_roundtrip m n pis p :
  validate_proof_count m = true → validate_proof_count n = true →
  (parse_public_batch_public_input_felts pis m n = Some p ↔
     pis = public_batch_felts p ∧ public_batch_wf m n p).
Proof.
  intros Hm Hn. split; [apply parse_public_read|]. intros [-> Hwf]. by apply parse_public_write.
Qed.
End RoundTrips.

Section Artifacts.
Lemma artifact_header_length m n h :
  public_batch_artifact_header m n = Some h → length h = PUBLIC_BATCH_ARTIFACT_HEADER_LEN.
Proof.
  unfold public_batch_artifact_header. case_match; [done|]. by intros [= <-].
Qed.

Lemma artifact_header_inj m n m' n' h :
  public_batch_artifact_header m n = Some h → public_batch_artifact_header m' n' = Some h →
  m = m' ∧ n = n'.
Proof.
  unfold public_batch_artifact_header.
  destruct (validate_proof_count m) eqn:Hm; [|done].
  destruct (validate_proof_count n) eqn:Hn; [|done].
  destruct (validate_proof_count m') eqn:Hm'; [|done].
  destruct (validate_proof_count n') eqn:Hn'; [|done]. cbn [andb negb].
  apply validate_proof_count_spec in Hm, Hn, Hm', Hn'.
  intros E0 E. rewrite <- E0 in E. apply (inj Some), app_inv_head in E. apply app_inj_1 in E as [E1 E2]; [|by rewrite !length_le_bytes].
  assert (256 ^ Z.of_nat 4 = 4294967296) by done.
  apply le_bytes_inj in E1; [|lia..]. apply le_bytes_inj in E2; [|lia..]. lia.
Qed.

(** An artifact is loaded only under the dimensions it was built with.
    Splitting header and body off [header (m, n) ++ body] succeeds, and gives
    back the body, exactly when the caller asks for the same [(m, n)]. The
    public-input length alone could not tell: (34, 1) and (13, 3) collide. *)
Theorem artifact_loads_its_own_dimensions m n m' n' h body :
  public_batch_artifact_header m n = Some h → body ≠ [] →
  split_public_batch_artifact (h ++ body) m' n' = (if decide (m = m' ∧ n = n') then Some body else None).
Proof.
  intros Hh Hbody. pose proof (artifact_header_length m n h Hh) as Hl.
  unfold split_public_batch_artifact.
  rewrite (take_app_length' h), (drop_app_length' h) by done.
  destruct (public_batch_artifact_header m' n') as [h'|] eqn:Hh'; cbn [mbind option_bind].
  2: { destruct decide as [[-> ->]|]; [congruence|done]. }
  rewrite length_app, Hl. destruct (Nat.ltb_spec PUBLIC_BATCH_ARTIFACT_HEADER_LEN
    (PUBLIC_BATCH_ARTIFACT_HEADER_LEN + length body)) as [_|Hlt].
  2: { destruct body; [done|]. cbn [length] in Hlt. lia. }
  cbn [negb]. destruct decide as [[-> ->]|Hne].
  - rewrite Hh in Hh'. injection Hh' as <-. rewrite (bool_decide_true (h = h)) by done.
    rewrite bool_decide_true; [done|].
    unfold public_batch_artifact_header in Hh. case_match; [done|]. by injection Hh as <-.
  - rewrite (bool_decide_false (h = h')); [by case_bool_decide|].
    intros <-. apply Hne. by eapply artifact_header_inj.
Qed.
End Artifacts.

Section Decoding.
Context {F : Type} `{PlonkyOps F}.

(** Proof bytes are not malleable. A decoded proof re-encodes to the
    bytes it came from, so two byte strings that decode to one proof, under
    any circuits, are the same string; and nothing over the size cap
    decodes. *)
Theorem canonical_decoding_is_injective b1 b2 cd1 cd2 p :
  decode_canonical_proof b1 cd1 = Ok p → decode_canonical_proof b2 cd2 = Ok p →
  b1 = b2 ∧ Z.of_nat (length b1) ≤ MAX_PROOF_BYTES.
Proof.
  unfold decode_canonical_proof. intros H1 H2.
  destruct (Z.ltb_spec MAX_PROOF_BYTES (Z.of_nat (length b1))); [done|].
  case_match; [done|]. res_inv. repeat case_bool_decide; simplify_eq; done.
Qed.

(** Verification never changes what a proof says: a verified proof parses to
    the same public inputs, so a check made on the parse is a check on the
    proof. *)
Lemma private_verify_parse (v : QneroPrivateBatchVerifier) bytes pub :
  private_verify_proof_bytes v bytes = Ok pub → private_parse_proof_bytes v bytes = Ok pub.
Proof.
  unfold private_verify_proof_bytes, private_parse_proof_bytes. intros Hv. res_inv.
  subst. match goal with H : decode_canonical_proof _ _ = _ |- _ => rewrite H end.
  cbn. by match goal with H : parse_private_batch_public_input_felts _ _ = _ |- _ => rewrite H end.
Qed.

Lemma public_verify_parse (v : QneroPublicBatchVerifier) bytes pub :
  public_verify_proof_bytes v bytes = Ok pub → public_parse_proof_bytes v bytes = Ok pub.
Proof.
  unfold public_verify_proof_bytes, public_parse_proof_bytes. intros Hv. res_inv.
  subst. match goal with H : decode_canonical_proof _ _ = _ |- _ => rewrite H end.
  cbn. by match goal with H : parse_public_batch_public_input_felts _ _ _ = _ |- _ => rewrite H end.
Qed.
End Decoding.

(** ** Witnesses *)
Definition toy_slot (k : Z) : BatchLeafSlot Z :=
  {| nullifiers := ([k; 1; 1; 1], [k; 2; 2; 2]); commitments := ([k; 3; 3; 3], [k; 4; 4; 4]);
     fee := k; ct_digest := [k; 5; 5; 5] |}.
Definition toy_private (k : Z) : PrivateBatchPublicInputs Z :=
  {| block_hash := [9; 9; 9; k]; block_number := k; slots := [toy_slot k; toy_slot (k + 1)] |}.
Definition toy_public : PublicBatchPublicInputs Z :=
  {| aggregator_address := [7; 7; 7; 7]; batches := [toy_private 10; toy_private 20; toy_private 30] |}.

(** A proof system whose proofs are their public inputs and whose bytes are
    the public inputs themselves. *)
Definition toy_plonky : PlonkyOps Z := {|
  proof := list Z; common_data := unit; verifier_data := unit; common := λ _, tt;
  proof_from_bytes := λ b _, Some b; proof_to_bytes := λ p, p; public_inputs := λ p, p;
  plonky_verify := λ _ _, true |}.

Lemma private_batch_parse_roundtrip_witness :
  validate_proof_count 2 = true ∧
  parse_private_batch_public_input_felts (private_batch_felts (toy_private 10)) 2
    = Some (toy_private 10).
Proof.
  split; [done|]. apply (private_batch_parse_roundtrip 2); [done|]. split; [done|].
  repeat constructor.
Defined.

Lemma public_batch_parse_roundtrip_witness :
  validate_proof_count 3 = true ∧
  parse_public_batch_public_input_felts (public_batch_felts toy_public) 3 2 = Some toy_public.
Proof.
  split; [done|]. apply (public_batch_parse_roundtrip 3 2); [done|done|]. split; [done|].
  repeat constructor.
Defined.

Lemma artifact_loads_its_own_dimensions_witness :
  split_public_batch_artifact
    (PUBLIC_BATCH_ARTIFACT_MAGIC ++ le_bytes 4 34 ++ le_bytes 4 1 ++ [1; 2; 3]) 13 3 = None.
Proof.
  apply (artifact_loads_its_own_dimensions 34 1 13 3
           (PUBLIC_BATCH_ARTIFACT_MAGIC ++ le_bytes 4 34 ++ le_bytes 4 1) [1; 2; 3]); done.
Defined.

Lemma canonical_decoding_is_injective_witness :
  [1; 2; 3] = [1; 2; 3] ∧ Z.of_nat (length [1; 2; 3]) ≤ MAX_PROOF_BYTES.
Proof.
  apply (canonical_decoding_is_injective (H := toy_plonky) [1; 2; 3] [1; 2; 3] tt tt [1; 2; 3]);
    reflexivity.
Defined.
