(* ===== verification/Interfaces.v ===== *)
(** * Interfaces between the pallets

    The traits through which one pallet calls another, as an operation class
    and a law class each: a client is modelled and proved against the classes,
    and the component that implements the trait discharges the laws. *)

From stdpp Require Import base list numbers.
From S2P Require Import Prelude Crypto.
#[local] Open Scope Z_scope.

(** [pallet_zk_tree::ZkCommitmentRecorder]: the shielded pool's door into the
    note tree. [T] is the tree's storage and [E] its error type. *)
Class ZkCommitmentRecorder (T E : Type) := {
  insert_commitment : T → Hash256 → result E (T * Z);
  remaining_capacity : T → Z;
  leaf_count : T → Z;
  (** The stored leaf, which no caller reads but every law is about. *)
  leaf_at : T → Z → option Hash256;
  (** The states the laws speak of. *)
  recorder_inv : T → Prop;
}.
Class ZkCommitmentRecorderLaws (T E : Type) `{ZkCommitmentRecorder T E} := {
  (** An append takes the next index, stores the commitment there and nothing
      else, and uses up one unit of capacity. *)
  insert_commitment_Ok (t t' : T) cm (i : Z) :
    recorder_inv t → is_digest cm → insert_commitment (E := E) t cm = Ok (t', i) →
    recorder_inv t' ∧ i = leaf_count t ∧ leaf_count t' = leaf_count t + 1 ∧
    remaining_capacity t' = remaining_capacity t - 1 ∧
    leaf_at t' (leaf_count t) = Some cm ∧
    (∀ j, j ≠ leaf_count t → leaf_at t' j = leaf_at t j);
  (** A canonical, non-zero commitment fits while there is capacity. *)
  insert_commitment_total (t : T) cm :
    recorder_inv t → is_digest cm → canonical_limbs cm = true → cm ≠ zero_hash →
    0 < remaining_capacity t → ∃ t' i, insert_commitment (E := E) t cm = Ok (t', i);
  remaining_capacity_nonneg (t : T) : recorder_inv t → 0 ≤ remaining_capacity t;
}.

(** [frame_support]'s [fungible::{Inspect, Mutate}], as far as the pallets use
    it: an exact burn, a mint, and the total issuance. *)
Class Currency (C D : Type) := {
  total_issuance : C → Z;
  (** [burn_from] with [Expendable], [Exact], [Polite]. *)
  burn_from : C → Hash256 → Z → result D C;
  mint_into : C → Hash256 → Z → result D C;
}.
Class CurrencyLaws (C D : Type) `{Currency C D} := {
  total_issuance_nonneg (c : C) : 0 ≤ total_issuance c;
  (** An exact burn destroys the amount, and any dust the account is left
      with: issuance falls by at least the amount. *)
  burn_from_issuance (c c' : C) who v :
    0 ≤ v → burn_from c who v = Ok c' → total_issuance c' ≤ total_issuance c - v;
  (** A mint raises issuance by exactly the amount. *)
  mint_into_issuance (c c' : C) who v :
    0 ≤ v → mint_into c who v = Ok c' → total_issuance c' = total_issuance c + v;
}.

(** [qp_coinbase::CoinbaseSink]: where a block's reward is deposited as a
    shielded note. [S] is the sink's storage; [Err] hands the amount back. *)
Class CoinbaseSink (S : Type) := {
  deposit_coinbase : S → Z → S * result Z unit;
  (** [ShieldedSupply::get]: the value held outside the transparent issuance. *)
  shielded_supply : S → Z;
  sink_inv : S → Prop;
}.
Class CoinbaseSinkLaws (S : Type) `{CoinbaseSink S} := {
  shielded_supply_nonneg (s : S) : sink_inv s → 0 ≤ shielded_supply s;
  (** An accepted deposit adds exactly its amount to the shielded supply. *)
  deposit_coinbase_Ok (s s' : S) amount :
    sink_inv s → 0 ≤ amount → shielded_supply s + amount ≤ u_max 128 →
    deposit_coinbase s amount = (s', Ok tt) →
    sink_inv s' ∧ shielded_supply s' = shielded_supply s + amount;
  (** A refused one hands the whole amount back and adds nothing. *)
  deposit_coinbase_Err (s s' : S) amount r :
    sink_inv s → 0 ≤ amount → shielded_supply s + amount ≤ u_max 128 →
    deposit_coinbase s amount = (s', Err r) →
    sink_inv s' ∧ r = amount ∧ shielded_supply s' = shielded_supply s;
}.

(** [fungible::{Inspect, Mutate}] as the vesting pallet uses it: balances and
    a keep-alive ([Preservation::Preserve]) transfer. *)
Class Ledger (C D : Type) := {
  total_balance : C → Hash256 → Z;
  transfer : C → Hash256 → Hash256 → Z → result D C;
  minimum_balance : Z;
  ledger_inv : C → Prop;
}.
Arguments minimum_balance C {D _}.
Class LedgerLaws (C D : Type) `{Ledger C D} := {
  minimum_balance_nonneg : 0 ≤ minimum_balance C;
  total_balance_u128 (c : C) a : ledger_inv c → in_u 128 (total_balance c a);
  (** A transfer between two accounts moves exactly its amount. *)
  transfer_Ok (c c' : C) from to v :
    ledger_inv c → 0 ≤ v → from ≠ to → transfer c from to v = Ok c' →
    ledger_inv c' ∧ total_balance c' from = total_balance c from - v ∧
    total_balance c' to = total_balance c to + v ∧
    (∀ a, a ≠ from → a ≠ to → total_balance c' a = total_balance c a);
}.

(** [qp_wormhole::TransferProofRecorder], for the native asset: whether the
    credit got its leaf. *)
Class ProofRecorder (P : Type) := {
  record_transfer_proof : P → Hash256 → Hash256 → Z → P * bool;
}.

(** [frame_support::traits::{Currency, ReservableCurrency}] as the multisig
    pallet uses them. Dropping the imbalance [withdraw] returns burns it. *)
Class Reservable (C D : Type) := {
  free_balance : C → Hash256 → Z;
  reserved_balance : C → Hash256 → Z;
  issuance : C → Z;
  (** [withdraw] with [WithdrawReasons::FEE] and [KeepAlive]. *)
  withdraw : C → Hash256 → Z → result D C;
  reserve : C → Hash256 → Z → result D C;
  (** The second component is what could not be unreserved. *)
  unreserve : C → Hash256 → Z → C * Z;
}.
Class ReservableLaws (C D : Type) `{Reservable C D} := {
  reserved_balance_nonneg (c : C) a : 0 ≤ reserved_balance c a;
  withdraw_Ok (c c' : C) who v :
    0 ≤ v → withdraw (D := D) c who v = Ok c' →
    free_balance c' who = free_balance c who - v ∧
    (∀ a, a ≠ who → free_balance c' a = free_balance c a) ∧
    (∀ a, reserved_balance c' a = reserved_balance c a) ∧ issuance c' = issuance c - v;
  (** A reservation moves free balance under reserve and changes nothing else. *)
  reserve_Ok (c c' : C) who v :
    0 ≤ v → reserve (D := D) c who v = Ok c' →
    free_balance c' who = free_balance c who - v ∧
    reserved_balance c' who = reserved_balance c who + v ∧
    (∀ a, a ≠ who → free_balance c' a = free_balance c a ∧
                    reserved_balance c' a = reserved_balance c a) ∧ issuance c' = issuance c;
  (** [unreserve] moves back what there is, up to the amount. *)
  unreserve_spec (c c' : C) who v r :
    0 ≤ v → unreserve c who v = (c', r) →
    r = v - Z.min v (reserved_balance c who) ∧
    free_balance c' who = free_balance c who + Z.min v (reserved_balance c who) ∧
    reserved_balance c' who = reserved_balance c who - Z.min v (reserved_balance c who) ∧
    (∀ a, a ≠ who → free_balance c' a = free_balance c a ∧
                    reserved_balance c' a = reserved_balance c a) ∧ issuance c' = issuance c;
}.

(** [qp_high_security::HighSecurityInspector]. [E] is the storage the
    classification is read from. *)
Class HighSecurityInspector (E Call : Type) := {
  is_high_security : E → Hash256 → bool;
  is_whitelisted : Call → bool;
  guardian_of : E → Hash256 → option Hash256;
}.
Definition is_call_allowed_given {E Call} `{HighSecurityInspector E Call} (hs : bool) (c : Call) : bool :=
  negb hs || is_whitelisted c.
Definition is_call_allowed {E Call} `{HighSecurityInspector E Call} (e : E) (who : Hash256) (c : Call) : bool :=
  is_call_allowed_given (is_high_security e who) c.

(** [pallet_balances] under this pallet's one hold reason
    ([HoldReason::ScheduledTransfer]), as the reversible-transfers pallet uses
    it; the two [dispatch_] operations are calls dispatched as the account. *)
Class HoldLedger (C D : Type) := {
  hl_free : C → Hash256 → Z;
  hl_held : C → Hash256 → Z;
  hl_issuance : C → Z;
  hold : C → Hash256 → Z → result D C;
  (** [release] and [burn_held] with [Precision::Exact]. *)
  release : C → Hash256 → Z → result D C;
  burn_held : C → Hash256 → Z → result D C;
  (** [transfer_on_hold] with [Exact] and [Restriction::Free]. *)
  transfer_on_hold : C → Hash256 → Hash256 → Z → result D C;
  dispatch_transfer_allow_death : C → Hash256 → Hash256 → Z → result D C;
  dispatch_transfer_all : C → Hash256 → Hash256 → result D C;
}.
Class HoldLedgerLaws (C D : Type) `{HoldLedger C D} := {
  hold_Ok (c c' : C) who v :
    0 ≤ v → hold (D := D) c who v = Ok c' →
    hl_free c' who = hl_free c who - v ∧ hl_held c' who = hl_held c who + v ∧
    (∀ a, a ≠ who → hl_free c' a = hl_free c a ∧ hl_held c' a = hl_held c a) ∧
    hl_issuance c' = hl_issuance c;
  release_Ok (c c' : C) who v :
    0 ≤ v → release (D := D) c who v = Ok c' →
    hl_free c' who = hl_free c who + v ∧ hl_held c' who = hl_held c who - v ∧
    (∀ a, a ≠ who → hl_free c' a = hl_free c a ∧ hl_held c' a = hl_held c a) ∧
    hl_issuance c' = hl_issuance c;
  burn_held_Ok (c c' : C) who v :
    0 ≤ v → burn_held (D := D) c who v = Ok c' →
    hl_held c' who = hl_held c who - v ∧ (∀ a, hl_free c' a = hl_free c a) ∧
    (∀ a, a ≠ who → hl_held c' a = hl_held c a) ∧ hl_issuance c' = hl_issuance c - v;
  transfer_on_hold_Ok (c c' : C) from to v :
    0 ≤ v → from ≠ to → transfer_on_hold (D := D) c from to v = Ok c' →
    hl_held c' from = hl_held c from - v ∧ hl_free c' to = hl_free c to + v ∧
    (∀ a, a ≠ from → hl_held c' a = hl_held c a) ∧
    (∀ a, a ≠ to → hl_free c' a = hl_free c a) ∧ hl_issuance c' = hl_issuance c;
  (** Transfers of free balance leave every hold alone. *)
  dispatch_transfer_allow_death_held (c c' : C) from to v a :
    dispatch_transfer_allow_death (D := D) c from to v = Ok c' → hl_held c' a = hl_held c a;
  dispatch_transfer_all_held (c c' : C) from to a :
    dispatch_transfer_all (D := D) c from to = Ok c' → hl_held c' a = hl_held c a;
  (** The recipient is credited in full, and only the sender is debited. *)
  dispatch_transfer_allow_death_credit (c c' : C) from to v :
    0 ≤ v → from ≠ to → dispatch_transfer_allow_death (D := D) c from to v = Ok c' →
    hl_free c' to = hl_free c to + v;
  dispatch_transfer_all_debit (c c' : C) from to a :
    a ≠ from → dispatch_transfer_all (D := D) c from to = Ok c' → hl_free c a ≤ hl_free c' a;
}.
