(* ===== verification/Frame.v ===== *)
(** * What the pallets use of FRAME

    Two-dimensional weights with their saturating arithmetic, dispatch
    post-information, [Permill], bounded collections and signed origins, and
    the sums over finite maps the accounting invariants are stated with. *)

From stdpp Require Import base option list numbers gmap fin_maps.
From S2P Require Import Prelude Crypto.
#[local] Open Scope Z_scope.

(** ** Weights ([sp_weights::Weight]): two [u64] dimensions *)
Record Weight := { ref_time : Z; proof_size : Z }.
#[global] Instance Weight_eq_dec : EqDecision Weight.
Proof. solve_decision. Defined.

Definition weight_zero : Weight := {| ref_time := 0; proof_size := 0 |}.
Definition weight_add (a b : Weight) : Weight :=
  {| ref_time := sat_add 64 (ref_time a) (ref_time b);
     proof_size := sat_add 64 (proof_size a) (proof_size b) |}.
Definition weight_mul (a : Weight) (n : Z) : Weight :=
  {| ref_time := sat_mul 64 (ref_time a) n; proof_size := sat_mul 64 (proof_size a) n |}.
(** [Weight::any_gt]. *)
Definition any_gt (a b : Weight) : bool :=
  (ref_time b <? ref_time a) || (proof_size b <? proof_size a).
Definition weight_le (a b : Weight) : Prop :=
  ref_time a ≤ ref_time b ∧ proof_size a ≤ proof_size b.
Definition weight_ok (a : Weight) : Prop := in_u 64 (ref_time a) ∧ in_u 64 (proof_size a).

(** [RuntimeDbWeight]. *)
Record DbWeight := { db_read : Z; db_write : Z }.
Definition reads (db : DbWeight) (n : Z) : Weight :=
  {| ref_time := sat_mul 64 (db_read db) n; proof_size := 0 |}.
Definition writes (db : DbWeight) (n : Z) : Weight :=
  {| ref_time := sat_mul 64 (db_write db) n; proof_size := 0 |}.
Definition db_ok (db : DbWeight) : Prop := in_u 64 (db_read db) ∧ in_u 64 (db_write db).

Section Weights.
#[global] Instance weight_le_refl : Reflexive weight_le.
Proof. intros a. unfold weight_le. lia. Qed.
#[global] Instance weight_le_trans : Transitive weight_le.
Proof. intros a b c. unfold weight_le. lia. Qed.

Lemma any_gt_false a b : any_gt a b = false ↔ weight_le a b.
Proof. unfold any_gt, weight_le. rewrite orb_false_iff, !Z.ltb_ge. done. Qed.

Lemma weight_add_ok a b : weight_ok a → weight_ok b → weight_ok (weight_add a b).
Proof. intros [[??] [??]] [[??] [??]]. split; apply sat_add_in; lia. Qed.

Lemma weight_mul_ok a n : weight_ok a → 0 ≤ n → weight_ok (weight_mul a n).
Proof. intros [[??] [??]] ?. split; cbn; u_unfold; split; nia. Qed.

Lemma weight_add_mono a a' b b' :
  weight_le a a' → weight_le b b' → weight_le (weight_add a b) (weight_add a' b').
Proof. unfold weight_le. cbn. u_lia. Qed.

Lemma weight_mul_mono a n m : weight_ok a → n ≤ m → weight_le (weight_mul a n) (weight_mul a m).
Proof. unfold weight_le, weight_ok. cbn. u_unfold. intros [[??] [??]] ?. split; nia. Qed.

Lemma weight_le_add_l a b : weight_ok a → weight_ok b → weight_le a (weight_add a b).
Proof. unfold weight_le, weight_ok. cbn. u_lia. Qed.

Lemma weight_le_add_r a b : weight_ok a → weight_ok b → weight_le b (weight_add a b).
Proof. unfold weight_le, weight_ok. cbn. u_lia. Qed.

Lemma reads_ok db n : db_ok db → 0 ≤ n → weight_ok (reads db n).
Proof. intros [[??] _] ?. split; cbn; u_unfold; [split; nia|lia]. Qed.

Lemma writes_ok db n : db_ok db → 0 ≤ n → weight_ok (writes db n).
Proof. intros [_ [??]] ?. split; cbn; u_unfold; [split; nia|lia]. Qed.

Lemma reads_mono db n m : db_ok db → n ≤ m → weight_le (reads db n) (reads db m).
Proof. intros [[??] _] ?. split; cbn; u_unfold; [nia|lia]. Qed.

Lemma writes_mono db n m : db_ok db → n ≤ m → weight_le (writes db n) (writes db m).
Proof. intros [_ [??]] ?. split; cbn; u_unfold; [nia|lia]. Qed.
End Weights.

#[export] Hint Resolve weight_add_ok weight_mul_ok reads_ok writes_ok : qnero.
#[export] Hint Resolve weight_add_mono weight_mul_mono reads_mono writes_mono : qnero.

(** ** [Permill]: parts per million; [mul_floor] rounds down. *)
Definition permill_mul_floor (parts x : Z) : Z := x * parts / 1000000.

(** [Permill * x]: to the nearest, halves down. *)
Definition permill_mul (parts x : Z) : Z :=
  x * parts / 1000000 + (if 500000 <? x * parts mod 1000000 then 1 else 0).

Lemma permill_mul_bounds parts x :
  0 ≤ parts ≤ 1000000 → 0 ≤ x → 0 ≤ permill_mul parts x ≤ x.
Proof.
  intros Hp Hx. unfold permill_mul.
  pose proof (Z.div_mod (x * parts) 1000000). pose proof (Z.mod_pos_bound (x * parts) 1000000).
  assert (0 ≤ x * parts ≤ x * 1000000) by nia.
  destruct (Z.ltb_spec 500000 (x * parts mod 1000000)); lia.
Qed.

Lemma permill_mul_floor_bounds parts x :
  0 ≤ parts ≤ 1000000 → 0 ≤ x → 0 ≤ permill_mul_floor parts x ≤ x.
Proof.
  intros [??] ?. unfold permill_mul_floor. split; [apply Z.div_pos; nia|].
  apply Z.div_le_upper_bound; nia.
Qed.

(** ** Bounded collections *)

(** [BoundedVec::try_push]. *)
Definition try_push {A} (bound : Z) (l : list A) (x : A) : option (list A) :=
  if Z.of_nat (length l) <? bound then Some (l ++ [x]) else None.

(** [BoundedBTreeMap::try_insert]: refused only when it would grow the map
    past its bound. *)
Definition try_insert {K A} `{Countable K} (bound : Z) (k : K) (x : A) (m : gmap K A) :
    option (gmap K A) :=
  if bool_decide (is_Some (m !! k)) || (Z.of_nat (size m) <? bound)
  then Some (<[k := x]> m) else None.

Lemma try_push_Some {A} b (l l' : list A) x :
  try_push b l x = Some l' ↔ l' = l ++ [x] ∧ Z.of_nat (length l) < b.
Proof. unfold try_push. destruct (Z.ltb_spec (Z.of_nat (length l)) b); naive_solver lia. Qed.

Lemma try_insert_Some {K A} `{Countable K} b (k : K) (x : A) (m m' : gmap K A) :
  try_insert b k x m = Some m' → m' = <[k := x]> m.
Proof. unfold try_insert. destruct (_ || _); naive_solver. Qed.

(** ** Origins *)
Inductive RuntimeOrigin := Root | Signed (who : Hash256) | NoOrigin.

(** ** Addresses of extrinsics; [AccountIdLookup] resolves only [Id]. *)
Inductive MultiAddress :=
| Id (who : Hash256) | AddrIndex (n : Z) | Raw (bytes : list Z) | Address32 (a : list Z) | Address20 (a : list Z).

Definition lookup_address (a : MultiAddress) : option Hash256 :=
  match a with Id who => Some who | _ => None end.

(** ** Sums over finite maps *)
Definition map_sum {K A} `{Countable K} (f : K → A → Z) (m : gmap K A) : Z :=
  map_fold (λ k x acc, f k x + acc) 0 m.

Section MapSums.
Context {K A : Type} `{Countable K}.
Implicit Types (f g : K → A → Z) (m : gmap K A).

Lemma map_sum_empty f : map_sum f ∅ = 0.
Proof. apply map_fold_empty. Qed.

Lemma map_sum_insert f m k x : m !! k = None → map_sum f (<[k := x]> m) = f k x + map_sum f m.
Proof. intros Hk. apply (map_fold_insert_L (λ k x acc, f k x + acc)); [intros; lia|done]. Qed.

Lemma map_sum_delete f m k x : m !! k = Some x → map_sum f m = f k x + map_sum f (delete k m).
Proof. intros Hk. apply (map_fold_delete_L (λ k x acc, f k x + acc)); [intros; lia|done]. Qed.

Lemma map_sum_update f m k x y :
  m !! k = Some x → map_sum f (<[k := y]> m) = map_sum f m - f k x + f k y.
Proof.
  intros Hk. rewrite <- insert_delete_eq, map_sum_insert by apply lookup_delete_eq.
  rewrite (map_sum_delete f m k x) by done. lia.
Qed.

Lemma map_sum_ext f g m :
  (∀ k x, m !! k = Some x → f k x = g k x) → map_sum f m = map_sum g m.
Proof.
  induction m as [|k x m Hk IH] using map_ind; intros Heq; [done|].
  rewrite !map_sum_insert by done. f_equal; [apply Heq, lookup_insert_eq|].
  apply IH. intros k' x' Hk'. apply Heq. rewrite lookup_insert_ne; [done|]. congruence.
Qed.

Lemma map_sum_mono f g m :
  (∀ k x, m !! k = Some x → f k x ≤ g k x) → map_sum f m ≤ map_sum g m.
Proof.
  induction m as [|k x m Hk IH] using map_ind; intros Hle; [done|].
  rewrite !map_sum_insert by done. apply Z.add_le_mono; [apply Hle, lookup_insert_eq|].
  apply IH. intros k' x' Hk'. apply Hle. rewrite lookup_insert_ne; [done|]. congruence.
Qed.

Lemma map_sum_nonneg f m : (∀ k x, m !! k = Some x → 0 ≤ f k x) → 0 ≤ map_sum f m.
Proof.
  intros Hf. transitivity (map_sum (λ _ _, 0) m); [|by apply map_sum_mono].
  clear Hf. induction m as [|k x m Hk IH] using map_ind; [done|].
  by rewrite map_sum_insert.
Qed.

Lemma map_sum_zero f m : (∀ k x, m !! k = Some x → f k x = 0) → map_sum f m = 0.
Proof.
  intros Hf. rewrite (map_sum_ext f (λ _ _, 0)) by done. clear Hf.
  induction m as [|k x m Hk IH] using map_ind; [done|]. by rewrite map_sum_insert.
Qed.

Lemma map_sum_lookup_le f m k x :
  (∀ k x, m !! k = Some x → 0 ≤ f k x) → m !! k = Some x → f k x ≤ map_sum f m.
Proof.
  intros Hf Hk. rewrite (map_sum_delete f m k x Hk).
  assert (0 ≤ map_sum f (delete k m)); [|lia].
  apply map_sum_nonneg. intros k' x' [_ Hk']%lookup_delete_Some. by apply Hf.
Qed.

Lemma map_sum_add f g m : map_sum (λ k x, f k x + g k x) m = map_sum f m + map_sum g m.
Proof.
  induction m as [|k x m Hk IH] using map_ind; [done|]. rewrite !map_sum_insert by done. lia.
Qed.

(** A sum over a map is a sum over any list of keys that covers it. *)
Lemma map_sum_keys f m (l : list K) :
  NoDup l → (∀ k x, m !! k = Some x → k ∈ l) →
  map_sum f m = sum_by (λ k, from_option (f k) 0 (m !! k)) l.
Proof.
  intros Hnd. revert m. induction Hnd as [|k l Hk Hnd IH]; intros m Hdom.
  - assert (m = ∅) as ->; [|done]. apply map_empty. intros k.
    destruct (m !! k) as [x|] eqn:Hx; [|done]. by apply Hdom, not_elem_of_nil in Hx.
  - rewrite sum_by_cons.
    assert (Hrest : map_sum f (delete k m) = sum_by (λ k, from_option (f k) 0 (m !! k)) l).
    { rewrite IH.
      - clear -Hk. induction l as [|k' l IH]; [done|]. rewrite !sum_by_cons.
        rewrite lookup_delete_ne by set_solver. f_equal. apply IH. set_solver.
      - intros k' x [Hne Hx]%lookup_delete_Some. apply Hdom in Hx. set_solver. }
    rewrite <- Hrest. destruct (m !! k) as [x|] eqn:Hx; cbn.
    + by apply map_sum_delete.
    + by rewrite delete_id.
Qed.

Lemma sum_by_indicator (l : list K) (k : K) (v : Z) :
  NoDup l → sum_by (λ k', if bool_decide (k = k') then v else 0) l =
  if bool_decide (k ∈ l) then v else 0.
Proof.
  induction 1 as [|k' l Hk' _ IH]; [by rewrite bool_decide_false by apply not_elem_of_nil|].
  rewrite sum_by_cons, IH. destruct (decide (k = k')) as [<-|Hne].
  - rewrite bool_decide_true, (bool_decide_false (k ∈ l)), bool_decide_true by (done || by left). lia.
  - rewrite bool_decide_false by done.
    rewrite (bool_decide_ext (k ∈ k' :: l) (k ∈ l)); [lia|]. rewrite elem_of_cons. naive_solver.
Qed.
End MapSums.

(** ** SCALE compact integers ([parity_scale_codec::Compact]), up to 32 bits *)
Definition compact_u32 (n : Z) : list Z :=
  if n <? 2 ^ 6 then [4 * n]
  else if n <? 2 ^ 14 then le_bytes 2 (4 * n + 1)
  else if n <? 2 ^ 30 then le_bytes 4 (4 * n + 2)
  else 3 :: le_bytes 4 n.

(** The two low bits of the first byte tell the width. *)
Definition compact_width (bs : list Z) : nat :=
  match bs with
  | [] => 0
  | b :: _ => if b mod 4 =? 0 then 1 else if b mod 4 =? 1 then 2 else if b mod 4 =? 2 then 4 else 5
  end.
Definition compact_value (bs : list Z) : Z :=
  match bs with
  | [] => 0
  | b :: bs' =>
      if b mod 4 =? 3 then le_val (take 4 bs') else le_val (take (compact_width bs) bs) / 4
  end.

Section Compact.
#[local] Ltac Zify.zify_post_hook ::= Z.div_mod_to_equations.

Lemma le_bytes_cons n z : le_bytes (S n) z = z mod 256 :: le_bytes n (z / 256).
Proof. done. Qed.

Lemma mod_256_4 z : (z mod 256) mod 4 = z mod 4.
Proof. lia. Qed.

(** A compact integer is read back from the front of any continuation. *)
Lemma compact_u32_read n rest :
  in_u 32 n →
  compact_value (compact_u32 n ++ rest) = n ∧
  compact_width (compact_u32 n ++ rest) = length (compact_u32 n).
Proof.
  intros [H0 H32]. unfold compact_u32.
  assert (Hrd : ∀ k z, 0 ≤ z < 256 ^ Z.of_nat (S k) →
    le_val (take (S k) (le_bytes (S k) z ++ rest)) = z).
  { intros k z Hz.
    rewrite take_app_length' by (symmetry; apply length_le_bytes). by apply le_val_le_bytes. }
  repeat case_match; res_inv.
  - cbn [app]. unfold compact_value, compact_width. replace (4 * n mod 4) with 0 by lia. cbn [Z.eqb take].
    rewrite take_0. change (le_val [4 * n]) with (4 * n + 256 * 0). split; [lia|done].
  - assert (Hv := Hrd 1%nat (4 * n + 1) ltac:(cbn; lia)). revert Hv.
    rewrite !le_bytes_cons. cbn [app]. unfold compact_value, compact_width.
    rewrite !mod_256_4. replace ((4 * n + 1) mod 4) with 1 by lia. cbn [Z.eqb Pos.eqb].
    intros ->. split; [lia|]. by rewrite <- !le_bytes_cons, length_le_bytes.
  - assert (Hv := Hrd 3%nat (4 * n + 2) ltac:(cbn; lia)). revert Hv.
    rewrite !le_bytes_cons. cbn [app]. unfold compact_value, compact_width.
    rewrite !mod_256_4. replace ((4 * n + 2) mod 4) with 2 by lia. cbn [Z.eqb Pos.eqb].
    intros ->. split; [lia|]. by rewrite <- !le_bytes_cons, length_le_bytes.
  - cbn [app]. unfold compact_value, compact_width. cbn [Z.modulo Z.div_eucl]. cbn.
    assert (Hv := Hrd 3%nat n ltac:(cbn; lia)). split; [done|].
    by rewrite length_le_bytes.
Qed.

Lemma compact_u32_app_inj n m r1 r2 :
  in_u 32 n → in_u 32 m → compact_u32 n ++ r1 = compact_u32 m ++ r2 → n = m ∧ r1 = r2.
Proof.
  intros Hn Hm Heq.
  destruct (compact_u32_read n r1 Hn) as [Hv1 _], (compact_u32_read m r2 Hm) as [Hv2 _].
  assert (n = m) as -> by (rewrite <- Hv1, <- Hv2; by rewrite Heq).
  by apply app_inv_head in Heq.
Qed.
End Compact.

(** A prefix and an element width determine a list of equally long blocks. *)
Lemma concat_blocks_inj (k : nat) (l1 l2 : list (list Z)) r1 r2 :
  Forall (λ b, length b = k) l1 → Forall (λ b, length b = k) l2 → length l1 = length l2 →
  concat l1 ++ r1 = concat l2 ++ r2 → l1 = l2 ∧ r1 = r2.
Proof.
  intros H1. revert l2. induction H1 as [|b l1 Hb H1 IH]; intros [|b' l2] H2 Hl Heq; try done.
  inversion H2; subst. cbn in *. rewrite <- !app_assoc in Heq.
  apply app_inj_1 in Heq as [-> Heq]; [|done]. destruct (IH l2) as [-> ->]; [done|lia|done|done].
Qed.
