(* ===== verification/SchedulerTime.v ===== *)
(** * Scheduling times

    [chain/primitives/scheduler/src/lib.rs] (block numbers or timestamps,
    bucket normalisation, dispatch times) and [resolve_time] of
    [chain/pallets/scheduler/src/lib.rs]. *)

From stdpp Require Import base option list numbers.
From S2P Require Import Prelude.
#[local] Open Scope Z_scope.

Inductive BlockNumberOrTimestamp := BlockNumber (n : Z) | Timestamp (t : Z).
#[global] Instance BlockNumberOrTimestamp_eq_dec : EqDecision BlockNumberOrTimestamp.
Proof. solve_decision. Defined.

(** Timestamps round up to the next bucket boundary, exact boundaries too. *)
Definition normalize (x : BlockNumberOrTimestamp) (precision : Z) : BlockNumberOrTimestamp :=
  match x with
  | BlockNumber _ => x
  | Timestamp t =>
      let stripped_t := sat_mul 64 (default 0 (checked_div t precision)) precision in
      Timestamp (sat_add 64 stripped_t precision)
  end.

Definition as_block_number (x : BlockNumberOrTimestamp) : option Z :=
  match x with BlockNumber n => Some n | Timestamp _ => None end.
Definition as_timestamp (x : BlockNumberOrTimestamp) : option Z :=
  match x with BlockNumber _ => None | Timestamp t => Some t end.
Definition bnt_is_zero (x : BlockNumberOrTimestamp) : bool :=
  match x with BlockNumber n => n =? 0 | Timestamp t => t =? 0 end.

(** [None] is [IncompatibleTypesError]. *)
Definition bnt_saturating_add (x y : BlockNumberOrTimestamp) : option BlockNumberOrTimestamp :=
  match x, y with
  | BlockNumber a, BlockNumber b => Some (BlockNumber (sat_add 32 a b))
  | Timestamp a, Timestamp b => Some (Timestamp (sat_add 64 a b))
  | _, _ => None
  end.

Inductive DispatchTime := At (block : Z) | After (x : BlockNumberOrTimestamp).

Inductive ScheduleTimeError := TargetBlockNumberInPast | TargetTimestampInPast.

Definition resolve_time (bucket_size current_block now : Z) (when_ : DispatchTime) :
    result ScheduleTimeError BlockNumberOrTimestamp :=
  let resolved :=
    match when_ with
    | At x => BlockNumber x
    | After (BlockNumber x) => BlockNumber (sat_add 32 (sat_add 32 current_block x) 1)
    | After (Timestamp target) =>
        let bucket := normalize (Timestamp target) bucket_size in
        let bucket_time := default target (as_timestamp bucket) in
        Timestamp (sat_add 64 bucket_time bucket_size)
    end in
  match resolved with
  | BlockNumber x => _ ← ensure (current_block <? x) TargetBlockNumberInPast; Ok resolved
  | Timestamp x => _ ← ensure (now <? x) TargetTimestampInPast; Ok resolved
  end.

(** A timestamp lands in the first bucket boundary strictly above it, and is
    put off by one whole bucket more: strictly after the target by more than a
    bucket and at most two. *)
Lemma resolve_timestamp bucket_size current_block now target r :
  0 < bucket_size → 0 ≤ target → target + 2 * bucket_size ≤ u_max 64 →
  resolve_time bucket_size current_block now (After (Timestamp target)) = Ok r →
  ∃ t, r = Timestamp t ∧ t mod bucket_size = 0 ∧
    target + bucket_size < t ≤ target + 2 * bucket_size.
Proof.
  intros Hb Ht Hmax Hr. unfold resolve_time, normalize, checked_div in Hr.
  rewrite (proj2 (Z.eqb_neq bucket_size 0)) in Hr by lia. cbn in Hr. res_inv. subst r.
  eexists. split; [done|].
  pose proof (Z.div_mod target bucket_size). pose proof (Z.mod_pos_bound target bucket_size Hb).
  pose proof (Z.div_pos target bucket_size).
  rewrite sat_mul_exact by nia.
  rewrite (sat_add_exact 64 (target / bucket_size * bucket_size)) by nia.
  rewrite sat_add_exact by nia. split; [|nia].
  replace (target / bucket_size * bucket_size + bucket_size + bucket_size)
    with ((target / bucket_size + 2) * bucket_size) by ring.
  apply Z.mod_mul. lia.
Qed.

(** A target in the bucket that ends at 48000 lands on the next boundary. *)
Example resolve_example : resolve_time 24000 1 10000 (After (Timestamp 35000)) = Ok (Timestamp 72000).
Proof. reflexivity. Qed.

(** A clock at 48000 is in the bucket that ends at 72000, the one serviced then. *)
Example bucket_example : normalize (Timestamp 48000) 24000 = Timestamp 72000.
Proof. reflexivity. Qed.
