(* ===== verification/ZkTree.v ===== *)
(** * The note tree

    [chain/pallets/zk-tree/src/{lib,tree}.rs]: a 4-ary Merkle tree of note
    commitments whose internal nodes hash their four children sorted. Leaves
    are appended during a block and folded into the stored nodes and the root
    once, in [on_finalize]. [ZkTreeProps] proves that fold equal to the plain
    recursive definition of the tree. *)

From stdpp Require Import base list numbers list_numbers gmap sorting.
From S2P Require Import Prelude Crypto Interfaces.
#[local] Open Scope Z_scope.

Definition CIRCUIT_MAX_TREE_DEPTH : Z := 20.
Definition ARITY : Z := 4.
Definition AMOUNT_SCALE_DOWN_FACTOR : Z := 10000000000.

(** ** Data *)
Record ZkLeaf := {
  zl_to : Hash256;
  zl_transfer_count : Z;
  zl_asset_id : Z;
  zl_amount : Z;
}.

Record ZkMerkleProof := {
  mp_leaf_index : Z;
  mp_siblings : list (Hash256 * Hash256 * Hash256);
}.

Inductive TreeEvent :=
| LeafInserted (index : Z)
| TreeGrew (new_depth : Z).

Inductive TreeError :=
| LeafIndexOutOfBounds
| LeafNotFound
| LeafNotYetSettled
| NonCanonicalCommitment
| ZeroCommitment
| TreeFull.
#[global] Instance TreeError_eq_dec : EqDecision TreeError.
Proof. solve_decision. Defined.

(** The pallet's storage, and the header field [frame_system] keeps for it. *)
Record TreeState := {
  Leaves : gmap Z Hash256;
  Nodes : gmap (Z * Z) Hash256;
  LeafCount : Z;
  Depth : Z;
  Root : Hash256;
  UnprocessedLeaves : Z;
  tree_events : list TreeEvent;
  zk_tree_root : Hash256;
}.

Definition genesis_tree : TreeState := {|
  Leaves := ∅; Nodes := ∅; LeafCount := 0; Depth := 0; Root := zero_hash;
  UnprocessedLeaves := 0; tree_events := []; zk_tree_root := zero_hash |}.

(** ** [tree.rs] *)
Definition capacity_at_depth (depth : Z) : Z :=
  if depth =? 0 then 0 else sat_pow 64 ARITY depth.

(** Each 8-byte limb at or above the modulus is reduced once. *)
Definition canonicalize_account_bytes (bytes : Hash256) : Hash256 :=
  digest_of_limbs
    ((λ value, if GOLDILOCKS_P <=? value then value - GOLDILOCKS_P else value) <$> limbs bytes).

Definition empty_hash : Hash256 := zero_hash.

(** The byte order [[u8; 32]] sorts by. *)
Fixpoint lex_le (a b : list Z) : bool :=
  match a, b with
  | [], _ => true
  | _ :: _, [] => false
  | x :: a', y :: b' => if x <? y then true else if x =? y then lex_le a' b' else false
  end.
Definition lex (a b : list Z) : Prop := lex_le a b = true.
#[global] Instance lex_dec : RelDecision lex.
Proof. intros a b. unfold lex. apply _. Defined.

Section Hashing.
Context `{PoseidonOps}.

Definition bytes_to_felts_compact_lossy (input : list Z) : list felt :=
  from_u64 <$> bytes_to_u64s_compact input.

Definition hash_leaf (leaf : ZkLeaf) : Hash256 :=
  let asset_id_u32 := default (u_max 32) (try_u 32 (zl_asset_id leaf)) in
  let amount_quantized :=
    default (u_max 32) (try_u 32 (zl_amount leaf / AMOUNT_SCALE_DOWN_FACTOR)) in
  hash_to_bytes (bytes_to_felts_compact_lossy (zl_to leaf)
    ++ u64_to_felts (zl_transfer_count leaf)
    ++ bytes_to_felts_compact_lossy (le_bytes 8 asset_id_u32)
    ++ bytes_to_felts_compact_lossy (le_bytes 8 amount_quantized)).

Definition hash_node (children : list Hash256) : Hash256 :=
  let sorted := merge_sort lex children in
  hash_to_bytes (bytes_to_felts_compact_lossy (concat sorted)).
End Hashing.

Definition get_leaf_hash (leaves : gmap Z Hash256) (index : Z) : Hash256 :=
  default empty_hash (leaves !! index).
Definition get_node_hash (nodes : gmap (Z * Z) Hash256) (level index : Z) : Hash256 :=
  default empty_hash (nodes !! (level, index)).

Section Update.
Context `{PoseidonOps}.
Implicit Types (leaves : gmap Z Hash256) (nodes : gmap (Z * Z) Hash256).

(** The four children of [parent] while level [level] is rebuilt: from the
    range just rebuilt below, empty to its right, from storage to its left.
    [dirty] is indexed behind the range test, so the read is in range. *)
Definition update_children leaves nodes (lo hi : Z) (dirty : list Hash256) (level parent : Z)
  : list Hash256 :=
  let base := parent * ARITY in
  (λ i,
    let index := base + i in
    if (lo <=? index) && (index <=? hi) then
      default empty_hash (dirty !! Z.to_nat (index - lo))
    else if hi <? index then empty_hash
    else if level =? 1 then get_leaf_hash leaves index
    else get_node_hash nodes (level - 1) index) <$> seqZ 0 ARITY.

Record UpdateRange := {
  ur_nodes : gmap (Z * Z) Hash256;
  ur_lo : Z;
  ur_hi : Z;
  ur_dirty : list Hash256;
}.

(** One parent of the range: its hash is stored below the root level and
    pushed on the next level's range. *)
Definition update_parent leaves (depth level : Z) (u : UpdateRange)
  (acc : gmap (Z * Z) Hash256 * list Hash256) (parent : Z)
  : gmap (Z * Z) Hash256 * list Hash256 :=
  let '(nodes, parents) := acc in
  let hash := hash_node (update_children leaves nodes (ur_lo u) (ur_hi u) (ur_dirty u) level parent) in
  (if level <? depth then <[(level, parent) := hash]> nodes else nodes, parents ++ [hash]).

Definition update_level leaves (depth : Z) (u : UpdateRange) (level : Z) : UpdateRange :=
  let parent_lo := ur_lo u / ARITY in
  let parent_hi := ur_hi u / ARITY in
  let '(nodes, parents) :=
    foldl (update_parent leaves depth level u) (ur_nodes u, [])
      (seqZ parent_lo (parent_hi - parent_lo + 1)) in
  {| ur_nodes := nodes; ur_lo := parent_lo; ur_hi := parent_hi; ur_dirty := parents |}.

Definition update_range leaves nodes (start end_ depth : Z) : gmap (Z * Z) Hash256 * Hash256 :=
  let u0 := {| ur_nodes := nodes; ur_lo := start; ur_hi := end_ - 1;
               ur_dirty := get_leaf_hash leaves <$> seqZ start (end_ - start) |} in
  let u := foldl (update_level leaves depth) u0 (seqZ 1 depth) in
  (ur_nodes u, default empty_hash (ur_dirty u !! 0%nat)).

Definition grow_tree (old_depth : Z) (root : Hash256) nodes : gmap (Z * Z) Hash256 :=
  if old_depth =? 0 then nodes else <[(old_depth, 0) := root]> nodes.

(** ** Proofs *)
(** The three siblings of [current_index], in index order. *)
Definition level_siblings leaves nodes (level current_index : Z) : list Hash256 :=
  let base := current_index / ARITY * ARITY in
  (λ child_index,
     if level =? 1 then get_leaf_hash leaves child_index
     else get_node_hash nodes (level - 1) child_index)
  <$> filter (λ child_index, child_index ≠ current_index) ((λ i, base + i) <$> seqZ 0 ARITY).

Definition as_triple (l : list Hash256) : Hash256 * Hash256 * Hash256 :=
  (nth 0 l empty_hash, nth 1 l empty_hash, nth 2 l empty_hash).

(** The loop also folds [current_hash], which it never reads; only the
    siblings and the index are carried here. *)
Fixpoint proof_levels leaves nodes (levels : list Z) (current_index : Z)
  : list (Hash256 * Hash256 * Hash256) :=
  match levels with
  | [] => []
  | level :: levels' =>
      as_triple (level_siblings leaves nodes level current_index)
        :: proof_levels leaves nodes levels' (current_index / ARITY)
  end.

Definition generate_proof leaves nodes (leaf_index depth : Z) : result TreeError ZkMerkleProof :=
  if depth =? 0 then Err LeafNotFound
  else Ok {| mp_leaf_index := leaf_index;
             mp_siblings := proof_levels leaves nodes (seqZ 1 depth) leaf_index |}.

Definition fold_siblings (leaf_hash : Hash256) (siblings : list (Hash256 * Hash256 * Hash256))
  : Hash256 :=
  foldl (λ current_hash '(s0, s1, s2), hash_node [current_hash; s0; s1; s2]) leaf_hash siblings.

Definition verify_proof (leaf_hash : Hash256) (proof : ZkMerkleProof) (expected_root : Hash256)
  : bool :=
  bool_decide (fold_siblings leaf_hash (mp_siblings proof) = expected_root).
End Update.

(** ** [lib.rs]: the pallet *)
Section Pallet.
Context `{PoseidonOps}.
Implicit Types t : TreeState.

Definition append_leaf_hash t (leaf_hash : Hash256) : TreeState * Z :=
  let leaf_index := LeafCount t in
  ({| Leaves := <[leaf_index := leaf_hash]> (Leaves t);
      Nodes := Nodes t;
      LeafCount := sat_add 64 leaf_index 1;
      Depth := Depth t;
      Root := Root t;
      UnprocessedLeaves := sat_add 64 (UnprocessedLeaves t) 1;
      tree_events := tree_events t ++ [LeafInserted leaf_index];
      zk_tree_root := zk_tree_root t |}, leaf_index).

Definition insert_leaf t (to : Hash256) (transfer_count asset_id amount : Z) : TreeState * Z :=
  append_leaf_hash t (hash_leaf {| zl_to := to; zl_transfer_count := transfer_count;
                                   zl_asset_id := asset_id; zl_amount := amount |}).

(** [impl ZkTreeRecorder for Pallet]. *)
Definition record_transfer t (to : Hash256) (transfer_count asset_id amount : Z) : TreeState * Z :=
  insert_leaf t to transfer_count asset_id amount.

Definition tree_remaining_capacity t : Z :=
  sat_sub (capacity_at_depth CIRCUIT_MAX_TREE_DEPTH) (LeafCount t).

Definition tree_insert_commitment t (commitment : Hash256) : result TreeError (TreeState * Z) :=
  _ ← ensure (negb (bool_decide (commitment = empty_hash))) ZeroCommitment;
  _ ← ensure (canonical_limbs commitment) NonCanonicalCommitment;
  _ ← ensure (0 <? tree_remaining_capacity t) TreeFull;
  Ok (append_leaf_hash t commitment).

(** The growth loop; twenty rounds are enough, since every round deepens the
    tree and none runs at [CIRCUIT_MAX_TREE_DEPTH]. *)
Fixpoint grow_depth (fuel : nat) (depth leaf_count : Z) : Z :=
  match fuel with
  | O => depth
  | S fuel' =>
      if (capacity_at_depth depth <? leaf_count) && (depth <? CIRCUIT_MAX_TREE_DEPTH)
      then grow_depth fuel' (sat_add 8 depth 1) leaf_count
      else depth
  end.
Definition GROW_FUEL : nat := 20.

Definition process_pending_leaves t : TreeState :=
  let pending := UnprocessedLeaves t in
  if pending =? 0 then t
  else
    let leaf_count := LeafCount t in
    let start := sat_sub leaf_count pending in
    let old_depth := Depth t in
    let depth := grow_depth GROW_FUEL old_depth leaf_count in
    let grew := old_depth <? depth in
    let nodes := if grew then grow_tree old_depth (Root t) (Nodes t) else Nodes t in
    let '(nodes', new_root) := update_range (Leaves t) nodes start leaf_count depth in
    {| Leaves := Leaves t;
       Nodes := nodes';
       LeafCount := leaf_count;
       Depth := if grew then depth else old_depth;
       Root := new_root;
       UnprocessedLeaves := 0;
       tree_events := if grew then tree_events t ++ [TreeGrew depth] else tree_events t;
       zk_tree_root := zk_tree_root t |}.

(** [on_finalize]: fold, then publish the root in the header. *)
Definition tree_on_finalize t : TreeState :=
  let t' := process_pending_leaves t in
  {| Leaves := Leaves t'; Nodes := Nodes t'; LeafCount := LeafCount t'; Depth := Depth t';
     Root := Root t'; UnprocessedLeaves := UnprocessedLeaves t'; tree_events := tree_events t';
     zk_tree_root := Root t' |}.

Definition get_merkle_proof t (leaf_index : Z) : result TreeError ZkMerkleProof :=
  _ ← ensure (leaf_index <? LeafCount t) LeafIndexOutOfBounds;
  let processed := sat_sub (LeafCount t) (UnprocessedLeaves t) in
  _ ← ensure (leaf_index <? processed) LeafNotYetSettled;
  generate_proof (Leaves t) (Nodes t) leaf_index (Depth t).

Definition pallet_verify_proof t (leaf_hash : Hash256) (proof : ZkMerkleProof) : bool :=
  verify_proof leaf_hash proof (Root t).

(** ** The reference tree

    What the root of the first [n] leaves is, by recursion on the level: an
    empty subtree is [empty_hash] at every level, any other node hashes its
    four children. *)
Fixpoint ref_node (leaves : gmap Z Hash256) (n : Z) (level : nat) (index : Z) : Hash256 :=
  if n <=? index * 4 ^ Z.of_nat level then empty_hash
  else match level with
       | O => get_leaf_hash leaves index
       | S level' =>
           hash_node [ref_node leaves n level' (4 * index);
                      ref_node leaves n level' (4 * index + 1);
                      ref_node leaves n level' (4 * index + 2);
                      ref_node leaves n level' (4 * index + 3)]
       end.
End Pallet.
