(* ===== verification/ZkTreeProps.v ===== *)
(** * Properties of the note tree

    The batched fold of [process_pending_leaves] computes the reference tree,
    whatever blocks the leaves were split into; every settled leaf has a proof
    that verifies; and a proof of the tree's depth verifies only for a leaf of
    the tree, unless the sponge is broken. The pallet discharges the laws of
    [ZkCommitmentRecorder]. *)

From stdpp Require Import base list numbers list_numbers gmap sorting relations.
From S2P Require Import Prelude Crypto NoteRules Interfaces ZkTree.
#[local] Open Scope Z_scope.

(** ** The byte order *)
Section Lex.
Lemma lex_cons x y a b : lex (x :: a) (y :: b) ↔ x < y ∨ x = y ∧ lex a b.
Proof.
  unfold lex; cbn. destruct (Z.ltb_spec x y); [naive_solver lia|].
  destruct (Z.eqb_spec x y); naive_solver lia.
Qed.

#[export] Instance lex_total : Total lex.
Proof.
  intros a. induction a as [|x a IH]; intros [|y b]; try (by left); [by right|].
  rewrite !lex_cons. destruct (Z.lt_trichotomy x y) as [|[->|]]; [naive_solver| |naive_solver].
  destruct (IH b); naive_solver.
Qed.

#[export] Instance lex_trans : Transitive lex.
Proof.
  intros a. induction a as [|x a IH]; intros [|y b] [|z c]; try done.
  rewrite !lex_cons. naive_solver lia.
Qed.

#[export] Instance lex_antisymm : AntiSymm (=) lex.
Proof.
  intros a. induction a as [|x a IH]; intros [|y b]; try done.
  rewrite !lex_cons. intros [?|[-> ?]] [?|[? ?]]; try lia. f_equal. by apply IH.
Qed.

(** Sorting forgets the order of the children. *)
Lemma merge_sort_perm_eq (l1 l2 : list Hash256) :
  l1 ≡ₚ l2 → merge_sort lex l1 = merge_sort lex l2.
Proof.
  intros Hp. apply (StronglySorted_unique lex).
  - apply (StronglySorted_merge_sort lex).
  - apply (StronglySorted_merge_sort lex).
  - by rewrite !merge_sort_Permutation.
Qed.

Lemma hash_node_perm `{PoseidonOps} l1 l2 : l1 ≡ₚ l2 → hash_node l1 = hash_node l2.
Proof. intros Hp. unfold hash_node. by rewrite (merge_sort_perm_eq l1 l2). Qed.
End Lex.

(** ** The reference tree *)
Section Reference.
Context `{PoseidonOps}.
Implicit Types (leaves : gmap Z Hash256) (n i : Z) (l : nat).

Lemma pow4_pos l : 0 < 4 ^ Z.of_nat l.
Proof. apply Z.pow_pos_nonneg; lia. Qed.

Lemma pow4_S l : 4 ^ Z.of_nat (S l) = 4 * 4 ^ Z.of_nat l.
Proof. rewrite Nat2Z.inj_succ, Z.pow_succ_r; lia. Qed.

Lemma ref_node_empty leaves n l i : n ≤ i * 4 ^ Z.of_nat l → ref_node leaves n l i = empty_hash.
Proof. intros Hn. destruct l; cbn [ref_node]; by rewrite (proj2 (Z.leb_le _ _)). Qed.

Lemma ref_node_leaf leaves n i : i < n → ref_node leaves n 0 i = get_leaf_hash leaves i.
Proof. intros Hn. cbn [ref_node]. rewrite (proj2 (Z.leb_gt _ _)); [done|]. change (4 ^ Z.of_nat 0) with 1. lia. Qed.

Lemma ref_node_node leaves n l i :
  i * 4 ^ Z.of_nat (S l) < n →
  ref_node leaves n (S l) i =
    hash_node ((λ k, ref_node leaves n l (i * 4 + k)) <$> seqZ 0 4).
Proof.
  intros Hn. cbn [ref_node]. rewrite (proj2 (Z.leb_gt _ _)) by done.
  change (seqZ 0 4) with [0; 1; 2; 3]. cbn [fmap list_fmap]. by rewrite (Z.mul_comm i 4), Z.add_0_r.
Qed.

(** A full subtree depends on its own leaves only. *)
Lemma ref_node_full leaves leaves' n n' l i :
  (∀ j, j < (i + 1) * 4 ^ Z.of_nat l → leaves !! j = leaves' !! j) →
  (i + 1) * 4 ^ Z.of_nat l ≤ n → (i + 1) * 4 ^ Z.of_nat l ≤ n' →
  ref_node leaves n l i = ref_node leaves' n' l i.
Proof.
  revert i. induction l as [|l IH]; intros i Hl Hn Hn'.
  - change (4 ^ Z.of_nat 0) with 1 in *. rewrite !ref_node_leaf by lia.
    unfold get_leaf_hash. rewrite Hl; [done|lia].
  - pose proof (pow4_pos l). rewrite pow4_S in *. rewrite !ref_node_node by (rewrite pow4_S; nia).
    f_equal. apply list_fmap_ext. intros j k Hk. apply lookup_seqZ in Hk as [-> Hk].
    assert ((i * 4 + (0 + Z.of_nat j) + 1) * 4 ^ Z.of_nat l ≤ (i + 1) * (4 * 4 ^ Z.of_nat l)) by nia.
    apply IH; [|lia..]. intros m Hm. apply Hl. lia.
Qed.

(** The tree of the first [n] leaves depends on those only. *)
Lemma ref_node_ext leaves leaves' n l i :
  (∀ j, j < n → leaves !! j = leaves' !! j) → ref_node leaves n l i = ref_node leaves' n l i.
Proof.
  intros Hl. revert i. induction l as [|l IH]; intros i.
  - destruct (Z.le_gt_cases n i); [rewrite !ref_node_empty by (change (4 ^ Z.of_nat 0) with 1; lia); done|].
    rewrite !ref_node_leaf by done. unfold get_leaf_hash. by rewrite Hl.
  - destruct (Z.le_gt_cases n (i * 4 ^ Z.of_nat (S l))); [by rewrite !ref_node_empty|].
    rewrite !ref_node_node by done. f_equal. apply list_fmap_ext. intros. apply IH.
Qed.
End Reference.

(** ** The range update *)
Section Range.
Context `{PoseidonOps}.
Variables (leaves : gmap Z Hash256) (nodes0 : gmap (Z * Z) Hash256) (start n : Z) (depth : nat).
Hypothesis Hrange : 0 ≤ start < n.
(** What is left of the range is already right. *)
Hypothesis Hleft : ∀ k i, (1 ≤ k < depth)%nat → 0 ≤ i < start / 4 ^ Z.of_nat k →
  get_node_hash nodes0 (Z.of_nat k) i = ref_node leaves n k i.

Definition lo_at (k : nat) : Z := start / 4 ^ Z.of_nat k.
Definition hi_at (k : nat) : Z := (n - 1) / 4 ^ Z.of_nat k.

Lemma lo_hi k : 0 ≤ lo_at k ≤ hi_at k.
Proof.
  unfold lo_at, hi_at. pose proof (pow4_pos k). split; [apply Z.div_pos; lia|].
  apply Z.div_le_mono; lia.
Qed.

Lemma lo_at_S k : lo_at k / ARITY = lo_at (S k).
Proof. unfold lo_at, ARITY. rewrite pow4_S, Z.mul_comm, Z.div_div; [done| |lia]. pose proof (pow4_pos k). lia. Qed.

Lemma hi_at_S k : hi_at k / ARITY = hi_at (S k).
Proof. unfold hi_at, ARITY. rewrite pow4_S, Z.mul_comm, Z.div_div; [done| |lia]. pose proof (pow4_pos k). lia. Qed.

Lemma right_of_range k i : hi_at k < i → n ≤ i * 4 ^ Z.of_nat k.
Proof.
  unfold hi_at. intros Hi. pose proof (pow4_pos k).
  pose proof (Z.mul_succ_div_gt (n - 1) (4 ^ Z.of_nat k)). nia.
Qed.

Lemma within_range k i : i ≤ hi_at k → i * 4 ^ Z.of_nat k < n.
Proof.
  unfold hi_at. intros Hi. pose proof (pow4_pos k).
  pose proof (Z.mul_div_le (n - 1) (4 ^ Z.of_nat k)). nia.
Qed.

(** The nodes after [k] levels: rebuilt inside the range, as before outside. *)
Definition nodes_upto (k : nat) (nodes : gmap (Z * Z) Hash256) : Prop :=
  ∀ l i, nodes !! (l, i) =
    if decide (1 ≤ l ≤ Z.of_nat k ∧ l < Z.of_nat depth ∧ lo_at (Z.to_nat l) ≤ i ≤ hi_at (Z.to_nat l))
    then Some (ref_node leaves n (Z.to_nat l) i) else nodes0 !! (l, i).

Definition range_inv (k : nat) (u : UpdateRange) : Prop :=
  ur_lo u = lo_at k ∧ ur_hi u = hi_at k ∧
  ur_dirty u = ref_node leaves n k <$> seqZ (lo_at k) (hi_at k - lo_at k + 1) ∧
  nodes_upto k (ur_nodes u).

Lemma children_are_reference k u p :
  (k < depth)%nat → range_inv k u → lo_at (S k) ≤ p →
  update_children leaves (ur_nodes u) (ur_lo u) (ur_hi u) (ur_dirty u) (Z.of_nat (S k)) p =
    (λ i, ref_node leaves n k (p * 4 + i)) <$> seqZ 0 4.
Proof.
  intros Hk (-> & -> & -> & Hn) Hp. unfold update_children, ARITY. apply list_fmap_ext.
  intros j i Hj. apply lookup_seqZ in Hj as [-> Hj]. rewrite Z.add_0_l.
  set (index := p * 4 + Z.of_nat j). assert (0 ≤ index).
  { pose proof (lo_hi (S k)). lia. }
  destruct ((lo_at k <=? index) && (index <=? hi_at k)) eqn:Ein.
  { res_inv. rewrite list_lookup_fmap, lookup_seqZ_lt by lia. cbn. f_equal. lia. }
  destruct (Z.ltb_spec (hi_at k) index) as [Hhi|Hhi].
  { rewrite ref_node_empty; [done|]. by apply right_of_range. }
  assert (index < lo_at k).
  { apply andb_false_iff in Ein. rewrite !Z.leb_gt in Ein. lia. }
  destruct k as [|k].
  - cbn. rewrite Z.leb_antisym, (proj2 (Z.ltb_lt _ _)); [done|].
    unfold lo_at in *; cbn in *. rewrite Z.div_1_r in *. lia.
  - rewrite (proj2 (Z.eqb_neq _ _)) by lia.
    replace (Z.of_nat (S (S k)) - 1) with (Z.of_nat (S k)) by lia.
    unfold get_node_hash. rewrite Hn, decide_False by (rewrite Nat2Z.id; lia).
    apply Hleft; [lia|]. done.
Qed.

(** The inner loop over parents only writes at its own level. *)
Lemma update_parents_spec u level ps nodes acc :
  let hash p := hash_node (update_children leaves nodes (ur_lo u) (ur_hi u) (ur_dirty u) level p) in
  ∃ nodes', foldl (update_parent leaves (Z.of_nat depth) level u) (nodes, acc) ps =
      (nodes', acc ++ (hash <$> ps)) ∧
    ∀ l i, nodes' !! (l, i) =
      if decide (l = level ∧ level < Z.of_nat depth ∧ i ∈ ps) then Some (hash i) else nodes !! (l, i).
Proof.
  intros hash. induction ps as [|p ps IH] using rev_ind.
  - exists nodes. split; [by rewrite app_nil_r|]. intros l i. rewrite decide_False; [done|]. set_solver.
  - destruct IH as (nodes' & E & Hl). rewrite foldl_app, E. cbn [foldl update_parent].
    assert (hash_node (update_children leaves nodes' (ur_lo u) (ur_hi u) (ur_dirty u) level p) = hash p) as ->.
    { unfold hash. f_equal. unfold update_children. apply list_fmap_ext. intros j i _.
      unfold get_node_hash. rewrite Hl, decide_False by lia. done. }
    eexists. split; [by rewrite fmap_app, app_assoc|]. intros l i.
    destruct (Z.ltb_spec level (Z.of_nat depth)).
    + destruct (decide ((l, i) = (level, p))) as [[= -> ->]|Hne].
      { rewrite lookup_insert_eq, decide_True; [done|]. set_solver. }
      rewrite lookup_insert_ne by congruence. rewrite Hl.
      apply decide_ext. assert (¬ (l = level ∧ i = p)) by naive_solver. set_solver.
    + rewrite Hl, !decide_False by lia. done.
Qed.

Lemma update_level_inv k u :
  (k < depth)%nat → range_inv k u →
  range_inv (S k) (update_level leaves (Z.of_nat depth) u (Z.of_nat (S k))).
Proof.
  intros Hk Hinv. pose proof Hinv as (Elo & Ehi & _ & Hn).
  unfold update_level. rewrite Elo, Ehi, lo_at_S, hi_at_S.
  destruct (update_parents_spec u (Z.of_nat (S k)) (seqZ (lo_at (S k)) (hi_at (S k) - lo_at (S k) + 1))
              (ur_nodes u) []) as (nodes' & -> & Hn').
  assert (Hh : ∀ p, lo_at (S k) ≤ p ≤ hi_at (S k) →
    hash_node (update_children leaves (ur_nodes u) (ur_lo u) (ur_hi u) (ur_dirty u) (Z.of_nat (S k)) p)
      = ref_node leaves n (S k) p).
  { intros p Hp. rewrite children_are_reference by (done || lia).
    rewrite ref_node_node; [done|]. apply within_range. lia. }
  split; [done|]. split; [done|]. split; cbn.
  - apply list_fmap_ext. intros j p Hj. apply lookup_seqZ in Hj as [-> Hj]. apply Hh. lia.
  - intros l i. rewrite Hn'. destruct decide as [(-> & Hd & Hi)|Hni].
    + apply elem_of_seqZ in Hi. rewrite Hh by lia.
      rewrite decide_True by (rewrite Nat2Z.id; lia). by rewrite Nat2Z.id.
    + rewrite Hn. apply decide_ext. rewrite elem_of_seqZ in Hni.
      destruct (Z.eq_dec l (Z.of_nat (S k))) as [->|]; [rewrite Nat2Z.id; lia|lia].
Qed.

Lemma update_range_spec :
  n ≤ 4 ^ Z.of_nat depth →
  ∃ nodes', update_range leaves nodes0 start n (Z.of_nat depth) =
      (nodes', ref_node leaves n depth 0) ∧ nodes_upto depth nodes'.
Proof.
  intros Hcap. unfold update_range.
  set (u0 := {| ur_nodes := nodes0; ur_lo := start; ur_hi := n - 1; ur_dirty := _ |}).
  assert (H0 : range_inv 0 u0).
  { unfold range_inv, u0, lo_at, hi_at; cbn. rewrite !Z.div_1_r. split_and!; [done|done| |].
    - replace (n - 1 - start + 1) with (n - start) by lia. apply list_fmap_ext.
      intros j i Hj. apply lookup_seqZ in Hj as [-> Hj]. symmetry. apply ref_node_leaf. lia.
    - intros l i. rewrite decide_False by lia. done. }
  assert (Hk : ∀ k, (k ≤ depth)%nat →
    range_inv k (foldl (update_level leaves (Z.of_nat depth)) u0 (seqZ 1 (Z.of_nat k)))).
  { induction k as [|k IH]; intros Hk; [done|].
    replace (Z.of_nat (S k)) with (Z.of_nat k + 1) by lia.
    rewrite seqZ_app, foldl_app by lia. change (seqZ (1 + Z.of_nat k) 1) with [1 + Z.of_nat k].
    cbn [foldl]. replace (1 + Z.of_nat k) with (Z.of_nat (S k)) by lia.
    apply update_level_inv; [lia|]. apply IH. lia. }
  destruct (Hk depth) as (_ & _ & Hd & Hn); [lia|].
  assert (lo_at depth = 0 ∧ hi_at depth = 0) as [Hl0 Hh0].
  { unfold lo_at, hi_at. rewrite !Z.div_small by lia. done. }
  eexists. split; [|exact Hn]. f_equal. rewrite Hd, Hl0, Hh0. done.
Qed.
End Range.

(** ** The state invariant *)
Section Invariant.
Context `{PoseidonOps, !PoseidonLaws}.
Implicit Types t : TreeState.

(** Leaves already folded into the root. *)
Definition settled t : Z := LeafCount t - UnprocessedLeaves t.

Record tree_inv t : Prop := {
  ti_pending : 0 ≤ UnprocessedLeaves t ≤ LeafCount t;
  ti_count : LeafCount t ≤ 4 ^ 20;
  ti_depth : 0 ≤ Depth t ≤ 20;
  ti_fits : settled t ≤ capacity_at_depth (Depth t);
  ti_least : 0 < Depth t → capacity_at_depth (Depth t - 1) < settled t;
  ti_root : Root t = ref_node (Leaves t) (settled t) (Z.to_nat (Depth t)) 0;
  ti_nodes : ∀ l i, (1 ≤ l < Z.to_nat (Depth t))%nat → 0 ≤ i →
    get_node_hash (Nodes t) (Z.of_nat l) i = ref_node (Leaves t) (settled t) l i;
  ti_above : ∀ l i, Depth t ≤ l → Nodes t !! (l, i) = None;
  ti_leaves : ∀ j, is_Some (Leaves t !! j) ↔ 0 ≤ j < LeafCount t;
  ti_digests : ∀ j h, Leaves t !! j = Some h → is_digest h ∧ canonical_limbs h = true;
}.

Lemma capacity_exact d : 0 < d ≤ 20 → capacity_at_depth d = 4 ^ d.
Proof.
  intros Hd. unfold capacity_at_depth, ARITY. rewrite (proj2 (Z.eqb_neq _ _)) by lia.
  unfold sat_pow. apply Z.min_l. assert (4 ^ d ≤ 4 ^ 20) by (apply Z.pow_le_mono_r; lia).
  u_unfold. assert (4 ^ 20 < 2 ^ 64 - 1) by done. lia.
Qed.

Lemma capacity_le_pow d : 0 ≤ d ≤ 20 → capacity_at_depth d ≤ 4 ^ d.
Proof.
  intros Hd. destruct (Z.eq_dec d 0) as [->|]; [done|]. rewrite capacity_exact; lia.
Qed.

Lemma capacity_mono d1 d2 : 0 ≤ d1 ≤ d2 → d2 ≤ 20 → capacity_at_depth d1 ≤ capacity_at_depth d2.
Proof.
  intros. destruct (Z.eq_dec d1 0) as [->|].
  - destruct (Z.eq_dec d2 0) as [->|]; [done|]. rewrite (capacity_exact d2) by lia.
    unfold capacity_at_depth. cbn. apply Z.pow_nonneg. lia.
  - rewrite !capacity_exact by lia. apply Z.pow_le_mono_r; lia.
Qed.

Lemma grow_depth_spec fuel d n :
  0 ≤ d ≤ 20 → 20 - d ≤ Z.of_nat fuel → n ≤ 4 ^ 20 →
  let d' := grow_depth fuel d n in
  d ≤ d' ≤ 20 ∧ n ≤ capacity_at_depth d' ∧ (d < d' → capacity_at_depth (d' - 1) < n).
Proof.
  revert d. induction fuel as [|fuel IH]; intros d Hd Hf Hn; cbn [grow_depth].
  - assert (d = 20) as -> by lia. rewrite (capacity_exact 20) by lia. lia.
  - unfold CIRCUIT_MAX_TREE_DEPTH. destruct ((capacity_at_depth d <? n) && (d <? 20)) eqn:E.
    + res_inv. rewrite sat_add_exact by u_lia.
      destruct (IH (d + 1)) as (G1 & G2 & G3); [lia..|]. cbv zeta. split_and!; [lia..|done|].
      intros _. destruct (Z.eq_dec (grow_depth fuel (d + 1) n) (d + 1)) as [->|]; [|apply G3; lia].
      by rewrite Z.add_simpl_r.
    + split_and!; [lia..| |lia]. apply andb_false_iff in E. rewrite !Z.ltb_ge in E.
      destruct E as [?|?]; [done|]. assert (d = 20) as -> by lia. by rewrite capacity_exact.
Qed.

Lemma genesis_inv : tree_inv genesis_tree.
Proof.
  constructor; cbn; try done; try lia.
  all: intros *; rewrite lookup_empty; rewrite ?is_Some_alt; intuition lia || done.
Qed.

Lemma append_inv t h :
  tree_inv t → LeafCount t < 4 ^ 20 → is_digest h → canonical_limbs h = true →
  tree_inv (append_leaf_hash t h).1.
Proof.
  intros [] Hlt Hd Hc. assert (4 ^ 20 < u_max 64) by done.
  unfold append_leaf_hash; cbn [fst]. rewrite !sat_add_exact by lia.
  assert (Href : ∀ l i, ref_node (<[LeafCount t := h]> (Leaves t)) (settled t) l i
                  = ref_node (Leaves t) (settled t) l i).
  { intros. apply ref_node_ext. intros j Hj. unfold settled in Hj.
    rewrite lookup_insert_ne; [done|lia]. }
  constructor; unfold settled in *; cbn; try lia;
    replace (LeafCount t + 1 - (UnprocessedLeaves t + 1)) with (LeafCount t - UnprocessedLeaves t) by lia;
    auto.
  - by rewrite Href.
  - intros l i Hl Hi. rewrite Href. auto.
  - intros j. rewrite lookup_insert_is_Some, ti_leaves0. lia.
  - intros j h'. rewrite lookup_insert_Some. intros [[_ <-]|[_ ?]]; eauto.
Qed.

(** The stored nodes as [update_range] finds them. *)
Definition grown_nodes t (d : Z) : gmap (Z * Z) Hash256 :=
  if Depth t <? d then grow_tree (Depth t) (Root t) (Nodes t) else Nodes t.

Lemma grown_nodes_lookup t d l i :
  0 ≤ Depth t →
  grown_nodes t d !! (l, i) =
    if decide (0 < Depth t < d ∧ l = Depth t ∧ i = 0) then Some (Root t) else Nodes t !! (l, i).
Proof.
  intros Hd. unfold grown_nodes, grow_tree. destruct (Z.ltb_spec (Depth t) d).
  2: { rewrite decide_False by lia. done. }
  destruct (Z.eqb_spec (Depth t) 0).
  { destruct decide; [lia|done]. }
  destruct decide as [(_ & -> & ->)|Hni]; [by rewrite lookup_insert_eq|].
  rewrite lookup_insert_ne; [done|]. intros [= <- <-]. apply Hni. lia.
Qed.

Lemma grown_left t d k i :
  tree_inv t → (1 ≤ k < d)%nat → 0 ≤ i < settled t / 4 ^ Z.of_nat k →
  get_node_hash (grown_nodes t (Z.of_nat d)) (Z.of_nat k) i = ref_node (Leaves t) (LeafCount t) k i.
Proof.
  intros [] Hk Hi. pose proof (pow4_pos k) as Hpow.
  assert (Hfull : (i + 1) * 4 ^ Z.of_nat k ≤ settled t).
  { pose proof (Z.mul_div_le (settled t) (4 ^ Z.of_nat k) Hpow). nia. }
  assert (settled t ≤ LeafCount t) by (unfold settled; lia).
  rewrite <- (ref_node_full (Leaves t) (Leaves t) (settled t)) by (done || lia).
  unfold get_node_hash. rewrite grown_nodes_lookup by lia.
  destruct (Z.lt_trichotomy (Z.of_nat k) (Depth t)) as [Hlt|[Heq|Hgt]].
  - rewrite decide_False by lia. apply ti_nodes0; lia.
  - pose proof (capacity_le_pow (Depth t)). rewrite <- Heq in *.
    assert (i = 0) as -> by nia. rewrite decide_True by lia. cbn.
    rewrite ti_root0. f_equal. lia.
  - pose proof (capacity_le_pow (Depth t)).
    assert (4 ^ Depth t < 4 ^ Z.of_nat k) by (apply Z.pow_lt_mono_r; lia). nia.
Qed.

Lemma grown_right t d l i :
  tree_inv t → 1 ≤ l → 0 < LeafCount t → 0 ≤ i → LeafCount t ≤ i * 4 ^ l →
  get_node_hash (grown_nodes t d) l i = empty_hash.
Proof.
  intros [] Hl Hn Hi Hr. assert (i ≠ 0) by nia.
  unfold get_node_hash. rewrite grown_nodes_lookup, decide_False by lia.
  destruct (Z.lt_ge_cases l (Depth t)); [|by rewrite ti_above0].
  pose proof (ti_nodes0 (Z.to_nat l) i) as Hg. rewrite Z2Nat.id in Hg by lia.
  unfold get_node_hash in Hg. rewrite Hg by lia. apply ref_node_empty.
  rewrite Z2Nat.id by lia. unfold settled. lia.
Qed.

Lemma process_inv t : tree_inv t → tree_inv (process_pending_leaves t).
Proof.
  intros Ht. unfold process_pending_leaves.
  destruct (Z.eqb_spec (UnprocessedLeaves t) 0) as [|Hp]; [done|].
  destruct (grow_depth_spec GROW_FUEL (Depth t) (LeafCount t)) as (Hd1 & Hd2 & Hd3);
    [apply Ht|destruct Ht; unfold GROW_FUEL; lia|apply Ht|].
  cbv zeta in *. set (d := grow_depth GROW_FUEL (Depth t) (LeafCount t)) in *. clearbody d.
  pose proof Ht as [Hpend Hcount Hdepth Hfits Hleast Hroot Hnodes Habove Hleaves Hdig].
  rewrite sat_sub_exact by lia. fold (settled t) (grown_nodes t d).
  set (dn := Z.to_nat d). assert (Hdn : d = Z.of_nat dn) by (unfold dn; lia).
  assert (Hlt : settled t < LeafCount t) by (unfold settled; lia).
  assert (Hdpos : 0 < d).
  { destruct (Z.eq_dec d 0) as [->|]; [|lia]. change (capacity_at_depth 0) with 0 in Hd2.
    unfold settled in Hlt. lia. }
  rewrite Hdn. destruct (update_range_spec (Leaves t) (grown_nodes t (Z.of_nat dn)) (settled t)
    (LeafCount t) dn) as (nodes' & -> & Hn').
  { unfold settled in *. lia. }
  { intros. by apply grown_left. }
  { etrans; [exact Hd2|]. rewrite Hdn. apply capacity_le_pow. lia. }
  assert (Hd' : (if Depth t <? Z.of_nat dn then Z.of_nat dn else Depth t) = d).
  { destruct (Z.ltb_spec (Depth t) (Z.of_nat dn)); lia. }
  match goal with |- tree_inv ?t' => assert (Hs : settled t' = LeafCount t) by apply Z.sub_0_r end.
  constructor; rewrite ?Hs; cbn [UnprocessedLeaves LeafCount Depth Root Nodes Leaves]; rewrite ?Hd';
    try done; try lia.
  - intros _. destruct (Z.lt_ge_cases (Depth t) d); [auto|].
    assert (Depth t = d) as <- by lia. specialize (Hleast Hdpos). lia.
  - intros l i Hl Hi. unfold get_node_hash. rewrite Hn', Nat2Z.id.
    destruct decide as [|Hout]; [done|].
    destruct (Z.lt_ge_cases i (lo_at (settled t) l)) as [Hlo|Hlo]; [apply grown_left; [done|lia|done]|].
    assert (Hr : LeafCount t ≤ i * 4 ^ Z.of_nat l) by (apply right_of_range; lia).
    rewrite ref_node_empty by done. apply grown_right; [done|lia..|done].
  - intros l i Hl. rewrite Hn', decide_False, grown_nodes_lookup, decide_False by lia. apply Habove. lia.
Qed.

Lemma finalize_inv t : tree_inv t → tree_inv (tree_on_finalize t).
Proof. intros Ht. by destruct (process_inv t Ht); constructor. Qed.

Lemma process_settles t :
  UnprocessedLeaves (process_pending_leaves t) = 0 ∧
  LeafCount (process_pending_leaves t) = LeafCount t ∧
  Leaves (process_pending_leaves t) = Leaves t.
Proof.
  unfold process_pending_leaves. destruct (Z.eqb_spec (UnprocessedLeaves t) 0); [done|].
  by case_match.
Qed.

Lemma insert_commitment_inv t cm t' i :
  tree_inv t → is_digest cm → tree_insert_commitment t cm = Ok (t', i) →
  tree_inv t' ∧ (t', i) = append_leaf_hash t cm ∧ LeafCount t < 4 ^ 20.
Proof.
  intros Ht Hd E. unfold tree_insert_commitment in E. res_inv.
  match goal with H : 0 < tree_remaining_capacity t |- _ => rename H into Hcap end.
  unfold tree_remaining_capacity, CIRCUIT_MAX_TREE_DEPTH in Hcap.
  rewrite (capacity_exact 20) in Hcap by lia. unfold sat_sub in Hcap.
  subst t' i. assert (LeafCount t < 4 ^ 20) by lia. split_and!; [|done..]. by apply (append_inv t cm).
Qed.
End Invariant.

(** ** Histories

    What can happen to the tree: an append through either trait and the end of
    a block. [insert_commitment] refuses a full tree; [record_transfer] does
    not, so a history is only followed up to the circuit's capacity, past which
    the stored root no longer covers every leaf. *)
Inductive tree_step `{PoseidonOps} (t : TreeState) : TreeState → Prop :=
| step_insert_commitment cm t' i :
    is_digest cm → tree_insert_commitment t cm = Ok (t', i) → tree_step t t'
| step_record_transfer to transfer_count asset_id amount :
    tree_step t (record_transfer t to transfer_count asset_id amount).1
| step_on_finalize : tree_step t (tree_on_finalize t).
Definition tree_fits (t : TreeState) : Prop := LeafCount t ≤ capacity_at_depth CIRCUIT_MAX_TREE_DEPTH.
Definition tree_reach `{PoseidonOps} (t t' : TreeState) : Prop := rtc tree_step t t' ∧ tree_fits t'.

Section Histories.
Context `{PoseidonOps, !PoseidonLaws}.
Implicit Types t : TreeState.

Lemma tree_fits_alt t : tree_fits t ↔ LeafCount t ≤ 4 ^ 20.
Proof. unfold tree_fits, CIRCUIT_MAX_TREE_DEPTH. by rewrite (capacity_exact 20) by lia. Qed.

(** A tree that fits came from one that did. *)
Lemma append_fits t h : tree_fits (append_leaf_hash t h).1 → LeafCount t < 4 ^ 20.
Proof. rewrite tree_fits_alt. cbn. unfold sat_add, u_max. lia. Qed.
Lemma step_fits t t' : tree_step t t' → tree_fits t' → tree_fits t.
Proof.
  intros [cm t1 i _ E|to n a v|]; [|intros Hf%append_fits; apply tree_fits_alt; lia|].
  - unfold tree_insert_commitment in E. res_inv. subst. intros Hf%append_fits. apply tree_fits_alt. lia.
  - unfold tree_fits. cbn. by destruct (process_settles t) as (_ & -> & _).
Qed.
Lemma tree_step_inv t t' : tree_inv t → tree_step t t' → tree_fits t' → tree_inv t'.
Proof.
  intros Ht [cm t1 i Hd E|to n a v|] Hf; [by eapply insert_commitment_inv| |by apply finalize_inv].
  apply append_inv; [done|by eapply append_fits|apply hash_to_bytes_digest|apply hash_to_bytes_canonical].
Qed.

Lemma reachable_inv t : tree_reach genesis_tree t → tree_inv t.
Proof.
  intros [Hr Hf]. revert t Hr Hf. apply (rtc_ind_r (λ t, tree_fits t → tree_inv t)); [intros _; apply genesis_inv|].
  intros t1 t2 _ Hs IH Hf. eapply tree_step_inv; [|done|done]. by apply IH; eapply step_fits.
Qed.
Lemma tree_reach_trans t1 t2 t3 : rtc tree_step t1 t2 → tree_reach t2 t3 → tree_reach t1 t3.
Proof. intros Hr [Hr' Hf]. split; [by etrans|done]. Qed.

(** The stored depth is a function of the number of settled leaves. *)
Lemma depth_determined t1 t2 :
  tree_inv t1 → tree_inv t2 → settled t1 = settled t2 → Depth t1 = Depth t2.
Proof.
  intros [] [] E.
  destruct (Z.lt_trichotomy (Depth t1) (Depth t2)) as [Hlt|[|Hlt]]; [|done|].
  - pose proof (capacity_mono (Depth t1) (Depth t2 - 1)). lia.
  - pose proof (capacity_mono (Depth t2) (Depth t1 - 1)). lia.
Qed.
End Histories.

(** ** Membership proofs *)
Section Membership.
Context `{PoseidonOps, !PoseidonLaws}.
Implicit Types t : TreeState.

(** A child of the stored tree, at the level below [S l]. *)
Definition stored_child t (l : nat) (j : Z) : Hash256 :=
  if Z.of_nat (S l) =? 1 then get_leaf_hash (Leaves t) j else get_node_hash (Nodes t) (Z.of_nat (S l) - 1) j.

(** Every stored child of the settled tree is the reference's; level zero is
    only right below the pending leaves, so settled trees are asked for. *)
Lemma stored_child_ref t l j :
  tree_inv t → UnprocessedLeaves t = 0 → (l < Z.to_nat (Depth t))%nat → 0 ≤ j →
  stored_child t l j = ref_node (Leaves t) (LeafCount t) l j.
Proof.
  intros [] Hu Hl Hj. unfold stored_child. destruct l as [|l].
  - cbn [Z.of_nat Z.eqb Pos.of_succ_nat Pos.eqb].
    destruct (Z.le_gt_cases (LeafCount t) j) as [Hge|Hlt]; [|by rewrite ref_node_leaf].
    rewrite ref_node_empty by (change (4 ^ Z.of_nat 0) with 1; lia).
    unfold get_leaf_hash. destruct (Leaves t !! j) eqn:E; [|done].
    pose proof (proj1 (ti_leaves0 j)). rewrite E in *. rewrite is_Some_alt in *. lia.
  - rewrite (proj2 (Z.eqb_neq _ _)) by lia.
    replace (Z.of_nat (S (S l)) - 1) with (Z.of_nat (S l)) by lia.
    rewrite ti_nodes0 by lia. unfold settled. by rewrite Hu, Z.sub_0_r.
Qed.

(** The three siblings and the node itself are the parent's children. *)
Lemma siblings_perm (g : Z → Hash256) i :
  let '(s0, s1, s2) := as_triple (g <$> filter (λ c, c ≠ i) ((λ k, i / ARITY * ARITY + k) <$> seqZ 0 ARITY)) in
  [g i; s0; s1; s2] ≡ₚ (λ k, g (i / 4 * 4 + k)) <$> seqZ 0 4.
Proof.
  unfold ARITY. change (seqZ 0 4) with [0; 1; 2; 3]. cbn [fmap list_fmap].
  pose proof (Z.mod_pos_bound i 4). pose proof (Z.div_mod i 4).
  set (b := i / 4 * 4). assert (i = b ∨ i = b + 1 ∨ i = b + 2 ∨ i = b + 3) as Hi by lia.
  rewrite Z.add_0_r. clearbody b. clear -Hi.
  destruct Hi as [->|[->|[->| ->]]]; rewrite !filter_cons, filter_nil;
    repeat (case_decide; [try lia|try lia]); cbn.
  - done.
  - apply (Permutation_middle [g b] [g (b + 2); g (b + 3)]).
  - apply (Permutation_middle [g b; g (b + 1)] [g (b + 3)]).
  - apply (Permutation_middle [g b; g (b + 1); g (b + 2)] []).
Qed.

Lemma fold_proof_levels t k l i :
  tree_inv t → UnprocessedLeaves t = 0 → (l + k = Z.to_nat (Depth t))%nat →
  0 ≤ i → i * 4 ^ Z.of_nat l < LeafCount t →
  fold_siblings (ref_node (Leaves t) (LeafCount t) l i)
    (proof_levels (Leaves t) (Nodes t) (seqZ (Z.of_nat (S l)) (Z.of_nat k)) i) =
  ref_node (Leaves t) (LeafCount t) (l + k) (i / 4 ^ Z.of_nat k).
Proof.
  intros Ht Hu. revert l i. induction k as [|k IH]; intros l i Hlk Hi Hn.
  { rewrite Z.div_1_r, Nat.add_0_r. done. }
  replace (Z.of_nat (S k)) with (1 + Z.of_nat k) by lia.
  rewrite seqZ_app by lia. change (seqZ (Z.of_nat (S l)) 1) with [Z.of_nat (S l)].
  cbn [app proof_levels fold_siblings foldl].
  replace (Z.of_nat (S l) + 1) with (Z.of_nat (S (S l))) by lia.
  pose proof (siblings_perm (stored_child t l) i) as Hp. unfold level_siblings.
  change (λ c, if Z.of_nat (S l) =? 1 then get_leaf_hash (Leaves t) c
               else get_node_hash (Nodes t) (Z.of_nat (S l) - 1) c) with (stored_child t l).
  destruct (as_triple _) as [[s0 s1] s2].
  rewrite (stored_child_ref t l i) in Hp by (done || lia).
  rewrite (hash_node_perm _ _ Hp).
  assert (Hdiv : i / 4 * 4 ^ Z.of_nat (S l) < LeafCount t).
  { pose proof (pow4_pos l). rewrite pow4_S. pose proof (Z.mul_div_le i 4). nia. }
  assert (0 ≤ i / 4) by (apply Z.div_pos; lia).
  assert (hash_node ((λ k, stored_child t l (i / 4 * 4 + k)) <$> seqZ 0 4)
          = ref_node (Leaves t) (LeafCount t) (S l) (i / 4)) as ->.
  { rewrite ref_node_node by done. f_equal. apply list_fmap_ext. intros j m Hm.
    apply lookup_seqZ in Hm as [-> Hm]. apply stored_child_ref; [done|done|lia..]. }
  unfold fold_siblings in IH. unfold ARITY. rewrite IH by (done || lia).
  replace (S l + k)%nat with (l + S k)%nat by lia. f_equal.
  rewrite Z.div_div by (pose proof (pow4_pos k); lia).
  f_equal. rewrite Z.pow_add_r by lia. lia.
Qed.
End Membership.

(** ** Binding *)
(** What the nodes up a path and the nodes of the reference tree over [n]
    leaves, up to level [d], hash. *)
Section Preimages.
Context `{PoseidonOps}.
Definition node_pre (cs : list Hash256) : list felt := bytes_to_felts_compact_lossy (concat (merge_sort lex cs)).
Fixpoint path_pres (h : Hash256) (sibs : list (Hash256 * Hash256 * Hash256)) : list (list felt) :=
  match sibs with
  | [] => []
  | (s0, s1, s2) :: rest => node_pre [h; s0; s1; s2] :: path_pres (hash_node [h; s0; s1; s2]) rest
  end.
Definition children (leaves : gmap Z Hash256) (n : Z) (l : nat) (i : Z) : list Hash256 :=
  (λ k, ref_node leaves n l (i * 4 + k)) <$> seqZ 0 4.
Definition tree_pres (leaves : gmap Z Hash256) (n : Z) (d : nat) : list (list felt) :=
  concat ((λ l, (λ i, node_pre (children leaves n l i)) <$> filter (λ i, i * 4 ^ Z.of_nat (S l) < n) (seqZ 0 n)) <$> seq 0 d).

Lemma path_pres_snoc sibs s0 s1 s2 : ∀ h,
  path_pres h (sibs ++ [(s0, s1, s2)]) = path_pres h sibs ++ [node_pre [fold_siblings h sibs; s0; s1; s2]].
Proof. induction sibs as [|[[a b] c] sibs IH]; intros h; [done|]. cbn [app path_pres]. by rewrite IH. Qed.
Lemma elem_of_tree_pres leaves n d l i : (l < d)%nat → 0 ≤ i → i * 4 ^ Z.of_nat (S l) < n →
  node_pre (children leaves n l i) ∈ tree_pres leaves n d.
Proof.
  intros Hl Hi Hn. unfold tree_pres. rewrite list_elem_of_In, in_concat. eexists. split; [rewrite <- list_elem_of_In; apply list_elem_of_fmap; exists l; split; [done|apply elem_of_seq; lia]|].
  rewrite <- list_elem_of_In. apply list_elem_of_fmap. exists i. split; [done|]. apply list_elem_of_filter. split; [done|]. apply elem_of_seqZ.
  assert (0 < 4 ^ Z.of_nat (S l)) by (apply Z.pow_pos_nonneg; lia). nia.
Qed.
Lemma tree_pres_mono leaves n d d' : (d ≤ d')%nat → tree_pres leaves n d ⊆ tree_pres leaves n d'.
Proof.
  intros Hd x. unfold tree_pres. rewrite !list_elem_of_In, !in_concat. intros (l & Hl & Hx). exists l. split; [|done].
  rewrite <- list_elem_of_In in Hl |- *. apply list_elem_of_fmap in Hl as (k & -> & Hk%elem_of_seq). apply list_elem_of_fmap. exists k. split; [done|].
  apply elem_of_seq. lia.
Qed.
End Preimages.

Section Binding.
Context `{PoseidonOps, !PoseidonLaws}.
Implicit Types (t : TreeState) (h : Hash256).

Lemma good_zero : good_hash zero_hash.
Proof. split; [apply is_digest_zero|done]. Qed.

Lemma good_hash_node cs : good_hash (hash_node cs).
Proof. split; [apply hash_to_bytes_digest|apply hash_to_bytes_canonical]. Qed.

Lemma limbs_range h : is_digest h → Forall (λ l, 0 ≤ l < 256 ^ Z.of_nat 8) (limbs h).
Proof.
  intros [_ Hb]. unfold limbs.
  assert (Hr : ∀ l, Forall is_byte l → 0 ≤ le_val (take 8 l) < 256 ^ Z.of_nat 8).
  { intros l Hl. pose proof (le_val_bound _ (Forall_take _ 8 l Hl)) as [? Hlt]. split; [done|].
    eapply Z.lt_le_trans; [done|]. apply Z.pow_le_mono_r; [lia|]. rewrite length_take. lia. }
  repeat constructor; apply Hr; auto using Forall_drop.
Qed.

Lemma compact_limbs ls rest :
  Forall (λ l, 0 ≤ l < 256 ^ Z.of_nat 8) ls →
  bytes_to_u64s_compact (digest_of_limbs ls ++ rest) = ls ++ bytes_to_u64s_compact rest.
Proof.
  induction 1 as [|l ls Hl _ IH]; [done|].
  unfold digest_of_limbs in *. rewrite fmap_cons, concat_cons, <- app_assoc.
  rewrite bytes_to_u64s_compact_limb; [|apply length_le_bytes|apply le_bytes_are_bytes].
  by rewrite le_val_le_bytes, IH.
Qed.

Lemma digest_felts h rest :
  is_digest h →
  bytes_to_felts_compact_lossy (h ++ rest) = (from_u64 <$> limbs h) ++ bytes_to_felts_compact_lossy rest.
Proof.
  intros Hd. unfold bytes_to_felts_compact_lossy. rewrite <- fmap_app. f_equal.
  rewrite <- (digest_of_limbs_limbs h Hd) at 1. apply compact_limbs, limbs_range, Hd.
Qed.

Lemma limb_felts_inj h1 h2 :
  good_hash h1 → good_hash h2 → (from_u64 <$> limbs h1) = (from_u64 <$> limbs h2) → h1 = h2.
Proof.
  intros [Hd1 Hc1] [Hd2 Hc2] E. apply limbs_inj; [done..|].
  assert (Hr : ∀ h, good_hash h → Forall (λ l, 0 ≤ l < GOLDILOCKS_P) (limbs h)).
  { intros h [Hd Hc]. apply Forall_forall. intros x Hx.
    unfold canonical_limbs in Hc. rewrite forallb_forall in Hc.
    specialize (Hc x (proj1 (list_elem_of_In _ _) Hx)). apply Z.ltb_lt in Hc. split; [|done].
    by apply (proj1 (Forall_forall _ _) (limbs_range h Hd) x Hx). }
  pose proof (Hr h1 (conj Hd1 Hc1)) as R1. pose proof (Hr h2 (conj Hd2 Hc2)) as R2. revert R1 R2 E.
  generalize (limbs h1), (limbs h2). clear -H0. intros l1.
  induction l1 as [|x l1 IH]; intros [|y l2] R1 R2 E; try done.
  cbn in E. injection E as Ex E. inversion R1; inversion R2; subst.
  f_equal; [by apply from_u64_inj|by apply IH].
Qed.

Lemma concat_felts_inj cs1 cs2 :
  Forall good_hash cs1 → Forall good_hash cs2 → length cs1 = length cs2 →
  bytes_to_felts_compact_lossy (concat cs1) = bytes_to_felts_compact_lossy (concat cs2) → cs1 = cs2.
Proof.
  intros HF1. revert cs2. induction HF1 as [|h1 cs1 Hh1 _ IH]; intros [|h2 cs2] HF2 Hlen E; try done.
  inversion HF2 as [|? ? Hh2 HF2']; subst. cbn [concat] in E.
  rewrite !digest_felts in E by apply Hh1 || apply Hh2.
  apply app_inj_1 in E as [E1 E2]; [|by rewrite !length_fmap].
  f_equal; [by apply limb_felts_inj|]. apply IH; [done| |done]. cbn in Hlen. lia.
Qed.

Lemma hash_node_inj cs1 cs2 :
  Forall good_hash cs1 → Forall good_hash cs2 → length cs1 = length cs2 →
  hash_node cs1 = hash_node cs2 → collides [node_pre cs1; node_pre cs2] ∨ cs1 ≡ₚ cs2.
Proof.
  intros HF1 HF2 Hlen E. apply sponge_eq in E as [?|Ex]; [by left|right].
  apply concat_felts_inj in Ex.
  - by rewrite <- (merge_sort_Permutation lex cs1), Ex, merge_sort_Permutation.
  - by rewrite merge_sort_Permutation.
  - by rewrite merge_sort_Permutation.
  - by rewrite !merge_sort_Permutation.
Qed.

Lemma good_ref_node t n l i : tree_inv t → good_hash (ref_node (Leaves t) n l i).
Proof.
  intros []. destruct l; cbn [ref_node]; (case_match; [apply good_zero|]).
  - unfold get_leaf_hash. destruct (Leaves t !! i) eqn:E; [by eapply ti_digests0|apply good_zero].
  - apply good_hash_node.
Qed.

Definition good_siblings (sibs : list (Hash256 * Hash256 * Hash256)) : Prop :=
  Forall (λ '(s0, s1, s2), good_hash s0 ∧ good_hash s1 ∧ good_hash s2) sibs.

Lemma good_fold h sibs : good_hash h → good_hash (fold_siblings h sibs).
Proof.
  intros Hh. induction sibs as [|[[s0 s1] s2] sibs IH] using rev_ind; [done|].
  unfold fold_siblings. rewrite foldl_app. apply good_hash_node.
Qed.

(** Walking a path from the root down to the leaf it ends in. *)
Lemma path_leads_to_leaf t n h sibs i :
  tree_inv t → good_hash h → h ≠ empty_hash → good_siblings sibs → 0 ≤ i →
  fold_siblings h sibs = ref_node (Leaves t) n (length sibs) i →
  broken_on (path_pres h sibs ++ tree_pres (Leaves t) n (length sibs)) ∨ ∃ j, j < n ∧ Leaves t !! j = Some h.
Proof.
  intros Ht Hh Hne. revert i. induction sibs as [|[[s0 s1] s2] sibs IH] using rev_ind; intros i Hs Hi E.
  - cbn in E. case_match; [done|]. res_inv. right. exists i. split; [lia|].
    unfold get_leaf_hash in E. destruct (Leaves t !! i); [by rewrite E|done].
  - apply Forall_app in Hs as [Hs Hlast]. apply Forall_singleton in Hlast as (G0 & G1 & G2).
    unfold fold_siblings in E. rewrite foldl_app in E. cbn in E. fold (fold_siblings h sibs) in E.
    rewrite length_app, Nat.add_1_r in E |- *. rewrite path_pres_snoc.
    destruct (Z.le_gt_cases n (i * 4 ^ Z.of_nat (S (length sibs)))).
    { rewrite ref_node_empty in E by done. left. right. eexists. split; [|exact E]. set_solver. }
    rewrite ref_node_node in E by done.
    apply hash_node_inj in E as [?|Hp].
    + left. left. eapply collides_mono; [|done]. pose proof (elem_of_tree_pres (Leaves t) n (S (length sibs)) (length sibs) i ltac:(lia) Hi) as Hin.
      unfold children in Hin. set_solver.
    + assert (Hin : fold_siblings h sibs ∈ (λ k, ref_node (Leaves t) n (length sibs) (i * 4 + k)) <$> seqZ 0 4).
      { rewrite <- Hp. set_solver. }
      apply list_elem_of_fmap in Hin as (k & Ek & Hk%elem_of_seqZ). destruct (IH (i * 4 + k) Hs ltac:(lia) Ek) as [?|?]; [left|by right].
      eapply broken_on_mono; [|done]. pose proof (tree_pres_mono (Leaves t) n (length sibs) (S (length sibs)) ltac:(lia)). set_solver.
    + rewrite !Forall_cons. auto using good_fold.
    + apply Forall_fmap, Forall_true. intros. by apply good_ref_node.
    + done.
Qed.
End Binding.

(** ** The pallet's promises *)
Section Theorems.
Context `{PoseidonOps, !PoseidonLaws}.
Implicit Types t : TreeState.

(** C9: at every point of every history of commitment inserts, transfer
    records and block ends in which the tree has not outgrown the circuit's
    capacity (4^20 leaves), the stored root is the root of the reference tree
    over exactly the leaves settled so far, at the least depth that fits them
    and never deeper than the circuit proves; and once a block is finalised the
    header publishes the root over all leaves. So the batched, incremental fold
    and the growth of the tree compute what the recursive definition says.
    Inserting a commitment never leaves those histories; recording a transfer,
    which has no capacity check, can. *)
Theorem batched_root_is_reference t :
  tree_reach genesis_tree t →
  Root t = ref_node (Leaves t) (settled t) (Z.to_nat (Depth t)) 0 ∧
  Depth t ≤ CIRCUIT_MAX_TREE_DEPTH ∧
  settled t ≤ capacity_at_depth (Depth t) ∧
  (0 < Depth t → capacity_at_depth (Depth t - 1) < settled t) ∧
  let t' := tree_on_finalize t in
  zk_tree_root t' = ref_node (Leaves t) (LeafCount t) (Z.to_nat (Depth t')) 0 ∧
  ∀ cm t1 i, is_digest cm → tree_insert_commitment t cm = Ok (t1, i) → tree_reach genesis_tree t1.
Proof.
  intros Hr. pose proof (reachable_inv t Hr) as Ht. pose proof (process_inv t Ht) as Ht'.
  destruct (process_settles t) as (Hu & Hc & Hl).
  split_and!; try apply Ht. cbn zeta. split; last first.
  { intros cm t1 i Hd E. destruct (insert_commitment_inv t cm t1 i Ht Hd E) as (_ & [= -> ->] & Hlt).
    split; [eapply rtc_r; [apply Hr|by econstructor]|]. apply tree_fits_alt. cbn. unfold sat_add. lia. }
  cbn. rewrite (ti_root _ Ht'). unfold settled. by rewrite Hu, Hc, Hl, Z.sub_0_r.
Qed.

(** The root depends on the sequence of leaves only. Two histories that
    appended the same leaves, in whatever blocks and with whatever growth
    steps, end in the same root and depth once settled. *)
Theorem root_independent_of_blocks t1 t2 :
  tree_reach genesis_tree t1 → tree_reach genesis_tree t2 →
  UnprocessedLeaves t1 = 0 → UnprocessedLeaves t2 = 0 →
  Leaves t1 = Leaves t2 → LeafCount t1 = LeafCount t2 →
  Root t1 = Root t2 ∧ Depth t1 = Depth t2.
Proof.
  intros R1 R2 U1 U2 El Ec. apply reachable_inv in R1, R2.
  assert (Es : settled t1 = settled t2) by (unfold settled; lia).
  pose proof (depth_determined t1 t2 R1 R2 Es) as Ed. split; [|done].
  by rewrite (ti_root _ R1), (ti_root _ R2), El, Es, Ed.
Qed.

Lemma settled_leaf_proves t i :
  tree_reach genesis_tree t → UnprocessedLeaves t = 0 → 0 ≤ i < LeafCount t →
  ∃ p h, get_merkle_proof t i = Ok p ∧ Leaves t !! i = Some h ∧
    pallet_verify_proof t h p = true ∧
    Z.of_nat (length (mp_siblings p)) = Depth t ∧ Depth t ≤ CIRCUIT_MAX_TREE_DEPTH.
Proof.
  intros Hr Hu Hi. pose proof (reachable_inv t Hr) as Ht. pose proof Ht as [].
  assert (Hs : settled t = LeafCount t) by (unfold settled; lia).
  assert (Hd : 0 < Depth t).
  { destruct (Z.eq_dec (Depth t) 0) as [E|]; [|lia]. rewrite E in ti_fits0.
    change (capacity_at_depth 0) with 0 in ti_fits0. lia. }
  destruct (proj2 (ti_leaves0 i) Hi) as [h Hh].
  exists {| mp_leaf_index := i; mp_siblings := proof_levels (Leaves t) (Nodes t) (seqZ 1 (Depth t)) i |}, h.
  split_and!; [|done| | |apply ti_depth0].
  - unfold get_merkle_proof. rewrite Hu, sat_sub_exact, Z.sub_0_r by lia.
    rewrite (proj2 (Z.ltb_lt _ _)) by lia. cbn. unfold generate_proof.
    by rewrite (proj2 (Z.eqb_neq _ _)) by lia.
  - unfold pallet_verify_proof, verify_proof. apply bool_decide_eq_true. cbn [mp_siblings].
    pose proof (fold_proof_levels t (Z.to_nat (Depth t)) 0 i Ht Hu) as Hf.
    rewrite ref_node_leaf, Z2Nat.id in Hf by lia. change (Z.of_nat 1) with 1 in Hf.
    unfold get_leaf_hash in Hf. rewrite Hh in Hf. cbn [default id] in Hf.
    unfold id in Hf. rewrite Hf by (change (4 ^ Z.of_nat 0) with 1; lia).
    rewrite ti_root0, Hs. f_equal. apply Z.div_small.
    pose proof (capacity_le_pow (Depth t)). lia.
  - cbn [mp_siblings].
    assert (Hlen : ∀ ls j, length (proof_levels (Leaves t) (Nodes t) ls j) = length ls).
    { induction ls; intros; cbn; auto. }
    rewrite Hlen, length_seqZ. lia.
Qed.

(** Every leaf of a settled tree is provable: [get_merkle_proof]
    returns a proof, no longer than the circuit's depth, and it verifies
    against the stored root for that leaf. *)
Theorem merkle_proof_complete t i :
  tree_reach genesis_tree t → UnprocessedLeaves t = 0 → 0 ≤ i < LeafCount t →
  ∃ p h, get_merkle_proof t i = Ok p ∧ Leaves t !! i = Some h ∧
    pallet_verify_proof t h p = true ∧
    Z.of_nat (length (mp_siblings p)) = Depth t ∧ Depth t ≤ CIRCUIT_MAX_TREE_DEPTH.
Proof. apply settled_leaf_proves. Qed.

(** Nothing else is provable. A proof as deep as the tree that
    verifies for a canonical, non-zero hash shows that hash to be a settled
    leaf, unless two of the inputs hashed up the path and in the tree collide
    or one of them is a preimage of zero. *)
Theorem merkle_proof_sound t h p :
  tree_reach genesis_tree t →
  good_hash h → h ≠ empty_hash → good_siblings (mp_siblings p) →
  Z.of_nat (length (mp_siblings p)) = Depth t →
  pallet_verify_proof t h p = true →
  broken_on (path_pres h (mp_siblings p) ++ tree_pres (Leaves t) (settled t) (length (mp_siblings p))) ∨
  ∃ j, 0 ≤ j < settled t ∧ Leaves t !! j = Some h.
Proof.
  intros Hr Hh Hne Hs Hlen Hv. pose proof (reachable_inv t Hr) as Ht.
  unfold pallet_verify_proof, verify_proof in Hv. apply bool_decide_eq_true in Hv.
  rewrite (ti_root _ Ht), <- Hlen, Nat2Z.id in Hv.
  destruct (path_leads_to_leaf t (settled t) h (mp_siblings p) 0 Ht Hh Hne Hs ltac:(done) Hv)
    as [?|(j & Hj & Hl)]; [by left|right].
  exists j. split; [|done]. split; [|done]. apply (ti_leaves _ Ht j). by eexists.
Qed.

Lemma canonicalize_limbs bytes :
  is_digest bytes →
  limbs (canonicalize_account_bytes bytes) =
    ((λ value, if GOLDILOCKS_P <=? value then value - GOLDILOCKS_P else value) <$> limbs bytes) ∧
  canonical_limbs (canonicalize_account_bytes bytes) = true.
Proof.
  intros Hd. apply digest_of_limbs_canonical; [done|].
  apply Forall_fmap, Forall_forall. intros v Hin.
  pose proof (proj1 (Forall_forall _ _) (limbs_range bytes Hd) v Hin) as Hv. cbn in Hv |- *.
  change (256 ^ Z.of_nat 8) with 18446744073709551616 in Hv. unfold GOLDILOCKS_P.
  destruct (Z.leb_spec 0xFFFFFFFF00000001 v); lia.
Qed.

Lemma canonicalize_id bytes :
  is_digest bytes → canonical_limbs bytes = true → canonicalize_account_bytes bytes = bytes.
Proof.
  intros Hd Hc. unfold canonicalize_account_bytes.
  rewrite <- (digest_of_limbs_limbs bytes Hd) at 2. f_equal.
  unfold canonical_limbs in Hc. rewrite forallb_forall in Hc.
  rewrite <- (list_fmap_id (limbs bytes)) at 2. apply list_fmap_ext. intros k v Hv.
  specialize (Hc v (proj1 (list_elem_of_In _ _) (list_elem_of_lookup_2 _ _ _ Hv))).
  res_inv. cbn. by rewrite (proj2 (Z.leb_gt _ _)).
Qed.

(** Canonicalising an account makes it canonical, leaves canonical
    accounts alone (so it is idempotent), and never changes the field
    elements the account stands for. *)
Theorem canonicalize_account_spec bytes :
  is_digest bytes →
  canonical_limbs (canonicalize_account_bytes bytes) = true ∧
  (canonical_limbs bytes = true → canonicalize_account_bytes bytes = bytes) ∧
  canonicalize_account_bytes (canonicalize_account_bytes bytes) = canonicalize_account_bytes bytes ∧
  Forall2 (λ a b, a mod GOLDILOCKS_P = b mod GOLDILOCKS_P)
    (limbs (canonicalize_account_bytes bytes)) (limbs bytes).
Proof.
  intros Hd. destruct (canonicalize_limbs bytes Hd) as [El Ec].
  split_and!; [done|by apply canonicalize_id| |].
  - apply canonicalize_id; [by apply digest_of_limbs_digest|done].
  - rewrite El. apply Forall2_fmap_l, Forall_Forall2_diag, Forall_true. intros v.
    unfold compose. destruct (GOLDILOCKS_P <=? v); [|done]. by rewrite <- (Z_mod_plus_full (v - GOLDILOCKS_P) 1), Z.mul_1_l, Z.sub_add.
Qed.

End Theorems.

(** ** The interface *)
#[global] Instance tree_recorder `{PoseidonOps} : ZkCommitmentRecorder TreeState TreeError := {|
  insert_commitment := tree_insert_commitment;
  remaining_capacity := tree_remaining_capacity;
  leaf_count := LeafCount;
  leaf_at t i := Leaves t !! i;
  recorder_inv := tree_inv;
|}.

#[global] Instance tree_recorder_laws `{PoseidonOps, !PoseidonLaws} :
  ZkCommitmentRecorderLaws TreeState TreeError.
Proof.
  constructor; cbn.
  - intros t t' cm i Ht Hd E. destruct (insert_commitment_inv t cm t' i Ht Hd E) as (Ht' & [= -> ->] & Hlt).
    assert (4 ^ 20 < u_max 64) by done. split; [done|]. split; [done|].
    unfold tree_remaining_capacity; cbn [LeafCount Leaves]. rewrite sat_add_exact by lia.
    unfold CIRCUIT_MAX_TREE_DEPTH. rewrite (capacity_exact 20), !sat_sub_exact by lia.
    split_and!; [done|lia|by rewrite lookup_insert_eq|]. intros j Hj. by rewrite lookup_insert_ne.
  - intros t cm _ _ Hc Hne Hcap. unfold tree_insert_commitment.
    rewrite bool_decide_false, Hc, (proj2 (Z.ltb_lt _ _)) by done. cbn. by repeat eexists.
  - intros t _. unfold tree_remaining_capacity, sat_sub. lia.
Qed.

(** ** Witnesses *)
Definition toy_cm (k : Z) : Hash256 := digest_of_limbs [k; 0; 0; 0].
Definition toy_insert (t : TreeState) (k : Z) : TreeState :=
  match tree_insert_commitment t (toy_cm k) with Ok (t', _) => t' | Err _ => t end.

Lemma toy_insert_step t k :
  is_ok (tree_insert_commitment t (toy_cm k)) = true → tree_step t (toy_insert t k).
Proof.
  unfold toy_insert. destruct (tree_insert_commitment t (toy_cm k)) as [[t' i]|] eqn:E; [|done].
  intros _. apply (step_insert_commitment t (toy_cm k) t' i); [|done]. by apply digest_of_limbs_digest.
Qed.

(** Six leaves: five in the first block, which grows the tree twice, and one
    in the second. *)
Definition toy_block1 : TreeState := tree_on_finalize (foldl toy_insert genesis_tree [11; 12; 13; 14; 15]).
Definition toy_tree : TreeState := tree_on_finalize (toy_insert toy_block1 16).
(** The same leaves, one block each for the first two. *)
Definition toy_tree' : TreeState :=
  tree_on_finalize (foldl toy_insert
    (tree_on_finalize (toy_insert (tree_on_finalize (toy_insert genesis_tree 11)) 12)) [13; 14; 15; 16]).

Lemma toy_tree_reachable : tree_reach genesis_tree toy_tree.
Proof.
  split; [|vm_compute; discriminate]. repeat (first [eapply rtc_r; [|apply step_on_finalize]
                |eapply rtc_r; [|apply toy_insert_step; by vm_compute]]).
  apply rtc_refl.
Qed.
Lemma toy_tree'_reachable : tree_reach genesis_tree toy_tree'.
Proof.
  split; [|vm_compute; discriminate]. repeat (first [eapply rtc_r; [|apply step_on_finalize]
                |eapply rtc_r; [|apply toy_insert_step; by vm_compute]]).
  apply rtc_refl.
Qed.

Lemma batched_root_is_reference_witness :
  Depth toy_tree = 2 ∧ LeafCount toy_tree = 6 ∧
  Root toy_tree = ref_node (Leaves toy_tree) (settled toy_tree) (Z.to_nat (Depth toy_tree)) 0.
Proof.
  split; [by vm_compute|]. split; [by vm_compute|].
  exact (proj1 (batched_root_is_reference toy_tree toy_tree_reachable)).
Defined.

Lemma root_independent_of_blocks_witness : Root toy_tree = Root toy_tree' ∧ Depth toy_tree = Depth toy_tree'.
Proof.
  apply (root_independent_of_blocks toy_tree toy_tree' toy_tree_reachable toy_tree'_reachable);
    vm_compute; reflexivity.
Defined.

Lemma merkle_proof_complete_witness :
  ∃ p h, get_merkle_proof toy_tree 4 = Ok p ∧ Leaves toy_tree !! 4 = Some h ∧
    pallet_verify_proof toy_tree h p = true ∧
    Z.of_nat (length (mp_siblings p)) = Depth toy_tree ∧ Depth toy_tree ≤ CIRCUIT_MAX_TREE_DEPTH.
Proof.
  apply (merkle_proof_complete toy_tree 4 toy_tree_reachable); [vm_compute; reflexivity|].
  vm_compute. split; [discriminate|reflexivity].
Defined.

Definition toy_proof : ZkMerkleProof :=
  match get_merkle_proof toy_tree 4 with Ok p => p | Err _ => {| mp_leaf_index := 0; mp_siblings := [] |} end.

Definition good_hashb (h : Hash256) : bool :=
  bool_decide (length h = 32%nat) && forallb (λ b, (0 <=? b) && (b <? 256)) h && canonical_limbs h.

Lemma good_hashb_true h : good_hashb h = true → good_hash h.
Proof.
  unfold good_hashb. intros Hb. res_inv. split; [|done]. split; [done|]. apply Forall_forall. intros x Hx.
  match goal with H : forallb _ _ = true |- _ =>
    rewrite forallb_forall in H; specialize (H x (proj1 (list_elem_of_In _ _) Hx)) end.
  res_inv. split; done.
Qed.

Lemma good_siblings_true sibs :
  forallb (λ '(s0, s1, s2), good_hashb s0 && good_hashb s1 && good_hashb s2) sibs = true →
  good_siblings sibs.
Proof.
  induction sibs as [|[[s0 s1] s2] sibs IH]; cbn -[good_hashb]; intros Hb; [constructor|].
  res_inv. constructor; [auto using good_hashb_true|by apply IH].
Qed.

Lemma merkle_proof_sound_witness :
  broken_on (path_pres (toy_cm 15) (mp_siblings toy_proof) ++ tree_pres (Leaves toy_tree) (settled toy_tree) (length (mp_siblings toy_proof))) ∨
  ∃ j, 0 ≤ j < settled toy_tree ∧ Leaves toy_tree !! j = Some (toy_cm 15).
Proof.
  apply (merkle_proof_sound toy_tree (toy_cm 15) toy_proof toy_tree_reachable).
  - apply good_hashb_true. vm_compute; reflexivity.
  - vm_compute; discriminate.
  - apply good_siblings_true. vm_compute; reflexivity.
  - vm_compute; reflexivity.
  - vm_compute; reflexivity.
Defined.

Lemma canonicalize_account_spec_witness :
  canonicalize_account_bytes (replicate 32 255) = digest_of_limbs (replicate 4 (u_max 32 - 1)) ∧
  canonical_limbs (canonicalize_account_bytes (replicate 32 255)) = true.
Proof.
  split; [by vm_compute|].
  apply (canonicalize_account_spec (replicate 32 255)). split; [done|]. by repeat constructor.
Defined.

(** A proof handed out in the middle of a block need not verify.
    [get_merkle_proof] admits any leaf below the settled count, but it reads
    level-zero siblings straight from [Leaves], where the leaves appended this
    block already are, while the root does not cover them yet: after one leaf
    is settled and a second is pending, the proof of the first is refused by
    the pallet's own [verify_proof]. *)
Theorem mid_block_proof_does_not_verify :
  let t := toy_insert (tree_on_finalize (toy_insert genesis_tree 11)) 12 in
  rtc tree_step genesis_tree t ∧
  ∃ p, get_merkle_proof t 0 = Ok p ∧ pallet_verify_proof t (toy_cm 11) p = false.
Proof.
  cbv zeta. split.
  - repeat (first [eapply rtc_r; [|apply step_on_finalize]
                  |eapply rtc_r; [|apply toy_insert_step; by vm_compute]]).
    apply rtc_refl.
  - eexists. split; [vm_compute; reflexivity|by vm_compute].
Qed.
