(* ===== verification/Shielded.v ===== *)
(** * The shielded pool

    [chain/pallets/shielded/src/lib.rs]: the bundle a proof's public inputs
    stand for, the settlement plan and the settlement itself, shielding, the
    coinbase, the transaction-pool checks and the hooks. The note tree and the
    currency are reached through their interfaces. [ShieldedPlan] proves what a
    plan guarantees and [ShieldedProps] what settlements do with it. *)

From stdpp Require Import base list numbers gmap sets sorting.
From S2P Require Import Prelude Crypto NoteRules Verifier Interfaces ZkTree.
#[local] Open Scope Z_scope.

Definition UNSIGNED_SETTLEMENT_PRIORITY : Z := 1.
(** The pallet's own cap, below the verifier's. *)
Definition PALLET_MAX_PROOF_BYTES : Z := 512 * 1024.
Definition POOL_STEP : Z := 10000000000.

(** A cast [usize as u32]. *)
Definition as_u32 (z : Z) : Z := z mod 2 ^ 32.
Definition len {A} (l : list A) : Z := Z.of_nat (length l).

(** ** Bundles *)
Record RealSlot := {
  rs_nullifiers : Hash256 * Hash256;
  rs_commitments : Hash256 * Hash256;
  rs_fee : Z;
  rs_ct_digest : Hash256;
}.
Record Segment := {
  sg_block_hash : Hash256;
  sg_block_number : Z;
  sg_slots : list RealSlot;
}.
Record SettlementBundle := { segments : list Segment }.

Definition real_slots (b : SettlementBundle) : list RealSlot := concat (sg_slots <$> segments b).

Section Bundles.
Context {F : Type} `{FieldOps F}.

(** [out] starts as zeros and the zip writes one limb per element. *)
Definition digest_bytes (digest : list F) : Hash256 :=
  digest_of_limbs (to_canonical_u64 <$> digest).
Definition felt_u64 (x : F) : Z := to_canonical_u64 x.

Definition segment_from (inputs : PrivateBatchPublicInputs F) : Segment := {|
  sg_block_hash := digest_bytes (block_hash inputs);
  sg_block_number := default (u_max 32) (try_u 32 (felt_u64 (block_number inputs)));
  sg_slots :=
    (λ slot, {| rs_nullifiers := (digest_bytes (nullifiers slot).1, digest_bytes (nullifiers slot).2);
                rs_commitments := (digest_bytes (commitments slot).1, digest_bytes (commitments slot).2);
                rs_fee := felt_u64 (fee slot);
                rs_ct_digest := digest_bytes (Verifier.ct_digest slot) |})
    <$> filter (λ slot, slot_is_padding slot = false) (slots inputs) |}.

Definition from_private_batch (inputs : PrivateBatchPublicInputs F) : SettlementBundle :=
  {| segments := if is_padding inputs then [] else [segment_from inputs] |}.

Definition from_public_batch (inputs : PublicBatchPublicInputs F) : SettlementBundle :=
  {| segments := segment_from <$> settleable_batches inputs |}.
End Bundles.

Definition padding_block_hash : Hash256 := digest_of_limbs PADDING_BLOCK_HASH.

(** ** Calls, events, errors *)
Record ShieldedOutput := { ct_1 : list Z; ct_2 : list Z }.
Record CoinbasePayload := { cp_inner : Hash256; cp_ciphertext : list Z }.

Inductive Event :=
| EvShielded (who : Hash256) (value : Z) (cm : Hash256) (leaf_index entry_index ct_bytes : Z)
| SlotSettled (nulls cms : Hash256 * Hash256) (leaf_indices ct_bytes : Z * Z)
| BatchSettled (n_segments n_slots fee : Z)
| AuthorFeeAccrued (amount : Z)
| CoinbaseMinted (block leaf_index : Z) (inner : Hash256) (value : Z) (has_ciphertext : bool)
| CoinbaseDeferred (amount : Z).

Inductive Error :=
| ProofTooLarge | ProofDeserializationFailed | NonCanonicalProofEncoding | VerifierNotAvailable
| ProofVerificationFailed | InvalidPublicInputs | NothingToSettle | BlockNotFound
| BlockOutsideWindow | BlockHashMismatch | NullifierAlreadyUsed | DuplicateNullifier
| ZeroNullifier | ErrZeroCommitment | FeeBelowMinimum | ValueOutOfRange | PoolUnderflow
| CiphertextCountMismatch | CiphertextDigestMismatch | CiphertextTooLarge | EmptyCiphertext
| CiphertextLengthMismatch | UnknownCryptoSuite | PayloadUnderpaid | ErrTreeFull
| ValueNotQuantized | NonCanonicalInner | CoinbaseAlreadySet | NoBlockAuthor
| CoinbasePayloadNotSupported | TooManyOutputsInBlock.
#[global] Instance Error_eq_dec : EqDecision Error.
Proof. solve_decision. Defined.

Inductive Origin := OriginNone | OriginSigned (who : Hash256).

Inductive Call :=
| submit_private_batch (proof : list Z) (outputs : list ShieldedOutput)
| submit_public_batch (proof : list Z) (outputs : list ShieldedOutput)
| shield (value : Z) (inner : Hash256) (ciphertext : list Z)
| coinbase (inner : Hash256) (ciphertext : list Z).

Inductive InvalidTransaction := InvalidCall | ExhaustsResources.
Record ValidTransaction := {
  tx_prefix : list Z;
  tx_provides : Hash256;
  tx_priority : Z;
  tx_longevity : Z;
  tx_propagate : bool;
}.

Record PlannedSettlement := {
  pl_fee_steps : Z;
  pl_slots : Z;
  pl_skipped_slots : Z;
  pl_carried_bytes : Z;
  pl_settles : list bool;
}.

(** ** Configuration, environment and storage *)
Record Config {V W : Type} := {
  BlockHashWindow : Z;
  MinLeafFee : Z;
  CiphertextBytesPerFeeQuantum : Z;
  (** Parts per million. *)
  FeeBurnRate : Z;
  MaxCiphertextBytes : Z;
  CiphertextRetentionBlocks : Z;
  MaxOutputsPerBlock : Z;
  (** The verifiers the build embeds, when their artifacts load. *)
  private_batch_verifier : option V;
  public_batch_verifier : option W;
}.
Arguments Config : clear implicits.

(** What the pallet reads of [frame_system] and of the block's digest. *)
Record System := {
  sys_block_number : Z;
  (** [block_hash(n)], the default hash where none is kept. *)
  sys_block_hash : Z → Hash256;
  sys_block_author : option Hash256;
}.

Record Pool {T C : Type} := {
  UsedNullifiers : gset Hash256;
  OutputsWrittenThisBlock : Z * Z;
  LeafBlocks : gmap Z Z;
  EntryCount : Z;
  PoolValue : Z;
  PendingCoinbase : option CoinbasePayload;
  PendingCoinbaseFee : Z;
  CoinbaseValues : gmap Z Z;
  events : list Event;
  ZkTreeState : T;
  CurrencyState : C;
}.
Arguments Pool : clear implicits.

Inductive DispatchError {E D : Type} :=
| BadOrigin
| ModuleError (e : Error)
| TreeDispatchError (e : E)
| TokenError (e : D).
Arguments DispatchError : clear implicits.

(** Storage writes, one per value written. *)
Section Writes.
Context {T C : Type}.
Implicit Types s : Pool T C.

Definition deposit_event (e : Event) s : Pool T C :=
  {| UsedNullifiers := UsedNullifiers s; OutputsWrittenThisBlock := OutputsWrittenThisBlock s;
     LeafBlocks := LeafBlocks s; EntryCount := EntryCount s; PoolValue := PoolValue s;
     PendingCoinbase := PendingCoinbase s; PendingCoinbaseFee := PendingCoinbaseFee s;
     CoinbaseValues := CoinbaseValues s; events := events s ++ [e];
     ZkTreeState := ZkTreeState s; CurrencyState := CurrencyState s |}.
Definition put_nullifier (n : Hash256) s : Pool T C :=
  {| UsedNullifiers := {[n]} ∪ UsedNullifiers s; OutputsWrittenThisBlock := OutputsWrittenThisBlock s;
     LeafBlocks := LeafBlocks s; EntryCount := EntryCount s; PoolValue := PoolValue s;
     PendingCoinbase := PendingCoinbase s; PendingCoinbaseFee := PendingCoinbaseFee s;
     CoinbaseValues := CoinbaseValues s; events := events s;
     ZkTreeState := ZkTreeState s; CurrencyState := CurrencyState s |}.
Definition put_outputs (o : Z * Z) s : Pool T C :=
  {| UsedNullifiers := UsedNullifiers s; OutputsWrittenThisBlock := o;
     LeafBlocks := LeafBlocks s; EntryCount := EntryCount s; PoolValue := PoolValue s;
     PendingCoinbase := PendingCoinbase s; PendingCoinbaseFee := PendingCoinbaseFee s;
     CoinbaseValues := CoinbaseValues s; events := events s;
     ZkTreeState := ZkTreeState s; CurrencyState := CurrencyState s |}.
Definition put_leaf_block (i n : Z) s : Pool T C :=
  {| UsedNullifiers := UsedNullifiers s; OutputsWrittenThisBlock := OutputsWrittenThisBlock s;
     LeafBlocks := <[i := n]> (LeafBlocks s); EntryCount := EntryCount s; PoolValue := PoolValue s;
     PendingCoinbase := PendingCoinbase s; PendingCoinbaseFee := PendingCoinbaseFee s;
     CoinbaseValues := CoinbaseValues s; events := events s;
     ZkTreeState := ZkTreeState s; CurrencyState := CurrencyState s |}.
Definition put_entry_count (n : Z) s : Pool T C :=
  {| UsedNullifiers := UsedNullifiers s; OutputsWrittenThisBlock := OutputsWrittenThisBlock s;
     LeafBlocks := LeafBlocks s; EntryCount := n; PoolValue := PoolValue s;
     PendingCoinbase := PendingCoinbase s; PendingCoinbaseFee := PendingCoinbaseFee s;
     CoinbaseValues := CoinbaseValues s; events := events s;
     ZkTreeState := ZkTreeState s; CurrencyState := CurrencyState s |}.
Definition put_pool_value (v : Z) s : Pool T C :=
  {| UsedNullifiers := UsedNullifiers s; OutputsWrittenThisBlock := OutputsWrittenThisBlock s;
     LeafBlocks := LeafBlocks s; EntryCount := EntryCount s; PoolValue := v;
     PendingCoinbase := PendingCoinbase s; PendingCoinbaseFee := PendingCoinbaseFee s;
     CoinbaseValues := CoinbaseValues s; events := events s;
     ZkTreeState := ZkTreeState s; CurrencyState := CurrencyState s |}.
Definition put_pending_coinbase (p : option CoinbasePayload) s : Pool T C :=
  {| UsedNullifiers := UsedNullifiers s; OutputsWrittenThisBlock := OutputsWrittenThisBlock s;
     LeafBlocks := LeafBlocks s; EntryCount := EntryCount s; PoolValue := PoolValue s;
     PendingCoinbase := p; PendingCoinbaseFee := PendingCoinbaseFee s;
     CoinbaseValues := CoinbaseValues s; events := events s;
     ZkTreeState := ZkTreeState s; CurrencyState := CurrencyState s |}.
Definition put_pending_fee (v : Z) s : Pool T C :=
  {| UsedNullifiers := UsedNullifiers s; OutputsWrittenThisBlock := OutputsWrittenThisBlock s;
     LeafBlocks := LeafBlocks s; EntryCount := EntryCount s; PoolValue := PoolValue s;
     PendingCoinbase := PendingCoinbase s; PendingCoinbaseFee := v;
     CoinbaseValues := CoinbaseValues s; events := events s;
     ZkTreeState := ZkTreeState s; CurrencyState := CurrencyState s |}.
Definition put_coinbase_value (i v : Z) s : Pool T C :=
  {| UsedNullifiers := UsedNullifiers s; OutputsWrittenThisBlock := OutputsWrittenThisBlock s;
     LeafBlocks := LeafBlocks s; EntryCount := EntryCount s; PoolValue := PoolValue s;
     PendingCoinbase := PendingCoinbase s; PendingCoinbaseFee := PendingCoinbaseFee s;
     CoinbaseValues := <[i := v]> (CoinbaseValues s); events := events s;
     ZkTreeState := ZkTreeState s; CurrencyState := CurrencyState s |}.
Definition put_tree (t : T) s : Pool T C :=
  {| UsedNullifiers := UsedNullifiers s; OutputsWrittenThisBlock := OutputsWrittenThisBlock s;
     LeafBlocks := LeafBlocks s; EntryCount := EntryCount s; PoolValue := PoolValue s;
     PendingCoinbase := PendingCoinbase s; PendingCoinbaseFee := PendingCoinbaseFee s;
     CoinbaseValues := CoinbaseValues s; events := events s;
     ZkTreeState := t; CurrencyState := CurrencyState s |}.
Definition put_currency (c : C) s : Pool T C :=
  {| UsedNullifiers := UsedNullifiers s; OutputsWrittenThisBlock := OutputsWrittenThisBlock s;
     LeafBlocks := LeafBlocks s; EntryCount := EntryCount s; PoolValue := PoolValue s;
     PendingCoinbase := PendingCoinbase s; PendingCoinbaseFee := PendingCoinbaseFee s;
     CoinbaseValues := CoinbaseValues s; events := events s;
     ZkTreeState := ZkTreeState s; CurrencyState := c |}.
End Writes.

Section Pallet.
Context {T E C D F : Type}.
Context `{ZkCommitmentRecorder T E, Currency C D, PoseidonOps, SpOps, FieldOps F, PlonkyOps F}.
Abbreviation Config' := (Config QneroPrivateBatchVerifier QneroPublicBatchVerifier).
Implicit Types (s : Pool T C) (cfg : Config') (sys : System).

(** ** The per-block output budget *)
Definition outputs_written_this_block sys s : Z :=
  let '(block, count) := OutputsWrittenThisBlock s in
  if block =? sys_block_number sys then count else 0.

Definition ensure_output_capacity cfg sys s (count : Z) : result Error unit :=
  ensure (match checked_add 32 (outputs_written_this_block sys s) count with
          | Some total => total <=? MaxOutputsPerBlock cfg
          | None => false
          end) TooManyOutputsInBlock.

Definition record_outputs sys (count : Z) s : Pool T C :=
  let now := sys_block_number sys in
  let '(block, written) := OutputsWrittenThisBlock s in
  put_outputs (now, if block =? now then sat_add 32 written count else count) s.

(** ** Fees *)
Definition output_bytes (o : ShieldedOutput) : Z := sat_add 64 (len (ct_1 o)) (len (ct_2 o)).
Definition carried_bytes (outputs : list ShieldedOutput) : Z :=
  foldl (λ total o, sat_add 64 total (output_bytes o)) 0 outputs.
Definition ciphertext_bytes (outputs : list ShieldedOutput) : Z :=
  foldl (λ total o, sat_add 32 (sat_add 32 total (as_u32 (len (ct_1 o)))) (as_u32 (len (ct_2 o))))
    0 outputs.
Definition bytes_per_fee_quantum cfg : Z := Z.max (CiphertextBytesPerFeeQuantum cfg) 1.
Definition fee_floor cfg (min_fee bytes : Z) : Z :=
  sat_add 64 min_fee (div_ceil bytes (bytes_per_fee_quantum cfg)).
Definition fee_planck (fee_steps : Z) : result Error Z :=
  planck ← ok_or (checked_mul 128 fee_steps POOL_STEP) ValueOutOfRange;
  ok_or (try_u 128 planck) ValueOutOfRange.

(** ** Checks *)
Definition ensure_exact_ciphertext (bytes : list Z) : result Error unit :=
  suite ← ok_or (declared_crypto_suite bytes) CiphertextLengthMismatch;
  expected ← ok_or (ciphertext_len suite) UnknownCryptoSuite;
  ensure (len bytes =? expected) CiphertextLengthMismatch.

Definition is_empty_pair (o : ShieldedOutput) : bool :=
  bool_decide (ct_1 o = []) && bool_decide (ct_2 o = []).

Definition check_output (o : ShieldedOutput) : result Error unit :=
  if is_empty_pair o then Ok tt
  else _ ← ensure_exact_ciphertext (ct_1 o); ensure_exact_ciphertext (ct_2 o).

Definition anchor_failure sys (segment : Segment) (current window : Z) : option Error :=
  let anchored_at := sg_block_number segment in
  if current <=? anchored_at then Some BlockOutsideWindow
  else if window <? sat_sub current anchored_at then Some BlockOutsideWindow
  else
    let on_chain := sys_block_hash sys anchored_at in
    if bool_decide (on_chain = zero_hash) then Some BlockNotFound
    else if negb (bool_decide (on_chain = sg_block_hash segment)) then Some BlockHashMismatch
    else None.

Definition slot_nullifiers (slot : RealSlot) : list Hash256 :=
  [(rs_nullifiers slot).1; (rs_nullifiers slot).2].
Definition slot_commitments (slot : RealSlot) : list Hash256 :=
  [(rs_commitments slot).1; (rs_commitments slot).2].

(** The loop state of [plan_settlement]. *)
Record Walk := {
  claimed : gset Hash256;
  fee_steps : Z;
  wslots : Z;
  skipped_slots : Z;
  stale_anchor : option Error;
  settles : list bool;
  wreal_slots : Z;
}.
Definition walk0 : Walk := {|
  claimed := ∅; fee_steps := 0; wslots := 0; skipped_slots := 0; stale_anchor := None;
  settles := []; wreal_slots := 0 |}.

Definition claim_nullifier (cl : gset Hash256) (nullifier : Hash256) : result Error (gset Hash256) :=
  _ ← ensure (negb (bool_decide (nullifier = zero_hash))) ZeroNullifier;
  _ ← ensure (negb (bool_decide (nullifier ∈ cl))) DuplicateNullifier;
  Ok ({[nullifier]} ∪ cl).

(** The body of the inner loop: one slot of a segment that settles. *)
Definition plan_slot cfg (outputs : list ShieldedOutput) (w : Walk) (slot : RealSlot)
  : result Error Walk :=
  _ ← ensure (rs_fee slot <=? MAX_VALUE) ValueOutOfRange;
  _ ← all_ok (λ cm, ensure (negb (bool_decide (cm = zero_hash))) ErrZeroCommitment)
        (slot_commitments slot);
  cl ← fold_result claim_nullifier (claimed w) (slot_nullifiers slot);
  output ← ok_or (outputs !! Z.to_nat (wreal_slots w)) CiphertextCountMismatch;
  _ ← ensure (negb (bool_decide (ct_1 output = [])) && negb (bool_decide (ct_2 output = [])))
        EmptyCiphertext;
  _ ← ensure (fee_floor cfg (MinLeafFee cfg) (output_bytes output) <=? rs_fee slot) FeeBelowMinimum;
  fees ← ok_or (checked_add 128 (fee_steps w) (rs_fee slot)) ValueOutOfRange;
  n ← ok_or (checked_add 32 (wslots w) 1) ValueOutOfRange;
  r ← ok_or (checked_add usize_bits (wreal_slots w) 1) ValueOutOfRange;
  Ok {| claimed := cl; fee_steps := fees; wslots := n; skipped_slots := skipped_slots w;
        stale_anchor := stale_anchor w; settles := settles w; wreal_slots := r |}.

Definition conflicts s (w : Walk) (segment : Segment) : bool :=
  existsb (λ slot, existsb (λ nullifier,
      bool_decide (nullifier ∈ UsedNullifiers s) || bool_decide (nullifier ∈ claimed w))
    (slot_nullifiers slot)) (sg_slots segment).

(** Whether the segment is skipped, and the first anchor error met. *)
Definition skip_segment cfg sys s (w : Walk) (segment : Segment) : bool * option Error :=
  if conflicts s w segment then (true, stale_anchor w)
  else match anchor_failure sys segment (sys_block_number sys) (BlockHashWindow cfg) with
       | Some error => (true, Some (default error (stale_anchor w)))
       | None => (false, stale_anchor w)
       end.

(** The body of the outer loop. *)
Definition plan_segment cfg sys s (outputs : list ShieldedOutput) (w : Walk) (segment : Segment)
  : result Error Walk :=
  _ ← ensure (negb (bool_decide (sg_slots segment = []))) NothingToSettle;
  let '(skipped, stale) := skip_segment cfg sys s w segment in
  if skipped then
    k ← ok_or (count ← try_u 32 (len (sg_slots segment)); checked_add 32 (skipped_slots w) count)
          ValueOutOfRange;
    r ← ok_or (checked_add usize_bits (wreal_slots w) (len (sg_slots segment))) ValueOutOfRange;
    Ok {| claimed := claimed w; fee_steps := fee_steps w; wslots := wslots w; skipped_slots := k;
          stale_anchor := stale; settles := settles w ++ [false]; wreal_slots := r |}
  else
    fold_result (plan_slot cfg outputs)
      {| claimed := claimed w; fee_steps := fee_steps w; wslots := wslots w;
         skipped_slots := skipped_slots w; stale_anchor := stale;
         settles := settles w ++ [true]; wreal_slots := wreal_slots w |}
      (sg_slots segment).

Definition plan_walk cfg sys s (b : SettlementBundle) (outputs : list ShieldedOutput)
  : result Error Walk :=
  _ ← ensure (negb (bool_decide (segments b = []))) NothingToSettle;
  _ ← all_ok check_output outputs;
  fold_result (plan_segment cfg sys s outputs) walk0 (segments b).

(** What the settling slots owe for the whole submission. *)
Definition submission_floor cfg (w : Walk) (outputs : list ShieldedOutput) : option Z :=
  let payload_steps := div_ceil (carried_bytes outputs) (bytes_per_fee_quantum cfg) in
  carried ← checked_add 128 (wslots w) (skipped_slots w);
  flat ← checked_mul 128 carried (MinLeafFee cfg);
  checked_add 128 flat payload_steps.

(** The checks after the walk, in the code's order. *)
Definition plan_finish cfg sys s (outputs : list ShieldedOutput) (w : Walk)
  : result Error PlannedSettlement :=
  _ ← (if wslots w =? 0 then Err (default NullifierAlreadyUsed (stale_anchor w)) else Ok tt);
  _ ← ensure (len outputs =? wreal_slots w) CiphertextCountMismatch;
  floor ← ok_or (submission_floor cfg w outputs) ValueOutOfRange;
  _ ← ensure (floor <=? fee_steps w) PayloadUnderpaid;
  let appends := sat_add 64 (sat_mul 64 (wslots w) 2) 1 in
  _ ← ensure (appends <=? remaining_capacity (ZkTreeState s)) ErrTreeFull;
  _ ← ensure_output_capacity cfg sys s (sat_mul 32 (wslots w) 2);
  planck ← fee_planck (fee_steps w);
  _ ← ensure (planck <=? PoolValue s) PoolUnderflow;
  Ok {| pl_fee_steps := fee_steps w; pl_slots := wslots w; pl_skipped_slots := skipped_slots w;
        pl_carried_bytes := carried_bytes outputs; pl_settles := settles w |}.

Definition plan_settlement cfg sys s (b : SettlementBundle) (outputs : list ShieldedOutput)
  : result Error PlannedSettlement :=
  w ← plan_walk cfg sys s b outputs; plan_finish cfg sys s outputs w.

(** One position of [bind_payload]'s loop. *)
Definition bind_slot (outputs : list ShieldedOutput) (p : nat * RealSlot) : result Error unit :=
  output ← ok_or (outputs !! p.1) CiphertextCountMismatch;
  if is_empty_pair output then Ok tt
  else ensure (bool_decide (NoteRules.ct_digest [ct_1 output; ct_2 output] = rs_ct_digest p.2))
         CiphertextDigestMismatch.

Definition bind_payload (b : SettlementBundle) (outputs : list ShieldedOutput) : result Error unit :=
  all_ok (bind_slot outputs) (imap pair (real_slots b)).

Definition check_settlement cfg sys s (b : SettlementBundle) (outputs : list ShieldedOutput)
  : result Error PlannedSettlement :=
  plan ← plan_settlement cfg sys s b outputs;
  _ ← bind_payload b outputs;
  Ok plan.

(** ** Proof validation *)
Definition proof_error (r : ProofRejection) : Error :=
  match r with
  | TooLarge => ProofTooLarge
  | Deserialization => ProofDeserializationFailed
  | NonCanonicalEncoding => NonCanonicalProofEncoding
  | PublicInputLayout => InvalidPublicInputs
  | Verification => ProofVerificationFailed
  end.

Definition pre_validate_private_batch cfg (pf : list Z) : result Error SettlementBundle :=
  _ ← ensure (len pf <=? PALLET_MAX_PROOF_BYTES) ProofTooLarge;
  v ← ok_or (private_batch_verifier cfg) VerifierNotAvailable;
  inputs ← map_err proof_error (private_parse_proof_bytes v pf);
  Ok (from_private_batch inputs).
Definition validate_private_batch cfg (pf : list Z) : result Error SettlementBundle :=
  _ ← ensure (len pf <=? PALLET_MAX_PROOF_BYTES) ProofTooLarge;
  v ← ok_or (private_batch_verifier cfg) VerifierNotAvailable;
  inputs ← map_err proof_error (private_verify_proof_bytes v pf);
  Ok (from_private_batch inputs).
Definition pre_validate_public_batch cfg (pf : list Z) : result Error SettlementBundle :=
  _ ← ensure (len pf <=? PALLET_MAX_PROOF_BYTES) ProofTooLarge;
  v ← ok_or (public_batch_verifier cfg) VerifierNotAvailable;
  inputs ← map_err proof_error (public_parse_proof_bytes v pf);
  Ok (from_public_batch inputs).
Definition validate_public_batch cfg (pf : list Z) : result Error SettlementBundle :=
  _ ← ensure (len pf <=? PALLET_MAX_PROOF_BYTES) ProofTooLarge;
  v ← ok_or (public_batch_verifier cfg) VerifierNotAvailable;
  inputs ← map_err proof_error (public_verify_proof_bytes v pf);
  Ok (from_public_batch inputs).

(** ** Settlement *)
Definition lift {A} (r : result Error A) : result (DispatchError E D) A := map_err ModuleError r.

Definition tree_insert s (cm : Hash256) : result (DispatchError E D) (Pool T C * Z) :=
  r ← map_err TreeDispatchError (insert_commitment (ZkTreeState s) cm);
  Ok (put_tree r.1 s, r.2).

(** The writes for one settled slot. [outputs[output_index]] is behind the
    plan's own lookup of the same position; a read past the end would panic,
    and is the [CiphertextCountMismatch] the plan refuses with. *)
Definition settle_slot sys (outputs : list ShieldedOutput) (acc : Pool T C * Z) (slot : RealSlot)
  : result (DispatchError E D) (Pool T C * Z) :=
  let '(s, output_index) := acc in
  let s := foldl (λ s n, put_nullifier n s) s (slot_nullifiers slot) in
  output ← ok_or (outputs !! Z.to_nat output_index) (ModuleError CiphertextCountMismatch);
  first ← tree_insert s (rs_commitments slot).1;
  second ← tree_insert first.1 (rs_commitments slot).2;
  let s := record_outputs sys 2 second.1 in
  let s := put_leaf_block first.2 (sys_block_number sys) s in
  let s := put_leaf_block second.2 (sys_block_number sys) s in
  let s := deposit_event (SlotSettled (rs_nullifiers slot) (rs_commitments slot)
             (first.2, second.2) (as_u32 (len (ct_1 output)), as_u32 (len (ct_2 output)))) s in
  Ok (s, output_index + 1).

Definition settle_segment sys (outputs : list ShieldedOutput) (acc : Pool T C * Z)
  (p : Segment * bool) : result (DispatchError E D) (Pool T C * Z) :=
  let '(segment, flag) := p in
  if negb flag then Ok (acc.1, sat_add usize_bits acc.2 (len (sg_slots segment)))
  else fold_result (settle_slot sys outputs) acc (sg_slots segment).

Definition account_fee cfg s (steps : Z) : result (DispatchError E D) (Pool T C * Z) :=
  if steps =? 0 then Ok (s, 0)
  else
    fee ← lift (fee_planck steps);
    pool ← lift (ok_or (checked_sub (PoolValue s) fee) PoolUnderflow);
    let s := put_pool_value pool s in
    let burn_steps := mul_ceil (FeeBurnRate cfg) steps in
    let author_steps := sat_sub steps burn_steps in
    if author_steps =? 0 then Ok (s, fee)
    else
      author_amount ← lift (fee_planck author_steps);
      let s := put_pending_fee (sat_add 128 (PendingCoinbaseFee s) author_amount) s in
      Ok (deposit_event (AuthorFeeAccrued author_amount) s, fee).

Definition settle cfg sys s (b : SettlementBundle) (outputs : list ShieldedOutput)
  : result (DispatchError E D) (Pool T C) :=
  plan ← lift (check_settlement cfg sys s b outputs);
  acc ← fold_result (settle_segment sys outputs) (s, 0) (zip (segments b) (pl_settles plan));
  paid ← account_fee cfg acc.1 (pl_fee_steps plan);
  Ok (deposit_event (BatchSettled (len (filter (λ f, f = true) (pl_settles plan)))
        (pl_slots plan) paid.2) paid.1).

(** ** Shielding and the coinbase *)
Definition do_shield cfg sys s (who : Hash256) (value : Z) (inner : Hash256) (ciphertext : list Z)
  : result (DispatchError E D) (Pool T C) :=
  value_u128 ← lift (ok_or (try_u 128 value) ValueOutOfRange);
  _ ← lift (ensure ((0 <? value_u128) && (value_u128 mod POOL_STEP =? 0)) ValueNotQuantized);
  steps ← lift (ok_or (try_u 64 (value_u128 / POOL_STEP)) ValueOutOfRange);
  _ ← lift (ensure (steps <=? MAX_VALUE) ValueOutOfRange);
  cm ← lift (ok_or (commitment inner steps) NonCanonicalInner);
  ct_bytes ← lift (ok_or (try_u 32 (len ciphertext)) CiphertextTooLarge);
  _ ← lift (ensure (ct_bytes <=? MaxCiphertextBytes cfg) CiphertextTooLarge);
  _ ← lift (ensure (1 <=? remaining_capacity (ZkTreeState s)) ErrTreeFull);
  _ ← lift (ensure_output_capacity cfg sys s 1);
  c ← map_err TokenError (burn_from (CurrencyState s) who value);
  let s := put_currency c s in
  let entry_index := EntryCount s in
  let s := put_entry_count (sat_add 64 entry_index 1) s in
  inserted ← tree_insert s cm;
  let s := record_outputs sys 1 inserted.1 in
  let s := put_leaf_block inserted.2 (sys_block_number sys) s in
  let s := put_pool_value (sat_add 128 (PoolValue s) value) s in
  Ok (deposit_event (EvShielded who value cm inserted.2 entry_index ct_bytes) s).

Definition do_coinbase cfg sys s (inner : Hash256) (ciphertext : list Z)
  : result (DispatchError E D) (Pool T C) :=
  _ ← lift (ensure (bool_decide (PendingCoinbase s = None)) CoinbaseAlreadySet);
  _ ← lift (ensure (negb (bool_decide (sys_block_author sys = None))) NoBlockAuthor);
  _ ← lift (ensure (bool_decide (ciphertext = [])) CoinbasePayloadNotSupported);
  _ ← lift (ensure (len ciphertext <=? MaxCiphertextBytes cfg) CiphertextTooLarge);
  _ ← lift (ensure (negb (bool_decide (commitment inner 0 = None))) NonCanonicalInner);
  Ok (put_pending_coinbase (Some {| cp_inner := inner; cp_ciphertext := ciphertext |}) s).

(** Not an extrinsic: what it wrote before an error stays written. *)
Definition mint_coinbase sys s (minted : Z) : Pool T C * result Z unit :=
  match PendingCoinbase s with
  | None => (if minted =? 0 then s else deposit_event (CoinbaseDeferred minted) s, Err minted)
  | Some payload =>
      let s := put_pending_coinbase None s in
      let pending_fee := PendingCoinbaseFee s in
      if negb (bool_decide (cp_ciphertext payload = [])) then (s, Err minted)
      else match try_u 128 (sat_add 128 minted pending_fee) with
      | None => (s, Err minted)
      | Some total_planck =>
          let steps_u128 := total_planck / POOL_STEP in
          let change := total_planck mod POOL_STEP in
          match try_u 64 steps_u128 with
          | None => (s, Err minted)
          | Some steps =>
              if (steps =? 0) || (MAX_VALUE <? steps) then (s, Err minted)
              else match commitment (cp_inner payload) steps with
              | None => (s, Err minted)
              | Some cm =>
                  match insert_commitment (E := E) (ZkTreeState s) cm with
                  | Err _ => (s, Err minted)
                  | Ok (t, leaf_index) =>
                      let s := put_tree t s in
                      match try_u 128 (sat_mul 128 steps_u128 POOL_STEP), try_u 128 change with
                      | Some value, Some change =>
                          let s := put_leaf_block leaf_index (sys_block_number sys) s in
                          let s := put_coinbase_value leaf_index steps s in
                          let s := put_pool_value (sat_add 128 (PoolValue s) value) s in
                          let s := put_pending_fee change s in
                          (deposit_event (CoinbaseMinted (sys_block_number sys) leaf_index
                             (cp_inner payload) value
                             (negb (bool_decide (cp_ciphertext payload = [])))) s, Ok tt)
                      | _, _ => (s, Err minted)
                      end
                  end
              end
          end
      end
  end.

(** [ShieldedSupply::get]. *)
Definition pool_supply s : Z := sat_add 128 (PoolValue s) (PendingCoinbaseFee s).

(** ** Hooks *)
Definition on_initialize s : Pool T C :=
  put_outputs (0, 0) (put_pending_coinbase None s).

(** ** The dispatchables: a failed call leaves the storage as it was. *)
Definition call_body cfg sys s (origin : Origin) (call : Call)
  : result (DispatchError E D) (Pool T C) :=
  match call, origin with
  | submit_private_batch pf outputs, OriginNone =>
      b ← lift (validate_private_batch cfg pf); settle cfg sys s b outputs
  | submit_public_batch pf outputs, OriginNone =>
      b ← lift (validate_public_batch cfg pf); settle cfg sys s b outputs
  | shield value inner ct, OriginSigned who => do_shield cfg sys s who value inner ct
  | coinbase inner ct, OriginNone => do_coinbase cfg sys s inner ct
  | _, _ => Err BadOrigin
  end.
Definition dispatch cfg sys s (origin : Origin) (call : Call) : Pool T C :=
  match call_body cfg sys s origin call with Ok s' => s' | Err _ => s end.

(** ** The transaction pool *)
Definition settlement_plan_error (e : Error) : InvalidTransaction :=
  match e with TooManyOutputsInBlock => ExhaustsResources | _ => InvalidCall end.

Definition tag_segment (segment : Segment) : list Z :=
  le_bytes 4 (as_u32 (len (sg_slots segment)))
    ++ concat (merge_sort lex (concat (slot_nullifiers <$> sg_slots segment))).
Definition tag_preimage (b : SettlementBundle) : list Z :=
  le_bytes 4 (as_u32 (len (segments b))) ++ concat (tag_segment <$> segments b).
Definition settlement_provides_tag (b : SettlementBundle) : Hash256 := blake2_256 (tag_preimage b).

(** Parse and plan before the proof is verified. *)
Definition admission_checks cfg sys s (parsed verified : result Error SettlementBundle)
  (outputs : list ShieldedOutput) : result InvalidTransaction SettlementBundle :=
  p ← map_err (λ _, InvalidCall) parsed;
  _ ← map_err settlement_plan_error (plan_settlement cfg sys s p outputs);
  map_err (λ _, InvalidCall) verified.

(** ["QneroPrivateBatch"] and ["QneroPublicBatch"]. *)
Definition private_prefix : list Z :=
  [81; 110; 101; 114; 111; 80; 114; 105; 118; 97; 116; 101; 66; 97; 116; 99; 104].
Definition public_prefix : list Z :=
  [81; 110; 101; 114; 111; 80; 117; 98; 108; 105; 99; 66; 97; 116; 99; 104].

Definition validate_unsigned cfg sys s (call : Call) : result InvalidTransaction ValidTransaction :=
  r ← match call with
      | submit_private_batch pf outputs =>
          v ← admission_checks cfg sys s (pre_validate_private_batch cfg pf)
                (validate_private_batch cfg pf) outputs;
          _ ← map_err (λ _, InvalidCall) (bind_payload v outputs);
          Ok (v, private_prefix)
      | submit_public_batch pf outputs =>
          v ← admission_checks cfg sys s (pre_validate_public_batch cfg pf)
                (validate_public_batch cfg pf) outputs;
          _ ← map_err (λ _, InvalidCall) (bind_payload v outputs);
          Ok (v, public_prefix)
      | _ => Err InvalidCall
      end;
  Ok {| tx_prefix := r.2; tx_provides := settlement_provides_tag r.1;
        tx_priority := UNSIGNED_SETTLEMENT_PRIORITY; tx_longevity := 5; tx_propagate := true |}.

Definition pre_dispatch cfg sys s (call : Call) : result InvalidTransaction unit :=
  match call with
  | coinbase _ _ => Ok tt
  | submit_private_batch pf outputs =>
      v ← admission_checks cfg sys s (pre_validate_private_batch cfg pf)
            (validate_private_batch cfg pf) outputs;
      _ ← map_err (λ _, InvalidCall) (check_settlement cfg sys s v outputs);
      Ok tt
  | submit_public_batch pf outputs =>
      v ← admission_checks cfg sys s (pre_validate_public_batch cfg pf)
            (validate_public_batch cfg pf) outputs;
      _ ← map_err (λ _, InvalidCall) (check_settlement cfg sys s v outputs);
      Ok tt
  | shield _ _ _ => Err InvalidCall
  end.

(** ** The inherent *)
Definition create_inherent (payload : option (Hash256 * list Z)) : option Call :=
  p ← payload; Some (coinbase p.1 p.2).
Definition is_inherent (call : Call) : bool :=
  match call with coinbase _ _ => true | _ => false end.
End Pallet.
