(* ===== verification/ShieldedPlan.v ===== *)
(** * What a settlement plan guarantees

    The loop invariant of [plan_settlement]'s walk: which slots a plan settles,
    at which positions of [outputs], and what has been checked of each. Every
    theorem about settlements starts from [plan_walk_inv]. *)

From stdpp Require Import base list numbers gmap sets sorting.
From S2P Require Import Prelude Crypto NoteRules Verifier Interfaces ZkTree Shielded.
#[local] Open Scope Z_scope.

(** ** The slots a list of flags selects *)
Definition nulls (l : list RealSlot) : list Hash256 := concat (slot_nullifiers <$> l).
Definition cms (l : list RealSlot) : list Hash256 := concat (slot_commitments <$> l).

(** Slots with their position in the submission. *)
Definition place (off : Z) (l : list RealSlot) : list (Z * RealSlot) :=
  imap (λ i slot, (off + Z.of_nat i, slot)) l.

Fixpoint placed (off : Z) (segs : list Segment) (flags : list bool) : list (Z * RealSlot) :=
  match segs, flags with
  | seg :: segs', f :: flags' =>
      (if f : bool then place off (sg_slots seg) else []) ++ placed (off + len (sg_slots seg)) segs' flags'
  | _, _ => []
  end.

(** The slots that settle. *)
Definition chosen (segs : list Segment) (flags : list bool) : list RealSlot :=
  (placed 0 segs flags).*2.

Definition total_slots (segs : list Segment) : Z := len (concat (sg_slots <$> segs)).

Section Placed.
Lemma len_app {A} (l1 l2 : list A) : len (l1 ++ l2) = len l1 + len l2.
Proof. unfold len. rewrite length_app. lia. Qed.
Lemma len_nonneg {A} (l : list A) : 0 ≤ len l.
Proof. unfold len. lia. Qed.
Lemma len_cons {A} (x : A) l : len (x :: l) = 1 + len l.
Proof. unfold len. cbn [length]. lia. Qed.

Lemma place_snoc off l slot : place off (l ++ [slot]) = place off l ++ [(off + len l, slot)].
Proof. unfold place, len. rewrite imap_app. cbn. by rewrite Nat.add_0_r. Qed.

Lemma place_cons off slot l : place off (slot :: l) = (off, slot) :: place (off + 1) l.
Proof.
  unfold place. rewrite imap_cons, Z.add_0_r. f_equal. apply imap_ext. intros i x _. cbn. f_equal. lia.
Qed.

Lemma place_app off l1 l2 : place off (l1 ++ l2) = place off l1 ++ place (off + len l1) l2.
Proof.
  revert off. induction l1 as [|x l1 IH]; intros off; [unfold len; cbn; by rewrite Z.add_0_r|].
  cbn [app]. rewrite !place_cons, IH, len_cons. cbn [app]. by rewrite Z.add_assoc.
Qed.

Lemma place_snd off l : (place off l).*2 = l.
Proof. revert off. induction l as [|x l IH]; intros off; [done|]. by rewrite place_cons, fmap_cons, IH. Qed.

Lemma len_place off l : len (place off l) = len l.
Proof. unfold len, place. by rewrite length_imap. Qed.

Lemma total_slots_cons seg segs : total_slots (seg :: segs) = len (sg_slots seg) + total_slots segs.
Proof. unfold total_slots. rewrite fmap_cons, concat_cons. apply len_app. Qed.

Lemma total_slots_snoc segs seg : total_slots (segs ++ [seg]) = total_slots segs + len (sg_slots seg).
Proof. unfold total_slots. rewrite fmap_app, concat_app, len_app. cbn. by rewrite app_nil_r. Qed.

Lemma placed_snoc off segs flags seg f :
  length flags = length segs →
  placed off (segs ++ [seg]) (flags ++ [f]) =
    placed off segs flags ++ (if f : bool then place (off + total_slots segs) (sg_slots seg) else []).
Proof.
  revert off flags. induction segs as [|sg segs IH]; intros off [|fl flags] Hlen; try done.
  - cbn. rewrite app_nil_r. unfold total_slots. cbn. by rewrite Z.add_0_r.
  - cbn [placed app]. rewrite IH by (cbn in Hlen; lia). rewrite <- app_assoc, total_slots_cons.
    by rewrite Z.add_assoc.
Qed.

Lemma nulls_app l1 l2 : nulls (l1 ++ l2) = nulls l1 ++ nulls l2.
Proof. unfold nulls. by rewrite fmap_app, concat_app. Qed.
Lemma nulls_one (r : Z) slot : nulls [(r, slot)].*2 = slot_nullifiers slot.
Proof. done. Qed.
Lemma cms_app l1 l2 : cms (l1 ++ l2) = cms l1 ++ cms l2.
Proof. unfold cms. by rewrite fmap_app, concat_app. Qed.
Lemma len_cms l : len (cms l) = 2 * len l.
Proof.
  induction l as [|x l IH]; [done|]. change (cms (x :: l)) with (slot_commitments x ++ cms l).
  rewrite len_app, len_cons, IH. unfold len; cbn [slot_commitments length]. lia.
Qed.

Lemma elem_of_nulls n l : n ∈ nulls l ↔ ∃ slot, slot ∈ l ∧ n ∈ slot_nullifiers slot.
Proof.
  induction l as [|x l IH]; [set_solver|].
  change (nulls (x :: l)) with (slot_nullifiers x ++ nulls l).
  rewrite elem_of_app, IH. setoid_rewrite elem_of_cons. split.
  - intros [?|(slot & ? & ?)]; [exists x|exists slot]; auto.
  - intros (slot & [->|?] & ?); [by left|right; by exists slot].
Qed.

(** All slots, when every flag is set. *)
Lemma chosen_all segs flags :
  length flags = length segs → Forall (λ f, f = true) flags →
  chosen segs flags = concat (sg_slots <$> segs).
Proof.
  unfold chosen. generalize 0. revert flags.
  induction segs as [|seg segs IH]; intros [|f flags] off Hlen HF; try done.
  inversion HF; subst. cbn [placed]. rewrite fmap_app, place_snd, IH; [done| |done]. cbn in Hlen. lia.
Qed.
End Placed.
#[export] Hint Rewrite @len_app nulls_app cms_app len_cms len_place place_snd : qnero.

(** ** The walk *)
Section Walk.
Context {T E C D F : Type}.
Context `{ZkCommitmentRecorder T E, Currency C D, PoseidonOps, SpOps, FieldOps F, PlonkyOps F}.
Abbreviation Config' := (Config QneroPrivateBatchVerifier QneroPublicBatchVerifier).
Implicit Types (s : Pool T C) (cfg : Config') (sys : System) (w : Walk) (outputs : list ShieldedOutput).

(** What the plan has checked of a slot that settles, at its position. *)
Definition slot_ok cfg outputs (p : Z * RealSlot) : Prop :=
  rs_fee p.2 ≤ MAX_VALUE ∧
  Forall (λ cm, cm ≠ zero_hash) (slot_commitments p.2) ∧
  Forall (λ n, n ≠ zero_hash) (slot_nullifiers p.2) ∧
  0 ≤ p.1 ∧
  ∃ o, outputs !! Z.to_nat p.1 = Some o ∧ ct_1 o ≠ [] ∧ ct_2 o ≠ [] ∧
    fee_floor cfg (MinLeafFee cfg) (output_bytes o) ≤ rs_fee p.2.

Record walked cfg s outputs (ps : list (Z * RealSlot)) w : Prop := {
  wk_slots : wslots w = len ps;
  wk_fee : fee_steps w = sum_by (λ p, rs_fee p.2) ps;
  wk_claimed : ∀ n, n ∈ claimed w ↔ n ∈ nulls ps.*2;
  wk_nodup : NoDup (nulls ps.*2);
  wk_fresh : ∀ n, n ∈ nulls ps.*2 → n ∉ UsedNullifiers s;
  wk_ok : Forall (slot_ok cfg outputs) ps;
  wk_real : 0 ≤ wreal_slots w ≤ u_max usize_bits;
}.

(** Claiming two nullifiers in a row. *)
Lemma claim_nullifiers_spec cl cl' ns :
  fold_result claim_nullifier cl ns = Ok cl' →
  NoDup ns ∧ (∀ n, n ∈ ns → n ∉ cl) ∧ Forall (λ n, n ≠ zero_hash) ns ∧
  (∀ n, n ∈ cl' ↔ n ∈ ns ∨ n ∈ cl).
Proof.
  revert cl. induction ns as [|n ns IH]; intros cl Hf.
  { cbn in Hf. injection Hf as <-. split_and!; [constructor|by intros ? ?%elem_of_nil|constructor|].
    intros n. rewrite elem_of_nil. naive_solver. }
  cbn in Hf. res_inv.
  match goal with H : claim_nullifier _ _ = Ok _ |- _ => unfold claim_nullifier in H end.
  res_inv. subst. apply IH in Hf as (Hnd & Hni & Hz & Hcl).
  assert (Hni' : ∀ m, m ∈ ns → m ≠ n ∧ m ∉ cl).
  { intros m Hm. apply Hni in Hm. rewrite elem_of_union, elem_of_singleton in Hm. naive_solver. }
  split_and!.
  - constructor; [|done]. intros Hin. by apply Hni' in Hin as [].
  - intros m [->|Hm]%elem_of_cons; [done|]. by apply Hni' in Hm as [].
  - by constructor.
  - intros m. rewrite Hcl, elem_of_union, elem_of_singleton, elem_of_cons. tauto.
Qed.

Lemma plan_slot_walked cfg s outputs ps w slot w' :
  walked cfg s outputs ps w → (∀ n, n ∈ slot_nullifiers slot → n ∉ UsedNullifiers s) →
  plan_slot cfg outputs w slot = Ok w' →
  walked cfg s outputs (ps ++ [(wreal_slots w, slot)]) w' ∧
  wreal_slots w' = wreal_slots w + 1 ∧ skipped_slots w' = skipped_slots w ∧
  settles w' = settles w ∧ stale_anchor w' = stale_anchor w.
Proof.
  intros [] Hfresh Hp. unfold plan_slot in Hp. res_inv.
  repeat match goal with
  | H : checked_add _ _ _ = Some _ |- _ => apply checked_add_Some in H as [-> ?]
  | H : all_ok _ _ = Ok tt |- _ => apply all_ok_Ok in H
  | H : fold_result claim_nullifier _ _ = Ok _ |- _ => apply claim_nullifiers_spec in H as (?&?&?&Hcl)
  end.
  subst w'. cbn [wreal_slots skipped_slots settles stale_anchor]. split; [|done].
  constructor; cbn [wslots fee_steps claimed wreal_slots];
    rewrite ?fmap_app, ?nulls_app, ?(nulls_one _ slot).
  - rewrite len_app, wk_slots0. done.
  - rewrite sum_by_app, wk_fee0, sum_by_cons. change (sum_by _ []) with 0. cbn. lia.
  - intros n. rewrite Hcl, elem_of_app, wk_claimed0. tauto.
  - apply NoDup_app. split; [done|]. split; [|done]. intros n Hn Hn'. rewrite <- wk_claimed0 in Hn. naive_solver.
  - intros n [?|Hn]%elem_of_app; auto.
  - apply Forall_app. split; [done|]. apply Forall_singleton. split_and!; [done| |done|apply wk_real0|].
    + match goal with H : Forall _ (slot_commitments slot) |- _ => revert H end.
      apply Forall_mono. intros cm Hcm. by res_inv.
    + eexists. split; [done|]. done.
  - lia.
Qed.

Lemma plan_slots_walked cfg s outputs slots ps w w' :
  walked cfg s outputs ps w → (∀ n, n ∈ nulls slots → n ∉ UsedNullifiers s) →
  fold_result (plan_slot cfg outputs) w slots = Ok w' →
  walked cfg s outputs (ps ++ place (wreal_slots w) slots) w' ∧
  wreal_slots w' = wreal_slots w + len slots ∧ skipped_slots w' = skipped_slots w ∧
  settles w' = settles w ∧ stale_anchor w' = stale_anchor w.
Proof.
  intros Hw Hfresh Hf. revert w ps Hw Hf. induction slots as [|slot slots IH]; intros w ps Hw Hf.
  { cbn in Hf. injection Hf as <-. unfold place; cbn. rewrite app_nil_r. unfold len; cbn.
    split_and!; [done|lia|done..]. }
  cbn in Hf. res_inv.
  match goal with H : plan_slot _ _ _ _ = Ok _ |- _ => eapply plan_slot_walked in H as (Hw' & Hr & Hs & Hse & Hst) end;
    [|done|].
  2: { intros n Hn. apply Hfresh, elem_of_nulls. exists slot. set_solver. }
  destruct (IH (λ n Hn, Hfresh n ltac:(apply elem_of_app; right; exact Hn)) _ _ Hw' Hf)
    as (Hw'' & Hr' & Hs' & Hse' & Hst').
  rewrite place_cons, len_cons. rewrite <- app_assoc in Hw''. cbn [app] in Hw''. rewrite Hr in Hw''.
  split_and!; [done|lia|congruence..].
Qed.

(** Why a segment settles or is skipped. *)
Definition flag_ok cfg sys s (cl : gset Hash256) (seg : Segment) (f : bool) : Prop :=
  sg_slots seg ≠ [] ∧
  if f then anchor_failure sys seg (sys_block_number sys) (BlockHashWindow cfg) = None
  else (∃ n, n ∈ nulls (sg_slots seg) ∧ (n ∈ UsedNullifiers s ∨ n ∈ cl)) ∨
       anchor_failure sys seg (sys_block_number sys) (BlockHashWindow cfg) ≠ None.

Record walk_inv cfg sys s outputs (pre : list Segment) w : Prop := {
  wv_walked : walked cfg s outputs (placed 0 pre (settles w)) w;
  wv_len : length (settles w) = length pre;
  wv_real : wreal_slots w = total_slots pre;
  wv_count : wslots w + skipped_slots w = total_slots pre;
  wv_skipped : 0 ≤ skipped_slots w;
  wv_flags : Forall2 (flag_ok cfg sys s (claimed w)) pre (settles w);
}.

Lemma flag_ok_mono cfg sys s (cl cl' : gset Hash256) segs flags :
  (∀ n, n ∈ cl → n ∈ cl') → Forall2 (flag_ok cfg sys s cl) segs flags →
  Forall2 (flag_ok cfg sys s cl') segs flags.
Proof.
  intros Hcl. induction 1 as [|seg f segs flags [Hne Hf] _ IH]; constructor; [|done].
  split; [done|]. destruct f; [done|]. destruct Hf as [(n & ? & ?)|]; [left; exists n|by right].
  naive_solver.
Qed.

Lemma conflicts_spec s w seg :
  conflicts s w seg = true ↔
    ∃ n, n ∈ nulls (sg_slots seg) ∧ (n ∈ UsedNullifiers s ∨ n ∈ claimed w).
Proof.
  unfold conflicts. rewrite existsb_exists. setoid_rewrite existsb_exists.
  setoid_rewrite elem_of_nulls. setoid_rewrite orb_true_iff. setoid_rewrite bool_decide_eq_true.
  setoid_rewrite <- list_elem_of_In. naive_solver.
Qed.

Lemma skip_segment_spec cfg sys s w seg skipped stale :
  skip_segment cfg sys s w seg = (skipped, stale) → sg_slots seg ≠ [] →
  flag_ok cfg sys s (claimed w) seg (negb skipped) ∧
  (skipped = false → ∀ n, n ∈ nulls (sg_slots seg) → n ∉ UsedNullifiers s).
Proof.
  unfold skip_segment, flag_ok. intros Hs Hne. pose proof (conflicts_spec s w seg) as Hc.
  destruct (conflicts s w seg).
  - injection Hs as <- <-. naive_solver.
  - destruct (anchor_failure _ _ _ _) eqn:Ea; injection Hs as <- <-; cbn [negb].
    + split; [|done]. split; [done|]. right. done.
    + split; [done|]. intros _ n Hn Hu. enough (false = true) by done. apply Hc. eauto.
Qed.

Lemma plan_segment_inv cfg sys s outputs pre w seg w' :
  walk_inv cfg sys s outputs pre w → plan_segment cfg sys s outputs w seg = Ok w' →
  walk_inv cfg sys s outputs (pre ++ [seg]) w'.
Proof.
  intros [Hw Hlen Hreal Hcount Hskip Hflags] Hp. unfold plan_segment in Hp. res_inv.
  destruct (skip_segment cfg sys s w seg) as [skipped stale] eqn:Es.
  apply skip_segment_spec in Es as [Hf Hfresh]; [|done]. destruct skipped.
  - res_inv. destruct (try_u 32 (len (sg_slots seg))) as [cnt|] eqn:Et; [|done].
    cbn in *. apply try_u_Some in Et as [-> _].
    repeat match goal with H : checked_add _ _ _ = Some _ |- _ => apply checked_add_Some in H as [-> ?] end.
    subst w'. constructor; cbn [settles wreal_slots wslots skipped_slots claimed].
    + rewrite placed_snoc, app_nil_r by done. destruct Hw. constructor; cbn; auto.
      pose proof (len_nonneg (sg_slots seg)). lia.
    + rewrite !length_app, Hlen. done.
    + rewrite total_slots_snoc. lia.
    + rewrite total_slots_snoc. lia.
    + pose proof (len_nonneg (sg_slots seg)). lia.
    + apply Forall2_app; [done|]. by constructor.
  - eapply plan_slots_walked in Hp as (Hw' & Hr & Hsk & Hse & _); cbn [wreal_slots settles skipped_slots] in *.
    2: { destruct Hw. constructor; cbn; eauto. }
    2: { by apply Hfresh. }
    assert (Eplaced : placed 0 (pre ++ [seg]) (settles w') =
              placed 0 pre (settles w) ++ place (wreal_slots w) (sg_slots seg)).
    { rewrite Hse, placed_snoc, Hreal by done. done. }
    constructor.
    + by rewrite Eplaced.
    + rewrite Hse, !length_app, Hlen. done.
    + rewrite total_slots_snoc. lia.
    + rewrite total_slots_snoc, Hsk, (wk_slots _ _ _ _ _ Hw'), len_app, len_place.
      rewrite (wk_slots _ _ _ _ _ Hw) in Hcount. lia.
    + by rewrite Hsk.
    + assert (Hmono : ∀ n, n ∈ claimed w → n ∈ claimed w').
      { intros n. rewrite (wk_claimed _ _ _ _ _ Hw), (wk_claimed _ _ _ _ _ Hw').
        rewrite fmap_app, nulls_app, elem_of_app. auto. }
      rewrite Hse. apply Forall2_app; [by eapply flag_ok_mono|]. constructor; [done|constructor].
Qed.

Lemma plan_walk_inv cfg sys s b outputs w :
  plan_walk cfg sys s b outputs = Ok w →
  walk_inv cfg sys s outputs (segments b) w ∧ all_ok check_output outputs = Ok tt.
Proof.
  unfold plan_walk. intros Hp. res_inv. split; [|done].
  eapply (fold_result_inv (walk_inv cfg sys s outputs)) in Hp; [done| |].
  - constructor; cbn; try done. constructor; cbn; [done|done| |constructor| |constructor|done].
    + intros n. unfold nulls; cbn. rewrite elem_of_nil. set_solver.
    + intros n Hn. by apply elem_of_nil in Hn.
  - intros pre seg w1 w2 Hi Hs _. by eapply plan_segment_inv.
Qed.

(** A plan, taken apart. *)
Lemma plan_settlement_inv cfg sys s b outputs p :
  plan_settlement cfg sys s b outputs = Ok p →
  ∃ w, plan_walk cfg sys s b outputs = Ok w ∧ walk_inv cfg sys s outputs (segments b) w ∧
    plan_finish cfg sys s outputs w = Ok p ∧
    pl_settles p = settles w ∧ pl_slots p = wslots w ∧ pl_fee_steps p = fee_steps w ∧
    pl_skipped_slots p = skipped_slots w.
Proof.
  unfold plan_settlement. intros Hp. apply bind_Ok in Hp as (w & Hw & Hf). exists w.
  split; [done|]. split; [by eapply plan_walk_inv|]. split; [done|].
  unfold plan_finish in Hf. res_inv. by subst p.
Qed.

Lemma walk_slots_bound cfg sys s outputs segs w :
  walk_inv cfg sys s outputs segs w → 0 ≤ wslots w ≤ u_max 32 ∧ total_slots segs ≤ u_max usize_bits.
Proof.
  intros []. pose proof (len_nonneg (placed 0 segs (settles w))).
  destruct wv_walked0. change usize_bits with 32 in *. lia.
Qed.
End Walk.
