(* ===== verification/ShieldedSettle.v ===== *)
(** * What a settlement writes

    The effect of [settle]'s loop, one placed slot at a time; that the loop
    cannot fail once the plan holds; and the fee accounting after it. *)

From stdpp Require Import base list numbers gmap sets sorting.
From S2P Require Import Prelude Crypto NoteRules Verifier Interfaces ZkTree Shielded ShieldedPlan.
#[local] Open Scope Z_scope.

(** The nullifiers an event log announces as spent. *)
Definition event_nulls_of (e : Event) : list Hash256 :=
  match e with SlotSettled ns _ _ _ => [ns.1; ns.2] | _ => [] end.
Definition event_nulls (es : list Event) : list Hash256 := concat (event_nulls_of <$> es).

Lemma event_nulls_snoc es e : event_nulls (es ++ [e]) = event_nulls es ++ event_nulls_of e.
Proof. unfold event_nulls. rewrite fmap_app, concat_app. cbn. by rewrite app_nil_r. Qed.

(** What it announces of each settled slot: nullifiers, commitments and the
    leaf indices they took. *)
Definition event_slots_of (e : Event) : list ((Hash256 * Hash256) * (Hash256 * Hash256) * (Z * Z)) :=
  match e with SlotSettled ns cs ix _ => [(ns, cs, ix)] | _ => [] end.
Definition event_slots (es : list Event) := concat (event_slots_of <$> es).

Lemma event_slots_snoc es e : event_slots (es ++ [e]) = event_slots es ++ event_slots_of e.
Proof. unfold event_slots. rewrite fmap_app, concat_app. cbn. by rewrite app_nil_r. Qed.

(** The announcements due for slots settled from leaf index [base] on. *)
Definition announced (base : Z) (slots : list RealSlot) :=
  imap (λ k slot, (rs_nullifiers slot, rs_commitments slot,
                   (base + 2 * Z.of_nat k, base + 2 * Z.of_nat k + 1))) slots.

Lemma announced_snoc base slots slot :
  announced base (slots ++ [slot]) = announced base slots ++
    [(rs_nullifiers slot, rs_commitments slot, (base + 2 * len slots, base + 2 * len slots + 1))].
Proof. unfold announced. rewrite imap_app. cbn. by rewrite Nat.add_0_r. Qed.

(** Every commitment of the bundle is a sponge output's shape, as the felts
    of a parsed proof give it. *)
Definition bundle_wf (b : SettlementBundle) : Prop :=
  ∀ slot, slot ∈ real_slots b → Forall good_hash (slot_commitments slot) ∧ 0 ≤ rs_fee slot.

Section Settle.
Context {T E C D F : Type}.
Context `{ZkCommitmentRecorder T E, !ZkCommitmentRecorderLaws T E, Currency C D}.
Context `{PoseidonOps, SpOps, FieldOps F, PlonkyOps F}.
Abbreviation Config' := (Config QneroPrivateBatchVerifier QneroPublicBatchVerifier).
Implicit Types (s : Pool T C) (cfg : Config') (sys : System) (outputs : list ShieldedOutput).

(** ** One slot at a time *)
Definition settle_placed sys outputs s (p : Z * RealSlot) : result (DispatchError E D) (Pool T C) :=
  r ← settle_slot sys outputs (s, p.1) p.2; Ok r.1.

Lemma settle_slot_index sys outputs s i slot r :
  settle_slot (E := E) (D := D) sys outputs (s, i) slot = Ok r → r.2 = i + 1.
Proof. unfold settle_slot. intros Hs. res_inv. by subst r. Qed.

Lemma settle_slots_placed sys outputs slots s i :
  fold_result (settle_slot (E := E) (D := D) sys outputs) (s, i) slots =
    (s' ← fold_result (settle_placed sys outputs) s (place i slots); Ok (s', i + len slots)).
Proof.
  revert s i. induction slots as [|slot slots IH]; intros s i.
  { cbn. unfold len; cbn. by rewrite Z.add_0_r. }
  rewrite place_cons, len_cons. cbn [fold_result]. unfold settle_placed at 2. cbn [fst snd].
  destruct (settle_slot sys outputs (s, i) slot) as [[s1 i1]|e] eqn:Es; cbn; [|done].
  apply settle_slot_index in Es. cbn in Es. subst i1. rewrite IH. by rewrite Z.add_assoc.
Qed.

(** The segment loop walks exactly the placed slots. *)
Lemma settle_segments_placed sys outputs segs flags s i :
  length flags = length segs → 0 ≤ i → i + total_slots segs ≤ u_max usize_bits →
  fold_result (settle_segment (E := E) (D := D) sys outputs) (s, i) (zip segs flags) =
    (s' ← fold_result (settle_placed sys outputs) s (placed i segs flags);
     Ok (s', i + total_slots segs)).
Proof.
  revert flags s i. induction segs as [|seg segs IH]; intros [|f flags] s i Hlen Hi Hb; try done.
  { unfold total_slots, len; cbn. by rewrite Z.add_0_r. }
  rewrite total_slots_cons in *. pose proof (len_nonneg (sg_slots seg)).
  assert (0 ≤ total_slots segs) by apply len_nonneg.
  cbn [zip zip_with fold_result placed]. destruct f.
  - change (settle_segment (E := E) (D := D) sys outputs (s, i) (seg, true)) with
      (fold_result (settle_slot (E := E) (D := D) sys outputs) (s, i) (sg_slots seg)).
    rewrite settle_slots_placed, fold_result_app.
    destruct (fold_result _ s (place i (sg_slots seg))) as [s1|e]; cbn; [|done].
    rewrite IH by (cbn in Hlen; lia). by rewrite Z.add_assoc.
  - change (settle_segment (E := E) (D := D) sys outputs (s, i) (seg, false)) with
      (Ok (E := DispatchError E D) (s, sat_add usize_bits i (len (sg_slots seg)))).
    cbn [mbind result_bind app]. rewrite sat_add_exact by lia.
    rewrite IH by (cbn in Hlen; lia). by rewrite Z.add_assoc.
Qed.

(** ** The effect *)
Record settled_effect sys s (ps : list (Z * RealSlot)) s' : Prop := {
  se_inv : recorder_inv (ZkTreeState s');
  se_used : ∀ n, n ∈ UsedNullifiers s' ↔ n ∈ nulls ps.*2 ∨ n ∈ UsedNullifiers s;
  se_count : leaf_count (ZkTreeState s') = leaf_count (ZkTreeState s) + 2 * len ps;
  se_capacity : remaining_capacity (ZkTreeState s') = remaining_capacity (ZkTreeState s) - 2 * len ps;
  (** The commitments are the new leaves, in order, and no other leaf moves. *)
  se_leaves : ∀ j, leaf_at (ZkTreeState s') j =
    if decide (leaf_count (ZkTreeState s) ≤ j < leaf_count (ZkTreeState s) + 2 * len ps)
    then cms ps.*2 !! Z.to_nat (j - leaf_count (ZkTreeState s))
    else leaf_at (ZkTreeState s) j;
  se_events : event_nulls (events s') = event_nulls (events s) ++ nulls ps.*2;
  se_outputs : outputs_written_this_block sys s + 2 * len ps ≤ u_max 32 →
    outputs_written_this_block sys s' = outputs_written_this_block sys s + 2 * len ps;
  se_coinbase : PendingCoinbase s' = PendingCoinbase s;
  se_values : CoinbaseValues s' = CoinbaseValues s;
  se_entries : EntryCount s' = EntryCount s;
  se_currency : CurrencyState s' = CurrencyState s;
  (** Every new leaf, and no other, is dated to this block. *)
  se_blocks : ∀ j, LeafBlocks s' !! j =
    if decide (leaf_count (ZkTreeState s) ≤ j < leaf_count (ZkTreeState s) + 2 * len ps)
    then Some (sys_block_number sys) else LeafBlocks s !! j;
  se_slots : event_slots (events s') =
    event_slots (events s) ++ announced (leaf_count (ZkTreeState s)) ps.*2;
}.

(** The loop itself moves no value. *)
Definition loop_effect sys s (ps : list (Z * RealSlot)) s' : Prop :=
  settled_effect sys s ps s' ∧ PoolValue s' = PoolValue s ∧ PendingCoinbaseFee s' = PendingCoinbaseFee s.

Lemma tree_insert_Ok s cm r :
  tree_insert (E := E) (D := D) s cm = Ok r → recorder_inv (ZkTreeState s) → is_digest cm →
  ∃ t, r = (put_tree t s, leaf_count (ZkTreeState s)) ∧ recorder_inv t ∧
    leaf_count t = leaf_count (ZkTreeState s) + 1 ∧
    remaining_capacity t = remaining_capacity (ZkTreeState s) - 1 ∧
    ∀ j, leaf_at t j = if decide (j = leaf_count (ZkTreeState s)) then Some cm
                       else leaf_at (ZkTreeState s) j.
Proof.
  unfold tree_insert. intros Hi Hinv Hd. res_inv. destruct v as [t i]. cbn in *.
  match goal with H : insert_commitment _ _ = Ok _ |- _ => apply insert_commitment_Ok in H as (? & -> & ? & ? & ? & ?) end; [|done..].
  exists t. subst r. split_and!; try done. intros j. destruct decide as [->|]; auto.
Qed.

Lemma record_outputs_put sys k s :
  record_outputs sys k s = put_outputs (OutputsWrittenThisBlock (record_outputs sys k s)) s.
Proof. unfold record_outputs. by destruct (OutputsWrittenThisBlock s). Qed.

Lemma outputs_written_record sys s k :
  outputs_written_this_block sys s + k ≤ u_max 32 → 0 ≤ k →
  outputs_written_this_block sys (record_outputs sys k s) = outputs_written_this_block sys s + k.
Proof.
  unfold outputs_written_this_block, record_outputs.
  destruct (OutputsWrittenThisBlock s) as [blk wr]. intros Hb Hk. cbn [OutputsWrittenThisBlock put_outputs].
  rewrite Z.eqb_refl. destruct (Z.eqb_spec blk (sys_block_number sys)); [|by rewrite Z.add_0_l].
  by rewrite sat_add_exact.
Qed.

Lemma settle_placed_effect sys outputs s ps s1 p s2 :
  loop_effect sys s ps s1 → Forall good_hash (slot_commitments p.2) →
  settle_placed sys outputs s1 p = Ok s2 → loop_effect sys s (ps ++ [p]) s2.
Proof.
  intros [Hse Hmoney] Hgood Hs. destruct p as [i slot]. cbn [fst snd] in *.
  apply Forall_cons in Hgood as [[Hd1 _] Hgood]. apply Forall_cons in Hgood as [[Hd2 _] _].
  unfold settle_placed, settle_slot in Hs. cbn [fst snd] in Hs.
  set (s0 := foldl (λ s n, put_nullifier n s) s1 (slot_nullifiers slot)) in Hs.
  apply bind_Ok in Hs as (r & Hs & Er). apply bind_Ok in Hs as (o & Ho & Hs).
  apply bind_Ok in Hs as (r1 & H1' & Hs). apply bind_Ok in Hs as (r2 & H2' & Hs).
  apply tree_insert_Ok in H1' as (t1 & -> & Hi1 & Hc1 & Hr1 & Hl1); [|apply Hse|done].
  cbn [fst snd] in *.
  apply tree_insert_Ok in H2' as (t2 & -> & Hi2 & Hc2 & Hr2 & Hl2); [|done..].
  cbn [fst snd ZkTreeState put_tree] in *. injection Hs as <-. cbn [fst] in Er. injection Er as <-.
  change (ZkTreeState s0) with (ZkTreeState s1) in *.
  destruct Hse as [Hinv Hused Hcount Hcap Hleaves Hev Hout Hcb Hvals Hent Hcur Hblocks Hslots].
  assert (El : len (ps ++ [(i, slot)]) = len ps + 1) by (by rewrite len_app).
  assert (En : nulls (ps ++ [(i, slot)]).*2 = nulls ps.*2 ++ slot_nullifiers slot)
    by (by rewrite fmap_app, nulls_app, nulls_one).
  rewrite (record_outputs_put sys 2). split; [|done].
  constructor; rewrite ?El, ?En; cbn -[len Z.mul event_nulls event_slots outputs_written_this_block record_outputs];
    [done| |lia|lia| | | |done|done|done|done| |].
  - intros n. rewrite elem_of_app, !elem_of_union, !elem_of_singleton, Hused.
    unfold slot_nullifiers. rewrite !elem_of_cons, elem_of_nil. tauto.
  - intros j. rewrite Hl2, Hl1, Hleaves, Hc1, Hcount, fmap_app, cms_app.
    assert (Elc : Z.of_nat (length (cms ps.*2)) = 2 * len ps).
    { change (len (cms ps.*2) = 2 * len ps). rewrite len_cms. unfold len. by rewrite length_fmap. }
    repeat case_decide; try lia; try done.
    + rewrite lookup_app_r by lia.
      replace (Z.to_nat _ - length (cms ps.*2))%nat with 1%nat by lia. done.
    + rewrite lookup_app_r by lia.
      replace (Z.to_nat _ - length (cms ps.*2))%nat with 0%nat by lia. done.
    + rewrite lookup_app_l by lia. done.
  - rewrite event_nulls_snoc, Hev, <- app_assoc. done.
  - intros Hb. pose proof (len_nonneg ps).
    assert (E0 : outputs_written_this_block sys (put_tree t2 (put_tree t1 s0)) =
                 outputs_written_this_block sys s + 2 * len ps) by (apply Hout; lia).
    etrans; [apply (outputs_written_record sys (put_tree t2 (put_tree t1 s0)))|]; lia.
  - intros j. rewrite Hc1. change (ZkTreeState s0) with (ZkTreeState s1). rewrite Hcount.
    pose proof (len_nonneg ps). rewrite !lookup_insert. unfold s0; cbn. rewrite Hblocks.
    repeat case_decide; (done || lia).
  - rewrite event_slots_snoc, Hslots, fmap_app. cbn -[len Z.mul]. rewrite announced_snoc, <- app_assoc.
    assert (len ps.*2 = len ps) as -> by (unfold len; by rewrite length_fmap).
    rewrite Hc1. change (ZkTreeState s0) with (ZkTreeState s1). by rewrite Hcount.
Qed.

Lemma settle_placed_all sys outputs s ps s' :
  recorder_inv (ZkTreeState s) → Forall (λ p, Forall good_hash (slot_commitments p.2)) ps →
  fold_result (settle_placed sys outputs) s ps = Ok s' → loop_effect sys s ps s'.
Proof.
  intros Hinv HF Hf. eapply (fold_result_inv (loop_effect sys s)) in Hf; [done| |].
  - split; [|done]. constructor; change (len []) with 0; rewrite ?Z.mul_0_r, ?Z.sub_0_r, ?Z.add_0_r; try done.
    + intros n. change (nulls [].*2) with (@nil Hash256). rewrite elem_of_nil. tauto.
    + intros j. rewrite decide_False by lia. done.
    + symmetry. apply app_nil_r.
    + intros j. rewrite decide_False by lia. done.
    + symmetry. apply app_nil_r.
  - intros pre p s1 s2 Hi Hs Hin. eapply settle_placed_effect; [done| |done].
    by eapply (proj1 (Forall_forall _ _) HF).
Qed.

(** ** Progress *)
Lemma tree_insert_total s cm :
  recorder_inv (ZkTreeState s) → is_digest cm → canonical_limbs cm = true → cm ≠ zero_hash →
  0 < remaining_capacity (ZkTreeState s) → ∃ r, tree_insert (E := E) (D := D) s cm = Ok r.
Proof.
  intros Hinv Hd Hk Hne Hcap. unfold tree_insert.
  destruct (insert_commitment_total (T := T) (E := E) (ZkTreeState s) cm) as (t & i & ->); [done..|].
  by eexists.
Qed.

Lemma settle_placed_total sys outputs s p :
  recorder_inv (ZkTreeState s) → 2 ≤ remaining_capacity (ZkTreeState s) →
  Forall good_hash (slot_commitments p.2) → Forall (λ cm, cm ≠ zero_hash) (slot_commitments p.2) →
  is_Some (outputs !! Z.to_nat p.1) →
  ∃ s', settle_placed sys outputs s p = Ok s'.
Proof.
  intros Hinv Hcap Hgood Hnz [o Ho]. destruct p as [i slot]. cbn [fst snd] in *.
  apply Forall_cons in Hgood as [[Hd1 Hk1] Hgood]. apply Forall_cons in Hgood as [[Hd2 Hk2] _].
  apply Forall_cons in Hnz as [Hn1 Hnz]. apply Forall_cons in Hnz as [Hn2 _].
  unfold settle_placed, settle_slot. cbn [fst snd]. rewrite Ho. cbn [ok_or mbind result_bind].
  set (s0 := foldl _ s _).
  destruct (tree_insert_total s0 (rs_commitments slot).1) as (r1 & E1); [done..|change (ZkTreeState s0) with (ZkTreeState s); lia|].
  rewrite E1. cbn [mbind result_bind].
  apply tree_insert_Ok in E1 as (t1 & -> & Hinv1 & _ & Hr1 & _); [|done..].
  change (ZkTreeState s0) with (ZkTreeState s) in Hr1. cbn [fst].
  destruct (tree_insert_total (put_tree t1 s0) (rs_commitments slot).2) as (r2 & ->); [done..|cbn; lia|].
  by eexists.
Qed.

Lemma settle_all_total cfg sys outputs s ps :
  recorder_inv (ZkTreeState s) → 2 * len ps ≤ remaining_capacity (ZkTreeState s) →
  Forall (λ p, Forall good_hash (slot_commitments p.2)) ps → Forall (slot_ok cfg outputs) ps →
  ∃ s', fold_result (settle_placed sys outputs) s ps = Ok s'.
Proof.
  intros Hinv Hcap HF Hok.
  destruct (fold_result_total (loop_effect sys s) (settle_placed sys outputs) ps s)
    as (s' & Hs' & _); [| |by exists s'].
  - by apply (settle_placed_all sys outputs s []).
  - intros pre p s1 Hse [rest Hpre]. subst ps.
    rewrite !Forall_app, !Forall_singleton in HF, Hok. destruct HF as [[_ Hg] _].
    destruct Hok as [[_ (_ & Hz & _ & _ & o & Ho & _)] _]. rewrite !len_app in Hcap.
    pose proof (len_nonneg rest). change (len [p]) with 1 in Hcap.
    destruct (settle_placed_total sys outputs s1 p) as (s2 & E2).
    + apply Hse.
    + rewrite (se_capacity _ _ _ _ (proj1 Hse)). lia.
    + done.
    + done.
    + by eexists.
    + exists s2. split; [done|]. by eapply settle_placed_effect.
Qed.

(** ** Fees *)
Lemma fee_planck_Ok n v : fee_planck n = Ok v ↔ v = n * POOL_STEP ∧ n * POOL_STEP ≤ u_max 128.
Proof.
  unfold fee_planck. rewrite bind_Ok. setoid_rewrite ok_or_Ok. setoid_rewrite checked_mul_Some.
  setoid_rewrite try_u_Some. naive_solver.
Qed.

(** What the author is credited for a fee, in steps. *)
Definition burn_steps cfg (steps : Z) : Z := div_ceil (FeeBurnRate cfg * steps) 1000000.
Definition valid_rate cfg : Prop := 0 ≤ FeeBurnRate cfg ≤ 1000000.

Lemma burn_steps_bound cfg steps :
  valid_rate cfg → 0 ≤ steps → 0 ≤ burn_steps cfg steps ≤ steps.
Proof.
  intros Hr Hs. unfold burn_steps, valid_rate in *. split; [apply div_ceil_nonneg; nia|].
  apply div_ceil_spec; nia.
Qed.

(** Everything but the value fields and the log is as before. *)
Definition same_ledger s s' : Prop :=
  UsedNullifiers s' = UsedNullifiers s ∧ ZkTreeState s' = ZkTreeState s ∧
  CurrencyState s' = CurrencyState s ∧ CoinbaseValues s' = CoinbaseValues s ∧
  OutputsWrittenThisBlock s' = OutputsWrittenThisBlock s ∧ LeafBlocks s' = LeafBlocks s ∧
  PendingCoinbase s' = PendingCoinbase s ∧ EntryCount s' = EntryCount s ∧
  event_nulls (events s') = event_nulls (events s) ∧ event_slots (events s') = event_slots (events s).

Definition fee_paid cfg s (steps : Z) s' : Prop :=
  PoolValue s' = PoolValue s - steps * POOL_STEP ∧
  PendingCoinbaseFee s' =
    (let author := (steps - burn_steps cfg steps) * POOL_STEP in
     if author =? 0 then PendingCoinbaseFee s else sat_add 128 (PendingCoinbaseFee s) author).

Lemma account_fee_spec `{!SpLaws} cfg s steps :
  valid_rate cfg → 0 ≤ steps → steps * POOL_STEP ≤ PoolValue s ≤ u_max 128 →
  ∃ s', account_fee (E := E) (D := D) cfg s steps = Ok (s', steps * POOL_STEP) ∧
    fee_paid cfg s steps s' ∧ same_ledger s s'.
Proof.
  intros Hr Hs Hpool. pose proof (burn_steps_bound cfg steps Hr Hs) as Hb.
  unfold account_fee, fee_paid, same_ledger. destruct (Z.eqb_spec steps 0) as [->|Hnz].
  { exists s. assert (burn_steps cfg 0 = 0) as -> by lia. cbn. rewrite Z.sub_0_r. done. }
  rewrite (proj2 (fee_planck_Ok steps (steps * POOL_STEP))) by (split; [done|lia]).
  cbn [lift map_err mbind result_bind].
  rewrite (proj2 (checked_sub_Some _ _ (PoolValue s - steps * POOL_STEP))) by (split; [done|lia]).
  cbn [lift map_err ok_or mbind result_bind].
  rewrite mul_ceil_spec by (apply Hr || lia). fold (burn_steps cfg steps).
  rewrite sat_sub_exact by lia. unfold POOL_STEP in *.
  destruct (Z.eqb_spec (steps - burn_steps cfg steps) 0) as [E0|E0].
  - eexists. split; [done|]. cbn. rewrite E0. done.
  - rewrite (proj2 (fee_planck_Ok _ ((steps - burn_steps cfg steps) * POOL_STEP)))
      by (unfold POOL_STEP; split; [done|lia]).
    cbn [lift map_err mbind result_bind]. eexists. split; [done|].
    cbn -[event_nulls event_slots sat_add]. rewrite event_nulls_snoc, event_slots_snoc, !app_nil_r. unfold POOL_STEP.
    rewrite (proj2 (Z.eqb_neq _ _)) by lia. done.
Qed.

Lemma effect_ledger sys s ps s1 s2 :
  settled_effect sys s ps s1 → same_ledger s1 s2 → settled_effect sys s ps s2.
Proof.
  intros [] (Hu & Ht & Hc & Hv & Ho & Hl & Hp & He & Hn & Hs).
  constructor; rewrite ?Hu, ?Ht, ?Hc, ?Hv, ?Hl, ?Hp, ?He, ?Hn, ?Hs; try done.
  intros Hb. unfold outputs_written_this_block in *. rewrite Ho. auto.
Qed.

(** ** Whole settlements *)
Definition plan_slots (b : SettlementBundle) (p : PlannedSettlement) : list (Z * RealSlot) :=
  placed 0 (segments b) (pl_settles p).

Lemma placed_elem off segs flags i slot :
  (i, slot) ∈ placed off segs flags → slot ∈ concat (sg_slots <$> segs).
Proof.
  revert off flags. induction segs as [|seg segs IH]; intros off [|f flags] Hin;
    try (by apply elem_of_nil in Hin).
  rewrite fmap_cons, concat_cons, elem_of_app. cbn [placed] in Hin. apply elem_of_app in Hin as [Hin|Hin].
  - left. destruct f; [|by apply elem_of_nil in Hin].
    rewrite <- (place_snd off (sg_slots seg)). apply list_elem_of_fmap. by exists (i, slot).
  - right. by eapply IH.
Qed.

Lemma plan_finish_bounds cfg sys s outputs w p :
  plan_finish cfg sys s outputs w = Ok p →
  0 ≤ wslots w → wslots w ≤ u_max 32 →
  wslots w ≠ 0 ∧ len outputs = wreal_slots w ∧
  2 * wslots w + 1 ≤ remaining_capacity (ZkTreeState s) ∧
  fee_steps w * POOL_STEP ≤ PoolValue s ∧ fee_steps w * POOL_STEP ≤ u_max 128 ∧
  (∀ f, submission_floor cfg w outputs = Some f → f ≤ fee_steps w) ∧
  outputs_written_this_block sys s + sat_mul 32 (wslots w) 2 ≤ Z.min (MaxOutputsPerBlock cfg) (u_max 32).
Proof.
  unfold plan_finish, ensure_output_capacity. intros Hf H0' Hb.
  destruct (Z.eqb_spec (wslots w) 0); [done|]. res_inv.
  match goal with H : fee_planck _ = Ok _ |- _ => apply fee_planck_Ok in H as [-> ?] end.
  match goal with H : match checked_add ?a ?b ?c with _ => _ end = true |- _ =>
    destruct (checked_add a b c) eqn:Ec; [|done]; apply checked_add_Some in Ec as [-> ?] end.
  match goal with H : sat_add 64 _ 1 ≤ _ |- _ => revert H end.
  rewrite sat_mul_exact, sat_add_exact by (unfold u_max in *; lia). res_inv.
  intros. split_and!; try done; try lia. naive_solver.
Qed.

Section AfterCheck.
Context `{!SpLaws}.
Variables (cfg : Config') (sys : System) (s : Pool T C) (b : SettlementBundle)
  (outputs : list ShieldedOutput) (p : PlannedSettlement).
Hypothesis Hrate : valid_rate cfg.
Hypothesis Hinv : recorder_inv (ZkTreeState s).
Hypothesis Hwf : bundle_wf b.
Hypothesis Hpool : PoolValue s ≤ u_max 128.
Hypothesis Hcheck : check_settlement cfg sys s b outputs = Ok p.

Lemma check_plan : plan_settlement cfg sys s b outputs = Ok p ∧ bind_payload b outputs = Ok tt.
Proof using Hcheck. unfold check_settlement in Hcheck. revert Hcheck. intros Hc. res_inv. by subst. Qed.

Lemma plan_slots_good : Forall (λ q, Forall good_hash (slot_commitments q.2) ∧ 0 ≤ rs_fee q.2) (plan_slots b p).
Proof using Hwf.
  apply Forall_forall. intros [i slot] Hin. apply Hwf. unfold real_slots. by eapply placed_elem.
Qed.

Lemma plan_fee_nonneg : 0 ≤ sum_by (λ q, rs_fee q.2) (plan_slots b p).
Proof using Hwf.
  apply sum_by_nonneg. intros q Hq.
  by apply (proj1 (Forall_forall _ _) plan_slots_good) in Hq as [_ ?].
Qed.

(** Once the checks pass, every write goes through, and the result is the
    effect of the planned slots with their fees accounted. *)
Lemma settle_after_check :
  ∃ s', settle (E := E) (D := D) cfg sys s b outputs = Ok s' ∧ settled_effect sys s (plan_slots b p) s' ∧
    fee_paid cfg s (sum_by (λ q, rs_fee q.2) (plan_slots b p)) s'.
Proof using All.
  destruct check_plan as [Hplan _]. pose proof plan_fee_nonneg as Hfee.
  pose proof plan_slots_good as Hgood.
  destruct (plan_settlement_inv _ _ _ _ _ _ Hplan) as (w & _ & Hw & Hfin & Es & _ & Ef & _).
  destruct (walk_slots_bound _ _ _ _ _ _ Hw) as [Hws Htot].
  destruct (plan_finish_bounds _ _ _ _ _ _ Hfin) as (_ & _ & Hcap & Hval & _); [lia..|].
  destruct Hw as [Hwk Hlen _ _ _ _]. unfold plan_slots in *. rewrite Es in *.
  rewrite (wk_slots _ _ _ _ _ Hwk) in Hcap. rewrite (wk_fee _ _ _ _ _ Hwk) in Hval.
  destruct (settle_all_total cfg sys outputs s (placed 0 (segments b) (settles w))) as (s1 & Hs1);
    [done|lia| |apply Hwk|].
  { revert Hgood. apply Forall_mono. tauto. }
  apply settle_placed_all in Hs1 as Heff; [|done|revert Hgood; apply Forall_mono; tauto].
  destruct Heff as (Heff & Hp1 & Hp2).
  destruct (account_fee_spec cfg s1 (sum_by (λ q, rs_fee q.2) (placed 0 (segments b) (settles w))))
    as (s2 & Hacc & [Hf1 Hf2] & Hled); [done..|by rewrite Hp1|].
  unfold settle. rewrite Hcheck. cbn [lift map_err mbind result_bind].
  rewrite Es, settle_segments_placed, Hs1 by (done || lia).
  cbn [mbind result_bind fst]. rewrite Ef, (wk_fee _ _ _ _ _ Hwk), Hacc.
  eexists. split; [done|]. cbn [fst snd]. split.
  - eapply effect_ledger; [by eapply effect_ledger|]. unfold same_ledger; cbn -[event_nulls event_slots].
    by rewrite event_nulls_snoc, event_slots_snoc, !app_nil_r.
  - unfold fee_paid in *; cbn [PoolValue PendingCoinbaseFee deposit_event].
    rewrite Hp1 in Hf1. rewrite Hp2 in Hf2. done.
Qed.
End AfterCheck.

(** The other direction: a settlement that went through was planned. *)
Lemma settle_Ok_inv `{!SpLaws} cfg sys s b outputs s' :
  valid_rate cfg → recorder_inv (ZkTreeState s) → bundle_wf b → PoolValue s ≤ u_max 128 →
  settle (E := E) (D := D) cfg sys s b outputs = Ok s' →
  ∃ p, check_settlement cfg sys s b outputs = Ok p ∧ settled_effect sys s (plan_slots b p) s' ∧
    fee_paid cfg s (sum_by (λ q, rs_fee q.2) (plan_slots b p)) s'.
Proof.
  intros Hr Hi Hwf Hp Hs. destruct (check_settlement cfg sys s b outputs) as [p|e] eqn:Hc.
  - exists p. destruct (settle_after_check cfg sys s b outputs p Hr Hi Hwf Hp Hc) as (s2 & Hs2 & ? & ?).
    rewrite Hs in Hs2. injection Hs2 as <-. done.
  - unfold settle in Hs. by rewrite Hc in Hs.
Qed.
End Settle.
