(* ===== verification/ShieldedProps.v ===== *)
(** * Properties of the shielded pool

    No double spend over any history, settlements that cannot fail half way,
    the exact effect of a settlement, conservation of value, the fee floor, the
    binding of the payload, and the agreement of the transaction pool's checks
    with the dispatch. *)

From stdpp Require Import base list numbers gmap sets sorting relations.
From S2P Require Import Prelude Crypto NoteRules Layout Verifier VerifierProps Interfaces ZkTree Shielded ShieldedPlan ShieldedSettle.
#[local] Open Scope Z_scope.

Section Properties.
Context {T E C D F : Type}.
Context `{ZkCommitmentRecorder T E, !ZkCommitmentRecorderLaws T E}.
Context `{Currency C D, !CurrencyLaws C D}.
Context `{PoseidonOps, !PoseidonLaws, SpOps, !SpLaws}.
Context `{FieldOps F, !FieldLaws F, PlonkyOps F}.
Abbreviation Config' := (Config QneroPrivateBatchVerifier QneroPublicBatchVerifier).
Implicit Types (s : Pool T C) (cfg : Config') (sys : System) (outputs : list ShieldedOutput).

(** ** Bundles read from proofs are well formed *)
Lemma digest_bytes_good (d : list F) : length d = 4%nat → good_hash (digest_bytes d).
Proof.
  intros Hd. assert (Hl : length (to_canonical_u64 <$> d) = 4%nat) by (by rewrite length_fmap).
  split; [by apply digest_of_limbs_digest|]. apply digest_of_limbs_canonical; [done|].
  apply Forall_fmap, Forall_true. intros x. apply to_canonical_u64_range.
Qed.

Lemma segment_from_wf (inputs : PrivateBatchPublicInputs F) n slot :
  private_batch_wf n inputs → slot ∈ sg_slots (segment_from inputs) →
  Forall good_hash (slot_commitments slot) ∧ 0 ≤ rs_fee slot.
Proof.
  intros (_ & _ & Hs) Hin. cbn in Hin. apply list_elem_of_fmap in Hin as (sl & -> & Hin).
  apply list_elem_of_filter in Hin as [_ Hin].
  apply (proj1 (Forall_forall _ _) Hs) in Hin as (_ & _ & H1' & H2' & _).
  split; [unfold slot_commitments; rewrite !Forall_cons; cbn; auto using digest_bytes_good|]. cbn.
  pose proof (to_canonical_u64_range (fee sl)). unfold felt_u64. lia.
Qed.

Lemma from_private_wf inputs n : private_batch_wf n inputs → bundle_wf (from_private_batch (F := F) inputs).
Proof.
  intros Hw slot Hin. unfold real_slots, from_private_batch in Hin. cbn in Hin.
  destruct (is_padding inputs); cbn in Hin; [by apply elem_of_nil in Hin|].
  rewrite app_nil_r in Hin. by eapply segment_from_wf.
Qed.

Lemma from_public_wf (p : PublicBatchPublicInputs F) m n :
  public_batch_wf m n p → bundle_wf (from_public_batch p).
Proof.
  intros (_ & _ & Hb) slot Hin. unfold real_slots, from_public_batch, settleable_batches in Hin.
  cbn [segments] in Hin. revert Hin. generalize (batches p) Hb. clear Hb.
  induction l as [|i l IH]; intros Hb Hin; [by apply elem_of_nil in Hin|].
  apply Forall_cons in Hb as [Hi Hb]. rewrite filter_cons in Hin. case_decide; [|by apply IH].
  rewrite !fmap_cons, concat_cons, elem_of_app in Hin. destruct Hin as [Hin|Hin]; [by eapply segment_from_wf|].
  by apply IH.
Qed.

Lemma pre_validate_private cfg pf b :
  validate_private_batch (F := F) cfg pf = Ok b →
  pre_validate_private_batch (F := F) cfg pf = Ok b ∧ bundle_wf b.
Proof.
  unfold validate_private_batch, pre_validate_private_batch. intros Hv. res_inv.
  match goal with H : private_verify_proof_bytes _ _ = Ok _ |- _ => apply private_verify_parse in H as Hp end.
  rewrite (proj2 (Z.leb_le _ _)) by done. cbn [ensure mbind result_bind].
  match goal with H : private_batch_verifier cfg = Some _ |- _ => rewrite H end.
  cbn [ok_or mbind result_bind]. rewrite Hp. cbn. split; [by subst|].
  subst b. unfold private_parse_proof_bytes in Hp. res_inv.
  match goal with H : parse_private_batch_public_input_felts _ _ = Some _ |- _ =>
    apply parse_private_read in H as [_ Hw] end.
  by eapply from_private_wf.
Qed.

Lemma pre_validate_public cfg pf b :
  validate_public_batch (F := F) cfg pf = Ok b →
  pre_validate_public_batch (F := F) cfg pf = Ok b ∧ bundle_wf b.
Proof.
  unfold validate_public_batch, pre_validate_public_batch. intros Hv. res_inv.
  match goal with H : public_verify_proof_bytes _ _ = Ok _ |- _ => apply public_verify_parse in H as Hp end.
  rewrite (proj2 (Z.leb_le _ _)) by done. cbn [ensure mbind result_bind].
  match goal with H : public_batch_verifier cfg = Some _ |- _ => rewrite H end.
  cbn [ok_or mbind result_bind]. rewrite Hp. cbn. split; [by subst|].
  subst b. unfold public_parse_proof_bytes in Hp. res_inv.
  match goal with H : parse_public_batch_public_input_felts _ _ _ = Some _ |- _ =>
    apply parse_public_read in H as [_ Hw] end.
  by eapply from_public_wf.
Qed.

(** ** The invariant of the pool's storage *)
Record valid_config cfg : Prop := {
  vc_rate : valid_rate cfg;
  vc_outputs : 0 ≤ MaxOutputsPerBlock cfg < u_max 32;
  vc_min_fee : 0 < MinLeafFee cfg ≤ u_max 64;
}.

Record pool_inv cfg sys s : Prop := {
  pi_tree : recorder_inv (ZkTreeState s);
  pi_nodup : NoDup (event_nulls (events s));
  pi_used : ∀ n, n ∈ UsedNullifiers s ↔ n ∈ event_nulls (events s);
  pi_zero : zero_hash ∉ UsedNullifiers s;
  pi_pool : 0 ≤ PoolValue s ≤ u_max 128;
  pi_pending : 0 ≤ PendingCoinbaseFee s ≤ u_max 128;
  pi_outputs : 0 ≤ outputs_written_this_block sys s ≤ MaxOutputsPerBlock cfg;
}.

Lemma settle_pool_inv cfg sys s b outputs s' :
  valid_config cfg → bundle_wf b → pool_inv cfg sys s →
  settle (E := E) (D := D) cfg sys s b outputs = Ok s' → pool_inv cfg sys s'.
Proof.
  intros [Hr Ho Hm] Hwf [] Hs.
  apply settle_Ok_inv in Hs as (p & Hc & Heff & Hf1 & Hf2); [|done..|lia].
  pose proof (check_plan _ _ _ _ _ _ Hc) as [Hplan _].
  destruct (plan_settlement_inv _ _ _ _ _ _ Hplan) as (w & _ & Hw & Hfin & Es & _ & Ef & _).
  destruct (walk_slots_bound _ _ _ _ _ _ Hw) as [Hws _].
  destruct (plan_finish_bounds _ _ _ _ _ _ Hfin) as (_ & _ & _ & Hval & _ & _ & Hout); [lia..|].
  destruct Hw as [Hwk _ _ _ _ _].
  assert (Eps : placed 0 (segments b) (settles w) = plan_slots b p) by (unfold plan_slots; by rewrite Es).
  rewrite Eps in Hwk. destruct Hwk as [Hn Hfee Hcl Hnd Hfresh Hok _].
  assert (Hfee0 : 0 ≤ sum_by (λ q, rs_fee q.2) (plan_slots b p)) by (by apply plan_fee_nonneg).
  rewrite Hfee in Hval. rewrite Hn in Hout, Hws. unfold sat_mul in Hout.
  destruct Heff as [Hti Hu _ _ _ Hev Houts _ _ _ _ _ _]. constructor.
  - done.
  - rewrite Hev. apply NoDup_app. split; [done|]. split; [|done].
    intros n Hin Hin'. apply (Hfresh n Hin'). by apply pi_used0.
  - intros n. rewrite Hu, Hev, elem_of_app, pi_used0. tauto.
  - rewrite Hu. intros [Hin|Hin]; [|done].
    apply elem_of_nulls in Hin as (slot & Hin & Hz). apply list_elem_of_fmap in Hin as ([i sl] & -> & Hin).
    apply (proj1 (Forall_forall _ _) Hok) in Hin as (_ & _ & Hnz & _).
    by apply (proj1 (Forall_forall _ _) Hnz) in Hz.
  - unfold POOL_STEP in *. lia.
  - rewrite Hf2. cbv zeta. pose proof (burn_steps_bound cfg _ Hr Hfee0). case_match; [done|].
    unfold sat_add, POOL_STEP in *. lia.
  - pose proof (len_nonneg (plan_slots b p)). rewrite Houts by lia. lia.
Qed.

(** ** Shielding *)
(** What a successful [shield] did. *)
Record shielded_note cfg sys s (who : Hash256) (value : Z) (inner : Hash256) s' : Prop := {
  sn_quantized : 0 < value ≤ u_max 128 ∧ value mod POOL_STEP = 0;
  sn_range : 0 < value / POOL_STEP ≤ MAX_VALUE;
  sn_leaf : ∃ cm, commitment inner (value / POOL_STEP) = Some cm ∧
    leaf_at (ZkTreeState s') (leaf_count (ZkTreeState s)) = Some cm ∧
    leaf_count (ZkTreeState s') = leaf_count (ZkTreeState s) + 1;
  sn_burn : burn_from (CurrencyState s) who value = Ok (CurrencyState s');
  sn_pool : PoolValue s' = sat_add 128 (PoolValue s) value;
  sn_pending : PendingCoinbaseFee s' = PendingCoinbaseFee s;
  sn_used : UsedNullifiers s' = UsedNullifiers s;
  sn_events : event_nulls (events s') = event_nulls (events s);
  sn_tree : recorder_inv (ZkTreeState s');
  sn_outputs : outputs_written_this_block sys s' = outputs_written_this_block sys s + 1;
  sn_budget : outputs_written_this_block sys s + 1 ≤ MaxOutputsPerBlock cfg;
}.

Lemma do_shield_Ok cfg sys s who value inner ct s' :
  recorder_inv (ZkTreeState s) → 
  do_shield (E := E) (D := D) cfg sys s who value inner ct = Ok s' →
  shielded_note cfg sys s who value inner s'.
Proof.
  intros Hinv Hs. unfold do_shield, ensure_output_capacity, lift in Hs. res_inv.
  repeat match goal with H : try_u _ _ = Some _ |- _ => apply try_u_Some in H as [-> ?] end.
  match goal with H : commitment _ _ = Some _ |- _ => rename H into Hcm end.
  pose proof (commitment_digest _ _ _ Hcm) as [Hd _].
  match goal with H : tree_insert _ _ = Ok _ |- _ =>
    apply tree_insert_Ok in H as (t & -> & Hti & Hc & _ & Hl) end; [|done..].
  match goal with H : match checked_add ?a ?b ?c with _ => _ end = true |- _ =>
    destruct (checked_add a b c) eqn:Ec; [|done]; apply checked_add_Some in Ec as [-> ?] end. res_inv.
  cbn [fst snd ZkTreeState put_tree put_entry_count put_currency] in *.
  subst s'. rewrite (record_outputs_put sys 1).
  match goal with H : 0 < value, H' : value mod POOL_STEP = 0 |- _ => rename H into Hpos; rename H' into Hmod end.
  constructor; cbn -[event_nulls outputs_written_this_block record_outputs sat_add]; try done.
  - pose proof (Z.div_mod value POOL_STEP). unfold POOL_STEP in *. split; [lia|done].
  - eexists. split_and!; [exact Hcm| |done]. rewrite Hl. by rewrite decide_True.
  - by rewrite event_nulls_snoc, app_nil_r.
  - match goal with |- outputs_written_this_block _ ?p = _ =>
      let c := constr:(CurrencyState p) in let c := eval cbn in c in
      change (outputs_written_this_block sys p) with
        (outputs_written_this_block sys (record_outputs sys 1
           (put_tree t (put_entry_count (sat_add 64 (EntryCount s) 1) (put_currency c s))))) end.
    by rewrite outputs_written_record.
Qed.

(** ** The coinbase *)
(** A refused deposit moves no value and no leaf; it may drop the payload. *)
Definition deposit_refused s s' : Prop :=
  PoolValue s' = PoolValue s ∧ PendingCoinbaseFee s' = PendingCoinbaseFee s ∧
  ZkTreeState s' = ZkTreeState s ∧ UsedNullifiers s' = UsedNullifiers s ∧
  OutputsWrittenThisBlock s' = OutputsWrittenThisBlock s ∧ CoinbaseValues s' = CoinbaseValues s ∧
  CurrencyState s' = CurrencyState s ∧ event_nulls (events s') = event_nulls (events s).

Record minted_note sys s (minted : Z) s' : Prop := {
  mn_note : ∃ payload steps cm,
    PendingCoinbase s = Some payload ∧ steps = (minted + PendingCoinbaseFee s) / POOL_STEP ∧
    0 < steps ≤ MAX_VALUE ∧ commitment (cp_inner payload) steps = Some cm ∧
    leaf_at (ZkTreeState s') (leaf_count (ZkTreeState s)) = Some cm ∧
    CoinbaseValues s' = <[leaf_count (ZkTreeState s) := steps]> (CoinbaseValues s) ∧
    PoolValue s' = PoolValue s + steps * POOL_STEP;
  mn_change : PendingCoinbaseFee s' = (minted + PendingCoinbaseFee s) mod POOL_STEP;
  mn_count : leaf_count (ZkTreeState s') = leaf_count (ZkTreeState s) + 1;
  mn_tree : recorder_inv (ZkTreeState s');
  mn_consumed : PendingCoinbase s' = None;
  mn_rest : UsedNullifiers s' = UsedNullifiers s ∧ CurrencyState s' = CurrencyState s ∧
    OutputsWrittenThisBlock s' = OutputsWrittenThisBlock s ∧
    event_nulls (events s') = event_nulls (events s);
}.

Lemma mint_coinbase_cases sys s minted s' r :
  recorder_inv (ZkTreeState s) → 0 ≤ minted → 0 ≤ PoolValue s → 0 ≤ PendingCoinbaseFee s →
  PoolValue s + PendingCoinbaseFee s + minted ≤ u_max 128 →
  mint_coinbase (E := E) sys s minted = (s', r) →
  (r = Err minted ∧ deposit_refused s s') ∨ (r = Ok tt ∧ minted_note sys s minted s').
Proof.
  intros Hinv Hm Hp0 Hf0 Hsum Hmint. unfold mint_coinbase in Hmint.
  destruct (PendingCoinbase s) as [payload|] eqn:Epay.
  2: { left. injection Hmint as <- <-. split; [done|]. case_match; [done|].
       unfold deposit_refused; cbn -[event_nulls]. by rewrite event_nulls_snoc, app_nil_r. }
  assert (Hrefused : deposit_refused s (put_pending_coinbase None s)) by done.
  cbn [PendingCoinbaseFee put_pending_coinbase ZkTreeState] in Hmint.
  rewrite sat_add_exact in Hmint by lia. set (total := minted + PendingCoinbaseFee s) in *.
  destruct (bool_decide (cp_ciphertext payload = [])); cbn [negb] in Hmint; [|naive_solver].
  destruct (try_u 128 total) as [tp|] eqn:Et; [|naive_solver]. apply try_u_Some in Et as [-> _].
  destruct (try_u 64 (total / POOL_STEP)) as [steps|] eqn:Es; [|naive_solver].
  apply try_u_Some in Es as [-> _].
  destruct ((total / POOL_STEP =? 0) || (MAX_VALUE <? total / POOL_STEP)) eqn:Er; [naive_solver|].
  apply orb_false_iff in Er as [Ez Emax]. res_inv.
  destruct (commitment (cp_inner payload) (total / POOL_STEP)) as [cm|] eqn:Ecm; [|naive_solver].
  destruct (insert_commitment (ZkTreeState s) cm) as [[t i]|] eqn:Ei; [|naive_solver].
  pose proof (commitment_digest _ _ _ Ecm) as [Hd _].
  apply insert_commitment_Ok in Ei as (Hti & -> & Hc & _ & Hl & _); [|done..].
  assert (Hdm : total = POOL_STEP * (total / POOL_STEP) + total mod POOL_STEP)
    by (apply Z.div_mod; done).
  pose proof (Z.mod_pos_bound total POOL_STEP ltac:(done)) as Hmod.
  assert (Hst : 0 ≤ total / POOL_STEP) by (apply Z.div_pos; [lia|done]).
  assert (HS : POOL_STEP = 10000000000) by done.
  remember (total / POOL_STEP) as q eqn:Eq. remember (total mod POOL_STEP) as c eqn:Ec.
  rewrite sat_mul_exact in Hmint by nia.
  rewrite (proj2 (try_u_Some 128 (q * POOL_STEP) _)) in Hmint by (split; [done|nia]).
  rewrite (proj2 (try_u_Some 128 c _)) in Hmint by (split; [done|nia]).
  injection Hmint as <- <-. right. split; [done|].
  constructor; cbn -[event_nulls sat_add]; try done.
  - exists payload, q, cm. rewrite sat_add_exact by (cbn; nia). split_and!; done || lia.
  - by rewrite event_nulls_snoc, app_nil_r.
Qed.

Lemma do_coinbase_Ok cfg sys s inner ct s' :
  do_coinbase (E := E) (D := D) cfg sys s inner ct = Ok s' →
  s' = put_pending_coinbase (Some {| cp_inner := inner; cp_ciphertext := [] |}) s ∧
  PendingCoinbase s = None ∧ is_Some (commitment inner 0).
Proof.
  unfold do_coinbase, lift. intros Hs. res_inv. subst. split_and!; [done|done|].
  by apply not_eq_None_Some.
Qed.

(** Every dispatchable, by what it does. *)
Lemma call_body_cases cfg sys s origin call s' :
  call_body (E := E) (D := D) cfg sys s origin call = Ok s' →
  (∃ b outputs, bundle_wf b ∧ settle (E := E) (D := D) cfg sys s b outputs = Ok s') ∨
  (∃ who value inner ct, do_shield (E := E) (D := D) cfg sys s who value inner ct = Ok s') ∨
  (∃ inner, s' = put_pending_coinbase (Some {| cp_inner := inner; cp_ciphertext := [] |}) s).
Proof.
  unfold call_body. destruct call as [pf o|pf o|v i c|i c], origin; try done; intros Hc.
  - unfold lift in Hc. res_inv. left.
    match goal with H : validate_private_batch _ _ = Ok _ |- _ => apply pre_validate_private in H as [_ ?] end. eauto.
  - unfold lift in Hc. res_inv. left.
    match goal with H : validate_public_batch _ _ = Ok _ |- _ => apply pre_validate_public in H as [_ ?] end. eauto.
  - right; left. eauto 6.
  - right; right. apply do_coinbase_Ok in Hc as (-> & _). eauto.
Qed.

Lemma dispatch_inv cfg sys s origin call :
  valid_config cfg → pool_inv cfg sys s →
  pool_inv cfg sys (dispatch (E := E) (D := D) cfg sys s origin call).
Proof.
  intros Hv Hs. unfold dispatch. destruct (call_body _ _ _ _ _) as [s'|] eqn:Hc; [|done].
  apply call_body_cases in Hc as [(b & o & Hwf & Hb)|[(who & v & i & c & Hb)|(i & ->)]].
  - by eapply settle_pool_inv.
  - destruct Hs. apply do_shield_Ok in Hb as []; [|done].
    constructor; rewrite ?sn_pool0, ?sn_pending0, ?sn_used0, ?sn_events0, ?sn_outputs0; try done; [|lia].
    u_lia.
  - by destruct Hs; constructor.
Qed.

Lemma mint_inv cfg sys s minted :
  pool_inv cfg sys s → 0 ≤ minted → PoolValue s + PendingCoinbaseFee s + minted ≤ u_max 128 →
  pool_inv cfg sys (mint_coinbase (E := E) sys s minted).1.
Proof.
  intros [] Hm Hsum. destruct (mint_coinbase sys s minted) as [s' r] eqn:Em. cbn [fst].
  apply mint_coinbase_cases in Em; [|done|lia..].
  destruct Em as [[_ (E1 & E2 & E3 & E4 & E5 & _ & _ & E6)]|[_ []]].
  - constructor; rewrite ?E1, ?E2, ?E3, ?E4, ?E6; try done.
    unfold outputs_written_this_block in *. by rewrite E5.
  - destruct mn_note0 as (pl & q & cm & _ & Eq & Hq & _ & _ & _ & Ep).
    destruct mn_rest0 as (Eu & _ & Eo & Ee).
    assert (HS : POOL_STEP = 10000000000) by done.
    assert (Hdm := Z.div_mod (minted + PendingCoinbaseFee s) POOL_STEP ltac:(done)).
    assert (Hmod := Z.mod_pos_bound (minted + PendingCoinbaseFee s) POOL_STEP ltac:(done)).
    constructor; rewrite ?Eu, ?Ee, ?Ep, ?mn_change0; try done; try nia.
    unfold outputs_written_this_block in *. by rewrite Eo.
Qed.
End Properties.

(** ** Histories

    A block's environment with the pool's storage, and what may happen to
    them: any call from any origin, the end-of-block deposit, the next block,
    and whatever the rest of the chain does to the tree and the currency. The
    event log is kept across blocks, as a ghost of what the chain announced. *)
Inductive pool_step {T E C D F : Type} `{ZkCommitmentRecorder T E, Currency C D, PoseidonOps, SpOps,
    FieldOps F, PlonkyOps F} (cfg : Config QneroPrivateBatchVerifier QneroPublicBatchVerifier)
  : System * Pool T C → System * Pool T C → Prop :=
| step_dispatch sys s origin call :
    pool_step cfg (sys, s) (sys, dispatch (E := E) (D := D) cfg sys s origin call)
| step_deposit sys s minted :
    0 ≤ minted → PoolValue s + PendingCoinbaseFee s + minted ≤ u_max 128 →
    pool_step cfg (sys, s) (sys, (mint_coinbase (E := E) sys s minted).1)
| step_next_block sys s sys' : pool_step cfg (sys, s) (sys', on_initialize s)
| step_elsewhere sys s t c : recorder_inv t → pool_step cfg (sys, s) (sys, put_currency c (put_tree t s)).

Definition genesis_pool {T C} (t : T) (c : C) : Pool T C := {|
  UsedNullifiers := ∅; OutputsWrittenThisBlock := (0, 0); LeafBlocks := ∅; EntryCount := 0;
  PoolValue := 0; PendingCoinbase := None; PendingCoinbaseFee := 0; CoinbaseValues := ∅;
  events := []; ZkTreeState := t; CurrencyState := c |}.

Section Histories.
Context {T E C D F : Type}.
Context `{ZkCommitmentRecorder T E, !ZkCommitmentRecorderLaws T E}.
Context `{Currency C D, !CurrencyLaws C D}.
Context `{PoseidonOps, !PoseidonLaws, SpOps, !SpLaws}.
Context `{FieldOps F, !FieldLaws F, PlonkyOps F}.
Abbreviation Config' := (Config QneroPrivateBatchVerifier QneroPublicBatchVerifier).
Implicit Types (s : Pool T C) (cfg : Config') (sys : System) (outputs : list ShieldedOutput).
#[local] Abbreviation history cfg := (rtc (pool_step (E := E) (D := D) (F := F) cfg)).

Lemma no_outputs_yet sys s : OutputsWrittenThisBlock s = (0, 0) → outputs_written_this_block sys s = 0.
Proof. unfold outputs_written_this_block. intros ->. by case_match. Qed.

Lemma genesis_pool_inv cfg sys (t : T) (c : C) :
  valid_config cfg → recorder_inv t → pool_inv cfg sys (genesis_pool t c).
Proof.
  intros [] Ht. constructor; cbn -[outputs_written_this_block]; [done|constructor| |set_solver|u_lia|u_lia|].
  - intros n. rewrite elem_of_nil. set_solver.
  - rewrite no_outputs_yet by done. lia.
Qed.

Lemma pool_step_inv cfg x y :
  valid_config cfg → pool_step (E := E) (D := D) (F := F) cfg x y →
  pool_inv cfg x.1 x.2 → pool_inv cfg y.1 y.2.
Proof.
  intros Hv [] Hx; cbn [fst snd] in *.
  - by apply dispatch_inv.
  - by apply mint_inv.
  - destruct Hx, Hv. constructor; cbn -[outputs_written_this_block]; try done.
    rewrite no_outputs_yet by done. lia.
  - by destruct Hx; constructor.
Qed.

Lemma history_inv cfg sys0 (t : T) (c : C) sys s :
  valid_config cfg → recorder_inv t →
  history cfg (sys0, genesis_pool t c) (sys, s) → pool_inv cfg sys s.
Proof.
  intros Hv Ht Hh. change (pool_inv cfg (sys, s).1 (sys, s).2).
  assert (Hgen : ∀ x y, history cfg x y → pool_inv cfg x.1 x.2 → pool_inv cfg y.1 y.2).
  { induction 1; [done|]. intros. apply IHrtc. by eapply pool_step_inv. }
  eapply Hgen; [done|]. by apply genesis_pool_inv.
Qed.

(** C1: no double spend, over every history of the pool. No nullifier is
    ever announced as spent twice, the stored set is exactly the announced
    nullifiers, and the all-zero nullifier is never among them. *)
Theorem no_double_spend cfg sys0 (t : T) (c : C) sys s :
  valid_config cfg → recorder_inv t →
  history cfg (sys0, genesis_pool t c) (sys, s) →
  NoDup (event_nulls (events s)) ∧
  (∀ n, n ∈ UsedNullifiers s ↔ n ∈ event_nulls (events s)) ∧
  zero_hash ∉ UsedNullifiers s.
Proof. intros Hv Ht Hh. by destruct (history_inv cfg sys0 t c sys s Hv Ht Hh). Qed.

(** ** Settlement *)

(** C6: a settlement does not fail half way. Once the checks pass, in any
    state the pool can be in, every nullifier, leaf and fee write of [settle]
    succeeds: the two tree appends per slot, the fee conversion, the pool
    subtraction. *)
Theorem checked_settlement_succeeds cfg sys s b outputs p :
  valid_config cfg → pool_inv cfg sys s → bundle_wf b →
  check_settlement cfg sys s b outputs = Ok p →
  ∃ s', settle (E := E) (D := D) cfg sys s b outputs = Ok s'.
Proof.
  intros [] [] Hwf Hc.
  destruct (settle_after_check (E := E) (D := D) cfg sys s b outputs p) as (s' & ? & _); [done..|lia|done|].
  by exists s'.
Qed.

(** C7: a settlement writes its plan and nothing else. The nullifiers added
    are those of the settled segments, each new and none repeated; the leaves
    appended are their commitments, in order, after every older leaf, which
    stays, each dated to this block; the log announces each settled slot with
    the leaf indices it took; the transparent currency, the coinbase records
    and the entry counter are untouched. A segment is settled exactly
    when its anchor holds and none of its nullifiers is used or claimed, so a
    skipped segment leaves no trace. *)
Theorem settlement_writes_exactly_the_plan cfg sys s b outputs s' :
  valid_config cfg → pool_inv cfg sys s → bundle_wf b →
  settle (E := E) (D := D) cfg sys s b outputs = Ok s' →
  ∃ p, plan_settlement cfg sys s b outputs = Ok p ∧
    settled_effect sys s (plan_slots b p) s' ∧
    NoDup (nulls (plan_slots b p).*2) ∧
    (∀ n, n ∈ nulls (plan_slots b p).*2 → n ∉ UsedNullifiers s) ∧
    Forall2 (flag_ok cfg sys s (list_to_set (nulls (plan_slots b p).*2))) (segments b) (pl_settles p).
Proof.
  intros [] [] Hwf Hs. apply settle_Ok_inv in Hs as (p & Hc & Heff & _); [|done..|lia].
  pose proof (check_plan _ _ _ _ _ _ Hc) as [Hplan _]. exists p.
  destruct (plan_settlement_inv _ _ _ _ _ _ Hplan) as (w & _ & [Hwk _ _ _ _ Hfl] & _ & Es & _).
  assert (Eps : placed 0 (segments b) (settles w) = plan_slots b p) by (unfold plan_slots; by rewrite Es).
  rewrite Eps in Hwk. destruct Hwk as [_ _ Hcl Hnd Hfresh _ _]. split_and!; try done. rewrite Es.
  eapply flag_ok_mono; [|done]. intros n. by rewrite Hcl, elem_of_list_to_set.
Qed.

(** ** Admission *)
Lemma admission_checks_Ok cfg sys s parsed verified outputs b :
  (∀ b, verified = Ok b → parsed = Ok b) →
  admission_checks cfg sys s parsed verified outputs = Ok b →
  verified = Ok b ∧ ∃ p, plan_settlement cfg sys s b outputs = Ok p.
Proof.
  intros Hpv Ha. unfold admission_checks in Ha. res_inv. split; [done|].
  match goal with H : parsed = Ok ?b' |- _ => rewrite (Hpv b Ha) in H; injection H as <- end. eauto.
Qed.

Lemma admitted_check cfg sys s parsed verified outputs b :
  (∀ b, verified = Ok b → parsed = Ok b) →
  admission_checks cfg sys s parsed verified outputs = Ok b → bind_payload b outputs = Ok tt →
  ∃ p, check_settlement cfg sys s b outputs = Ok p.
Proof.
  intros Hpv Ha Hb. apply admission_checks_Ok in Ha as (_ & p & Hp); [|done].
  exists p. unfold check_settlement. rewrite Hp. cbn. by rewrite Hb.
Qed.

(** C32: the three gates a settlement passes agree. What the transaction
    pool admits, the block builder's [pre_dispatch] accepts in the same state,
    and what [pre_dispatch] accepts then dispatches without error. *)
Theorem admitted_settlements_dispatch cfg sys s call :
  valid_config cfg → pool_inv cfg sys s → is_inherent call = false →
  (∀ tx, validate_unsigned cfg sys s call = Ok tx → pre_dispatch cfg sys s call = Ok tt) ∧
  (pre_dispatch cfg sys s call = Ok tt →
     ∃ s', call_body (E := E) (D := D) cfg sys s OriginNone call = Ok s').
Proof.
  intros [Hr _ _] [Ht _ _ _ Hpool _ _] Hin. destruct call as [pf o|pf o|v i c|i c]; [| |done|done].
  all: pose proof (λ b Hb, proj1 (pre_validate_private cfg pf b Hb)) as Hpriv;
       pose proof (λ b Hb, proj1 (pre_validate_public cfg pf b Hb)) as Hpub.
  all: split; [intros tx Htx; unfold validate_unsigned in Htx; unfold pre_dispatch; res_inv
              |unfold pre_dispatch, call_body; intros Hp; res_inv].
  all: match goal with H : admission_checks _ _ _ _ _ _ = Ok _ |- _ => rename H into Ha end.
  1, 3: subst; rewrite Ha; eapply admitted_check in Ha as (p & Hc); [cbn; by rewrite Hc|done|done].
  all: apply admission_checks_Ok in Ha as (Hver & _); [|done]; rewrite Hver; cbn.
  - apply pre_validate_private in Hver as [_ Hwf].
    edestruct settle_after_check as (s' & ? & _); [done..|lia|done|by exists s'].
  - apply pre_validate_public in Hver as [_ Hwf].
    edestruct settle_after_check as (s' & ? & _); [done..|lia|done|by exists s'].
Qed.

(** ** Value *)
(** Everything in existence, in planck. *)
Definition total_value s : Z :=
  total_issuance (CurrencyState s) + PoolValue s + PendingCoinbaseFee s.

Lemma fee_paid_total cfg s steps s' :
  valid_rate cfg → 0 ≤ steps → PoolValue s + PendingCoinbaseFee s ≤ u_max 128 →
  steps * POOL_STEP ≤ PoolValue s → fee_paid cfg s steps s' →
  PoolValue s' + PendingCoinbaseFee s' =
    PoolValue s + PendingCoinbaseFee s - burn_steps cfg steps * POOL_STEP.
Proof.
  intros Hr Hs Hsum Hp [E1 E2]. pose proof (burn_steps_bound cfg steps Hr Hs).
  cbv zeta in E2. rewrite E1, E2. assert (HS : POOL_STEP = 10000000000) by done.
  destruct (Z.eqb_spec ((steps - burn_steps cfg steps) * POOL_STEP) 0); [nia|].
  rewrite sat_add_exact by nia. nia.
Qed.

(** A settlement takes exactly its fees out of the pool, credits the
    author with them less the burnt share, and destroys exactly that share:
    the fee times the burn rate, rounded up to a whole step. *)
Theorem settlement_burns_exactly cfg sys s b outputs s' :
  valid_config cfg → pool_inv cfg sys s → bundle_wf b →
  PoolValue s + PendingCoinbaseFee s ≤ u_max 128 →
  settle (E := E) (D := D) cfg sys s b outputs = Ok s' →
  ∃ p, plan_settlement cfg sys s b outputs = Ok p ∧
    pl_fee_steps p = sum_by rs_fee (chosen (segments b) (pl_settles p)) ∧
    PoolValue s' = PoolValue s - pl_fee_steps p * POOL_STEP ∧
    total_value s' = total_value s - burn_steps cfg (pl_fee_steps p) * POOL_STEP ∧
    0 ≤ burn_steps cfg (pl_fee_steps p) ≤ pl_fee_steps p.
Proof.
  intros [Hr _ _] [Ht _ _ _ Hpool _ _] Hwf Hsum Hs.
  apply settle_Ok_inv in Hs as (p & Hc & Heff & Hfee); [|done..|lia].
  pose proof (check_plan _ _ _ _ _ _ Hc) as [Hplan _]. exists p.
  pose proof (plan_fee_nonneg b p Hwf) as Hnn.
  destruct (plan_settlement_inv _ _ _ _ _ _ Hplan) as (w & _ & Hw & Hfin & Es & _ & Ef & _).
  destruct (walk_slots_bound _ _ _ _ _ _ Hw) as [Hws _].
  destruct (plan_finish_bounds _ _ _ _ _ _ Hfin) as (_ & _ & _ & Hval & _); [lia..|].
  assert (Efee : pl_fee_steps p = sum_by (λ q, rs_fee q.2) (plan_slots b p)).
  { rewrite Ef, (wk_fee _ _ _ _ _ (wv_walked _ _ _ _ _ _ Hw)). unfold plan_slots. by rewrite Es. }
  rewrite <- Ef, Efee in Hval. rewrite <- Efee in *.
  split; [done|]. split_and!.
  - rewrite Efee. unfold chosen, plan_slots. generalize (placed 0 (segments b) (pl_settles p)).
    induction l as [|q l IH]; [done|]. rewrite fmap_cons, !sum_by_cons. by rewrite IH.
  - by destruct Hfee.
  - unfold total_value. rewrite (se_currency _ _ _ _ Heff).
    pose proof (fee_paid_total cfg s _ s' Hr Hnn Hsum Hval Hfee). lia.
  - by apply burn_steps_bound.
  - by apply burn_steps_bound.
Qed.

Lemma dispatch_total_value cfg sys s origin call :
  valid_config cfg → pool_inv cfg sys s →
  total_value (dispatch (E := E) (D := D) cfg sys s origin call) ≤ total_value s.
Proof.
  intros Hv Hi. unfold dispatch. destruct (call_body _ _ _ _ _) as [s'|] eqn:Hc; [|done].
  apply call_body_cases in Hc as [(b & o & Hwf & Hb)|[(who & v & i & c & Hb)|(i & ->)]]; [| |done].
  - destruct Hi as [Ht _ _ _ Hpool Hpend _], Hv as [Hr _ _].
    apply settle_Ok_inv in Hb as (p & Hc & Heff & E1 & E2); [|done..|lia].
    unfold total_value. rewrite (se_currency _ _ _ _ Heff), E1, E2. cbv zeta.
    pose proof (burn_steps_bound cfg _ Hr (plan_fee_nonneg b p Hwf)).
    assert (HS : POOL_STEP = 10000000000) by done. unfold sat_add. case_match; nia.
  - destruct Hi. apply do_shield_Ok in Hb as []; [|done]. unfold total_value.
    apply burn_from_issuance in sn_burn0; [|lia]. rewrite sn_pool0, sn_pending0. unfold sat_add. lia.
Qed.

(** C8: no call creates value. Whatever is dispatched, by whom, the
    transparent issuance, the pool and the fees owed to authors together
    never grow; only the coinbase deposit adds to them. *)
Theorem calls_never_create_value cfg sys s origin call :
  valid_config cfg → pool_inv cfg sys s →
  total_value (dispatch (E := E) (D := D) cfg sys s origin call) ≤ total_value s.
Proof. apply dispatch_total_value. Qed.
End Histories.

(** ** The pool as the coinbase's sink *)
Section Sink.
Context {T E C : Type} `{ZkCommitmentRecorder T E, !ZkCommitmentRecorderLaws T E}.
Context `{PoseidonOps, !PoseidonLaws}.
Implicit Types s : Pool T C.

(** The pool within one block. *)
#[global] Instance pool_sink (sys : System) : CoinbaseSink (Pool T C) := {|
  deposit_coinbase := mint_coinbase (E := E) sys;
  shielded_supply := pool_supply;
  sink_inv s := recorder_inv (ZkTreeState s) ∧ 0 ≤ PoolValue s ∧ 0 ≤ PendingCoinbaseFee s ∧
    PoolValue s + PendingCoinbaseFee s ≤ u_max 128;
|}.

Lemma pool_supply_exact s :
  PoolValue s + PendingCoinbaseFee s ≤ u_max 128 → pool_supply s = PoolValue s + PendingCoinbaseFee s.
Proof. apply sat_add_exact. Qed.

Lemma deposit_accounting sys s minted s' r :
  recorder_inv (ZkTreeState s) → 0 ≤ minted → 0 ≤ PoolValue s → 0 ≤ PendingCoinbaseFee s →
  PoolValue s + PendingCoinbaseFee s + minted ≤ u_max 128 →
  mint_coinbase (E := E) sys s minted = (s', r) →
  recorder_inv (ZkTreeState s') ∧ 0 ≤ PoolValue s' ∧ 0 ≤ PendingCoinbaseFee s' ∧
  PoolValue s' + PendingCoinbaseFee s' =
    PoolValue s + PendingCoinbaseFee s + (if is_ok r then minted else 0) ∧
  (is_ok r = false → r = Err minted).
Proof.
  intros Ht Hm Hp Hf Hsum Hmint. apply mint_coinbase_cases in Hmint; [|done|lia..].
  destruct Hmint as [[-> (E1 & E2 & E3 & _)]|[-> []]]; cbn [is_ok].
  - rewrite E1, E2, E3. split_and!; done || lia.
  - destruct mn_note0 as (pl & q & cm & _ & Eq & Hq & _ & _ & _ & Ep).
    assert (HS : POOL_STEP = 10000000000) by done.
    assert (Hdm := Z.div_mod (minted + PendingCoinbaseFee s) POOL_STEP ltac:(done)).
    assert (Hmod := Z.mod_pos_bound (minted + PendingCoinbaseFee s) POOL_STEP ltac:(done)).
    rewrite <- Eq in Hdm. rewrite Ep, mn_change0. split_and!; done || nia.
Qed.

#[global] Instance pool_sink_laws (sys : System) : @CoinbaseSinkLaws (Pool T C) (pool_sink sys).
Proof.
  constructor; cbn [sink_inv shielded_supply deposit_coinbase pool_sink].
  - intros s (_ & ? & ? & ?). rewrite pool_supply_exact by done. lia.
  - intros s s' amount (Ht & Hp & Hf & Hs) Ha Hb Hd. rewrite (pool_supply_exact s) in Hb |- * by done.
    apply deposit_accounting in Hd as (? & ? & ? & Heq & _); [|done|lia..]. cbn in Heq.
    split; [split_and!; done || lia|]. rewrite (pool_supply_exact s') by lia. done.
  - intros s s' amount r (Ht & Hp & Hf & Hs) Ha Hb Hd. rewrite (pool_supply_exact s) in Hb |- * by done.
    apply deposit_accounting in Hd as (? & ? & ? & Heq & Hr); [|done|lia..]. cbn in *.
    split; [split_and!; done || lia|]. rewrite (pool_supply_exact s') by lia.
    split; [|lia]. by injection Hr.
Qed.
End Sink.
