(* ===== verification/ShieldedFees.v ===== *)
(** * Fees, replays and payloads

    What a submission owes and to whom that is fair, why a settled bundle
    cannot be settled again, and that the ciphertexts a settlement carries are
    the ones its proof committed to. *)

From stdpp Require Import base list numbers gmap sets sorting.
From S2P Require Import Prelude Crypto NoteRules Verifier Interfaces ZkTree ZkTreeProps Shielded ShieldedPlan ShieldedSettle ShieldedProps.
#[local] Open Scope Z_scope.

(** Decomposes a failed computation into the check that failed. *)
Ltac err_step H :=
  match type of H with
  | (_ ≫= _) = Err _ =>
      apply bind_Err in H; let x := fresh "x" in let Hx := fresh "Hx" in
      destruct H as [H|(x & Hx & H)]
  | ensure ?b ?e = Err _ => unfold ensure in H; destruct b; [discriminate H|injection H as H]
  | ok_or ?o ?e = Err _ => unfold ok_or in H; destruct o; [discriminate H|injection H as H]
  | map_err _ ?r = Err _ => destruct r; [discriminate H|injection H as H]
  | Ok _ = Err _ => discriminate H
  | (if ?b then _ else _) = Err _ => destruct b
  end.
Ltac err_inv H := repeat err_step H.

Lemma fold_result_Err {E S A} (P : E → Prop) (f : S → A → result E S) l s e :
  (∀ s x e, f s x = Err e → P e) → fold_result f s l = Err e → P e.
Proof.
  intros Hf. revert s. induction l as [|x l IH]; intros s He; [done|].
  cbn in He. err_step He; eauto.
Qed.

Lemma all_ok_Err {E A} (P : E → Prop) (f : A → result E unit) l e :
  (∀ x e, f x = Err e → P e) → all_ok f l = Err e → P e.
Proof.
  intros Hf. induction l as [|x l IH]; intros He; [done|]. cbn in He. err_step He; eauto.
Qed.

Section Fees.
Context {T E C D F : Type}.
Context `{ZkCommitmentRecorder T E, !ZkCommitmentRecorderLaws T E}.
Context `{Currency C D, !CurrencyLaws C D}.
Context `{PoseidonOps, !PoseidonLaws, SpOps, !SpLaws}.
Context `{FieldOps F, !FieldLaws F, PlonkyOps F}.
Abbreviation Config' := (Config QneroPrivateBatchVerifier QneroPublicBatchVerifier).
Implicit Types (s : Pool T C) (cfg : Config') (sys : System) (outputs : list ShieldedOutput).

(** ** Which segments settle *)
Lemma placed_flag segs flags off k seg slot :
  segs !! k = Some seg → flags !! k = Some true → slot ∈ sg_slots seg →
  slot ∈ (placed off segs flags).*2.
Proof.
  revert flags off k. induction segs as [|sg segs IH]; intros [|f flags] off [|k] Hs Hf Hin; try done.
  - cbn in Hs, Hf. simplify_eq. cbn [placed]. rewrite fmap_app, place_snd. set_solver.
  - cbn [placed]. rewrite fmap_app, elem_of_app. right. by eapply IH.
Qed.

Lemma placed_flag_inv segs flags off p :
  p ∈ placed off segs flags →
  ∃ k seg, segs !! k = Some seg ∧ flags !! k = Some true ∧ p.2 ∈ sg_slots seg.
Proof.
  revert flags off. induction segs as [|sg segs IH]; intros [|f flags] off Hin;
    try (by apply elem_of_nil in Hin).
  cbn [placed] in Hin. apply elem_of_app in Hin as [Hin|Hin].
  - destruct f; [|by apply elem_of_nil in Hin]. exists 0%nat, sg. split_and!; [done|done|].
    rewrite <- (place_snd off (sg_slots sg)). apply list_elem_of_fmap. eauto.
  - apply IH in Hin as (k & seg & ? & ? & ?). by exists (S k), seg.
Qed.

(** A replay is refused. After a bundle has settled, the same bundle,
    under any ciphertexts, can no longer be planned in that block: each of its
    segments now meets a used nullifier or still has no valid anchor. *)
Theorem replayed_bundle_is_refused cfg sys s b outputs outputs' s' :
  valid_config cfg → pool_inv cfg sys s → bundle_wf b →
  settle (E := E) (D := D) cfg sys s b outputs = Ok s' →
  ∃ e, plan_settlement cfg sys s' b outputs' = Err e.
Proof.
  intros Hv Hi Hwf Hs. destruct (plan_settlement cfg sys s' b outputs') as [p'|e] eqn:Hp'; [|by exists e].
  exfalso. destruct Hv as [Hr _ _], Hi as [Ht _ _ _ Hpool _ _].
  apply settle_Ok_inv in Hs as (p & Hc & Heff & _); [|done..|lia].
  pose proof (check_plan _ _ _ _ _ _ Hc) as [Hplan _].
  destruct (plan_settlement_inv _ _ _ _ _ _ Hplan) as (w & _ & [Hwk _ _ _ _ Hfl] & _ & Es & _).
  destruct (plan_settlement_inv _ _ _ _ _ _ Hp') as (w' & _ & Hw' & Hfin' & Es' & _).
  destruct (walk_slots_bound _ _ _ _ _ _ Hw') as [Hws' _].
  destruct (plan_finish_bounds _ _ _ _ _ _ Hfin') as (Hnz & _); [lia..|].
  destruct Hw' as [Hwk' _ _ _ _ Hfl'].
  destruct (placed 0 (segments b) (settles w')) as [|q qs] eqn:Eq.
  { rewrite (wk_slots _ _ _ _ _ Hwk') in Hnz. done. }
  assert (Hq : q ∈ placed 0 (segments b) (settles w')) by (rewrite Eq; set_solver).
  apply placed_flag_inv in Hq as (k & seg & Hk & Hk' & Hslot).
  destruct (Forall2_lookup_l _ _ _ _ _ Hfl Hk) as (f & Hf & Hne & Hflag).
  destruct (Forall2_lookup_l _ _ _ _ _ Hfl' Hk) as (f' & Hf' & _ & Hflag').
  rewrite Hk' in Hf'. injection Hf' as <-.
  assert (Hfresh : ∀ n, n ∈ nulls (sg_slots seg) → n ∉ UsedNullifiers s').
  { intros n (slot & Hin & Hn)%elem_of_nulls. rewrite <- Eq in Hwk'.
    apply (wk_fresh _ _ _ _ _ Hwk'), elem_of_nulls. exists slot. split; [|done].
    by eapply placed_flag. }
  assert (Hused : ∀ n, n ∈ UsedNullifiers s ∨ n ∈ nulls (placed 0 (segments b) (settles w)).*2 → n ∈ UsedNullifiers s').
  { intros n Hn. rewrite (se_used _ _ _ _ Heff). unfold plan_slots. rewrite Es. tauto. }
  destruct f.
  - apply (Hfresh (rs_nullifiers q.2).1).
    + apply elem_of_nulls. exists q.2. split; [done|]. unfold slot_nullifiers. set_solver.
    + apply Hused. right. apply elem_of_nulls. exists q.2. split; [by eapply placed_flag|].
      unfold slot_nullifiers. set_solver.
  - destruct Hflag as [(n & Hn & Hu)|Ha]; [|done]. apply (Hfresh n Hn), Hused.
    rewrite <- (wk_claimed _ _ _ _ _ Hwk). tauto.
Qed.

(** ** The payload *)
Lemma check_output_length o :
  check_output o = Ok tt → is_empty_pair o = false →
  len (ct_1 o) = SUITE_1_CIPHERTEXT_BYTES ∧ len (ct_2 o) = SUITE_1_CIPHERTEXT_BYTES.
Proof.
  unfold check_output. intros Hc He. rewrite He in Hc. res_inv.
  assert (Hone : ∀ bytes u, ensure_exact_ciphertext bytes = Ok u → len bytes = SUITE_1_CIPHERTEXT_BYTES).
  { intros bytes u Hb. unfold ensure_exact_ciphertext, ciphertext_len in Hb. res_inv.
    case_match; [|done]. by simplify_eq. }
  eauto.
Qed.

Lemma payload_position cfg sys s b outputs p i slot :
  check_settlement cfg sys s b outputs = Ok p → real_slots b !! i = Some slot →
  ∃ o, outputs !! i = Some o ∧ check_output o = Ok tt ∧
    (is_empty_pair o = false → NoteRules.ct_digest [ct_1 o; ct_2 o] = rs_ct_digest slot).
Proof.
  intros Hc Hi. apply check_plan in Hc as [Hplan Hbind].
  apply plan_settlement_inv in Hplan as (w & Hw & _). apply plan_walk_inv in Hw as [_ Hall].
  apply all_ok_Ok in Hall, Hbind. rewrite Forall_forall in Hbind.
  assert (Hin : (i, slot) ∈ imap pair (real_slots b)).
  { apply list_elem_of_lookup. exists i. by rewrite list_lookup_imap, Hi. }
  specialize (Hbind _ Hin). unfold bind_slot in Hbind. cbn [fst snd] in Hbind. res_inv.
  match goal with H : outputs !! i = Some ?o |- _ => exists o; pose proof (Forall_lookup_1 _ _ _ _ Hall H) end.
  split; [done|]. split; [done|].
  intros He. rewrite He in Hbind. by res_inv.
Qed.

(** The ciphertexts are the proof's. Two accepted payloads for one
    bundle, in any states, carry the same ciphertexts at every position that
    neither leaves empty, and so at every position that settles, or the two
    payloads framed are a collision of the byte sponge. *)
Theorem payload_is_bound cfg sys1 sys2 s1 s2 b outputs1 outputs2 p1 p2 i slot o1 o2 :
  check_settlement cfg sys1 s1 b outputs1 = Ok p1 → check_settlement cfg sys2 s2 b outputs2 = Ok p2 →
  real_slots b !! i = Some slot → outputs1 !! i = Some o1 → outputs2 !! i = Some o2 →
  is_empty_pair o1 = false → is_empty_pair o2 = false →
  bytes_collide [ct_preimage [ct_1 o1; ct_2 o1]; ct_preimage [ct_1 o2; ct_2 o2]] ∨ o1 = o2.
Proof.
  intros H1' H2' Hi Ho1 Ho2 He1 He2.
  destruct (payload_position _ _ _ _ _ _ _ _ H1' Hi) as (o1' & Eo1 & Hc1 & Hd1).
  destruct (payload_position _ _ _ _ _ _ _ _ H2' Hi) as (o2' & Eo2 & Hc2 & Hd2).
  rewrite Ho1 in Eo1. rewrite Ho2 in Eo2. simplify_eq.
  apply check_output_length in Hc1 as [L11 L12]; [|done].
  apply check_output_length in Hc2 as [L21 L22]; [|done].
  specialize (Hd1 He1). specialize (Hd2 He2). unfold NoteRules.ct_digest in *.
  rewrite <- Hd2 in Hd1. apply byte_sponge_eq in Hd1 as [?|Ex]; [by left|right].
  unfold len, SUITE_1_CIPHERTEXT_BYTES in *.
  apply ct_preimage_determines in Ex; [|done|done|repeat constructor; unfold fits_u32; lia..].
  destruct o1', o2'; cbn in *. congruence.
Qed.

(** ** The fee floor *)
Lemma bytes_per_fee_quantum_pos cfg : 0 < bytes_per_fee_quantum cfg.
Proof. unfold bytes_per_fee_quantum. lia. Qed.

Lemma output_bytes_nonneg o : 0 ≤ output_bytes o.
Proof. unfold output_bytes. pose proof (len_nonneg (ct_1 o)). pose proof (len_nonneg (ct_2 o)). u_lia. Qed.

Lemma carried_bytes_le outputs : 0 ≤ carried_bytes outputs ≤ sum_by output_bytes outputs.
Proof.
  unfold carried_bytes. induction outputs as [|o l IH] using rev_ind; [done|].
  rewrite foldl_app, sum_by_app, sum_by_cons. change (sum_by _ []) with 0. cbn [foldl].
  pose proof (output_bytes_nonneg o). u_lia.
Qed.

(** What each settled slot pays, with no saturation left in it. *)
Lemma fee_floor_exact cfg o fee :
  0 ≤ MinLeafFee cfg → fee ≤ MAX_VALUE → fee_floor cfg (MinLeafFee cfg) (output_bytes o) ≤ fee →
  MinLeafFee cfg + div_ceil (output_bytes o) (bytes_per_fee_quantum cfg) ≤ fee.
Proof.
  unfold fee_floor, sat_add. assert (MAX_VALUE < u_max 64) by done. lia.
Qed.

Lemma submission_floor_eq cfg w outputs f :
  submission_floor cfg w outputs = Some f →
  f = (wslots w + skipped_slots w) * MinLeafFee cfg
      + div_ceil (carried_bytes outputs) (bytes_per_fee_quantum cfg).
Proof.
  unfold submission_floor. intros Hf. simplify_option_eq.
  repeat match goal with
  | H : checked_add _ _ _ = Some _ |- _ => apply checked_add_Some in H as [-> _]
  | H : checked_mul _ _ _ = Some _ |- _ => apply checked_mul_Some in H as [-> _]
  end. done.
Qed.

(** Everything a submission makes the chain walk is paid for by what
    it settles: the fees of the settled slots cover the flat minimum for every
    slot of the bundle, skipped ones included, and the per-byte price of every
    ciphertext carried, and each settled slot covers its own share. *)
Theorem submission_pays_its_floor cfg sys s b outputs p :
  plan_settlement cfg sys s b outputs = Ok p →
  len outputs = len (real_slots b) ∧
  len (real_slots b) * MinLeafFee cfg + div_ceil (carried_bytes outputs) (bytes_per_fee_quantum cfg)
    ≤ pl_fee_steps p ∧
  Forall (λ q, ∃ o, outputs !! Z.to_nat q.1 = Some o ∧
    fee_floor cfg (MinLeafFee cfg) (output_bytes o) ≤ rs_fee q.2) (plan_slots b p) ∧
  pl_fee_steps p = sum_by (λ q, rs_fee q.2) (plan_slots b p).
Proof.
  intros Hplan.
  destruct (plan_settlement_inv _ _ _ _ _ _ Hplan) as (w & _ & Hw & Hfin & Es & _ & Ef & _).
  destruct (walk_slots_bound _ _ _ _ _ _ Hw) as [Hws _].
  destruct (plan_finish_bounds _ _ _ _ _ _ Hfin) as (_ & Hlen & _ & _ & _ & Hfl & _); [lia..|].
  destruct Hw as [Hwk _ Hreal Hcount _ _]. change (len (real_slots b)) with (total_slots (segments b)).
  unfold plan_slots. rewrite Es, Ef. split_and!.
  - lia.
  - unfold plan_finish in Hfin. destruct (wslots w =? 0); [done|]. res_inv.
    match goal with H : submission_floor cfg w outputs = Some _ |- _ => apply submission_floor_eq in H as -> end.
    rewrite <- Hcount. done.
  - generalize (wk_ok _ _ _ _ _ Hwk). apply Forall_mono.
    intros q (_ & _ & _ & _ & o & Ho & _ & _ & Hf). by exists o.
  - apply Hwk.
Qed.

(** ** An honest submission *)
(** Nothing in the way of any segment. *)
Definition unobstructed cfg sys s (b : SettlementBundle) : Prop :=
  (∀ n, n ∈ nulls (real_slots b) → n ∉ UsedNullifiers s) ∧ NoDup (nulls (real_slots b)) ∧
  (∀ seg, seg ∈ segments b →
     anchor_failure sys seg (sys_block_number sys) (BlockHashWindow cfg) = None).

Lemma chosen_nulls segs flags off n :
  n ∈ nulls (placed off segs flags).*2 → n ∈ nulls (concat (sg_slots <$> segs)).
Proof.
  rewrite !elem_of_nulls. intros (slot & Hin & Hn). exists slot. split; [|done].
  apply list_elem_of_fmap in Hin as ([i sl] & -> & Hin). by eapply placed_elem.
Qed.

(** A skipped segment shares no nullifier with a settled one. *)
Lemma skipped_disjoint segs flags off k seg n :
  NoDup (nulls (concat (sg_slots <$> segs))) → segs !! k = Some seg → flags !! k = Some false →
  n ∈ nulls (sg_slots seg) → n ∉ nulls (placed off segs flags).*2.
Proof.
  revert flags off k. induction segs as [|sg segs IH]; intros [|f flags] off [|k] Hnd Hs Hf Hn; try done.
  all: rewrite fmap_cons, concat_cons, nulls_app in Hnd; apply NoDup_app in Hnd as (_ & Hdis & Hnd).
  all: cbn in Hs, Hf; cbn [placed]; rewrite fmap_app, nulls_app, elem_of_app; simplify_eq.
  - intros [Hin|Hin]; [by apply elem_of_nil in Hin|].
    apply chosen_nulls in Hin. by apply (Hdis n).
  - intros [Hin|Hin]; [|by eapply IH].
    assert (n ∈ nulls (concat (sg_slots <$> segs))).
    { apply elem_of_nulls in Hn as (slot & Hsl & Hn). apply elem_of_nulls. exists slot. split; [|done].
      apply list_elem_of_In, in_concat. exists (sg_slots seg). rewrite <- !list_elem_of_In. split; [|done].
      apply list_elem_of_fmap. exists seg. split; [done|]. by eapply list_elem_of_lookup_2. }
    destruct f; [rewrite place_snd in Hin|by apply elem_of_nil in Hin]. by apply (Hdis n).
Qed.

Lemma unobstructed_settles_all cfg sys s b outputs w :
  unobstructed cfg sys s b → walk_inv cfg sys s outputs (segments b) w →
  Forall (λ f, f = true) (settles w).
Proof.
  intros (Hun & Hnd & Han) [Hwk _ _ _ _ Hfl]. apply Forall_lookup_2. intros k [|] Hk; [done|].
  destruct (Forall2_lookup_r _ _ _ _ _ Hfl Hk) as (seg & Hs & _ & Hflag). exfalso.
  assert (Hin : seg ∈ segments b) by (by eapply list_elem_of_lookup_2).
  destruct Hflag as [(n & Hn & Hu)|Ha]; [|by apply Ha, Han].
  rewrite (wk_claimed _ _ _ _ _ Hwk) in Hu. destruct Hu as [Hu|Hu].
  - revert Hu. apply Hun. apply elem_of_nulls in Hn as (slot & Hsl & Hn). apply elem_of_nulls.
    exists slot. split; [|done]. apply list_elem_of_In, in_concat. exists (sg_slots seg).
    rewrite <- !list_elem_of_In. split; [|done]. apply list_elem_of_fmap. by exists seg.
  - revert Hu. by eapply skipped_disjoint.
Qed.

Lemma plan_walk_not_underpaid cfg sys s b outputs e :
  plan_walk cfg sys s b outputs = Err e → e ≠ PayloadUnderpaid.
Proof.
  set (P := λ e, e ≠ PayloadUnderpaid).
  unfold plan_walk. intros Hw. err_step Hw; [err_inv Hw; by subst|]. err_step Hw.
  { apply (all_ok_Err P) in Hw; [done|]. intros o e' Ho.
    unfold check_output, ensure_exact_ciphertext in Ho. err_inv Ho; by subst. }
  apply (fold_result_Err P) in Hw; [done|]. intros w1 seg e1 He. unfold plan_segment in He.
  err_step He; [err_inv He; by subst|]. destruct (skip_segment cfg sys s w1 seg) as [[] st].
  { err_inv He; by subst. }
  apply (fold_result_Err P) in He; [done|]. intros w2 slot e2 He'. unfold plan_slot in He'.
  err_step He'; [err_inv He'; by subst|]. err_step He'.
  { apply (all_ok_Err P) in He'; [done|]. intros cm e3 Hc. err_inv Hc; by subst. }
  err_step He'; [|err_inv He'; by subst].
  apply (fold_result_Err P) in He'; [done|]. intros cl n e3 Hc.
  unfold claim_nullifier in Hc. err_inv Hc; by subst.
Qed.

(** Summing each slot's own floor. *)
Lemma sum_floors cfg outputs ps :
  0 ≤ MinLeafFee cfg → Forall (slot_ok cfg outputs) ps → ps = place 0 ps.*2 → len ps = len outputs →
  len ps * MinLeafFee cfg + sum_by (λ o, div_ceil (output_bytes o) (bytes_per_fee_quantum cfg)) outputs
    ≤ sum_by (λ q, rs_fee q.2) ps.
Proof.
  intros Hm Hok Hplace Hlen.
  assert (Hgen : ∀ k os qs, drop k outputs = os → drop k ps = qs → length os = length qs →
    len qs * MinLeafFee cfg + sum_by (λ o, div_ceil (output_bytes o) (bytes_per_fee_quantum cfg)) os
      ≤ sum_by (λ q, rs_fee q.2) qs).
  2: { apply (Hgen 0%nat); [done|done|]. unfold len in Hlen. lia. }
  intros k os. revert k. induction os as [|o os IH]; intros k [|q qs] Ho Hq Hl; try done.
  rewrite !sum_by_cons, len_cons.
  assert (Ek : outputs !! k = Some o) by (rewrite <- (Nat.add_0_r k), <- lookup_drop, Ho; done).
  assert (Eq : ps !! k = Some q) by (rewrite <- (Nat.add_0_r k), <- lookup_drop, Hq; done).
  assert (Hi : q.1 = Z.of_nat k).
  { rewrite Hplace in Eq. unfold place in Eq. rewrite list_lookup_imap in Eq.
    destruct (ps.*2 !! k); [|done]. cbn in Eq. injection Eq as <-. done. }
  destruct (Forall_lookup_1 _ _ _ _ Hok Eq) as (Hmax & _ & _ & _ & o' & Ho' & _ & _ & Hfl).
  rewrite Hi, Nat2Z.id, Ek in Ho'. injection Ho' as <-.
  apply fee_floor_exact in Hfl; [|done..].
  assert (Hdrop : ∀ {A} (l : list A) x r, drop k l = x :: r → drop (S k) l = r).
  { intros A l x r Hd. rewrite <- Nat.add_1_r, <- drop_drop, Hd. done. }
  specialize (IH (S k) qs (Hdrop _ _ _ _ Ho) (Hdrop _ _ _ _ Hq)). cbn [length] in Hl.
  specialize (IH ltac:(lia)). lia.
Qed.

(** With every flag set, the walk placed every slot. *)
Lemma unobstructed_counts cfg sys s b outputs w :
  Forall (λ f, f = true) (settles w) → walk_inv cfg sys s outputs (segments b) w → segments b ≠ [] →
  placed 0 (segments b) (settles w) = place 0 (placed 0 (segments b) (settles w)).*2 ∧
  wslots w ≠ 0 ∧ skipped_slots w = 0.
Proof.
  intros Hall [Hwk Hlen Hreal Hcount Hsk Hfl] Hseg.
  assert (Hpl : ∀ segs flags off, length flags = length segs → Forall (λ f, f = true) flags →
    placed off segs flags = place off (concat (sg_slots <$> segs))).
  { induction segs as [|sg segs IH]; intros [|f flags] off Hl HF; try done.
    apply Forall_cons in HF as [-> HF]. cbn [placed]. rewrite fmap_cons, concat_cons, place_app.
    f_equal. apply IH; [|done]. cbn in Hl. lia. }
  rewrite (Hpl _ _ 0 Hlen Hall), place_snd. split; [done|].
  rewrite (wk_slots _ _ _ _ _ Hwk), (Hpl _ _ 0 Hlen Hall), len_place in *.
  change (len (concat (sg_slots <$> segments b))) with (total_slots (segments b)) in *.
  split; [|lia]. destruct (segments b) as [|sg segs]; [done|]. inversion Hfl as [|? ? ? ? [Hne _] _]; subst.
  rewrite total_slots_cons. pose proof (len_nonneg (concat (sg_slots <$> segs))).
  destruct (sg_slots sg); [done|]. rewrite len_cons. unfold total_slots. pose proof (len_nonneg l). lia.
Qed.

(** An honest submission is never refused as underpaid. When no
    nullifier of the bundle is used or repeated and every anchor holds, the
    submission-wide floor follows from each slot having met its own: rounding
    the payload up once never costs more than rounding it up slot by slot. *)
Theorem honest_submission_never_underpaid cfg sys s b outputs :
  valid_config cfg → unobstructed cfg sys s b →
  plan_settlement cfg sys s b outputs ≠ Err PayloadUnderpaid.
Proof.
  intros [_ _ Hmin] Hun. unfold plan_settlement.
  destruct (plan_walk cfg sys s b outputs) as [w|e] eqn:Hw; cbn.
  2: { pose proof (plan_walk_not_underpaid _ _ _ _ _ _ Hw). congruence. }
  assert (Hseg : segments b ≠ []) by (unfold plan_walk in Hw; by res_inv).
  apply plan_walk_inv in Hw as [Hw _].
  pose proof (unobstructed_settles_all _ _ _ _ _ _ Hun Hw) as Hall.
  destruct (unobstructed_counts _ _ _ _ _ _ Hall Hw Hseg) as (Hps & Hnz & Hsk).
  destruct Hw as [Hwk Hlen Hreal Hcount _ _].
  unfold plan_finish. rewrite (proj2 (Z.eqb_neq (wslots w) 0) Hnz). intros He. cbn [mbind result_bind] in He.
  err_step He; [err_inv He; by subst|]. apply ensure_Ok, Z.eqb_eq in Hx.
  err_step He; [err_inv He; by subst|]. apply ok_or_Ok, submission_floor_eq in Hx0 as ->.
  err_step He.
  2: { unfold ensure_output_capacity, fee_planck in He. err_inv He; by subst. }
  unfold ensure in He. case_match eqn:Hfloor; [done|]. apply Z.leb_gt in Hfloor.
  pose proof (bytes_per_fee_quantum_pos cfg) as Hq. pose proof (carried_bytes_le outputs) as Hcb.
  pose proof (div_ceil_sum_le output_bytes outputs _ Hq) as Hsum.
  assert (Hmono : div_ceil (carried_bytes outputs) (bytes_per_fee_quantum cfg)
                  ≤ div_ceil (sum_by output_bytes outputs) (bytes_per_fee_quantum cfg)).
  { apply div_ceil_spec; [done|]. etrans; [apply Hcb|]. by apply div_ceil_lower. }
  pose proof (sum_floors cfg outputs _ ltac:(lia) (wk_ok _ _ _ _ _ Hwk) Hps) as Hfl.
  rewrite <- (wk_slots _ _ _ _ _ Hwk), <- (wk_fee _ _ _ _ _ Hwk) in Hfl.
  specialize (Hfl ltac:(lia)). lia.
Qed.

(** ** The output budget *)

(** The per-block output budget holds. Along every history the
    outputs counted in a block never exceed [MaxOutputsPerBlock], and a
    settlement counts exactly two for each slot it settles. *)
Theorem output_budget_holds cfg sys s b outputs s' :
  valid_config cfg → pool_inv cfg sys s → bundle_wf b →
  settle (E := E) (D := D) cfg sys s b outputs = Ok s' →
  ∃ p, plan_settlement cfg sys s b outputs = Ok p ∧
    outputs_written_this_block sys s' = outputs_written_this_block sys s + 2 * pl_slots p ∧
    outputs_written_this_block sys s' ≤ MaxOutputsPerBlock cfg.
Proof.
  intros [Hr Ho _] [Ht _ _ _ Hpool _ Hout] Hwf Hs.
  apply settle_Ok_inv in Hs as (p & Hc & Heff & _); [|done..|lia].
  pose proof (check_plan _ _ _ _ _ _ Hc) as [Hplan _]. exists p. split; [done|].
  destruct (plan_settlement_inv _ _ _ _ _ _ Hplan) as (w & _ & Hw & Hfin & Es & Esl & _).
  destruct (walk_slots_bound _ _ _ _ _ _ Hw) as [Hws _].
  destruct (plan_finish_bounds _ _ _ _ _ _ Hfin) as (_ & _ & _ & _ & _ & _ & Hb); [lia..|].
  assert (Hn : pl_slots p = len (plan_slots b p)).
  { unfold plan_slots. rewrite Esl, Es. apply Hw. }
  rewrite <- Esl, Hn in *. unfold sat_mul in Hb.
  rewrite (se_outputs _ _ _ _ Heff) by lia. lia.
Qed.

(** ** Entering the pool *)

(** [shield] creates exactly the note it is paid for. On success the
    caller burnt [value], a whole positive number of steps within the
    circuit's 62 bits, the next leaf is the commitment to that many steps
    under the caller's [inner], the pool grew by [value], and no nullifier
    moved. On any other input the call is refused. *)
Theorem shield_mints_exactly_its_value cfg sys s who value inner ct s' :
  pool_inv cfg sys s → PoolValue s + value ≤ u_max 128 →
  do_shield (E := E) (D := D) cfg sys s who value inner ct = Ok s' →
  ∃ steps cm, value = steps * POOL_STEP ∧ 0 < steps ≤ MAX_VALUE ∧
    commitment inner steps = Some cm ∧
    leaf_at (ZkTreeState s') (leaf_count (ZkTreeState s)) = Some cm ∧
    burn_from (CurrencyState s) who value = Ok (CurrencyState s') ∧
    PoolValue s' = PoolValue s + value ∧ UsedNullifiers s' = UsedNullifiers s.
Proof.
  intros [Ht _ _ _ _ _ _] Hsum Hs. apply do_shield_Ok in Hs as Hn; [|done].
  destruct Hn as [[_ Hmod] Hrange (cm & Hcm & Hl & _) Hburn Hp _ Hu _ _ _ _].
  exists (value / POOL_STEP), cm. rewrite Hp, sat_add_exact by done.
  pose proof (Z.div_mod value POOL_STEP ltac:(done)). split_and!; done || lia.
Qed.

(** The coinbase note is worth what was deposited. An accepted deposit
    appends one leaf, the commitment of the author's [inner] to a whole number
    of steps, records that number for the leaf, moves exactly it into the pool
    and carries the remainder below one step over as pending fee; so the pool
    and the pending fee together grow by exactly the deposit. A refused one
    returns the whole amount and changes no value. *)
Theorem coinbase_note_is_exact sys s minted s' r :
  recorder_inv (ZkTreeState s) → 0 ≤ minted → 0 ≤ PoolValue s → 0 ≤ PendingCoinbaseFee s →
  PoolValue s + PendingCoinbaseFee s + minted ≤ u_max 128 →
  mint_coinbase (E := E) sys s minted = (s', r) →
  match r with
  | Ok _ => minted_note sys s minted s' ∧ 0 ≤ PendingCoinbaseFee s' < POOL_STEP ∧
      PoolValue s' + PendingCoinbaseFee s' = PoolValue s + PendingCoinbaseFee s + minted
  | Err back => back = minted ∧ deposit_refused s s'
  end.
Proof.
  intros Ht Hm Hp Hf Hsum Hmint. pose proof Hmint as Hacc.
  apply deposit_accounting in Hacc as (_ & _ & _ & Heq & _); [|done..].
  apply mint_coinbase_cases in Hmint; [|done..].
  destruct Hmint as [[-> Hr]|[-> Hn]]; [done|]. split_and!; [done| | |done].
  - rewrite (mn_change _ _ _ _ Hn). by apply Z.mod_pos_bound.
  - rewrite (mn_change _ _ _ _ Hn). by apply Z.mod_pos_bound.
Qed.
End Fees.

(** ** The provides tag *)
Section Tag.
Implicit Types b : SettlementBundle.

(** Sizes a decoded extrinsic always has. *)
Definition tag_wf b : Prop :=
  len (segments b) < 2 ^ 32 ∧
  Forall (λ sg, len (sg_slots sg) < 2 ^ 32 ∧
                Forall (λ n, length n = 32%nat) (nulls (sg_slots sg))) (segments b).

Definition same_spends (sg1 sg2 : Segment) : Prop :=
  length (sg_slots sg1) = length (sg_slots sg2) ∧ nulls (sg_slots sg1) ≡ₚ nulls (sg_slots sg2).

Lemma length_nulls l : length (nulls l) = (2 * length l)%nat.
Proof.
  induction l as [|x l IH]; [done|]. change (nulls (x :: l)) with (slot_nullifiers x ++ nulls l).
  rewrite length_app, IH. cbn. lia.
Qed.

Lemma concat_inj_32 (l1 l2 : list Hash256) :
  Forall (λ n, length n = 32%nat) l1 → Forall (λ n, length n = 32%nat) l2 → length l1 = length l2 →
  concat l1 = concat l2 → l1 = l2.
Proof.
  intros HF1. revert l2. induction HF1 as [|x l1 Hx _ IH]; intros [|y l2] HF2 Hl E; try done.
  apply Forall_cons in HF2 as [Hy HF2]. cbn in E. apply app_inj_1 in E as [-> E]; [|by rewrite Hx, Hy].
  f_equal. apply IH; [done| |done]. cbn in Hl. lia.
Qed.

Lemma as_u32_bytes_inj (x y : nat) :
  Z.of_nat x < 2 ^ 32 → Z.of_nat y < 2 ^ 32 →
  le_bytes 4 (as_u32 (Z.of_nat x)) = le_bytes 4 (as_u32 (Z.of_nat y)) → x = y.
Proof.
  unfold as_u32. intros Hx Hy. rewrite !Z.mod_small by lia. by apply u32_len_inj.
Qed.

Lemma length_concat_32 (l : list Hash256) :
  Forall (λ n, length n = 32%nat) l → length (concat l) = (length l * 32)%nat.
Proof.
  induction 1 as [|x l Hx _ IH]; [done|]. cbn [concat length]. rewrite length_app, Hx, IH. lia.
Qed.

Lemma tag_segments_inj segs1 segs2 :
  length segs1 = length segs2 →
  Forall (λ sg, len (sg_slots sg) < 2 ^ 32 ∧ Forall (λ n, length n = 32%nat) (nulls (sg_slots sg))) segs1 →
  Forall (λ sg, len (sg_slots sg) < 2 ^ 32 ∧ Forall (λ n, length n = 32%nat) (nulls (sg_slots sg))) segs2 →
  concat (tag_segment <$> segs1) = concat (tag_segment <$> segs2) → Forall2 same_spends segs1 segs2.
Proof.
  revert segs2. induction segs1 as [|sg1 segs1 IH]; intros [|sg2 segs2] Hl HF1 HF2 E; try done.
  apply Forall_cons in HF1 as [[Hc1 Hn1] HF1]. apply Forall_cons in HF2 as [[Hc2 Hn2] HF2].
  rewrite !fmap_cons, !concat_cons in E. unfold tag_segment at 1 3 in E. rewrite <- !app_assoc in E.
  apply app_inj_1 in E as [El E]; [|by rewrite !length_le_bytes].
  apply as_u32_bytes_inj in El; [|done..].
  fold (nulls (sg_slots sg1)) (nulls (sg_slots sg2)) in E.
  assert (Hsort : ∀ l : list Hash256, Forall (λ n, length n = 32%nat) l →
    Forall (λ n, length n = 32%nat) (merge_sort lex l) ∧ length (merge_sort lex l) = length l).
  { intros l Hf. by rewrite !merge_sort_Permutation. }
  destruct (Hsort _ Hn1) as [Hs1 Hls1], (Hsort _ Hn2) as [Hs2 Hls2].
  apply app_inj_1 in E as [En E].
  2: { rewrite !length_concat_32, Hls1, Hls2, !length_nulls by done. by rewrite El. }
  apply concat_inj_32 in En; [|done|done|by rewrite Hls1, Hls2, !length_nulls, El].
  constructor; [split; [done|]|apply IH; [cbn in Hl; lia|done..]].
  by rewrite <- (merge_sort_Permutation lex (nulls (sg_slots sg1))), En, merge_sort_Permutation.
Qed.

(** The pool's tag names the spends and nothing else. Two bundles hash
    the same tag preimage exactly when their segments, in order, have as many
    slots and spend the same nullifiers: neither the ciphertexts, nor the fees,
    nor the anchors, nor the order of slots inside a segment can make the same
    spends look different. *)
Theorem tag_identifies_the_spends b1 b2 :
  tag_wf b1 → tag_wf b2 →
  (tag_preimage b1 = tag_preimage b2 ↔ Forall2 same_spends (segments b1) (segments b2)).
Proof.
  intros [Hl1 HF1] [Hl2 HF2]. unfold tag_preimage. split.
  - intros E. apply app_inj_1 in E as [El E]; [|by rewrite !length_le_bytes].
    apply as_u32_bytes_inj in El; [|done..]. by apply tag_segments_inj.
  - intros HF. unfold len. rewrite (Forall2_length _ _ _ HF). f_equal.
    clear -HF. induction HF as [|sg1 sg2 l1 l2 [Hl Hp] _ IH]; [done|].
    rewrite !fmap_cons, !concat_cons, IH. f_equal. unfold tag_segment, len. rewrite Hl. f_equal.
    fold (nulls (sg_slots sg1)) (nulls (sg_slots sg2)). f_equal. by apply merge_sort_perm_eq.
Qed.
End Tag.
