(* ===== verification/ShieldedWitnesses.v ===== *)
(** * A small shielded chain

    A concrete currency, configuration and proof, over the real note tree: one
    note is shielded and then spent. The hypotheses of the pool's theorems hold
    of it, which each witness shows by applying its theorem there. *)

From stdpp Require Import base list numbers gmap sets relations.
From S2P Require Import Prelude Crypto NoteRules Layout Verifier VerifierProps Interfaces ZkTree ZkTreeProps Shielded ShieldedPlan ShieldedSettle ShieldedProps ShieldedFees.
#[local] Open Scope Z_scope.

(** A currency that is only its issuance. *)
#[global] Instance toy_currency : Currency Z unit := {|
  total_issuance c := Z.max 0 c;
  burn_from c _ v := if v <=? Z.max 0 c then Ok (Z.max 0 c - v) else Err tt;
  mint_into c _ v := Ok (Z.max 0 c + v);
|}.
#[global] Instance toy_currency_laws : CurrencyLaws Z unit.
Proof.
  constructor; cbn.
  - lia.
  - intros c c' who v Hv. destruct (Z.leb_spec v (Z.max 0 c)); [|done]. intros [= <-]. lia.
  - intros c c' who v Hv [= <-]. lia.
Qed.
#[local] Existing Instance toy_plonky.

Definition toy_cfg : Config QneroPrivateBatchVerifier QneroPublicBatchVerifier := {|
  BlockHashWindow := 100; MinLeafFee := 10; CiphertextBytesPerFeeQuantum := 512;
  FeeBurnRate := 500000; MaxCiphertextBytes := 4096; CiphertextRetentionBlocks := 0;
  MaxOutputsPerBlock := 2048;
  private_batch_verifier := Some {| prv_circuit_data := tt; prv_num_leaves := 1 |};
  public_batch_verifier := Some {| pub_circuit_data := tt; pub_num_inner := 2; pub_num_leaves := 1 |} |}.

Definition toy_sys : System := {|
  sys_block_number := 5;
  sys_block_hash n := if n =? 3 then digest_of_limbs [9; 9; 9; 9] else zero_hash;
  sys_block_author := Some zero_hash |}.

Definition toy_ct : list Z := [0; 1; 0] ++ replicate 1789 6.
Definition toy_output : ShieldedOutput := {| ct_1 := toy_ct; ct_2 := toy_ct |}.
Definition toy_inputs : PrivateBatchPublicInputs Z := {|
  block_hash := [9; 9; 9; 9]; block_number := 3;
  slots := [{| nullifiers := ([1; 1; 1; 1], [2; 2; 2; 2]); commitments := ([3; 3; 3; 3], [4; 4; 4; 4]);
               fee := 20; Verifier.ct_digest := limbs (NoteRules.ct_digest [toy_ct; toy_ct]) |}] |}.
Definition toy_proof_bytes : list Z := private_batch_felts toy_inputs.
Definition toy_bundle : SettlementBundle := from_private_batch toy_inputs.
Definition toy_submit : Call := submit_private_batch toy_proof_bytes [toy_output].

Abbreviation ToyPool := (Pool TreeState Z).
Definition toy_pool0 : ToyPool := genesis_pool genesis_tree 100000000000000.
Definition toy_inner : Hash256 := digest_of_limbs [7; 7; 7; 7].
Definition toy_shield : Call := shield (1000 * POOL_STEP) toy_inner [].
(** A note of 1000 steps is shielded, then the bundle is settled. *)
Definition toy_pool1 : ToyPool :=
  dispatch (E := TreeError) (D := unit) toy_cfg toy_sys toy_pool0 (OriginSigned zero_hash) toy_shield.
Definition toy_pool2 : ToyPool :=
  dispatch (E := TreeError) (D := unit) toy_cfg toy_sys toy_pool1 OriginNone toy_submit.

Lemma toy_valid_config : valid_config toy_cfg.
Proof. constructor; [split; done|split; done|split; done]. Qed.

Abbreviation toy_history := (rtc (pool_step (T := TreeState) (E := TreeError) (C := Z) (D := unit) (F := Z) toy_cfg)).

Lemma toy_history1 : toy_history (toy_sys, toy_pool0) (toy_sys, toy_pool1).
Proof. apply rtc_once, step_dispatch. Qed.
Lemma toy_history2 : toy_history (toy_sys, toy_pool0) (toy_sys, toy_pool2).
Proof. eapply rtc_r; [apply toy_history1|apply step_dispatch]. Qed.

Lemma toy_pool1_inv : pool_inv toy_cfg toy_sys toy_pool1.
Proof.
  eapply (history_inv (E := TreeError) (D := unit) (F := Z));
    [apply toy_valid_config|apply genesis_inv|apply toy_history1].
Qed.

Lemma toy_bundle_wf : bundle_wf toy_bundle.
Proof. apply (from_private_wf toy_inputs 1). repeat constructor. Qed.

Lemma toy_settles :
  settle (E := TreeError) (D := unit) toy_cfg toy_sys toy_pool1 toy_bundle [toy_output] = Ok toy_pool2.
Proof. vm_compute. reflexivity. Qed.

Definition toy_plan : PlannedSettlement := {|
  pl_fee_steps := 20; pl_slots := 1; pl_skipped_slots := 0; pl_carried_bytes := 3584; pl_settles := [true] |}.
Lemma toy_checks : check_settlement toy_cfg toy_sys toy_pool1 toy_bundle [toy_output] = Ok toy_plan.
Proof. vm_compute. reflexivity. Qed.

(** ** Witnesses *)
Lemma no_double_spend_witness :
  length (event_nulls (events toy_pool2)) = 2%nat ∧ NoDup (event_nulls (events toy_pool2)) ∧
  (∀ n, n ∈ UsedNullifiers toy_pool2 ↔ n ∈ event_nulls (events toy_pool2)) ∧
  zero_hash ∉ UsedNullifiers toy_pool2.
Proof.
  split; [by vm_compute|].
  refine (no_double_spend (E := TreeError) (D := unit) (F := Z) toy_cfg toy_sys genesis_tree 100000000000000 toy_sys toy_pool2 _ _ _);
    [apply toy_valid_config|apply genesis_inv|apply toy_history2].
Defined.

Lemma checked_settlement_succeeds_witness :
  ∃ s', settle (E := TreeError) (D := unit) toy_cfg toy_sys toy_pool1 toy_bundle [toy_output] = Ok s'.
Proof.
  exact (checked_settlement_succeeds (E := TreeError) (D := unit) toy_cfg toy_sys toy_pool1 toy_bundle
           [toy_output] toy_plan toy_valid_config toy_pool1_inv toy_bundle_wf toy_checks).
Defined.

Lemma settlement_writes_exactly_the_plan_witness :
  ∃ p, plan_settlement toy_cfg toy_sys toy_pool1 toy_bundle [toy_output] = Ok p ∧
    settled_effect (E := TreeError) toy_sys toy_pool1 (plan_slots toy_bundle p) toy_pool2.
Proof.
  edestruct (settlement_writes_exactly_the_plan (E := TreeError) (D := unit) toy_cfg toy_sys toy_pool1
    toy_bundle [toy_output] toy_pool2 toy_valid_config toy_pool1_inv toy_bundle_wf toy_settles)
    as (p & Hp & He & _). exists p. exact (conj Hp He).
Defined.

Lemma admitted_settlements_dispatch_witness :
  ∃ s', call_body (E := TreeError) (D := unit) toy_cfg toy_sys toy_pool1 OriginNone toy_submit = Ok s'.
Proof.
  edestruct (admitted_settlements_dispatch (E := TreeError) (D := unit) toy_cfg toy_sys toy_pool1 toy_submit
    toy_valid_config toy_pool1_inv eq_refl) as [Hadm Hdis].
  apply Hdis. eapply Hadm. vm_compute. reflexivity.
Defined.

Lemma settlement_burns_exactly_witness :
  ∃ p, plan_settlement toy_cfg toy_sys toy_pool1 toy_bundle [toy_output] = Ok p ∧
    PoolValue toy_pool2 = PoolValue toy_pool1 - pl_fee_steps p * POOL_STEP ∧
    total_value (D := unit) toy_pool2 = total_value (D := unit) toy_pool1 - burn_steps toy_cfg (pl_fee_steps p) * POOL_STEP.
Proof.
  edestruct (settlement_burns_exactly (E := TreeError) (D := unit) toy_cfg toy_sys toy_pool1
    toy_bundle [toy_output] toy_pool2 toy_valid_config toy_pool1_inv toy_bundle_wf)
    as (p & Hp & _ & H1 & H2 & _); [vm_compute; discriminate|exact toy_settles|].
  exists p. exact (conj Hp (conj H1 H2)).
Defined.

Lemma calls_never_create_value_witness :
  total_value (D := unit) toy_pool2 ≤ total_value (D := unit) toy_pool1 ∧
  total_value (D := unit) toy_pool1 - total_value (D := unit) toy_pool2 = 10 * POOL_STEP.
Proof.
  split; [|by vm_compute].
  exact (calls_never_create_value (E := TreeError) (D := unit) toy_cfg toy_sys toy_pool1 OriginNone toy_submit
           toy_valid_config toy_pool1_inv).
Defined.

Lemma replayed_bundle_is_refused_witness :
  ∃ e, plan_settlement toy_cfg toy_sys toy_pool2 toy_bundle [toy_output] = Err e.
Proof.
  exact (replayed_bundle_is_refused (E := TreeError) (D := unit) toy_cfg toy_sys toy_pool1 toy_bundle
           [toy_output] [toy_output] toy_pool2 toy_valid_config toy_pool1_inv toy_bundle_wf toy_settles).
Defined.

Lemma payload_is_bound_witness :
  bytes_collide [ct_preimage [ct_1 toy_output; ct_2 toy_output]; ct_preimage [ct_1 toy_output; ct_2 toy_output]] ∨ toy_output = toy_output.
Proof.
  refine (payload_is_bound (E := TreeError) toy_cfg toy_sys toy_sys toy_pool1 toy_pool1 toy_bundle
    [toy_output] [toy_output] toy_plan toy_plan 0 _ toy_output toy_output toy_checks toy_checks _ _ _ _ _);
    [|reflexivity..].
  vm_compute. reflexivity.
Defined.

Lemma submission_pays_its_floor_witness :
  len (real_slots toy_bundle) * MinLeafFee toy_cfg
    + div_ceil (carried_bytes [toy_output]) (bytes_per_fee_quantum toy_cfg) ≤ 20.
Proof.
  refine (proj1 (proj2 (submission_pays_its_floor (E := TreeError) toy_cfg toy_sys toy_pool1 toy_bundle
    [toy_output] toy_plan _))). vm_compute. reflexivity.
Defined.

Lemma toy_unobstructed : unobstructed toy_cfg toy_sys toy_pool1 toy_bundle.
Proof.
  split_and!.
  - intros n _. vm_compute. by intros ?.
  - apply (bool_decide_unpack _). vm_compute. done.
  - intros seg Hin. apply list_elem_of_singleton in Hin as ->. by vm_compute.
Qed.

Lemma honest_submission_never_underpaid_witness :
  plan_settlement toy_cfg toy_sys toy_pool1 toy_bundle [toy_output] ≠ Err PayloadUnderpaid.
Proof.
  exact (honest_submission_never_underpaid (E := TreeError) toy_cfg toy_sys toy_pool1 toy_bundle [toy_output]
           toy_valid_config toy_unobstructed).
Defined.

Lemma output_budget_holds_witness :
  ∃ p, plan_settlement toy_cfg toy_sys toy_pool1 toy_bundle [toy_output] = Ok p ∧
    outputs_written_this_block toy_sys toy_pool2 = outputs_written_this_block toy_sys toy_pool1 + 2 * pl_slots p ∧
    outputs_written_this_block toy_sys toy_pool2 ≤ MaxOutputsPerBlock toy_cfg.
Proof.
  exact (output_budget_holds (E := TreeError) (D := unit) toy_cfg toy_sys toy_pool1 toy_bundle [toy_output]
           toy_pool2 toy_valid_config toy_pool1_inv toy_bundle_wf toy_settles).
Defined.

Lemma toy_pool0_inv : pool_inv toy_cfg toy_sys toy_pool0.
Proof. apply genesis_pool_inv; [apply toy_valid_config|apply genesis_inv]. Qed.

Lemma shield_mints_exactly_its_value_witness :
  ∃ steps cm, 1000 * POOL_STEP = steps * POOL_STEP ∧ 0 < steps ≤ MAX_VALUE ∧
    commitment toy_inner steps = Some cm ∧ Leaves (ZkTreeState toy_pool1) !! 0 = Some cm ∧
    burn_from (CurrencyState toy_pool0) zero_hash (1000 * POOL_STEP) = Ok (CurrencyState toy_pool1) ∧
    PoolValue toy_pool1 = PoolValue toy_pool0 + 1000 * POOL_STEP ∧
    UsedNullifiers toy_pool1 = UsedNullifiers toy_pool0.
Proof.
  refine (shield_mints_exactly_its_value (E := TreeError) (D := unit) toy_cfg toy_sys toy_pool0 zero_hash
    (1000 * POOL_STEP) toy_inner [] toy_pool1 toy_pool0_inv _ _); [vm_compute; discriminate|].
  vm_compute. reflexivity.
Defined.

(** The author's address is set and a reward of three and a half steps is
    deposited. *)
Definition toy_pool3 : ToyPool :=
  dispatch (E := TreeError) (D := unit) toy_cfg toy_sys toy_pool2 OriginNone (coinbase toy_inner []).
Definition toy_pool4 : ToyPool := (mint_coinbase (E := TreeError) toy_sys toy_pool3 35000000000).1.

Lemma coinbase_note_is_exact_witness :
  minted_note (E := TreeError) toy_sys toy_pool3 35000000000 toy_pool4 ∧ PendingCoinbaseFee toy_pool4 = 5000000000.
Proof.
  split; [|by vm_compute].
  refine (proj1 (coinbase_note_is_exact (E := TreeError) toy_sys toy_pool3 35000000000 toy_pool4 (Ok tt) _ _ _ _ _ _)).
  - eapply (history_inv (E := TreeError) (D := unit) (F := Z));
      [apply toy_valid_config|apply genesis_inv|eapply rtc_r; [apply toy_history2|apply step_dispatch]].
  - vm_compute; discriminate.
  - vm_compute; discriminate.
  - vm_compute; discriminate.
  - vm_compute; discriminate.
  - vm_compute; reflexivity.
Defined.

(** The same spends under another anchor and another fee. *)
Definition toy_bundle' : SettlementBundle := {| segments := (λ sg,
  {| sg_block_hash := zero_hash; sg_block_number := 4;
     sg_slots := (λ sl, {| rs_nullifiers := ((rs_nullifiers sl).2, (rs_nullifiers sl).1);
        rs_commitments := rs_commitments sl; rs_fee := 99; rs_ct_digest := zero_hash |}) <$> sg_slots sg |})
  <$> segments toy_bundle |}.

Lemma tag_identifies_the_spends_witness :
  tag_preimage toy_bundle = tag_preimage toy_bundle' ∧ Forall2 same_spends (segments toy_bundle) (segments toy_bundle').
Proof.
  split; [by vm_compute|].
  refine (proj1 (tag_identifies_the_spends toy_bundle toy_bundle' _ _) _); [| |by vm_compute].
  - split; [by vm_compute|]. constructor; [|constructor]. split; [by vm_compute|].
    by repeat constructor.
  - split; [by vm_compute|]. constructor; [|constructor]. split; [by vm_compute|].
    by repeat constructor.
Defined.
