(* ===== verification/MiningRewards.v ===== *)
(** * Mining rewards

    [chain/pallets/mining-rewards/src/lib.rs]: the emission schedule, the
    collected transaction fees and the end-of-block payout, against the
    coinbase sink and the currency through their interfaces; then the chain of
    this pallet over the shielded pool. The invariant is the supply cap: what
    circulates, what is shielded and what is still owed never exceed
    [MaxSupply]. *)

From stdpp Require Import base list numbers gmap sets relations.
From S2P Require Import Prelude Crypto NoteRules Layout Verifier VerifierProps Interfaces ZkTree ZkTreeProps Shielded ShieldedProps ShieldedWitnesses.
#[local] Open Scope Z_scope.

Inductive RewardEvent :=
| CoinbaseCredited (amount : Z)
| FeesCollected (amount total : Z)
| PayoutDeferred (amount : Z)
| CoinbaseRejected (amount : Z).

Record RewardConfig := {
  MaxSupply : Z;
  EmissionDivisor : Z;
}.

(** The pallet's storage, with the currency and the sink it reaches. *)
Record Rewards {C S : Type} := {
  CollectedFees : Z;
  mr_events : list RewardEvent;
  mr_currency : C;
  mr_sink : S;
}.
Arguments Rewards : clear implicits.

Section Pallet.
Context {C D S : Type} `{Currency C D, CoinbaseSink S}.
Implicit Types (r : Rewards C S) (cfg : RewardConfig).

Definition put_fees (f : Z) r : Rewards C S :=
  {| CollectedFees := f; mr_events := mr_events r; mr_currency := mr_currency r; mr_sink := mr_sink r |}.
Definition put_sink (s : S) r : Rewards C S :=
  {| CollectedFees := CollectedFees r; mr_events := mr_events r; mr_currency := mr_currency r; mr_sink := s |}.
Definition mr_deposit_event (e : RewardEvent) r : Rewards C S :=
  {| CollectedFees := CollectedFees r; mr_events := mr_events r ++ [e];
     mr_currency := mr_currency r; mr_sink := mr_sink r |}.

Definition collect_transaction_fees (fees : Z) r : Rewards C S :=
  let r := put_fees (sat_add 128 (CollectedFees r) fees) r in
  mr_deposit_event (FeesCollected fees (CollectedFees r)) r.

Definition leaf_quantum : Z := default 0 (try_u 128 AMOUNT_SCALE_DOWN_FACTOR).

Definition quantize (amount : Z) : Z * Z :=
  let remainder := amount mod leaf_quantum in
  (sat_sub amount remainder, remainder).

Definition retain_unminted (reward : Z) r : Rewards C S :=
  put_fees (sat_add 128 (CollectedFees r) reward) r.

Definition pay_coinbase (amount : Z) r : Rewards C S :=
  let '(sink, res) := deposit_coinbase (mr_sink r) amount in
  let r := put_sink sink r in
  match res with
  | Ok _ => mr_deposit_event (CoinbaseCredited amount) r
  | Err returned =>
      if returned =? 0 then r
      else mr_deposit_event (CoinbaseRejected returned) (retain_unminted returned r)
  end.

(** The issuance, the fees taken this block and the shielded value. *)
Definition current_supply r (tx_fees : Z) : Z :=
  sat_add 128 (sat_add 128 (total_issuance (mr_currency r)) tx_fees) (shielded_supply (mr_sink r)).

Definition block_reward cfg r (tx_fees : Z) : Z :=
  default 0 (checked_div (sat_sub (MaxSupply cfg) (current_supply r tx_fees)) (EmissionDivisor cfg)).

(** [on_finalize]; the author is [extract_miner_from_digest]. *)
Definition rewards_on_finalize cfg (author : option Hash256) r : Rewards C S :=
  let tx_fees := CollectedFees r in
  let r := put_fees 0 r in
  let total_reward := block_reward cfg r tx_fees in
  let miner_gross := sat_add 128 tx_fees total_reward in
  match author with
  | None =>
      let r := retain_unminted miner_gross r in
      if miner_gross =? 0 then r else mr_deposit_event (PayoutDeferred miner_gross) r
  | Some _ =>
      let '(quantized, dust) := quantize miner_gross in
      retain_unminted dust (pay_coinbase quantized r)
  end.
End Pallet.

(** ** Supply *)
Section Supply.
Context {C D S : Type} `{Currency C D, !CurrencyLaws C D, CoinbaseSink S, !CoinbaseSinkLaws S}.
Implicit Types (r : Rewards C S) (cfg : RewardConfig).

(** Everything minted, shielded or owed. *)
Definition total_supply r : Z :=
  total_issuance (mr_currency r) + shielded_supply (mr_sink r) + CollectedFees r.

Record rewards_inv cfg r : Prop := {
  ri_sink : sink_inv (mr_sink r);
  ri_fees : 0 ≤ CollectedFees r;
  ri_cap : total_supply r ≤ MaxSupply cfg;
}.

Record valid_reward_config cfg : Prop := {
  vr_max : MaxSupply cfg ≤ u_max 128;
  vr_divisor : 0 < EmissionDivisor cfg;
}.

Lemma leaf_quantum_eq : leaf_quantum = 10000000000.
Proof. done. Qed.

Lemma quantize_spec amount q d :
  0 ≤ amount → quantize amount = (q, d) → q + d = amount ∧ 0 ≤ d < leaf_quantum ∧ 0 ≤ q ∧ q mod leaf_quantum = 0.
Proof.
  unfold quantize. intros Ha [= <- <-]. rewrite leaf_quantum_eq.
  pose proof (Z.mod_pos_bound amount 10000000000). pose proof (Z.mod_le amount 10000000000).
  rewrite sat_sub_exact by lia. split_and!; [lia..|].
  rewrite Zminus_mod_idemp_r, Z.sub_diag. done.
Qed.

(** The emission of a block, from its definition. *)
Definition emission cfg (supply : Z) : Z := (MaxSupply cfg - supply) / EmissionDivisor cfg.

Lemma emission_bounds cfg supply :
  valid_reward_config cfg → 0 ≤ supply ≤ MaxSupply cfg →
  0 ≤ emission cfg supply ∧ supply + emission cfg supply ≤ MaxSupply cfg.
Proof.
  intros [] Hs. unfold emission. split; [apply Z.div_pos; lia|].
  assert ((MaxSupply cfg - supply) / EmissionDivisor cfg ≤ MaxSupply cfg - supply)
    by (apply Z.div_le_upper_bound; nia). lia.
Qed.

Lemma supply_parts cfg r :
  valid_reward_config cfg → rewards_inv cfg r →
  0 ≤ total_issuance (mr_currency r) ∧ 0 ≤ shielded_supply (mr_sink r) ∧ 0 ≤ total_supply r ≤ MaxSupply cfg.
Proof.
  intros _ []. pose proof (total_issuance_nonneg (D := D) (mr_currency r)).
  pose proof (shielded_supply_nonneg _ ri_sink0). unfold total_supply in *. lia.
Qed.

Lemma block_reward_emission cfg r :
  valid_reward_config cfg → rewards_inv cfg r →
  block_reward (D := D) cfg (put_fees 0 r) (CollectedFees r) = emission cfg (total_supply r).
Proof.
  intros Hv Hi. destruct (supply_parts cfg r Hv Hi) as (? & ? & ?). destruct Hv, Hi.
  unfold block_reward, current_supply, emission, checked_div, total_supply in *. cbn.
  rewrite (sat_add_exact 128 (total_issuance (mr_currency r))) by lia.
  rewrite sat_add_exact, sat_sub_exact by lia.
  rewrite (proj2 (Z.eqb_neq _ _)) by lia. cbn. unfold id. f_equal. lia.
Qed.

(** Paying or retaining moves value between the sink and the pending fees. *)
Lemma pay_coinbase_spec r amount :
  sink_inv (mr_sink r) → 0 ≤ amount → CollectedFees r = 0 →
  shielded_supply (mr_sink r) + amount ≤ u_max 128 → 
  let r' := pay_coinbase amount r in
  sink_inv (mr_sink r') ∧ mr_currency r' = mr_currency r ∧ 0 ≤ CollectedFees r' ≤ amount ∧
  shielded_supply (mr_sink r') + CollectedFees r' = shielded_supply (mr_sink r) + amount.
Proof.
  intros Hs Ha Hf Hb. unfold pay_coinbase. pose proof (shielded_supply_nonneg _ Hs).
  destruct (deposit_coinbase (mr_sink r) amount) as [sink [[]|returned]] eqn:E.
  - apply deposit_coinbase_Ok in E as [? ?]; [|done..]. cbn. split_and!; try done; lia.
  - apply deposit_coinbase_Err in E as (? & -> & ?); [|done..].
    destruct (Z.eqb_spec amount 0) as [->|]; cbn; [split_and!; done || lia|].
    rewrite sat_add_exact by lia. split_and!; done || lia.
Qed.

Lemma finalize_supply cfg author r :
  valid_reward_config cfg → rewards_inv cfg r →
  let r' := rewards_on_finalize (D := D) cfg author r in
  rewards_inv cfg r' ∧ total_supply r' = total_supply r + emission cfg (total_supply r) ∧
  mr_currency r' = mr_currency r ∧ (is_Some author ∨ mr_sink r' = mr_sink r).
Proof.
  intros Hv Hi. pose proof (block_reward_emission cfg r Hv Hi) as Er.
  destruct (supply_parts cfg r Hv Hi) as (Hiss & Hsh & Hts).
  destruct (emission_bounds cfg _ Hv Hts) as [He0 He1]. destruct Hv, Hi.
  unfold rewards_on_finalize. rewrite Er. set (e := emission cfg (total_supply r)) in *.
  unfold total_supply in *. rewrite (sat_add_exact 128 (CollectedFees r) e) by lia.
  destruct author as [a|].
  - destruct (quantize (CollectedFees r + e)) as [q d] eqn:Eq.
    apply quantize_spec in Eq as (Hqd & Hd & Hq & _); [|lia].
    destruct (pay_coinbase_spec (put_fees 0 r) q) as (Hs' & Hc' & Hf' & Hsum'); [done|lia|done|cbn; lia|].
    set (r1 := pay_coinbase q (put_fees 0 r)) in *. cbn [mr_sink mr_currency put_fees] in *.
    unfold retain_unminted. cbn [CollectedFees put_fees mr_currency mr_sink].
    rewrite sat_add_exact by lia. split_and!; [|rewrite Hc'; lia|done|left; by eexists].
    constructor; cbn; [done|lia|]. unfold total_supply; cbn. rewrite Hc'. lia.
  - unfold retain_unminted.
    destruct (CollectedFees r + e =? 0); cbn; (rewrite sat_add_exact by lia);
      (split_and!; [constructor; cbn; try done; [lia|unfold total_supply; cbn; lia]|lia|done|by right]).
Qed.
End Supply.

(** ** The chain

    The pallet over the shielded pool, with the one currency they share: the
    pool's calls, the end of a block, the next block, a transaction fee, whose
    credit is dropped from the issuance as it is collected, and what the other
    pallets do to the tree and the currency. What charges a fee ([charged]) and
    what the other pallets do to balances ([others]) is not modelled. *)
Definition with_pool {T C : Type} (s : Pool T C) (r : Rewards C (Pool T C)) : Rewards C (Pool T C) :=
  {| CollectedFees := CollectedFees r; mr_events := mr_events r; mr_currency := CurrencyState s; mr_sink := s |}.

Section Chain.
Context {T E C D F : Type} `{ZkCommitmentRecorder T E, !ZkCommitmentRecorderLaws T E}.
Context `{Currency C D, !CurrencyLaws C D}.
Context `{PoseidonOps, !PoseidonLaws, SpOps, !SpLaws}.
Context `{FieldOps F, !FieldLaws F, PlonkyOps F}.
Context (pcfg : Config QneroPrivateBatchVerifier QneroPublicBatchVerifier) (cfg : RewardConfig).
Context (charged : Z → C → C → Prop) (others : C → C → Prop).
Implicit Types (sys : System) (r : Rewards C (Pool T C)).

Definition finalize_on_pool sys (author : option Hash256) r : Rewards C (Pool T C) :=
  rewards_on_finalize (D := D) (H0 := pool_sink (E := E) sys) cfg author r.

Inductive chain_step : System * Rewards C (Pool T C) → System * Rewards C (Pool T C) → Prop :=
| step_pool_call sys r origin call :
    chain_step (sys, r) (sys, with_pool (dispatch (E := E) (D := D) pcfg sys (mr_sink r) origin call) r)
| step_finalize sys r author : chain_step (sys, r) (sys, finalize_on_pool sys author r)
| step_block sys r sys' : chain_step (sys, r) (sys', with_pool (on_initialize (mr_sink r)) r)
| step_fee sys r fees c :
    0 ≤ fees → charged fees (mr_currency r) c →
    chain_step (sys, r) (sys, collect_transaction_fees fees (with_pool (put_currency c (mr_sink r)) r))
| step_others sys r t c :
    recorder_inv t → others (mr_currency r) c →
    chain_step (sys, r) (sys, with_pool (put_currency c (put_tree t (mr_sink r))) r).

Definition genesis_rewards (t : T) (c : C) : Rewards C (Pool T C) :=
  {| CollectedFees := 0; mr_events := []; mr_currency := c; mr_sink := genesis_pool t c |}.

(** What charging a fee and the other pallets do: a fee is withdrawn from the
    issuance, and nothing else raises it. *)
Definition fees_are_withdrawn : Prop :=
  ∀ fees c c', charged fees c c' → total_issuance c' + fees ≤ total_issuance c.
Definition others_never_mint : Prop := ∀ c c', others c c' → total_issuance c' ≤ total_issuance c.

Record chain_inv sys r : Prop := {
  ci_pool : pool_inv pcfg sys (mr_sink r);
  ci_shared : mr_currency r = CurrencyState (mr_sink r);
  ci_fees : 0 ≤ CollectedFees r;
  ci_cap : total_value (mr_sink r) + CollectedFees r ≤ MaxSupply cfg;
}.

Lemma chain_rewards_inv sys r :
  valid_reward_config cfg → chain_inv sys r →
  rewards_inv (D := D) (H0 := pool_sink (E := E) sys) cfg r ∧ PoolValue (mr_sink r) + PendingCoinbaseFee (mr_sink r) ≤ u_max 128.
Proof.
  intros [Hm _] [Hp Hc Hf Hcap]. pose proof (total_issuance_nonneg (D := D) (CurrencyState (mr_sink r))) as Hi.
  destruct Hp. unfold total_value in Hcap.
  assert (Hs : PoolValue (mr_sink r) + PendingCoinbaseFee (mr_sink r) ≤ u_max 128) by lia.
  split; [|done]. constructor; [cbn; split_and!; [done|lia..]|done|].
  unfold total_supply. rewrite Hc. cbn. rewrite pool_supply_exact by done. lia.
Qed.

(** The end of a block reaches the pool only through one deposit. *)
Lemma finalize_sink sys author r :
  valid_reward_config cfg → chain_inv sys r →
  ∃ s, mr_sink (finalize_on_pool sys author r) = s ∧ CurrencyState s = CurrencyState (mr_sink r) ∧ pool_inv pcfg sys s.
Proof.
  intros Hv Hi. destruct (chain_rewards_inv sys r Hv Hi) as [Hr Hs].
  pose proof (block_reward_emission (S := Pool T C) cfg r Hv Hr) as Er.
  destruct (supply_parts (S := Pool T C) cfg r Hv Hr) as (Hiss & Hsh & Hts).
  destruct (emission_bounds cfg _ Hv Hts) as [He0 He1].
  eexists. split; [reflexivity|]. unfold finalize_on_pool, rewards_on_finalize.
  rewrite Er. set (e := emission cfg _) in *. destruct Hi as [Hp Hc Hf Hcap], Hv as [Hm _].
  rewrite (sat_add_exact 128 (CollectedFees r) e) by (unfold total_supply in *; cbn in *; rewrite ?pool_supply_exact in * by done; lia).
  destruct author as [a|]; [|by case_match].
  destruct (quantize (CollectedFees r + e)) as [q d] eqn:Eq. apply quantize_spec in Eq as (Hqd & Hd & Hq & _); [|lia].
  assert (Hsink : mr_sink (retain_unminted d (pay_coinbase (H0 := pool_sink (E := E) sys) q (put_fees 0 r))) = (mint_coinbase (E := E) sys (mr_sink r) q).1).
  { unfold pay_coinbase. cbn [deposit_coinbase pool_sink mr_sink put_fees].
    destruct (mint_coinbase sys (mr_sink r) q) as [s' [[]|x]]; [done|]. by destruct (x =? 0). }
  rewrite Hsink. destruct (mint_coinbase (E := E) sys (mr_sink r) q) as [s' res] eqn:Em. cbn [fst].
  assert (Hfit : PoolValue (mr_sink r) + PendingCoinbaseFee (mr_sink r) + q ≤ u_max 128).
  { unfold total_supply in *. cbn in *. rewrite pool_supply_exact in * by done. lia. }
  split.
  - pose proof Hp as []. apply mint_coinbase_cases in Em; [|done|lia..].
    destruct Em as [[_ Href]|[_ [_ _ _ _ _ (_ & Hcur & _)]]]; [by apply Href|exact Hcur].
  - pose proof (mint_inv (E := E) pcfg sys (mr_sink r) q Hp Hq Hfit) as Hm'. by rewrite Em in Hm'.
Qed.

Lemma chain_step_inv x y :
  valid_config pcfg → valid_reward_config cfg → fees_are_withdrawn → others_never_mint →
  chain_step x y → chain_inv x.1 x.2 → chain_inv y.1 y.2.
Proof.
  intros Hpc Hv Hfees Hoth Hs Hi. pose proof Hi as [Hp Hc Hf Hcap].
  destruct Hs as [sys r origin call|sys r author|sys r sys'|sys r fees c Hf0 Hch|sys r t c Ht Ho]; cbn [fst snd] in *.
  - constructor; [exact (pool_step_inv (E := E) (D := D) (F := F) pcfg _ _ Hpc (step_dispatch pcfg sys _ origin call) Hp)|done|done|].
    pose proof (dispatch_total_value (E := E) (D := D) (F := F) pcfg sys (mr_sink r) origin call Hpc Hp). cbn in *. lia.
  - destruct (chain_rewards_inv sys r Hv Hi) as [Hr Hsum]. destruct (finalize_sink sys author r Hv Hi) as (s & Es & Ecur & Hp').
    destruct (finalize_supply (S := Pool T C) cfg author r Hv Hr) as ([Hk Hf' Hcap'] & _ & Hcr & _).
    change (rewards_on_finalize cfg author r) with (finalize_on_pool sys author r) in *.
    constructor; [by rewrite Es|by rewrite Hcr, Es, Ecur, Hc|done|].
    unfold total_supply in Hcap'. cbn in Hk, Hcap'. destruct Hk as (_ & _ & _ & Hk). rewrite pool_supply_exact in Hcap' by done.
    rewrite Hcr, Hc, <- Ecur, <- Es in Hcap'. unfold total_value. lia.
  - constructor; [exact (pool_step_inv (E := E) (D := D) (F := F) pcfg _ _ Hpc (step_next_block pcfg sys _ sys') Hp)|done..].
  - specialize (Hfees _ _ _ Hch). rewrite Hc in Hfees. destruct Hv as [Hm _].
    pose proof (total_issuance_nonneg (D := D) c). unfold total_value in Hcap. destruct Hp.
    constructor; [by constructor|done|cbn; unfold sat_add; lia|]. unfold total_value. cbn. unfold sat_add. lia.
  - specialize (Hoth _ _ Ho). rewrite Hc in Hoth. unfold total_value in Hcap. destruct Hp.
    constructor; [by constructor|done|done|]. unfold total_value. cbn. lia.
Qed.

(** C36: the supply cap holds. From a genesis with an empty pool, no fees and
    an issuance within [MaxSupply], along every history of pool calls (by any
    origin), block ends with or without an author, new blocks, transaction fees
    and activity of the other pallets, the transparent issuance, the shielded
    value with the fees owed to authors, and the unpaid rewards together never
    exceed [MaxSupply]. Two things about code that is not modelled are assumed:
    a transaction fee is withdrawn from the issuance before it is counted, and
    the other pallets do not mint. *)
Theorem supply_never_exceeds_cap sys0 (t : T) (c : C) sys r
    (Hpool : valid_config pcfg) (Hcfg : valid_reward_config cfg)
    (Hfees : fees_are_withdrawn) (Hothers : others_never_mint)
    (Ht : recorder_inv t) (Hgenesis : total_issuance c ≤ MaxSupply cfg)
    (Hhist : rtc chain_step (sys0, genesis_rewards t c) (sys, r)) :
  mr_currency r = CurrencyState (mr_sink r) ∧
  total_issuance (mr_currency r) + PoolValue (mr_sink r) + PendingCoinbaseFee (mr_sink r) + CollectedFees r ≤ MaxSupply cfg.
Proof.
  assert (Hall : ∀ x y, rtc chain_step x y → chain_inv x.1 x.2 → chain_inv y.1 y.2).
  { induction 1 as [|x y z Hs _ IH]; [done|]. intros Hx. apply IH. by eapply chain_step_inv. }
  assert (Hg : chain_inv sys0 (genesis_rewards t c)).
  { constructor; [by apply genesis_pool_inv|done|done|]. unfold total_value. cbn. lia. }
  destruct (Hall _ _ Hhist Hg) as [_ Hc _ Hcap]. cbn in *. unfold total_value in Hcap. split; [done|]. rewrite Hc. lia.
Qed.
End Chain.

Section Cap.
Context {C D S : Type} `{Currency C D, !CurrencyLaws C D, CoinbaseSink S, !CoinbaseSinkLaws S}.
Implicit Types (r : Rewards C S) (cfg : RewardConfig).

(** A block emits exactly its share of what is left. The total supply
    grows by [(MaxSupply - supply) / EmissionDivisor], whether the block has an
    author whose note is accepted, one whose note is refused, or none: nothing
    is lost on the way and nothing is minted twice. The next block emits no
    more than this one, and without an author nothing reaches the sink. *)
Theorem block_emission_is_exact cfg author r :
  valid_reward_config cfg → rewards_inv (D := D) cfg r →
  let r' := rewards_on_finalize (D := D) cfg author r in
  total_supply (D := D) r' = total_supply (D := D) r + emission cfg (total_supply (D := D) r) ∧
  emission cfg (total_supply (D := D) r') ≤ emission cfg (total_supply (D := D) r) ∧
  total_issuance (mr_currency r') = total_issuance (mr_currency r) ∧
  (author = None → mr_sink r' = mr_sink r).
Proof.
  intros Hv Hi. destruct (finalize_supply cfg author r Hv Hi) as (Hi' & Ht & Hc & Hs).
  destruct (supply_parts cfg r Hv Hi) as (_ & _ & Hts).
  destruct (emission_bounds cfg _ Hv Hts) as [He _].
  cbv zeta. split_and!; [done| |by rewrite Hc|].
  - unfold emission at 1 2. rewrite Ht. destruct Hv. apply Z.div_le_mono; lia.
  - intros ->. destruct Hs as [[? ?]|]; done.
Qed.
End Cap.

(** ** Witnesses: over the shielded pool itself *)
Definition toy_reward_cfg : RewardConfig := {| MaxSupply := 1000000000000000; EmissionDivisor := 1000 |}.
#[local] Instance toy_sink : CoinbaseSink ToyPool := pool_sink (E := TreeError) toy_sys.
#[local] Instance toy_sink_laws : CoinbaseSinkLaws ToyPool := pool_sink_laws (E := TreeError) toy_sys.
(** The pool after its coinbase payload was set, with fees to pay out. *)
Definition toy_rewards : Rewards Z ToyPool :=
  {| CollectedFees := 12345; mr_events := []; mr_currency := CurrencyState toy_pool3; mr_sink := toy_pool3 |}.

Lemma toy_reward_cfg_valid : valid_reward_config toy_reward_cfg.
Proof. constructor; vm_compute; done. Qed.

Lemma toy_rewards_inv : rewards_inv (D := unit) toy_reward_cfg toy_rewards.
Proof.
  constructor; [|vm_compute; done..]. cbn [sink_inv toy_sink pool_sink mr_sink toy_rewards].
  split_and!; [|vm_compute; done..].
  eapply (history_inv (E := TreeError) (D := unit) (F := Z));
    [apply toy_valid_config|apply genesis_inv|eapply rtc_r; [apply toy_history2|apply step_dispatch]].
Qed.

(** From genesis: the three calls, a fee, the end of the block and the next. *)
Definition toy_charged (fees c c' : Z) : Prop := 0 ≤ fees ∧ burn_from (D := unit) c zero_hash fees = Ok c'.
Definition toy_others (c c' : Z) : Prop := ∃ v, 0 ≤ v ∧ burn_from (D := unit) c zero_hash v = Ok c'.
Abbreviation toy_step := (chain_step (T := TreeState) (E := TreeError) (D := unit) (F := Z) toy_cfg toy_reward_cfg toy_charged toy_others).
Abbreviation toy_call origin call r := (with_pool (dispatch (E := TreeError) (D := unit) toy_cfg toy_sys (mr_sink r) origin call) r).
Definition toy_chain0 : Rewards Z ToyPool := genesis_rewards genesis_tree 100000000000000.
Definition toy_chain1 : Rewards Z ToyPool := toy_call OriginNone (coinbase toy_inner []) (toy_call OriginNone toy_submit
  (toy_call (OriginSigned zero_hash) toy_shield toy_chain0)).
Definition toy_chain2 : Rewards Z ToyPool :=
  collect_transaction_fees 12345 (with_pool (put_currency (mr_currency toy_chain1 - 12345) (mr_sink toy_chain1)) toy_chain1).
Definition toy_chain3 : Rewards Z ToyPool :=
  finalize_on_pool (E := TreeError) (D := unit) toy_reward_cfg toy_sys (Some zero_hash) toy_chain2.

Lemma toy_chain_history : rtc toy_step (toy_sys, toy_chain0) (toy_sys, toy_chain3).
Proof.
  do 3 (eapply rtc_l; [apply step_pool_call|]). eapply rtc_l; [|apply rtc_once, step_finalize].
  apply (step_fee (E := TreeError) (D := unit) (F := Z) toy_cfg toy_reward_cfg toy_charged toy_others toy_sys toy_chain1 12345); [done|].
  split; [done|]. by vm_compute.
Qed.
Lemma toy_fees_withdrawn : fees_are_withdrawn (D := unit) toy_charged.
Proof. intros fees c c' [Hf Hb]. apply burn_from_issuance in Hb; [lia|done]. Qed.
Lemma toy_others_burn : others_never_mint (D := unit) toy_others.
Proof. intros c c' (v & Hv & Hb). apply burn_from_issuance in Hb; [lia|done]. Qed.

Lemma supply_never_exceeds_cap_witness :
  mr_events toy_chain3 = [FeesCollected 12345 12345; CoinbaseCredited 900000000000] ∧
  total_issuance (mr_currency toy_chain3) + PoolValue (mr_sink toy_chain3) + PendingCoinbaseFee (mr_sink toy_chain3) +
    CollectedFees toy_chain3 ≤ MaxSupply toy_reward_cfg.
Proof.
  split; [by vm_compute|].
  exact (proj2 (supply_never_exceeds_cap (E := TreeError) (D := unit) (F := Z) toy_cfg toy_reward_cfg toy_charged toy_others
    toy_sys genesis_tree 100000000000000 toy_sys toy_chain3 toy_valid_config toy_reward_cfg_valid toy_fees_withdrawn toy_others_burn
    genesis_inv ltac:(by vm_compute) toy_chain_history)).
Defined.

Lemma block_emission_is_exact_witness :
  let r' := rewards_on_finalize (D := unit) toy_reward_cfg (Some zero_hash) toy_rewards in
  mr_events r' = [CoinbaseCredited 900000000000] ∧
  total_supply (D := unit) r' =
    total_supply (D := unit) toy_rewards + emission toy_reward_cfg (total_supply (D := unit) toy_rewards).
Proof.
  cbv zeta. split; [by vm_compute|].
  exact (proj1 (block_emission_is_exact (D := unit) toy_reward_cfg (Some zero_hash) toy_rewards
           toy_reward_cfg_valid toy_rewards_inv)).
Defined.
