(* ===== verification/Qpow.v ===== *)
(** * Difficulty retargeting

    [chain/pallets/qpow/src/lib.rs]: the per-block difficulty adjustment, on
    512-bit saturating arithmetic, and the state it keeps. *)

From stdpp Require Import base list numbers.
From S2P Require Import Prelude.
#[local] Open Scope Z_scope.

Definition MIN_RETARGET_BLOCK_TIME_MS : Z := 500.
Definition RETARGET_LN2_NUM : Z := 693147.
Definition RETARGET_LN2_DEN : Z := 1000000.
Definition RETARGET_INCREMENT_DIVISOR : Z := 2048.
Definition MAX_RETARGET_DECREASE_UNITS : Z := 99.
Definition MAX_RETARGET_INCREASE_UNITS : Z := 1.

(** [u64 as i64], and [i64] subtraction as the release runtime does it. *)
Definition wrap_i64 (z : Z) : Z := (z + 2 ^ 63) mod 2 ^ 64 - 2 ^ 63.

Definition retarget_divisor (target_time_ms : Z) : Z :=
  Z.max (default 1 (checked_div (sat_mul 64 target_time_ms RETARGET_LN2_NUM) RETARGET_LN2_DEN)) 1.

Definition get_min_difficulty : Z := 128.
Definition get_max_difficulty : Z := u_max 512.

(** How many increments the difficulty moves. *)
Definition adjustment_units (block_time_ms target_time_ms : Z) : Z :=
  let block_time_ms := Z.max block_time_ms MIN_RETARGET_BLOCK_TIME_MS in
  let divisor_ms := retarget_divisor target_time_ms in
  let time_factor := wrap_i64 (block_time_ms / divisor_ms) in
  Z.min (Z.max (wrap_i64 (1 - time_factor)) (- MAX_RETARGET_DECREASE_UNITS)) MAX_RETARGET_INCREASE_UNITS.

Definition calculate_difficulty (parent_difficulty block_time_ms target_time_ms : Z) : Z :=
  let adjustment := adjustment_units block_time_ms target_time_ms in
  let increment := Z.max (parent_difficulty / RETARGET_INCREMENT_DIVISOR) 1 in
  let new_difficulty :=
    if 0 <=? adjustment then sat_add 512 parent_difficulty (sat_mul 512 increment adjustment)
    else sat_sub parent_difficulty (sat_mul 512 increment (- adjustment)) in
  if new_difficulty <? get_min_difficulty then get_min_difficulty
  else if get_max_difficulty <? new_difficulty then get_max_difficulty
  else new_difficulty.

(** ** State *)
Inductive QpowEvent := DifficultyAdjusted (old_difficulty new_difficulty observed_block_time : Z).

Record QpowConfig := { InitialDifficulty : Z; TargetBlockTime : Z }.
Record Qpow := {
  LastBlockTime : Z;
  LastBlockDuration : Z;
  CurrentDifficulty : Z;
  TargetBlockTimeMs : Z;
  qpow_events : list QpowEvent;
}.

Definition get_difficulty (cfg : QpowConfig) (q : Qpow) : Z :=
  if CurrentDifficulty q =? 0 then InitialDifficulty cfg else CurrentDifficulty q.
Definition target_block_time (cfg : QpowConfig) (q : Qpow) : Z :=
  if TargetBlockTimeMs q =? 0 then TargetBlockTime cfg else TargetBlockTimeMs q.

(** [GenesisConfig::build]; its assertions refuse a chain spec. *)
Definition genesis_build (initial_difficulty target_block_time : Z) : option Qpow :=
  if negb ((get_min_difficulty <=? initial_difficulty) && (initial_difficulty <? get_max_difficulty)) then None
  else if negb (0 <? target_block_time) then None
  else Some {| LastBlockTime := 0; LastBlockDuration := 0; CurrentDifficulty := initial_difficulty;
               TargetBlockTimeMs := target_block_time; qpow_events := [] |}.

(** [on_finalize] of block [block_number] at time [now]. *)
Definition adjust_difficulty (cfg : QpowConfig) (block_number now : Z) (q : Qpow) : Qpow :=
  let current_difficulty := get_difficulty cfg q in
  let duration := sat_sub now (LastBlockTime q) in
  let block_time := if 1 <? block_number then duration else target_block_time cfg q in
  let target_time := target_block_time cfg q in
  let new_difficulty := calculate_difficulty current_difficulty block_time target_time in
  {| LastBlockTime := now;
     LastBlockDuration := if 1 <? block_number then duration else LastBlockDuration q;
     CurrentDifficulty := new_difficulty;
     TargetBlockTimeMs := TargetBlockTimeMs q;
     qpow_events := qpow_events q ++ [DifficultyAdjusted current_difficulty new_difficulty block_time] |}.

(** ** Properties *)
Section Retarget.
Definition valid_difficulty (d : Z) : Prop := get_min_difficulty ≤ d ≤ get_max_difficulty.

Lemma retarget_divisor_pos t : 1 ≤ retarget_divisor t.
Proof. unfold retarget_divisor. lia. Qed.

Lemma wrap_i64_small z : - 2 ^ 63 ≤ z < 2 ^ 63 → wrap_i64 z = z.
Proof. intros Hz. unfold wrap_i64. rewrite Z.mod_small; lia. Qed.

(** Below 2^62 ms the casts are exact. *)
Lemma adjustment_units_exact bt t :
  0 ≤ bt < 2 ^ 62 →
  adjustment_units bt t = Z.max (1 - Z.max bt 500 / retarget_divisor t) (-99) `min` 1.
Proof.
  intros Hb. unfold adjustment_units. pose proof (retarget_divisor_pos t).
  change MIN_RETARGET_BLOCK_TIME_MS with 500.
  set (f := Z.max bt 500 / retarget_divisor t).
  assert (0 ≤ f) by (apply Z.div_pos; lia).
  assert (f ≤ Z.max bt 500) by (apply Z.div_le_upper_bound; nia).
  rewrite (wrap_i64_small f), wrap_i64_small by lia. done.
Qed.

Lemma adjustment_range bt t : -99 ≤ adjustment_units bt t ≤ 1.
Proof. unfold adjustment_units, MAX_RETARGET_DECREASE_UNITS, MAX_RETARGET_INCREASE_UNITS. lia. Qed.

Definition increment (d : Z) : Z := Z.max (d / 2048) 1.

(** The retarget without saturation: one clamp to the valid range. *)
Lemma calculate_difficulty_eq d bt t :
  valid_difficulty d →
  calculate_difficulty d bt t =
    Z.max get_min_difficulty (Z.min (d + adjustment_units bt t * increment d) get_max_difficulty).
Proof.
  intros [Hd1 Hd2]. pose proof (adjustment_range bt t) as Ha.
  unfold calculate_difficulty. change RETARGET_INCREMENT_DIVISOR with 2048. fold (increment d).
  unfold get_min_difficulty, get_max_difficulty in *.
  assert (Hi : 1 ≤ increment d ≤ d).
  { unfold increment. assert (d / 2048 ≤ d) by (apply Z.div_le_upper_bound; lia). lia. }
  assert (Hi99 : 1 * increment d ≤ u_max 512) by lia.
  assert (Hmul : ∀ k, 0 ≤ k ≤ 99 → 0 ≤ sat_mul 512 (increment d) k ∧
    (increment d * k ≤ u_max 512 → sat_mul 512 (increment d) k = increment d * k)).
  { intros k Hk. unfold sat_mul. nia. }
  assert (Hmod : increment d * 99 ≤ u_max 512).
  { unfold increment. pose proof (Z.mul_div_le d 2048). assert (99 < u_max 512) by done. nia. }
  set (a := adjustment_units bt t) in *. clearbody a.
  destruct (Z.leb_spec 0 a).
  - rewrite sat_mul_exact by nia. unfold sat_add.
    repeat case_match; res_inv; try lia.
  - rewrite sat_mul_exact by nia. unfold sat_sub.
    repeat case_match; res_inv; try lia.
Qed.
End Retarget.

Section Theorems.
Lemma increment_pos d : 1 ≤ increment d.
Proof. unfold increment. lia. Qed.

(** Retargeting is a negative feedback. A slower block never yields a
    higher difficulty; a block faster than the divisor raises it by one
    increment, one between one and two divisors leaves it alone, a slower one
    lowers it until the floor, by at most 99 increments. So at the floor of
    128 a fast block still raises it: it cannot get stuck there. *)
Theorem retarget_is_negative_feedback d bt t :
  valid_difficulty d → 0 ≤ bt < 2 ^ 62 →
  let next := calculate_difficulty d bt t in
  let elapsed := Z.max bt 500 in
  let div := retarget_divisor t in
  valid_difficulty next ∧
  (∀ bt', bt ≤ bt' < 2 ^ 62 → calculate_difficulty d bt' t ≤ next) ∧
  (elapsed < div → next = Z.min (d + increment d) get_max_difficulty) ∧
  (div ≤ elapsed < 2 * div → next = d) ∧
  (2 * div ≤ elapsed → next < d ∨ next = get_min_difficulty) ∧
  d - 99 * increment d ≤ next ≤ d + increment d.
Proof.
  intros Hd Hb. cbv zeta. rewrite !calculate_difficulty_eq, !adjustment_units_exact by done.
  pose proof (retarget_divisor_pos t). pose proof (increment_pos d). destruct Hd as [Hd1 Hd2].
  unfold valid_difficulty, get_min_difficulty in *. assert (128 < get_max_difficulty) by done.
  set (e := Z.max bt 500). set (dv := retarget_divisor t) in *.
  split_and!; [lia|lia| | | | | |].
  - intros bt' Hb'. rewrite calculate_difficulty_eq, adjustment_units_exact by (done || lia).
    assert (e / dv ≤ Z.max bt' 500 / dv) by (apply Z.div_le_mono; unfold e; lia).
    unfold get_min_difficulty. fold dv. nia.
  - intros He. rewrite (Z.div_small e dv) by (unfold e in *; lia). lia.
  - intros He. assert (e / dv = 1) as ->; [|lia].
    symmetry. apply (Z.div_unique e dv 1 (e - dv)); lia.
  - intros He. assert (2 ≤ e / dv) by (apply Z.div_le_lower_bound; lia). nia.
  - nia.
  - assert (0 ≤ e / dv) by (apply Z.div_pos; unfold e; lia). nia.
Qed.

(** A chain that meets its target holds its difficulty: a block that
    takes exactly the target time, for any target from half a second to
    hundreds of years, leaves the difficulty unchanged. *)
Theorem on_target_block_is_neutral d t :
  valid_difficulty d → 500 ≤ t ≤ 2 ^ 44 → calculate_difficulty d t t = d.
Proof.
  intros Hd Ht. rewrite calculate_difficulty_eq, adjustment_units_exact by (done || lia).
  assert (Hdiv : retarget_divisor t = t * 693147 / 1000000).
  { unfold retarget_divisor, checked_div, RETARGET_LN2_NUM, RETARGET_LN2_DEN.
    rewrite sat_mul_exact by u_lia. cbn. unfold id. apply Z.max_l.
    apply Z.div_le_lower_bound; lia. }
  pose proof (Z.div_mod (t * 693147) 1000000 ltac:(done)).
  pose proof (Z.mod_pos_bound (t * 693147) 1000000 ltac:(done)).
  assert (Z.max t 500 / retarget_divisor t = 1) as ->.
  { symmetry. rewrite Hdiv. apply (Z.div_unique (Z.max t 500) _ 1 (t - t * 693147 / 1000000)); lia. }
  destruct Hd. unfold get_min_difficulty, get_max_difficulty in *. lia.
Qed.

(** The stored difficulty along a chain of blocks. *)
Definition run_blocks (cfg : QpowConfig) (q : Qpow) (blocks : list (Z * Z)) : Qpow :=
  foldl (λ q '(block_number, now), adjust_difficulty cfg block_number now q) q blocks.

(** From a genesis its assertions accept, the difficulty a miner is
    held to lies in [128, 2^512) after any sequence of blocks with any
    timestamps; the stored value is never the zero that stands for "unset",
    so the configured initial difficulty is never fallen back to. *)
Theorem difficulty_stays_valid cfg d0 t0 q blocks :
  genesis_build d0 t0 = Some q →
  let q' := run_blocks cfg q blocks in
  valid_difficulty (CurrentDifficulty q') ∧ get_difficulty cfg q' = CurrentDifficulty q' ∧
  TargetBlockTimeMs q' = t0.
Proof.
  intros Hg. cbv zeta.
  assert (Hnz : ∀ q, valid_difficulty (CurrentDifficulty q) → get_difficulty cfg q = CurrentDifficulty q).
  { intros q1 [Hq _]. unfold get_difficulty, get_min_difficulty in *.
    rewrite (proj2 (Z.eqb_neq _ _)); [done|lia]. }
  assert (Hinv : valid_difficulty (CurrentDifficulty (run_blocks cfg q blocks)) ∧
                 TargetBlockTimeMs (run_blocks cfg q blocks) = t0).
  { unfold run_blocks. induction blocks as [|[n now] blocks IH] using rev_ind.
    - unfold genesis_build in Hg. repeat case_match; try done. injection Hg as <-. cbn.
      split; [|done]. res_inv. unfold valid_difficulty. lia.
    - rewrite foldl_app. destruct IH as [IHd IHt]. cbn [foldl]. split; [|done].
      unfold adjust_difficulty; cbn [CurrentDifficulty]. rewrite Hnz by done.
      rewrite calculate_difficulty_eq by done. unfold valid_difficulty, get_min_difficulty.
      assert (128 < get_max_difficulty) by done. lia. }
  destruct Hinv. auto.
Qed.
End Theorems.

(** ** Witnesses *)
Lemma retarget_is_negative_feedback_witness :
  calculate_difficulty 128 1000 120000 = 129 ∧ calculate_difficulty 128 1000 120000 = Z.min (128 + increment 128) get_max_difficulty.
Proof.
  split; [by vm_compute|].
  refine (proj1 (proj2 (proj2 (retarget_is_negative_feedback 128 1000 120000 _ _))) _).
  - split; vm_compute; discriminate.
  - split; [discriminate|reflexivity].
  - vm_compute. reflexivity.
Defined.

Lemma on_target_block_is_neutral_witness : calculate_difficulty 1000000 120000 120000 = 1000000.
Proof.
  apply (on_target_block_is_neutral 1000000 120000); split; vm_compute; discriminate.
Defined.

Lemma difficulty_stays_valid_witness :
  let q := {| LastBlockTime := 0; LastBlockDuration := 0; CurrentDifficulty := 5000;
              TargetBlockTimeMs := 120000; qpow_events := [] |} in
  let q' := run_blocks {| InitialDifficulty := 5000; TargetBlockTime := 120000 |} q
              [(1, 1000); (2, 1500); (3, 99999999)] in
  CurrentDifficulty q' = 4804 ∧ valid_difficulty (CurrentDifficulty q').
Proof.
  cbv zeta. split; [by vm_compute|].
  refine (proj1 (difficulty_stays_valid _ 5000 120000 _ _ _)). vm_compute. reflexivity.
Defined.
