(* ===== verification/RandomX.v ===== *)
(** * Proof of work

    [chain/client/consensus/randomx/src/{seed,target,blob,seal,chain_management}.rs]:
    the seed schedule and the walk that resolves a seed on a branch, the
    difficulty and share rules, the mining blob, the seal, and the cumulative
    work that decides between branches. *)

From stdpp Require Import base list numbers gmap.
From S2P Require Import Prelude Crypto.
#[local] Open Scope Z_scope.

(** ** [seed.rs] *)
Definition DEFAULT_SEED_EPOCH_BLOCKS : Z := 2048.
Definition DEFAULT_SEED_EPOCH_LAG : Z := 128.

Definition seed_height (height epoch_blocks lag : Z) : Z :=
  let epoch := Z.max epoch_blocks 1 in
  if height <=? sat_add 64 epoch lag then 0
  else
    let anchor := height - lag - 1 in
    anchor - anchor mod epoch.

Definition next_seed_height (height epoch_blocks lag : Z) : Z :=
  seed_height (sat_add 64 height lag) epoch_blocks lag.

(** [trait ChainView]; [E] is the error string. *)
Record ChainView {E H : Type} := {
  canonical_hash : Z → result E (option H);
  parent_of : H → result E (option H);
}.
Arguments ChainView : clear implicits.

Section Walk.
Context {E H : Type} `{EqDecision H}.

(** The loop; [fuel] counts the iterations of [0..=max_walk]. *)
Fixpoint walk_branch (view : ChainView E H) (target_height : Z) (fuel : nat) (cursor : H)
  (cursor_height : Z) : result E (option H) :=
  match fuel with
  | O => Ok None
  | S fuel' =>
      if cursor_height =? target_height then Ok (Some cursor)
      else
        canonical ← canonical_hash view cursor_height;
        if bool_decide (canonical = Some cursor) then canonical_hash view target_height
        else if cursor_height =? 0 then Ok None
        else
          parent ← parent_of view cursor;
          match parent with
          | Some parent => walk_branch view target_height fuel' parent (cursor_height - 1)
          | None => Ok None
          end
  end.

Definition resolve_on_branch (view : ChainView E H) (parent_hash : H)
  (height target_height max_walk : Z) : result E (option H) :=
  if (height =? 0) || (height <=? target_height) then Ok None
  else walk_branch view target_height (S (Z.to_nat max_walk)) parent_hash (height - 1).
End Walk.

(** ** [target.rs] *)
(** Byte-reversed and read big-endian: the little-endian value. *)
Definition hash_as_le_u512 (hash : Hash256) : Z := le_val hash.

Definition meets_difficulty (hash : Hash256) (difficulty : Z) : bool :=
  if difficulty =? 0 then false
  else
    let full := hash_as_le_u512 hash * difficulty in
    let overflowed := u_max 512 <? full in
    let product := full mod 2 ^ 512 in
    negb overflowed && (product <=? u_max 256).

Definition share_target_u64 (share_difficulty : Z) : Z := u_max 64 / Z.max share_difficulty 1.

Definition meets_share_target (hash : Hash256) (target : Z) : bool :=
  le_val (take 8 (drop 24 hash)) <? target.

Definition difficulty_as_u64 (difficulty : Z) : Z :=
  if u_max 64 <? difficulty then u_max 64 else difficulty mod 2 ^ 64.

(** ** [blob.rs] *)
Definition MINING_BLOB_LEN : nat := 76.
Definition NONCE_OFFSET : nat := 39.
Definition NONCE_LEN : nat := 4.
Definition DOMAIN_TAG : list Z := [113; 110; 101; 114; 111; 47; 49].
Definition PRE_HASH_OFFSET : nat := 7.
Definition HEIGHT_OFFSET : nat := 43.
Definition EXTRA_NONCE_OFFSET : nat := 51.

(** [buf[off..off + src.len()].copy_from_slice(src)], in range. *)
Definition copy_at (off : nat) (src buf : list Z) : list Z :=
  take off buf ++ src ++ drop (off + length src) buf.

Definition build_blob (pre_hash : Hash256) (height extra_nonce nonce : Z) : list Z :=
  let blob := replicate MINING_BLOB_LEN 0 in
  let blob := copy_at 0 DOMAIN_TAG blob in
  let blob := copy_at PRE_HASH_OFFSET pre_hash blob in
  let blob := copy_at NONCE_OFFSET (le_bytes 4 nonce) blob in
  let blob := copy_at HEIGHT_OFFSET (le_bytes 8 height) blob in
  copy_at EXTRA_NONCE_OFFSET (le_bytes 4 extra_nonce) blob.

Definition set_nonce (blob : list Z) (nonce : Z) : list Z := copy_at NONCE_OFFSET (le_bytes 4 nonce) blob.
Definition read_nonce (blob : list Z) : Z := le_val (take NONCE_LEN (drop NONCE_OFFSET blob)).

(** ** [seal.rs] *)
Definition SEAL_LEN : nat := 64.
Definition SEAL_PADDING : list Z := replicate 56 0.
Record Seal := { seal_nonce : Z; seal_extra_nonce : Z }.
Inductive SealError := WrongLength (n : nat) | UnpinnedPadding.

Definition seal_encode (s : Seal) : list Z :=
  let bytes := replicate SEAL_LEN 0 in
  let bytes := copy_at 0 (le_bytes 4 (seal_nonce s)) bytes in
  let bytes := copy_at NONCE_LEN (le_bytes 4 (seal_extra_nonce s)) bytes in
  copy_at 8 SEAL_PADDING bytes.

Definition seal_decode (bytes : list Z) : result SealError Seal :=
  if negb (length bytes =? SEAL_LEN)%nat then Err (WrongLength (length bytes))
  else if negb (bool_decide (drop 8 bytes = SEAL_PADDING)) then Err UnpinnedPadding
  else Ok {| seal_nonce := le_val (take NONCE_LEN bytes);
             seal_extra_nonce := le_val (take 4 (drop NONCE_LEN bytes)) |}.

(** ** [chain_management.rs] *)
Definition is_heavier (candidate_work candidate_number current_work current_number : Z) : bool :=
  (current_work <? candidate_work) ||
  ((candidate_work =? current_work) && (current_number <? candidate_number)).

(** ** Properties: the seed schedule *)
Section Seed.
(** Monero's rule, with its mask. *)
Definition monero_seed_height (height epoch lag : Z) : Z :=
  if height <=? epoch + lag then 0 else Z.land (height - lag - 1) (Z.lnot (epoch - 1)).

Lemma mask_is_truncation a k : 0 ≤ k → Z.land a (Z.lnot (2 ^ k - 1)) = a - a mod 2 ^ k.
Proof.
  intros Hk. replace (2 ^ k - 1) with (Z.ones k) by (rewrite Z.ones_equiv; lia).
  rewrite <- Z.ldiff_land, Z.ldiff_ones_r, Z.shiftl_mul_pow2, Z.shiftr_div_pow2 by done.
  pose proof (Z.div_mod a (2 ^ k)). pose proof (Z.pow_pos_nonneg 2 k). lia.
Qed.

Lemma seed_height_unfold h epoch lag :
  0 < epoch → 0 ≤ lag → epoch + lag ≤ u_max 64 →
  seed_height h epoch lag = if h <=? epoch + lag then 0 else (h - lag - 1) - (h - lag - 1) mod epoch.
Proof.
  intros He Hl Hs. unfold seed_height. rewrite Z.max_l by lia. by rewrite sat_add_exact.
Qed.

(** The division-based schedule is Monero's masked one for every
    power-of-two epoch; the seed block is an epoch boundary at least [lag + 1]
    blocks deep; and the announced next seed is the one in force [lag] blocks
    later, so every block up to there is keyed by the current or by the
    announced seed. *)
Theorem seed_schedule_is_moneros h k lag :
  0 ≤ k → 0 ≤ lag ≤ 2 ^ k → 2 ^ k + lag ≤ u_max 64 → 0 ≤ h → h + lag ≤ u_max 64 →
  let epoch := 2 ^ k in
  seed_height h epoch lag = monero_seed_height h epoch lag ∧
  seed_height h epoch lag mod epoch = 0 ∧
  (epoch + lag < h → 0 ≤ seed_height h epoch lag ≤ h - lag - 1 ∧ h - lag - 1 < seed_height h epoch lag + epoch) ∧
  (∀ h', h ≤ h' ≤ h + lag →
     seed_height h' epoch lag = seed_height h epoch lag ∨
     seed_height h' epoch lag = next_seed_height h epoch lag).
Proof.
  intros Hk Hlag Hsum Hh Hhl epoch. pose proof (Z.pow_pos_nonneg 2 k ltac:(done) Hk) as He. fold epoch in He, Hlag, Hsum.
  assert (Hu : ∀ h, seed_height h epoch lag = if h <=? epoch + lag then 0 else (h - lag - 1) - (h - lag - 1) mod epoch)
    by (intros; apply seed_height_unfold; lia).
  assert (Hq : ∀ a, a - a mod epoch = epoch * (a / epoch)) by (intros a; pose proof (Z.div_mod a epoch); lia).
  split_and!.
  - rewrite Hu. unfold monero_seed_height. case_match; [done|]. symmetry. by apply mask_is_truncation.
  - rewrite Hu. case_match; [by apply Z.mod_0_l; lia|]. rewrite Hq, Z.mul_comm. apply Z_mod_mult.
  - intros Hgt. rewrite Hu, (proj2 (Z.leb_gt _ _)) by lia.
    pose proof (Z.mod_pos_bound (h - lag - 1) epoch). pose proof (Z.mod_le (h - lag - 1) epoch). lia.
  - intros h' Hh'. unfold next_seed_height. rewrite sat_add_exact, !Hu by lia.
    destruct (Z.leb_spec h' (epoch + lag)); [rewrite (proj2 (Z.leb_le h _)) by lia; by left|].
    rewrite (proj2 (Z.leb_gt (h + lag) _)) by lia. rewrite !Hq.
    set (q := (h - lag - 1) / epoch). set (q' := (h' - lag - 1) / epoch).
    assert (Hq1 : q ≤ q') by (apply Z.div_le_mono; lia).
    assert (Hq2 : q' ≤ (h + lag - lag - 1) / epoch) by (apply Z.div_le_mono; lia).
    assert (Hq3 : (h + lag - lag - 1) / epoch ≤ q + 1).
    { unfold q. rewrite <- Z.div_add, Z.mul_1_l by lia. apply Z.div_le_mono; lia. }
    destruct (Z.leb_spec h (epoch + lag)) as [Hle|_].
    + right. assert (1 ≤ q') by (apply Z.div_le_lower_bound; lia).
      assert ((h - lag - 1) / epoch ≤ 0) by (apply Z.lt_succ_r, Z.div_lt_upper_bound; lia).
      f_equal. fold q in H1. lia.
    + destruct (Z.eq_dec q' q) as [->|]; [by left|right]. f_equal. lia.
Qed.
End Seed.

(** ** Properties: resolving the seed on a branch *)
Section Branch.
Context {E H : Type} `{EqDecision H}.
Implicit Types (view : ChainView E H).

(** [k] parents up from a block. *)
Inductive ancestor view : nat → H → H → Prop :=
| ancestor_self h : ancestor view 0 h h
| ancestor_parent k h p a :
    parent_of view h = Ok (Some p) → ancestor view k p a → ancestor view (S k) h a.

(** The canonical chain is a chain: each canonical block's parent is the
    canonical block below it. *)
Definition view_consistent view : Prop :=
  ∀ n h, canonical_hash view n = Ok (Some h) → 0 < n →
    ∃ p, parent_of view h = Ok (Some p) ∧ canonical_hash view (n - 1) = Ok (Some p).

Lemma canonical_ancestor view n k h :
  view_consistent view → canonical_hash view (n + Z.of_nat k) = Ok (Some h) → 0 ≤ n →
  ∃ a, ancestor view k h a ∧ canonical_hash view n = Ok (Some a).
Proof.
  intros Hv. revert h. induction k as [|k IH]; intros h Hc Hn.
  { exists h. rewrite Z.add_0_r in Hc. split; [constructor|done]. }
  destruct (Hv _ _ Hc) as (p & Hp & Hc'); [lia|].
  replace (n + Z.of_nat (S k) - 1) with (n + Z.of_nat k) in Hc' by lia.
  destruct (IH p Hc' Hn) as (a & Ha & Hca). exists a. split; [|done]. by econstructor.
Qed.

Lemma ancestor_det view k h a a' : ancestor view k h a → ancestor view k h a' → a = a'.
Proof.
  intros Ha. revert a'. induction Ha as [h|k h p a Hp Ha IH]; intros a' Ha'; inversion Ha'; subst; [done|].
  apply IH. match goal with H1 : parent_of view h = Ok (Some ?q), H2 : ancestor view k ?q a' |- _ =>
    rewrite Hp in H1; injection H1 as <-; exact H2 end.
Qed.

(** Every block of the branch, and the canonical lookups beside it. *)
Lemma walk_branch_finds view target fuel k cursor a :
  view_consistent view → (∀ n, is_ok (canonical_hash view n) = true) → 0 ≤ target →
  ancestor view k cursor a → (k < fuel)%nat →
  walk_branch view target fuel cursor (target + Z.of_nat k) = Ok (Some a).
Proof.
  intros Hv Hok Ht Ha. revert fuel. induction Ha as [h|k h p a Hp Ha IH]; intros [|fuel] Hf; try lia.
  { cbn. by rewrite Z.add_0_r, Z.eqb_refl. }
  cbn [walk_branch]. rewrite (proj2 (Z.eqb_neq _ _)) by lia.
  destruct (canonical_hash view (target + Z.of_nat (S k))) as [c|e] eqn:Ec.
  2: { specialize (Hok (target + Z.of_nat (S k))). by rewrite Ec in Hok. }
  cbn [mbind result_bind]. case_bool_decide as Hc.
  - subst c. destruct (canonical_ancestor view target (S k) h Hv Ec Ht) as (a' & Ha' & Hca).
    rewrite Hca. do 2 f_equal. eapply ancestor_det; [exact Ha'|]. by econstructor.
  - rewrite (proj2 (Z.eqb_neq _ _)) by lia. rewrite Hp. cbn [mbind result_bind].
    replace (target + Z.of_nat (S k) - 1) with (target + Z.of_nat k) by lia. apply IH. lia.
Qed.

(** A candidate is keyed by its own branch. Whatever fork the parent
    lies on, the walk returns exactly the ancestor of the parent at the target
    height, and the shortcut through the canonical chain never returns a block
    of another branch. It finds it within [height - 1 - target] steps. *)
Theorem seed_is_resolved_on_the_branch view parent height target max_walk a :
  view_consistent view → (∀ n, is_ok (canonical_hash view n) = true) →
  0 ≤ target < height → height - 1 - target ≤ max_walk →
  ancestor view (Z.to_nat (height - 1 - target)) parent a →
  resolve_on_branch view parent height target max_walk = Ok (Some a).
Proof.
  intros Hv Hok Ht Hw Ha. unfold resolve_on_branch.
  rewrite (proj2 (Z.eqb_neq _ _)), (proj2 (Z.leb_gt _ _)) by lia. cbn [orb].
  replace (height - 1) with (target + Z.of_nat (Z.to_nat (height - 1 - target))) at 1 by lia.
  apply walk_branch_finds; [done|done|lia|done|lia].
Qed.
End Branch.

(** ** Properties: difficulty and shares *)
Section Target.
Lemma hash_bound h : is_digest h → 0 ≤ hash_as_le_u512 h < 2 ^ 256.
Proof. intros [Hl Hb]. pose proof (le_val_bound h Hb) as Hr. rewrite Hl in Hr. exact Hr. Qed.

Lemma meets_difficulty_spec h d :
  is_digest h → 0 ≤ d →
  meets_difficulty h d = true ↔ 0 < d ∧ hash_as_le_u512 h * d ≤ u_max 256.
Proof.
  intros Hh Hd. pose proof (hash_bound h Hh) as Hb. unfold meets_difficulty.
  assert (H256 : u_max 256 < u_max 512) by done. assert (E512 : u_max 512 = 2 ^ 512 - 1) by done.
  destruct (Z.eqb_spec d 0); [split; [done|lia]|].
  set (x := hash_as_le_u512 h * d). assert (0 ≤ x) by (unfold x; nia).
  rewrite andb_true_iff, negb_true_iff, Z.ltb_ge, Z.leb_le.
  split; [intros [Hx Hp]; rewrite Z.mod_small in Hp by lia; lia|].
  intros [_ Hx]. rewrite Z.mod_small by lia. lia.
Qed.

Lemma le_val_app a b : le_val (a ++ b) = le_val a + 256 ^ Z.of_nat (length a) * le_val b.
Proof.
  induction a as [|x a IH]; [cbn [app length]; change (le_val []) with 0; lia|].
  cbn [app length]. change (le_val (x :: a ++ b)) with (x + 256 * le_val (a ++ b)).
  change (le_val (x :: a)) with (x + 256 * le_val a). rewrite IH, pow256_S. lia.
Qed.

(** The top limb and the rest. *)
Lemma hash_split h :
  is_digest h → ∃ low, 0 ≤ low < 2 ^ 192 ∧
    hash_as_le_u512 h = low + 2 ^ 192 * le_val (take 8 (drop 24 h)) ∧
    0 ≤ le_val (take 8 (drop 24 h)) < 2 ^ 64.
Proof.
  intros [Hl Hb]. exists (le_val (take 24 h)).
  assert (Hlen : length (take 24 h) = 24%nat) by (rewrite length_take; lia).
  assert (Hlen' : length (take 8 (drop 24 h)) = 8%nat) by (rewrite length_take, length_drop; lia).
  pose proof (le_val_bound (take 24 h) (Forall_take _ _ _ Hb)) as R1.
  pose proof (le_val_bound (take 8 (drop 24 h)) (Forall_take _ _ _ (Forall_drop _ _ _ Hb))) as R2.
  rewrite Hlen in R1. rewrite Hlen' in R2. split; [exact R1|]. split; [|exact R2].
  unfold hash_as_le_u512. rewrite <- (take_drop 24 h) at 1. rewrite le_val_app, Hlen.
  rewrite (take_ge (drop 24 h)) by (rewrite length_drop; lia). done.
Qed.

(** The block rule is exactly [hash * difficulty < 2^256] with no
    overflow artefact, a zero difficulty accepts nothing, and a stratum share
    at the block's own difficulty is always a block; the converse fails at one
    value only, when the top 64 bits equal the share target, so testing the
    block rule first loses nothing. *)
Theorem share_and_block_rules_agree h d :
  is_digest h → 0 ≤ d ≤ u_max 64 →
  (meets_difficulty h d = true ↔ 0 < d ∧ hash_as_le_u512 h * d < 2 ^ 256) ∧
  (0 < d → meets_share_target h (share_target_u64 d) = true → meets_difficulty h d = true) ∧
  (meets_difficulty h d = true → meets_share_target h (share_target_u64 d) = false →
     le_val (take 8 (drop 24 h)) = share_target_u64 d).
Proof.
  intros Hh Hd. rewrite !meets_difficulty_spec by (done || lia).
  destruct (hash_split h Hh) as (low & Hlow & Eh & Htop). rewrite Eh.
  unfold meets_share_target, share_target_u64. set (top := le_val (take 8 (drop 24 h))) in *.
  assert (E256 : u_max 256 = 2 ^ 192 * 2 ^ 64 - 1) by done.
  assert (E64 : u_max 64 = 2 ^ 64 - 1) by done.
  split; [by rewrite (Z.lt_le_pred _ (2 ^ 256))|].
  assert (H192 : 0 < 2 ^ 192) by done. set (p := 2 ^ 192) in *. clearbody p. split.
  - intros Hd0. rewrite Z.max_l by lia. rewrite Z.ltb_lt. intros Hs.
    pose proof (Z.mul_div_le (u_max 64) d). split; [done|]. rewrite E256.
    assert (Htd : (top + 1) * d ≤ 2 ^ 64 - 1) by nia.
    assert (p * ((top + 1) * d) ≤ p * (2 ^ 64 - 1)) by (apply Z.mul_le_mono_nonneg_l; lia). nia.
  - rewrite Z.ltb_ge. intros [Hd0 Hm] Hs. rewrite Z.max_l in * by lia.
    apply Z.le_antisymm; [|done]. apply Z.div_le_lower_bound; [lia|]. rewrite E256 in Hm.
    assert (p * (d * top) < p * 2 ^ 64) by nia. assert (d * top < 2 ^ 64) by nia. lia.
Qed.
End Target.

(** ** Properties: the blob and the seal *)
Section Encodings.
Lemma length_copy_at off src buf :
  (off + length src ≤ length buf)%nat → length (copy_at off src buf) = length buf.
Proof. intros Hl. unfold copy_at. rewrite !length_app, length_take, length_drop. lia. Qed.

Definition u32 (z : Z) : Prop := 0 ≤ z < 2 ^ 32.
Definition u64 (z : Z) : Prop := 0 ≤ z < 2 ^ 64.

(** The blob, laid out. *)
Lemma build_blob_eq ph height en n :
  length ph = 32%nat →
  build_blob ph height en n =
    DOMAIN_TAG ++ ph ++ le_bytes 4 n ++ le_bytes 8 height ++ le_bytes 4 en ++ replicate 21 0.
Proof. intros Hl. do 33 (destruct ph as [|? ph]; try done). Qed.

(** The mining blob carries its fields and the nonce is the miner's
    alone. Rewriting the nonce of a blob gives the blob of that nonce, reading
    it gives it back, and two blobs are equal only for the same header hash,
    height, extra nonce and nonce; every blob is 76 bytes. *)
Theorem blob_is_injective ph height en n ph' height' en' n' m :
  length ph = 32%nat → length ph' = 32%nat → u64 height → u64 height' →
  u32 en → u32 en' → u32 n → u32 n' → u32 m →
  length (build_blob ph height en n) = MINING_BLOB_LEN ∧
  set_nonce (build_blob ph height en n) m = build_blob ph height en m ∧
  read_nonce (set_nonce (build_blob ph height en n) m) = m ∧
  (build_blob ph height en n = build_blob ph' height' en' n' →
     ph = ph' ∧ height = height' ∧ en = en' ∧ n = n').
Proof.
  intros Hl Hl' Hh Hh' He He' Hn Hn' Hm.
  assert (Hset : set_nonce (build_blob ph height en n) m = build_blob ph height en m).
  { rewrite !build_blob_eq by done. do 33 (destruct ph as [|? ph]; try done). }
  rewrite Hset. split_and!; [|done| |].
  - rewrite build_blob_eq by done. rewrite !length_app, Hl, !length_le_bytes. done.
  - rewrite build_blob_eq by done. unfold read_nonce.
    replace (drop NONCE_OFFSET _) with (le_bytes 4 m ++ le_bytes 8 height ++ le_bytes 4 en ++ replicate 21 0).
    2: { rewrite (app_assoc DOMAIN_TAG ph). by rewrite drop_app_length' by (rewrite length_app, Hl; done). }
    rewrite take_app_length' by done. by apply le_val_le_bytes.
  - rewrite !build_blob_eq by done. intros E0. apply app_inv_head in E0.
    apply app_inj_1 in E0 as [-> E0]; [|by rewrite Hl, Hl'].
    apply app_inj_1 in E0 as [En E0]; [|by rewrite !length_le_bytes].
    apply app_inj_1 in E0 as [Eh E0]; [|by rewrite !length_le_bytes].
    apply app_inj_1 in E0 as [Ee _]; [|by rewrite !length_le_bytes].
    apply le_bytes_inj in En, Eh, Ee; try done.
Qed.

Definition seal_wf (s : Seal) : Prop := u32 (seal_nonce s) ∧ u32 (seal_extra_nonce s).

Lemma seal_encode_eq s :
  seal_encode s = le_bytes 4 (seal_nonce s) ++ le_bytes 4 (seal_extra_nonce s) ++ SEAL_PADDING.
Proof. done. Qed.

(** A seal has one encoding. Decoding accepts a byte string exactly
    when it is the encoding of the seal it returns: the length is fixed, the
    padding is pinned, and no second byte string stands for the same work. *)
Theorem seal_encoding_is_canonical bytes s :
  Forall is_byte bytes →
  (seal_decode bytes = Ok s ↔ seal_wf s ∧ bytes = seal_encode s).
Proof.
  intros Hb. unfold seal_decode. split.
  - destruct (Nat.eqb_spec (length bytes) SEAL_LEN) as [Hl|]; cbn [negb]; [|done].
    case_bool_decide as Hpad; cbn [negb]; [|done]. intros [= <-].
    assert (R : ∀ l, Forall is_byte l → length l = 4%nat → u32 (le_val l)).
    { intros l Hf Hlen. pose proof (le_val_bound l Hf) as Hr. rewrite Hlen in Hr. exact Hr. }
    assert (L1 : length (take 4 bytes) = 4%nat) by (rewrite length_take, Hl; done).
    assert (L2 : length (take 4 (drop 4 bytes)) = 4%nat) by (rewrite length_take, length_drop, Hl; done).
    split; [split; apply R; auto using Forall_take, Forall_drop|].
    rewrite seal_encode_eq. cbn [seal_nonce seal_extra_nonce].
    rewrite !le_bytes_le_val by auto using Forall_take, Forall_drop.
    rewrite <- Hpad. change NONCE_LEN with 4%nat. change 8%nat with (4 + 4)%nat.
    by rewrite <- drop_drop, !take_drop.
  - intros [[Hn He] ->]. rewrite seal_encode_eq.
    rewrite (proj2 (Nat.eqb_eq _ _)) by (by rewrite !length_app, !length_le_bytes). cbn [negb].
    rewrite bool_decide_true by done. cbn [negb].
    destruct s as [n e]; cbn [seal_nonce seal_extra_nonce] in *. f_equal. f_equal.
    + change NONCE_LEN with 4%nat. rewrite take_app_length' by done. by apply le_val_le_bytes.
    + change NONCE_LEN with 4%nat. rewrite drop_app_length' by done.
      rewrite take_app_length' by done. by apply le_val_le_bytes.
Qed.
End Encodings.

(** ** Properties: the fork choice *)
Section ForkChoice.
(** A tip: its cumulative work and its height. *)
Definition heavier (a b : Z * Z) : Prop := is_heavier a.1 a.2 b.1 b.2 = true.

Lemma heavier_spec a b : heavier a b ↔ b.1 < a.1 ∨ (a.1 = b.1 ∧ b.2 < a.2).
Proof.
  unfold heavier, is_heavier. rewrite orb_true_iff, andb_true_iff, !Z.ltb_lt, Z.eqb_eq. done.
Qed.

(** The fork choice cannot cycle. "Heavier" is a strict order on tips
    that is total up to equal work and height: no tip displaces itself, two
    tips never displace each other, displacement is transitive, and of two
    different tips one wins. *)
Theorem fork_choice_is_a_strict_order a b c :
  ~ heavier a a ∧ (heavier a b → ~ heavier b a) ∧ (heavier a b → heavier b c → heavier a c) ∧
  (heavier a b ∨ heavier b a ∨ a = b).
Proof.
  rewrite !heavier_spec. destruct a as [a1 a2], b as [b1 b2]; cbn. split_and!; try lia.
  destruct (Z.lt_trichotomy a1 b1) as [|[->|]]; [lia| |lia].
  destruct (Z.lt_trichotomy a2 b2) as [|[->|]]; [lia|by right; right|lia].
Qed.
End ForkChoice.

(** ** Witnesses *)
Lemma seed_schedule_is_moneros_witness :
  seed_height 2177 2048 128 = 2048 ∧ seed_height 2177 (2 ^ 11) 128 = monero_seed_height 2177 (2 ^ 11) 128.
Proof.
  split; [by vm_compute|].
  refine (proj1 (seed_schedule_is_moneros 2177 11 128 _ _ _ _ _)); vm_compute; try split; discriminate.
Defined.

(** A chain 0, 1, 2, 3 with a fork 12, 13 off block 1. *)
Definition toy_view : ChainView unit Z := {|
  canonical_hash n := Ok (if (0 <=? n) && (n <=? 3) then Some n else None);
  parent_of h := Ok (if h =? 12 then Some 1 else if (1 <=? h) && (h <=? 13) then Some (h - 1) else None) |}.

Lemma seed_is_resolved_on_the_branch_witness : resolve_on_branch toy_view 13 4 0 10 = Ok (Some 0).
Proof.
  apply (seed_is_resolved_on_the_branch toy_view 13 4 0 10 0).
  - intros n h. cbn. intros [= E0] Hn. destruct ((0 <=? n) && (n <=? 3)) eqn:Er; [|done].
    injection E0 as <-. res_inv. exists (n - 1). rewrite (proj2 (Z.eqb_neq n 12)) by lia.
    rewrite !(proj2 (Z.leb_le _ _)) by lia. done.
  - done.
  - split; [discriminate|reflexivity].
  - discriminate.
  - cbn. econstructor; [reflexivity|]. econstructor; [reflexivity|]. econstructor; [reflexivity|]. constructor.
Defined.

Lemma share_and_block_rules_agree_witness :
  meets_difficulty (replicate 31 0 ++ [1]) 100 = true ∧
  meets_share_target (replicate 31 0 ++ [1]) (share_target_u64 100) = true.
Proof.
  assert (Hs : meets_share_target (replicate 31 0 ++ [1]) (share_target_u64 100) = true) by (vm_compute; reflexivity).
  split; [|exact Hs].
  refine (proj1 (proj2 (share_and_block_rules_agree (replicate 31 0 ++ [1]) 100 _ _)) _ Hs).
  - split; [reflexivity|]. by repeat constructor.
  - vm_compute. split; discriminate.
  - reflexivity.
Defined.

Lemma blob_is_injective_witness : read_nonce (set_nonce (build_blob zero_hash 7 8 9) 77) = 77.
Proof.
  refine (proj1 (proj2 (proj2 (blob_is_injective zero_hash 7 8 9 zero_hash 7 8 9 77 _ _ _ _ _ _ _ _ _))));
    try reflexivity; split; vm_compute; (discriminate || reflexivity).
Defined.

Lemma seal_encoding_is_canonical_witness :
  seal_decode (seal_encode {| seal_nonce := 5; seal_extra_nonce := 6 |}) = Ok {| seal_nonce := 5; seal_extra_nonce := 6 |}.
Proof.
  refine (proj2 (seal_encoding_is_canonical _ _ _) _).
  - by repeat constructor.
  - split; [|reflexivity]. split; split; vm_compute; (discriminate || reflexivity).
Defined.
