(* ===== verification/Vesting.v ===== *)
(** * Vesting

    [chain/pallets/vesting/src/lib.rs]: the schedule table, the pot account
    that holds every unclaimed grant, the four calls, the genesis build, the
    launch rebase and the pallet's own consistency check. The currency and the
    transfer-proof recorder are reached through their traits. *)

From stdpp Require Import base option list numbers gmap.
From S2P Require Import Prelude Crypto Interfaces Frame.
#[local] Open Scope Z_scope.

Definition NON_FINAL_PAYOUT_QUANTA : Z := 2500.
Definition MAX_GENESIS_SCHEDULES : Z := 64.

Record VestingSchedule := {
  beneficiary : Hash256;
  start : Z;
  cliff : Z;
  end_ : Z;
  total : Z;
  claimed : Z;
  last_claim_at : option Z;
}.

Inductive ClaimPlan := Pay (amount : Z) | PlanNothingToClaim | PlanTooSoon.

Inductive LaunchAnchor := Pending | Anchored (at_ : Z).
#[global] Instance LaunchAnchor_eq_dec : EqDecision LaunchAnchor.
Proof. solve_decision. Defined.

Inductive VestingEvent :=
| ScheduleCreated (schedule_id : Z) (beneficiary : Hash256) (start cliff end_ total : Z)
| Claimed (schedule_id : Z) (beneficiary : Hash256) (amount : Z)
| ScheduleEnded (schedule_id : Z) (beneficiary : Hash256) (vested_paid unvested_returned : Z)
| ScheduleRetargeted (schedule_id : Z) (old_beneficiary new_beneficiary : Hash256)
| LaunchMomentSet (at_ : Z).

Inductive VestingError :=
| NoSchedule | InvalidSchedule | NothingToClaim | ClaimTooSoon
| TreasuryNotConfigured | PotUnderfunded | InvalidBeneficiary | TransferProofNotRecorded.

(** How a call ends other than well: the pallet's errors, the arithmetic
    ones, the currency's, a wrong origin, and a panic ([expect]). *)
Inductive VestingFailure (D : Type) :=
| VModule (e : VestingError) | VUnderflow | VOverflow | VCurrency (d : D) | VBadOrigin | VPanic.
Arguments VModule {D}. Arguments VUnderflow {D}. Arguments VOverflow {D}.
Arguments VCurrency {D}. Arguments VBadOrigin {D}. Arguments VPanic {D}.

Record VestingConfig := {
  pot_account_id : Hash256;
  ensure_admin : RuntimeOrigin → bool;
  PayoutQuantum : Z;
  MinClaimInterval : Z;
}.

(** The pallet's storage, with the clock, the ledger, the proof recorder and
    the treasury account ([T::TreasuryAccount], the treasury pallet's storage)
    it reaches. *)
Record Vesting {C P : Type} := {
  NextScheduleId : Z;
  Schedules : gmap Z VestingSchedule;
  Launch : option LaunchAnchor;
  v_events : list VestingEvent;
  v_now : Z;
  v_ledger : C;
  v_proofs : P;
  v_treasury : option Hash256;
}.
Arguments Vesting : clear implicits.

(** ** Amounts *)

(** [sp_arithmetic]'s [a * b / c], exact, [None] on a zero divisor or a
    quotient over 128 bits. *)
Definition multiply_by_rational_down (a b c : Z) : option Z :=
  if c =? 0 then None else try_u 128 (a * b / c).

Definition vested_amount {D} (sc : VestingSchedule) (now : Z) : result (VestingFailure D) Z :=
  if now <? cliff sc then Ok 0
  else if end_ sc <=? now then Ok (total sc)
  else
    let elapsed := sat_sub now (start sc) in
    let duration := sat_sub (end_ sc) (start sc) in
    ok_or (multiply_by_rational_down (total sc) elapsed duration) VPanic.

Definition schedule_is_valid (cfg : VestingConfig) (start cliff end_ total : Z) : bool :=
  (start <=? cliff) && (cliff <=? end_) && (start <? end_) && negb (total =? 0) &&
  (total mod PayoutQuantum cfg =? 0).

Definition outstanding {D} (sc : VestingSchedule) (now : Z) : result (VestingFailure D) (Z * Z) :=
  remaining ← ok_or (checked_sub (total sc) (claimed sc)) VUnderflow;
  vested ← vested_amount sc now;
  owed ← ok_or (checked_sub vested (claimed sc)) VUnderflow;
  Ok (remaining, owed).

Definition align (amount quantum : Z) : Z := sat_sub amount (amount mod quantum).

Definition claim_plan {D} (cfg : VestingConfig) (sc : VestingSchedule) (now : Z) :
    result (VestingFailure D) ClaimPlan :=
  '(remaining, owed) ← outstanding sc now;
  let payable :=
    if owed =? remaining then owed
    else align owed (sat_mul 128 (PayoutQuantum cfg) NON_FINAL_PAYOUT_QUANTA) in
  if payable =? 0 then Ok PlanNothingToClaim
  else
    match last_claim_at sc with
    | Some last =>
        elapsed ← ok_or (checked_sub now last) VUnderflow;
        if elapsed <? MinClaimInterval cfg then Ok PlanTooSoon else Ok (Pay payable)
    | None => Ok (Pay payable)
    end.

Section Pallet.
Context {C D P : Type} `{Ledger C D, ProofRecorder P}.
Implicit Types (s : Vesting C P) (cfg : VestingConfig) (sc : VestingSchedule).
#[local] Abbreviation M := (result (VestingFailure D)).

(** ** Storage writes *)
Definition put_schedules (m : gmap Z VestingSchedule) s : Vesting C P :=
  {| NextScheduleId := NextScheduleId s; Schedules := m; Launch := Launch s;
     v_events := v_events s; v_now := v_now s; v_ledger := v_ledger s; v_proofs := v_proofs s;
     v_treasury := v_treasury s |}.
Definition put_next_id (n : Z) s : Vesting C P :=
  {| NextScheduleId := n; Schedules := Schedules s; Launch := Launch s;
     v_events := v_events s; v_now := v_now s; v_ledger := v_ledger s; v_proofs := v_proofs s;
     v_treasury := v_treasury s |}.
Definition put_launch (l : option LaunchAnchor) s : Vesting C P :=
  {| NextScheduleId := NextScheduleId s; Schedules := Schedules s; Launch := l;
     v_events := v_events s; v_now := v_now s; v_ledger := v_ledger s; v_proofs := v_proofs s;
     v_treasury := v_treasury s |}.
Definition put_now (t : Z) s : Vesting C P :=
  {| NextScheduleId := NextScheduleId s; Schedules := Schedules s; Launch := Launch s;
     v_events := v_events s; v_now := t; v_ledger := v_ledger s; v_proofs := v_proofs s;
     v_treasury := v_treasury s |}.
Definition put_books (c : C) (p : P) s : Vesting C P :=
  {| NextScheduleId := NextScheduleId s; Schedules := Schedules s; Launch := Launch s;
     v_events := v_events s; v_now := v_now s; v_ledger := c; v_proofs := p;
     v_treasury := v_treasury s |}.
(** The treasury pallet's storage, set at its genesis or by its own call. *)
Definition put_treasury (t : option Hash256) s : Vesting C P :=
  {| NextScheduleId := NextScheduleId s; Schedules := Schedules s; Launch := Launch s;
     v_events := v_events s; v_now := v_now s; v_ledger := v_ledger s; v_proofs := v_proofs s; v_treasury := t |}.
Definition v_deposit_event (e : VestingEvent) s : Vesting C P :=
  {| NextScheduleId := NextScheduleId s; Schedules := Schedules s; Launch := Launch s;
     v_events := v_events s ++ [e]; v_now := v_now s; v_ledger := v_ledger s; v_proofs := v_proofs s;
     v_treasury := v_treasury s |}.

(** ** Helpers *)
Definition launch_moment s : option Z :=
  match Launch s with Some (Anchored t) => Some t | _ => None end.

Definition treasury_and_pot cfg s : M (Hash256 * Hash256) :=
  treasury ← ok_or (v_treasury s) (VModule TreasuryNotConfigured);
  let pot := pot_account_id cfg in
  _ ← ensure (bool_decide (treasury ≠ pot)) (VModule TreasuryNotConfigured);
  Ok (treasury, pot).

Definition transfer_and_record (from to : Hash256) (amount : Z) s : M (Vesting C P) :=
  c ← map_err VCurrency (transfer (v_ledger s) from to amount);
  let '(p, recorded) := record_transfer_proof (v_proofs s) from to amount in
  _ ← ensure recorded (VModule TransferProofNotRecorded);
  Ok (put_books c p s).

Definition settle_schedule cfg sc (amount now : Z) s : M (Vesting C P * VestingSchedule) :=
  s ← transfer_and_record (pot_account_id cfg) (beneficiary sc) amount s;
  claimed' ← ok_or (checked_add 128 (claimed sc) amount) VOverflow;
  Ok (s, {| beneficiary := beneficiary sc; start := start sc; cliff := cliff sc; end_ := end_ sc;
            total := total sc; claimed := claimed'; last_claim_at := Some now |}).

(** ** Calls *)
Definition ensure_signed (o : RuntimeOrigin) : M unit :=
  match o with Signed _ => Ok tt | _ => Err VBadOrigin end.

Definition claim cfg (origin : RuntimeOrigin) (schedule_id : Z) s : M (Vesting C P) :=
  _ ← ensure_signed origin;
  sc ← ok_or (Schedules s !! schedule_id) (VModule NoSchedule);
  let now := v_now s in
  plan ← claim_plan cfg sc now;
  payable ← match plan with
            | Pay amount => Ok amount
            | PlanNothingToClaim => Err (VModule NothingToClaim)
            | PlanTooSoon => Err (VModule ClaimTooSoon)
            end;
  '(s, sc) ← settle_schedule cfg sc payable now s;
  let s := v_deposit_event (Claimed schedule_id (beneficiary sc) payable) s in
  Ok (put_schedules (<[schedule_id := sc]> (Schedules s)) s).

Definition create_schedule cfg (origin : RuntimeOrigin) (who : Hash256) (st cl en tot : Z) s :
    M (Vesting C P) :=
  _ ← ensure (ensure_admin cfg origin) VBadOrigin;
  '(treasury, pot) ← treasury_and_pot cfg s;
  _ ← ensure (schedule_is_valid cfg st cl en tot) (VModule InvalidSchedule);
  _ ← ensure (bool_decide (who ≠ pot)) (VModule InvalidBeneficiary);
  _ ← ensure (minimum_balance C <=? total_balance (v_ledger s) pot) (VModule PotUnderfunded);
  let schedule_id := NextScheduleId s in
  next_id ← ok_or (checked_add 64 schedule_id 1) VOverflow;
  s ← transfer_and_record treasury pot tot s;
  let s := put_next_id next_id s in
  let s := put_schedules (<[schedule_id :=
    {| beneficiary := who; start := st; cliff := cl; end_ := en; total := tot;
       claimed := 0; last_claim_at := None |}]> (Schedules s)) s in
  Ok (v_deposit_event (ScheduleCreated schedule_id who st cl en tot) s).

(** The nearest multiple of the quantum to what is owed, capped by what
    remains. *)
Definition ending_payout cfg (remaining owed : Z) : Z :=
  let quantum := PayoutQuantum cfg in
  Z.min (align (sat_add 128 owed (quantum / 2)) quantum) remaining.

Definition end_schedule cfg (origin : RuntimeOrigin) (schedule_id : Z) s : M (Vesting C P) :=
  _ ← ensure (ensure_admin cfg origin) VBadOrigin;
  '(treasury, pot) ← treasury_and_pot cfg s;
  sc ← ok_or (Schedules s !! schedule_id) (VModule NoSchedule);
  '(remaining, owed) ← outstanding sc (v_now s);
  let vested_payout := ending_payout cfg remaining owed in
  unvested_refund ← ok_or (checked_sub remaining vested_payout) VUnderflow;
  s ← (if vested_payout =? 0 then Ok s
       else transfer_and_record pot (beneficiary sc) vested_payout s);
  s ← (if unvested_refund =? 0 then Ok s
       else transfer_and_record pot treasury unvested_refund s);
  let s := put_schedules (delete schedule_id (Schedules s)) s in
  Ok (v_deposit_event (ScheduleEnded schedule_id (beneficiary sc) vested_payout unvested_refund) s).

Definition retarget_schedule cfg (origin : RuntimeOrigin) (schedule_id : Z) (who : Hash256) s :
    M (Vesting C P) :=
  _ ← ensure (ensure_admin cfg origin) VBadOrigin;
  _ ← ensure (bool_decide (who ≠ pot_account_id cfg)) (VModule InvalidBeneficiary);
  sc ← ok_or (Schedules s !! schedule_id) (VModule NoSchedule);
  _ ← ensure (bool_decide (who ≠ beneficiary sc)) (VModule InvalidBeneficiary);
  let s := v_deposit_event (ScheduleRetargeted schedule_id (beneficiary sc) who) s in
  Ok (put_schedules (<[schedule_id :=
    {| beneficiary := who; start := start sc; cliff := cliff sc; end_ := end_ sc;
       total := total sc; claimed := claimed sc; last_claim_at := last_claim_at sc |}]> (Schedules s)) s).

(** ** The launch rebase *)
Definition rebase (now : Z) sc : VestingSchedule :=
  {| beneficiary := beneficiary sc; start := sat_add 64 (start sc) now;
     cliff := sat_add 64 (cliff sc) now; end_ := sat_add 64 (end_ sc) now;
     total := total sc; claimed := claimed sc; last_claim_at := last_claim_at sc |}.

Definition on_timestamp_set (now : Z) s : Vesting C P :=
  if (now =? 0) || bool_decide (Launch s ≠ Some Pending) then s
  else
    let s := foldl (λ s id, put_schedules (alter (rebase now) id (Schedules s)) s) s
               (seqZ 0 (NextScheduleId s)) in
    v_deposit_event (LaunchMomentSet now) (put_launch (Some (Anchored now)) s).

(** ** Genesis; [None] is a failed [assert!] or [expect]. *)
Definition GenesisSchedule : Type := Hash256 * Z * Z * Z * Z.

Definition genesis_insert cfg (acc : Z * Z * gmap Z VestingSchedule) (g : GenesisSchedule) :
    option (Z * Z * gmap Z VestingSchedule) :=
  let '(i, sum, m) := acc in
  let '(who, st, cl, en, tot) := g in
  if negb (schedule_is_valid cfg st cl en tot) then None
  else if bool_decide (who = pot_account_id cfg) then None
  else
    sum ← checked_add 128 sum tot;
    Some (i + 1, sum, <[i := {| beneficiary := who; start := st; cliff := cl; end_ := en;
                                total := tot; claimed := 0; last_claim_at := None |}]> m).

Fixpoint genesis_loop cfg (acc : Z * Z * gmap Z VestingSchedule) (l : list GenesisSchedule) :
    option (Z * Z * gmap Z VestingSchedule) :=
  match l with
  | [] => Some acc
  | g :: l' => acc' ← genesis_insert cfg acc g; genesis_loop cfg acc' l'
  end.

Definition vesting_genesis cfg (schedules : list GenesisSchedule) (anchor : bool) (c : C) (p : P) (treasury : option Hash256) :
    option (Vesting C P) :=
  let launch := if anchor then Some Pending else None in
  let empty := {| NextScheduleId := 0; Schedules := ∅; Launch := launch; v_events := [];
                  v_now := 0; v_ledger := c; v_proofs := p; v_treasury := treasury |} in
  match schedules with
  | [] => Some empty
  | _ =>
      '(_, sum, m) ← genesis_loop cfg (0, 0, ∅) schedules;
      required ← checked_add 128 sum (minimum_balance C);
      if total_balance c (pot_account_id cfg) =? required
      then Some (put_next_id (Z.of_nat (length schedules)) (put_schedules m empty))
      else None
  end.

(** ** [do_try_state] *)
Inductive TryStateError :=
| TreasuryAliasesPot | IdOutOfRange | InvalidStoredSchedule | ClaimedExceedsTotal
| ClaimedUnaligned | RemainingBelowQuantum | PotIsBeneficiary | ObligationsOverflow
| RequiredOverflow | PotDoesNotCover.

Definition try_schedule cfg (next_id : Z) (acc : Z) (entry : Z * VestingSchedule) :
    result TryStateError Z :=
  let '(id, sc) := entry in
  _ ← ensure (id <? next_id) IdOutOfRange;
  _ ← ensure (schedule_is_valid cfg (start sc) (cliff sc) (end_ sc) (total sc)) InvalidStoredSchedule;
  _ ← ensure (claimed sc <=? total sc) ClaimedExceedsTotal;
  _ ← ensure (claimed sc mod PayoutQuantum cfg =? 0) ClaimedUnaligned;
  remaining ← ok_or (checked_sub (total sc) (claimed sc)) ClaimedExceedsTotal;
  _ ← ensure ((remaining =? 0) || (PayoutQuantum cfg <=? remaining)) RemainingBelowQuantum;
  _ ← ensure (bool_decide (beneficiary sc ≠ pot_account_id cfg)) PotIsBeneficiary;
  ok_or (checked_add 128 acc remaining) ObligationsOverflow.

Definition do_try_state cfg s : result TryStateError unit :=
  let pot := pot_account_id cfg in
  _ ← match v_treasury s with
      | Some treasury => ensure (bool_decide (treasury ≠ pot)) TreasuryAliasesPot
      | None => Ok tt
      end;
  let entries := map_to_list (Schedules s) in
  owed ← fold_result (try_schedule cfg (NextScheduleId s)) 0 entries;
  required ← (if negb (bool_decide (entries = []))
              then ok_or (checked_add 128 owed (minimum_balance C)) RequiredOverflow
              else Ok 0);
  ensure (required <=? total_balance (v_ledger s) pot) PotDoesNotCover.
End Pallet.
