(* ===== verification/VestingProps.v ===== *)
(** * Vesting: what the pallet guarantees

    The pot covers every outstanding grant in every reachable state, so the
    pallet's own consistency check fails on nothing but an aliased treasury; a
    claim pays exactly what has vested, up to the payout alignment; ending a
    schedule splits its remainder between the beneficiary and the treasury with
    nothing lost. *)

From stdpp Require Import base option list numbers gmap relations.
From S2P Require Import Prelude Crypto Interfaces Frame Vesting.
#[local] Open Scope Z_scope.

(** ** Schedules *)

(** What has vested by [now], as a function of the exact integers. *)
Definition vested_at (sc : VestingSchedule) (now : Z) : Z :=
  if now <? cliff sc then 0
  else if end_ sc <=? now then total sc
  else total sc * (now - start sc) / (end_ sc - start sc).

Definition remaining_of (sc : VestingSchedule) : Z := total sc - claimed sc.

(** The sum of what the stored schedules still owe. *)
Definition obligations (m : gmap Z VestingSchedule) : Z :=
  sum_by (λ e, remaining_of e.2) (map_to_list m).

Record schedule_ok (cfg : VestingConfig) (next_id id : Z) (sc : VestingSchedule) : Prop := {
  so_id : 0 ≤ id < next_id;
  so_valid : schedule_is_valid cfg (start sc) (cliff sc) (end_ sc) (total sc) = true;
  so_start : 0 ≤ start sc;
  so_end : end_ sc ≤ u_max 64;
  so_total : total sc ≤ u_max 128;
  so_claimed : 0 ≤ claimed sc ≤ total sc;
  so_aligned : claimed sc mod PayoutQuantum cfg = 0;
  so_beneficiary : beneficiary sc ≠ pot_account_id cfg;
}.

(** Nothing was ever paid ahead of the schedule. *)
Definition paid_in_time (now : Z) (sc : VestingSchedule) : Prop :=
  match last_claim_at sc with
  | Some l => 0 ≤ l ≤ now ∧ claimed sc ≤ vested_at sc l
  | None => claimed sc = 0
  end.

Record valid_vesting_config (cfg : VestingConfig) : Prop := {
  vv_quantum : 0 < PayoutQuantum cfg;
  vv_non_final : PayoutQuantum cfg * NON_FINAL_PAYOUT_QUANTA ≤ u_max 128;
}.

Section Amounts.
Implicit Types (cfg : VestingConfig) (sc : VestingSchedule).

Lemma schedule_is_valid_spec cfg st cl en tot :
  schedule_is_valid cfg st cl en tot = true ↔
  st ≤ cl ≤ en ∧ st < en ∧ tot ≠ 0 ∧ tot mod PayoutQuantum cfg = 0.
Proof.
  unfold schedule_is_valid. rewrite !andb_true_iff, negb_true_iff.
  rewrite !Z.leb_le, Z.ltb_lt, Z.eqb_neq, Z.eqb_eq. tauto.
Qed.

(** Linear accrual is monotone and stays within the grant. *)
Lemma vested_at_bounds cfg n id sc now :
  schedule_ok cfg n id sc → 0 ≤ vested_at sc now ≤ total sc.
Proof.
  intros [? Hv%schedule_is_valid_spec ? ? ? ? ? ?]. unfold vested_at.
  destruct (Z.ltb_spec now (cliff sc)); [lia|].
  destruct (Z.leb_spec (end_ sc) now); [lia|].
  split; [apply Z.div_pos; nia|]. apply Z.div_le_upper_bound; nia.
Qed.

Lemma vested_at_mono cfg n id sc t1 t2 :
  schedule_ok cfg n id sc → t1 ≤ t2 → vested_at sc t1 ≤ vested_at sc t2.
Proof.
  intros Hok Ht. pose proof (vested_at_bounds cfg n id sc t1 Hok).
  pose proof (vested_at_bounds cfg n id sc t2 Hok).
  destruct Hok as [? Hv%schedule_is_valid_spec ? ? ? ? ? ?]. unfold vested_at in *.
  destruct (Z.ltb_spec t1 (cliff sc)), (Z.ltb_spec t2 (cliff sc)); try lia.
  destruct (Z.leb_spec (end_ sc) t1), (Z.leb_spec (end_ sc) t2); try lia.
  apply Z.div_le_mono; nia.
Qed.

(** The code computes it, and its [expect] never fires. *)
Lemma vested_amount_eq {D} cfg n id sc now :
  schedule_ok cfg n id sc → vested_amount (D := D) sc now = Ok (vested_at sc now).
Proof.
  intros Hok. pose proof (vested_at_bounds cfg n id sc now Hok).
  destruct Hok as [? Hv%schedule_is_valid_spec ? ? ? ? ? ?].
  unfold vested_amount, vested_at in *.
  destruct (Z.ltb_spec now (cliff sc)); [done|].
  destruct (Z.leb_spec (end_ sc) now); [done|].
  rewrite !sat_sub_exact by lia. unfold multiply_by_rational_down.
  rewrite (proj2 (Z.eqb_neq _ _)) by lia.
  unfold try_u. rewrite (proj2 (Z.leb_le _ _)) by lia. done.
Qed.

Lemma paid_le_vested cfg n id sc now :
  schedule_ok cfg n id sc → paid_in_time now sc → claimed sc ≤ vested_at sc now.
Proof.
  intros Hok. pose proof (vested_at_bounds cfg n id sc now Hok). unfold paid_in_time.
  destruct (last_claim_at sc) as [l|]; [|lia].
  intros [? ?]. pose proof (vested_at_mono cfg n id sc l now Hok). lia.
Qed.

Lemma outstanding_eq {D} cfg n id sc now :
  schedule_ok cfg n id sc → paid_in_time now sc →
  outstanding (D := D) sc now = Ok (remaining_of sc, vested_at sc now - claimed sc).
Proof.
  intros Hok Hp. pose proof (paid_le_vested _ _ _ _ _ Hok Hp). unfold outstanding.
  rewrite (vested_amount_eq cfg n id) by done. unfold checked_sub.
  rewrite (proj2 (Z.leb_le (claimed sc) (total sc))) by apply Hok. cbn.
  by rewrite (proj2 (Z.leb_le _ _)) by lia.
Qed.

Lemma align_spec a q : 0 < q → 0 ≤ a → align a q mod q = 0 ∧ 0 ≤ align a q ≤ a ∧ a < align a q + q.
Proof.
  intros Hq Ha. unfold align. pose proof (Z.mod_pos_bound a q Hq). pose proof (Z.mod_le a q).
  rewrite sat_sub_exact by lia. split; [|lia].
  by rewrite Zminus_mod_idemp_r, Z.sub_diag, Zmod_0_l.
Qed.

Lemma mod_0_mult a b q : 0 < q → a mod (q * b) = 0 → 0 < b → a mod q = 0.
Proof.
  intros Hq Ha Hb. apply Z.mod_divide in Ha; [|nia]. apply Z.mod_divide; [lia|].
  etrans; [|exact Ha]. by exists b; lia.
Qed.

Lemma mod_0_sub a b q : a mod q = 0 → b mod q = 0 → (a - b) mod q = 0.
Proof. intros Ha Hb. by rewrite Zminus_mod, Ha, Hb, Zmod_0_l. Qed.

Lemma mod_0_add a b q : a mod q = 0 → b mod q = 0 → (a + b) mod q = 0.
Proof. intros Ha Hb. by rewrite Zplus_mod, Ha, Hb, Zmod_0_l. Qed.

(** What a claim at [now] is due to pay. *)
Definition due cfg sc (now : Z) : Z :=
  let owed := vested_at sc now - claimed sc in
  if owed =? remaining_of sc then owed
  else owed - owed mod (PayoutQuantum cfg * NON_FINAL_PAYOUT_QUANTA).

Lemma due_bounds cfg n id sc now :
  valid_vesting_config cfg → schedule_ok cfg n id sc → paid_in_time now sc →
  0 ≤ due cfg sc now ≤ vested_at sc now - claimed sc ∧ due cfg sc now mod PayoutQuantum cfg = 0.
Proof.
  intros [] Hok Hp. pose proof (paid_le_vested _ _ _ _ _ Hok Hp). unfold due.
  destruct Hok as [? Hv%schedule_is_valid_spec ? ? ? ? ? ?]. destruct Hv as (?&?&?&?).
  destruct (Z.eqb_spec (vested_at sc now - claimed sc) (remaining_of sc)) as [->|].
  - unfold remaining_of. split; [lia|]. by apply mod_0_sub.
  - assert (Hq : 0 < PayoutQuantum cfg * NON_FINAL_PAYOUT_QUANTA) by (unfold NON_FINAL_PAYOUT_QUANTA; lia).
    set (owed := vested_at sc now - claimed sc) in *.
    destruct (align_spec owed _ Hq ltac:(lia)) as (Ha & Hb & _). unfold align in *.
    rewrite sat_sub_exact in Ha, Hb by (apply Z.mod_le; lia).
    split; [lia|]. eapply mod_0_mult; eauto; done.
Qed.

(** The plan, on every branch. *)
Lemma claim_plan_eq {D} cfg n id sc now :
  valid_vesting_config cfg → schedule_ok cfg n id sc → paid_in_time now sc →
  claim_plan (D := D) cfg sc now =
    if due cfg sc now =? 0 then Ok PlanNothingToClaim
    else match last_claim_at sc with
         | Some l => if now - l <? MinClaimInterval cfg then Ok PlanTooSoon else Ok (Pay (due cfg sc now))
         | None => Ok (Pay (due cfg sc now))
         end.
Proof.
  intros [] Hok Hp. pose proof (paid_le_vested _ _ _ _ _ Hok Hp). unfold claim_plan.
  rewrite (outstanding_eq cfg n id) by done. cbn -[due].
  rewrite (sat_mul_exact 128) by done.
  assert (Hdue : (if vested_at sc now - claimed sc =? remaining_of sc then vested_at sc now - claimed sc
                  else align (vested_at sc now - claimed sc)
                         (PayoutQuantum cfg * NON_FINAL_PAYOUT_QUANTA)) = due cfg sc now).
  { unfold due, align. destruct (_ =? _); [done|].
    apply sat_sub_exact, Z.mod_le; unfold NON_FINAL_PAYOUT_QUANTA; lia. }
  rewrite Hdue. destruct (_ =? 0); [done|].
  unfold paid_in_time in Hp. destruct (last_claim_at sc) as [l|]; [|done].
  unfold checked_sub. by rewrite (proj2 (Z.leb_le l now)) by lia.
Qed.
End Amounts.

(** ** The table of obligations *)
Section Obligations.
Implicit Types (m : gmap Z VestingSchedule) (sc : VestingSchedule).

Lemma obligations_insert m id sc :
  m !! id = None → obligations (<[id := sc]> m) = remaining_of sc + obligations m.
Proof. intros Hm. unfold obligations. by rewrite (sum_by_perm _ _ _ (map_to_list_insert m id sc Hm)). Qed.

Lemma obligations_delete m id sc :
  m !! id = Some sc → obligations (delete id m) = obligations m - remaining_of sc.
Proof.
  intros Hm. rewrite <- (insert_delete_id m id sc Hm) at 2.
  rewrite obligations_insert by apply lookup_delete_eq. lia.
Qed.

Lemma obligations_replace m id sc sc' :
  m !! id = Some sc →
  obligations (<[id := sc']> m) = obligations m - remaining_of sc + remaining_of sc'.
Proof.
  intros Hm. rewrite <- (insert_delete_eq m id sc'), obligations_insert by apply lookup_delete_eq.
  rewrite (obligations_delete m id sc Hm). lia.
Qed.

Lemma obligations_nonneg m :
  (∀ id sc, m !! id = Some sc → 0 ≤ remaining_of sc) → 0 ≤ obligations m.
Proof.
  intros Hm. apply sum_by_nonneg. intros [id sc] Hin%elem_of_map_to_list. by apply (Hm id).
Qed.

Lemma remaining_le_obligations m id sc :
  (∀ id sc, m !! id = Some sc → 0 ≤ remaining_of sc) →
  m !! id = Some sc → remaining_of sc ≤ obligations m.
Proof.
  intros Hm Hsc. assert (0 ≤ obligations (delete id m)).
  { apply obligations_nonneg. intros ? ? [_ ?]%lookup_delete_Some. by eapply Hm. }
  rewrite (obligations_delete m id sc Hsc) in *. lia.
Qed.
End Obligations.

(** ** The invariant *)

(** The calls, with their argument types' ranges. *)
Inductive VestingCall :=
| VClaim (id : Z)
| VCreate (who : Hash256) (st cl en tot : Z)
| VEnd (id : Z)
| VRetarget (id : Z) (who : Hash256).

Definition call_in_range (k : VestingCall) : Prop :=
  match k with
  | VCreate _ st cl en tot => in_u 64 st ∧ in_u 64 cl ∧ in_u 64 en ∧ in_u 128 tot
  | _ => True
  end.

Section Invariant.
Context {C D P : Type} `{Ledger C D, !LedgerLaws C D, ProofRecorder P}.
Context (cfg : VestingConfig) (Hcfg : valid_vesting_config cfg).
Implicit Types (s : Vesting C P) (sc : VestingSchedule).
#[local] Abbreviation pot := (pot_account_id cfg).
#[local] Abbreviation bal s := (total_balance (D := D) (v_ledger s)).

Record vesting_inv s : Prop := {
  vi_ledger : ledger_inv (v_ledger s);
  vi_now : in_u 64 (v_now s);
  vi_next : 0 ≤ NextScheduleId s;
  vi_schedules id sc : Schedules s !! id = Some sc →
    schedule_ok cfg (NextScheduleId s) id sc ∧ paid_in_time (v_now s) sc;
  vi_cover : Schedules s ≠ ∅ → obligations (Schedules s) + minimum_balance C ≤ bal s pot;
  vi_pending : Launch s = Some Pending →
    v_now s = 0 ∧ ∀ id sc, Schedules s !! id = Some sc → last_claim_at sc = None;
}.

Definition vesting_call (origin : RuntimeOrigin) (k : VestingCall) s : result (VestingFailure D) (Vesting C P) :=
  match k with
  | VClaim id => claim cfg origin id s
  | VCreate who st cl en tot => create_schedule cfg origin who st cl en tot s
  | VEnd id => end_schedule cfg origin id s
  | VRetarget id who => retarget_schedule cfg origin id who s
  end.

(** Whether the rebase at [t], if one is pending, keeps every end within 64
    bits; past them [saturating_add] collapses a schedule's times. *)
Definition rebase_fits (t : Z) s : bool :=
  bool_decide (Launch s = Some Pending → map_Forall (λ _ sc, end_ sc + t ≤ u_max 64) (Schedules s)).

(** The chain as the pallet sees it, from genesis: calls that succeed (a
    failing one is rolled back), the timestamp inherent, and anything else
    that touches the ledger, the recorder and the treasury pallet's account.
    The pot is keyless, so no one but the pallet takes from it. The index says
    whether every rebase so far fitted. *)
Inductive vreachable (l : list GenesisSchedule) (anchor : bool) (c : C) (p : P) (tr : option Hash256) : bool → Vesting C P → Prop :=
| vr_genesis s : vesting_genesis cfg l anchor c p tr = Some s → vreachable l anchor c p tr true s
| vr_call fits origin k s s' : vreachable l anchor c p tr fits s →
    call_in_range k → vesting_call origin k s = Ok s' → vreachable l anchor c p tr fits s'
| vr_time fits t s : vreachable l anchor c p tr fits s →
    v_now s ≤ t ≤ u_max 64 → vreachable l anchor c p tr (fits && rebase_fits t s) (on_timestamp_set t (put_now t s))
| vr_other fits c' p' tr' s : vreachable l anchor c p tr fits s →
    ledger_inv c' → bal s pot ≤ total_balance c' pot → vreachable l anchor c p tr fits (put_treasury tr' (put_books c' p' s)).

Lemma remaining_nonneg s :
  vesting_inv s → ∀ id sc, Schedules s !! id = Some sc → 0 ≤ remaining_of sc.
Proof. intros Hi id sc Hsc. destruct (vi_schedules _ Hi id sc Hsc) as [[] _]. unfold remaining_of. lia. Qed.

(** A recorded transfer only touches the two books. *)
Lemma transfer_and_record_Ok s s' from to v :
  ledger_inv (v_ledger s) → 0 ≤ v → from ≠ to → transfer_and_record from to v s = Ok s' →
  (∃ c p, s' = put_books c p s) ∧ ledger_inv (v_ledger s') ∧
  bal s' from = bal s from - v ∧ bal s' to = bal s to + v ∧
  (∀ a, a ≠ from → a ≠ to → bal s' a = bal s a).
Proof.
  unfold transfer_and_record. intros Hl Hv Hne Ht. res_inv. rename v0 into c.
  destruct (record_transfer_proof _ _ _ _) as [p rec]. res_inv. subst s'.
  destruct (transfer_Ok _ _ _ _ _ Hl Hv Hne Hv0) as (? & ? & ? & ?).
  split; [by exists c, p|]. cbn. auto.
Qed.

Lemma treasury_and_pot_Ok s t q :
  treasury_and_pot (D := D) cfg s = Ok (t, q) → v_treasury s = Some t ∧ q = pot ∧ t ≠ pot.
Proof. unfold treasury_and_pot. intros Ht. res_inv. by simplify_eq. Qed.

Lemma paid_in_time_mono t1 t2 sc : t1 ≤ t2 → paid_in_time t1 sc → paid_in_time t2 sc.
Proof. unfold paid_in_time. destruct (last_claim_at sc); lia. Qed.

(** At time zero nothing is due: an unanchored table cannot be claimed. *)
Lemma due_at_zero n id sc :
  schedule_ok cfg n id sc → last_claim_at sc = None → paid_in_time 0 sc → due cfg sc 0 = 0.
Proof.
  intros [? Hv%schedule_is_valid_spec ? ? ? ? ? ?] Hl Hp.
  unfold paid_in_time in Hp. rewrite Hl in Hp.
  assert (Hz : vested_at sc 0 = 0).
  { unfold vested_at. destruct (Z.ltb_spec 0 (cliff sc)), (Z.leb_spec (end_ sc) 0); try lia.
    replace (start sc) with 0 by lia. by rewrite Z.mul_0_r, Zdiv_0_l. }
  unfold due, remaining_of. rewrite Hz, Hp. change (0 - 0) with 0. rewrite Zmod_0_l.
  by destruct (_ =? _).
Qed.

(** Everything a successful claim does. *)
Lemma claim_Ok s s' origin id :
  vesting_inv s → claim cfg origin id s = Ok s' →
  ∃ sc, Schedules s !! id = Some sc ∧
    let v := due cfg sc (v_now s) in
    let sc' := {| beneficiary := beneficiary sc; start := start sc; cliff := cliff sc; end_ := end_ sc;
                  total := total sc; claimed := claimed sc + v; last_claim_at := Some (v_now s) |} in
    v ≠ 0 ∧ NextScheduleId s' = NextScheduleId s ∧ Launch s' = Launch s ∧ v_now s' = v_now s ∧
    Schedules s' = <[id := sc']> (Schedules s) ∧
    v_events s' = v_events s ++ [Claimed id (beneficiary sc) v] ∧
    ledger_inv (v_ledger s') ∧ bal s' pot = bal s pot - v ∧
    bal s' (beneficiary sc) = bal s (beneficiary sc) + v ∧
    (∀ a, a ≠ pot → a ≠ beneficiary sc → bal s' a = bal s a).
Proof.
  intros Hi Hc. unfold claim in Hc. res_inv. rename v0 into sc, Hv0 into Hsc. exists sc. split; [done|].
  destruct (vi_schedules _ Hi id sc Hsc) as [Hok Hp].
  pose proof (due_bounds cfg _ id sc (v_now s) Hcfg Hok Hp) as [Hd _].
  rewrite (claim_plan_eq cfg (NextScheduleId s) id) in Hv1 by done.
  assert (due cfg sc (v_now s) ≠ 0 ∧ v1 = Pay (due cfg sc (v_now s))) as [Hnz ->].
  { destruct (Z.eqb_spec (due cfg sc (v_now s)) 0) as [E|E].
    - injection Hv1 as <-. discriminate Hv2.
    - destruct (last_claim_at sc); [|by injection Hv1 as <-].
      destruct (_ <? _); injection Hv1 as <-; [discriminate Hv2|done]. }
  injection Hv2 as <-. destruct v3 as [s1 sc1]. unfold settle_schedule in Hv3. res_inv.
  destruct (transfer_and_record_Ok _ _ _ _ _ (vi_ledger _ Hi) (proj1 Hd) (not_eq_sym (so_beneficiary _ _ _ _ Hok)) Hv0)
    as ((c & p & ->) & ? & ? & ? & ?).
  apply checked_add_Some in Hv2 as [-> _]. subst s' s1 sc1. cbn in *. auto 12.
Qed.

(** Replacing one schedule by a sound one that owes [v] less keeps the
    table sound, when the pot pays no more than [v]. *)
Lemma inv_replace s s' id sc sc' :
  vesting_inv s → Schedules s !! id = Some sc →
  NextScheduleId s' = NextScheduleId s → Launch s' = Launch s → v_now s' = v_now s →
  Schedules s' = <[id := sc']> (Schedules s) → ledger_inv (v_ledger s') →
  schedule_ok cfg (NextScheduleId s) id sc' → paid_in_time (v_now s) sc' →
  (Launch s = Some Pending → last_claim_at sc' = None) →
  bal s pot - (remaining_of sc - remaining_of sc') ≤ bal s' pot →
  vesting_inv s'.
Proof.
  intros Hi Hsc Hn Hl Ht Hm Hlg Hok Hp Hpend Hb.
  assert (Hcov : obligations (Schedules s) + minimum_balance C ≤ bal s pot).
  { apply Hi. intros E. rewrite E in Hsc. by apply lookup_empty_Some in Hsc. }
  split; rewrite ?Hn, ?Hl, ?Ht, ?Hm; try apply Hi; try done.
  - intros i x [[<- <-]|[? Hx]]%lookup_insert_Some; [done|]. by apply Hi.
  - intros _. rewrite (obligations_replace _ _ _ _ Hsc). lia.
  - intros HL. destruct (vi_pending s Hi HL) as [Hz Hnone]. split; [done|].
    intros i x [[<- <-]|[? Hx]]%lookup_insert_Some; eauto.
Qed.

Lemma claim_preserves s s' origin id :
  vesting_inv s → claim cfg origin id s = Ok s' → vesting_inv s'.
Proof.
  intros Hi Hc. destruct (claim_Ok _ _ _ _ Hi Hc) as (sc & Hsc & Hnz & Hn & Hl & Ht & Hm & _ & Hlg & Hpot & _).
  destruct (vi_schedules _ Hi id sc Hsc) as [Hok Hp].
  destruct (due_bounds cfg _ id sc (v_now s) Hcfg Hok Hp) as [Hd Hq].
  pose proof (vested_at_bounds cfg _ id sc (v_now s) Hok).
  eapply inv_replace; eauto.
  - destruct Hok. split; cbn; try done; [lia|]. by apply mod_0_add.
  - unfold paid_in_time; cbn. pose proof (vi_now _ Hi) as [? ?].
    split; [lia|]. unfold vested_at in *; cbn. lia.
  - intros HL. destruct (vi_pending _ Hi HL) as [Hz Hlast]. rewrite Hz in *.
    destruct Hnz. by eapply due_at_zero; eauto.
  - rewrite Hpot. unfold remaining_of; cbn. lia.
Qed.

Lemma retarget_preserves s s' origin id who :
  vesting_inv s → retarget_schedule (D := D) cfg origin id who s = Ok s' → vesting_inv s'.
Proof.
  intros Hi Hc. unfold retarget_schedule in Hc. res_inv. rename v1 into sc. subst s'.
  destruct (vi_schedules _ Hi id sc Hv1) as [Hok Hp].
  eapply (inv_replace s _ id sc _ Hi Hv1);
    [reflexivity|reflexivity|reflexivity|reflexivity|apply Hi|..]; cbn; [|done|..].
  - destruct Hok. by split.
  - intros HL. by eapply (vi_pending _ Hi HL).
  - unfold remaining_of; cbn. lia.
Qed.

Lemma create_preserves s s' origin who st cl en tot :
  vesting_inv s → call_in_range (VCreate who st cl en tot) →
  create_schedule cfg origin who st cl en tot s = Ok s' → vesting_inv s'.
Proof.
  intros Hi (Hst & Hcl & Hen & Htot) Hc. unfold create_schedule in Hc. res_inv.
  destruct v0 as [treasury q]. apply treasury_and_pot_Ok in Hv0 as (_ & -> & Htp). res_inv.
  apply checked_add_Some in Hv3 as [-> _].
  destruct (transfer_and_record_Ok _ _ _ _ _ (vi_ledger _ Hi) (proj1 Htot) Htp Hv4)
    as ((c & p & ->) & Hlg & _ & Hpot & _). subst s'. cbn in *.
  assert (Hfresh : Schedules s !! NextScheduleId s = None).
  { apply eq_None_not_Some. intros [sc Hsc]. destruct (vi_schedules _ Hi _ _ Hsc) as [[] _]. lia. }
  destruct (proj1 (schedule_is_valid_spec _ _ _ _ _) Hv0) as (?&?&?&?).
  destruct Hcfg. split; cbn; [done|apply Hi|pose proof (vi_next _ Hi); lia|..].
  - intros i x [[<- <-]|[? Hx]]%lookup_insert_Some.
    + split; [|done]. split; cbn; try done; [pose proof (vi_next _ Hi); lia|u_lia..].
    + destruct (vi_schedules _ Hi i x Hx) as [[] ?]. split; [|done]. split; auto. lia.
  - intros _. rewrite obligations_insert by done. unfold remaining_of at 1; cbn. rewrite Hpot.
    destruct (decide (Schedules s = ∅)) as [->|Hne].
    + change (obligations ∅) with 0. lia.
    + pose proof (vi_cover _ Hi Hne). lia.
  - intros HL. destruct (vi_pending _ Hi HL) as [Hz Hnone]. split; [done|].
    intros i x [[<- <-]|[? Hx]]%lookup_insert_Some; [done|eauto].
Qed.

(** Ending pays the nearest multiple of the quantum to what is owed. *)
Lemma ending_payout_spec n id sc now :
  schedule_ok cfg n id sc → paid_in_time now sc →
  let owed := vested_at sc now - claimed sc in
  let v := ending_payout cfg (remaining_of sc) owed in
  0 ≤ v ≤ remaining_of sc ∧ v mod PayoutQuantum cfg = 0 ∧ 2 * Z.abs (v - owed) ≤ PayoutQuantum cfg.
Proof.
  intros Hok Hp owed v. pose proof (paid_le_vested _ _ _ _ _ Hok Hp).
  pose proof (vested_at_bounds cfg n id sc now Hok).
  destruct Hok as [? Hv%schedule_is_valid_spec ? ? ? ? ? ?]. destruct Hv as (?&?&?&Hq), Hcfg.
  assert (Hr : remaining_of sc mod PayoutQuantum cfg = 0) by by apply mod_0_sub.
  apply Z.mod_divide in Hr as [r Hr]; [|lia].
  destruct (align_spec (sat_add 128 owed (PayoutQuantum cfg / 2)) (PayoutQuantum cfg)) as (Ha & Hb & Hc);
    [done|apply sat_add_in; [lia|lia|apply Z.div_pos; lia]|].
  apply Z.mod_divide in Ha as [k Hk]; [|lia].
  pose proof (Z.div_mod (PayoutQuantum cfg) 2 ltac:(lia)).
  pose proof (Z.mod_pos_bound (PayoutQuantum cfg) 2 ltac:(lia)).
  subst v. unfold ending_payout. unfold remaining_of, sat_add in *.
  assert (Hkr : k ≤ r) by nia.
  assert (Hmin : align (Z.min (owed + PayoutQuantum cfg / 2) (u_max 128)) (PayoutQuantum cfg) ≤ total sc - claimed sc) by nia.
  rewrite Z.min_l by done.
  destruct (Z.le_gt_cases (owed + PayoutQuantum cfg / 2) (u_max 128)).
  - rewrite Z.min_l in * by done. split_and!; [lia|lia| |lia]. rewrite Hk. apply Z.mod_mul; lia.
  - rewrite Z.min_r in * by lia. assert (k = r) as -> by nia.
    split_and!; [lia|lia| |lia]. rewrite Hk. apply Z.mod_mul; lia.
Qed.

(** A leg of the split: nothing moves for a zero amount. *)
Lemma leg_Ok s s' to v :
  ledger_inv (v_ledger s) → 0 ≤ v → to ≠ pot →
  (if v =? 0 then Ok s else transfer_and_record pot to v s) = Ok s' →
  (∃ c p, s' = put_books c p s) ∧ ledger_inv (v_ledger s') ∧
  bal s' pot = bal s pot - v ∧ bal s' to = bal s to + v ∧
  (∀ a, a ≠ pot → a ≠ to → bal s' a = bal s a).
Proof.
  intros Hl Hv Hne. destruct (Z.eqb_spec v 0) as [->|].
  - intros [= <-]. split; [exists (v_ledger s), (v_proofs s); by destruct s|]. split_and!; auto; lia.
  - intros Ht. by apply transfer_and_record_Ok; auto.
Qed.

(** Everything a successful [end_schedule] does. *)
Lemma end_Ok s s' origin id :
  vesting_inv s → end_schedule cfg origin id s = Ok s' →
  ∃ sc treasury, Schedules s !! id = Some sc ∧ v_treasury s = Some treasury ∧ treasury ≠ pot ∧
    let v := ending_payout cfg (remaining_of sc) (vested_at sc (v_now s) - claimed sc) in
    let r := remaining_of sc - v in
    NextScheduleId s' = NextScheduleId s ∧ Launch s' = Launch s ∧ v_now s' = v_now s ∧
    Schedules s' = delete id (Schedules s) ∧
    v_events s' = v_events s ++ [ScheduleEnded id (beneficiary sc) v r] ∧
    ledger_inv (v_ledger s') ∧ bal s' pot = bal s pot - remaining_of sc ∧
    (beneficiary sc ≠ treasury →
       bal s' (beneficiary sc) = bal s (beneficiary sc) + v ∧ bal s' treasury = bal s treasury + r) ∧
    (beneficiary sc = treasury → bal s' treasury = bal s treasury + remaining_of sc) ∧
    (∀ a, a ≠ pot → a ≠ beneficiary sc → a ≠ treasury → bal s' a = bal s a).
Proof.
  intros Hi Hc. unfold end_schedule in Hc. res_inv. destruct v0 as [treasury q].
  apply treasury_and_pot_Ok in Hv0 as (Htr & -> & Htp). res_inv. rename v into sc, Hv0 into Hsc.
  destruct (vi_schedules _ Hi id sc Hsc) as [Hok Hp].
  rewrite (outstanding_eq cfg (NextScheduleId s) id) in Hv1 by done.
  injection Hv1 as <-. res_inv. apply checked_sub_Some in Hv0 as [-> Hle].
  destruct (ending_payout_spec _ id sc (v_now s) Hok Hp) as (Hb & _).
  exists sc, treasury. do 3 (split; [done|]). cbn zeta.
  set (v := ending_payout _ _ _) in *. clearbody v.
  destruct (leg_Ok _ _ _ _ (vi_ledger _ Hi) (proj1 Hb) (so_beneficiary _ _ _ _ Hok) Hv1)
    as ((c1 & p1 & ->) & Hl1 & Hp1 & Ht1 & Ho1).
  destruct (leg_Ok _ _ _ _ Hl1 (proj2 (Z.le_0_sub _ _) Hle) Htp Hv2) as ((c2 & p2 & ->) & Hl2 & Hp2 & Ht2 & Ho2).
  subst s'. cbn in *. split_and!; auto; [lia|..].
  - intros Hne. split; [rewrite Ho2, Ht1; auto; apply Hok|rewrite Ht2, Ho1; auto].
  - intros <-. lia.
  - intros a H1 H2 H3. by rewrite Ho2, Ho1.
Qed.

Lemma end_preserves s s' origin id :
  vesting_inv s → end_schedule cfg origin id s = Ok s' → vesting_inv s'.
Proof.
  intros Hi Hc. destruct (end_Ok _ _ _ _ Hi Hc)
    as (sc & treasury & Hsc & _ & _ & Hn & Hl & Ht & Hm & _ & Hlg & Hpot & _).
  assert (Hcov : obligations (Schedules s) + minimum_balance C ≤ bal s pot).
  { apply Hi. intros E. rewrite E in Hsc. by apply lookup_empty_Some in Hsc. }
  split; rewrite ?Hn, ?Hl, ?Ht, ?Hm; try apply Hi; try done.
  - intros i x [_ Hx]%lookup_delete_Some. by apply Hi.
  - intros _. rewrite (obligations_delete _ _ _ Hsc), Hpot. lia.
  - intros HL. destruct (vi_pending _ Hi HL) as [Hz Hnone]. split; [done|].
    intros i x [_ Hx]%lookup_delete_Some. eauto.
Qed.

(** The rebase loop rewrites each stored schedule once. *)
Lemma rebase_loop t l s :
  foldl (λ s id, put_schedules (alter (rebase t) id (Schedules s)) s) s l =
  put_schedules (foldl (λ m id, alter (rebase t) id m) (Schedules s) l) s.
Proof.
  revert s. induction l as [|i l IH]; intros s; cbn; [by destruct s|]. by rewrite IH.
Qed.

Lemma rebase_lookup t (l : list Z) (m : gmap Z VestingSchedule) (id : Z) : NoDup l →
  foldl (λ m id, alter (rebase t) id m) m l !! id =
  (if bool_decide (id ∈ l) then rebase t <$> m !! id else m !! id).
Proof.
  intros Hnd. revert m. induction Hnd as [|i l Hi Hnd IH]; intros m; cbn; [done|]. rewrite IH.
  destruct (decide (id = i)) as [->|Hne].
  - rewrite bool_decide_eq_false_2 by done. rewrite bool_decide_eq_true_2 by set_solver.
    by rewrite lookup_alter_eq.
  - rewrite lookup_alter_ne by done. by rewrite (bool_decide_ext (id ∈ i :: l) (id ∈ l)) by set_solver.
Qed.

Lemma rebased_schedules s t :
  vesting_inv s →
  foldl (λ m id, alter (rebase t) id m) (Schedules s) (seqZ 0 (NextScheduleId s)) =
  rebase t <$> Schedules s.
Proof.
  intros Hi. apply map_eq. intros id. rewrite rebase_lookup by apply NoDup_seqZ.
  rewrite lookup_fmap. case_bool_decide as Hin; [done|].
  destruct (Schedules s !! id) as [sc|] eqn:Hsc; [|done].
  destruct (vi_schedules _ Hi id sc Hsc) as [[] _]. destruct Hin. apply elem_of_seqZ. lia.
Qed.

Lemma obligations_rebase t (m : gmap Z VestingSchedule) : obligations (rebase t <$> m) = obligations m.
Proof.
  unfold obligations. rewrite map_to_list_fmap.
  induction (map_to_list m) as [|[i sc] l IH]; [done|]. cbn [fmap list_fmap]. rewrite !sum_by_cons, IH.
  done.
Qed.

Lemma rebase_ok n id sc t :
  schedule_ok cfg n id sc → 0 ≤ t → end_ sc + t ≤ u_max 64 → schedule_ok cfg n id (rebase t sc).
Proof.
  intros [? Hv%schedule_is_valid_spec ? ? ? ? ? ?] Ht Hend.
  split; cbn; rewrite ?sat_add_exact by lia; try done; [|lia]. apply schedule_is_valid_spec. lia.
Qed.

Lemma time_preserves s t :
  vesting_inv s → v_now s ≤ t ≤ u_max 64 →
  (Launch s = Some Pending → ∀ id sc, Schedules s !! id = Some sc → end_ sc + t ≤ u_max 64) →
  vesting_inv (on_timestamp_set t (put_now t s)).
Proof.
  intros Hi Ht Hend. pose proof (vi_now _ Hi) as Hnow. unfold on_timestamp_set. cbn -[seqZ].
  destruct (Z.eqb_spec t 0) as [->|Hnz]; cbn -[seqZ].
  { split; cbn; try apply Hi; [u_lia|..].
    - intros id sc Hsc. destruct (vi_schedules _ Hi id sc Hsc). split; [done|].
      by replace 0 with (v_now s) by u_lia.
    - intros HL. split; [done|]. by apply (vi_pending _ Hi). }
  case_bool_decide as HL.
  { split; cbn; try apply Hi; [u_lia| |done].
    intros id sc Hsc. destruct (vi_schedules _ Hi id sc Hsc). split; [done|].
    by eapply paid_in_time_mono; [|done]; lia. }
  rewrite rebase_loop. cbn -[seqZ]. rewrite rebased_schedules by done.
  destruct (vi_pending _ Hi HL) as [Hz Hnone].
  split; cbn; try apply Hi; [u_lia| | |done].
  - intros id x. rewrite lookup_fmap. intros (sc & Hsc & ->)%fmap_Some.
    destruct (vi_schedules _ Hi id sc Hsc) as [Hok Hp]. split; [apply rebase_ok; eauto; u_lia|].
    unfold paid_in_time in *; cbn. by rewrite (Hnone _ _ Hsc) in *.
  - rewrite obligations_rebase. intros Hne. apply (vi_cover _ Hi). intros E. apply Hne. by rewrite E, fmap_empty.
Qed.

Lemma vesting_call_preserves s s' origin k :
  vesting_inv s → call_in_range k → vesting_call origin k s = Ok s' → vesting_inv s'.
Proof.
  intros Hi Hr Hc. destruct k as [id|who st cl en tot|id|id who].
  - by eapply claim_preserves.
  - by eapply create_preserves.
  - by eapply end_preserves.
  - by eapply retarget_preserves.
Qed.

(** ** Genesis *)
Definition genesis_in_range (g : GenesisSchedule) : Prop :=
  let '(_, st, cl, en, tot) := g in in_u 64 st ∧ in_u 64 cl ∧ in_u 64 en ∧ in_u 128 tot.

Definition genesis_acc_ok (acc : Z * Z * gmap Z VestingSchedule) : Prop :=
  let '(i, sum, m) := acc in
  0 ≤ i ∧ sum = obligations m ∧
  ∀ id sc, m !! id = Some sc → schedule_ok cfg i id sc ∧ last_claim_at sc = None ∧ claimed sc = 0.

Lemma genesis_insert_ok acc g acc' :
  genesis_acc_ok acc → genesis_in_range g → genesis_insert cfg acc g = Some acc' →
  genesis_acc_ok acc' ∧ acc'.1.1 = acc.1.1 + 1.
Proof.
  destruct acc as [[i sum] m], g as [[[[who st] cl] en] tot].
  intros (Hi & -> & Hm) (Hst & Hcl & Hen & Htot). cbn.
  destruct (schedule_is_valid _ _ _ _ _) eqn:Hv; [|done]. cbn.
  case_bool_decide as Hwho; [done|].
  destruct (checked_add _ _ _) as [sum'|] eqn:Hs; [|done]. intros [= <-].
  apply checked_add_Some in Hs as [-> _]. cbn. split; [|done].
  assert (Hfresh : m !! i = None).
  { apply eq_None_not_Some. intros [sc Hsc]. destruct (Hm _ _ Hsc) as [[] _]. lia. }
  split_and!; [lia| |].
  - rewrite obligations_insert by done. unfold remaining_of; cbn. lia.
  - intros id sc [[<- <-]|[_ Hsc]]%lookup_insert_Some.
    + destruct Hcfg, (proj1 (schedule_is_valid_spec _ _ _ _ _) Hv) as (?&?&?&?).
      split; [|done]. split; cbn; try done; [lia|u_lia..].
    + destruct (Hm _ _ Hsc) as [[] ?]. split; [|done]. split; auto. lia.
Qed.

Lemma genesis_loop_ok l acc acc' :
  genesis_acc_ok acc → Forall genesis_in_range l → genesis_loop cfg acc l = Some acc' →
  genesis_acc_ok acc' ∧ acc'.1.1 = acc.1.1 + Z.of_nat (length l).
Proof.
  revert acc. induction l as [|g l IH]; intros acc Hacc Hr Hl; cbn -[genesis_insert] in *.
  - injection Hl as <-. split; [done|lia].
  - apply Forall_cons in Hr as [Hg Hr]. destruct (genesis_insert _ _ _) as [acc1|] eqn:E; [|done].
    destruct (genesis_insert_ok _ _ _ Hacc Hg E) as [H1 H2].
    destruct (IH acc1 H1 Hr Hl) as [? ?]. split; [done|]. lia.
Qed.

Lemma vesting_genesis_inv l anchor c p tr s :
  ledger_inv c → Forall genesis_in_range l → vesting_genesis cfg l anchor c p tr = Some s → vesting_inv s.
Proof.
  intros Hc Hr. unfold vesting_genesis.
  destruct l as [|g l].
  { intros [= <-]. split; cbn; try done. }
  destruct (genesis_loop _ _ _) as [[[i sum] m]|] eqn:Hl; [|done].
  destruct (genesis_loop_ok _ (0, 0, ∅) _ ltac:(done) Hr Hl) as [(Hi & -> & Hm) Hlen]. cbn in Hlen |- *.
  destruct (checked_add _ _ _) as [req|] eqn:Hreq; [|done].
  apply checked_add_Some in Hreq as [-> _]. cbn. case_match eqn:Hb; [|done]. intros [= <-].
  apply Z.eqb_eq in Hb. split; cbn; try done.
  - intros id sc Hsc. destruct (Hm _ _ Hsc) as ([] & Hn & Hz). split; [split; auto; lia|].
    unfold paid_in_time. by rewrite Hn.
  - intros _. lia.
  - intros _. split; [done|]. intros id sc Hsc. by destruct (Hm _ _ Hsc) as (_ & ? & _).
Qed.

(** ** The pallet's own check *)
Lemma try_schedule_Ok n acc id sc :
  schedule_ok cfg n id sc → 0 ≤ acc → acc + remaining_of sc ≤ u_max 128 →
  try_schedule cfg n acc (id, sc) = Ok (acc + remaining_of sc).
Proof.
  intros [Hid Hv Hst Hen Ht Hcl Hal Hben] Hacc Hsum. unfold try_schedule, checked_sub, checked_add.
  rewrite (proj2 (Z.ltb_lt id n)) by lia. rewrite Hv.
  rewrite !(proj2 (Z.leb_le (claimed sc) (total sc))) by lia.
  rewrite Hal, bool_decide_eq_true_2 by done. cbn.
  destruct (proj1 (schedule_is_valid_spec _ _ _ _ _) Hv) as (?&?&?&Hq). destruct Hcfg.
  assert (Hmod : (total sc - claimed sc) mod PayoutQuantum cfg = 0) by by apply mod_0_sub.
  assert (Hrem : (total sc - claimed sc =? 0) || (PayoutQuantum cfg <=? total sc - claimed sc) = true).
  { destruct (Z.eqb_spec (total sc - claimed sc) 0); [done|]. apply Z.leb_le.
    apply Z.divide_pos_le; [lia|]. by apply Z.mod_divide; [lia|]. }
  rewrite Hrem. cbn. unfold remaining_of in *. by rewrite (proj2 (Z.leb_le _ _)) by lia.
Qed.

Lemma try_loop_Ok n acc (l : list (Z * VestingSchedule)) :
  Forall (λ e, schedule_ok cfg n e.1 e.2) l → 0 ≤ acc →
  acc + sum_by (λ e, remaining_of e.2) l ≤ u_max 128 →
  fold_result (try_schedule cfg n) acc l = Ok (acc + sum_by (λ e, remaining_of e.2) l).
Proof.
  intros Hl. revert acc. induction Hl as [|[id sc] l Hok Hl IH]; intros acc Hacc Hsum.
  - cbn. unfold sum_by; cbn. f_equal. lia.
  - rewrite sum_by_cons in *. cbn [fold_result snd] in *. cbn in Hok.
    assert (0 ≤ remaining_of sc) by (destruct Hok; unfold remaining_of; lia).
    assert (0 ≤ sum_by (λ e, remaining_of e.2) l).
    { apply sum_by_nonneg. intros [i x] Hin. rewrite Forall_forall in Hl.
      destruct (Hl _ Hin). cbn in *. unfold remaining_of. lia. }
    rewrite try_schedule_Ok by (done || lia). cbn. rewrite IH by lia. f_equal. lia.
Qed.

Lemma inv_try_state s : vesting_inv s → do_try_state cfg s = ensure (bool_decide (v_treasury s ≠ Some pot)) TreasuryAliasesPot.
Proof.
  intros Hi. unfold do_try_state. destruct (decide (v_treasury s = Some pot)) as [Ha|Ha].
  { rewrite Ha, (bool_decide_eq_false_2 (pot ≠ pot)), (bool_decide_eq_false_2 (Some pot ≠ Some pot)) by auto. done. }
  assert (Htr : match v_treasury s with
                | Some treasury => ensure (bool_decide (treasury ≠ pot)) TreasuryAliasesPot
                | None => Ok tt end = Ok tt).
  { destruct (v_treasury s) as [t|]; [|done]. apply ensure_Ok, bool_decide_eq_true_2. by intros ->. }
  rewrite Htr, (bool_decide_eq_true_2 _ Ha). cbn.
  assert (Hall : Forall (λ e, schedule_ok cfg (NextScheduleId s) e.1 e.2) (map_to_list (Schedules s))).
  { apply Forall_forall. intros [id sc] Hin%elem_of_map_to_list. by apply Hi. }
  pose proof (minimum_balance_nonneg (C := C) (D := D)).
  destruct (total_balance_u128 (v_ledger s) pot (vi_ledger _ Hi)) as [Hb0 Hb1].
  destruct (decide (Schedules s = ∅)) as [E|Hne].
  - rewrite E, map_to_list_empty. cbn. apply ensure_Ok, Z.leb_le. done.
  - pose proof (vi_cover _ Hi Hne) as Hcov. unfold obligations in Hcov.
    rewrite try_loop_Ok by (done || u_lia). rewrite Z.add_0_l. cbn.
    rewrite bool_decide_eq_false_2 by (by intros Hnil%map_to_list_empty_iff). cbn.
    unfold checked_add. rewrite (proj2 (Z.leb_le _ _)) by u_lia. cbn. apply ensure_Ok, Z.leb_le. done.
Qed.

Lemma vesting_reachable_inv l anchor c p tr s :
  ledger_inv c → Forall genesis_in_range l → vreachable l anchor c p tr true s → vesting_inv s.
Proof.
  intros Hc Hl Hs. remember true as fits eqn:Hf.
  induction Hs as [s Hg|fits origin k s s' _ IH Hr Hk|fits t s _ IH Ht|fits c' p' tr' s _ IH Hl' Hb].
  - by eapply vesting_genesis_inv.
  - eapply vesting_call_preserves; eauto.
  - apply andb_prop in Hf as [-> Hfit%bool_decide_eq_true]. apply time_preserves; [by apply IH|done|].
    intros HL id sc Hsc. exact (Hfit HL id sc Hsc).
  - specialize (IH Hf). split; cbn; try apply IH; [done|]. intros Hne. pose proof (vi_cover _ IH Hne). lia.
Qed.

(** Once everything has vested, what is due is what remains. *)
Lemma due_final n id sc now : schedule_ok cfg n id sc → end_ sc ≤ now → due cfg sc now = remaining_of sc.
Proof.
  intros [? Hv%schedule_is_valid_spec ? ? ? ? ? ?] Hend. unfold due, vested_at, remaining_of.
  rewrite (proj2 (Z.ltb_ge now (cliff sc))), (proj2 (Z.leb_le (end_ sc) now)) by lia.
  by rewrite Z.eqb_refl.
Qed.

(** A due payout clears. *)
Lemma settle_succeeds s id sc v :
  minimum_balance C ≤ PayoutQuantum cfg →
  (∀ (c : C) to v, ledger_inv c → to ≠ pot → minimum_balance C ≤ v →
     v + minimum_balance C ≤ total_balance c pot → total_balance c to + v ≤ u_max 128 →
     ∃ c', transfer c pot to v = Ok c') →
  (∀ (p : P) from to v, 0 < v → (record_transfer_proof p from to v).2 = true) →
  vesting_inv s → Schedules s !! id = Some sc → bal s (beneficiary sc) + remaining_of sc ≤ u_max 128 →
  v = due cfg sc (v_now s) → v ≠ 0 →
  ∃ r, settle_schedule cfg sc v (v_now s) s = Ok r.
Proof.
  intros Hed Hpays Hrec Hi Hsc Hfit -> Hnz.
  destruct (vi_schedules _ Hi id sc Hsc) as [Hok Hp].
  destruct (due_bounds cfg _ id sc (v_now s) Hcfg Hok Hp) as [Hd Hq].
  pose proof (vested_at_bounds cfg _ id sc (v_now s) Hok). pose proof (so_total _ _ _ _ Hok).
  assert (Hcov : obligations (Schedules s) + minimum_balance C ≤ bal s pot).
  { apply Hi. intros E. rewrite E in Hsc. by apply lookup_empty_Some in Hsc. }
  pose proof (remaining_le_obligations _ id sc (remaining_nonneg s Hi) Hsc).
  set (v := due cfg sc (v_now s)) in *.
  assert (PayoutQuantum cfg ≤ v).
  { apply Z.divide_pos_le; [lia|]. apply Z.mod_divide; [|done]. destruct Hcfg; lia. }
  unfold remaining_of in *.
  destruct (Hpays (v_ledger s) (beneficiary sc) v) as [c' Hc']; [apply Hi|apply Hok|lia|lia|lia|].
  unfold settle_schedule, transfer_and_record. rewrite Hc'. cbn.
  pose proof (Hrec (v_proofs s) pot (beneficiary sc) v ltac:(lia)) as Hr.
  destruct (record_transfer_proof _ _ _ _) as [p rec]. cbn in Hr. subst rec. cbn.
  unfold checked_add. rewrite (proj2 (Z.leb_le _ _)) by lia. cbn. eauto.
Qed.
End Invariant.

(** ** The guarantees *)
Section Guarantees.
Context {C D P : Type} `{Ledger C D, !LedgerLaws C D, ProofRecorder P}.
Implicit Types (s : Vesting C P) (cfg : VestingConfig) (sc : VestingSchedule).
#[local] Abbreviation bal s := (total_balance (D := D) (v_ledger s)).

(** C35: from a genesis the pallet accepts, through any sequence of claims,
    creations, endings, retargets, timestamp inherents (the launch rebase
    included) and other activity that does not debit the keyless pot and may
    set the treasury account to anything, the pallet's own check fails only on
    a treasury account that is the pot itself: ids are below the counter,
    every schedule is valid, aligned and not overpaid, and the pot covers the
    sum of what is still owed plus its existential deposit. This is provided
    the launch rebase carried no schedule's end past 64 bits; a genesis whose
    offsets are that large is accepted, and then fails the check
    ([rebase_can_break_a_schedule]). *)
Theorem vesting_check_fails_only_on_the_treasury cfg l anchor (c : C) (p : P) tr s :
  valid_vesting_config cfg → ledger_inv c → Forall genesis_in_range l →
  vreachable cfg l anchor c p tr true s →
  do_try_state cfg s = ensure (bool_decide (v_treasury s ≠ Some (pot_account_id cfg))) TreasuryAliasesPot.
Proof. intros Hcfg Hc Hl Hs. apply inv_try_state; [done|]. by eapply vesting_reachable_inv. Qed.

(** In a reachable state, with a pot whose keep-alive payouts clear
    and a recorder that records every non-zero credit, a signed claim on a
    stored schedule is decided by what is due: it is refused when nothing
    is due or when the last claim is too recent, and otherwise pays exactly
    the due amount from the pot to the beneficiary, which is the whole
    remainder once everything has vested, is never more than has vested,
    and is what the schedule then counts as claimed. *)
Theorem claim_pays_exactly_what_is_due cfg l anchor (c : C) (p : P) tr s who id sc :
  valid_vesting_config cfg → minimum_balance C ≤ PayoutQuantum cfg →
  (∀ (c : C) to v, ledger_inv c → to ≠ pot_account_id cfg → minimum_balance C ≤ v →
     v + minimum_balance C ≤ total_balance c (pot_account_id cfg) → total_balance c to + v ≤ u_max 128 →
     ∃ c', transfer c (pot_account_id cfg) to v = Ok c') →
  (∀ (p : P) from to v, 0 < v → (record_transfer_proof p from to v).2 = true) →
  ledger_inv c → Forall genesis_in_range l → vreachable cfg l anchor c p tr true s →
  Schedules s !! id = Some sc →
  bal s (beneficiary sc) + remaining_of sc ≤ u_max 128 →
  let v := due cfg sc (v_now s) in
  if v =? 0 then claim cfg (Signed who) id s = Err (VModule NothingToClaim)
  else if match last_claim_at sc with Some t => v_now s - t <? MinClaimInterval cfg | None => false end
  then claim cfg (Signed who) id s = Err (VModule ClaimTooSoon)
  else ∃ s', claim cfg (Signed who) id s = Ok s' ∧
    bal s' (pot_account_id cfg) = bal s (pot_account_id cfg) - v ∧
    bal s' (beneficiary sc) = bal s (beneficiary sc) + v ∧
    (end_ sc ≤ v_now s → v = remaining_of sc) ∧
    ∃ sc', Schedules s' !! id = Some sc' ∧ claimed sc' = claimed sc + v ∧
      claimed sc' ≤ vested_at sc (v_now s) ∧ last_claim_at sc' = Some (v_now s).
Proof.
  intros Hcfg Hed Hpot Hrec Hc Hl Hs Hsc Hfit v.
  pose proof (vesting_reachable_inv cfg Hcfg _ _ _ _ _ _ Hc Hl Hs) as Hi.
  destruct (vi_schedules _ _ Hi id sc Hsc) as [Hok Hp].
  assert (Hclaim : claim cfg (Signed who) id s =
    (plan ← claim_plan cfg sc (v_now s);
     payable ← match plan with Pay a => Ok a | PlanNothingToClaim => Err (VModule NothingToClaim)
               | PlanTooSoon => Err (VModule ClaimTooSoon) end;
     '(s, sc) ← settle_schedule cfg sc payable (v_now s) s;
     Ok (put_schedules (<[id := sc]> (Schedules s)) (v_deposit_event (Claimed id (beneficiary sc) payable) s)))).
  { unfold claim. cbn. by rewrite Hsc. }
  rewrite (claim_plan_eq cfg (NextScheduleId s) id) in Hclaim by done. fold v in Hclaim.
  destruct (Z.eqb_spec v 0) as [Hz|Hz]; [done|].
  destruct (match last_claim_at sc with Some t => v_now s - t <? MinClaimInterval cfg | None => false end) eqn:Hsoon.
  { destruct (last_claim_at sc); [|done]. by rewrite Hsoon in Hclaim. }
  assert (Hset : ∃ r, settle_schedule cfg sc v (v_now s) s = Ok r).
  { eapply (settle_succeeds cfg); eauto. }
  destruct Hset as [[s1 sc1] Hset].
  assert (∃ s', claim cfg (Signed who) id s = Ok s') as [s' Hs'].
  { rewrite Hclaim. destruct (last_claim_at sc); [rewrite Hsoon|]; cbn; rewrite Hset; eauto. }
  exists s'. split; [done|].
  destruct (claim_Ok cfg Hcfg _ _ _ _ Hi Hs') as (sc0 & Hsc0 & _ & _ & _ & _ & Hm & _ & _ & Hb1 & Hb2 & _).
  assert (sc0 = sc) as -> by congruence. fold v in Hm, Hb1, Hb2.
  split_and!; [done|done| |].
  - intros Hend. by apply (due_final cfg (NextScheduleId s) id).
  - rewrite Hm, lookup_insert_eq. eexists. split; [done|]. cbn. split_and!; [done| |done].
    destruct (due_bounds cfg _ id sc (v_now s) Hcfg Hok Hp) as [Hd _]. fold v in Hd. lia.
Qed.

(** Ending a schedule removes it and splits what remained of its grant
    with nothing lost or created: the beneficiary gets the multiple of the
    payout quantum nearest to what had vested and was unpaid, the treasury
    gets the rest, the pot pays exactly the two, and no other account moves. *)
Theorem end_schedule_splits_the_remainder cfg l anchor (c : C) (p : P) tr s s' origin id :
  valid_vesting_config cfg → ledger_inv c → Forall genesis_in_range l →
  vreachable cfg l anchor c p tr true s → end_schedule cfg origin id s = Ok s' →
  ∃ sc treasury paid refund,
    Schedules s !! id = Some sc ∧ Schedules s' = delete id (Schedules s) ∧
    v_treasury s = Some treasury ∧ paid + refund = remaining_of sc ∧ 0 ≤ paid ∧ 0 ≤ refund ∧
    paid mod PayoutQuantum cfg = 0 ∧
    2 * Z.abs (paid - (vested_at sc (v_now s) - claimed sc)) ≤ PayoutQuantum cfg ∧
    bal s' (pot_account_id cfg) = bal s (pot_account_id cfg) - (paid + refund) ∧
    (beneficiary sc ≠ treasury →
       bal s' (beneficiary sc) = bal s (beneficiary sc) + paid ∧ bal s' treasury = bal s treasury + refund) ∧
    (beneficiary sc = treasury → bal s' treasury = bal s treasury + (paid + refund)) ∧
    (∀ a, a ≠ pot_account_id cfg → a ≠ beneficiary sc → a ≠ treasury → bal s' a = bal s a).
Proof.
  intros Hcfg Hc Hl Hs He. pose proof (vesting_reachable_inv cfg Hcfg _ _ _ _ _ _ Hc Hl Hs) as Hi.
  destruct (end_Ok cfg Hcfg _ _ _ _ Hi He)
    as (sc & treasury & Hsc & Htr & Htp & _ & _ & _ & Hm & _ & _ & Hb & H1 & H2 & H3).
  destruct (vi_schedules _ _ Hi id sc Hsc) as [Hok Hp].
  destruct (ending_payout_spec cfg Hcfg _ id sc (v_now s) Hok Hp) as (? & ? & ?).
  set (v := ending_payout _ _ _) in *. exists sc, treasury, v, (remaining_of sc - v).
  replace (v + (remaining_of sc - v)) with (remaining_of sc) by lia.
  split_and!; auto; lia.
Qed.
End Guarantees.

(** ** A concrete chain *)
Module ToyVesting.
Abbreviation ledger := (gmap Hash256 Z).
Definition pot : Hash256 := [1].
Definition treasury : Hash256 := [2].
Definition alice : Hash256 := [3].

Definition balance (c : ledger) (a : Hash256) : Z := default 0 (c !! a).

Definition move (c : ledger) (from to : Hash256) (v : Z) : result unit ledger :=
  if bool_decide (from = to) then Ok c
  else if (1 + v <=? balance c from) && (1 <=? balance c to + v) && (balance c to + v <=? u_max 128)
  then Ok (<[from := balance c from - v]> (<[to := balance c to + v]> c))
  else Err tt.

#[global] Instance toy_ledger : Ledger ledger unit := {
  total_balance := balance;
  transfer := move;
  minimum_balance := 1;
  ledger_inv c := map_Forall (λ _ b, in_u 128 b) c;
}.

Lemma balance_u128 (c : ledger) a : ledger_inv c → in_u 128 (balance c a).
Proof.
  intros Hc. unfold balance. destruct (c !! a) as [b|] eqn:E; [by apply (Hc a)|]. done.
Qed.

Lemma balance_insert_eq (c : ledger) a x : balance (<[a := x]> c) a = x.
Proof. unfold balance. by rewrite lookup_insert_eq. Qed.
Lemma balance_insert_ne (c : ledger) a b x : b ≠ a → balance (<[a := x]> c) b = balance c b.
Proof. intros. unfold balance. by rewrite lookup_insert_ne. Qed.

#[global] Instance toy_ledger_laws : LedgerLaws ledger unit.
Proof.
  split; [done|apply balance_u128|].
  intros c c' from to v Hc Hv Hne. cbn. unfold move. rewrite bool_decide_eq_false_2 by done.
  destruct (_ && _ && _) eqn:E; [|done]. intros [= <-]. res_inv.
  pose proof (balance_u128 c from Hc). pose proof (balance_u128 c to Hc). split_and!.
  - apply map_Forall_insert_2; [u_lia|]. apply map_Forall_insert_2; [u_lia|done].
  - apply balance_insert_eq.
  - by rewrite balance_insert_ne, balance_insert_eq.
  - intros a Hf Ht. by rewrite !balance_insert_ne.
Qed.

#[global] Instance toy_proofs : ProofRecorder nat := {
  record_transfer_proof p _ _ _ := (S p, true);
}.

Definition cfg : VestingConfig := {|
  pot_account_id := pot;
  ensure_admin o := match o with Root => true | _ => false end;
  PayoutQuantum := 10;
  MinClaimInterval := 5;
|}.
Lemma cfg_valid : valid_vesting_config cfg.
Proof. by split. Qed.

(** The keep-alive payouts of the pot clear, and every credit is recorded. *)
Lemma pot_pays (c : ledger) to v :
  ledger_inv c → to ≠ pot_account_id cfg → minimum_balance ledger ≤ v →
  v + minimum_balance ledger ≤ total_balance c (pot_account_id cfg) → total_balance c to + v ≤ u_max 128 →
  ∃ c', transfer c (pot_account_id cfg) to v = Ok c'.
Proof.
  change (pot_account_id cfg) with pot. cbn. intros Hc Hne Hv Hp Ht. pose proof (balance_u128 c to Hc) as [? _]. unfold move.
  rewrite bool_decide_eq_false_2 by done.
  rewrite !(proj2 (Z.leb_le _ _)) by lia. cbn. eauto.
Qed.

Lemma records (p : nat) (from to : Hash256) v : 0 < v → (record_transfer_proof p from to v).2 = true.
Proof. done. Qed.

Lemma quantum_covers_deposit : minimum_balance ledger ≤ PayoutQuantum cfg.
Proof. done. Qed.

Definition table : list GenesisSchedule := [(alice, 0, 20, 100, 100000)].
Definition c0 : ledger := <[pot := 100001]> (<[treasury := 500]> ∅).
Definition blank : Vesting ledger nat :=
  {| NextScheduleId := 0; Schedules := ∅; Launch := None; v_events := []; v_now := 0;
     v_ledger := ∅; v_proofs := 0%nat; v_treasury := None |}.
Definition s0 : Vesting ledger nat := default blank (vesting_genesis cfg table true c0 0%nat (Some treasury)).
Definition s1 : Vesting ledger nat := on_timestamp_set 1000 (put_now 1000 s0).
Definition s2 : Vesting ledger nat := on_timestamp_set 1053 (put_now 1053 s1).
Definition s3 : Vesting ledger nat :=
  match claim cfg (Signed alice) 0 s2 with Ok s => s | Err _ => blank end.
Definition s4 : Vesting ledger nat := on_timestamp_set 1057 (put_now 1057 s3).
Definition s5 : Vesting ledger nat := on_timestamp_set 1100 (put_now 1100 s4).

Lemma c0_inv : ledger_inv c0.
Proof. cbn. by apply (bool_decide_unpack _). Qed.
Lemma table_in_range : Forall genesis_in_range table.
Proof. by repeat constructor. Qed.

Abbreviation reach := (vreachable cfg table true c0 0%nat (Some treasury) true).
Lemma time_step (s : Vesting ledger nat) t :
  reach s → v_now s ≤ t ≤ u_max 64 → rebase_fits t s = true → reach (on_timestamp_set t (put_now t s)).
Proof. intros Hs Ht Hf. pose proof (vr_time cfg _ _ _ _ _ _ t s Hs Ht) as Hr. by rewrite Hf in Hr. Qed.

Lemma reach_s4 : reach s4.
Proof.
  apply (time_step s3 1057); [|by vm_compute..].
  apply (vr_call cfg _ _ _ _ _ _ (Signed alice) (VClaim 0) s2 s3); [|done|by vm_compute].
  apply (time_step s1 1053); [|by vm_compute..]. apply (time_step s0 1000); [|by vm_compute..].
  apply vr_genesis. by vm_compute.
Qed.

Lemma reach_s5 : reach s5.
Proof. apply (time_step s4 1100); [exact reach_s4|by vm_compute..]. Qed.

(** An accepted genesis whose offsets end at the top of the range: the rebase
    saturates the start, the cliff and the end to the same moment, and the
    pallet's own check finds an invalid schedule. *)
Definition late : list GenesisSchedule := [(alice, u_max 64 - 1, u_max 64 - 1, u_max 64, 100000)].
Definition late0 : Vesting ledger nat := default blank (vesting_genesis cfg late true c0 0%nat (Some treasury)).
Example rebase_can_break_a_schedule :
  vesting_genesis cfg late true c0 0%nat (Some treasury) = Some late0 ∧ do_try_state cfg late0 = Ok tt ∧
  rebase_fits 1000 late0 = false ∧
  do_try_state cfg (on_timestamp_set 1000 (put_now 1000 late0)) = Err InvalidStoredSchedule.
Proof. by vm_compute. Qed.
End ToyVesting.

Lemma vesting_check_fails_only_on_the_treasury_witness : do_try_state ToyVesting.cfg ToyVesting.s5 = Ok tt.
Proof.
  etrans; [exact (vesting_check_fails_only_on_the_treasury ToyVesting.cfg ToyVesting.table true ToyVesting.c0 0%nat (Some ToyVesting.treasury)
    ToyVesting.s5 ToyVesting.cfg_valid ToyVesting.c0_inv ToyVesting.table_in_range ToyVesting.reach_s5)|].
  by vm_compute.
Defined.

(** The first claim at 1053 paid the aligned 50000 of the 53000 vested; the
    one at the end pays the other 50000. *)
Lemma claim_pays_exactly_what_is_due_witness :
  ∃ sc s', Schedules ToyVesting.s5 !! 0 = Some sc ∧ claim ToyVesting.cfg (Signed ToyVesting.treasury) 0 ToyVesting.s5 = Ok s' ∧
    total_balance (v_ledger s') ToyVesting.alice = 100000.
Proof.
  destruct (Schedules ToyVesting.s5 !! 0) as [sc|] eqn:Hsc; [|by vm_compute in Hsc].
  assert (Hd : due ToyVesting.cfg sc (v_now ToyVesting.s5) = 50000 ∧ last_claim_at sc = Some 1053 ∧
               beneficiary sc = ToyVesting.alice ∧ remaining_of sc = 50000)
    by (vm_compute in Hsc; injection Hsc as <-; by vm_compute).
  destruct Hd as (Hd & Hlast & Hben & Hrem).
  pose proof (claim_pays_exactly_what_is_due ToyVesting.cfg ToyVesting.table true ToyVesting.c0 0%nat (Some ToyVesting.treasury)
    ToyVesting.s5 ToyVesting.treasury 0 sc ToyVesting.cfg_valid ToyVesting.quantum_covers_deposit ToyVesting.pot_pays ToyVesting.records
    ToyVesting.c0_inv ToyVesting.table_in_range ToyVesting.reach_s5 Hsc) as Hclaim.
  rewrite Hben, Hrem in Hclaim. specialize (Hclaim ltac:(by vm_compute)).
  rewrite Hd, Hlast in Hclaim. cbn iota beta zeta in Hclaim.
  change (50000 =? 0) with false in Hclaim.
  assert (Hn : (v_now ToyVesting.s5 - 1053 <? MinClaimInterval ToyVesting.cfg) = false) by by vm_compute.
  rewrite Hn in Hclaim. destruct Hclaim as (s' & Hc & _ & Hb & _).
  exists sc, s'. split_and!; [done|done|]. rewrite Hb. by vm_compute.
Defined.

(** Ended at 1057 with 57000 vested and 50000 paid: 7000 to the beneficiary,
    43000 to the treasury. *)
Lemma end_schedule_splits_the_remainder_witness :
  ∃ s', end_schedule ToyVesting.cfg Root 0 ToyVesting.s4 = Ok s' ∧
    total_balance (v_ledger s') ToyVesting.alice = 57000 ∧
    total_balance (v_ledger s') ToyVesting.treasury = 43500 ∧ Schedules s' = delete 0 (Schedules ToyVesting.s4).
Proof.
  destruct (end_schedule ToyVesting.cfg Root 0 ToyVesting.s4) as [s'|] eqn:He; [|by vm_compute in He].
  exists s'. split; [done|].
  destruct (end_schedule_splits_the_remainder _ _ _ _ _ _ _ _ _ _ ToyVesting.cfg_valid ToyVesting.c0_inv
    ToyVesting.table_in_range ToyVesting.reach_s4 He) as (sc & tr & paid & refund & Hsc & Hdel & _).
  split_and!; [| |done].
  - vm_compute in He. injection He as <-. by vm_compute.
  - vm_compute in He. injection He as <-. by vm_compute.
Defined.
