(* ===== verification/Multisig.v ===== *)
(** * Multisig

    [chain/pallets/multisig/src/lib.rs] and its [weights.rs]: the table of
    multisig accounts and the table of proposals, the seven calls with their
    error post-information, and the helpers they share. The runtime's call
    type, its codec, its weights and its dispatch are parameters, as are the
    currency and the high-security inspector. *)

From stdpp Require Import base option list numbers gmap fin_maps sorting.
From S2P Require Import Prelude Crypto Interfaces Frame.
#[local] Open Scope Z_scope.

(** [frame_support::MAX_EXTRINSIC_DEPTH - 1]. *)
Definition MAX_MULTISIG_CALL_DEPTH : Z := 256 - 1.

Record MultisigData := {
  creator : Hash256;
  signers : list Hash256;
  threshold : Z;
  proposal_nonce : Z;
  proposals_per_signer : gmap Hash256 Z;
}.

(** The sum of a [u32] iterator, which wraps in a release build. *)
Definition active_proposals (d : MultisigData) : Z :=
  map_sum (λ _ n, n) (proposals_per_signer d) mod 2 ^ 32.

Inductive ProposalStatus := Active | Approved.
#[global] Instance ProposalStatus_eq_dec : EqDecision ProposalStatus.
Proof. solve_decision. Defined.

Record ProposalData := {
  proposer : Hash256;
  call : list Z;
  expiry : Z;
  approvals : list Hash256;
  deposit : Z;
  status : ProposalStatus;
}.

Inductive MultisigEvent (X : Type) :=
| MultisigCreated (creator multisig_address : Hash256) (signers : list Hash256) (threshold nonce : Z)
| ProposalCreated (multisig_address proposer : Hash256) (proposal_id : Z)
| SignerApproved (multisig_address approver : Hash256) (proposal_id approvals_count : Z)
| ProposalReadyToExecute (multisig_address : Hash256) (proposal_id approvals_count : Z)
| ProposalExecuted (multisig_address : Hash256) (proposal_id : Z) (proposer : Hash256)
    (call : list Z) (approvers : list Hash256) (outcome : result X unit)
| ProposalCancelled (multisig_address proposer : Hash256) (proposal_id : Z)
| ProposalRemoved (multisig_address : Hash256) (proposal_id : Z) (proposer removed_by : Hash256)
| DepositsClaimed (multisig_address claimer : Hash256) (total_returned proposals_removed : Z).
Arguments MultisigCreated {X}. Arguments ProposalCreated {X}. Arguments SignerApproved {X}.
Arguments ProposalReadyToExecute {X}. Arguments ProposalExecuted {X}.
Arguments ProposalCancelled {X}. Arguments ProposalRemoved {X}. Arguments DepositsClaimed {X}.

Inductive MultisigError :=
| NotEnoughSigners | ThresholdZero | ThresholdTooHigh | TooManySigners | MultisigAlreadyExists
| MultisigNotFound | NotASigner | ProposalNotFound | NotProposer | AlreadyApproved
| NotEnoughApprovals | ExpiryInPast | ExpiryTooFar | ProposalExpired | InvalidCall
| TooManyProposalsInStorage | TooManyProposalsPerSigner | InsufficientBalance
| ProposalHasDeposit | ProposalNotExpired | ProposalNotActive | ProposalNotApproved
| CallNotAllowedForHighSecurityMultisig | ProposalNonceExhausted | CallWeightExceedsLimit
| CallMismatch | DuplicateSigners.
#[global] Instance MultisigError_eq_dec : EqDecision MultisigError.
Proof. solve_decision. Defined.

Inductive MultisigFailure := MModule (e : MultisigError) | MBadOrigin.

(** [PostDispatchInfo::actual_weight] next to the error; [None] charges the
    declared weight in full. *)
Abbreviation MErr := (option Weight * MultisigFailure)%type.

Record MultisigConfig := {
  MaxSigners : Z;
  MaxTotalProposalsInStorage : Z;
  MaxCallSize : Z;
  MultisigFee : Z;
  ProposalDeposit : Z;
  ProposalFee : Z;
  SignerStepFactor : Z;
  PalletId : list Z;
  MaxExpiryDuration : Z;
  MaxInnerCallWeight : Weight;
  m_db : DbWeight;
  block_bits : Z;
  Hashing : list Z → Hash256;
}.

(** The runtime's call type as this pallet sees it. *)
Class RuntimeCallOps (Call : Type) := {
  call_encode : Call → list Z;
  decode_with_depth_limit : Z → list Z → option Call;
  call_weight : Call → Weight;
}.

(** ** [SubstrateWeight] *)
Module MultisigWeights.
Definition parts (r p : Z) : Weight := {| ref_time := r; proof_size := p |}.
#[local] Notation "a ⊕ b" := (weight_add a b) (at level 50, left associativity).

Definition create_multisig (db : DbWeight) (s : Z) : Weight :=
  parts 17602425 10357 ⊕ weight_mul (parts 57016 0) s ⊕ reads db 1 ⊕ writes db 1.
Definition propose (db : DbWeight) (c : Z) : Weight :=
  parts 32868787 10357 ⊕ weight_mul (parts 289 0) c ⊕ reads db 2 ⊕ writes db 2.
Definition propose_high_security (db : DbWeight) (c : Z) : Weight :=
  parts 32756690 10357 ⊕ weight_mul (parts 249 0) c ⊕ reads db 2 ⊕ writes db 2.
Definition approve (db : DbWeight) (c : Z) : Weight :=
  parts 16427194 17022 ⊕ weight_mul (parts 708 0) c ⊕ reads db 2 ⊕ writes db 1.
Definition execute (db : DbWeight) (c : Z) : Weight :=
  parts 29267236 17022 ⊕ weight_mul (parts 517 0) c ⊕ reads db 3 ⊕ writes db 2.
Definition cancel (db : DbWeight) (c : Z) : Weight :=
  parts 21840190 17022 ⊕ weight_mul (parts 215 0) c ⊕ reads db 2 ⊕ writes db 2.
Definition remove_expired (db : DbWeight) (c : Z) : Weight :=
  parts 22482489 17022 ⊕ weight_mul (parts 192 0) c ⊕ reads db 2 ⊕ writes db 2.
Definition claim_deposits (db : DbWeight) (i r c : Z) : Weight :=
  parts 1174000000 17022 ⊕ weight_mul (parts 575243 0) i ⊕ weight_mul (parts 7317942 0) r
  ⊕ weight_mul (parts 9959 0) c ⊕ reads db 2 ⊕ reads db (sat_mul 64 1 i) ⊕ writes db 1
  ⊕ writes db (sat_mul 64 1 r) ⊕ weight_mul (parts 0 16032) i.
End MultisigWeights.

(** The pallet's storage and log, with the clock, the ledger and the rest of
    the runtime it reaches. *)
Record Multisig {C E X : Type} := {
  Multisigs : gmap Hash256 MultisigData;
  Proposals : gmap (Hash256 * Z) ProposalData;
  m_events : list (MultisigEvent X);
  block_number : Z;
  m_ledger : C;
  m_env : E;
}.
Arguments Multisig : clear implicits.

(** ** Addresses *)

(** Lexicographic order of bytes, the [Ord] of an account id. *)
Fixpoint bytes_le (a b : list Z) : bool :=
  match a, b with
  | [], _ => true
  | _ :: _, [] => false
  | x :: a', y :: b' => (x <? y) || ((x =? y) && bytes_le a' b')
  end.
Definition account_le (a b : Hash256) : Prop := bytes_le a b = true.
#[global] Instance account_le_dec : RelDecision account_le.
Proof. intros a b. unfold account_le. apply _. Defined.

Definition sort_signers (l : list Hash256) : list Hash256 := merge_sort account_le l.

(** [sorted.windows(2).all(|w| w[0] != w[1])]. *)
Fixpoint no_adjacent_equal (l : list Hash256) : bool :=
  match l with
  | a :: ((b :: _) as l') => bool_decide (a ≠ b) && no_adjacent_equal l'
  | _ => true
  end.

Definition address_data (cfg : MultisigConfig) (normalized_signers : list Hash256) (thr nonce : Z) :
    list Z :=
  PalletId cfg ++ (compact_u32 (Z.of_nat (length normalized_signers)) ++ concat normalized_signers)
  ++ le_bytes 4 thr ++ le_bytes 8 nonce.

(** [AccountId::decode] of the hash followed by zeros takes 32 bytes. *)
Definition derive_multisig_address_inner (cfg : MultisigConfig) (normalized_signers : list Hash256)
    (thr nonce : Z) : Hash256 :=
  take 32 (Hashing cfg (address_data cfg normalized_signers thr nonce) ++ replicate 32 0).

Definition derive_multisig_address (cfg : MultisigConfig) (l : list Hash256) (thr nonce : Z) : Hash256 :=
  derive_multisig_address_inner cfg (sort_signers l) thr nonce.

Definition proposal_fee (cfg : MultisigConfig) (signers_count : Z) : Z :=
  let base_fee := ProposalFee cfg in
  let multiplier := sat_mul 128 base_fee signers_count in
  sat_add 128 base_fee (permill_mul_floor (SignerStepFactor cfg) multiplier).

(** ** Errors with their post-information *)
Definition err_with_weight (cfg : MultisigConfig) (e : MultisigError) (n : Z) : MErr :=
  (Some (reads (m_db cfg) n), MModule e).
Definition err_with_actual_weight (e : MultisigError) (w : Weight) : MErr := (Some w, MModule e).
Definition err_burn_full_raw (e : MultisigError) : MErr := (None, MModule e).
Definition err_burn_full (e : MultisigError) : MErr := err_burn_full_raw e.
(** A module error raised through [?]: default post-information. *)
Definition err_plain (e : MultisigError) : MErr := (None, MModule e).

Definition ensure_signed (o : RuntimeOrigin) : result MErr Hash256 :=
  match o with Signed who => Ok who | _ => Err (None, MBadOrigin) end.

Section Pallet.
Context {Call C D E X : Type} `{RuntimeCallOps Call, Reservable C D, HighSecurityInspector E Call}.
Implicit Types (s : Multisig C E X) (cfg : MultisigConfig).
#[local] Abbreviation M := (result MErr).

(** ** Storage writes *)
Definition put_multisigs (m : gmap Hash256 MultisigData) s : Multisig C E X :=
  {| Multisigs := m; Proposals := Proposals s; m_events := m_events s;
     block_number := block_number s; m_ledger := m_ledger s; m_env := m_env s |}.
Definition put_proposals (m : gmap (Hash256 * Z) ProposalData) s : Multisig C E X :=
  {| Multisigs := Multisigs s; Proposals := m; m_events := m_events s;
     block_number := block_number s; m_ledger := m_ledger s; m_env := m_env s |}.
Definition put_ledger (c : C) s : Multisig C E X :=
  {| Multisigs := Multisigs s; Proposals := Proposals s; m_events := m_events s;
     block_number := block_number s; m_ledger := c; m_env := m_env s |}.
Definition m_deposit_event (e : MultisigEvent X) s : Multisig C E X :=
  {| Multisigs := Multisigs s; Proposals := Proposals s; m_events := m_events s ++ [e];
     block_number := block_number s; m_ledger := m_ledger s; m_env := m_env s |}.

(** ** [create_multisig] *)
Definition create_multisig cfg (origin : RuntimeOrigin) (l : list Hash256) (thr nonce : Z) s :
    M (Multisig C E X) :=
  creator ← ensure_signed origin;
  _ ← ensure (0 <? thr) (err_plain ThresholdZero);
  _ ← ensure (2 <=? Z.of_nat (length l)) (err_plain NotEnoughSigners);
  _ ← ensure (Z.of_nat (length l) <=? MaxSigners cfg) (err_plain TooManySigners);
  let sorted_signers := sort_signers l in
  _ ← ensure (no_adjacent_equal sorted_signers) (err_plain DuplicateSigners);
  _ ← ensure (thr <=? Z.of_nat (length sorted_signers)) (err_plain ThresholdTooHigh);
  let multisig_address := derive_multisig_address_inner cfg sorted_signers thr nonce in
  _ ← ensure (bool_decide (Multisigs s !! multisig_address = None)) (err_plain MultisigAlreadyExists);
  c ← map_err (λ _, err_plain InsufficientBalance) (withdraw (D := D) (m_ledger s) creator (MultisigFee cfg));
  _ ← ensure (Z.of_nat (length sorted_signers) <=? MaxSigners cfg) (err_plain TooManySigners);
  let s := put_ledger c s in
  let s := put_multisigs (<[multisig_address :=
    {| creator := creator; signers := sorted_signers; threshold := thr; proposal_nonce := 0;
       proposals_per_signer := ∅ |}]> (Multisigs s)) s in
  Ok (m_deposit_event (MultisigCreated creator multisig_address sorted_signers thr nonce) s).

(** ** [propose] *)
Definition note_proposal cfg (proposer : Hash256) (d : MultisigData) : M (MultisigData * Z) :=
  let nonce := proposal_nonce d in
  next ← ok_or (checked_add 32 nonce 1) (err_plain ProposalNonceExhausted);
  let count := default 0 (proposals_per_signer d !! proposer) in
  pps ← ok_or (try_insert (MaxSigners cfg) proposer (sat_add 32 count 1) (proposals_per_signer d))
          (err_plain TooManySigners);
  Ok ({| creator := creator d; signers := signers d; threshold := threshold d;
         proposal_nonce := next; proposals_per_signer := pps |}, nonce).

Definition propose cfg (origin : RuntimeOrigin) (ms : Hash256) (bytes : list Z) (exp : Z) s :
    M (Multisig C E X * option Weight) :=
  proposer ← ensure_signed origin;
  d ← ok_or (Multisigs s !! ms) (err_with_weight cfg MultisigNotFound 1);
  _ ← ensure (bool_decide (proposer ∈ signers d)) (err_with_weight cfg NotASigner 1);
  let signers_count := Z.of_nat (length (signers d)) in
  _ ← ensure (active_proposals d <? MaxTotalProposalsInStorage cfg)
        (err_with_weight cfg TooManyProposalsInStorage 1);
  let max_proposals_per_signer :=
    default 1 (checked_div (MaxTotalProposalsInStorage cfg) signers_count) in
  _ ← ensure (default 0 (proposals_per_signer d !! proposer) <? max_proposals_per_signer)
        (err_with_weight cfg TooManyProposalsPerSigner 1);
  _ ← ensure (block_number s <? exp) (err_with_weight cfg ExpiryInPast 1);
  _ ← ensure (exp <=? sat_add (block_bits cfg) (block_number s) (MaxExpiryDuration cfg))
        (err_with_weight cfg ExpiryTooFar 1);
  decoded_call ← ok_or (decode_with_depth_limit MAX_MULTISIG_CALL_DEPTH bytes)
        (err_burn_full_raw InvalidCall);
  _ ← ensure (bool_decide (call_encode decoded_call = bytes)) (err_burn_full InvalidCall);
  let w := call_weight decoded_call in
  _ ← ensure (negb (any_gt w (MaxInnerCallWeight cfg))) (err_burn_full CallWeightExceedsLimit);
  let hs := is_high_security (Call := Call) (m_env s) ms in
  _ ← ensure (is_call_allowed_given (E := E) hs decoded_call)
        (err_burn_full CallNotAllowedForHighSecurityMultisig);
  let fee := proposal_fee cfg signers_count in
  c ← map_err (λ _, err_plain InsufficientBalance) (withdraw (D := D) (m_ledger s) proposer fee);
  let deposit := ProposalDeposit cfg in
  c ← map_err (λ _, err_plain InsufficientBalance) (reserve (D := D) c proposer deposit);
  let threshold_met := threshold d <=? 1 in
  let s := put_ledger c s in
  d ← ok_or (Multisigs s !! ms) (err_plain MultisigNotFound);
  '(d, proposal_id) ← note_proposal cfg proposer d;
  let s := put_multisigs (<[ms := d]> (Multisigs s)) s in
  let s := put_proposals (<[(ms, proposal_id) :=
    {| proposer := proposer; call := bytes; expiry := exp;
       approvals := default [] (try_push (MaxSigners cfg) [] proposer);
       deposit := deposit; status := if threshold_met then Approved else Active |}]>
    (Proposals s)) s in
  let s := m_deposit_event (ProposalCreated ms proposer proposal_id) s in
  let s := if threshold_met
           then m_deposit_event (ProposalReadyToExecute ms proposal_id 1) s else s in
  let len := Z.of_nat (length bytes) in
  let bookkeeping := if hs then MultisigWeights.propose_high_security (m_db cfg) len
                     else MultisigWeights.propose (m_db cfg) len in
  Ok (s, Some (weight_add bookkeeping w)).

(** ** [approve] *)
Definition approve cfg (origin : RuntimeOrigin) (ms : Hash256) (id : Z) (bytes : list Z) s :
    M (Multisig C E X * option Weight) :=
  approver ← ensure_signed origin;
  d ← ok_or (Multisigs s !! ms) (err_with_weight cfg MultisigNotFound 1);
  _ ← ensure (bool_decide (approver ∈ signers d)) (err_with_weight cfg NotASigner 1);
  p ← ok_or (Proposals s !! (ms, id)) (err_with_weight cfg ProposalNotFound 2);
  let actual_weight := MultisigWeights.approve (m_db cfg) (Z.of_nat (length (call p))) in
  _ ← ensure (bool_decide (bytes = call p)) (err_with_actual_weight CallMismatch actual_weight);
  _ ← ensure (block_number s <=? expiry p) (err_with_actual_weight ProposalExpired actual_weight);
  _ ← ensure (bool_decide (approver ∉ approvals p))
        (err_with_actual_weight AlreadyApproved actual_weight);
  appr ← ok_or (try_push (MaxSigners cfg) (approvals p) approver) (err_plain TooManySigners);
  let approvals_count := Z.of_nat (length appr) in
  let threshold_just_reached :=
    bool_decide (status p = Active) && (threshold d <=? approvals_count) in
  let s := put_proposals (<[(ms, id) :=
    {| proposer := proposer p; call := call p; expiry := expiry p; approvals := appr;
       deposit := deposit p; status := if threshold_just_reached then Approved else status p |}]>
    (Proposals s)) s in
  let s := m_deposit_event (SignerApproved ms approver id approvals_count) s in
  let s := if threshold_just_reached
           then m_deposit_event (ProposalReadyToExecute ms id approvals_count) s else s in
  Ok (s, Some actual_weight).

(** ** Removal *)
Definition release_slot (who : Hash256) (d : MultisigData) : MultisigData :=
  {| creator := creator d; signers := signers d; threshold := threshold d;
     proposal_nonce := proposal_nonce d;
     proposals_per_signer :=
       match proposals_per_signer d !! who with
       | Some count =>
           let count := sat_sub count 1 in
           if count =? 0 then delete who (proposals_per_signer d)
           else <[who := count]> (proposals_per_signer d)
       | None => proposals_per_signer d
       end |}.

Definition remove_proposal_and_return_deposit (ms : Hash256) (id : Z) (who : Hash256) (dep : Z) s :
    Multisig C E X :=
  let s := put_proposals (delete (ms, id) (Proposals s)) s in
  let s := put_multisigs (alter (release_slot who) ms (Multisigs s)) s in
  put_ledger (unreserve (D := D) (m_ledger s) who dep).1 s.

(** ** [cancel] *)
Definition cancel cfg (origin : RuntimeOrigin) (ms : Hash256) (id : Z) s :
    M (Multisig C E X * option Weight) :=
  canceller ← ensure_signed origin;
  p ← ok_or (Proposals s !! (ms, id)) (err_with_weight cfg ProposalNotFound 1);
  let actual_weight := MultisigWeights.cancel (m_db cfg) (Z.of_nat (length (call p))) in
  _ ← ensure (bool_decide (canceller = proposer p))
        (err_with_actual_weight NotProposer actual_weight);
  _ ← ensure (bool_decide (status p = Active) || bool_decide (status p = Approved))
        (err_with_actual_weight ProposalNotActive actual_weight);
  let s := remove_proposal_and_return_deposit ms id (proposer p) (deposit p) s in
  Ok (m_deposit_event (ProposalCancelled ms canceller id) s, Some actual_weight).

(** ** [remove_expired] *)
Definition remove_expired cfg (origin : RuntimeOrigin) (ms : Hash256) (id : Z) s :
    M (Multisig C E X * option Weight) :=
  caller ← ensure_signed origin;
  d ← ok_or (Multisigs s !! ms) (err_with_weight cfg MultisigNotFound 1);
  _ ← ensure (bool_decide (caller ∈ signers d)) (err_with_weight cfg NotASigner 1);
  p ← ok_or (Proposals s !! (ms, id)) (err_with_weight cfg ProposalNotFound 2);
  let actual_weight := MultisigWeights.remove_expired (m_db cfg) (Z.of_nat (length (call p))) in
  _ ← ensure (bool_decide (status p = Active) || bool_decide (status p = Approved))
        (err_with_actual_weight ProposalNotActive actual_weight);
  _ ← ensure (expiry p <? block_number s) (err_with_actual_weight ProposalNotExpired actual_weight);
  let s := remove_proposal_and_return_deposit ms id (proposer p) (deposit p) s in
  Ok (m_deposit_event (ProposalRemoved ms id (proposer p) caller) s, Some actual_weight).

(** ** [claim_deposits] *)

(** [Proposals::iter_prefix], in the map's own order. *)
Definition iter_prefix (ms : Hash256) (m : gmap (Hash256 * Z) ProposalData) : list (Z * ProposalData) :=
  omap (λ e : Hash256 * Z * ProposalData, if bool_decide (e.1.1 = ms) then Some (e.1.2, e.2) else None)
    (map_to_list m).

Definition is_expired_of (now : Z) (who : Hash256) (p : ProposalData) : bool :=
  bool_decide (proposer p = who)
  && (bool_decide (status p = Active) || bool_decide (status p = Approved))
  && (expiry p <? now).

Definition cleanup_expired_proposals_for_signer (ms who : Hash256) s : Multisig C E X * (Z * Z * Z * Z) :=
  let entries := iter_prefix ms (Proposals s) in
  let total_iterated := Z.of_nat (length entries) mod 2 ^ 32 in
  let total_call_bytes := sum_by (λ e, Z.of_nat (length (call e.2))) entries mod 2 ^ 32 in
  let expired := omap (λ e : Z * ProposalData,
    if is_expired_of (block_number s) who e.2 then Some (e.1, deposit e.2) else None) entries in
  let cleaned := Z.of_nat (length expired) in
  let '(s, total_deposits) := foldl (λ acc e,
    let '(s, total) := acc in
    let s := remove_proposal_and_return_deposit ms e.1 who e.2 s in
    (m_deposit_event (ProposalRemoved ms e.1 who who) s, sat_add 128 total e.2)) (s, 0) expired in
  (s, (cleaned, total_iterated, total_call_bytes, total_deposits)).

Definition claim_deposits cfg (origin : RuntimeOrigin) (ms : Hash256) s :
    M (Multisig C E X * option Weight) :=
  caller ← ensure_signed origin;
  d ← ok_or (Multisigs s !! ms) (err_with_weight cfg MultisigNotFound 1);
  _ ← ensure (bool_decide (caller ∈ signers d)) (err_with_weight cfg NotASigner 1);
  let '(s, (cleaned, iterated, call_bytes, total_returned)) :=
    cleanup_expired_proposals_for_signer ms caller s in
  let s := m_deposit_event (DepositsClaimed ms caller total_returned cleaned) s in
  let avg_call_size := if 0 <? iterated then call_bytes / iterated else 0 in
  Ok (s, Some (MultisigWeights.claim_deposits (m_db cfg) iterated cleaned avg_call_size)).

(** ** [execute]

    Everything before the dispatch of the inner call: the checks, then the
    removal of the proposal with its deposit. *)
Definition execute_effects cfg (origin : RuntimeOrigin) (ms : Hash256) (id : Z) (c : Call) s :
    M (Multisig C E X * ProposalData * Weight) :=
  executor ← ensure_signed origin;
  d ← ok_or (Multisigs s !! ms) (err_with_weight cfg MultisigNotFound 1);
  _ ← ensure (bool_decide (executor ∈ signers d)) (err_with_weight cfg NotASigner 1);
  p ← ok_or (Proposals s !! (ms, id)) (err_with_weight cfg ProposalNotFound 2);
  let call_size := Z.max (Z.of_nat (length (call p))) (Z.of_nat (length (call_encode c))) in
  let bookkeeping_weight := MultisigWeights.execute (m_db cfg) call_size in
  _ ← ensure (bool_decide (status p = Approved))
        (err_with_actual_weight ProposalNotApproved bookkeeping_weight);
  _ ← ensure (block_number s <=? expiry p)
        (err_with_actual_weight ProposalExpired bookkeeping_weight);
  _ ← ensure (bool_decide (call_encode c = call p))
        (err_with_actual_weight CallMismatch bookkeeping_weight);
  _ ← ensure (negb (any_gt (call_weight c) (MaxInnerCallWeight cfg)))
        (err_burn_full CallWeightExceedsLimit);
  _ ← ensure (is_call_allowed (m_env s) ms c) (err_burn_full CallNotAllowedForHighSecurityMultisig);
  Ok (remove_proposal_and_return_deposit ms id (proposer p) (deposit p) s, p, bookkeeping_weight).

(** Everything after it. [post] is the dispatch's own post-information, which
    both of its outcomes carry. *)
Definition execute_finish (ms : Hash256) (id : Z) (p : ProposalData) (outcome : result X unit) s :
    Multisig C E X :=
  m_deposit_event (ProposalExecuted ms id (proposer p) (call p) (approvals p) outcome) s.

Definition execute (dispatch : Call → RuntimeOrigin → Multisig C E X → Multisig C E X * (option Weight * result X unit))
    cfg (origin : RuntimeOrigin) (ms : Hash256) (id : Z) (c : Call) s :
    M (Multisig C E X * option Weight) :=
  '(s, p, bookkeeping_weight) ← execute_effects cfg origin ms id c s;
  let '(s, (post, outcome)) := dispatch c (Signed ms) s in
  let s := execute_finish ms id p outcome s in
  let actual_call_weight := default (call_weight c) post in
  Ok (s, Some (weight_add bookkeeping_weight actual_call_weight)).

(** ** Declared weights (the [#[pallet::weight]] annotations) *)
Definition propose_declared cfg (bytes : list Z) : Weight :=
  weight_add (MultisigWeights.propose_high_security (m_db cfg) (Z.of_nat (length bytes)))
    (MaxInnerCallWeight cfg).
Definition execute_declared cfg (c : Call) : Weight :=
  weight_add (MultisigWeights.execute (m_db cfg)
    (Z.max (MaxCallSize cfg) (Z.of_nat (length (call_encode c))))) (call_weight c).
Definition approve_declared cfg : Weight := MultisigWeights.approve (m_db cfg) (MaxCallSize cfg).
Definition cancel_declared cfg : Weight := MultisigWeights.cancel (m_db cfg) (MaxCallSize cfg).
Definition remove_expired_declared cfg : Weight :=
  MultisigWeights.remove_expired (m_db cfg) (MaxCallSize cfg).
Definition claim_deposits_declared cfg : Weight :=
  MultisigWeights.claim_deposits (m_db cfg) (MaxTotalProposalsInStorage cfg)
    (MaxTotalProposalsInStorage cfg) (MaxCallSize cfg).

Definition is_signer (ms who : Hash256) s : bool :=
  match Multisigs s !! ms with
  | Some d => bool_decide (who ∈ signers d)
  | None => false
  end.
End Pallet.
