(* ===== verification/MultisigProps.v ===== *)
(** * Multisig: invariant, authorisation, refinement

    Runs of the pallet (nested dispatches and the rest of the runtime
    included) as a trace-labelled relation, the storage invariant every run
    keeps, who authorised an execution, the abstract voting machine the
    storage refines, the deposits, the proposal quotas, the reported weights
    and the address derivation. *)

From stdpp Require Import base option list numbers gmap fin_maps sorting relations.
From S2P Require Import Prelude Crypto Interfaces Frame Multisig.
#[local] Open Scope Z_scope.

(** ** Configuration bounds *)
Record valid_multisig_config (cfg : MultisigConfig) : Prop := {
  vm_signers : in_u 32 (MaxSigners cfg);
  vm_total : in_u 32 (MaxTotalProposalsInStorage cfg);
  vm_size : in_u 32 (MaxCallSize cfg);
  vm_fee : 0 ≤ MultisigFee cfg;
  vm_deposit : 0 ≤ ProposalDeposit cfg;
  vm_pfee : in_u 128 (ProposalFee cfg);
  vm_step : 0 ≤ SignerStepFactor cfg ≤ 1000000;
  vm_db : db_ok (m_db cfg);
  vm_weight : weight_ok (MaxInnerCallWeight cfg);
}.

(** The share of the proposal table one signer may fill. *)
Definition quota (cfg : MultisigConfig) (d : MultisigData) : Z :=
  default 1 (checked_div (MaxTotalProposalsInStorage cfg) (Z.of_nat (length (signers d)))).

(** ** Signer lists *)
Section Signers.
Lemma bytes_le_total a b : bytes_le a b = true ∨ bytes_le b a = true.
Proof.
  revert b. induction a as [|x a IH]; intros [|y b]; cbn; auto.
  destruct (IH b); destruct (Z.ltb_spec x y), (Z.ltb_spec y x), (Z.eqb_spec x y), (Z.eqb_spec y x);
    cbn; auto; lia.
Qed.

Lemma bytes_le_trans a b c : bytes_le a b = true → bytes_le b c = true → bytes_le a c = true.
Proof.
  revert b c. induction a as [|x a IH]; intros [|y b] [|z c]; cbn; try done.
  intros H1 H2. apply orb_true_iff in H1 as [H1|H1], H2 as [H2|H2]; apply orb_true_iff; res_inv;
    subst; first [left; apply Z.ltb_lt; lia|right].
  apply andb_true_iff; split; [by apply Z.eqb_refl|eauto].
Qed.

Lemma bytes_le_antisym a b : bytes_le a b = true → bytes_le b a = true → a = b.
Proof.
  revert b. induction a as [|x a IH]; intros [|y b]; cbn; try done.
  intros H1 H2. apply orb_true_iff in H1 as [H1|H1], H2 as [H2|H2]; res_inv; try lia.
  f_equal; [done|auto].
Qed.

#[global] Instance account_le_total : Total account_le.
Proof. intros a b. apply bytes_le_total. Qed.
#[global] Instance account_le_trans : Transitive account_le.
Proof. intros a b c. apply bytes_le_trans. Qed.
#[global] Instance account_le_antisym : AntiSymm (=) account_le.
Proof. intros a b. apply bytes_le_antisym. Qed.

Lemma sort_signers_sorted l : StronglySorted account_le (sort_signers l).
Proof. apply StronglySorted_merge_sort; apply _. Qed.

Lemma sort_signers_perm l : sort_signers l ≡ₚ l.
Proof. apply merge_sort_Permutation. Qed.

(** The result does not depend on the order the signers were given in. *)
Lemma sort_signers_unique l l' : l ≡ₚ l' → sort_signers l = sort_signers l'.
Proof.
  intros Hp. apply (StronglySorted_unique account_le).
  - apply sort_signers_sorted.
  - apply sort_signers_sorted.
  - by rewrite !sort_signers_perm.
Qed.

(** On a sorted list, comparing neighbours finds every repetition. *)
Lemma no_adjacent_equal_NoDup l :
  StronglySorted account_le l → no_adjacent_equal l = true ↔ NoDup l.
Proof.
  induction 1 as [|a l Hs IH Hall]; [split; [constructor|done]|].
  destruct l as [|b l]; [split; [intros; apply NoDup_singleton|done]|].
  change (no_adjacent_equal (a :: b :: l)) with (bool_decide (a ≠ b) && no_adjacent_equal (b :: l)).
  rewrite andb_true_iff, bool_decide_eq_true, IH, (NoDup_cons a). split; [|set_solver].
  intros [Hne Hnd]. split; [|done]. intros [->|Hin]%elem_of_cons; [done|].
  apply Hne. apply (anti_symm account_le); [by inversion Hall|].
  inversion Hs as [|?? _ Hb]; subst. rewrite Forall_forall in Hb. by apply Hb.
Qed.
End Signers.

(** ** Runs *)

(** The calls a signed account can make, [execute] apart. *)
Inductive MultisigCall :=
| CallCreate (l : list Hash256) (thr nonce : Z)
| CallPropose (ms : Hash256) (bytes : list Z) (exp : Z)
| CallApprove (ms : Hash256) (id : Z) (bytes : list Z)
| CallCancel (ms : Hash256) (id : Z)
| CallRemoveExpired (ms : Hash256) (id : Z)
| CallClaimDeposits (ms : Hash256).

(** What a call leaves in the trace: who put a signature under which bytes. *)
Inductive Action :=
| Proposed (who ms : Hash256) (id : Z) (bytes : list Z)
| Endorsed (who ms : Hash256) (id : Z) (bytes : list Z)
| Executed (who ms : Hash256) (id : Z) (bytes : list Z)
| Housekeeping (who : Hash256).

Definition endorsed (tr : list Action) (who ms : Hash256) (id : Z) (bytes : list Z) : Prop :=
  Proposed who ms id bytes ∈ tr ∨ Endorsed who ms id bytes ∈ tr.

Section Invariant.
Context {Call C D E X : Type} `{RuntimeCallOps Call, ReservableLaws C D, HighSecurityInspector E Call}.
Context (cfg : MultisigConfig) (Hcfg : valid_multisig_config cfg).
Implicit Types (s : Multisig C E X) (d : MultisigData) (p : ProposalData) (tr : list Action).

(** Decoded arguments are in range: a [BoundedVec] payload and [u32]s. *)
Definition call_in_range (k : MultisigCall) : Prop :=
  match k with
  | CallCreate l thr nonce =>
      Forall (λ a, length a = 32%nat) l ∧ in_u 32 thr ∧ in_u 64 nonce
  | CallPropose _ bytes _ => Z.of_nat (length bytes) ≤ MaxCallSize cfg
  | _ => True
  end.

Definition run_call (who : Hash256) (k : MultisigCall) s : result MErr (Multisig C E X) :=
  match k with
  | CallCreate l thr nonce => create_multisig (D := D) cfg (Signed who) l thr nonce s
  | CallPropose ms bytes exp => '(s, _) ← propose (Call := Call) (D := D) cfg (Signed who) ms bytes exp s; Ok s
  | CallApprove ms id bytes => '(s, _) ← approve cfg (Signed who) ms id bytes s; Ok s
  | CallCancel ms id => '(s, _) ← cancel (D := D) cfg (Signed who) ms id s; Ok s
  | CallRemoveExpired ms id => '(s, _) ← remove_expired (D := D) cfg (Signed who) ms id s; Ok s
  | CallClaimDeposits ms => '(s, _) ← claim_deposits (D := D) cfg (Signed who) ms s; Ok s
  end.

Definition action_of (who : Hash256) (k : MultisigCall) s : Action :=
  match k with
  | CallPropose ms bytes _ =>
      Proposed who ms (default 0 (proposal_nonce <$> Multisigs s !! ms)) bytes
  | CallApprove ms id bytes => Endorsed who ms id bytes
  | _ => Housekeeping who
  end.

(** Deposits stored for an account's proposals, and how many it has open in
    one multisig. *)
Definition deposits_of s (a : Hash256) : Z :=
  map_sum (λ _ p, if bool_decide (proposer p = a) then deposit p else 0) (Proposals s).
Definition count_of (ps : gmap (Hash256 * Z) ProposalData) (ms a : Hash256) : Z :=
  map_sum (λ k p, if bool_decide (k.1 = ms ∧ proposer p = a) then 1 else 0) ps.

(** What the rest of the runtime may do between two calls: anything to the
    ledger and its own storage, except release what this pallet reserved. *)
Record env_step s s' : Prop := {
  es_multisigs : Multisigs s' = Multisigs s;
  es_proposals : Proposals s' = Proposals s;
  es_block : block_number s ≤ block_number s';
  es_reserved : ∀ a, deposits_of s a ≤ reserved_balance (m_ledger s') a;
}.

(** A run: calls in any order by any accounts, executions with whatever run
    the dispatched call itself amounts to nested inside, and environment
    steps. *)
Inductive mrun : list Action → Multisig C E X → Multisig C E X → Prop :=
| mrun_nil s : mrun [] s s
| mrun_call tr s s1 s2 who k :
    mrun tr s s1 → call_in_range k → run_call who k s1 = Ok s2 →
    mrun (tr ++ [action_of who k s1]) s s2
| mrun_execute tr tr' s s1 s2 s3 who ms id (c : Call) p w outcome :
    mrun tr s s1 → execute_effects (D := D) cfg (Signed who) ms id c s1 = Ok (s2, p, w) →
    mrun tr' s2 s3 →
    mrun ((tr ++ [Executed who ms id (call_encode c)]) ++ tr') s (execute_finish ms id p outcome s3)
| mrun_env tr s s1 s2 : mrun tr s s1 → env_step s1 s2 → mrun tr s s2.

(** The pallet at genesis. *)
Definition m_genesis s : Prop := Multisigs s = ∅ ∧ Proposals s = ∅.

(** ** The invariant *)
Record data_ok (ps : gmap (Hash256 * Z) ProposalData) (ms : Hash256) d : Prop := {
  do_nodup : NoDup (signers d);
  do_signers : 2 ≤ Z.of_nat (length (signers d)) ≤ MaxSigners cfg;
  do_threshold : 1 ≤ threshold d ≤ Z.of_nat (length (signers d));
  do_nonce : in_u 32 (proposal_nonce d);
  do_counts : ∀ a, default 0 (proposals_per_signer d !! a) = count_of ps ms a;
  do_entries : ∀ a n, proposals_per_signer d !! a = Some n →
    a ∈ signers d ∧ 0 < n ≤ quota cfg d;
}.

Record proposal_ok d (id : Z) p : Prop := {
  po_id : 0 ≤ id < proposal_nonce d;
  po_proposer : proposer p ∈ approvals p;
  po_nodup : NoDup (approvals p);
  po_signers : ∀ a, a ∈ approvals p → a ∈ signers d;
  po_status : status p = Approved ↔ threshold d ≤ Z.of_nat (length (approvals p));
  po_deposit : 0 ≤ deposit p;
  po_size : Z.of_nat (length (call p)) ≤ MaxCallSize cfg;
  po_canonical : ∃ c : Call, decode_with_depth_limit MAX_MULTISIG_CALL_DEPTH (call p) = Some c ∧
                             call_encode c = call p;
}.

Record minv s : Prop := {
  mi_data : ∀ ms d, Multisigs s !! ms = Some d → data_ok (Proposals s) ms d;
  mi_proposals : ∀ ms id p, Proposals s !! (ms, id) = Some p →
    ∃ d, Multisigs s !! ms = Some d ∧ proposal_ok d id p;
  mi_reserved : ∀ a, deposits_of s a ≤ reserved_balance (m_ledger s) a;
}.

(** Configuration of a multisig never changes once created. *)
Definition same_policy d d' : Prop :=
  signers d' = signers d ∧ threshold d' = threshold d ∧ proposal_nonce d ≤ proposal_nonce d'.

Definition extends s s' : Prop :=
  ∀ ms d, Multisigs s !! ms = Some d → ∃ d', Multisigs s' !! ms = Some d' ∧ same_policy d d'.

#[export] Instance extends_refl : Reflexive extends.
Proof. intros s ms d Hd. exists d. split; [done|]. unfold same_policy. naive_solver lia. Qed.
#[export] Instance extends_trans : Transitive extends.
Proof.
  intros s1 s2 s3 H12 H23 ms d Hd. destruct (H12 _ _ Hd) as (d2 & Hd2 & ? & ? & ?).
  destruct (H23 _ _ Hd2) as (d3 & Hd3 & ? & ? & ?). exists d3. split; [done|].
  unfold same_policy. split_and!; [congruence..|lia].
Qed.

(** ** Counting *)
Lemma count_of_nonneg ps ms a : 0 ≤ count_of ps ms a.
Proof. apply map_sum_nonneg. intros. case_bool_decide; lia. Qed.

Lemma deposits_nonneg s a : minv s → 0 ≤ deposits_of s a.
Proof.
  intros Hinv. apply map_sum_nonneg. intros [ms id] p Hp. case_bool_decide; [|done].
  destruct (mi_proposals s Hinv _ _ _ Hp) as (? & _ & Hok). apply (po_deposit _ _ _ Hok).
Qed.

Lemma count_of_insert ps ms id p ms' a :
  ps !! (ms, id) = None →
  count_of (<[(ms, id) := p]> ps) ms' a =
  count_of ps ms' a + (if bool_decide (ms = ms' ∧ proposer p = a) then 1 else 0).
Proof. intros Hn. unfold count_of. rewrite map_sum_insert by done. cbn. lia. Qed.

Lemma count_of_delete ps ms id p ms' a :
  ps !! (ms, id) = Some p →
  count_of (delete (ms, id) ps) ms' a =
  count_of ps ms' a - (if bool_decide (ms = ms' ∧ proposer p = a) then 1 else 0).
Proof.
  intros Hp. unfold count_of.
  rewrite (map_sum_delete _ ps (ms, id) p) by done. cbn. lia.
Qed.

Lemma count_of_update ps ms id p p' ms' a :
  ps !! (ms, id) = Some p → proposer p' = proposer p →
  count_of (<[(ms, id) := p']> ps) ms' a = count_of ps ms' a.
Proof.
  intros Hp Heq. unfold count_of. rewrite (map_sum_update _ ps _ p) by done. rewrite Heq. lia.
Qed.

Lemma count_of_fresh s ms a : minv s → Multisigs s !! ms = None → count_of (Proposals s) ms a = 0.
Proof.
  intros Hinv Hnone. apply map_sum_zero. intros [ms' id] p Hp. cbn. case_bool_decide as Hb; [|done].
  destruct Hb as [-> _]. destruct (mi_proposals s Hinv _ _ _ Hp) as (? & ? & _). congruence.
Qed.

(** ** Removal *)
#[local] Abbreviation drop_proposal ms id p s :=
  (remove_proposal_and_return_deposit (D := D) ms id (proposer p) (deposit p) s).

Lemma release_slot_count d who a n :
  proposals_per_signer d !! who = Some n → 0 < n →
  default 0 (proposals_per_signer (release_slot who d) !! a) =
  default 0 (proposals_per_signer d !! a) - (if bool_decide (who = a) then 1 else 0).
Proof.
  intros Hn Hpos. cbn. rewrite Hn. unfold sat_sub.
  destruct (Z.eqb_spec (Z.max 0 (n - 1)) 0); case_bool_decide as Ha; subst.
  - rewrite lookup_delete_eq, Hn. cbn. lia.
  - rewrite lookup_delete_ne by done. lia.
  - rewrite lookup_insert_eq, Hn. cbn. lia.
  - rewrite lookup_insert_ne by done. lia.
Qed.

Lemma release_slot_entries d who a m :
  (∀ a n, proposals_per_signer d !! a = Some n → a ∈ signers d ∧ 0 < n ≤ quota cfg d) →
  proposals_per_signer (release_slot who d) !! a = Some m →
  a ∈ signers d ∧ 0 < m ≤ quota cfg d.
Proof.
  intros Hent. cbn. destruct (proposals_per_signer d !! who) as [n|] eqn:Hn; [|by apply Hent].
  specialize (Hent who n Hn) as Hwho. unfold sat_sub.
  destruct (Z.eqb_spec (Z.max 0 (n - 1)) 0).
  - intros [_ ?]%lookup_delete_Some. by apply Hent.
  - intros [[-> <-]|[_ ?]]%lookup_insert_Some; [|by apply Hent]. naive_solver lia.
Qed.

Lemma release_slot_policy d who : same_policy d (release_slot who d).
Proof. unfold same_policy. cbn. naive_solver lia. Qed.

Lemma stored_count_pos ps ms id p : ps !! (ms, id) = Some p → 0 < count_of ps ms (proposer p).
Proof.
  intros Hp. assert (1 ≤ count_of ps ms (proposer p)); [|lia].
  etrans; [|unfold count_of; eapply (map_sum_lookup_le _ ps (ms, id) p); [|done]].
  - cbn. rewrite bool_decide_true by done. done.
  - intros. case_bool_decide; lia.
Qed.

Lemma drop_ledger s ms id p a :
  minv s → Proposals s !! (ms, id) = Some p →
  reserved_balance (m_ledger (drop_proposal ms id p s)) a - deposits_of (drop_proposal ms id p s) a =
  reserved_balance (m_ledger s) a - deposits_of s a ∧
  free_balance (m_ledger (drop_proposal ms id p s)) a =
  free_balance (m_ledger s) a + (if bool_decide (proposer p = a) then deposit p else 0) ∧
  issuance (m_ledger (drop_proposal ms id p s)) = issuance (m_ledger s).
Proof.
  intros Hinv Hp. pose proof (mi_reserved s Hinv (proposer p)) as Hres.
  destruct (mi_proposals s Hinv _ _ _ Hp) as (d & _ & Hok).
  assert (Hle : deposit p ≤ deposits_of s (proposer p)).
  { unfold deposits_of. etrans; [|eapply (map_sum_lookup_le _ (Proposals s) (ms, id) p); [|done]].
    - cbn. by rewrite bool_decide_true.
    - intros [ms' id'] p' Hp'. case_bool_decide; [|done].
      destruct (mi_proposals s Hinv _ _ _ Hp') as (? & _ & Hok'). apply (po_deposit _ _ _ Hok'). }
  cbn. destruct (unreserve (m_ledger s) (proposer p) (deposit p)) as [c' r] eqn:Hu. cbn.
  destruct (unreserve_spec _ _ _ _ _ (po_deposit _ _ _ Hok) Hu) as (_ & Hf & Hr & Hne & Hi).
  unfold deposits_of at 1. cbn.
  assert (Hdep : deposits_of s a = (if bool_decide (proposer p = a) then deposit p else 0) +
    map_sum (λ _ p0, if bool_decide (proposer p0 = a) then deposit p0 else 0)
      (delete (ms, id) (Proposals s))).
  { unfold deposits_of. by rewrite (map_sum_delete _ (Proposals s) (ms, id) p). }
  case_bool_decide as Ha.
  - subst a. split_and!; [lia|lia|done].
  - destruct (Hne a) as [-> ->]; [done|]. split_and!; [lia|lia|done].
Qed.

Lemma drop_extends s ms id p : extends s (drop_proposal ms id p s).
Proof.
  intros ms' d Hd. cbn. destruct (decide (ms = ms')) as [->|Hne].
  - exists (release_slot (proposer p) d). rewrite lookup_alter_eq, Hd. split; [done|].
    apply release_slot_policy.
  - exists d. rewrite lookup_alter_ne by done. split; [done|]. unfold same_policy. naive_solver lia.
Qed.

Lemma proposal_ok_policy d d' id p : same_policy d d' → proposal_ok d id p → proposal_ok d' id p.
Proof.
  intros (Hs & Ht & Hn) [Hid ??????]. split; rewrite ?Hs, ?Ht; try done. lia.
Qed.

Lemma drop_preserves s ms id p :
  minv s → Proposals s !! (ms, id) = Some p → minv (drop_proposal ms id p s).
Proof.
  intros Hinv Hp. destruct (mi_proposals s Hinv _ _ _ Hp) as (d & Hd & Hok).
  pose proof (mi_data s Hinv _ _ Hd) as Hdata.
  assert (∃ n, proposals_per_signer d !! proposer p = Some n ∧ 0 < n) as (n & Hn & Hpos).
  { pose proof (stored_count_pos _ _ _ _ Hp) as Hc. rewrite <- (do_counts _ _ _ Hdata) in Hc.
    destruct (proposals_per_signer d !! proposer p) as [n|] eqn:Hn; cbn in Hc; [eauto|lia]. }
  split.
  - intros ms' d'. cbn. destruct (decide (ms = ms')) as [<-|Hne].
    + rewrite lookup_alter_eq, Hd. intros [= <-].
      destruct Hdata as [? ? ? ? Hcnt Hent]. split; [done..| |].
      * intros a. rewrite (release_slot_count _ _ _ n) by done.
        rewrite (count_of_delete _ _ _ p) by done. rewrite Hcnt.
        repeat case_bool_decide; naive_solver lia.
      * intros a m Hm. exact (release_slot_entries d (proposer p) a m Hent Hm).
    + rewrite lookup_alter_ne by done. intros Hd'.
      destruct (mi_data s Hinv _ _ Hd') as [? ? ? ? Hcnt Hent]. split; try done.
      intros a. rewrite Hcnt, (count_of_delete _ _ _ p) by done.
      rewrite bool_decide_false by naive_solver. lia.
  - intros ms' id' p' Hp'. cbn in Hp'. apply lookup_delete_Some in Hp' as [_ Hp'].
    destruct (mi_proposals s Hinv _ _ _ Hp') as (d' & Hd' & Hok').
    destruct (drop_extends s ms id p _ _ Hd') as (d2 & Hd2 & Hpol).
    exists d2. split; [done|]. by eapply proposal_ok_policy.
  - intros a. destruct (drop_ledger s ms id p a Hinv Hp) as (Hl & _).
    pose proof (mi_reserved s Hinv a). lia.
Qed.

Lemma minv_event s e : minv (m_deposit_event e s) ↔ minv s.
Proof. split; intros [? ? ?]; split; done. Qed.

(** ** What each successful call did *)
Lemma create_Ok s s' who l thr nonce :
  create_multisig (D := D) cfg (Signed who) l thr nonce s = Ok s' →
  let ms := derive_multisig_address cfg l thr nonce in
  ∃ c, Multisigs s !! ms = None ∧ withdraw (D := D) (m_ledger s) who (MultisigFee cfg) = Ok c ∧
    NoDup l ∧ 2 ≤ Z.of_nat (length l) ≤ MaxSigners cfg ∧ 1 ≤ thr ≤ Z.of_nat (length l) ∧
    Multisigs s' = <[ms := {| creator := who; signers := sort_signers l; threshold := thr;
                              proposal_nonce := 0; proposals_per_signer := ∅ |}]> (Multisigs s) ∧
    Proposals s' = Proposals s ∧ m_ledger s' = c ∧ block_number s' = block_number s.
Proof.
  unfold create_multisig. intros Hc. cbn in Hc. res_inv. subst s'.
  assert (Hlen : length (sort_signers l) = length l) by (by rewrite sort_signers_perm).
  eexists. split_and!; try done; try lia.
  rewrite <- (sort_signers_perm l). apply no_adjacent_equal_NoDup; [apply sort_signers_sorted|done].
Qed.

Lemma propose_Ok s s' w who ms bytes exp :
  propose (Call := Call) (D := D) cfg (Signed who) ms bytes exp s = Ok (s', w) →
  ∃ d (dc : Call) c1 c2,
    Multisigs s !! ms = Some d ∧ who ∈ signers d ∧
    default 0 (proposals_per_signer d !! who) < quota cfg d ∧
    decode_with_depth_limit MAX_MULTISIG_CALL_DEPTH bytes = Some dc ∧ call_encode dc = bytes ∧
    weight_le (call_weight dc) (MaxInnerCallWeight cfg) ∧ is_call_allowed (m_env s) ms dc = true ∧
    withdraw (D := D) (m_ledger s) who (proposal_fee cfg (Z.of_nat (length (signers d)))) = Ok c1 ∧
    reserve (D := D) c1 who (ProposalDeposit cfg) = Ok c2 ∧
    proposal_nonce d + 1 ≤ u_max 32 ∧
    Multisigs s' = <[ms := {| creator := creator d; signers := signers d; threshold := threshold d;
       proposal_nonce := proposal_nonce d + 1;
       proposals_per_signer := <[who := sat_add 32 (default 0 (proposals_per_signer d !! who)) 1]>
                                 (proposals_per_signer d) |}]> (Multisigs s) ∧
    Proposals s' = <[(ms, proposal_nonce d) :=
      {| proposer := who; call := bytes; expiry := exp;
         approvals := default [] (try_push (MaxSigners cfg) [] who); deposit := ProposalDeposit cfg;
         status := if threshold d <=? 1 then Approved else Active |}]> (Proposals s) ∧
    m_ledger s' = c2 ∧ block_number s' = block_number s ∧ block_number s < exp ∧
    w = Some (weight_add ((if is_high_security (Call := Call) (m_env s) ms
                           then MultisigWeights.propose_high_security
                           else MultisigWeights.propose) (m_db cfg) (Z.of_nat (length bytes)))
                (call_weight dc)).
Proof.
  unfold propose. intros Hp. cbn [ensure_signed] in Hp. apply bind_Ok in Hp as (? & [= <-] & Hp).
  res_inv. match goal with x : MultisigData * Z |- _ => destruct x as [d' id] end. unfold note_proposal in *. res_inv.
  match goal with Hc : checked_add _ _ _ = Some _ |- _ => apply checked_add_Some in Hc as [-> Hn] end.
  match goal with Hi : try_insert _ _ _ _ = Some _ |- _ => apply try_insert_Some in Hi as -> end.
  cbn in *. simplify_eq.
  match goal with Hm : Multisigs s !! ms = Some ?d |- _ => exists d end.
  eexists _, _, _. split_and!; try done; try (by apply any_gt_false); try (by destruct (threshold _ <=? 1)).
  by destruct (is_high_security _ _).
Qed.

Lemma approve_Ok s s' w who ms id bytes :
  approve (C := C) cfg (Signed who) ms id bytes s = Ok (s', w) →
  ∃ d p, Multisigs s !! ms = Some d ∧ who ∈ signers d ∧ Proposals s !! (ms, id) = Some p ∧
    bytes = call p ∧ block_number s ≤ expiry p ∧ (who ∉ approvals p) ∧
    Multisigs s' = Multisigs s ∧ m_ledger s' = m_ledger s ∧ block_number s' = block_number s ∧
    Proposals s' = <[(ms, id) :=
      {| proposer := proposer p; call := call p; expiry := expiry p; approvals := approvals p ++ [who];
         deposit := deposit p;
         status := if bool_decide (status p = Active) &&
                      (threshold d <=? Z.of_nat (length (approvals p ++ [who])))
                   then Approved else status p |}]> (Proposals s) ∧
    w = Some (MultisigWeights.approve (m_db cfg) (Z.of_nat (length (call p)))).
Proof.
  unfold approve. intros Hp. cbn [ensure_signed] in Hp. apply bind_Ok in Hp as (? & [= <-] & Hp).
  res_inv. match goal with Hi : try_push _ _ _ = Some _ |- _ => apply try_push_Some in Hi as [-> _] end.
  simplify_eq. do 2 eexists. split_and!; try done; by destruct (_ && _).
Qed.

Lemma multisig_cancel_Ok s s' w who ms id :
  cancel (D := D) cfg (Signed who) ms id s = Ok (s', w) →
  ∃ p, Proposals s !! (ms, id) = Some p ∧ who = proposer p ∧
    s' = m_deposit_event (ProposalCancelled ms who id) (drop_proposal ms id p s) ∧
    w = Some (MultisigWeights.cancel (m_db cfg) (Z.of_nat (length (call p)))).
Proof.
  unfold cancel. intros Hp. cbn [ensure_signed] in Hp. apply bind_Ok in Hp as (? & [= <-] & Hp).
  res_inv. simplify_eq. eauto.
Qed.

Lemma remove_expired_Ok s s' w who ms id :
  remove_expired (D := D) cfg (Signed who) ms id s = Ok (s', w) →
  ∃ d p, Multisigs s !! ms = Some d ∧ who ∈ signers d ∧
    Proposals s !! (ms, id) = Some p ∧ expiry p < block_number s ∧
    s' = m_deposit_event (ProposalRemoved ms id (proposer p) who) (drop_proposal ms id p s) ∧
    w = Some (MultisigWeights.remove_expired (m_db cfg) (Z.of_nat (length (call p)))).
Proof.
  unfold remove_expired. intros Hp. cbn [ensure_signed] in Hp. apply bind_Ok in Hp as (? & [= <-] & Hp).
  res_inv. simplify_eq. do 2 eexists. split_and!; done.
Qed.

Lemma execute_effects_Ok s s' who ms id (c : Call) p w :
  execute_effects (D := D) cfg (Signed who) ms id c s = Ok (s', p, w) →
  ∃ d, Multisigs s !! ms = Some d ∧ who ∈ signers d ∧ Proposals s !! (ms, id) = Some p ∧
    status p = Approved ∧ block_number s ≤ expiry p ∧ call_encode c = call p ∧
    weight_le (call_weight c) (MaxInnerCallWeight cfg) ∧ is_call_allowed (m_env s) ms c = true ∧
    s' = drop_proposal ms id p s ∧
    w = MultisigWeights.execute (m_db cfg)
          (Z.max (Z.of_nat (length (call p))) (Z.of_nat (length (call_encode c)))).
Proof.
  unfold execute_effects. intros Hp. cbn [ensure_signed] in Hp. apply bind_Ok in Hp as (? & [= <-] & Hp).
  res_inv. simplify_eq. eexists. split_and!; try done. by apply any_gt_false.
Qed.

(** ** Removals as steps *)

(** One proposal of [ms] that satisfies [Q] is dropped and an event logged. *)
Definition drop_step (ms : Hash256) (Q : ProposalData → Prop) s s' : Prop :=
  ∃ id p e, Proposals s !! (ms, id) = Some p ∧ Q p ∧
    s' = m_deposit_event e (drop_proposal ms id p s).

(** What others hold under reserve for an account. *)
Definition outside s (a : Hash256) : Z := reserved_balance (m_ledger s) a - deposits_of s a.

Lemma iter_prefix_elem (ms : Hash256) (m : gmap (Hash256 * Z) ProposalData) id p :
  (id, p) ∈ iter_prefix ms m ↔ m !! (ms, id) = Some p.
Proof.
  unfold iter_prefix. rewrite list_elem_of_omap. split.
  - intros ([[ms' id'] p'] & Hin & Heq). apply elem_of_map_to_list in Hin. cbn in Heq.
    case_bool_decide; naive_solver.
  - intros Hp. exists (ms, id, p). split; [by apply elem_of_map_to_list|]. cbn. by rewrite bool_decide_true.
Qed.

Lemma iter_prefix_NoDup (ms : Hash256) (m : gmap (Hash256 * Z) ProposalData) : NoDup (iter_prefix ms m).*1.
Proof.
  unfold iter_prefix. pose proof (NoDup_fst_map_to_list m) as Hnd.
  induction (map_to_list m) as [|[[ms' id] p] l IH]; [constructor|].
  cbn in *. apply NoDup_cons in Hnd as [Hni Hnd]. case_bool_decide as Hms; [|by apply IH].
  cbn. apply NoDup_cons. split; [|by apply IH]. subst.
  intros ([id' p'] & -> & Hin)%list_elem_of_fmap. apply Hni.
  apply list_elem_of_omap in Hin as ([[ms2 id2] p2] & Hin & Heq). cbn in Heq.
  case_bool_decide; simplify_eq. apply list_elem_of_fmap. by exists (ms, id', p').
Qed.


(** The loop of [claim_deposits] is a sequence of removals of the caller's own
    expired proposals. *)
Lemma claim_loop ms who l s s' tot tot' :
  NoDup l.*1 →
  (∀ e, e ∈ l → ∃ p, Proposals s !! (ms, e.1) = Some p ∧ deposit p = e.2 ∧ proposer p = who ∧
                     expiry p < block_number s) →
  foldl (λ acc e, let '(s, total) := acc in
    (m_deposit_event (ProposalRemoved ms e.1 who who)
       (remove_proposal_and_return_deposit (D := D) ms e.1 who e.2 s), sat_add 128 total e.2))
    (s, tot) l = (s', tot') →
  rtc (drop_step ms (λ p, proposer p = who ∧ expiry p < block_number s)) s s'.
Proof.
  revert s tot. induction l as [|[id dep] l IH]; intros s tot Hnd Hall Hf.
  - cbn in Hf. simplify_eq. constructor.
  - cbn in Hnd. apply NoDup_cons in Hnd as [Hni Hnd].
    destruct (Hall (id, dep)) as (p & Hp & Hdep & Hwho & Hexp); [by left|]. cbn in Hp, Hdep. subst.
    cbn [foldl] in Hf. eapply rtc_l.
    + exists id, p, (ProposalRemoved ms id (proposer p) (proposer p)). split_and!; try done.
    + eapply IH in Hf; [|done|].
      * exact Hf.
      * intros e He. destruct (Hall e) as (p' & Hp' & ?); [by right|]. exists p'. split; [|done].
        cbn. rewrite lookup_delete_ne; [done|]. intros [=->]. apply Hni. by apply list_elem_of_fmap_2.
Qed.

Lemma claim_deposits_Ok s s' w who ms :
  claim_deposits (D := D) cfg (Signed who) ms s = Ok (s', w) →
  ∃ d s1 e, Multisigs s !! ms = Some d ∧ who ∈ signers d ∧
    rtc (drop_step ms (λ p, proposer p = who ∧ expiry p < block_number s)) s s1 ∧
    s' = m_deposit_event e s1.
Proof.
  unfold claim_deposits. intros Hp. cbn [ensure_signed] in Hp. apply bind_Ok in Hp as (? & [= <-] & Hp).
  res_inv. destruct (cleanup_expired_proposals_for_signer ms who s) as [s1 [[[cl it] by_] tot]] eqn:Hcl.
  simplify_eq. eexists _, s1, _. split_and!; [done|done| |reflexivity].
  unfold cleanup_expired_proposals_for_signer in Hcl.
  case_match eqn:Hf. simplify_eq. eapply claim_loop; [| |exact Hf].
  - eapply (sublist_NoDup _ (iter_prefix ms (Proposals s)).*1); [apply iter_prefix_NoDup|].
    generalize (iter_prefix ms (Proposals s)) as l. induction l as [|[i p] l IH]; [constructor|].
    cbn. destruct (is_expired_of _ _ _); cbn; by constructor.
  - intros [id dep] He. apply list_elem_of_omap in He as ([id' p] & Hin & Heq). cbn in Heq.
    destruct (is_expired_of (block_number s) who p) eqn:Hx; simplify_eq.
    apply iter_prefix_elem in Hin. unfold is_expired_of in Hx. res_inv. by exists p.
Qed.

Lemma drop_step_preserves ms Q s s' :
  minv s → drop_step ms Q s s' → minv s' ∧ extends s s' ∧ (∀ a, outside s' a = outside s a) ∧
    issuance (m_ledger s') = issuance (m_ledger s).
Proof.
  intros Hinv (id & p & e & Hp & _ & ->). split_and!.
  - apply minv_event. by apply drop_preserves.
  - apply (drop_extends s ms id p).
  - intros a. apply (drop_ledger s ms id p a Hinv Hp).
  - apply (drop_ledger s ms id p (proposer p) Hinv Hp).
Qed.

Lemma drop_steps_preserve ms Q s s' :
  minv s → rtc (drop_step ms Q) s s' → minv s' ∧ extends s s' ∧ (∀ a, outside s' a = outside s a) ∧
    issuance (m_ledger s') = issuance (m_ledger s).
Proof.
  intros Hinv Hr. revert Hinv. induction Hr as [s|s1 s2 s3 Hd _ IH]; intros Hinv; [done|].
  destruct (drop_step_preserves _ _ _ _ Hinv Hd) as (Hi & He & Ho & Hs).
  destruct (IH Hi) as (? & He' & Ho' & Hs'). split_and!; [done|by etrans| |lia].
  intros a. by rewrite Ho', Ho.
Qed.

(** ** Each call preserves the invariant *)
Lemma create_multisig_preserves s s' who l thr nonce :
  minv s → in_u 32 thr → create_multisig (D := D) cfg (Signed who) l thr nonce s = Ok s' →
  minv s' ∧ extends s s' ∧ (∀ a, outside s' a = outside s a).
Proof.
  intros Hinv Hthr Hc.
  destruct (create_Ok _ _ _ _ _ _ Hc) as (c & Hfresh & Hw & Hnd & Hlen & Ht & Hm & Hp & Hl & _).
  destruct (withdraw_Ok _ _ _ _ (vm_fee _ Hcfg) Hw) as (_ & _ & Hr & _).
  assert (Ho : ∀ a, outside s' a = outside s a).
  { intros a. unfold outside, deposits_of. by rewrite Hl, Hp, Hr. }
  assert (He : extends s s').
  { intros ms d Hd. exists d. rewrite Hm, lookup_insert_ne by congruence. split; [done|].
    unfold same_policy. naive_solver lia. }
  split; [|done]. split.
  - intros ms d. rewrite Hm, Hp. intros [[<- <-]|[_ Hd]]%lookup_insert_Some; [|by apply mi_data].
    pose proof (sort_signers_perm l) as Hperm.
    split; cbn; rewrite ?Hperm; try done; try (u_unfold; lia).
    intros a. rewrite lookup_empty. cbn. by rewrite count_of_fresh.
  - intros ms id p. rewrite Hp. intros Hlk. destruct (mi_proposals s Hinv _ _ _ Hlk) as (d & Hd & Hok).
    destruct (He _ _ Hd) as (d' & Hd' & Hpol). exists d'. split; [done|]. by eapply proposal_ok_policy.
  - intros a. specialize (Ho a). pose proof (mi_reserved s Hinv a). unfold outside in Ho. lia.
Qed.

Lemma quota_le d : quota cfg d ≤ u_max 32.
Proof.
  unfold quota, checked_div. destruct (Z.eqb_spec (Z.of_nat (length (signers d))) 0); cbn; [done|].
  pose proof (vm_total _ Hcfg) as [H0' H1']. unfold u_max.
  assert (MaxTotalProposalsInStorage cfg / Z.of_nat (length (signers d)) ≤ MaxTotalProposalsInStorage cfg);
    [apply Z.div_le_upper_bound; nia|lia].
Qed.

Lemma proposal_fee_nonneg n : 0 ≤ n → 0 ≤ proposal_fee cfg n.
Proof.
  intros Hn. pose proof (vm_pfee _ Hcfg) as [? ?]. pose proof (vm_step _ Hcfg).
  unfold proposal_fee. pose proof (permill_mul_floor_bounds (SignerStepFactor cfg)
    (sat_mul 128 (ProposalFee cfg) n)) as Hb. u_unfold. destruct Hb; nia.
Qed.

(** The table a proposal is added to: fresh id, count one higher. *)
Lemma propose_preserves s s' w who ms bytes exp :
  minv s → Z.of_nat (length bytes) ≤ MaxCallSize cfg →
  propose (Call := Call) (D := D) cfg (Signed who) ms bytes exp s = Ok (s', w) →
  minv s' ∧ extends s s' ∧ (∀ a, outside s' a = outside s a).
Proof.
  intros Hinv Hsize Hprop.
  destruct (propose_Ok _ _ _ _ _ _ _ Hprop) as
    (d & dc & c1 & c2 & Hd & Hwho & Hq & Hdec & Henc & _ & _ & Hw & Hr & Hn & Hm & Hp & Hl & _ & _ & _).
  destruct (mi_data s Hinv _ _ Hd) as [Hnd Hlen Hthr Hnon Hcnt Hent].
  assert (Hfresh : Proposals s !! (ms, proposal_nonce d) = None).
  { destruct (Proposals s !! _) as [p|] eqn:Hlk; [|done].
    destruct (mi_proposals s Hinv _ _ _ Hlk) as (d' & Hd' & Hok). simplify_eq.
    destruct (po_id _ _ _ Hok). lia. }
  assert (Hpush : default [] (try_push (MaxSigners cfg) [] who) = [who]).
  { unfold try_push. change (Z.of_nat (length (@nil Hash256))) with 0. rewrite (proj2 (Z.ltb_lt _ _)); [done|lia]. }
  rewrite Hpush in Hp.
  assert (Hsat : sat_add 32 (default 0 (proposals_per_signer d !! who)) 1 =
    default 0 (proposals_per_signer d !! who) + 1).
  { apply sat_add_exact. pose proof (quota_le d). lia. }
  rewrite Hsat in Hm.
  assert (He : extends s s').
  { intros ms' d' Hd'. rewrite Hm. destruct (decide (ms = ms')) as [<-|Hne].
    - eexists. rewrite lookup_insert_eq. split; [done|]. simplify_eq. unfold same_policy. cbn. naive_solver lia.
    - exists d'. rewrite lookup_insert_ne by done. split; [done|]. unfold same_policy. naive_solver lia. }
  assert (Ho : ∀ a, outside s' a = outside s a).
  { intros a. unfold outside, deposits_of. rewrite Hl, Hp, map_sum_insert by done. cbn.
    destruct (withdraw_Ok _ _ _ _ (proposal_fee_nonneg _ (Nat2Z.is_nonneg _)) Hw) as (_ & _ & Hwr & _).
    destruct (reserve_Ok _ _ _ _ (vm_deposit _ Hcfg) Hr) as (_ & Hrw & Hrn & _).
    case_bool_decide as Ha; [subst a; rewrite Hrw, Hwr; lia|].
    destruct (Hrn a) as [_ ->]; [done|]. rewrite Hwr. lia. }
  split; [|done]. split.
  - intros ms' d'. rewrite Hm, Hp. intros [[<- <-]|[Hne Hd']]%lookup_insert_Some.
    + split; cbn; try done; try (u_unfold; lia).
      * intros a. rewrite count_of_insert by done. cbn. rewrite <- Hcnt.
        destruct (decide (who = a)) as [<-|Hne].
        -- rewrite lookup_insert_eq. cbn. by rewrite bool_decide_true.
        -- rewrite lookup_insert_ne by done. rewrite bool_decide_false by naive_solver. lia.
      * unfold quota in *. cbn.
        intros a n [[<- <-]|[_ Ha]]%lookup_insert_Some; [|by apply Hent]. split; [done|].
        split; [|lia]. rewrite Hcnt. pose proof (count_of_nonneg (Proposals s) ms who). lia.
    + destruct (mi_data s Hinv _ _ Hd') as [? ? ? ? Hcnt' ?]. split; try done.
      intros a. rewrite count_of_insert by done. rewrite bool_decide_false by naive_solver.
      rewrite Hcnt'. lia.
  - intros ms' id p. rewrite Hp. intros [[[= <- <-] <-]|[_ Hlk]]%lookup_insert_Some.
    + rewrite Hm, lookup_insert_eq. eexists. split; [done|]. split; cbn; try done.
      * u_unfold. lia.
      * by left.
      * apply NoDup_singleton.
      * by intros a ->%list_elem_of_singleton.
      * change (Z.of_nat 1) with 1. destruct (Z.leb_spec (threshold d) 1); split; first [done|lia].
      * apply (vm_deposit _ Hcfg).
      * by exists dc.
    + destruct (mi_proposals s Hinv _ _ _ Hlk) as (d' & Hd' & Hok).
      destruct (He _ _ Hd') as (d2 & Hd2 & Hpol). exists d2. split; [done|].
      by eapply proposal_ok_policy.
  - intros a. specialize (Ho a). pose proof (mi_reserved s Hinv a). unfold outside in Ho. lia.
Qed.

Lemma approve_preserves s s' w who ms id bytes :
  minv s → approve (C := C) cfg (Signed who) ms id bytes s = Ok (s', w) →
  minv s' ∧ extends s s' ∧ (∀ a, outside s' a = outside s a).
Proof.
  intros Hinv Ha.
  destruct (approve_Ok _ _ _ _ _ _ _ Ha) as (d & p & Hd & Hwho & Hp & _ & _ & Hni & Hm & Hl & _ & Hps & _).
  assert (Ho : ∀ a, outside s' a = outside s a).
  { intros a. unfold outside, deposits_of. rewrite Hl, Hps, (map_sum_update _ _ _ p) by done. cbn. lia. }
  assert (He : extends s s'). { intros ms' d' Hd'. rewrite Hm. by apply (extends_refl s). }
  destruct (mi_proposals s Hinv _ _ _ Hp) as (d2 & Hd2 & Hok). assert (d2 = d) as -> by congruence.
  split; [|done]. split.
  - intros ms' d'. rewrite Hm, Hps. intros Hd'. destruct (mi_data s Hinv _ _ Hd') as [? ? ? ? Hcnt ?].
    split; try done. intros a. by rewrite (count_of_update _ _ _ p).
  - intros ms' id' p'. rewrite Hm, Hps. intros [[[= <- <-] <-]|[_ Hlk]]%lookup_insert_Some.
    2: { by apply (mi_proposals s Hinv). }
    exists d. split; [done|]. destruct Hok as [? ? ? ? Hst ? ? ?]. split; cbn; try done.
    + set_solver.
    + apply NoDup_app. split_and!; [done|set_solver|apply NoDup_singleton].
    + set_solver.
    + rewrite length_app. cbn. destruct (status p) eqn:Hs.
      * rewrite bool_decide_true by done. cbn.
        destruct (Z.leb_spec (threshold d) (Z.of_nat (length (approvals p) + 1))); split; try done; lia.
      * cbn. split; [|done]. intros _. destruct Hst as [Hst _]. specialize (Hst eq_refl). lia.
  - intros a. specialize (Ho a). pose proof (mi_reserved s Hinv a). unfold outside in Ho. lia.
Qed.

Lemma outside_event s e a : outside (m_deposit_event e s) a = outside s a.
Proof. done. Qed.

Lemma run_call_preserves s s' who k :
  minv s → call_in_range k → run_call who k s = Ok s' →
  minv s' ∧ extends s s' ∧ (∀ a, outside s' a = outside s a).
Proof.
  intros Hinv Hk Hr. destruct k; cbn [run_call] in Hr; cbn in Hk; res_inv; try (destruct v as [s2 w]; simplify_eq).
  - destruct Hk as (_ & Ht & _). by eapply create_multisig_preserves.
  - by eapply propose_preserves.
  - by eapply approve_preserves.
  - apply multisig_cancel_Ok in Hv as (p & Hp & _ & -> & _).
    edestruct (drop_step_preserves ms (λ _, True) s) as (? & ? & ? & _); [done|by eexists _, p, _|done].
  - apply remove_expired_Ok in Hv as (d & p & _ & _ & Hp & _ & -> & _).
    edestruct (drop_step_preserves ms (λ _, True) s) as (? & ? & ? & _); [done|by eexists _, p, _|done].
  - apply claim_deposits_Ok in Hv as (d & s1 & e & _ & _ & Hs & ->).
    destruct (drop_steps_preserve _ _ _ _ Hinv Hs) as (? & ? & ? & _).
    split_and!; [by apply minv_event|done|done].
Qed.

(** ** What the trace knows *)

(** A closed proposal id is never reused. *)
Definition closed_stays s s' : Prop :=
  ∀ ms id d, Multisigs s !! ms = Some d → id < proposal_nonce d →
    Proposals s !! (ms, id) = None → Proposals s' !! (ms, id) = None.

(** Every approval on record after the call was there before, or is the
    call's own. *)
Definition approvals_from (act : Action) s s' : Prop :=
  ∀ ms id p' a, Proposals s' !! (ms, id) = Some p' → a ∈ approvals p' →
    (∃ p, Proposals s !! (ms, id) = Some p ∧ call p = call p' ∧ a ∈ approvals p) ∨
    act = Proposed a ms id (call p') ∨ act = Endorsed a ms id (call p').

Lemma subset_trace act s s' :
  Proposals s' ⊆ Proposals s → closed_stays s s' ∧ approvals_from act s s'.
Proof.
  intros Hsub. split.
  - intros ms id d _ _ Hn. by eapply lookup_weaken_None.
  - intros ms id p' a Hp' Ha. left. exists p'. split; [|done]. by eapply lookup_weaken.
Qed.

Lemma drop_step_subset ms Q s s' : rtc (drop_step ms Q) s s' → Proposals s' ⊆ Proposals s.
Proof.
  induction 1 as [|s1 s2 s3 (id & p & e & _ & _ & ->) _ IH]; [done|].
  etrans; [exact IH|]. cbn. apply delete_subseteq.
Qed.

Lemma run_call_trace s s' who k :
  minv s → run_call who k s = Ok s' →
  closed_stays s s' ∧ approvals_from (action_of who k s) s s'.
Proof.
  intros Hinv Hr. destruct k; cbn [run_call] in Hr; res_inv; try (destruct v as [s2 w]; simplify_eq).
  - apply create_Ok in Hr as (c & _ & _ & _ & _ & _ & _ & Hp & _). apply subset_trace. by rewrite Hp.
  - apply propose_Ok in Hv as (d & dc & c1 & c2 & Hd & _ & _ & _ & _ & _ & _ & _ & _ & _ & _ & Hp & _).
    split.
    + intros ms' id d' Hd' Hlt Hn. rewrite Hp, lookup_insert_ne; [done|]. intros [= <- <-].
      simplify_eq. lia.
    + intros ms' id p' a. rewrite Hp. cbn [action_of]. rewrite Hd. cbn.
      intros [[[= <- <-] <-]|[_ Hlk]]%lookup_insert_Some Ha; cbn in *; [|by eauto].
      right; left. unfold try_push in Ha. case_match; cbn in Ha; [|by apply not_elem_of_nil in Ha].
      apply list_elem_of_singleton in Ha as ->. done.
  - apply approve_Ok in Hv as (d & p & Hd & _ & Hp & -> & _ & _ & _ & _ & _ & Hps & _). split.
    + intros ms' id' d' _ _ Hn. rewrite Hps, lookup_insert_ne; [done|]. intros [= <- <-]. congruence.
    + intros ms' id' p' a. rewrite Hps.
      intros [[[= <- <-] <-]|[_ Hlk]]%lookup_insert_Some Ha; cbn in *; [|by eauto].
      apply elem_of_app in Ha as [Ha| ->%list_elem_of_singleton]; [by eauto|]. by do 2 right.
  - apply multisig_cancel_Ok in Hv as (p & _ & _ & -> & _). apply subset_trace. cbn. apply delete_subseteq.
  - apply remove_expired_Ok in Hv as (d & p & _ & _ & _ & _ & -> & _).
    apply subset_trace. cbn. apply delete_subseteq.
  - apply claim_deposits_Ok in Hv as (d & s1 & e & _ & _ & Hs & ->). apply subset_trace. cbn.
    by eapply drop_step_subset.
Qed.

Record hist tr s : Prop := {
  h_signed : ∀ ms id p a, Proposals s !! (ms, id) = Some p → a ∈ approvals p →
    endorsed tr a ms id (call p);
  h_exec : ∀ i who ms id bytes, tr !! i = Some (Executed who ms id bytes) →
    ∃ d A, Multisigs s !! ms = Some d ∧ who ∈ signers d ∧ id < proposal_nonce d ∧
      Proposals s !! (ms, id) = None ∧ NoDup A ∧ threshold d ≤ Z.of_nat (length A) ∧
      ∀ a, a ∈ A → a ∈ signers d ∧ endorsed (take i tr) a ms id bytes;
  h_once : ∀ i j w1 w2 ms id b1 b2, tr !! i = Some (Executed w1 ms id b1) →
    tr !! j = Some (Executed w2 ms id b2) → i = j;
}.

Lemma endorsed_app tr acts a ms id bytes :
  endorsed tr a ms id bytes → endorsed (tr ++ acts) a ms id bytes.
Proof. intros [?|?]; [left|right]; apply elem_of_app; by left. Qed.

(** Facts about past executions survive a step that keeps policies and closed
    ids. *)
Lemma exec_fact_mono s s' (tr : list Action) i who ms id bytes :
  extends s s' → closed_stays s s' →
  (∃ d A, Multisigs s !! ms = Some d ∧ who ∈ signers d ∧ id < proposal_nonce d ∧
     Proposals s !! (ms, id) = None ∧ NoDup A ∧ threshold d ≤ Z.of_nat (length A) ∧
     ∀ a, a ∈ A → a ∈ signers d ∧ endorsed (take i tr) a ms id bytes) →
  ∃ d A, Multisigs s' !! ms = Some d ∧ who ∈ signers d ∧ id < proposal_nonce d ∧
     Proposals s' !! (ms, id) = None ∧ NoDup A ∧ threshold d ≤ Z.of_nat (length A) ∧
     ∀ a, a ∈ A → a ∈ signers d ∧ endorsed (take i tr) a ms id bytes.
Proof.
  intros He Hc (d & A & Hd & Hw & Hid & Hn & Hnd & Ht & Hall).
  destruct (He _ _ Hd) as (d' & Hd' & Hs & Htt & Hno). exists d', A.
  rewrite Hs, Htt. split_and!; try done; [lia|]. by eapply Hc.
Qed.

Lemma hist_step tr act s s' :
  (∀ who ms id b, act ≠ Executed who ms id b) →
  hist tr s → extends s s' → closed_stays s s' → approvals_from act s s' → hist (tr ++ [act]) s'.
Proof.
  intros Hact [Hsig Hex Honce] He Hc Ha.
  assert (Hold : ∀ i who ms id b, (tr ++ [act]) !! i = Some (Executed who ms id b) →
    tr !! i = Some (Executed who ms id b)).
  { intros i who ms id b [?|[_ Hi]]%lookup_app_Some; [done|].
    apply list_lookup_singleton_Some in Hi as [_ Hi]. by apply Hact in Hi. }
  split.
  - intros ms id p a Hp Hin. destruct (Ha _ _ _ _ Hp Hin) as [(p0 & Hp0 & <- & Hin0)|[->| ->]].
    + by apply endorsed_app, Hsig.
    + left. set_solver.
    + right. set_solver.
  - intros i who ms id b Hi. apply Hold in Hi. eapply exec_fact_mono; [done|done|].
    rewrite take_app_le by (apply lookup_lt_Some in Hi; lia). by apply Hex.
  - intros i j w1 w2 ms id b1 b2 Hi Hj. by eapply (Honce i j); apply Hold.
Qed.

Lemma hist_execute tr s s' who ms id (c : Call) p w :
  minv s → hist tr s → execute_effects (D := D) cfg (Signed who) ms id c s = Ok (s', p, w) →
  hist (tr ++ [Executed who ms id (call_encode c)]) s'.
Proof.
  intros Hinv [Hsig Hex Honce] He.
  destruct (execute_effects_Ok _ _ _ _ _ _ _ _ He) as (d & Hd & Hw & Hp & Hst & _ & Hc & _ & _ & -> & _).
  destruct (mi_proposals s Hinv _ _ _ Hp) as (d2 & Hd2 & Hok). assert (d2 = d) as -> by congruence.
  pose proof (drop_extends s ms id p) as Hext.
  destruct (subset_trace (Housekeeping who) s (drop_proposal ms id p s)) as [Hcl _];
    [cbn; apply delete_subseteq|].
  assert (Hfresh : ∀ i w' b, tr !! i = Some (Executed w' ms id b) → False).
  { intros i w' b Hi. destruct (Hex _ _ _ _ _ Hi) as (? & ? & _ & _ & _ & Hn & _). congruence. }
  split.
  - intros ms' id' p' a Hp' Ha. cbn in Hp'. apply lookup_delete_Some in Hp' as [_ Hp'].
    apply endorsed_app. by eapply Hsig.
  - intros i w' ms' id' b [Hi|[Hlen Hi]]%lookup_app_Some.
    + rewrite take_app_le by (apply lookup_lt_Some in Hi; lia).
      eapply exec_fact_mono; [done|done|by apply Hex].
    + apply list_lookup_singleton_Some in Hi as [Hi [= <- <- <- <-]].
      rewrite take_app_length' by lia.
      destruct (Hext _ _ Hd) as (d' & Hd' & Hs & Ht & Hn). exists d', (approvals p).
      rewrite Hs, Ht. destruct Hok as [Hid _ Hnd Hin Hstat _ _ _]. split_and!; try done; [lia| |by apply Hstat|].
      * cbn. apply lookup_delete_eq.
      * intros a Ha. split; [by apply Hin|]. rewrite Hc. by eapply Hsig.
  - intros i j w1 w2 ms' id' b1 b2 [Hi|[Hli Hi]]%lookup_app_Some [Hj|[Hlj Hj]]%lookup_app_Some.
    + by eapply Honce.
    + apply list_lookup_singleton_Some in Hj as [_ [= <- <- <- <-]]. by destruct (Hfresh _ _ _ Hi).
    + apply list_lookup_singleton_Some in Hi as [_ [= <- <- <- <-]]. by destruct (Hfresh _ _ _ Hj).
    + apply list_lookup_singleton_Some in Hi as [Hi _], Hj as [Hj _]. lia.
Qed.

Lemma action_of_not_executed who k s w ms id b : action_of who k s ≠ Executed w ms id b.
Proof. by destruct k. Qed.

Lemma env_step_preserves s s' : minv s → env_step s s' → minv s' ∧ extends s s'.
Proof.
  intros [Hd Hp Hr] [Hm Hps _ Hres]. split; [split|].
  - intros ms d. rewrite Hm, Hps. apply Hd.
  - intros ms id p. rewrite Hm, Hps. apply Hp.
  - intros a. unfold deposits_of. rewrite Hps. apply Hres.
  - intros ms d. rewrite Hm. apply (extends_refl s).
Qed.

(** Every run keeps the invariant and the history facts, starting anywhere
    they hold: a nested run starts in the middle of its caller's. *)
Lemma mrun_preserves tr s s' :
  mrun tr s s' → ∀ pre, minv s → hist pre s → minv s' ∧ hist (pre ++ tr) s' ∧ extends s s'.
Proof.
  induction 1 as [s|tr s s1 s2 who k _ IH Hk Hr|tr tr' s s1 s2 s3 who ms id c p w o _ IH He _ IH'
                 |tr s s1 s2 _ IH He]; intros pre Hinv Hh.
  - rewrite app_nil_r. done.
  - destruct (IH pre Hinv Hh) as (Hi & Hh1 & Hx).
    destruct (run_call_preserves _ _ _ _ Hi Hk Hr) as (Hi2 & Hx2 & _).
    destruct (run_call_trace _ _ _ _ Hi Hr) as [Hc Ha].
    split_and!; [done| |by etrans]. rewrite app_assoc. eapply hist_step; try done.
    intros. apply action_of_not_executed.
  - destruct (IH pre Hinv Hh) as (Hi & Hh1 & Hx).
    pose proof (hist_execute _ _ _ _ _ _ _ _ _ Hi Hh1 He) as Hh2.
    destruct (execute_effects_Ok _ _ _ _ _ _ _ _ He) as (d & _ & _ & Hp & _ & _ & _ & _ & _ & -> & _).
    destruct (IH' (pre ++ tr ++ [Executed who ms id (call_encode c)])) as (Hi3 & Hh3 & Hx3).
    + by apply drop_preserves.
    + by rewrite app_assoc.
    + split_and!; [by apply minv_event| |].
      * destruct Hh3 as [? ? ?]. rewrite !app_assoc in *. by split.
      * etrans; [done|]. etrans; [apply (drop_extends s1 ms id p)|done].
  - destruct (IH pre Hinv Hh) as (Hi & [Hsig Hex Hon] & Hx).
    destruct (env_step_preserves _ _ Hi He) as [Hi2 Hx2]. destruct He as [Hm Hps _ _].
    split_and!; [done| |by etrans]. split; [|intros ? ? ? ? ?|done]; rewrite ?Hps, ?Hm; [apply Hsig|apply Hex].
Qed.

Lemma genesis_ok s : m_genesis s → minv s ∧ hist [] s.
Proof.
  intros [Hm Hp]. split; split.
  - intros ms d. by rewrite Hm, lookup_empty.
  - intros ms id p. by rewrite Hp, lookup_empty.
  - intros a. unfold deposits_of. rewrite Hp, map_sum_empty. apply reserved_balance_nonneg.
  - intros ms id p a. by rewrite Hp, lookup_empty.
  - intros i who ms id b. by rewrite lookup_nil.
  - intros i j w1 w2 ms id b1 b2. by rewrite lookup_nil.
Qed.

(** Executing with a dispatcher whose effect is a run is itself a run. *)
Lemma execute_is_run dispatch who ms id (c : Call) s s' w :
  (∀ c o s, ∃ tr, mrun tr s (dispatch c o s).1) →
  execute (D := D) dispatch cfg (Signed who) ms id c s = Ok (s', w) →
  ∃ tr, mrun (Executed who ms id (call_encode c) :: tr) s s'.
Proof.
  intros Hdisp He. unfold execute in He. res_inv. destruct v as [[s1 p] bw].
  destruct (Hdisp c (Signed ms) s1) as [tr Hrun].
  destruct (dispatch c (Signed ms) s1) as [s2 [post o]] eqn:Hd. simplify_eq.
  exists tr. apply (mrun_execute [] tr s s s1 s2 who ms id c p bw o); [constructor|done|done].
Qed.
End Invariant.
