(* ===== verification/MultisigTheorems.v ===== *)
(** * Multisig: theorems

    Authorisation of executions, refinement of an abstract voting machine,
    deposits, quotas and storage bounds, reported weights and addresses, with
    a concrete runtime the theorems are applied to. *)

From stdpp Require Import base option list numbers gmap fin_maps sorting relations.
From S2P Require Import Prelude Crypto Interfaces Frame Multisig MultisigProps.
#[local] Open Scope Z_scope.

(** ** The abstract voting machine

    What the pallet promises, without status flags, counters, nonces, deposits
    or storage layout: a policy per account, and per open proposal the payload,
    the deadline and the set of those who said yes. *)
Module Spec.
Record Vote := { payload : list Z; deadline : Z; author : Hash256; yes : gset Hash256 }.
Record State := {
  policies : gmap Hash256 (gset Hash256 * Z);
  votes : gmap (Hash256 * Z) Vote;
}.

Definition add_yes (who : Hash256) (v : Vote) : Vote :=
  {| payload := payload v; deadline := deadline v; author := author v; yes := {[who]} ∪ yes v |}.

Inductive step (now : Z) : State → State → Prop :=
| create a ms S t :
    policies a !! ms = None → 2 ≤ Z.of_nat (size S) → 1 ≤ t ≤ Z.of_nat (size S) →
    step now a {| policies := <[ms := (S, t)]> (policies a); votes := votes a |}
| propose a ms id S t who bytes exp :
    policies a !! ms = Some (S, t) → who ∈ S → votes a !! (ms, id) = None → now < exp →
    step now a {| policies := policies a; votes := <[(ms, id) :=
      {| payload := bytes; deadline := exp; author := who; yes := {[who]} |}]> (votes a) |}
| approve a ms id S t who v :
    policies a !! ms = Some (S, t) → who ∈ S → votes a !! (ms, id) = Some v →
    (who ∉ yes v) → now ≤ deadline v →
    step now a {| policies := policies a; votes := <[(ms, id) := add_yes who v]> (votes a) |}
| withdraw a ms id v who :
    votes a !! (ms, id) = Some v → who = author v ∨ deadline v < now →
    step now a {| policies := policies a; votes := delete (ms, id) (votes a) |}.

(** An execution is allowed exactly when enough distinct members said yes to
    these bytes in time. *)
Definition may_execute (now : Z) (a : State) (who ms : Hash256) (id : Z) (bytes : list Z) : Prop :=
  ∃ S t v, policies a !! ms = Some (S, t) ∧ who ∈ S ∧ votes a !! (ms, id) = Some v ∧
    payload v = bytes ∧ yes v ⊆ S ∧ t ≤ Z.of_nat (size (yes v)) ∧ now ≤ deadline v.
End Spec.

Section Abstraction.
Context {C E X : Type}.

Definition abs_vote (p : ProposalData) : Spec.Vote :=
  {| Spec.payload := call p; Spec.deadline := expiry p; Spec.author := proposer p;
     Spec.yes := list_to_set (approvals p) |}.
Definition abs_policy (d : MultisigData) : gset Hash256 * Z := (list_to_set (signers d), threshold d).
Definition abs (s : Multisig C E X) : Spec.State :=
  {| Spec.policies := abs_policy <$> Multisigs s; Spec.votes := abs_vote <$> Proposals s |}.
End Abstraction.

Section Refinement.
Context {Call C D E X : Type} `{RuntimeCallOps Call, ReservableLaws C D, HighSecurityInspector E Call}.
Context (cfg : MultisigConfig) (Hcfg : valid_multisig_config cfg).
Implicit Types (s : Multisig C E X).

Lemma abs_lookup_policy s ms d :
  Multisigs s !! ms = Some d → Spec.policies (abs s) !! ms = Some (list_to_set (signers d), threshold d).
Proof. intros Hd. cbn. by rewrite lookup_fmap, Hd. Qed.

Lemma abs_lookup_vote s ms id p :
  Proposals s !! (ms, id) = Some p → Spec.votes (abs s) !! (ms, id) = Some (abs_vote p).
Proof. intros Hp. cbn. by rewrite lookup_fmap, Hp. Qed.

Lemma abs_drop s ms id p who dep :
  abs (m_deposit_event p (remove_proposal_and_return_deposit (D := D) ms id who dep s)) =
  {| Spec.policies := Spec.policies (abs s); Spec.votes := delete (ms, id) (Spec.votes (abs s)) |}.
Proof.
  unfold abs. cbn. f_equal; [|by rewrite fmap_delete].
  apply map_eq. intros ms'. rewrite !lookup_fmap. destruct (decide (ms = ms')) as [<-|Hne].
  - rewrite lookup_alter_eq. by destruct (Multisigs s !! ms).
  - by rewrite lookup_alter_ne.
Qed.

Lemma drop_step_simulates ms (Q : ProposalData → Prop) s s' who now :
  (∀ p, Q p → who = proposer p ∨ expiry p < now) →
  drop_step (D := D) ms Q s s' → Spec.step now (abs s) (abs s').
Proof.
  intros HQ (id & p & e & Hp & Hq & ->). rewrite abs_drop.
  eapply (Spec.withdraw _ _ ms id (abs_vote p) who); [by apply abs_lookup_vote|]. by apply HQ.
Qed.

Lemma drop_steps_simulate ms (Q : ProposalData → Prop) s s' who now :
  (∀ p, Q p → who = proposer p ∨ expiry p < now) →
  rtc (drop_step (D := D) ms Q) s s' → rtc (Spec.step now) (abs s) (abs s').
Proof.
  intros HQ. induction 1 as [|s1 s2 s3 Hd _ IH]; [constructor|].
  eapply rtc_l; [by eapply drop_step_simulates|done].
Qed.

Lemma size_signers (l : list Hash256) : NoDup l → size (list_to_set l : gset Hash256) = length l.
Proof. apply size_list_to_set. Qed.

(** Every call of the pallet is a sequence of steps of the abstract machine. *)
Lemma run_call_simulates s s' who k :
  minv (Call := Call) cfg s → run_call (Call := Call) (D := D) cfg who k s = Ok s' →
  rtc (Spec.step (block_number s)) (abs s) (abs s').
Proof.
  intros Hinv Hr. destruct k; cbn [run_call] in Hr; res_inv; try (destruct v as [s2 w]; simplify_eq).
  - apply create_Ok in Hr as (c & Hf & _ & Hnd & Hl & Ht & Hm & Hp & _).
    apply rtc_once. unfold abs at 2. rewrite Hm, Hp, fmap_insert.
    apply (Spec.create _ (abs s)); [cbn; by rewrite lookup_fmap, Hf|..]; cbn;
      (rewrite size_signers by (by rewrite sort_signers_perm)); rewrite sort_signers_perm; lia.
  - apply propose_Ok in Hv as (d & dc & c1 & c2 & Hd & Hw & _ & _ & _ & _ & _ & _ & _ & _ & Hm & Hp & _ & _ & Hexp & _).
    destruct (mi_data _ s Hinv _ _ Hd) as [_ Hlen _ _ _ _].
    assert (Hpush : default [] (try_push (MaxSigners cfg) [] who) = [who]).
    { unfold try_push. change (Z.of_nat (length (@nil Hash256))) with 0.
      rewrite (proj2 (Z.ltb_lt _ _)); [done|lia]. }
    apply rtc_once. unfold abs at 2. rewrite Hm, Hp, !fmap_insert, insert_id.
    2: { rewrite lookup_fmap, Hd. done. }
    unfold abs_vote at 1. cbn. rewrite Hpush. cbn. rewrite union_empty_r_L.
    eapply (Spec.propose _ (abs s) ms); [by apply abs_lookup_policy|by apply elem_of_list_to_set| |done].
    cbn. rewrite lookup_fmap. destruct (Proposals s !! _) as [p|] eqn:Hlk; [|done].
    destruct (mi_proposals _ s Hinv _ _ _ Hlk) as (d2 & Hd2 & Hok). assert (d2 = d) as -> by congruence.
    destruct (po_id _ _ _ _ Hok). lia.
  - apply approve_Ok in Hv as (d & p & Hd & Hw & Hp & _ & Hexp & Hni & Hm & _ & _ & Hps & _).
    apply rtc_once. unfold abs at 2. rewrite Hm, Hps, fmap_insert.
    replace (abs_vote _) with (Spec.add_yes who (abs_vote p)).
    2: { unfold Spec.add_yes, abs_vote. cbn. f_equal. rewrite list_to_set_app_L. set_solver. }
    eapply (Spec.approve _ (abs s) ms id); [by apply abs_lookup_policy|by apply elem_of_list_to_set
      |by apply abs_lookup_vote|cbn; by rewrite elem_of_list_to_set|done].
  - apply multisig_cancel_Ok in Hv as (p & Hp & -> & -> & _).
    apply rtc_once. apply (drop_step_simulates ms (λ q, q = p) s _ (proposer p)); [by intros ? ->; left|].
    by eexists _, p, _.
  - apply remove_expired_Ok in Hv as (d & p & _ & _ & Hp & Hexp & -> & _).
    apply rtc_once. apply (drop_step_simulates ms (λ q, q = p) s _ who); [by intros ? ->; right|].
    by eexists _, p, _.
  - apply claim_deposits_Ok in Hv as (d & s1 & e & _ & _ & Hs & ->).
    eapply (drop_steps_simulate ms _ s s1 who) in Hs; [exact Hs|]. by intros p [<- _]; left.
Qed.

Lemma execute_simulates s s' who ms id (c : Call) p w :
  minv (Call := Call) cfg s →
  execute_effects (D := D) cfg (Signed who) ms id c s = Ok (s', p, w) →
  Spec.may_execute (block_number s) (abs s) who ms id (call_encode c) ∧
  Spec.votes (abs s') = delete (ms, id) (Spec.votes (abs s)) ∧
  Spec.policies (abs s') = Spec.policies (abs s).
Proof.
  intros Hinv He.
  destruct (execute_effects_Ok _ _ _ _ _ _ _ _ _ He) as (d & Hd & Hw & Hp & Hst & Hexp & Hc & _ & _ & -> & _).
  destruct (mi_proposals _ s Hinv _ _ _ Hp) as (d2 & Hd2 & Hok). assert (d2 = d) as -> by congruence.
  destruct Hok as [_ _ Hnd Hin Hstat _ _ _]. split.
  - exists (list_to_set (signers d)), (threshold d), (abs_vote p).
    split_and!; [by apply abs_lookup_policy|by apply elem_of_list_to_set|by apply abs_lookup_vote|done| | |done].
    + intros a. cbn. rewrite !elem_of_list_to_set. apply Hin.
    + cbn. rewrite size_signers by done. by apply Hstat.
  - pose proof (abs_drop s ms id (ProposalCancelled ms who id) (proposer p) (deposit p)) as Habs.
    unfold abs in Habs at 1. cbn in Habs. injection Habs as Hpol Hvo. by split.
Qed.
End Refinement.

(** ** Quotas and storage bounds *)
Section Bounds.
Context {Call C D E X : Type} `{RuntimeCallOps Call, ReservableLaws C D, HighSecurityInspector E Call}.
Context (cfg : MultisigConfig) (Hcfg : valid_multisig_config cfg).
Implicit Types (s : Multisig C E X).

Lemma quota_nonneg d : 0 ≤ quota cfg d.
Proof.
  unfold quota, checked_div. pose proof (vm_total _ Hcfg) as [? ?].
  destruct (Z.eqb_spec (Z.of_nat (length (signers d))) 0); cbn; [done|]. apply Z.div_pos; lia.
Qed.

Lemma quota_times d : 0 < Z.of_nat (length (signers d)) →
  Z.of_nat (length (signers d)) * quota cfg d ≤ MaxTotalProposalsInStorage cfg.
Proof.
  intros Hlen. unfold quota, checked_div. rewrite (proj2 (Z.eqb_neq _ _)) by lia. cbn.
  apply Z.mul_div_le. lia.
Qed.

Lemma per_signer_count s ms d a :
  minv (Call := Call) cfg s → Multisigs s !! ms = Some d →
  0 ≤ default 0 (proposals_per_signer d !! a) ≤ quota cfg d.
Proof.
  intros Hinv Hd. pose proof (mi_data _ s Hinv _ _ Hd) as Hok.
  destruct (proposals_per_signer d !! a) as [n|] eqn:Hn; cbn.
  - destruct (do_entries _ _ _ _ Hok _ _ Hn). lia.
  - pose proof (quota_nonneg d). lia.
Qed.

(** The derived total never wraps and is the sum over the signers. *)
Lemma active_proposals_sum s ms d :
  minv (Call := Call) cfg s → Multisigs s !! ms = Some d →
  active_proposals d = sum_by (λ a, default 0 (proposals_per_signer d !! a)) (signers d) ∧
  active_proposals d ≤ MaxTotalProposalsInStorage cfg.
Proof.
  intros Hinv Hd. pose proof (mi_data _ s Hinv _ _ Hd) as Hok.
  destruct (do_signers _ _ _ _ Hok) as [Hlen _].
  pose proof (quota_times d ltac:(lia)) as Hq.
  set (total := sum_by (λ a, default 0 (proposals_per_signer d !! a)) (signers d)).
  assert (Hsum : map_sum (λ _ n, n) (proposals_per_signer d) = total).
  { unfold total. rewrite (map_sum_keys _ _ (signers d)).
    - apply Z.le_antisymm; apply sum_by_le; intros a _; by destruct (proposals_per_signer d !! a).
    - apply (do_nodup _ _ _ _ Hok).
    - intros a n Hn. by apply (do_entries _ _ _ _ Hok _ _ Hn). }
  assert (Hlo : 0 ≤ total) by (apply sum_by_nonneg; intros; by eapply per_signer_count).
  assert (Hhi : total ≤ quota cfg d * Z.of_nat (length (signers d))).
  { unfold total. rewrite <- sum_by_const. apply sum_by_le. intros. by eapply per_signer_count. }
  pose proof (vm_total _ Hcfg) as [? ?].
  unfold active_proposals. rewrite Hsum, Z.mod_small by lia. split; [done|lia].
Qed.

Lemma length_iter_prefix (ms : Hash256) (m : gmap (Hash256 * Z) ProposalData) :
  Z.of_nat (length (iter_prefix ms m)) = map_sum (λ k _, if bool_decide (k.1 = ms) then 1 else 0) m.
Proof.
  unfold iter_prefix, map_sum. rewrite map_fold_foldr.
  induction (map_to_list m) as [|[[ms' id] p] l IH]; [done|]. cbn. rewrite <- IH.
  destruct (bool_decide (ms' = ms)); cbn [length]; lia.
Qed.

(** The stored proposals of a multisig are the ones its signers are charged
    for. *)
Lemma stored_is_active s ms d :
  minv (Call := Call) cfg s → Multisigs s !! ms = Some d →
  Z.of_nat (length (iter_prefix ms (Proposals s))) = active_proposals d.
Proof.
  intros Hinv Hd. destruct (active_proposals_sum _ _ _ Hinv Hd) as [-> _].
  pose proof (mi_data _ s Hinv _ _ Hd) as Hok. rewrite length_iter_prefix.
  transitivity (sum_by (λ a, count_of (Proposals s) ms a) (signers d)).
  2: { apply Z.le_antisymm; apply sum_by_le; intros a _; by rewrite (do_counts _ _ _ _ Hok). }
  assert (Hin : ∀ k p, Proposals s !! k = Some p → k.1 = ms → proposer p ∈ signers d).
  { intros [ms' id] p Hp [= ->]. destruct (mi_proposals _ s Hinv _ _ _ Hp) as (d2 & Hd2 & Hp2).
    assert (d2 = d) as -> by congruence. apply (po_signers _ _ _ _ Hp2), (po_proposer _ _ _ _ Hp2). }
  revert Hin. generalize (Proposals s). intros m. unfold count_of.
  induction m as [|k p m Hk IH] using map_ind; intros Hin.
  - rewrite map_sum_empty. clear. induction (signers d) as [|a l IH]; [done|].
    by rewrite sum_by_cons, map_sum_empty, <- IH.
  - rewrite map_sum_insert by done.
    rewrite IH; [|intros k' p' Hk'; apply Hin; rewrite lookup_insert_ne; [done|congruence]].
    transitivity (sum_by (λ a, (if bool_decide (proposer p = a) then
        (if bool_decide (k.1 = ms) then 1 else 0) else 0) +
        map_sum (λ k p, if bool_decide (k.1 = ms ∧ proposer p = a) then 1 else 0) m) (signers d)).
    + assert (Hadd : ∀ (f g : Hash256 → Z) l, sum_by (λ a, f a + g a) l = sum_by f l + sum_by g l).
      { intros f g l. induction l as [|a l IHl]; [done|]. rewrite !sum_by_cons, IHl. lia. }
      rewrite Hadd, sum_by_indicator by apply (do_nodup _ _ _ _ Hok). f_equal.
      destruct (decide (k.1 = ms)) as [Hms|Hms].
      * rewrite !bool_decide_true; [done| |done]. apply (Hin k p); [apply lookup_insert_eq|done].
      * rewrite (bool_decide_false (k.1 = ms)) by done. by case_bool_decide.
    + apply Z.le_antisymm; apply sum_by_le; intros a _; rewrite map_sum_insert by done;
        repeat case_bool_decide; naive_solver lia.
Qed.

(** A signer below its own share is never refused for a full table. *)
Lemma under_quota_has_room s ms d a :
  minv (Call := Call) cfg s → Multisigs s !! ms = Some d → a ∈ signers d →
  default 0 (proposals_per_signer d !! a) < quota cfg d →
  active_proposals d < MaxTotalProposalsInStorage cfg.
Proof.
  intros Hinv Hd Ha Hlt. destruct (active_proposals_sum _ _ _ Hinv Hd) as [Hsum _].
  pose proof (mi_data _ s Hinv _ _ Hd) as Hok. destruct (do_signers _ _ _ _ Hok) as [Hlen _].
  pose proof (quota_times d ltac:(lia)) as Hq.
  apply list_elem_of_split in Ha as (l1 & l2 & Hl).
  rewrite Hsum, Hl, sum_by_app, sum_by_cons.
  assert (Hb : ∀ l, sum_by (λ a, default 0 (proposals_per_signer d !! a)) l ≤ quota cfg d * Z.of_nat (length l)).
  { intros l. rewrite <- sum_by_const. apply sum_by_le. intros. by eapply per_signer_count. }
  pose proof (Hb l1). pose proof (Hb l2). rewrite Hl, length_app in Hq. cbn [length] in Hq. nia.
Qed.
End Bounds.

(** ** Reported weights *)
Section ReportedWeights.
Context {Call C D E X : Type} `{RuntimeCallOps Call, ReservableLaws C D, HighSecurityInspector E Call}.
Context (cfg : MultisigConfig) (Hcfg : valid_multisig_config cfg).
Implicit Types (s : Multisig C E X) (W : Weight).

(** The post-information of either outcome stays within [W]. *)
Definition err_le W (e : MErr) : Prop :=
  match e.1 with Some w => weight_le w W | None => True end.
Definition reports_le {A} W (r : result MErr (A * option Weight)) : Prop :=
  match r with
  | Ok (_, Some w) => weight_le w W
  | Ok (_, None) => True
  | Err e => err_le W e
  end.

Lemma reports_ensure {A} W b e (f : unit → result MErr (A * option Weight)) :
  err_le W e → (b = true → reports_le W (f tt)) → reports_le W (ensure b e ≫= f).
Proof. by destruct b; cbn; auto. Qed.

Lemma reports_ok_or {A B} W (o : option B) e (f : B → result MErr (A * option Weight)) :
  err_le W e → (∀ x, o = Some x → reports_le W (f x)) → reports_le W (ok_or o e ≫= f).
Proof. destruct o; cbn; auto. Qed.

Lemma reports_signed {A} W o (f : Hash256 → result MErr (A * option Weight)) :
  (∀ who, reports_le W (f who)) → reports_le W (ensure_signed o ≫= f).
Proof. destruct o; cbn; auto. Qed.

#[local] Ltac weight_steps :=
  repeat first [apply weight_add_mono | apply weight_mul_mono | apply reads_mono | apply writes_mono
               | apply (vm_db _ Hcfg) | reflexivity | (split; cbn; u_lia) | lia].

Lemma approve_mono c c' : c ≤ c' →
  weight_le (MultisigWeights.approve (m_db cfg) c) (MultisigWeights.approve (m_db cfg) c').
Proof. intros. unfold MultisigWeights.approve. weight_steps. Qed.
Lemma cancel_mono c c' : c ≤ c' →
  weight_le (MultisigWeights.cancel (m_db cfg) c) (MultisigWeights.cancel (m_db cfg) c').
Proof. intros. unfold MultisigWeights.cancel. weight_steps. Qed.
Lemma remove_expired_mono c c' : c ≤ c' →
  weight_le (MultisigWeights.remove_expired (m_db cfg) c) (MultisigWeights.remove_expired (m_db cfg) c').
Proof. intros. unfold MultisigWeights.remove_expired. weight_steps. Qed.
Lemma execute_mono c c' : c ≤ c' →
  weight_le (MultisigWeights.execute (m_db cfg) c) (MultisigWeights.execute (m_db cfg) c').
Proof. intros. unfold MultisigWeights.execute. weight_steps. Qed.
Lemma claim_deposits_mono i i' r r' c c' : i ≤ i' → r ≤ r' → c ≤ c' →
  weight_le (MultisigWeights.claim_deposits (m_db cfg) i r c)
    (MultisigWeights.claim_deposits (m_db cfg) i' r' c').
Proof. intros. unfold MultisigWeights.claim_deposits. weight_steps; u_lia. Qed.

(** A sum is at least any read it contains. *)
Lemma reads_in_sum n m a b : weight_ok a → weight_ok b → 0 ≤ n ≤ m →
  weight_le (reads (m_db cfg) n) (weight_add (weight_add a (reads (m_db cfg) m)) b).
Proof.
  intros Ha Hb Hn. pose proof (reads_ok (m_db cfg) m (vm_db _ Hcfg) ltac:(lia)) as Hr.
  etrans; [apply (reads_mono _ n m); [apply (vm_db _ Hcfg)|lia]|].
  etrans; [by apply (weight_le_add_r a)|]. by apply weight_le_add_l; [apply weight_add_ok|].
Qed.

#[local] Ltac in_sum :=
  apply reads_in_sum; [|apply writes_ok; [apply (vm_db _ Hcfg)|lia]|lia];
  apply weight_add_ok; [split; cbn; u_lia|apply weight_mul_ok; [split; cbn; u_lia|lia]].

Lemma parts_ok r p : in_u 64 r → in_u 64 p → weight_ok (MultisigWeights.parts r p).
Proof. by split. Qed.

Lemma approve_reports s o ms id bytes :
  minv (Call := Call) cfg s → reports_le (approve_declared cfg) (approve cfg o ms id bytes s).
Proof.
  intros Hinv. pose proof (vm_size _ Hcfg) as [? ?]. unfold approve, approve_declared.
  apply reports_signed; intros who. apply reports_ok_or; [cbn; in_sum|intros d _].
  apply reports_ensure; [cbn; in_sum|intros _]. apply reports_ok_or; [cbn; in_sum|intros p Hp].
  destruct (mi_proposals _ s Hinv _ _ _ Hp) as (dd & _ & Hok). pose proof (po_size _ _ _ _ Hok).
  do 3 (apply reports_ensure; [cbn; by apply approve_mono|intros _]).
  apply reports_ok_or; [done|intros l _]. cbn. by apply approve_mono.
Qed.

Lemma cancel_reports s o ms id :
  minv (Call := Call) cfg s → reports_le (cancel_declared cfg) (cancel (D := D) cfg o ms id s).
Proof.
  intros Hinv. pose proof (vm_size _ Hcfg) as [? ?]. unfold cancel, cancel_declared.
  apply reports_signed; intros who. apply reports_ok_or; [cbn; in_sum|intros p Hp].
  destruct (mi_proposals _ s Hinv _ _ _ Hp) as (dd & _ & Hok). pose proof (po_size _ _ _ _ Hok).
  do 2 (apply reports_ensure; [cbn; by apply cancel_mono|intros _]). cbn. by apply cancel_mono.
Qed.

Lemma remove_expired_reports s o ms id :
  minv (Call := Call) cfg s →
  reports_le (remove_expired_declared cfg) (remove_expired (D := D) cfg o ms id s).
Proof.
  intros Hinv. pose proof (vm_size _ Hcfg) as [? ?]. unfold remove_expired, remove_expired_declared.
  apply reports_signed; intros who. apply reports_ok_or; [cbn; in_sum|intros d _].
  apply reports_ensure; [cbn; in_sum|intros _]. apply reports_ok_or; [cbn; in_sum|intros p Hp].
  destruct (mi_proposals _ s Hinv _ _ _ Hp) as (dd & _ & Hok). pose proof (po_size _ _ _ _ Hok).
  do 2 (apply reports_ensure; [cbn; by apply remove_expired_mono|intros _]).
  cbn. by apply remove_expired_mono.
Qed.

Lemma claim_deposits_reports s o ms :
  minv (Call := Call) cfg s →
  reports_le (claim_deposits_declared cfg) (claim_deposits (D := D) cfg o ms s).
Proof.
  intros Hinv. pose proof (vm_size _ Hcfg) as [? ?]. pose proof (vm_total _ Hcfg) as [? ?].
  unfold claim_deposits, claim_deposits_declared. apply reports_signed; intros who.
  assert (Hr1 : weight_le (reads (m_db cfg) 1) (MultisigWeights.claim_deposits (m_db cfg)
    (MaxTotalProposalsInStorage cfg) (MaxTotalProposalsInStorage cfg) (MaxCallSize cfg))).
  { unfold MultisigWeights.claim_deposits.
    assert (Hok : ∀ k, 0 ≤ k → weight_ok (reads (m_db cfg) k) ∧ weight_ok (writes (m_db cfg) k)).
    { intros k ?. split; [apply reads_ok|apply writes_ok]; by try apply (vm_db _ Hcfg). }
    assert (Hmul : ∀ r p n, in_u 64 r → in_u 64 p → 0 ≤ n → weight_ok (weight_mul (MultisigWeights.parts r p) n)).
    { intros. by apply weight_mul_ok. }
    assert (0 ≤ sat_mul 64 1 (MaxTotalProposalsInStorage cfg)) by u_lia.
    do 4 (etrans; [|apply weight_le_add_l; [repeat first [apply weight_add_ok|apply Hok|apply Hmul|apply parts_ok]; u_lia
       |first [apply Hok; u_lia|apply Hmul; u_lia]]]).
    etrans; [|apply weight_le_add_r; [repeat first [apply weight_add_ok|apply Hok|apply Hmul|apply parts_ok]; u_lia
      |apply Hok; u_lia]].
    apply reads_mono; [apply (vm_db _ Hcfg)|lia]. }
  apply reports_ok_or; [done|intros d Hd]. apply reports_ensure; [done|intros _].
  pose proof (stored_is_active cfg Hcfg s ms d Hinv Hd) as Hst.
  destruct (active_proposals_sum cfg Hcfg s ms d Hinv Hd) as [_ Hact].
  unfold cleanup_expired_proposals_for_signer.
  set (entries := iter_prefix ms (Proposals s)) in *.
  set (exps := omap _ entries). destruct (foldl _ (s, 0) exps) as [s2 tot]. cbn.
  assert (Hexps : Z.of_nat (length exps) ≤ Z.of_nat (length entries)).
  { unfold exps. clear. induction entries as [|e l IH]; [done|]. cbn. destruct (is_expired_of _ _ _); cbn; lia. }
  rewrite (Z.mod_small (Z.of_nat (length entries))) by lia.
  apply claim_deposits_mono; [lia|lia|].
  destruct (Z.ltb_spec 0 (Z.of_nat (length entries))); [|lia].
  assert (Hbytes : sum_by (λ e, Z.of_nat (length (call e.2))) entries ≤ MaxCallSize cfg * Z.of_nat (length entries)).
  { rewrite <- sum_by_const. apply sum_by_le. intros [id p] Hin. apply iter_prefix_elem in Hin.
    destruct (mi_proposals _ s Hinv _ _ _ Hin) as (dd & _ & Hok). apply (po_size _ _ _ _ Hok). }
  apply Z.div_le_upper_bound; [done|]. etrans; [apply Z.mod_le; [|lia]|lia].
  apply sum_by_nonneg. lia.
Qed.

Lemma execute_reports dispatch s o ms id (c : Call) :
  minv (Call := Call) cfg s → weight_ok (call_weight c) →
  Z.of_nat (length (call_encode c)) ≤ u_max 32 →
  (∀ o s w, (dispatch c o s).2.1 = Some w → weight_le w (call_weight c)) →
  reports_le (execute_declared cfg c) (execute (D := D) dispatch cfg o ms id c s).
Proof.
  intros Hinv Hwc Hlen Hdisp. pose proof (vm_size _ Hcfg) as [? ?].
  set (W := execute_declared cfg c).
  set (n := Z.max (MaxCallSize cfg) (Z.of_nat (length (call_encode c)))).
  assert (Hok : weight_ok (MultisigWeights.execute (m_db cfg) n)).
  { unfold MultisigWeights.execute. repeat apply weight_add_ok; try apply parts_ok; try u_lia;
      first [apply reads_ok|apply writes_ok|apply weight_mul_ok]; try apply (vm_db _ Hcfg); try apply parts_ok; u_lia. }
  assert (HW : weight_le (MultisigWeights.execute (m_db cfg) n) W) by (by apply weight_le_add_l).
  assert (Hr : ∀ k, 0 ≤ k ≤ 3 → weight_le (reads (m_db cfg) k) W).
  { intros k Hk. etrans; [|exact HW]. unfold MultisigWeights.execute. in_sum. }
  assert (Heff : errs_in (err_le W) (execute_effects (D := D) cfg o ms id c s)).
  { unfold execute_effects. destruct o as [|who|]; [done| |done].
    apply (errs_in_bind _ (Ok who)); [done|intros ? [= <-]].
    apply errs_in_ok_or; [cbn; apply Hr; lia|intros d _]. apply errs_in_ensure; [cbn; apply Hr; lia|intros _].
    apply errs_in_ok_or; [cbn; apply Hr; lia|intros p Hp].
    destruct (mi_proposals _ s Hinv _ _ _ Hp) as (dd & _ & Hpo). pose proof (po_size _ _ _ _ Hpo).
    assert (Hbw : weight_le (MultisigWeights.execute (m_db cfg)
      (Z.max (Z.of_nat (length (call p))) (Z.of_nat (length (call_encode c))))) W).
    { etrans; [apply (execute_mono _ n)|exact HW]. lia. }
    do 5 (apply errs_in_ensure; [done|intros _]). done. }
  unfold execute. destruct (execute_effects cfg o ms id c s) as [[[s1 p] bw]|e] eqn:He; [|exact Heff].
  cbn. destruct (dispatch c (Signed ms) s1) as [s2 [post out]] eqn:Hd. cbn.
  destruct o as [|who|]; [done| |done].
  destruct (execute_effects_Ok _ _ _ _ _ _ _ _ _ He) as (d & _ & _ & Hp & _ & _ & _ & _ & _ & _ & ->).
  destruct (mi_proposals _ s Hinv _ _ _ Hp) as (dd & _ & Hpo). pose proof (po_size _ _ _ _ Hpo).
  unfold W, execute_declared. apply weight_add_mono; [apply execute_mono; lia|].
  destruct post as [w|]; cbn; [|done]. eapply (Hdisp (Signed ms) s1). by rewrite Hd.
Qed.
End ReportedWeights.

(** ** The properties *)
Section Theorems.
Context {Call C D E X : Type} `{RuntimeCallOps Call, ReservableLaws C D, HighSecurityInspector E Call}.
Implicit Types (s : Multisig C E X) (cfg : MultisigConfig).

Definition m_reachable cfg (tr : list Action) s : Prop :=
  ∃ s0, m_genesis s0 ∧ mrun (Call := Call) (D := D) cfg tr s0 s.

Lemma reachable_facts cfg tr s :
  valid_multisig_config cfg → m_reachable cfg tr s → minv (Call := Call) cfg s ∧ hist tr s.
Proof.
  intros Hcfg (s0 & Hg & Hr). destruct (genesis_ok (Call := Call) cfg s0 Hg) as [Hi Hh].
  destruct (mrun_preserves cfg Hcfg tr s0 s Hr [] Hi Hh) as (? & ? & _). done.
Qed.

(** C17: A multisig call is executed only when at least [threshold] distinct
    signers have each signed, before it, exactly the bytes that are executed
    (by proposing or approving them), the executor is a signer, and no
    proposal is ever executed twice, whatever the dispatched calls do to the
    pallet in between. *)
Theorem execution_is_authorised cfg tr s i who ms id bytes :
  valid_multisig_config cfg → m_reachable cfg tr s →
  tr !! i = Some (Executed who ms id bytes) →
  (∃ d A, Multisigs s !! ms = Some d ∧ who ∈ signers d ∧ NoDup A ∧
     threshold d ≤ Z.of_nat (length A) ∧
     ∀ a, a ∈ A → a ∈ signers d ∧ endorsed (take i tr) a ms id bytes) ∧
  (∀ j who' bytes', tr !! j = Some (Executed who' ms id bytes') → j = i).
Proof.
  intros Hcfg Hr Hi. destruct (reachable_facts cfg tr s Hcfg Hr) as [_ [_ Hex Hon]]. split.
  - destruct (Hex _ _ _ _ _ Hi) as (d & A & ? & ? & _ & _ & ? & ? & ?). by exists d, A.
  - intros j who' bytes' Hj. by eapply Hon.
Qed.

(** C16: The pallet refines the abstract voting machine: every call is a
    sequence of its steps, and whenever the pallet executes a call the machine
    allows that execution and closes the vote. *)
Theorem multisig_refines_voting cfg tr s :
  valid_multisig_config cfg → m_reachable cfg tr s →
  (∀ who k s', run_call (Call := Call) (D := D) cfg who k s = Ok s' →
     rtc (Spec.step (block_number s)) (abs s) (abs s')) ∧
  (∀ who ms id (c : Call) s' p w,
     execute_effects (D := D) cfg (Signed who) ms id c s = Ok (s', p, w) →
     Spec.may_execute (block_number s) (abs s) who ms id (call_encode c) ∧
     Spec.votes (abs s') = delete (ms, id) (Spec.votes (abs s)) ∧
     Spec.policies (abs s') = Spec.policies (abs s)).
Proof.
  intros Hcfg Hr. destruct (reachable_facts cfg tr s Hcfg Hr) as [Hi _]. split.
  - intros who k s'. by apply run_call_simulates.
  - intros who ms id c s' p w. by apply execute_simulates.
Qed.

(** Deposits are exact: every call changes each account's reserved balance
    by exactly the change of the deposits stored for it, and removing a
    proposal hands its stored deposit back to its proposer in full, touching
    no other account and no issuance. *)
Theorem deposits_are_exact cfg tr s :
  valid_multisig_config cfg → m_reachable cfg tr s →
  (∀ who k s' a, call_in_range cfg k → run_call (Call := Call) (D := D) cfg who k s = Ok s' →
     reserved_balance (m_ledger s') a - reserved_balance (m_ledger s) a =
     deposits_of s' a - deposits_of s a) ∧
  (∀ ms id p a, Proposals s !! (ms, id) = Some p →
     let s' := remove_proposal_and_return_deposit (D := D) ms id (proposer p) (deposit p) s in
     let back := if bool_decide (proposer p = a) then deposit p else 0 in
     free_balance (m_ledger s') a = free_balance (m_ledger s) a + back ∧
     reserved_balance (m_ledger s') a = reserved_balance (m_ledger s) a - back ∧
     issuance (m_ledger s') = issuance (m_ledger s)).
Proof.
  intros Hcfg Hr. destruct (reachable_facts cfg tr s Hcfg Hr) as [Hi _]. split.
  - intros who k s' a Hk Hc. destruct (run_call_preserves cfg Hcfg _ _ _ _ Hi Hk Hc) as (_ & _ & Ho).
    specialize (Ho a). unfold outside in Ho. lia.
  - intros ms id p a Hp s' back. destruct (drop_ledger cfg s ms id p a Hi Hp) as (Ho & Hf & His).
    split_and!; [done| |done]. fold s' in Ho, Hf, His.
    assert (Hd : deposits_of s a = back + deposits_of s' a).
    { unfold deposits_of. by rewrite (map_sum_delete _ _ (ms, id) p). }
    lia.
Qed.

(** No filibuster: a signer holding fewer proposals than its share
    [MaxTotalProposalsInStorage / signers] is never refused for want of room,
    however many the other signers have open; and the proposals stored for a
    multisig never exceed [MaxTotalProposalsInStorage]. *)
Theorem signer_share_is_guaranteed cfg tr s ms d who :
  valid_multisig_config cfg → m_reachable cfg tr s → Multisigs s !! ms = Some d →
  who ∈ signers d → default 0 (proposals_per_signer d !! who) < quota cfg d →
  (∀ bytes exp w e,
     propose (Call := Call) (D := D) cfg (Signed who) ms bytes exp s = Err (w, MModule e) →
     e ≠ TooManyProposalsInStorage ∧ e ≠ TooManyProposalsPerSigner) ∧
  Z.of_nat (length (iter_prefix ms (Proposals s))) ≤ MaxTotalProposalsInStorage cfg.
Proof.
  intros Hcfg Hr Hd Hw Hq. destruct (reachable_facts cfg tr s Hcfg Hr) as [Hi _]. split.
  - intros bytes exp w e Herr.
    set (P := λ e : MErr, ∀ x, e.2 = MModule x → x ≠ TooManyProposalsInStorage ∧ x ≠ TooManyProposalsPerSigner).
    assert (HP : errs_in P (propose (Call := Call) (D := D) cfg (Signed who) ms bytes exp s)).
    { pose proof (under_quota_has_room cfg Hcfg s ms d who Hi Hd Hw Hq) as Hroom.
      unfold propose, quota in *. apply (errs_in_bind P (Ok who)); [done|intros ? [= <-]]. rewrite Hd.
      apply errs_in_ok_or; [by intros ? [= <-]|intros ? [= <-]].
      apply errs_in_ensure; [by intros ? [= <-]|intros _].
      rewrite (proj2 (Z.ltb_lt _ _) Hroom), (proj2 (Z.ltb_lt _ _) Hq).
      do 2 (apply (errs_in_bind P (Ok tt)); [done|intros _ _]).
      do 9 (errs_step; [first [by intros ? [= <-]|by intros ? ? [= <-]]|intros]).
      apply errs_in_bind; [|by intros [] _]. unfold note_proposal.
      do 2 (apply errs_in_ok_or; [by intros ? [= <-]|intros]). done. }
    rewrite Herr in HP. by apply HP.
  - rewrite (stored_is_active cfg Hcfg s ms d Hi Hd). by apply (active_proposals_sum cfg Hcfg s ms).
Qed.

(** No call but [propose] ever reports more weight than it declared, on
    success or on any error path, given that the dispatched inner call keeps
    within its own declaration. *)
Theorem reported_weight_is_covered cfg tr s origin ms id bytes (c : Call) dispatch :
  valid_multisig_config cfg → m_reachable cfg tr s → weight_ok (call_weight c) →
  Z.of_nat (length (call_encode c)) ≤ u_max 32 →
  (∀ o s w, (dispatch c o s).2.1 = Some w → weight_le w (call_weight c)) →
  reports_le (approve_declared cfg) (approve cfg origin ms id bytes s) ∧
  reports_le (cancel_declared cfg) (cancel (D := D) cfg origin ms id s) ∧
  reports_le (remove_expired_declared cfg) (remove_expired (D := D) cfg origin ms id s) ∧
  reports_le (claim_deposits_declared cfg) (claim_deposits (D := D) cfg origin ms s) ∧
  reports_le (execute_declared cfg c) (execute (D := D) dispatch cfg origin ms id c s).
Proof.
  intros Hcfg Hr Hw Hlen Hd. destruct (reachable_facts cfg tr s Hcfg Hr) as [Hi _].
  split_and!; [by apply approve_reports|by apply cancel_reports|by apply remove_expired_reports
    |by apply claim_deposits_reports|by apply execute_reports].
Qed.

(** [propose] can: its annotation uses the high-security benchmark as the worst
    case, which was measured below the ordinary one, so on an ordinary multisig
    a call of the maximal inner weight makes it report more than it
    declared. *)
Theorem propose_overreports_at_the_limit cfg s who ms bytes exp s' w :
  propose (Call := Call) (D := D) cfg (Signed who) ms bytes exp s = Ok (s', w) →
  is_high_security (Call := Call) (m_env s) ms = false →
  (∀ c : Call, decode_with_depth_limit MAX_MULTISIG_CALL_DEPTH bytes = Some c →
     call_weight c = MaxInnerCallWeight cfg) →
  db_ok (m_db cfg) → 4 * db_read (m_db cfg) + 4 * db_write (m_db cfg) + 1000 * Z.of_nat (length bytes)
    + ref_time (MaxInnerCallWeight cfg) + 100000000 ≤ u_max 64 →
  weight_ok (MaxInnerCallWeight cfg) →
  ∃ a, w = Some a ∧ ref_time (propose_declared cfg bytes) < ref_time a.
Proof.
  intros Hp Hhs Hc [[??] [??]] Hfit [[??] _].
  destruct (propose_Ok _ _ _ _ _ _ _ _ Hp) as
    (d & dc & c1 & c2 & _ & _ & _ & Hdec & _ & _ & _ & _ & _ & _ & _ & _ & _ & _ & _ & ->).
  rewrite Hhs, (Hc _ Hdec). eexists. split; [done|].
  unfold propose_declared, MultisigWeights.propose, MultisigWeights.propose_high_security.
  cbn. u_unfold. lia.
Qed.

(** An approved, unexpired proposal executes: any signer who resubmits the
    stored call gets it dispatched, whatever the dispatch answers, and finds
    the proposal gone and its deposit returned before the dispatch starts. *)
Theorem ready_proposal_executes cfg tr s ms id d p who (c : Call) dispatch :
  valid_multisig_config cfg → m_reachable cfg tr s →
  Multisigs s !! ms = Some d → Proposals s !! (ms, id) = Some p → who ∈ signers d →
  threshold d ≤ Z.of_nat (length (approvals p)) → block_number s ≤ expiry p →
  call_encode c = call p → weight_le (call_weight c) (MaxInnerCallWeight cfg) →
  is_call_allowed (m_env s) ms c = true →
  let s1 := remove_proposal_and_return_deposit (D := D) ms id (proposer p) (deposit p) s in
  Proposals s1 !! (ms, id) = None ∧
  ∃ w, execute (D := D) dispatch cfg (Signed who) ms id c s =
    Ok (execute_finish ms id p (dispatch c (Signed ms) s1).2.2 (dispatch c (Signed ms) s1).1, w).
Proof.
  intros Hcfg Hr Hd Hp Hw Ht Hexp Henc Hwt Hal s1.
  destruct (reachable_facts cfg tr s Hcfg Hr) as [Hi _].
  destruct (mi_proposals _ s Hi _ _ _ Hp) as (d2 & Hd2 & Hok). assert (d2 = d) as -> by congruence.
  pose proof (proj2 (po_status _ _ _ _ Hok) Ht) as Hst. split; [cbn; apply lookup_delete_eq|].
  assert (Heff : ∃ w, execute_effects (D := D) cfg (Signed who) ms id c s = Ok (s1, p, w)).
  { eexists. unfold execute_effects. rewrite Hd, Hp. cbn -[MultisigWeights.execute].
    rewrite !bool_decide_true, (proj2 (Z.leb_le _ _) Hexp) by done. cbn -[MultisigWeights.execute].
    by rewrite (proj2 (any_gt_false _ _) Hwt), Hal. }
  destruct Heff as [w Heff]. unfold execute. rewrite Heff. cbn.
  destruct (dispatch c (Signed ms) s1) as [s2 [post out]]. by eexists.
Qed.

(** A multisig address identifies its policy: it depends on the signers as
    a set only, and two different policies can share an address only through a
    collision of the hash. *)
Theorem address_identifies_policy cfg l t n l' t' n' :
  length (PalletId cfg) = 8%nat → (∀ x, length (Hashing cfg x) = 32%nat) →
  Forall (λ a, length a = 32%nat) l → Forall (λ a, length a = 32%nat) l' →
  in_u 32 (Z.of_nat (length l)) → in_u 32 (Z.of_nat (length l')) →
  in_u 32 t → in_u 32 t' → in_u 64 n → in_u 64 n' →
  (l ≡ₚ l' → t = t' → n = n' →
     derive_multisig_address cfg l t n = derive_multisig_address cfg l' t' n') ∧
  (derive_multisig_address cfg l t n = derive_multisig_address cfg l' t' n' →
     (l ≡ₚ l' ∧ t = t' ∧ n = n') ∨ ∃ x y, x ≠ y ∧ Hashing cfg x = Hashing cfg y).
Proof.
  intros Hpal Hh Hl Hl' Hlen Hlen' Ht Ht' Hn Hn'. split.
  - intros Hp -> ->. unfold derive_multisig_address. by rewrite (sort_signers_unique l l' Hp).
  - unfold derive_multisig_address, derive_multisig_address_inner.
    rewrite !take_app_length' by (symmetry; apply Hh). intros Heq.
    set (x := address_data cfg (sort_signers l) t n) in *.
    set (y := address_data cfg (sort_signers l') t' n') in *.
    destruct (decide (x = y)) as [Hxy|Hne]; [left|right; by exists x, y].
    unfold x, y, address_data in Hxy. apply app_inv_head in Hxy. rewrite <- !app_assoc in Hxy.
    pose proof (sort_signers_perm l) as Hp1. pose proof (sort_signers_perm l') as Hp2.
    apply compact_u32_app_inj in Hxy as [Hll Hxy]; [|by rewrite Hp1|by rewrite Hp2].
    apply (concat_blocks_inj 32) in Hxy as [Hs Hxy]; [|by rewrite Hp1|by rewrite Hp2|lia].
    apply app_inj_1 in Hxy as [Hb1 Hb2]; [|by rewrite !length_le_bytes].
    split_and!; [by rewrite <- Hp1, Hs|by apply (le_bytes_inj 4) in Hb1|by apply (le_bytes_inj 8) in Hb2].
Qed.
End Theorems.
