(* ===== verification/MultisigWitnesses.v ===== *)
(** * Multisig: a concrete run

    A ledger, a call type and a two-of-three multisig that proposes, approves
    and executes a call, at which the multisig theorems are applied. *)

From stdpp Require Import base option list numbers gmap fin_maps sorting relations.
From S2P Require Import Prelude Crypto Interfaces Frame Multisig MultisigProps MultisigTheorems.
#[local] Open Scope Z_scope.

Module MultisigExample.
(** ** A ledger *)
Record Books := { accounts : gmap Hash256 (Z * N); supply : Z }.
Definition free (c : Books) (a : Hash256) : Z := (default (0, 0%N) (accounts c !! a)).1.
Definition held (c : Books) (a : Hash256) : N := (default (0, 0%N) (accounts c !! a)).2.
Definition set_account (c : Books) (a : Hash256) (f : Z) (h : N) : gmap Hash256 (Z * N) :=
  <[a := (f, h)]> (accounts c).

#[export] Instance books_ops : Reservable Books unit := {|
  free_balance := free;
  reserved_balance c a := Z.of_N (held c a);
  issuance := supply;
  withdraw c who v :=
    if v <=? free c who
    then Ok {| accounts := set_account c who (free c who - v) (held c who); supply := supply c - v |}
    else Err tt;
  reserve c who v :=
    if v <=? free c who
    then Ok {| accounts := set_account c who (free c who - v) (Z.to_N (Z.of_N (held c who) + v));
               supply := supply c |}
    else Err tt;
  unreserve c who v :=
    let moved := Z.min v (Z.of_N (held c who)) in
    ({| accounts := set_account c who (free c who + moved) (Z.to_N (Z.of_N (held c who) - moved));
        supply := supply c |}, v - moved);
|}.

Lemma set_account_eq c a f h s : free {| accounts := set_account c a f h; supply := s |} a = f ∧
  held {| accounts := set_account c a f h; supply := s |} a = h.
Proof. unfold free, held, set_account. cbn. by rewrite lookup_insert_eq. Qed.

Lemma set_account_ne c a f h s b : b ≠ a →
  free {| accounts := set_account c a f h; supply := s |} b = free c b ∧
  held {| accounts := set_account c a f h; supply := s |} b = held c b.
Proof. intros Hne. unfold free, held, set_account. cbn. by rewrite lookup_insert_ne. Qed.

#[export] Instance books_laws : ReservableLaws Books unit.
Proof.
  split.
  - intros c a. cbn. lia.
  - intros c c' who v Hv Hw. cbn in *. destruct (v <=? free c who); simplify_eq.
    pose proof (set_account_eq c who (free c who - v) (held c who) (supply c - v)) as [Hf Hh].
    split_and!; [done| | |done].
    + intros a Ha. by destruct (set_account_ne c who (free c who - v) (held c who) (supply c - v) a Ha).
    + intros a. destruct (decide (a = who)) as [->|Ha]; [by rewrite Hh|].
      by destruct (set_account_ne c who (free c who - v) (held c who) (supply c - v) a Ha) as [_ ->].
  - intros c c' who v Hv Hw. cbn in *. destruct (v <=? free c who); simplify_eq.
    set (h := Z.to_N (Z.of_N (held c who) + v)) in *.
    pose proof (set_account_eq c who (free c who - v) h (supply c)) as [Hf Hh].
    split_and!; [done|rewrite Hh; unfold h; lia| |done].
    intros a Ha. by destruct (set_account_ne c who (free c who - v) h (supply c) a Ha) as [-> ->].
  - intros c c' who v r Hv Hw. cbn in *. simplify_eq.
    set (m := Z.min v (Z.of_N (held c who))) in *.
    set (h := Z.to_N (Z.of_N (held c who) - m)) in *.
    pose proof (set_account_eq c who (free c who + m) h (supply c)) as [Hf Hh].
    split_and!; [done|done|rewrite Hh; unfold h; lia| |done].
    intros a Ha. by destruct (set_account_ne c who (free c who + m) h (supply c) a Ha) as [-> ->].
Qed.

(** ** Calls: opaque bytes of unit weight, and no high-security accounts *)
#[export] Instance bytes_call : RuntimeCallOps (list Z) := {|
  call_encode c := c;
  decode_with_depth_limit _ bs := Some bs;
  call_weight _ := {| ref_time := 1000; proof_size := 10 |};
|}.
#[export] Instance no_high_security : HighSecurityInspector unit (list Z) := {|
  is_high_security _ _ := false;
  is_whitelisted _ := true;
  guardian_of _ _ := None;
|}.

Definition account (n : Z) : Hash256 := replicate 31 0 ++ [n].
Definition alice := account 1.
Definition bob := account 2.
Definition carol := account 3.

Definition cfg : MultisigConfig := {|
  MaxSigners := 100; MaxTotalProposalsInStorage := 200; MaxCallSize := 10240;
  MultisigFee := 30; ProposalDeposit := 10; ProposalFee := 5; SignerStepFactor := 10000;
  PalletId := [112; 121; 47; 109; 108; 116; 115; 103]; MaxExpiryDuration := 10080;
  MaxInnerCallWeight := {| ref_time := 1000; proof_size := 10 |};
  m_db := {| db_read := 25000000; db_write := 100000000 |}; block_bits := 32;
  Hashing := ToyCrypto.sponge;
|}.

Lemma multisig_cfg_valid : valid_multisig_config cfg.
Proof. split; try split; cbn; u_unfold; try split; lia. Qed.

Abbreviation state := (Multisig Books unit unit).
Definition books0 : Books := {| accounts := <[alice := (100, 0%N)]> (<[bob := (100, 0%N)]> ∅); supply := 200 |}.
Definition st0 : state :=
  {| Multisigs := ∅; Proposals := ∅; m_events := []; block_number := 1; m_ledger := books0; m_env := tt |}.

Definition policy : list Hash256 := [carol; alice; bob].
Definition ms : Hash256 := derive_multisig_address cfg policy 2 7.
Definition payload : list Z := [6; 0; 1; 2; 3].
Definition step1 : result MErr state := run_call (Call := list Z) (D := unit) cfg alice (CallCreate policy 2 7) st0.
Definition st1 : state := unwrap_or step1 st0.
Definition step2 : result MErr state := run_call (Call := list Z) (D := unit) cfg alice (CallPropose ms payload 50) st1.
Definition st2 : state := unwrap_or step2 st0.
Definition step3 : result MErr state := run_call (Call := list Z) (D := unit) cfg bob (CallApprove ms 0 payload) st2.
Definition st3 : state := unwrap_or step3 st0.
Definition prop3 : ProposalData :=
  default {| proposer := []; call := []; expiry := 0; approvals := []; deposit := 0; status := Active |}
    (Proposals st3 !! (ms, 0)).
Definition data3 : MultisigData :=
  default {| creator := []; signers := []; threshold := 0; proposal_nonce := 0; proposals_per_signer := ∅ |}
    (Multisigs st3 !! ms).
Definition nop (c : list Z) (o : RuntimeOrigin) (s : state) : state * (option Weight * result unit unit) :=
  (s, (Some {| ref_time := 900; proof_size := 10 |}, Ok tt)).
Definition st4 : state :=
  execute_finish ms 0 prop3 (Ok tt) (remove_proposal_and_return_deposit (D := unit) ms 0 (proposer prop3) (deposit prop3) st3).

Definition trace3 : list Action := [Housekeeping alice; Proposed alice ms 0 payload; Endorsed bob ms 0 payload].
Definition trace4 : list Action := trace3 ++ [Executed bob ms 0 payload].

Lemma step1_ok : step1 = Ok st1.
Proof. exact (unwrap_or_Ok step1 st0 (eq_refl true <: is_ok step1 = true)). Qed.
Lemma step2_ok : step2 = Ok st2.
Proof. exact (unwrap_or_Ok step2 st0 (eq_refl true <: is_ok step2 = true)). Qed.
Lemma step3_ok : step3 = Ok st3.
Proof. exact (unwrap_or_Ok step3 st0 (eq_refl true <: is_ok step3 = true)). Qed.

Lemma create_in_range : call_in_range cfg (CallCreate policy 2 7).
Proof. split_and!; [repeat constructor|u_lia|u_lia]. Qed.
Lemma propose_in_range : call_in_range cfg (CallPropose ms payload 50).
Proof. by vm_compute. Qed.

Lemma reach3 : m_reachable (Call := list Z) (D := unit) cfg trace3 st3.
Proof.
  exists st0. split; [done|].
  change trace3 with ([] ++ [action_of alice (CallCreate policy 2 7) st0]
    ++ [action_of alice (CallPropose ms payload 50) st1] ++ [action_of bob (CallApprove ms 0 payload) st2]).
  rewrite !app_assoc.
  eapply mrun_call; [|done|exact step3_ok]. eapply mrun_call; [|exact propose_in_range|exact step2_ok].
  eapply mrun_call; [constructor|exact create_in_range|exact step1_ok].
Qed.

Lemma effects_ok :
  execute_effects (D := unit) cfg (Signed bob) ms 0 payload st3 =
  Ok (remove_proposal_and_return_deposit (D := unit) ms 0 (proposer prop3) (deposit prop3) st3, prop3,
      MultisigWeights.execute (m_db cfg) 5).
Proof. vm_compute. reflexivity. Qed.

Lemma reach4 : m_reachable (Call := list Z) (D := unit) cfg trace4 st4.
Proof.
  destruct reach3 as (s0 & Hg & Hr). exists s0. split; [done|].
  unfold trace4, st4. rewrite <- (app_nil_r (trace3 ++ _)).
  exact (mrun_execute cfg trace3 [] s0 st3 _ _ bob ms 0 payload prop3 _ (Ok tt) Hr effects_ok (mrun_nil cfg _)).
Qed.

(** ** The theorems at this run *)
Definition present {A} (o : option A) : bool := match o with Some _ => true | None => false end.
Lemma default_Some {A} (o : option A) (a : A) : present o = true → o = Some (default a o).
Proof. by destruct o. Qed.
Lemma data3_ok : Multisigs st3 !! ms = Some data3.
Proof.
  assert (H : present (Multisigs st3 !! ms) = true) by (vm_compute; reflexivity).
  exact (default_Some _ _ H).
Qed.
Lemma prop3_ok : Proposals st3 !! (ms, 0) = Some prop3.
Proof.
  assert (H : present (Proposals st3 !! (ms, 0)) = true) by (vm_compute; reflexivity).
  exact (default_Some _ _ H).
Qed.
Lemma bob_signs : bob ∈ signers data3.
Proof. apply (bool_decide_unpack _). by vm_compute. Qed.

Lemma execution_is_authorised_witness :
  trace4 !! 3%nat = Some (Executed bob ms 0 payload) ∧
  ∃ d A, Multisigs st4 !! ms = Some d ∧ bob ∈ signers d ∧ NoDup A ∧
    threshold d ≤ Z.of_nat (length A) ∧
    ∀ a, a ∈ A → a ∈ signers d ∧ endorsed (take 3 trace4) a ms 0 payload.
Proof.
  split; [reflexivity|].
  exact (proj1 (execution_is_authorised cfg trace4 st4 3 bob ms 0 payload multisig_cfg_valid reach4 eq_refl)).
Defined.

Lemma multisig_refines_voting_witness :
  Spec.may_execute (block_number st3) (abs st3) bob ms 0 payload.
Proof.
  exact (proj1 (proj2 (multisig_refines_voting cfg trace3 st3 multisig_cfg_valid reach3) _ _ _ _ _ _ _ effects_ok)).
Defined.

Lemma deposits_are_exact_witness :
  free_balance (m_ledger (remove_proposal_and_return_deposit (D := unit) ms 0 (proposer prop3) (deposit prop3) st3)) alice
  = free_balance (m_ledger st3) alice + (if bool_decide (proposer prop3 = alice) then deposit prop3 else 0).
Proof.
  exact (proj1 (proj2 (deposits_are_exact cfg trace3 st3 multisig_cfg_valid reach3) ms 0 prop3 alice prop3_ok)).
Defined.

Lemma signer_share_is_guaranteed_witness :
  ∀ bytes exp w e,
    propose (Call := list Z) (D := unit) cfg (Signed bob) ms bytes exp st3 = Err (w, MModule e) →
    e ≠ TooManyProposalsInStorage ∧ e ≠ TooManyProposalsPerSigner.
Proof.
  refine (proj1 (signer_share_is_guaranteed cfg trace3 st3 ms data3 bob multisig_cfg_valid reach3 data3_ok bob_signs _)).
  apply (bool_decide_unpack _). by vm_compute.
Defined.

Lemma reported_weight_is_covered_witness :
  reports_le (execute_declared cfg payload) (execute (D := unit) nop cfg (Signed bob) ms 0 payload st3).
Proof.
  assert (Hw : ∀ (o : RuntimeOrigin) (s : state) w, (nop payload o s).2.1 = Some w → weight_le w (call_weight payload)).
  { intros o s w [= <-]. split; cbn; lia. }
  assert (Hok : weight_ok (call_weight payload)) by (split; cbn; u_lia).
  assert (Hlen : Z.of_nat (length (call_encode payload)) ≤ u_max 32) by (cbn; u_lia).
  exact (proj2 (proj2 (proj2 (proj2 (reported_weight_is_covered cfg trace3 st3 (Signed bob) ms 0 payload payload nop
    multisig_cfg_valid reach3 Hok Hlen Hw))))).
Defined.

Lemma ready_proposal_executes_witness :
  ∃ w, execute (D := unit) nop cfg (Signed bob) ms 0 payload st3 = Ok (st4, w).
Proof.
  refine (proj2 (ready_proposal_executes cfg trace3 st3 ms 0 data3 prop3 bob payload nop multisig_cfg_valid reach3
    data3_ok prop3_ok bob_signs _ _ _ _ _)).
  - apply (bool_decide_unpack _). by vm_compute.
  - apply (bool_decide_unpack _). by vm_compute.
  - by vm_compute.
  - split; cbn; lia.
  - reflexivity.
Defined.

Lemma address_identifies_policy_witness :
  derive_multisig_address cfg policy 2 7 = derive_multisig_address cfg [alice; bob; carol] 2 7.
Proof.
  assert (Hh : ∀ x, length (Hashing cfg x) = 32%nat).
  { intros x. by apply digest_of_limbs_digest. }
  assert (Hl : ∀ l, l = policy ∨ l = [alice; bob; carol] →
    Forall (λ a, length a = 32%nat) l ∧ in_u 32 (Z.of_nat (length l))).
  { intros l [-> | ->]; (split; [repeat constructor|cbn; u_lia]). }
  destruct (Hl policy (or_introl eq_refl)) as [Hl1 Hn1].
  destruct (Hl [alice; bob; carol] (or_intror eq_refl)) as [Hl2 Hn2].
  assert (H2 : in_u 32 2) by u_lia. assert (H7 : in_u 64 7) by u_lia.
  refine (proj1 (address_identifies_policy cfg policy 2 7 [alice; bob; carol] 2 7 eq_refl Hh Hl1 Hl2 Hn1 Hn2
    H2 H2 H7 H7) _ eq_refl eq_refl).
  exact (Permutation_app_comm [carol] [alice; bob]).
Defined.

(** The corner where [propose] reports more than it declared is reached. *)
Lemma propose_overreports_at_the_limit_witness :
  ∃ s w a, propose (Call := list Z) (D := unit) cfg (Signed alice) ms payload 50 st1 = Ok (s, w) ∧
    w = Some a ∧ ref_time (propose_declared cfg payload) < ref_time a.
Proof.
  destruct (propose (Call := list Z) (D := unit) cfg (Signed alice) ms payload 50 st1) as [[s w]|e] eqn:Hp.
  - destruct (propose_overreports_at_the_limit cfg st1 alice ms payload 50 s w Hp) as (a & Ha & Hlt);
      [reflexivity|done|split; cbn; u_lia|cbn; u_lia|split; cbn; u_lia|].
    exists s, w, a. exact (conj eq_refl (conj Ha Hlt)).
  - exfalso. assert (Hok : is_ok (propose (Call := list Z) (D := unit) cfg (Signed alice) ms payload 50 st1) = true)
      by (by vm_compute). by rewrite Hp in Hok.
Defined.
End MultisigExample.
