(* ===== verification/Runtime.v ===== *)
(** * Runtime: the call type and the rules every dispatch meets

    [chain/runtime/src/lib.rs] (the pallets whose calls exist),
    [chain/runtime/src/configs/mod.rs] ([QneroCallFilter] and the
    high-security whitelist), [chain/runtime/src/transaction_extensions.rs]
    (the signed extension and the tip rule) and the dispatch loop of
    [chain/pallets/utility/src/lib.rs]. The codec and the weights of the call
    type are parameters. *)

From stdpp Require Import base option list numbers gmap.
From S2P Require Import Prelude Crypto Interfaces Frame SchedulerTime Multisig.
#[local] Open Scope Z_scope.

(** The dispatchables of each pallet whose calls are enabled. *)
Inductive SystemCall := Remark (remark : list Z) | RemarkWithEvent (remark : list Z) | DoTask (task : list Z).
Inductive BalancesCall :=
| TransferAllowDeath (dest : MultiAddress) (value : Z)
| TransferKeepAlive (dest : MultiAddress) (value : Z)
| TransferAll (dest : MultiAddress) (keep_alive : bool)
| Burn (value : Z) (keep_alive : bool).
Inductive ReversibleCall :=
| SetHighSecurity (delay : BlockNumberOrTimestamp) (guardian : Hash256)
| Cancel (tx_id : Hash256)
| ExecuteTransfer (tx_id : Hash256)
| ScheduleTransfer (dest : MultiAddress) (amount : Z)
| ScheduleTransferWithDelay (dest : MultiAddress) (amount : Z) (delay : BlockNumberOrTimestamp)
| RecoverFunds (account : Hash256).
Inductive VestingPalletCall :=
| VestingClaim (schedule_id : Z)
| CreateSchedule (who : Hash256) (start cliff end_ total : Z)
| EndSchedule (schedule_id : Z)
| RetargetSchedule (schedule_id : Z) (who : Hash256).
Inductive ShieldedCall :=
| SubmitPrivateBatch (proof : list Z) (outputs : list (list Z))
| SubmitPublicBatch (proof : list Z) (outputs : list (list Z))
| Shield (value : Z) (inner : Hash256) (ciphertext : list Z)
| Coinbase (inner : Hash256) (ciphertext : list Z).

#[warnings="-register-all"] Inductive RuntimeCall :=
| SystemC (c : SystemCall)
| TimestampSet (now : Z)
| BalancesC (c : BalancesCall)
| BatchAll (calls : list RuntimeCall)
| ReversibleTransfersC (c : ReversibleCall)
| CreateMultisig (signers : list Hash256) (threshold nonce : Z)
| Propose (multisig_address : Hash256) (payload : list Z) (expiry : Z)
| Approve (multisig_address : Hash256) (proposal_id : Z) (payload : list Z)
| CancelProposal (multisig_address : Hash256) (proposal_id : Z)
| RemoveExpired (multisig_address : Hash256) (proposal_id : Z)
| ClaimDeposits (multisig_address : Hash256)
| Execute (multisig_address : Hash256) (proposal_id : Z) (inner : RuntimeCall)
| VestingC (c : VestingPalletCall)
| ShieldedC (c : ShieldedCall).

(** Neither of the two wrappers that carry typed calls. *)
Definition is_leaf (c : RuntimeCall) : bool :=
  match c with BatchAll _ | Execute _ _ _ => false | _ => true end.

(** Induction over the call tree, children of a batch included. *)
Section CallInduction.
Context (P : RuntimeCall → Prop).
Context (Hbatch : ∀ calls, Forall P calls → P (BatchAll calls)).
Context (Hexec : ∀ ms id c, P c → P (Execute ms id c)).
Context (Hleaf : ∀ c, is_leaf c = true → P c).

Fixpoint RuntimeCall_tree_ind (c : RuntimeCall) : P c :=
  match c with
  | BatchAll calls =>
      Hbatch calls ((fix go (l : list RuntimeCall) : Forall P l :=
        match l with
        | [] => Forall_nil_2 P
        | x :: l' => Forall_cons_2 P x l' (RuntimeCall_tree_ind x) (go l')
        end) calls)
  | Execute ms id c' => Hexec ms id c' (RuntimeCall_tree_ind c')
  | c => Hleaf c eq_refl
  end.
End CallInduction.

(** [MaxInnerCallWeight] and the high-security limits of this runtime. *)
Definition RuntimeMaxInnerCallWeight : Weight := {| ref_time := 1000000000000; proof_size := 2621440 |}.
Definition MaxHighSecurityBatchLen : Z := 16.
Definition MAX_HIGH_SECURITY_EXTRINSIC_LEN : Z := 10 * 1024.

(** ** [QneroCallFilter] *)
Definition moves_transparent_value (c : RuntimeCall) : bool :=
  match c with
  | BalancesC (TransferAllowDeath _ _) | BalancesC (TransferKeepAlive _ _) | BalancesC (TransferAll _ _) => true
  | ReversibleTransfersC (ScheduleTransfer _ _)
  | ReversibleTransfersC (ScheduleTransferWithDelay _ _ _)
  | ReversibleTransfersC (ExecuteTransfer _)
  | ReversibleTransfersC (Cancel _)
  | ReversibleTransfersC (RecoverFunds _) => true
  | VestingC (CreateSchedule _ _ _ _ _) | VestingC (EndSchedule _) | VestingC (RetargetSchedule _ _) => true
  | _ => false
  end.

Definition enrols_in_a_feature_v1_refuses (c : RuntimeCall) : bool :=
  match c with ReversibleTransfersC (SetHighSecurity _ _) => true | _ => false end.

Fixpoint carries_a_proposal (c : RuntimeCall) : bool :=
  match c with
  | Propose _ _ _ | Approve _ _ _ => true
  | BatchAll calls => existsb carries_a_proposal calls
  | Execute _ _ inner => carries_a_proposal inner
  | _ => false
  end.

Section Filter.
Context `{RuntimeCallOps RuntimeCall}.

(** The walk over a typed call, with the verdict on an opaque payload as a
    parameter; [iter().any] stops at the first refusal. *)
Fixpoint refused_walk (payload_refused : list Z → option bool) (c : RuntimeCall) : option bool :=
  match c with
  | BatchAll calls =>
      (fix any (l : list RuntimeCall) : option bool :=
         match l with
         | [] => Some false
         | x :: l' =>
             match refused_walk payload_refused x with
             | Some true => Some true
             | Some false => any l'
             | None => None
             end
         end) calls
  | Execute _ _ inner => refused_walk payload_refused inner
  | Propose _ payload _ => payload_refused payload
  | Approve _ _ payload => payload_refused payload
  | _ => Some (moves_transparent_value c || enrols_in_a_feature_v1_refuses c)
  end.

(** The two functions call each other through a decode, so the recursion is
    bounded by fuel: one unit per payload opened inside a payload. *)
Fixpoint the_proposal_is_refused (fuel : nat) (payload : list Z) : option bool :=
  match fuel with
  | O => None
  | S fuel =>
      match decode_with_depth_limit MAX_MULTISIG_CALL_DEPTH payload with
      | None => Some true
      | Some decoded =>
          if negb (bool_decide (call_encode decoded = payload)) then Some true
          else if any_gt (call_weight decoded) RuntimeMaxInnerCallWeight then Some true
          else if carries_a_proposal decoded then Some true
          else refused_walk (the_proposal_is_refused fuel) decoded
      end
  end.

Definition refused_under_v1 (fuel : nat) (c : RuntimeCall) : option bool :=
  refused_walk (the_proposal_is_refused fuel) c.

(** [QneroCallFilter::contains]; one unit of fuel is always enough. *)
Definition filter_contains (c : RuntimeCall) : bool :=
  match refused_under_v1 1 c with Some refused => negb refused | None => false end.
End Filter.

(** ** [HighSecurityConfig] *)
Definition is_whitelisted_leaf (c : RuntimeCall) : bool :=
  match c with
  | ReversibleTransfersC (ScheduleTransfer dest _) => match dest with Id _ => true | _ => false end
  | ReversibleTransfersC (Cancel _) | ReversibleTransfersC (RecoverFunds _) => true
  | _ => false
  end.

Definition config_is_whitelisted (c : RuntimeCall) : bool :=
  match c with
  | BatchAll calls =>
      let n := Z.of_nat (length calls) in
      (0 <? n) && (n <=? MaxHighSecurityBatchLen) && forallb is_whitelisted_leaf calls
  | _ => is_whitelisted_leaf c
  end.

(** ** [pallet_utility::batch_all] *)
Inductive UtilityError := TooManyCalls | CallNotAllowedForHighSecurity.
Inductive DispatchError (X : Type) := UBadOrigin | UModule (e : UtilityError) | UChild (x : X) | UFiltered.
Arguments UBadOrigin {X}. Arguments UModule {X}. Arguments UChild {X}. Arguments UFiltered {X}.

Section Utility.
Context {S X : Type} `{HighSecurityInspector S RuntimeCall}.
(** One child's dispatch, under the caller's origin or bypassing the filter. *)
Context (dispatch : RuntimeCall → RuntimeOrigin → S → result X S).
Context (dispatch_bypass_filter : RuntimeCall → RuntimeOrigin → S → result X S).

Definition is_batch_all (c : RuntimeCall) : bool := match c with BatchAll _ => true | _ => false end.

Definition ensure_nested_call_allowed (o : RuntimeOrigin) (c : RuntimeCall) (s : S) :
    result (DispatchError X) unit :=
  match o with
  | Signed who => ensure (is_call_allowed s who c) (UModule CallNotAllowedForHighSecurity)
  | _ => Ok tt
  end.

(** The filter added to the child's origin refuses a nested [batch_all]. *)
Definition batch_child (o : RuntimeOrigin) (s : S) (c : RuntimeCall) : result (DispatchError X) S :=
  match o with
  | Root => map_err UChild (dispatch_bypass_filter c o s)
  | _ =>
      _ ← ensure_nested_call_allowed o c s;
      if is_batch_all c then Err UFiltered
      else map_err UChild (dispatch c o s)
  end.

Definition batch_all (batched_calls_limit : Z) (o : RuntimeOrigin) (calls : list RuntimeCall) (s : S) :
    result (DispatchError X) S :=
  match o with
  | NoOrigin => Err UBadOrigin
  | _ =>
      _ ← ensure (Z.of_nat (length calls) <=? batched_calls_limit) (UModule TooManyCalls);
      fold_result (batch_child o) s calls
  end.
End Utility.

(** ** [ReversibleTransactionExtension] and the tip rule *)
Inductive Validity :=
| BadSigner | Custom (code : Z).

Section Extension.
Context {S : Type} `{HighSecurityInspector S RuntimeCall}.
(** The zero-tip inclusion fee of an extrinsic, its ceiling, and the quota
    ring of [pallet_reversible_transfers]. *)
Context (compute_fee : RuntimeCall → Z → Z) (max_inclusion_fee : Z).
Context (hs_quota_has_room : Hash256 → S → bool) (record_hs_quota : Hash256 → S → result unit S).

Definition ext_validate (o : RuntimeOrigin) (c : RuntimeCall) (len : Z) (s : S) : result Validity bool :=
  match o with
  | Signed who =>
      let hs := is_high_security (Call := RuntimeCall) s who in
      _ ← ensure (is_call_allowed_given (E := S) hs c) (Custom 1);
      _ ← ensure (negb (hs && (MAX_HIGH_SECURITY_EXTRINSIC_LEN <? len mod 2 ^ 32))) (Custom 4);
      _ ← ensure (negb (hs && (max_inclusion_fee <? compute_fee c (len mod 2 ^ 32)))) (Custom 5);
      _ ← ensure (negb (hs && negb (hs_quota_has_room who s))) (Custom 3);
      Ok hs
  | _ => Err BadSigner
  end.

Definition ext_prepare (val : bool) (o : RuntimeOrigin) (s : S) : result Validity (S * bool) :=
  if negb val then Ok (s, false)
  else
    match o with
    | Signed who =>
        s ← map_err (λ _, Custom 3) (record_hs_quota who s);
        Ok (s, true)
    | _ => Err BadSigner
    end.

Definition reject_high_security_tip (who : Hash256) (tip : Z) (s : S) : result Validity unit :=
  if negb (tip =? 0) && is_high_security (Call := RuntimeCall) s who then Err (Custom 2) else Ok tt.
End Extension.
