(* ===== verification/RuntimeProps.v ===== *)
(** * Runtime: what the call filter guarantees

    Termination of the filter's mutual recursion through the decoder, the
    exact set of calls it admits, its agreement with the multisig pallet, and
    the high-security rules it composes with. *)

From stdpp Require Import base option list numbers gmap.
From S2P Require Import Prelude Crypto Interfaces Frame Multisig MultisigProps MultisigTheorems Runtime.
#[local] Open Scope Z_scope.

(** ** What a call can cause: the leaves it dispatches and the payloads it
    publishes. *)
Fixpoint leaves (c : RuntimeCall) : list RuntimeCall :=
  match c with
  | BatchAll calls => flat_map leaves calls
  | Execute _ _ inner => leaves inner
  | c => [c]
  end.

Definition payload_of (c : RuntimeCall) : option (list Z) :=
  match c with Propose _ p _ => Some p | Approve _ _ p => Some p | _ => None end.
Definition payloads (c : RuntimeCall) : list (list Z) := omap payload_of (leaves c).

(** The calls v1 refuses by themselves. *)
Definition refused_leaf (c : RuntimeCall) : bool :=
  moves_transparent_value c || enrols_in_a_feature_v1_refuses c.

Section FilterSpec.
Context `{RuntimeCallOps RuntimeCall}.

(** A payload v1 lets into a block: the canonical bytes of a call light enough
    to be executed, with no further payload in it and no refused leaf. *)
Definition clean_payload (p : list Z) : Prop :=
  ∃ d, decode_with_depth_limit MAX_MULTISIG_CALL_DEPTH p = Some d ∧ call_encode d = p ∧
    weight_le (call_weight d) RuntimeMaxInnerCallWeight ∧ payloads d = [] ∧
    ∀ l, l ∈ leaves d → refused_leaf l = false.

Lemma elem_of_flat_leaves l (calls : list RuntimeCall) :
  l ∈ flat_map leaves calls ↔ ∃ c, c ∈ calls ∧ l ∈ leaves c.
Proof.
  induction calls as [|x calls IH]; cbn; [set_solver|]. rewrite elem_of_app, IH. set_solver.
Qed.

Lemma carries_spec c : carries_a_proposal c = false ↔ payloads c = [].
Proof.
  unfold payloads. induction c as [calls IH|ms id c IH|c Hl] using RuntimeCall_tree_ind.
  - cbn. induction IH as [|x calls Hx _ IH]; [done|]. cbn. rewrite orb_false_iff, Hx, IH, omap_app.
    split; [by intros [-> ->]|]. intros Happ. by apply app_eq_nil in Happ.
  - cbn. exact IH.
  - destruct c; done.
Qed.

(** The walk with any verdict on payloads, as quantification over leaves and
    payloads; it answers whenever the verdict answers on the payloads it
    meets. *)
Lemma refused_walk_total verdict c :
  (∀ p, p ∈ payloads c → ∃ b, verdict p = Some b) → ∃ b, refused_walk verdict c = Some b.
Proof.
  unfold payloads. induction c as [calls IH|ms id c IH|c Hl] using RuntimeCall_tree_ind; intros Hv.
  - cbn. induction IH as [|x calls Hx _ IH]; [by eexists|].
    cbn in Hv. rewrite omap_app in Hv.
    destruct Hx as [b ->]; [intros; apply Hv; set_solver|]. destruct b; [by eexists|].
    apply IH. intros. apply Hv. set_solver.
  - by apply IH.
  - destruct c; try done; try (by eexists); by (apply Hv; set_solver).
Qed.

Lemma refused_walk_false verdict c :
  refused_walk verdict c = Some false ↔
  (∀ l, l ∈ leaves c → refused_leaf l = false) ∧ (∀ p, p ∈ payloads c → verdict p = Some false).
Proof.
  unfold payloads. induction c as [calls IH|ms id c IH|c Hl] using RuntimeCall_tree_ind.
  - cbn. induction IH as [|x calls Hx _ IH]; [split; [split; set_solver|done]|].
    cbn. rewrite omap_app. split.
    + intros Hw. destruct (refused_walk verdict x) as [[]|] eqn:Hrx; try done.
      destruct (proj1 Hx eq_refl) as [Hl1 Hp1]. apply IH in Hw as [Hl2 Hp2]. set_solver.
    + intros [Hls Hps]. rewrite (proj2 Hx) by set_solver. apply IH. set_solver.
  - exact IH.
  - assert (Hone : leaves c = [c]) by (by destruct c). rewrite Hone.
    setoid_rewrite list_elem_of_singleton. split.
    + intros Hw. split; [intros l ->|]; destruct c; cbn in *; try done; try (by simplify_eq);
        set_solver.
    + intros [Hr Hp]. specialize (Hr c eq_refl). unfold refused_leaf in Hr.
      destruct c; cbn in *; try done; try (by rewrite Hr); apply Hp; by left.
Qed.

Lemma payload_verdict fuel p :
  the_proposal_is_refused (S fuel) p = Some false ↔ clean_payload p.
Proof.
  cbn. unfold clean_payload. destruct (decode_with_depth_limit _ p) as [d|]; [|naive_solver].
  case_bool_decide as Henc; cbn; [|naive_solver].
  destruct (any_gt (call_weight d) RuntimeMaxInnerCallWeight) eqn:Hw.
  { split; [done|]. intros (d' & [= <-] & _ & Hle & _). apply any_gt_false in Hle. congruence. }
  destruct (carries_a_proposal d) eqn:Hc.
  { split; [done|]. intros (d' & [= <-] & _ & _ & Hp & _). apply carries_spec in Hp. congruence. }
  rewrite refused_walk_false, carries_spec in *. rewrite Hc. apply any_gt_false in Hw. split.
  - intros [Hl _]. by exists d.
  - intros (d' & [= <-] & _ & _ & _ & Hl). split; [done|set_solver].
Qed.

Lemma payload_verdict_total fuel p : ∃ b, the_proposal_is_refused (S fuel) p = Some b.
Proof.
  cbn. destruct (decode_with_depth_limit _ p) as [d|]; [|by eexists].
  repeat case_match; try by eexists. apply refused_walk_total.
  match goal with Hc : carries_a_proposal d = false |- _ => apply carries_spec in Hc as -> end.
  set_solver.
Qed.

Lemma filter_spec c :
  filter_contains c = true ↔
  (∀ l, l ∈ leaves c → refused_leaf l = false) ∧ (∀ p, p ∈ payloads c → clean_payload p).
Proof.
  unfold filter_contains. destruct (refused_under_v1 1 c) as [b|] eqn:Hb.
  - unfold refused_under_v1 in Hb. setoid_rewrite <- (payload_verdict 0).
    rewrite <- refused_walk_false, Hb. by destruct b.
  - destruct (refused_walk_total (the_proposal_is_refused 1) c) as [b Hb'].
    + intros. apply payload_verdict_total.
    + unfold refused_under_v1 in Hb. congruence.
Qed.
End FilterSpec.

(** ** What v1 rules out, stated on its own

    [carries c l]: [c] is [l], or dispatches it through [batch_all] and
    [execute] at some depth. *)
Inductive carries : RuntimeCall → RuntimeCall → Prop :=
| carries_leaf c : is_leaf c = true → carries c c
| carries_batch calls c l : c ∈ calls → carries c l → carries (BatchAll calls) l
| carries_execute ms id c l : carries c l → carries (Execute ms id c) l.

(** The calls ruled out one by one: the three transparent transfers, the five
    calls that schedule, execute, seize or sweep a reversible transfer, the
    three vesting calls that open, end or redirect a schedule, and the
    enrolment in high security. [Vesting::claim], which pays a beneficiary out
    of the pot, [Balances::burn] and [Shielded::shield] are not on the list. *)
Inductive ruled_out : RuntimeCall → Prop :=
| ro_transfer_allow_death d v : ruled_out (BalancesC (TransferAllowDeath d v))
| ro_transfer_keep_alive d v : ruled_out (BalancesC (TransferKeepAlive d v))
| ro_transfer_all d k : ruled_out (BalancesC (TransferAll d k))
| ro_schedule_transfer d v : ruled_out (ReversibleTransfersC (ScheduleTransfer d v))
| ro_schedule_with_delay d v w : ruled_out (ReversibleTransfersC (ScheduleTransferWithDelay d v w))
| ro_execute_transfer i : ruled_out (ReversibleTransfersC (ExecuteTransfer i))
| ro_cancel i : ruled_out (ReversibleTransfersC (Cancel i))
| ro_recover a : ruled_out (ReversibleTransfersC (RecoverFunds a))
| ro_set_high_security d g : ruled_out (ReversibleTransfersC (SetHighSecurity d g))
| ro_create_schedule w a b c v : ruled_out (VestingC (CreateSchedule w a b c v))
| ro_end_schedule i : ruled_out (VestingC (EndSchedule i))
| ro_retarget i w : ruled_out (VestingC (RetargetSchedule i w)).

Lemma carries_leaves c l : carries c l ↔ l ∈ leaves c.
Proof.
  split.
  - induction 1 as [c Hc|calls c l Hc _ IH|]; [by destruct c; try done; left| |done].
    cbn. apply elem_of_flat_leaves. eauto.
  - revert l. induction c as [calls IH|ms id c IH|c Hl] using RuntimeCall_tree_ind; intros l Hin.
    + cbn in Hin. apply elem_of_flat_leaves in Hin as (c & Hc & Hin). rewrite Forall_forall in IH.
      by eapply carries_batch, IH.
    + by apply carries_execute, IH.
    + assert (l = c) as -> by (destruct c; try done; by apply list_elem_of_singleton in Hin). by constructor.
Qed.

Lemma refused_leaf_spec l : refused_leaf l = false ↔ ¬ ruled_out l.
Proof.
  split.
  - intros Hf Hr. by destruct Hr.
  - intros Hn. destruct (refused_leaf l) eqn:Hr; [|done]. destruct Hn.
    destruct l as [| |[]| |[]| | | | | | | |[]|]; first [done|constructor].
Qed.

Lemma payloads_spec c p : p ∈ payloads c ↔ ∃ l, carries c l ∧ payload_of l = Some p.
Proof. unfold payloads. rewrite list_elem_of_omap. by setoid_rewrite carries_leaves. Qed.

(** A payload that may be published: the canonical bytes of a call that decodes
    within the depth limit and is light enough to be executed, that carries
    nothing ruled out, and no further payload whatever it says. *)
Definition publishable `{RuntimeCallOps RuntimeCall} (p : list Z) : Prop :=
  ∃ d, decode_with_depth_limit MAX_MULTISIG_CALL_DEPTH p = Some d ∧ call_encode d = p ∧
    weight_le (call_weight d) RuntimeMaxInnerCallWeight ∧
    ∀ l, carries d l → ¬ ruled_out l ∧ payload_of l = None.

Lemma clean_publishable `{RuntimeCallOps RuntimeCall} p : clean_payload p ↔ publishable p.
Proof.
  unfold clean_payload, publishable. apply exist_proper. intros d.
  assert (Hp : payloads d = [] ↔ ∀ l, carries d l → payload_of l = None).
  { split.
    - intros He l Hl. destruct (payload_of l) as [q|] eqn:Hq; [|done].
      assert (q ∈ payloads d) as Hin by (apply payloads_spec; eauto). rewrite He in Hin. by apply not_elem_of_nil in Hin.
    - intros Hn. destruct (payloads d) as [|q qs] eqn:He; [done|].
      assert (q ∈ payloads d) as (l & Hl & Hq)%payloads_spec by (rewrite He; by left). by rewrite (Hn l Hl) in Hq. }
  rewrite Hp. setoid_rewrite refused_leaf_spec. setoid_rewrite <- carries_leaves. naive_solver.
Qed.

(** ** The properties *)
Section RuntimeTheorems.
Context `{RuntimeCallOps RuntimeCall}.

(** The call filter terminates: although the walk over a call and the
    verdict on a payload call each other through the decoder, one level of
    decoding always suffices, and more never changes the answer. *)
Theorem filter_terminates c fuel :
  (1 ≤ fuel)%nat → refused_under_v1 fuel c = Some (negb (filter_contains c)).
Proof.
  intros Hf. destruct fuel as [|fuel]; [lia|].
  destruct (refused_walk_total (the_proposal_is_refused (S fuel)) c) as [b Hb].
  { intros. apply payload_verdict_total. }
  unfold refused_under_v1. rewrite Hb. f_equal.
  destruct (filter_contains c) eqn:Hc; cbn.
  - apply filter_spec in Hc. destruct b; [|done].
    assert (Hfalse : refused_walk (the_proposal_is_refused (S fuel)) c = Some false); [|congruence].
    apply refused_walk_false. setoid_rewrite payload_verdict. done.
  - destruct b; [done|]. apply refused_walk_false in Hb. setoid_rewrite payload_verdict in Hb.
    apply filter_spec in Hb. congruence.
Qed.

(** C33: the filter admits a call exactly when nothing it carries, at any depth
    of [batch_all] and [execute], is one of the twelve calls v1 rules out, and
    every payload that a [propose] or [approve] it carries would publish is the
    canonical encoding of a call that decodes within the depth limit, is no
    heavier than the inner-call limit, carries none of the twelve and carries
    no [propose] or [approve] of its own, however clean. ([Vesting::claim]
    pays an account and is admitted, as the source intends.) *)
Theorem filter_admits_exactly_the_clean_calls c :
  filter_contains c = true ↔
  (∀ l, carries c l → ¬ ruled_out l) ∧
  (∀ l p, carries c l → payload_of l = Some p → publishable p).
Proof.
  rewrite filter_spec. setoid_rewrite refused_leaf_spec. setoid_rewrite clean_publishable.
  setoid_rewrite payloads_spec. setoid_rewrite carries_leaves. naive_solver.
Qed.

(** On a chain whose calls all met the filter, multisigs carry nothing the
    filter refuses: the bytes of every stored proposal, and of every proposal
    ever executed, are clean. *)
Theorem multisig_payloads_are_clean {C D E X : Type}
    `{ReservableLaws C D, HighSecurityInspector E RuntimeCall} cfg tr (s : Multisig C E X) :
  valid_multisig_config cfg → m_reachable (Call := RuntimeCall) (D := D) cfg tr s →
  (∀ who ms id bytes exp, Proposed who ms id bytes ∈ tr → filter_contains (Propose ms bytes exp) = true) →
  (∀ who ms id bytes, Endorsed who ms id bytes ∈ tr → filter_contains (Approve ms id bytes) = true) →
  (∀ ms id p, Proposals s !! (ms, id) = Some p → clean_payload (call p)) ∧
  (∀ who ms id bytes, Executed who ms id bytes ∈ tr → clean_payload bytes).
Proof.
  intros Hcfg Hr Hprop Hend. destruct (reachable_facts cfg tr s Hcfg Hr) as [Hi [Hsig Hex _]].
  assert (Hclean : ∀ tr' a ms id bytes, (∀ x, x ∈ tr' → x ∈ tr) → endorsed tr' a ms id bytes → clean_payload bytes).
  { intros tr' a ms id bytes Hsub [Hin|Hin].
    - specialize (Hprop _ _ _ _ 0 (Hsub _ Hin)). apply filter_spec in Hprop as [_ Hp]. apply Hp. by left.
    - specialize (Hend _ _ _ _ (Hsub _ Hin)). apply filter_spec in Hend as [_ Hp]. apply Hp. by left. }
  split.
  - intros ms id p Hp. destruct (mi_proposals _ s Hi _ _ _ Hp) as (d & _ & Hok).
    eapply (Hclean tr); [done|]. eapply Hsig; [exact Hp|]. apply (po_proposer _ _ _ _ Hok).
  - intros who ms id bytes [i Hlk]%list_elem_of_lookup.
    destruct (Hex _ _ _ _ _ Hlk) as (d & A & Hd & _ & _ & _ & _ & Ht & Hall).
    destruct (mi_data _ s Hi _ _ Hd) as [_ _ Hthr _ _ _].
    destruct A as [|a A]; [cbn in Ht; lia|]. destruct (Hall a) as [_ He]; [by left|].
    eapply (Hclean (take i tr)); [|exact He]. intros x Hx.
    apply list_elem_of_lookup in Hx as [j Hj]. apply lookup_take_Some in Hj as [Hj _].
    apply list_elem_of_lookup. eauto.
Qed.

(** The filter and the multisig pallet give the same verdict on a payload:
    a proposal the filter lets into a block is never refused by the pallet for
    malformed bytes, a non-canonical encoding or excess weight, nor, while the
    multisig is not high-security, by the whitelist. *)
Theorem filter_and_pallet_agree {C D E X : Type}
    `{Reservable C D, HighSecurityInspector E RuntimeCall} cfg who ms bytes exp (s : Multisig C E X) w e :
  MaxInnerCallWeight cfg = RuntimeMaxInnerCallWeight →
  filter_contains (Propose ms bytes exp) = true →
  propose (Call := RuntimeCall) (D := D) cfg (Signed who) ms bytes exp s = Err (w, MModule e) →
  e ≠ InvalidCall ∧ e ≠ CallWeightExceedsLimit ∧
  (is_high_security (Call := RuntimeCall) (m_env s) ms = false → e ≠ CallNotAllowedForHighSecurityMultisig).
Proof.
  intros Hmax Hf Herr. apply filter_spec in Hf as [_ Hp].
  destruct (Hp bytes) as (d & Hdec & Henc & Hw & _ & _); [by left|].
  set (P := λ x : MErr, ∀ e, x.2 = MModule e → e ≠ InvalidCall ∧ e ≠ CallWeightExceedsLimit ∧
    (is_high_security (Call := RuntimeCall) (m_env s) ms = false → e ≠ CallNotAllowedForHighSecurityMultisig)).
  assert (HP : errs_in P (propose (Call := RuntimeCall) (D := D) cfg (Signed who) ms bytes exp s)).
  { unfold propose. apply (errs_in_bind P (Ok who)); [done|intros ? [= <-]].
    do 6 (errs_step; [by intros ? [= <-]|intros]). rewrite Hdec.
    apply (errs_in_bind P (Ok d)); [done|intros ? [= <-]].
    rewrite bool_decide_true by done. apply (errs_in_bind P (Ok tt)); [done|intros ? _].
    rewrite Hmax, (proj2 (any_gt_false _ _) Hw). apply (errs_in_bind P (Ok tt)); [done|intros ? _].
    apply errs_in_bind.
    { destruct (is_high_security (m_env s) ms) eqn:Hhs; [|done].
      unfold ensure. case_match; [done|]. intros ? [= <-]. split_and!; [done|done|]. congruence. }
    intros ? _. do 3 (errs_step; [first [by intros ? [= <-]|by intros ? ? [= <-]]|intros]).
    apply errs_in_bind; [|by intros [] _]. unfold note_proposal.
    do 2 (apply errs_in_ok_or; [by intros ? [= <-]|intros]). done. }
  rewrite Herr in HP. by apply HP.
Qed.

(** Under v1 a high-security account can sign nothing: every extrinsic its
    own whitelist and limits let through is one the call filter refuses. *)
Theorem high_security_account_is_frozen {S : Type} `{HighSecurityInspector S RuntimeCall}
    compute_fee max_fee room (s : S) who c len :
  (∀ c, is_whitelisted (E := S) c = config_is_whitelisted c) →
  is_high_security (Call := RuntimeCall) s who = true →
  ext_validate compute_fee max_fee room (Signed who) c len s = Ok true →
  filter_contains c = false.
Proof.
  intros Hwl Hhs Hv. unfold ext_validate in Hv. rewrite Hhs in Hv. cbn in Hv. res_inv.
  unfold is_call_allowed_given in *. cbn in *. rewrite Hwl in *.
  assert (Hleaf : ∀ x, is_whitelisted_leaf x = true → moves_transparent_value x = true ∧ leaves x = [x]).
  { intros [] Hx; try done. cbn in Hx. by destruct c0. }
  destruct (filter_contains c) eqn:Hc; [|done]. apply filter_spec in Hc as [Hl _].
  assert (∃ x, x ∈ leaves c ∧ moves_transparent_value x = true) as (x & Hx & Hm).
  { match goal with Hw : config_is_whitelisted c = true |- _ => rename Hw into Hcw end.
    destruct (is_batch_all c) eqn:Hbatch.
    - destruct c as [| | |calls| | | | | | | | | |]; try done. cbn in Hcw. res_inv.
      destruct calls as [|x calls]; [done|]. cbn in *. res_inv.
      destruct (Hleaf x) as [Hm Hl1]; [done|]. exists x. rewrite Hl1. split; [by left|done].
    - exists c. destruct (Hleaf c) as [Hm ->]; [by destruct c|]. split; [by left|done]. }
  specialize (Hl x Hx). unfold refused_leaf in Hl. by rewrite Hm in Hl.
Qed.

(** A batch obeys the live policy: when [batch_all] succeeds, every child
    was allowed for its signer by the high-security rules as they stood just
    before that child ran, children included that earlier ones may have
    restricted, and none was itself a batch. *)
Theorem batch_children_obey_live_policy {S X : Type} `{HighSecurityInspector S RuntimeCall}
    (dispatch bypass : RuntimeCall → RuntimeOrigin → S → result X S) limit who calls s s' :
  batch_all dispatch bypass limit (Signed who) calls s = Ok s' →
  ∀ pre c post, calls = pre ++ c :: post →
  ∃ s1 s2, fold_result (batch_child dispatch bypass (Signed who)) s pre = Ok s1 ∧
    is_call_allowed s1 who c = true ∧ is_batch_all c = false ∧
    dispatch c (Signed who) s1 = Ok s2 ∧
    fold_result (batch_child dispatch bypass (Signed who)) s2 post = Ok s'.
Proof.
  intros Hb pre c post ->. unfold batch_all in Hb. res_inv.
  rewrite fold_result_app in Hb. res_inv. cbn [fold_result] in Hb. res_inv.
  unfold batch_child, ensure_nested_call_allowed in Hv1. res_inv.
  destruct (is_batch_all c) eqn:Hc; [done|]. res_inv. by eexists _, _.
Qed.
End RuntimeTheorems.
