(* ===== verification/RuntimeWitnesses.v ===== *)
(** * Runtime: the filter theorems at concrete calls

    A small codec of the call type, a multisig proposing and executing a remark
    under the filter, and a high-security account. *)

From stdpp Require Import base option list numbers gmap.
From S2P Require Import Prelude Crypto Interfaces Frame Multisig MultisigProps MultisigTheorems MultisigWitnesses Runtime RuntimeProps.
#[local] Open Scope Z_scope.

Module RuntimeExample.
Import MultisigExample.

(** Remarks and one transfer have an encoding. *)
#[export] Instance codec : RuntimeCallOps RuntimeCall := {|
  call_encode c :=
    match c with
    | SystemC (Remark b) => 0 :: 0 :: b
    | BalancesC (TransferAll (Id who) _) => 2 :: 4 :: who
    | _ => [255]
    end;
  decode_with_depth_limit _ bs :=
    match bs with
    | 0 :: 0 :: b => Some (SystemC (Remark b))
    | 2 :: 4 :: who => Some (BalancesC (TransferAll (Id who) false))
    | _ => None
    end;
  call_weight _ := {| ref_time := 1000; proof_size := 0 |};
|}.
(** The classification is the list of high-security accounts. *)
#[export] Instance inspector : HighSecurityInspector (list Hash256) RuntimeCall := {|
  is_high_security l who := bool_decide (who ∈ l);
  is_whitelisted := config_is_whitelisted;
  guardian_of _ _ := None;
|}.

Definition rcfg : MultisigConfig := {|
  MaxSigners := 100; MaxTotalProposalsInStorage := 200; MaxCallSize := 10240;
  MultisigFee := 30; ProposalDeposit := 10; ProposalFee := 5; SignerStepFactor := 10000;
  PalletId := [112; 121; 47; 109; 108; 116; 115; 103]; MaxExpiryDuration := 10080;
  MaxInnerCallWeight := RuntimeMaxInnerCallWeight;
  m_db := {| db_read := 25000000; db_write := 100000000 |}; block_bits := 32;
  Hashing := ToyCrypto.sponge;
|}.
Lemma rcfg_valid : valid_multisig_config rcfg.
Proof. split; try split; cbn; u_unfold; try split; lia. Qed.

Definition remark : list Z := [0; 0; 104; 105].
Definition transfer : list Z := 2 :: 4 :: bob.
Definition rms : Hash256 := derive_multisig_address rcfg [alice; bob] 1 0.
Abbreviation rstate := (Multisig Books (list Hash256) unit).
Definition rs0 : rstate :=
  {| Multisigs := ∅; Proposals := ∅; m_events := []; block_number := 1; m_ledger := books0; m_env := [] |}.
Definition rstep1 : result MErr rstate :=
  run_call (Call := RuntimeCall) (D := unit) rcfg alice (CallCreate [alice; bob] 1 0) rs0.
Definition rs1 : rstate := unwrap_or rstep1 rs0.
Definition rstep2 : result MErr rstate :=
  run_call (Call := RuntimeCall) (D := unit) rcfg alice (CallPropose rms remark 50) rs1.
Definition rs2 : rstate := unwrap_or rstep2 rs0.

Lemma rstep1_ok : rstep1 = Ok rs1.
Proof. exact (unwrap_or_Ok rstep1 rs0 (eq_refl true <: is_ok rstep1 = true)). Qed.
Lemma rstep2_ok : rstep2 = Ok rs2.
Proof. exact (unwrap_or_Ok rstep2 rs0 (eq_refl true <: is_ok rstep2 = true)). Qed.

Definition rtrace : list Action := [Housekeeping alice; Proposed alice rms 0 remark].
Lemma nonce1 : default 0 (proposal_nonce <$> Multisigs rs1 !! rms) = 0.
Proof. by vm_compute. Qed.

Lemma rreach : m_reachable (Call := RuntimeCall) (D := unit) rcfg rtrace rs2.
Proof.
  exists rs0. split; [done|].
  assert (Hr1 : mrun (Call := RuntimeCall) (D := unit) rcfg ([] ++ [Housekeeping alice]) rs0 rs1).
  { refine (mrun_call rcfg [] rs0 rs0 rs1 alice (CallCreate [alice; bob] 1 0) (mrun_nil rcfg rs0) _ rstep1_ok).
    split_and!; [repeat constructor|u_lia|u_lia]. }
  pose proof (mrun_call rcfg _ rs0 rs1 rs2 alice (CallPropose rms remark 50) Hr1 ltac:(by vm_compute) rstep2_ok) as Hr2.
  unfold action_of in Hr2. rewrite nonce1 in Hr2. exact Hr2.
Qed.

Lemma remark_passes exp : filter_contains (Propose rms remark exp) = true.
Proof. reflexivity. Qed.

Lemma filter_terminates_witness :
  refused_under_v1 3 (BatchAll [Propose rms transfer 9; SystemC (Remark [])]) = Some true.
Proof.
  rewrite (filter_terminates (BatchAll [Propose rms transfer 9; SystemC (Remark [])]) 3); [reflexivity|lia].
Defined.

Definition stored : ProposalData := default (Build_ProposalData [] [] 0 [] 0 Active) (Proposals rs2 !! (rms, 0)).
Lemma stored_ok : Proposals rs2 !! (rms, 0) = Some stored.
Proof. by vm_compute. Qed.

Lemma multisig_payloads_are_clean_witness :
  call stored = remark ∧ clean_payload (call stored).
Proof.
  split; [by vm_compute|].
  refine (proj1 (multisig_payloads_are_clean rcfg rtrace rs2 rcfg_valid rreach _ _) rms 0 stored stored_ok).
  - intros who ms id bytes exp [Hx|[Hx|Hx]%elem_of_cons]%elem_of_cons; [done| |by apply not_elem_of_nil in Hx].
    injection Hx as -> -> -> ->. apply remark_passes.
  - intros who ms id bytes [Hx|[Hx|Hx]%elem_of_cons]%elem_of_cons; [done|done|by apply not_elem_of_nil in Hx].
Defined.

(** A stranger's proposal the filter admits, refused by the pallet for another
    reason. *)
Lemma filter_and_pallet_agree_witness :
  NotASigner ≠ InvalidCall ∧ NotASigner ≠ CallWeightExceedsLimit.
Proof.
  assert (Herr : propose (Call := RuntimeCall) (D := unit) rcfg (Signed carol) rms remark 50 rs1 =
    Err (Some (reads (m_db rcfg) 1), MModule NotASigner)) by (vm_compute; reflexivity).
  destruct (filter_and_pallet_agree rcfg carol rms remark 50 rs1 _ _ eq_refl (remark_passes 50) Herr) as (H1 & H2 & _).
  by split.
Defined.

Lemma high_security_account_is_frozen_witness :
  filter_contains (ReversibleTransfersC (ScheduleTransfer (Id bob) 5)) = false.
Proof.
  refine (high_security_account_is_frozen (λ _ _, 1) 10 (λ _ _, true) [alice] alice
    (ReversibleTransfersC (ScheduleTransfer (Id bob) 5)) 400 (λ _, eq_refl) _ _).
  - by vm_compute.
  - by vm_compute.
Defined.

(** A batch of two remarks, dispatched by appending to a log. *)
Definition log_dispatch (c : RuntimeCall) (o : RuntimeOrigin) (s : list Hash256) : result unit (list Hash256) :=
  match c with SystemC (Remark b) => Ok (s ++ [b]) | _ => Err tt end.

Lemma batch_children_obey_live_policy_witness :
  ∃ s1 s2, fold_result (batch_child log_dispatch log_dispatch (Signed alice)) [] [SystemC (Remark [1])] = Ok s1 ∧
    is_call_allowed s1 alice (SystemC (Remark [2])) = true ∧ is_batch_all (SystemC (Remark [2])) = false ∧
    log_dispatch (SystemC (Remark [2])) (Signed alice) s1 = Ok s2 ∧
    fold_result (batch_child log_dispatch log_dispatch (Signed alice)) s2 [] = Ok [[1]; [2]].
Proof.
  refine (batch_children_obey_live_policy log_dispatch log_dispatch 10 alice
    [SystemC (Remark [1]); SystemC (Remark [2])] [] [[1]; [2]] _ [SystemC (Remark [1])] (SystemC (Remark [2])) [] eq_refl).
  by vm_compute.
Defined.
End RuntimeExample.
