(* ===== verification/Reversible.v ===== *)
(** * Reversible transfers

    [chain/pallets/reversible-transfers/src/lib.rs]: high-security accounts,
    delayed transfers under hold, cancellation, execution, recovery by the
    guardian, and the quota ring of high-security extrinsics. The ledger, the
    scheduler, the preimage store and the proof recorder are reached through
    their traits; the hash that names a transfer is a parameter. *)

From stdpp Require Import base option list numbers gmap fin_maps.
From S2P Require Import Prelude Crypto Interfaces Frame SchedulerTime.
#[local] Open Scope Z_scope.

Record HighSecurityAccountData := { hs_guardian : Hash256; hs_delay : BlockNumberOrTimestamp }.

Record PendingTransfer := {
  from : Hash256;
  to : Hash256;
  guardian : Hash256;
  asset_id : option Z;
  amount : Z;
}.

Inductive ReversibleEvent (D : Type) :=
| HighSecuritySet (who guardian : Hash256) (delay : BlockNumberOrTimestamp)
| TransactionScheduled (from to guardian : Hash256) (asset_id : option Z) (amount : Z)
    (tx_id : Hash256) (execute_at : DispatchTime)
| TransactionCancelled (who tx_id : Hash256)
| TransactionExecuted (tx_id : Hash256) (outcome : result D unit)
| FundsRecovered (account guardian : Hash256)
| TransferRecoveryFailed (tx_id : Hash256)
| RecoverySweepFailed (account guardian : Hash256).
Arguments HighSecuritySet {D}. Arguments TransactionScheduled {D}. Arguments TransactionCancelled {D}.
Arguments TransactionExecuted {D}. Arguments FundsRecovered {D}. Arguments TransferRecoveryFailed {D}.
Arguments RecoverySweepFailed {D}.

Inductive ReversibleError :=
| AccountAlreadyHighSecurity | AccountNotHighSecurity | GuardianCannotBeSelf | PendingTxNotFound
| NotOwner | TooManyPendingTransactions | DelayTooShort | SchedulingFailed | CancellationFailed
| InvalidCall | InvalidSchedulerOrigin | InvalidReverser
| AccountAlreadyReversibleCannotScheduleOneTime | AssetsNotSupported | ZeroAmount
| HighSecurityTxQuotaExceeded.

Inductive ReversibleFailure (D : Type) :=
| RModule (e : ReversibleError) | RBadOrigin | RLookup | RPreimage | RCurrency (d : D).
Arguments RModule {D}. Arguments RBadOrigin {D}. Arguments RLookup {D}. Arguments RPreimage {D}.
Arguments RCurrency {D}.

Record ReversibleConfig := {
  MaxPendingPerAccount : Z;
  MaxHighSecurityTxsPerWindow : Z;
  HighSecurityTxWindowBlocks : Z;
  DefaultDelay : BlockNumberOrTimestamp;
  MinDelayPeriodBlocks : Z;
  MinDelayPeriodMoment : Z;
  (** [PalletId::into_account_truncating]. *)
  account_id : Hash256;
  (** Parts per million. *)
  VolumeFee : Z;
  (** [hash_of(&(from, transfer_keep_alive { dest, value }, next_id).encode())]. *)
  hash_of_transfer : Hash256 → MultiAddress → Z → Z → Hash256;
  (** [T::Preimages::bound] of the [execute_transfer] call. *)
  preimage_bound : Hash256 → bool;
}.

(** [qp_scheduler::ScheduleNamed]: the task runs [execute_transfer { tx_id }]
    under the given origin. *)
Class ScheduleNamed (Sc : Type) := {
  schedule_named : Sc → Hash256 → DispatchTime → RuntimeOrigin → Hash256 → result unit Sc;
  cancel_named : Sc → Hash256 → result unit Sc;
}.

Record Reversible {C P Sc D : Type} := {
  HighSecurityAccounts : gmap Hash256 HighSecurityAccountData;
  HighSecurityTxQuota : gmap Hash256 (list Z);
  PendingTransfers : gmap Hash256 PendingTransfer;
  PendingTransfersBySender : gmap Hash256 (list Hash256);
  NextTransactionId : Z;
  r_events : list (ReversibleEvent D);
  r_block : Z;
  r_now : Z;
  r_ledger : C;
  r_proofs : P;
  r_sched : Sc;
}.
Arguments Reversible : clear implicits.

(** ** The quota ring *)

(** [S::get()] is the ring's capacity. *)
Definition hs_ring_has_room (cfg : ReversibleConfig) (cap : Z) (recent : list Z) (now : Z) : bool :=
  if Z.of_nat (length recent) <? cap then true
  else
    match recent with
    | oldest :: _ => HighSecurityTxWindowBlocks cfg <=? sat_sub now oldest
    | [] => false
    end.

Definition hs_ring_record {D} (cfg : ReversibleConfig) (cap : Z) (recent : list Z) (now : Z) :
    result (ReversibleFailure D) (list Z) :=
  _ ← ensure (hs_ring_has_room cfg cap recent now) (RModule HighSecurityTxQuotaExceeded);
  let recent := if cap <=? Z.of_nat (length recent) then tail recent else recent in
  ok_or (try_push cap recent now) (RModule HighSecurityTxQuotaExceeded).

Section Pallet.
Context {C P Sc D : Type} `{HoldLedger C D, ProofRecorder P, ScheduleNamed Sc}.
Implicit Types (s : Reversible C P Sc D) (cfg : ReversibleConfig).
#[local] Abbreviation M := (result (ReversibleFailure D)).
#[local] Abbreviation St := (Reversible C P Sc D).

(** ** Storage writes *)
Definition put_accounts (m : gmap Hash256 HighSecurityAccountData) s : St :=
  {| HighSecurityAccounts := m; HighSecurityTxQuota := HighSecurityTxQuota s;
     PendingTransfers := PendingTransfers s; PendingTransfersBySender := PendingTransfersBySender s;
     NextTransactionId := NextTransactionId s; r_events := r_events s; r_block := r_block s;
     r_now := r_now s; r_ledger := r_ledger s; r_proofs := r_proofs s; r_sched := r_sched s |}.
Definition put_quota (m : gmap Hash256 (list Z)) s : St :=
  {| HighSecurityAccounts := HighSecurityAccounts s; HighSecurityTxQuota := m;
     PendingTransfers := PendingTransfers s; PendingTransfersBySender := PendingTransfersBySender s;
     NextTransactionId := NextTransactionId s; r_events := r_events s; r_block := r_block s;
     r_now := r_now s; r_ledger := r_ledger s; r_proofs := r_proofs s; r_sched := r_sched s |}.
Definition put_pending (m : gmap Hash256 PendingTransfer) (b : gmap Hash256 (list Hash256)) s : St :=
  {| HighSecurityAccounts := HighSecurityAccounts s; HighSecurityTxQuota := HighSecurityTxQuota s;
     PendingTransfers := m; PendingTransfersBySender := b;
     NextTransactionId := NextTransactionId s; r_events := r_events s; r_block := r_block s;
     r_now := r_now s; r_ledger := r_ledger s; r_proofs := r_proofs s; r_sched := r_sched s |}.
Definition put_next_tx (n : Z) s : St :=
  {| HighSecurityAccounts := HighSecurityAccounts s; HighSecurityTxQuota := HighSecurityTxQuota s;
     PendingTransfers := PendingTransfers s; PendingTransfersBySender := PendingTransfersBySender s;
     NextTransactionId := n; r_events := r_events s; r_block := r_block s;
     r_now := r_now s; r_ledger := r_ledger s; r_proofs := r_proofs s; r_sched := r_sched s |}.
Definition r_deposit_event (e : ReversibleEvent D) s : St :=
  {| HighSecurityAccounts := HighSecurityAccounts s; HighSecurityTxQuota := HighSecurityTxQuota s;
     PendingTransfers := PendingTransfers s; PendingTransfersBySender := PendingTransfersBySender s;
     NextTransactionId := NextTransactionId s; r_events := r_events s ++ [e]; r_block := r_block s;
     r_now := r_now s; r_ledger := r_ledger s; r_proofs := r_proofs s; r_sched := r_sched s |}.
Definition put_r_ledger (c : C) s : St :=
  {| HighSecurityAccounts := HighSecurityAccounts s; HighSecurityTxQuota := HighSecurityTxQuota s;
     PendingTransfers := PendingTransfers s; PendingTransfersBySender := PendingTransfersBySender s;
     NextTransactionId := NextTransactionId s; r_events := r_events s; r_block := r_block s;
     r_now := r_now s; r_ledger := c; r_proofs := r_proofs s; r_sched := r_sched s |}.
Definition put_r_proofs (p : P) s : St :=
  {| HighSecurityAccounts := HighSecurityAccounts s; HighSecurityTxQuota := HighSecurityTxQuota s;
     PendingTransfers := PendingTransfers s; PendingTransfersBySender := PendingTransfersBySender s;
     NextTransactionId := NextTransactionId s; r_events := r_events s; r_block := r_block s;
     r_now := r_now s; r_ledger := r_ledger s; r_proofs := p; r_sched := r_sched s |}.
Definition put_sched (q : Sc) s : St :=
  {| HighSecurityAccounts := HighSecurityAccounts s; HighSecurityTxQuota := HighSecurityTxQuota s;
     PendingTransfers := PendingTransfers s; PendingTransfersBySender := PendingTransfersBySender s;
     NextTransactionId := NextTransactionId s; r_events := r_events s; r_block := r_block s;
     r_now := r_now s; r_ledger := r_ledger s; r_proofs := r_proofs s; r_sched := q |}.

(** ** Inspection *)
Definition is_high_security_account (who : Hash256) s : bool :=
  bool_decide (is_Some (HighSecurityAccounts s !! who)).
Definition get_guardian (who : Hash256) s : option Hash256 :=
  hs_guardian <$> HighSecurityAccounts s !! who.
(** The [ValueQuery] getters. *)
Definition quota_of (who : Hash256) s : list Z := default [] (HighSecurityTxQuota s !! who).
Definition pending_ids (who : Hash256) s : list Hash256 := default [] (PendingTransfersBySender s !! who).

(** ** The quota *)
Definition hs_quota_has_room cfg (who : Hash256) s : bool :=
  hs_ring_has_room cfg (MaxHighSecurityTxsPerWindow cfg) (quota_of who s) (r_block s).
Definition high_security_tx_quota_allows cfg (who : Hash256) s : bool :=
  if negb (is_high_security_account who s) then true else hs_quota_has_room cfg who s.
Definition record_hs_quota cfg (who : Hash256) s : M St :=
  recent ← hs_ring_record cfg (MaxHighSecurityTxsPerWindow cfg) (quota_of who s) (r_block s);
  Ok (put_quota (<[who := recent]> (HighSecurityTxQuota s)) s).
Definition record_high_security_tx cfg (who : Hash256) s : M St :=
  if negb (is_high_security_account who s) then Ok s else record_hs_quota cfg who s.

(** ** Helpers *)
Definition ensure_signed (o : RuntimeOrigin) : M Hash256 :=
  match o with Signed who => Ok who | _ => Err RBadOrigin end.

Definition validate_delay cfg (delay : BlockNumberOrTimestamp) : M unit :=
  match delay with
  | BlockNumber x => ensure (MinDelayPeriodBlocks cfg <=? x) (RModule DelayTooShort)
  | Timestamp t => ensure (MinDelayPeriodMoment cfg <=? t) (RModule DelayTooShort)
  end.

(** A hash of 32 bytes is a [TaskName]. *)
Definition make_schedule_id (tx_id : Hash256) : M Hash256 :=
  if (length tx_id =? 32)%nat then Ok tx_id else Err (RModule InvalidCall).

(** Transactional: an error leaves the ledger as it was. *)
Definition release_held_funds_with_fee cfg (p : PendingTransfer) (recipient : Hash256) (apply_fee : bool)
    (c : C) : M C :=
  _ ← ensure (bool_decide (asset_id p = None)) (RModule AssetsNotSupported);
  let '(fee_amount, remaining_amount) :=
    if apply_fee then
      let fee := permill_mul (VolumeFee cfg) (amount p) in (fee, sat_sub (amount p) fee)
    else (0, amount p) in
  c ← map_err RCurrency (burn_held c (from p) fee_amount);
  if bool_decide (recipient = from p)
  then map_err RCurrency (release c (from p) remaining_amount)
  else map_err RCurrency (transfer_on_hold c (from p) recipient remaining_amount).

(** The scheduled task is dropped best-effort. *)
Definition cancel_task (tx_id : Hash256) s : St :=
  match cancel_named (r_sched s) tx_id with
  | Ok q => put_sched q s
  | Err _ => s
  end.

(** ** [set_high_security] *)
Definition set_high_security cfg (origin : RuntimeOrigin) (delay : BlockNumberOrTimestamp) (g : Hash256) s : M St :=
  who ← ensure_signed origin;
  _ ← ensure (bool_decide (g ≠ who)) (RModule GuardianCannotBeSelf);
  _ ← ensure (bool_decide (HighSecurityAccounts s !! who = None)) (RModule AccountAlreadyHighSecurity);
  _ ← validate_delay cfg delay;
  let s := put_accounts (<[who := {| hs_guardian := g; hs_delay := delay |}]> (HighSecurityAccounts s)) s in
  Ok (r_deposit_event (HighSecuritySet who g delay) s).

(** ** Scheduling *)
Definition dispatch_time_of (delay : BlockNumberOrTimestamp) s : DispatchTime :=
  match delay with
  | BlockNumber blocks => At (sat_add 32 (r_block s) blocks)
  | Timestamp millis => After (Timestamp (sat_add 64 (r_now s) millis))
  end.

Definition do_schedule_transfer_inner cfg (frm : Hash256) (dest : MultiAddress) (g : Hash256) (amt : Z)
    (delay : BlockNumberOrTimestamp) (asset : option Z) s : M St :=
  recipient ← ok_or (lookup_address dest) RLookup;
  _ ← ensure (bool_decide (asset = None)) (RModule AssetsNotSupported);
  _ ← ensure (negb (amt =? 0)) (RModule ZeroAmount);
  let tx_id := hash_of_transfer cfg frm dest amt (NextTransactionId s) in
  let dispatch_time := dispatch_time_of delay s in
  let new_pending := {| from := frm; to := recipient; guardian := g; asset_id := asset; amount := amt |} in
  schedule_id ← make_schedule_id tx_id;
  let pending := <[tx_id := new_pending]> (PendingTransfers s) in
  list ← ok_or (try_push (MaxPendingPerAccount cfg) (pending_ids frm s) tx_id)
           (RModule TooManyPendingTransactions);
  let s := put_pending pending (<[frm := list]> (PendingTransfersBySender s)) s in
  _ ← ensure (preimage_bound cfg tx_id) RPreimage;
  q ← map_err (λ _, RModule SchedulingFailed)
        (schedule_named (r_sched s) schedule_id dispatch_time (Signed (account_id cfg)) tx_id);
  let s := put_sched q s in
  c ← map_err RCurrency (hold (r_ledger s) frm amt);
  let s := put_r_ledger c s in
  let s := put_next_tx (sat_add 64 (NextTransactionId s) 1) s in
  Ok (r_deposit_event (TransactionScheduled frm recipient g asset amt tx_id dispatch_time) s).

Definition do_schedule_transfer cfg (origin : RuntimeOrigin) (dest : MultiAddress) (amt : Z) s : M St :=
  who ← ensure_signed origin;
  d ← ok_or (HighSecurityAccounts s !! who) (RModule AccountNotHighSecurity);
  do_schedule_transfer_inner cfg who dest (hs_guardian d) amt (hs_delay d) None s.

Definition schedule_transfer cfg origin dest amt s : M St := do_schedule_transfer cfg origin dest amt s.

Definition schedule_transfer_with_delay cfg (origin : RuntimeOrigin) (dest : MultiAddress) (amt : Z)
    (delay : BlockNumberOrTimestamp) s : M St :=
  who ← ensure_signed origin;
  _ ← ensure (bool_decide (HighSecurityAccounts s !! who = None))
        (RModule AccountAlreadyReversibleCannotScheduleOneTime);
  _ ← validate_delay cfg delay;
  do_schedule_transfer_inner cfg who dest who amt delay None s.

(** ** [cancel] *)
Definition cancel_transfer cfg (who tx_id : Hash256) s : M St :=
  p ← ok_or (PendingTransfers s !! tx_id) (RModule PendingTxNotFound);
  '(recipient, apply_fee) ←
    (if bool_decide (guardian p ≠ from p) then
       _ ← ensure (bool_decide (who = guardian p)) (RModule InvalidReverser);
       Ok (guardian p, true)
     else
       _ ← ensure (bool_decide (who = from p)) (RModule NotOwner);
       Ok (from p, false));
  c ← release_held_funds_with_fee cfg p recipient apply_fee (r_ledger s);
  let s := put_r_ledger c s in
  let s := put_pending (delete tx_id (PendingTransfers s))
             (<[from p := base.filter (λ id, id ≠ tx_id) (pending_ids (from p) s)]>
                (PendingTransfersBySender s)) s in
  schedule_id ← make_schedule_id tx_id;
  let s := cancel_task schedule_id s in
  Ok (r_deposit_event (TransactionCancelled who tx_id) s).

Definition cancel cfg (origin : RuntimeOrigin) (tx_id : Hash256) s : M St :=
  who ← ensure_signed origin;
  cancel_transfer cfg who tx_id s.

(** ** [execute_transfer] *)
Definition do_execute_transfer (tx_id : Hash256) s : M St :=
  p ← ok_or (PendingTransfers s !! tx_id) (RModule PendingTxNotFound);
  _ ← ensure (bool_decide (asset_id p = None)) (RModule AssetsNotSupported);
  c ← map_err RCurrency (release (r_ledger s) (from p) (amount p));
  let s := put_r_ledger c s in
  let s := put_pending (delete tx_id (PendingTransfers s))
             (<[from p := base.filter (λ id, id ≠ tx_id) (pending_ids (from p) s)]>
                (PendingTransfersBySender s)) s in
  match dispatch_transfer_allow_death (r_ledger s) (from p) (to p) (amount p) with
  | Ok c =>
      let s := put_r_ledger c s in
      let s := if bool_decide (from p ≠ to p)
               then put_r_proofs (record_transfer_proof (r_proofs s) (from p) (to p) (amount p)).1 s
               else s in
      Ok (r_deposit_event (TransactionExecuted tx_id (Ok tt)) s)
  | Err e => Ok (r_deposit_event (TransactionExecuted tx_id (Err e)) s)
  end.

Definition execute_transfer cfg (origin : RuntimeOrigin) (tx_id : Hash256) s : M St :=
  who ← ensure_signed origin;
  _ ← ensure (bool_decide (who = account_id cfg)) (RModule InvalidSchedulerOrigin);
  do_execute_transfer tx_id s.

(** ** [recover_funds] *)
Definition recover_one cfg (who : Hash256) s (tx_id : Hash256) : St :=
  match PendingTransfers s !! tx_id with
  | None => s
  | Some p =>
      match release_held_funds_with_fee cfg p who true (r_ledger s) with
      | Err _ => r_deposit_event (TransferRecoveryFailed tx_id) s
      | Ok c =>
          let s := put_r_ledger c s in
          let s := put_pending (delete tx_id (PendingTransfers s)) (PendingTransfersBySender s) s in
          let s := match make_schedule_id tx_id with Ok id => cancel_task id s | Err _ => s end in
          r_deposit_event (TransactionCancelled who tx_id) s
      end
  end.

Definition recover_funds cfg (origin : RuntimeOrigin) (account : Hash256) s : M St :=
  who ← ensure_signed origin;
  d ← ok_or (HighSecurityAccounts s !! account) (RModule AccountNotHighSecurity);
  _ ← ensure (bool_decide (who = hs_guardian d)) (RModule InvalidReverser);
  let s := foldl (recover_one cfg who) s (pending_ids account s) in
  let left_ := base.filter (λ id, is_Some (PendingTransfers s !! id)) (pending_ids account s) in
  let index := if bool_decide (left_ = []) then delete account (PendingTransfersBySender s)
               else <[account := left_]> (PendingTransfersBySender s) in
  let s := put_pending (PendingTransfers s) index s in
  match dispatch_transfer_all (r_ledger s) account who with
  | Ok c => Ok (r_deposit_event (FundsRecovered account who) (put_r_ledger c s))
  | Err _ => Ok (r_deposit_event (RecoverySweepFailed account who) s)
  end.

(** ** Genesis; [None] is the failed [assert!]. *)
Fixpoint genesis_accounts cfg (l : list (Hash256 * Hash256 * Z)) (m : gmap Hash256 HighSecurityAccountData) :
    option (gmap Hash256 HighSecurityAccountData) :=
  match l with
  | [] => Some m
  | (who, g, delay) :: l' =>
      if bool_decide (g = who) then None
      else
        let m := if MinDelayPeriodBlocks cfg <=? delay
                 then <[who := {| hs_guardian := g; hs_delay := BlockNumber delay |}]> m else m in
        genesis_accounts cfg l' m
  end.
End Pallet.
