(* ===== verification/ReversibleProps.v ===== *)
(** * Reversible transfers: invariant and theorems

    Every unit under hold belongs to exactly one pending transfer; what a
    cancellation, an execution and a recovery move; what a stolen key cannot
    do; the quota window; the earliest execution time. *)

From stdpp Require Import base option list numbers gmap fin_maps relations.
From S2P Require Import Prelude Crypto Interfaces Frame SchedulerTime Reversible.
#[local] Open Scope Z_scope.

Record valid_reversible_config (cfg : ReversibleConfig) : Prop := {
  vr_fee : 0 ≤ VolumeFee cfg ≤ 1000000;
  vr_pending : 0 ≤ MaxPendingPerAccount cfg;
  (** The hash names 32-byte ids and, over the counter's 64 bits, does not
      collide across counters. *)
  vr_hash_len : ∀ f d a n, length (hash_of_transfer cfg f d a n) = 32%nat;
  vr_hash_inj : ∀ f d a n f' d' a' n', in_u 64 n → in_u 64 n' →
    hash_of_transfer cfg f d a n = hash_of_transfer cfg f' d' a' n' → n = n';
}.

(** ** The quota ring *)
Section Quota.
Context (cfg : ReversibleConfig).

(** What a ring of capacity [cap] accepts of a sequence of attempts. *)
Fixpoint ring_accept (cap : Z) (ring : list Z) (times : list Z) : list Z :=
  match times with
  | [] => []
  | t :: ts =>
      match hs_ring_record (D := unit) cfg cap ring t with
      | Ok ring' => t :: ring_accept cap ring' ts
      | Err _ => ring_accept cap ring ts
      end
  end.

(** Entries [cap] apart are a window apart. *)
Definition spaced (cap : nat) (l : list Z) : Prop :=
  ∀ i x y, l !! i = Some x → l !! (i + cap)%nat = Some y → x + HighSecurityTxWindowBlocks cfg ≤ y.

Lemma spaced_cons cap x l : spaced cap (x :: l) → spaced cap l.
Proof. intros Hs i a b Ha Hb. by apply (Hs (S i)). Qed.

(** In non-decreasing order. *)
Definition rising (l : list Z) : Prop :=
  ∀ i j x y, (i ≤ j)%nat → l !! i = Some x → l !! j = Some y → x ≤ y.

Lemma rising_cons x l : rising (x :: l) → rising l.
Proof. intros Hr i j a b Hij Ha Hb. by apply (Hr (S i) (S j)); [lia| |]. Qed.

Lemma window_bound cap l t0 :
  rising l → spaced cap l →
  (length (base.filter (λ t, t0 ≤ t < t0 + HighSecurityTxWindowBlocks cfg)%Z l) ≤ cap)%nat.
Proof.
  induction l as [|x l IH]; intros Hr Hsp; [cbn; lia|].
  destruct (decide (t0 ≤ x < t0 + HighSecurityTxWindowBlocks cfg)) as [Hx|Hx].
  2: { rewrite filter_cons_False by done.
       apply IH; [by eapply rising_cons|by eapply spaced_cons]. }
  rewrite <- (take_drop cap (x :: l)), filter_app, length_app.
  rewrite (filter_none _ (drop cap (x :: l))).
  - pose proof (length_filter (λ t, t0 ≤ t < t0 + HighSecurityTxWindowBlocks cfg) (take cap (x :: l))).
    rewrite length_take in *. cbn [length] in *. lia.
  - intros y [k Hk]%list_elem_of_lookup. rewrite lookup_drop in Hk.
    destruct (lookup_lt_is_Some_2 (x :: l) cap) as [z Hz]; [apply lookup_lt_Some in Hk; lia|].
    specialize (Hsp 0%nat x z eq_refl Hz). specialize (Hr cap (cap + k)%nat z y ltac:(lia) Hz Hk). lia.
Qed.

(** The ring is the tail of what it accepted. *)
Definition ring_of (cap : Z) (acc ring : list Z) : Prop :=
  ∃ old, acc = old ++ ring ∧ Z.of_nat (length ring) ≤ cap ∧
    (old ≠ [] → Z.of_nat (length ring) = cap).

Lemma spaced_snoc (cap : nat) acc t :
  (0 < cap)%nat → spaced cap acc →
  (∀ x, acc !! (length acc - cap)%nat = Some x → (cap ≤ length acc)%nat →
     x + HighSecurityTxWindowBlocks cfg ≤ t) →
  spaced cap (acc ++ [t]).
Proof.
  intros Hcap Hsp Hnew i x y Hx [Hy|[Hl Hy]]%lookup_app_Some.
  - apply lookup_app_Some in Hx as [Hx|[Hlx _]]; [by eapply Hsp|].
    apply lookup_lt_Some in Hy. lia.
  - apply list_lookup_singleton_Some in Hy as [Hi <-].
    apply lookup_app_Some in Hx as [Hx|[Hlx Hx]].
    + apply Hnew; [|apply lookup_lt_Some in Hx; lia].
      by replace (length acc - cap)%nat with i by lia.
    + apply list_lookup_singleton_Some in Hx as [Hix _]. lia.
Qed.

Lemma record_spaced cap acc ring ring' t :
  0 < cap → ring_of cap acc ring → spaced (Z.to_nat cap) acc →
  (∀ x, x ∈ acc → x ≤ t) → hs_ring_record (D := unit) cfg cap ring t = Ok ring' →
  ring_of cap (acc ++ [t]) ring' ∧ spaced (Z.to_nat cap) (acc ++ [t]).
Proof.
  intros Hcap (old & -> & Hlen & Hold) Hsp Hle Hrec. unfold hs_ring_record in Hrec. res_inv.
  apply try_push_Some in Hrec as [-> Hpush]. unfold hs_ring_has_room in Hv.
  destruct (Z.ltb_spec (Z.of_nat (length ring)) cap) as [Hlt|Hge].
  - rewrite (proj2 (Z.leb_gt _ _)) in * by lia.
    destruct (decide (old = [])) as [->|Hne]; [|specialize (Hold Hne); lia]. split.
    + exists []. split_and!; [done|rewrite length_app; cbn; lia|done].
    + apply spaced_snoc; [lia|done|]. intros x _ Hc. cbn [app length] in Hc. lia.
  - rewrite (proj2 (Z.leb_le _ _)) in * by lia. destruct ring as [|oldest rest]; [done|]. res_inv.
    cbn [tail length] in *. split.
    + exists (old ++ [oldest]). split_and!.
      * by rewrite <- !app_assoc.
      * rewrite length_app. cbn. lia.
      * intros _. rewrite length_app. cbn. lia.
    + apply spaced_snoc; [lia|done|]. intros x Hx _.
      rewrite length_app in Hx. cbn [length] in Hx.
      replace (length old + S (length rest) - Z.to_nat cap)%nat with (length old) in Hx by lia.
      rewrite lookup_app_r, Nat.sub_diag in Hx by lia. cbn in Hx. injection Hx as <-.
      specialize (Hle oldest ltac:(set_solver)). unfold sat_sub in *. lia.
Qed.

Lemma ring_accept_spaced cap times acc ring :
  0 < cap → ring_of cap acc ring → spaced (Z.to_nat cap) acc → rising (acc ++ times) →
  spaced (Z.to_nat cap) (acc ++ ring_accept cap ring times) ∧ rising (acc ++ ring_accept cap ring times).
Proof.
  intros Hcap. revert acc ring. induction times as [|t ts IH]; intros acc ring Hring Hsp Hr; [by rewrite app_nil_r in *|].
  cbn. destruct (hs_ring_record cfg cap ring t) as [ring'|e] eqn:Hrec.
  - assert (Hle : ∀ x, x ∈ acc → x ≤ t).
    { intros x [i Hi]%list_elem_of_lookup. apply (Hr i (length acc) x t).
      - apply lookup_lt_Some in Hi. lia.
      - by apply lookup_app_l_Some.
      - by rewrite lookup_app_r, Nat.sub_diag by lia. }
    destruct (record_spaced _ _ _ _ _ Hcap Hring Hsp Hle Hrec) as [Hring' Hsp'].
    replace (acc ++ t :: ring_accept cap ring' ts) with ((acc ++ [t]) ++ ring_accept cap ring' ts)
      by (by rewrite <- app_assoc).
    apply IH; [done|done|]. by rewrite <- app_assoc.
  - apply IH; [done|done|].
    intros i j x y Hij Hx Hy.
    set (skip := λ k, if decide (k < length acc)%nat then k else S k).
    assert (Hskip : ∀ k z, (acc ++ ts) !! k = Some z → (acc ++ t :: ts) !! skip k = Some z).
    { intros k z. unfold skip. case_decide.
      - by rewrite !lookup_app_l by lia.
      - rewrite !lookup_app_r by lia. replace (S k - length acc)%nat with (S (k - length acc)) by lia. done. }
    apply (Hr (skip i) (skip j) x y); [unfold skip; repeat case_decide; lia|by apply Hskip|by apply Hskip].
Qed.

Lemma no_capacity_accepts_nothing cap ring times : cap ≤ 0 → ring = [] → ring_accept cap ring times = [].
Proof.
  intros Hcap ->. induction times as [|t ts IH]; [done|]. cbn. unfold hs_ring_record, hs_ring_has_room.
  cbn [length]. change (Z.of_nat 0) with 0. by rewrite (proj2 (Z.ltb_ge 0 cap)) by lia.
Qed.
End Quota.

(** ** The calls *)
Inductive ReversiblePalletCall :=
| RSetHighSecurity (delay : BlockNumberOrTimestamp) (g : Hash256)
| RCancel (tx_id : Hash256)
| RExecuteTransfer (tx_id : Hash256)
| RScheduleTransfer (dest : MultiAddress) (amt : Z)
| RScheduleTransferWithDelay (dest : MultiAddress) (amt : Z) (delay : BlockNumberOrTimestamp)
| RRecoverFunds (account : Hash256).

Section Invariant.
Context {C P Sc D : Type} `{HoldLedgerLaws C D, ProofRecorder P, ScheduleNamed Sc}.
Context (cfg : ReversibleConfig) (Hcfg : valid_reversible_config cfg).
Implicit Types (s : Reversible C P Sc D) (p : PendingTransfer).

Definition reversible_call (who : Hash256) (k : ReversiblePalletCall) s :
    result (ReversibleFailure D) (Reversible C P Sc D) :=
  match k with
  | RSetHighSecurity delay g => set_high_security cfg (Signed who) delay g s
  | RCancel tx_id => cancel cfg (Signed who) tx_id s
  | RExecuteTransfer tx_id => execute_transfer cfg (Signed who) tx_id s
  | RScheduleTransfer dest amt => schedule_transfer cfg (Signed who) dest amt s
  | RScheduleTransferWithDelay dest amt delay => schedule_transfer_with_delay cfg (Signed who) dest amt delay s
  | RRecoverFunds account => recover_funds cfg (Signed who) account s
  end.

(** Amounts are [u128]s, and the transfer counter has not run out. *)
Definition call_in_range (k : ReversiblePalletCall) s : Prop :=
  match k with
  | RScheduleTransfer _ amt | RScheduleTransferWithDelay _ amt _ =>
      0 ≤ amt ∧ NextTransactionId s < u_max 64
  | _ => True
  end.

(** Amounts the pallet says an account has pending. *)
Definition pending_sum (m : gmap Hash256 PendingTransfer) (a : Hash256) : Z :=
  map_sum (λ _ p, if bool_decide (from p = a) then amount p else 0) m.

(** Everything but the per-sender index. *)
Record rcore s : Prop := {
  rc_held : ∀ a, hl_held (r_ledger s) a = pending_sum (PendingTransfers s) a;
  rc_pending : ∀ tx p, PendingTransfers s !! tx = Some p →
    asset_id p = None ∧ 0 < amount p ∧ length tx = 32%nat ∧
    ∃ f dest a n, tx = hash_of_transfer cfg f dest a n ∧ 0 ≤ n < NextTransactionId s;
  rc_guardian : ∀ tx p, PendingTransfers s !! tx = Some p →
    guardian p = from p ∨ ∃ d, HighSecurityAccounts s !! from p = Some d ∧ guardian p = hs_guardian d;
  rc_accounts : ∀ who d, HighSecurityAccounts s !! who = Some d →
    hs_guardian d ≠ who ∧ validate_delay (D := D) cfg (hs_delay d) = Ok tt;
  rc_next : 0 ≤ NextTransactionId s;
}.

(** The index lists, for each sender, exactly its pending transfers. *)
Record rindex s : Prop := {
  rx_exact : ∀ a tx, tx ∈ pending_ids a s ↔ ∃ p, PendingTransfers s !! tx = Some p ∧ from p = a;
  rx_nodup : ∀ a, NoDup (pending_ids a s);
  rx_bound : ∀ a, Z.of_nat (length (pending_ids a s)) ≤ MaxPendingPerAccount cfg;
}.

Definition rinv s : Prop := rcore s ∧ rindex s.

(** ** Releasing a hold *)
Definition volume_fee (apply_fee : bool) p : Z := if apply_fee then permill_mul (VolumeFee cfg) (amount p) else 0.

Lemma volume_fee_bounds b p : 0 ≤ amount p → 0 ≤ volume_fee b p ≤ amount p.
Proof. intros. unfold volume_fee. destruct b; [apply permill_mul_bounds; [apply (vr_fee _ Hcfg)|done]|lia]. Qed.

Lemma release_with_fee_Ok p recipient b c c' :
  0 ≤ amount p → release_held_funds_with_fee cfg p recipient b c = Ok c' →
  (∀ a, hl_held c' a = hl_held c a - (if bool_decide (from p = a) then amount p else 0)) ∧
  (∀ a, hl_free c' a = hl_free c a + (if bool_decide (recipient = a) then amount p - volume_fee b p else 0)) ∧
  hl_issuance c' = hl_issuance c - volume_fee b p.
Proof.
  intros Ham Hr. pose proof (volume_fee_bounds b p Ham) as Hfee. unfold release_held_funds_with_fee in Hr.
  apply bind_Ok in Hr as (? & _ & Hr).
  assert (Hsplit : (if b then (permill_mul (VolumeFee cfg) (amount p),
      sat_sub (amount p) (permill_mul (VolumeFee cfg) (amount p))) else (0, amount p)) =
    (volume_fee b p, amount p - volume_fee b p)).
  { unfold volume_fee in *. destruct b; f_equal; [rewrite sat_sub_exact; lia|lia]. }
  rewrite Hsplit in Hr. res_inv. rename v into c1.
  apply burn_held_Ok in Hv as (Hh1 & Hf1 & Hn1 & Hi1); [|lia]. case_bool_decide as Hrec; res_inv.
  - apply release_Ok in Hr as (Hf2 & Hh2 & Hn2 & Hi2); [|lia]. subst recipient. split_and!; [| |lia].
    + intros a. case_bool_decide as Ha; [subst a; lia|]. destruct (Hn2 a) as [_ ->]; [done|].
      rewrite Hn1 by done. lia.
    + intros a. case_bool_decide as Ha; [subst a; rewrite Hf2, Hf1; lia|].
      destruct (Hn2 a) as [-> _]; [done|]. rewrite Hf1. lia.
  - apply transfer_on_hold_Ok in Hr as (Hh2 & Hf2 & Hn2 & Hfn2 & Hi2); [|lia|done]. split_and!; [| |lia].
    + intros a. case_bool_decide as Ha; [subst a; lia|]. rewrite Hn2, Hn1 by done. lia.
    + intros a. case_bool_decide as Ha; [subst a; rewrite Hf2, Hf1; lia|]. rewrite Hfn2, Hf1 by done. lia.
Qed.

Lemma pending_sum_delete m tx p a :
  m !! tx = Some p →
  pending_sum (delete tx m) a = pending_sum m a - (if bool_decide (from p = a) then amount p else 0).
Proof. intros Hp. unfold pending_sum. rewrite (map_sum_delete _ m tx p) by done. lia. Qed.

(** A transfer leaves the table together with its hold. *)
Lemma rcore_drop s tx p c' idx s' :
  rcore s → PendingTransfers s !! tx = Some p →
  (∀ a, hl_held c' a = hl_held (r_ledger s) a - (if bool_decide (from p = a) then amount p else 0)) →
  HighSecurityAccounts s' = HighSecurityAccounts s → PendingTransfers s' = delete tx (PendingTransfers s) →
  PendingTransfersBySender s' = idx → NextTransactionId s' = NextTransactionId s →
  (∀ a, hl_held (r_ledger s') a = hl_held c' a) → rcore s'.
Proof.
  intros [Hh Hp Hg Ha Hn] Hlk Hc He1 He2 _ He3 He4. split.
  - intros a. rewrite He4, Hc, He2, (pending_sum_delete _ _ p), Hh by done. done.
  - intros tx' p'. rewrite He2, He3. intros [_ ?]%lookup_delete_Some. by apply Hp.
  - intros tx' p'. rewrite He2, He1. intros [_ ?]%lookup_delete_Some. by eapply Hg.
  - intros who d. rewrite He1. apply Ha.
  - by rewrite He3.
Qed.

Lemma pending_ids_insert (m : gmap Hash256 (list Hash256)) a l b :
  default [] (<[a := l]> m !! b) = if decide (a = b) then l else default [] (m !! b).
Proof.
  case_decide as Hab; [subst; by rewrite lookup_insert_eq|by rewrite lookup_insert_ne].
Qed.

(** The index after a transfer of [from p] leaves. *)
Lemma rindex_drop s tx p s' :
  rindex s → PendingTransfers s !! tx = Some p →
  PendingTransfers s' = delete tx (PendingTransfers s) →
  PendingTransfersBySender s' =
    <[from p := base.filter (λ id, id ≠ tx) (pending_ids (from p) s)]> (PendingTransfersBySender s) →
  rindex s'.
Proof.
  intros [Hx Hn Hb] Hlk He1 He2. unfold pending_ids in *.
  split; unfold pending_ids; rewrite ?He1, ?He2.
  - intros a tx'. rewrite pending_ids_insert. case_decide as Ha.
    + subst a. rewrite list_elem_of_filter, Hx. setoid_rewrite lookup_delete_Some. naive_solver.
    + rewrite Hx. setoid_rewrite lookup_delete_Some. split; [|naive_solver].
      intros (p' & Hp' & <-). exists p'. split; [|done]. split; [|done]. intros ->. naive_solver.
  - intros a. rewrite pending_ids_insert. case_decide; [by apply NoDup_filter|apply Hn].
  - intros a. rewrite pending_ids_insert. case_decide as Ha; [|apply Hb]. subst a.
    etrans; [|apply (Hb (from p))]. apply Nat2Z.inj_le, length_filter.
Qed.

(** ** What each successful call did *)
Lemma schedule_inner_Ok frm dest g amt delay s s' :
  do_schedule_transfer_inner cfg frm dest g amt delay None s = Ok s' →
  let tx := hash_of_transfer cfg frm dest amt (NextTransactionId s) in
  ∃ recipient q c, lookup_address dest = Some recipient ∧ amt ≠ 0 ∧
    Z.of_nat (length (pending_ids frm s)) < MaxPendingPerAccount cfg ∧
    schedule_named (r_sched s) tx (dispatch_time_of delay s) (Signed (account_id cfg)) tx = Ok q ∧
    hold (D := D) (r_ledger s) frm amt = Ok c ∧
    HighSecurityAccounts s' = HighSecurityAccounts s ∧
    PendingTransfers s' = <[tx := {| from := frm; to := recipient; guardian := g; asset_id := None; amount := amt |}]>
      (PendingTransfers s) ∧
    PendingTransfersBySender s' = <[frm := pending_ids frm s ++ [tx]]> (PendingTransfersBySender s) ∧
    NextTransactionId s' = sat_add 64 (NextTransactionId s) 1 ∧ r_ledger s' = c ∧ r_sched s' = q.
Proof.
  intros Hs tx. unfold do_schedule_transfer_inner in Hs. res_inv.
  unfold make_schedule_id in *. case_match; [|done]. res_inv. subst.
  match goal with Hp : try_push _ _ _ = Some _ |- _ => apply try_push_Some in Hp as [-> Hlen] end.
  eexists _, _, _. split_and!; try done.
Qed.

Lemma rindex_add s tx p s' :
  rindex s → PendingTransfers s !! tx = None →
  Z.of_nat (length (pending_ids (from p) s)) < MaxPendingPerAccount cfg →
  PendingTransfers s' = <[tx := p]> (PendingTransfers s) →
  PendingTransfersBySender s' = <[from p := pending_ids (from p) s ++ [tx]]> (PendingTransfersBySender s) →
  rindex s'.
Proof.
  intros [Hx Hn Hb] Hlk Hlt He1 He2. unfold pending_ids in *.
  assert (Hni : ∀ a, tx ∉ default [] (PendingTransfersBySender s !! a)).
  { intros a Hin. apply Hx in Hin as (p' & Hp' & _). congruence. }
  split; unfold pending_ids; rewrite ?He1, ?He2.
  - intros a tx'. rewrite pending_ids_insert. case_decide as Ha.
    + subst a. rewrite elem_of_app, list_elem_of_singleton, Hx. setoid_rewrite lookup_insert_Some.
      split; [|naive_solver]. intros [(p' & Hp' & Hf)| ->]; [|naive_solver].
      exists p'. split; [right; split; [congruence|done]|done].
    + rewrite Hx. setoid_rewrite lookup_insert_Some. split; [|naive_solver].
      intros (p' & Hp' & Hf). exists p'. split; [right; split; [congruence|done]|done].
  - intros a. rewrite pending_ids_insert. case_decide; [|apply Hn].
    apply NoDup_app. split_and!; [apply Hn| |apply NoDup_singleton].
    intros x Hin ->%list_elem_of_singleton. by eapply Hni.
  - intros a. rewrite pending_ids_insert. case_decide as Ha; [|apply Hb].
    rewrite length_app. cbn. lia.
Qed.

Lemma schedule_preserves frm dest g amt delay s s' :
  rinv s → 0 ≤ amt → NextTransactionId s < u_max 64 →
  (g = frm ∨ ∃ d, HighSecurityAccounts s !! frm = Some d ∧ g = hs_guardian d) →
  do_schedule_transfer_inner cfg frm dest g amt delay None s = Ok s' → rinv s'.
Proof.
  intros [[Hh Hp Hg Ha Hnx] Hix] Hamt Hmax Hgd Hs.
  destruct (schedule_inner_Ok _ _ _ _ _ _ _ Hs) as
    (rc & q & c & _ & Hne & Hlen & _ & Hhold & E1 & E2 & E3 & E4 & E5 & _).
  set (tx := hash_of_transfer cfg frm dest amt (NextTransactionId s)) in *.
  rewrite sat_add_exact in E4 by lia.
  assert (Hfresh : PendingTransfers s !! tx = None).
  { destruct (PendingTransfers s !! tx) as [p|] eqn:Hlk; [|done].
    destruct (Hp _ _ Hlk) as (_ & _ & _ & f & d & a & n & Heq & Hn).
    apply (vr_hash_inj _ Hcfg) in Heq; [lia|u_lia..]. }
  destruct (hold_Ok _ _ _ _ Hamt Hhold) as (_ & Hh1 & Hh2 & _). split.
  - split.
    + intros a. rewrite E5, E2. unfold pending_sum. rewrite map_sum_insert by done. cbn.
      fold (pending_sum (PendingTransfers s) a). case_bool_decide as Hfa.
      * subst a. rewrite Hh1, Hh. lia.
      * destruct (Hh2 a) as [_ ->]; [done|]. rewrite Hh. lia.
    + intros tx' p. rewrite E2, E4. intros [[<- <-]|[_ Hlk]]%lookup_insert_Some.
      * cbn. split_and!; [done|lia|apply (vr_hash_len _ Hcfg)|].
        exists frm, dest, amt, (NextTransactionId s). split; [done|lia].
      * destruct (Hp _ _ Hlk) as (? & ? & ? & f & d & a & n & -> & Hn). split_and!; [done..|].
        exists f, d, a, n. split; [done|lia].
    + intros tx' p. rewrite E2, E1. intros [[<- <-]|[_ Hlk]]%lookup_insert_Some; [done|by eapply Hg].
    + intros who d. rewrite E1. apply Ha.
    + lia.
  - eapply (rindex_add s tx); [done|done| |exact E2|exact E3]. done.
Qed.

Lemma cancel_Ok who tx s s' :
  cancel cfg (Signed who) tx s = Ok s' →
  ∃ p c, PendingTransfers s !! tx = Some p ∧ who = guardian p ∧
    release_held_funds_with_fee cfg p (guardian p) (bool_decide (guardian p ≠ from p)) (r_ledger s) = Ok c ∧
    HighSecurityAccounts s' = HighSecurityAccounts s ∧
    PendingTransfers s' = delete tx (PendingTransfers s) ∧
    PendingTransfersBySender s' =
      <[from p := base.filter (λ id, id ≠ tx) (pending_ids (from p) s)]> (PendingTransfersBySender s) ∧
    NextTransactionId s' = NextTransactionId s ∧ r_ledger s' = c.
Proof.
  intros Hc. unfold cancel, cancel_transfer in Hc. cbn [ensure_signed] in Hc.
  apply bind_Ok in Hc as (? & [= <-] & Hc). apply bind_Ok in Hc as (p & Hp & Hc). res_inv.
  destruct v as [recipient fee]. res_inv. exists p.
  assert (Hrf : who = guardian p ∧ recipient = guardian p ∧ fee = bool_decide (guardian p ≠ from p)).
  { destruct (decide (guardian p = from p)) as [Hg|Hg].
    - rewrite bool_decide_false in * by tauto. res_inv. split_and!; congruence.
    - rewrite bool_decide_true in * by done. res_inv. split_and!; congruence. }
  destruct Hrf as (Hw & -> & ->). exists v. subst s'. unfold cancel_task.
  destruct (cancel_named _ _); split_and!; done.
Qed.

Lemma execute_Ok who tx s s' :
  execute_transfer cfg (Signed who) tx s = Ok s' →
  ∃ p c, who = account_id cfg ∧ PendingTransfers s !! tx = Some p ∧
    release (D := D) (r_ledger s) (from p) (amount p) = Ok c ∧
    HighSecurityAccounts s' = HighSecurityAccounts s ∧
    PendingTransfers s' = delete tx (PendingTransfers s) ∧
    PendingTransfersBySender s' =
      <[from p := base.filter (λ id, id ≠ tx) (pending_ids (from p) s)]> (PendingTransfersBySender s) ∧
    NextTransactionId s' = NextTransactionId s ∧
    (dispatch_transfer_allow_death (D := D) c (from p) (to p) (amount p) = Ok (r_ledger s') ∨
     (∃ e, dispatch_transfer_allow_death c (from p) (to p) (amount p) = Err e) ∧ r_ledger s' = c).
Proof.
  intros He. unfold execute_transfer, do_execute_transfer in He. cbn [ensure_signed] in He.
  apply bind_Ok in He as (? & [= <-] & He). res_inv. cbn in He.
  eexists _, _. split; [done|]. split; [done|]. split; [done|].
  case_match eqn:Hd; [case_bool_decide|]; simplify_eq; split_and!; try done; eauto.
Qed.

(** ** Preservation, call by call *)
Lemma set_high_security_Ok who delay g s s' :
  set_high_security cfg (Signed who) delay g s = Ok s' →
  g ≠ who ∧ HighSecurityAccounts s !! who = None ∧ validate_delay (D := D) cfg delay = Ok tt ∧
  s' = r_deposit_event (HighSecuritySet who g delay)
         (put_accounts (<[who := {| hs_guardian := g; hs_delay := delay |}]> (HighSecurityAccounts s)) s).
Proof.
  intros Hc. unfold set_high_security in Hc. cbn [ensure_signed] in Hc.
  apply bind_Ok in Hc as (? & [= <-] & Hc). res_inv.
  match goal with Hv : validate_delay _ _ = Ok ?u |- _ => destruct u end. done.
Qed.

Lemma set_high_security_preserves who delay g s s' :
  rinv s → set_high_security cfg (Signed who) delay g s = Ok s' → rinv s'.
Proof.
  intros [[Hh Hp Hg Ha Hn] [Hx Hnd Hb]] (Hne & Hnone & Hdel & ->)%set_high_security_Ok. split; split; try done.
  - intros tx p Hlk. destruct (Hg _ _ Hlk) as [?|(d & Hd & ?)]; [by left|right]. exists d. split; [|done].
    cbn. rewrite lookup_insert_ne; [done|congruence].
  - intros a d. cbn. intros [[<- <-]|[_ Hd]]%lookup_insert_Some; [done|by apply Ha].
Qed.

Lemma cancel_preserves who tx s s' : rinv s → cancel cfg (Signed who) tx s = Ok s' → rinv s'.
Proof.
  intros [Hc Hx] (p & c & Hlk & _ & Hrel & E1 & E2 & E3 & E4 & E5)%cancel_Ok.
  destruct (rc_pending _ Hc _ _ Hlk) as (_ & Ham & _).
  apply release_with_fee_Ok in Hrel as (Hheld & _ & _); [|lia]. split.
  - eapply (rcore_drop s tx p c); try done. by rewrite E5.
  - by eapply (rindex_drop s tx p).
Qed.

Lemma execute_preserves who tx s s' : rinv s → execute_transfer cfg (Signed who) tx s = Ok s' → rinv s'.
Proof.
  intros [Hc Hx] (p & c & _ & Hlk & Hrel & E1 & E2 & E3 & E4 & E5)%execute_Ok.
  destruct (rc_pending _ Hc _ _ Hlk) as (_ & Ham & _).
  apply release_Ok in Hrel as (_ & Hh & Hne & _); [|lia]. split.
  - eapply (rcore_drop s tx p c); try done.
    + intros a. case_bool_decide as Hfa; [by subst a|]. destruct (Hne a) as [_ ->]; [done|lia].
    + intros a. destruct E5 as [Hd|[_ ->]]; [by eapply dispatch_transfer_allow_death_held|done].
  - by eapply (rindex_drop s tx p).
Qed.

(** ** The recovery loop *)
Lemma recover_one_cases who s tx :
  (PendingTransfers s !! tx = None ∧ recover_one cfg who s tx = s) ∨
  (∃ p e, PendingTransfers s !! tx = Some p ∧
     release_held_funds_with_fee (D := D) cfg p who true (r_ledger s) = Err e ∧
     recover_one cfg who s tx = r_deposit_event (TransferRecoveryFailed tx) s) ∨
  (∃ p c, PendingTransfers s !! tx = Some p ∧
     release_held_funds_with_fee (D := D) cfg p who true (r_ledger s) = Ok c ∧
     let s' := recover_one cfg who s tx in
     HighSecurityAccounts s' = HighSecurityAccounts s ∧
     PendingTransfers s' = delete tx (PendingTransfers s) ∧
     PendingTransfersBySender s' = PendingTransfersBySender s ∧
     NextTransactionId s' = NextTransactionId s ∧ r_ledger s' = c).
Proof.
  unfold recover_one. destruct (PendingTransfers s !! tx) as [p|] eqn:Hlk; [right|by left].
  destruct (release_held_funds_with_fee cfg p who true (r_ledger s)) as [c|e] eqn:Hrel.
  - right. exists p, c. unfold cancel_task.
    destruct (make_schedule_id tx); [destruct (cancel_named _ _)|]; done.
  - left. by exists p, e.
Qed.

(** What the loop has done to the transfers of [account], all of which are in
    [l]: it only drops transfers, with their hold; what they held is the
    guardian's now, less the fees, which are burned. *)
Record recovered (account who : Hash256) s s' : Prop := {
  rv_core : rcore s → rcore s';
  rv_accounts : HighSecurityAccounts s' = HighSecurityAccounts s;
  rv_index : PendingTransfersBySender s' = PendingTransfersBySender s;
  rv_next : NextTransactionId s' = NextTransactionId s;
  rv_sub : PendingTransfers s' ⊆ PendingTransfers s;
  rv_others : ∀ tx p, PendingTransfers s !! tx = Some p → from p ≠ account →
    PendingTransfers s' !! tx = Some p;
  rv_held : ∀ a, a ≠ account → hl_held (r_ledger s') a = hl_held (r_ledger s) a;
  rv_free : ∀ a, a ≠ who → hl_free (r_ledger s') a = hl_free (r_ledger s) a;
  rv_burn : hl_issuance (r_ledger s) - hl_issuance (r_ledger s') =
    map_sum (λ _ p, volume_fee true p) (PendingTransfers s) -
    map_sum (λ _ p, volume_fee true p) (PendingTransfers s');
  rv_gain : hl_free (r_ledger s') who = hl_free (r_ledger s) who +
    (hl_held (r_ledger s) account - hl_held (r_ledger s') account) -
    (hl_issuance (r_ledger s) - hl_issuance (r_ledger s'));
  rv_mono : hl_free (r_ledger s) who ≤ hl_free (r_ledger s') who;
}.

Lemma recovered_refl account who s s' :
  HighSecurityAccounts s' = HighSecurityAccounts s → PendingTransfers s' = PendingTransfers s →
  PendingTransfersBySender s' = PendingTransfersBySender s → NextTransactionId s' = NextTransactionId s →
  r_ledger s' = r_ledger s → recovered account who s s'.
Proof.
  intros E1 E2 E3 E4 E5. split; rewrite ?E1, ?E2, ?E3, ?E4, ?E5; try done; try lia.
  intros [Hh Hp Hg Ha Hn]. split; rewrite ?E1, ?E2, ?E3, ?E4, ?E5; done.
Qed.

Lemma recovered_trans account who s1 s2 s3 :
  recovered account who s1 s2 → recovered account who s2 s3 → recovered account who s1 s3.
Proof.
  intros [] []. split; try congruence; try lia; auto.
  - by etrans.
  - intros a Ha. rewrite rv_held1, rv_held0 by done. done.
  - intros a Ha. rewrite rv_free1, rv_free0 by done. done.
Qed.

Lemma recover_one_recovered account who s tx :
  (∀ p, PendingTransfers s !! tx = Some p → from p = account ∧ 0 ≤ amount p) →
  recovered account who s (recover_one cfg who s tx).
Proof.
  intros Hfrom.
  destruct (recover_one_cases who s tx) as [[_ ->]|[(p & e & _ & _ & ->)|(p & c & Hlk & Hrel & E)]];
    [by apply recovered_refl|by apply recovered_refl|].
  cbv zeta in E. destruct E as (E1 & E2 & E3 & E4 & E5). destruct (Hfrom _ Hlk) as [Hf Ham].
  apply release_with_fee_Ok in Hrel as (Hheld & Hfree & Hiss); [|done].
  split; rewrite ?E1, ?E2, ?E3, ?E4, ?E5; try done.
  - intros Hc. eapply (rcore_drop s tx p c); try done. by rewrite E5.
  - apply delete_subseteq.
  - intros tx' p' Hlk' Hne. rewrite lookup_delete_ne; [done|]. congruence.
  - intros a Ha. rewrite Hheld, bool_decide_false by congruence. lia.
  - intros a Ha. rewrite Hfree, bool_decide_false by congruence. lia.
  - rewrite (map_sum_delete _ _ tx p) by done. lia.
  - rewrite Hfree, Hheld, !bool_decide_true by done. lia.
  - rewrite Hfree, bool_decide_true by done. pose proof (volume_fee_bounds true p Ham). lia.
Qed.

Lemma recover_loop_recovered account who l s :
  (∀ tx p, tx ∈ l → PendingTransfers s !! tx = Some p → from p = account ∧ 0 ≤ amount p) →
  recovered account who s (foldl (recover_one cfg who) s l).
Proof.
  revert s. induction l as [|tx l IH]; intros s Hfrom; [by apply recovered_refl|]. cbn.
  assert (Hone : recovered account who s (recover_one cfg who s tx)).
  { apply recover_one_recovered. intros p Hp. apply (Hfrom tx); [by left|done]. }
  eapply recovered_trans; [exact Hone|]. apply IH. intros tx' p' Hin Hlk. apply (Hfrom tx'); [by right|].
  by eapply lookup_weaken; [|apply (rv_sub _ _ _ _ Hone)].
Qed.

Lemma index_rewritten (m : gmap Hash256 (list Hash256)) account l a :
  default [] ((if bool_decide (l = []) then delete account m else <[account := l]> m) !! a) =
  if decide (a = account) then l else default [] (m !! a).
Proof.
  case_decide as Ha; [subst a|]; case_bool_decide as Hl.
  - by rewrite lookup_delete_eq, Hl.
  - by rewrite lookup_insert_eq.
  - by rewrite lookup_delete_ne.
  - by rewrite lookup_insert_ne.
Qed.

(** A recovery: the loop, the index rewritten, then the sweep, whose failure
    undoes nothing. *)
Lemma recover_Ok who account s s' :
  rinv s → recover_funds cfg (Signed who) account s = Ok s' →
  ∃ d s1, HighSecurityAccounts s !! account = Some d ∧ who = hs_guardian d ∧
    recovered account who s s1 ∧
    HighSecurityAccounts s' = HighSecurityAccounts s ∧ PendingTransfers s' = PendingTransfers s1 ∧
    NextTransactionId s' = NextTransactionId s ∧
    (∀ a, pending_ids a s' = if decide (a = account)
            then base.filter (λ id, is_Some (PendingTransfers s1 !! id)) (pending_ids a s)
            else pending_ids a s) ∧
    (dispatch_transfer_all (D := D) (r_ledger s1) account who = Ok (r_ledger s') ∨
     (∃ e, dispatch_transfer_all (r_ledger s1) account who = Err e) ∧ r_ledger s' = r_ledger s1).
Proof.
  intros [Hc Hx] Hr. unfold recover_funds in Hr. cbn [ensure_signed] in Hr.
  apply bind_Ok in Hr as (? & [= <-] & Hr). apply bind_Ok in Hr as (d & Hd & Hr).
  apply bind_Ok in Hr as (? & Hens & Hr). res_inv. exists d.
  set (s1 := foldl (recover_one cfg who) s (pending_ids account s)) in *.
  assert (Hrv : recovered account who s s1).
  { apply recover_loop_recovered. intros tx p Hin Hlk. apply (rx_exact _ Hx) in Hin as (p' & Hlk' & Hf).
    destruct (rc_pending _ Hc _ _ Hlk) as (_ & ? & _). split; [congruence|lia]. }
  exists s1. split; [done|]. split; [done|]. split; [done|].
  assert (Hids : ∀ a, pending_ids a s1 = pending_ids a s).
  { intros a. unfold pending_ids. by rewrite (rv_index _ _ _ _ Hrv). }
  rewrite Hids in Hr. destruct (dispatch_transfer_all _ _ _) as [c|e] eqn:Hda; injection Hr as <-;
    (split; [apply (rv_accounts _ _ _ _ Hrv)|]; split; [done|];
     split; [apply (rv_next _ _ _ _ Hrv)|]; split; [|first [by left | right; split; [by exists e|done]]]);
    intros a; unfold pending_ids; cbn; rewrite index_rewritten, (rv_index _ _ _ _ Hrv);
    (case_decide; [by subst a|done]).
Qed.

Lemma recover_preserves who account s s' :
  rinv s → recover_funds cfg (Signed who) account s = Ok s' → rinv s'.
Proof.
  intros Hinv Hr. destruct (recover_Ok _ _ _ _ Hinv Hr) as
    (d & s1 & _ & _ & Hrv & E1 & E2 & E3 & Hids & Hled).
  destruct Hinv as [Hc [Hx Hn Hb]]. split.
  - destruct (rv_core _ _ _ _ Hrv Hc) as [Hh Hp Hg Ha Hnx].
    split; rewrite ?E1, ?E2, ?E3, <- ?(rv_next _ _ _ _ Hrv), <- ?(rv_accounts _ _ _ _ Hrv); try done.
    intros a. rewrite <- Hh. destruct Hled as [Hd|[_ ->]]; [by eapply dispatch_transfer_all_held|done].
  - split; intros a; [intros tx|..]; rewrite Hids; [rewrite E2|..]; case_decide as Ha.
    + subst a. rewrite list_elem_of_filter, Hx. split.
      * intros ([p' Hp'] & p & Hp & Hf). exists p. split; [|done].
        rewrite Hp'. symmetry. rewrite <- Hp.
        by eapply lookup_weaken; [|apply (rv_sub _ _ _ _ Hrv)].
      * intros (p & Hp & Hf). split; [eauto|]. exists p. split; [|done].
        by eapply lookup_weaken; [|apply (rv_sub _ _ _ _ Hrv)].
    + rewrite Hx. split; intros (p & Hp & Hf); exists p; (split; [|done]).
      * eapply (rv_others _ _ _ _ Hrv); [done|congruence].
      * by eapply lookup_weaken; [|apply (rv_sub _ _ _ _ Hrv)].
    + by apply NoDup_filter.
    + apply Hn.
    + etrans; [|apply (Hb a)]. apply Nat2Z.inj_le, length_filter.
    + apply Hb.
Qed.

(** ** Reachable states *)
Lemma call_preserves who k s s' :
  rinv s → call_in_range k s → reversible_call who k s = Ok s' → rinv s'.
Proof.
  intros Hi Hr Hc. pose proof Hi as [Hcore _]. destruct k; cbn [reversible_call call_in_range] in *.
  - by eapply set_high_security_preserves.
  - by eapply cancel_preserves.
  - by eapply execute_preserves.
  - destruct Hr. unfold schedule_transfer, do_schedule_transfer in Hc. cbn [ensure_signed] in Hc.
    apply bind_Ok in Hc as (? & [= <-] & Hc). apply bind_Ok in Hc as (d & Hd & Hc). res_inv.
    eapply schedule_preserves; try done. right. by exists d.
  - destruct Hr. unfold schedule_transfer_with_delay in Hc. cbn [ensure_signed] in Hc.
    apply bind_Ok in Hc as (? & [= <-] & Hc). do 2 apply bind_Ok in Hc as (? & _ & Hc).
    eapply schedule_preserves; try done. by left.
  - by eapply recover_preserves.
Qed.

(** Genesis, the calls, the quota records of the extension, and the rest of
    the chain: time passes and other pallets work on the ledger and the
    scheduler without touching these holds. *)
Inductive rreach : Reversible C P Sc D → Prop :=
| rr_genesis l m s :
    genesis_accounts cfg l ∅ = Some m → HighSecurityAccounts s = m → HighSecurityTxQuota s = ∅ →
    PendingTransfers s = ∅ → PendingTransfersBySender s = ∅ → NextTransactionId s = 0 →
    (∀ a, hl_held (r_ledger s) a = 0) → rreach s
| rr_call who k s s' :
    rreach s → call_in_range k s → reversible_call who k s = Ok s' → rreach s'
| rr_quota who s s' : rreach s → record_high_security_tx cfg who s = Ok s' → rreach s'
| rr_env s s' :
    rreach s → HighSecurityAccounts s' = HighSecurityAccounts s →
    HighSecurityTxQuota s' = HighSecurityTxQuota s → PendingTransfers s' = PendingTransfers s →
    PendingTransfersBySender s' = PendingTransfersBySender s →
    NextTransactionId s' = NextTransactionId s → r_block s ≤ r_block s' → r_now s ≤ r_now s' →
    (∀ a, hl_held (r_ledger s') a = hl_held (r_ledger s) a) → rreach s'.

Lemma genesis_accounts_ok l m m' :
  genesis_accounts cfg l m = Some m' →
  (∀ who d, m !! who = Some d → hs_guardian d ≠ who ∧ validate_delay (D := D) cfg (hs_delay d) = Ok tt) →
  ∀ who d, m' !! who = Some d → hs_guardian d ≠ who ∧ validate_delay (D := D) cfg (hs_delay d) = Ok tt.
Proof.
  revert m. induction l as [|[[a g] delay] l IH]; intros m; cbn; [by intros [= <-]|].
  case_bool_decide as Hga; [done|]. intros Hg Hok. apply (IH _ Hg).
  destruct (Z.leb_spec (MinDelayPeriodBlocks cfg) delay) as [Hmin|]; [|done].
  intros who d [[<- <-]|[_ Hd]]%lookup_insert_Some; [|by apply Hok]. cbn.
  split; [done|]. by rewrite (proj2 (Z.leb_le _ _)).
Qed.

Lemma rinv_same_storage s s' :
  rinv s → HighSecurityAccounts s' = HighSecurityAccounts s → PendingTransfers s' = PendingTransfers s →
  PendingTransfersBySender s' = PendingTransfersBySender s → NextTransactionId s' = NextTransactionId s →
  (∀ a, hl_held (r_ledger s') a = hl_held (r_ledger s) a) → rinv s'.
Proof.
  intros [[Hh Hp Hg Ha Hn] [Hx Hnd Hb]] E1 E2 E3 E4 E5.
  split; split; unfold pending_ids; rewrite ?E1, ?E2, ?E3, ?E4; try done. intros a. by rewrite E5.
Qed.

Lemma record_Ok who s s' :
  record_high_security_tx cfg who s = Ok s' → ∃ m, s' = put_quota m s.
Proof.
  unfold record_high_security_tx, record_hs_quota. destruct (is_high_security_account who s); cbn.
  - intros. res_inv. by eexists.
  - intros [= <-]. exists (HighSecurityTxQuota s). by destruct s.
Qed.

Lemma rreach_inv s : rreach s → rinv s.
Proof.
  induction 1 as [l m s Hg Hm Hq Hp Hi Hn Hh|who k s s' _ IH Hr Hc|who s s' _ IH Hr|s s' _ IH].
  - split; split; unfold pending_ids; rewrite ?Hm, ?Hp, ?Hi, ?Hn; try done.
    + intros. by eapply genesis_accounts_ok.
    + intros a tx. rewrite lookup_empty. cbn. split; [by intros ?%not_elem_of_nil|].
      intros (p & Hl & _). done.
    + intros a. rewrite lookup_empty. constructor.
    + intros a. rewrite lookup_empty. apply (vr_pending _ Hcfg).
  - by eapply call_preserves.
  - apply record_Ok in Hr as [m ->]. by eapply rinv_same_storage.
  - by eapply rinv_same_storage.
Qed.
End Invariant.
