(* ===== verification/ReversibleTheorems.v ===== *)
(** * Reversible transfers: theorems

    What the holds back, what a cancellation, an execution and a recovery pay,
    what a stolen key cannot do, how many extrinsics fit in a window, and how
    early a transfer can run. *)

From stdpp Require Import base option list numbers gmap fin_maps relations.
From S2P Require Import Prelude Crypto Interfaces Frame SchedulerTime Reversible ReversibleProps.
#[local] Open Scope Z_scope.

Section Theorems.
Context {C P Sc D : Type} `{HoldLedgerLaws C D, ProofRecorder P, ScheduleNamed Sc}.
Context (cfg : ReversibleConfig).
Implicit Types (s : Reversible C P Sc D) (p : PendingTransfer).

(** C34: in every reachable state the balance an account has on hold is the
    sum of its pending transfers' amounts, each of them positive; the
    per-sender index lists exactly those transfers, without duplicates, and
    never more than [MaxPendingPerAccount]. *)
Theorem holds_match_pending s (Hcfg : valid_reversible_config cfg) (Hs : rreach cfg s) (a : Hash256) :
  hl_held (r_ledger s) a = pending_sum (PendingTransfers s) a ∧
  (∀ tx, tx ∈ pending_ids a s ↔ ∃ p, PendingTransfers s !! tx = Some p ∧ from p = a ∧ 0 < amount p) ∧
  NoDup (pending_ids a s) ∧ Z.of_nat (length (pending_ids a s)) ≤ MaxPendingPerAccount cfg.
Proof.
  destruct (rreach_inv _ Hcfg _ Hs) as [Hc Hx]. split_and!; [apply (rc_held _ _ Hc)| |apply (rx_nodup _ _ Hx)|apply (rx_bound _ _ Hx)].
  intros tx. rewrite (rx_exact _ _ Hx). split; intros (p & Hp & Hr); exists p; [|tauto].
  split_and!; [done|done|]. by apply (rc_pending _ _ Hc) in Hp as (_ & ? & _).
Qed.

(** A cancellation succeeds only for the guardian frozen into the
    transfer (the sender itself for a one-time transfer). It pays that
    guardian the amount less the volume fee, burns the fee, takes the whole
    amount out of the sender's hold, touches no other balance, and the
    transfer can be neither cancelled again nor executed afterwards. *)
Theorem cancel_splits_the_hold s s' (who tx : Hash256) (Hcfg : valid_reversible_config cfg)
    (Hs : rreach cfg s) (Hok : cancel cfg (Signed who) tx s = Ok s') :
  ∃ p, PendingTransfers s !! tx = Some p ∧ who = guardian p ∧
    let fee := if bool_decide (guardian p = from p) then 0 else permill_mul (VolumeFee cfg) (amount p) in
    0 ≤ fee ≤ amount p ∧ hl_issuance (r_ledger s') = hl_issuance (r_ledger s) - fee ∧
    (∀ a, hl_held (r_ledger s') a = hl_held (r_ledger s) a - if bool_decide (from p = a) then amount p else 0) ∧
    (∀ a, hl_free (r_ledger s') a = hl_free (r_ledger s) a + if bool_decide (who = a) then amount p - fee else 0) ∧
    (∀ anyone, cancel cfg (Signed anyone) tx s' = Err (RModule PendingTxNotFound)) ∧
    execute_transfer cfg (Signed (account_id cfg)) tx s' = Err (RModule PendingTxNotFound).
Proof.
  destruct (rreach_inv _ Hcfg _ Hs) as [Hc _].
  apply cancel_Ok in Hok as (p & c & Hlk & Hw & Hrel & _ & E2 & _ & _ & <-).
  destruct (rc_pending _ _ Hc _ _ Hlk) as (_ & Ham & _). exists p. split; [done|]. split; [done|]. cbv zeta.
  set (fee := if bool_decide _ then _ else _).
  assert (Hfee : volume_fee cfg (bool_decide (guardian p ≠ from p)) p = fee).
  { unfold fee, volume_fee. repeat case_bool_decide; done. }
  pose proof (volume_fee_bounds _ Hcfg (bool_decide (guardian p ≠ from p)) p ltac:(lia)) as Hb.
  apply (release_with_fee_Ok _ Hcfg) in Hrel as (Hheld & Hfree & Hiss); [|lia]. rewrite Hfee in *.
  subst who. split_and!; try done; try lia.
  - intros anyone. unfold cancel, cancel_transfer. cbn [ensure_signed]. by rewrite E2, lookup_delete_eq.
  - unfold execute_transfer, do_execute_transfer. cbn [ensure_signed]. cbn.
    by rewrite bool_decide_true, E2, lookup_delete_eq.
Qed.

(** Only the scheduler's task can execute a transfer. The hold leaves
    with it, and either the recipient is credited the whole amount, or the
    dispatch failed and the sender has the whole amount back as free
    balance; no transfer runs twice. *)
Theorem execution_delivers_or_returns s s' (who tx : Hash256) (Hcfg : valid_reversible_config cfg)
    (Hs : rreach cfg s) (Hok : execute_transfer cfg (Signed who) tx s = Ok s') :
  ∃ p, who = account_id cfg ∧ PendingTransfers s !! tx = Some p ∧
    (∀ a, hl_held (r_ledger s') a = hl_held (r_ledger s) a - if bool_decide (from p = a) then amount p else 0) ∧
    (from p ≠ to p →
     hl_free (r_ledger s') (to p) = hl_free (r_ledger s) (to p) + amount p ∨
     hl_free (r_ledger s') (from p) = hl_free (r_ledger s) (from p) + amount p ∧
     hl_free (r_ledger s') (to p) = hl_free (r_ledger s) (to p)) ∧
    execute_transfer cfg (Signed who) tx s' = Err (RModule PendingTxNotFound).
Proof.
  destruct (rreach_inv _ Hcfg _ Hs) as [Hc _].
  apply execute_Ok in Hok as (p & c & Hw & Hlk & Hrel & _ & E2 & _ & _ & Hd).
  destruct (rc_pending _ _ Hc _ _ Hlk) as (_ & Ham & _).
  apply release_Ok in Hrel as (Hf & Hh & Hne & _); [|lia]. exists p. split_and!; [done|done|..].
  - intros a. assert (Hca : hl_held (r_ledger s') a = hl_held c a).
    { destruct Hd as [Hd|[_ ->]]; [by eapply dispatch_transfer_allow_death_held|done]. }
    rewrite Hca. case_bool_decide as Ha; [by subst a|]. destruct (Hne a) as [_ ->]; [done|lia].
  - intros Hft. destruct (Hne (to p)) as [Hto _]; [done|]. destruct Hd as [Hd|[_ ->]]; [left|right; done].
    apply dispatch_transfer_allow_death_credit in Hd; [lia|lia|done].
  - unfold execute_transfer, do_execute_transfer. cbn [ensure_signed]. cbn.
    by rewrite bool_decide_true, E2, lookup_delete_eq.
Qed.

(** A recovery, which only the account's guardian can run, hands the
    guardian everything the cancelled transfers held less their fees, which
    are burned; what stays on hold is what stays pending; other accounts'
    transfers are untouched, and so are their holds. The sweep of the free
    balance then runs from that ledger or, when it fails, changes nothing. *)
Theorem recovery_hands_over_the_holds s s' (who account : Hash256) (Hcfg : valid_reversible_config cfg)
    (Hs : rreach cfg s) (Hok : recover_funds cfg (Signed who) account s = Ok s') :
  get_guardian account s = Some who ∧
  ∃ c, hl_held c account = pending_sum (PendingTransfers s') account ∧
    hl_free c who = hl_free (r_ledger s) who + (hl_held (r_ledger s) account - hl_held c account) -
                    (hl_issuance (r_ledger s) - hl_issuance c) ∧
    hl_issuance (r_ledger s) - hl_issuance c =
      map_sum (λ _ p, permill_mul (VolumeFee cfg) (amount p)) (PendingTransfers s) -
      map_sum (λ _ p, permill_mul (VolumeFee cfg) (amount p)) (PendingTransfers s') ∧
    (∀ a, a ≠ account → hl_held c a = hl_held (r_ledger s) a) ∧
    (∀ tx p, from p ≠ account → PendingTransfers s' !! tx = Some p ↔ PendingTransfers s !! tx = Some p) ∧
    (dispatch_transfer_all (D := D) c account who = Ok (r_ledger s') ∨
     (∃ e, dispatch_transfer_all c account who = Err e) ∧ r_ledger s' = c).
Proof.
  pose proof (rreach_inv _ Hcfg _ Hs) as Hinv.
  destruct (recover_Ok _ Hcfg _ _ _ _ Hinv Hok) as (d & s1 & Hd & Hw & Hrv & _ & E2 & _ & _ & Hled).
  split; [unfold get_guardian; by rewrite Hd, Hw|]. exists (r_ledger s1). rewrite E2.
  pose proof (rv_core _ _ _ _ _ Hrv (proj1 Hinv)) as Hc1. split_and!; [apply (rc_held _ _ Hc1)|..|done].
  - apply (rv_gain _ _ _ _ _ Hrv).
  - apply (rv_burn _ _ _ _ _ Hrv).
  - apply (rv_held _ _ _ _ _ Hrv).
  - intros tx p Hne. split; intros Hp; [|by eapply (rv_others _ _ _ _ _ Hrv)].
    by eapply lookup_weaken; [|apply (rv_sub _ _ _ _ _ Hrv)].
Qed.

(** ** A stolen key *)

(** A call signed by anyone but the guardian [g] and the pallet's account. *)
Definition hostile_step (g : Hash256) s s' : Prop :=
  ∃ who k, who ≠ g ∧ who ≠ account_id cfg ∧ call_in_range k s ∧ reversible_call cfg who k s = Ok s'.

Definition total (c : C) (a : Hash256) : Z := hl_free c a + hl_held c a.

Lemma schedule_inner_total frm dest g amt delay s s' a :
  0 ≤ amt → do_schedule_transfer_inner cfg frm dest g amt delay None s = Ok s' →
  total (r_ledger s') a = total (r_ledger s) a ∧ HighSecurityAccounts s' = HighSecurityAccounts s.
Proof.
  intros Hamt Hs. destruct (schedule_inner_Ok _ _ _ _ _ _ _ _ Hs) as
    (rc & q & c & _ & _ & _ & _ & Hhold & E1 & _ & _ & _ & -> & _).
  split; [|done]. unfold total. destruct (hold_Ok _ _ _ _ Hamt Hhold) as (Hf & Hh & Hne & _).
  destruct (decide (a = frm)) as [->|Ha]; [lia|]. destruct (Hne a Ha) as [-> ->]. done.
Qed.

Lemma cancel_total s s' who tx a d :
  valid_reversible_config cfg → rcore cfg s → HighSecurityAccounts s !! a = Some d → who ≠ hs_guardian d →
  cancel cfg (Signed who) tx s = Ok s' → total (r_ledger s) a ≤ total (r_ledger s') a.
Proof.
  intros Hcfg Hc Hd Hg (p & c & Hlk & Hw & Hrel & _ & _ & _ & _ & <-)%cancel_Ok.
  destruct (rc_pending _ _ Hc _ _ Hlk) as (_ & Ham & _).
  pose proof (volume_fee_bounds _ Hcfg (bool_decide (guardian p ≠ from p)) p ltac:(lia)) as Hb.
  apply (release_with_fee_Ok _ Hcfg) in Hrel as (Hheld & Hfree & _); [|lia].
  unfold total. rewrite Hheld, Hfree.
  destruct (decide (from p = a)) as [Hfa|Hfa].
  2: { rewrite (bool_decide_false (from p = a)) by done. destruct (bool_decide (guardian p = a)); lia. }
  destruct (rc_guardian _ _ Hc _ _ Hlk) as [Heq|(d' & Hd' & Heq)]; [|exfalso; subst a; congruence].
  rewrite Heq in *. rewrite !bool_decide_true by done. rewrite bool_decide_false by tauto.
  unfold volume_fee. lia.
Qed.

Lemma recover_total s s' who account a d :
  valid_reversible_config cfg → rinv cfg s → HighSecurityAccounts s !! a = Some d → who ≠ hs_guardian d →
  recover_funds cfg (Signed who) account s = Ok s' → total (r_ledger s) a ≤ total (r_ledger s') a.
Proof.
  intros Hcfg Hi Hd Hg Hr.
  destruct (recover_Ok _ Hcfg _ _ _ _ Hi Hr) as (d' & s1 & Hd' & Hw & Hrv & _ & _ & _ & _ & Hled).
  assert (Hne : a ≠ account) by congruence.
  assert (Hsw : hl_held (r_ledger s') a = hl_held (r_ledger s1) a ∧ hl_free (r_ledger s1) a ≤ hl_free (r_ledger s') a).
  { destruct Hled as [Hl|[_ ->]]; [|done]. split.
    - by eapply dispatch_transfer_all_held.
    - by eapply dispatch_transfer_all_debit. }
  unfold total. rewrite (proj1 Hsw), (rv_held _ _ _ _ _ Hrv) by done.
  assert (hl_free (r_ledger s) a ≤ hl_free (r_ledger s1) a); [|lia].
  destruct (decide (a = who)) as [->|Ha]; [apply (rv_mono _ _ _ _ _ Hrv)|].
  by rewrite (rv_free _ _ _ _ _ Hrv).
Qed.

Lemma hostile_step_total s s' a d :
  valid_reversible_config cfg → rinv cfg s → HighSecurityAccounts s !! a = Some d →
  hostile_step (hs_guardian d) s s' →
  rinv cfg s' ∧ HighSecurityAccounts s' !! a = Some d ∧ total (r_ledger s) a ≤ total (r_ledger s') a.
Proof.
  intros Hcfg Hi Hd (who & k & Hg & Hac & Hr & Hc). split; [by eapply call_preserves|].
  destruct k; cbn [reversible_call call_in_range] in *.
  - apply set_high_security_Ok in Hc as (_ & Hnone & _ & ->). cbn. split; [|lia].
    rewrite lookup_insert_ne; [done|congruence].
  - split; [|eapply cancel_total; try done; apply Hi].
    by apply cancel_Ok in Hc as (p & c & _ & _ & _ & -> & _).
  - by apply execute_Ok in Hc as (p & c & -> & _).
  - destruct Hr as [Hamt _]. unfold schedule_transfer, do_schedule_transfer in Hc. cbn [ensure_signed] in Hc.
    apply bind_Ok in Hc as (? & [= <-] & Hc). apply bind_Ok in Hc as (d' & _ & Hc).
    apply (schedule_inner_total _ _ _ _ _ _ _ a Hamt) in Hc as [-> ->]. split; [done|lia].
  - destruct Hr as [Hamt _]. unfold schedule_transfer_with_delay in Hc. cbn [ensure_signed] in Hc.
    apply bind_Ok in Hc as (? & [= <-] & Hc). do 2 apply bind_Ok in Hc as (? & _ & Hc).
    apply (schedule_inner_total _ _ _ _ _ _ _ a Hamt) in Hc as [-> ->]. split; [done|lia].
  - split; [|by eapply recover_total].
    by apply (recover_Ok _ Hcfg _ _ _ _ Hi) in Hc as (d' & s1 & _ & _ & _ & -> & _).
Qed.

(** C19: take a high-security account and any sequence of calls of this
    pallet signed by anyone but its guardian and the scheduler's account, the
    account's own (stolen) key included. The account keeps its guardian and
    its delay, and its free and held balance together never fall. *)
Theorem stolen_key_moves_nothing s s' (a : Hash256) (d : HighSecurityAccountData)
    (Hcfg : valid_reversible_config cfg) (Hs : rreach cfg s)
    (Hd : HighSecurityAccounts s !! a = Some d) (Hrun : rtc (hostile_step (hs_guardian d)) s s') :
  HighSecurityAccounts s' !! a = Some d ∧ total (r_ledger s) a ≤ total (r_ledger s') a.
Proof.
  apply (rreach_inv _ Hcfg) in Hs. induction Hrun as [s|s s1 s' Hstep _ IH]; [done|].
  destruct (hostile_step_total _ _ _ _ Hcfg Hs Hd Hstep) as (Hi1 & Hd1 & Hle).
  destruct (IH Hi1 Hd1) as [Hd' Hle']. split; [done|lia].
Qed.

(** ** The quota *)
Definition at_block (t : Z) s : Reversible C P Sc D :=
  {| HighSecurityAccounts := HighSecurityAccounts s; HighSecurityTxQuota := HighSecurityTxQuota s;
     PendingTransfers := PendingTransfers s; PendingTransfersBySender := PendingTransfersBySender s;
     NextTransactionId := NextTransactionId s; r_events := r_events s; r_block := t;
     r_now := r_now s; r_ledger := r_ledger s; r_proofs := r_proofs s; r_sched := r_sched s |}.

(** The blocks at which an extrinsic of [a] was let through, given the
    attempts (block, signer) of everyone. *)
Fixpoint quota_log (a : Hash256) (l : list (Z * Hash256)) s : list Z :=
  match l with
  | [] => []
  | (t, who) :: l' =>
      match record_high_security_tx cfg who (at_block t s) with
      | Ok s' => (if bool_decide (who = a) then [t] else []) ++ quota_log a l' s'
      | Err _ => quota_log a l' (at_block t s)
      end
  end.

Lemma ring_record_error cap ring t D1 D2 :
  match hs_ring_record (D := D1) cfg cap ring t, hs_ring_record (D := D2) cfg cap ring t with
  | Ok r, Ok r' => r = r'
  | Err _, Err _ => True
  | _, _ => False
  end.
Proof.
  unfold hs_ring_record. destruct (hs_ring_has_room _ _ _ _); [|done]. cbn. by destruct (try_push _ _ _).
Qed.

Lemma quota_log_ring a l s :
  is_high_security_account a s = true →
  quota_log a l s = ring_accept cfg (MaxHighSecurityTxsPerWindow cfg) (quota_of a s)
                      (map fst (base.filter (λ x, x.2 = a) l)).
Proof.
  revert s. induction l as [|[t who] l IH]; intros s Hhs; [done|]. cbn [quota_log].
  unfold record_high_security_tx, record_hs_quota.
  change (is_high_security_account who (at_block t s)) with (is_high_security_account who s).
  change (quota_of who (at_block t s)) with (quota_of who s). change (r_block (at_block t s)) with t.
  destruct (decide (who = a)) as [->|Hne].
  - rewrite Hhs, filter_cons_True by done. cbn [map fst ring_accept negb].
    pose proof (ring_record_error (MaxHighSecurityTxsPerWindow cfg) (quota_of a s) t D unit) as He.
    destruct (hs_ring_record (D := D) _ _ _ _) as [r|e], (hs_ring_record (D := unit) _ _ _ _) as [r'|e'];
      try done; cbn; [|by apply (IH (at_block t s))].
    subst r'. rewrite bool_decide_true by done. cbn. f_equal. rewrite IH by done.
    unfold quota_of. cbn. by rewrite lookup_insert_eq.
  - rewrite filter_cons_False by done.
    destruct (is_high_security_account who s); cbn; [destruct (hs_ring_record _ _ _ _); cbn|];
      rewrite ?bool_decide_false by done; cbn; rewrite IH by done; try done.
    unfold quota_of. cbn. by rewrite lookup_insert_ne.
Qed.

Lemma rising_filter (a : Hash256) (l : list (Z * Hash256)) :
  rising (map fst l) → rising (map fst (base.filter (λ x, x.2 = a) l)).
Proof.
  induction l as [|[t who] l IH]; intros Hr; [done|]. cbn [map fst] in Hr.
  pose proof (IH (rising_cons _ _ Hr)) as Hl.
  destruct (decide (who = a)) as [Hw|Hw]; [|by rewrite filter_cons_False].
  rewrite filter_cons_True by done. intros [|i] [|j] y z Hij Hy Hz; try lia; cbn in Hy, Hz.
  - simplify_eq. lia.
  - injection Hy as ->. apply list_elem_of_lookup_2, list_elem_of_fmap in Hz as (x & -> & [_ Hx]%list_elem_of_filter).
    apply (list_elem_of_fmap_2 fst), list_elem_of_lookup in Hx as [k Hk].
    by apply (Hr 0%nat (S k) y x.1); [lia| |].
  - apply (Hl i j); [lia|done|done].
Qed.

(** However the extrinsics of any number of accounts interleave over
    successive blocks, a high-security account with a fresh ring gets at most
    [MaxHighSecurityTxsPerWindow] of its extrinsics through in any window of
    [HighSecurityTxWindowBlocks] blocks, wherever the window starts. *)
Theorem quota_bounds_every_window s (a : Hash256) (l : list (Z * Hash256)) (t0 : Z)
    (Hhs : is_high_security_account a s = true) (Hnew : quota_of a s = [])
    (Hcap : 0 ≤ MaxHighSecurityTxsPerWindow cfg) (Htimes : rising (map fst l)) :
  Z.of_nat (length (base.filter (λ t, t0 ≤ t < t0 + HighSecurityTxWindowBlocks cfg) (quota_log a l s))) ≤
  MaxHighSecurityTxsPerWindow cfg.
Proof.
  rewrite quota_log_ring, Hnew by done. set (cap := MaxHighSecurityTxsPerWindow cfg) in *.
  destruct (Z.eq_dec cap 0) as [Hz|Hz].
  - rewrite no_capacity_accepts_nothing by (done || lia). cbn. lia.
  - destruct (ring_accept_spaced cfg cap (map fst (base.filter (λ x, x.2 = a) l)) [] []) as [Hsp Hri];
      [lia| | |by apply rising_filter|].
    + exists []. split_and!; [done|cbn; lia|done].
    + by intros i x y Hx.
    + cbn [app] in *. pose proof (window_bound cfg _ _ t0 Hri Hsp) as Hw. cbv beta in Hw. lia.
Qed.

(** ** The delay *)
Definition min_delay_of (x : BlockNumberOrTimestamp) : Z :=
  match x with BlockNumber _ => MinDelayPeriodBlocks cfg | Timestamp _ => MinDelayPeriodMoment cfg end.
Definition delay_value (x : BlockNumberOrTimestamp) : Z :=
  match x with BlockNumber n => n | Timestamp t => t end.
Definition clock_of (x : BlockNumberOrTimestamp) s : Z :=
  match x with BlockNumber _ => r_block s | Timestamp _ => r_now s end.

Lemma valid_delay_min x : validate_delay (D := D) cfg x = Ok tt → min_delay_of x ≤ delay_value x.
Proof. destruct x; cbn; intros; res_inv; lia. Qed.

Lemma resolved_not_early bucket x s r :
  0 < bucket → 0 ≤ clock_of x s → 0 ≤ delay_value x →
  match x with
  | BlockNumber n => r_block s + n ≤ u_max 32
  | Timestamp t => r_now s + t + 2 * bucket ≤ u_max 64
  end →
  resolve_time bucket (r_block s) (r_now s) (dispatch_time_of x s) = Ok r →
  clock_of r s = clock_of x s ∧ clock_of x s + delay_value x ≤ delay_value r.
Proof.
  intros Hb Hck Hdv Hmax Hr. destruct x as [n|t]; cbn [dispatch_time_of clock_of delay_value] in *.
  - rewrite sat_add_exact in Hr by lia. unfold resolve_time in Hr. res_inv. subst r. cbn. split; [done|lia].
  - rewrite sat_add_exact in Hr by lia. apply resolve_timestamp in Hr as (t' & -> & _ & Ht'); [|lia..].
    cbn. split; [done|lia].
Qed.

(** Scheduling a transfer files, under the transfer's own id, a task that
    calls [execute_transfer] as the pallet's account, at a dispatch time that
    the scheduler resolves to at least the account's delay (hence at least
    the configured minimum) after the current block or time, on the delay's
    own clock. *)
Theorem transfer_waits_out_its_delay s s' (who : Hash256) (dest : MultiAddress) (amt bucket : Z) r
    (Hcfg : valid_reversible_config cfg) (Hs : rreach cfg s)
    (Hok : schedule_transfer cfg (Signed who) dest amt s = Ok s') (Hb : 0 < bucket)
    (Hclock : ∀ d, HighSecurityAccounts s !! who = Some d →
      0 ≤ clock_of (hs_delay d) s ∧ 0 ≤ delay_value (hs_delay d) ∧
      match hs_delay d with
      | BlockNumber n => r_block s + n ≤ u_max 32
      | Timestamp t => r_now s + t + 2 * bucket ≤ u_max 64
      end) :
  ∃ d recipient, let tx := hash_of_transfer cfg who dest amt (NextTransactionId s) in
    let dt := dispatch_time_of (hs_delay d) s in
    HighSecurityAccounts s !! who = Some d ∧
    schedule_named (r_sched s) tx dt (Signed (account_id cfg)) tx = Ok (r_sched s') ∧
    PendingTransfers s' !! tx = Some {| from := who; to := recipient; guardian := hs_guardian d;
                                        asset_id := None; amount := amt |} ∧
    (resolve_time bucket (r_block s) (r_now s) dt = Ok r →
     clock_of r s = clock_of (hs_delay d) s ∧ clock_of r s + delay_value (hs_delay d) ≤ delay_value r ∧
     clock_of r s + min_delay_of (hs_delay d) ≤ delay_value r).
Proof.
  destruct (rreach_inv _ Hcfg _ Hs) as [Hc _].
  unfold schedule_transfer, do_schedule_transfer in Hok. cbn [ensure_signed] in Hok.
  apply bind_Ok in Hok as (? & [= <-] & Hok). apply bind_Ok in Hok as (d & Hd & Hok). res_inv.
  destruct (schedule_inner_Ok _ _ _ _ _ _ _ _ Hok) as
    (rc & q & c & _ & _ & _ & Hsch & _ & _ & E2 & _ & _ & _ & ->).
  exists d, rc. cbv zeta.
  destruct (rc_accounts _ _ Hc _ _ Hd) as [_ Hmin%valid_delay_min].
  destruct (Hclock _ Hd) as (Hck & Hdv & Hmx). split_and!; [done|done| |].
  - by rewrite E2, lookup_insert_eq.
  - intros [Hclk Hle]%resolved_not_early; [|done..]. rewrite Hclk. split_and!; [done|lia|lia].
Qed.
End Theorems.
