(* ===== verification/ReversibleWitnesses.v ===== *)
(** * Reversible transfers: a concrete run

    A ledger with holds, a scheduler that keeps its agenda in a map, and a
    high-security savings account whose transfer is scheduled, cancelled,
    executed or recovered, at which the theorems are applied. *)

From stdpp Require Import base option list numbers gmap fin_maps relations.
From S2P Require Import Prelude Crypto Interfaces Frame SchedulerTime Reversible ReversibleProps ReversibleTheorems.
#[local] Open Scope Z_scope.

Module ReversibleExample.
(** ** A ledger with holds *)
Record Vault := { spendable : gmap Hash256 Z; on_hold : gmap Hash256 Z; supply : Z }.
Definition at_ (m : gmap Hash256 Z) (a : Hash256) : Z := default 0 (m !! a).
Definition bump (m : gmap Hash256 Z) (a : Hash256) (v : Z) : gmap Hash256 Z := <[a := at_ m a + v]> m.

Lemma at_bump m a v b : at_ (bump m a v) b = at_ m b + if bool_decide (a = b) then v else 0.
Proof.
  unfold at_, bump. case_bool_decide as Hab; [subst b; by rewrite lookup_insert_eq|].
  rewrite lookup_insert_ne by done. lia.
Qed.
Lemma at_bump_eq m a v : at_ (bump m a v) a = at_ m a + v.
Proof. by rewrite at_bump, bool_decide_true. Qed.
Lemma at_bump_ne m a v b : b ≠ a → at_ (bump m a v) b = at_ m b.
Proof. intros. rewrite at_bump, bool_decide_false by congruence. lia. Qed.

Definition move (m : gmap Hash256 Z) (a b : Hash256) (v : Z) : gmap Hash256 Z := bump (bump m a (- v)) b v.
Definition pay (c : Vault) (a b : Hash256) (v : Z) : result unit Vault :=
  if (0 <=? v) && (v <=? at_ (spendable c) a)
  then Ok {| spendable := move (spendable c) a b v; on_hold := on_hold c; supply := supply c |} else Err tt.

#[export] Instance vault_ops : HoldLedger Vault unit := {|
  hl_free c a := at_ (spendable c) a;
  hl_held c a := at_ (on_hold c) a;
  hl_issuance := supply;
  hold c who v :=
    if v <=? at_ (spendable c) who
    then Ok {| spendable := bump (spendable c) who (- v); on_hold := bump (on_hold c) who v; supply := supply c |}
    else Err tt;
  release c who v :=
    if v <=? at_ (on_hold c) who
    then Ok {| spendable := bump (spendable c) who v; on_hold := bump (on_hold c) who (- v); supply := supply c |}
    else Err tt;
  burn_held c who v :=
    if v <=? at_ (on_hold c) who
    then Ok {| spendable := spendable c; on_hold := bump (on_hold c) who (- v); supply := supply c - v |}
    else Err tt;
  transfer_on_hold c a b v :=
    if v <=? at_ (on_hold c) a
    then Ok {| spendable := bump (spendable c) b v; on_hold := bump (on_hold c) a (- v); supply := supply c |}
    else Err tt;
  dispatch_transfer_allow_death := pay;
  dispatch_transfer_all c a b := pay c a b (at_ (spendable c) a);
|}.

Lemma pay_Ok c c' a b v :
  pay c a b v = Ok c' → 0 ≤ v ∧ on_hold c' = on_hold c ∧
  ∀ x, at_ (spendable c') x = at_ (spendable c) x - (if bool_decide (a = x) then v else 0) +
                              if bool_decide (b = x) then v else 0.
Proof.
  unfold pay. destruct ((0 <=? v) && _) eqn:Hv; [|done]. intros [= <-]. apply andb_prop in Hv as [Hv _].
  split_and!; [lia|done|]. intros x. cbn. unfold move. rewrite !at_bump.
  destruct (bool_decide (a = x)), (bool_decide (b = x)); lia.
Qed.

#[export] Instance vault_laws : HoldLedgerLaws Vault unit.
Proof.
  split.
  - intros c c' who v Hv He. cbn in *. case_match; simplify_eq. cbn. rewrite !at_bump_eq.
    split_and!; [lia|lia| |done]. intros a Ha. by rewrite !at_bump_ne.
  - intros c c' who v Hv He. cbn in *. case_match; simplify_eq. cbn. rewrite !at_bump_eq.
    split_and!; [lia|lia| |done]. intros a Ha. by rewrite !at_bump_ne.
  - intros c c' who v Hv He. cbn in *. case_match; simplify_eq. cbn. rewrite !at_bump_eq.
    split_and!; [lia|done| |done]. intros a Ha. by rewrite !at_bump_ne.
  - intros c c' a b v Hv Hne He. cbn in *. case_match; simplify_eq. cbn. rewrite !at_bump_eq.
    split_and!; [lia|lia|..|done]; intros x Hx; by rewrite !at_bump_ne.
  - intros c c' a b v x (_ & Hh & _)%pay_Ok. cbn. by rewrite Hh.
  - intros c c' a b x (_ & Hh & _)%pay_Ok. cbn. by rewrite Hh.
  - intros c c' a b v _ Hne (_ & _ & Hs)%pay_Ok. cbn. rewrite Hs, bool_decide_false, bool_decide_true by done. lia.
  - intros c c' a b x Hx (Hv & _ & Hs)%pay_Ok. cbn. rewrite Hs, bool_decide_false by done.
    case_bool_decide; lia.
Qed.

(** ** A scheduler *)
Abbreviation Agenda := (gmap Hash256 (DispatchTime * Hash256)).
#[export] Instance agenda_ops : ScheduleNamed Agenda := {|
  schedule_named q id when_ _ tx :=
    match q !! id with Some _ => Err tt | None => Ok (<[id := (when_, tx)]> q) end;
  cancel_named q id := match q !! id with Some _ => Ok (delete id q) | None => Err tt end;
|}.
#[export] Instance no_proofs : ProofRecorder unit := {| record_transfer_proof _ _ _ _ := (tt, true) |}.

(** ** A savings account with a guardian *)
Definition account (n : Z) : Hash256 := replicate 31 0 ++ [n].
Definition savings := account 1.
Definition keeper := account 2.
Definition shop := account 3.
Definition pallet := account 9.

Definition cfg : ReversibleConfig := {|
  MaxPendingPerAccount := 16; MaxHighSecurityTxsPerWindow := 2; HighSecurityTxWindowBlocks := 10;
  DefaultDelay := BlockNumber 100; MinDelayPeriodBlocks := 2; MinDelayPeriodMoment := 12000;
  account_id := pallet; VolumeFee := 10000;
  hash_of_transfer _ _ _ n := le_bytes 8 n ++ replicate 24 0; preimage_bound _ := true;
|}.

Lemma reversible_cfg_valid : valid_reversible_config cfg.
Proof.
  split; [cbn; lia|cbn; lia|done|]. intros f d a n f' d' a' n' Hn Hn' Heq. apply app_inj_2 in Heq as [Heq _]; [|done].
  by apply (le_bytes_inj 8) in Heq.
Qed.

Abbreviation state := (Reversible Vault unit Agenda unit).
Abbreviation Err' := (ReversibleFailure unit).
Definition vault0 : Vault :=
  {| spendable := <[savings := 100000]> (<[keeper := 50]> ∅); on_hold := ∅; supply := 100050 |}.
Definition accounts0 : gmap Hash256 HighSecurityAccountData :=
  <[savings := {| hs_guardian := keeper; hs_delay := BlockNumber 20 |}]> ∅.
Definition st0 : state :=
  {| HighSecurityAccounts := accounts0; HighSecurityTxQuota := ∅; PendingTransfers := ∅;
     PendingTransfersBySender := ∅; NextTransactionId := 0; r_events := []; r_block := 5; r_now := 60000;
     r_ledger := vault0; r_proofs := tt; r_sched := ∅ |}.


Definition tx1 : Hash256 := 0 :: replicate 31 0.
Definition schedule1 : result Err' state := reversible_call cfg savings (RScheduleTransfer (Id shop) 5000) st0.
Definition st1 : state := unwrap_or schedule1 st0.
Definition cancel1 : result Err' state := reversible_call cfg keeper (RCancel tx1) st1.
Definition st_cancelled : state := unwrap_or cancel1 st0.
Definition execute1 : result Err' state := reversible_call cfg pallet (RExecuteTransfer tx1) st1.
Definition st_executed : state := unwrap_or execute1 st0.
Definition recover1 : result Err' state := reversible_call cfg keeper (RRecoverFunds savings) st1.
Definition st_recovered : state := unwrap_or recover1 st0.

Lemma schedule1_ok : schedule1 = Ok st1.
Proof. exact (unwrap_or_Ok schedule1 st0 (eq_refl true <: is_ok schedule1 = true)). Qed.
Lemma cancel1_ok : cancel1 = Ok st_cancelled.
Proof. exact (unwrap_or_Ok cancel1 st0 (eq_refl true <: is_ok cancel1 = true)). Qed.
Lemma execute1_ok : execute1 = Ok st_executed.
Proof. exact (unwrap_or_Ok execute1 st0 (eq_refl true <: is_ok execute1 = true)). Qed.
Lemma recover1_ok : recover1 = Ok st_recovered.
Proof. exact (unwrap_or_Ok recover1 st0 (eq_refl true <: is_ok recover1 = true)). Qed.

Lemma rreach0 : rreach cfg st0.
Proof. by apply (rr_genesis cfg [(savings, keeper, 20)] accounts0). Qed.
Lemma reach1 : rreach cfg st1.
Proof. apply (rr_call cfg savings (RScheduleTransfer (Id shop) 5000) st0); [exact rreach0|by vm_compute|exact schedule1_ok]. Qed.

(** The 1% fee of 5000 is burned and the guardian has the rest. *)
Example cancelled_balances :
  (hl_free (r_ledger st_cancelled) keeper, hl_free (r_ledger st_cancelled) savings,
   hl_held (r_ledger st_cancelled) savings, supply (r_ledger st_cancelled)) = (5000, 95000, 0, 100000).
Proof. by vm_compute. Qed.

Lemma holds_match_pending_witness :
  hl_held (r_ledger st1) savings = pending_sum (PendingTransfers st1) savings ∧
  hl_held (r_ledger st1) savings = 5000.
Proof. split; [apply (holds_match_pending cfg st1 reversible_cfg_valid reach1 savings)|by vm_compute]. Defined.

Lemma cancel_splits_the_hold_witness :
  hl_held (r_ledger st1) savings = 5000 ∧
  ∀ anyone, cancel cfg (Signed anyone) tx1 st_cancelled = Err (RModule PendingTxNotFound).
Proof.
  split; [by vm_compute|].
  pose proof (cancel_splits_the_hold cfg st1 st_cancelled keeper tx1 reversible_cfg_valid reach1 cancel1_ok)
    as (p & _ & _ & _ & _ & _ & _ & Hagain & _). exact Hagain.
Defined.

Lemma execution_delivers_or_returns_witness :
  hl_free (r_ledger st_executed) shop = 5000 ∧
  execute_transfer cfg (Signed pallet) tx1 st_executed = Err (RModule PendingTxNotFound).
Proof.
  split; [by vm_compute|].
  pose proof (execution_delivers_or_returns cfg st1 st_executed pallet tx1 reversible_cfg_valid reach1 execute1_ok)
    as (p & _ & _ & _ & _ & Hagain). exact Hagain.
Defined.

Lemma recovery_hands_over_the_holds_witness :
  get_guardian savings st1 = Some keeper ∧ hl_free (r_ledger st_recovered) keeper = 100000.
Proof.
  split; [|by vm_compute].
  apply (recovery_hands_over_the_holds cfg st1 st_recovered keeper savings reversible_cfg_valid reach1 recover1_ok).
Defined.

Lemma hostile1 : hostile_step cfg keeper st0 st1.
Proof.
  exists savings, (RScheduleTransfer (Id shop) 5000).
  split_and!; [by vm_compute|by vm_compute|by vm_compute|exact schedule1_ok].
Qed.

Lemma stolen_key_moves_nothing_witness :
  total (r_ledger st0) savings = 100000 ∧ total (r_ledger st0) savings ≤ total (r_ledger st1) savings.
Proof.
  split; [by vm_compute|].
  apply (stolen_key_moves_nothing cfg st0 st1 savings {| hs_guardian := keeper; hs_delay := BlockNumber 20 |}
    reversible_cfg_valid rreach0 (eq_refl _) (rtc_once _ _ hostile1)).
Defined.

(** The third extrinsic within ten blocks is refused; blocks eleven and
    thirteen are a window after blocks one and three. *)
Definition attempts : list (Z * Hash256) :=
  [(1, savings); (2, shop); (3, savings); (4, savings); (11, savings); (13, savings)].

Lemma quota_bounds_every_window_witness :
  quota_log cfg savings attempts st0 = [1; 3; 11; 13] ∧
  Z.of_nat (length (base.filter (λ t, 1 ≤ t < 1 + HighSecurityTxWindowBlocks cfg)
    (quota_log cfg savings attempts st0))) ≤ 2.
Proof.
  split; [by vm_compute|].
  apply (quota_bounds_every_window cfg st0 savings attempts 1);
    [by vm_compute|by vm_compute|by vm_compute|].
  intros i j x y Hij Hx Hy. do 6 (destruct i as [|i]; [do 6 (destruct j as [|j]; [cbn in *; simplify_eq; lia|]); done|]).
  done.
Defined.

Lemma savings_data : HighSecurityAccounts st0 !! savings = Some {| hs_guardian := keeper; hs_delay := BlockNumber 20 |}.
Proof. by vm_compute. Qed.

Lemma transfer_waits_out_its_delay_witness :
  ∃ d, HighSecurityAccounts st0 !! savings = Some d ∧ r_block st0 + min_delay_of cfg (hs_delay d) ≤ 25.
Proof.
  destruct (transfer_waits_out_its_delay cfg st0 st1 savings (Id shop) 5000 24000 (BlockNumber 25)
    reversible_cfg_valid rreach0 schedule1_ok) as (d & rc & Hd & _ & _ & Hr); [lia| |].
  - intros d Hd. rewrite savings_data in Hd. injection Hd as <-. by vm_compute.
  - exists d. split; [done|]. rewrite savings_data in Hd. injection Hd as <-. apply Hr. by vm_compute.
Defined.
End ReversibleExample.
