(* ===== verification/Scheduler.v ===== *)
(** * The scheduler

    [chain/pallets/scheduler/src/lib.rs] with its [weights.rs]: agendas keyed
    by block number or timestamp bucket, named tasks, retries, and the
    servicing loops of [on_initialize] under a weight meter. The preimage
    store and the dispatch of a task's call, which may run anything, are
    parameters. *)

From stdpp Require Import base option list numbers gmap fin_maps.
From S2P Require Import Prelude Crypto Frame SchedulerTime.
#[local] Open Scope Z_scope.

#[global] Instance BlockNumberOrTimestamp_countable : Countable BlockNumberOrTimestamp.
Proof.
  apply (inj_countable' (λ x, match x with BlockNumber n => inl n | Timestamp t => inr t end)
           (λ y, match y with inl n => BlockNumber n | inr t => Timestamp t end)).
  by intros [].
Defined.

Abbreviation TaskName := Hash256.
Abbreviation TaskAddress := (BlockNumberOrTimestamp * Z)%type.

Record RetryConfig := { total_retries : Z; remaining : Z; period : BlockNumberOrTimestamp }.

(** [BC] is the bounded call: inline bytes or the hash of a preimage. *)
Record Scheduled {BC : Type} := {
  maybe_id : option TaskName;
  priority : Z;
  call : BC;
  origin : RuntimeOrigin;
}.
Arguments Scheduled : clear implicits.

Definition as_retry {BC} (t : Scheduled BC) : Scheduled BC :=
  {| maybe_id := None; priority := priority t; call := call t; origin := origin t |}.

Inductive SchedulerEvent (D : Type) :=
| EvScheduled (when_ : BlockNumberOrTimestamp) (index : Z)
| EvCanceled (when_ : BlockNumberOrTimestamp) (index : Z)
| EvDispatched (task : TaskAddress) (id : option TaskName) (res : result D unit)
| EvRetrySet (task : TaskAddress) (id : option TaskName) (per : BlockNumberOrTimestamp) (retries : Z)
| EvRetryCancelled (task : TaskAddress) (id : option TaskName)
| EvCallUnavailable (task : TaskAddress) (id : option TaskName)
| EvRetryFailed (task : TaskAddress) (id : option TaskName)
| EvPermanentlyOverweight (task : TaskAddress) (id : option TaskName).
Arguments EvScheduled {D}. Arguments EvCanceled {D}. Arguments EvDispatched {D}. Arguments EvRetrySet {D}.
Arguments EvRetryCancelled {D}. Arguments EvCallUnavailable {D}. Arguments EvRetryFailed {D}.
Arguments EvPermanentlyOverweight {D}.

Inductive SchedulerError :=
| FailedToSchedule | NotFound | TargetInPast (e : ScheduleTimeError) | RescheduleNoChange | Named
| PeriodicNotSupported | RetryPeriodMismatch | InvalidRetryPeriod.

Inductive SchedulerFailure :=
| SModule (e : SchedulerError) | SBadOrigin | SExhausted | SUnavailable | SPreimage.

Definition LOWEST_PRIORITY : Z := 255.

Record SchedulerConfig := {
  MaximumWeight : Weight;
  MaxScheduledPerBlock : Z;
  TimestampBucketSize : Z;
  s_db : DbWeight;
  (** [ScheduleOrigin::ensure_origin]. *)
  schedule_origin : RuntimeOrigin → bool;
  (** [OriginPrivilegeCmp::cmp_privilege]. *)
  cmp_privilege : RuntimeOrigin → RuntimeOrigin → option comparison;
}.

(** [StorePreimage] and [QueryPreimage]. *)
Class Preimages (Pm BC Call : Type) := {
  (** [None] is an unavailable preimage; the length is that of a looked-up one. *)
  peek : Pm → BC → option (Call * option Z);
  drop_preimage : Pm → BC → Pm;
  request : Pm → Hash256 → Pm;
  (** [lookup_hash] and [lookup_len] of a bounded call. *)
  lookup_hash : BC → option Hash256;
  lookup_len : BC → option Z;
  bound : Pm → Call → option (Pm * BC);
  is_requested : Pm → Hash256 → bool;
  (** The call's SCALE encoding and the runtime's hashing. *)
  encoded : Call → list Z;
  hashing : list Z → Hash256;
}.

(** [BoundedInline::bound()]. *)
Definition INLINE_BOUND : Z := 128.

(** ** [SubstrateWeight] *)
Module SchedulerWeights.
#[local] Notation "a ⊕ b" := (weight_add a b) (at level 50, left associativity).
#[local] Abbreviation parts := Build_Weight.

Definition service_agendas_base (db : DbWeight) : Weight := parts 2000000 1489 ⊕ reads db 1 ⊕ writes db 1.
Definition service_timestamp_agendas_base (db : DbWeight) : Weight := parts 3000000 1493 ⊕ reads db 1 ⊕ writes db 2.
Definition service_agenda_base (db : DbWeight) (s : Z) : Weight :=
  parts 4652161 13483 ⊕ weight_mul (parts 307823 0) s ⊕ reads db 1 ⊕ writes db 1.
Definition service_task_base (db : DbWeight) : Weight := parts 5000000 3505 ⊕ reads db 1 ⊕ writes db 1.
Definition service_task_fetched (db : DbWeight) (s : Z) : Weight :=
  parts 37084001 3686 ⊕ weight_mul (parts 468 0) s ⊕ reads db 4 ⊕ writes db 2 ⊕ weight_mul (parts 0 1) s.
Definition service_task_named (db : DbWeight) : Weight := parts 6000000 3505 ⊕ reads db 1 ⊕ writes db 1.
Definition execute_dispatch_signed : Weight := parts 2000000 0.
Definition execute_dispatch_unsigned : Weight := parts 2000000 0.
Definition schedule_retry (db : DbWeight) (s : Z) : Weight :=
  parts 6631591 13483 ⊕ weight_mul (parts 7231 0) s ⊕ reads db 1 ⊕ writes db 2.

(** [MarginalWeightInfo::service_task]. *)
Definition service_task (db : DbWeight) (maybe_lookup_len : option Z) (named : bool) : Weight :=
  let base := service_task_base db in
  let total :=
    match maybe_lookup_len with None => base | Some l => base ⊕ service_task_fetched db l end in
  if named then
    total ⊕ {| ref_time := sat_sub (ref_time (service_task_named db)) (ref_time base);
               proof_size := sat_sub (proof_size (service_task_named db)) (proof_size base) |}
  else total.
End SchedulerWeights.

(** ** [sp_weights::WeightMeter] *)
Record WeightMeter := { consumed : Weight; limit : Weight }.
Definition checked_weight_add (a b : Weight) : option Weight :=
  r ← checked_add 64 (ref_time a) (ref_time b);
  p ← checked_add 64 (proof_size a) (proof_size b);
  Some {| ref_time := r; proof_size := p |}.
Definition with_limit (w : Weight) : WeightMeter := {| consumed := weight_zero; limit := w |}.
Definition can_consume (m : WeightMeter) (w : Weight) : bool :=
  match checked_weight_add (consumed m) w with
  | Some t => negb (any_gt t (limit m))
  | None => false
  end.
Definition try_consume (m : WeightMeter) (w : Weight) : option WeightMeter :=
  match checked_weight_add (consumed m) w with
  | Some t => if any_gt t (limit m) then None else Some {| consumed := t; limit := limit m |}
  | None => None
  end.
(** [let _ = meter.try_consume(w)]. *)
Definition consume (m : WeightMeter) (w : Weight) : WeightMeter := default m (try_consume m w).

(** ** Lists *)
Definition occupied {A} (l : list (option A)) : Z := Z.of_nat (length (base.filter is_Some l)).

(** [iter().position(|i| i.is_none())] and [iter().rposition(|i| i.is_some())]. *)
Fixpoint hole_index {A} (l : list (option A)) : option nat :=
  match l with
  | [] => None
  | None :: _ => Some 0%nat
  | Some _ :: l' => S <$> hole_index l'
  end.
Fixpoint last_occupied {A} (l : list (option A)) : option nat :=
  match l with
  | [] => None
  | x :: l' =>
      match last_occupied l' with
      | Some i => Some (S i)
      | None => match x with Some _ => Some 0%nat | None => None end
      end
  end.

(** [iter().take(n)] for a count [n] too large for unary numbers. *)
Fixpoint take_z {A} (n : Z) (l : list A) : list A :=
  match l with
  | [] => []
  | x :: l' => if n <=? 0 then [] else x :: take_z (n - 1) l'
  end.

(** The stable [sort_by_key(|k| k.1)]. *)
Fixpoint insert_by_key (x : nat * Z) (l : list (nat * Z)) : list (nat * Z) :=
  match l with
  | [] => [x]
  | y :: l' => if x.2 <=? y.2 then x :: l else y :: insert_by_key x l'
  end.
Definition sort_by_key (l : list (nat * Z)) : list (nat * Z) := foldr insert_by_key [] l.

Record Sched {BC Pm D E : Type} := {
  IncompleteBlockSince : option Z;
  IncompleteTimestampSince : option Z;
  LastProcessedTimestamp : option Z;
  Agenda : gmap BlockNumberOrTimestamp (list (option (Scheduled BC)));
  Retries : gmap TaskAddress RetryConfig;
  Lookup : gmap TaskName TaskAddress;
  s_events : list (SchedulerEvent D);
  s_block : Z;
  s_now : Z;
  s_preimages : Pm;
  s_env : E;
}.
Arguments Sched : clear implicits.

Section Pallet.
Context {BC Call Pm D E : Type} `{Preimages Pm BC Call}.
Implicit Types (s : Sched BC Pm D E) (cfg : SchedulerConfig) (t : Scheduled BC).
#[local] Abbreviation St := (Sched BC Pm D E).
#[local] Abbreviation M := (result SchedulerFailure).

(** ** Storage writes *)
Definition put_incomplete_block (x : option Z) s : St :=
  {| IncompleteBlockSince := x; IncompleteTimestampSince := IncompleteTimestampSince s;
     LastProcessedTimestamp := LastProcessedTimestamp s; Agenda := Agenda s; Retries := Retries s;
     Lookup := Lookup s; s_events := s_events s; s_block := s_block s; s_now := s_now s;
     s_preimages := s_preimages s; s_env := s_env s |}.
Definition put_timestamps (x : option Z) (last : option Z) s : St :=
  {| IncompleteBlockSince := IncompleteBlockSince s; IncompleteTimestampSince := x;
     LastProcessedTimestamp := last; Agenda := Agenda s; Retries := Retries s;
     Lookup := Lookup s; s_events := s_events s; s_block := s_block s; s_now := s_now s;
     s_preimages := s_preimages s; s_env := s_env s |}.
Definition put_agenda (m : gmap BlockNumberOrTimestamp (list (option (Scheduled BC)))) s : St :=
  {| IncompleteBlockSince := IncompleteBlockSince s; IncompleteTimestampSince := IncompleteTimestampSince s;
     LastProcessedTimestamp := LastProcessedTimestamp s; Agenda := m; Retries := Retries s;
     Lookup := Lookup s; s_events := s_events s; s_block := s_block s; s_now := s_now s;
     s_preimages := s_preimages s; s_env := s_env s |}.
Definition put_retries (m : gmap TaskAddress RetryConfig) s : St :=
  {| IncompleteBlockSince := IncompleteBlockSince s; IncompleteTimestampSince := IncompleteTimestampSince s;
     LastProcessedTimestamp := LastProcessedTimestamp s; Agenda := Agenda s; Retries := m;
     Lookup := Lookup s; s_events := s_events s; s_block := s_block s; s_now := s_now s;
     s_preimages := s_preimages s; s_env := s_env s |}.
Definition put_lookup (m : gmap TaskName TaskAddress) s : St :=
  {| IncompleteBlockSince := IncompleteBlockSince s; IncompleteTimestampSince := IncompleteTimestampSince s;
     LastProcessedTimestamp := LastProcessedTimestamp s; Agenda := Agenda s; Retries := Retries s;
     Lookup := m; s_events := s_events s; s_block := s_block s; s_now := s_now s;
     s_preimages := s_preimages s; s_env := s_env s |}.
Definition s_deposit_event (e : SchedulerEvent D) s : St :=
  {| IncompleteBlockSince := IncompleteBlockSince s; IncompleteTimestampSince := IncompleteTimestampSince s;
     LastProcessedTimestamp := LastProcessedTimestamp s; Agenda := Agenda s; Retries := Retries s;
     Lookup := Lookup s; s_events := s_events s ++ [e]; s_block := s_block s; s_now := s_now s;
     s_preimages := s_preimages s; s_env := s_env s |}.
Definition put_preimages (p : Pm) s : St :=
  {| IncompleteBlockSince := IncompleteBlockSince s; IncompleteTimestampSince := IncompleteTimestampSince s;
     LastProcessedTimestamp := LastProcessedTimestamp s; Agenda := Agenda s; Retries := Retries s;
     Lookup := Lookup s; s_events := s_events s; s_block := s_block s; s_now := s_now s;
     s_preimages := p; s_env := s_env s |}.

(** The [ValueQuery] getter. *)
Definition agenda_at (w : BlockNumberOrTimestamp) s : list (option (Scheduled BC)) :=
  default [] (Agenda s !! w).
(** [agenda.get(index).and_then(Option::as_ref)]. *)
Definition task_at (a : TaskAddress) s : option (Scheduled BC) :=
  mjoin (agenda_at a.1 s !! Z.to_nat a.2).
Definition remove_lookup (id : option TaskName) s : St :=
  match id with Some id => put_lookup (delete id (Lookup s)) s | None => s end.
Definition drop_call (c : BC) s : St := put_preimages (drop_preimage (s_preimages s) c) s.

(** ** Checks *)
Definition ensure_schedule_origin cfg (o : RuntimeOrigin) : M unit := ensure (schedule_origin cfg o) SBadOrigin.
Definition ensure_privilege cfg (left_ right_ : RuntimeOrigin) : M unit :=
  match cmp_privilege cfg left_ right_ with
  | Some Lt | None => Err SBadOrigin
  | _ => Ok tt
  end.
Definition ensure_period_matches_task_type cfg (task_when per : BlockNumberOrTimestamp) : M unit :=
  match task_when, per with
  | BlockNumber _, BlockNumber p => ensure (negb (p =? 0)) (SModule InvalidRetryPeriod)
  | Timestamp _, Timestamp p =>
      ensure (negb (p =? 0) && (p mod TimestampBucketSize cfg =? 0)) (SModule InvalidRetryPeriod)
  | _, _ => Err (SModule RetryPeriodMismatch)
  end.
Definition resolve cfg (when_ : DispatchTime) s : M BlockNumberOrTimestamp :=
  map_err (λ e, SModule (TargetInPast e))
    (resolve_time (TimestampBucketSize cfg) (s_block s) (s_now s) when_).

(** ** Placing tasks; an error hands the task back. *)
Definition low_priority_cap cfg : Z :=
  let max := MaxScheduledPerBlock cfg in
  let reserved := Z.min (Z.max (max / 5) 1) (sat_sub max 1) in
  sat_sub max reserved.

Definition push_to_agenda cfg (w : BlockNumberOrTimestamp) (what : Scheduled BC) s :
    result (SchedulerFailure * Scheduled BC) (St * Z) :=
  let agenda := agenda_at w s in
  _ ← ensure (negb ((priority what =? LOWEST_PRIORITY) && (low_priority_cap cfg <=? occupied agenda)))
        (SExhausted, what);
  if Z.of_nat (length agenda) <? MaxScheduledPerBlock cfg
  then Ok (put_agenda (<[w := agenda ++ [Some what]]> (Agenda s)) s, Z.of_nat (length agenda))
  else
    match hole_index agenda with
    | Some i => Ok (put_agenda (<[w := <[i := Some what]> agenda]> (Agenda s)) s, Z.of_nat i)
    | None => Err (SExhausted, what)
    end.

Definition place_task cfg (w : BlockNumberOrTimestamp) (what : Scheduled BC) s :
    result (SchedulerFailure * Scheduled BC) (St * TaskAddress) :=
  let maybe_name := maybe_id what in
  '(s, index) ← push_to_agenda cfg w what s;
  let address := (w, index) in
  let s := match maybe_name with Some name => put_lookup (<[name := address]> (Lookup s)) s | None => s end in
  Ok (s_deposit_event (EvScheduled w index) s, address).

Definition cleanup_agenda (w : BlockNumberOrTimestamp) s : St :=
  let agenda := agenda_at w s in
  match last_occupied agenda with
  | Some i => if (i + 1 <? length agenda)%nat then put_agenda (<[w := take (i + 1) agenda]> (Agenda s)) s else s
  | None => put_agenda (delete w (Agenda s)) s
  end.

(** ** Scheduling. An error may have released the preimage: the state comes
    with the result. *)
Definition drop_unscheduled_preimage (c : BC) (request_preimage : bool) s : St :=
  if request_preimage then s else drop_call c s.
Definition request_lookup (c : BC) (request_preimage : bool) s : St :=
  match lookup_hash c with
  | Some h => if request_preimage then put_preimages (request (s_preimages s) h) s else s
  | None => s
  end.

Definition do_schedule_inner cfg (when_ : DispatchTime) (prio : Z) (o : RuntimeOrigin) (c : BC)
    (request_preimage : bool) s : St * M TaskAddress :=
  match resolve cfg when_ s with
  | Err e => (drop_unscheduled_preimage c request_preimage s, Err e)
  | Ok w =>
      let task := {| maybe_id := None; priority := prio; call := c; origin := o |} in
      match place_task cfg w task s with
      | Err (e, task) => (drop_unscheduled_preimage (call task) request_preimage s, Err e)
      | Ok (s, res) => (request_lookup c request_preimage s, Ok res)
      end
  end.
Definition do_schedule cfg when_ prio o c s : St * M TaskAddress := do_schedule_inner cfg when_ prio o c true s.

Definition do_schedule_named_inner cfg (id : TaskName) (when_ : DispatchTime) (prio : Z) (o : RuntimeOrigin)
    (c : BC) (request_preimage : bool) s : St * M TaskAddress :=
  if bool_decide (is_Some (Lookup s !! id))
  then (drop_unscheduled_preimage c request_preimage s, Err (SModule FailedToSchedule))
  else
    match resolve cfg when_ s with
    | Err e => (drop_unscheduled_preimage c request_preimage s, Err e)
    | Ok w =>
        let task := {| maybe_id := Some id; priority := prio; call := c; origin := o |} in
        match place_task cfg w task s with
        | Err (e, task) => (drop_unscheduled_preimage (call task) request_preimage s, Err e)
        | Ok (s, res) => (request_lookup c request_preimage s, Ok res)
        end
    end.
Definition do_schedule_named cfg id when_ prio o c s : St * M TaskAddress :=
  do_schedule_named_inner cfg id when_ prio o c true s.

(** ** Cancelling *)
Definition clear_slot (a : TaskAddress) s : St :=
  put_agenda (<[a.1 := <[Z.to_nat a.2 := None]> (agenda_at a.1 s)]> (Agenda s)) s.

(** [try_mutate] writes the agenda back whenever its closure succeeds, also
    when there was nothing to take. *)
Definition do_cancel cfg (o : option RuntimeOrigin) (a : TaskAddress) s : St * M unit :=
  match agenda_at a.1 s !! Z.to_nat a.2 with
  | None => (put_agenda (<[a.1 := agenda_at a.1 s]> (Agenda s)) s, Err (SModule NotFound))
  | Some None => (put_agenda (<[a.1 := agenda_at a.1 s]> (Agenda s)) s, Err (SModule NotFound))
  | Some (Some t) =>
      match (match o with Some o => ensure_privilege cfg o (origin t) | None => Ok tt end) with
      | Err e => (s, Err e)
      | Ok _ =>
          let s := clear_slot a s in
          let s := drop_call (call t) s in
          let s := remove_lookup (maybe_id t) s in
          let s := put_retries (delete a (Retries s)) s in
          let s := cleanup_agenda a.1 s in
          (s_deposit_event (EvCanceled a.1 a.2) s, Ok tt)
      end
  end.

Definition do_cancel_named cfg (o : option RuntimeOrigin) (id : TaskName) s : M St :=
  a ← ok_or (Lookup s !! id) (SModule NotFound);
  t ← ok_or (task_at a s) (SModule NotFound);
  _ ← (match o with Some o => ensure_privilege cfg o (origin t) | None => Ok tt end);
  let s := put_retries (delete a (Retries s)) s in
  let s := drop_call (call t) s in
  let s := clear_slot a s in
  let s := cleanup_agenda a.1 s in
  let s := s_deposit_event (EvCanceled a.1 a.2) s in
  Ok (put_lookup (delete id (Lookup s)) s).

(** ** Rescheduling: the source slot is vacated once the task is placed. *)
Definition vacate_source (a new_address : TaskAddress) s : St :=
  let s := if bool_decide (is_Some (agenda_at a.1 s !! Z.to_nat a.2)) then clear_slot a s
           else put_agenda (<[a.1 := agenda_at a.1 s]> (Agenda s)) s in
  let s := cleanup_agenda a.1 s in
  let s := s_deposit_event (EvCanceled a.1 a.2) s in
  match Retries s !! a with
  | Some rc => put_retries (<[new_address := rc]> (delete a (Retries s))) s
  | None => s
  end.

Definition do_reschedule cfg (a : TaskAddress) (new_time : DispatchTime) s : M (St * TaskAddress) :=
  w ← resolve cfg new_time s;
  _ ← ensure (bool_decide (w ≠ a.1)) (SModule RescheduleNoChange);
  t ← ok_or (task_at a s) (SModule NotFound);
  _ ← ensure (bool_decide (maybe_id t = None)) (SModule Named);
  '(s, new_address) ← map_err fst (place_task cfg w t s);
  Ok (vacate_source a new_address s, new_address).

Definition do_reschedule_named cfg (id : TaskName) (new_time : DispatchTime) s : M (St * TaskAddress) :=
  w ← resolve cfg new_time s;
  a ← ok_or (Lookup s !! id) (SModule NotFound);
  _ ← ensure (bool_decide (w ≠ a.1)) (SModule RescheduleNoChange);
  t ← ok_or (task_at a s) (SModule NotFound);
  '(s, new_address) ← map_err fst (place_task cfg w t s);
  Ok (vacate_source a new_address s, new_address).

(** ** The calls *)

(** An extrinsic that fails is rolled back. *)
Definition or_rollback {A} (r : St * M A) : M St :=
  match r with (s, Ok _) => Ok s | (_, Err e) => Err e end.

Definition lookup_already_requested (c : Call) s : bool :=
  (INLINE_BOUND <? Z.of_nat (length (encoded c))) && is_requested (s_preimages s) (hashing (encoded c)).

Definition bound_call (c : Call) s : M (BC * bool * St) :=
  let already_requested := lookup_already_requested c s in
  '(p, b) ← ok_or (bound (s_preimages s) c) SPreimage;
  Ok (b, already_requested, put_preimages p s).

Definition schedule cfg (o : RuntimeOrigin) (when_ prio : Z) (c : Call) s : M St :=
  _ ← ensure_schedule_origin cfg o;
  '(b, requested, s) ← bound_call c s;
  or_rollback (do_schedule_inner cfg (At when_) prio o b requested s).
Definition schedule_after cfg (o : RuntimeOrigin) (after : BlockNumberOrTimestamp) (prio : Z) (c : Call) s : M St :=
  _ ← ensure_schedule_origin cfg o;
  '(b, requested, s) ← bound_call c s;
  or_rollback (do_schedule_inner cfg (After after) prio o b requested s).
Definition schedule_named cfg (o : RuntimeOrigin) (id : TaskName) (when_ prio : Z) (c : Call) s : M St :=
  _ ← ensure_schedule_origin cfg o;
  '(b, requested, s) ← bound_call c s;
  or_rollback (do_schedule_named_inner cfg id (At when_) prio o b requested s).
Definition schedule_named_after cfg (o : RuntimeOrigin) (id : TaskName) (after : BlockNumberOrTimestamp)
    (prio : Z) (c : Call) s : M St :=
  _ ← ensure_schedule_origin cfg o;
  '(b, requested, s) ← bound_call c s;
  or_rollback (do_schedule_named_inner cfg id (After after) prio o b requested s).
Definition cancel cfg (o : RuntimeOrigin) (when_ : BlockNumberOrTimestamp) (index : Z) s : M St :=
  _ ← ensure_schedule_origin cfg o;
  or_rollback (do_cancel cfg (Some o) (when_, index) s).
Definition cancel_named cfg (o : RuntimeOrigin) (id : TaskName) s : M St :=
  _ ← ensure_schedule_origin cfg o;
  do_cancel_named cfg (Some o) id s.

Definition set_retry_at cfg (o : RuntimeOrigin) (a : TaskAddress) (id : option TaskName) (retries : Z)
    (per : BlockNumberOrTimestamp) s : M St :=
  t ← ok_or (task_at a s) (SModule NotFound);
  _ ← ensure_privilege cfg o (origin t);
  _ ← ensure_period_matches_task_type cfg a.1 per;
  let rc := {| total_retries := retries; remaining := retries; period := per |} in
  let s := put_retries (<[a := rc]> (Retries s)) s in
  Ok (s_deposit_event (EvRetrySet a id per retries) s).
Definition set_retry cfg (o : RuntimeOrigin) (a : TaskAddress) (retries : Z) (per : BlockNumberOrTimestamp) s : M St :=
  _ ← ensure_schedule_origin cfg o;
  set_retry_at cfg o a None retries per s.
Definition set_retry_named cfg (o : RuntimeOrigin) (id : TaskName) (retries : Z) (per : BlockNumberOrTimestamp) s : M St :=
  _ ← ensure_schedule_origin cfg o;
  a ← ok_or (Lookup s !! id) (SModule NotFound);
  set_retry_at cfg o a (Some id) retries per s.

Definition do_cancel_retry cfg (o : RuntimeOrigin) (a : TaskAddress) s : M St :=
  t ← ok_or (task_at a s) (SModule NotFound);
  _ ← ensure_privilege cfg o (origin t);
  Ok (put_retries (delete a (Retries s)) s).
Definition cancel_retry cfg (o : RuntimeOrigin) (a : TaskAddress) s : M St :=
  _ ← ensure_schedule_origin cfg o;
  s ← do_cancel_retry cfg o a s;
  Ok (s_deposit_event (EvRetryCancelled a None) s).
Definition cancel_retry_named cfg (o : RuntimeOrigin) (id : TaskName) s : M St :=
  _ ← ensure_schedule_origin cfg o;
  a ← ok_or (Lookup s !! id) (SModule NotFound);
  s ← do_cancel_retry cfg o a s;
  Ok (s_deposit_event (EvRetryCancelled a (Some id)) s).

(** [ScheduleNamed::next_dispatch_time]. *)
Definition next_dispatch_time (id : TaskName) s : M Z :=
  a ← ok_or (Lookup s !! id) SUnavailable;
  _ ← ok_or (task_at a s) SUnavailable;
  ok_or (as_block_number a.1) SUnavailable.

(** ** Servicing *)
Section Service.
Context (call_weight : Call → Weight).
(** [call.dispatch(origin)]: the post-dispatch weight and the outcome. *)
Context (dispatch : Call → RuntimeOrigin → St → St * (option Weight * result D unit)).

Inductive ServiceTaskError := Unavailable | Overweight.

Definition execute_dispatch (weight : WeightMeter) (o : RuntimeOrigin) (c : Call) s :
    result unit (WeightMeter * St * result D unit) :=
  let base_weight :=
    match o with
    | Signed _ => SchedulerWeights.execute_dispatch_signed
    | _ => SchedulerWeights.execute_dispatch_unsigned
    end in
  let max_weight := weight_add base_weight (call_weight c) in
  if negb (can_consume weight max_weight) then Err tt
  else
    let '(s, (maybe_actual_call_weight, res)) := dispatch c o s in
    let weight := consume weight base_weight in
    let weight := consume weight (default (call_weight c) maybe_actual_call_weight) in
    Ok (weight, s, res).

Definition schedule_retry cfg (weight : WeightMeter) (now when_ : BlockNumberOrTimestamp) (index : Z)
    (task : Scheduled BC) (retry_config : RetryConfig) s : WeightMeter * St * bool :=
  let failed := s_deposit_event (EvRetryFailed (when_, index) (maybe_id task)) s in
  match try_consume weight (SchedulerWeights.schedule_retry (s_db cfg) (MaxScheduledPerBlock cfg)) with
  | None => (weight, failed, false)
  | Some weight =>
      match checked_sub (remaining retry_config) 1 with
      | None => (weight, s, false)
      | Some n =>
          match bnt_saturating_add now (period retry_config) with
          | None => (weight, failed, false)
          | Some wake =>
              match place_task cfg wake (as_retry task) s with
              | Ok (s, address) =>
                  let rc := {| total_retries := total_retries retry_config; remaining := n;
                               period := period retry_config |} in
                  (weight, put_retries (<[address := rc]> (Retries s)) s, true)
              | Err (_, retry_task) =>
                  (weight, s_deposit_event (EvRetryFailed (when_, index) (maybe_id retry_task)) s, false)
              end
          end
      end
  end.

Definition service_task cfg (weight : WeightMeter) (now when_ : BlockNumberOrTimestamp) (index : Z)
    (is_first : bool) (task : Scheduled BC) s :
    WeightMeter * St * result (ServiceTaskError * option (Scheduled BC)) unit :=
  let named := bool_decide (is_Some (maybe_id task)) in
  match peek (s_preimages s) (call task) with
  | None =>
      let s := remove_lookup (maybe_id task) s in
      let s := put_retries (delete (when_, index) (Retries s)) s in
      let s := drop_call (call task) s in
      let s := s_deposit_event (EvCallUnavailable (when_, index) (maybe_id task)) s in
      let weight := consume weight (SchedulerWeights.service_task (s_db cfg) (lookup_len (call task)) named) in
      (weight, s, Err (Unavailable, None))
  | Some (c, len) =>
      let weight := consume weight (SchedulerWeights.service_task (s_db cfg) len named) in
      match execute_dispatch weight (origin task) c s with
      | Err _ =>
          if is_first then
            let s := remove_lookup (maybe_id task) s in
            let s := put_retries (delete (when_, index) (Retries s)) s in
            let s := drop_call (call task) s in
            let s := s_deposit_event (EvPermanentlyOverweight (when_, index) (maybe_id task)) s in
            (weight, s, Err (Unavailable, None))
          else (weight, s, Err (Overweight, Some task))
      | Ok (weight, s, res) =>
          let s := remove_lookup (maybe_id task) s in
          let failed := negb (is_ok res) in
          let maybe_retry_config := Retries s !! (when_, index) in
          let s := put_retries (delete (when_, index) (Retries s)) s in
          let s := s_deposit_event (EvDispatched (when_, index) (maybe_id task) res) s in
          let '(weight, s, retry_scheduled) :=
            match maybe_retry_config with
            | Some rc => if failed then schedule_retry cfg weight now when_ index task rc s else (weight, s, false)
            | None => (weight, s, false)
            end in
          let s := if retry_scheduled then s else drop_call (call task) s in
          (weight, s, Ok tt)
      end
  end.

(** The servicing state: the meter, the count of executed tasks, the agenda
    taken out of storage, the number of postponed tasks. *)
Record Servicing := { sv_weight : WeightMeter; sv_executed : Z; sv_state : St }.

Fixpoint service_tasks cfg (now when_ : BlockNumberOrTimestamp) (ordered : list (nat * Z))
    (agenda : list (option (Scheduled BC))) (postponed : Z) (v : Servicing) :
    Servicing * list (option (Scheduled BC)) * Z :=
  match ordered with
  | [] => (v, agenda, postponed)
  | (i, _) :: rest =>
      match mjoin (agenda !! i) with
      | None => service_tasks cfg now when_ rest agenda postponed v
      | Some task =>
          let base_weight := SchedulerWeights.service_task (s_db cfg) (lookup_len (call task))
                               (bool_decide (is_Some (maybe_id task))) in
          if negb (can_consume (sv_weight v) base_weight) then (v, agenda, postponed + 1)
          else
            let '(weight, s, res) :=
              service_task cfg (sv_weight v) now when_ (Z.of_nat i) (sv_executed v =? 0) task (sv_state v) in
            match res with
            | Err (Unavailable, slot) =>
                service_tasks cfg now when_ rest (<[i := slot]> agenda) postponed
                  {| sv_weight := weight; sv_executed := sv_executed v + 1; sv_state := s |}
            | Err (Overweight, slot) =>
                service_tasks cfg now when_ rest (<[i := slot]> agenda) (postponed + 1)
                  {| sv_weight := weight; sv_executed := sv_executed v; sv_state := s |}
            | Ok _ =>
                service_tasks cfg now when_ rest (<[i := None]> agenda) postponed
                  {| sv_weight := weight; sv_executed := sv_executed v + 1; sv_state := s |}
            end
      end
  end.

(** [enumerate().filter_map(...)]: the occupied slots and their priorities. *)
Definition occupied_slots (agenda : list (option (Scheduled BC))) : list (nat * Z) :=
  omap (λ '(i, slot), (λ item, (i, priority item)) <$> slot) (imap pair agenda).

Definition service_agenda cfg (now when_ : BlockNumberOrTimestamp) (max : Z) (v : Servicing) : Servicing * bool :=
  let agenda := agenda_at when_ (sv_state v) in
  let ordered := sort_by_key (occupied_slots agenda) in
  let weight := consume (sv_weight v)
    (SchedulerWeights.service_agenda_base (s_db cfg) (Z.of_nat (length ordered))) in
  let postponed := sat_sub (Z.of_nat (length ordered)) max in
  let '(v, agenda, postponed) :=
    service_tasks cfg now when_ (take_z max ordered) agenda postponed
      {| sv_weight := weight; sv_executed := sv_executed v; sv_state := sv_state v |} in
  let s := sv_state v in
  let s := if existsb (λ slot, bool_decide (is_Some slot)) agenda
           then put_agenda (<[when_ := agenda]> (Agenda s)) s
           else put_agenda (delete when_ (Agenda s)) s in
  ({| sv_weight := sv_weight v; sv_executed := sv_executed v; sv_state := s |}, postponed =? 0).

(** The [while] loop of both servicing functions: from [when_] in steps of
    [step] up to [last]. The fuel is the number of agendas left, so that it
    never decides. *)
Fixpoint service_loop cfg (mk : Z → BlockNumberOrTimestamp) (width step last : Z) (fuel : nat)
    (count_down when_ incomplete_since : Z) (v : Servicing) : Servicing * Z * Z :=
  match fuel with
  | O => (v, when_, incomplete_since)
  | S fuel =>
      if (0 <? count_down) && (when_ <=? last) &&
         can_consume (sv_weight v) (SchedulerWeights.service_agenda_base (s_db cfg) (MaxScheduledPerBlock cfg))
      then
        let '(v, complete) := service_agenda cfg (mk last) (mk when_) (u_max 32) v in
        let incomplete_since := if complete then incomplete_since else Z.min incomplete_since when_ in
        service_loop cfg mk width step last fuel (sat_sub count_down 1) (sat_add width when_ step) incomplete_since v
      else (v, when_, incomplete_since)
  end.

Definition with_state (s : St) (v : Servicing) : Servicing :=
  {| sv_weight := sv_weight v; sv_executed := sv_executed v; sv_state := s |}.

Definition service_block_agendas cfg (current_block max : Z) (v : Servicing) : Servicing :=
  let s := sv_state v in
  let next_block := sat_add 32 current_block 1 in
  let start_block := default current_block (IncompleteBlockSince s) in
  let v := with_state (put_incomplete_block None s) v in
  let '(v, when_, incomplete_since) :=
    service_loop cfg BlockNumber 32 1 current_block (S (Z.to_nat (current_block - start_block)))
      max start_block next_block v in
  let incomplete_since := Z.min incomplete_since when_ in
  if incomplete_since <=? current_block
  then with_state (put_incomplete_block (Some incomplete_since) (sv_state v)) v
  else v.

Definition service_timestamp_agendas cfg (current_time max : Z) (v : Servicing) : Servicing :=
  let s := sv_state v in
  let bucket := TimestampBucketSize cfg in
  let normalized_time := default 0 (as_timestamp (normalize (Timestamp current_time) bucket)) in
  let next_bucket := sat_add 64 normalized_time bucket in
  let start_time :=
    match IncompleteTimestampSince s with
    | Some incomplete => incomplete
    | None => default normalized_time (LastProcessedTimestamp s)
    end in
  let v := with_state (put_timestamps None (LastProcessedTimestamp s) s) v in
  let '(v, when_, incomplete_since) :=
    service_loop cfg Timestamp 64 bucket normalized_time (S (Z.to_nat ((normalized_time - start_time) / bucket)))
      max start_time next_bucket v in
  let incomplete_since := Z.min incomplete_since when_ in
  let s := sv_state v in
  let incomplete := if incomplete_since <=? normalized_time then Some incomplete_since
                    else IncompleteTimestampSince s in
  with_state (put_timestamps incomplete (Some normalized_time) s) v.

Definition on_initialize cfg (now : Z) s : St * Weight :=
  let weight := with_limit (MaximumWeight cfg) in
  match try_consume weight (SchedulerWeights.service_agendas_base (s_db cfg)) with
  | None => (s, consumed weight)
  | Some weight =>
      let v := {| sv_weight := weight; sv_executed := 0; sv_state := s |} in
      let v := service_block_agendas cfg now (u_max 32) v in
      let current_timestamp := s_now (sv_state v) in
      if 0 <? current_timestamp then
        match try_consume (sv_weight v) (SchedulerWeights.service_timestamp_agendas_base (s_db cfg)) with
        | None => (sv_state v, consumed (sv_weight v))
        | Some weight =>
            let v := {| sv_weight := weight; sv_executed := sv_executed v; sv_state := sv_state v |} in
            let v := service_timestamp_agendas cfg current_timestamp (u_max 32) v in
            (sv_state v, consumed (sv_weight v))
        end
      else (sv_state v, consumed (sv_weight v))
  end.
End Service.
End Pallet.
