(* ===== verification/SchedulerProps.v ===== *)
(** * The scheduler: invariant

    The table of tasks an agenda map stands for, the coherence of names and
    retry configurations with it, and its preservation by every operation and
    by the servicing of an agenda. *)

From stdpp Require Import base option list numbers gmap fin_maps.
From S2P Require Import Prelude Crypto Frame SchedulerTime Scheduler.
#[local] Open Scope Z_scope.

(** ** Lists of slots *)
Section Slots.
Context {A : Type}.
Implicit Types l : list (option A).

Lemma hole_index_Some l i : hole_index l = Some i → l !! i = Some None.
Proof.
  revert i. induction l as [|[x|] l IH]; intros i Hh; cbn in *; [done| |by injection Hh as <-].
  destruct (hole_index l) as [j|]; [|done]. injection Hh as <-. by apply IH.
Qed.

Lemma hole_index_None l : hole_index l = None → Forall is_Some l.
Proof.
  induction l as [|[x|] l IH]; intros Hh; cbn in *; [done| |done].
  constructor; [done|]. apply IH. by destruct (hole_index l).
Qed.

Lemma last_occupied_None l i : last_occupied l = None → mjoin (l !! i) = None.
Proof.
  revert i. induction l as [|x l IH]; intros [|i] Hl; cbn in *; try done.
  - destruct (last_occupied l); [done|]. by destruct x.
  - apply IH. by destruct (last_occupied l).
Qed.

Lemma last_occupied_Some l k i : last_occupied l = Some k → (k < i)%nat → mjoin (l !! i) = None.
Proof.
  revert k i. induction l as [|x l IH]; intros k i Hl Hi; cbn in *; [done|].
  destruct (last_occupied l) as [j|] eqn:Hj.
  - injection Hl as <-. destruct i as [|i]; [lia|]. by apply (IH j); [|lia].
  - destruct i as [|i]; [lia|]. by apply (last_occupied_None l).
Qed.

Lemma take_last_occupied l k i :
  last_occupied l = Some k → mjoin (take (k + 1) l !! i) = mjoin (l !! i).
Proof.
  intros Hl. destruct (decide (i < k + 1)%nat) as [Hi|Hi]; [by rewrite lookup_take_lt|].
  rewrite lookup_take_ge by lia. cbn. by rewrite (last_occupied_Some l k i) by (done || lia).
Qed.

Lemma occupied_bounds l : 0 ≤ occupied l ≤ Z.of_nat (length l).
Proof. unfold occupied. pose proof (length_filter is_Some l). lia. Qed.

Lemma occupied_app l1 l2 : occupied (l1 ++ l2) = occupied l1 + occupied l2.
Proof. unfold occupied. rewrite filter_app, length_app. lia. Qed.

Lemma occupied_fill l i x : l !! i = Some None → occupied (<[i := Some x]> l) = occupied l + 1.
Proof.
  intros Hi. rewrite <- (take_drop_middle l i None Hi) at 2. rewrite insert_take_drop by by eapply lookup_lt_Some.
  rewrite !occupied_app. unfold occupied. rewrite filter_cons_True, filter_cons_False by eauto using is_Some_None.
  cbn [length]. lia.
Qed.

Lemma occupied_hole l i : l !! i = Some None → occupied l < Z.of_nat (length l).
Proof.
  intros Hi. pose proof (lookup_lt_Some _ _ _ Hi). rewrite <- (take_drop_middle l i None Hi).
  rewrite occupied_app, length_app. unfold occupied at 2. rewrite filter_cons_False by eauto using is_Some_None.
  fold (occupied (drop (S i) l)). pose proof (occupied_bounds (take i l)).
  pose proof (occupied_bounds (drop (S i) l)). cbn [length]. lia.
Qed.

Lemma list_filter_all l : Forall is_Some l → base.filter is_Some l = l.
Proof.
  induction 1 as [|x l Hx _ IH]; [done|]. rewrite filter_cons_True by done. by rewrite IH.
Qed.
End Slots.

(** ** Coherence *)
Section Coherence.
Context {BC : Type} (cfg : SchedulerConfig).
Implicit Types (T : TaskAddress → option (Scheduled BC)) (L : gmap TaskName TaskAddress)
  (R : gmap TaskAddress RetryConfig) (a b : TaskAddress) (t : Scheduled BC).

(** Tables that agree on the addresses that exist. *)
Definition same_tasks T T' : Prop := ∀ a, 0 ≤ a.2 → T' a = T a.
Definition without T a : TaskAddress → option (Scheduled BC) := λ b, if decide (b = a) then None else T b.
Definition with_task T a t : TaskAddress → option (Scheduled BC) := λ b, if decide (b = a) then Some t else T b.

(** On its own clock, a period moves a task to another agenda that is visited.
    It need not be the clock of the task: rescheduling may change that one. *)
Definition period_ok (per : BlockNumberOrTimestamp) : Prop :=
  match per with
  | BlockNumber p => 0 < p
  | Timestamp p => 0 < p ∧ p mod TimestampBucketSize cfg = 0
  end.
Definition aligned (w : BlockNumberOrTimestamp) : Prop :=
  match w with
  | BlockNumber _ => True
  | Timestamp x => x mod TimestampBucketSize cfg = 0 ∨ x = u_max 64
  end.

(** A name leads to the task that carries it and to nothing else; a retry
    configuration belongs to a task that is there and has a usable period;
    timestamp tasks sit on bucket boundaries, or at the end of time. *)
Record coherent T L R : Prop := {
  co_lookup : ∀ id a, L !! id = Some a ↔ 0 ≤ a.2 ∧ ∃ t, T a = Some t ∧ maybe_id t = Some id;
  co_retries : ∀ a rc, R !! a = Some rc → 0 ≤ a.2 ∧ is_Some (T a) ∧ period_ok (period rc);
  co_aligned : ∀ a, 0 ≤ a.2 → is_Some (T a) → aligned a.1;
}.

Lemma coherent_same T T' L R : same_tasks T T' → coherent T L R → coherent T' L R.
Proof.
  intros Hs [Hl Hr Ha]. split.
  - intros id a. rewrite Hl. split; intros [Hp Ht]; (split; [done|]); by rewrite Hs in *.
  - intros a rc (? & ? & ?)%Hr. by rewrite Hs.
  - intros a Hp. rewrite Hs by done. by apply Ha.
Qed.

Definition drop_name (id : option TaskName) L : gmap TaskName TaskAddress :=
  match id with Some id => delete id L | None => L end.
Definition add_name (id : option TaskName) a L : gmap TaskName TaskAddress :=
  match id with Some id => <[id := a]> L | None => L end.

Lemma coherent_unique T L R id a b t u :
  coherent T L R → 0 ≤ a.2 → 0 ≤ b.2 → T a = Some t → T b = Some u →
  maybe_id t = Some id → maybe_id u = Some id → a = b.
Proof.
  intros Hc Ha Hb Ht Hu Hit Hiu.
  assert (L !! id = Some a) by (apply (co_lookup _ _ _ Hc); eauto).
  assert (L !! id = Some b) by (apply (co_lookup _ _ _ Hc); eauto). congruence.
Qed.

Lemma coherent_remove T L R a t :
  coherent T L R → 0 ≤ a.2 → T a = Some t →
  coherent (without T a) (drop_name (maybe_id t) L) (delete a R).
Proof.
  intros Hc Hpos Ht. pose proof Hc as [Hl Hr Hal]. unfold without. split.
  - intros id b. unfold drop_name. split.
    + intros Hlk. assert (Hb : L !! id = Some b ∧ maybe_id t ≠ Some id).
      { destruct (maybe_id t) as [i|] eqn:Hi; [|done]. apply lookup_delete_Some in Hlk as [??]. naive_solver. }
      destruct Hb as [Hb Hne]. apply Hl in Hb as (Hp & u & Hu & Hiu). split; [done|].
      exists u. split; [|done]. rewrite decide_False; [done|]. intros ->. congruence.
    + intros (Hp & u & Hu & Hiu). case_decide as Hab; [done|].
      assert (Hb : L !! id = Some b) by (apply Hl; eauto).
      destruct (maybe_id t) as [i|] eqn:Hi; [|done]. rewrite lookup_delete_ne; [done|].
      intros ->. apply Hab. by eapply (coherent_unique T L R id).
  - intros b rc [Hne Hlk]%lookup_delete_Some. destruct (Hr _ _ Hlk) as (? & ? & ?).
    by rewrite decide_False.
  - intros b Hp. case_decide; [by intros []|by apply Hal].
Qed.

Lemma coherent_add T L R a t :
  coherent T L R → 0 ≤ a.2 → T a = None → aligned a.1 →
  (∀ id, maybe_id t = Some id → L !! id = None) →
  coherent (with_task T a t) (add_name (maybe_id t) a L) R.
Proof.
  intros [Hl Hr Hal] Hpos Hn Hali Hfresh. unfold with_task. split.
  - intros id b. unfold add_name. split.
    + intros Hlk. case_decide as Hba; [subst b|].
      * split; [done|]. exists t. split; [done|].
        destruct (maybe_id t) as [i|] eqn:Hi.
        -- apply lookup_insert_Some in Hlk as [[-> _]|[_ Hlk]]; [done|].
           apply Hl in Hlk as (_ & u & Hu & _). congruence.
        -- apply Hl in Hlk as (_ & u & Hu & _). congruence.
      * apply Hl. destruct (maybe_id t) as [i|]; [|done].
        apply lookup_insert_Some in Hlk as [[_ Heq]|[_ Hlk]]; [congruence|done].
    + intros (Hp & u & Hu & Hiu). case_decide as Hba; [subst b|].
      * injection Hu as <-. rewrite Hiu. apply lookup_insert_eq.
      * assert (Hb : L !! id = Some b) by (apply Hl; eauto).
        destruct (maybe_id t) as [i|] eqn:Hi; [|done]. rewrite lookup_insert_ne; [done|].
        intros ->. specialize (Hfresh _ eq_refl). congruence.
  - intros b rc Hlk. destruct (Hr _ _ Hlk) as (? & Hs & ?). split_and!; [done| |done].
    case_decide; eauto.
  - intros b Hp. case_decide as Hba; [by subst b|by apply Hal].
Qed.

Lemma coherent_set_retry T L R a rc :
  coherent T L R → 0 ≤ a.2 → is_Some (T a) → period_ok (period rc) →
  coherent T L (<[a := rc]> R).
Proof.
  intros [Hl Hr Hal] Hpos Hs Hp. split; [done| |done].
  intros b rc' [[<- <-]|[_ Hlk]]%lookup_insert_Some; [done|by apply Hr].
Qed.

Lemma coherent_drop_retry T L R a : coherent T L R → coherent T L (delete a R).
Proof. intros [Hl Hr Hal]. split; [done| |done]. intros b rc [_ Hlk]%lookup_delete_Some. by apply Hr. Qed.

Lemma drop_add_name id a L : drop_name id (add_name id a L) = drop_name id L.
Proof. destruct id; [apply delete_insert_eq|done]. Qed.
Lemma add_drop_name id a L : add_name id a (drop_name id L) = add_name id a L.
Proof. destruct id; [apply insert_delete_eq|done]. Qed.
End Coherence.

Record valid_scheduler_config (cfg : SchedulerConfig) : Prop := {
  vs_bucket : 0 < TimestampBucketSize cfg;
  vs_max : 0 < MaxScheduledPerBlock cfg ≤ u_max 32;
  (** The meter of a fresh block has room for the base weight. *)
  vs_base : try_consume (with_limit (MaximumWeight cfg))
              (SchedulerWeights.service_agendas_base (s_db cfg)) ≠ None;
}.

Section Invariant.
Context {BC Call Pm D E : Type} `{Preimages Pm BC Call}.
Context (cfg : SchedulerConfig) (Hcfg : valid_scheduler_config cfg).
Implicit Types (s : Sched BC Pm D E) (t : Scheduled BC) (a : TaskAddress) (w : BlockNumberOrTimestamp).

Definition tasks s : TaskAddress → option (Scheduled BC) := λ a, task_at a s.
Definition agendas_bounded s : Prop := ∀ w, Z.of_nat (length (agenda_at w s)) ≤ MaxScheduledPerBlock cfg.
Definition sinv s : Prop := coherent cfg (tasks s) (Lookup s) (Retries s) ∧ agendas_bounded s.

(** The cursors and the clock. *)
Definition same_clock s s' : Prop :=
  IncompleteBlockSince s' = IncompleteBlockSince s ∧
  IncompleteTimestampSince s' = IncompleteTimestampSince s ∧
  LastProcessedTimestamp s' = LastProcessedTimestamp s ∧ s_block s' = s_block s ∧ s_now s' = s_now s.

#[global] Instance same_clock_refl : Reflexive same_clock.
Proof. by intros s. Qed.
#[global] Instance same_clock_trans : Transitive same_clock.
Proof. intros s1 s2 s3 (?&?&?&?&?) (?&?&?&?&?). repeat split; congruence. Qed.

(** ** Agenda writes, as table updates *)
Lemma agenda_at_put w ag s w' :
  agenda_at w' (put_agenda (<[w := ag]> (Agenda s)) s) = if decide (w' = w) then ag else agenda_at w' s.
Proof.
  unfold agenda_at. cbn. case_decide as Hw; [subst; by rewrite lookup_insert_eq|by rewrite lookup_insert_ne].
Qed.

Lemma agenda_at_del w s w' :
  agenda_at w' (put_agenda (delete w (Agenda s)) s) = if decide (w' = w) then [] else agenda_at w' s.
Proof.
  unfold agenda_at. cbn. case_decide as Hw; [subst; by rewrite lookup_delete_eq|by rewrite lookup_delete_ne].
Qed.

Lemma tasks_put w ag s a :
  tasks (put_agenda (<[w := ag]> (Agenda s)) s) a =
  if decide (a.1 = w) then mjoin (ag !! Z.to_nat a.2) else tasks s a.
Proof. unfold tasks, task_at. rewrite agenda_at_put. by case_decide. Qed.

Lemma tasks_agenda s s' : Agenda s' = Agenda s → tasks s' = tasks s ∧ (agendas_bounded s → agendas_bounded s').
Proof. unfold tasks, task_at, agendas_bounded, agenda_at. by intros ->. Qed.

Lemma bounded_put w ag s :
  agendas_bounded s → Z.of_nat (length ag) ≤ MaxScheduledPerBlock cfg →
  agendas_bounded (put_agenda (<[w := ag]> (Agenda s)) s).
Proof. intros Hb Hl w'. rewrite agenda_at_put. by case_decide. Qed.

Lemma clear_slot_tasks a s : 0 ≤ a.2 → same_tasks (without (tasks s) a) (tasks (clear_slot a s)).
Proof.
  intros Ha b Hb. unfold clear_slot, without. rewrite tasks_put. destruct a as [w i], b as [w' j]. cbn in *.
  case_decide as Hw; [subst w'|by rewrite decide_False by congruence]. case_decide as He.
  - injection He as ->. destruct (decide (Z.to_nat i < length (agenda_at w s))%nat).
    + by rewrite list_lookup_insert_eq.
    + rewrite list_insert_ge, lookup_ge_None_2 by lia. done.
  - rewrite list_lookup_insert_ne; [done|]. intros Heq. apply He. f_equal. lia.
Qed.

Lemma clear_slot_bounded a s : agendas_bounded s → agendas_bounded (clear_slot a s).
Proof. intros Hb. apply bounded_put; [done|]. rewrite length_insert. apply Hb. Qed.

Lemma cleanup_spec w s :
  (∀ a, tasks (cleanup_agenda w s) a = tasks s a) ∧ (agendas_bounded s → agendas_bounded (cleanup_agenda w s)).
Proof.
  unfold cleanup_agenda. destruct (last_occupied (agenda_at w s)) as [k|] eqn:Hk.
  - destruct (k + 1 <? length (agenda_at w s))%nat; [|done]. split.
    + intros a. rewrite tasks_put. case_decide as Ha; [|done]. unfold tasks, task_at. rewrite Ha.
      by apply take_last_occupied.
    + intros Hb. apply bounded_put; [done|]. rewrite length_take. specialize (Hb w). lia.
  - split.
    + intros a. unfold tasks, task_at. rewrite agenda_at_del. case_decide as Ha; [|done].
      rewrite Ha. symmetry. by apply last_occupied_None.
    + intros Hb w'. rewrite agenda_at_del. case_decide; [cbn; destruct (vs_max _ Hcfg); lia|apply Hb].
Qed.

(** Nothing but agendas. *)
Lemma cleanup_other w s :
  Lookup (cleanup_agenda w s) = Lookup s ∧ Retries (cleanup_agenda w s) = Retries s ∧
  same_clock s (cleanup_agenda w s).
Proof. unfold cleanup_agenda. repeat case_match; done. Qed.

Lemma push_spec w what s s' i :
  agendas_bounded s → push_to_agenda cfg w what s = Ok (s', i) →
  0 ≤ i ∧ tasks s (w, i) = None ∧ same_tasks (with_task (tasks s) (w, i) what) (tasks s') ∧
  agendas_bounded s' ∧ Lookup s' = Lookup s ∧ Retries s' = Retries s ∧ same_clock s s'.
Proof.
  intros Hb Hp. unfold push_to_agenda in Hp. apply bind_Ok in Hp as (? & _ & Hp).
  destruct (Z.ltb_spec (Z.of_nat (length (agenda_at w s))) (MaxScheduledPerBlock cfg)) as [Hlt|Hge].
  - injection Hp as <- <-. split_and!; try done; try lia.
    + unfold tasks, task_at. cbn. by rewrite lookup_ge_None_2 by lia.
    + intros b Hpos. unfold with_task. rewrite tasks_put. destruct b as [w' j]. cbn in *.
      case_decide as Hw; [subst w'|by rewrite decide_False by congruence]. case_decide as He.
      * injection He as ->. by rewrite Nat2Z.id, lookup_app_r, Nat.sub_diag by lia.
      * unfold tasks, task_at. cbn. destruct (decide (Z.to_nat j < length (agenda_at w s))%nat).
        -- by rewrite lookup_app_l.
        -- rewrite !lookup_ge_None_2; [done|lia|]. rewrite length_app. cbn.
           assert (j ≠ Z.of_nat (length (agenda_at w s))) by congruence. lia.
    + apply bounded_put; [done|]. rewrite length_app. cbn. lia.
  - destruct (hole_index (agenda_at w s)) as [k|] eqn:Hk; [|done]. injection Hp as <- <-.
    apply hole_index_Some in Hk. split_and!; try done; try lia.
    + unfold tasks, task_at. cbn. by rewrite Nat2Z.id, Hk.
    + intros b Hpos. unfold with_task. rewrite tasks_put. destruct b as [w' j]. cbn in *.
      case_decide as Hw; [subst w'|by rewrite decide_False by congruence]. case_decide as He.
      * injection He as ->. rewrite Nat2Z.id, list_lookup_insert_eq; [done|by eapply lookup_lt_Some].
      * rewrite list_lookup_insert_ne; [done|]. intros ->. apply He. f_equal. lia.
    + apply bounded_put; [done|]. rewrite length_insert. apply Hb.
Qed.

Lemma place_spec w what s s' a :
  agendas_bounded s → place_task cfg w what s = Ok (s', a) →
  a.1 = w ∧ 0 ≤ a.2 ∧ tasks s a = None ∧ same_tasks (with_task (tasks s) a what) (tasks s') ∧
  agendas_bounded s' ∧ Lookup s' = add_name (maybe_id what) a (Lookup s) ∧ Retries s' = Retries s ∧
  same_clock s s'.
Proof.
  intros Hb Hp. unfold place_task in Hp. apply bind_Ok in Hp as ([s1 i] & Hpush & [= <- <-]).
  destruct (push_spec _ _ _ _ _ Hb Hpush) as (Hi & Hn & Ht & Hb1 & HL & HR & Hc). cbn.
  destruct (maybe_id what) as [id|]; cbn; rewrite ?HL; done.
Qed.

(** ** What an operation may do: keep the invariant and the cursors, and put
    tasks only where [F] allows: into the future. *)
Definition in_future s w : Prop :=
  match w with BlockNumber b => s_block s < b | Timestamp x => s_now s < x end.

Record evolves_by (F : BlockNumberOrTimestamp → Prop) s s' : Prop := {
  ev_inv : sinv s';
  ev_clock : same_clock s s';
  ev_new : ∀ a, 0 ≤ a.2 → is_Some (tasks s' a) → is_Some (tasks s a) ∨ F a.1;
}.
Definition evolves s s' : Prop := evolves_by (in_future s) s s'.

Definition same_store s s' : Prop :=
  Agenda s' = Agenda s ∧ Lookup s' = Lookup s ∧ Retries s' = Retries s ∧ same_clock s s'.

Lemma evolves_store F s s1 s2 : evolves_by F s s1 → same_store s1 s2 → evolves_by F s s2.
Proof.
  intros [[Hc Hb] Hk Hn] (EA & EL & ER & Hk2). destruct (tasks_agenda _ _ EA) as [ET Hb2]. split.
  - split; [by rewrite ET, EL, ER|by apply Hb2].
  - by etrans.
  - by rewrite ET.
Qed.

Lemma evolves_refl F s s' : sinv s → same_store s s' → evolves_by F s s'.
Proof.
  intros Hi. apply (evolves_store F s s s'). split; [done|done|]. intros a _ Ha. by left.
Qed.

Definition when_in_range (d : DispatchTime) : Prop :=
  match d with
  | After (Timestamp x) => 0 ≤ x
  | _ => True
  end.

Lemma resolve_ok d s w :
  when_in_range d → resolve cfg d s = Ok w → in_future s w ∧ aligned cfg w.
Proof.
  intros Hr Hw. unfold resolve in Hw. res_inv. pose proof (vs_bucket _ Hcfg) as Hb.
  unfold resolve_time in Hw. destruct d as [n|[n|n]]; res_inv; subst w; [done..|]. split; [done|].
  unfold normalize, checked_div, aligned. rewrite (proj2 (Z.eqb_neq _ 0)) by lia. cbn.
  unfold sat_add, sat_mul.
  destruct (Z_le_gt_dec ((n / TimestampBucketSize cfg + 2) * TimestampBucketSize cfg) (u_max 64)) as [Hle|Hgt].
  - left. rewrite <- (Z.mod_mul (n / TimestampBucketSize cfg + 2) (TimestampBucketSize cfg)) by lia.
    f_equal. lia.
  - right. assert (0 ≤ u_max 64) by u_lia. lia.
Qed.

(** Adding a task. *)
Lemma place_evolves (F : BlockNumberOrTimestamp → Prop) w what s s' a :
  sinv s → F w → aligned cfg w → (∀ id, maybe_id what = Some id → Lookup s !! id = None) →
  place_task cfg w what s = Ok (s', a) → evolves_by F s s'.
Proof.
  intros [Hc Hb] Hf Hal Hfresh Hp.
  destruct (place_spec _ _ _ _ _ Hb Hp) as (Ha & Hpos & Hnone & Ht & Hb' & HL & HR & Hk). split.
  - split; [|done]. rewrite HL, HR. eapply coherent_same; [exact Ht|].
    apply coherent_add; [done|done|done|by rewrite Ha|done].
  - done.
  - intros b Hbp. rewrite (Ht b Hbp). unfold with_task. case_decide as Hba; [subst b; rewrite Ha; by right|by left].
Qed.

Lemma request_lookup_store c b s : same_store s (request_lookup c b s).
Proof. unfold request_lookup. repeat case_match; done. Qed.
Lemma drop_unscheduled_store c b s : same_store s (drop_unscheduled_preimage c b s).
Proof. unfold drop_unscheduled_preimage. by case_match. Qed.

Lemma do_schedule_inner_evolves d prio o c b s :
  sinv s → when_in_range d → evolves s (do_schedule_inner cfg d prio o c b s).1.
Proof.
  intros Hi Hd. unfold do_schedule_inner. destruct (resolve cfg d s) as [w|e] eqn:Hw.
  2: { apply evolves_refl; [done|apply drop_unscheduled_store]. }
  destruct (resolve_ok _ _ _ Hd Hw) as [Hf Hal].
  destruct (place_task cfg w _ s) as [[s1 a]|[e t]] eqn:Hp; cbn.
  - eapply evolves_store; [|apply request_lookup_store]. eapply place_evolves; [done|done|done| |exact Hp]. done.
  - apply evolves_refl; [done|apply drop_unscheduled_store].
Qed.

Lemma do_schedule_named_inner_evolves id d prio o c b s :
  sinv s → when_in_range d → evolves s (do_schedule_named_inner cfg id d prio o c b s).1.
Proof.
  intros Hi Hd. unfold do_schedule_named_inner. case_bool_decide as Hid.
  { apply evolves_refl; [done|apply drop_unscheduled_store]. }
  destruct (resolve cfg d s) as [w|e] eqn:Hw.
  2: { apply evolves_refl; [done|apply drop_unscheduled_store]. }
  destruct (resolve_ok _ _ _ Hd Hw) as [Hf Hal].
  destruct (place_task cfg w _ s) as [[s1 a]|[e t]] eqn:Hp; cbn.
  - eapply evolves_store; [|apply request_lookup_store]. eapply place_evolves; [done|done|done| |exact Hp].
    intros id' [= <-]. by apply eq_None_not_Some.
  - apply evolves_refl; [done|apply drop_unscheduled_store].
Qed.

(** Removing a task, whatever else is done to the preimages and the log. *)
Lemma removal_evolves F a t s s' :
  sinv s → 0 ≤ a.2 → tasks s a = Some t → same_tasks (without (tasks s) a) (tasks s') → agendas_bounded s' →
  Lookup s' = drop_name (maybe_id t) (Lookup s) → Retries s' = delete a (Retries s) → same_clock s s' →
  evolves_by F s s'.
Proof.
  intros [Hc Hb] Hpos Ht Hs Hb' HL HR Hk. split; [split; [|done]|done|].
  - rewrite HL, HR. eapply coherent_same; [exact Hs|]. by apply coherent_remove.
  - intros b Hbp. rewrite (Hs b Hbp). unfold without. case_decide; [by intros []|by left].
Qed.

Lemma clear_cleanup a s :
  0 ≤ a.2 →
  same_tasks (without (tasks s) a) (tasks (cleanup_agenda a.1 (clear_slot a s))) ∧
  (agendas_bounded s → agendas_bounded (cleanup_agenda a.1 (clear_slot a s))).
Proof.
  intros Hp. destruct (cleanup_spec a.1 (clear_slot a s)) as [Ht Hb]. split.
  - intros b Hbp. rewrite Ht. by apply clear_slot_tasks.
  - intros Hbb. by apply Hb, clear_slot_bounded.
Qed.

Lemma do_cancel_evolves o a s : sinv s → 0 ≤ a.2 → evolves s (do_cancel cfg o a s).1.
Proof.
  intros Hi Hp. unfold do_cancel.
  assert (Hwb : evolves s (put_agenda (<[a.1 := agenda_at a.1 s]> (Agenda s)) s)).
  { destruct Hi as [Hc Hb].
    assert (Hs : same_tasks (tasks s) (tasks (put_agenda (<[a.1 := agenda_at a.1 s]> (Agenda s)) s))).
    { intros b Hbp. rewrite tasks_put. case_decide as Hw; [|done]. unfold tasks, task_at. by rewrite Hw. }
    split; [split|done|].
    - by eapply coherent_same.
    - apply bounded_put; [done|apply Hb].
    - intros b Hbp. rewrite (Hs b Hbp). by left. }
  destruct (agenda_at a.1 s !! Z.to_nat a.2) as [[t|]|] eqn:Hslot; [|done|done].
  destruct (match o with Some o => _ | None => _ end); [|by apply evolves_refl]. cbn.
  set (s1 := put_retries _ _).
  assert (Ht : tasks s a = Some t) by (unfold tasks, task_at; by rewrite Hslot).
  assert (HA : Agenda s1 = Agenda (clear_slot a s)) by (unfold s1, remove_lookup; by case_match).
  assert (Hag : Agenda (cleanup_agenda a.1 s1) = Agenda (cleanup_agenda a.1 (clear_slot a s))).
  { unfold cleanup_agenda, agenda_at. rewrite HA. repeat case_match; done. }
  destruct (cleanup_other a.1 s1) as (HL & HR & Hk). destruct (clear_cleanup a s Hp) as [Hs Hb].
  apply (removal_evolves _ a t); [done|done|done|..].
  - destruct (tasks_agenda _ _ Hag) as [HT _]. change (tasks (s_deposit_event _ ?x)) with (tasks x). by rewrite HT.
  - destruct (tasks_agenda _ _ Hag) as [_ HB]. by apply HB, Hb, Hi.
  - cbn. rewrite HL. unfold s1, remove_lookup. by case_match.
  - cbn. rewrite HR. unfold s1, remove_lookup. by case_match.
  - cbn. transitivity s1; [|done]. unfold s1, remove_lookup. by case_match.
Qed.

Lemma do_cancel_named_evolves o id s s' : sinv s → do_cancel_named cfg o id s = Ok s' → evolves s s'.
Proof.
  intros Hi Hc. unfold do_cancel_named in Hc. apply bind_Ok in Hc as (a & Ha & Hc).
  apply bind_Ok in Hc as (t & Ht & Hc). apply bind_Ok in Hc as (? & _ & Hc). res_inv. pose proof Hi as [Hco _].
  pose proof Ha as Hla. apply (co_lookup _ _ _ _ Hco) in Ha as (Hp & u & Hu & Hid).
  assert (u = t) as -> by (unfold tasks in Hu; congruence).
  subst s'. set (s1 := drop_call _ _).
  destruct (clear_cleanup a s1 Hp) as [Hs Hb]. destruct (cleanup_other a.1 (clear_slot a s1)) as (HL & HR & Hk).
  apply (removal_evolves _ a t); [done|done|done| | |..].
  - exact Hs.
  - by apply Hb, Hi.
  - cbn. by rewrite HL, Hid.
  - cbn. by rewrite HR.
  - done.
Qed.

(** ** Rescheduling moves a task with its name and its retry configuration *)
Lemma coherent_move T L R a b t :
  coherent cfg T L R → 0 ≤ a.2 → 0 ≤ b.2 → a ≠ b → T a = Some t → T b = None → aligned cfg b.1 →
  coherent cfg (without (with_task T b t) a) (add_name (maybe_id t) b L)
    (match R !! a with Some rc => <[b := rc]> (delete a R) | None => R end).
Proof.
  intros Hc Ha Hb Hab Ht Hn Hal.
  assert (Hm : coherent cfg (with_task (without T a) b t) (add_name (maybe_id t) b L) (delete a R)).
  { rewrite <- (add_drop_name (maybe_id t)). apply coherent_add; [by apply coherent_remove|done| |done|].
    - unfold without. by case_decide.
    - intros id Hid. rewrite Hid. apply lookup_delete_eq. }
  eapply (coherent_same cfg (with_task (without T a) b t)).
  { intros c Hcp. unfold without, with_task. repeat case_decide; congruence. }
  destruct (R !! a) as [rc|] eqn:Hr; [|by rewrite delete_id in Hm].
  apply coherent_set_retry; [done|done| |].
  - unfold with_task. rewrite decide_True by done. by eexists.
  - by destruct (co_retries _ _ _ _ Hc _ _ Hr) as (_ & _ & ?).
Qed.

Lemma move_evolves w a b t s s1 :
  sinv s → in_future s w → aligned cfg w → w ≠ a.1 → 0 ≤ a.2 → tasks s a = Some t →
  place_task cfg w t s = Ok (s1, b) → evolves s (vacate_source a b s1).
Proof.
  intros [Hc Hb] Hf Hal Hw Ha Ht Hp.
  destruct (place_spec _ _ _ _ _ Hb Hp) as (Hb1 & Hbp & Hnone & Hts & Hbb & HL & HR & Hk).
  assert (Hab : a ≠ b) by congruence.
  assert (Hta : tasks s1 a = Some t) by (rewrite Hts by done; unfold with_task; by rewrite decide_False).
  unfold vacate_source. rewrite bool_decide_true.
  2: { unfold tasks, task_at in Hta. destruct (agenda_at a.1 s1 !! Z.to_nat a.2) eqn:Hl; [by eexists|done]. }
  destruct (clear_cleanup a s1 Ha) as [Hs Hcb]. destruct (cleanup_other a.1 (clear_slot a s1)) as (HL2 & HR2 & Hk2).
  set (s2 := cleanup_agenda a.1 (clear_slot a s1)) in *. set (s3 := s_deposit_event _ s2).
  assert (HR3 : Retries s3 = Retries s) by (cbn; by rewrite HR2, <- HR).
  set (s4 := match Retries s3 !! a with Some _ => _ | None => _ end).
  assert (E4 : Agenda s4 = Agenda s2 ∧ Lookup s4 = Lookup s2 ∧ same_clock s2 s4 ∧
    Retries s4 = match Retries s !! a with Some rc => <[b := rc]> (delete a (Retries s)) | None => Retries s end).
  { unfold s4. rewrite HR3. by destruct (Retries s !! a). }
  destruct E4 as (EA & EL & EK & ER). destruct (tasks_agenda _ _ EA) as [ET EB].
  assert (Hsame : same_tasks (without (with_task (tasks s) b t) a) (tasks s4)).
  { rewrite ET. intros c Hcp. rewrite Hs by done. unfold without. case_decide; [done|by apply Hts]. }
  split.
  - split; [|by apply EB, Hcb]. rewrite EL, ER, HL2. change (Lookup (clear_slot a s1)) with (Lookup s1). rewrite HL.
    eapply coherent_same; [exact Hsame|]. apply coherent_move; try done. by rewrite Hb1.
  - transitivity s2; [|done]. by transitivity s1.
  - intros c Hcp. rewrite Hsame by done. unfold without, with_task. repeat case_decide; [by intros []| |by left].
    subst c. rewrite Hb1. by right.
Qed.

Lemma do_reschedule_evolves a d s s' b :
  sinv s → 0 ≤ a.2 → when_in_range d → do_reschedule cfg a d s = Ok (s', b) → evolves s s'.
Proof.
  intros Hi Ha Hd Hr. unfold do_reschedule in Hr. apply bind_Ok in Hr as (w & Hw & Hr).
  destruct (resolve_ok _ _ _ Hd Hw) as [Hf Hal]. res_inv.
  match goal with Hp : place_task _ _ _ _ = Ok ?v |- _ => destruct v as [s1 b'] end. simplify_eq.
  by eapply move_evolves.
Qed.

Lemma do_reschedule_named_evolves id d s s' b :
  sinv s → when_in_range d → do_reschedule_named cfg id d s = Ok (s', b) → evolves s s'.
Proof.
  intros Hi Hd Hr. unfold do_reschedule_named in Hr. apply bind_Ok in Hr as (w & Hw & Hr).
  destruct (resolve_ok _ _ _ Hd Hw) as [Hf Hal]. apply bind_Ok in Hr as (a & Hla & Hr). res_inv.
  match goal with Hp : place_task _ _ _ _ = Ok ?v |- _ => destruct v as [s1 b'] end. simplify_eq.
  destruct Hi as [Hc Hb]. pose proof (proj1 (co_lookup _ _ _ _ Hc _ _) Hla) as [Hp _].
  by eapply move_evolves.
Qed.

(** ** Retry configurations *)
Lemma set_retry_at_evolves o a id n per s s' :
  sinv s → 0 ≤ a.2 → (match per with BlockNumber p | Timestamp p => 0 ≤ p end) →
  set_retry_at cfg o a id n per s = Ok s' → evolves s s'.
Proof.
  intros [Hc Hb] Ha Hper Hs. unfold set_retry_at in Hs. apply bind_Ok in Hs as (t & Ht & Hs).
  apply bind_Ok in Hs as (? & _ & Hs). apply bind_Ok in Hs as (? & He & [= <-]). res_inv. split; [split; [|done]|done|by left].
  apply coherent_set_retry; [done|done|by eexists|]. unfold ensure_period_matches_task_type in He. cbn.
  destruct a.1, per; try done; res_inv; cbn; [lia|]. split; lia.
Qed.

Lemma do_cancel_retry_evolves o a s s' : sinv s → do_cancel_retry cfg o a s = Ok s' → evolves s s'.
Proof.
  intros [Hc Hb] Hs. unfold do_cancel_retry in Hs. res_inv. subst s'. split; [split; [|done]|done|by left].
  by apply coherent_drop_retry.
Qed.
End Invariant.
