(* ===== verification/SchedulerService.v ===== *)
(** * The scheduler: servicing

    While an agenda is serviced its tasks live in a local copy, and what
    storage still holds under its key is stale. The invariant is kept by the
    storage with the local copy put in place of the stale agenda; the loops
    leave no task behind the cursors. *)

From stdpp Require Import base option list numbers gmap fin_maps.
From S2P Require Import Prelude Crypto Frame SchedulerTime Scheduler SchedulerProps.
#[local] Open Scope Z_scope.

Section Service.
Context {BC Call Pm D E : Type} `{Preimages Pm BC Call}.
Context (cfg : SchedulerConfig) (Hcfg : valid_scheduler_config cfg).
Context (call_weight : Call → Weight)
  (dispatch : Call → RuntimeOrigin → Sched BC Pm D E → Sched BC Pm D E * (option Weight * result D unit)).
(** The calls that are scheduled do not themselves schedule or cancel. *)
Context (Hframe : ∀ c o s, same_store s (dispatch c o s).1).
Implicit Types (s : Sched BC Pm D E) (t : Scheduled BC) (a : TaskAddress) (w now : BlockNumberOrTimestamp).

(** Storage with the local copy of an agenda in its place. *)
Definition eff w (ag : list (option (Scheduled BC))) s : Sched BC Pm D E :=
  put_agenda (<[w := ag]> (Agenda s)) s.

Lemma eff_store w ag s s' : same_store s s' → same_store (eff w ag s) (eff w ag s').
Proof. intros (HA & HL & HR & Hk). split_and!; [cbn; by rewrite HA|done|done|done]. Qed.

Lemma evolves_trans F s1 s2 s3 :
  evolves_by cfg F s1 s2 → evolves_by cfg F s2 s3 → evolves_by cfg F s1 s3.
Proof.
  intros [_ Hk1 Hn1] [Hi Hk2 Hn2]. split; [done|by etrans|].
  intros a Ha [Hs|?]%Hn2; [by apply Hn1|by right|done].
Qed.

(** ** Times while an agenda is serviced *)
Definition after now w : Prop :=
  match now, w with
  | BlockNumber n, BlockNumber b => n < b
  | Timestamp n, Timestamp x => n < x
  | _, _ => False
  end.
Definition serviceable w now : Prop :=
  match w, now with
  | BlockNumber b, BlockNumber n => b ≤ n < u_max 32
  | Timestamp x, Timestamp n => x ≤ n < u_max 64 ∧ n mod TimestampBucketSize cfg = 0
  | _, _ => False
  end.

Lemma wake_spec w now per wake :
  serviceable w now → period_ok cfg per → bnt_saturating_add now per = Some wake →
  after now wake ∧ aligned cfg wake ∧ wake ≠ w.
Proof.
  intros Hs Hp Hw. pose proof (vs_bucket _ Hcfg) as Hb.
  destruct w as [b|x], now as [n|n], per as [p|p]; try done; cbn in Hw; injection Hw as <-; cbn in *.
  - unfold sat_add. split_and!; [lia|done|]. intros [=]. lia.
  - destruct Hs as [Hs Hn]. destruct Hp as [Hp Hpm]. unfold sat_add. split_and!; [lia| |intros [=]; lia].
    destruct (Z_le_gt_dec (n + p) (u_max 64)); [left|right; lia].
    rewrite Z.min_l by lia. rewrite Z.add_mod, Hn, Hpm by lia. apply Z.mod_0_l. lia.
Qed.

(** ** One task *)
Lemma removal_eff F w i task ag s s' :
  sinv cfg (eff w ag s) → ag !! i = Some (Some task) → Agenda s' = Agenda s →
  Lookup s' = drop_name (maybe_id task) (Lookup s) → Retries s' = delete (w, Z.of_nat i) (Retries s) →
  same_clock s s' → evolves_by cfg F (eff w ag s) (eff w (<[i := None]> ag) s').
Proof.
  intros Hi Hag HA HL HR Hk. apply (removal_evolves _ F (w, Z.of_nat i) task); [done|cbn; lia|..|done|done|done].
  - unfold eff. rewrite tasks_put. cbn. by rewrite decide_True, Nat2Z.id, Hag.
  - intros [w' j] Hj. unfold eff, without. rewrite !tasks_put. cbn in *.
    case_decide as Hw; [subst w'|]; case_decide as He.
    + injection He as ->. rewrite Nat2Z.id, list_lookup_insert_eq; [done|by eapply lookup_lt_Some].
    + rewrite list_lookup_insert_ne; [done|]. intros ->. apply He. f_equal. lia.
    + congruence.
    + unfold tasks, task_at, agenda_at. by rewrite HA.
  - destruct Hi as [_ Hb]. intros w'. unfold eff. rewrite agenda_at_put. case_decide as Hw.
    + rewrite length_insert. specialize (Hb w). unfold eff in Hb. rewrite agenda_at_put, decide_True in Hb; done.
    + specialize (Hb w'). unfold eff in Hb. rewrite agenda_at_put, decide_False in Hb by done.
      unfold agenda_at in *. by rewrite HA.
Qed.

(** Placing into another agenda does not see the stale one. *)
Lemma place_eff w ag wake t s s' a :
  wake ≠ w → place_task cfg wake t s = Ok (s', a) → place_task cfg wake t (eff w ag s) = Ok (eff w ag s', a).
Proof.
  intros Hne Hp. unfold place_task, push_to_agenda in *.
  assert (Hag : agenda_at wake (eff w ag s) = agenda_at wake s)
    by (unfold eff; rewrite agenda_at_put; by case_decide).
  rewrite Hag. apply bind_Ok in Hp as ([s1 i] & Hp & [= <- <-]).
  destruct (ensure _ _) as [|]; [|done]. cbn in *.
  destruct (Z.of_nat (length (agenda_at wake s)) <? MaxScheduledPerBlock cfg).
  - injection Hp as <- <-. cbn. f_equal. f_equal. unfold eff. destruct (maybe_id t); cbn; f_equal;
      [f_equal|]; by rewrite insert_insert_ne.
  - destruct (hole_index _); [|done]. injection Hp as <- <-. cbn. f_equal. f_equal. unfold eff.
    destruct (maybe_id t); cbn; f_equal; [f_equal|]; by rewrite insert_insert_ne.
Qed.

Lemma schedule_retry_spec wt now w i task rc ag s wt' s' b :
  sinv cfg (eff w ag s) → serviceable w now → period_ok cfg (period rc) →
  schedule_retry cfg wt now w i task rc s = (wt', s', b) →
  evolves_by cfg (after now) (eff w ag s) (eff w ag s').
Proof.
  intros Hi Hs Hp Hr. unfold schedule_retry in Hr.
  assert (Hst : ∀ s0, same_store s s0 → evolves_by cfg (after now) (eff w ag s) (eff w ag s0)).
  { intros s0 H0. apply evolves_refl; [done|by apply eff_store]. }
  destruct (try_consume wt _); [|injection Hr as _ <- _; by apply Hst].
  destruct (checked_sub _ _) as [n|]; [|injection Hr as _ <- _; by apply Hst].
  destruct (bnt_saturating_add _ _) as [wake|] eqn:Hw; [|injection Hr as _ <- _; by apply Hst].
  destruct (wake_spec _ _ _ _ Hs Hp Hw) as (Haf & Hal & Hne).
  destruct (place_task cfg wake (as_retry task) s) as [[s1 a]|[e t']] eqn:Hpl;
    [|injection Hr as _ <- _; by apply Hst].
  injection Hr as _ <- _. apply (place_eff w ag) in Hpl; [|done].
  assert (Hev : evolves_by cfg (after now) (eff w ag s) (eff w ag s1)) by (eapply place_evolves; [exact Hi|exact Haf|exact Hal| |exact Hpl]; done).
  destruct Hi as [_ Hb]. destruct (place_spec _ _ _ _ _ _ Hb Hpl) as (Ha1 & Hap & _ & Hts & _ & _ & _ & _).
  destruct Hev as [[Hc Hb1] Hk Hn]. split; [split; [|exact Hb1]|exact Hk|exact Hn].
  apply coherent_set_retry; [exact Hc|done| |done].
  change (is_Some (tasks (eff w ag s1) a)). rewrite Hts by done. unfold with_task. rewrite decide_True by done. eauto.
Qed.

(** What is left in the slot after the task was serviced. *)
Definition slot_left (r : result (ServiceTaskError * option (Scheduled BC)) unit) : option (Scheduled BC) :=
  match r with Ok _ => None | Err (_, slot) => slot end.

Lemma service_task_spec wt now w i first task ag s wt' s' r :
  sinv cfg (eff w ag s) → serviceable w now → ag !! i = Some (Some task) →
  service_task call_weight dispatch cfg wt now w (Z.of_nat i) first task s = (wt', s', r) →
  (r = Err (Overweight, Some task) ∨ slot_left r = None) ∧
  evolves_by cfg (after now) (eff w ag s) (eff w (<[i := slot_left r]> ag) s').
Proof.
  intros Hi Hs Hag Hr. unfold service_task in Hr.
  destruct (peek (s_preimages s) (call task)) as [[c len]|].
  2: { injection Hr as _ <- <-. split; [by right|]. cbn [slot_left].
       apply removal_eff with task; try done; unfold remove_lookup; by destruct (maybe_id task). }
  set (wt1 := consume wt _) in *. unfold execute_dispatch in Hr. destruct (negb _).
  - destruct first; injection Hr as _ <- <-.
    + split; [by right|]. cbn [slot_left].
      apply removal_eff with task; try done; unfold remove_lookup; by destruct (maybe_id task).
    + split; [by left|]. cbn [slot_left]. rewrite list_insert_id by done. by apply evolves_refl.
  - destruct (dispatch c (origin task) s) as [s1 [ow res]] eqn:Hd.
    pose proof (Hframe c (origin task) s) as Hst. rewrite Hd in Hst. cbn [fst] in Hst.
    destruct Hst as (HA & HL & HR & Hk). cbn zeta iota beta in Hr.
    set (wt2 := consume (consume _ _) _) in *. set (s2 := remove_lookup (maybe_id task) s1) in *.
    set (s3 := s_deposit_event _ (put_retries _ s2)) in *.
    assert (Hev : evolves_by cfg (after now) (eff w ag s) (eff w (<[i := None]> ag) s3)).
    { apply removal_eff with task; try done; unfold s3, s2, remove_lookup; destruct (maybe_id task); cbn; congruence || done. }
    assert (HR2 : Retries s2 = Retries s) by (unfold s2, remove_lookup; by destruct (maybe_id task)).
    assert (Hdone : ∀ s0 b, evolves_by cfg (after now) (eff w ag s) (eff w (<[i := None]> ag) s0) →
      evolves_by cfg (after now) (eff w ag s) (eff w (<[i := None]> ag) (if b : bool then s0 else drop_call (call task) s0))).
    { intros s0 b H0. destruct b; [done|]. eapply evolves_store; [exact H0|]. by apply eff_store. }
    destruct (Retries s2 !! (w, Z.of_nat i)) as [rc|] eqn:Hrc.
    + destruct (negb (is_ok res)).
      * destruct (schedule_retry cfg wt2 now w (Z.of_nat i) task rc s3) as [[wt3 s4] b] eqn:Hsr.
        injection Hr as _ <- <-. split; [by right|]. cbn [slot_left]. apply Hdone.
        eapply evolves_trans; [exact Hev|]. eapply schedule_retry_spec; [apply Hev|done| |exact Hsr].
        rewrite HR2 in Hrc. destruct Hi as [Hc _]. by destruct (co_retries _ _ _ _ Hc _ _ Hrc) as (_ & _ & ?).
      * injection Hr as _ <- <-. split; [by right|]. by apply (Hdone s3 false).
    + injection Hr as _ <- <-. split; [by right|]. by apply (Hdone s3 false).
Qed.

(** ** One agenda *)
Lemma elem_of_insert_by_key x y l : y ∈ insert_by_key x l ↔ y = x ∨ y ∈ l.
Proof.
  induction l as [|z l IH]; cbn; [by rewrite list_elem_of_singleton, elem_of_nil; tauto|].
  destruct (x.2 <=? z.2); rewrite !elem_of_cons, ?IH; tauto.
Qed.

Lemma elem_of_sort_by_key y l : y ∈ sort_by_key l ↔ y ∈ l.
Proof.
  induction l as [|x l IH]; [done|]. cbn. rewrite elem_of_insert_by_key, IH, elem_of_cons. done.
Qed.

Lemma occupied_slots_complete (ag : list (option (Scheduled BC))) i task :
  mjoin (ag !! i) = Some task → (i, priority task) ∈ occupied_slots ag.
Proof.
  intros Hi. apply list_elem_of_omap. exists (i, Some task). split; [|done].
  apply list_elem_of_lookup. exists i. rewrite list_lookup_imap.
  destruct (ag !! i) as [[?|]|]; cbn in *; congruence.
Qed.

Lemma take_z_all {A} n (l : list A) : Z.of_nat (length l) ≤ n → take_z n l = l.
Proof.
  revert n. induction l as [|x l IH]; intros n Hn; [done|]. cbn [take_z length] in *.
  rewrite (proj2 (Z.leb_gt _ _)) by lia. by rewrite IH by lia.
Qed.

Lemma service_tasks_spec now w ordered ag postponed v v' ag' postponed' :
  sinv cfg (eff w ag (sv_state v)) → serviceable w now →
  service_tasks call_weight dispatch cfg now w ordered ag postponed v = (v', ag', postponed') →
  evolves_by cfg (after now) (eff w ag (sv_state v)) (eff w ag' (sv_state v')) ∧ postponed ≤ postponed' ∧
  (∀ i, mjoin (ag !! i) = None → mjoin (ag' !! i) = None) ∧
  (postponed' = postponed → ∀ i p, (i, p) ∈ ordered → mjoin (ag' !! i) = None).
Proof.
  revert ag postponed v. induction ordered as [|[i p] rest IH]; intros ag postponed v Hi Hs Hr; cbn in Hr.
  { injection Hr as <- <- <-. split_and!; [by apply evolves_refl|lia|done|].
    intros _ i p Hin. by apply elem_of_nil in Hin. }
  destruct (mjoin (ag !! i)) as [task|] eqn:Hslot.
  2: { destruct (IH _ _ _ Hi Hs Hr) as (Hev & Hle & Hmono & Hall). split_and!; [done|done|done|].
       intros Heq j q [[= -> ->]|Hin]%elem_of_cons; [by apply Hmono|by eapply Hall]. }
  assert (Hag : ag !! i = Some (Some task)) by (destruct (ag !! i) as [[?|]|]; cbn in *; congruence).
  destruct (negb (can_consume _ _)).
  { injection Hr as <- <- <-. split_and!; [by apply evolves_refl|lia|done|lia]. }
  destruct (service_task _ _ _ _ _ _ _ _ _ _) as [[wt s1] r] eqn:Hst.
  destruct (service_task_spec _ _ _ _ _ _ _ _ _ _ _ Hi Hs Hag Hst) as (Hcase & Hev).
  assert (Hkeep : ∀ j, mjoin (ag !! j) = None → mjoin (<[i := slot_left r]> ag !! j) = None).
  { intros j Hj. destruct (decide (i = j)) as [->|Hij]; [congruence|by rewrite list_lookup_insert_ne]. }
  assert (Hgo : ∀ pp vv, sv_state vv = s1 → pp = postponed ∧ slot_left r = None ∨ pp = postponed + 1 →
    service_tasks call_weight dispatch cfg now w rest (<[i := slot_left r]> ag) pp vv = (v', ag', postponed') →
    evolves_by cfg (after now) (eff w ag (sv_state v)) (eff w ag' (sv_state v')) ∧ postponed ≤ postponed' ∧
    (∀ j, mjoin (ag !! j) = None → mjoin (ag' !! j) = None) ∧
    (postponed' = postponed → ∀ j q, (j, q) ∈ (i, p) :: rest → mjoin (ag' !! j) = None)).
  { intros pp vv <- Hpp Hrest. destruct (IH _ _ _ (ev_inv _ _ _ _ Hev) Hs Hrest) as (Hev2 & Hle & Hmono & Hall).
    split_and!; [by eapply evolves_trans|lia|auto|].
    intros Heq j q [[= -> ->]|Hin]%elem_of_cons; [|apply (Hall ltac:(lia) _ _ Hin)].
    destruct Hpp as [[-> Hnone]|]; [|lia]. apply Hmono. rewrite Hnone, list_lookup_insert_eq; [done|].
    by eapply lookup_lt_Some. }
  destruct Hcase as [->|Hnone].
  - by eapply Hgo; [|right|exact Hr].
  - destruct r as [[]|[[] slot]]; cbn [slot_left] in *; subst; (eapply Hgo; [| |exact Hr]; [done|]); auto.
Qed.

(** Two states with the same tasks and tables. *)
Lemma evolves_same F s s' :
  sinv cfg s → same_tasks (tasks s) (tasks s') → agendas_bounded cfg s' → Lookup s' = Lookup s →
  Retries s' = Retries s → same_clock s s' → evolves_by cfg F s s'.
Proof.
  intros [Hc Hb] Hs Hb' HL HR Hk. split; [split; [|done]|done|].
  - rewrite HL, HR. by eapply coherent_same.
  - intros a Ha. rewrite Hs by done. by left.
Qed.

Lemma service_agenda_spec now w v v' complete :
  sinv cfg (sv_state v) → serviceable w now →
  service_agenda call_weight dispatch cfg now w (u_max 32) v = (v', complete) →
  evolves_by cfg (after now) (sv_state v) (sv_state v') ∧
  (complete = true → ∀ i, 0 ≤ i → tasks (sv_state v') (w, i) = None).
Proof.
  intros Hi Hs Hr. unfold service_agenda in Hr. set (ag := agenda_at w (sv_state v)) in *.
  set (ordered := sort_by_key (occupied_slots ag)) in *.
  set (v0 := {| sv_weight := consume _ _; sv_executed := _; sv_state := _ |}) in *.
  destruct (service_tasks _ _ _ _ _ _ _ _ _) as [[v1 ag1] postponed] eqn:Hst.
  injection Hr as Hv Hcomp.
  assert (Hin : evolves_by cfg (after now) (sv_state v) (eff w ag (sv_state v0))).
  { apply evolves_same; [done| | |done|done|done].
    - intros a _. unfold eff. rewrite tasks_put. case_decide as Hw; [|done]. subst w. done.
    - apply bounded_put; [apply Hi|apply (proj2 Hi)]. }
  destruct (service_tasks_spec _ _ _ _ _ _ _ _ _ (ev_inv _ _ _ _ Hin) Hs Hst) as (Hev & Hle & Hmono & Hall).
  assert (Hout : evolves_by cfg (after now) (eff w ag1 (sv_state v1)) (sv_state v') ∧
    ∀ a, tasks (sv_state v') a = tasks (eff w ag1 (sv_state v1)) a).
  { subst v'. cbn. destruct (existsb _ ag1) eqn:Hex; [split; [by apply evolves_refl; [apply Hev|]|done]|].
    assert (Hnone : ∀ i, mjoin (ag1 !! i) = None).
    { intros i. destruct (ag1 !! i) as [[t|]|] eqn:Hl; [|done|done]. exfalso.
      apply not_true_iff_false in Hex. apply Hex, existsb_exists. exists (Some t).
      split; [by eapply list_elem_of_In, list_elem_of_lookup_2|]. by apply bool_decide_eq_true_2. }
    assert (Hsame : ∀ a, tasks (put_agenda (delete w (Agenda (sv_state v1))) (sv_state v1)) a =
      tasks (eff w ag1 (sv_state v1)) a).
    { intros a. unfold eff. rewrite tasks_put. unfold tasks, task_at. rewrite agenda_at_del.
      case_decide; [by rewrite Hnone|done]. }
    split; [|exact Hsame]. apply evolves_same; [apply Hev|by intros a _| |done|done|done].
    destruct (ev_inv _ _ _ _ Hev) as [_ Hb]. intros w'. rewrite agenda_at_del. case_decide as Hw.
    - cbn. destruct (vs_max _ Hcfg). lia.
    - specialize (Hb w'). unfold eff in Hb. by rewrite agenda_at_put, decide_False in Hb by done. }
  destruct Hout as [Hout Hsame]. split; [by eapply evolves_trans; [|eapply evolves_trans]|].
  intros -> i Hpos. rewrite Hsame. unfold eff. rewrite tasks_put. cbn. rewrite decide_True by done.
  apply Z.eqb_eq in Hcomp. unfold sat_sub in *. subst v'.
  destruct (mjoin (ag !! Z.to_nat i)) as [task|] eqn:Hslot; [|by apply Hmono].
  apply (Hall ltac:(lia) _ (priority task)). rewrite take_z_all by lia.
  by apply elem_of_sort_by_key, occupied_slots_complete.
Qed.

(** ** The loops *)

(** Every task of the clock [mk] is at [when_] or later, or is known to be
    incomplete. *)
Definition covered (mk : Z → BlockNumberOrTimestamp) (when_ incomplete : Z) s : Prop :=
  ∀ b i, 0 ≤ i → is_Some (tasks s (mk b, i)) → when_ ≤ b ∨ incomplete ≤ b.

Section Loop.
Context (mk : Z → BlockNumberOrTimestamp) (width step last : Z) (G : Z → Prop).
Context (Hstep : 0 < step) (Hlast : last + step ≤ u_max width).
Context (Hser : ∀ b, b ≤ last → serviceable (mk b) (mk last)).
Context (Haft : ∀ b, after (mk last) (mk b) → last < b).
(** [G] is the grid of the loop: it is kept by steps, and no task lies
    strictly between two of its points. *)
Context (HG : ∀ x, G x → G (x + step)).
Context (Hgrid : ∀ s x b i, sinv cfg s → G x → x ≤ last → 0 ≤ i → is_Some (tasks s (mk b, i)) →
  x ≤ b < x + step → b = x).

Lemma service_loop_spec (P : Prop) fuel count when_ incomplete v v' when' incomplete' :
  sinv cfg (sv_state v) → G when_ → (P → covered mk when_ incomplete (sv_state v)) →
  service_loop call_weight dispatch cfg mk width step last fuel count when_ incomplete v = (v', when', incomplete') →
  evolves_by cfg (after (mk last)) (sv_state v) (sv_state v') ∧ (P → covered mk when' incomplete' (sv_state v')) ∧
  G when' ∧ when_ ≤ when' ∧ (incomplete' = incomplete ∨ G incomplete').
Proof.
  revert count when_ incomplete v. induction fuel as [|fuel IH]; intros count when_ incomplete v Hi Hg Hcov Hr; cbn in Hr.
  { injection Hr as <- <- <-. split_and!; [by apply evolves_refl|done|done|lia|by left]. }
  destruct ((0 <? count) && (when_ <=? last) && _) eqn:Hgo.
  2: { injection Hr as <- <- <-. split_and!; [by apply evolves_refl|done|done|lia|by left]. }
  apply andb_prop in Hgo as [[_ Hwl]%andb_prop _].
  destruct (service_agenda _ _ _ _ _ _ _) as [v1 complete] eqn:Hsa.
  destruct (service_agenda_spec _ _ _ _ _ Hi (Hser when_ ltac:(lia)) Hsa) as [Hev Hdone].
  unfold sat_add in Hr. rewrite Z.min_l in Hr by lia.
  destruct (λ Hc, IH _ _ _ _ (ev_inv _ _ _ _ Hev) (HG _ Hg) Hc Hr) as (Hev2 & Hcov2 & Hg2 & Hle & Hinc).
  - intros HP b i Hpos Hb. specialize (Hcov HP).
    assert (Hwb : when_ ≤ b ∨ incomplete ≤ b).
    { destruct (ev_new _ _ _ _ Hev (mk b, i) Hpos Hb) as [Hold|Hnew]; [by eapply Hcov|].
      apply Haft in Hnew. lia. }
    destruct (decide (when_ + step ≤ b)) as [|Hlt]; [by left|]. right.
    destruct (decide (when_ ≤ b)) as [Hwb'|Hwb']; [|destruct complete; lia].
    assert (b = when_) as -> by (apply (Hgrid (sv_state v1) _ _ i (ev_inv _ _ _ _ Hev) Hg); [lia|done|done|lia]).
    destruct complete; [|lia]. rewrite Hdone in Hb by done. by destruct Hb.
  - split_and!; [by eapply evolves_trans|done|done|lia|].
    destruct Hinc as [->|?]; [|by right]. destruct complete; [by left|].
    destruct (Z.min_spec incomplete when_) as [[_ ->]|[_ ->]]; [by left|by right].
Qed.

(** The fuel given to the loops is enough: more makes no difference. *)
Lemma service_loop_fuel fuel fuel' count when_ incomplete v :
  (last - when_) / step < Z.of_nat fuel → (fuel ≤ fuel')%nat →
  service_loop call_weight dispatch cfg mk width step last fuel' count when_ incomplete v =
  service_loop call_weight dispatch cfg mk width step last fuel count when_ incomplete v.
Proof.
  revert fuel' count when_ incomplete v.
  induction fuel as [|fuel IH]; intros fuel' count when_ incomplete v Hf Hle.
  - destruct fuel' as [|fuel']; [done|]. cbn.
    assert (last < when_) by (apply Znot_ge_lt; intros Hge; pose proof (Z.div_pos (last - when_) step); lia).
    by rewrite (proj2 (Z.leb_gt when_ last)), andb_false_r by lia.
  - destruct fuel' as [|fuel']; [lia|]. cbn.
    destruct ((0 <? count) && (when_ <=? last) && _) eqn:Hgo; [|done].
    apply andb_prop in Hgo as [[_ Hwl]%andb_prop _].
    destruct (service_agenda _ _ _ _ _ _ _) as [v1 complete].
    unfold sat_add. rewrite Z.min_l by lia. apply IH; [|lia].
    replace (last - (when_ + step)) with (last - when_ + (-1) * step) by lia.
    rewrite Z.div_add by lia. lia.
Qed.
End Loop.

(** ** The servicing of a block *)

(** The block cursor: every block task is in the future or not before the
    first incomplete block. *)
Definition block_cursor s : Prop :=
  (∀ k, IncompleteBlockSince s = Some k → k ≤ s_block s) ∧
  (∀ b i, 0 ≤ i → is_Some (tasks s (BlockNumber b, i)) →
     s_block s < b ∨ ∃ k, IncompleteBlockSince s = Some k ∧ k ≤ b).

Definition bucket_of (t : Z) : Z := default 0 (as_timestamp (normalize (Timestamp t) (TimestampBucketSize cfg))).

(** The timestamp cursor: where the next servicing starts is a bucket boundary
    that the clock has reached, and, if [served], no task precedes it. *)
Definition timestamp_start s : Z :=
  match IncompleteTimestampSince s with
  | Some k => k
  | None => default (bucket_of (s_now s)) (LastProcessedTimestamp s)
  end.
Definition timestamp_cursor (served : Prop) s : Prop :=
  timestamp_start s mod TimestampBucketSize cfg = 0 ∧ timestamp_start s ≤ bucket_of (s_now s) ∧
  (served → ∀ x i, 0 ≤ i → is_Some (tasks s (Timestamp x, i)) → timestamp_start s ≤ x).

Definition clock_in_range s : Prop :=
  0 ≤ s_now s ∧ s_now s + 2 * TimestampBucketSize cfg ≤ u_max 64.

Lemma bucket_of_spec (t : Z) :
  0 ≤ t → t + TimestampBucketSize cfg ≤ u_max 64 →
  bucket_of t = (t / TimestampBucketSize cfg + 1) * TimestampBucketSize cfg ∧
  t < bucket_of t ≤ t + TimestampBucketSize cfg ∧ bucket_of t mod TimestampBucketSize cfg = 0.
Proof.
  intros Ht Hmax. pose proof (vs_bucket _ Hcfg) as Hb.
  assert (Heq : bucket_of t = (t / TimestampBucketSize cfg + 1) * TimestampBucketSize cfg).
  { unfold bucket_of, normalize, checked_div. rewrite (proj2 (Z.eqb_neq _ 0)) by lia. cbn. unfold sat_add, sat_mul.
    pose proof (Z.mul_div_le t (TimestampBucketSize cfg) Hb). lia. }
  rewrite Heq. split_and!; [done|..|by apply Z.mod_mul; lia].
  - pose proof (Z.mul_succ_div_gt t (TimestampBucketSize cfg) Hb). lia.
  - pose proof (Z.mul_div_le t (TimestampBucketSize cfg) Hb). lia.
Qed.

Lemma grid_gap x y : 
  x mod TimestampBucketSize cfg = 0 → y mod TimestampBucketSize cfg = 0 →
  x ≤ y < x + TimestampBucketSize cfg → y = x.
Proof.
  intros Hx Hy Hr. pose proof (vs_bucket _ Hcfg) as Hb.
  apply Z.mod_divide in Hx as [p ->]; [|lia]. apply Z.mod_divide in Hy as [q ->]; [|lia].
  assert (p ≤ q) by nia. assert (q < p + 1) by nia. f_equal. lia.
Qed.

Lemma service_block_agendas_spec v v' n :
  sinv cfg (sv_state v) → 0 ≤ n < u_max 32 →
  covered BlockNumber (default n (IncompleteBlockSince (sv_state v))) (n + 1) (sv_state v) →
  service_block_agendas call_weight dispatch cfg n (u_max 32) v = v' →
  let s := sv_state v in let s' := sv_state v' in
  sinv cfg s' ∧ s_block s' = s_block s ∧ s_now s' = s_now s ∧
  IncompleteTimestampSince s' = IncompleteTimestampSince s ∧ LastProcessedTimestamp s' = LastProcessedTimestamp s ∧
  (∀ a, 0 ≤ a.2 → is_Some (tasks s' a) → is_Some (tasks s a) ∨ after (BlockNumber n) a.1) ∧
  (∀ k, IncompleteBlockSince s' = Some k → k ≤ n) ∧
  (∀ b i, 0 ≤ i → is_Some (tasks s' (BlockNumber b, i)) →
     n < b ∨ ∃ k, IncompleteBlockSince s' = Some k ∧ k ≤ b).
Proof.
  intros Hi Hn Hcov Hr. unfold service_block_agendas in Hr. cbv zeta.
  set (start := default n (IncompleteBlockSince (sv_state v))) in *.
  set (v0 := with_state (put_incomplete_block None (sv_state v)) v) in *.
  destruct (service_loop _ _ _ _ _ _ _ _ _ _ _ _) as [[v1 when_] incomplete] eqn:Hl.
  unfold sat_add in Hl. rewrite Z.min_l in Hl by lia.
  destruct (λ H1 H2 H3 H4 H5 H6 H7 H8 H9, service_loop_spec BlockNumber 32 1 n (λ _, True)
    H1 H2 H3 H4 H5 H6 True _ _ _ _ _ _ _ _ H7 H8 H9 Hl) as (Hev & Hcov1 & _ & _ & _); try done; try lia.
  - intros b Hb. cbn. lia.
  - destruct Hev as [Hi1 (HK & HK2 & HK3 & HK4 & HK5) Hnew]. cbn in HK, HK2, HK3, HK4, HK5.
    change (sv_state v0) with (put_incomplete_block None (sv_state v)) in *.
    assert (Hnew' : ∀ a, 0 ≤ a.2 → is_Some (tasks (sv_state v1) a) →
      is_Some (tasks (sv_state v) a) ∨ after (BlockNumber n) a.1) by apply Hnew.
    specialize (Hcov1 I). destruct (Z.leb_spec (Z.min incomplete when_) n) as [Hle|Hgt]; subst v'.
    + split_and!; try done.
      * intros k [= <-]. lia.
      * intros b i Hp Hb. right. eexists. split; [done|]. destruct (Hcov1 b i Hp Hb); lia.
    + split_and!; try done.
      * intros k. rewrite HK. done.
      * intros b i Hp Hb. left. destruct (Hcov1 b i Hp Hb); lia.
Qed.

Lemma service_timestamp_agendas_spec (served : Prop) v v' (t : Z) :
  sinv cfg (sv_state v) → t = s_now (sv_state v) → clock_in_range (sv_state v) → timestamp_cursor served (sv_state v) →
  service_timestamp_agendas call_weight dispatch cfg t (u_max 32) v = v' →
  let s := sv_state v in let s' := sv_state v' in
  sinv cfg s' ∧ s_block s' = s_block s ∧ s_now s' = s_now s ∧ IncompleteBlockSince s' = IncompleteBlockSince s ∧
  (∀ a, 0 ≤ a.2 → is_Some (tasks s' a) → is_Some (tasks s a) ∨ after (Timestamp (bucket_of t)) a.1) ∧
  timestamp_cursor served s' ∧ LastProcessedTimestamp s' ≠ None.
Proof.
  intros Hi Ht [Hnow Hmax] (Hka & Hkb & Hkt) Hr. unfold service_timestamp_agendas in Hr. cbv zeta.
  pose proof (vs_bucket _ Hcfg) as Hb. rewrite <- Ht in *.
  destruct (bucket_of_spec t) as (_ & [Hnb1 Hnb2] & Hnb3); [lia|lia|].
  fold (bucket_of t) in Hr. set (nt := bucket_of t) in *.
  assert (Hstart : timestamp_start (sv_state v) = match IncompleteTimestampSince (sv_state v) with
    Some x => x | None => default nt (LastProcessedTimestamp (sv_state v)) end) by (unfold timestamp_start; by rewrite <- Ht).
  rewrite <- Hstart in Hr. set (k := timestamp_start (sv_state v)) in *. clearbody k.
  set (v0 := with_state (put_timestamps None (LastProcessedTimestamp (sv_state v)) (sv_state v)) v) in *.
  destruct (service_loop _ _ _ _ _ _ _ _ _ _ _ _) as [[v1 when_] incomplete] eqn:Hl.
  unfold sat_add in Hl. rewrite Z.min_l in Hl by lia.
  destruct (λ H1 H2 H3 H4 H5 H6 H7 H8 H9, service_loop_spec Timestamp 64 (TimestampBucketSize cfg) nt
    (λ x, x mod TimestampBucketSize cfg = 0) H1 H2 H3 H4 H5 H6 served _ _ _ _ _ _ _ _ H7 H8 H9 Hl)
    as (Hev & Hcov1 & Hg1 & Hw1 & Hinc); try done; try lia.
  - intros x Hx. split; [lia|done].
  - intros x Hx. rewrite <- (Z.mul_1_l (TimestampBucketSize cfg)) at 1. by rewrite Z.mod_add by lia.
  - intros s x y i [Hc _] Hx Hxl Hp Hy Hxy. apply grid_gap; [done| |done].
    destruct (co_aligned _ _ _ _ Hc (Timestamp y, i) Hp Hy) as [Hal|Hal]; [done|]. lia.
  - intros HP x i Hp Hx. left. by eapply Hkt.
  - destruct Hev as [Hi1 (HK & HK2 & HK3 & HK4 & HK5) Hnew]. cbn in HK, HK2, HK3, HK4, HK5.
    change (sv_state v0) with (put_timestamps None (LastProcessedTimestamp (sv_state v)) (sv_state v)) in *.
    assert (Hnew' : ∀ a, 0 ≤ a.2 → is_Some (tasks (sv_state v1) a) →
      is_Some (tasks (sv_state v) a) ∨ after (Timestamp nt) a.1) by apply Hnew.
    subst v'. split_and!; try done; [cbn; congruence|]. unfold timestamp_cursor, timestamp_start.
    cbn [with_state sv_state put_timestamps IncompleteTimestampSince LastProcessedTimestamp s_now]. rewrite HK2.
    change (tasks (put_timestamps ?x ?y ?z)) with (tasks z).
    assert (Hn2 : (nt + TimestampBucketSize cfg) mod TimestampBucketSize cfg = 0).
    { rewrite <- (Z.mul_1_l (TimestampBucketSize cfg)) at 1. by rewrite Z.mod_add by lia. }
    assert (Hgi : incomplete mod TimestampBucketSize cfg = 0) by (destruct Hinc as [->|?]; done).
    rewrite HK5, <- Ht. fold nt.
    destruct (Z.leb_spec (Z.min incomplete when_) nt) as [Hle|Hgt].
    + split_and!; [|done|].
      * destruct (Z.min_spec incomplete when_) as [[_ ->]|[_ ->]]; done.
      * intros HP x i Hp Hx. destruct (Hcov1 HP x i Hp Hx); lia.
    + change (default nt (Some nt)) with nt. split_and!; [done|done|]. intros HP x i Hp Hx. destruct (Hcov1 HP x i Hp Hx); lia.
Qed.

End Service.

(** ** Tasks that are not due stay as they are

    For the tasks [K] that no dispatched call removes or replaces; a dispatched
    call may otherwise do what it likes with the scheduler's storage, and only
    the timestamp inherent sets the clock. *)
Section Waiting.
Context {BC Call Pm D E : Type} `{Preimages Pm BC Call}.
Context (cfg : SchedulerConfig) (call_weight : Call → Weight)
  (dispatch : Call → RuntimeOrigin → Sched BC Pm D E → Sched BC Pm D E * (option Weight * result D unit)).
Implicit Types (s : Sched BC Pm D E) (t : Scheduled BC) (a : TaskAddress) (w now : BlockNumberOrTimestamp).
Context (K : TaskAddress → Scheduled BC → Prop).

Definition keeps (W : BlockNumberOrTimestamp → Prop) s s' : Prop :=
  s_now s' = s_now s ∧ ∀ a t, K a t → ¬ W a.1 → tasks s a = Some t → tasks s' a = Some t.
Definition nowhere w : Prop := False.
Context (Hspare : ∀ c o s, keeps nowhere s (dispatch c o s).1).

Lemma keeps_trans (W : BlockNumberOrTimestamp → Prop) s1 s2 s3 : keeps W s1 s2 → keeps W s2 s3 → keeps W s1 s3.
Proof. intros [N1 H1] [N2 H2]. split; [by rewrite N2|]. intros a t Hk Ha Ht. by apply H2, H1. Qed.

Lemma keeps_mono (W W' : BlockNumberOrTimestamp → Prop) s s' : (∀ w, W w → W' w) → keeps W s s' → keeps W' s s'.
Proof. intros Hw [Hn Hk]. split; [done|]. intros a t HK Ha. apply Hk; auto. Qed.

Lemma keeps_agenda W s s' : Agenda s' = Agenda s → s_now s' = s_now s → keeps W s s'.
Proof. intros HA Hn. split; [done|]. intros a t _ _. by rewrite (proj1 (tasks_agenda cfg _ _ HA)). Qed.

Lemma place_keeps w what s s' a : place_task cfg w what s = Ok (s', a) → keeps nowhere s s'.
Proof.
  intros Hp. unfold place_task in Hp. apply bind_Ok in Hp as ([s1 i] & Hp & [= <- <-]).
  apply keeps_trans with s1; [|by apply keeps_agenda; destruct (maybe_id what)].
  unfold push_to_agenda in Hp. apply bind_Ok in Hp as (? & _ & Hp).
  split; [destruct (_ <? _); [|destruct (hole_index _); [|done]]; by injection Hp as <- <-|]. intros [w' j] t _ _ Ht.
  destruct (Z.of_nat (length (agenda_at w s)) <? MaxScheduledPerBlock cfg).
  - injection Hp as <- <-. rewrite tasks_put. cbn. case_decide as Hw; [subst w'|done].
    unfold tasks, task_at in Ht. cbn in Ht. destruct (agenda_at w s !! Z.to_nat j) eqn:Hl; [|done].
    by rewrite lookup_app_l, Hl by (by eapply lookup_lt_Some).
  - destruct (hole_index _) as [k|] eqn:Hk; [|done]. injection Hp as <- <-. rewrite tasks_put. cbn.
    case_decide as Hw; [subst w'|done]. apply hole_index_Some in Hk. unfold tasks, task_at in Ht. cbn in Ht.
    rewrite list_lookup_insert_ne; [done|]. intros ->. by rewrite Hk in Ht.
Qed.

Lemma schedule_retry_keeps wt now w i task rc s wt' s' b :
  schedule_retry cfg wt now w i task rc s = (wt', s', b) → keeps nowhere s s'.
Proof.
  intros Hr. unfold schedule_retry in Hr.
  destruct (try_consume wt _); [|injection Hr as _ <- _; by apply keeps_agenda].
  destruct (checked_sub _ _) as [n|]; [|injection Hr as _ <- _; by apply keeps_agenda].
  destruct (bnt_saturating_add _ _) as [wake|]; [|injection Hr as _ <- _; by apply keeps_agenda].
  destruct (place_task cfg wake (as_retry task) s) as [[s1 a]|[e t']] eqn:Hpl;
    injection Hr as _ <- _; [|by apply keeps_agenda].
  eapply keeps_trans; [by eapply place_keeps|by apply keeps_agenda].
Qed.

Lemma service_task_keeps wt now w i first task s wt' s' r :
  service_task call_weight dispatch cfg wt now w i first task s = (wt', s', r) → keeps nowhere s s'.
Proof.
  intros Hr. unfold service_task in Hr.
  destruct (peek (s_preimages s) (call task)) as [[c len]|].
  2: { injection Hr as _ <- _. apply keeps_agenda; by destruct (maybe_id task). }
  unfold execute_dispatch in Hr. destruct (negb _).
  { destruct first; injection Hr as _ <- _; apply keeps_agenda; by destruct (maybe_id task). }
  destruct (dispatch c (origin task) s) as [s1 [ow res]] eqn:Hd.
  pose proof (Hspare c (origin task) s) as HA. rewrite Hd in HA. cbn [fst] in HA.
  cbn zeta iota beta in Hr. set (s2 := remove_lookup (maybe_id task) s1) in *.
  set (s3 := s_deposit_event _ (put_retries _ s2)) in *.
  assert (HA3 : keeps nowhere s s3).
  { eapply keeps_trans; [exact HA|]. unfold s3, s2, remove_lookup. by destruct (maybe_id task); apply keeps_agenda. }
  destruct (Retries s2 !! (w, i)) as [rc|]; [destruct (negb (is_ok res))|].
  - destruct (schedule_retry cfg _ now w i task rc s3) as [[wt3 s4] b] eqn:Hsr. injection Hr as _ <- _.
    apply keeps_trans with s3; [done|]. apply keeps_trans with s4; [by eapply schedule_retry_keeps|].
    apply keeps_agenda; by destruct b.
  - by injection Hr as _ <- _.
  - by injection Hr as _ <- _.
Qed.

Lemma service_tasks_keeps now w ordered ag postponed v v' ag' postponed' :
  service_tasks call_weight dispatch cfg now w ordered ag postponed v = (v', ag', postponed') →
  keeps nowhere (sv_state v) (sv_state v').
Proof.
  revert ag postponed v. induction ordered as [|[i p] rest IH]; intros ag postponed v Hr; cbn in Hr.
  { injection Hr as <- _ _. by apply keeps_agenda. }
  destruct (mjoin (ag !! i)) as [task|]; [|by eapply IH].
  destruct (negb (can_consume _ _)); [injection Hr as <- _ _; by apply keeps_agenda|].
  destruct (service_task _ _ _ _ _ _ _ _ _ _) as [[wt s1] r] eqn:Hst. apply service_task_keeps in Hst.
  destruct r as [|[[] slot]]; apply IH in Hr; by eapply keeps_trans.
Qed.

Lemma service_agenda_keeps now w v v' complete :
  service_agenda call_weight dispatch cfg now w (u_max 32) v = (v', complete) →
  keeps (λ w', w' = w) (sv_state v) (sv_state v').
Proof.
  intros Hr. unfold service_agenda in Hr.
  destruct (service_tasks _ _ _ _ _ _ _ _ _) as [[v1 ag1] postponed] eqn:Hst. apply service_tasks_keeps in Hst.
  injection Hr as <- _. apply keeps_trans with (sv_state v1); [by eapply keeps_mono; [|exact Hst]|].
  split; [by destruct (existsb _ ag1)|]. intros [w' j] t _ Hne Ht. cbn in *. destruct (existsb _ ag1).
  - by rewrite tasks_put, decide_False by done.
  - unfold tasks, task_at in *. rewrite agenda_at_del. cbn. by rewrite decide_False by done.
Qed.

(** What the loop on the clock [mk] may have visited. *)
Definition due (mk : Z → BlockNumberOrTimestamp) (last : Z) (w : BlockNumberOrTimestamp) : Prop :=
  ∃ b, w = mk b ∧ b ≤ last.

Lemma service_loop_keeps mk width step last fuel count when_ incomplete v v' when' incomplete' :
  service_loop call_weight dispatch cfg mk width step last fuel count when_ incomplete v = (v', when', incomplete') →
  keeps (due mk last) (sv_state v) (sv_state v').
Proof.
  revert count when_ incomplete v. induction fuel as [|fuel IH]; intros count when_ incomplete v Hr; cbn in Hr.
  { injection Hr as <- _ _. by apply keeps_agenda. }
  destruct ((0 <? count) && (when_ <=? last) && _) eqn:Hgo; [|injection Hr as <- _ _; by apply keeps_agenda].
  apply andb_prop in Hgo as [[_ Hwl]%andb_prop _].
  destruct (service_agenda _ _ _ _ _ _ _) as [v1 complete] eqn:Hsa. apply service_agenda_keeps in Hsa.
  apply keeps_trans with (sv_state v1); [|by eapply IH].
  eapply keeps_mono; [|exact Hsa]. intros w' ->. exists when_. split; [done|lia].
Qed.

Lemma service_block_keeps n v :
  keeps (due BlockNumber n) (sv_state v)
    (sv_state (service_block_agendas call_weight dispatch cfg n (u_max 32) v)).
Proof.
  unfold service_block_agendas.
  destruct (service_loop _ _ _ _ _ _ _ _ _ _ _ _) as [[v1 when_] incomplete] eqn:Hl.
  apply service_loop_keeps in Hl. destruct (_ <=? n); exact Hl.
Qed.

Lemma service_timestamp_keeps (now : Z) v :
  keeps (due Timestamp (bucket_of cfg now)) (sv_state v)
    (sv_state (service_timestamp_agendas call_weight dispatch cfg now (u_max 32) v)).
Proof.
  unfold service_timestamp_agendas.
  destruct (service_loop _ _ _ _ _ _ _ _ _ _ _ _) as [[v1 when_] incomplete] eqn:Hl.
  apply service_loop_keeps in Hl. exact Hl.
Qed.

(** A block leaves a spared task that is not due where and as it is: from any
    state whatever. *)
Definition not_due (n : Z) s w : Prop :=
  match w with BlockNumber b => n < b | Timestamp x => bucket_of cfg (s_now s) < x end.

Lemma keeps_not_due mk last s0 n s s' a t :
  keeps (due mk last) s s' → (∀ b, not_due n s0 (mk b) → last < b) → K a t → not_due n s0 a.1 →
  tasks s a = Some t → tasks s' a = Some t.
Proof. intros [_ Hk] Hl HK Hd. apply Hk; [done|]. intros (b & Hb & Hle). rewrite Hb in Hd. apply Hl in Hd. lia. Qed.

Lemma on_initialize_keeps n s a t :
  K a t → not_due n s a.1 → tasks s a = Some t → tasks (on_initialize call_weight dispatch cfg n s).1 a = Some t.
Proof.
  intros HK Hd Ht. unfold on_initialize. destruct (try_consume (with_limit _) _) as [wt0|]; [|done].
  set (v1 := service_block_agendas _ _ _ _ _ _). pose proof (service_block_keeps n _ : keeps _ s (sv_state v1)) as Hk1.
  assert (Ht1 : tasks (sv_state v1) a = Some t) by (by apply (keeps_not_due BlockNumber n s n s)).
  destruct (0 <? s_now (sv_state v1)); [|done]. destruct (try_consume (sv_weight v1) _) as [wt1|]; [|done].
  set (v2 := {| sv_weight := wt1; sv_executed := sv_executed v1; sv_state := sv_state v1 |}). cbn [fst].
  apply (keeps_not_due Timestamp (bucket_of cfg (s_now s)) s n (sv_state v1)); [|by intros b|done..].
  rewrite <- (proj1 Hk1). exact (service_timestamp_keeps (s_now (sv_state v1)) v2).
Qed.
End Waiting.

(** ** [on_initialize] *)
Section Initialize.
Context {BC Call Pm D E : Type} `{Preimages Pm BC Call}.
Context (cfg : SchedulerConfig) (Hcfg : valid_scheduler_config cfg).
Context (call_weight : Call → Weight)
  (dispatch : Call → RuntimeOrigin → Sched BC Pm D E → Sched BC Pm D E * (option Weight * result D unit)).
(** The calls that are scheduled do not themselves schedule or cancel. *)
Context (Hframe : ∀ c o s, same_store s (dispatch c o s).1).
Implicit Types (s : Sched BC Pm D E) (t : Scheduled BC) (a : TaskAddress) (w now : BlockNumberOrTimestamp).

Lemma timestamp_cursor_block served s s' :
  timestamp_cursor cfg served s → s_now s' = s_now s → IncompleteTimestampSince s' = IncompleteTimestampSince s →
  LastProcessedTimestamp s' = LastProcessedTimestamp s →
  (∀ x i, 0 ≤ i → is_Some (tasks s' (Timestamp x, i)) → is_Some (tasks s (Timestamp x, i))) → timestamp_cursor cfg served s'.
Proof.
  intros (H1 & H2 & H3) E1 E2 E3 Ht. unfold timestamp_cursor, timestamp_start in *. rewrite E1, E2, E3.
  split_and!; [done|done|]. intros HP x i Hi Hx. apply (H3 HP x i); auto.
Qed.

Lemma on_initialize_spec (served : Prop) n s s' wt :
  sinv cfg s → s_block s = n → 0 ≤ n < u_max 32 →
  covered BlockNumber (default n (IncompleteBlockSince s)) (n + 1) s →
  clock_in_range cfg s → timestamp_cursor cfg served s →
  on_initialize call_weight dispatch cfg n s = (s', wt) →
  sinv cfg s' ∧ s_block s' = n ∧ s_now s' = s_now s ∧ block_cursor s' ∧ timestamp_cursor cfg served s'.
Proof.
  intros Hi Hn Hr Hcov Hck Htc Hon. unfold on_initialize in Hon.
  destruct (try_consume (with_limit _) _) as [wt0|] eqn:Hbase; [|by destruct (vs_base _ Hcfg)].
  set (v0 := {| sv_weight := wt0; sv_executed := 0; sv_state := s |}) in *.
  set (v1 := service_block_agendas _ _ _ _ _ _) in *.
  destruct (service_block_agendas_spec cfg Hcfg call_weight dispatch Hframe v0 v1 n Hi Hr Hcov eq_refl) as (Hi1 & B1 & N1 & T1 & L1 & Hnew1 & Hk1 & Hb1).
  assert (Hbc1 : block_cursor (sv_state v1)) by (split; intros *; rewrite B1; cbn; rewrite Hn; [apply Hk1|apply Hb1]).
  assert (Htc1 : timestamp_cursor cfg served (sv_state v1)).
  { apply (timestamp_cursor_block _ s); [done..|]. intros x i Hp Hx.
    destruct (Hnew1 (Timestamp x, i) Hp Hx) as [?|[]]. done. }
  destruct (0 <? s_now (sv_state v1)).
  2: { injection Hon as <- _. split_and!; [done|by rewrite B1|done|done|done]. }
  destruct (try_consume (sv_weight v1) _) as [wt1|].
  2: { injection Hon as <- _. split_and!; [done|by rewrite B1|done|done|done]. }
  set (v2 := {| sv_weight := wt1; sv_executed := sv_executed v1; sv_state := sv_state v1 |}) in *.
  assert (Hck1 : clock_in_range cfg (sv_state v2)) by (unfold clock_in_range; change (sv_state v2) with (sv_state v1); by rewrite N1).
  set (v3 := service_timestamp_agendas _ _ _ _ _ _) in *. injection Hon as <- _.
  destruct (service_timestamp_agendas_spec cfg Hcfg call_weight dispatch Hframe served v2 v3 (s_now (sv_state v1)) Hi1 eq_refl Hck1 Htc1 eq_refl)
    as (Hi3 & B3 & N3 & I3 & Hnew3 & Htc3 & _).
  change (sv_state v2) with (sv_state v1) in *.
  split_and!; [done|by rewrite B3, B1|by rewrite N3, N1| |done].
  destruct Hbc1 as [Hc1 Hc2]. split; rewrite I3, B3; [done|]. intros b i Hp Hb.
    destruct (Hnew3 (BlockNumber b, i) Hp Hb) as [?|[]]. by apply (Hc2 b i).
Qed.
End Initialize.
