(* ===== verification/SchedulerTheorems.v ===== *)
(** * The scheduler: theorems

    Reachable states, and what holds in them: names and tasks agree, no task
    is left behind the cursors, a task that is not due is not touched; when
    placing fails; scheduling and cancelling; the servicing loop ends. *)

From stdpp Require Import base option list numbers gmap fin_maps.
From S2P Require Import Prelude Crypto Interfaces Frame SchedulerTime Reversible ReversibleProps Scheduler SchedulerProps SchedulerService.
#[local] Open Scope Z_scope.

Section Theorems.
Context {BC Call Pm D E : Type} `{Preimages Pm BC Call}.
Context (cfg : SchedulerConfig).
Context (call_weight : Call → Weight)
  (dispatch : Call → RuntimeOrigin → Sched BC Pm D E → Sched BC Pm D E * (option Weight * result D unit)).
Implicit Types (s : Sched BC Pm D E) (t : Scheduled BC) (a : TaskAddress).

(** ** The entry points: the trait's, which the calls wrap *)
Inductive SchedOp :=
| OpSchedule (d : DispatchTime) (prio : Z) (o : RuntimeOrigin) (c : BC) (req : bool)
| OpScheduleNamed (id : TaskName) (d : DispatchTime) (prio : Z) (o : RuntimeOrigin) (c : BC) (req : bool)
| OpCancel (o : option RuntimeOrigin) (a : TaskAddress)
| OpCancelNamed (o : option RuntimeOrigin) (id : TaskName)
| OpReschedule (a : TaskAddress) (d : DispatchTime)
| OpRescheduleNamed (id : TaskName) (d : DispatchTime)
| OpSetRetry (o : RuntimeOrigin) (a : TaskAddress) (id : option TaskName) (n : Z) (per : BlockNumberOrTimestamp)
| OpCancelRetry (o : RuntimeOrigin) (a : TaskAddress).

Definition keep_on_error {A} (f : A → Sched BC Pm D E) (r : result SchedulerFailure A) s : Sched BC Pm D E :=
  match r with Ok x => f x | Err _ => s end.

(** The state an entry point leaves, also when it fails. *)
Definition run_op (k : SchedOp) s : Sched BC Pm D E :=
  match k with
  | OpSchedule d prio o c req => (do_schedule_inner cfg d prio o c req s).1
  | OpScheduleNamed id d prio o c req => (do_schedule_named_inner cfg id d prio o c req s).1
  | OpCancel o a => (do_cancel cfg o a s).1
  | OpCancelNamed o id => keep_on_error (λ x, x) (do_cancel_named cfg o id s) s
  | OpReschedule a d => keep_on_error fst (do_reschedule cfg a d s) s
  | OpRescheduleNamed id d => keep_on_error fst (do_reschedule_named cfg id d s) s
  | OpSetRetry o a id n per => keep_on_error (λ x, x) (set_retry_at cfg o a id n per s) s
  | OpCancelRetry o a => keep_on_error (λ x, x) (do_cancel_retry cfg o a s) s
  end.

Definition address_in_range a : Prop := 0 ≤ a.2.
Definition period_in_range (per : BlockNumberOrTimestamp) : Prop :=
  match per with BlockNumber p | Timestamp p => 0 ≤ p end.
Definition op_in_range (k : SchedOp) : Prop :=
  match k with
  | OpSchedule d _ _ _ _ | OpScheduleNamed _ d _ _ _ _ | OpRescheduleNamed _ d => when_in_range d
  | OpCancel _ a => address_in_range a
  | OpReschedule a d => address_in_range a ∧ when_in_range d
  | OpSetRetry _ a _ _ per => address_in_range a ∧ period_in_range per
  | OpCancelNamed _ _ | OpCancelRetry _ _ => True
  end.

(** ** The calls *)
Inductive SchedCall :=
| CallSchedule (when_ prio : Z) (c : Call)
| CallCancel (when_ : BlockNumberOrTimestamp) (index : Z)
| CallScheduleNamed (id : TaskName) (when_ prio : Z) (c : Call)
| CallCancelNamed (id : TaskName)
| CallScheduleAfter (after : BlockNumberOrTimestamp) (prio : Z) (c : Call)
| CallScheduleNamedAfter (id : TaskName) (after : BlockNumberOrTimestamp) (prio : Z) (c : Call)
| CallSetRetry (a : TaskAddress) (n : Z) (per : BlockNumberOrTimestamp)
| CallSetRetryNamed (id : TaskName) (n : Z) (per : BlockNumberOrTimestamp)
| CallCancelRetry (a : TaskAddress)
| CallCancelRetryNamed (id : TaskName).

Definition run_sched_call (o : RuntimeOrigin) (k : SchedCall) s : result SchedulerFailure (Sched BC Pm D E) :=
  match k with
  | CallSchedule w prio c => schedule cfg o w prio c s
  | CallCancel w i => cancel cfg o w i s
  | CallScheduleNamed id w prio c => schedule_named cfg o id w prio c s
  | CallCancelNamed id => cancel_named cfg o id s
  | CallScheduleAfter w prio c => schedule_after cfg o w prio c s
  | CallScheduleNamedAfter id w prio c => schedule_named_after cfg o id w prio c s
  | CallSetRetry a n per => set_retry cfg o a n per s
  | CallSetRetryNamed id n per => set_retry_named cfg o id n per s
  | CallCancelRetry a => cancel_retry cfg o a s
  | CallCancelRetryNamed id => cancel_retry_named cfg o id s
  end.

Definition sched_call_in_range (k : SchedCall) : Prop :=
  match k with
  | CallScheduleAfter w _ _ | CallScheduleNamedAfter _ w _ _ => when_in_range (After w)
  | CallCancel _ i => 0 ≤ i
  | CallSetRetry a _ per => address_in_range a ∧ period_in_range per
  | CallSetRetryNamed _ _ per => period_in_range per
  | _ => True
  end.

Lemma run_op_evolves (Hcfg : valid_scheduler_config cfg) k s :
  sinv cfg s → op_in_range k → evolves cfg s (run_op k s).
Proof.
  intros Hi Hr. destruct k; cbn [run_op op_in_range] in *.
  - by apply do_schedule_inner_evolves.
  - by apply do_schedule_named_inner_evolves.
  - by apply do_cancel_evolves.
  - destruct (do_cancel_named _ _ _ _) eqn:Hc; [|by apply (evolves_refl cfg)]. cbn; by eapply do_cancel_named_evolves.
  - destruct Hr. destruct (do_reschedule _ _ _ _) as [[]|] eqn:Hc; [|by apply (evolves_refl cfg)]. cbn; by eapply do_reschedule_evolves.
  - destruct (do_reschedule_named _ _ _ _) as [[]|] eqn:Hc; [|by apply (evolves_refl cfg)].
    cbn; by eapply do_reschedule_named_evolves.
  - destruct Hr. destruct (set_retry_at _ _ _ _ _ _ _) eqn:Hc; [|by apply (evolves_refl cfg)]. cbn; by eapply set_retry_at_evolves.
  - destruct (do_cancel_retry _ _ _ _) eqn:Hc; [|by apply (evolves_refl cfg)]. cbn; by eapply do_cancel_retry_evolves.
Qed.

(** A call is an entry point run on a state with a changed preimage store. *)
Lemma evolves_from_store s s1 s' : same_store s s1 → evolves cfg s1 s' → evolves cfg s s'.
Proof.
  intros (HA & HL & HR & Hk) [Hi Hk' Hn]. destruct (tasks_agenda cfg _ _ HA) as [HT _].
  split; [done|by etrans|]. intros a Ha Hs. rewrite <- HT. destruct (Hn a Ha Hs) as [?|Hf]; [by left|right].
  destruct Hk as (_ & _ & _ & HB & HN). unfold in_future in *. by rewrite HB, HN in Hf.
Qed.

Lemma sched_call_evolves (Hcfg : valid_scheduler_config cfg) o k s s' :
  sinv cfg s → sched_call_in_range k → run_sched_call o k s = Ok s' → evolves cfg s s'.
Proof.
  intros Hi Hr Hc.
  assert (Hsame : ∀ s1, same_store s s1 → sinv cfg s1).
  { intros s1 Hs. by apply (ev_inv _ (in_future s) s), evolves_refl. }
  assert (Hrb : ∀ k s1 A (f : Sched BC Pm D E * result SchedulerFailure A),
    same_store s s1 → op_in_range k → f.1 = run_op k s1 → or_rollback f = Ok s' → evolves cfg s s').
  { intros k0 s1 A [s2 [x|e]] Hs Hin Heq Hf; [|done]. injection Hf as <-. cbn in Heq. rewrite Heq.
    apply (evolves_from_store _ s1); [done|]. apply run_op_evolves; auto. }
  assert (Hret : ∀ a, (∃ id, Lookup s !! id = Some a) → address_in_range a).
  { intros a [id Hid]. destruct Hi as [Hco _]. by apply (co_lookup _ _ _ _ Hco) in Hid as [? _]. }
  destruct k; cbn [run_sched_call sched_call_in_range] in *.
  - unfold schedule in Hc. apply bind_Ok in Hc as (? & _ & Hc). apply bind_Ok in Hc as ([[b req] s1] & Hb & Hc).
    unfold bound_call in Hb. apply bind_Ok in Hb as ([p b'] & _ & [= <- <- <-]).
    eapply (Hrb (OpSchedule (At when_) prio o b' _)); [| |reflexivity|exact Hc]; done.
  - unfold cancel in Hc. apply bind_Ok in Hc as (? & _ & Hc).
    eapply (Hrb (OpCancel (Some o) (when_, index)) s); [| |reflexivity|exact Hc]; done.
  - unfold schedule_named in Hc. apply bind_Ok in Hc as (? & _ & Hc). apply bind_Ok in Hc as ([[b req] s1] & Hb & Hc).
    unfold bound_call in Hb. apply bind_Ok in Hb as ([p b'] & _ & [= <- <- <-]).
    eapply (Hrb (OpScheduleNamed id (At when_) prio o b' _)); [| |reflexivity|exact Hc]; done.
  - unfold cancel_named in Hc. apply bind_Ok in Hc as (? & _ & Hc). by eapply do_cancel_named_evolves.
  - unfold schedule_after in Hc. apply bind_Ok in Hc as (? & _ & Hc). apply bind_Ok in Hc as ([[b req] s1] & Hb & Hc).
    unfold bound_call in Hb. apply bind_Ok in Hb as ([p b'] & _ & [= <- <- <-]).
    eapply (Hrb (OpSchedule (After after) prio o b' _)); [| |reflexivity|exact Hc]; done.
  - unfold schedule_named_after in Hc. apply bind_Ok in Hc as (? & _ & Hc). apply bind_Ok in Hc as ([[b req] s1] & Hb & Hc).
    unfold bound_call in Hb. apply bind_Ok in Hb as ([p b'] & _ & [= <- <- <-]).
    eapply (Hrb (OpScheduleNamed id (After after) prio o b' _)); [| |reflexivity|exact Hc]; done.
  - unfold set_retry in Hc. apply bind_Ok in Hc as (? & _ & Hc). destruct Hr. by eapply set_retry_at_evolves.
  - unfold set_retry_named in Hc. apply bind_Ok in Hc as (? & _ & Hc). apply bind_Ok in Hc as (a & Ha & Hc). res_inv.
    eapply set_retry_at_evolves; [done|apply Hret; by eexists|done|done].
  - unfold cancel_retry in Hc. apply bind_Ok in Hc as (? & _ & Hc). apply bind_Ok in Hc as (s1 & Hd & [= <-]).
    eapply evolves_store; [by eapply do_cancel_retry_evolves|done].
  - unfold cancel_retry_named in Hc. apply bind_Ok in Hc as (? & _ & Hc). apply bind_Ok in Hc as (a & _ & Hc).
    apply bind_Ok in Hc as (s1 & Hd & [= <-]). eapply evolves_store; [by eapply do_cancel_retry_evolves|done].
Qed.

(** ** Blocks *)
Definition put_clock (b now : Z) s : Sched BC Pm D E :=
  {| IncompleteBlockSince := IncompleteBlockSince s; IncompleteTimestampSince := IncompleteTimestampSince s;
     LastProcessedTimestamp := LastProcessedTimestamp s; Agenda := Agenda s; Retries := Retries s;
     Lookup := Lookup s; s_events := s_events s; s_block := b; s_now := now;
     s_preimages := s_preimages s; s_env := s_env s |}.

(** The next block: [on_initialize] sees the previous block's timestamp, and
    the inherent then sets the new one. *)
Definition next_block (now' : Z) s : Sched BC Pm D E :=
  let b := s_block s + 1 in
  let s := (on_initialize call_weight dispatch cfg b (put_clock b (s_now s) s)).1 in
  put_clock (s_block s) now' s.

(** From the first block on, after its timestamp was set: any sequence of
    entry points, calls, other pallets' activity and blocks whose clocks do not
    run backwards and stay short of the end of their range. The index says
    whether every block so far ended with [LastProcessedTimestamp] set; it is
    not when block tasks use up the weight before the timestamp agendas are
    first serviced ([on_initialize]'s second early return), or when the clock
    still reads zero. *)
Inductive sreach : bool → Sched BC Pm D E → Prop :=
| sr_genesis s :
    Agenda s = ∅ → Lookup s = ∅ → Retries s = ∅ → IncompleteBlockSince s = None →
    IncompleteTimestampSince s = None → LastProcessedTimestamp s = None → s_block s = 1 →
    clock_in_range cfg s → sreach true s
| sr_op served k s : sreach served s → op_in_range k → sreach served (run_op k s)
| sr_call served o k s s' : sreach served s → sched_call_in_range k → run_sched_call o k s = Ok s' → sreach served s'
| sr_other served s s' : sreach served s → same_store s s' → sreach served s'
| sr_block served now' s :
    sreach served s → s_block s + 1 < u_max 32 → s_now s ≤ now' → now' + 2 * TimestampBucketSize cfg ≤ u_max 64 →
    sreach (served && bool_decide (is_Some (LastProcessedTimestamp (next_block now' s)))) (next_block now' s).

Record winv (served : bool) s : Prop := {
  wi_inv : sinv cfg s;
  wi_block : block_cursor s;
  wi_time : timestamp_cursor cfg (served = true) s;
  wi_clock : clock_in_range cfg s;
  wi_pos : 0 ≤ s_block s;
}.

Section Reachable.
Context (Hcfg : valid_scheduler_config cfg) (Hframe : ∀ c o s, same_store s (dispatch c o s).1).

Lemma future_not_before_bucket s x :
  clock_in_range cfg s → aligned cfg (Timestamp x) → s_now s < x → bucket_of cfg (s_now s) ≤ x.
Proof.
  intros [Hn Hm] Hal Hx. pose proof (vs_bucket _ Hcfg) as Hb.
  destruct (bucket_of_spec _ Hcfg (s_now s)) as (Heq & [_ Hle] & _); [lia|lia|].
  destruct Hal as [Hal| ->]; [|lia]. rewrite Heq.
  apply Z.mod_divide in Hal as [q ->]; [|lia].
  pose proof (Z.mul_div_le (s_now s) (TimestampBucketSize cfg) Hb).
  assert (s_now s / TimestampBucketSize cfg < q) by (apply Z.div_lt_upper_bound; lia). nia.
Qed.

Lemma evolves_winv served s s' : winv served s → evolves cfg s s' → winv served s'.
Proof.
  intros [Hi Hb Ht Hc Hp] [Hi' (K1 & K2 & K3 & K4 & K5) Hn]. split; [done|..].
  - destruct Hb as [Hb1 Hb2]. split; rewrite K1, K4; [done|]. intros b i Hpos Hs.
    destruct (Hn (BlockNumber b, i) Hpos Hs) as [Ho|Hf]; [by eapply Hb2|by left].
  - destruct Ht as (T1 & T2 & T3). unfold timestamp_cursor, timestamp_start in *. rewrite K2, K3, K5.
    split_and!; [done|done|]. intros HP x i Hpos Hs. destruct (Hn (Timestamp x, i) Hpos Hs) as [Ho|Hf]; [by eapply T3|].
    etrans; [exact T2|]. apply future_not_before_bucket; [done| |done].
    destruct Hi' as [Hco _]. by apply (co_aligned _ _ _ _ Hco (Timestamp x, i)).
  - unfold clock_in_range. by rewrite K5.
  - lia.
Qed.

Lemma put_clock_sinv b now s : sinv cfg s → sinv cfg (put_clock b now s).
Proof. done. Qed.

(** The premises of [on_initialize_spec] at the start of the next block. *)
Lemma next_block_start served s :
  winv served s → let s0 := put_clock (s_block s + 1) (s_now s) s in
  covered BlockNumber (default (s_block s + 1) (IncompleteBlockSince s0)) (s_block s + 1 + 1) s0 ∧
  timestamp_cursor cfg (served = true) s0 ∧ clock_in_range cfg s0.
Proof.
  intros [Hi [Hb1 Hb2] Ht Hc Hp]. cbv zeta. split_and!; [|done|done].
  intros b i Hpos Hs. left. change (tasks (put_clock ?x ?y s)) with (tasks s) in Hs. cbn.
  destruct (IncompleteBlockSince s) as [k|] eqn:Hk; cbn.
  - specialize (Hb1 k eq_refl). destruct (Hb2 b i Hpos Hs) as [?|(k' & [= ->] & ?)]; lia.
  - destruct (Hb2 b i Hpos Hs) as [?|(k' & ? & ?)]; [lia|done].
Qed.

Lemma next_block_spec served now' s :
  winv served s → s_block s + 1 < u_max 32 → s_now s ≤ now' → now' + 2 * TimestampBucketSize cfg ≤ u_max 64 →
  winv (served && bool_decide (is_Some (LastProcessedTimestamp (next_block now' s)))) (next_block now' s).
Proof.
  intros Hw Hmax Hnow Hm. pose proof Hw as [Hi Hb Ht Hc Hp].
  destruct (next_block_start served s Hw) as (Hcov & Htc & Hck). unfold next_block in *.
  set (s0 := put_clock (s_block s + 1) (s_now s) s) in *.
  destruct (on_initialize call_weight dispatch cfg (s_block s + 1) s0) as [s1 wt] eqn:Hon. cbn [fst] in *.
  assert (Hrange : 0 ≤ s_block s + 1 < u_max 32) by lia.
  destruct (on_initialize_spec _ Hcfg _ _ Hframe (served = true) (s_block s + 1) s0 s1 wt (put_clock_sinv _ _ _ Hi) eq_refl
    Hrange Hcov Hck Htc Hon) as (Hi1 & B1 & N1 & Hb1 & Ht1).
  split; [exact Hi1|exact Hb1| | |cbn; lia].
  - destruct Ht1 as (T1 & T2 & T3). change (LastProcessedTimestamp (put_clock _ _ s1)) with (LastProcessedTimestamp s1).
    destruct Hc as [Hn0 Hn1]. pose proof (vs_bucket _ Hcfg).
    destruct (bucket_of_spec _ Hcfg now') as (Hnew & _ & Hnew0); [lia|lia|].
    destruct (IncompleteTimestampSince s1) eqn:HI, (LastProcessedTimestamp s1) as [l|] eqn:HL; [| | |
      unfold timestamp_cursor, timestamp_start; cbn; rewrite HI, HL, andb_false_r; by split_and!].
    all: assert (Hst : timestamp_start cfg (put_clock (s_block s1) now' s1) = timestamp_start cfg s1)
      by (unfold timestamp_start; cbn; by rewrite HI, ?HL).
    all: split_and!; rewrite Hst; [done| |intros [Hs _]%andb_prop; exact (T3 Hs)].
    all: etrans; [exact T2|]; rewrite N1; change (s_now s0) with (s_now s).
    all: change (s_now (put_clock (s_block s1) now' s1)) with now'; rewrite Hnew.
    all: destruct (bucket_of_spec _ Hcfg (s_now s)) as (-> & _); [lia|lia|].
    all: apply Z.mul_le_mono_nonneg_r; [lia|]; apply Z.add_le_mono_r, Z.div_le_mono; lia.
  - destruct Hc. split; change (s_now (put_clock (s_block s1) now' s1)) with now'; lia.
Qed.

Lemma sreach_winv served s : sreach served s → winv served s.
Proof.
  induction 1 as [s HA HL HR HB HT HP Hb Hc|served k s _ IH Hk|served o k s s' _ IH Hk Hc|served s s' _ IH Hs|served now' s _ IH ? ? ?].
  - assert (Hnone : ∀ a, tasks s a = None) by (intros a; unfold tasks, task_at, agenda_at; by rewrite HA).
    assert (Htask : ∀ a, is_Some (tasks s a) → False) by (intros a; rewrite Hnone; by intros []).
    split; [split; [split|]|split|..|done|lia].
    + intros id a. rewrite HL, lookup_empty. split; [done|]. intros (_ & t & Ht & _). by rewrite Hnone in Ht.
    + intros a rc. by rewrite HR.
    + intros a _ Ha. by destruct (Htask a).
    + intros w. unfold agenda_at. rewrite HA, lookup_empty. cbn [default from_option length]. destruct (vs_max _ Hcfg). lia.
    + intros k. by rewrite HB.
    + intros b i _ Ha. by destruct (Htask (BlockNumber b, i)).
    + unfold timestamp_cursor, timestamp_start. rewrite HT, HP. cbn [default from_option].
      destruct Hc. destruct (bucket_of_spec _ Hcfg (s_now s)) as (_ & _ & Hm); [lia|pose proof (vs_bucket _ Hcfg); lia|].
      split_and!; [done|done|]. intros _ x i _ Ha. by destruct (Htask (Timestamp x, i)).
  - eapply evolves_winv; [done|]. apply run_op_evolves; [done|apply IH|done].
  - eapply evolves_winv; [done|]. by eapply sched_call_evolves; [|apply IH|..].
  - eapply evolves_winv; [done|]. apply evolves_refl; [apply IH|done].
  - by apply next_block_spec.
Qed.
End Reachable.

(** In every reachable state the name table and the agendas agree: a name
    leads to an address exactly when the task at that address carries the
    name (so no two tasks share one, and no cancelled or executed task keeps
    one); a retry configuration belongs to a task that is there; no agenda
    exceeds [MaxScheduledPerBlock]. *)
Theorem names_and_tasks_agree served s (Hcfg : valid_scheduler_config cfg)
    (Hframe : ∀ c o s, same_store s (dispatch c o s).1) (Hs : sreach served s) :
  (∀ id a, Lookup s !! id = Some a ↔ 0 ≤ a.2 ∧ ∃ t, task_at a s = Some t ∧ maybe_id t = Some id) ∧
  (∀ a rc, Retries s !! a = Some rc → is_Some (task_at a s)) ∧
  (∀ w, Z.of_nat (length (agenda_at w s)) ≤ MaxScheduledPerBlock cfg).
Proof.
  destruct (wi_inv _ _ (sreach_winv Hcfg Hframe served s Hs)) as [Hc Hb]. split_and!; [apply (co_lookup _ _ _ _ Hc)| |done].
  by intros a rc (_ & ? & _)%(co_retries _ _ _ _ Hc).
Qed.

(** C18: no task is left behind, as long as the calls that are filed ([Call];
    in this runtime [execute_transfer] alone, the scheduler's own calls being
    disabled) do not themselves write the scheduler's storage. In every state reachable by
    scheduler calls, other pallets' activity and blocks whose clocks do not run
    backwards and stay short of the end of their range, a task of a block agenda is in a later block, or the cursor of
    incomplete blocks, where the next servicing resumes, is at or before it. A
    task of a timestamp agenda is never before the bucket where the next
    servicing starts, provided every block so far ended with
    [LastProcessedTimestamp] set; a block whose own tasks use up the weight
    before the first timestamp servicing does not set it, and then a task can
    be left behind ([starved_first_servicing]). *)
Theorem no_task_is_left_behind served s (Hcfg : valid_scheduler_config cfg)
    (Hframe : ∀ c o s, same_store s (dispatch c o s).1) (Hs : sreach served s) a t
    (Ha : 0 ≤ a.2) (Ht : task_at a s = Some t) :
  match a.1 with
  | BlockNumber b => s_block s < b ∨ ∃ k, IncompleteBlockSince s = Some k ∧ k ≤ b
  | Timestamp x => served = true → timestamp_start cfg s ≤ x
  end.
Proof.
  destruct (sreach_winv Hcfg Hframe served s Hs) as [_ [_ Hb] (_ & _ & Htm) _ _]. destruct a as [[b|x] i]; cbn in *.
  - apply (Hb b i); [done|]. by exists t.
  - intros Hsv. apply (Htm Hsv x i); [done|]. by exists t.
Qed.

(** No call that is filed sets the clock when it is dispatched, and none
    removes or replaces the task [t] at [a]; it may schedule, cancel or move
    any other. *)
Definition spares a t : Prop :=
  ∀ c o s, s_now (dispatch c o s).1 = s_now s ∧ (task_at a s = Some t → task_at a (dispatch c o s).1 = Some t).

Lemma next_block_keeps a t now' s :
  spares a t → not_due cfg (s_block s + 1) s a.1 → task_at a s = Some t → task_at a (next_block now' s) = Some t.
Proof.
  intros Hsp Hd Ht.
  assert (Hspare : ∀ c o q, keeps (λ a' t', a' = a ∧ t' = t) nowhere q (dispatch c o q).1).
  { intros c o q. destruct (Hsp c o q) as [Hn Hk]. split; [exact Hn|]. intros a' t' [-> ->] _. exact Hk. }
  apply (on_initialize_keeps cfg call_weight dispatch _ Hspare (s_block s + 1) (put_clock (s_block s + 1) (s_now s) s) a t); [done|exact Hd|exact Ht].
Qed.

(** A scheduled task runs neither early nor altered. From any state, a block
    leaves every spared task untouched that is not due: a task of a later
    block, or of a bucket beyond the one the clock is in; and a task scheduled
    after a target timestamp is due only once the clock is strictly past the
    target. *)
Theorem task_waits_for_its_time s now' (Hcfg : valid_scheduler_config cfg) (Hclock : clock_in_range cfg s)
    a t (Hsp : spares a t) (Ht : task_at a s = Some t)
    (Hdue : match a.1 with
            | BlockNumber b => s_block s + 1 < b
            | Timestamp x => ∃ target blk past, 0 ≤ target ∧ target + 2 * TimestampBucketSize cfg ≤ u_max 64 ∧
                resolve_time (TimestampBucketSize cfg) blk past (After (Timestamp target)) = Ok (Timestamp x) ∧
                s_now s ≤ target
            end) :
  task_at a (next_block now' s) = Some t.
Proof.
  apply next_block_keeps; [done| |done]. destruct a as [[b|x] i]; cbn [fst not_due] in *; [done|].
  destruct Hdue as (target & blk & past & Ht0 & Htm & Hr & Hle). pose proof (vs_bucket _ Hcfg).
  apply resolve_timestamp in Hr as (x' & [= <-] & _ & Hx); [|lia..]. destruct Hclock as [Hn0 Hn1].
  destruct (bucket_of_spec _ Hcfg (s_now s)) as (_ & [_ Hb] & _); [lia|lia|]. lia.
Qed.

(** Placing a task fails only with [Exhausted] and exactly when the agenda
    is full, or, for a task of the lowest priority, when the agenda already
    holds all but the reserved fifth; the reserve is at least one slot whenever
    the agenda has two. *)
Theorem placement_fails_only_when_full s w t (Hcfg : valid_scheduler_config cfg)
    (Hlen : Z.of_nat (length (agenda_at w s)) ≤ MaxScheduledPerBlock cfg) :
  (∀ e, place_task cfg w t s = Err e → e = (SExhausted, t)) ∧
  (is_ok (place_task cfg w t s) = false ↔
   occupied (agenda_at w s) = MaxScheduledPerBlock cfg ∨
   priority t = LOWEST_PRIORITY ∧ low_priority_cap cfg ≤ occupied (agenda_at w s)) ∧
  (2 ≤ MaxScheduledPerBlock cfg → 1 ≤ low_priority_cap cfg < MaxScheduledPerBlock cfg).
Proof.
  assert (Hfull : hole_index (agenda_at w s) = None →
    occupied (agenda_at w s) = Z.of_nat (length (agenda_at w s))).
  { intros Hh%hole_index_None. unfold occupied. by rewrite (list_filter_all _ Hh). }
  pose proof (occupied_bounds (agenda_at w s)) as Hoc. split_and!.
  - intros e. unfold place_task, push_to_agenda. destruct (ensure _ _) eqn:He; cbn; [|intros [= <-]].
    + destruct (_ <? _); [done|]. destruct (hole_index _); [done|]. by intros [= <-].
    + unfold ensure in He. destruct (negb _); [done|]. by injection He as <-.
  - unfold place_task, push_to_agenda, ensure.
    destruct (Z.eqb_spec (priority t) LOWEST_PRIORITY) as [Hp|Hp];
      destruct (Z.leb_spec (low_priority_cap cfg) (occupied (agenda_at w s))) as [Hcap|Hcap]; cbn.
    all: try (split; [intros _; right; tauto|done]).
    all: destruct (Z.ltb_spec (Z.of_nat (length (agenda_at w s))) (MaxScheduledPerBlock cfg)) as [Hl|Hl]; cbn;
      [split; [done|intros [?|[? ?]]; [lia|done || lia]]|].
    all: destruct (hole_index (agenda_at w s)) as [k|] eqn:Hh; cbn;
      [split; [done|]|split; [intros _; left; specialize (Hfull eq_refl); lia|done]].
    all: apply hole_index_Some in Hh; pose proof (occupied_hole _ _ Hh); intros [?|[? ?]]; [lia|done || lia].
  - intros Hm. unfold low_priority_cap, sat_sub. pose proof (Z.div_lt (MaxScheduledPerBlock cfg) 5).
    pose proof (Z.div_pos (MaxScheduledPerBlock cfg) 5). lia.
Qed.

(** Cancelling undoes scheduling. A task scheduled under a free name can
    be cancelled by that name, and afterwards the tasks, the names and the
    retry configurations are what they were. *)
Theorem cancel_undoes_schedule s s1 id d prio o c a (Hcfg : valid_scheduler_config cfg) (Hi : sinv cfg s)
    (Hd : when_in_range d) (Hsch : do_schedule_named cfg id d prio o c s = (s1, Ok a)) :
  ∃ s2, do_cancel_named cfg None id s1 = Ok s2 ∧
    (∀ b, 0 ≤ b.2 → task_at b s2 = task_at b s) ∧ Lookup s2 = Lookup s ∧ Retries s2 = Retries s.
Proof.
  unfold do_schedule_named, do_schedule_named_inner in Hsch. case_bool_decide as Hid; [done|].
  apply eq_None_not_Some in Hid. destruct (resolve cfg d s) as [w|]; [|done].
  destruct (place_task cfg w _ s) as [[s0 a']|[]] eqn:Hp; [|done]. injection Hsch as <- ->.
  destruct Hi as [Hc Hb].
  destruct (place_spec _ _ _ _ _ _ Hb Hp) as (Ha & Hpos & Hnone & Hts & _ & HL & HR & _).
  destruct (request_lookup_store c true s0) as (EA & EL & ER & _). set (s1 := request_lookup c true s0) in *.
  assert (Hl1 : Lookup s1 !! id = Some a) by (rewrite EL, HL; apply lookup_insert_eq).
  destruct (tasks_agenda cfg _ _ EA) as [ET _].
  assert (Ht1 : task_at a s1 = Some {| maybe_id := Some id; priority := prio; call := c; origin := o |}).
  { change (tasks s1 a = Some {| maybe_id := Some id; priority := prio; call := c; origin := o |}).
    rewrite ET, Hts by done. unfold with_task. by rewrite decide_True. }
  unfold do_cancel_named. rewrite Hl1. cbn [ok_or mbind result_bind]. rewrite Ht1. cbn [ok_or mbind result_bind].
  eexists. split; [done|].
  set (s2 := drop_call _ _). destruct (clear_cleanup _ Hcfg a s2 Hpos) as [Hs _].
  destruct (cleanup_other a.1 (clear_slot a s2)) as (HL2 & HR2 & _). split_and!.
  - intros b Hbp. change (tasks (cleanup_agenda a.1 (clear_slot a s2)) b = tasks s b). rewrite Hs by done.
    unfold without. change (tasks s2) with (tasks s1). rewrite ET. case_decide as Hba; [by subst b|].
    rewrite Hts by done. unfold with_task. by rewrite decide_False.
  - cbn. rewrite HL2. change (Lookup (clear_slot a s2)) with (Lookup s1). rewrite EL, HL. cbn. by rewrite delete_insert_id.
  - cbn. rewrite HR2. change (Retries (clear_slot a s2)) with (delete a (Retries s1)). rewrite ER, HR.
    apply delete_id. destruct (Retries s !! a) as [rc|] eqn:Hrc; [|done].
    destruct (co_retries _ _ _ _ Hc _ _ Hrc) as (_ & [t Ht] & _). congruence.
Qed.
End Theorems.

(** ** Reversible transfers on the scheduler

    The scheduler as the [ScheduleNamed] of the reversible-transfers pallet,
    and what the two pallets guarantee together: a scheduled transfer is filed
    under its own id, to be run by the pallet's account, and no block touches
    it before its delay has passed. *)
Section Composition.
Context {BC Call Pm D' E C P D : Type} `{Preimages Pm BC Call}.
Context `{HoldLedgerLaws C D, ProofRecorder P}.
Context (cfg : SchedulerConfig) (call_weight : Call → Weight)
  (dispatch : Call → RuntimeOrigin → Sched BC Pm D' E → Sched BC Pm D' E * (option Weight * result D' unit)).
(** The bounded [execute_transfer { tx_id }]. *)
Context (execute_call : Hash256 → BC).

(** [impl ScheduleNamed for Pallet]; the reversible-transfers pallet passes
    [LOWEST_PRIORITY]. *)
#[local] Instance scheduler_named : ScheduleNamed (Sched BC Pm D' E) := {|
  Reversible.schedule_named q id d o tx :=
    match do_schedule_named cfg id d LOWEST_PRIORITY o (execute_call tx) q with
    | (q, Ok _) => Ok q
    | (_, Err _) => Err tt
    end;
  Reversible.cancel_named q id :=
    match do_cancel_named cfg None id q with Ok q => Ok q | Err _ => Err tt end;
|}.

(** Where a named task went. *)
Lemma do_schedule_named_Ok id d prio o c (q q' : Sched BC Pm D' E) a :
  agendas_bounded cfg q → do_schedule_named cfg id d prio o c q = (q', Ok a) →
  0 ≤ a.2 ∧ resolve_time (TimestampBucketSize cfg) (s_block q) (s_now q) d = Ok a.1 ∧
  Lookup q' !! id = Some a ∧
  task_at a q' = Some {| maybe_id := Some id; priority := prio; call := c; origin := o |}.
Proof.
  intros Hb Hs. unfold do_schedule_named, do_schedule_named_inner in Hs. case_bool_decide; [done|].
  destruct (resolve cfg d q) as [w|] eqn:Hw; [|done].
  destruct (place_task cfg w _ q) as [[q0 a']|[]] eqn:Hp; [|done]. injection Hs as <- ->.
  destruct (place_spec _ _ _ _ _ _ Hb Hp) as (Ha & Hpos & _ & Hts & _ & HL & _ & _).
  destruct (request_lookup_store c true q0) as (EA & EL & _ & _). destruct (tasks_agenda cfg _ _ EA) as [ET _].
  unfold resolve in Hw. res_inv. split_and!; [done|by rewrite Ha| |].
  - rewrite EL, HL. apply lookup_insert_eq.
  - change (tasks (request_lookup c true q0) a = Some {| maybe_id := Some id; priority := prio; call := c; origin := o |}).
    rewrite ET, Hts by done. unfold with_task. by rewrite decide_True.
Qed.

(** C20: a transfer of a high-security account that schedules successfully is
    in the scheduler's agenda under its own id, to be executed with the
    pallet's own origin and at the lowest priority. From whatever state the
    scheduler is later in with that task still filed (by then the guardian may
    have cancelled it), as long as the account's delay has not passed on the
    delay's clock, the hooks of the next block leave the task where and as it
    is, as long as none of the calls that are filed (in this runtime
    [execute_transfer] alone) cancels or moves this very task when dispatched.
    The scheduler's clocks are the pallet's, and no time is within two buckets
    of the end of its range. *)
Theorem transfer_is_filed_and_waits rcfg (s s' : Reversible C P (Sched BC Pm D' E) D) (who : Hash256)
    (dest : MultiAddress) (amt : Z)
    (Hcfg : valid_scheduler_config cfg) (Hbounded : agendas_bounded cfg (r_sched s))
    (Hclock : s_block (r_sched s) = r_block s ∧ s_now (r_sched s) = r_now s ∧ clock_in_range cfg (r_sched s))
    (Hrange : ∀ d, HighSecurityAccounts s !! who = Some d →
       match hs_delay d with
       | BlockNumber n => 0 ≤ n ∧ r_block s + n ≤ u_max 32
       | Timestamp m => 0 ≤ m ∧ r_now s + m + 2 * TimestampBucketSize cfg ≤ u_max 64
       end)
    (Hok : schedule_transfer rcfg (Signed who) dest amt s = Ok s') :
  ∃ d a t, let tx := hash_of_transfer rcfg who dest amt (NextTransactionId s) in
    HighSecurityAccounts s !! who = Some d ∧ Lookup (r_sched s') !! tx = Some a ∧
    task_at a (r_sched s') = Some t ∧ call t = execute_call tx ∧ origin t = Signed (account_id rcfg) ∧
    priority t = LOWEST_PRIORITY ∧
    ∀ (q : Sched BC Pm D' E) now', clock_in_range cfg q → task_at a q = Some t → spares dispatch a t →
      match hs_delay d with
      | BlockNumber n => s_block q + 1 < r_block s + n
      | Timestamp m => s_now q ≤ r_now s + m
      end →
      task_at a (next_block cfg call_weight dispatch now' q) = Some t.
Proof.
  unfold schedule_transfer, do_schedule_transfer in Hok. cbn [ensure_signed] in Hok.
  apply bind_Ok in Hok as (? & [= <-] & Hok). apply bind_Ok in Hok as (d & Hd & Hok). res_inv.
  destruct (schedule_inner_Ok _ _ _ _ _ _ _ _ Hok) as
    (rc & q1 & c & _ & _ & _ & Hsch & _ & _ & _ & _ & _ & _ & Hq1).
  set (tx := hash_of_transfer rcfg who dest amt (NextTransactionId s)) in *. cbn in Hsch.
  destruct (do_schedule_named _ _ _ _ _ _ _) as [q2 [a|]] eqn:Hdo; [|done]. injection Hsch as ->.
  destruct (do_schedule_named_Ok _ _ _ _ _ _ _ _ Hbounded Hdo) as (Hpos & Hres & Hlk & Htask).
  exists d, a, {| maybe_id := Some tx; priority := LOWEST_PRIORITY; call := execute_call tx;
                  origin := Signed (account_id rcfg) |}. cbv zeta. rewrite Hq1.
  split_and!; [done..|]. intros q now' [Hqn Hqm] Htq Hsp Hearly.
  apply next_block_keeps; [done| |done]. destruct Hclock as (Hcb & Hcn & [Hn0 _]). specialize (Hrange d Hd).
  pose proof (vs_bucket _ Hcfg). rewrite Hcn in Hn0.
  unfold dispatch_time_of in Hres. destruct (hs_delay d) as [n|m]; rewrite Hcb, Hcn in Hres.
  - unfold resolve_time in Hres. res_inv. destruct a as [w i]. cbn in *. subst w.
    rewrite sat_add_exact by lia. cbn. lia.
  - rewrite sat_add_exact in Hres by lia. apply resolve_timestamp in Hres as (x & Hx & _ & Hb); [|lia..].
    rewrite Hx. cbn [not_due].
    destruct (bucket_of_spec _ Hcfg (s_now q)) as (_ & [_ Hle] & _); [lia|lia|]. lia.
Qed.
End Composition.
