(* ===== verification/SchedulerWitnesses.v ===== *)
(** * The scheduler: a concrete run

    Tasks that are scheduled by block and by timestamp, wait, run and are
    cancelled, and a reversible transfer filed on the scheduler, at which the
    theorems are applied. *)

From stdpp Require Import base option list numbers gmap fin_maps.
From S2P Require Import Prelude Crypto Interfaces Frame SchedulerTime Scheduler SchedulerProps SchedulerService SchedulerTheorems Reversible ReversibleProps ReversibleWitnesses.
#[local] Open Scope Z_scope.

Module SchedulerExample.
(** Calls are names, inlined; a dispatched call is logged in the environment. *)
Abbreviation Op := Hash256.
#[export] Instance inline_calls : Preimages unit Op Op := {|
  peek _ c := Some (c, None); drop_preimage p _ := p; request p _ := p;
  lookup_hash _ := None; lookup_len _ := None; bound p c := Some (p, c);
  is_requested _ _ := false; encoded c := c; hashing c := c;
|}.
Abbreviation state := (Sched Op unit unit (list Op)).
Definition weight_of (c : Op) : Weight := {| ref_time := 1000; proof_size := 10 |}.
Definition log_dispatch (c : Op) (o : RuntimeOrigin) (s : state) : state * (option Weight * result unit unit) :=
  ({| IncompleteBlockSince := IncompleteBlockSince s; IncompleteTimestampSince := IncompleteTimestampSince s;
      LastProcessedTimestamp := LastProcessedTimestamp s; Agenda := Agenda s; Retries := Retries s;
      Lookup := Lookup s; s_events := s_events s; s_block := s_block s; s_now := s_now s;
      s_preimages := s_preimages s; s_env := s_env s ++ [c] |}, (None, Ok tt)).
Lemma log_frame c o s : same_store s (log_dispatch c o s).1.
Proof. done. Qed.

Definition cfg : SchedulerConfig := {|
  MaximumWeight := {| ref_time := 4800000000000; proof_size := 14757395258967641292 |};
  MaxScheduledPerBlock := 50; TimestampBucketSize := 24000; s_db := {| db_read := 25000000; db_write := 100000000 |};
  schedule_origin _ := false;
  cmp_privilege a b := match a, b with Root, Root => Some Eq | _, _ => None end;
|}.
Lemma scheduler_cfg_valid : valid_scheduler_config cfg.
Proof. split; [done|by vm_compute|by vm_compute]. Qed.

Definition st0 : state :=
  {| IncompleteBlockSince := None; IncompleteTimestampSince := None; LastProcessedTimestamp := None;
     Agenda := ∅; Retries := ∅; Lookup := ∅; s_events := []; s_block := 1; s_now := 60000;
     s_preimages := tt; s_env := [] |}.
Definition job : Op := ReversibleExample.account 7.
Definition nightly : TaskName := ReversibleExample.account 8.

Definition file : SchedOp := OpScheduleNamed nightly (At 3) 0 Root job true.
Definition file_later : SchedOp := OpSchedule (After (Timestamp 100000)) 128 Root job true.
Definition st1 : state := run_op cfg file st0.
Definition st2 : state := run_op cfg file_later st1.
Definition st3 : state := next_block cfg weight_of log_dispatch 84000 st2.
Definition st4 : state := next_block cfg weight_of log_dispatch 96000 st3.

(** The task of block three runs there; the one after 100000 ms waits. *)
Example run_log : (s_env st3, s_env st4, s_block st4, bool_decide (Lookup st4 !! nightly = None),
  bool_decide (is_Some (task_at (Timestamp 144000, 0) st4))) = ([], [job], 3, true, true).
Proof. by vm_compute. Qed.

Lemma sreach0 : sreach cfg weight_of log_dispatch true st0.
Proof. by apply sr_genesis. Qed.
Lemma reach2 : sreach cfg weight_of log_dispatch true st2.
Proof. do 2 (apply sr_op; [|done]). exact sreach0. Qed.

(** After block two, which serves the timestamp agendas. *)
Lemma sreach3 : sreach cfg weight_of log_dispatch true st3.
Proof.
  pose proof (sr_block cfg weight_of log_dispatch true 84000 st2 reach2 eq_refl ltac:(by vm_compute) ltac:(by vm_compute)) as Hr.
  by replace (bool_decide (is_Some (LastProcessedTimestamp (next_block cfg weight_of log_dispatch 84000 st2)))) with true
    in Hr by (by vm_compute).
Qed.

Lemma names_and_tasks_agree_witness :
  Lookup st2 !! nightly = Some (BlockNumber 3, 0) ∧
  ∃ t, task_at (BlockNumber 3, 0) st2 = Some t ∧ maybe_id t = Some nightly.
Proof.
  assert (Hl : Lookup st2 !! nightly = Some (BlockNumber 3, 0)) by (by vm_compute). split; [exact Hl|].
  apply (names_and_tasks_agree cfg weight_of log_dispatch true st2 scheduler_cfg_valid log_frame reach2). exact Hl.
Defined.

Definition task3 : Scheduled Op := {| maybe_id := Some nightly; priority := 0; call := job; origin := Root |}.
Lemma task3_there : task_at (BlockNumber 3, 0) st2 = Some task3.
Proof. by vm_compute. Qed.

Definition task144 : Scheduled Op := {| maybe_id := None; priority := 128; call := job; origin := Root |}.
Lemma task144_there : task_at (Timestamp 144000, 0) st3 = Some task144.
Proof. by vm_compute. Qed.

Lemma no_task_is_left_behind_witness :
  (1 < 3 ∨ ∃ k, IncompleteBlockSince st2 = Some k ∧ k ≤ 3) ∧ timestamp_start cfg st3 ≤ 144000.
Proof.
  split.
  - exact (no_task_is_left_behind cfg weight_of log_dispatch true st2 scheduler_cfg_valid log_frame reach2
      (BlockNumber 3, 0) task3 (Z.le_refl 0) task3_there).
  - exact (no_task_is_left_behind cfg weight_of log_dispatch true st3 scheduler_cfg_valid log_frame sreach3
      (Timestamp 144000, 0) task144 (Z.le_refl 0) task144_there eq_refl).
Defined.

Lemma log_spares a t : spares log_dispatch a t.
Proof. done. Qed.
Lemma clock2 : clock_in_range cfg st2.
Proof. by vm_compute. Qed.
Lemma task_waits_for_its_time_witness :
  task_at (BlockNumber 3, 0) st3 = Some task3 ∧ task_at (Timestamp 144000, 0) st3 = Some task144.
Proof.
  split.
  - refine (task_waits_for_its_time cfg weight_of log_dispatch st2 84000 scheduler_cfg_valid clock2 (BlockNumber 3, 0) task3 (log_spares _ _)
      task3_there _). by vm_compute.
  - refine (task_waits_for_its_time cfg weight_of log_dispatch st2 84000 scheduler_cfg_valid clock2 (Timestamp 144000, 0) task144 (log_spares _ _)
      (eq_refl (Some task144) <: task_at (Timestamp 144000, 0) st2 = Some task144) _).
    exists 100000, 1, 60000. by vm_compute.
Defined.

Lemma placement_fails_only_when_full_witness :
  occupied (agenda_at (BlockNumber 3) st2) = 1 ∧ is_ok (place_task cfg (BlockNumber 3) task144 st2) = true ∧
  1 ≤ low_priority_cap cfg < 50.
Proof.
  split_and!; [by vm_compute|by vm_compute|..];
    apply (placement_fails_only_when_full cfg st2 (BlockNumber 3) task144 scheduler_cfg_valid); by vm_compute.
Defined.

Lemma sinv0 : sinv cfg st0.
Proof. apply (wi_inv _ _ _ (sreach_winv cfg weight_of log_dispatch scheduler_cfg_valid log_frame true st0 sreach0)). Qed.
Lemma cancel_undoes_schedule_witness :
  ∃ s2, do_cancel_named cfg None nightly st1 = Ok s2 ∧ Lookup s2 = Lookup st0.
Proof.
  destruct (cancel_undoes_schedule cfg st0 st1 nightly (At 3) 0 Root job (BlockNumber 3, 0) scheduler_cfg_valid sinv0 I)
    as (s2 & Hc & _ & HL & _); [by vm_compute|by exists s2].
Defined.

(** A task placed after 35000 goes to the bucket labelled 72000, which is the
    one serviced when the clock reads 48000. *)
Definition st_35 : state := run_op cfg (OpSchedule (After (Timestamp 35000)) 128 Root job true) (put_clock 1 10000 st0).
Example bucket_runs_before_its_label :
  is_Some (task_at (Timestamp 72000, 0) st_35) ∧
  s_env (next_block cfg weight_of log_dispatch 48000 st_35) = [] ∧
  s_env (next_block cfg weight_of log_dispatch 50000 (put_clock 2 48000 st_35)) = [job].
Proof. split_and!; [apply (bool_decide_unpack _); by vm_compute|by vm_compute|by vm_compute]. Qed.

(** Rescheduling across clocks keeps the retry period of the old clock: the
    task now sits in a timestamp agenda with a period counted in blocks, which
    [set_retry] itself refuses. *)
Definition per5 : BlockNumberOrTimestamp := BlockNumber 5.
Definition st_retry : state := run_op cfg (OpSetRetry Root (BlockNumber 3, 0) (Some nightly) 2 per5) st1.
Definition st_moved : state := run_op cfg (OpRescheduleNamed nightly (After (Timestamp 100000))) st_retry.
Example reschedule_keeps_the_old_period :
  period <$> Retries st_moved !! (Timestamp 144000, 0) = Some per5 ∧
  is_Some (task_at (Timestamp 144000, 0) st_moved) ∧
  set_retry_at cfg Root (Timestamp 144000, 0) None 2 per5 st_moved = Err (SModule RetryPeriodMismatch).
Proof. split_and!; [by vm_compute|apply (bool_decide_unpack _); by vm_compute|by vm_compute]. Qed.

(** A block task heavy enough to leave no weight for the first servicing of
    the timestamp agendas. [on_initialize] returns before it sets
    [LastProcessedTimestamp], so once the clock has moved on the next servicing
    starts at the new bucket: the task filed for the bucket 144000 stays there,
    is never run, and the servicing after it does not come back for it. *)
Definition heavy : Op := ReversibleExample.account 9.
Definition weight_heavy (c : Op) : Weight :=
  if bool_decide (c = heavy) then {| ref_time := 4799400000000; proof_size := 10 |} else weight_of c.
Definition starved0 : state := run_op cfg file_later (run_op cfg (OpSchedule (At 2) 0 Root heavy true) st0).
Definition starved1 : state := next_block cfg weight_heavy log_dispatch 490000 starved0.
Definition starved2 : state := next_block cfg weight_heavy log_dispatch 500000 starved1.
Example starved_first_servicing :
  (s_env starved1, LastProcessedTimestamp starved1, IncompleteTimestampSince starved1) = ([heavy], None, None) ∧
  timestamp_start cfg starved1 = 504000 ∧ task_at (Timestamp 144000, 0) starved1 = Some task144 ∧
  task_at (Timestamp 144000, 0) starved2 = Some task144 ∧ timestamp_start cfg starved2 = 504000.
Proof. split_and!; by vm_compute. Qed.

(** ** A transfer on this scheduler *)
Definition execute_call (tx : Hash256) : Op := tx.
Abbreviation rstate := (Reversible ReversibleExample.Vault unit state unit).
Definition rst0 : rstate :=
  {| HighSecurityAccounts := ReversibleExample.accounts0; HighSecurityTxQuota := ∅; PendingTransfers := ∅;
     PendingTransfersBySender := ∅; NextTransactionId := 0; r_events := []; r_block := 1; r_now := 60000;
     r_ledger := ReversibleExample.vault0; r_proofs := tt; r_sched := st0 |}.
#[local] Existing Instances ReversibleExample.vault_ops ReversibleExample.vault_laws ReversibleExample.no_proofs.
#[local] Instance on_scheduler : ScheduleNamed state := scheduler_named cfg execute_call.
Definition filed : result (ReversibleFailure unit) rstate :=
  schedule_transfer ReversibleExample.cfg (Signed ReversibleExample.savings)
    (Id ReversibleExample.shop) 5000 rst0.
Definition rst1 : rstate := unwrap_or filed rst0.
Lemma filed_ok : filed = Ok rst1.
Proof. exact (unwrap_or_Ok filed rst0 (eq_refl true <: is_ok filed = true)). Qed.

Definition data : HighSecurityAccountData := {| hs_guardian := ReversibleExample.keeper; hs_delay := BlockNumber 20 |}.
Lemma data_there : HighSecurityAccounts rst0 !! ReversibleExample.savings = Some data.
Proof. by vm_compute. Qed.

Lemma clock0 : clock_in_range cfg st0.
Proof. by vm_compute. Qed.
Lemma clock_rst1 : clock_in_range cfg (r_sched rst1).
Proof. by vm_compute. Qed.

Lemma transfer_is_filed_and_waits_witness :
  ∃ d a t, HighSecurityAccounts rst0 !! ReversibleExample.savings = Some d ∧
    Lookup (r_sched rst1) !! ReversibleExample.tx1 = Some a ∧ task_at a (r_sched rst1) = Some t ∧
    origin t = Signed ReversibleExample.pallet ∧
    task_at a (next_block cfg weight_of log_dispatch 84000 (r_sched rst1)) = Some t.
Proof.
  destruct (transfer_is_filed_and_waits cfg weight_of log_dispatch execute_call ReversibleExample.cfg rst0 rst1
    ReversibleExample.savings (Id ReversibleExample.shop) 5000 scheduler_cfg_valid (proj2 sinv0) (conj eq_refl (conj eq_refl clock0)))
    as (d & a & t & Hd & Hl & Ht & _ & Ho & _ & Hwait).
  - intros d Hd. rewrite data_there in Hd. injection Hd as <-. by vm_compute.
  - exact filed_ok.
  - exists d, a, t. split_and!; [exact Hd|exact Hl|exact Ht|exact Ho|].
    apply Hwait; [exact clock_rst1|exact Ht|exact (log_spares a t)|]. rewrite data_there in Hd. injection Hd as <-. by vm_compute.
Defined.
End SchedulerExample.
