(* ===== verification/Admission.v ===== *)
(** * Side-branch admission

    [chain/client/consensus/randomx/src/admission.rs]: the two token buckets
    that bound what a peer can make a node execute, the classifier that decides
    which blocks draw from them, and the cached tip difficulty.

    A [Duration] is its number of nanoseconds, an [Instant] the nanoseconds
    since the clock's origin. The prometheus counters are left out. *)

From stdpp Require Import base option list numbers.
From S2P Require Import Prelude Crypto.
#[local] Open Scope Z_scope.

Definition SIDE_BRANCH_DIFFICULTY_FRACTION : Z := 8.
Definition SIDE_BRANCH_BUDGET_CAPACITY : Z := 1024.
Definition DEFAULT_SIDE_BRANCH_BLOCKS_PER_HOUR : Z := 900.
Definition SEED_FILL_BUDGET_CAPACITY : Z := 4.
Definition DEFAULT_SEED_FILLS_PER_HOUR : Z := 24.

(** [Duration::MAX], and whole seconds. *)
Definition DURATION_MAX : Z := 2 ^ 64 * 1000000000 - 1.
Definition from_secs (s : Z) : Z := s * 1000000000.
(** [Instant::saturating_duration_since]. *)
Definition saturating_duration_since (now earlier : Z) : Z := sat_sub now earlier.

(** [U512::saturating_mul] on the branch side. *)
Definition is_difficulty_admissible (d_branch d_ref fraction : Z) : bool :=
  d_ref <=? sat_mul 512 d_branch fraction.

(** ** The classifier *)
Inductive SideBranchClass :=
| ExtendsTip
| WithinFraction (tip_difficulty : Z)
| Cheap (tip_difficulty : Z).
#[global] Instance SideBranchClass_eq_dec : EqDecision SideBranchClass.
Proof. solve_decision. Defined.

(** [trait TipView]; [S] is the state a query may change (the cache below). *)
Record TipView (S E : Type) := {
  tip : S → Hash256 * Z;
  difficulty_after : Hash256 → S → S * result E Z;
}.
Arguments tip {S E}. Arguments difficulty_after {S E}.

Definition classify_side_branch {S E} (view : TipView S E) (parent_hash : Hash256) (difficulty fraction : Z)
    (s : S) : S * result E SideBranchClass :=
  let '(tip_hash, _) := tip view s in
  if bool_decide (parent_hash = tip_hash) then (s, Ok ExtendsTip)
  else
    match difficulty_after view tip_hash s with
    | (s, Err e) => (s, Err e)
    | (s, Ok tip_difficulty) =>
        (s, Ok (if is_difficulty_admissible difficulty tip_difficulty fraction
                then WithinFraction tip_difficulty else Cheap tip_difficulty))
    end.

(** ** The token bucket *)
Record TokenBucket := {
  capacity : Z;
  refill_every : Z;
  tokens : Z;
  last_refill : option Z;
}.
Definition bucket_new (cap every : Z) : TokenBucket :=
  {| capacity := Z.max cap 1; refill_every := every; tokens := Z.max cap 1; last_refill := None |}.

Definition put_tokens (t : Z) (l : option Z) (b : TokenBucket) : TokenBucket :=
  {| capacity := capacity b; refill_every := refill_every b; tokens := t; last_refill := l |}.

(** [as u64] keeps the low 64 bits of the quotient. *)
Definition refill (now : Z) (b : TokenBucket) : TokenBucket :=
  match last_refill b with
  | None => put_tokens (tokens b) (Some now) b
  | Some last =>
      if refill_every b =? 0 then put_tokens (capacity b) (Some now) b
      else
        let elapsed := saturating_duration_since now last in
        let gained := (elapsed / Z.max (refill_every b) 1) mod 2 ^ 64 in
        if gained =? 0 then b
        else
          let gained := Z.min gained (u_max 32) in
          put_tokens (Z.min (sat_add 32 (tokens b) gained) (capacity b))
            (Some (last + Z.min (refill_every b * gained) DURATION_MAX)) b
  end.

Definition try_take (now : Z) (b : TokenBucket) : TokenBucket * result Z Z :=
  let b := refill now b in
  if 0 <? tokens b
  then (put_tokens (tokens b - 1) (last_refill b) b, Ok (tokens b - 1))
  else
    let last := default now (last_refill b) in
    (b, Err (sat_sub (refill_every b) (saturating_duration_since now last))).

Definition bucket_tokens (now : Z) (b : TokenBucket) : TokenBucket * Z :=
  let b := refill now b in (b, tokens b).

(** [bucket(capacity, per_hour)]. *)
Definition bucket (cap per_hour : Z) : option TokenBucket :=
  if per_hour =? 0 then None
  else Some (bucket_new cap (from_secs 3600 / per_hour)).

(** ** The budgets *)
Inductive Budget := SideBranch | SeedFill.
Record Throttle := { window_started : option Z; suppressed : Z }.
Definition WARN_WINDOW : Z := from_secs 60.

Record AdmissionBudgets := {
  side_branch : option TokenBucket;
  seed_fill : option TokenBucket;
  tip_difficulty : option (Hash256 * Z);
  throttle_side : Throttle;
  throttle_seed : Throttle;
}.
Definition throttle0 : Throttle := {| window_started := None; suppressed := 0 |}.

Definition put_buckets (sb sf : option TokenBucket) (a : AdmissionBudgets) : AdmissionBudgets :=
  {| side_branch := sb; seed_fill := sf; tip_difficulty := tip_difficulty a;
     throttle_side := throttle_side a; throttle_seed := throttle_seed a |}.
Definition put_tip_difficulty (c : option (Hash256 * Z)) (a : AdmissionBudgets) : AdmissionBudgets :=
  {| side_branch := side_branch a; seed_fill := seed_fill a; tip_difficulty := c;
     throttle_side := throttle_side a; throttle_seed := throttle_seed a |}.

Definition configure (side_branch_blocks_per_hour seed_fills_per_hour : Z) (a : AdmissionBudgets) :
    AdmissionBudgets :=
  put_buckets (bucket SIDE_BRANCH_BUDGET_CAPACITY side_branch_blocks_per_hour)
    (bucket SEED_FILL_BUDGET_CAPACITY seed_fills_per_hour) a.

Definition budgets_new : AdmissionBudgets :=
  configure DEFAULT_SIDE_BRANCH_BLOCKS_PER_HOUR DEFAULT_SEED_FILLS_PER_HOUR
    {| side_branch := None; seed_fill := None; tip_difficulty := None;
       throttle_side := throttle0; throttle_seed := throttle0 |}.

(** [CachedTip]: the inner view is the chain, which the queries only read. *)
Definition cached_tip {E} (tip_of : Hash256 * Z) (inner : Hash256 → result E Z) : TipView AdmissionBudgets E :=
  {| tip := λ _, tip_of;
     difficulty_after := λ hash a,
       let miss :=
         match inner hash with
         | Err e => (a, Err e)
         | Ok d => (put_tip_difficulty (Some (hash, d)) a, Ok d)
         end in
       match tip_difficulty a with
       | Some (cached_hash, d) => if bool_decide (cached_hash = hash) then (a, Ok d) else miss
       | None => miss
       end |}.

Definition classify {E} (tip_of : Hash256 * Z) (inner : Hash256 → result E Z) (parent_hash : Hash256)
    (difficulty : Z) (a : AdmissionBudgets) : AdmissionBudgets * result E SideBranchClass :=
  classify_side_branch (cached_tip tip_of inner) parent_hash difficulty SIDE_BRANCH_DIFFICULTY_FRACTION a.

Definition is_cheap (c : SideBranchClass) : bool := match c with Cheap _ => true | _ => false end.

(** A bucket of [None] is unlimited. *)
Definition charge (now : Z) (b : option TokenBucket) : option TokenBucket * result Z (option Z) :=
  match b with
  | None => (None, Ok None)
  | Some b =>
      match try_take now b with
      | (b, Ok left_) => (Some b, Ok (Some left_))
      | (b, Err retry) => (Some b, Err retry)
      end
  end.

Definition charge_side_branch (class : SideBranchClass) (now : Z) (a : AdmissionBudgets) :
    AdmissionBudgets * result Z (option Z) :=
  if negb (is_cheap class) then (a, Ok None)
  else let '(b, r) := charge now (side_branch a) in (put_buckets b (seed_fill a) a, r).

Definition charge_seed_fill (now : Z) (a : AdmissionBudgets) : AdmissionBudgets * result Z (option Z) :=
  let '(b, r) := charge now (seed_fill a) in (put_buckets (side_branch a) b a, r).

Definition throttle_warn (now : Z) (t : Throttle) : Throttle * option Z :=
  let open_window := ({| window_started := Some now; suppressed := 0 |}, Some (suppressed t)) in
  match window_started t with
  | Some started =>
      if saturating_duration_since now started <? WARN_WINDOW
      then ({| window_started := Some started; suppressed := suppressed t + 1 |}, None)
      else open_window
  | None => open_window
  end.

Definition should_warn (budget : Budget) (now : Z) (a : AdmissionBudgets) : AdmissionBudgets * option Z :=
  match budget with
  | SideBranch =>
      let '(t, r) := throttle_warn now (throttle_side a) in
      ({| side_branch := side_branch a; seed_fill := seed_fill a; tip_difficulty := tip_difficulty a;
          throttle_side := t; throttle_seed := throttle_seed a |}, r)
  | SeedFill =>
      let '(t, r) := throttle_warn now (throttle_seed a) in
      ({| side_branch := side_branch a; seed_fill := seed_fill a; tip_difficulty := tip_difficulty a;
          throttle_side := throttle_side a; throttle_seed := t |}, r)
  end.

(** ** Properties: the bucket *)

(** The times at which a sequence of requests is granted. *)
Fixpoint grants (ts : list Z) (b : TokenBucket) : list Z :=
  match ts with
  | [] => []
  | t :: ts =>
      match try_take t b with
      | (b, Ok _) => t :: grants ts b
      | (b, Err _) => grants ts b
      end
  end.
(** The bucket after them. *)
Definition after_takes (ts : list Z) (b : TokenBucket) : TokenBucket :=
  foldl (λ b t, (try_take t b).1) b ts.

Fixpoint clock_rises (ts : list Z) : Prop :=
  match ts with
  | t :: (t' :: _) as ts' => t ≤ t' ∧ clock_rises ts'
  | _ => True
  end.

Lemma clock_rises_cons t ts : clock_rises (t :: ts) → clock_rises ts ∧ ∀ x, x ∈ ts → t ≤ x.
Proof.
  revert t. induction ts as [|t' ts IH]; intros t Hr.
  { split; [done|]. by intros x Hx%not_elem_of_nil. }
  destruct Hr as [Hle Hr]. split; [done|]. destruct (IH t' Hr) as [_ Hx].
  intros x [->|Hi]%elem_of_cons; [done|]. specialize (Hx x Hi). lia.
Qed.

Record bucket_ok (b : TokenBucket) : Prop := {
  bo_cap : 1 ≤ capacity b ≤ u_max 32;
  bo_tokens : 0 ≤ tokens b ≤ capacity b;
  bo_every : 0 < refill_every b;
}.

(** The clock has not run longer than the bucket's counters reach: [2^32]
    intervals since the last refill, within the range of [Duration]. At one
    token every four seconds that is five centuries of uptime. *)
Definition in_range (b : TokenBucket) (t : Z) : Prop :=
  match last_refill b with
  | None => True
  | Some l => l ≤ t ∧ t - l < refill_every b * 2 ^ 32 ∧ t - l ≤ DURATION_MAX
  end.

Lemma bucket_new_ok cap every : 0 ≤ cap ≤ u_max 32 → 0 < every → bucket_ok (bucket_new cap every).
Proof. intros ??. split; cbn [bucket_new capacity tokens refill_every]; assert (1 ≤ u_max 32) by done; lia. Qed.

(** What a refill does inside the range: it moves the whole intervals that
    passed from the clock into the bucket, up to the capacity, and keeps the
    remainder. *)
Lemma refill_spec b t :
  bucket_ok b → in_range b t →
  ∃ l', refill t b = put_tokens (tokens (refill t b)) (Some l') b ∧
    bucket_ok (refill t b) ∧ tokens b ≤ tokens (refill t b) ∧ l' ≤ t < l' + refill_every b ∧
    (last_refill b = None → l' = t) ∧
    ∀ l, last_refill b = Some l →
      l' = l + refill_every b * ((t - l) / refill_every b) ∧
      tokens (refill t b) = Z.min (tokens b + (t - l) / refill_every b) (capacity b).
Proof.
  intros [Hc Ht He] Hr. unfold refill, in_range in *. destruct (last_refill b) as [l|] eqn:El.
  2: { exists t. cbn [put_tokens tokens]. split_and!; [done|by split|lia|lia|lia|done|done]. }
  destruct Hr as (Hl & H32 & Hd). rewrite (proj2 (Z.eqb_neq _ _)) by lia. rewrite Z.max_l by lia.
  unfold saturating_duration_since. rewrite sat_sub_exact by done.
  set (r := refill_every b) in *. set (q := (t - l) / r).
  assert (Hq : 0 ≤ q < 2 ^ 32).
  { split; [apply Z.div_pos; lia|]. apply Z.div_lt_upper_bound; lia. }
  assert (Hm : r * q ≤ t - l < r * q + r).
  { pose proof (Z.div_mod (t - l) r). pose proof (Z.mod_pos_bound (t - l) r). unfold q. lia. }
  assert (E32 : u_max 32 = 2 ^ 32 - 1) by done.
  rewrite (Z.mod_small q) by lia. destruct (Z.eqb_spec q 0) as [E0|E0].
  - exists l. split_and!; [destruct b; cbn in *; by rewrite El|by split|lia|lia|lia|done|].
    intros ? [= <-]. fold q. lia.
  - rewrite (Z.min_l q), (Z.min_l (r * q)) by lia. unfold sat_add.
    exists (l + r * q). cbn [put_tokens capacity tokens refill_every last_refill].
    split_and!; [done|split; cbn [capacity tokens refill_every put_tokens]; fold r; lia|lia|lia|lia|done|].
    intros ? [= <-]. fold q. lia.
Qed.

Lemma grants_elem x ts : ∀ b, x ∈ grants ts b → x ∈ ts.
Proof.
  induction ts as [|t ts IH]; intros b Hx; [done|]. cbn [grants] in Hx.
  destruct (try_take t b) as [b' [n|d]]; [|right; by eapply IH].
  apply elem_of_cons in Hx as [->|Hx]; [by left|right; by eapply IH].
Qed.


(** The potential argument: what is granted up to [T] was in the bucket or
    has been earned since. *)
Lemma grants_up_to T ts : ∀ b l,
  bucket_ok b → last_refill b = Some l → clock_rises ts →
  (∀ t, t ∈ ts → l ≤ t ∧ t - l < refill_every b * 2 ^ 32 ∧ t - l ≤ DURATION_MAX) → l ≤ T →
  Z.of_nat (length (base.filter (λ t, t ≤ T) (grants ts b))) ≤ tokens b + (T - l) / refill_every b.
Proof.
  induction ts as [|t ts IH]; intros b l Hb El Hrise Hin HT.
  { cbn. destruct Hb. pose proof (Z.div_pos (T - l) (refill_every b)). lia. }
  destruct (Hin t) as (Hlt & H32 & Hd); [by left|].
  destruct (clock_rises_cons t ts Hrise) as [Hrise' Hge].
  destruct (refill_spec b t) as (l' & E & Hb' & Hmono & Hl' & Hnone & Hex); [done|unfold in_range; by rewrite El|].
  destruct (Hex l El) as [Hle Htok].
  assert (He : 0 < refill_every b) by apply Hb.
  assert (Hq : 0 ≤ (t - l) / refill_every b) by (apply Z.div_pos; lia).
  destruct (Z.le_gt_cases t T) as [HtT|HtT].
  2: { assert (Hts : ∀ x, x ∈ ts → T < x) by (intros x Hx; specialize (Hge x Hx); lia).
       assert (Hnn : 0 ≤ tokens b + (T - l) / refill_every b).
       { destruct Hb. pose proof (Z.div_pos (T - l) (refill_every b)). lia. }
       rewrite filter_none; [done|]. intros x [->|Hx%Hts]%grants_elem%elem_of_cons; lia. }
  assert (Hpot : tokens (refill t b) + (T - l') / refill_every b ≤ tokens b + (T - l) / refill_every b).
  { replace (T - l) with ((T - l') + ((t - l) / refill_every b) * refill_every b) by lia.
    rewrite Z.div_add by lia. lia. }
  assert (Hin' : ∀ x, x ∈ ts → l' ≤ x ∧ x - l' < refill_every b * 2 ^ 32 ∧ x - l' ≤ DURATION_MAX).
  { intros x Hx. specialize (Hge x Hx). destruct (Hin x) as (? & ? & ?); [by right|]. nia. }
  assert (Er : refill_every (refill t b) = refill_every b) by (by rewrite E).
  assert (Elr : last_refill (refill t b) = Some l') by (by rewrite E).
  cbn [grants]. unfold try_take. cbv zeta.
  destruct (Z.ltb_spec 0 (tokens (refill t b))) as [Hpos|Hz].
  - rewrite filter_cons_True by done. cbn [length].
    set (b1 := put_tokens (tokens (refill t b) - 1) (last_refill (refill t b)) (refill t b)).
    assert (Hb1 : bucket_ok b1).
    { destruct Hb' as [? ? ?]. split; cbn [b1 put_tokens capacity tokens refill_every]; lia. }
    assert (Hin1 : ∀ x, x ∈ ts → l' ≤ x ∧ x - l' < refill_every b1 * 2 ^ 32 ∧ x - l' ≤ DURATION_MAX).
    { cbn [b1 put_tokens refill_every]. by rewrite Er. }
    pose proof (IH b1 l' Hb1 Elr Hrise' Hin1 ltac:(lia)) as IH1.
    cbn [b1 put_tokens tokens refill_every] in IH1. rewrite Er in IH1. fold b1 in IH1. lia.
  - pose proof (IH (refill t b) l' Hb' Elr Hrise') as IH1. rewrite Er in IH1.
    specialize (IH1 Hin' ltac:(lia)). lia.
Qed.

Lemma put_tokens_ok b n l : bucket_ok b → 0 ≤ n ≤ capacity b → bucket_ok (put_tokens n l b).
Proof. intros [? ? ?] ?. by split. Qed.

Lemma try_take_spec b t :
  bucket_ok b → in_range b t →
  ∃ l' n, (try_take t b).1 = put_tokens n (Some l') b ∧ 0 ≤ n ≤ capacity b ∧ l' ≤ t < l' + refill_every b ∧
    (last_refill b = None → l' = t) ∧ (∀ l, last_refill b = Some l → l ≤ l') ∧
    match (try_take t b).2 with
    | Ok left_ => left_ = n ∧ n + 1 ≤ capacity b
    | Err d => n = 0 ∧ d = refill_every b - (t - l')
    end.
Proof.
  intros Hb Hr. destruct (refill_spec b t Hb Hr) as (l' & E & Hb' & Hmono & Hl' & Hnone & Hex).
  assert (Hle : ∀ l, last_refill b = Some l → l ≤ l').
  { intros l El. destruct (Hex l El) as [-> _]. unfold in_range in Hr. rewrite El in Hr.
    pose proof (Z.div_pos (t - l) (refill_every b)). destruct Hb. nia. }
  assert (Ec : capacity (refill t b) = capacity b) by (by rewrite E).
  assert (Er : refill_every (refill t b) = refill_every b) by (by rewrite E).
  assert (El : last_refill (refill t b) = Some l') by (by rewrite E).
  destruct Hb' as [_ Ht _]. rewrite Ec in Ht. unfold try_take. cbv zeta.
  destruct (Z.ltb_spec 0 (tokens (refill t b))) as [Hp|Hz]; cbn [fst snd].
  - exists l', (tokens (refill t b) - 1). rewrite El. split_and!; try done; try lia.
    unfold put_tokens. by rewrite Ec, Er.
  - exists l', 0. split_and!; try done; try lia; [rewrite E at 1; f_equal; lia|].
    rewrite El, Er. change (default t (Some l')) with l'. unfold saturating_duration_since, sat_sub. lia.
Qed.

Lemma grants_in_window a W ts : ∀ b t0,
  bucket_ok b → clock_rises ts → 0 ≤ W →
  (∀ t, t ∈ ts → t0 ≤ t < t0 + refill_every b * 2 ^ 32 ∧ t ≤ t0 + DURATION_MAX) →
  (∀ l, last_refill b = Some l → t0 ≤ l ∧ ∀ t, t ∈ ts → l ≤ t) →
  Z.of_nat (length (base.filter (λ t, a ≤ t ≤ a + W) (grants ts b))) ≤ capacity b + W / refill_every b + 1.
Proof.
  induction ts as [|t ts IH]; intros b t0 Hb Hrise HW Hin Hl.
  { cbn. destruct Hb. pose proof (Z.div_pos W (refill_every b)). lia. }
  destruct (clock_rises_cons t ts Hrise) as [Hrise' Hge].
  assert (He : 0 < refill_every b) by apply Hb.
  assert (Hr : in_range b t).
  { unfold in_range. destruct (last_refill b) as [l|]; [|done]. destruct (Hl l eq_refl) as [? Hlt].
    specialize (Hlt t ltac:(by left)). destruct (Hin t ltac:(by left)). lia. }
  destruct (try_take_spec b t Hb Hr) as (l' & n & E & Hn & Hl' & Hnone & Hle & Hres).
  cbn [grants]. destruct (try_take t b) as [b1 res] eqn:Etake. cbn [fst snd] in *. subst b1.
  set (b1 := put_tokens n (Some l') b) in *.
  assert (Hb1 : bucket_ok b1) by (by apply put_tokens_ok).
  assert (Hl1 : ∀ x, x ∈ ts → l' ≤ x) by (intros x Hx; specialize (Hge x Hx); lia).
  assert (Ht0 : t0 ≤ l').
  { destruct (last_refill b) as [l|]; [destruct (Hl l eq_refl); specialize (Hle l eq_refl); lia|].
    rewrite Hnone by done. by apply Hin; left. }
  destruct (Z.le_gt_cases a t) as [Hat|Hat].
  - destruct (Z.le_gt_cases t (a + W)) as [HtW|HtW].
    2: { rewrite filter_none; [destruct Hb; pose proof (Z.div_pos W (refill_every b)); cbn; lia|].
         intros x Hx. assert (x = t ∨ x ∈ ts) as [->|Hx'] by
           (destruct res; [apply elem_of_cons in Hx as [?|?%grants_elem]; auto|right; by eapply grants_elem]); [lia|].
         specialize (Hge x Hx'). lia. }
    assert (Hup : Z.of_nat (length (base.filter (λ t, a ≤ t ≤ a + W) (grants ts b1))) ≤ n + (W / refill_every b + 1)).
    { etrans; [|etrans; [apply (grants_up_to (a + W) ts b1 l' Hb1 eq_refl Hrise')|]].
      - apply inj_le, submseteq_length, sublist_submseteq. generalize (grants ts b1) as l. clear.
        induction l as [|x l IH]; [done|]. rewrite !filter_cons.
        destruct (decide (a ≤ x ≤ a + W)), (decide (x ≤ a + W)); try lia; [by constructor|by constructor|done].
      - intros x Hx. specialize (Hl1 x Hx). destruct (Hin x ltac:(by right)). cbn [b1 put_tokens refill_every]. lia.
      - lia.
      - cbn [b1 put_tokens tokens refill_every]. apply Z.add_le_mono_l.
        rewrite <- (Z.div_add W 1) by lia. apply Z.div_le_mono; lia. }
    destruct res as [x|x]; [|lia]. rewrite filter_cons_True by lia. cbn [length]. lia.
  - specialize (IH b1 t0 Hb1 Hrise' HW). cbn [b1 put_tokens capacity refill_every] in IH. fold b1 in IH.
    assert (Hrest : Z.of_nat (length (base.filter (λ t, a ≤ t ≤ a + W) (grants ts b1))) ≤
      capacity b + W / refill_every b + 1).
    { apply IH; [intros x Hx; apply Hin; by right|]. intros l [= <-]. by split. }
    destruct res; [rewrite filter_cons_False by lia|]; exact Hrest.
Qed.

(** C40: the budget bounds the work. However the requests of a run are spread
    over time, the number granted in any window of length [W] is at most the
    burst capacity plus one per elapsed refill interval (and one for an
    interval already under way), so a peer that floods a node gets the burst
    once and the refill rate from then on. *)
Theorem budget_bounds_every_window cap every ts t0 a W
    (Hcap : 1 ≤ cap ≤ u_max 32) (Hevery : 0 < every) (Hrise : clock_rises ts) (HW : 0 ≤ W)
    (Hclock : ∀ t, t ∈ ts → t0 ≤ t < t0 + every * 2 ^ 32 ∧ t ≤ t0 + DURATION_MAX) :
  Z.of_nat (length (base.filter (λ t, a ≤ t ≤ a + W) (grants ts (bucket_new cap every)))) ≤ cap + W / every + 1.
Proof.
  pose proof (grants_in_window a W ts (bucket_new cap every) t0) as Hg.
  cbn [bucket_new capacity refill_every last_refill] in Hg. rewrite Z.max_l in Hg by lia.
  apply Hg; try done. apply bucket_new_ok; lia.
Qed.

Lemma try_take_empty b l now :
  bucket_ok b → tokens b = 0 → last_refill b = Some l → in_range b now →
  (now < l + refill_every b → (try_take now b).2 = Err (refill_every b - (now - l))) ∧
  (l + refill_every b ≤ now → ∃ left_, (try_take now b).2 = Ok left_).
Proof.
  intros Hb H0 El Hr. destruct (refill_spec b now Hb Hr) as (l' & E & Hb' & _ & Hl' & _ & Hex).
  destruct (Hex l El) as [E1 E2]. destruct Hb as [Hc _ He]. unfold in_range in Hr. rewrite El in Hr.
  assert (Er : refill_every (refill now b) = refill_every b) by (by rewrite E).
  assert (El' : last_refill (refill now b) = Some l') by (by rewrite E).
  unfold try_take. cbv zeta. split; intros Hn.
  - rewrite Z.div_small in E1, E2 by lia. rewrite (proj2 (Z.ltb_ge _ _)) by lia. cbn [snd]. f_equal.
    rewrite El', Er. change (default now (Some l')) with l'. unfold saturating_duration_since, sat_sub. lia.
  - assert (1 ≤ (now - l) / refill_every b) by (apply Z.div_le_lower_bound; lia).
    rewrite (proj2 (Z.ltb_lt _ _)) by lia. by eexists.
Qed.

(** A refusal is never for good, and the delay it names is exact. The
    delay is positive and at most one refill interval; asking again earlier is
    refused with what is left of it; asking once it has passed is granted. *)
Theorem refusal_is_temporary b b' now d
    (Hok : bucket_ok b) (Hrange : in_range b now) (Herr : try_take now b = (b', Err d)) :
  0 < d ≤ refill_every b ∧
  (∀ now', now ≤ now' < now + d → in_range b' now' → (try_take now' b').2 = Err (d - (now' - now))) ∧
  (∀ now', now + d ≤ now' → in_range b' now' → ∃ left_, (try_take now' b').2 = Ok left_).
Proof.
  destruct (try_take_spec b now Hok Hrange) as (l' & n & E & Hn & Hl' & _ & _ & Hres).
  rewrite Herr in E, Hres. cbn [fst snd] in E, Hres. destruct Hres as [-> ->].
  assert (Hb' : bucket_ok b') by (subst b'; by apply put_tokens_ok).
  assert (Hl : last_refill b' = Some l' ∧ tokens b' = 0 ∧ refill_every b' = refill_every b) by (by subst b').
  destruct Hl as (Hl & Ht & He).
  split; [lia|]. split; intros now' Hnow Hr'; destruct (try_take_empty b' l' now' Hb' Ht Hl Hr') as [H1 H2];
    rewrite He in H1, H2; [rewrite H1 by lia; f_equal; lia|apply H2; lia].
Qed.

(** ** Properties: the classifier *)
Section Classify.
Context {E : Type} (inner : Hash256 → result E Z).

(** The cache remembers what the chain answered. *)
Definition cache_coherent (a : AdmissionBudgets) : Prop :=
  ∀ h d, tip_difficulty a = Some (h, d) → inner h = Ok d.

(** The chain's own view, without the cache. *)
Definition plain_tip (tip_of : Hash256 * Z) : TipView unit E :=
  {| tip := λ _, tip_of; difficulty_after := λ h s, (s, inner h) |}.

Lemma cached_query tip_of th a :
  cache_coherent a → ∃ a', difficulty_after (cached_tip tip_of inner) th a = (a', inner th) ∧
    cache_coherent a' ∧ side_branch a' = side_branch a ∧ seed_fill a' = seed_fill a.
Proof.
  intros Hc. cbn [cached_tip difficulty_after].
  assert (Hmiss : ∃ a', match inner th with
    | Ok d => (put_tip_difficulty (Some (th, d)) a, Ok d) | Err e => (a, Err e) end = (a', inner th) ∧
    cache_coherent a' ∧ side_branch a' = side_branch a ∧ seed_fill a' = seed_fill a).
  { destruct (inner th) as [d|e] eqn:Ei; eexists; (split; [reflexivity|]); split_and!; try done.
    intros h x. cbn. by intros [= <- <-]. }
  destruct (tip_difficulty a) as [[ch cd]|] eqn:Ec; [|done]. case_bool_decide; [|done].
  subst. exists a. by rewrite (Hc _ _ Ec).
Qed.

(** The cached classification is the uncached one, whatever was cached
    before, and caching leaves both budgets alone. A block on the tip is free,
    a block on another parent is charged exactly when eight times its
    difficulty is below the tip's. *)
Theorem cached_classification_is_exact tip_of parent d a (Hcache : cache_coherent a) :
  (classify tip_of inner parent d a).2 =
    (classify_side_branch (plain_tip tip_of) parent d SIDE_BRANCH_DIFFICULTY_FRACTION ()).2 ∧
  cache_coherent (classify tip_of inner parent d a).1 ∧
  side_branch (classify tip_of inner parent d a).1 = side_branch a ∧
  seed_fill (classify tip_of inner parent d a).1 = seed_fill a ∧
  (∀ c td, (classify tip_of inner parent d a).2 = Ok c → inner tip_of.1 = Ok td → td ≤ u_max 512 →
     is_cheap c = true ↔ parent ≠ tip_of.1 ∧ d * 8 < td).
Proof.
  unfold classify, classify_side_branch. destruct (cached_query tip_of tip_of.1 a Hcache) as (a' & Eq & Hc & Hs & Hf).
  destruct tip_of as [th tn]. cbn [cached_tip plain_tip tip fst] in *. case_bool_decide as Hp.
  { split_and!; try done. intros c td [= <-] _ _. cbn. split; [done|]. by intros []. }
  rewrite !Eq. cbn [difficulty_after plain_tip]. split_and!; [by destruct (inner th)|by destruct (inner th)..|].
  destruct (inner th) as [td|e]; [|done]. cbn [fst snd].
  intros c td' [= <-] [= ->] Htd. unfold is_difficulty_admissible, sat_mul, SIDE_BRANCH_DIFFICULTY_FRACTION.
  destruct (Z.leb_spec td' (Z.min (d * 8) (u_max 512))); cbn [is_cheap].
  - split; [done|]. intros [_ ?]. lia.
  - split; [|done]. intros _. split; [done|lia].
Qed.
End Classify.

(** ** Witnesses *)
Lemma budget_bounds_every_window_witness :
  grants [0; 0; 0; 4; 5; 8] (bucket_new 2 4) = [0; 0; 4; 8] ∧
  Z.of_nat (length (base.filter (λ t, 0 ≤ t ≤ 0 + 8) (grants [0; 0; 0; 4; 5; 8] (bucket_new 2 4)))) ≤ 2 + 8 / 4 + 1.
Proof.
  split; [reflexivity|]. apply (budget_bounds_every_window 2 4 [0; 0; 0; 4; 5; 8] 0 0 8); try done.
  intros t Ht. repeat (apply elem_of_cons in Ht as [->|Ht]; [by vm_compute|]). by apply not_elem_of_nil in Ht.
Defined.

Definition drained : TokenBucket := {| capacity := 2; refill_every := 4; tokens := 0; last_refill := Some 4 |}.
Lemma refusal_is_temporary_witness :
  try_take 5 drained = (drained, Err 3) ∧ ∃ left_, (try_take 8 drained).2 = Ok left_.
Proof.
  split; [reflexivity|].
  apply (refusal_is_temporary drained drained 5 3); [by split; vm_compute|by vm_compute|reflexivity|lia|by vm_compute].
Defined.

Lemma cached_classification_is_exact_witness :
  (classify ([1], 10) (λ _ : Hash256, Ok (E := unit) 5000) [2] 624 budgets_new).2 = Ok (Cheap 5000) ∧
  (is_cheap (Cheap 5000) = true ↔ [2] ≠ [1] ∧ 624 * 8 < 5000).
Proof.
  split; [reflexivity|].
  pose proof (cached_classification_is_exact (λ _ : Hash256, Ok (E := unit) 5000) ([1], 10) [2] 624 budgets_new)
    as (_ & _ & _ & _ & Hc); [done|].
  apply (Hc (Cheap 5000) 5000); [reflexivity|reflexivity|by vm_compute].
Defined.
