(* ===== verification/SeedCache.v ===== *)
(** * The RandomX engine: seed caches and the VM pool

    [chain/client/consensus/randomx/src/vm.rs]. The cache table (two pinned
    slots and an LRU), pinning, the lookup-build-insert protocol of
    [cache_for], the VM pool and the hash. [RandomXOps] is the [randomx-rs]
    binding. The functions run one after the other in [cache_for], [acquire]
    and [engine_hash]; [engine_step] cuts the same functions at their locks, so
    that any number of threads interleave the way the node's do. *)

From stdpp Require Import base option list numbers gmap.
From S2P Require Import Prelude Crypto.
#[local] Open Scope Z_scope.

Definition RANDOMX_HASH_LEN : nat := 32.
Definition DEFAULT_MAX_CACHES : Z := 2.

(** ** The binding *)
Class RandomXOps (Cache VM E : Type) := {
  new_cache : Hash256 → result E Cache;
  new_vm : Cache → result E VM;
  reinit_cache : VM → Cache → result E VM;
  calculate_hash : VM → list Z → result E (list Z);
}.

(** What the library documents: a cache is a function of its key, a VM hashes
    under the cache it was last pointed at, and the result is the RandomX hash
    [rx] of the key and the input whatever the flags. *)
Class RandomXLaws (Cache VM E : Type) `{RandomXOps Cache VM E} := {
  rx : Hash256 → list Z → list Z;
  cache_key : Cache → Hash256;
  vm_key : VM → Hash256;
  new_cache_key s c : new_cache s = Ok c → cache_key c = s;
  new_vm_key c v : new_vm c = Ok v → vm_key v = cache_key c;
  reinit_key v c v' : reinit_cache v c = Ok v' → vm_key v' = cache_key c;
  calculate_hash_rx v x h : calculate_hash v x = Ok h → h = rx (vm_key v) x;
}.

Inductive EngineError (E : Type) := RandomX (e : E) | HashLength (n : nat).
Arguments RandomX {E}. Arguments HashLength {E}.

(** ** State *)
Record PinnedSlot (Cache : Type) := { slot_seed : Hash256; slot_cache : option Cache }.
Arguments slot_seed {Cache}. Arguments slot_cache {Cache}.

(** [lru]: most recently used at the back. [idle] is the pool's stack from its
    top. *)
Record Engine (Cache VM : Type) := {
  pinned : list (option (PinnedSlot Cache));
  lru : list (Hash256 * Cache);
  idle : list (VM * Hash256);
  max_caches : Z;
  max_idle_vms : Z;
  cache_initialisations : Z;
}.
Arguments pinned {Cache VM}. Arguments lru {Cache VM}. Arguments idle {Cache VM}.
Arguments max_caches {Cache VM}. Arguments max_idle_vms {Cache VM}.
Arguments cache_initialisations {Cache VM}.

Section Engine.
Context {Cache VM E : Type} `{RandomXOps Cache VM E}.
Implicit Types (s : Engine Cache VM).
#[local] Abbreviation M := (result (EngineError E)).

Definition put_table (p : list (option (PinnedSlot Cache))) (l : list (Hash256 * Cache)) s : Engine Cache VM :=
  {| pinned := p; lru := l; idle := idle s; max_caches := max_caches s;
     max_idle_vms := max_idle_vms s; cache_initialisations := cache_initialisations s |}.
Definition put_idle (i : list (VM * Hash256)) s : Engine Cache VM :=
  {| pinned := pinned s; lru := lru s; idle := i; max_caches := max_caches s;
     max_idle_vms := max_idle_vms s; cache_initialisations := cache_initialisations s |}.
Definition count_fill s : Engine Cache VM :=
  {| pinned := pinned s; lru := lru s; idle := idle s; max_caches := max_caches s;
     max_idle_vms := max_idle_vms s; cache_initialisations := cache_initialisations s + 1 |}.

Definition with_settings (idle_vms caches : Z) : Engine Cache VM :=
  {| pinned := [None; None]; lru := []; idle := []; max_caches := Z.max caches 1;
     max_idle_vms := Z.max idle_vms 1; cache_initialisations := 0 |}.

Definition reserve_idle_vms (at_least : Z) s : Engine Cache VM :=
  {| pinned := pinned s; lru := lru s; idle := idle s; max_caches := max_caches s;
     max_idle_vms := Z.max (max_idle_vms s) (Z.max at_least 1);
     cache_initialisations := cache_initialisations s |}.

(** ** [CacheTable] *)
Definition slots (p : list (option (PinnedSlot Cache))) : list (PinnedSlot Cache) := omap id p.

Definition pinned_lookup (seed : Hash256) s : option Cache :=
  '(_, slot) ← list_find (λ slot, slot_seed slot = seed) (slots (pinned s));
  slot_cache slot.

Definition is_pinned_identity (seed : Hash256) s : bool :=
  existsb (λ slot, bool_decide (slot_seed slot = seed)) (slots (pinned s)).

Definition take_from_lru (seed : Hash256) (l : list (Hash256 * Cache)) :
    option (Cache * list (Hash256 * Cache)) :=
  '(index, entry) ← list_find (λ entry, entry.1 = seed) l;
  Some (entry.2, delete index l).

Definition touch_lru (seed : Hash256) (l : list (Hash256 * Cache)) :
    option (Cache * list (Hash256 * Cache)) :=
  '(cache, l) ← take_from_lru seed l;
  Some (cache, l ++ [(seed, cache)]).

Fixpoint pop_front_to (max : Z) (l : list (Hash256 * Cache)) : list (Hash256 * Cache) :=
  match l with
  | [] => []
  | _ :: l' => if max <? Z.of_nat (length l) then pop_front_to max l' else l
  end.
Definition push_lru (seed : Hash256) (cache : Cache) (max : Z) (l : list (Hash256 * Cache)) :
    list (Hash256 * Cache) :=
  pop_front_to max (l ++ [(seed, cache)]).

Definition resident s : Z :=
  Z.of_nat (length (base.filter (λ slot, is_Some (slot_cache slot)) (slots (pinned s)))) +
  Z.of_nat (length (lru s)).

Definition is_resident (seed : Hash256) s : bool :=
  bool_decide (is_Some (pinned_lookup seed s)) || existsb (λ e, bool_decide (e.1 = seed)) (lru s).

(** ** [pin_seeds] *)
(** [Vec::swap_remove]. *)
Definition swap_remove {A} (i : nat) (l : list A) : list A :=
  match last l with Some x => take (length l - 1) (<[i := x]> l) | None => [] end.

(** One wanted seed: its kept slot, or a new slot with the LRU's cache. *)
Definition claim_slot (acc : list (PinnedSlot Cache) * list (Hash256 * Cache) * list (PinnedSlot Cache))
    (seed : Hash256) : list (PinnedSlot Cache) * list (Hash256 * Cache) * list (PinnedSlot Cache) :=
  let '(kept, l, done) := acc in
  match list_find (λ slot, slot_seed slot = seed) kept with
  | Some (position, slot) => (swap_remove position kept, l, done ++ [slot])
  | None =>
      match take_from_lru seed l with
      | Some (cache, l) => (kept, l, done ++ [{| slot_seed := seed; slot_cache := Some cache |}])
      | None => (kept, l, done ++ [{| slot_seed := seed; slot_cache := None |}])
      end
  end.

Definition demote (max : Z) (l : list (Hash256 * Cache)) (slot : PinnedSlot Cache) : list (Hash256 * Cache) :=
  match slot_cache slot with Some cache => push_lru (slot_seed slot) cache max l | None => l end.

Definition wanted_seeds (live next : Hash256) : list Hash256 :=
  if bool_decide (live = next) then [live] else [live; next].

(** Keep what is still wanted, promote from the LRU, then demote the rest. *)
Definition repin (wanted : list Hash256) s : Engine Cache VM :=
  let current := slots (pinned s) in
  let kept := base.filter (λ slot, slot_seed slot ∈ wanted) current in
  let demoted := base.filter (λ slot, slot_seed slot ∉ wanted) current in
  let '(_, l, claimed) := foldl claim_slot (kept, lru s, []) wanted in
  let next_slots := take 2 ((Some <$> claimed) ++ [None; None]) in
  put_table next_slots (foldl (demote (max_caches s)) l demoted) s.

Definition pin_seeds (live next : Hash256) s : Engine Cache VM :=
  let wanted := wanted_seeds live next in
  let current := slots (pinned s) in
  if (length current =? length wanted)%nat &&
     forallb (λ seed, bool_decide (seed ∈ (slot_seed <$> current))) wanted
  then s else repin wanted s.

(** ** [cache_for] *)
(** The short critical section both checks share. *)
Definition lookup_cache (seed : Hash256) s : Engine Cache VM * option Cache :=
  match pinned_lookup seed s with
  | Some cache => (s, Some cache)
  | None =>
      match touch_lru seed (lru s) with
      | Some (cache, l) => (put_table (pinned s) l s, Some cache)
      | None => (s, None)
      end
  end.

(** [iter_mut().flatten().find(..)]: the first slot of that seed. *)
Fixpoint fill_first (seed : Hash256) (cache : Cache) (p : list (option (PinnedSlot Cache))) :
    list (option (PinnedSlot Cache)) :=
  match p with
  | [] => []
  | Some slot :: p' =>
      if bool_decide (slot_seed slot = seed)
      then Some {| slot_seed := slot_seed slot; slot_cache := Some cache |} :: p'
      else Some slot :: fill_first seed cache p'
  | None :: p' => None :: fill_first seed cache p'
  end.

Definition insert_cache (seed : Hash256) (cache : Cache) s : Engine Cache VM :=
  if is_pinned_identity seed s
  then put_table (fill_first seed cache (pinned s)) (lru s) s
  else put_table (pinned s) (push_lru seed cache (max_caches s) (lru s)) s.

Definition cache_for (seed : Hash256) s : Engine Cache VM * M Cache :=
  match lookup_cache seed s with
  | (s, Some cache) => (s, Ok cache)
  | (s, None) =>
      match lookup_cache seed s with
      | (s, Some cache) => (s, Ok cache)
      | (s, None) =>
          match new_cache seed with
          | Err e => (s, Err (RandomX e))
          | Ok cache => (insert_cache seed cache (count_fill s), Ok cache)
          end
      end
  end.

(** ** The pool and the hash *)
Definition pop_idle s : Engine Cache VM * option (VM * Hash256) :=
  match idle s with
  | top :: rest => (put_idle rest s, Some top)
  | [] => (s, None)
  end.

(** Key a VM to a cache: re-point the pooled one or build one. *)
Definition key_vm (pooled : option VM) (cache : Cache) : M VM :=
  map_err RandomX (match pooled with Some vm => reinit_cache vm cache | None => new_vm cache end).

Definition acquire (seed : Hash256) s : Engine Cache VM * M VM :=
  let '(s, pooled) := pop_idle s in
  let rekey (o : option VM) :=
    match cache_for seed s with
    | (s, Err e) => (s, Err e)
    | (s, Ok cache) => (s, key_vm o cache)
    end in
  match pooled with
  | Some (vm, key) => if bool_decide (key = seed) then (s, Ok vm) else rekey (Some vm)
  | None => rekey None
  end.

Definition lease_hash (vm : VM) (input : list Z) : M (list Z) :=
  hash ← map_err RandomX (calculate_hash vm input);
  if (length hash =? RANDOMX_HASH_LEN)%nat then Ok hash else Err (HashLength (length hash)).

Definition release (vm : VM) (seed : Hash256) s : Engine Cache VM :=
  if Z.of_nat (length (idle s)) <? max_idle_vms s then put_idle ((vm, seed) :: idle s) s else s.

Definition engine_hash (seed : Hash256) (input : list Z) s : Engine Cache VM * M (list Z) :=
  match acquire seed s with
  | (s, Err e) => (s, Err e)
  | (s, Ok vm) => (release vm seed s, lease_hash vm input)
  end.

Definition warm (seed : Hash256) s : Engine Cache VM * M unit :=
  let '(s, r) := cache_for seed s in (s, _ ← r; Ok tt).
End Engine.

(** ** The LRU and the slots *)
Section Tables.
Context {Cache VM E : Type} `{RandomXLaws Cache VM E}.
Implicit Types (l : list (Hash256 * Cache)) (p : list (option (PinnedSlot Cache))) (s : Engine Cache VM).

Definition keyed (e : Hash256 * Cache) : Prop := cache_key e.2 = e.1.
Definition slot_keyed (slot : PinnedSlot Cache) : Prop :=
  ∀ c, slot_cache slot = Some c → cache_key c = slot_seed slot.

Lemma swap_remove_perm {A} i (l : list A) x : l !! i = Some x → l ≡ₚ x :: swap_remove i l.
Proof.
  intros Hi. unfold swap_remove. destruct (last l) as [y|] eqn:Hl.
  2: { apply last_None in Hl as ->. done. }
  apply last_Some in Hl as [l' ->]. rewrite length_app. cbn [length].
  replace (length l' + 1 - 1)%nat with (length l') by lia.
  destruct (decide (i = length l')) as [->|Hne].
  - rewrite list_lookup_middle in Hi by done. injection Hi as <-.
    rewrite insert_app_r_alt, Nat.sub_diag by done. cbn. rewrite take_app_length.
    symmetry. apply Permutation_cons_append.
  - assert (Hlt : (i < length l')%nat).
    { apply lookup_lt_Some in Hi. rewrite length_app in Hi. cbn in Hi. lia. }
    rewrite lookup_app_l in Hi by done. rewrite insert_app_l by done.
    rewrite take_app_length' by (by rewrite length_insert).
    rewrite insert_take_drop by done. rewrite <- (take_drop_middle l' i x Hi) at 1.
    rewrite <- Permutation_cons_append, <- !Permutation_middle. apply Permutation_swap.
Qed.

Lemma take_from_lru_Some seed l c l' :
  take_from_lru seed l = Some (c, l') → l ≡ₚ (seed, c) :: l'.
Proof.
  unfold take_from_lru. destruct (list_find _ l) as [[i e]|] eqn:Hf; [|done]. cbn. intros [= <- <-].
  apply list_find_Some in Hf as (Hi & <- & _). rewrite (delete_Permutation l i e Hi) at 1. by destruct e.
Qed.

Lemma take_from_lru_None seed l : take_from_lru seed l = None → seed ∉ l.*1.
Proof.
  unfold take_from_lru. destruct (list_find _ l) as [[i e]|] eqn:Hf; [done|]. intros _.
  apply list_find_None in Hf. intros (e & -> & He)%list_elem_of_fmap.
  rewrite Forall_forall in Hf. by eapply Hf.
Qed.

Lemma pop_front_suffix max l : pop_front_to max l `suffix_of` l.
Proof.
  induction l as [|x l IH]; [done|]. cbn [pop_front_to]. destruct (max <? _); [|done].
  etrans; [exact IH|]. by apply suffix_cons_r.
Qed.

Lemma pop_front_length max l : 0 ≤ max → Z.of_nat (length (pop_front_to max l)) ≤ max.
Proof.
  intros Hm. induction l as [|x l IH]; [done|]. cbn [pop_front_to].
  destruct (Z.ltb_spec max (Z.of_nat (length (x :: l)))); [done|lia].
Qed.

(** An LRU queue: no seed twice, each cache built from its seed, none of
    [avoid]. *)
Record lru_ok (avoid : list Hash256) l : Prop := {
  lo_nodup : NoDup l.*1;
  lo_keyed : Forall keyed l;
  lo_avoid : ∀ seed, seed ∈ l.*1 → seed ∉ avoid;
}.

Lemma lru_ok_perm avoid l l' : l ≡ₚ l' → lru_ok avoid l → lru_ok avoid l'.
Proof. intros Hp [? ? ?]. split; [by rewrite <- Hp|by rewrite <- Hp|]. intros seed. rewrite <- Hp. auto. Qed.

Lemma lru_ok_suffix avoid l l' : l' `suffix_of` l → lru_ok avoid l → lru_ok avoid l'.
Proof.
  intros [k ->] [Hn Hk Ha]. rewrite fmap_app in *. apply NoDup_app in Hn as (_ & _ & Hn).
  apply Forall_app in Hk as [_ Hk]. split; [done|done|]. intros seed Hs. apply Ha. set_solver.
Qed.

Lemma lru_ok_cons avoid seed c l :
  lru_ok avoid ((seed, c) :: l) ↔ lru_ok avoid l ∧ (seed ∉ l.*1) ∧ (seed ∉ avoid) ∧ cache_key c = seed.
Proof.
  split.
  - intros [Hn Hk Ha]. cbn in Hn. apply NoDup_cons in Hn as [? ?]. apply Forall_cons in Hk as [Hk ?].
    split_and!; [split; [done|done|]|done| |exact Hk]; [|apply Ha; cbn; set_solver].
    intros x Hx. apply Ha. cbn. set_solver.
  - intros ([Hn Hk Ha] & Hs & Hv & Hc). split; [by constructor|by constructor|].
    intros x. cbn. intros [->|Hx]%elem_of_cons; auto.
Qed.

Lemma push_lru_ok avoid seed c max l :
  0 ≤ max → lru_ok avoid l → seed ∉ l.*1 → seed ∉ avoid → cache_key c = seed →
  lru_ok avoid (push_lru seed c max l) ∧ Z.of_nat (length (push_lru seed c max l)) ≤ max ∧
  (∀ x, x ∈ (push_lru seed c max l).*1 → x = seed ∨ x ∈ l.*1).
Proof.
  intros Hm Hl Hs Hv Hc. unfold push_lru. split_and!.
  - eapply lru_ok_suffix; [apply pop_front_suffix|]. eapply lru_ok_perm; [apply Permutation_cons_append|].
    by apply lru_ok_cons.
  - by apply pop_front_length.
  - destruct (pop_front_suffix max (l ++ [(seed, c)])) as [k Hk]. intros x Hx.
    assert (Hin : x ∈ (l ++ [(seed, c)]).*1) by (rewrite Hk, fmap_app; set_solver).
    rewrite fmap_app in Hin. cbn in Hin. set_solver.
Qed.
End Tables.
