(* ===== verification/SeedCacheProps.v ===== *)
(** * The seed caches under concurrency

    The table invariant and its preservation by every critical section of
    [SeedCache], then the interleavings: [engine_step] lets any number of
    threads acquire VMs, miss, wait for the build lock, fill, insert, hash and
    release while pins move under them. *)

From stdpp Require Import base option list numbers gmap.
From S2P Require Import Prelude Crypto SeedCache.
#[local] Open Scope Z_scope.

Section Props.
Context {Cache VM E : Type} `{RandomXLaws Cache VM E}.
Implicit Types (l : list (Hash256 * Cache)) (p : list (option (PinnedSlot Cache))) (s : Engine Cache VM).

Definition pinned_seeds s : list Hash256 := slot_seed <$> slots (pinned s).

Record table_ok s : Prop := {
  to_slots : length (pinned s) = 2%nat;
  to_pinned : NoDup (pinned_seeds s);
  to_slot_keys : Forall slot_keyed (slots (pinned s));
  to_lru : lru_ok (pinned_seeds s) (lru s);
  to_size : Z.of_nat (length (lru s)) ≤ max_caches s;
  to_max : 1 ≤ max_caches s;
  to_idle : ∀ v k, (v, k) ∈ idle s → vm_key v = k;
  to_idle_max : Z.of_nat (length (idle s)) ≤ max_idle_vms s;
}.

(** [seed] has a built cache in the table. *)
Definition res (seed : Hash256) s : Prop :=
  (∃ slot, slot ∈ slots (pinned s) ∧ slot_seed slot = seed ∧ is_Some (slot_cache slot)) ∨ seed ∈ (lru s).*1.
(** [seed] has one in a pinned slot. *)
Definition hot (seed : Hash256) s : Prop :=
  ∃ slot, slot ∈ slots (pinned s) ∧ slot_seed slot = seed ∧ is_Some (slot_cache slot).

Lemma pin_slots_length p : (length (slots p) ≤ length p)%nat.
Proof. unfold slots. induction p as [|[x|] p IH]; csimpl; lia. Qed.

Lemma slot_of_seed s slot slot' :
  NoDup (pinned_seeds s) → slot ∈ slots (pinned s) → slot' ∈ slots (pinned s) →
  slot_seed slot = slot_seed slot' → slot = slot'.
Proof.
  unfold pinned_seeds. intros Hn [i Hi]%list_elem_of_lookup [j Hj]%list_elem_of_lookup E0.
  assert (i = j) as <-; [|congruence]. eapply (NoDup_lookup _ i j _ Hn); rewrite list_lookup_fmap; [by rewrite Hi|].
  rewrite Hj. cbn. by rewrite E0.
Qed.

Lemma pinned_lookup_Some seed s c :
  pinned_lookup seed s = Some c → ∃ slot, slot ∈ slots (pinned s) ∧ slot_seed slot = seed ∧ slot_cache slot = Some c.
Proof.
  unfold pinned_lookup. destruct (list_find _ _) as [[i slot]|] eqn:Hf; [|done]. cbn. intros Hc.
  apply list_find_Some in Hf as (Hi & Hs & _). exists slot. split_and!; [|done..].
  by eapply list_elem_of_lookup_2.
Qed.

Lemma pinned_lookup_None seed s :
  NoDup (pinned_seeds s) → pinned_lookup seed s = None → ¬ hot seed s.
Proof.
  intros Hn. unfold pinned_lookup. destruct (list_find _ _) as [[i slot]|] eqn:Hf; cbn.
  - intros Hc (slot' & Hin & Hs & Hc'). apply list_find_Some in Hf as (Hi & Hs' & _).
    assert (slot = slot') as <-.
    { eapply slot_of_seed; [done|by eapply list_elem_of_lookup_2|done|congruence]. }
    rewrite Hc in Hc'. by destruct Hc'.
  - intros _ (slot & Hin & Hs & _). apply list_find_None in Hf. rewrite Forall_forall in Hf. by eapply Hf.
Qed.

Lemma pinned_lookup_hot seed s : NoDup (pinned_seeds s) → hot seed s ↔ is_Some (pinned_lookup seed s).
Proof.
  intros Hn. split.
  - intros Hh. destruct (pinned_lookup seed s) eqn:Hp; [by eexists|]. by apply pinned_lookup_None in Hp.
  - intros [c (slot & ? & ? & Hc)%pinned_lookup_Some]. exists slot. rewrite Hc. by split_and!.
Qed.

Lemma is_pinned_spec seed s : is_pinned_identity seed s = true ↔ seed ∈ pinned_seeds s.
Proof.
  unfold is_pinned_identity, pinned_seeds. rewrite existsb_exists, list_elem_of_fmap.
  setoid_rewrite bool_decide_eq_true. setoid_rewrite <- list_elem_of_In. split; intros (x & ? & ?); exists x; naive_solver.
Qed.

(** Changing the LRU alone. *)
Lemma table_ok_lru s l :
  table_ok s → lru_ok (pinned_seeds s) l → Z.of_nat (length l) ≤ max_caches s →
  table_ok (put_table (pinned s) l s).
Proof. intros [? ? ? ? ? ? ? ?] ? ?. by split. Qed.

(** A lookup answers with a cache of the seed exactly when there is one, and
    leaves the table's content as it is. *)
Lemma lookup_cache_spec seed s :
  table_ok s →
  let '(s', r) := lookup_cache seed s in
  table_ok s' ∧ pinned s' = pinned s ∧ idle s' = idle s ∧ lru s' ≡ₚ lru s ∧
  max_caches s' = max_caches s ∧ max_idle_vms s' = max_idle_vms s ∧
  match r with
  | Some c => cache_key c = seed ∧ res seed s
  | None => ¬ res seed s
  end.
Proof.
  intros Hok. unfold lookup_cache. destruct (pinned_lookup seed s) as [c|] eqn:Hp.
  { split_and!; try done.
    - apply pinned_lookup_Some in Hp as (slot & Hin & <- & Hc).
      pose proof (to_slot_keys s Hok) as Hk. rewrite Forall_forall in Hk. by apply Hk.
    - left. apply (pinned_lookup_hot seed s); [apply Hok|]. by eexists. }
  pose proof (pinned_lookup_None seed s (to_pinned s Hok) Hp) as Hnh.
  unfold touch_lru. destruct (take_from_lru seed (lru s)) as [[c l']|] eqn:Ht; cbn.
  - pose proof (take_from_lru_Some _ _ _ _ Ht) as Hperm.
    assert (Hperm' : l' ++ [(seed, c)] ≡ₚ lru s) by (rewrite Hperm; symmetry; apply Permutation_cons_append).
    pose proof (lru_ok_perm _ _ _ Hperm (to_lru s Hok)) as Hl. apply lru_ok_cons in Hl as (_ & _ & _ & Hc).
    split_and!; try done.
    + apply table_ok_lru; [done|eapply lru_ok_perm; [by symmetry|apply Hok]|]. rewrite Hperm'. apply Hok.
    + right. rewrite Hperm. cbn. by left.
  - split_and!; try done. intros [Hh|Hl]; [done|]. by apply take_from_lru_None in Ht.
Qed.

(** ** Inserting a built cache *)
Lemma fill_first_spec seed c p :
  length (fill_first seed c p) = length p ∧
  slot_seed <$> slots (fill_first seed c p) = slot_seed <$> slots p ∧
  (∀ x, x ∈ slots (fill_first seed c p) → x ∈ slots p ∨ x = {| slot_seed := seed; slot_cache := Some c |}) ∧
  (∀ x, x ∈ slots p → is_Some (slot_cache x) →
     ∃ y, y ∈ slots (fill_first seed c p) ∧ slot_seed y = slot_seed x ∧ is_Some (slot_cache y)).
Proof.
  unfold slots. induction p as [|[slot|] p (IH1 & IH2 & IH3 & IH4)]; csimpl; [by split_and!; [..|set_solver|set_solver]| |].
  - case_bool_decide as Hs; csimpl.
    + split_and!; [done|done| |].
      * intros x [->|Hx]%elem_of_cons; [right; by rewrite Hs|left; by right].
      * intros x [->|Hx]%elem_of_cons Hc; [|exists x; split; [by right|done]].
        eexists. split; [by left|]. by split.
    + split_and!; [by rewrite IH1|by rewrite IH2| |].
      * intros x [->|Hx]%elem_of_cons; [left; by left|]. destruct (IH3 x Hx); [left; by right|by right].
      * intros x [->|Hx]%elem_of_cons Hc; [exists slot; split; [by left|done]|].
        destruct (IH4 x Hx Hc) as (y & ? & ?). exists y. split; [by right|done].
  - split_and!; [by rewrite IH1|done|done|done].
Qed.

Lemma insert_cache_spec seed c s :
  table_ok s → ¬ res seed s → cache_key c = seed →
  table_ok (insert_cache seed c s) ∧ idle (insert_cache seed c s) = idle s ∧
  pinned_seeds (insert_cache seed c s) = pinned_seeds s ∧
  (∀ x, res x (insert_cache seed c s) → x = seed ∨ res x s) ∧
  (∀ x, hot x s → hot x (insert_cache seed c s)).
Proof.
  intros Hok Hr Hc. unfold insert_cache. destruct (is_pinned_identity seed s) eqn:Hp.
  - destruct (fill_first_spec seed c (pinned s)) as (F1 & F2 & F3 & F4).
    assert (Hps : pinned_seeds (put_table (fill_first seed c (pinned s)) (lru s) s) = pinned_seeds s) by exact F2.
    split_and!; [|done|done| |].
    + destruct Hok as [? Hn Hk Hl ? ? ? ?]. split; try done; cbn [put_table pinned lru]; try rewrite Hps; try done.
      * by rewrite F1.
      * apply Forall_forall. intros x [Hx| ->]%F3; [by eapply Forall_forall in Hk|]. intros c'. cbn. congruence.
    + intros x [(slot & Hin & <- & Hs)|Hl]; [|by right; right].
      apply F3 in Hin as [Hin| ->]; [right; left; by exists slot|by left].
    + intros x (slot & Hin & <- & Hs). destruct (F4 slot Hin Hs) as (y & ? & ? & ?). by exists y.
  - assert (Hnp : seed ∉ pinned_seeds s).
    { intros Hin%is_pinned_spec. congruence. }
    pose proof (to_max s Hok) as Hmax.
    destruct (push_lru_ok (pinned_seeds s) seed c (max_caches s) (lru s)) as (P1 & P2 & P3);
      [lia|apply Hok|by intros ?; apply Hr; right|done|done|].
    split_and!; [by apply table_ok_lru|done|done| |done].
    intros x [Hh|Hl]; [right; by left|]. cbn in Hl. apply P3 in Hl as [->|Hl]; [by left|right; by right].
Qed.

(** ** Pinning *)
Definition acc_seeds (dem : list (PinnedSlot Cache))
    (acc : list (PinnedSlot Cache) * list (Hash256 * Cache) * list (PinnedSlot Cache)) : list Hash256 :=
  slot_seed <$> (acc.1.1 ++ acc.2 ++ dem).
Definition acc_res (x : Hash256)
    (acc : list (PinnedSlot Cache) * list (Hash256 * Cache) * list (PinnedSlot Cache)) : Prop :=
  (∃ slot, slot ∈ acc.1.1 ++ acc.2 ∧ slot_seed slot = x ∧ is_Some (slot_cache slot)) ∨ x ∈ acc.1.2.*1.

Record claim_ok (dem : list (PinnedSlot Cache)) (max : Z)
    (acc : list (PinnedSlot Cache) * list (Hash256 * Cache) * list (PinnedSlot Cache)) : Prop := {
  co_nodup : NoDup (acc_seeds dem acc);
  co_keyed : Forall slot_keyed (acc.1.1 ++ acc.2);
  co_lru : lru_ok (acc_seeds dem acc) acc.1.2;
  co_max : Z.of_nat (length acc.1.2) ≤ max;
}.

Lemma acc_res_slot x (kept done_ : list (PinnedSlot Cache)) l slot :
  acc_res x (kept, l, done_ ++ [slot]) ↔ acc_res x (kept, l, done_) ∨ (slot_seed slot = x ∧ is_Some (slot_cache slot)).
Proof.
  unfold acc_res. cbn [fst snd]. setoid_rewrite elem_of_app. setoid_rewrite elem_of_app. setoid_rewrite list_elem_of_singleton.
  split; [intros [(y & [Hy|[Hy|Hy]] & Hs & Hc)|Hl]|intros [[(y & [Hy|Hy] & Hs & Hc)|Hl]|[Hs Hc]]]; subst; eauto 10.
Qed.

Lemma claim_slot_ok dem max acc seed :
  claim_ok dem max acc → seed ∉ slot_seed <$> acc.2 → seed ∉ slot_seed <$> dem →
  let acc' := claim_slot acc seed in
  claim_ok dem max acc' ∧ (∀ x, acc_res x acc' ↔ acc_res x acc) ∧
  ∃ slot, acc'.2 = acc.2 ++ [slot] ∧ slot_seed slot = seed.
Proof.
  destruct acc as [[kept l] done_]. intros [Hn Hk Hl Hm] Hd Hdem. cbn [fst snd claim_slot] in *.
  unfold acc_seeds in *. cbn [fst snd] in *.
  destruct (list_find _ kept) as [[i slot]|] eqn:Hf.
  - apply list_find_Some in Hf as (Hi & Hs & _). pose proof (swap_remove_perm i kept slot Hi) as Hp.
    assert (Hperm : swap_remove i kept ++ (done_ ++ [slot]) ++ dem ≡ₚ kept ++ done_ ++ dem).
    { rewrite Hp at 2. rewrite <- (Permutation_middle _ []). cbn [app].
      rewrite <- (app_assoc done_), <- !Permutation_middle. done. }
    assert (Hperm2 : swap_remove i kept ++ (done_ ++ [slot]) ≡ₚ kept ++ done_).
    { rewrite Hp at 2. cbn [app]. rewrite app_assoc. symmetry. apply Permutation_cons_append. }
    split_and!.
    + split; unfold acc_seeds; cbn [fst snd]; [by rewrite Hperm|by rewrite Hperm2| |done].
      destruct Hl as [? ? Ha]. split; [done|done|]. intros x Hx. rewrite Hperm. auto.
    + intros x. unfold acc_res. cbn [fst snd]. by setoid_rewrite Hperm2.
    + by exists slot.
  - apply list_find_None in Hf. rewrite Forall_forall in Hf.
    assert (Hnk : seed ∉ slot_seed <$> kept ++ done_ ++ dem).
    { rewrite !fmap_app, !not_elem_of_app. split_and!; try done.
      intros (x & -> & Hx)%list_elem_of_fmap. by eapply Hf. }
    assert (Hadd : ∀ slot l', slot_seed slot = seed → slot_keyed slot →
      lru_ok (slot_seed <$> kept ++ done_ ++ dem) l' → seed ∉ l'.*1 → Z.of_nat (length l') ≤ max →
      claim_ok dem max (kept, l', done_ ++ [slot])).
    { intros slot l' Hs Hks Hl' Hsl Hm'.
      assert (Hperm : slot_seed <$> (kept ++ (done_ ++ [slot]) ++ dem) ≡ₚ seed :: (slot_seed <$> (kept ++ done_ ++ dem))).
      { rewrite <- Hs, <- (fmap_cons slot_seed). apply fmap_Permutation.
        rewrite <- (app_assoc done_). cbn [app]. rewrite (app_assoc kept done_ (slot :: dem)), (app_assoc kept done_ dem).
        symmetry. apply Permutation_middle. }
      split; unfold acc_seeds; cbn [fst snd]; [rewrite Hperm; by constructor| | |done].
      - rewrite app_assoc. apply Forall_app. split; [done|by constructor].
      - destruct Hl' as [? ? Ha]. split; [done|done|]. intros x Hx. rewrite Hperm.
        rewrite not_elem_of_cons. split; [by intros ->|auto]. }
    destruct (take_from_lru seed l) as [[c l']|] eqn:Ht.
    + pose proof (take_from_lru_Some _ _ _ _ Ht) as Hp. pose proof (lru_ok_perm _ _ _ Hp Hl) as Hl'.
      apply lru_ok_cons in Hl' as (Hl' & Hs & _ & Hc).
      split_and!; [|intros x|by eexists].
      * apply Hadd; try done; [by intros c' [= <-]|]. apply Permutation_length in Hp. cbn in Hp. lia.
      * rewrite acc_res_slot. cbn [slot_seed slot_cache]. unfold acc_res. cbn [fst snd].
        assert (Hx : x ∈ l.*1 ↔ x = seed ∨ x ∈ l'.*1) by (rewrite Hp; cbn; by rewrite elem_of_cons). rewrite Hx. naive_solver.
    + apply take_from_lru_None in Ht. split_and!; [by apply Hadd|intros x|by eexists].
      rewrite acc_res_slot. cbn [slot_seed slot_cache]. split; [|by left]. intros [?|[_ [? ?]]]; [done|discriminate].
Qed.

Lemma claim_all dem max wanted : ∀ acc,
  claim_ok dem max acc → NoDup wanted → (∀ x, x ∈ wanted → (x ∉ slot_seed <$> acc.2) ∧ (x ∉ slot_seed <$> dem)) →
  let acc' := foldl claim_slot acc wanted in
  claim_ok dem max acc' ∧ (∀ x, acc_res x acc' ↔ acc_res x acc) ∧
  slot_seed <$> acc'.2 = (slot_seed <$> acc.2) ++ wanted.
Proof.
  induction wanted as [|w wanted IH]; intros acc Hok Hn Hw; cbn [foldl].
  { split_and!; [done|done|by rewrite app_nil_r]. }
  apply NoDup_cons in Hn as [Hwn Hn]. destruct (Hw w) as [H1 H2]; [by left|].
  destruct (claim_slot_ok dem max acc w Hok H1 H2) as (Hok' & Hres & slot & Hd & Hs).
  destruct (IH (claim_slot acc w) Hok' Hn) as (Hok2 & Hres2 & Hd2).
  { intros x Hx. rewrite Hd, fmap_app. cbn. rewrite Hs. destruct (Hw x) as [? ?]; [by right|].
    split; [|done]. rewrite not_elem_of_app, list_elem_of_singleton. split; [done|]. by intros ->. }
  split_and!; [done|intros x; by rewrite Hres2|]. rewrite Hd2, Hd, fmap_app. cbn. by rewrite Hs, <- app_assoc.
Qed.

Lemma demote_all avoid max dem : ∀ l,
  0 ≤ max → lru_ok avoid l → Z.of_nat (length l) ≤ max → Forall slot_keyed dem →
  NoDup (slot_seed <$> dem) → (∀ slot, slot ∈ dem → (slot_seed slot ∉ l.*1) ∧ (slot_seed slot ∉ avoid)) →
  let l' := foldl (demote max) l dem in
  lru_ok avoid l' ∧ Z.of_nat (length l') ≤ max ∧
  ∀ x, x ∈ l'.*1 → x ∈ l.*1 ∨ ∃ slot, slot ∈ dem ∧ slot_seed slot = x ∧ is_Some (slot_cache slot).
Proof.
  induction dem as [|slot dem IH]; intros l Hm Hl Hlen Hk Hn Hd; cbn [foldl].
  { split_and!; [done|done|by left]. }
  apply Forall_cons in Hk as [Hks Hk]. cbn in Hn. apply NoDup_cons in Hn as [Hsn Hn].
  destruct (Hd slot) as [H1 H2]; [by left|].
  assert (Hstep : lru_ok avoid (demote max l slot) ∧ Z.of_nat (length (demote max l slot)) ≤ max ∧
    ∀ x, x ∈ (demote max l slot).*1 → x ∈ l.*1 ∨ (x = slot_seed slot ∧ is_Some (slot_cache slot))).
  { unfold demote. destruct (slot_cache slot) as [c|] eqn:Hc; [|split_and!; [done|done|by left]].
    destruct (push_lru_ok avoid (slot_seed slot) c max l Hm Hl H1 H2 (Hks c Hc)) as (P1 & P2 & P3).
    split_and!; [done|done|]. intros x [->|?]%P3; [right|by left]. by split. }
  destruct Hstep as (P1 & P2 & P3).
  destruct (IH (demote max l slot) Hm P1 P2 Hk Hn) as (Q1 & Q2 & Q3).
  { intros y Hy. destruct (Hd y) as [? ?]; [by right|]. split; [|done].
    intros [?|[E0 _]]%P3; [done|]. apply Hsn. rewrite <- E0. by apply list_elem_of_fmap_2. }
  split_and!; [done|done|]. intros x [Hx|(y & ? & ? & ?)]%Q3.
  - apply P3 in Hx as [?|[-> ?]]; [by left|]. right. exists slot. split_and!; [by left|done..].
  - right. exists y. split_and!; [by right|done..].
Qed.

Lemma claimed_slots (cl : list (PinnedSlot Cache)) :
  (length cl ≤ 2)%nat →
  length (take 2 ((Some <$> cl) ++ [None; None])) = 2%nat ∧ slots (take 2 ((Some <$> cl) ++ [None; None])) = cl.
Proof. intros Hl. destruct cl as [|a [|b [|c cl]]]; [done..|cbn in Hl; lia]. Qed.

Lemma wanted_NoDup live next : NoDup (wanted_seeds live next) ∧ (length (wanted_seeds live next) ≤ 2)%nat.
Proof.
  unfold wanted_seeds. case_bool_decide; (split; [|cbn; lia]); [apply NoDup_singleton|].
  constructor; [by rewrite list_elem_of_singleton|apply NoDup_singleton].
Qed.

Lemma repin_spec wanted s :
  table_ok s → NoDup wanted → (length wanted ≤ 2)%nat →
  table_ok (repin wanted s) ∧ idle (repin wanted s) = idle s ∧
  (∀ x, x ∈ pinned_seeds (repin wanted s) ↔ x ∈ wanted) ∧
  (∀ x, res x (repin wanted s) → res x s) ∧
  (∀ x, x ∈ wanted → res x s → hot x (repin wanted s)).
Proof.
  intros Hok Hwn Hwl. unfold repin. set (cur := slots (pinned s)).
  set (kept := base.filter _ cur). set (dem := base.filter (λ slot, slot_seed slot ∉ wanted) cur).
  assert (Hpart : kept ++ dem ≡ₚ cur) by apply filter_app_complement.
  assert (Hdw : ∀ slot, slot ∈ dem → slot_seed slot ∉ wanted) by (by intros slot [? _]%list_elem_of_filter).
  destruct Hok as [Hlen Hn Hk Hl Hs Hm Hi Him].
  assert (Hn' : NoDup (slot_seed <$> kept ++ dem)) by (by rewrite Hpart).
  assert (Hk' : Forall slot_keyed kept ∧ Forall slot_keyed dem) by (apply Forall_app; by rewrite Hpart).
  pose proof (claim_all dem (max_caches s) wanted (kept, lru s, [])) as Hclaim. cbn [fst snd] in Hclaim.
  destruct Hclaim as (Hok' & Hres & Hd); [|done| |].
  { split; unfold acc_seeds; cbn [fst snd]; [done| | |done].
    - rewrite app_nil_r. apply Hk'.
    - destruct Hl as [? ? Ha]. split; [done|done|]. intros x Hx. cbn [app]. rewrite Hpart. by apply Ha. }
  { intros x Hx. split; [apply not_elem_of_nil|]. intros (slot & -> & ?%Hdw)%list_elem_of_fmap. done. }
  destruct (foldl claim_slot (kept, lru s, []) wanted) as [[kept' l'] cl] eqn:Hfold. cbn [fst snd] in *.
  cbn [fmap list_fmap app] in Hd. destruct Hok' as [Cn Ck Cl Cm]. unfold acc_seeds in *. cbn [fst snd] in *.
  assert (Hcl : (length cl ≤ 2)%nat) by (rewrite <- (length_fmap slot_seed), Hd; done).
  destruct (claimed_slots cl Hcl) as [Ln Ls].
  destruct (demote_all wanted (max_caches s) dem l') as (D1 & D2 & D3); [lia| |done| | | |].
  { destruct Cl as [? ? Ca]. split; [done|done|]. intros x Hx%Ca. rewrite <- Hd. rewrite !fmap_app in Hx. set_solver. }
  { apply Hk'. }
  { rewrite fmap_app in Hn'. by apply NoDup_app in Hn' as (_ & _ & ?). }
  { intros slot Hslot. split; [|by apply Hdw]. intros Hx%(lo_avoid _ _ Cl). apply Hx.
    rewrite !fmap_app, !elem_of_app. right; right. by apply list_elem_of_fmap_2. }
  set (s' := put_table _ _ s).
  assert (Hps : pinned_seeds s' = wanted) by (unfold pinned_seeds; cbn [s' put_table pinned]; by rewrite Ls).
  assert (Hin : ∀ slot, slot ∈ kept' ++ cl → slot_seed slot ∈ wanted → slot ∈ cl).
  { intros slot [Hx|Hx]%elem_of_app Hw; [|done]. exfalso. rewrite app_assoc, !fmap_app, Hd in Cn.
    apply NoDup_app in Cn as (Cn & _ & _). apply NoDup_app in Cn as (_ & Cn & _).
    apply (Cn (slot_seed slot)); [by apply list_elem_of_fmap_2|done]. }
  assert (Hback : ∀ x, acc_res x (kept, lru s, []) → res x s).
  { intros x [(slot & Hx & ? & ?)|Hx]; [left|by right]. cbn [fst snd] in Hx. rewrite app_nil_r in Hx.
    exists slot. split_and!; [|done..]. apply list_elem_of_filter in Hx. by destruct Hx. }
  split_and!; [split; try done|done|by rewrite Hps| |].
  - rewrite Hps. done.
  - cbn [s' put_table pinned]. rewrite Ls. by apply Forall_app in Ck as [_ ?].
  - rewrite Hps. exact D1.
  - intros x [(slot & Hx & ? & ?)|Hx]; cbn [s' put_table pinned lru] in Hx.
    + rewrite Ls in Hx. apply Hback, Hres. left. exists slot. cbn. split_and!; [set_solver|done..].
    + apply D3 in Hx as [Hx|(slot & Hx & ? & ?)]; [apply Hback, Hres; by right|].
      left. exists slot. split_and!; [|done..]. apply list_elem_of_filter in Hx. by destruct Hx.
  - intros x Hw Hx.
    assert (Ha : acc_res x (kept', l', cl)).
    { apply Hres. destruct Hx as [(slot & Hx & Hsx & ?)|Hx]; [left|by right]. exists slot. cbn [fst snd].
      rewrite app_nil_r. split_and!; [|done..]. apply list_elem_of_filter. by rewrite Hsx. }
    destruct Ha as [(slot & Hx' & Hsx & ?)|Hx']; cbn [fst snd] in Hx'.
    + exists slot. cbn [s' put_table pinned]. rewrite Ls. split_and!; [apply Hin; [done|by rewrite Hsx]|done..].
    + exfalso. apply (lo_avoid _ _ Cl) in Hx'. apply Hx'. rewrite !fmap_app, Hd, !elem_of_app. by right; left.
Qed.

(** Pinning names exactly the two wanted seeds, keeps (or promotes) their
    caches, and builds none. *)
Lemma pin_seeds_spec live next s :
  table_ok s →
  table_ok (pin_seeds live next s) ∧ idle (pin_seeds live next s) = idle s ∧
  (∀ x, x ∈ pinned_seeds (pin_seeds live next s) ↔ x ∈ wanted_seeds live next) ∧
  (∀ x, res x (pin_seeds live next s) → res x s) ∧
  (∀ x, x ∈ wanted_seeds live next → res x s → hot x (pin_seeds live next s)).
Proof.
  intros Hok. unfold pin_seeds. destruct (wanted_NoDup live next) as [Hwn Hwl].
  set (wanted := wanted_seeds live next) in *.
  destruct (_ && _) eqn:Hsame; [|by apply repin_spec].
  apply andb_true_iff in Hsame as [Hlen%Nat.eqb_eq Hall]. rewrite forallb_forall in Hall.
  assert (Hp : wanted ≡ₚ pinned_seeds s).
  { apply submseteq_length_Permutation; [|unfold pinned_seeds; rewrite length_fmap; lia].
    apply NoDup_submseteq; [done|]. intros x Hx%list_elem_of_In%Hall. by apply bool_decide_eq_true in Hx. }
  split_and!; [done|done|intros x; by rewrite Hp|done|].
  intros x Hx [Hh|Hl]; [done|]. rewrite Hp in Hx. by apply (lo_avoid _ _ (to_lru s Hok)) in Hl.
Qed.

(** ** Threads *)

(** Where a thread is between two critical sections of [acquire]; [po] is the
    pooled VM it took and will re-key. *)
Inductive Thread :=
| Want (seed : Hash256) (po : option VM)
| Wait (seed : Hash256) (po : option VM)
| Build (seed : Hash256) (po : option VM)
| Built (seed : Hash256) (po : option VM) (c : Cache)
| Keyed (seed : Hash256) (po : option VM) (c : Cache)
| Lease (seed : Hash256) (vm : VM).

Record World := { eng : Engine Cache VM; threads : gmap nat Thread; build_lock : option nat }.
Definition put_thread (n : nat) (o : option Thread) (m : gmap nat Thread) : gmap nat Thread :=
  partial_alter (λ _, o) n m.

Definition building (th : Thread) : option Hash256 :=
  match th with Build seed _ | Built seed _ _ => Some seed | _ => None end.

(** The label says whether the step is a pin, and of what. *)
Inductive engine_step : option (Hash256 * Hash256) → World → World → Prop :=
| st_pop_match w n seed vm e' :
    threads w !! n = None → pop_idle (eng w) = (e', Some (vm, seed)) →
    engine_step None w {| eng := e'; threads := put_thread n (Some (Lease seed vm)) (threads w); build_lock := build_lock w |}
| st_pop_rekey w n seed key vm e' :
    threads w !! n = None → pop_idle (eng w) = (e', Some (vm, key)) → key ≠ seed →
    engine_step None w {| eng := e'; threads := put_thread n (Some (Want seed (Some vm))) (threads w); build_lock := build_lock w |}
| st_pop_empty w n seed e' :
    threads w !! n = None → pop_idle (eng w) = (e', None) →
    engine_step None w {| eng := e'; threads := put_thread n (Some (Want seed None)) (threads w); build_lock := build_lock w |}
| st_lookup w n seed po e' r :
    threads w !! n = Some (Want seed po) → lookup_cache seed (eng w) = (e', r) →
    engine_step None w {| eng := e';
      threads := put_thread n (Some (match r with Some c => Keyed seed po c | None => Wait seed po end)) (threads w);
      build_lock := build_lock w |}
| st_lock w n seed po e' r :
    threads w !! n = Some (Wait seed po) → build_lock w = None → lookup_cache seed (eng w) = (e', r) →
    engine_step None w {| eng := e';
      threads := put_thread n (Some (match r with Some c => Keyed seed po c | None => Build seed po end)) (threads w);
      build_lock := match r with Some _ => None | None => Some n end |}
| st_fill w n seed po c :
    threads w !! n = Some (Build seed po) → new_cache seed = Ok c →
    engine_step None w {| eng := count_fill (eng w); threads := put_thread n (Some (Built seed po c)) (threads w);
      build_lock := build_lock w |}
| st_fill_failed w n seed po e :
    threads w !! n = Some (Build seed po) → new_cache seed = Err e →
    engine_step None w {| eng := eng w; threads := put_thread n None (threads w); build_lock := None |}
| st_insert w n seed po c :
    threads w !! n = Some (Built seed po c) →
    engine_step None w {| eng := insert_cache seed c (eng w); threads := put_thread n (Some (Keyed seed po c)) (threads w);
      build_lock := None |}
| st_key w n seed po c r :
    threads w !! n = Some (Keyed seed po c) → key_vm po c = r →
    engine_step None w {| eng := eng w;
      threads := put_thread n (match r with Ok vm => Some (Lease seed vm) | Err _ => None end) (threads w);
      build_lock := build_lock w |}
| st_warmed w n seed po c :
    threads w !! n = Some (Keyed seed po c) →
    engine_step None w {| eng := eng w; threads := put_thread n None (threads w); build_lock := build_lock w |}
| st_release w n seed vm :
    threads w !! n = Some (Lease seed vm) →
    engine_step None w {| eng := release vm seed (eng w); threads := put_thread n None (threads w); build_lock := build_lock w |}
| st_reserve w k :
    engine_step None w {| eng := reserve_idle_vms k (eng w); threads := threads w; build_lock := build_lock w |}
| st_pin w live next :
    engine_step (Some (live, next)) w
      {| eng := pin_seeds live next (eng w); threads := threads w; build_lock := build_lock w |}.

Definition world0 (idle_vms caches : Z) : World :=
  {| eng := with_settings idle_vms caches; threads := ∅; build_lock := None |}.
Definition any_step (w w' : World) : Prop := ∃ lab, engine_step lab w w'.
Definition engine_reach (w : World) : Prop := ∃ i c, rtc any_step (world0 i c) w.

Definition thread_ok (th : Thread) : Prop :=
  match th with
  | Built seed _ c | Keyed seed _ c => cache_key c = seed
  | Lease seed vm => vm_key vm = seed
  | _ => True
  end.

Record world_ok (w : World) : Prop := {
  wo_table : table_ok (eng w);
  wo_thread : ∀ n th, threads w !! n = Some th → thread_ok th;
  wo_build : ∀ n th seed, threads w !! n = Some th → building th = Some seed →
    build_lock w = Some n ∧ ¬ res seed (eng w);
}.

(** The frame rule of the machine: one thread moves, the others keep their
    facts when the table gains no cache they are building. *)
Lemma world_move w n e' o lk :
  world_ok w → table_ok e' → (∀ th, o = Some th → thread_ok th) →
  (∀ th seed, o = Some th → building th = Some seed → lk = Some n ∧ ¬ res seed e') →
  (∀ m th seed, m ≠ n → threads w !! m = Some th → building th = Some seed → lk = Some m ∧ ¬ res seed e') →
  world_ok {| eng := e'; threads := put_thread n o (threads w); build_lock := lk |}.
Proof.
  intros [_ Ht _] Hok Ho Hb Hother. split; cbn [eng threads build_lock]; [done| |].
  - intros m th. unfold put_thread. destruct (decide (m = n)) as [->|Hne].
    + rewrite lookup_partial_alter_eq. auto.
    + rewrite lookup_partial_alter_ne by done. apply Ht.
  - intros m th seed. unfold put_thread. destruct (decide (m = n)) as [->|Hne].
    + rewrite lookup_partial_alter_eq. eauto.
    + rewrite lookup_partial_alter_ne by done. eauto.
Qed.

Lemma res_same x s s' : pinned s' = pinned s → lru s' ≡ₚ lru s → res x s' ↔ res x s.
Proof. intros Hp Hl. unfold res. by rewrite Hp, Hl. Qed.

Lemma table_ok_idle s i :
  table_ok s → (∀ v k, (v, k) ∈ i → vm_key v = k) → Z.of_nat (length i) ≤ max_idle_vms s → table_ok (put_idle i s).
Proof. intros [? ? ? ? ? ? ? ?] ? ?. by split. Qed.

Lemma pop_idle_ok s s' o :
  table_ok s → pop_idle s = (s', o) →
  table_ok s' ∧ pinned s' = pinned s ∧ lru s' = lru s ∧ ∀ v k, o = Some (v, k) → vm_key v = k.
Proof.
  intros Hok. unfold pop_idle. destruct (idle s) as [|[v k] rest] eqn:Hi; intros [= <- <-]; [done|].
  pose proof (to_idle s Hok) as Hk. pose proof (to_idle_max s Hok) as Hm. rewrite Hi in Hk, Hm. cbn [length] in Hm.
  split_and!; [|done|done|].
  - apply table_ok_idle; [done| |lia]. intros v' k' Hin. apply Hk. by right.
  - intros v' k' [= <- <-]. apply Hk. by left.
Qed.

Lemma release_ok s vm seed : table_ok s → vm_key vm = seed → table_ok (release vm seed s).
Proof.
  intros Hok Hk. unfold release. destruct (Z.ltb_spec (Z.of_nat (length (idle s))) (max_idle_vms s)); [|done].
  apply table_ok_idle; [done| |cbn [length]; lia].
  intros v k [[= -> ->]|Hin]%elem_of_cons; [done|by eapply to_idle].
Qed.

Lemma release_table s vm seed : pinned (release vm seed s) = pinned s ∧ lru (release vm seed s) = lru s.
Proof. unfold release. by destruct (_ <? _). Qed.

Lemma key_vm_ok po c vm : key_vm (E := E) po c = Ok vm → vm_key vm = cache_key c.
Proof.
  unfold key_vm. rewrite map_err_Ok. destruct po; [apply reinit_key|apply new_vm_key].
Qed.

(** The thread that builds is alone. *)
Lemma one_builder w n m th th' seed seed' :
  world_ok w → threads w !! n = Some th → building th = Some seed →
  threads w !! m = Some th' → building th' = Some seed' → m = n.
Proof.
  intros Hw H1 B1 H2 B2. destruct (wo_build w Hw n th seed H1 B1) as [L1 _].
  destruct (wo_build w Hw m th' seed' H2 B2) as [L2 _]. congruence.
Qed.

Lemma engine_step_ok lab w w' : world_ok w → engine_step lab w w' → world_ok w'.
Proof.
  intros Hw Hstep. pose proof (wo_table w Hw) as Hok.
  (* the engine keeps its caches and the lock its holder *)
  assert (Hframe : ∀ n (o : option Thread) e',
    table_ok e' → (∀ th, o = Some th → thread_ok th ∧ building th = None) →
    (∀ x, res x e' → res x (eng w)) →
    world_ok {| eng := e'; threads := put_thread n o (threads w); build_lock := build_lock w |}).
  { intros n o e' He Ho Hres. apply world_move; try done.
    - intros th Hth. by apply Ho.
    - intros th seed Hth Hb. destruct (Ho th Hth) as [_ Hn]. congruence.
    - intros m th seed _ Hm Hb. destruct (wo_build w Hw m th seed Hm Hb). eauto. }
  destruct Hstep as [w n seed vm e' Hn Hp|w n seed key vm e' Hn Hp Hne|w n seed e' Hn Hp|w n seed po e' r Hn Hl
    |w n seed po e' r Hn Hlk Hl|w n seed po c Hn Hc|w n seed po e Hn Hc|w n seed po c Hn|w n seed po c r Hn Hk
    |w n seed po c Hn|w n seed vm Hn|w k|w live next].
  - destruct (pop_idle_ok _ _ _ Hok Hp) as (He & Ep & El & Hv). apply Hframe; [done| |].
    + intros th [= <-]. split; [|done]. by apply Hv.
    + intros x. by rewrite (res_same x (eng w) e') by (done || by rewrite El).
  - destruct (pop_idle_ok _ _ _ Hok Hp) as (He & Ep & El & Hv). apply Hframe; [done|by intros th [= <-]|].
    intros x. by rewrite (res_same x (eng w) e') by (done || by rewrite El).
  - destruct (pop_idle_ok _ _ _ Hok Hp) as (He & Ep & El & Hv). apply Hframe; [done|by intros th [= <-]|].
    intros x. by rewrite (res_same x (eng w) e') by (done || by rewrite El).
  - pose proof (lookup_cache_spec seed (eng w) Hok) as Hspec. rewrite Hl in Hspec.
    destruct Hspec as (He & Ep & _ & El & _ & _ & Hr). apply Hframe; [done| |].
    + intros th [= <-]. destruct r; [|done]. by destruct Hr.
    + intros x. by rewrite (res_same x (eng w) e').
  - pose proof (lookup_cache_spec seed (eng w) Hok) as Hspec. rewrite Hl in Hspec.
    destruct Hspec as (He & Ep & _ & El & _ & _ & Hr). apply world_move; [done|done| | |].
    + intros th [= <-]. destruct r; [|done]. by destruct Hr.
    + intros th x [= <-]. destruct r; [done|]. intros [= <-]. split; [done|]. by rewrite (res_same seed (eng w) e').
    + intros m th x _ Hm Hb. destruct (wo_build w Hw m th x Hm Hb). congruence.
  - destruct (wo_build w Hw n _ seed Hn eq_refl) as [Hlk Hnr]. apply world_move; [done|by destruct Hok| | |].
    + intros th [= <-]. by apply new_cache_key.
    + intros th x [= <-] [= <-]. by split.
    + intros m th x Hmn Hm Hb. destruct Hmn. by eapply one_builder.
  - destruct (wo_build w Hw n _ seed Hn eq_refl) as [Hlk Hnr]. apply world_move; [done|done|done|done|].
    intros m th x Hmn Hm Hb. destruct Hmn. by eapply one_builder.
  - destruct (wo_build w Hw n _ seed Hn eq_refl) as [Hlk Hnr].
    pose proof (wo_thread w Hw n _ Hn) as Hc. cbn in Hc.
    destruct (insert_cache_spec seed c (eng w) Hok Hnr Hc) as (He & _). apply world_move; [done|done| | |].
    + by intros th [= <-].
    + by intros th x [= <-].
    + intros m th x Hmn Hm Hb. destruct Hmn. by eapply one_builder.
  - pose proof (wo_thread w Hw n _ Hn) as Hc. cbn in Hc. apply Hframe; [done| |done].
    intros th Hth. destruct r as [vm|]; [|done]. injection Hth as <-. split; [|done].
    apply key_vm_ok in Hk. cbn. congruence.
  - by apply Hframe.
  - pose proof (wo_thread w Hw n _ Hn) as Hc. destruct (release_table (eng w) vm seed) as [Ep El].
    apply Hframe; [by apply release_ok|done|]. intros x. by rewrite (res_same x (eng w)) by (done || by rewrite El).
  - destruct Hw as [_ Ht Hb]. split; [|done|done]. destruct Hok as [? ? ? ? ? ? ? ?].
    split; try done. cbn [reserve_idle_vms idle max_idle_vms eng]. lia.
  - destruct (pin_seeds_spec live next (eng w) Hok) as (He & _ & _ & Hres & _).
    destruct Hw as [_ Ht Hb]. split; [done|done|]. intros m th x Hm Hx. destruct (Hb m th x Hm Hx). split; [done|].
    intros ?%Hres. done.
Qed.

Lemma world0_ok i c : world_ok (world0 i c).
Proof.
  split; cbn [world0 eng threads build_lock]; [|by intros ? ? ?%lookup_empty_Some|by intros ? ? ? ?%lookup_empty_Some].
  assert (Hp : pinned_seeds (with_settings i c) = []) by done.
  split; try rewrite Hp; cbn [with_settings pinned lru idle max_caches max_idle_vms length];
    [done|apply NoDup_nil_2|apply Forall_nil_2| |lia|lia|by intros ? ? ?%not_elem_of_nil|lia].
  split; [apply NoDup_nil_2|apply Forall_nil_2|]. by intros ? ?%not_elem_of_nil.
Qed.

Lemma reach_ok w : engine_reach w → world_ok w.
Proof.
  intros (i & c & Hr). pose proof (world0_ok i c) as H0'. induction Hr as [|w1 w2 w3 [lab H12] _ IH]; [done|].
  apply IH. by eapply engine_step_ok.
Qed.

(** ** One thread at a time *)
Lemma res_count_fill x s : res x (count_fill s) ↔ res x s.
Proof. done. Qed.

Lemma cache_for_spec seed s :
  table_ok s →
  let '(s', r) := cache_for (E := E) seed s in
  table_ok s' ∧ (∀ x, hot x s → hot x s') ∧ ∀ c, r = Ok c → cache_key c = seed.
Proof.
  intros Hok. unfold cache_for. pose proof (lookup_cache_spec seed s Hok) as Hs.
  destruct (lookup_cache seed s) as [s1 [c|]] eqn:E1; destruct Hs as (Hok1 & Ep & _ & El & _ & _ & Hr).
  { split_and!; [done|intros x; unfold hot; by rewrite Ep|]. intros c' [= <-]. apply Hr. }
  pose proof (lookup_cache_spec seed s1 Hok1) as Hs. destruct (lookup_cache seed s1) as [s2 [c|]] eqn:E2;
    destruct Hs as (Hok2 & Ep2 & _ & El2 & _ & _ & Hr2).
  { destruct Hr. apply (res_same seed s s1 Ep El), Hr2. }
  destruct (new_cache seed) as [c|e] eqn:Hc; [|split_and!; [done|intros x; unfold hot; by rewrite Ep2, Ep|done]].
  pose proof (new_cache_key seed c Hc) as Hk.
  destruct (insert_cache_spec seed c (count_fill s2)) as (Hok3 & _ & _ & _ & Hh); [by destruct Hok2| |done|].
  { rewrite res_count_fill, (res_same seed s1 s2) by done. done. }
  split_and!; [done| |by intros c' [= <-]]. intros x Hx. apply Hh. unfold hot in *. cbn. by rewrite Ep2, Ep.
Qed.

Lemma acquire_spec seed s :
  table_ok s →
  let '(s', r) := acquire (E := E) seed s in
  table_ok s' ∧ (∀ x, hot x s → hot x s') ∧ ∀ vm, r = Ok vm → vm_key vm = seed.
Proof.
  intros Hok. unfold acquire. destruct (pop_idle s) as [s1 o] eqn:Hp.
  destruct (pop_idle_ok _ _ _ Hok Hp) as (Hok1 & Ep & El & Hv).
  assert (Hh : ∀ x, hot x s → hot x s1) by (intros x; unfold hot; by rewrite Ep).
  assert (Hrekey : ∀ po, let '(s', r) := match cache_for (E := E) seed s1 with
      | (s2, Ok cache) => (s2, key_vm po cache) | (s2, Err e) => (s2, Err e) end in
    table_ok s' ∧ (∀ x, hot x s → hot x s') ∧ ∀ vm, r = Ok vm → vm_key vm = seed).
  { intros po. pose proof (cache_for_spec seed s1 Hok1) as Hc. destruct (cache_for seed s1) as [s2 [c|e]];
      destruct Hc as (Hok2 & Hh2 & Hc); (split_and!; [done|auto|]); [|done].
    intros vm Hvm%key_vm_ok. by rewrite Hvm, (Hc c). }
  destruct o as [[vm key]|]; [|apply Hrekey]. case_bool_decide as Hkey; [|apply Hrekey].
  split_and!; [done|done|]. intros vm' [= <-]. rewrite <- Hkey. by apply Hv.
Qed.

Lemma lease_hash_rx vm input h : lease_hash (E := E) vm input = Ok h → h = rx (vm_key vm) input.
Proof.
  unfold lease_hash. intros (h' & Hh%map_err_Ok & Hl)%bind_Ok.
  destruct (length h' =? RANDOMX_HASH_LEN)%nat; [|done]. injection Hl as <-. by apply calculate_hash_rx.
Qed.

Lemma engine_hash_spec seed input s :
  table_ok s →
  let '(s', r) := engine_hash (E := E) seed input s in
  table_ok s' ∧ (∀ x, hot x s → hot x s') ∧ ∀ h, r = Ok h → h = rx seed input.
Proof.
  intros Hok. unfold engine_hash. pose proof (acquire_spec seed s Hok) as Ha.
  destruct (acquire seed s) as [s1 [vm|e]]; destruct Ha as (Hok1 & Hh & Hk); [|done].
  destruct (release_table s1 vm seed) as [Ep _].
  split_and!; [apply release_ok; auto| |].
  - intros x Hx%Hh. unfold hot in *. by rewrite Ep.
  - intros h Hl%lease_hash_rx. by rewrite (Hk vm) in Hl.
Qed.

(** ** Theorems *)

(** C39: the caches are invisible. Whatever threads did before, in whatever
    order, and whatever is pinned, evicted or being filled, a VM leased for a
    seed hashes under that seed, and so does the engine's own hash: the answer
    is the RandomX hash of the seed and the input. *)
Theorem hash_is_the_seeds_own w seed input h (Hreach : engine_reach w) :
  (∀ n vm, threads w !! n = Some (Lease seed vm) → lease_hash (E := E) vm input = Ok h → h = rx seed input) ∧
  (∀ e', engine_hash (E := E) seed input (eng w) = (e', Ok h) → h = rx seed input).
Proof.
  pose proof (reach_ok w Hreach) as Hw. split.
  - intros n vm Hn Hl%lease_hash_rx. pose proof (wo_thread w Hw n _ Hn) as Hk. cbn in Hk. by rewrite Hk in Hl.
  - intros e' Hh. pose proof (engine_hash_spec seed input (eng w) (wo_table w Hw)) as Hs. rewrite Hh in Hs. by apply Hs.
Qed.

(** Memory is bounded and fills are shared. In every reachable state at
    most [2 + max_caches] caches are resident, no seed has two, at most one
    thread fills at a time, and it fills a seed that has no cache. *)
Theorem caches_are_bounded_and_shared w (Hreach : engine_reach w) :
  resident (eng w) ≤ 2 + max_caches (eng w) ∧
  NoDup ((slot_seed <$> slots (pinned (eng w))) ++ (lru (eng w)).*1) ∧
  (∀ n m th th' seed seed', threads w !! n = Some th → threads w !! m = Some th' →
     building th = Some seed → building th' = Some seed' → n = m) ∧
  (∀ n th seed, threads w !! n = Some th → building th = Some seed → is_resident seed (eng w) = false).
Proof.
  pose proof (reach_ok w Hreach) as Hw. pose proof (wo_table w Hw) as Hok. split_and!.
  - unfold resident. pose proof (length_filter (λ slot, is_Some (slot_cache slot)) (slots (pinned (eng w)))).
    pose proof (pin_slots_length (pinned (eng w))). rewrite (to_slots _ Hok) in *. pose proof (to_size _ Hok). lia.
  - apply NoDup_app. split_and!; [apply Hok| |apply Hok]. intros x Hx Hl.
    by apply (lo_avoid _ _ (to_lru _ Hok)) in Hl.
  - intros n m th th' seed seed' H1 H2 B1 B2. symmetry. by eapply one_builder.
  - intros n th seed Hn Hb. destruct (wo_build w Hw n th seed Hn Hb) as [_ Hr].
    unfold is_resident. apply orb_false_iff. split.
    + apply bool_decide_eq_false. intros Hs. apply Hr. left. by apply pinned_lookup_hot; [apply Hok|].
    + apply not_true_iff_false. rewrite existsb_exists. intros (e & Hin & He%bool_decide_eq_true).
      apply Hr. right. apply list_elem_of_fmap. exists e. by rewrite list_elem_of_In.
Qed.

(** A step that leaves [seed] named: anything but a pin without it. *)
Definition keeps_named (seed : Hash256) (w w' : World) : Prop :=
  ∃ lab, engine_step lab w w' ∧ ∀ live next, lab = Some (live, next) → seed ∈ wanted_seeds live next.

Lemma step_keeps_hot lab w w' seed :
  world_ok w → engine_step lab w w' → (∀ live next, lab = Some (live, next) → seed ∈ wanted_seeds live next) →
  hot seed (eng w) → hot seed (eng w').
Proof.
  intros Hw Hstep Hlab Hh. pose proof (wo_table w Hw) as Hok.
  assert (Hsame : ∀ e', pinned e' = pinned (eng w) → hot seed e') by (intros e' Ep; unfold hot; by rewrite Ep).
  destruct Hstep as [w n seed' vm e' Hn Hp|w n seed' key vm e' Hn Hp Hne|w n seed' e' Hn Hp|w n seed' po e' r Hn Hl
    |w n seed' po e' r Hn Hlk Hl|w n seed' po c Hn Hc|w n seed' po e Hn Hc|w n seed' po c Hn|w n seed' po c r Hn Hk
    |w n seed' po c Hn|w n seed' vm Hn|w k|w live next]; cbn [eng]; try (by apply Hsame).
  1-3: apply Hsame; by destruct (pop_idle_ok _ _ _ Hok Hp) as (_ & ? & _).
  1-2: apply Hsame; pose proof (lookup_cache_spec seed' (eng w) Hok) as Hs; rewrite Hl in Hs; by destruct Hs as (_ & ? & _).
  - destruct (wo_build w Hw n _ seed' Hn eq_refl) as [_ Hnr]. pose proof (wo_thread w Hw n _ Hn) as Hc.
    by apply (insert_cache_spec seed' c (eng w) Hok Hnr Hc).
  - apply Hsame. apply release_table.
  - apply (pin_seeds_spec live next (eng w) Hok); [by apply Hlab|by left].
Qed.

(** A peer cannot evict the node's own seeds. While every pin names
    [seed], a filled pinned cache stays, whatever else is acquired, filled or
    demoted meanwhile, and a lookup of it never needs a fill. *)
Theorem pinned_cache_survives w w' seed
    (Hreach : engine_reach w) (Hhot : hot seed (eng w)) (Hrun : rtc (keeps_named seed) w w') :
  hot seed (eng w') ∧ ∃ c, lookup_cache seed (eng w') = (eng w', Some c) ∧ cache_key c = seed.
Proof.
  apply reach_ok in Hreach as Hw.
  assert (Hend : world_ok w' ∧ hot seed (eng w')).
  { clear Hreach. induction Hrun as [|w w1 w' (lab & Hs & Hlab) _ IH]; [done|].
    apply IH; [by eapply step_keeps_hot|by eapply engine_step_ok]. }
  destruct Hend as [Hw' Hh']. split; [done|]. pose proof (wo_table w' Hw') as Hok.
  destruct (proj1 (pinned_lookup_hot seed (eng w') (to_pinned _ Hok)) Hh') as [c Hc].
  pose proof (lookup_cache_spec seed (eng w') Hok) as Hs. unfold lookup_cache in *. rewrite Hc in *.
  exists c. split; [done|]. apply Hs.
Qed.
End Props.
