(* ===== verification/Header.v ===== *)
(** * Block headers

    [chain/primitives/header/src/lib.rs]: the header, its Poseidon2 hash and
    the digest window the import path insists on; and
    [crates/qnero-circuit/src/header.rs], the same hash as the circuit's
    witness computes it. *)

From stdpp Require Import base option list numbers countable.
From S2P Require Import Prelude Crypto.
#[local] Open Scope Z_scope.

(** ** Digests ([sp_runtime::generic::Digest]) *)
Inductive DigestItem :=
| PreRuntime (engine : list Z) (data : list Z)
| Consensus (engine : list Z) (data : list Z)
| DigestSeal (engine : list Z) (data : list Z)
| Other (data : list Z)
| RuntimeEnvironmentUpdated.
#[global] Instance DigestItem_eq_dec : EqDecision DigestItem.
Proof. solve_decision. Defined.
Definition Digest : Type := list DigestItem.

Definition is_reu (i : DigestItem) : bool :=
  match i with RuntimeEnvironmentUpdated => true | _ => false end.

(** The codecs the hash is built from: SCALE on digests, and the two byte
    codecs of [qp_poseidon_core::serialization]. *)
Class HeaderCodec `{PoseidonOps} := {
  digest_encode : Digest → list Z;
  bytes_to_digest_lossy : Hash256 → list felt;
  bytes_to_felts : list Z → list felt;
}.
(** What they document: SCALE encodings are unambiguous byte strings; the
    lossy decode gives four elements and is the strict one on canonical
    digests; the four-bytes-per-element codec is injective and its output
    length is a function of the input's; a [u32] fits a field element. *)
Class HeaderCodecLaws `{HeaderCodec} := {
  digest_encode_inj d1 d2 : digest_encode d1 = digest_encode d2 → d1 = d2;
  lossy_length h : length (bytes_to_digest_lossy h) = 4%nat;
  lossy_strict h fs : bytes_to_digest h = Some fs → bytes_to_digest_lossy h = fs;
  bytes_to_felts_inj a b : bytes_to_felts a = bytes_to_felts b → a = b;
  goldilocks_new_u32_inj a b : in_u 32 a → in_u 32 b → goldilocks_new a = goldilocks_new b → a = b;
}.

Definition DIGEST_LOGS_SIZE : nat := 110.
Definition MAX_ENCODED_DIGEST_SIZE : nat := 111.
Definition LEGACY_DIGEST_CUTOFF : Z := 1000000.

Definition max_encoded_digest_size (block_number : Z) : nat :=
  if block_number <=? LEGACY_DIGEST_CUTOFF then MAX_ENCODED_DIGEST_SIZE else DIGEST_LOGS_SIZE.

(** [Header], with [Number = u32]. *)
Record Header := {
  parent_hash : Hash256;
  number : Z;
  state_root : Hash256;
  extrinsics_root : Hash256;
  zk_tree_root : Hash256;
  digest : Digest;
}.
Definition set_digest (d : Digest) (h : Header) : Header :=
  {| parent_hash := parent_hash h; number := number h; state_root := state_root h;
     extrinsics_root := extrinsics_root h; zk_tree_root := zk_tree_root h; digest := d |}.
Definition set_zk_tree_root (r : Hash256) (h : Header) : Header :=
  {| parent_hash := parent_hash h; number := number h; state_root := state_root h;
     extrinsics_root := extrinsics_root h; zk_tree_root := r; digest := digest h |}.

Section Header.
Context `{HeaderCodec}.

Definition check_digest_commitment_window (d : Digest) (block_number : Z) : result nat unit :=
  let encoded_len := length (digest_encode d) in
  if (encoded_len =? DIGEST_LOGS_SIZE)%nat then Ok tt
  else
    let reu_count := length (base.filter (λ i, is_reu i = true) d) in
    if ((reu_count =? 1) && (encoded_len =? DIGEST_LOGS_SIZE + 1))%nat && (block_number <=? LEGACY_DIGEST_CUTOFF)
    then Ok tt
    else Err encoded_len.

(** The copy into the zeroed window: pad short, drop long. *)
Definition digest_padded (encoded : list Z) : list Z :=
  let copy_len := Nat.min (length encoded) DIGEST_LOGS_SIZE in
  take copy_len encoded ++ replicate (DIGEST_LOGS_SIZE - copy_len) 0.

Definition header_felts (h : Header) : list felt :=
  bytes_to_digest_lossy (parent_hash h) ++ [goldilocks_new (number h mod 2 ^ 32)] ++
  bytes_to_digest_lossy (state_root h) ++ bytes_to_digest_lossy (extrinsics_root h) ++
  bytes_to_digest_lossy (zk_tree_root h) ++ bytes_to_felts (digest_padded (digest_encode (digest h))).

Definition header_hash (h : Header) : Hash256 := hash_to_bytes (header_felts h).
End Header.

(** ** The circuit's header ([qnero-circuit/src/header.rs])

    A [Digest] of the note core is four canonical elements; [F] of plonky2 is
    the same field, and [hash_no_pad] the same sponge. *)
Module CircuitHeader.
Definition DIGEST_LOGS_FELTS : nat := 28.

Record HeaderInputs `{PoseidonOps} := {
  ci_parent_hash : list felt;
  ci_block_number : Z;
  ci_state_root : list felt;
  ci_extrinsics_root : list felt;
  ci_zk_tree_root : list felt;
  ci_digest : list felt;
}.

Inductive HeaderError := BadDigestLength (n : nat) | BadFeltCount (n : nat).

Section Inputs.
Context `{HeaderCodec}.

Definition new (parent : list felt) (block_number : Z) (state ext : Hash256) (zk : list felt)
    (digest_logs : list Z) : result HeaderError HeaderInputs :=
  _ ← ensure (length digest_logs =? DIGEST_LOGS_SIZE)%nat (BadDigestLength (length digest_logs));
  let felts := bytes_to_felts digest_logs in
  _ ← ensure (length felts =? DIGEST_LOGS_FELTS)%nat (BadFeltCount (length felts));
  Ok {| ci_parent_hash := parent; ci_block_number := block_number;
        ci_state_root := bytes_to_digest_lossy state; ci_extrinsics_root := bytes_to_digest_lossy ext;
        ci_zk_tree_root := zk; ci_digest := felts |}.

Definition preimage (i : HeaderInputs) : list felt :=
  ci_parent_hash i ++ [goldilocks_new (ci_block_number i)] ++ ci_state_root i ++
  ci_extrinsics_root i ++ ci_zk_tree_root i ++ ci_digest i.

Definition block_hash (i : HeaderInputs) : Hash256 := hash_to_bytes (preimage i).
End Inputs.
End CircuitHeader.

(** ** Properties *)
Section Properties.
Context `{HeaderCodecLaws} `{!PoseidonLaws}.

(** What an import accepts above the cutoff: the digest fills the window. *)
Definition window_exact (h : Header) : Prop := length (digest_encode (digest h)) = DIGEST_LOGS_SIZE.

Record header_ok (h : Header) : Prop := {
  ho_parent : good_hash (parent_hash h);
  ho_number : in_u 32 (number h);
  ho_zk : good_hash (zk_tree_root h);
}.

Lemma window_accepts h :
  check_digest_commitment_window (digest h) (number h) = Ok tt →
  LEGACY_DIGEST_CUTOFF < number h → window_exact h.
Proof.
  unfold check_digest_commitment_window, window_exact. destruct (Nat.eqb_spec (length (digest_encode (digest h))) DIGEST_LOGS_SIZE); [done|].
  intros Hc Hn. rewrite (proj2 (Z.leb_gt _ _)), andb_false_r in Hc by done. done.
Qed.

Lemma padded_exact l : length l = DIGEST_LOGS_SIZE → digest_padded l = l.
Proof.
  intros Hl. unfold digest_padded. rewrite Hl, Nat.min_id, Nat.sub_diag. cbn [replicate].
  rewrite app_nil_r. apply take_ge. lia.
Qed.

Lemma good_decodes h : good_hash h → ∃ fs, bytes_to_digest h = Some fs ∧ bytes_to_digest_lossy h = fs.
Proof.
  intros [Hd Hc]. apply bytes_to_digest_Some in Hc as [fs Hfs]; [|done]. exists fs. split; [done|by apply lossy_strict].
Qed.

Lemma lossy_inj a b : good_hash a → good_hash b → bytes_to_digest_lossy a = bytes_to_digest_lossy b → a = b.
Proof.
  intros Ha Hb Hab. destruct (good_decodes a Ha) as (fa & Ea & La). destruct (good_decodes b Hb) as (fb & Eb & Lb).
  destruct Ha, Hb. eapply (bytes_to_digest_inj a b fa); [done|done|done|]. rewrite Eb. congruence.
Qed.

(** C28: an accepted header is bound by its hash. For two headers above the
    cutoff that pass the digest window, equal hashes mean equal parents,
    numbers, tree roots and digests (and roots that agree modulo the field),
    or a collision of the sponge; so no byte of the seal or of the author
    label can be changed under a block's hash. *)
Theorem header_hash_binds h1 h2
    (Hok1 : header_ok h1) (Hok2 : header_ok h2)
    (Hw1 : check_digest_commitment_window (digest h1) (number h1) = Ok tt)
    (Hw2 : check_digest_commitment_window (digest h2) (number h2) = Ok tt)
    (Hc1 : LEGACY_DIGEST_CUTOFF < number h1) (Hc2 : LEGACY_DIGEST_CUTOFF < number h2)
    (Heq : header_hash h1 = header_hash h2) :
  (parent_hash h1 = parent_hash h2 ∧ number h1 = number h2 ∧ zk_tree_root h1 = zk_tree_root h2 ∧
   digest h1 = digest h2 ∧
   bytes_to_digest_lossy (state_root h1) = bytes_to_digest_lossy (state_root h2) ∧
   bytes_to_digest_lossy (extrinsics_root h1) = bytes_to_digest_lossy (extrinsics_root h2)) ∨
  (header_felts h1 ≠ header_felts h2 ∧ hash_to_bytes (header_felts h1) = hash_to_bytes (header_felts h2)).
Proof.
  destruct (decide (header_felts h1 = header_felts h2)) as [Hf|Hf]; [left|by right].
  apply window_accepts in Hw1, Hw2; try done. unfold header_felts in Hf.
  apply app_inj_1 in Hf as [Hp Hf]; [|by rewrite !lossy_length].
  apply app_inj_1 in Hf as [Hn Hf]; [|done].
  apply app_inj_1 in Hf as [Hs Hf]; [|by rewrite !lossy_length].
  apply app_inj_1 in Hf as [He Hf]; [|by rewrite !lossy_length].
  apply app_inj_1 in Hf as [Hz Hf]; [|by rewrite !lossy_length].
  apply bytes_to_felts_inj in Hf. rewrite !padded_exact in Hf by done.
  destruct Hok1 as [P1 N1 Z1], Hok2 as [P2 N2 Z2]. unfold in_u in *. injection Hn as Hn.
  rewrite !Z.mod_small in Hn by done.
  split_and!; [by apply lossy_inj|by apply goldilocks_new_u32_inj|by apply lossy_inj|by apply digest_encode_inj|done|done].
Qed.

(** The circuit hashes the chain's header. From the fields of a header
    with an exact digest window the wallet's witness is always built, and its
    block hash is the chain's. *)
Theorem circuit_hash_is_the_chains h pf zf
    (Hok : header_ok h) (Hw : window_exact h)
    (Hlen : length (bytes_to_felts (digest_encode (digest h))) = CircuitHeader.DIGEST_LOGS_FELTS)
    (Hp : bytes_to_digest (parent_hash h) = Some pf) (Hz : bytes_to_digest (zk_tree_root h) = Some zf) :
  ∃ i, CircuitHeader.new pf (number h) (state_root h) (extrinsics_root h) zf (digest_encode (digest h)) = Ok i ∧
    CircuitHeader.block_hash i = header_hash h.
Proof.
  unfold CircuitHeader.new. rewrite (proj2 (Nat.eqb_eq _ _) Hw). cbn [ensure mbind result_bind].
  rewrite (proj2 (Nat.eqb_eq _ _) Hlen). cbn [ensure mbind result_bind]. eexists. split; [done|].
  unfold CircuitHeader.block_hash, CircuitHeader.preimage, header_hash, header_felts.
  cbn [CircuitHeader.ci_parent_hash CircuitHeader.ci_block_number CircuitHeader.ci_state_root
       CircuitHeader.ci_extrinsics_root CircuitHeader.ci_zk_tree_root CircuitHeader.ci_digest].
  rewrite padded_exact by done. rewrite (lossy_strict _ _ Hp), (lossy_strict _ _ Hz).
  destruct Hok as [_ Hn _]. by rewrite Z.mod_small.
Qed.
End Properties.

(** ** A concrete codec, for the witnesses *)
Module ToyHeader.
Import ToyCrypto.

Definition tag_of (i : DigestItem) : Z :=
  match i with Other _ => 0 | Consensus _ _ => 4 | DigestSeal _ _ => 5 | PreRuntime _ _ => 6 | RuntimeEnvironmentUpdated => 8 end.
Definition framed (l : list Z) : list Z := Z.of_nat (length l) :: l.
Definition item_encode (i : DigestItem) : list Z :=
  tag_of i ::
  match i with
  | PreRuntime e d | Consensus e d | DigestSeal e d => framed e ++ framed d
  | Other d => framed d
  | RuntimeEnvironmentUpdated => []
  end.

Fixpoint chunks4 (l : list Z) : list (list Z) :=
  match l with
  | a :: b :: c :: d :: r => [a; b; c; d] :: chunks4 r
  | [] => []
  | r => [r]
  end.

#[global] Instance header_codec : HeaderCodec := {|
  digest_encode d := concat (item_encode <$> d);
  bytes_to_digest_lossy h := limbs h;
  bytes_to_felts l := (λ c, Zpos (encode c)) <$> chunks4 l;
|}.

Lemma framed_inj a b r1 r2 : framed a ++ r1 = framed b ++ r2 → a = b ∧ r1 = r2.
Proof. cbn. intros [= Hl Hr]. apply app_inj_1 in Hr; [done|lia]. Qed.

Lemma item_encode_inj i j r1 r2 : item_encode i ++ r1 = item_encode j ++ r2 → i = j ∧ r1 = r2.
Proof.
  destruct i, j; cbn [item_encode tag_of app]; intros Heq; try discriminate; apply (f_equal tail) in Heq;
    cbn [tail] in Heq.
  1-3: rewrite <- !app_assoc in Heq; apply framed_inj in Heq as [-> Heq]; apply framed_inj in Heq as [-> ->]; done.
  - by apply framed_inj in Heq as [-> ->].
  - done.
Qed.

Lemma digest_encode_toy_inj d1 d2 : concat (item_encode <$> d1) = concat (item_encode <$> d2) → d1 = d2.
Proof.
  revert d2. induction d1 as [|i d1 IH]; intros [|j d2]; [done|by destruct j|by destruct i|].
  cbn [fmap list_fmap concat]. intros [-> Heq]%item_encode_inj. by rewrite (IH d2).
Qed.

Lemma chunks4_concat : ∀ l, concat (chunks4 l) = l.
Proof.
  fix IH 1. intros [|a [|b [|c [|d r]]]]; [done..|]. cbn [chunks4 concat app]. by rewrite (IH r).
Qed.

#[global] Instance header_codec_laws : HeaderCodecLaws.
Proof.
  constructor; cbn -[limbs].
  - apply digest_encode_toy_inj.
  - done.
  - intros h fs. destruct (canonical_limbs h); [by intros [= <-]|done].
  - intros a b Hab. rewrite <- (chunks4_concat a), <- (chunks4_concat b). f_equal.
    revert Hab. apply list_fmap_eq_inj. intros x y [= ?]. by apply (inj encode).
  - intros a b Ha Hb. unfold in_u in *. rewrite !Z.mod_small; [done|split; [lia|]..].
    all: etrans; [apply Hb || apply Ha|done].
Qed.

Definition label : list Z := replicate 32 7.
Definition pow_engine : list Z := [112; 111; 119; 95].
Definition sealed (n : Z) : Header :=
  {| parent_hash := zero_hash; number := n; state_root := zero_hash; extrinsics_root := zero_hash;
     zk_tree_root := zero_hash; digest := [PreRuntime pow_engine label; DigestSeal pow_engine (replicate 64 0)] |}.

Lemma zero_good : good_hash zero_hash.
Proof. split; [apply is_digest_zero|by vm_compute]. Qed.
Lemma sealed_ok n : in_u 32 n → header_ok (sealed n).
Proof. intros ?. split; [apply zero_good|done|apply zero_good]. Qed.

Lemma header_hash_binds_witness :
  check_digest_commitment_window (digest (sealed 1000001)) 1000001 = Ok tt ∧
  (number (sealed 1000001) = number (sealed 1000001) ∨ header_felts (sealed 1000001) ≠ header_felts (sealed 1000001)).
Proof.
  split; [by vm_compute|].
  destruct (header_hash_binds (sealed 1000001) (sealed 1000001)) as [(_ & Hn & _)|[Hne _]];
    [apply sealed_ok; by vm_compute|apply sealed_ok; by vm_compute|by vm_compute|by vm_compute|by vm_compute|by vm_compute
    |done|by left|by right].
Defined.

Definition zero_felts : list (@felt poseidon_ops) := limbs zero_hash.
Lemma circuit_hash_is_the_chains_witness :
  ∃ i, CircuitHeader.new (zero_felts) 5 zero_hash zero_hash (zero_felts) (digest_encode (digest (sealed 5))) = Ok i ∧
    CircuitHeader.block_hash i = header_hash (sealed 5).
Proof.
  apply (circuit_hash_is_the_chains (sealed 5) (zero_felts) (zero_felts));
    [apply sealed_ok; by vm_compute|by vm_compute|by vm_compute|by vm_compute|by vm_compute].
Defined.
End ToyHeader.
