(* ===== verification/PowImport.v ===== *)
(** * Verifying and importing blocks

    [chain/client/consensus/randomx/src/lib.rs]: resolving a block's seed, the
    position check, [verify_pow] with its admission budgets, [PowVerifier] and
    [PowBlockImport::import_block]; and the cumulative work of
    [chain_management.rs]. The Substrate client is the interface [PowClient]:
    its database, its runtime calls and the inner block import. *)

From stdpp Require Import base option list numbers gmap.
From S2P Require Import Prelude Crypto RandomX Admission SeedCache Header.
#[local] Open Scope Z_scope.

Definition POW_ENGINE_ID : list Z := [112; 111; 119; 95].
(** [b"QPow:AchievedWork:"]. *)
Definition ACHIEVED_WORK_PREFIX : list Z :=
  [81; 80; 111; 119; 58; 65; 99; 104; 105; 101; 118; 101; 100; 87; 111; 114; 107; 58].

(** [sp_blockchain::Info], the fields that are read. *)
Record Info := {
  best_hash : Hash256;
  best_number : Z;
  finalized_number : Z;
  finalized_hash : Hash256;
  genesis_hash : Hash256;
  block_gap : option Z;
}.

Inductive ImportResult := Imported | AlreadyInChain | KnownBad | MissingState | ImportUnknownParent.

(** [BlockImportParams], the fields that are read; [refusal] is the
    [SIDE_BRANCH_REFUSAL] intermediate. *)
Record BlockImportParams (Body R : Type) := {
  bip_header : Header;
  post_digests : list DigestItem;
  body : option Body;
  skip_execution_checks : bool;
  fork_choice : option bool;
  refusal : option R;
}.
Arguments bip_header {Body R}. Arguments post_digests {Body R}. Arguments body {Body R}.
Arguments skip_execution_checks {Body R}. Arguments fork_choice {Body R}. Arguments refusal {Body R}.

(** ** Errors *)
Record SideBranchRefusal := {
  sr_height : Z; sr_parent : Hash256; sr_difficulty : Z; sr_tip_difficulty : Z; sr_fraction : Z;
  sr_retry_after_secs : Z;
}.
Record SeedFillRefusal := {
  fr_height : Z; fr_parent : Hash256; fr_seed : Hash256; fr_seed_height : Z; fr_retry_after_secs : Z;
}.
Inductive PowError (X EE : Type) :=
| WrongEngine (id : list Z)
| HeaderUnsealed (h : Hash256)
| InvalidSeal
| MalformedSeal (e : SealError)
| DigestWindowMismatch (n : nat)
| SeedUnreachable (height : Z)
| UnknownParent (h : Hash256)
| HeightMismatch (height parent_number : Z)
| BelowFinalized (height finalized : Z)
| SideBranchBudgetExhausted (r : SideBranchRefusal)
| SeedFillBudgetExhausted (r : SeedFillRefusal)
| EngineFailed (e : EngineError EE)
| ClientFailed (x : X)
| RuntimeFailed (x : X)
| OtherFailed (x : X).
Arguments WrongEngine {X EE}. Arguments HeaderUnsealed {X EE}. Arguments InvalidSeal {X EE}.
Arguments MalformedSeal {X EE}. Arguments DigestWindowMismatch {X EE}. Arguments SeedUnreachable {X EE}.
Arguments UnknownParent {X EE}. Arguments HeightMismatch {X EE}. Arguments BelowFinalized {X EE}.
Arguments SideBranchBudgetExhausted {X EE}. Arguments SeedFillBudgetExhausted {X EE}.
Arguments EngineFailed {X EE}. Arguments ClientFailed {X EE}. Arguments RuntimeFailed {X EE}.
Arguments OtherFailed {X EE}.

(** ** The client *)
Class PowClient (C X Body : Type) := {
  info : C → Info;
  client_number : C → Hash256 → result X (option Z);
  client_hash : C → Z → result X (option Hash256);
  client_header : C → Hash256 → result X (option Header);
  in_chain : C → Hash256 → bool;
  get_difficulty : C → Hash256 → result X Z;
  get_seed_epoch_blocks : C → Hash256 → result X Z;
  get_seed_epoch_lag : C → Hash256 → result X Z;
  (** The inherent check of a body against its parent's runtime. *)
  check_inherents : C → Hash256 → Header → Body → result X unit;
  get_aux : C → list Z → result X (option (list Z));
  insert_aux : list (list Z * list Z) → list (list Z) → C → C * result X unit;
  inner_import : ∀ {R}, BlockImportParams Body R → C → C * result X ImportResult;
}.

Section Pow.
Context {C X Body Cache VM EE : Type} `{PowClient C X Body, RandomXOps Cache VM EE, HeaderCodec}.
Implicit Types (cl : C) (eng : Engine Cache VM).
#[local] Abbreviation PErr := (PowError X EE).
#[local] Abbreviation M := (result PErr).
#[local] Abbreviation Params := (BlockImportParams Body PErr).

(** ** Cumulative work ([chain_management.rs]) *)
Definition work_key (block_hash : Hash256) : list Z := ACHIEVED_WORK_PREFIX ++ block_hash.

Definition store_cumulative_achieved_work (block_hash : Hash256) (work : Z) cl : C * result X unit :=
  insert_aux [(work_key block_hash, le_bytes 64 work)] [] cl.

(** [U512::decode] reads sixty-four bytes. *)
Definition decode_u512 (bytes : list Z) : option Z :=
  if (64 <=? length bytes)%nat then Some (le_val (take 64 bytes)) else None.

(** [decode_error] is the message of a failed decode. *)
Definition get_cumulative_achieved_work (decode_error : X) (block_hash : Hash256) cl : result X Z :=
  o ← get_aux cl (work_key block_hash);
  match o with
  | Some bytes => ok_or (decode_u512 bytes) decode_error
  | None => Ok 0
  end.

Definition delete_cumulative_achieved_work (block_hash : Hash256) cl : C * result X unit :=
  insert_aux [] [work_key block_hash] cl.

Definition initialize_genesis_achieved_work (decode_error no_genesis : X) cl : C * result X unit :=
  match client_hash cl 0 with
  | Err e => (cl, Err e)
  | Ok None => (cl, Err no_genesis)
  | Ok (Some genesis) =>
      match get_cumulative_achieved_work decode_error genesis cl with
      | Err e => (cl, Err e)
      | Ok existing =>
          if negb (existing =? 0) then (cl, Ok tt) else store_cumulative_achieved_work genesis 1 cl
      end
  end.

Definition ensure_pow_database (refused : X) cl : result X unit :=
  let i := info cl in
  if negb (finalized_number i =? 0) || negb (bool_decide (finalized_hash i = genesis_hash i))
  then Err refused else Ok tt.

(** ** Seeds *)
(** [BackendView]. *)
Definition backend_view cl : ChainView X Hash256 :=
  {| canonical_hash := client_hash cl;
     parent_of := λ h, match client_header cl h with Ok o => Ok (option_map parent_hash o) | Err e => Err e end |}.

Definition hash_at_ancestor cl (parent : Hash256) (height target_height max_walk : Z) : M Hash256 :=
  o ← map_err OtherFailed (resolve_on_branch (backend_view cl) parent height target_height max_walk);
  ok_or o (SeedUnreachable target_height).

Definition seed_hashes cl (parent : Hash256) (height : Z) : M (Hash256 * Hash256 * Z) :=
  epoch ← map_err RuntimeFailed (get_seed_epoch_blocks cl parent);
  lag ← map_err RuntimeFailed (get_seed_epoch_lag cl parent);
  let sh := seed_height height epoch lag in
  let nsh := next_seed_height height epoch lag in
  seed ← hash_at_ancestor cl parent height sh (epoch + lag);
  next ← (if nsh =? sh then Ok seed else hash_at_ancestor cl parent height nsh (epoch + lag));
  Ok (seed, next, sh).

(** ** The position *)
Definition check_header_position cl (parent : Hash256) (height : Z) (block_hash : Hash256) : M unit :=
  o ← map_err ClientFailed (client_number cl parent);
  parent_number ← ok_or o (UnknownParent parent);
  _ ← ensure (height =? sat_add 64 parent_number 1) (HeightMismatch height parent_number);
  let i := info cl in
  if finalized_number i <? height then Ok tt
  else if bool_decide (block_gap i = Some height) || in_chain cl block_hash then Ok tt
  else Err (BelowFinalized height (finalized_number i)).

(** ** [check_seal] and [verify_pow] *)
Definition check_seal (pre_hash : Hash256) (height : Z) (seed : Hash256) (seal : Seal) (difficulty : Z) eng :
    Engine Cache VM * M Hash256 :=
  let blob := build_blob pre_hash height (seal_extra_nonce seal) (seal_nonce seal) in
  match engine_hash seed blob eng with
  | (eng, Err e) => (eng, Err (EngineFailed e))
  | (eng, Ok hash) => (eng, if meets_difficulty hash difficulty then Ok hash else Err InvalidSeal)
  end.

Definition as_secs (d : Z) : Z := d / 1000000000.

(** The classification of a budgeted run. *)
Definition classify_block cl (parent : Hash256) (difficulty : Z) (b : option AdmissionBudgets) :
    option AdmissionBudgets * M (option SideBranchClass) :=
  match b with
  | None => (None, Ok None)
  | Some b =>
      match classify (best_hash (info cl), best_number (info cl)) (get_difficulty cl) parent difficulty b with
      | (b, Ok class) => (Some b, Ok (Some class))
      | (b, Err e) => (Some b, Err (OtherFailed e))
      end
  end.

(** The seed-fill token, drawn before the fill. *)
Definition charge_fill eng (now : Z) (height : Z) (parent seed : Hash256) (sh : Z)
    (b : option AdmissionBudgets) (class : option SideBranchClass) : option AdmissionBudgets * M unit :=
  match b, class with
  | Some b, Some class =>
      if negb (bool_decide (class = ExtendsTip)) && negb (is_pinned_identity seed eng) && negb (is_resident seed eng)
      then
        match charge_seed_fill now b with
        | (b, Ok _) => (Some b, Ok tt)
        | (b, Err retry) =>
            (Some b, Err (SeedFillBudgetExhausted
              {| fr_height := height; fr_parent := parent; fr_seed := seed; fr_seed_height := sh;
                 fr_retry_after_secs := as_secs retry |}))
        end
      else (Some b, Ok tt)
  | b, _ => (b, Ok tt)
  end.

(** The side-branch token, drawn once the seal is proven. *)
Definition charge_branch (now : Z) (height : Z) (parent : Hash256) (difficulty : Z)
    (b : option AdmissionBudgets) (class : option SideBranchClass) : option AdmissionBudgets * M unit :=
  match b, class with
  | Some b, Some class =>
      match charge_side_branch class now b with
      | (b, Ok _) => (Some b, Ok tt)
      | (b, Err retry) =>
          (Some b, Err (SideBranchBudgetExhausted
            {| sr_height := height; sr_parent := parent; sr_difficulty := difficulty;
               sr_tip_difficulty := match class with Cheap t => t | _ => 0 end;
               sr_fraction := SIDE_BRANCH_DIFFICULTY_FRACTION; sr_retry_after_secs := as_secs retry |}))
      end
  | b, _ => (b, Ok tt)
  end.

Definition verify_pow cl (now : Z) (parent : Hash256) (height : Z) (pre_hash block_hash : Hash256)
    (seal_bytes : list Z) (b : option AdmissionBudgets) eng :
    Engine Cache VM * option AdmissionBudgets * M Z :=
  let prologue : M (Seal * Z) :=
    seal ← map_err MalformedSeal (seal_decode seal_bytes);
    _ ← check_header_position cl parent height block_hash;
    difficulty ← map_err RuntimeFailed (get_difficulty cl parent);
    Ok (seal, difficulty) in
  match prologue with
  | Err e => (eng, b, Err e)
  | Ok (seal, difficulty) =>
      match classify_block cl parent difficulty b with
      | (b, Err e) => (eng, b, Err e)
      | (b, Ok class) =>
          match seed_hashes cl parent height with
          | Err e => (eng, b, Err e)
          | Ok (seed, _, sh) =>
              match charge_fill eng now height parent seed sh b class with
              | (b, Err e) => (eng, b, Err e)
              | (b, Ok _) =>
                  match check_seal pre_hash height seed seal difficulty eng with
                  | (eng, Err e) => (eng, b, Err e)
                  | (eng, Ok _) =>
                      match charge_branch now height parent difficulty b class with
                      | (b, Err e) => (eng, b, Err e)
                      | (b, Ok _) => (eng, b, Ok difficulty)
                      end
                  end
              end
          end
      end
  end.

(** ** The seal in the header *)
Definition fetch_seal (d : option DigestItem) (hash : Hash256) : M (list Z) :=
  match d with
  | Some (DigestSeal id seal) => if bool_decide (id = POW_ENGINE_ID) then Ok seal else Err (WrongEngine id)
  | _ => Err (HeaderUnsealed hash)
  end.

(** [post_header]: the header with the post digests back on. *)
Definition post_header (p : Params) : Header :=
  set_digest (digest (bip_header p) ++ post_digests p) (bip_header p).

Definition put_params (h : Header) (pd : list DigestItem) (fc : option bool) (r : option PErr) (p : Params) : Params :=
  {| bip_header := h; post_digests := pd; body := body p; skip_execution_checks := skip_execution_checks p;
     fork_choice := fc; refusal := r |}.

Definition extract_pow_seal (p : Params) : M Params :=
  let h := bip_header p in
  _ ← map_err DigestWindowMismatch (check_digest_commitment_window (digest h) (number h));
  let hash := header_hash h in
  match last (digest h) with
  | Some (DigestSeal id seal) =>
      if bool_decide (id = POW_ENGINE_ID) then
        _ ← map_err MalformedSeal (seal_decode seal);
        Ok (put_params (set_digest (removelast (digest h)) h) (post_digests p ++ [DigestSeal id seal])
              (fork_choice p) (refusal p) p)
      else Err (WrongEngine id)
  | _ => Err (HeaderUnsealed hash)
  end.

(** ** [PowVerifier::verify] *)
Definition is_side_branch_refusal (e : PErr) : bool :=
  match e with SideBranchBudgetExhausted _ => true | _ => false end.
Definition budget_of (e : PErr) : option Budget :=
  match e with
  | SideBranchBudgetExhausted _ => Some SideBranch
  | SeedFillBudgetExhausted _ => Some SeedFill
  | _ => None
  end.

Definition warn (now : Z) (e : PErr) (b : AdmissionBudgets) : AdmissionBudgets :=
  match budget_of e with Some budget => (should_warn budget now b).1 | None => b end.

Definition verify cl (now : Z) (p : Params) (b : AdmissionBudgets) eng :
    Engine Cache VM * AdmissionBudgets * M Params :=
  match
    (p ← extract_pow_seal p;
     seal ← fetch_seal (last (post_digests p)) (header_hash (bip_header p));
     Ok (p, seal)) : M (Params * list Z)
  with
  | Err e => (eng, b, Err e)
  | Ok (p, seal) =>
      let h := bip_header p in
      let '(eng, b', verdict) :=
        verify_pow cl now (parent_hash h) (number h) (header_hash h) (header_hash (post_header p)) seal (Some b) eng in
      let b := default b b' in
      match verdict with
      | Ok _ => (eng, b, Ok p)
      | Err e =>
          if is_side_branch_refusal e
          then (eng, warn now e b, Ok (put_params h (post_digests p) (fork_choice p) (Some e) p))
          else (eng, warn now e b, Err e)
      end
  end.

(** ** [PowBlockImport::import_block]

    Everything before the import lock reads the client; the rest runs under
    the lock. *)
Record Prepared := { pr_params : Params; pr_new_work : Z }.

Definition import_prepare (decode_error : X) cl (now : Z) (p : Params) eng : Engine Cache VM * M Prepared :=
  let prologue : M (list Z) :=
    _ ← (match refusal p with Some e => Err e | None => Ok tt end);
    _ ← map_err DigestWindowMismatch (check_digest_commitment_window (digest (post_header p)) (number (bip_header p)));
    _ ← (match body p with
         | Some inner_body =>
             if skip_execution_checks p then Ok tt
             else map_err ClientFailed (check_inherents cl (parent_hash (bip_header p)) (bip_header p) inner_body)
         | None => Ok tt
         end);
    fetch_seal (last (post_digests p)) (header_hash (bip_header p)) in
  match prologue with
  | Err e => (eng, Err e)
  | Ok seal =>
      let h := bip_header p in
      let '(eng, _, verdict) :=
        verify_pow cl now (parent_hash h) (number h) (header_hash h) (header_hash (post_header p)) seal None eng in
      (eng,
       achieved ← verdict;
       parent_work ← map_err OtherFailed (get_cumulative_achieved_work decode_error (parent_hash h) cl);
       Ok {| pr_params := p; pr_new_work := sat_add 512 parent_work achieved |})
  end.

Definition import_commit (decode_error : X) (pr : Prepared) cl eng : C * Engine Cache VM * M ImportResult :=
  let p := pr_params pr in
  let i := info cl in
  match get_cumulative_achieved_work decode_error (best_hash i) cl with
  | Err e => (cl, eng, Err (OtherFailed e))
  | Ok current_best_work =>
      let is_best := is_heavier (pr_new_work pr) (number (bip_header p)) current_best_work (best_number i) in
      let p := put_params (bip_header p) (post_digests p) (Some is_best) (refusal p) p in
      let block_hash := header_hash (post_header p) in
      match store_cumulative_achieved_work block_hash (pr_new_work pr) cl with
      | (cl, Err e) => (cl, eng, Err (ClientFailed e))
      | (cl, Ok _) =>
          match inner_import p cl with
          | (cl, Err e) => ((delete_cumulative_achieved_work block_hash cl).1, eng, Err (ClientFailed e))
          | (cl, Ok result) =>
              let i := info cl in
              let eng :=
                if bool_decide (best_hash i = block_hash) then
                  match seed_hashes cl (best_hash i) (sat_add 64 (best_number i) 1) with
                  | Ok (seed, next, _) => pin_seeds seed next eng
                  | Err _ => eng
                  end
                else eng in
              (cl, eng, Ok result)
          end
      end
  end.

Definition import_block (decode_error : X) (now : Z) (p : Params) cl eng : C * Engine Cache VM * M ImportResult :=
  match import_prepare decode_error cl now p eng with
  | (eng, Err e) => (cl, eng, Err e)
  | (eng, Ok pr) => import_commit decode_error pr cl eng
  end.
End Pow.
