(* ===== verification/PowImportProps.v ===== *)
(** * Properties of verification and import

    [verify_pow] against the declarative rule [pow_valid], what the admission
    budgets can and cannot change, the agreement of the verifier and the
    importer, and the fork choice over interleaved imports. *)

From stdpp Require Import base option list numbers gmap.
From S2P Require Import Prelude Crypto RandomX Admission SeedCache SeedCacheProps Header PowImport.
#[local] Open Scope Z_scope.

Section Verify.
Context {C X Body Cache VM EE : Type} `{PowClient C X Body} `{RandomXLaws Cache VM EE} `{HeaderCodec}.
Implicit Types (cl : C) (eng : Engine Cache VM).
#[local] Abbreviation PErr := (PowError X EE).
#[local] Abbreviation Params := (BlockImportParams Body PErr).

(** The rule itself: no cache, no budget, no pool. *)
Definition pow_valid cl (parent : Hash256) (height : Z) (pre_hash block_hash : Hash256) (seal_bytes : list Z)
    (d : Z) : Prop :=
  ∃ seal seed next sh,
    seal_decode seal_bytes = Ok seal ∧
    check_header_position (EE := EE) cl parent height block_hash = Ok tt ∧
    get_difficulty cl parent = Ok d ∧
    seed_hashes (EE := EE) cl parent height = Ok (seed, next, sh) ∧
    meets_difficulty (rx seed (build_blob pre_hash height (seal_extra_nonce seal) (seal_nonce seal))) d = true.

Definition is_budget_refusal (e : PErr) : bool := match budget_of e with Some _ => true | None => false end.

Lemma check_seal_spec pre_hash height seed seal d eng :
  table_ok eng →
  let '(eng', r) := check_seal (X := X) (EE := EE) pre_hash height seed seal d eng in
  table_ok eng' ∧
  match r with
  | Ok _ => meets_difficulty (rx seed (build_blob pre_hash height (seal_extra_nonce seal) (seal_nonce seal))) d = true
  | Err InvalidSeal =>
      meets_difficulty (rx seed (build_blob pre_hash height (seal_extra_nonce seal) (seal_nonce seal))) d = false
  | Err e => ∃ e', e = EngineFailed e'
  end.
Proof.
  intros Hok. unfold check_seal. set (blob := build_blob _ _ _ _).
  pose proof (engine_hash_spec (E := EE) seed blob eng Hok) as Hh.
  destruct (engine_hash seed blob eng) as [eng' [h|e]]; destruct Hh as (Hok' & _ & Hrx); (split; [done|]); [|by eexists].
  rewrite <- (Hrx h eq_refl). by destruct (meets_difficulty h d) eqn:Hm.
Qed.

Lemma classify_block_Err cl parent d b b' e :
  classify_block (EE := EE) cl parent d b = (b', Err e) → b ≠ None ∧ ∃ x, e = OtherFailed x.
Proof.
  unfold classify_block. destruct b as [a|]; [|done]. destruct (classify _ _ _ _ _) as [a' [c|x]]; [done|].
  intros [= _ <-]. split; [done|by eexists].
Qed.

Lemma charge_fill_Err eng now height parent seed sh b class b' e :
  charge_fill (X := X) (EE := EE) eng now height parent seed sh b class = (b', Err e) →
  b ≠ None ∧ budget_of e = Some SeedFill.
Proof.
  unfold charge_fill. destruct b as [a|]; [|by destruct class]. destruct class as [c|]; [|done].
  destruct (_ && _); [|done]. destruct (charge_seed_fill now a) as [a' [x|x]]; [done|]. by intros [= _ <-].
Qed.

Lemma charge_branch_Err now height parent d b class b' e :
  charge_branch (X := X) (EE := EE) now height parent d b class = (b', Err e) →
  b ≠ None ∧ budget_of e = Some SideBranch ∧ is_side_branch_refusal e = true.
Proof.
  unfold charge_branch. destruct b as [a|]; [|by destruct class]. destruct class as [c|]; [|done].
  destruct (charge_side_branch c now a) as [a' [x|x]]; [done|]. by intros [= _ <-].
Qed.

(** The errors of the resolving half are not policy. *)
Definition not_policy (e : PErr) : Prop := budget_of e = None.

Lemma position_errs cl parent height block_hash : errs_in not_policy (check_header_position cl parent height block_hash).
Proof.
  unfold check_header_position. errs_step; [done|]. intros o _. errs_step; [done|]. intros pn _. errs_step; [done|].
  intros _. destruct (_ <? _); [done|]. by destruct (_ || _).
Qed.

Lemma hash_at_ancestor_errs cl parent height target walk :
  errs_in not_policy (hash_at_ancestor cl parent height target walk).
Proof. unfold hash_at_ancestor. errs_step; [done|]. intros [h|] _; done. Qed.

Lemma seed_hashes_errs cl parent height : errs_in not_policy (seed_hashes cl parent height).
Proof.
  unfold seed_hashes. errs_step; [done|]. intros epoch _. errs_step; [done|]. intros lag _.
  apply errs_in_bind; [apply hash_at_ancestor_errs|]. intros seed _. apply errs_in_bind; [|done].
  case_match; [done|apply hash_at_ancestor_errs].
Qed.

Lemma prologue_errs cl parent height block_hash seal_bytes :
  errs_in not_policy
    (seal ← map_err MalformedSeal (seal_decode seal_bytes);
     _ ← check_header_position cl parent height block_hash;
     difficulty ← map_err RuntimeFailed (get_difficulty cl parent);
     Ok (seal, difficulty)).
Proof.
  errs_step; [done|]. intros seal _. apply errs_in_bind; [apply position_errs|]. intros _ _. by errs_step.
Qed.

(** Everything [verify_pow] resolves before it looks at budgets or hashes. *)
Lemma prologue_Ok cl parent height block_hash seal_bytes seal d :
  (seal ← map_err MalformedSeal (seal_decode seal_bytes);
   _ ← check_header_position cl parent height block_hash;
   difficulty ← map_err RuntimeFailed (get_difficulty cl parent);
   Ok (seal, difficulty)) = Ok (E := PErr) (seal, d) ↔
  seal_decode seal_bytes = Ok seal ∧ check_header_position (EE := EE) cl parent height block_hash = Ok tt ∧
  get_difficulty cl parent = Ok d.
Proof.
  split.
  - intros (s & Hs%map_err_Ok & Hr)%bind_Ok. apply bind_Ok in Hr as ([] & Hp & Hr).
    apply bind_Ok in Hr as (d' & Hd%map_err_Ok & [= <- <-]). done.
  - intros (-> & -> & ->). done.
Qed.

Lemma verify_pow_rule cl now parent height pre_hash block_hash seal_bytes b eng (Hok : table_ok eng) :
  let '(eng', _, r) := verify_pow cl now parent height pre_hash block_hash seal_bytes b eng in
  table_ok eng' ∧
  (∀ d, r = Ok d → pow_valid cl parent height pre_hash block_hash seal_bytes d) ∧
  (∀ d, pow_valid cl parent height pre_hash block_hash seal_bytes d →
     r = Ok d ∨ (∃ e, r = Err (EngineFailed e)) ∨
     (b ≠ None ∧ ∃ e, r = Err e ∧ (is_budget_refusal e = true ∨ ∃ x, e = OtherFailed x))).
Proof.
  unfold verify_pow. cbv zeta. destruct (_ : result PErr (Seal * Z)) as [[seal d]|e] eqn:Hpro.
  2: { split_and!; [done|done|]. intros d (seal & seed & next & sh & H1' & H2' & H3' & _).
       rewrite (proj2 (prologue_Ok cl parent height block_hash seal_bytes seal d)) in Hpro by done. done. }
  apply prologue_Ok in Hpro as (Hs & Hp & Hd).
  destruct (classify_block cl parent d b) as [b1 [class|e]] eqn:Hcl.
  2: { apply classify_block_Err in Hcl as [Hb [x ->]]. split_and!; [done|done|]. intros. right; right. eauto 6. }
  assert (Hb1 : b1 ≠ None → b ≠ None).
  { intros ? ->. cbn in Hcl. by injection Hcl as <- _. }
  destruct (seed_hashes cl parent height) as [[[seed next] sh]|e] eqn:Hseed.
  2: { split_and!; [done|done|]. intros d' (? & ? & ? & ? & _ & _ & _ & Hsd & _). congruence. }
  destruct (charge_fill eng now height parent seed sh b1 class) as [b2 [[]|e]] eqn:Hf.
  2: { apply charge_fill_Err in Hf as [? Hbo]. split_and!; [done|done|]. intros. right; right. split; [auto|].
       exists e. split; [done|]. left. unfold is_budget_refusal. by rewrite Hbo. }
  pose proof (check_seal_spec pre_hash height seed seal d eng Hok) as Hc.
  destruct (check_seal pre_hash height seed seal d eng) as [eng' [h|e]]; destruct Hc as [Hok' Hc].
  2: { split_and!; [done|done|]. intros d' (s' & seed' & n' & sh' & Hs' & _ & Hd' & Hsd' & Hm).
       rewrite Hs in Hs'. rewrite Hd in Hd'. rewrite Hseed in Hsd'. simplify_eq. right; left.
       destruct e; first [congruence|naive_solver]. }
  destruct (charge_branch now height parent d b2 class) as [b3 [[]|e]] eqn:Hcb.
  - split_and!; [done| |].
    + intros d' [= <-]. by exists seal, seed, next, sh.
    + intros d' (? & ? & ? & ? & _ & _ & Hd' & _). left. congruence.
  - apply charge_branch_Err in Hcb as (Hb2 & Hbo & _). split_and!; [done|done|]. intros. right; right.
    split; [|exists e; split; [done|left; unfold is_budget_refusal; by rewrite Hbo]]. apply Hb1. intros ->.
    cbn in Hf. destruct class; by injection Hf as <-.
Qed.

(** The budgets never decide validity. Whatever the budgets hold and
    whatever the engine has cached, an accepted block obeys the rule, and a
    block that obeys the rule is accepted unless RandomX itself fails, or a
    budgeted run refuses it by policy (or cannot read the tip); a run without
    budgets refuses it only when RandomX fails. *)
Theorem verify_pow_is_the_rule cl now parent height pre_hash block_hash seal_bytes b eng (Hok : table_ok eng) :
  let '(eng', _, r) := verify_pow cl now parent height pre_hash block_hash seal_bytes b eng in
  table_ok eng' ∧
  (∀ d, r = Ok d → pow_valid cl parent height pre_hash block_hash seal_bytes d) ∧
  (∀ d, pow_valid cl parent height pre_hash block_hash seal_bytes d →
     r = Ok d ∨ (∃ e, r = Err (EngineFailed e)) ∨
     (b ≠ None ∧ ∃ e, r = Err e ∧ (is_budget_refusal e = true ∨ ∃ x, e = OtherFailed x))).
Proof. by apply verify_pow_rule. Qed.

Lemma classify_tip tip_of (inner : Hash256 → result X Z) parent d a :
  parent = tip_of.1 → classify tip_of inner parent d a = (a, Ok ExtendsTip).
Proof.
  intros ->. unfold classify, classify_side_branch. cbn [cached_tip tip]. destruct tip_of as [th tn]. by rewrite bool_decide_eq_true_2.
Qed.

Lemma classify_side tip_of (inner : Hash256 → result X Z) parent d a :
  side_branch (classify tip_of inner parent d a).1 = side_branch a.
Proof.
  unfold classify, classify_side_branch. cbn [cached_tip tip difficulty_after]. destruct tip_of as [th tn].
  case_bool_decide; [done|]. destruct (tip_difficulty a) as [[ch cd]|]; [case_bool_decide; [done|]|];
    by destruct (inner th).
Qed.

Lemma charge_fill_side eng now height parent seed sh a class b' r :
  charge_fill (X := X) (EE := EE) eng now height parent seed sh (Some a) class = (b', r) →
  ∃ a', b' = Some a' ∧ side_branch a' = side_branch a.
Proof.
  unfold charge_fill, charge_seed_fill. destruct class as [c|]; [|intros [= <- <-]; eauto].
  destruct (_ && _); [|intros [= <- <-]; eauto].
  destruct (charge now (seed_fill a)) as [o [x|x]]; intros [= <- <-]; eexists; (split; [done|]); done.
Qed.

Lemma verify_pow_tokens cl now parent height pre_hash block_hash seal_bytes a eng (Hok : table_ok eng) :
  let '(eng', b', r) := verify_pow cl now parent height pre_hash block_hash seal_bytes (Some a) eng in
  ∃ a', b' = Some a' ∧
  (side_branch a' ≠ side_branch a ∨ (∃ e, r = Err e ∧ is_side_branch_refusal e = true) →
     parent ≠ best_hash (info cl) ∧ ∃ d, pow_valid cl parent height pre_hash block_hash seal_bytes d) ∧
  (parent = best_hash (info cl) → a' = a ∧ ∀ e, r = Err e → is_budget_refusal e = false).
Proof.
  unfold verify_pow. cbv zeta.
  assert (Hquiet : ∀ e, not_policy e → is_budget_refusal e = false ∧ is_side_branch_refusal e = false).
  { intros e He. unfold is_budget_refusal. rewrite He. by destruct e. }
  assert (Hstop : ∀ eng' a' e, not_policy e → side_branch a' = side_branch a → (parent = best_hash (info cl) → a' = a) →
    let '(_, b', r) := (eng' : Engine Cache VM, Some a', Err (A := Z) e) in
    ∃ a', b' = Some a' ∧ (side_branch a' ≠ side_branch a ∨ (∃ e, r = Err e ∧ is_side_branch_refusal e = true) →
       parent ≠ best_hash (info cl) ∧ ∃ d, pow_valid cl parent height pre_hash block_hash seal_bytes d) ∧
    (parent = best_hash (info cl) → a' = a ∧ ∀ e, r = Err e → is_budget_refusal e = false)).
  { intros eng' a' e He Hs Ht. destruct (Hquiet e He) as [Hq1 Hq2]. exists a'. split_and!; [done| |].
    - intros [?|(e' & [= <-] & ?)]; congruence.
    - intros Hp. split; [by apply Ht|]. by intros e' [= <-]. }
  pose proof (prologue_errs cl parent height block_hash seal_bytes) as He0.
  destruct (_ : result PErr (Seal * Z)) as [[seal d]|e] eqn:Hpro; [|by apply (Hstop eng a e)].
  apply prologue_Ok in Hpro as (Hs & Hp & Hd). unfold classify_block.
  pose proof (classify_side (best_hash (info cl), best_number (info cl)) (get_difficulty cl) parent d a) as Hside.
  pose proof (classify_tip (best_hash (info cl), best_number (info cl)) (get_difficulty cl) parent d a) as Htip.
  destruct (classify _ _ _ _ _) as [a1 [class|x]]; cbn [fst] in *;
    [|apply (Hstop eng a1 (OtherFailed x)); [done|done|by intros ?%Htip]].
  assert (Ht : parent = best_hash (info cl) → a1 = a ∧ class = ExtendsTip).
  { intros E0. apply Htip in E0. by injection E0 as -> ->. }
  pose proof (seed_hashes_errs cl parent height) as He1.
  destruct (seed_hashes cl parent height) as [[[seed next] sh]|e] eqn:Hseed; [|apply (Hstop eng a1 e); [done|done|by intros [? _]%Ht]].
  destruct (charge_fill eng now height parent seed sh (Some a1) (Some class)) as [b2 r2] eqn:Hf.
  destruct (charge_fill_side _ _ _ _ _ _ _ _ _ _ Hf) as (a2 & -> & Hs2).
  assert (Ht2 : parent = best_hash (info cl) → a2 = a ∧ r2 = Ok tt).
  { intros E0%Ht. destruct E0 as [-> ->]. cbn in Hf. by injection Hf as <- <-. }
  destruct r2 as [[]|e].
  2: { pose proof (charge_fill_Err _ _ _ _ _ _ _ _ _ _ Hf) as [_ Hbo]. exists a2. split_and!; [done| |].
       - intros [?|(e' & [= <-] & ?)]; [congruence|]. by destruct e.
       - by intros [_ ?]%Ht2. }
  pose proof (check_seal_spec pre_hash height seed seal d eng Hok) as Hc.
  destruct (check_seal pre_hash height seed seal d eng) as [eng' [h|e]]; destruct Hc as [Hok' Hc].
  2: { apply (Hstop eng' a2 e); [|congruence|by intros [? _]%Ht2]. destruct e; try done; by destruct Hc. }
  assert (Hv : pow_valid cl parent height pre_hash block_hash seal_bytes d) by (by exists seal, seed, next, sh).
  unfold charge_branch, charge_side_branch. destruct (is_cheap class) eqn:Hch; cbn [negb].
  - assert (Hne : parent ≠ best_hash (info cl)) by (intros [_ ->]%Ht; done).
    destruct (charge now (side_branch a2)) as [o [x|x]]; eexists; (split; [reflexivity|]); split; try done; eauto.
  - exists a2. split_and!; [done| |].
    + intros [?|(e & ? & ?)]; [congruence|done].
    + intros [-> _]%Ht2. done.
Qed.

(** A token costs its sender real work. A run that takes a token from
    the side-branch budget, or is refused for want of one, has a block that
    obeys the proof-of-work rule and does not extend the tip; so a flood of
    junk seals drains nothing. A block on the tip meets no budget at all. *)
Theorem tokens_cost_real_work cl now parent height pre_hash block_hash seal_bytes a eng (Hok : table_ok eng) :
  let '(eng', b', r) := verify_pow cl now parent height pre_hash block_hash seal_bytes (Some a) eng in
  ∃ a', b' = Some a' ∧
  (side_branch a' ≠ side_branch a ∨ (∃ e, r = Err e ∧ is_side_branch_refusal e = true) →
     parent ≠ best_hash (info cl) ∧ ∃ d, pow_valid cl parent height pre_hash block_hash seal_bytes d) ∧
  (parent = best_hash (info cl) → a' = a ∧ ∀ e, r = Err e → is_budget_refusal e = false).
Proof. by apply verify_pow_tokens. Qed.

(** ** The verifier and the importer *)
Lemma set_digest_same h : set_digest (digest h) h = h.
Proof. by destruct h. Qed.

Lemma extract_Ok (p p' : Params) :
  extract_pow_seal p = Ok p' → post_digests p = [] →
  ∃ seal, post_digests p' = [DigestSeal POW_ENGINE_ID seal] ∧ post_header p' = bip_header p ∧
    body p' = body p ∧ skip_execution_checks p' = skip_execution_checks p ∧ refusal p' = refusal p ∧
    check_digest_commitment_window (digest (bip_header p)) (number (bip_header p)) = Ok tt ∧
    parent_hash (bip_header p') = parent_hash (bip_header p) ∧ number (bip_header p') = number (bip_header p).
Proof.
  unfold extract_pow_seal. intros ([] & Hw%map_err_Ok & Hr)%bind_Ok Hpd.
  destruct (last (digest (bip_header p))) as [[| |id seal| |]|] eqn:Hl; try done.
  case_bool_decide as Hid; [|done]. apply bind_Ok in Hr as (s & Hs & [= <-]). subst id.
  exists seal. cbn [put_params post_digests body skip_execution_checks refusal bip_header]. rewrite Hpd.
  split_and!; try done. apply last_Some in Hl as [l Hl]. unfold post_header. cbn [put_params bip_header post_digests].
  rewrite Hl, removelast_last. cbn [set_digest digest app].
  rewrite <- Hl. cbn. by destruct (bip_header p).
Qed.

(** Why [import_block] may still refuse a block that obeys the rule: its
    inherents, the RandomX engine, or the read of its parent's work. *)
Inductive refused_otherwise (decode_error : X) cl (p : Params) : PErr → Prop :=
| ro_inherents inner_body x :
    body p = Some inner_body → skip_execution_checks p = false →
    check_inherents cl (parent_hash (bip_header p)) (bip_header p) inner_body = Err x → refused_otherwise decode_error cl p (ClientFailed x)
| ro_engine e : refused_otherwise decode_error cl p (EngineFailed e)
| ro_work x : get_cumulative_achieved_work decode_error (parent_hash (bip_header p)) cl = Err x → refused_otherwise decode_error cl p (OtherFailed x).

Lemma import_prepare_refused (decode_error : X) cl now (p : Params) eng e :
  refusal p = Some e → import_prepare decode_error cl now p eng = (eng, Err e).
Proof. intros Hr. unfold import_prepare. by rewrite Hr. Qed.

Lemma import_prepare_valid (decode_error : X) cl now (p : Params) eng seal d :
  table_ok eng → refusal p = None →
  check_digest_commitment_window (digest (post_header p)) (number (bip_header p)) = Ok tt →
  last (post_digests p) = Some (DigestSeal POW_ENGINE_ID seal) →
  pow_valid cl (parent_hash (bip_header p)) (number (bip_header p)) (header_hash (bip_header p))
    (header_hash (post_header p)) seal d →
  ∃ eng', table_ok eng' ∧
    ((∃ w, get_cumulative_achieved_work decode_error (parent_hash (bip_header p)) cl = Ok w ∧
        import_prepare decode_error cl now p eng = (eng', Ok {| pr_params := p; pr_new_work := sat_add 512 w d |})) ∨
     ∃ e, refused_otherwise decode_error cl p e ∧ import_prepare decode_error cl now p eng = (eng', Err e)).
Proof.
  intros Hok Hr Hw Hl Hv. unfold import_prepare. rewrite Hr, Hw. cbn [mbind result_bind map_err].
  set (inh := match body p with Some _ => _ | None => _ end).
  assert (Hib : inh = Ok tt ∨ ∃ e, refused_otherwise decode_error cl p e ∧ inh = Err e).
  { unfold inh. destruct (body p) as [bd|] eqn:Hb; [|by left]. destruct (skip_execution_checks p) eqn:Hs; [by left|].
    destruct (check_inherents _ _ _ _) as [[]|x] eqn:Hc; [by left|right]. exists (ClientFailed x). split; [by econstructor|done]. }
  destruct Hib as [-> |(e & He & ->)]; cbn [mbind result_bind]; [|exists eng; split; [done|right; by exists e]].
  rewrite Hl. cbn [fetch_seal]. rewrite bool_decide_eq_true_2 by done.
  pose proof (verify_pow_rule cl now (parent_hash (bip_header p)) (number (bip_header p)) (header_hash (bip_header p))
    (header_hash (post_header p)) seal None eng Hok) as Hrule.
  destruct (verify_pow _ _ _ _ _ _ _ _ _) as [[eng' b'] r]. destruct Hrule as (Hok' & _ & Hc).
  exists eng'. split; [done|]. destruct (Hc d Hv) as [-> |[[e ->]|[? _]]]; [| |done].
  - cbn [mbind result_bind]. destruct (get_cumulative_achieved_work _ _ _) as [w|x] eqn:Hg; [left; by exists w|right].
    exists (OtherFailed x). split; [by constructor|done].
  - right. exists (EngineFailed e). split; [constructor|done].
Qed.

(** C37: the verifier and the importer cannot disagree. A block from the
    network (no post-digests and no refusal of its own) that the verifier
    passes on keeps its header. If the verifier attached no refusal, the block
    obeys the proof-of-work rule at some difficulty, and [import_block] in the
    same client state, whatever its engine holds and whenever it runs, goes on
    to commit it with its parent's work plus that difficulty; the only errors
    that can stop it before that are a failed inherent check, a RandomX failure
    and an unreadable parent work, never a verdict on the proof. If the
    verifier attached one, it is a side-branch refusal of a proven block, and
    [import_block], in any client state, refuses the block with that very error
    and changes nothing. *)
Theorem verifier_and_importer_agree (decode_error : X) cl now (p p' : Params) b b' eng eng'
    (Hok : table_ok eng) (Hpd : post_digests p = []) (Hnr : refusal p = None)
    (Hver : verify cl now p b eng = (eng', b', Ok p')) :
  post_header p' = bip_header p ∧
  (∃ seal d, pow_valid cl (parent_hash (bip_header p)) (number (bip_header p)) (header_hash (bip_header p'))
     (header_hash (bip_header p)) seal d ∧
   (refusal p' = None → ∀ now2 eng2, table_ok eng2 → ∃ eng3,
      (∃ w, get_cumulative_achieved_work decode_error (parent_hash (bip_header p)) cl = Ok w ∧
         import_block decode_error now2 p' cl eng2 = import_commit decode_error {| pr_params := p'; pr_new_work := sat_add 512 w d |} cl eng3) ∨
      (∃ e, refused_otherwise decode_error cl p' e ∧ import_block decode_error now2 p' cl eng2 = (cl, eng3, Err e)))) ∧
  (∀ e, refusal p' = Some e → is_side_branch_refusal e = true ∧
     ∀ cl2 now2 eng2, import_block decode_error now2 p' cl2 eng2 = (cl2, eng2, Err e)).
Proof.
  unfold verify in Hver. destruct (_ : result PErr (Params * list Z)) as [[q seal]|e] eqn:Hpro; [|done].
  apply bind_Ok in Hpro as (q' & Hex & Hpro). apply bind_Ok in Hpro as (seal' & Hseal & [= -> ->]).
  destruct (extract_Ok p q Hex Hpd) as (seal2 & Hl & Hph & Hb & Hsk & Href & Hw & Hpar & Hnum).
  rewrite Hl in Hseal. cbn [last fetch_seal] in Hseal. rewrite bool_decide_eq_true_2 in Hseal by done. injection Hseal as ->.
  rewrite Hpar, Hnum, Hph in Hver.
  pose proof (verify_pow_rule cl now (parent_hash (bip_header p)) (number (bip_header p)) (header_hash (bip_header q))
    (header_hash (bip_header p)) seal (Some b) eng Hok) as Hrule.
  pose proof (verify_pow_tokens cl now (parent_hash (bip_header p)) (number (bip_header p)) (header_hash (bip_header q))
    (header_hash (bip_header p)) seal b eng Hok) as Htok.
  destruct (verify_pow _ _ _ _ _ _ _ _ _) as [[eng1 b1] r]. destruct Hrule as (_ & Hsound & _).
  destruct Htok as (a' & -> & Htok & _). destruct r as [d|e].
  - injection Hver as <- <- <-. split_and!; [done| |intros e; rewrite Href, Hnr; done].
    exists seal, d. split; [by apply Hsound|]. intros _ now2 eng2 Hok2. unfold import_block.
    destruct (import_prepare_valid decode_error cl now2 q eng2 seal d) as (eng3 & _ & Hres); try done.
    + by rewrite Href.
    + by rewrite Hph, Hnum.
    + by rewrite Hl.
    + rewrite Hpar, Hnum, Hph. by apply Hsound.
    + exists eng3. rewrite <- Hpar. destruct Hres as [(w & Hg & ->)|(e & He & ->)]; [left; by exists w|right; by exists e].
  - destruct (is_side_branch_refusal e) eqn:He; [|done]. injection Hver as <- <- <-.
    destruct Htok as [_ [d Hv]]; [right; by exists e|]. split_and!; [exact Hph| |].
    + exists seal, d. split; [done|]. done.
    + intros e' [= <-]. split; [done|]. intros. unfold import_block. by rewrite (import_prepare_refused _ _ _ _ _ e).
Qed.
End Verify.
