(* ===== verification/PowForkChoice.v ===== *)
(** * The fork choice over interleaved imports

    Any number of blocks are prepared ([import_prepare], outside the import
    lock) and committed ([import_commit], under it) in any order, imports are
    abandoned, the node restarts and crashes between the work entry and the
    block. [PowClientLaws] states what the Substrate client documents; the work
    entries and the tip are then what the block tree says. *)

From stdpp Require Import base option list numbers gmap.
From S2P Require Import Prelude Crypto RandomX Admission SeedCache SeedCacheProps Header PowImport.
#[local] Open Scope Z_scope.

(** The client's database: the block tree (parent and number by hash) and the
    auxiliary store. A runtime call at a block is a function of the block. An
    import that is not [Imported] changes neither; one that is adds the block
    and moves the tip exactly when the fork choice says so. *)
Class PowClientLaws (C X Body : Type) `{PowClient C X Body, HeaderCodec} := {
  known : C → gmap Hash256 (Hash256 * Z);
  aux : C → gmap (list Z) (list Z);
  difficulty_at : Hash256 → Z;
  difficulty_nonneg h : 0 ≤ difficulty_at h;
  get_difficulty_law (cl : C) h d : get_difficulty cl h = Ok d → d = difficulty_at h;
  client_number_law (cl : C) h n : client_number cl h = Ok (Some n) → ∃ par, known cl !! h = Some (par, n);
  client_genesis_law (cl : C) h : client_hash cl 0 = Ok (Some h) → h = genesis_hash (info cl);
  get_aux_law (cl : C) k v : get_aux cl k = Ok v → v = aux cl !! k;
  insert_aux_law ins del (cl cl' : C) r : insert_aux ins del cl = (cl', r) →
    known cl' = known cl ∧ info cl' = info cl ∧
    aux cl' = match r with Ok _ => foldr delete (list_to_map ins ∪ aux cl) del | Err _ => aux cl end;
  inner_import_law {R} (p : BlockImportParams Body R) (cl cl' : C) r : inner_import p cl = (cl', r) →
    aux cl' = aux cl ∧ genesis_hash (info cl') = genesis_hash (info cl) ∧
    (block_gap (info cl) = None → block_gap (info cl') = None) ∧
    match r with
    | Ok Imported =>
        let h := header_hash (set_digest (digest (bip_header p) ++ post_digests p) (bip_header p)) in
        known cl' = <[h := (parent_hash (bip_header p), number (bip_header p))]> (known cl) ∧
        (block_gap (info cl) = None →
          (best_hash (info cl'), best_number (info cl')) =
          if decide (fork_choice p = Some true) then (h, number (bip_header p))
          else (best_hash (info cl), best_number (info cl)))
    | _ => known cl' = known cl ∧ best_hash (info cl') = best_hash (info cl) ∧ best_number (info cl') = best_number (info cl)
    end;
}.

Section ForkChoice.
Context {C X Body Cache VM EE : Type} `{PowClientLaws C X Body} `{RandomXLaws Cache VM EE}.
Implicit Types (cl : C) (eng : Engine Cache VM) (m : gmap Hash256 (Hash256 * Z)).
#[local] Abbreviation PErr := (PowError X EE).
Context (de no_genesis : X).

(** ** The machine *)
Record ImportWorld := { client : C; preparing : list (@Prepared X Body EE) }.

Definition sealed_hash (pr : @Prepared X Body EE) : Hash256 := header_hash (post_header (pr_params pr)).
(** A known block with the candidate's hash is the candidate. *)
Definition no_collision (pr : @Prepared X Body EE) cl : Prop :=
  ∀ e, known cl !! sealed_hash pr = Some e →
    e = (parent_hash (bip_header (pr_params pr)), number (bip_header (pr_params pr))).

(** What a step did to the client; a commit with its outcome. *)
Inductive ImportEvent :=
| EPrepare
| ECommit (cl : C) (pr : @Prepared X Body EE) (r : result PErr ImportResult)
| EAbandon
| ECrash (cl : C) (pr : @Prepared X Body EE)
| ERestart.

Inductive import_step : ImportWorld → ImportEvent → ImportWorld → Prop :=
| is_prepare cl ps now p eng eng' pr :
    import_prepare de cl now p eng = (eng', Ok pr) →
    import_step {| client := cl; preparing := ps |} EPrepare {| client := cl; preparing := pr :: ps |}
| is_commit cl ps1 pr ps2 eng cl' eng' r :
    import_commit de pr cl eng = (cl', eng', r) →
    import_step {| client := cl; preparing := ps1 ++ pr :: ps2 |} (ECommit cl pr r) {| client := cl'; preparing := ps1 ++ ps2 |}
| is_abandon cl ps1 pr ps2 :
    import_step {| client := cl; preparing := ps1 ++ pr :: ps2 |} EAbandon {| client := cl; preparing := ps1 ++ ps2 |}
| is_crash cl ps1 pr ps2 cl' r :
    store_cumulative_achieved_work (sealed_hash pr) (pr_new_work pr) cl = (cl', r) →
    import_step {| client := cl; preparing := ps1 ++ pr :: ps2 |} (ECrash cl pr) {| client := cl'; preparing := [] |}
| is_restart cl ps cl' r :
    initialize_genesis_achieved_work de no_genesis cl = (cl', r) →
    import_step {| client := cl; preparing := ps |} ERestart {| client := cl'; preparing := [] |}.

Inductive import_history : ImportWorld → list ImportEvent → ImportWorld → Prop :=
| ih_nil w : import_history w [] w
| ih_cons w1 e w2 es w3 : import_step w1 e w2 → import_history w2 es w3 → import_history w1 (e :: es) w3.

(** The two events that can cost a known block its work: another block under
    its hash, and a failed import of the block itself. *)
Definition undisturbed (e : ImportEvent) : Prop :=
  match e with
  | ECommit cl pr r => no_collision pr cl ∧ (known cl !! sealed_hash pr = None ∨ ∀ x, r ≠ Err (ClientFailed x))
  | ECrash cl pr => no_collision pr cl
  | _ => True
  end.

(** A database with the genesis block alone, after the node's start-up. *)
Definition import_start (w : ImportWorld) : Prop :=
  preparing w = [] ∧ ∃ cl0 par,
    let g := genesis_hash (info cl0) in
    known cl0 = {[ g := (par, 0) ]} ∧ aux cl0 = ∅ ∧ block_gap (info cl0) = None ∧
    best_hash (info cl0) = g ∧ best_number (info cl0) = 0 ∧
    initialize_genesis_achieved_work de no_genesis cl0 = (client w, Ok tt).

(** ** Cumulative work, from the block tree *)
Inductive chain_work (g : Hash256) m : Hash256 → Z → Prop :=
| cw_genesis : chain_work g m g 1
| cw_block h par n w :
    h ≠ g → m !! h = Some (par, n) → chain_work g m par w →
    chain_work g m h (sat_add 512 w (difficulty_at par)).

Lemma chain_work_det g m h w1 w2 : chain_work g m h w1 → chain_work g m h w2 → w1 = w2.
Proof.
  intros Hc. revert w2. induction Hc as [|h par n w Hne Hm _ IH]; intros w2 Hc2; inversion Hc2 as [|h' par' n' w' Hne' Hm' Hc' ]; subst; try done.
  simplify_eq. by rewrite (IH w').
Qed.

Lemma chain_work_mono g m m' h w : m ⊆ m' → chain_work g m h w → chain_work g m' h w.
Proof.
  intros Hs Hc. induction Hc as [|h par n w Hne Hm _ IH]; [constructor|].
  apply (cw_block g m' h par n w); [done|by eapply lookup_weaken|done].
Qed.

Lemma chain_work_range g m h w : chain_work g m h w → in_u 512 w.
Proof.
  intros Hc. induction Hc as [|h par n w Hne Hm _ IH]; [by split; [lia|vm_compute]|].
  apply sat_add_in; [lia|by destruct IH|apply difficulty_nonneg].
Qed.

(** ** The auxiliary store *)
Lemma work_key_inj a b : work_key a = work_key b → a = b.
Proof. apply app_inv_head. Qed.

Lemma store_work_spec h w cl cl' r :
  store_cumulative_achieved_work h w cl = (cl', r) →
  known cl' = known cl ∧ info cl' = info cl ∧
  aux cl' = match r with Ok _ => <[work_key h := le_bytes 64 w]> (aux cl) | Err _ => aux cl end.
Proof.
  intros (Hk & Hi & Ha)%insert_aux_law. split_and!; [done|done|]. rewrite Ha. destruct r; [|done]. cbn [foldr].
  by rewrite list_to_map_cons, list_to_map_nil, <- insert_union_l, (left_id_L ∅ (∪)).
Qed.

Lemma delete_work_spec h cl cl' r :
  delete_cumulative_achieved_work h cl = (cl', r) →
  known cl' = known cl ∧ info cl' = info cl ∧
  aux cl' = match r with Ok _ => delete (work_key h) (aux cl) | Err _ => aux cl end.
Proof.
  intros (Hk & Hi & Ha)%insert_aux_law. split_and!; [done|done|]. rewrite Ha. destruct r; [|done]. cbn [foldr].
  by rewrite list_to_map_nil, (left_id_L ∅ (∪)).
Qed.

Definition entry cl (h : Hash256) (w : Z) : Prop := aux cl !! work_key h = Some (le_bytes 64 w).

Lemma get_work_entry cl h w x :
  in_u 512 w → entry cl h w → get_cumulative_achieved_work de h cl = Ok x → x = w.
Proof.
  intros Hw He (o & Ho%get_aux_law & Hx)%bind_Ok. unfold entry in He. rewrite He in Ho. subst o. cbn beta iota in Hx.
  unfold decode_u512 in Hx. rewrite length_le_bytes in Hx. cbn [Nat.leb] in Hx.
  rewrite take_ge, le_val_le_bytes in Hx; [by injection Hx| |by rewrite length_le_bytes].
  exact Hw.
Qed.

(** ** The invariant *)
Record tree_ok (g : Hash256) cl : Prop := {
  tk_genesis : genesis_hash (info cl) = g;
  tk_gap : block_gap (info cl) = None;
  tk_root : ∃ par, known cl !! g = Some (par, 0);
  tk_nonneg : ∀ h par n, known cl !! h = Some (par, n) → 0 ≤ n;
  tk_work : ∀ h e, known cl !! h = Some e → ∃ w, chain_work g (known cl) h w ∧ entry cl h w;
  tk_tip : ∃ wb par, known cl !! best_hash (info cl) = Some (par, best_number (info cl)) ∧
    chain_work g (known cl) (best_hash (info cl)) wb ∧
    ∀ h par n w, known cl !! h = Some (par, n) → chain_work g (known cl) h w → ¬ heavier (w, n) (wb, best_number (info cl));
}.

(** A prepared block sits on a known parent and carries its own work. *)
Definition prepared_ok (g : Hash256) cl (pr : @Prepared X Body EE) : Prop :=
  let hd := bip_header (pr_params pr) in
  ∃ ppar pn w, known cl !! parent_hash hd = Some (ppar, pn) ∧ number hd = sat_add 64 pn 1 ∧
    chain_work g (known cl) (parent_hash hd) w ∧ pr_new_work pr = sat_add 512 w (difficulty_at (parent_hash hd)).

Lemma prepared_ok_mono g cl cl' pr : known cl ⊆ known cl' → prepared_ok g cl pr → prepared_ok g cl' pr.
Proof.
  intros Hs (ppar & pn & w & Hp & Hn & Hc & Hw). exists ppar, pn, w.
  split_and!; [by eapply lookup_weaken|done|by eapply chain_work_mono|done].
Qed.

Lemma prepare_prepared_ok g cl now p eng eng' pr :
  tree_ok g cl → import_prepare de cl now p eng = (eng', Ok pr) → prepared_ok g cl pr.
Proof.
  intros Hok. unfold import_prepare. destruct (_ : result PErr (list Z)) as [seal|e]; [|done].
  unfold verify_pow. cbv zeta. cbn [classify_block].
  destruct (_ : result PErr (Seal * Z)) as [[sl d]|e] eqn:Hpro; [|done].
  apply bind_Ok in Hpro as (sl' & _ & Hpro). apply bind_Ok in Hpro as ([] & Hpos & Hpro).
  apply bind_Ok in Hpro as (d' & Hd%map_err_Ok%get_difficulty_law & [= <- <-]).
  apply bind_Ok in Hpos as (o & Hnum%map_err_Ok & Hpos). apply bind_Ok in Hpos as (pn & Ho & Hpos).
  destruct o as [pn'|]; [|done]. injection Ho as <-. apply client_number_law in Hnum as [ppar Hpar].
  apply bind_Ok in Hpos as ([] & Hh & _). apply ensure_Ok, Z.eqb_eq in Hh.
  destruct (seed_hashes _ _ _) as [[[seed next] sh]|e]; [|done]. cbn [charge_fill].
  destruct (check_seal _ _ _ _ _ _) as [eng1 [hh|e]]; [|done]. cbn [charge_branch].
  intros [= _ Hres]. cbn [mbind result_bind] in Hres. apply bind_Ok in Hres as (pw & Hpw%map_err_Ok & [= <-]).
  destruct (tk_work g cl Hok _ _ Hpar) as (w & Hw & He).
  exists ppar, pn', w. cbn [pr_params pr_new_work]. split_and!; [done|done|done|].
  rewrite (get_work_entry cl (parent_hash (bip_header p)) w pw) by (done || by eapply chain_work_range). by rewrite Hd.
Qed.

(** The work a prepared block carries is the one the tree gives its hash. *)
Lemma prepared_work g cl cl' pr :
  tree_ok g cl → prepared_ok g cl pr → no_collision pr cl → known cl ⊆ known cl' →
  known cl' !! sealed_hash pr = Some (parent_hash (bip_header (pr_params pr)), number (bip_header (pr_params pr))) →
  chain_work g (known cl') (sealed_hash pr) (pr_new_work pr) ∧ 0 ≤ number (bip_header (pr_params pr)).
Proof.
  intros Hok (ppar & pn & w & Hp & Hn & Hc & Hw) Hnc Hs Hin.
  pose proof (tk_nonneg g cl Hok _ _ _ Hp) as H0n.
  assert (Hpos : 1 ≤ number (bip_header (pr_params pr))) by (rewrite Hn; unfold sat_add, u_max; lia).
  split; [|lia]. rewrite Hw. apply (cw_block g _ _ _ _ _) with (2 := Hin); [|by eapply chain_work_mono].
  intros Hg. destruct (tk_root g cl Hok) as [rp Hr]. rewrite <- Hg in Hr. apply Hnc in Hr. injection Hr as _ Hr. lia.
Qed.

(** Writing the right work under the candidate's hash. *)
Lemma store_keeps_tree g cl cl' pr r :
  tree_ok g cl → prepared_ok g cl pr → no_collision pr cl →
  store_cumulative_achieved_work (sealed_hash pr) (pr_new_work pr) cl = (cl', r) → tree_ok g cl'.
Proof.
  intros Hok Hpr Hnc (Hk & Hi & Ha)%store_work_spec.
  destruct Hok as [Tg Tgap Tr Tn Tw Tt] eqn:Eok. split; rewrite ?Hi, ?Hk; try done.
  intros h e He. destruct (Tw h e He) as (w & Hw & Hent). exists w. split; [done|]. unfold entry in *. rewrite Ha.
  destruct r; [|done]. destruct (decide (h = sealed_hash pr)) as [->|Hne].
  - rewrite lookup_insert_eq. do 2 f_equal. pose proof (Hnc e He) as ->.
    destruct (prepared_work g cl cl pr) as [Hc _]; try done. by eapply chain_work_det.
  - rewrite lookup_insert_ne; [done|]. by intros ?%work_key_inj.
Qed.

Lemma lookup_adopted m (k : Hash256) e h e' :
  <[k := e]> m !! h = Some e' → (h = k ∧ e' = e) ∨ (h ≠ k ∧ m !! h = Some e').
Proof. rewrite lookup_insert_Some. naive_solver. Qed.

(** The fork choice keeps the heaviest block on top. *)
Lemma heavier_adopt (a b c : Z * Z) : ¬ heavier c b → heavier a b → ¬ heavier c a.
Proof. rewrite !heavier_spec. destruct a, b, c; cbn. lia. Qed.

Lemma commit_keeps_tree g cl pr eng cl' eng' r :
  tree_ok g cl → prepared_ok g cl pr → no_collision pr cl → import_commit de pr cl eng = (cl', eng', r) →
  known cl !! sealed_hash pr = None ∨ (∀ e, r ≠ Err (ClientFailed e)) →
  tree_ok g cl' ∧ known cl ⊆ known cl'.
Proof.
  intros Hok Hpr Hnc. unfold import_commit.
  destruct (get_cumulative_achieved_work de (best_hash (info cl)) cl) as [bw|e] eqn:Hbw; [|by intros [= <- _ _]].
  set (is_best := is_heavier _ _ _ _). set (p := put_params _ _ _ _ _).
  change (header_hash (post_header p)) with (sealed_hash pr).
  destruct (store_cumulative_achieved_work _ _ cl) as [cl1 r1] eqn:Hst.
  pose proof (store_keeps_tree g cl cl1 pr r1 Hok Hpr Hnc Hst) as Hok1.
  apply store_work_spec in Hst as (Hk1 & Hi1 & Ha1).
  destruct r1 as [[]|e]; [|intros [= <- _ _] _; by rewrite Hk1].
  destruct (inner_import p cl1) as [cl2 r2] eqn:Him. apply inner_import_law in Him as (Ha2 & Hg2 & Hgap2 & Hr2).
  assert (Hquiet : known cl2 = known cl1 → best_hash (info cl2) = best_hash (info cl1) →
    best_number (info cl2) = best_number (info cl1) → tree_ok g cl2).
  { intros E1 E2 E3. destruct Hok1 as [Tg Tgap Tr Tn Tw Tt].
    split; unfold entry; rewrite ?E1, ?E2, ?E3, ?Ha2; try done; [by rewrite Hg2|by apply Hgap2]. }
  destruct r2 as [res|e].
  2: { destruct Hr2 as (E1 & E2 & E3). pose proof (Hquiet E1 E2 E3) as [Tg Tgap Tr Tn Tw Tt].
       destruct (delete_cumulative_achieved_work (sealed_hash pr) cl2) as [cl3 r3] eqn:Hdel.
       apply delete_work_spec in Hdel as (Hk3 & Hi3 & Ha3). intros [= <- _ <-] [Hnone|Hbad]; [|by destruct (Hbad e)].
       cbn [fst]. rewrite Hk3, E1, Hk1. split; [|done]. split; rewrite ?Hi3, ?Hk3; try done.
       intros h e' He. destruct (Tw h e' He) as (w & Hw & Hent). exists w. split; [done|]. unfold entry in *. rewrite Ha3.
       destruct r3; [|done]. rewrite lookup_delete_ne; [done|]. intros <-%work_key_inj.
       rewrite E1, Hk1 in He. congruence. }
  intros [= <- _ _] _. destruct res; try (destruct Hr2 as (E1 & E2 & E3); split; [by apply Hquiet|by rewrite E1, Hk1]).
  destruct Hr2 as (E1 & Htip). pose proof Hok1 as [Tg Tgap Tr Tn Tw Tt]. specialize (Htip Tgap).
  change (header_hash _) with (sealed_hash pr) in E1, Htip. change (bip_header p) with (bip_header (pr_params pr)) in *.
  assert (Hsub : known cl ⊆ known cl2).
  { rewrite E1, Hk1. apply map_subseteq_spec. intros h e He. destruct (decide (h = sealed_hash pr)) as [->|Hne];
      [by rewrite lookup_insert_eq, (Hnc e He)|by rewrite lookup_insert_ne by done]. }
  split; [|done].
  destruct (prepared_work g cl cl2 pr) as [Hcw Hnn]; [done..|by rewrite E1, lookup_insert_eq|].
  assert (Hcw1 : ∀ h w, chain_work g (known cl1) h w → chain_work g (known cl2) h w).
  { intros h w. apply chain_work_mono. by rewrite Hk1. }
  split; [by rewrite Hg2|by apply Hgap2| | | |].
  - destruct Tr as [rp Hr]. exists rp. eapply lookup_weaken; [exact Hr|by rewrite Hk1].
  - intros h par n. rewrite E1. intros [[-> [= -> ->]]|[_ ?]]%lookup_adopted; [done|by eapply Tn].
  - intros h e. rewrite E1 at 1. intros [[-> ->]|[Hne He]]%lookup_adopted.
    + exists (pr_new_work pr). split; [done|]. unfold entry. by rewrite Ha2, Ha1, lookup_insert_eq.
    + destruct (Tw h e He) as (w & Hw & Hent). exists w. split; [by apply Hcw1|]. unfold entry in *. by rewrite Ha2.
  - destruct Tt as (wb & bp & Hb & Hcb & Hmax).
    assert (Hwb : bw = wb).
    { rewrite Hi1, Hk1 in Hb, Hcb. destruct (tk_work g cl Hok _ _ Hb) as (w & Hw & Hent).
      rewrite (chain_work_det _ _ _ _ _ Hcb Hw). eapply (get_work_entry cl); [by eapply chain_work_range|exact Hent|exact Hbw]. }
    subst bw.
    assert (Hothers : ∀ (tip : Z * Z), ¬ heavier (pr_new_work pr, number (bip_header (pr_params pr))) tip →
      (tip = (wb, best_number (info cl1)) ∨ heavier tip (wb, best_number (info cl1))) →
      ∀ h par n w, known cl2 !! h = Some (par, n) → chain_work g (known cl2) h w → ¬ heavier (w, n) tip).
    { intros tip Hnew Htp h par n w Hh Hc. rewrite E1 in Hh. apply lookup_adopted in Hh as [[-> [= -> ->]]|[_ Hh]].
      - by rewrite (chain_work_det _ _ _ _ _ Hc Hcw).
      - destruct (Tw h _ Hh) as (w' & Hw' & _). pose proof (Hmax h par n w' Hh Hw') as Hnh.
        rewrite (chain_work_det _ _ _ _ _ Hc (Hcw1 _ _ Hw')). destruct Htp as [-> |Htp]; [done|by eapply heavier_adopt]. }
    cbn [p put_params fork_choice] in Htip. destruct is_best eqn:Hib.
    + rewrite decide_True in Htip by done. injection Htip as -> ->.
      exists (pr_new_work pr), (parent_hash (bip_header (pr_params pr))).
      split_and!; [by rewrite E1, lookup_insert_eq|done|].
      apply Hothers; [rewrite heavier_spec; cbn; lia|]. right. unfold heavier. cbn [fst snd]. by rewrite Hi1.
    + rewrite decide_False in Htip by done. injection Htip as -> ->. exists wb, bp.
      split_and!; [eapply lookup_weaken; [exact Hb|by rewrite Hk1]|by apply Hcw1|].
      apply Hothers; [|by left]. unfold heavier. cbn [fst snd]. rewrite Hi1. fold is_best. by intros ?%(eq_trans (eq_sym Hib)).
Qed.

Lemma restart_keeps_tree g cl cl' r :
  tree_ok g cl → initialize_genesis_achieved_work de no_genesis cl = (cl', r) → cl' = cl.
Proof.
  intros Hok. unfold initialize_genesis_achieved_work.
  destruct (client_hash cl 0) as [[h|]|e] eqn:Hh; [|by intros [= <- _]..].
  apply client_genesis_law in Hh. rewrite (tk_genesis g cl Hok) in Hh. subst h.
  destruct (get_cumulative_achieved_work de g cl) as [x|e] eqn:Hx; [|by intros [= <- _]].
  destruct (tk_root g cl Hok) as [par Hr]. destruct (tk_work g cl Hok _ _ Hr) as (w & Hw & He).
  apply (get_work_entry cl g w x) in Hx; [|by eapply chain_work_range|done].
  rewrite (chain_work_det _ _ _ _ _ Hw (cw_genesis _ _)) in Hx. subst x. by intros [= <- _].
Qed.

Lemma start_tree w : import_start w → tree_ok (genesis_hash (info (client w))) (client w) ∧ preparing w = [].
Proof.
  intros (Hp & cl0 & par & Hk & Ha & Hgap & Hb & Hn & Hini). split; [|done].
  set (g := genesis_hash (info cl0)) in *. unfold initialize_genesis_achieved_work in Hini.
  destruct (client_hash cl0 0) as [[h|]|e] eqn:Hh; try done. apply client_genesis_law in Hh. subst h.
  assert (Hst : store_cumulative_achieved_work g 1 cl0 = (client w, Ok tt)).
  { destruct (get_cumulative_achieved_work _ _ _) as [x|e] eqn:Hx; [|done].
    apply bind_Ok in Hx as (o & Ho%get_aux_law & Hx). rewrite Ha, lookup_empty in Ho. subst o. by injection Hx as <-. }
  apply store_work_spec in Hst as (Hk' & Hi' & Ha'). rewrite Hi'.
  assert (Hone : ∀ h e, known (client w) !! h = Some e → h = g ∧ e = (par, 0)).
  { intros h e. rewrite Hk', Hk. by intros [<- <-]%lookup_singleton_Some. }
  split; rewrite ?Hi'; try done.
  - exists par. by rewrite Hk', Hk, lookup_singleton_eq.
  - intros h p n [_ [= -> ->]]%Hone. lia.
  - intros h e [-> _]%Hone. exists 1. split; [constructor|]. unfold entry. by rewrite Ha', lookup_insert_eq.
  - exists 1, par. rewrite Hb, Hn, Hk', Hk, lookup_singleton_eq. split_and!; [done|constructor|].
    intros h p n w' [<- [= <- <-]]%lookup_singleton_Some Hw'. rewrite (chain_work_det _ _ _ _ _ Hw' (cw_genesis _ _)).
    rewrite heavier_spec. cbn. lia.
Qed.

Definition world_tree (g : Hash256) (w : ImportWorld) : Prop :=
  tree_ok g (client w) ∧ Forall (prepared_ok g (client w)) (preparing w).

Lemma import_step_keeps g w e w' : world_tree g w → import_step w e w' → undisturbed e → world_tree g w'.
Proof.
  intros [Hok Hps] Hstep Hund. destruct Hstep as [cl ps now p eng eng' pr Hp|cl ps1 pr ps2 eng cl' eng' r Hc
    |cl ps1 pr ps2|cl ps1 pr ps2 cl' r Hst|cl ps cl' r Hini]; cbn [client preparing undisturbed] in *.
  - split; cbn; [done|]. constructor; [by eapply prepare_prepared_ok|done].
  - apply Forall_app in Hps as [P1 P2]. apply Forall_cons in P2 as [Hpr P2].
    destruct Hund as [Hnc Hre]. destruct (commit_keeps_tree g cl pr eng cl' eng' r Hok Hpr Hnc Hc Hre) as [Hok' Hs]. split; cbn; [done|].
    apply Forall_app. split; eapply Forall_impl; try done; intros x; by apply prepared_ok_mono.
  - apply Forall_app in Hps as [P1 P2]. apply Forall_cons in P2 as [_ P2]. split; cbn; [done|]. by apply Forall_app.
  - apply Forall_app in Hps as [P1 P2]. apply Forall_cons in P2 as [Hpr P2].
    split; cbn; [by eapply store_keeps_tree|constructor].
  - rewrite (restart_keeps_tree g cl cl' r Hok Hini). split; cbn; [done|constructor].
Qed.

Lemma reach_tree w0 es w : import_start w0 → import_history w0 es w → Forall undisturbed es → ∃ g, world_tree g w.
Proof.
  intros Hs Hr Hu. destruct (start_tree w0 Hs) as [Ht0 Hp]. set (g := genesis_hash _) in Ht0. clearbody g.
  exists g. assert (Hw : world_tree g w0) by (split; [done|rewrite Hp; constructor]).
  clear Ht0 Hp Hs. induction Hr as [|w1 e w2 es w3 H12 _ IH]; [done|]. apply Forall_cons in Hu as [He Hu].
  apply IH; [done|]. by eapply import_step_keeps.
Qed.

(** C10: the tip is the heaviest block. However imports interleave, fail,
    are abandoned or cut off by a crash, and however often the node restarts,
    every block's stored work is the genesis block's one plus the difficulty
    of every block up to it, and no known block is heavier than the tip. Two
    events are excepted: a block imported under the hash of another one the
    client holds, and an import that fails inside the client on a block it
    already holds, which deletes that block's work. *)
Theorem tip_is_the_heaviest w0 es w (Hstart : import_start w0) (Hhist : import_history w0 es w) (Hund : Forall undisturbed es) :
  ∃ g wb par, genesis_hash (info (client w)) = g ∧
    known (client w) !! best_hash (info (client w)) = Some (par, best_number (info (client w))) ∧
    chain_work g (known (client w)) (best_hash (info (client w))) wb ∧
    ∀ h hp n, known (client w) !! h = Some (hp, n) → ∃ wh,
      chain_work g (known (client w)) h wh ∧
      (∀ x, get_cumulative_achieved_work de h (client w) = Ok x → x = wh) ∧
      ¬ heavier (wh, n) (wb, best_number (info (client w))).
Proof.
  destruct (reach_tree w0 es w Hstart Hhist Hund) as (g & [Tg Tgap Tr Tn Tw Tt] & _). destruct Tt as (wb & par & Hb & Hcb & Hmax).
  exists g, wb, par. split_and!; try done. intros h hp n Hh. destruct (Tw h _ Hh) as (wh & Hw & He). exists wh.
  split_and!; [done| |by eapply Hmax]. intros x. apply get_work_entry; [by eapply chain_work_range|done].
Qed.
End ForkChoice.
