(* ===== verification/Miner.v ===== *)
(** * The mining worker

    [chain/client/consensus/randomx/src/worker.rs] and the two tasks of
    [start_mining_worker]: the handle (version, authoring gate, current build,
    rebuild request), the proposal, the submission of a seal and the rebuild
    trigger. Every function is written over the critical sections it is made
    of; [miner_step] interleaves those sections. *)

From stdpp Require Import base option list numbers gmap.
From S2P Require Import Prelude Crypto RandomX Admission SeedCache SeedCacheProps Header PowImport.
#[local] Open Scope Z_scope.

Record MiningMetadata := {
  md_best_hash : Hash256;
  md_pre_hash : Hash256;
  md_author_label : list Z;
  md_difficulty : Z;
  md_height : Z;
  md_seed_hash : Hash256;
  md_next_seed_hash : Hash256;
  md_seed_height : Z;
}.

Record MiningBuild (Body : Type) := { build_metadata : MiningMetadata; proposal_header : Header; proposal_body : Body }.
Arguments build_metadata {Body}. Arguments proposal_header {Body}. Arguments proposal_body {Body}.

(** [wakes] is the number of messages in the rebuild channel. *)
Record MiningHandle (Body : Type) := {
  hversion : Z;
  authoring_gate : bool;
  hbuild : option (MiningBuild Body);
  pending_build : option Hash256;
  wakes : Z;
}.
Arguments hversion {Body}. Arguments authoring_gate {Body}. Arguments hbuild {Body}.
Arguments pending_build {Body}. Arguments wakes {Body}.

Section Handle.
Context {Body : Type}.
Implicit Types (w : MiningHandle Body).

Definition handle_new : MiningHandle Body :=
  {| hversion := 0; authoring_gate := false; hbuild := None; pending_build := None; wakes := 0 |}.

Definition put_gate (g : bool) w : MiningHandle Body :=
  {| hversion := hversion w; authoring_gate := g; hbuild := hbuild w; pending_build := pending_build w; wakes := wakes w |}.
Definition put_build (b : option (MiningBuild Body)) w : MiningHandle Body :=
  {| hversion := hversion w; authoring_gate := authoring_gate w; hbuild := b; pending_build := pending_build w; wakes := wakes w |}.
Definition put_pending (o : option Hash256) w : MiningHandle Body :=
  {| hversion := hversion w; authoring_gate := authoring_gate w; hbuild := hbuild w; pending_build := o; wakes := wakes w |}.
Definition put_wakes (k : Z) w : MiningHandle Body :=
  {| hversion := hversion w; authoring_gate := authoring_gate w; hbuild := hbuild w; pending_build := pending_build w; wakes := k |}.

(** [fetch_add] on a [usize]. *)
Definition increment_version w : MiningHandle Body :=
  {| hversion := (hversion w + 1) mod 2 ^ 64; authoring_gate := authoring_gate w; hbuild := hbuild w;
     pending_build := pending_build w; wakes := wakes w |}.

(** [AuthoringGate::set_enabled]: whether the gate moved. *)
Definition gate_set_enabled (enabled : bool) w : MiningHandle Body * bool :=
  (put_gate enabled w, negb (Bool.eqb (authoring_gate w) enabled)).

(** [try_send]: a fresh clone always has a slot; [full] says a sender whose
    slot is taken found the channel full, which then holds a message. *)
Definition try_send (full : bool) w : MiningHandle Body :=
  if full && (0 <? wakes w) then w else put_wakes (wakes w + 1) w.

Definition request_rebuild (best : Hash256) w : MiningHandle Body :=
  if authoring_gate w then try_send false (put_pending (Some best) w) else w.

Definition set_authoring_enabled (enabled : bool) (best : Hash256) w : MiningHandle Body :=
  let (w, moved) := gate_set_enabled enabled w in
  if moved then
    let w := put_pending None w in
    if enabled then request_rebuild best w else increment_version (put_build None w)
  else w.

Definition handle_best_hash w : option Hash256 :=
  if authoring_gate w then (λ b, md_best_hash (build_metadata b)) <$> hbuild w else None.
Definition handle_metadata w : option MiningMetadata :=
  if authoring_gate w then build_metadata <$> hbuild w else None.

(** The trigger task: one trigger with the client's best hash. *)
Inductive RebuildTrigger := Initial | BlockImported | NewTransactions.
#[global] Instance rebuild_trigger_eq_dec : EqDecision RebuildTrigger.
Proof. solve_decision. Defined.

Definition trigger_task (trigger : RebuildTrigger) (best : Hash256) (full : bool) w : MiningHandle Body :=
  if negb (authoring_gate w) then w
  else if bool_decide (trigger = BlockImported) && bool_decide (handle_best_hash w = Some best) then w
  else try_send full (put_pending (Some best) w).
End Handle.

(** ** The seal and the proposal *)
Section Work.
Context {C X Body Cache VM EE : Type} `{PowClient C X Body, RandomXOps Cache VM EE, HeaderCodec}.
Implicit Types (cl : C) (eng : Engine Cache VM) (w : MiningHandle Body).
#[local] Abbreviation PErr := (PowError X EE).

Definition on_build (value : MiningBuild Body) eng w : Engine Cache VM * MiningHandle Body :=
  if authoring_gate w then
    (pin_seeds (md_seed_hash (build_metadata value)) (md_next_seed_hash (build_metadata value)) eng,
     increment_version (put_build (Some value) w))
  else (eng, w).

(** The check [submit] makes against the template it built. *)
Definition check_template (seal : list Z) (md : MiningMetadata) eng : Engine Cache VM * bool :=
  match seal_decode seal with
  | Err _ => (eng, false)
  | Ok decoded =>
      match check_seal (X := X) (md_pre_hash md) (md_height md) (md_seed_hash md) decoded (md_difficulty md) eng with
      | (eng, Ok _) => (eng, true)
      | (eng, Err _) => (eng, false)
      end
  end.

(** The block handed to the importer. [ApplyChanges] does not skip the
    execution checks. *)
Definition mined_block (seal : list Z) (b : MiningBuild Body) : BlockImportParams Body PErr :=
  {| bip_header := proposal_header b; post_digests := [DigestSeal POW_ENGINE_ID seal]; body := Some (proposal_body b);
     skip_execution_checks := false; fork_choice := None; refusal := None |}.

Definition submit (decode_error : X) (now : Z) (seal : list Z) cl eng w : C * Engine Cache VM * MiningHandle Body * bool :=
  if negb (authoring_gate w) then (cl, eng, w, false)
  else
    match hbuild w with
    | None => (cl, eng, w, false)
    | Some b =>
        match check_template seal (build_metadata b) eng with
        | (eng, false) => (cl, eng, w, false)
        | (eng, true) =>
            let w := increment_version (put_build None w) in
            match import_block decode_error now (mined_block seal b) cl eng with
            | (cl, eng, Ok _) => (cl, eng, w, true)
            | (cl, eng, Err _) => (cl, eng, request_rebuild (best_hash (info cl)) w, false)
            end
        end
    end.

(** [create_proposal]: [label] is the operator's [AuthorLabel], [propose] the
    inherents, the proposer and its block; [best_now] is the best hash after
    the build. *)
Definition create_proposal cl (label : Hash256 → list Z) (propose : Header → Digest → option (Header * Body))
    (best_now target : Hash256) : option (MiningBuild Body) :=
  match client_header cl target, get_difficulty cl target with
  | Ok (Some best_header), Ok difficulty =>
      let height := sat_add 64 (number best_header) 1 in
      match seed_hashes (EE := EE) cl target height with
      | Ok (seed, next, sh) =>
          '(h, b) ← propose best_header [PreRuntime POW_ENGINE_ID (label target)];
          if bool_decide (best_now = target) then
            Some {| build_metadata := {| md_best_hash := target; md_pre_hash := header_hash h; md_author_label := label target;
                      md_difficulty := difficulty; md_height := height; md_seed_hash := seed; md_next_seed_hash := next;
                      md_seed_height := sh |};
                    proposal_header := h; proposal_body := b |}
          else None
      | Err _ => None
      end
  | _, _ => None
  end.

(** The build task, once woken. *)
Definition build_task cl (label : Hash256 → list Z) (propose : Header → Digest → option (Header * Body))
    (best_now : Hash256) eng w : Engine Cache VM * MiningHandle Body :=
  match pending_build w with
  | None => (eng, w)
  | Some target =>
      let w := put_pending None w in
      if negb (authoring_gate w) then (eng, w)
      else match create_proposal cl label propose best_now target with
           | Some b => on_build b eng w
           | None => (eng, w)
           end
  end.
End Work.

(** ** [UntilImportedOrTransaction]

    The delay is its deadline. One poll sees the import stream ([Some None]
    when it has ended) and the number of transaction notifications ready. *)
Record Trigger := {
  min_rebuild_interval : Z;
  rate_limit_delay : option Z;
  initial_fired : bool;
  has_pending_tx : bool;
}.
Definition trigger_new (interval : Z) : Trigger :=
  {| min_rebuild_interval := interval; rate_limit_delay := None; initial_fired := false; has_pending_tx := false |}.

Definition put_trigger (d : option Z) (tx : bool) (s : Trigger) : Trigger :=
  {| min_rebuild_interval := min_rebuild_interval s; rate_limit_delay := d; initial_fired := true; has_pending_tx := tx |}.

(** [None] is [Poll::Pending]. *)
Definition poll_next (now : Z) (import_ready : option (option unit)) (tx_ready : nat) (s : Trigger) :
    Trigger * option (option RebuildTrigger) :=
  if negb (initial_fired s) then (put_trigger (rate_limit_delay s) (has_pending_tx s) s, Some (Some Initial))
  else
    match import_ready with
    | Some (Some _) => (put_trigger None false s, Some (Some BlockImported))
    | Some None => (s, Some None)
    | None =>
        let pending := has_pending_tx s || negb (tx_ready =? 0)%nat in
        let can_fire := match rate_limit_delay s with None => true | Some deadline => deadline <=? now end in
        if pending && can_fire
        then (put_trigger (Some (now + min_rebuild_interval s)) false s, Some (Some NewTransactions))
        else (put_trigger (rate_limit_delay s) pending s, None)
    end.
