(* ===== verification/MinerProps.v ===== *)
(** * The mining worker under concurrency

    [miner_step] interleaves the critical sections of the handle's functions
    over any number of threads. What the readers of the handle rely on: the
    version names the build, a paused handle holds none, no rebuild request is
    lost; what [submit] takes is what the importer accepts; and the trigger's
    rate limit. *)

From stdpp Require Import base option list numbers gmap fin_maps.
From S2P Require Import Prelude Crypto RandomX Admission SeedCache SeedCacheProps Header PowImport PowImportProps Miner.
#[local] Open Scope Z_scope.

(** ** The machine *)
Section Machine.
Context {Body : Type}.
Implicit Types (h : MiningHandle Body) (b : MiningBuild Body).

(** Where a thread stands. [Building], [Stored], [Checking] and [Taken] hold
    the build lock. *)
Inductive MThread :=
| Toggled (enabled : bool)
| Calling
| Requesting
| Notifying
| Disabling
| Bumping
| Woken
| Target (target : Hash256)
| Proposed (b : MiningBuild Body)
| Building (b : MiningBuild Body)
| Stored
| Checking (seal : list Z)
| Taken (b : MiningBuild Body) (seal : list Z)
| Importing (b : MiningBuild Body) (seal : list Z).

Record Mine := { handle : MiningHandle Body; workers : gmap nat MThread; build_held : option nat; bumps : Z }.

Definition put_worker (n : nat) (o : option MThread) (m : gmap nat MThread) : gmap nat MThread := partial_alter (λ _, o) n m.
(** One thread moves to [o]; the handle and the lock become [h] and [lk]. *)
Definition move (n : nat) (o : option MThread) h (lk : option nat) (w : Mine) : Mine :=
  {| handle := h; workers := put_worker n o (workers w); build_held := lk; bumps := bumps w |}.
(** The same, having incremented the version. [bumps] counts the increments. *)
Definition move_bump (n : nat) (o : option MThread) (lk : option nat) (w : Mine) : Mine :=
  {| handle := increment_version (handle w); workers := put_worker n o (workers w); build_held := lk; bumps := bumps w + 1 |}.

(** [accepts seal md]: the seal passed the template's check. *)
Context (accepts : list Z → MiningMetadata → Prop).

Inductive miner_step : Mine → Mine → Prop :=
(* set_authoring_enabled *)
| ms_toggle w n e h' : workers w !! n = None → gate_set_enabled e (handle w) = (h', true) →
    miner_step w (move n (Some (Toggled e)) h' (build_held w) w)
| ms_clear w n e : workers w !! n = Some (Toggled e) →
    miner_step w (move n (Some (if e then Calling else Disabling)) (put_pending None (handle w)) (build_held w) w)
| ms_drop w n : workers w !! n = Some Disabling → build_held w = None →
    miner_step w (move n (Some Bumping) (put_build None (handle w)) None w)
| ms_bump w n : workers w !! n = Some Bumping → miner_step w (move_bump n None (build_held w) w)
(* request_rebuild and the trigger task *)
| ms_call w n : workers w !! n = None → miner_step w (move n (Some Calling) (handle w) (build_held w) w)
| ms_request w n : workers w !! n = Some Calling →
    miner_step w (move n (if authoring_gate (handle w) then Some Requesting else None) (handle w) (build_held w) w)
| ms_pend w n best : workers w !! n = Some Requesting →
    miner_step w (move n (Some Notifying) (put_pending (Some best) (handle w)) (build_held w) w)
| ms_notify w n full : workers w !! n = Some Notifying →
    miner_step w (move n None (try_send full (handle w)) (build_held w) w)
(* the build task *)
| ms_wake w n : workers w !! n = None → 0 < wakes (handle w) →
    miner_step w (move n (Some Woken) (put_wakes (wakes (handle w) - 1) (handle w)) (build_held w) w)
| ms_take w n : workers w !! n = Some Woken →
    miner_step w (move n (Target <$> pending_build (handle w)) (put_pending None (handle w)) (build_held w) w)
| ms_propose w n target o : workers w !! n = Some (Target target) → (o = None ∨ authoring_gate (handle w) = true) →
    miner_step w (move n (Proposed <$> o) (handle w) (build_held w) w)
| ms_on_build w n b : workers w !! n = Some (Proposed b) → build_held w = None →
    miner_step w (move n (if authoring_gate (handle w) then Some (Building b) else None) (handle w)
      (if authoring_gate (handle w) then Some n else None) w)
| ms_store w n b : workers w !! n = Some (Building b) →
    miner_step w (move n (Some Stored) (put_build (Some b) (handle w)) (build_held w) w)
| ms_stored w n : workers w !! n = Some Stored → miner_step w (move_bump n None None w)
(* submit *)
| ms_submit w n seal : workers w !! n = None → build_held w = None → authoring_gate (handle w) = true →
    is_Some (hbuild (handle w)) → miner_step w (move n (Some (Checking seal)) (handle w) (Some n) w)
| ms_reject w n seal : workers w !! n = Some (Checking seal) → miner_step w (move n None (handle w) None w)
| ms_accept w n seal b : workers w !! n = Some (Checking seal) → hbuild (handle w) = Some b →
    accepts seal (build_metadata b) →
    miner_step w (move n (Some (Taken b seal)) (put_build None (handle w)) (build_held w) w)
| ms_taken w n b seal : workers w !! n = Some (Taken b seal) → miner_step w (move_bump n (Some (Importing b seal)) None w)
| ms_import w n b seal (ok : bool) : workers w !! n = Some (Importing b seal) →
    miner_step w (move n (if ok then None else Some Calling) (handle w) (build_held w) w).

Definition mine0 : Mine := {| handle := handle_new; workers := ∅; build_held := None; bumps := 0 |}.
Definition mine_reach (w : Mine) : Prop := rtc miner_step mine0 w.

Definition holds_lock (t : MThread) : Prop :=
  match t with Building _ | Stored | Checking _ | Taken _ _ => True | _ => False end.
(** The thread changed the build and has not incremented the version yet. *)
Definition owes (t : MThread) : Z := match t with Bumping | Stored | Taken _ _ => 1 | _ => 0 end.
(** It will leave a message in the channel, or is about to read the request. *)
Definition will_serve (t : MThread) : Prop := match t with Notifying | Woken => True | _ => False end.
(** It will drop the build of a paused handle. *)
Definition will_drop (t : MThread) : Prop := match t with Toggled false | Disabling => True | _ => False end.
(** It may still write a build. *)
Definition may_build (t : MThread) : Prop := match t with Building _ => True | _ => False end.

Definition debt (m : gmap nat MThread) : Z := map_fold (λ _ t acc, owes t + acc) 0 m.

Lemma debt_insert n t m : m !! n = None → debt (<[n := t]> m) = owes t + debt m.
Proof. intros Hn. unfold debt. rewrite map_fold_insert_L; [done|intros; lia|done]. Qed.

Lemma owes_nonneg t : 0 ≤ owes t.
Proof. by destruct t. Qed.

Lemma debt_nonneg m : 0 ≤ debt m.
Proof.
  induction m as [|n t m Hn IH] using map_ind; [done|]. rewrite debt_insert by done. pose proof (owes_nonneg t). lia.
Qed.

Definition owes_opt (o : option MThread) : Z := default 0 (owes <$> o).

Lemma put_worker_spec n (o : option MThread) m :
  put_worker n o m = match o with Some t => <[n := t]> (delete n m) | None => delete n m end.
Proof.
  apply map_eq. intros k. unfold put_worker. destruct (decide (k = n)) as [->|Hne].
  - rewrite lookup_partial_alter_eq. destruct o; by rewrite ?lookup_insert_eq, ?lookup_delete_eq.
  - rewrite lookup_partial_alter_ne by done. destruct o; rewrite ?lookup_insert_ne, ?lookup_delete_ne; done.
Qed.

Lemma debt_put n (o : option MThread) m : debt (put_worker n o m) = debt m - owes_opt (m !! n) + owes_opt o.
Proof.
  assert (Hd : debt (delete n m) = debt m - owes_opt (m !! n)).
  { destruct (m !! n) as [t|] eqn:Hn; [|rewrite delete_id by done; cbn; lia].
    rewrite <- (insert_delete_id m n t Hn) at 2. rewrite debt_insert by apply lookup_delete_eq. cbn. lia. }
  rewrite put_worker_spec. destruct o as [t|]; [|rewrite Hd; cbn; lia].
  rewrite debt_insert by apply lookup_delete_eq. cbn. lia.
Qed.

Lemma put_worker_lookup n (o : option MThread) m k t :
  put_worker n o m !! k = Some t → (k = n ∧ o = Some t) ∨ (k ≠ n ∧ m !! k = Some t).
Proof.
  unfold put_worker. destruct (decide (k = n)) as [->|Hne];
    [rewrite lookup_partial_alter_eq; by left|rewrite lookup_partial_alter_ne by done; by right].
Qed.

Definition some_worker (P : MThread → Prop) (m : gmap nat MThread) : Prop := ∃ k t, m !! k = Some t ∧ P t.

Lemma some_worker_put P n (o : option MThread) m :
  some_worker P m → (∀ t, m !! n = Some t → P t → ∃ t', o = Some t' ∧ P t') → some_worker P (put_worker n o m).
Proof.
  intros (k & t & Hk & Ht) Hn. destruct (decide (k = n)) as [->|Hne].
  - destruct (Hn t Hk Ht) as (t' & -> & ?). exists n, t'. split; [|done]. unfold put_worker. by rewrite lookup_partial_alter_eq.
  - exists k, t. split; [|done]. unfold put_worker. by rewrite lookup_partial_alter_ne.
Qed.
Lemma some_worker_new (P : MThread → Prop) n t m : P t → some_worker P (put_worker n (Some t) m).
Proof. intros Ht. exists n, t. split; [|done]. unfold put_worker. by rewrite lookup_partial_alter_eq. Qed.
Lemma some_worker_back (P : MThread → Prop) n (o : option MThread) m :
  some_worker P (put_worker n o m) → (∀ t, o = Some t → P t → ∃ t', m !! n = Some t' ∧ P t') → some_worker P m.
Proof.
  intros (k & t & Hk & Ht) Ho. apply put_worker_lookup in Hk as [[-> E]|[_ Hk]]; [|by exists k, t].
  destruct (Ho t E Ht) as (t' & ? & ?). by exists n, t'.
Qed.

Record mine_ok (w : Mine) : Prop := {
  mo_bumps : 0 ≤ bumps w;
  mo_version : hversion (handle w) = bumps w mod 2 ^ 64;
  mo_lock : ∀ n t, workers w !! n = Some t → holds_lock t → build_held w = Some n;
  mo_pause : authoring_gate (handle w) = false → is_Some (hbuild (handle w)) ∨ some_worker may_build (workers w) →
    some_worker will_drop (workers w);
  mo_wakes : 0 ≤ wakes (handle w);
  mo_pending : is_Some (pending_build (handle w)) → 0 < wakes (handle w) ∨ some_worker will_serve (workers w);
}.

(** The moves that leave the lock's holder alone. *)
Lemma lock_put (m : gmap nat MThread) n (o : option MThread) (lk lk' : option nat) :
  (∀ k t, m !! k = Some t → holds_lock t → lk = Some k) →
  (∀ t, o = Some t → holds_lock t → lk' = Some n) → (lk' = lk ∨ lk = None ∨ lk = Some n) →
  ∀ k t, put_worker n o m !! k = Some t → holds_lock t → lk' = Some k.
Proof.
  intros Hm Ho Hlk k t [[-> E]|[Hne Hk]]%put_worker_lookup Ht; [by eapply Ho|]. specialize (Hm k t Hk Ht).
  destruct Hlk as [-> |[-> | ->]]; [done|done|]. congruence.
Qed.

Lemma put_stable P n o (m : gmap nat MThread) t0 :
  m !! n = t0 → (∀ t, t0 = Some t → ¬ P t) → some_worker P m → some_worker P (put_worker n o m).
Proof. intros E Hn Hs. apply some_worker_put; [done|]. intros t Ht Hp. rewrite E in Ht. by destruct (Hn t Ht). Qed.
Lemma put_stable_back P n o (m : gmap nat MThread) :
  (∀ t, o = Some t → ¬ P t) → some_worker P (put_worker n o m) → some_worker P m.
Proof. intros Hn Hs. eapply some_worker_back; [done|]. intros t Ht Hp. by destruct (Hn t Ht). Qed.

(** Steps that change neither the gate, the build nor the lock's state of
    affairs keep the pause invariant; likewise for the request. *)
Ltac no_thread := intros ? E0; repeat case_match; simplify_eq; cbn; tauto.
Ltac keep_pause Hp := let Hg := fresh in let Hb := fresh in intros Hg Hb;
  eapply put_stable; [eassumption|no_thread|apply Hp; [exact Hg|]];
  destruct Hb as [Hb|Hb]; [left; exact Hb|right; revert Hb; apply put_stable_back; no_thread].
Ltac keep_pending Hq := let Hs := fresh in intros Hs;
  destruct (Hq Hs); [left; assumption|right; eapply put_stable; [eassumption|no_thread|assumption]].
Ltac keep_lock Hl := eapply lock_put; [exact Hl|intros ? E0 Hlk0; repeat case_match; simplify_eq; cbn in *; try done; eauto|auto].

Lemma try_send_wakes full (h : MiningHandle Body) :
  0 ≤ wakes h → 0 < wakes (try_send full h) ∧ authoring_gate (try_send full h) = authoring_gate h ∧
  hbuild (try_send full h) = hbuild h ∧ hversion (try_send full h) = hversion h ∧ pending_build (try_send full h) = pending_build h.
Proof. intros Hw. unfold try_send. destruct full; cbn; [destruct (Z.ltb_spec 0 (wakes h))|]; cbn; split_and!; try done; lia. Qed.

Lemma bump_version k : 0 ≤ k → (k mod 2 ^ 64 + 1) mod 2 ^ 64 = (k + 1) mod 2 ^ 64.
Proof. intros _. by rewrite Zplus_mod_idemp_l. Qed.

Lemma miner_step_ok w w' : mine_ok w → miner_step w w' → mine_ok w'.
Proof.
  intros [Hb Hv Hl Hp Hw Hq] Hs.
  assert (Hown : ∀ n t, workers w !! n = Some t → holds_lock t → build_held w = None ∨ build_held w = Some n) by (intros; right; eauto).
  destruct Hs as [w n e h' Hn Hg|w n e Hn|w n Hn Hlk|w n Hn|w n Hn|w n Hn|w n best Hn|w n full Hn|w n Hn Hwk|w n Hn
    |w n tg o Hn Ho|w n b Hn Hlk|w n b Hn|w n Hn|w n seal Hn Hlk Hg Hbd|w n seal Hn|w n seal b Hn Hbd Ha|w n b seal Hn
    |w n b seal ok Hn].
  1: injection Hg as <- Hg.
  8: pose proof (try_send_wakes full (handle w) Hw) as (Tw & Tg & Tb & Tv & Tp).
  10: destruct (pending_build (handle w)) as [tg|] eqn:Hpb.
  12: destruct o as [b|].
  all: split; cbn [move move_bump handle workers build_held bumps fmap option_fmap option_map increment_version hversion
    put_build put_pending put_wakes put_gate authoring_gate hbuild wakes pending_build] in *; rewrite ?Tg, ?Tb, ?Tv, ?Tp;
    try assumption; try (by keep_lock Hl); try (by keep_pause Hp); try (by keep_pending Hq); try lia;
    try (rewrite Hv; by apply bump_version); try (by intros [? ?]);
    try (by intros _; right; apply some_worker_new);
    try (eapply lock_put; [exact Hl|by intros|by eauto]).
  - intros ->. intros _. by apply some_worker_new.
  - intros Hg Hd. destruct e; [|by apply some_worker_new]. eapply put_stable; [exact Hn|no_thread|apply Hp; [done|]].
    destruct Hd as [?|Hd]; [by left|right]. revert Hd. apply put_stable_back. no_thread.
  - intros _ [[? ?]|(k & t & Hk & Ht)]; [done|]. apply put_worker_lookup in Hk as [[_ [= <-]]|[_ Hk]]; [done|].
    destruct t; try done. pose proof (Hl k _ Hk I). congruence.
  - intros Hg _. eapply put_stable; [exact Hn|no_thread|apply Hp; [done|]]. right. by exists n, (Building b).
  - eapply lock_put; [exact Hl|done|]. right. by apply (Hown n Stored).
  - eapply lock_put; [exact Hl|done|]. right. by apply (Hown n (Checking seal)).
  - intros Hg [[? ?]|Hd]; [done|]. eapply put_stable; [exact Hn|no_thread|apply Hp; [done|]].
    right. revert Hd. apply put_stable_back. no_thread.
  - eapply lock_put; [exact Hl|by intros t [= <-]|]. right. by apply (Hown n (Taken b seal)).
Qed.

Lemma mine_reach_ok w : mine_reach w → mine_ok w.
Proof.
  intros Hr. assert (H0 : mine_ok mine0).
  { split; cbn; try done. intros _ [[? ?]|(k & t & Hk & _)]; [done|]. by apply lookup_empty_Some in Hk. }
  unfold mine_reach in Hr. induction Hr as [|w1 w2 w3 H12 _ IH]; [done|]. apply IH. by eapply miner_step_ok.
Qed.

(** ** The version *)
Definition stamp (w : Mine) : Z := bumps w + debt (workers w).

Lemma step_stamp w w' : miner_step w w' →
  stamp w ≤ stamp w' ∧ bumps w ≤ bumps w' ∧ (hbuild (handle w') = hbuild (handle w) ∨ stamp w < stamp w').
Proof.
  intros Hs. unfold stamp.
  destruct Hs as [w n e h' Hn Hg|w n e Hn|w n Hn Hlk|w n Hn|w n Hn|w n Hn|w n best Hn|w n full Hn|w n Hn Hwk|w n Hn
    |w n tg o Hn Ho|w n b Hn Hlk|w n b Hn|w n Hn|w n seal Hn Hlk Hg Hbd|w n seal Hn|w n seal b Hn Hbd Ha|w n b seal Hn
    |w n b seal ok Hn]; cbn [move move_bump workers bumps handle]; rewrite debt_put, Hn; cbn [owes_opt fmap option_fmap option_map default owes].
  1: injection Hg as <- _.
  8: { unfold try_send. destruct (_ && _); cbn; split_and!; try lia; by left. }
  9: destruct (pending_build (handle w)). 11: destruct o.
  all: repeat case_match; cbn; split_and!; try lia; try (by left); right; lia.
Qed.

Lemma run_stamp w w' : rtc miner_step w w' →
  stamp w ≤ stamp w' ∧ bumps w ≤ bumps w' ∧ (stamp w = stamp w' → hbuild (handle w') = hbuild (handle w)).
Proof.
  induction 1 as [w|w1 w2 w3 H12 _ (IH1 & IH2 & IH3)]; [done|].
  destruct (step_stamp w1 w2 H12) as (S1 & S2 & S3). split_and!; [lia|lia|]. intros E0.
  destruct S3 as [<- |?]; [apply IH3; lia|lia].
Qed.

(** Nobody is between changing the build and counting the change. *)
Definition settled (w : Mine) : Prop := debt (workers w) = 0.

(** The version names the build. However threads toggle, build, submit
    and rebuild in between, two settled states with one version hold the same
    build (fewer than 2^64 changes apart), so a rig that compares versions
    never mines a stale template. *)
Theorem version_names_the_build w w' (Hreach : mine_reach w) (Hrun : rtc miner_step w w')
    (Hset : settled w) (Hset' : settled w') (Hfew : bumps w' - bumps w < 2 ^ 64)
    (Hver : hversion (handle w') = hversion (handle w)) :
  hbuild (handle w') = hbuild (handle w).
Proof.
  assert (Hreach' : mine_reach w') by (unfold mine_reach in *; by etrans). apply mine_reach_ok in Hreach as Hok, Hreach' as Hok'.
  destruct (run_stamp w w' Hrun) as (_ & Hb & Hst). apply Hst. unfold stamp. rewrite Hset, Hset'.
  rewrite (mo_version _ Hok), (mo_version _ Hok') in Hver.
  assert (Hd : (bumps w' - bumps w) mod 2 ^ 64 = 0) by (rewrite Zminus_mod, Hver, Z.sub_diag; done).
  rewrite Z.mod_small in Hd by lia. lia.
Qed.

(** A paused handle is empty. When authoring is paused and no call that
    pauses it is still on its way to the build, the handle holds no build and
    no thread can still store one; so nothing can be mined or submitted. *)
Theorem paused_handle_is_empty w (Hreach : mine_reach w) (Hpaused : authoring_gate (handle w) = false)
    (Hdone : ¬ some_worker will_drop (workers w)) :
  hbuild (handle w) = None ∧ ¬ some_worker may_build (workers w) ∧ handle_metadata (handle w) = None.
Proof.
  apply mine_reach_ok in Hreach as Hok. pose proof (mo_pause w Hok Hpaused) as Hp. split_and!.
  - destruct (hbuild (handle w)) eqn:Hh; [|done]. destruct Hdone. apply Hp. left. by eexists.
  - intros Hm. apply Hdone, Hp. by right.
  - unfold handle_metadata. by rewrite Hpaused.
Qed.

(** C38: no rebuild request is lost. Whenever a request is pending, a message
    waits in the channel, or a thread is about to send one, or the build task
    is about to read the request. *)
Theorem no_request_is_lost w (Hreach : mine_reach w) :
  pending_build (handle w) = None ∨ 0 < wakes (handle w) ∨ some_worker will_serve (workers w).
Proof.
  apply mine_reach_ok in Hreach as Hok. destruct (pending_build (handle w)) eqn:Hp; [right|by left].
  apply (mo_pending w Hok). rewrite Hp. by eexists.
Qed.

End Machine.
Arguments MThread : clear implicits.
Arguments Mine : clear implicits.

(** ** Submitting a seal *)
Section Submit.
Context {C X Body Cache VM EE : Type} `{PowClient C X Body} `{RandomXLaws Cache VM EE} `{HeaderCodec}.
Implicit Types (cl : C) (eng : Engine Cache VM).

Lemma create_proposal_Some cl label propose best_now target (b : MiningBuild Body) :
  create_proposal (EE := EE) cl label propose best_now target = Some b →
  let md := build_metadata b in
  md_best_hash md = target ∧ best_now = target ∧ md_pre_hash md = header_hash (proposal_header b) ∧
  get_difficulty cl target = Ok (md_difficulty md) ∧
  seed_hashes (EE := EE) cl target (md_height md) = Ok (md_seed_hash md, md_next_seed_hash md, md_seed_height md).
Proof.
  unfold create_proposal. destruct (client_header cl target) as [[hd|]|e]; [|done..].
  destruct (get_difficulty cl target) as [d|e]; [|done].
  destruct (seed_hashes _ _ _) as [[[seed next] sh]|e] eqn:Hs; [|done].
  destruct (propose hd _) as [[h bd]|]; [|done]. cbn. case_bool_decide as Hb; [|done]. intros [= <-]. cbn. by rewrite Hs.
Qed.

Lemma check_template_spec seal md eng :
  table_ok eng →
  let '(_, ok) := check_template (X := X) (EE := EE) seal md eng in
  let meets s := meets_difficulty (rx (md_seed_hash md)
    (build_blob (md_pre_hash md) (md_height md) (seal_extra_nonce s) (seal_nonce s))) (md_difficulty md) in
  (ok = true → ∃ s, seal_decode seal = Ok s ∧ meets s = true) ∧
  (ok = false → ∀ s, seal_decode seal = Ok s → meets s = false ∨
     ∃ e, (check_seal (X := X) (EE := EE) (md_pre_hash md) (md_height md) (md_seed_hash md) s (md_difficulty md) eng).2
       = Err (EngineFailed e)).
Proof.
  intros Hok. unfold check_template. destruct (seal_decode seal) as [s|e]; [|split; [done|by intros _ s]].
  pose proof (check_seal_spec (X := X) (EE := EE) (md_pre_hash md) (md_height md) (md_seed_hash md) s (md_difficulty md) eng Hok) as Hc.
  destruct (check_seal _ _ _ _ _ _) as [eng' [h|e]] eqn:He; destruct Hc as [_ Hc]; (split; [intros Ht|intros Ht]); try done.
  - by exists s.
  - intros s' [= <-]. rewrite He. cbn [snd]. destruct e; first [by left|right; destruct Hc as [e' Hc]; try done; simplify_eq; by exists e'].
Qed.

Lemma import_prepare_sound (de : X) cl now (p : BlockImportParams Body (PowError X EE)) eng eng' pr :
  table_ok eng → import_prepare de cl now p eng = (eng', Ok pr) →
  ∃ seal d, fetch_seal (last (post_digests p)) (header_hash (bip_header p)) = Ok (E := PowError X EE) seal ∧
    pow_valid cl (parent_hash (bip_header p)) (number (bip_header p)) (header_hash (bip_header p))
      (header_hash (post_header p)) seal d.
Proof.
  intros Hok. unfold import_prepare. destruct (_ : result _ (list Z)) as [seal|e] eqn:Hpro; [|done].
  pose proof (verify_pow_rule cl now (parent_hash (bip_header p)) (number (bip_header p)) (header_hash (bip_header p))
    (header_hash (post_header p)) seal None eng Hok) as Hrule.
  destruct (verify_pow _ _ _ _ _ _ _ _ _) as [[e1 b1] [d|e]]; destruct Hrule as (_ & Hs & _); [|done].
  intros _. exists seal, d. split; [|by apply Hs].
  apply bind_Ok in Hpro as ([] & _ & Hpro). apply bind_Ok in Hpro as ([] & _ & Hpro). by apply bind_Ok in Hpro as ([] & _ & Hpro).
Qed.

(** The miner and the importer agree on a seal. For a template built on
    the client's own state, whatever either engine has cached: a seal that
    passes [submit]'s check makes a block the importer admits with its
    parent's work plus the template's difficulty, and a seal that fails it
    makes none the importer would admit; inherents, an unreadable parent work
    and RandomX failures apart. *)
Theorem miner_and_importer_agree (de : X) cl label propose best_now target (b : MiningBuild Body) seal now eng eng2
    (Hok : table_ok eng) (Hok2 : table_ok eng2)
    (Hbuild : create_proposal (EE := EE) cl label propose best_now target = Some b)
    (Hparent : parent_hash (proposal_header b) = target) (Hnum : number (proposal_header b) = md_height (build_metadata b))
    (Hwin : check_digest_commitment_window (digest (proposal_header b) ++ [DigestSeal POW_ENGINE_ID seal])
      (number (proposal_header b)) = Ok tt)
    (Hpos : check_header_position (EE := EE) cl target (md_height (build_metadata b))
      (header_hash (post_header (mined_block (X := X) (EE := EE) seal b))) = Ok tt) :
  let '(_, ok) := check_template (X := X) (EE := EE) seal (build_metadata b) eng in
  (ok = true → ∃ eng3,
     (∃ w, get_cumulative_achieved_work de target cl = Ok w ∧ import_prepare (EE := EE) de cl now (mined_block seal b) eng2 =
       (eng3, Ok {| pr_params := mined_block seal b; pr_new_work := sat_add 512 w (md_difficulty (build_metadata b)) |})) ∨
     ∃ e, refused_otherwise de cl (mined_block seal b) e ∧ import_prepare de cl now (mined_block seal b) eng2 = (eng3, Err e)) ∧
  (ok = false → ∀ eng3 pr, import_prepare (EE := EE) de cl now (mined_block seal b) eng2 = (eng3, Ok pr) →
     ∃ s e, (check_seal (X := X) (EE := EE) (md_pre_hash (build_metadata b)) (md_height (build_metadata b))
       (md_seed_hash (build_metadata b)) s (md_difficulty (build_metadata b)) eng).2 = Err (EngineFailed e)).
Proof.
  apply create_proposal_Some in Hbuild as (_ & _ & Hpre & Hd & Hseed).
  pose proof (check_template_spec seal (build_metadata b) eng Hok) as Hc.
  destruct (check_template _ _ _) as [e1 ok]. destruct Hc as [Ht Hf]. split.
  - intros ->. destruct Ht as (s & Hs & Hm); [done|].
    destruct (import_prepare_valid (EE := EE) de cl now (mined_block seal b) eng2 seal (md_difficulty (build_metadata b)))
      as (eng3 & _ & Hres); try done.
    + cbn [mined_block bip_header]. rewrite Hparent, Hnum. exists s, (md_seed_hash (build_metadata b)).
      eexists _, _. split_and!; [done|done|done|exact Hseed|by rewrite <- Hpre].
    + cbn [mined_block bip_header] in Hres. rewrite Hparent in Hres. by exists eng3.
  - intros -> eng3 pr Hi. apply import_prepare_sound in Hi as (seal' & d & Hseal & Hv); [|done].
    cbn [mined_block post_digests last fetch_seal bip_header] in Hseal, Hv.
    rewrite bool_decide_eq_true_2 in Hseal by done. injection Hseal as <-. rewrite Hparent, Hnum in Hv.
    destruct Hv as (s & seed & next & sh & Hs & _ & Hd' & Hseed' & Hm). rewrite Hd in Hd'. rewrite Hseed in Hseed'. simplify_eq.
    rewrite <- Hpre in Hm. destruct (Hf eq_refl s Hs) as [Hbad|He]; [congruence|]. by exists s.
Qed.
End Submit.

(** ** The rebuild trigger *)
Section Rebuild.
(** Polls in time order: what each saw and what it answered. *)
Inductive polls : Z → Trigger → list (Z * option (option RebuildTrigger)) → Trigger → Prop :=
| polls_nil t s : polls t s [] s
| polls_cons t now imp txs s s1 r tr s' :
    t ≤ now → poll_next now imp txs s = (s1, r) → polls now s1 tr s' → polls t s ((now, r) :: tr) s'.

Abbreviation fired := (Some (Some NewTransactions)).

Lemma polls_app t s a b s' : polls t s (a ++ b) s' → ∃ t1 s1, t ≤ t1 ∧ polls t s a s1 ∧ polls t1 s1 b s'.
Proof.
  revert t s. induction a as [|[now r] a IH]; intros t s Hp; cbn in Hp.
  { exists t, s. split_and!; [lia|constructor|done]. }
  inversion Hp as [|? ? imp txs ? s1 ? ? ? Ht Hpoll Hrest]; subst. destruct (IH now s1 Hrest) as (t1 & s2 & ? & ? & ?).
  exists t1, s2. split_and!; [lia|by econstructor|done].
Qed.

(** While no block arrives the deadline only moves forward. *)
Definition guarded (deadline : Z) (s : Trigger) : Prop :=
  initial_fired s = true ∧ ∃ d, rate_limit_delay s = Some d ∧ deadline ≤ d.

Lemma poll_guarded now imp txs s s1 r dl :
  guarded dl s → poll_next now imp txs s = (s1, r) → r ≠ Some (Some BlockImported) → 0 ≤ min_rebuild_interval s →
  guarded dl s1 ∧ (r = fired → dl ≤ now) ∧ min_rebuild_interval s1 = min_rebuild_interval s.
Proof.
  intros (Hi & d & Hd & Hle) Hp Hr Hm. unfold poll_next in Hp. rewrite Hi, Hd in Hp. cbn [negb] in Hp.
  destruct imp as [[[]|]|]; [by injection Hp as <- <-|injection Hp as <- <-|].
  { split_and!; [|done|done]. split; [done|]. by exists d. }
  destruct (Z.leb_spec d now); [rewrite andb_true_r in Hp|rewrite andb_false_r in Hp].
  - destruct (_ || _); injection Hp as <- <-; (split_and!; [split; [done|]|cbn; lia || done|done]); eexists; (split; [done|lia]).
  - injection Hp as <- <-. cbn. split_and!; [split; [done|]|done|done]. by exists d.
Qed.

Lemma polls_guarded t s tr s' dl :
  polls t s tr s' → guarded dl s → 0 ≤ min_rebuild_interval s → Forall (λ e, e.2 ≠ Some (Some BlockImported)) tr →
  ∀ now, (now, fired) ∈ tr → dl ≤ now.
Proof.
  induction 1 as [|t now imp txs s s1 r tr s' Ht Hp Hrest IH]; intros Hg Hm Hall x Hx; [by apply not_elem_of_nil in Hx|].
  apply Forall_cons in Hall as [Hr Hall]. destruct (poll_guarded _ _ _ _ _ _ _ Hg Hp Hr Hm) as (Hg1 & Hf & Hm1).
  apply elem_of_cons in Hx as [[= -> <-]|Hx]; [by apply Hf|]. apply IH; [done|by rewrite Hm1|done|done].
Qed.

Lemma poll_keeps_interval now imp txs s s1 r :
  poll_next now imp txs s = (s1, r) → min_rebuild_interval s1 = min_rebuild_interval s.
Proof.
  unfold poll_next. destruct (negb _); [by intros [= <- _]|].
  destruct imp as [[[]|]|]; [by intros [= <- _]|by intros [= <- _]|]. destruct (_ && _); by intros [= <- _].
Qed.
Lemma polls_interval t s tr s' : polls t s tr s' → min_rebuild_interval s' = min_rebuild_interval s.
Proof. induction 1 as [|t now imp txs s s1 r tr s' Ht Hp _ IH]; [done|]. rewrite IH. by eapply poll_keeps_interval. Qed.

Lemma fire_guards now imp txs s s1 :
  poll_next now imp txs s = (s1, fired) → guarded (now + min_rebuild_interval s) s1.
Proof.
  unfold poll_next. destruct (initial_fired s); cbn [negb]; [|by intros [= _]].
  destruct imp as [[[]|]|]; [by intros [= _]|by intros [= _]|].
  destruct (_ && _); intros [= <-]. split; [done|]. by eexists.
Qed.

(** A waiting transaction waits for a deadline. *)
Definition waits (s : Trigger) : Prop :=
  has_pending_tx s = true → initial_fired s = true ∧ is_Some (rate_limit_delay s).

Lemma poll_waits now imp txs s s1 r : waits s → poll_next now imp txs s = (s1, r) → waits s1.
Proof.
  intros Hw. unfold poll_next. destruct (initial_fired s) eqn:Hi; cbn [negb].
  - destruct imp as [[[]|]|]; [by intros [= <- _]|by intros [= <- _]|].
    destruct (rate_limit_delay s) as [d|] eqn:Hd.
    + destruct (_ && _); intros [= <- _]; [done|]. intros _. cbn. split; [done|by eexists].
    + rewrite andb_true_r. destruct (_ || _) eqn:Ho; intros [= <- _]; [done|]. unfold waits. cbn. done.
  - intros [= <- _] Hp. cbn in Hp. destruct (Hw Hp). congruence.
Qed.

(** Rebuilds are rate limited and no transaction waits for ever. Two
    transaction-triggered rebuilds with no imported block between them are at
    least the interval apart; and whenever transactions are waiting, a deadline
    is set and the first quiet poll at or after it fires. *)
Theorem rebuilds_are_rate_limited interval tr s'
    (Hint : 0 ≤ interval) (Hrun : polls 0 (trigger_new interval) tr s') :
  (∀ a t1 mid t2 c, tr = a ++ (t1, fired) :: mid ++ (t2, fired) :: c →
     Forall (λ e, e.2 ≠ Some (Some BlockImported)) mid → t1 + interval ≤ t2) ∧
  (has_pending_tx s' = true → ∃ deadline, rate_limit_delay s' = Some deadline ∧
     ∀ now txs, deadline ≤ now → (poll_next now None txs s').2 = fired).
Proof.
  split.
  - intros a t1 mid t2 c -> Hmid. apply polls_app in Hrun as (t & s & _ & Ha & Hrun).
    apply polls_interval in Ha. cbn in Ha. inversion Hrun as [|? ? imp txs ? s1 ? ? ? Ht Hp Hrest]; subst.
    pose proof (poll_keeps_interval _ _ _ _ _ _ Hp) as Hi. apply fire_guards in Hp.
    change (mid ++ (t2, fired) :: c) with (mid ++ [(t2, fired)] ++ c) in Hrest. rewrite app_assoc in Hrest.
    apply polls_app in Hrest as (t' & s2 & _ & Hm & _).
    eapply (polls_guarded _ _ _ _ _ Hm Hp); [by rewrite Hi|apply Forall_app; split; [done|by repeat constructor]|].
    apply elem_of_app. right. by apply list_elem_of_singleton.
  - assert (Hw : waits s').
    { assert (Hw0 : waits (trigger_new interval)) by done. revert Hw0. clear Hint. induction Hrun; [done|]. intros Hw0.
      apply IHHrun. by eapply poll_waits. }
    intros Hp. destruct (Hw Hp) as [Hi [d Hd]]. exists d. split; [done|]. intros now txs Hnow. unfold poll_next.
    rewrite Hi, Hd, Hp. cbn [negb orb]. destruct (Z.leb_spec d now); [done|lia].
Qed.
End Rebuild.
