(* ===== verification/PowWitnesses.v ===== *)
(** * A concrete engine, client and run

    A RandomX whose hash is a prefix of the key and the input, and a client
    that keeps its headers and its auxiliary store in maps, satisfy the laws;
    the theorems on the engine, the verifier and the fork choice are applied to
    them. *)

From stdpp Require Import base option list numbers gmap.
From S2P Require Import Prelude Crypto RandomX Admission SeedCache SeedCacheProps Header PowImport PowImportProps PowForkChoice Miner MinerProps.
#[local] Open Scope Z_scope.

Module ToyEngine.
#[global] Instance randomx : RandomXOps Hash256 Hash256 unit := {|
  new_cache s := Ok s;
  new_vm c := Ok c;
  reinit_cache _ c := Ok c;
  calculate_hash v x := Ok (take 32 (v ++ x ++ replicate 32 0));
|}.
#[global] Instance randomx_laws : RandomXLaws Hash256 Hash256 unit.
Proof.
  refine {| rx s x := take 32 (s ++ x ++ replicate 32 0); cache_key c := c; vm_key v := v |}; cbn; by intros ? ? ?; try intros ?; simplify_eq.
Defined.

Definition seed_a : Hash256 := replicate 32 1.
Definition seed_b : Hash256 := replicate 32 2.
Abbreviation World := (@World Hash256 Hash256).
Definition leased : World :=
  {| eng := insert_cache seed_a seed_a (count_fill (pin_seeds seed_a seed_b (with_settings 1 1)));
     threads := {[ 0%nat := Lease seed_a seed_a ]}; build_lock := None |}.

(** A thread misses a pinned seed, fills it and leases a VM. *)
Lemma leased_reach : engine_reach leased.
Proof.
  exists 1, 1. eapply rtc_l; [exists (Some (seed_a, seed_b)); apply st_pin|]. cbn [eng threads build_lock world0].
  eapply rtc_l; [exists None; eapply (st_pop_empty _ 0%nat seed_a); [done|reflexivity]|]. cbn [eng threads build_lock].
  eapply rtc_l; [exists None; eapply (st_lookup _ 0%nat seed_a None _ None); [done|reflexivity]|]. cbn [eng threads build_lock].
  eapply rtc_l; [exists None; eapply (st_lock _ 0%nat seed_a None _ None); [done|done|reflexivity]|]. cbn [eng threads build_lock].
  eapply rtc_l; [exists None; eapply (st_fill _ 0%nat seed_a None seed_a); [done|done]|]. cbn [eng threads build_lock].
  eapply rtc_l; [exists None; eapply (st_insert _ 0%nat seed_a None seed_a); done|]. cbn [eng threads build_lock].
  eapply rtc_l; [exists None; eapply (st_key _ 0%nat seed_a None seed_a (Ok seed_a)); [done|done]|]. apply reflexive_eq. by vm_compute.
Qed.

Lemma hash_is_the_seeds_own_witness :
  lease_hash seed_a [9] = Ok (take 32 (seed_a ++ [9] ++ replicate 32 0)) ∧
  take 32 (seed_a ++ [9] ++ replicate 32 0) = rx seed_a [9].
Proof.
  split; [done|]. eapply (proj1 (hash_is_the_seeds_own leased seed_a [9] _ leased_reach) 0%nat seed_a); by vm_compute.
Defined.

Lemma caches_are_bounded_and_shared_witness : resident (eng leased) = 1 ∧ resident (eng leased) ≤ 2 + max_caches (eng leased).
Proof. split; [by vm_compute|]. exact (proj1 (caches_are_bounded_and_shared leased leased_reach)). Defined.

Definition released : World :=
  {| eng := release seed_a seed_a (eng leased); threads := put_thread 0 None (threads leased); build_lock := None |}.
Lemma leased_hot : hot seed_a (eng leased).
Proof. exists {| slot_seed := seed_a; slot_cache := Some seed_a |}. by vm_compute; split_and!; [left| |eexists]. Qed.

Lemma pinned_cache_survives_witness :
  hot seed_a (eng released) ∧ ∃ c, lookup_cache seed_a (eng released) = (eng released, Some c) ∧ cache_key c = seed_a.
Proof.
  apply (pinned_cache_survives leased released seed_a leased_reach leased_hot).
  apply rtc_once. exists None. split; [|done]. apply (st_release leased 0%nat seed_a seed_a). done.
Defined.
End ToyEngine.

Module ToyClient.
Import ToyCrypto ToyEngine.

Record DB := { headers : gmap Hash256 Header; store : gmap (list Z) (list Z); tip_hash : Hash256; tip_number : Z }.
Definition genesis : Hash256 := zero_hash.
Definition seal_of {R} (p : BlockImportParams bool R) : Header := set_digest (digest (bip_header p) ++ post_digests p) (bip_header p).

(** A body of [false] does not execute; the body is executed before a known
    block is recognised. *)
Definition import {R} (p : BlockImportParams bool R) (db : DB) : DB * result unit ImportResult :=
  let h := header_hash (seal_of p) in
  if bool_decide (body p = Some false) then (db, Err tt)
  else if bool_decide (is_Some (headers db !! h)) then (db, Ok AlreadyInChain)
  else
    ({| headers := <[h := bip_header p]> (headers db); store := store db;
        tip_hash := if decide (fork_choice p = Some true) then h else tip_hash db;
        tip_number := if decide (fork_choice p = Some true) then number (bip_header p) else tip_number db |}, Ok Imported).

#[global] Instance pow_client : PowClient DB unit bool := {|
  info db := {| best_hash := tip_hash db; best_number := tip_number db; finalized_number := 0; finalized_hash := genesis;
                genesis_hash := genesis; block_gap := None |};
  client_number db h := Ok (number <$> headers db !! h);
  client_hash db n := Ok (if n =? 0 then Some genesis else None);
  client_header db h := Ok (headers db !! h);
  in_chain db h := bool_decide (is_Some (headers db !! h));
  get_difficulty db h := Ok 5;
  get_seed_epoch_blocks db h := Ok 2048;
  get_seed_epoch_lag db h := Ok 64;
  check_inherents db h hd b := Ok tt;
  get_aux db k := Ok (store db !! k);
  insert_aux ins del db :=
    ({| headers := headers db; store := foldr delete (list_to_map ins ∪ store db) del;
        tip_hash := tip_hash db; tip_number := tip_number db |}, Ok tt);
  inner_import R p db := import p db;
|}.

#[global] Instance pow_client_laws : PowClientLaws DB unit bool.
Proof.
  refine {| known db := (λ hd, (parent_hash hd, number hd)) <$> headers db; aux := store; difficulty_at _ := 5 |}; cbn.
  - lia.
  - by intros _ _ d [= <-].
  - intros db h n. destruct (headers db !! h) as [hd|] eqn:Hh; [|done]. intros [= <-]. exists (parent_hash hd).
    by rewrite lookup_fmap, Hh.
  - by intros db h [= <-].
  - by intros db k v [= <-].
  - by intros ins del db db' r [= <- <-].
  - intros R p db db' r. unfold import. case_bool_decide; [by intros [= <- <-]|].
    case_bool_decide; [by intros [= <- <-]|]. intros [= <- <-]. cbn. split_and!; [done|done|done|by rewrite fmap_insert|].
    intros _. by destruct (decide _).
Defined.

Definition genesis_header : Header := ToyHeader.sealed 0.
Definition fresh : DB := {| headers := {[ genesis := genesis_header ]}; store := ∅; tip_hash := genesis; tip_number := 0 |}.
Definition db0 : DB := (initialize_genesis_achieved_work tt tt fresh).1.

Abbreviation Params := (BlockImportParams bool (PowError unit unit)).
Definition network_block (b : bool) : Params :=
  {| bip_header := ToyHeader.sealed 1; post_digests := []; body := Some b; skip_execution_checks := false;
     fork_choice := None; refusal := None |}.
Definition engine0 : Engine Hash256 Hash256 := with_settings 1 1.
Lemma engine0_ok : table_ok engine0.
Proof. exact (wo_table _ (world0_ok 1 1)). Qed.


Definition verified : Params :=
  match (verify db0 0 (network_block true) budgets_new engine0).2 with Ok p => p | Err _ => network_block true end.
Definition engine1 : Engine Hash256 Hash256 := (verify db0 0 (network_block true) budgets_new engine0).1.1.
Definition budgets1 : AdmissionBudgets := (verify db0 0 (network_block true) budgets_new engine0).1.2.
Lemma verified_by : verify db0 0 (network_block true) budgets_new engine0 = (engine1, budgets1, Ok verified).
Proof. by vm_compute. Qed.

Definition h1 : Header := bip_header verified.
Definition seal1 : list Z := replicate 64 0.

Lemma verify_pow_is_the_rule_witness :
  let '(_, _, r) := verify_pow db0 0 (parent_hash h1) (number h1) (header_hash h1) (header_hash (ToyHeader.sealed 1)) seal1
    None engine0 in
  r = Ok 5 ∧ pow_valid db0 (parent_hash h1) (number h1) (header_hash h1) (header_hash (ToyHeader.sealed 1)) seal1 5.
Proof.
  pose proof (verify_pow_is_the_rule db0 0 (parent_hash h1) (number h1) (header_hash h1) (header_hash (ToyHeader.sealed 1))
    seal1 None engine0 engine0_ok) as Hrule.
  assert (Hr : (verify_pow (EE := unit) db0 0 (parent_hash h1) (number h1) (header_hash h1) (header_hash (ToyHeader.sealed 1)) seal1
    None engine0).2 = Ok 5) by (by vm_compute).
  destruct (verify_pow _ _ _ _ _ _ _ _ _) as [[e b] r]. cbn in Hr. split; [done|]. by apply Hrule.
Defined.

Lemma tokens_cost_real_work_witness :
  let '(_, b', _) := verify_pow db0 0 (parent_hash h1) (number h1) (header_hash h1) (header_hash (ToyHeader.sealed 1)) seal1
    (Some budgets_new) engine0 in
  parent_hash h1 = best_hash (info db0) ∧ b' = Some budgets_new.
Proof.
  pose proof (tokens_cost_real_work db0 0 (parent_hash h1) (number h1) (header_hash h1) (header_hash (ToyHeader.sealed 1))
    seal1 budgets_new engine0 engine0_ok) as Htok.
  destruct (verify_pow _ _ _ _ _ _ _ _ _) as [[e b] r]. destruct Htok as (a & -> & _ & Htip).
  assert (Hp : parent_hash h1 = best_hash (info db0)) by (by vm_compute). split; [done|].
  by destruct (Htip Hp) as [-> _].
Defined.

Lemma verifier_and_importer_agree_witness :
  refusal verified = None ∧ post_header verified = bip_header (network_block true).
Proof.
  split; [by vm_compute|].
  refine (proj1 (verifier_and_importer_agree tt db0 0 (network_block true) verified budgets_new budgets1 engine0 engine1
    engine0_ok _ _ verified_by)); done.
Defined.

Definition prepared1 : @Prepared unit bool unit := {| pr_params := verified; pr_new_work := 6 |}.
Definition db1 : DB := (import_commit tt prepared1 db0 engine1).1.1.
Definition world1 : @ImportWorld DB unit bool unit := {| client := db1; preparing := [] |}.

Definition engine2 : Engine Hash256 Hash256 := (import_commit tt prepared1 db0 engine1).1.2.
Lemma commit1 : import_commit tt prepared1 db0 engine1 = (db1, engine2, Ok Imported).
Proof.
  assert (Hr : (import_commit tt prepared1 db0 engine1).2 = Ok Imported) by (by vm_compute).
  unfold db1, engine2. destruct (import_commit _ _ _ _) as [[d e] r]. cbn in *. by rewrite Hr.
Qed.
Lemma fresh_hash1 : known db0 !! sealed_hash prepared1 = None.
Proof. by vm_compute. Qed.

Definition world0 : @ImportWorld DB unit bool unit := {| client := db0; preparing := [] |}.
Lemma world0_start : import_start (EE := unit) tt tt world0.
Proof.
  split; [done|]. exists fresh, (parent_hash genesis_header). split_and!; [|done..|by vm_compute].
  by rewrite <- (map_fmap_singleton (λ hd, (parent_hash hd, number hd))).
Qed.
Lemma world1_history : import_history (EE := unit) tt tt world0 [EPrepare; ECommit db0 prepared1 (Ok Imported)] world1.
Proof.
  eapply ih_cons; [eapply (is_prepare tt tt db0 [] 0 verified engine0 _ prepared1); by vm_compute|].
  eapply ih_cons; [|apply ih_nil]. exact (is_commit tt tt db0 [] prepared1 [] engine1 db1 engine2 (Ok Imported) commit1).
Qed.
Lemma world1_undisturbed : Forall undisturbed [EPrepare; ECommit db0 prepared1 (Ok (E := PowError unit unit) Imported)].
Proof.
  constructor; [exact I|]. constructor; [|constructor]. split; [|left; exact fresh_hash1].
  intros e He. rewrite fresh_hash1 in He. discriminate He.
Qed.

Lemma tip_is_the_heaviest_witness :
  best_number (info db1) = 1 ∧ best_hash (info db1) = header_hash (ToyHeader.sealed 1) ∧
  ∃ g wb par, genesis_hash (info db1) = g ∧ known db1 !! best_hash (info db1) = Some (par, best_number (info db1)) ∧
    chain_work g (known db1) (best_hash (info db1)) wb.
Proof.
  split_and!; [by vm_compute|by vm_compute|].
  destruct (tip_is_the_heaviest tt tt world0 _ world1 world0_start world1_history world1_undisturbed) as (g & wb & par & Hg & Hk & Hc & _).
  exists g, wb, par. exact (conj Hg (conj Hk Hc)).
Defined.

(** The rollback of a failed import deletes by block hash alone: a second
    import of the tip whose body fails to execute leaves the tip's work at
    zero. *)
Definition bad_body : @Prepared unit bool unit :=
  {| pr_params := {| bip_header := bip_header verified; post_digests := post_digests verified; body := Some false;
       skip_execution_checks := false; fork_choice := None; refusal := None |}; pr_new_work := 6 |}.
Example failed_reimport_loses_the_work :
  get_cumulative_achieved_work tt (best_hash (info db1)) db1 = Ok 6 ∧
  (import_prepare tt db1 0 (pr_params bad_body) engine1).2 = Ok bad_body ∧
  let db2 := (import_commit tt bad_body db1 engine1).1.1 in
  best_hash (info db2) = best_hash (info db1) ∧ get_cumulative_achieved_work tt (best_hash (info db2)) db2 = Ok 0.
Proof. split_and!; by vm_compute. Qed.
End ToyClient.

(** ** A run of the mining worker

    The theorems of [MinerProps] applied to a handle that is enabled, builds a
    template, refuses a seal and is paused, and to a template of the concrete
    client. *)
Module ToyMiner.
Import ToyCrypto ToyEngine ToyClient.

Definition author (_ : Hash256) : list Z := ToyHeader.label.
Definition propose1 (hd : Header) (d : Digest) : option (Header * bool) :=
  Some ({| parent_hash := genesis; number := number hd + 1; state_root := zero_hash; extrinsics_root := zero_hash;
           zk_tree_root := zero_hash; digest := d |}, true).
Definition template : MiningBuild bool :=
  match create_proposal (EE := unit) db0 author propose1 genesis genesis with
  | Some b => b
  | None => {| build_metadata := {| md_best_hash := []; md_pre_hash := []; md_author_label := []; md_difficulty := 0;
      md_height := 0; md_seed_hash := []; md_next_seed_hash := []; md_seed_height := 0 |};
      proposal_header := ToyHeader.sealed 1; proposal_body := true |}
  end.
Lemma template_built : create_proposal (EE := unit) db0 author propose1 genesis genesis = Some template.
Proof. by vm_compute. Qed.

Lemma miner_and_importer_agree_witness :
  (check_template (X := unit) (EE := unit) seal1 (build_metadata template) engine0).2 = true ∧
  ∃ eng3, (∃ w, get_cumulative_achieved_work tt genesis db0 = Ok w ∧ import_prepare tt db0 0 (mined_block seal1 template) engine1 =
      (eng3, Ok {| pr_params := mined_block seal1 template; pr_new_work := sat_add 512 w 5 |})) ∨
    ∃ e, refused_otherwise (EE := unit) tt db0 (mined_block seal1 template) e ∧ import_prepare tt db0 0 (mined_block seal1 template) engine1 = (eng3, Err e).
Proof.
  split; [by vm_compute|].
  assert (Hok1 : table_ok engine1).
  { pose proof (wo_table _ (world0_ok (Cache := Hash256) (VM := Hash256) 1 1)) as H0.
    pose proof (verify_pow_rule (EE := unit) db0 0 (parent_hash h1) (number h1) (header_hash h1) (header_hash (ToyHeader.sealed 1))
      seal1 (Some budgets_new) engine0 H0) as Hr.
    assert (He : (verify_pow (EE := unit) db0 0 (parent_hash h1) (number h1) (header_hash h1)
      (header_hash (ToyHeader.sealed 1)) seal1 (Some budgets_new) engine0).1.1 = engine1) by (by vm_compute).
    destruct (verify_pow _ _ _ _ _ _ _ _ _) as [[e b] r]. cbn in He. rewrite <- He. apply Hr. }
  pose proof (miner_and_importer_agree (EE := unit) tt db0 author propose1 genesis genesis template seal1 0 engine0 engine1
    engine0_ok Hok1 template_built) as Hag.
  assert (Ht : (check_template (X := unit) (EE := unit) seal1 (build_metadata template) engine0).2 = true) by (by vm_compute).
  destruct (check_template _ _ _) as [e ok]. cbn in Ht.
  destruct Hag as [Hag _]; [by vm_compute|by vm_compute|by vm_compute|by vm_compute|].
  exact (Hag Ht).
Defined.

(** ** The handle *)
Abbreviation Mine := (Mine bool).
Definition never (_ : list Z) (_ : MiningMetadata) : Prop := False.
Definition step := miner_step (Body := bool) never.

Definition handle_at (v : Z) (g : bool) (b : option (MiningBuild bool)) : MiningHandle bool :=
  {| hversion := v; authoring_gate := g; hbuild := b; pending_build := None; wakes := 0 |}.
Definition built : Mine := {| handle := handle_at 1 true (Some template); workers := ∅; build_held := None; bumps := 1 |}.
Definition paused : Mine := {| handle := handle_at 2 false None; workers := ∅; build_held := None; bumps := 2 |}.

Tactic Notation "go" open_constr(c) := eapply rtc_l; [eapply c; (reflexivity || done)|].
Ltac arrive := apply reflexive_eq; vm_compute; reflexivity.

Lemma built_reach : mine_reach never built.
Proof.
  eapply rtc_l; [apply (ms_toggle never mine0 0%nat true (put_gate true handle_new)); done|].
  go (ms_clear never _ 0%nat true). go (ms_request never _ 0%nat). eapply rtc_l; [apply (ms_pend never _ 0%nat genesis); done|].
  eapply rtc_l; [apply (ms_notify never _ 0%nat false); done|]. go (ms_wake never _ 1%nat). go (ms_take never _ 1%nat).
  eapply rtc_l; [apply (ms_propose never _ 1%nat genesis (Some template)); [done|by right]|].
  go (ms_on_build never _ 1%nat template). go (ms_store never _ 1%nat template). go (ms_stored never _ 1%nat). arrive.
Qed.

Lemma version_names_the_build_witness :
  ∃ w, rtc step built w ∧ hversion (handle w) = 1 ∧ hbuild (handle w) = hbuild (handle built).
Proof.
  assert (Hrun : rtc step built built).
  { eapply rtc_l; [apply (ms_submit never built 3%nat [1]); [done|done|done|by eexists]|]. go (ms_reject never _ 3%nat [1]). arrive. }
  exists built. split; [exact Hrun|]. split; [done|].
  apply (version_names_the_build never built built built_reach Hrun); by vm_compute.
Defined.

Lemma paused_reach : mine_reach never paused.
Proof.
  unfold mine_reach; etrans; [exact built_reach|].
  eapply rtc_l; [apply (ms_toggle never built 0%nat false (put_gate false (handle built))); done|].
  go (ms_clear never _ 0%nat false). go (ms_drop never _ 0%nat). go (ms_bump never _ 0%nat). arrive.
Qed.

Lemma paused_handle_is_empty_witness :
  hbuild (handle paused) = None ∧ ¬ some_worker may_build (workers paused) ∧ handle_metadata (handle paused) = None.
Proof.
  apply (paused_handle_is_empty never paused paused_reach); [done|]. intros (k & t & Hk & _). done.
Defined.

(** Between the gate and the increment, [metadata] already answers [None]
    under the old version. *)
Example version_lags_the_gate :
  ∃ w, step built w ∧ hversion (handle w) = hversion (handle built) ∧
    handle_metadata (handle built) = Some (build_metadata template) ∧ handle_metadata (handle w) = None.
Proof.
  eexists. split; [apply (ms_toggle never built 0%nat false (put_gate false (handle built))); done|]. by split_and!.
Qed.

(** A request on its way to the build task. *)
Definition requested : Mine :=
  {| handle := put_pending (Some genesis) (handle_at 1 true (Some template)); workers := {[ 0%nat := Notifying ]};
     build_held := None; bumps := 1 |}.
Lemma requested_reach : mine_reach never requested.
Proof.
  unfold mine_reach; etrans; [exact built_reach|]. go (ms_call never _ 0%nat). go (ms_request never _ 0%nat).
  eapply rtc_l; [apply (ms_pend never _ 0%nat genesis); done|]. arrive.
Qed.
Lemma no_request_is_lost_witness :
  pending_build (handle requested) = Some genesis ∧
  (pending_build (handle requested) = None ∨ 0 < wakes (handle requested) ∨ some_worker will_serve (workers requested)).
Proof. split; [done|]. exact (no_request_is_lost never requested requested_reach). Defined.

(** ** The trigger *)
Definition trace : list (Z * option (option RebuildTrigger)) :=
  [(0, Some (Some Initial)); (1, Some (Some NewTransactions)); (2, None); (3, Some (Some NewTransactions)); (4, None)].
Definition trigger_end : Trigger := put_trigger (Some 5) true (trigger_new 2).

Lemma rebuilds_are_rate_limited_witness :
  1 + 2 ≤ 3 ∧ ∃ deadline, rate_limit_delay trigger_end = Some deadline ∧
    ∀ now txs, deadline ≤ now → (poll_next now None txs trigger_end).2 = Some (Some NewTransactions).
Proof.
  assert (Hrun : polls 0 (trigger_new 2) trace trigger_end).
  { eapply (polls_cons _ 0 None 0); [lia|reflexivity|]. eapply (polls_cons _ 1 None 3); [lia|reflexivity|].
    eapply (polls_cons _ 2 None 1); [lia|reflexivity|]. eapply (polls_cons _ 3 None 0); [lia|reflexivity|].
    eapply (polls_cons _ 4 None 2); [lia|reflexivity|]. constructor. }
  destruct (rebuilds_are_rate_limited 2 trace trigger_end) as [Hlim Hwait]; [lia|exact Hrun|]. split; [|by apply Hwait].
  apply (Hlim [(0, Some (Some Initial))] 1 [(2, None)] 3 [(4, None)]); [done|by repeat constructor].
Defined.
End ToyMiner.
