(* ===== verification/CircuitMerkle.v ===== *)
(** * The wallet's commitment tree

    [crates/qnero-circuit/src/merkle.rs], the half that runs outside a circuit:
    the node rule, paths with position hints, the in-memory tree and the
    frontier a scan climbs with. A [Digest] is held by its canonical bytes. *)

From stdpp Require Import base option list numbers gmap sorting.
From S2P Require Import Prelude Crypto ZkTree ZkTreeProps.
#[local] Open Scope Z_scope.

Module CircuitMerkle.
Definition MAX_DEPTH : nat := 20.
Definition empty_digest : Hash256 := zero_hash.

Inductive MerkleError :=
| TooDeep (n : nat)
| PathShape (siblings positions : nat)
| BadPosition (p : Z)
| NoLeaves
| BadDepth (d : nat)
| DoesNotFit (leaves : nat) (d : nat)
| BadLeafIndex (i : nat)
| TooManyLeaves (n : Z)
| FoldedToNothing (d : nat).

Section Tree.
Context `{PoseidonOps}.
Abbreviation M := (result MerkleError).

(** [Digest::felts]. *)
Definition felts (d : Hash256) : list felt := from_u64 <$> limbs d.

Definition hash_node_presorted (sorted : list Hash256) : Hash256 := hash_to_bytes (concat (felts <$> sorted)).
Definition hash_node (children : list Hash256) : Hash256 := hash_node_presorted (merge_sort lex children).

(** ** Paths *)
Record MerklePath := { siblings : list (list Hash256); positions : list Z }.

Definition dummy (depth : nat) : MerklePath :=
  {| siblings := replicate depth (replicate 3 empty_digest); positions := replicate depth 0 |}.

(** One level of [from_unsorted] and of [path]: the sorted siblings of
    [current] and the first slot that holds it. *)
Definition place_current (children : list Hash256) (current : Hash256) : list Hash256 * Z :=
  let sorted := merge_sort lex children in
  let position := default O (fst <$> list_find (λ c, c = current) sorted) in
  (delete position sorted, Z.of_nat position).

Fixpoint unsorted_levels (levels : list (Hash256 * Hash256 * Hash256)) (current : Hash256) :
    list (list Hash256) * list Z :=
  match levels with
  | [] => ([], [])
  | (s0, s1, s2) :: rest =>
      let children := [current; s0; s1; s2] in
      let (sibs, pos) := place_current children current in
      let '(ss, ps) := unsorted_levels rest (hash_node_presorted (merge_sort lex children)) in
      (sibs :: ss, pos :: ps)
  end.

Definition from_unsorted (unsorted : list (Hash256 * Hash256 * Hash256)) (leaf : Hash256) : M MerklePath :=
  _ ← ensure (length unsorted <=? MAX_DEPTH)%nat (TooDeep (length unsorted));
  let '(ss, ps) := unsorted_levels unsorted leaf in
  Ok {| siblings := ss; positions := ps |}.

(** The children of one level, [current] put back in its slot. *)
Definition restore (level_siblings : list Hash256) (position : nat) (current : Hash256) : list Hash256 :=
  take position level_siblings ++ current :: drop position level_siblings.

Fixpoint climb (levels : list (list Hash256 * Z)) (current : Hash256) : M Hash256 :=
  match levels with
  | [] => Ok current
  | (sibs, position) :: rest =>
      _ ← ensure (position <? ARITY) (BadPosition position);
      climb rest (hash_node_presorted (restore sibs (Z.to_nat position) current))
  end.

Definition path_root (p : MerklePath) (leaf : Hash256) : M Hash256 :=
  _ ← ensure (length (siblings p) =? length (positions p))%nat (PathShape (length (siblings p)) (length (positions p)));
  _ ← ensure (length (siblings p) <=? MAX_DEPTH)%nat (TooDeep (length (siblings p)));
  climb (zip (siblings p) (positions p)) leaf.

(** ** [CommitmentTree] *)
Record CommitmentTree := { ct_depth : nat; ct_levels : list (list Hash256) }.

Definition pad4 (chunk : list Hash256) : list Hash256 := chunk ++ replicate (4 - length chunk) empty_digest.

(** [chunks(ARITY)], each padded and hashed. *)
Fixpoint parents (below : list Hash256) : list Hash256 :=
  match below with
  | [] => []
  | a :: b :: c :: d :: rest => hash_node [a; b; c; d] :: parents rest
  | chunk => [hash_node (pad4 chunk)]
  end.

(** The levels above [below]. *)
Fixpoint build_levels (depth : nat) (below : list Hash256) : list (list Hash256) :=
  match depth with
  | O => []
  | S d => let p := parents below in p :: build_levels d p
  end.

Definition tree_new (leaves : list Hash256) (depth : nat) : M CommitmentTree :=
  _ ← ensure (negb (length leaves =? 0)%nat) NoLeaves;
  _ ← ensure ((1 <=? depth)%nat && (depth <=? MAX_DEPTH)%nat) (BadDepth depth);
  _ ← ensure (Z.of_nat (length leaves) <=? 4 ^ Z.of_nat depth) (DoesNotFit (length leaves) depth);
  Ok {| ct_depth := depth; ct_levels := leaves :: build_levels depth leaves |}.

Definition depth_for (leaf_count : Z) : M nat :=
  match list_find (λ d, leaf_count ≤ 4 ^ Z.of_nat d) (seq 1 MAX_DEPTH) with
  | Some (_, d) => Ok d
  | None => Err (TooManyLeaves leaf_count)
  end.

Definition level_of (t : CommitmentTree) (l : nat) : list Hash256 := default [] (ct_levels t !! l).
Definition tree_root (t : CommitmentTree) : Hash256 := default empty_digest (level_of t (ct_depth t) !! 0%nat).

(** The four children around [index], absent ones empty. *)
Definition family (level : list Hash256) (index : nat) : list Hash256 :=
  (λ slot, default empty_digest (level !! (4 * (index / 4) + slot)%nat)) <$> seq 0 4.

Fixpoint sibling_levels (t : CommitmentTree) (l fuel : nat) (index : nat) : list (Hash256 * Hash256 * Hash256) :=
  match fuel with
  | O => []
  | S fuel' =>
      as_triple (delete (index mod 4)%nat (family (level_of t l) index))
        :: sibling_levels t (S l) fuel' (index / 4)%nat
  end.

Definition index_ordered_siblings (t : CommitmentTree) (leaf_index : nat) : M (list (Hash256 * Hash256 * Hash256)) :=
  _ ← ensure (leaf_index <? length (level_of t 0))%nat (BadLeafIndex leaf_index);
  Ok (sibling_levels t 0 (ct_depth t) leaf_index).

Fixpoint path_levels (t : CommitmentTree) (l fuel : nat) (index : nat) : list (list Hash256) * list Z :=
  match fuel with
  | O => ([], [])
  | S fuel' =>
      let children := family (level_of t l) index in
      let (sibs, pos) := place_current children (default empty_digest (children !! (index mod 4)%nat)) in
      let '(ss, ps) := path_levels t (S l) fuel' (index / 4)%nat in
      (sibs :: ss, pos :: ps)
  end.

Definition tree_path (t : CommitmentTree) (leaf_index : nat) : M MerklePath :=
  _ ← ensure (leaf_index <? length (level_of t 0))%nat (BadLeafIndex leaf_index);
  let '(ss, ps) := path_levels t 0 (ct_depth t) leaf_index in
  Ok {| siblings := ss; positions := ps |}.

(** ** [TreeFrontier] *)
Record TreeFrontier := { fr_levels : list (list Hash256); fr_count : Z }.
Definition frontier_new : TreeFrontier := {| fr_levels := []; fr_count := 0 |}.

(** The carry loop, one level per call. *)
Fixpoint push_carry (node : Hash256) (levels : list (list Hash256)) : list (list Hash256) :=
  match levels with
  | [] => [[node]]
  | nodes :: rest =>
      let nodes := nodes ++ [node] in
      if (length nodes =? 4)%nat then [] :: push_carry (hash_node nodes) rest else nodes :: rest
  end.
Definition push (f : TreeFrontier) (leaf : Hash256) : TreeFrontier :=
  {| fr_levels := push_carry leaf (fr_levels f); fr_count := sat_add 64 (fr_count f) 1 |}.

Definition frontier_depth (f : TreeFrontier) : M nat := if fr_count f =? 0 then Ok O else depth_for (fr_count f).

(** The fold over the levels below the depth: the carry, and what is left
    above. *)
Fixpoint fold_levels (depth : nat) (levels : list (list Hash256)) (carry : option Hash256) :
    option Hash256 * list (list Hash256) :=
  match depth with
  | O => (carry, levels)
  | S d =>
      let nodes := default [] (head levels) in
      let carry :=
        if (length nodes =? 0)%nat && bool_decide (carry = None) then None
        else Some (hash_node (pad4 (nodes ++ option_list carry))) in
      fold_levels d (tail levels) carry
  end.

Definition frontier_root (f : TreeFrontier) : M Hash256 :=
  depth ← frontier_depth f;
  match depth with
  | O => Ok empty_digest
  | S _ =>
      match fold_levels depth (fr_levels f) None with
      | (Some root, _) => Ok root
      | (None, above) => ok_or (nodes ← head above; head nodes) (FoldedToNothing depth)
      end
  end.
End Tree.
End CircuitMerkle.
