(* ===== verification/CircuitMerkleProps.v ===== *)
(** * The wallet's tree is the chain's

    The frontier, the in-memory tree and the paths of [CircuitMerkle] against
    [ref_node], the reference tree [ZkTreeProps] proves the pallet to compute;
    so what a wallet rebuilds is what the chain publishes. *)

From stdpp Require Import base option list numbers gmap sorting.
From S2P Require Import Prelude Crypto ZkTree ZkTreeProps CircuitMerkle.
#[local] Open Scope Z_scope.
Import CircuitMerkle.

Section Nodes.
Context `{PoseidonOps, !PoseidonLaws}.

(** The two node rules agree on digests. *)
Lemma presorted_felts (l : list Hash256) :
  Forall good_hash l → bytes_to_felts_compact_lossy (concat l) = concat (felts <$> l).
Proof.
  induction 1 as [|h l Hh _ IH]; cbn [concat fmap list_fmap].
  - unfold bytes_to_felts_compact_lossy. by rewrite bytes_to_u64s_compact_nil.
  - rewrite digest_felts by apply Hh. by rewrite IH.
Qed.

Lemma node_rule (l : list Hash256) : Forall good_hash l → hash_node l = ZkTree.hash_node l.
Proof.
  intros Hl. unfold hash_node, hash_node_presorted, ZkTree.hash_node. f_equal. symmetry. apply presorted_felts.
  by rewrite merge_sort_Permutation.
Qed.

Lemma good_presorted (l : list Hash256) : good_hash (hash_node_presorted l).
Proof. split; [apply hash_to_bytes_digest|apply hash_to_bytes_canonical]. Qed.

(** ** The leaves as a map *)
Variable L : list Hash256.
Hypothesis HL : Forall good_hash L.
Definition leaf_map : gmap Z Hash256 := map_seqZ 0 L.
Definition node (l : nat) (i : Z) : Hash256 := ref_node leaf_map (Z.of_nat (length L)) l i.

Lemma leaf_map_lookup (i : nat) : leaf_map !! Z.of_nat i = L !! i.
Proof. unfold leaf_map. rewrite lookup_map_seqZ_0 by lia. by rewrite Nat2Z.id. Qed.

Lemma good_ref n l i : good_hash (ref_node leaf_map n l i).
Proof.
  destruct l; cbn [ref_node]; (case_match; [apply good_zero|]).
  - unfold get_leaf_hash. destruct (leaf_map !! i) as [h|] eqn:E; [|apply good_zero].
    unfold leaf_map in E. apply lookup_map_seqZ_Some in E as [_ E]. eapply Forall_lookup_1; [exact HL|done].
  - apply good_hash_node.
Qed.

Lemma ref_children n l i : i * 4 ^ Z.of_nat (S l) < n →
  ref_node leaf_map n (S l) i =
    hash_node [ref_node leaf_map n l (4 * i); ref_node leaf_map n l (4 * i + 1); ref_node leaf_map n l (4 * i + 2); ref_node leaf_map n l (4 * i + 3)].
Proof.
  intros Hi. rewrite ref_node_node by done. rewrite node_rule by (repeat constructor; apply good_ref).
  change (seqZ 0 4) with [0; 1; 2; 3]. cbn [fmap list_fmap]. by rewrite (Z.mul_comm i 4), Z.add_0_r.
Qed.

(** ** The frontier *)
(** A complete node, whatever comes after it. *)
Definition full (l : nat) (i : Z) : Hash256 := ref_node leaf_map ((i + 1) * 4 ^ Z.of_nat l) l i.

Lemma full_ref n l i : (i + 1) * 4 ^ Z.of_nat l ≤ n → ref_node leaf_map n l i = full l i.
Proof. intros Hn. unfold full. apply ref_node_full; [done|done|lia]. Qed.

Lemma full_children l i : 0 ≤ i → full (S l) i = hash_node ((λ j, full l (4 * i + j)) <$> seqZ 0 4).
Proof.
  intros Hi. pose proof (pow4_pos l). unfold full at 1. rewrite ref_children by (rewrite pow4_S; nia).
  change (seqZ 0 4) with [0; 1; 2; 3]. cbn [fmap list_fmap]. rewrite Z.add_0_r.
  rewrite !full_ref by (rewrite pow4_S; nia). done.
Qed.

(** What the levels hold after [q] complete nodes of level [l]. *)
Fixpoint holds (l : nat) (q : Z) (levels : list (list Hash256)) : Prop :=
  match levels with
  | [] => q = 0
  | nodes :: rest => nodes = (λ j, full l (4 * (q / 4) + j)) <$> seqZ 0 (q mod 4) ∧ holds (S l) (q / 4) rest
  end.

Lemma holds_zero l levels : Forall (λ x, x = []) levels → holds l 0 levels.
Proof. intros Hl. revert l. induction Hl as [|x levels -> _ IH]; intros l; cbn; [done|]. split; [done|apply IH]. Qed.

Lemma length_row l q : 0 ≤ q → length ((λ j, full l (4 * (q / 4) + j)) <$> seqZ 0 (q mod 4)) = Z.to_nat (q mod 4).
Proof. intros Hq. by rewrite length_fmap, length_seqZ. Qed.

Lemma push_holds l q levels : 0 ≤ q → holds l q levels → holds l (q + 1) (push_carry (full l q) levels).
Proof.
  revert l q. induction levels as [|nodes rest IH]; intros l q Hq Hh; cbn [push_carry holds] in *.
  { subst q. by split. }
  destruct Hh as [-> Hrest]. rewrite length_app, length_row by done. cbn [length].
  pose proof (Z.div_mod q 4) as Hdm. pose proof (Z.mod_pos_bound q 4) as Hm.
  assert (Happ : (((λ j, full l (4 * (q / 4) + j)) <$> seqZ 0 (q mod 4)) ++ [full l q]) =
    (λ j, full l (4 * (q / 4) + j)) <$> seqZ 0 (q mod 4 + 1)).
  { rewrite seqZ_app by lia. rewrite fmap_app. f_equal. change (seqZ (0 + q mod 4) 1) with [0 + q mod 4]. cbn.
    do 2 f_equal. lia. }
  destruct (Nat.eqb_spec (Z.to_nat (q mod 4) + 1) 4) as [E|E].
  - assert (Em : q mod 4 = 3) by lia. assert (E1 : (q + 1) mod 4 = 0) by (Z.div_mod_to_equations; lia).
    assert (E2 : (q + 1) / 4 = q / 4 + 1) by (Z.div_mod_to_equations; lia).
    rewrite Happ, Em. change (3 + 1) with 4. rewrite <- full_children by (apply Z.div_pos; lia).
    cbn [holds]. rewrite E1, E2. split; [done|]. apply IH; [apply Z.div_pos; lia|done].
  - assert (E1 : (q + 1) mod 4 = q mod 4 + 1) by (Z.div_mod_to_equations; lia).
    assert (E2 : (q + 1) / 4 = q / 4) by (Z.div_mod_to_equations; lia).
    cbn [holds]. rewrite E1, E2, Happ. by split.
Qed.

(** The row of a partial node: its complete children, then the one being
    filled, then nothing. *)
Lemma partial_row l n q r :
  0 ≤ q → n = q * 4 ^ Z.of_nat l + r → 0 ≤ r < 4 ^ Z.of_nat l → 0 < q mod 4 ∨ 0 < r →
  ref_node leaf_map n (S l) (q / 4) =
    hash_node (pad4 (((λ j, full l (4 * (q / 4) + j)) <$> seqZ 0 (q mod 4)) ++
      option_list (if r =? 0 then None else Some (ref_node leaf_map n l q)))).
Proof.
  intros Hq Hn Hr Hpos. pose proof (Z.div_mod q 4) as Hdm. pose proof (Z.mod_pos_bound q 4) as Hm.
  pose proof (pow4_pos l) as Hp.
  rewrite ref_children by (rewrite pow4_S; nia). f_equal.
  assert (Hk : ∀ k, 4 * (q / 4) + k < q → ref_node leaf_map n l (4 * (q / 4) + k) = full l (4 * (q / 4) + k)).
  { intros k Hk. apply full_ref. nia. }
  assert (He : ∀ k, q < 4 * (q / 4) + k ∨ (q = 4 * (q / 4) + k ∧ r = 0) → ref_node leaf_map n l (4 * (q / 4) + k) = empty_digest).
  { intros k Hk'. apply ref_node_empty. nia. }
  assert (Hcase : q mod 4 = 0 ∨ q mod 4 = 1 ∨ q mod 4 = 2 ∨ q mod 4 = 3) by lia.
  rewrite <- (Z.add_0_r (4 * (q / 4))) at 1.
  destruct (Z.eqb_spec r 0) as [Er|Er].
  - destruct Hcase as [E|[E|[E|E]]]; rewrite E in *; [lia|..];
      [change (seqZ 0 1) with [0]|change (seqZ 0 2) with [0; 1]|change (seqZ 0 3) with [0; 1; 2]];
      cbn [fmap list_fmap option_list app pad4]; unfold pad4; cbn [length replicate Nat.sub app];
      try rewrite (Hk 0) by lia; try rewrite (Hk 1) by lia; try rewrite (Hk 2) by lia; try rewrite (He 1) by lia;
      try rewrite (He 2) by lia; try rewrite (He 3) by lia; done.
  - assert (Eq : ref_node leaf_map n l q = ref_node leaf_map n l (4 * (q / 4) + q mod 4)) by (f_equal; lia). rewrite Eq.
    destruct Hcase as [E|[E|[E|E]]]; rewrite E in *;
      [change (seqZ 0 0) with (@nil Z)|change (seqZ 0 1) with [0]|change (seqZ 0 2) with [0; 1]|change (seqZ 0 3) with [0; 1; 2]];
      cbn [fmap list_fmap option_list app pad4]; unfold pad4; cbn [length replicate Nat.sub app];
      try rewrite (Hk 0) by lia; try rewrite (Hk 1) by lia; try rewrite (Hk 2) by lia; try rewrite (He 1) by lia;
      try rewrite (He 2) by lia; try rewrite (He 3) by lia; done.
Qed.

Lemma fold_levels_spec d l n levels :
  0 ≤ n → holds l (n / 4 ^ Z.of_nat l) levels →
  let carry k := if n mod 4 ^ Z.of_nat k =? 0 then None else Some (ref_node leaf_map n k (n / 4 ^ Z.of_nat k)) in
  ∃ above, fold_levels d levels (carry l) = (carry (l + d)%nat, above) ∧ holds (l + d) (n / 4 ^ Z.of_nat (l + d)) above.
Proof.
  cbv zeta. revert l levels. induction d as [|d IH]; intros l levels Hn Hh; cbn [fold_levels].
  { rewrite Nat.add_0_r. by exists levels. }
  pose proof (pow4_pos l) as Hp. set (q := n / 4 ^ Z.of_nat l) in *. set (r := n mod 4 ^ Z.of_nat l) in *.
  assert (Hdm : n = 4 ^ Z.of_nat l * q + r) by (apply Z.div_mod; lia). pose proof (Z.mod_pos_bound n (4 ^ Z.of_nat l) Hp) as Hr. fold r in Hr.
  assert (Hq : 0 ≤ q) by (apply Z.div_pos; lia). pose proof (Z.mod_pos_bound q 4) as Hm.
  assert (Hup : n / 4 ^ Z.of_nat (S l) = q / 4) by (rewrite pow4_S, Z.mul_comm, <- Z.div_div by lia; done).
  assert (Hmod : n mod 4 ^ Z.of_nat (S l) = 4 ^ Z.of_nat l * (q mod 4) + r).
  { rewrite pow4_S, (Z.mul_comm 4). rewrite Z.rem_mul_r by lia. fold q r. lia. }
  assert (Hrow : default [] (head levels) = (λ j, full l (4 * (q / 4) + j)) <$> seqZ 0 (q mod 4) ∧ holds (S l) (q / 4) (tail levels)).
  { destruct levels as [|nodes rest]; cbn in Hh |- *; [by rewrite Hh|done]. }
  destruct Hrow as [-> Htail]. rewrite length_row by done.
  replace (l + S d)%nat with (S l + d)%nat by lia. rewrite <- Hup in Htail.
  replace (if (Z.to_nat (q mod 4) =? 0)%nat && bool_decide ((if r =? 0 then None else Some (ref_node leaf_map n l q)) = None) then _ else _)
    with (if n mod 4 ^ Z.of_nat (S l) =? 0 then None else Some (ref_node leaf_map n (S l) (n / 4 ^ Z.of_nat (S l)))); [by apply IH|].
  rewrite Hmod, Hup. destruct (Z.eqb_spec r 0) as [Er|Er].
  - rewrite bool_decide_eq_true_2, andb_true_r by done. rewrite Er, Z.add_0_r.
    destruct (Z.eqb_spec (4 ^ Z.of_nat l * (q mod 4)) 0) as [E|E].
    + rewrite (proj2 (Nat.eqb_eq _ _)) by nia. done.
    + rewrite (proj2 (Nat.eqb_neq _ _)) by nia. f_equal. rewrite (partial_row l n q r) by (done || nia). by rewrite Er.
  - rewrite bool_decide_eq_false_2, andb_false_r by done. rewrite (proj2 (Z.eqb_neq _ _)) by nia. f_equal.
    rewrite (partial_row l n q r) by (done || nia). by rewrite (proj2 (Z.eqb_neq _ _)).
Qed.

Lemma full_leaf (k : nat) h : L !! k = Some h → full 0 (Z.of_nat k) = h.
Proof.
  intros Hk. unfold full. change (4 ^ Z.of_nat 0) with 1. rewrite ref_node_leaf by lia.
  unfold get_leaf_hash. by rewrite leaf_map_lookup, Hk.
Qed.

Lemma foldl_push k :
  (k ≤ length L)%nat → Z.of_nat k ≤ 4 ^ 20 →
  let f := foldl push frontier_new (take k L) in holds 0 (Z.of_nat k) (fr_levels f) ∧ fr_count f = Z.of_nat k.
Proof.
  induction k as [|k IH]; intros Hk Hc; [done|].
  destruct (lookup_lt_is_Some_2 L k) as [h Hh]; [lia|]. rewrite (take_S_r _ _ h Hh), foldl_app. cbn [foldl].
  destruct IH as [Hl Hcount]; [lia|lia|]. cbn [push fr_levels fr_count]. rewrite Hcount. split.
  - rewrite <- (full_leaf k h Hh), Nat2Z.inj_succ. apply push_holds; [lia|done].
  - rewrite sat_add_exact; [lia|]. assert (4 ^ 20 < u_max 64) by done. lia.
Qed.

Lemma depth_for_spec n d :
  0 < n → (1 ≤ d ≤ 20)%nat → n ≤ 4 ^ Z.of_nat d → (d = 1%nat ∨ 4 ^ (Z.of_nat d - 1) < n) → depth_for n = Ok d.
Proof.
  intros Hn Hd Hfit Hleast. unfold depth_for.
  rewrite (proj2 (list_find_Some _ _ (d - 1)%nat d)); [done|]. split_and!; [|done|].
  - rewrite lookup_seq_lt by (unfold MAX_DEPTH; lia). f_equal. lia.
  - intros j y Hj Hlt Hy. apply lookup_seq in Hj as [-> _]. destruct Hleast as [->|Hl]; [lia|].
    assert (4 ^ Z.of_nat (1 + j) ≤ 4 ^ (Z.of_nat d - 1)) by (apply Z.pow_le_mono_r; lia). lia.
Qed.

Lemma frontier_root_ref d :
  let n := Z.of_nat (length L) in
  0 < n → (1 ≤ d ≤ 20)%nat → n ≤ 4 ^ Z.of_nat d → (d = 1%nat ∨ 4 ^ (Z.of_nat d - 1) < n) →
  let f := foldl push frontier_new L in
  frontier_depth f = Ok d ∧ frontier_root f = Ok (ref_node leaf_map n d 0).
Proof.
  cbv zeta. intros Hn Hd Hfit Hleast. set (n := Z.of_nat (length L)) in *.
  assert (H20 : n ≤ 4 ^ 20).
  { etrans; [exact Hfit|]. apply Z.pow_le_mono_r; lia. }
  destruct (foldl_push (length L)) as [Hh Hc]; [done|done|]. rewrite take_ge in Hh, Hc by done. fold n in Hh, Hc.
  assert (Hdep : frontier_depth (foldl push frontier_new L) = Ok d).
  { unfold frontier_depth. rewrite Hc, (proj2 (Z.eqb_neq _ _)) by lia. by apply depth_for_spec. }
  split; [done|]. unfold frontier_root. rewrite Hdep. cbn [mbind result_bind]. destruct d as [|d']; [lia|].
  set (d := S d') in *. pose proof (fold_levels_spec d 0 n (fr_levels (foldl push frontier_new L))) as Hf.
  cbv zeta beta in Hf. change (4 ^ Z.of_nat 0) with 1 in Hf. rewrite Z.div_1_r, Z.mod_1_r in Hf.
  destruct Hf as (above & Hf & Ha); [lia|done|]. cbn [Z.eqb] in Hf. rewrite Hf. cbn [Nat.add] in *.
  pose proof (pow4_pos d) as Hp. destruct (Z.eq_dec n (4 ^ Z.of_nat d)) as [E|E].
  - rewrite E, Z.mod_same, Z.div_same in * by lia. cbn [Z.eqb].
    destruct above as [|nodes above]; cbn [holds] in Ha; [done|]. destruct Ha as [-> _].
    change (1 mod 4) with 1. change (1 / 4) with 0. change (seqZ 0 1) with [0]. cbn [fmap list_fmap mbind option_bind head ok_or].
    f_equal. rewrite (full_ref (4 ^ Z.of_nat d)) by lia. done.
  - rewrite Z.mod_small, Z.div_small by lia. by rewrite (proj2 (Z.eqb_neq _ _)) by lia.
Qed.

(** ** The in-memory tree *)
Lemma seqZ_1 m : seqZ m (Z.of_nat 1) = [m].
Proof. done. Qed.
Lemma seqZ_2 m : seqZ m (Z.of_nat 2) = [m; m + 1].
Proof. change (seqZ m (Z.of_nat 2)) with [m; 1 + m]. by rewrite (Z.add_comm 1). Qed.
Lemma seqZ_3 m : seqZ m (Z.of_nat 3) = [m; m + 1; m + 2].
Proof. change (seqZ m (Z.of_nat 3)) with [m; 1 + m; 2 + m]. by rewrite (Z.add_comm 1), (Z.add_comm 2). Qed.
Lemma seqZ_4 m : seqZ m 4 = [m; m + 1; m + 2; m + 3].
Proof. change (seqZ m 4) with [m; 1 + m; 2 + m; 3 + m]. by rewrite (Z.add_comm 1), (Z.add_comm 2), (Z.add_comm 3). Qed.

Lemma parents_row (f F : Z → Hash256) (c : nat) : ∀ s,
  (∀ i, s ≤ i → 4 * i < 4 * s + Z.of_nat c →
     F i = hash_node ((λ j, if 4 * i + j <? 4 * s + Z.of_nat c then f (4 * i + j) else empty_digest) <$> seqZ 0 4)) →
  parents (f <$> seqZ (4 * s) (Z.of_nat c)) = F <$> seqZ s (Z.of_nat ((c + 3) / 4)).
Proof.
  induction c as [c IH] using lt_wf_ind. intros s HF.
  assert (Hhead : (c = 0 ∨ c = 1 ∨ c = 2 ∨ c = 3 ∨ 4 ≤ c)%nat) by lia.
  change (seqZ 0 4) with [0; 1; 2; 3] in HF. cbn [fmap list_fmap] in HF.
  destruct Hhead as [->|[->|[->|[->|Hc]]]]; [done|..].
  1-3: specialize (HF s ltac:(lia) ltac:(lia)); rewrite Z.add_0_r in HF.
  - rewrite (proj2 (Z.ltb_lt _ _)), !(proj2 (Z.ltb_ge _ _)) in HF by lia.
    change (Z.of_nat ((1 + 3) / 4)) with (Z.of_nat 1). rewrite !seqZ_1. cbn [fmap list_fmap parents]. by rewrite HF.
  - rewrite (proj2 (Z.ltb_lt (4 * s) _)), (proj2 (Z.ltb_lt (4 * s + 1) _)), !(proj2 (Z.ltb_ge _ _)) in HF by lia.
    change (Z.of_nat ((2 + 3) / 4)) with (Z.of_nat 1). rewrite seqZ_2, seqZ_1. cbn [fmap list_fmap parents]. by rewrite HF.
  - rewrite (proj2 (Z.ltb_lt (4 * s) _)), (proj2 (Z.ltb_lt (4 * s + 1) _)), (proj2 (Z.ltb_lt (4 * s + 2) _)), !(proj2 (Z.ltb_ge _ _)) in HF by lia.
    change (Z.of_nat ((3 + 3) / 4)) with (Z.of_nat 1). rewrite seqZ_3, seqZ_1. cbn [fmap list_fmap parents]. by rewrite HF.
  - replace (Z.of_nat c) with (4 + Z.of_nat (c - 4)) by lia. rewrite seqZ_app by lia.
    replace (Z.of_nat ((c + 3) / 4)) with (1 + Z.of_nat ((c - 4 + 3) / 4)).
    2: { replace (c + 3)%nat with (c - 4 + 3 + 1 * 4)%nat by lia. rewrite Nat.div_add by lia. lia. }
    rewrite (seqZ_app _ 1) by lia. rewrite !fmap_app.
    rewrite seqZ_4. change (seqZ s 1) with [s]. cbn [fmap list_fmap app parents]. f_equal.
    + rewrite (HF s) by lia. rewrite Z.add_0_r, !(proj2 (Z.ltb_lt _ _)) by lia. done.
    + replace (4 * s + 4) with (4 * (s + 1)) by lia. apply IH; [lia|]. intros i Hi Hlt.
      rewrite (HF i) by lia. change (seqZ 0 4) with [0; 1; 2; 3]. cbn [fmap list_fmap].
      by replace (4 * (s + 1) + Z.of_nat (c - 4)) with (4 * s + Z.of_nat c) by lia.
Qed.

Abbreviation n := (Z.of_nat (length L)).
Definition row (l c : nat) : list Hash256 := node l <$> seqZ 0 (Z.of_nat c).
(** [c] nodes of level [l] cover the leaves. *)
Definition covers (l c : nat) : Prop := ∀ i, 0 ≤ i → (i < Z.of_nat c ↔ i * 4 ^ Z.of_nat l < n).

Lemma node_children l i : i * 4 ^ Z.of_nat (S l) < n → node (S l) i = hash_node ((λ j, node l (4 * i + j)) <$> seqZ 0 4).
Proof.
  intros Hi. unfold node at 1. rewrite ref_children by done. change (seqZ 0 4) with [0; 1; 2; 3]. cbn [fmap list_fmap].
  by rewrite Z.add_0_r.
Qed.

Lemma node_beyond l c i : covers l c → Z.of_nat c ≤ i → node l i = empty_digest.
Proof. intros Hc Hi. apply ref_node_empty. destruct (Hc i) as [_ H2]; [lia|]. lia. Qed.

Lemma ceil4 i (c : nat) : i < Z.of_nat ((c + 3) / 4) ↔ 4 * i < Z.of_nat c.
Proof. rewrite Nat2Z.inj_div, Nat2Z.inj_add. Z.div_mod_to_equations. lia. Qed.

Lemma covers_S l c : covers l c → covers (S l) ((c + 3) / 4).
Proof. intros Hc i Hi. rewrite ceil4, (Hc (4 * i)) by lia. rewrite pow4_S. lia. Qed.

Lemma parents_of_row l c : covers l c → parents (row l c) = row (S l) ((c + 3) / 4).
Proof.
  intros Hc. unfold row. change (seqZ 0 (Z.of_nat c)) with (seqZ (4 * 0) (Z.of_nat c)). apply parents_row. intros i Hi Hlt.
  rewrite node_children.
  - f_equal. apply list_fmap_ext. intros j k Hk. destruct (Z.ltb_spec (4 * i + k) (4 * 0 + Z.of_nat c)); [done|].
    apply (node_beyond l c); [done|lia].
  - pose proof (proj1 (Hc (4 * i) ltac:(lia))) as Hb. rewrite pow4_S. lia.
Qed.

Lemma row_leaves : L = row 0 (length L) ∧ covers 0 (length L).
Proof.
  split; [|intros i Hi; change (4 ^ Z.of_nat 0) with 1; lia].
  apply list_eq. intros i. unfold row. rewrite list_lookup_fmap.
  destruct (decide (i < length L)%nat) as [Hi|Hi].
  - rewrite lookup_seqZ_lt by lia. cbn [fmap option_fmap option_map]. unfold node. rewrite ref_node_leaf by lia. unfold get_leaf_hash.
    rewrite Z.add_0_l, leaf_map_lookup. destruct (lookup_lt_is_Some_2 L i Hi) as [h ->]. done.
  - rewrite lookup_ge_None_2, lookup_seqZ_ge by lia. done.
Qed.

Lemma build_levels_spec d : ∀ l c, covers l c → ∀ k, (k ≤ d)%nat →
  ∃ c', (row l c :: build_levels d (row l c)) !! k = Some (row (l + k) c') ∧ covers (l + k) c'.
Proof.
  induction d as [|d IH]; intros l c Hc k Hk.
  - assert (k = O) as -> by lia. rewrite Nat.add_0_r. by exists c.
  - destruct k as [|k]; [rewrite Nat.add_0_r; by exists c|]. cbn [build_levels lookup list_lookup].
    rewrite parents_of_row by done. replace (l + S k)%nat with (S l + k)%nat by lia. apply IH; [by apply covers_S|lia].
Qed.

Lemma row_lookup l c (i : nat) : covers l c → default empty_digest (row l c !! i) = node l (Z.of_nat i).
Proof.
  intros Hc. unfold row. rewrite list_lookup_fmap. destruct (decide (i < c)%nat).
  - by rewrite lookup_seqZ_lt by lia.
  - rewrite lookup_seqZ_ge by lia. symmetry. apply (node_beyond l c); [done|lia].
Qed.

Lemma tree_levels d T :
  tree_new L d = Ok T → ct_depth T = d ∧ (1 ≤ d ≤ 20)%nat ∧ 0 < n ≤ 4 ^ Z.of_nat d ∧
  ∀ k, (k ≤ d)%nat → ∃ c, level_of T k = row k c ∧ covers k c.
Proof.
  unfold tree_new. intros ([] & H1 & Hr)%bind_Ok. apply bind_Ok in Hr as ([] & H2 & Hr). apply bind_Ok in Hr as ([] & H3 & [= <-]).
  apply ensure_Ok in H1, H2, H3. apply negb_true_iff, Nat.eqb_neq in H1. apply andb_true_iff in H2 as [H2a H2b].
  apply Nat.leb_le in H2a, H2b. apply Z.leb_le in H3. unfold MAX_DEPTH in *. cbn [ct_depth].
  split_and!; [done|lia|lia|lia|done|]. intros k Hk. destruct row_leaves as [EL Hc].
  destruct (build_levels_spec d 0 (length L) Hc k Hk) as (c & Hl & Hcov). rewrite <- EL in Hl.
  exists c. unfold level_of. cbn [ct_levels]. by rewrite Hl.
Qed.

Lemma tree_root_ref d T : tree_new L d = Ok T → tree_root T = ref_node leaf_map n d 0.
Proof.
  intros (Hd & _ & _ & Hl)%tree_levels. destruct (Hl d ltac:(lia)) as (c & Hrow & Hc). unfold tree_root.
  by rewrite Hd, Hrow, (row_lookup d c 0 Hc).
Qed.

Lemma family_nodes l c (i : nat) :
  covers l c → family (row l c) i = (λ j, node l (4 * (Z.of_nat i / 4) + j)) <$> seqZ 0 4.
Proof.
  intros Hc. unfold family. change (seq 0 4) with [0; 1; 2; 3]%nat. change (seqZ 0 4) with [0; 1; 2; 3].
  cbn [fmap list_fmap]. rewrite !(row_lookup l c) by done. rewrite !Nat2Z.inj_add, !Nat2Z.inj_mul, Nat2Z.inj_div. done.
Qed.

(** ** Paths *)
Lemma place_restore (children : list Hash256) current :
  length children = 4%nat → current ∈ children →
  let '(sibs, pos) := place_current children current in
  restore sibs (Z.to_nat pos) current = merge_sort lex children ∧ 0 ≤ pos < 4.
Proof.
  intros Hlen Hin. unfold place_current. set (s := merge_sort lex children).
  assert (Hs : s ≡ₚ children) by apply merge_sort_Permutation.
  destruct (list_find (λ c, c = current) s) as [[p x]|] eqn:Hf.
  - apply list_find_Some in Hf as (Hp & -> & _). cbn [fmap option_fmap option_map fst default]. change (id p) with p.
    rewrite Nat2Z.id. pose proof (lookup_lt_Some _ _ _ Hp) as Hlt. rewrite Hs, Hlen in Hlt. split; [|lia].
    unfold restore. rewrite delete_take_drop.
    assert (Ht : length (take p s) = p) by (rewrite length_take, Hs, Hlen; lia).
    rewrite take_app_length', drop_app_length' by done. by apply take_drop_middle.
  - apply list_find_None in Hf. rewrite Forall_forall in Hf. destruct (Hf current); [by rewrite Hs|done].
Qed.

Lemma climb_step sibs pos rest (children : list Hash256) current :
  length children = 4%nat → current ∈ children → place_current children current = (sibs, pos) →
  climb ((sibs, pos) :: rest) current = climb rest (hash_node children).
Proof.
  intros Hl Hin Hp. pose proof (place_restore children current Hl Hin) as Hr. rewrite Hp in Hr. destruct Hr as [Hr Hb].
  cbn [climb]. unfold ensure, ARITY. rewrite (proj2 (Z.ltb_lt pos 4)) by lia. cbn [mbind result_bind]. by rewrite Hr.
Qed.

Lemma path_climbs T d fuel : ∀ l (i : nat),
  tree_new L d = Ok T → (l + fuel ≤ d)%nat → Z.of_nat i * 4 ^ Z.of_nat l < n →
  let '(ss, ps) := path_levels T l fuel i in
  climb (zip ss ps) (node l (Z.of_nat i)) = Ok (node (l + fuel) (Z.of_nat i / 4 ^ Z.of_nat fuel)) ∧
  length ss = fuel ∧ length ps = fuel.
Proof.
  induction fuel as [|fuel IH]; intros l i HT Hle Hi; cbn [path_levels].
  { rewrite Nat.add_0_r, Z.div_1_r. done. }
  pose proof (tree_levels d T HT) as (_ & _ & _ & Hl). destruct (Hl l ltac:(lia)) as (c & Hrow & Hc).
  rewrite Hrow, (family_nodes l c i Hc). set (children := (λ j, node l (4 * (Z.of_nat i / 4) + j)) <$> seqZ 0 4).
  assert (Hcur : default empty_digest (children !! (i mod 4)%nat) = node l (Z.of_nat i) ∧ node l (Z.of_nat i) ∈ children).
  { pose proof (Nat.mod_upper_bound i 4) as Hm.
    assert (Ei : Z.of_nat i = 4 * (Z.of_nat i / 4) + (0 + Z.of_nat (i mod 4))) by (rewrite Nat2Z.inj_mod; Z.div_mod_to_equations; lia).
    assert (Hlk : children !! (i mod 4)%nat = Some (node l (Z.of_nat i))).
    { unfold children. rewrite list_lookup_fmap, lookup_seqZ_lt by lia. cbn [fmap option_fmap option_map]. by rewrite <- Ei. }
    rewrite Hlk. split; [done|]. by eapply list_elem_of_lookup_2. }
  destruct Hcur as [-> Hin]. destruct (place_current children (node l (Z.of_nat i))) as [sibs pos] eqn:Hpl.
  specialize (IH (S l) (i / 4)%nat HT ltac:(lia)). destruct (path_levels T (S l) fuel (i / 4)%nat) as [ss ps].
  assert (Hup : Z.of_nat i / 4 * 4 ^ Z.of_nat (S l) < n).
  { pose proof (pow4_pos l). rewrite pow4_S. pose proof (Z.mul_div_le (Z.of_nat i) 4). nia. }
  rewrite Nat2Z.inj_div in IH. destruct IH as (IH1 & IH2 & IH3); [done|]. cbn [zip zip_with].
  rewrite (climb_step sibs pos _ children _ ltac:(done) Hin Hpl). unfold children. rewrite <- node_children by done.
  change (Z.of_nat 4) with 4 in IH1. rewrite IH1. replace (S l + fuel)%nat with (l + S fuel)%nat by lia.
  split_and!; [|by rewrite <- IH2|by rewrite <- IH3]. do 2 f_equal. rewrite pow4_S.
  apply Z.div_div; [lia|apply pow4_pos].
Qed.

Lemma triple_perm (children : list Hash256) (k : nat) cur :
  length children = 4%nat → children !! k = Some cur →
  let '(s0, s1, s2) := as_triple (delete k children) in [cur; s0; s1; s2] ≡ₚ children.
Proof.
  intros Hl Hk. destruct children as [|a [|b [|c [|d [|]]]]]; try done.
  destruct k as [|[|[|[|k]]]]; cbn in Hk |- *; simplify_eq.
  - done.
  - apply Permutation_swap.
  - apply (Permutation_middle [a; b] [d]).
  - apply (Permutation_middle [a; b; c] []).
Qed.

Lemma place_perm c1 c2 cur : c1 ≡ₚ c2 → place_current c1 cur = place_current c2 cur.
Proof. intros Hp. unfold place_current. by rewrite (merge_sort_perm_eq c1 c2). Qed.

Lemma unsorted_is_path T d fuel : ∀ l (i : nat),
  tree_new L d = Ok T → (l + fuel ≤ d)%nat → Z.of_nat i * 4 ^ Z.of_nat l < n →
  unsorted_levels (sibling_levels T l fuel i) (node l (Z.of_nat i)) = path_levels T l fuel i.
Proof.
  induction fuel as [|fuel IH]; intros l i HT Hle Hi; cbn [sibling_levels unsorted_levels path_levels]; [done|].
  pose proof (tree_levels d T HT) as (_ & _ & _ & Hl). destruct (Hl l ltac:(lia)) as (c & Hrow & Hc).
  rewrite Hrow, (family_nodes l c i Hc). set (children := (λ j, node l (4 * (Z.of_nat i / 4) + j)) <$> seqZ 0 4).
  pose proof (Nat.mod_upper_bound i 4) as Hm.
  assert (Ei : Z.of_nat i = 4 * (Z.of_nat i / 4) + (0 + Z.of_nat (i mod 4))) by (rewrite Nat2Z.inj_mod; Z.div_mod_to_equations; lia).
  assert (Hlk : children !! (i mod 4)%nat = Some (node l (Z.of_nat i))).
  { unfold children. rewrite list_lookup_fmap, lookup_seqZ_lt by lia. cbn [fmap option_fmap option_map]. by rewrite <- Ei. }
  pose proof (triple_perm children (i mod 4) _ ltac:(done) Hlk) as Hp. destruct (as_triple _) as [[s0 s1] s2].
  rewrite Hlk. change (default empty_digest (Some (node l (Z.of_nat i)))) with (node l (Z.of_nat i)).
  rewrite (place_perm _ _ _ Hp), (merge_sort_perm_eq _ _ Hp). fold (hash_node children).
  assert (Hup : Z.of_nat i / 4 * 4 ^ Z.of_nat (S l) < n).
  { pose proof (pow4_pos l). rewrite pow4_S. pose proof (Z.mul_div_le (Z.of_nat i) 4). nia. }
  assert (Hn : hash_node children = node (S l) (Z.of_nat (i / 4))).
  { unfold children. rewrite <- node_children by done. by rewrite Nat2Z.inj_div. }
  rewrite Hn, IH; [done|done|lia|by rewrite Nat2Z.inj_div].
Qed.

Lemma tree_path_root d T (i : nat) h :
  tree_new L d = Ok T → L !! i = Some h →
  ∃ p sibs, tree_path T i = Ok p ∧ path_root p h = Ok (tree_root T) ∧ length (positions p) = d ∧
    index_ordered_siblings T i = Ok sibs ∧ from_unsorted sibs h = Ok p.
Proof.
  intros HT Hi. pose proof (tree_levels d T HT) as (Hd & H20 & Hn & Hl). pose proof (lookup_lt_Some _ _ _ Hi) as Hlt.
  assert (H0i : Z.of_nat i * 4 ^ Z.of_nat 0 < n) by (change (4 ^ Z.of_nat 0) with 1; lia).
  assert (Hleaf : node 0 (Z.of_nat i) = h).
  { unfold node. rewrite ref_node_leaf by lia. unfold get_leaf_hash. by rewrite leaf_map_lookup, Hi. }
  assert (H00 : level_of T 0 = L).
  { unfold tree_new in HT. apply bind_Ok in HT as ([] & _ & HT). apply bind_Ok in HT as ([] & _ & HT).
    by apply bind_Ok in HT as ([] & _ & [= <-]). }
  pose proof (path_climbs T d d 0 i HT ltac:(lia) H0i) as Hc.
  pose proof (unsorted_is_path T d d 0 i HT ltac:(lia) H0i) as Hu. rewrite Hleaf in Hc, Hu.
  assert (Hg : ensure (i <? length (level_of T 0))%nat (BadLeafIndex i) = Ok tt).
  { unfold ensure. rewrite H00. by rewrite (proj2 (Nat.ltb_lt _ _)). }
  assert (Hlen : length (sibling_levels T 0 d i) = d).
  { clear. generalize 0%nat i. induction d as [|d IH]; intros; cbn; [done|]. by rewrite IH. }
  exists {| siblings := (path_levels T 0 d i).1; positions := (path_levels T 0 d i).2 |}, (sibling_levels T 0 d i).
  unfold tree_path, index_ordered_siblings, from_unsorted. rewrite Hg, Hd. cbn [mbind result_bind].
  unfold ensure at 1. rewrite Hlen, (proj2 (Nat.leb_le d MAX_DEPTH)) by (unfold MAX_DEPTH; lia). cbn [mbind result_bind].
  rewrite Hu. destruct (path_levels T 0 d i) as [ss ps] eqn:Hpl. cbn [fst snd]. destruct Hc as (Hc & E1 & E2).
  split_and!; try done. unfold path_root. cbn [siblings positions]. rewrite E1, E2, Nat.eqb_refl.
  unfold ensure. rewrite (proj2 (Nat.leb_le d MAX_DEPTH)) by (unfold MAX_DEPTH; lia). cbn [mbind result_bind Nat.add] in *.
  rewrite Hc. f_equal. rewrite (tree_root_ref d T HT). unfold node. f_equal. apply Z.div_small. lia.
Qed.
End Nodes.

(** ** A proof the chain serves *)
Section ChainProofs.
Context `{PoseidonOps, !PoseidonLaws}.
Implicit Types t : TreeState.

Lemma as_triple_good (l : list Hash256) :
  Forall good_hash l → let '(s0, s1, s2) := as_triple l in good_hash s0 ∧ good_hash s1 ∧ good_hash s2.
Proof.
  intros Hl. unfold as_triple.
  assert (Hk : ∀ k, good_hash (nth k l empty_hash)).
  { intros k. rewrite <- nth_default_eq. unfold nth_default. destruct (nth_error l k) as [h|] eqn:E; [|apply good_zero].
    apply nth_error_In in E. rewrite <- list_elem_of_In in E. by eapply Forall_forall in Hl. }
  split_and!; apply Hk.
Qed.

Lemma proof_siblings_good t k : ∀ l i,
  tree_inv t → UnprocessedLeaves t = 0 → (l + k ≤ Z.to_nat (Depth t))%nat → 0 ≤ i →
  good_siblings (proof_levels (Leaves t) (Nodes t) (seqZ (Z.of_nat (S l)) (Z.of_nat k)) i).
Proof.
  induction k as [|k IH]; intros l i Ht Hu Hlk Hi; [constructor|].
  replace (Z.of_nat (S k)) with (1 + Z.of_nat k) by lia. rewrite seqZ_app by lia.
  change (seqZ (Z.of_nat (S l)) 1) with [Z.of_nat (S l)]. cbn [app proof_levels].
  replace (Z.of_nat (S l) + 1) with (Z.of_nat (S (S l))) by lia. constructor.
  - apply as_triple_good. unfold level_siblings. apply Forall_fmap, Forall_forall. intros j [_ Hj]%list_elem_of_filter.
    apply list_elem_of_fmap in Hj as (x & -> & Hx). apply elem_of_seqZ in Hx. unfold ARITY in *. cbn [compose].
    change (good_hash (stored_child t l (i / 4 * 4 + x))).
    rewrite stored_child_ref; [by apply good_ref_node|done|done|lia|]. assert (0 ≤ i / 4) by (apply Z.div_pos; lia). lia.
  - unfold ARITY. apply IH; [done|done|lia|apply Z.div_pos; lia].
Qed.

Lemma climb_unsorted sibs : ∀ h,
  good_hash h → good_siblings sibs →
  let '(ss, ps) := unsorted_levels sibs h in
  climb (zip ss ps) h = Ok (fold_siblings h sibs) ∧ length ss = length sibs ∧ length ps = length sibs.
Proof.
  induction sibs as [|[[s0 s1] s2] sibs IH]; intros h Hh Hs; cbn [unsorted_levels]; [done|].
  apply Forall_cons in Hs as [(G0 & G1 & G2) Hs].
  destruct (place_current [h; s0; s1; s2] h) as [sb pos] eqn:Hpl.
  assert (Hnode : hash_node_presorted (merge_sort lex [h; s0; s1; s2]) = ZkTree.hash_node [h; s0; s1; s2]).
  { apply node_rule. rewrite !Forall_cons. split_and!; try done. }
  specialize (IH (hash_node_presorted (merge_sort lex [h; s0; s1; s2])) (good_presorted _) Hs).
  destruct (unsorted_levels sibs _) as [ss ps]. destruct IH as (IH1 & IH2 & IH3). cbn [zip zip_with].
  rewrite (climb_step sb pos _ [h; s0; s1; s2] h) by (done || by left). unfold hash_node at 1. rewrite IH1, Hnode.
  split_and!; [done|cbn; by rewrite IH2|cbn; by rewrite IH3].
Qed.

(** ** Theorems *)

(** The leaves the chain holds, as a list. *)
Definition chain_leaves t (L : list Hash256) : Prop :=
  (∀ i, Leaves t !! i = leaf_map L !! i) ∧ LeafCount t = Z.of_nat (length L).

Lemma chain_leaves_good t L : tree_inv t → chain_leaves t L → Forall good_hash L.
Proof.
  intros Ht [Hl _]. apply Forall_forall. intros h [i Hi]%list_elem_of_lookup.
  rewrite <- leaf_map_lookup, <- Hl in Hi. by apply (ti_digests t Ht) in Hi.
Qed.

Lemma chain_root t L :
  tree_inv t → UnprocessedLeaves t = 0 → chain_leaves t L →
  Root t = ref_node (leaf_map L) (Z.of_nat (length L)) (Z.to_nat (Depth t)) 0 ∧
  (L = [] → Depth t = 0) ∧
  (L ≠ [] → (1 ≤ Z.to_nat (Depth t) ≤ 20)%nat ∧ Z.of_nat (length L) ≤ 4 ^ Z.of_nat (Z.to_nat (Depth t)) ∧
    (Z.to_nat (Depth t) = 1%nat ∨ 4 ^ (Z.of_nat (Z.to_nat (Depth t)) - 1) < Z.of_nat (length L))).
Proof.
  intros Ht Hu [Hl Hc]. assert (Hs : settled t = Z.of_nat (length L)) by (unfold settled; lia).
  pose proof (ti_fits t Ht) as Tf. pose proof (ti_least t Ht) as Tl. pose proof (ti_depth t Ht) as Td.
  rewrite (ti_root t Ht), Hs. rewrite Hs in Tf, Tl. split_and!.
  - apply ref_node_ext. intros. apply Hl.
  - intros ->. cbn in *. destruct (Z.eq_dec (Depth t) 0); [done|]. specialize (Tl ltac:(lia)).
    unfold capacity_at_depth in Tl. case_match; [done|]. unfold sat_pow, ARITY in Tl.
    pose proof (Z.pow_nonneg 4 (Depth t - 1)). assert (0 ≤ u_max 64) by done. lia.
  - intros Hne. assert (Hpos : 0 < Z.of_nat (length L)) by (destruct L; [done|cbn; lia]).
    assert (Hd : 0 < Depth t). { destruct (Z.eq_dec (Depth t) 0) as [E|]; [|lia]. rewrite E in Tf. cbn in Tf. lia. }
    rewrite Z2Nat.id by lia. split_and!; [lia|lia| |].
    + rewrite <- capacity_exact by lia. done.
    + destruct (Z.eq_dec (Depth t) 1) as [->|]; [by left|right]. rewrite <- capacity_exact by lia. apply Tl. lia.
Qed.

Lemma frontier_climbs t L (Hreach : tree_reach genesis_tree t) (Hset : UnprocessedLeaves t = 0)
    (HL : chain_leaves t L) :
  frontier_root (foldl push frontier_new L) = Ok (Root t) ∧
  frontier_depth (foldl push frontier_new L) = Ok (Z.to_nat (Depth t)).
Proof.
  apply reachable_inv in Hreach as Ht. pose proof (chain_leaves_good t L Ht HL) as Hg.
  destruct (chain_root t L Ht Hset HL) as (-> & H0' & H1'). destruct (decide (L = [])) as [->|Hne].
  - rewrite (H0' eq_refl). done.
  - destruct (H1' Hne) as (Hd & Hfit & Hleast). assert (Hpos : 0 < Z.of_nat (length L)) by (destruct L; [done|cbn; lia]).
    destruct (frontier_root_ref L Hg (Z.to_nat (Depth t)) Hpos Hd Hfit Hleast) as [-> ->]. done.
Qed.

(** C30: the wallet's frontier climbs with the chain. Pushed the leaves the
    chain holds, in order, one at a time, the frontier folds to the root the
    pallet computes and the header publishes, at the pallet's own depth,
    whatever blocks the leaves came in; the empty tree included. *)
Theorem frontier_root_is_the_chains t L (Hreach : tree_reach genesis_tree t) (Hset : UnprocessedLeaves t = 0)
    (HL : chain_leaves t L) :
  frontier_root (foldl push frontier_new L) = Ok (Root t) ∧
  frontier_depth (foldl push frontier_new L) = Ok (Z.to_nat (Depth t)).
Proof. by apply frontier_climbs. Qed.

(** A path built locally opens to the chain's root. The in-memory tree
    over the chain's leaves has the chain's root; for every leaf it yields a
    path of the chain's depth that recomputes that root, and converting its
    unsorted siblings gives the very same path. *)
Theorem local_paths_open_the_chains_root t L (Hreach : tree_reach genesis_tree t) (Hset : UnprocessedLeaves t = 0)
    (HL : chain_leaves t L) (Hne : L ≠ []) :
  ∃ T, tree_new L (Z.to_nat (Depth t)) = Ok T ∧ tree_root T = Root t ∧
    ∀ i h, L !! i = Some h → ∃ p sibs, tree_path T i = Ok p ∧ path_root p h = Ok (Root t) ∧
      length (positions p) = Z.to_nat (Depth t) ∧ index_ordered_siblings T i = Ok sibs ∧ from_unsorted sibs h = Ok p.
Proof.
  apply reachable_inv in Hreach as Ht. pose proof (chain_leaves_good t L Ht HL) as Hg.
  destruct (chain_root t L Ht Hset HL) as (-> & _ & H1'). destruct (H1' Hne) as (Hd & Hfit & _).
  destruct (tree_new L (Z.to_nat (Depth t))) as [T|e] eqn:HT.
  - exists T. rewrite <- (tree_root_ref L Hg _ _ HT). split_and!; [done|done|]. intros i h Hi. by apply (tree_path_root L Hg).
  - exfalso. revert HT. unfold tree_new, ensure. rewrite (proj2 (Nat.eqb_neq _ _)) by (destruct L; cbn; done || lia).
    rewrite (proj2 (Nat.leb_le 1 _)), (proj2 (Nat.leb_le _ MAX_DEPTH)) by (unfold MAX_DEPTH; lia).
    by rewrite (proj2 (Z.leb_le _ _)) by done.
Qed.

(** A proof the chain serves converts. For every leaf of a settled tree
    the pallet's own proof, its siblings unsorted and without positions,
    becomes a circuit path that recomputes the pallet's root from that leaf. *)
Theorem chain_proof_converts t i (Hreach : tree_reach genesis_tree t) (Hset : UnprocessedLeaves t = 0)
    (Hi : 0 ≤ i < LeafCount t) :
  ∃ p h path, get_merkle_proof t i = Ok p ∧ Leaves t !! i = Some h ∧
    from_unsorted (mp_siblings p) h = Ok path ∧ path_root path h = Ok (Root t) ∧
    Z.of_nat (length (positions path)) = Depth t.
Proof.
  apply reachable_inv in Hreach as Ht.
  destruct (settled_leaf_proves t i Hreach Hset Hi) as (p & h & Hp & Hh & Hv & Hlen & Hmax).
  apply bool_decide_eq_true in Hv. pose proof (ti_digests t Ht i h Hh) as Hgood.
  assert (Hs : good_siblings (mp_siblings p)).
  { unfold get_merkle_proof in Hp. apply bind_Ok in Hp as ([] & _ & Hp). apply bind_Ok in Hp as ([] & _ & Hp).
    unfold generate_proof in Hp. case_match; [done|]. injection Hp as <-. cbn [mp_siblings].
    pose proof (ti_depth t Ht). rewrite <- (Z2Nat.id (Depth t)) by lia. apply (proof_siblings_good t _ 0 i); (done || lia). }
  pose proof (climb_unsorted (mp_siblings p) h Hgood Hs) as Hc. unfold CIRCUIT_MAX_TREE_DEPTH in Hmax.
  assert (Hle : (length (mp_siblings p) ≤ MAX_DEPTH)%nat) by (unfold MAX_DEPTH; lia).
  destruct (unsorted_levels (mp_siblings p) h) as [ss ps] eqn:Hu. destruct Hc as (Hc & E1 & E2).
  exists p, h, {| siblings := ss; positions := ps |}. split_and!; [done|done| | |cbn [positions]; lia].
  - unfold from_unsorted, ensure. rewrite (proj2 (Nat.leb_le _ _) Hle). cbn [mbind result_bind]. by rewrite Hu.
  - unfold path_root, ensure. cbn [siblings positions]. rewrite E1, E2, Nat.eqb_refl, (proj2 (Nat.leb_le _ _) Hle).
    cbn [mbind result_bind]. rewrite Hc. by f_equal.
Qed.
End ChainProofs.

(** ** Witnesses *)
Module ToyMerkle.
Import ToyCrypto.

Definition leaves : list Hash256 := toy_cm <$> [11; 12; 13; 14; 15; 16].
Lemma toy_chain_leaves : chain_leaves toy_tree leaves.
Proof.
  split; [|by vm_compute]. assert (E : Leaves toy_tree = leaf_map leaves) by (by vm_compute). intros i. by rewrite E.
Qed.

Lemma frontier_root_is_the_chains_witness :
  frontier_root (foldl push frontier_new leaves) = Ok (Root toy_tree) ∧
  frontier_depth (foldl push frontier_new leaves) = Ok (Z.to_nat (Depth toy_tree)).
Proof. apply (frontier_root_is_the_chains toy_tree leaves toy_tree_reachable); [by vm_compute|exact toy_chain_leaves]. Defined.

Lemma local_paths_open_the_chains_root_witness :
  ∃ T, tree_new leaves (Z.to_nat (Depth toy_tree)) = Ok T ∧ tree_root T = Root toy_tree.
Proof.
  destruct (local_paths_open_the_chains_root toy_tree leaves toy_tree_reachable) as (T & HT & Hr & _);
    [by vm_compute|exact toy_chain_leaves|done|]. exists T. exact (conj HT Hr).
Defined.

Lemma chain_proof_converts_witness :
  ∃ p h path, get_merkle_proof toy_tree 4 = Ok p ∧ Leaves toy_tree !! 4 = Some h ∧
    from_unsorted (mp_siblings p) h = Ok path ∧ path_root path h = Ok (Root toy_tree) ∧
    Z.of_nat (length (positions path)) = Depth toy_tree.
Proof. apply (chain_proof_converts toy_tree 4 toy_tree_reachable); by vm_compute. Defined.
End ToyMerkle.
