(* ===== verification/WalletTyping.v ===== *)
(** * The wallet's leaf typing

    [crates/qnero-wallet/src/typing.rs]: which rule opens a leaf, decided by
    what the block headers authenticate. The frontier is [CircuitMerkle]'s; a
    wallet's own miner key is the pair of functions [MinerView] gives. *)

From stdpp Require Import base option list numbers gmap.
From S2P Require Import Prelude Crypto ZkTree ZkTreeProps CircuitMerkle CircuitMerkleProps.
#[local] Open Scope Z_scope.
Import CircuitMerkle.

Record VerifiedBlock := {
  vb_number : Z;
  vb_hash : Hash256;
  vb_parent_hash : Hash256;
  vb_extrinsics_root : Hash256;
  vb_zk_tree_root : Hash256;
  vb_author_label : option Hash256;
}.
Record LeafRecord := {
  lr_index : Z;
  lr_commitment : option Hash256;
  lr_block_number : option Z;
  lr_coinbase_value : option Z;
}.
Inductive LeafKind := Transfer | Coinbase (ours : bool) (value : Z) (label_disagrees : bool).
Record TypedLeaf := { tl_index : Z; tl_commitment : Hash256; tl_block_number : Z; tl_kind : LeafKind }.

(** [MinerView]: the label for a parent and the commitment of the wallet's own
    coinbase note for a block and a value. *)
Record MinerView := {
  mv_label : Hash256 → Hash256;
  mv_coinbase_commitment : Z → Z → option Hash256;
}.

Inductive TypingError :=
| NoBlocks
| PrefixCount (got count : Z)
| PrefixRoot (block : Z)
| AnchorRoot (block : Z)
| BrokenParent (block : Z)
| NoCommitment (index : Z)
| NonCanonicalLeaf (index : Z)
| PadLeaf (index : Z)
| RunRoot (block : Z)
| Withheld (index : Z)
| MisplacedCoinbase (index : Z)
| WrongCoinbaseValue (block : Z)
| StrayLeaf (index : Z)
| MovedRoot (block : Z)
| Folding (e : MerkleError).

Section Typing.
Context `{PoseidonOps}.
Implicit Types (f : TreeFrontier) (r : LeafRecord) (b : VerifiedBlock).
Abbreviation M := (result TypingError).

Definition root_is f (root : Hash256) (e : TypingError) : M unit :=
  r ← map_err Folding (frontier_root f);
  ensure (bool_decide (r = root)) e.

Definition seed_frontier (anchor : VerifiedBlock) (anchor_count : Z) (prefix : list Hash256) : M TreeFrontier :=
  _ ← ensure (Z.of_nat (length prefix) =? anchor_count) (PrefixCount (Z.of_nat (length prefix)) anchor_count);
  let f := foldl push frontier_new prefix in
  _ ← root_is f (vb_zk_tree_root anchor) (PrefixRoot (vb_number anchor));
  Ok f.

(** The records a node dates to [block], in front of the rest. *)
Fixpoint split_run (block : Z) (scanned : list LeafRecord) : list LeafRecord * list LeafRecord :=
  match scanned with
  | [] => ([], [])
  | r :: rest =>
      if bool_decide (lr_block_number r = Some block)
      then let '(run, rest) := split_run block rest in (r :: run, rest)
      else ([], scanned)
  end.

Definition fold_leaf (acc : TreeFrontier * list Hash256) r : M (TreeFrontier * list Hash256) :=
  let '(f, folded) := acc in
  commitment ← ok_or (lr_commitment r) (NoCommitment (lr_index r));
  _ ← ensure (canonical_limbs commitment) (NonCanonicalLeaf (lr_index r));
  _ ← ensure (negb (bool_decide (commitment = empty_digest))) (PadLeaf (lr_index r));
  Ok (push f commitment, folded ++ [commitment]).

Definition below_the_coinbase_kind r : M LeafKind :=
  match lr_coinbase_value r with
  | Some _ => Err (MisplacedCoinbase (lr_index r))
  | None => Ok Transfer
  end.

Definition coinbase_position_kind r (block_number : Z) (label_says_ours : bool) (commitment : Hash256) (miner : MinerView) :
    M LeafKind :=
  value ← ok_or (lr_coinbase_value r) (Withheld (lr_index r));
  let ours := bool_decide (mv_coinbase_commitment miner block_number value = Some commitment) in
  if label_says_ours && negb ours then Err (WrongCoinbaseValue block_number)
  else Ok (Coinbase ours value (ours && negb label_says_ours)).

(** The typing pass over one block's run. *)
Fixpoint type_run (miner : MinerView) (block_number : Z) (label_says_ours : bool) (run : list (LeafRecord * Hash256)) :
    M (list TypedLeaf) :=
  match run with
  | [] => Ok []
  | (r, commitment) :: rest =>
      kind ← (if bool_decide (rest = []) then coinbase_position_kind r block_number label_says_ours commitment miner
              else below_the_coinbase_kind r);
      typed ← type_run miner block_number label_says_ours rest;
      Ok ({| tl_index := lr_index r; tl_commitment := commitment; tl_block_number := block_number; tl_kind := kind |} :: typed)
  end.

Fixpoint type_blocks (miner : MinerView) (parent : VerifiedBlock) (blocks : list VerifiedBlock)
    (scanned : list LeafRecord) f : M (TreeFrontier * list TypedLeaf * list LeafRecord) :=
  match blocks with
  | [] => Ok (f, [], scanned)
  | b :: blocks' =>
      _ ← ensure (bool_decide (vb_parent_hash b = vb_hash parent)) (BrokenParent (vb_number b));
      let '(run, rest) := split_run (vb_number b) scanned in
      '(f, folded) ← fold_result fold_leaf (f, []) run;
      _ ← root_is f (vb_zk_tree_root b) (RunRoot (vb_number b));
      let label_says_ours := bool_decide (vb_author_label b = Some (mv_label miner (vb_hash parent))) in
      typed ← type_run miner (vb_number b) label_says_ours (zip run folded);
      '(f, more, stray) ← type_blocks miner b blocks' rest f;
      Ok (f, typed ++ more, stray)
  end.

Definition type_chunk f (blocks : list VerifiedBlock) (scanned : list LeafRecord) (miner : MinerView) :
    M (TreeFrontier * list TypedLeaf) :=
  match blocks with
  | [] => Err NoBlocks
  | anchor :: blocks' =>
      _ ← root_is f (vb_zk_tree_root anchor) (AnchorRoot (vb_number anchor));
      '(f, typed, stray) ← type_blocks miner anchor blocks' scanned f;
      match stray with
      | [] => Ok (f, typed)
      | r :: _ => Err (StrayLeaf (lr_index r))
      end
  end.

Fixpoint unchanged_from (root : Hash256) (parent : VerifiedBlock) (blocks : list VerifiedBlock) : M unit :=
  match blocks with
  | [] => Ok tt
  | b :: blocks' =>
      _ ← ensure (bool_decide (vb_parent_hash b = vb_hash parent)) (BrokenParent (vb_number b));
      _ ← ensure (bool_decide (vb_zk_tree_root b = root)) (MovedRoot (vb_number b));
      unchanged_from root b blocks'
  end.
Definition check_chunk_appended_nothing (blocks : list VerifiedBlock) : M unit :=
  match blocks with
  | [] => Err NoBlocks
  | anchor :: blocks' => unchanged_from (vb_zk_tree_root anchor) anchor blocks'
  end.
End Typing.
