(* ===== verification/WalletTypingProps.v ===== *)
(** * Properties of the leaf typing

    What a pass that succeeds has established about the leaves it typed, and
    that a node which answers the chain's own records is never refused. *)

From stdpp Require Import base option list numbers gmap.
From S2P Require Import Prelude Crypto ZkTree ZkTreeProps CircuitMerkle CircuitMerkleProps WalletTyping.
#[local] Open Scope Z_scope.
Import CircuitMerkle.

Section Typed.
Context `{PoseidonOps}.
Implicit Types (f : TreeFrontier) (r : LeafRecord) (b : VerifiedBlock) (miner : MinerView).

(** One record and the leaf typed from it. *)
Definition same_leaf r (tl : TypedLeaf) : Prop :=
  lr_commitment r = Some (tl_commitment tl) ∧ tl_index tl = lr_index r ∧ lr_block_number r = Some (tl_block_number tl) ∧
  canonical_limbs (tl_commitment tl) = true ∧ tl_commitment tl ≠ empty_digest.

(** The kind of a leaf, given whether its block appended another after it. *)
Definition right_kind miner (last : bool) r (tl : TypedLeaf) : Prop :=
  if last then ∃ v dis, lr_coinbase_value r = Some v ∧
    tl_kind tl = Coinbase (bool_decide (mv_coinbase_commitment miner (tl_block_number tl) v = Some (tl_commitment tl))) v dis
  else lr_coinbase_value r = None ∧ tl_kind tl = Transfer.

(** Pairwise, the last of the list being the block's last. *)
Fixpoint run_kinds miner (run : list LeafRecord) (typed : list TypedLeaf) : Prop :=
  match run, typed with
  | [], [] => True
  | r :: run, tl :: typed => same_leaf r tl ∧ right_kind miner (bool_decide (run = [])) r tl ∧ run_kinds miner run typed
  | _, _ => False
  end.

Lemma split_run_spec n scanned run rest :
  split_run n scanned = (run, rest) → scanned = run ++ rest ∧ Forall (λ r, lr_block_number r = Some n) run.
Proof.
  revert run. induction scanned as [|r scanned IH]; intros run; cbn [split_run]; [by intros [= <- <-]|].
  case_bool_decide as Hn; [|by intros [= <- <-]]. destruct (split_run n scanned) as [run' rest'].
  intros [= <- <-]. destruct (IH run' eq_refl) as [-> ?]. split; [done|by constructor].
Qed.

Definition leaf_ok r (c : Hash256) : Prop :=
  lr_commitment r = Some c ∧ canonical_limbs c = true ∧ c ≠ empty_digest.

Lemma fold_leaf_Ok acc acc' r :
  fold_leaf acc r = Ok acc' → ∃ c, leaf_ok r c ∧ acc' = (push acc.1 c, acc.2 ++ [c]).
Proof.
  unfold fold_leaf. destruct acc as [f folded]. intros (c & Hc & Hr)%bind_Ok. apply bind_Ok in Hr as ([] & H1 & Hr).
  apply bind_Ok in Hr as ([] & H2 & [= <-]). apply ensure_Ok in H1, H2. apply negb_true_iff, bool_decide_eq_false in H2.
  exists c. split; [|done]. split_and!; try done. by destruct (lr_commitment r); [injection Hc as ->|].
Qed.

Lemma fold_run_spec run f folded0 f' folded :
  fold_result fold_leaf (f, folded0) run = Ok (f', folded) →
  ∃ cs, folded = folded0 ++ cs ∧ Forall2 leaf_ok run cs ∧ f' = foldl push f cs.
Proof.
  revert f folded0. induction run as [|r run IH]; intros f folded0; cbn [fold_result].
  { intros [= <- <-]. exists []. by rewrite app_nil_r. }
  intros (acc & (c & Hc & ->)%fold_leaf_Ok & Hr)%bind_Ok. cbn [fst snd] in Hr.
  destruct (IH _ _ Hr) as (cs & -> & Hcs & ->). exists (c :: cs). split_and!; [by rewrite <- app_assoc|by constructor|done].
Qed.

Lemma type_run_spec miner n own run cs typed :
  Forall2 leaf_ok run cs → Forall (λ r, lr_block_number r = Some n) run →
  type_run miner n own (zip run cs) = Ok typed → run_kinds miner run typed ∧ tl_commitment <$> typed = cs.
Proof.
  intros Hok. revert typed. induction Hok as [|r c run cs (Hc & Hcan & Hne) Hrest IH]; intros typed Hn; cbn [zip zip_with type_run];
    [by intros [= <-]|].
  apply Forall_cons in Hn as [Hn1 Hn].
  intros (kind & Hk & Hr)%bind_Ok. apply bind_Ok in Hr as (ts & Hts & [= <-]). destruct (IH ts Hn Hts) as [Hkinds Hcs].
  cbn [run_kinds fmap list_fmap tl_commitment]. split; [|by rewrite Hcs].
  assert (Hlast : bool_decide (zip run cs = []) = bool_decide (run = [])).
  { apply bool_decide_ext. inversion Hrest; by split. }
  rewrite Hlast in Hk. split_and!; [done| |done]. unfold right_kind. destruct (bool_decide (run = [])).
  - unfold coinbase_position_kind in Hk. apply bind_Ok in Hk as (v & Hv & Hk). destruct (_ && _); [done|].
    injection Hk as <-. eexists v, _. split; [|done]. by destruct (lr_coinbase_value r); [injection Hv as ->|].
  - unfold below_the_coinbase_kind in Hk. destruct (lr_coinbase_value r); [done|]. by injection Hk as <-.
Qed.

(** What the walk over the blocks establishes, block by block. *)
Inductive authenticated miner : VerifiedBlock → TreeFrontier → list VerifiedBlock → list LeafRecord → list TypedLeaf → TreeFrontier → Prop :=
| au_nil p f : authenticated miner p f [] [] [] f
| au_block p f b bs run rest typed more f' :
    vb_parent_hash b = vb_hash p → Forall (λ r, lr_block_number r = Some (vb_number b)) run →
    run_kinds miner run typed → frontier_root (foldl push f (tl_commitment <$> typed)) = Ok (vb_zk_tree_root b) →
    authenticated miner b (foldl push f (tl_commitment <$> typed)) bs rest more f' →
    authenticated miner p f (b :: bs) (run ++ rest) (typed ++ more) f'.

Lemma root_is_Ok f root e u : root_is f root e = Ok u → frontier_root f = Ok root.
Proof.
  unfold root_is. intros (x & Hx%map_err_Ok & Hr)%bind_Ok. apply ensure_Ok, bool_decide_eq_true in Hr. by rewrite Hx, Hr.
Qed.

Lemma type_blocks_sound miner blocks : ∀ p scanned f f' typed stray,
  type_blocks miner p blocks scanned f = Ok (f', typed, stray) →
  ∃ taken, scanned = taken ++ stray ∧ authenticated miner p f blocks taken typed f'.
Proof.
  induction blocks as [|b blocks IH]; intros p scanned f f' typed stray; cbn [type_blocks].
  { intros [= <- <- <-]. exists []. split; [done|constructor]. }
  intros ([] & Hp & Hr)%bind_Ok. apply ensure_Ok, bool_decide_eq_true in Hp.
  destruct (split_run (vb_number b) scanned) as [run rest] eqn:Hs. apply split_run_spec in Hs as [-> Hn].
  apply bind_Ok in Hr as ([f1 folded] & Hf & Hr). apply fold_run_spec in Hf as (cs & -> & Hcs & ->).
  apply bind_Ok in Hr as (u & Hroot%root_is_Ok & Hr). apply bind_Ok in Hr as (ts & Hts & Hr).
  apply bind_Ok in Hr as ([[f2 more] st] & Hmore & [= <- <- <-]).
  cbn [app] in Hts. destruct (type_run_spec _ _ _ _ _ _ Hcs Hn Hts) as [Hk Ecs].
  destruct (IH _ _ _ _ _ _ Hmore) as (taken & -> & Hau). exists (run ++ taken). split; [by rewrite app_assoc|].
  rewrite <- Ecs in Hau, Hroot. by constructor.
Qed.

Lemma run_kinds_lookup miner run typed i r tl :
  run_kinds miner run typed → run !! i = Some r → typed !! i = Some tl →
  same_leaf r tl ∧ right_kind miner (bool_decide (S i = length run)) r tl.
Proof.
  revert typed i. induction run as [|r0 run IH]; intros [|tl0 typed] [|i] Hk Hr Ht; cbn in Hk, Hr, Ht; try done.
  - simplify_eq. destruct Hk as (H1 & H2 & _). split; [done|]. rewrite (bool_decide_ext _ (run = [])); [done|].
    destruct run; cbn; split; done || lia.
  - destruct Hk as (_ & _ & Hk). destruct (IH typed i Hk Hr Ht) as [? Hkind]. split; [done|]. cbn [length].
    rewrite (bool_decide_ext _ (S i = length run)); [done|]. lia.
Qed.

Lemma run_kinds_length miner run typed : run_kinds miner run typed → length run = length typed.
Proof. revert typed. induction run; intros [|]; cbn; try done. intros (_ & _ & ?). f_equal. auto. Qed.

(** The blocks' numbers go up, as a header walk hands them over. *)
Definition ascending (p : VerifiedBlock) (blocks : list VerifiedBlock) : Prop :=
  ∀ i b b', (p :: blocks) !! i = Some b → (p :: blocks) !! S i = Some b' → vb_number b < vb_number b'.

Lemma ascending_cons p b blocks : ascending p (b :: blocks) → vb_number p < vb_number b ∧ ascending b blocks.
Proof. intros Ha. split; [by apply (Ha 0%nat)|]. intros i. apply (Ha (S i)). Qed.

Lemma authenticated_numbers miner p f blocks scanned typed f' :
  authenticated miner p f blocks scanned typed f' → ascending p blocks →
  ∀ i tl, typed !! i = Some tl → vb_number p < tl_block_number tl.
Proof.
  induction 1 as [|p f b bs run rest typed more f' Hp Hn Hk Hroot Hau IH]; intros Hasc i tl; [by rewrite lookup_nil|].
  apply ascending_cons in Hasc as [Hlt Hasc]. rewrite lookup_app_Some.
  intros [Hi|[_ Hi]]; [|specialize (IH Hasc _ _ Hi); lia].
  destruct (lookup_lt_is_Some_2 run i) as [r Hr]; [rewrite (run_kinds_length _ _ _ Hk); by eapply lookup_lt_Some|].
  destruct (run_kinds_lookup _ _ _ _ _ _ Hk Hr Hi) as [(_ & _ & E & _) _].
  pose proof (Forall_lookup_1 _ _ _ _ Hn Hr) as E'. cbn beta in E'. rewrite E' in E. injection E as <-. done.
Qed.

Lemma authenticated_leaves miner p f blocks scanned typed f' :
  authenticated miner p f blocks scanned typed f' → ascending p blocks →
  f' = foldl push f (tl_commitment <$> typed) ∧ length typed = length scanned ∧
  ∀ i r tl, scanned !! i = Some r → typed !! i = Some tl →
    same_leaf r tl ∧ right_kind miner (negb (bool_decide (tl_block_number <$> typed !! S i = Some (tl_block_number tl)))) r tl.
Proof.
  induction 1 as [|p f b bs run rest typed more f' Hp Hn Hk Hroot Hau IH]; intros Hasc; [by split_and!|].
  apply ascending_cons in Hasc as [Hlt Hasc]. destruct (IH Hasc) as (-> & Hlen & Hleaves).
  pose proof (run_kinds_length _ _ _ Hk) as Hrl.
  split_and!; [by rewrite fmap_app, foldl_app|rewrite !length_app; lia|]. intros i r tl Hr Ht.
  destruct (decide (i < length run)%nat) as [Hi|Hi].
  - rewrite lookup_app_l in Hr by done. rewrite lookup_app_l in Ht by lia.
    destruct (run_kinds_lookup _ _ _ _ _ _ Hk Hr Ht) as [Hsame Hkind]. split; [done|].
    pose proof Hsame as (_ & _ & E & _). pose proof (Forall_lookup_1 _ _ _ _ Hn Hr) as E'. cbn beta in E'. rewrite E' in E. injection E as E.
    destruct (decide (S i = length run)) as [El|El].
    + rewrite bool_decide_eq_true_2 in Hkind by done. rewrite bool_decide_eq_false_2; [done|].
      rewrite lookup_app_r by lia. replace (S i - length typed)%nat with 0%nat by lia.
      destruct (more !! 0%nat) as [tl'|] eqn:Em; [|done]. cbn. intros [= E2].
      pose proof (authenticated_numbers _ _ _ _ _ _ _ Hau Hasc _ _ Em). lia.
    + rewrite bool_decide_eq_false_2 in Hkind by done. rewrite bool_decide_eq_true_2; [done|].
      rewrite lookup_app_l by lia. destruct (lookup_lt_is_Some_2 typed (S i)) as [tl' Ht']; [lia|].
      destruct (lookup_lt_is_Some_2 run (S i)) as [r' Hr']; [lia|].
      destruct (run_kinds_lookup _ _ _ _ _ _ Hk Hr' Ht') as [(_ & _ & E2 & _) _].
      pose proof (Forall_lookup_1 _ _ _ _ Hn Hr') as E3. cbn beta in E3. rewrite E3 in E2. injection E2 as E2.
      rewrite Ht'. cbn. congruence.
  - rewrite lookup_app_r in Hr by lia. rewrite lookup_app_r in Ht by lia. rewrite (lookup_app_r typed more (S i)) by lia.
    replace (S i - length typed)%nat with (S (i - length typed)) by lia. rewrite Hrl in Hr. by apply Hleaves.
Qed.

Lemma authenticated_roots miner p f blocks scanned typed f' :
  authenticated miner p f blocks scanned typed f' →
  ∀ k b, blocks !! k = Some b → ∃ m, (m ≤ length typed)%nat ∧
    frontier_root (foldl push f (tl_commitment <$> take m typed)) = Ok (vb_zk_tree_root b).
Proof.
  induction 1 as [|p f b bs run rest typed more f' Hp Hn Hk Hroot Hau IH]; intros k b' Hb; [by rewrite lookup_nil in Hb|].
  destruct k as [|k]; cbn in Hb.
  - injection Hb as <-. exists (length typed). rewrite length_app, take_app_length' by done. split; [lia|done].
  - destruct (IH k b' Hb) as (m & Hm & Hr). exists (length typed + m)%nat. rewrite length_app. split; [lia|].
    rewrite take_app_add, fmap_app, foldl_app by done. done.
Qed.

(** C27: what a typed chunk establishes. When a pass over ascending blocks
    succeeds, every record was typed in order against the commitment it
    carries, which is canonical and not the pad; every block's header root is
    the fold of a prefix of those leaves on top of the authenticated prefix; a
    leaf is a coinbase exactly when it is the last its block appended, with
    the value required there and refused anywhere else; and the reward is
    claimed exactly when rebuilding the wallet's own note gives the leaf,
    whatever label the header carries. *)
Theorem typed_chunk_is_authenticated miner f anchor blocks scanned f' typed
    (Hasc : ascending anchor blocks)
    (Hok : type_chunk f (anchor :: blocks) scanned miner = Ok (f', typed)) :
  frontier_root f = Ok (vb_zk_tree_root anchor) ∧
  f' = foldl push f (tl_commitment <$> typed) ∧ length typed = length scanned ∧
  (∀ k b, blocks !! k = Some b → ∃ m, (m ≤ length typed)%nat ∧
     frontier_root (foldl push f (tl_commitment <$> take m typed)) = Ok (vb_zk_tree_root b)) ∧
  (∀ i r tl, scanned !! i = Some r → typed !! i = Some tl →
     same_leaf r tl ∧
     right_kind miner (negb (bool_decide (tl_block_number <$> typed !! S i = Some (tl_block_number tl)))) r tl).
Proof.
  unfold type_chunk in Hok. apply bind_Ok in Hok as (u & Ha%root_is_Ok & Hr).
  apply bind_Ok in Hr as ([[f1 ts] stray] & Hb & Hr). destruct stray as [|r stray]; [|done]. injection Hr as <- <-.
  apply type_blocks_sound in Hb as (taken & -> & Hau). rewrite app_nil_r.
  destruct (authenticated_leaves _ _ _ _ _ _ _ Hau Hasc) as (E & Hlen & Hleaves).
  split_and!; [done|done|done|by eapply authenticated_roots|done].
Qed.
End Typed.

(** ** An honest node *)
Section Honest.
Context `{PoseidonOps, !PoseidonLaws}.
Implicit Types (f : TreeFrontier) (r : LeafRecord) (b : VerifiedBlock) (miner : MinerView) (t : TreeState).

(** The records of one block as the chain holds them: [cs] in order, the last
    a coinbase with its value and no other one. *)
Fixpoint honest_run (b : VerifiedBlock) (run : list LeafRecord) (cs : list Hash256) : Prop :=
  match run, cs with
  | [], [] => True
  | r :: run, c :: cs =>
      lr_commitment r = Some c ∧ lr_block_number r = Some (vb_number b) ∧ c ≠ empty_digest ∧
      (is_Some (lr_coinbase_value r) ↔ run = []) ∧ honest_run b run cs
  | _, _ => False
  end.
(** A label that says the wallet's is the wallet's: the reward is its own. *)
Definition honest_label miner (p b : VerifiedBlock) (run : list LeafRecord) : Prop :=
  vb_author_label b = Some (mv_label miner (vb_hash p)) →
  ∀ r v, last run = Some r → lr_coinbase_value r = Some v →
    mv_coinbase_commitment miner (vb_number b) v = lr_commitment r.

(** The chain's own history over the blocks of a chunk. *)
Inductive honest_chain miner : TreeState → list Hash256 → VerifiedBlock → list VerifiedBlock → list LeafRecord → Prop :=
| hc_nil t L p : honest_chain miner t L p [] []
| hc_block t t' L cs p b bs run rest :
    tree_reach t t' → UnprocessedLeaves t' = 0 → chain_leaves t' (L ++ cs) →
    vb_parent_hash b = vb_hash p → vb_zk_tree_root b = Root t' → vb_number p < vb_number b →
    honest_run b run cs → honest_label miner p b run →
    honest_chain miner t' (L ++ cs) b bs rest →
    honest_chain miner t L p (b :: bs) (run ++ rest).

Lemma honest_run_numbers b run cs : honest_run b run cs → Forall (λ r, lr_block_number r = Some (vb_number b)) run.
Proof.
  revert cs. induction run as [|r run IH]; intros [|c cs] Hrun; cbn [honest_run] in Hrun; try done.
  destruct Hrun as (_ & ? & _ & _ & ?). constructor; eauto.
Qed.

Lemma honest_numbers miner t L p bs scanned :
  honest_chain miner t L p bs scanned → Forall (λ r, ∃ k, lr_block_number r = Some k ∧ vb_number p < k) scanned.
Proof.
  induction 1 as [|t t' L cs p b bs run rest _ _ _ _ _ Hlt Hrun _ _ IH]; [constructor|]. apply Forall_app. split.
  - eapply Forall_impl; [by eapply honest_run_numbers|]. intros r Hr. exists (vb_number b). by split.
  - eapply Forall_impl; [exact IH|]. intros r (k & ? & ?). exists k. split; [done|lia].
Qed.

Lemma split_run_exact n run rest :
  Forall (λ r, lr_block_number r = Some n) run → Forall (λ r, ∃ k, lr_block_number r = Some k ∧ n < k) rest →
  split_run n (run ++ rest) = (run, rest).
Proof.
  intros Hrun Hrest. induction Hrun as [|r run Hr _ IH]; cbn [app split_run].
  - destruct Hrest as [|r rest (k & Hk & Hlt) _]; [done|]. cbn [split_run]. rewrite bool_decide_eq_false_2; [done|].
    rewrite Hk. intros [= ->]. lia.
  - by rewrite bool_decide_eq_true_2, IH.
Qed.

Lemma fold_honest b run : ∀ cs f folded,
  honest_run b run cs → Forall good_hash cs → fold_result fold_leaf (f, folded) run = Ok (foldl push f cs, folded ++ cs).
Proof.
  induction run as [|r run IH]; intros [|c cs] f folded Hrun Hg; cbn [honest_run] in Hrun; try done.
  { by rewrite app_nil_r. }
  destruct Hrun as (Hc & _ & Hne & _ & Hrun). apply Forall_cons in Hg as [[_ Hcan] Hg].
  assert (Hl : fold_leaf (f, folded) r = Ok (push f c, folded ++ [c])).
  { unfold fold_leaf. rewrite Hc. cbn [ok_or mbind result_bind]. unfold ensure.
    by rewrite Hcan, bool_decide_eq_false_2. }
  cbn [fold_result]. rewrite Hl. cbn [mbind result_bind]. rewrite (IH cs) by done.
  cbn [foldl]. by rewrite <- app_assoc.
Qed.

Lemma type_honest miner b own run : ∀ cs,
  honest_run b run cs →
  (own = true → ∀ r v, last run = Some r → lr_coinbase_value r = Some v →
     mv_coinbase_commitment miner (vb_number b) v = lr_commitment r) →
  ∃ typed, type_run miner (vb_number b) own (zip run cs) = Ok typed.
Proof.
  induction run as [|r run IH]; intros [|c cs] Hrun Hown; cbn [honest_run] in Hrun; try done; [by eexists|].
  destruct Hrun as (Hc & _ & _ & Hv & Hrun). cbn [zip zip_with type_run].
  assert (Hlast : bool_decide (zip run cs = []) = bool_decide (run = [])).
  { apply bool_decide_ext. destruct run, cs; done. }
  rewrite Hlast. destruct (IH cs Hrun) as [typed Ht].
  { intros Ho r' v' Hl. apply Hown; [done|]. destruct run; [done|exact Hl]. }
  change (zip_with pair run cs) with (zip run cs). rewrite Ht.
  destruct (bool_decide (run = [])) eqn:Hnil; [apply bool_decide_eq_true in Hnil|apply bool_decide_eq_false in Hnil].
  - subst run. destruct (proj2 Hv eq_refl) as [v Ev]. unfold coinbase_position_kind. rewrite Ev. cbn [ok_or mbind result_bind].
    destruct own; cbn [andb]; [|by eexists]. rewrite bool_decide_eq_true_2; [by eexists|].
    rewrite <- Hc. by apply (Hown eq_refl r v).
  - unfold below_the_coinbase_kind. destruct (lr_coinbase_value r); [|by eexists].
    destruct Hnil. apply Hv. by eexists.
Qed.

Lemma honest_blocks miner t L p bs scanned :
  honest_chain miner t L p bs scanned → tree_reach genesis_tree t →
  ∃ f' typed, type_blocks miner p bs scanned (foldl push frontier_new L) = Ok (f', typed, []).
Proof.
  induction 1 as [|t t' L cs p b bs run rest Hr Hu HL Hp Hroot Hlt Hrun Hlab Hrest IH]; intros Hreach; cbn [type_blocks]; [by do 2 eexists|].
  assert (Hreach' : tree_reach genesis_tree t') by (eapply tree_reach_trans; [apply Hreach|done]). apply reachable_inv in Hreach' as Ht'.
  pose proof (chain_leaves_good t' _ Ht' HL) as Hg. apply Forall_app in Hg as [_ Hg].
  unfold ensure. rewrite (bool_decide_eq_true_2 (vb_parent_hash b = vb_hash p)) by done. cbn [mbind result_bind].
  rewrite (split_run_exact (vb_number b)); [|by eapply honest_run_numbers|by eapply honest_numbers].
  rewrite (fold_honest b run cs) by done. cbn [mbind result_bind app].
  destruct (frontier_climbs t' (L ++ cs) Hreach' Hu HL) as [Hfr _]. rewrite foldl_app in Hfr.
  unfold root_is, ensure. rewrite Hfr. cbn [map_err mbind result_bind]. rewrite (bool_decide_eq_true_2 (Root t' = vb_zk_tree_root b)) by done. cbn [mbind result_bind].
  destruct (type_honest miner b (bool_decide (vb_author_label b = Some (mv_label miner (vb_hash p)))) run cs Hrun) as [typed Ht].
  { intros Ho%bool_decide_eq_true. by apply Hlab. }
  rewrite Ht. cbn [mbind result_bind]. destruct (IH Hreach') as (f' & more & Hmore). rewrite foldl_app in Hmore.
  rewrite Hmore. cbn. by do 2 eexists.
Qed.

(** An honest node is never refused. Over any history of the pallet,
    from any settled state, a node that answers the chain's own leaves, block
    dates, coinbase values and header roots passes the watermark check and
    the whole chunk, however many leaves each block appended; and every
    record is typed. *)
Theorem honest_node_is_not_refused miner t L anchor bs scanned
    (Hreach : tree_reach genesis_tree t) (Hset : UnprocessedLeaves t = 0) (HL : chain_leaves t L)
    (Hanchor : vb_zk_tree_root anchor = Root t) (Hhonest : honest_chain miner t L anchor bs scanned) :
  ∃ f f' typed, seed_frontier anchor (LeafCount t) L = Ok f ∧
    type_chunk f (anchor :: bs) scanned miner = Ok (f', typed) ∧ length typed = length scanned.
Proof.
  destruct (frontier_climbs t L Hreach Hset HL) as [Hfr _]. destruct (honest_blocks _ _ _ _ _ _ Hhonest Hreach) as (f' & typed & Hb).
  exists (foldl push frontier_new L), f', typed.
  assert (Hroot : ∀ e, root_is (foldl push frontier_new L) (vb_zk_tree_root anchor) e = Ok tt).
  { intros e. unfold root_is, ensure. rewrite Hfr. cbn [map_err mbind result_bind]. by rewrite bool_decide_eq_true_2. }
  split_and!.
  - unfold seed_frontier, ensure. destruct HL as [_ ->]. rewrite Z.eqb_refl. cbn [mbind result_bind]. by rewrite Hroot.
  - unfold type_chunk. rewrite Hroot. cbn [mbind result_bind]. by rewrite Hb.
  - apply type_blocks_sound in Hb as (taken & -> & Hau). rewrite app_nil_r. clear -Hau.
    induction Hau as [|p f b bs run rest typed more f' _ _ Hk _ _ IH]; [done|]. rewrite !length_app, IH.
    by rewrite (run_kinds_length _ _ _ Hk).
Qed.
End Honest.

(** ** Witnesses *)
Module ToyTyping.
Import ToyCrypto ToyMerkle.

(** The second block of [toy_tree], which appended one coinbase. *)
Definition miner : MinerView :=
  {| mv_label := λ _, zero_hash; mv_coinbase_commitment := λ n v, if v =? 500 then Some (toy_cm 16) else None |}.
Definition block (n : Z) (h p root : Hash256) : VerifiedBlock :=
  {| vb_number := n; vb_hash := h; vb_parent_hash := p; vb_extrinsics_root := zero_hash; vb_zk_tree_root := root;
     vb_author_label := None |}.
Definition anchor1 : VerifiedBlock := block 1 [1] [0] (Root toy_block1).
Definition block2 : VerifiedBlock := block 2 [2] [1] (Root toy_tree).
Definition record16 : LeafRecord :=
  {| lr_index := 5; lr_commitment := Some (toy_cm 16); lr_block_number := Some 2; lr_coinbase_value := Some 500 |}.
Definition leaves1 : list Hash256 := toy_cm <$> [11; 12; 13; 14; 15].

Lemma toy_block1_reachable : tree_reach genesis_tree toy_block1.
Proof.
  split; [|vm_compute; discriminate]. repeat (first [eapply rtc_r; [|apply step_on_finalize] |eapply rtc_r; [|apply toy_insert_step; by vm_compute]]).
  apply rtc_refl.
Qed.
Lemma toy_leaves1 : chain_leaves toy_block1 leaves1.
Proof.
  split; [|by vm_compute]. assert (E : Leaves toy_block1 = leaf_map leaves1) by (by vm_compute). intros i. by rewrite E.
Qed.
Lemma toy_honest : honest_chain miner toy_block1 leaves1 anchor1 [block2] [record16].
Proof.
  apply (hc_block miner toy_block1 toy_tree leaves1 [toy_cm 16] anchor1 block2 [] [record16] []);
    [|by vm_compute|exact toy_chain_leaves|done|done|done| |done|constructor].
  - split; [|vm_compute; discriminate]. eapply rtc_r; [|apply step_on_finalize]. apply rtc_once, toy_insert_step. by vm_compute.
  - cbn [honest_run]. split_and!; [done|done|by vm_compute| |done]. split; [done|by eexists].
Qed.

Lemma honest_node_is_not_refused_witness :
  ∃ f f' typed, seed_frontier anchor1 (LeafCount toy_block1) leaves1 = Ok f ∧
    type_chunk f [anchor1; block2] [record16] miner = Ok (f', typed) ∧ length typed = length [record16].
Proof.
  apply (honest_node_is_not_refused miner toy_block1 leaves1 anchor1 [block2] [record16] toy_block1_reachable);
    [by vm_compute|exact toy_leaves1|done|exact toy_honest].
Defined.

Definition frontier1 : TreeFrontier := foldl push frontier_new leaves1.
Definition typed16 : TypedLeaf :=
  {| tl_index := 5; tl_commitment := toy_cm 16; tl_block_number := 2; tl_kind := Coinbase true 500 true |}.
Lemma typed_chunk_is_authenticated_witness :
  frontier_root frontier1 = Ok (vb_zk_tree_root anchor1) ∧
  foldl push frontier1 [toy_cm 16] = foldl push frontier1 (tl_commitment <$> [typed16]).
Proof.
  destruct (typed_chunk_is_authenticated miner frontier1 anchor1 [block2] [record16] (foldl push frontier1 [toy_cm 16]) [typed16])
    as (H1 & H2 & _); [|by vm_compute|exact (conj H1 H2)].
  intros [|[|i]] b b' Hb Hb'; cbn in Hb, Hb'; by simplify_eq.
Defined.
End ToyTyping.
