(* ===== verification/WalletText.v ===== *)
(** * What the wallet reads and prints

    [crates/qnero-wallet/src/units.rs] (amounts), [memo.rs] (rendering a memo
    for a terminal) and [crates/qnero-notes/src/memo.rs] (padding). A [str] is
    the list of its characters' code points; a memo's bytes are bytes. *)

From stdpp Require Import base option numbers list.
From S2P Require Import Prelude.
#[local] Open Scope Z_scope.

(** ** The standard library *)
(** [{}] on an unsigned integer: at most twenty decimal digits for a [u64]. *)
Fixpoint digits_of (base : Z) (fuel : nat) (n : Z) (acc : list Z) : list Z :=
  match fuel with
  | O => acc
  | S fuel' => let acc := n mod base :: acc in if n <? base then acc else digits_of base fuel' (n / base) acc
  end.
Definition decimal (n : Z) : list Z := (λ d, 48 + d) <$> digits_of 10 20 n [].

(** [char::is_whitespace]. *)
Definition is_whitespace (c : Z) : bool :=
  ((9 <=? c) && (c <=? 13)) || (c =? 32) || (c =? 133) || (c =? 160) || (c =? 5760) ||
  ((8192 <=? c) && (c <=? 8202)) || (c =? 8232) || (c =? 8233) || (c =? 8239) || (c =? 8287) || (c =? 12288).
Fixpoint skip_while (p : Z → bool) (l : list Z) : list Z :=
  match l with [] => [] | c :: l' => if p c then skip_while p l' else l end.
Definition trim (l : list Z) : list Z := rev (skip_while is_whitespace (rev (skip_while is_whitespace l))).

(** [split_once]. *)
Fixpoint split_once (sep : Z) (l : list Z) : option (list Z * list Z) :=
  match l with
  | [] => None
  | c :: l' => if c =? sep then Some ([], l') else '(a, b) ← split_once sep l'; Some (c :: a, b)
  end.

Definition is_ascii_digit (c : Z) : bool := (48 <=? c) && (c <=? 57).
(** [str::parse::<u64>] on digits. *)
Definition parse_u64 (l : list Z) : option Z :=
  match l with
  | [] => None
  | _ => foldl (λ acc c, a ← acc; m ← checked_mul 64 a 10; checked_add 64 m (c - 48)) (Some 0) l
  end.

(** ** [units.rs] *)
Definition STEPS_PER_QNR : Z := 100.
Definition DOT : Z := 46.

(** [{:02}] below a hundred. *)
Definition two_digits (n : Z) : list Z := [48 + n / 10; 48 + n mod 10].
Definition qnr (steps : Z) : list Z := decimal (steps / STEPS_PER_QNR) ++ [DOT] ++ two_digits (steps mod STEPS_PER_QNR).
Definition qnr_plain (steps : Z) : list Z :=
  if steps mod STEPS_PER_QNR =? 0 then decimal (steps / STEPS_PER_QNR) else qnr steps.

Inductive AmountError := NotAnAmount | TooManyDecimals | TooMuch | ZeroAmount.

Definition steps_from_qnr (text : list Z) : result AmountError Z :=
  let trimmed := trim text in
  let '(whole, fraction) := default (trimmed, []) (split_once DOT trimmed) in
  _ ← ensure (negb ((length whole =? 0)%nat || negb (forallb is_ascii_digit whole) || negb (forallb is_ascii_digit fraction)))
        NotAnAmount;
  _ ← ensure (length fraction <=? 2)%nat TooManyDecimals;
  hundredths ← ok_or (parse_u64 (fraction ++ replicate (2 - length fraction) 48)) NotAnAmount;
  steps ← ok_or (n ← parse_u64 whole; m ← checked_mul 64 n STEPS_PER_QNR; checked_add 64 m hundredths) TooMuch;
  if steps =? 0 then Err ZeroAmount else Ok steps.

(** ** [qnero-notes/src/memo.rs] *)
Definition CIPHERTEXT_FIXED_BYTES : nat := 1731.
Definition MEMO_BYTES : nat := 61.
Inductive MemoError := MemoTooLong (len max : nat).

Definition pad_memo (bytes : list Z) : result MemoError (list Z) :=
  if (MEMO_BYTES <? length bytes)%nat then Err (MemoTooLong (length bytes) MEMO_BYTES)
  else Ok (bytes ++ replicate (MEMO_BYTES - length bytes) 0).

Definition unpad_memo (bytes : list Z) : list Z := rev (skip_while (λ b, b =? 0) (rev bytes)).

(** ** [memo.rs]: rendering *)
Definition DEFAULT_TERMINAL_COLUMNS : Z := 80.
Definition MIN_MEMO_COLUMNS : Z := 16.

(** [str::parse::<usize>] takes a leading plus. *)
Definition parse_usize (l : list Z) : option Z :=
  let ds := match l with 43 :: (_ :: _) as r => tail r | _ => l end in
  if forallb is_ascii_digit ds then parse_u64 ds else None.
Definition resolve_columns (from_terminal : option Z) (from_env : option (list Z)) : Z :=
  let positive o := columns ← o; if 0 <? columns then Some columns else None in
  match positive from_terminal with
  | Some columns => columns
  | None => default DEFAULT_TERMINAL_COLUMNS (positive (value ← from_env; parse_usize (trim value)))
  end.
Definition budget_within (columns prefix_columns : Z) : option Z :=
  let budget := Z.max 0 (columns - prefix_columns) in
  if MIN_MEMO_COLUMNS <=? budget then Some budget else None.

Definition needs_escaping (c : Z) : bool := negb ((32 <=? c) && (c <=? 126)).

(** [{:02x}] of a code point: at most eight hexadecimal digits. *)
Definition hex_digit (d : Z) : Z := if d <? 10 then 48 + d else 87 + d.
Definition hex2 (n : Z) : list Z :=
  let ds := digits_of 16 8 n [] in hex_digit <$> (replicate (2 - length ds) 0 ++ ds).
Definition escape (c : Z) : list Z := if needs_escaping c then [92; 117; 123] ++ hex2 c ++ [125] else [c].

Definition ELLIPSIS : list Z := [46; 46; 46].

(** The pieces that fit the budget. *)
Fixpoint take_pieces (budget used : Z) (pieces : list (list Z)) : list Z :=
  match pieces with
  | [] => []
  | p :: rest =>
      if budget <? used + Z.of_nat (length p) then [] else p ++ take_pieces budget (used + Z.of_nat (length p)) rest
  end.

Definition render_memo_within (memo : list Z) (columns : Z) : list Z :=
  let columns := Z.max columns 3 in
  let pieces := escape <$> memo in
  if Z.of_nat (length (concat pieces)) <=? columns then concat pieces
  else take_pieces (columns - 3) 0 pieces ++ ELLIPSIS.

(** ** Properties: amounts *)
Section Amounts.
Definition value (l : list Z) : Z := foldl (λ a c, 10 * a + (c - 48)) 0 l.
Definition digits (l : list Z) : Prop := Forall (λ c, 48 ≤ c ≤ 57) l.

Lemma digits_forallb l : forallb is_ascii_digit l = true ↔ digits l.
Proof.
  unfold digits, is_ascii_digit. rewrite forallb_forall, Forall_forall. setoid_rewrite <- list_elem_of_In.
  setoid_rewrite andb_true_iff. by setoid_rewrite Z.leb_le.
Qed.

Lemma value_snoc l c : value (l ++ [c]) = 10 * value l + (c - 48).
Proof. unfold value. by rewrite foldl_app. Qed.

Lemma digits_snoc l c : digits (l ++ [c]) ↔ digits l ∧ 48 ≤ c ≤ 57.
Proof. unfold digits. by rewrite Forall_app, Forall_singleton. Qed.

Lemma value_nonneg l : digits l → 0 ≤ value l.
Proof.
  intros Hl. induction l as [|c l IH] using rev_ind; [done|]. apply digits_snoc in Hl as [Hl Hc].
  rewrite value_snoc. specialize (IH Hl). lia.
Qed.

Lemma parse_fold l : digits l →
  foldl (λ acc c, a ← acc; m ← checked_mul 64 a 10; checked_add 64 m (c - 48)) (Some 0) l =
  if value l <=? u_max 64 then Some (value l) else None.
Proof.
  intros Hl. induction l as [|c l IH] using rev_ind; [done|]. apply digits_snoc in Hl as [Hl Hc].
  rewrite foldl_app, (IH Hl), value_snoc. cbn [foldl]. pose proof (value_nonneg l Hl) as Hnn.
  unfold checked_mul, checked_add. destruct (Z.leb_spec (value l) (u_max 64)) as [Hle|Hgt]; cbn [mbind option_bind].
  - replace (value l * 10) with (10 * value l) by lia.
    repeat (case_match; res_inv; cbn [mbind option_bind] in *; simplify_eq); try done; exfalso; u_lia.
  - rewrite (proj2 (Z.leb_gt _ _)); [done|lia].
Qed.

Lemma parse_u64_spec l : digits l → l ≠ [] → parse_u64 l = if value l <=? u_max 64 then Some (value l) else None.
Proof. intros Hl Hne. rewrite <- parse_fold by done. unfold parse_u64. by destruct l. Qed.

Lemma digits_of_eval b fuel : ∀ n acc, 0 < b → 0 ≤ n < b ^ Z.of_nat fuel → (0 < fuel)%nat →
  foldl (λ a d, b * a + d) 0 (digits_of b fuel n acc) = foldl (λ a d, b * a + d) n acc.
Proof.
  induction fuel as [|fuel IH]; intros n acc Hb Hn Hf; [lia|]. cbn [digits_of].
  destruct (Z.ltb_spec n b) as [Hlt|Hge].
  - cbn [foldl]. f_equal. rewrite Z.mod_small by lia. lia.
  - rewrite Nat2Z.inj_succ, Z.pow_succ_r in Hn by lia.
    assert (Hd : 1 ≤ n / b) by (apply Z.div_le_lower_bound; lia).
    rewrite IH; [|done| |].
    + cbn [foldl]. f_equal. symmetry. apply Z.div_mod. lia.
    + split; [lia|]. apply Z.div_lt_upper_bound; lia.
    + destruct fuel; [|lia]. cbn in Hn. lia.
Qed.

Lemma digits_of_range b fuel : ∀ n acc, 0 < b → Forall (λ d, 0 ≤ d < b) acc → Forall (λ d, 0 ≤ d < b) (digits_of b fuel n acc).
Proof.
  induction fuel as [|fuel IH]; intros n acc Hb Ha; cbn [digits_of]; [done|].
  pose proof (Z.mod_pos_bound n b Hb). case_match; [by constructor|]. apply IH; [done|by constructor].
Qed.

Lemma digits_of_cons b fuel n acc : (0 < fuel)%nat → digits_of b fuel n acc ≠ [].
Proof.
  revert n acc. induction fuel as [|fuel IH]; intros n acc Hf; [lia|]. cbn [digits_of]. case_match; [done|].
  destruct fuel; [done|]. apply IH. lia.
Qed.

Lemma value_chars ds : value ((λ d, 48 + d) <$> ds) = foldl (λ a d, 10 * a + d) 0 ds.
Proof.
  unfold value. generalize 0. induction ds as [|d ds IH]; intros a; [done|]. cbn [fmap list_fmap foldl]. rewrite <- IH. f_equal. lia.
Qed.

Lemma decimal_spec n : 0 ≤ n ≤ u_max 64 → value (decimal n) = n ∧ digits (decimal n) ∧ decimal n ≠ [].
Proof.
  intros Hn. unfold decimal. split_and!.
  - rewrite value_chars, digits_of_eval; [done|lia| |lia]. assert (u_max 64 < 10 ^ Z.of_nat 20) by done. lia.
  - assert (Hr : Forall (λ d, 0 ≤ d < 10) (digits_of 10 20 n [])) by (apply (digits_of_range 10); [lia|constructor]).
    unfold digits. apply Forall_fmap. eapply Forall_impl; [exact Hr|]. intros d Hd. cbn in *. lia.
  - intros E%fmap_nil_inv. by apply digits_of_cons in E; [|lia].
Qed.

Lemma two_digits_spec n : 0 ≤ n < 100 → value (two_digits n) = n ∧ digits (two_digits n).
Proof.
  intros Hn. unfold two_digits, value, digits. cbn [foldl]. split; [Z.div_mod_to_equations; lia|].
  repeat constructor; Z.div_mod_to_equations; lia.
Qed.

(** Trimming *)
Lemma digit_no_space c : 48 ≤ c ≤ 57 → is_whitespace c = false.
Proof.
  intros Hc. unfold is_whitespace.
  repeat match goal with |- context [?a <=? ?b] => destruct (Z.leb_spec a b); try lia
    | |- context [?a =? ?b] => destruct (Z.eqb_spec a b); try lia end; done.
Qed.

Lemma skip_all p a l : forallb p a = true → skip_while p (a ++ l) = skip_while p l.
Proof. induction a as [|c a IH]; cbn; [done|]. intros [-> ?]%andb_true_iff. auto. Qed.

Lemma trim_core before core after x y mid :
  forallb is_whitespace before = true → forallb is_whitespace after = true → is_whitespace x = false → is_whitespace y = false →
  core = x :: mid → last core = Some y → trim (before ++ core ++ after) = core.
Proof.
  intros Hb Ha Hx Hy -> Hl. unfold trim. rewrite skip_all by done. cbn [app skip_while]. rewrite Hx.
  apply last_Some in Hl as [l' Hl]. change (x :: mid ++ after) with ((x :: mid) ++ after). rewrite Hl.
  rewrite !rev_app_distr. cbn [rev app].
  assert (Hra : forallb is_whitespace (rev after) = true).
  { apply forallb_forall. intros c Hc%in_rev. rewrite rev_involutive in Hc || idtac. by eapply forallb_forall in Ha. }
  rewrite skip_all by done. cbn [skip_while]. rewrite Hy. cbn [rev]. by rewrite rev_involutive.
Qed.

Lemma split_dot a b : digits a → split_once DOT (a ++ DOT :: b) = Some (a, b).
Proof.
  induction 1 as [|c a Hc _ IH]; [done|]. cbn [app split_once]. unfold DOT in *. rewrite (proj2 (Z.eqb_neq _ _)) by lia.
  by rewrite IH.
Qed.
Lemma split_none a : digits a → split_once DOT a = None.
Proof.
  induction 1 as [|c a Hc _ IH]; [done|]. cbn [split_once]. unfold DOT in *. rewrite (proj2 (Z.eqb_neq _ _)) by lia. by rewrite IH.
Qed.
Lemma split_once_Some l a b : split_once DOT l = Some (a, b) → l = a ++ DOT :: b.
Proof.
  revert a. induction l as [|c l IH]; intros a; cbn [split_once]; [done|].
  destruct (Z.eqb_spec c DOT) as [->|]; [by intros [= <- <-]|]. destruct (split_once DOT l) as [[a' b']|]; [|done].
  intros [= <- <-]. by rewrite (IH a').
Qed.

(** The parser on a trimmed amount. *)
Lemma steps_of_parts text whole fraction :
  (trim text = whole ++ DOT :: fraction ∨ (trim text = whole ∧ fraction = [])) →
  digits whole → digits fraction → whole ≠ [] → (length fraction ≤ 2)%nat →
  let s := 100 * value whole + value (fraction ++ replicate (2 - length fraction) 48) in
  0 < s ≤ u_max 64 → steps_from_qnr text = Ok s.
Proof.
  intros Htrim Hw Hf Hne Hlen. cbv zeta. intros Hs. unfold steps_from_qnr.
  assert (Hsplit : default (trim text, []) (split_once DOT (trim text)) = (whole, fraction)).
  { destruct Htrim as [-> |[-> ->]]; [by rewrite split_dot|by rewrite split_none]. }
  rewrite Hsplit. unfold ensure at 1. rewrite (proj2 (Nat.eqb_neq _ _)) by (by destruct whole).
  rewrite (proj2 (digits_forallb whole)), (proj2 (digits_forallb fraction)) by done. cbn [orb negb mbind result_bind].
  unfold ensure. rewrite (proj2 (Nat.leb_le _ _)) by done. cbn [mbind result_bind].
  set (padded := fraction ++ replicate (2 - length fraction) 48) in *.
  assert (Hp : digits padded) by (apply Forall_app; split; [done|apply Forall_replicate; lia]).
  assert (Hpn : padded ≠ []) by (unfold padded; destruct fraction; done).
  pose proof (value_nonneg whole Hw). pose proof (value_nonneg padded Hp).
  rewrite (parse_u64_spec padded), (parse_u64_spec whole) by done.
  rewrite !(proj2 (Z.leb_le _ _)) by lia. cbn [ok_or mbind result_bind option_bind].
  unfold checked_mul, checked_add, STEPS_PER_QNR. rewrite (proj2 (Z.leb_le (value whole * 100) _)) by lia. cbn [mbind option_bind].
  rewrite (proj2 (Z.leb_le _ _)) by lia. cbn [ok_or mbind result_bind]. rewrite (proj2 (Z.eqb_neq _ _)) by lia. f_equal. lia.
Qed.

(** An amount in digits, between digits, keeps its shape when trimmed. *)
Lemma trim_digits before after c mid y :
  forallb is_whitespace before = true → forallb is_whitespace after = true → 48 ≤ c ≤ 57 → 48 ≤ y ≤ 57 →
  last (c :: mid) = Some y → trim (before ++ (c :: mid) ++ after) = c :: mid.
Proof. intros. apply (trim_core before (c :: mid) after c y mid); by try apply digit_no_space. Qed.

(** What is typed and what is printed are one rule. Every printable
    amount but zero, in either form and with any blanks around it, reads back
    as itself; and whatever text is accepted is decimal digits with at most
    two of them after a point, worth exactly the steps returned, never zero
    and within 64 bits. *)
Theorem amounts_are_exact :
  (∀ s before after, 0 < s ≤ u_max 64 → forallb is_whitespace before = true → forallb is_whitespace after = true →
     steps_from_qnr (before ++ qnr s ++ after) = Ok s ∧ steps_from_qnr (before ++ qnr_plain s ++ after) = Ok s) ∧
  (∀ text s, steps_from_qnr text = Ok s → ∃ whole fraction,
     (trim text = whole ++ DOT :: fraction ∨ (trim text = whole ∧ fraction = [])) ∧
     digits whole ∧ digits fraction ∧ whole ≠ [] ∧ (length fraction ≤ 2)%nat ∧
     s = 100 * value whole + value (fraction ++ replicate (2 - length fraction) 48) ∧ 0 < s ≤ u_max 64).
Proof.
  split.
  - intros s before after Hs Hb Ha. pose proof (Z.div_mod s 100 ltac:(lia)) as Hdm. pose proof (Z.mod_pos_bound s 100) as Hm.
    assert (Hq : 0 ≤ s / 100 ≤ u_max 64) by (split; [apply Z.div_pos; lia|]; apply Z.div_le_upper_bound; lia).
    destruct (decimal_spec (s / 100) Hq) as (Hv & Hd & Hne). destruct (two_digits_spec (s mod 100)) as [Hv2 Hd2]; [lia|].
    assert (H1 : steps_from_qnr (before ++ qnr s ++ after) = Ok s).
    { assert (Ht : trim (before ++ qnr s ++ after) = decimal (s / 100) ++ DOT :: two_digits (s mod 100)).
      { unfold qnr, STEPS_PER_QNR. pose proof Hd as Hd'. destruct (decimal (s / 100)) as [|c mid] eqn:E; [done|]. unfold digits in Hd'. apply Forall_cons in Hd' as [Hc _].
        eapply (trim_digits _ _ _ _ (48 + s mod 100 mod 10)); [done|done|done|Z.div_mod_to_equations; lia|].
        apply last_Some. exists (c :: mid ++ [DOT; 48 + s mod 100 / 10]). cbn [app]. by rewrite <- app_assoc. }
      rewrite (steps_of_parts _ _ _ (or_introl Ht)); [|done|done|done|done|].
      - cbn [length two_digits Nat.sub replicate]. rewrite app_nil_r, Hv, Hv2. f_equal. lia.
      - cbn [length two_digits Nat.sub replicate]. rewrite app_nil_r, Hv, Hv2. lia. }
    split; [done|]. unfold qnr_plain, STEPS_PER_QNR. destruct (Z.eqb_spec (s mod 100) 0) as [E0|_]; [|exact H1].
    assert (Ht : trim (before ++ decimal (s / 100) ++ after) = decimal (s / 100)).
    { pose proof Hd as Hd'. destruct (decimal (s / 100)) as [|c mid] eqn:E; [done|]. unfold digits in Hd'. apply Forall_cons in Hd' as [Hc _].
      destruct (last (c :: mid)) as [y|] eqn:El; [|by apply last_None in El].
      eapply (trim_digits _ _ _ _ y); [done|done|done| |done]. apply last_Some in El as [l' El].
      rewrite El in Hd. by apply digits_snoc in Hd as [_ ?]. }
    rewrite (steps_of_parts _ _ [] (or_intror (conj Ht eq_refl))); [|done|constructor|done|cbn; lia|];
      cbn [length Nat.sub replicate app]; rewrite Hv; change (value [48; 48]) with 0; [f_equal|]; lia.
  - intros text s. unfold steps_from_qnr. set (t := trim text).
    destruct (default (t, []) (split_once DOT t)) as [whole fraction] eqn:Hsplit.
    intros ([] & H1%ensure_Ok & Hr)%bind_Ok. apply bind_Ok in Hr as ([] & H2%ensure_Ok & Hr).
    apply bind_Ok in Hr as (h & Hh & Hr). apply bind_Ok in Hr as (st & Hst & Hr).
    apply negb_true_iff, orb_false_iff in H1 as [H1 H1c]. apply orb_false_iff in H1 as [H1a H1b].
    apply negb_false_iff, digits_forallb in H1b, H1c. apply Nat.eqb_neq in H1a. apply Nat.leb_le in H2.
    assert (Hne : whole ≠ []) by (by destruct whole). exists whole, fraction.
    assert (Hp : digits (fraction ++ replicate (2 - length fraction) 48)) by (apply Forall_app; split; [done|apply Forall_replicate; lia]).
    rewrite parse_u64_spec in Hh, Hst; [|done|done|done|by destruct fraction].
    destruct (Z.leb_spec (value (fraction ++ replicate (2 - length fraction) 48)) (u_max 64)); [|done]. injection Hh as <-.
    destruct (Z.leb_spec (value whole) (u_max 64)); [|done]. cbn [mbind option_bind] in Hst.
    destruct (checked_mul 64 (value whole) STEPS_PER_QNR) as [m|] eqn:Em; [|done]. cbn [mbind option_bind] in Hst.
    apply checked_mul_Some in Em as [-> _]. destruct (checked_add _ _ _) as [x|] eqn:Ex; [|done].
    apply checked_add_Some in Ex as [-> Hmax]. injection Hst as <-. unfold STEPS_PER_QNR in *.
    destruct (Z.eqb_spec (value whole * 100 + value (fraction ++ replicate (2 - length fraction) 48)) 0); [done|]. injection Hr as <-.
    pose proof (value_nonneg whole H1b). pose proof (value_nonneg _ Hp).
    split_and!; [|done|done|done|done|lia|lia|lia].
    destruct (split_once DOT t) as [[a b]|] eqn:Es; cbn in Hsplit; injection Hsplit as <- <-; [left; by apply split_once_Some|by right].
Qed.
End Amounts.

(** ** Properties: memos *)
Section Memos.
Lemma unpad_zeros m k : last m ≠ Some 0 → unpad_memo (m ++ replicate k 0) = m.
Proof.
  intros Hl. unfold unpad_memo. rewrite rev_app_distr.
  assert (Hz : forallb (λ b, b =? 0) (rev (replicate k 0)) = true).
  { apply forallb_forall. intros x Hx%in_rev. apply Z.eqb_eq. rewrite <- list_elem_of_In in Hx.
    by apply elem_of_replicate_inv in Hx. }
  rewrite skip_all by done. destruct m as [|y m' _] using rev_ind; [done|]. rewrite last_snoc in Hl.
  rewrite rev_app_distr. cbn [rev app skip_while]. rewrite (proj2 (Z.eqb_neq y 0)) by congruence.
  cbn [rev]. by rewrite rev_involutive.
Qed.

(** Every memo is one size on the chain and none is changed by it. A
    memo that is accepted is padded to the one length, so every ciphertext has
    the consensus length whatever the memo says; a text memo, which does not
    end in NUL, is read back exactly; and only a memo too long is refused. *)
Theorem memos_round_trip m (Htext : last m ≠ Some 0) :
  (length m ≤ MEMO_BYTES)%nat ∧ (∃ p, pad_memo m = Ok p ∧ length p = MEMO_BYTES ∧ unpad_memo p = m ∧
     (CIPHERTEXT_FIXED_BYTES + length p = 1792)%nat) ∨
  (MEMO_BYTES < length m)%nat ∧ pad_memo m = Err (MemoTooLong (length m) MEMO_BYTES).
Proof.
  unfold pad_memo. destruct (Nat.ltb_spec MEMO_BYTES (length m)) as [Hlt|Hle]; [by right|left].
  split; [done|]. eexists. split; [done|]. rewrite length_app, length_replicate. unfold CIPHERTEXT_FIXED_BYTES, MEMO_BYTES in *.
  split_and!; [lia|by apply unpad_zeros|lia].
Qed.

Definition printable (c : Z) : Prop := 32 ≤ c ≤ 126.

Lemma hex_digit_printable d : 0 ≤ d < 16 → printable (hex_digit d).
Proof. unfold hex_digit, printable. intros. case_match; res_inv; lia. Qed.

Lemma escape_printable c : Forall printable (escape c).
Proof.
  unfold escape, needs_escaping. destruct ((32 <=? c) && (c <=? 126)) eqn:E; cbn [negb].
  - apply andb_true_iff in E as [?%Z.leb_le ?%Z.leb_le]. by constructor; [split|constructor].
  - apply Forall_app. split; [by repeat constructor|]. apply Forall_app. split; [|by repeat constructor].
    unfold hex2. apply Forall_fmap, Forall_app. split.
    + apply Forall_replicate. by apply (hex_digit_printable 0).
    + assert (Hr : Forall (λ d, 0 ≤ d < 16) (digits_of 16 8 c [])) by (apply (digits_of_range 16); [lia|constructor]).
      eapply Forall_impl; [exact Hr|]. intros d Hd. by apply hex_digit_printable.
Qed.

Lemma escape_plain m : Forall printable m → concat (escape <$> m) = m.
Proof.
  induction 1 as [|c m Hc _ IH]; [done|]. cbn [fmap list_fmap concat]. rewrite IH. unfold escape, needs_escaping.
  unfold printable in Hc. by rewrite !(proj2 (Z.leb_le _ _)) by lia.
Qed.

Lemma take_pieces_bound budget : ∀ pieces used,
  0 ≤ used ≤ budget → used + Z.of_nat (length (take_pieces budget used pieces)) ≤ budget.
Proof.
  induction pieces as [|p pieces IH]; intros used Hu; cbn [take_pieces]; [cbn; lia|].
  destruct (Z.ltb_spec budget (used + Z.of_nat (length p))); [cbn; lia|].
  specialize (IH (used + Z.of_nat (length p)) ltac:(lia)). rewrite length_app. lia.
Qed.

Lemma take_pieces_printable budget : ∀ pieces used,
  Forall (Forall printable) pieces → Forall printable (take_pieces budget used pieces).
Proof.
  induction pieces as [|p pieces IH]; intros used Hp; cbn [take_pieces]; [constructor|].
  apply Forall_cons in Hp as [Hp Hps]. case_match; [constructor|]. apply Forall_app. auto.
Qed.

(** A memo cannot reach past its column. Whatever characters a sender
    put in a memo, what is printed is printable ASCII only, one column each,
    and never wider than the column (three columns at the least); and a plain
    memo that fits is printed as it is. *)
Theorem rendered_memo_is_one_row memo columns :
  Z.of_nat (length (render_memo_within memo columns)) ≤ Z.max columns 3 ∧
  Forall printable (render_memo_within memo columns) ∧
  (Forall printable memo → Z.of_nat (length memo) ≤ columns → render_memo_within memo columns = memo).
Proof.
  unfold render_memo_within.
  assert (Hp : Forall (Forall printable) (escape <$> memo)).
  { apply Forall_fmap, Forall_true. intros c. apply escape_printable. }
  split_and!.
  - destruct (Z.leb_spec (Z.of_nat (length (concat (escape <$> memo)))) (Z.max columns 3)); [lia|].
    rewrite length_app. cbn [ELLIPSIS length]. pose proof (take_pieces_bound (Z.max columns 3 - 3) (escape <$> memo) 0). lia.
  - case_match; [by apply Forall_concat|]. apply Forall_app. split; [by apply take_pieces_printable|by repeat constructor].
  - intros Hm Hl. rewrite escape_plain by done. by rewrite (proj2 (Z.leb_le _ _)) by lia.
Qed.
End Memos.

Lemma memos_round_trip_witness :
  ∃ p, pad_memo [104; 105] = Ok p ∧ length p = MEMO_BYTES ∧ unpad_memo p = [104; 105] ∧
    (CIPHERTEXT_FIXED_BYTES + length p = 1792)%nat.
Proof. destruct (memos_round_trip [104; 105]) as [[_ Hp]|[Hl _]]; [done|exact Hp|cbn in Hl; unfold MEMO_BYTES in Hl; lia]. Defined.
