(* ===== verification/WalletExtrinsic.v ===== *)
(** * Extrinsics, written and read back

    [crates/qnero-wallet/src/extrinsic.rs], the SCALE helpers of [scale.rs]
    it uses and the checks of [metadata.rs] that guard it. SCALE's compact
    integers are [parity-scale-codec]'s, a parameter of the model; signing is
    the transparent key's. *)

From Stdlib Require Import String.
From stdpp Require Import base option numbers list gmap strings.
From S2P Require Import Prelude Crypto Frame.
#[local] Open Scope Z_scope.
#[local] Open Scope list_scope.

(** ** Compact integers *)
(** [Compact(n).encode()], and [Compact::<u64>::decode] on a cursor with what
    it leaves. *)
Class ScaleCompact := {
  compact : Z → list Z;
  decode_compact_u64 : list Z → option (Z * list Z);
}.
(** What the codec documents: a value is read back and the cursor stands
    behind it; a value wider than the type is an error; a read consumes bytes
    from the front. *)
Class ScaleCompactLaws `{ScaleCompact} := {
  compact_read n rest : in_u 64 n → decode_compact_u64 (compact n ++ rest) = Some (n, rest);
  compact_wide n rest : 2 ^ 64 ≤ n < 2 ^ 128 → decode_compact_u64 (compact n ++ rest) = None;
  compact_consumes bs v rest :
    decode_compact_u64 bs = Some (v, rest) → in_u 64 v ∧ ∃ pre, bs = pre ++ rest ∧ pre ≠ [];
}.

(** ** The runtime's declarations ([ChainMetadata]) *)
Record StorageItem := { si_pallet : string; si_prefix : string; si_name : string; si_hasher : option string }.
Record ChainMetadata := {
  md_protocol_profile : list Z;
  md_shielded_pallet_index : Z;
  md_submit_private_batch : Z;
  md_submit_public_batch : Z;
  md_shield : Z;
  md_block_hash_window : Z;
  md_min_leaf_fee : Z;
  md_ciphertext_bytes_per_fee_quantum : Z;
  md_max_ciphertext_bytes : Z;
  md_signed_extensions : list string;
  md_extrinsic_version : Z;
  md_storage : list StorageItem;
}.

Definition KNOWN_SIGNED_EXTENSIONS : list string :=
  ["CheckNonZeroSender"; "CheckSpecVersion"; "CheckTxVersion"; "CheckGenesis"; "CheckMortality"; "CheckNonce";
   "CheckWeight"; "ReversibleTransactionExtension"; "ChargeTransactionPayment"; "CheckMetadataHash";
   "WeightReclaim"]%string.
(** The pallet, the item and the hasher of every key the wallet builds. *)
Definition REQUIRED_STORAGE : list (string * string * option string) :=
  [("Shielded", "LeafBlocks", Some "Identity"); ("Shielded", "CoinbaseValues", Some "Identity");
   ("Shielded", "UsedNullifiers", Some "Blake2_128Concat"); ("Shielded", "EntryCount", None);
   ("ZkTree", "Leaves", Some "Identity"); ("ZkTree", "LeafCount", None); ("ZkTree", "Depth", None);
   ("System", "Account", Some "Blake2_128Concat")]%string.
Definition LEGACY_EXTRINSIC_FORMAT_VERSION : Z := 4.
Definition EXTRINSIC_FORMAT_VERSION : Z := 5.

Inductive ExtrinsicError :=
| MissingStorage (pallet item : string)
| OtherPrefix (pallet : string)
| OtherHasher (pallet item : string)
| UnknownExtensions
| BadBareVersion (v : Z)
| BadSignedVersion (v : Z)
| SigningFailed
| NoLengthPrefix
| LengthMismatch (declared : Z)
| NoPreamble
| NoAddress
| UnknownAddress (variant : Z)
| NoScheme
| UnknownScheme (scheme : Z)
| NoEra
| NoNonceOrTip
| UnknownType (bits : Z)
| NoCall
| NoCallIndex
| ProofOverrun
| NoOutputCount
| MissingCiphertext
| NotConsumed (cursor : nat)
| ShieldTooShort
| ShieldNoCiphertext.

Definition validate_item (declared : list StorageItem) (required : string * string * option string) : result ExtrinsicError unit :=
  let '(pallet, item, hasher) := required in
  '(_, found) ← ok_or (list_find (λ e, si_pallet e = pallet ∧ si_name e = item) declared) (MissingStorage pallet item);
  _ ← ensure (bool_decide (si_prefix found = pallet)) (OtherPrefix pallet);
  ensure (bool_decide (si_hasher found = hasher)) (OtherHasher pallet item).
Definition validate_storage (declared : list StorageItem) (required : list (string * string * option string)) :
    result ExtrinsicError unit :=
  fold_result (λ _ r, validate_item declared r) tt required.
Definition ensure_known_storage (md : ChainMetadata) : result ExtrinsicError unit := validate_storage (md_storage md) REQUIRED_STORAGE.

Definition ensure_known_signed_extensions (md : ChainMetadata) : result ExtrinsicError unit :=
  ensure (bool_decide (md_signed_extensions md = KNOWN_SIGNED_EXTENSIONS)) UnknownExtensions.
Definition ensure_bare_preamble_decodes (md : ChainMetadata) : result ExtrinsicError unit :=
  ensure ((LEGACY_EXTRINSIC_FORMAT_VERSION <=? md_extrinsic_version md) &&
          (md_extrinsic_version md <=? EXTRINSIC_FORMAT_VERSION)) (BadBareVersion (md_extrinsic_version md)).
Definition ensure_signed_preamble_decodes (md : ChainMetadata) : result ExtrinsicError unit :=
  ensure (md_extrinsic_version md =? LEGACY_EXTRINSIC_FORMAT_VERSION) (BadSignedVersion (md_extrinsic_version md)).

Definition BARE_PREAMBLE : Z := 4.
Definition SIGNED_PREAMBLE : Z := 132.
Definition MULTI_ADDRESS_ID : Z := 0.
Definition SIGNATURE_SCHEME_ML_DSA_87 : Z := 0.
Definition ERA_IMMORTAL : Z := 0.
Definition METADATA_HASH_DISABLED : Z := 0.
Definition SIGNATURE_LEN : nat := 4627.
Definition PUBLIC_KEY_LEN : nat := 2592.

Record WalletOutput := { wo_ct_1 : list Z; wo_ct_2 : list Z }.
Record SigningContext := {
  sc_spec_version : Z;
  sc_transaction_version : Z;
  sc_genesis_hash : Hash256;
  sc_nonce : Z;
  sc_tip : Z;
}.
(** [TransparentKey]: the account, the public key and the signer. *)
Record TransparentKey := {
  tk_account_id : list Z;
  tk_public_bytes : list Z;
  tk_sign : list Z → option (list Z);
}.

Section Extrinsic.
Context `{ScaleCompact, SpOps}.
Abbreviation M := (result ExtrinsicError).

(** ** [scale.rs] *)
Definition encode_bytes (bytes : list Z) : list Z := compact (Z.of_nat (length bytes)) ++ bytes.
Definition compact_len (len : nat) : list Z := compact (Z.of_nat len).

(** [bytes.get(offset..)], the value, and how far the cursor moved. *)
Definition read_compact (bytes : list Z) (offset : nat) : option (Z * nat) :=
  if (offset <=? length bytes)%nat then
    let cursor := drop offset bytes in
    '(value, rest) ← decode_compact_u64 cursor;
    Some (value, (offset + (length cursor - length rest))%nat)
  else None.

(** ** Writing *)
Definition encode_outputs (outputs : list WalletOutput) : list Z :=
  concat ((λ o, encode_bytes (wo_ct_1 o) ++ encode_bytes (wo_ct_2 o)) <$> outputs).
Definition encode_batch_args (proof : list Z) (outputs : list WalletOutput) : list Z :=
  encode_bytes proof ++ compact_len (length outputs) ++ encode_outputs outputs.

Definition wrap_bare (md : ChainMetadata) (call : list Z) : M (list Z) :=
  _ ← ensure_bare_preamble_decodes md;
  let body := BARE_PREAMBLE :: call in
  Ok (compact_len (length body) ++ body).

Definition encode_submit_private_batch (md : ChainMetadata) (proof : list Z) (outputs : list WalletOutput) : M (list Z) :=
  wrap_bare md ([md_shielded_pallet_index md; md_submit_private_batch md] ++ encode_batch_args proof outputs).
Definition encode_submit_public_batch (md : ChainMetadata) (proof : list Z) (outputs : list WalletOutput) : M (list Z) :=
  wrap_bare md ([md_shielded_pallet_index md; md_submit_public_batch md] ++ encode_batch_args proof outputs).

Definition encode_shield_call (md : ChainMetadata) (value_planck : Z) (inner ciphertext : list Z) : list Z :=
  [md_shielded_pallet_index md; md_shield md] ++ le_bytes 16 value_planck ++ inner ++ encode_bytes ciphertext.

Definition encode_extensions (c : SigningContext) : list Z :=
  [ERA_IMMORTAL] ++ compact (sc_nonce c) ++ compact (sc_tip c) ++ [METADATA_HASH_DISABLED].
Definition encode_implicit (c : SigningContext) : list Z :=
  le_bytes 4 (sc_spec_version c) ++ le_bytes 4 (sc_transaction_version c) ++ sc_genesis_hash c ++ sc_genesis_hash c ++ [0].

Definition encode_signed (md : ChainMetadata) (key : TransparentKey) (call : list Z) (c : SigningContext) : M (list Z) :=
  _ ← ensure_known_signed_extensions md;
  _ ← ensure_signed_preamble_decodes md;
  let extensions := encode_extensions c in
  let payload := call ++ extensions ++ encode_implicit c in
  signature ← ok_or (tk_sign key (if (256 <? length payload)%nat then blake2_256 payload else payload)) SigningFailed;
  let body := [SIGNED_PREAMBLE; MULTI_ADDRESS_ID] ++ tk_account_id key ++ [SIGNATURE_SCHEME_ML_DSA_87] ++
              signature ++ tk_public_bytes key ++ extensions ++ call in
  Ok (compact_len (length body) ++ body).

(** ** Reading back *)
(** [at.checked_add(len)] and the slice, when it is there. *)
Definition read_bytes (args : list Z) (offset : nat) : option (list Z * nat) :=
  '(len, at_) ← read_compact args offset;
  end_ ← checked_add 64 (Z.of_nat at_) len;
  if end_ <=? Z.of_nat (length args)
  then Some (take (Z.to_nat len) (drop at_ args), Z.to_nat end_) else None.

Definition ensure_consumed (args : list Z) (cursor : nat) : M unit :=
  ensure (cursor =? length args)%nat (NotConsumed cursor).

Definition keep_payload (payload : list Z) (out : list (list Z)) : list (list Z) :=
  match payload with [] => out | _ :: _ => out ++ [payload] end.

Fixpoint read_slots (slots : nat) (args : list Z) (cursor : nat) (out : list (list Z)) : M (list (list Z) * nat) :=
  match slots with
  | O => Ok (out, cursor)
  | S slots =>
      '(p1, cursor) ← ok_or (read_bytes args cursor) MissingCiphertext;
      '(p2, cursor) ← ok_or (read_bytes args cursor) MissingCiphertext;
      read_slots slots args cursor (keep_payload p2 (keep_payload p1 out))
  end.

Definition read_batch_payloads (args : list Z) : M (list (list Z)) :=
  '(proof_len, proof_at) ← ok_or (read_compact args 0) ProofOverrun;
  end_ ← ok_or (checked_add 64 (Z.of_nat proof_at) proof_len) ProofOverrun;
  _ ← ensure (end_ <=? Z.of_nat (length args)) ProofOverrun;
  '(slots, next) ← ok_or (read_compact args (Z.to_nat end_)) NoOutputCount;
  '(out, cursor) ← read_slots (Z.to_nat slots) args next [];
  _ ← ensure_consumed args cursor;
  Ok out.

Definition CIPHERTEXT_AT : nat := 48.
Definition read_shield_payload (args : list Z) : M (list (list Z)) :=
  _ ← ensure (CIPHERTEXT_AT <=? length args)%nat ShieldTooShort;
  '(payload, cursor) ← ok_or (read_bytes args CIPHERTEXT_AT) ShieldNoCiphertext;
  _ ← ensure_consumed args cursor;
  Ok (keep_payload payload []).

Definition skip_extensions (body : list Z) (offset : nat) : M nat :=
  era ← ok_or (body !! offset) NoEra;
  let cursor := (offset + if (era =? ERA_IMMORTAL)%Z then 1 else 2)%nat in
  '(_, cursor) ← ok_or (read_compact body cursor) NoNonceOrTip;
  '(_, cursor) ← ok_or (read_compact body cursor) NoNonceOrTip;
  Ok (cursor + 1)%nat.

(** Where the call starts, by the two type bits of the preamble. *)
Definition call_at (md : ChainMetadata) (body : list Z) (preamble : Z) : M nat :=
  match Z.shiftr preamble 6 with
  | 0 => Ok 1%nat
  | 2 =>
      _ ← ensure_known_signed_extensions md;
      address ← ok_or (body !! 1%nat) NoAddress;
      _ ← ensure (address =? MULTI_ADDRESS_ID) (UnknownAddress address);
      scheme ← ok_or (body !! 34%nat) NoScheme;
      _ ← ensure (scheme =? SIGNATURE_SCHEME_ML_DSA_87) (UnknownScheme scheme);
      skip_extensions body (35 + SIGNATURE_LEN + PUBLIC_KEY_LEN)
  | 1 =>
      _ ← ensure_known_signed_extensions md;
      skip_extensions body 2
  | bits => Err (UnknownType bits)
  end.

Definition extrinsic_payloads (md : ChainMetadata) (extrinsic : list Z) : M (list (list Z)) :=
  '(declared, body_at) ← ok_or (read_compact extrinsic 0) NoLengthPrefix;
  let body := drop body_at extrinsic in
  _ ← ensure (Z.of_nat (length body) =? declared) (LengthMismatch declared);
  preamble ← ok_or (body !! 0%nat) NoPreamble;
  cursor ← call_at md body preamble;
  pallet ← ok_or (body !! cursor) NoCall;
  call ← ok_or (body !! (cursor + 1)%nat) NoCallIndex;
  let args := drop (cursor + 2) body in
  if negb (pallet =? md_shielded_pallet_index md) then Ok []
  else if (call =? md_submit_private_batch md) || (call =? md_submit_public_batch md) then read_batch_payloads args
  else if call =? md_shield md then read_shield_payload args
  else Ok [].

(** [Chain::block_payloads]. *)
Definition block_payloads (md : ChainMetadata) (body : list (list Z)) : M (list (list Z)) :=
  fold_result (λ out extrinsic, more ← extrinsic_payloads md extrinsic; Ok (out ++ more)) [] body.
End Extrinsic.

(** ** The round trip *)
Section RoundTrip.
Context `{ScaleCompactLaws, SpOps}.
Abbreviation M := (result ExtrinsicError).
Implicit Types (md : ChainMetadata) (pre rest : list Z) (o : WalletOutput).

Lemma read_compact_at pre n rest :
  in_u 64 n → read_compact (pre ++ compact n ++ rest) (length pre) = Some (n, length (pre ++ compact n)).
Proof.
  intros Hn. unfold read_compact. rewrite (proj2 (Nat.leb_le _ _)) by (rewrite length_app; lia).
  rewrite drop_app_length, compact_read by done. cbn. rewrite !length_app. do 2 f_equal. lia.
Qed.

Definition fits (bytes : list Z) : Prop := in_u 64 (Z.of_nat (length bytes)).

Lemma read_bytes_at pre b rest :
  fits (pre ++ encode_bytes b ++ rest) →
  read_bytes (pre ++ encode_bytes b ++ rest) (length pre) = Some (b, length (pre ++ encode_bytes b)).
Proof.
  unfold fits, encode_bytes, in_u. rewrite <- !app_assoc, !length_app. intros Hf. unfold read_bytes.
  rewrite read_compact_at by (unfold in_u; lia). cbn. rewrite !length_app.
  unfold checked_add, u_max. rewrite (proj2 (Z.leb_le _ _)) by lia. cbn.
  rewrite (proj2 (Z.leb_le _ _)) by lia. rewrite app_assoc, <- length_app, drop_app_length, Nat2Z.id, take_app_length.
  do 2 f_equal. rewrite length_app. lia.
Qed.

Definition payloads_of (outputs : list WalletOutput) : list (list Z) :=
  base.filter (λ p, p ≠ []) (concat ((λ o, [wo_ct_1 o; wo_ct_2 o]) <$> outputs)).

Lemma keep_payload_spec p out : keep_payload p out = out ++ base.filter (λ p, p ≠ []) [p].
Proof. rewrite filter_cons, filter_nil. destruct p; [by rewrite decide_False by auto; rewrite app_nil_r|by rewrite decide_True]. Qed.

Lemma read_slots_at outputs : ∀ pre out,
  fits (pre ++ encode_outputs outputs) →
  read_slots (length outputs) (pre ++ encode_outputs outputs) (length pre) out =
  Ok (out ++ payloads_of outputs, length (pre ++ encode_outputs outputs)).
Proof.
  induction outputs as [|o outputs IH]; intros pre out Hf; cbn [length read_slots].
  { unfold payloads_of, encode_outputs. cbn. by rewrite !app_nil_r. }
  assert (He : pre ++ encode_outputs (o :: outputs) =
               pre ++ encode_bytes (wo_ct_1 o) ++ encode_bytes (wo_ct_2 o) ++ encode_outputs outputs).
  { unfold encode_outputs. cbn. by rewrite <- !app_assoc. }
  rewrite He in *. rewrite read_bytes_at by done. cbn [ok_or mbind result_bind].
  rewrite !app_assoc, <- (app_assoc _ (encode_bytes (wo_ct_2 o))) in *. rewrite read_bytes_at by done.
  cbn [ok_or mbind result_bind]. rewrite app_assoc in *. rewrite IH by done. f_equal. f_equal.
  rewrite !keep_payload_spec, <- !app_assoc. f_equal. unfold payloads_of. cbn [fmap list_fmap concat].
  change [wo_ct_1 o; wo_ct_2 o] with ([wo_ct_1 o] ++ [wo_ct_2 o]). by rewrite !filter_app, <- app_assoc.
Qed.

Lemma read_batch_at proof outputs :
  fits (encode_batch_args proof outputs) → in_u 64 (Z.of_nat (length outputs)) →
  read_batch_payloads (encode_batch_args proof outputs) = Ok (payloads_of outputs).
Proof.
  intros Hf Hc. unfold read_batch_payloads. set (args := encode_batch_args proof outputs) in *.
  pose (head := encode_bytes proof). pose (count := compact_len (length outputs)).
  assert (He : args = head ++ count ++ encode_outputs outputs) by done.
  assert (Hl : length args = (length head + (length count + length (encode_outputs outputs)))%nat) by (rewrite He; by rewrite !length_app).
  assert (Hh : length head = (length (compact (Z.of_nat (length proof))) + length proof)%nat) by (unfold head, encode_bytes; by rewrite length_app).
  unfold fits, in_u in Hf.
  pose proof (read_compact_at [] (Z.of_nat (length proof)) (proof ++ count ++ encode_outputs outputs) ltac:(unfold in_u; lia)) as Hr.
  cbn [app length] in Hr. rewrite He at 1. unfold head at 1, encode_bytes. rewrite <- app_assoc, Hr. cbn [ok_or mbind result_bind].
  unfold checked_add, u_max. rewrite (proj2 (Z.leb_le _ _)) by lia. cbn [ok_or mbind result_bind].
  rewrite (proj2 (Z.leb_le _ _)) by lia. cbn [ensure mbind result_bind].
  replace (Z.to_nat _) with (length head) by lia. rewrite He at 1. unfold count at 1, compact_len.
  rewrite read_compact_at by done. cbn [ok_or mbind result_bind]. rewrite Nat2Z.id, He, app_assoc.
  fold (compact_len (length outputs)). fold count. rewrite read_slots_at by (rewrite <- app_assoc, <- He; unfold fits, in_u; lia).
  cbn [mbind result_bind]. unfold ensure_consumed. by rewrite Nat.eqb_refl.
Qed.

Lemma read_shield_at value inner ct :
  length inner = 32%nat → fits (le_bytes 16 value ++ inner ++ encode_bytes ct) →
  read_shield_payload (le_bytes 16 value ++ inner ++ encode_bytes ct) = Ok (base.filter (λ p, p ≠ []) [ct]).
Proof.
  intros Hi Hf. unfold read_shield_payload. set (pre := le_bytes 16 value ++ inner).
  assert (Hp : length pre = CIPHERTEXT_AT) by (unfold pre; rewrite length_app, length_le_bytes, Hi; done).
  rewrite app_assoc in *. fold pre in Hf |- *. rewrite (proj2 (Nat.leb_le _ _)) by (rewrite length_app; lia).
  cbn [ensure mbind result_bind]. rewrite <- (app_nil_r (encode_bytes ct)) in *. rewrite <- Hp, read_bytes_at by done.
  cbn [ok_or mbind result_bind]. unfold ensure_consumed. rewrite app_nil_r, Nat.eqb_refl. cbn [ensure mbind result_bind].
  by rewrite keep_payload_spec.
Qed.
(** The length prefix is stripped and the walk starts at the preamble. *)
Lemma payloads_of_body md body :
  fits body →
  extrinsic_payloads md (compact_len (length body) ++ body) =
  (preamble ← ok_or (body !! 0%nat) NoPreamble;
   cursor ← call_at md body preamble;
   pallet ← ok_or (body !! cursor) NoCall;
   call ← ok_or (body !! (cursor + 1)%nat) NoCallIndex;
   let args := drop (cursor + 2) body in
   if negb (pallet =? md_shielded_pallet_index md) then Ok []
   else if (call =? md_submit_private_batch md) || (call =? md_submit_public_batch md) then read_batch_payloads args
   else if call =? md_shield md then read_shield_payload args
   else Ok []).
Proof.
  intros Hf. unfold extrinsic_payloads. pose proof (read_compact_at [] (Z.of_nat (length body)) body Hf) as Hr.
  cbn [app length] in Hr. unfold compact_len. rewrite Hr. cbn [ok_or mbind result_bind].
  rewrite drop_app_length, Z.eqb_refl. done.
Qed.

(** The call behind a prefix of the body. *)
Lemma lookup_call pre p c args :
  (pre ++ p :: c :: args) !! length pre = Some p ∧ (pre ++ p :: c :: args) !! (length pre + 1)%nat = Some c ∧
  drop (length pre + 2) (pre ++ p :: c :: args) = args.
Proof.
  split_and!.
  - by rewrite lookup_app_r, Nat.sub_diag by lia.
  - rewrite lookup_app_r by lia. by replace (length pre + 1 - length pre)%nat with 1%nat by lia.
  - rewrite drop_app_ge by lia. by replace (length pre + 2 - length pre)%nat with 2%nat by lia.
Qed.

Definition indices_apart md : Prop :=
  md_shield md ≠ md_submit_private_batch md ∧ md_shield md ≠ md_submit_public_batch md.

Lemma bare_payloads md p c args :
  fits (BARE_PREAMBLE :: p :: c :: args) →
  extrinsic_payloads md (compact_len (length (BARE_PREAMBLE :: p :: c :: args)) ++ BARE_PREAMBLE :: p :: c :: args) =
  if negb (p =? md_shielded_pallet_index md) then Ok []
  else if (c =? md_submit_private_batch md) || (c =? md_submit_public_batch md) then read_batch_payloads args
  else if c =? md_shield md then read_shield_payload args else Ok [].
Proof. intros Hf. by rewrite payloads_of_body. Qed.

(** The signed envelope up to the extensions. *)
Definition envelope (key : TransparentKey) (signature : list Z) : list Z :=
  [SIGNED_PREAMBLE; MULTI_ADDRESS_ID] ++ tk_account_id key ++ [SIGNATURE_SCHEME_ML_DSA_87] ++ signature ++ tk_public_bytes key.

Record key_ok (key : TransparentKey) : Prop := {
  ko_account : length (tk_account_id key) = 32%nat;
  ko_public : length (tk_public_bytes key) = PUBLIC_KEY_LEN;
  ko_sign m sig : tk_sign key m = Some sig → length sig = SIGNATURE_LEN;
}.

Lemma envelope_shape key sig rest :
  key_ok key → length sig = SIGNATURE_LEN →
  length (envelope key sig) = (35 + SIGNATURE_LEN + PUBLIC_KEY_LEN)%nat ∧
  (envelope key sig ++ rest) !! 1%nat = Some MULTI_ADDRESS_ID ∧ (envelope key sig ++ rest) !! 34%nat = Some SIGNATURE_SCHEME_ML_DSA_87.
Proof.
  intros [Ha Hp _] Hs. unfold envelope. split_and!; [|done|].
  - rewrite !length_app, Ha, Hp, Hs. unfold SIGNATURE_LEN, PUBLIC_KEY_LEN. cbn [length]. lia.
  - rewrite <- !app_assoc. rewrite lookup_app_r by (cbn; lia). cbn [length]. rewrite lookup_app_r by (rewrite Ha; lia).
    rewrite Ha. done.
Qed.

(** The walk over the extensions up to the tip. *)
Lemma skip_to_tip pre c rest :
  in_u 64 (sc_nonce c) →
  let before := pre ++ [ERA_IMMORTAL] ++ compact (sc_nonce c) in
  skip_extensions (pre ++ encode_extensions c ++ rest) (length pre) =
  ('(_, cursor) ← ok_or (read_compact (before ++ compact (sc_tip c) ++ METADATA_HASH_DISABLED :: rest) (length before)) NoNonceOrTip;
   Ok (cursor + 1)%nat).
Proof.
  intros Hn before. unfold skip_extensions, encode_extensions, before.
  rewrite lookup_app_r, Nat.sub_diag by lia. cbn [app lookup list_lookup ok_or mbind result_bind]. rewrite Z.eqb_refl.
  replace (pre ++ ERA_IMMORTAL :: _) with ((pre ++ [ERA_IMMORTAL]) ++ compact (sc_nonce c) ++ compact (sc_tip c) ++ METADATA_HASH_DISABLED :: rest)
    by (rewrite <- !app_assoc; by rewrite <- ?app_assoc).
  replace (length pre + 1)%nat with (length (pre ++ [ERA_IMMORTAL])) by (rewrite length_app; done).
  rewrite read_compact_at by done. cbn [ok_or mbind result_bind]. by rewrite <- !app_assoc.
Qed.

Lemma skip_at pre c rest :
  in_u 64 (sc_nonce c) → in_u 64 (sc_tip c) →
  skip_extensions (pre ++ encode_extensions c ++ rest) (length pre) = Ok (length (pre ++ encode_extensions c)).
Proof.
  intros Hn Ht. rewrite skip_to_tip by done. cbn zeta. rewrite read_compact_at by done. cbn [ok_or mbind result_bind].
  f_equal. unfold encode_extensions. rewrite !length_app. cbn [length]. lia.
Qed.

Lemma skip_wide pre c rest :
  in_u 64 (sc_nonce c) → 2 ^ 64 ≤ sc_tip c < 2 ^ 128 →
  skip_extensions (pre ++ encode_extensions c ++ rest) (length pre) = Err NoNonceOrTip.
Proof.
  intros Hn Ht. rewrite skip_to_tip by done. cbn zeta. unfold read_compact.
  rewrite (proj2 (Nat.leb_le _ _)) by (rewrite !length_app; lia). rewrite drop_app_length, compact_wide by done. done.
Qed.

(** A signed extrinsic's payloads are its call's, once the extensions are
    stepped over. *)
Lemma signed_payloads md key sig c p i args r :
  md_signed_extensions md = KNOWN_SIGNED_EXTENSIONS → key_ok key → length sig = SIGNATURE_LEN →
  let body := envelope key sig ++ encode_extensions c ++ p :: i :: args in
  fits body →
  skip_extensions body (length (envelope key sig)) = r →
  extrinsic_payloads md (compact_len (length body) ++ body) =
  (cursor ← r;
   pallet ← ok_or (body !! cursor) NoCall;
   call ← ok_or (body !! (cursor + 1)%nat) NoCallIndex;
   let args := drop (cursor + 2) body in
   if negb (pallet =? md_shielded_pallet_index md) then Ok []
   else if (call =? md_submit_private_batch md) || (call =? md_submit_public_batch md) then read_batch_payloads args
   else if call =? md_shield md then read_shield_payload args
   else Ok []).
Proof.
  intros Hx Hk Hs body Hf Hr. rewrite payloads_of_body by done.
  destruct (envelope_shape key sig (encode_extensions c ++ p :: i :: args) Hk Hs) as (Hl & Ha1 & Ha34).
  fold body in Ha1, Ha34. change (body !! 0%nat) with (Some SIGNED_PREAMBLE). cbn [ok_or mbind result_bind].
  unfold call_at. change (Z.shiftr SIGNED_PREAMBLE 6) with 2. cbn iota.
  unfold ensure_known_signed_extensions. rewrite bool_decide_eq_true_2 by done. cbn [ensure mbind result_bind].
  rewrite Ha1, Ha34. cbn [ok_or mbind result_bind]. rewrite !Z.eqb_refl. cbn [ensure mbind result_bind].
  by rewrite <- Hl, Hr.
Qed.

Lemma read_call md (pre args : list Z) (i : Z) :
  (pallet ← ok_or ((pre ++ md_shielded_pallet_index md :: i :: args) !! length pre) NoCall;
   call ← ok_or ((pre ++ md_shielded_pallet_index md :: i :: args) !! (length pre + 1)%nat) NoCallIndex;
   let args' := drop (length pre + 2) (pre ++ md_shielded_pallet_index md :: i :: args) in
   if negb (pallet =? md_shielded_pallet_index md) then Ok []
   else if (call =? md_submit_private_batch md) || (call =? md_submit_public_batch md) then read_batch_payloads args'
   else if call =? md_shield md then read_shield_payload args'
   else Ok []) =
  if (i =? md_submit_private_batch md) || (i =? md_submit_public_batch md) then read_batch_payloads args
  else if i =? md_shield md then read_shield_payload args else Ok [].
Proof.
  destruct (lookup_call pre (md_shielded_pallet_index md) i args) as (-> & -> & ->). cbn [ok_or mbind result_bind].
  by rewrite Z.eqb_refl.
Qed.

Lemma bare_round_trip md i proof outputs bare :
  i = md_submit_private_batch md ∨ i = md_submit_public_batch md →
  in_u 64 (Z.of_nat (length outputs)) → wrap_bare md ([md_shielded_pallet_index md; i] ++ encode_batch_args proof outputs) = Ok bare → fits bare →
  extrinsic_payloads md bare = Ok (payloads_of outputs).
Proof.
  intros Hi Hcount Hbare Hfb. unfold wrap_bare in Hbare. res_inv. subst bare.
  assert (Hfb' : fits (BARE_PREAMBLE :: md_shielded_pallet_index md :: i :: encode_batch_args proof outputs)).
  { unfold fits, in_u in *. rewrite length_app in Hfb. cbn [app length] in *. lia. }
  etransitivity; [exact (bare_payloads md _ _ _ Hfb')|]. rewrite !Z.eqb_refl.
  assert (Hor : (i =? md_submit_private_batch md) || (i =? md_submit_public_batch md) = true) by (destruct Hi as [-> | ->]; rewrite Z.eqb_refl; [done|apply orb_true_r]).
  rewrite Hor. cbn [negb]. apply read_batch_at; [|done]. unfold fits, in_u in *. cbn [length] in Hfb'. lia.
Qed.
Lemma shield_round_trip md key value inner ct c signed :
  indices_apart md → key_ok key → length inner = 32%nat → in_u 64 (sc_nonce c) → in_u 64 (sc_tip c) →
  encode_signed md key (encode_shield_call md value inner ct) c = Ok signed → fits signed →
  extrinsic_payloads md signed = Ok (base.filter (λ p, p ≠ []) [ct]).
Proof.
  intros [Hs1 Hs2] Hkey Hinner Hnonce Htip Hsigned Hfs. unfold encode_signed in Hsigned. apply bind_Ok in Hsigned as ([] & Hv & Hsigned).
  apply bind_Ok in Hsigned as ([] & _ & Hsigned). apply bind_Ok in Hsigned as (sig & Hsign & Hsigned).
  apply ensure_Ok, bool_decide_eq_true in Hv. apply ok_or_Ok in Hsign. cbn zeta in Hsigned.
  assert (Hsig : length sig = SIGNATURE_LEN) by (eapply ko_sign; [done|eassumption]).
  pose (args := le_bytes 16 value ++ inner ++ encode_bytes ct).
  pose (body := envelope key sig ++ encode_extensions c ++ md_shielded_pallet_index md :: md_shield md :: args).
  assert (Hb : [SIGNED_PREAMBLE; MULTI_ADDRESS_ID] ++ tk_account_id key ++ [SIGNATURE_SCHEME_ML_DSA_87] ++
               sig ++ tk_public_bytes key ++ encode_extensions c ++ encode_shield_call md value inner ct = body).
  { unfold body, envelope, encode_shield_call, args. by rewrite <- !app_assoc. }
  rewrite Hb in Hsigned. assert (Hx : signed = compact_len (length body) ++ body) by congruence. subst signed.
  assert (Hfb' : fits body) by (unfold fits, in_u in *; rewrite length_app in Hfs; lia).
  pose proof (skip_at (envelope key sig) c (md_shielded_pallet_index md :: md_shield md :: args) Hnonce Htip) as Hskip.
  etransitivity; [exact (signed_payloads md key sig c _ _ args _ Hv Hkey Hsig Hfb' Hskip)|]. cbn [mbind result_bind].
  rewrite app_assoc, read_call. rewrite (proj2 (Z.eqb_neq _ _)), (proj2 (Z.eqb_neq (md_shield md) _)), Z.eqb_refl by done.
  cbn [orb]. apply read_shield_at; [done|]. unfold fits, in_u, body in *. rewrite !length_app in Hfb'. cbn [length] in Hfb'.
  fold args. lia.
Qed.

(** A tip of [2 ^ 64] planck or more is written as a [Compact<u128>] and read
    as a [Compact<u64>]: the scan refuses the whole block. *)
Lemma wide_tip_is_refused md key call c signed :
  key_ok key → in_u 64 (sc_nonce c) → 2 ^ 64 ≤ sc_tip c < 2 ^ 128 → (∃ p i args, call = p :: i :: args) →
  encode_signed md key call c = Ok signed → fits signed →
  extrinsic_payloads md signed = Err NoNonceOrTip.
Proof.
  intros Hkey Hnonce Htip (p & i & args & ->) Hsigned Hfs.
  unfold encode_signed in Hsigned. apply bind_Ok in Hsigned as ([] & Hv & Hsigned).
  apply bind_Ok in Hsigned as ([] & _ & Hsigned). apply bind_Ok in Hsigned as (sig & Hsign & Hsigned).
  apply ensure_Ok, bool_decide_eq_true in Hv. apply ok_or_Ok in Hsign. cbn zeta in Hsigned.
  assert (Hsig : length sig = SIGNATURE_LEN) by (eapply ko_sign; eassumption).
  pose (body := envelope key sig ++ encode_extensions c ++ p :: i :: args).
  assert (Hx : signed = compact_len (length body) ++ body).
  { unfold body, envelope. rewrite <- !app_assoc. congruence. }
  subst signed. assert (Hfb : fits body) by (unfold fits, in_u in *; rewrite length_app in Hfs; lia).
  pose proof (skip_wide (envelope key sig) c (p :: i :: args) Hnonce Htip) as Hskip.
  etransitivity; [exact (signed_payloads md key sig c _ _ args _ Hv Hkey Hsig Hfb Hskip)|]. done.
Qed.

(** C31: what the wallet's encoders write, its scan reads back. A private or a
    public batch submission is walked to exactly its non-empty ciphertexts, in
    order, whatever the proof; and a shield it signs is walked to its
    ciphertext, whatever the memo or the key, when the tip is below [2 ^ 64]
    planck, and refused, with the whole block, when it is not. *)
Theorem extrinsics_round_trip md proof outputs key value inner ct c private public signed
    (Hapart : indices_apart md) (Hkey : key_ok key) (Hinner : length inner = 32%nat)
    (Hcount : in_u 64 (Z.of_nat (length outputs)))
    (Hnonce : in_u 64 (sc_nonce c)) (Htip : in_u 128 (sc_tip c))
    (Hprivate : encode_submit_private_batch md proof outputs = Ok private)
    (Hpublic : encode_submit_public_batch md proof outputs = Ok public)
    (Hsigned : encode_signed md key (encode_shield_call md value inner ct) c = Ok signed)
    (Hfits : fits private ∧ fits public ∧ fits signed) :
  extrinsic_payloads md private = Ok (payloads_of outputs) ∧
  extrinsic_payloads md public = Ok (payloads_of outputs) ∧
  extrinsic_payloads md signed = (if sc_tip c <? 2 ^ 64 then Ok (base.filter (λ p, p ≠ []) [ct]) else Err NoNonceOrTip).
Proof.
  destruct Hfits as (Hf1 & Hf2 & Hf3). split_and!; [eapply (bare_round_trip md); [by left|done..]|eapply (bare_round_trip md); [by right|done..]|].
  destruct (Z.ltb_spec (sc_tip c) (2 ^ 64)); [eapply shield_round_trip; try done; split; [apply Htip|done]|].
  eapply wide_tip_is_refused; try done; [split; [done|apply Htip]|]. by eexists _, _, _.
Qed.
End RoundTrip.

(** ** SCALE's compact format

    The four modes of the format, as an instance of the class. *)
Module ScaleFormat.
Definition big_width (n : Z) : nat := Z.to_nat (Z.max 4 (Z.log2 n / 8 + 1)).
Definition format_compact (n : Z) : list Z :=
  if n <? 2 ^ 6 then [4 * n]
  else if n <? 2 ^ 14 then le_bytes 2 (4 * n + 1)
  else if n <? 2 ^ 30 then le_bytes 4 (4 * n + 2)
  else (Z.of_nat (big_width n) - 4) * 4 + 3 :: le_bytes (big_width n) n.

(** [width] bytes as a little-endian value of at least [min], and what is
    left. *)
Definition read_le (width : nat) (low : Z) (scale : Z) (bs : list Z) : option (Z * list Z) :=
  if (length bs <? width)%nat || negb (forallb (λ b, (0 <=? b) && (b <? 256)) (take width bs)) then None
  else let v := le_val (take width bs) / scale in
       if low <=? v then Some (v, drop width bs) else None.
Definition format_decode (bs : list Z) : option (Z * list Z) :=
  match bs with
  | [] => None
  | b :: rest =>
      if b mod 4 =? 0 then read_le 1 0 4 bs
      else if b mod 4 =? 1 then read_le 2 (2 ^ 6) 4 bs
      else if b mod 4 =? 2 then read_le 4 (2 ^ 14) 4 bs
      else let width := Z.to_nat (b / 4 + 4) in
           if (width <=? 8)%nat && (0 <=? b / 4)
           then read_le width (if (width =? 4)%nat then 2 ^ 30 else 2 ^ (8 * (Z.of_nat width - 1))) 1 rest else None
  end.
#[export] Instance format : ScaleCompact := {| compact := format_compact; decode_compact_u64 := format_decode |}.

#[local] Ltac Zify.zify_post_hook ::= Z.div_mod_to_equations.

Lemma read_le_at width low scale z rest :
  0 ≤ z < 256 ^ Z.of_nat width → low ≤ z / scale →
  read_le width low scale (le_bytes width z ++ rest) = Some (z / scale, rest).
Proof.
  intros Hz Hlow. unfold read_le. rewrite length_app, length_le_bytes, (proj2 (Nat.ltb_ge _ _)) by lia.
  rewrite take_app_length', drop_app_length' by (by rewrite length_le_bytes).
  assert (Hb : forallb (λ b, (0 <=? b) && (b <? 256)) (le_bytes width z) = true).
  { apply forallb_forall. intros b Hb. apply list_elem_of_In in Hb. pose proof (le_bytes_are_bytes width z) as Hbytes.
    rewrite Forall_forall in Hbytes. specialize (Hbytes b Hb). unfold is_byte in Hbytes. lia. }
  rewrite Hb, le_val_le_bytes by done. cbn [orb negb]. rewrite (proj2 (Z.leb_le _ _)) by lia. done.
Qed.

Lemma big_width_spec n : 2 ^ 30 ≤ n < 2 ^ 128 →
  (4 ≤ big_width n)%nat ∧ n < 256 ^ Z.of_nat (big_width n) ∧
  (if (big_width n =? 4)%nat then 2 ^ 30 else 2 ^ (8 * (Z.of_nat (big_width n) - 1))) ≤ n.
Proof.
  intros Hn. unfold big_width. pose proof (Z.log2_spec n ltac:(lia)) as [Hlo Hhi].
  assert (Hl : 30 ≤ Z.log2 n) by (change 30 with (Z.log2 (2 ^ 30)); apply Z.log2_le_mono; lia).
  split; [lia|]. rewrite Z2Nat.id by lia. change 256 with (2 ^ 8). rewrite <- Z.pow_mul_r by lia. split.
  - eapply Z.lt_le_trans; [exact Hhi|]. apply Z.pow_le_mono_r; lia.
  - destruct (Nat.eqb_spec (Z.to_nat (Z.max 4 (Z.log2 n / 8 + 1))) 4) as [_|Hne]; [lia|].
    etransitivity; [|exact Hlo]. apply Z.pow_le_mono_r; lia.
Qed.

Lemma big_width_le n : 2 ^ 30 ≤ n → ((big_width n ≤ 8)%nat ↔ n < 2 ^ 64).
Proof.
  intros Hn. unfold big_width. split; intros Hw.
  - apply Z.log2_lt_pow2; [lia|]. lia.
  - apply Z.log2_lt_pow2 in Hw; lia.
Qed.

(** The first byte of a little-endian value tells its mode. *)
Lemma format_mode k z rest :
  format_decode (le_bytes (S k) z ++ rest) =
  if z mod 4 =? 0 then read_le 1 0 4 (le_bytes (S k) z ++ rest)
  else if z mod 4 =? 1 then read_le 2 (2 ^ 6) 4 (le_bytes (S k) z ++ rest)
  else if z mod 4 =? 2 then read_le 4 (2 ^ 14) 4 (le_bytes (S k) z ++ rest)
  else format_decode (le_bytes (S k) z ++ rest).
Proof. rewrite le_bytes_cons. cbn [app]. unfold format_decode. rewrite mod_256_4. by repeat case_match. Qed.

Lemma format_read n rest :
  0 ≤ n < 2 ^ 128 → format_decode (format_compact n ++ rest) = if n <? 2 ^ 64 then Some (n, rest) else None.
Proof.
  intros Hn. unfold format_compact.
  destruct (Z.ltb_spec n (2 ^ 6)); [|destruct (Z.ltb_spec n (2 ^ 14)); [|destruct (Z.ltb_spec n (2 ^ 30))]].
  - rewrite (proj2 (Z.ltb_lt n _)) by lia. replace [4 * n] with (le_bytes 1 (4 * n)) by (unfold le_bytes; f_equal; lia).
    rewrite format_mode. replace (4 * n mod 4) with 0 by lia. cbn [Z.eqb]. rewrite read_le_at by (cbn; lia). do 2 f_equal; lia.
  - rewrite (proj2 (Z.ltb_lt n _)) by lia. rewrite format_mode. replace ((4 * n + 1) mod 4) with 1 by lia. cbn [Z.eqb Pos.eqb].
    rewrite read_le_at by (cbn; lia). do 2 f_equal; lia.
  - rewrite (proj2 (Z.ltb_lt n _)) by lia. rewrite format_mode. replace ((4 * n + 2) mod 4) with 2 by lia. cbn [Z.eqb Pos.eqb].
    rewrite read_le_at by (cbn; lia). do 2 f_equal; lia.
  - destruct (big_width_spec n ltac:(lia)) as (Hw & Hhi & Hlo). pose proof (big_width_le n ltac:(lia)) as H8.
    cbn [app]. unfold format_decode. replace (((Z.of_nat (big_width n) - 4) * 4 + 3) mod 4) with 3 by lia. cbn [Z.eqb Pos.eqb].
    replace (((Z.of_nat (big_width n) - 4) * 4 + 3) / 4) with (Z.of_nat (big_width n) - 4) by lia.
    replace (Z.to_nat (Z.of_nat (big_width n) - 4 + 4)) with (big_width n) by lia.
    rewrite (proj2 (Z.leb_le 0 _)), andb_true_r by lia. destruct (Z.ltb_spec n (2 ^ 64)).
    + rewrite (proj2 (Nat.leb_le _ _)) by tauto. rewrite read_le_at by (rewrite ?Z.div_1_r; lia). by rewrite Z.div_1_r.
    + rewrite (proj2 (Nat.leb_gt _ _)); [done|]. lia.
Qed.

Lemma read_le_suffix width low scale bs v rest :
  0 < scale → 0 ≤ low → read_le width low scale bs = Some (v, rest) →
  0 ≤ v ∧ v < 256 ^ Z.of_nat width ∧ ∃ pre, bs = pre ++ rest ∧ length pre = width.
Proof.
  intros Hs Hlow. unfold read_le. destruct ((length bs <? width)%nat || _) eqn:Hc; [done|].
  apply orb_false_iff in Hc as [Hl Hb]. apply Nat.ltb_ge in Hl. apply negb_false_iff in Hb.
  destruct (Z.leb_spec low (le_val (take width bs) / scale)); [|done]. intros [= <- <-].
  assert (Hbytes : Forall is_byte (take width bs)).
  { apply Forall_forall. intros b Hin. rewrite forallb_forall in Hb. specialize (Hb b ltac:(by apply list_elem_of_In)).
    unfold is_byte. lia. }
  apply le_val_bound in Hbytes. rewrite length_take, Nat.min_l in Hbytes by done.
  split; [lia|]. split.
  - eapply Z.le_lt_trans; [|apply Hbytes]. apply Z.div_le_upper_bound; nia.
  - exists (take width bs). rewrite take_drop, length_take. split; [done|lia].
Qed.

#[export] Instance format_laws : ScaleCompactLaws.
Proof.
  constructor.
  - intros n rest Hn. cbn. unfold in_u in Hn. rewrite format_read by lia. by rewrite (proj2 (Z.ltb_lt _ _)) by lia.
  - intros n rest Hn. cbn. rewrite format_read by lia. by rewrite (proj2 (Z.ltb_ge _ _)) by lia.
  - intros bs v rest. cbn. unfold format_decode, in_u. destruct bs as [|b bs]; [done|]. intros Hd.
    assert (Hex : ∀ w low scale l, (w ≤ 8)%nat → 0 < scale → 0 ≤ low → read_le w low scale l = Some (v, rest) →
      0 ≤ v < 2 ^ 64 ∧ ∃ pre, l = pre ++ rest ∧ length pre = w).
    { intros w low scale l Hw Hs Hlow Hr. apply read_le_suffix in Hr as (Hv & Hhi & Hpre); [|done..]. split; [|done].
      split; [done|]. eapply Z.lt_le_trans; [exact Hhi|]. change (2 ^ 64) with (256 ^ 8). apply Z.pow_le_mono_r; lia. }
    destruct (b mod 4 =? 0); [|destruct (b mod 4 =? 1); [|destruct (b mod 4 =? 2)]].
    1-3: apply Hex in Hd as (? & pre & -> & Hl); [|lia..]; split; [done|]; exists pre; split; [done|]; intros ->; cbn in Hl; lia.
    destruct (Nat.leb_spec (Z.to_nat (b / 4 + 4)) 8) as [Hw|]; [|done]. cbn [andb] in Hd.
    destruct (0 <=? b / 4); [|done].
    apply Hex in Hd as (? & pre & -> & Hl); [|lia|lia|case_match; lia]. split; [done|]. exists (b :: pre). done.
Qed.

End ScaleFormat.

(** ** Witnesses *)
Module ToyExtrinsic.
Import ScaleFormat ToyCrypto.
Definition toy_md : ChainMetadata :=
  {| md_protocol_profile := []; md_shielded_pallet_index := 24; md_submit_private_batch := 0; md_submit_public_batch := 1;
     md_shield := 2; md_block_hash_window := 256; md_min_leaf_fee := 1; md_ciphertext_bytes_per_fee_quantum := 512;
     md_max_ciphertext_bytes := 2048; md_signed_extensions := KNOWN_SIGNED_EXTENSIONS; md_extrinsic_version := 4;
     md_storage := (λ '(p, i, h), {| si_pallet := p; si_prefix := p; si_name := i; si_hasher := h |}) <$> REQUIRED_STORAGE |}.
Definition toy_key : TransparentKey :=
  {| tk_account_id := replicate 32 7; tk_public_bytes := replicate PUBLIC_KEY_LEN 8; tk_sign := λ _, Some (replicate SIGNATURE_LEN 9) |}.
Definition toy_context (tip : Z) : SigningContext :=
  {| sc_spec_version := 1; sc_transaction_version := 1; sc_genesis_hash := replicate 32 1; sc_nonce := 3; sc_tip := tip |}.
Definition toy_outputs : list WalletOutput := [{| wo_ct_1 := [1; 2]; wo_ct_2 := [] |}; {| wo_ct_1 := [3]; wo_ct_2 := [4; 5] |}].
Definition toy_shield : list Z := encode_shield_call toy_md 1000 (replicate 32 5) [6; 6].
Definition unwrap (r : result ExtrinsicError (list Z)) : list Z := match r with Ok b => b | Err _ => [] end.
Definition toy_bare : list Z := unwrap (encode_submit_private_batch toy_md [9; 9; 9] toy_outputs).
Definition toy_signed (tip : Z) : list Z := unwrap (encode_signed toy_md toy_key toy_shield (toy_context tip)).

Lemma toy_key_ok : key_ok toy_key.
Proof.
  constructor; [done|done|]. intros m sig Hs. assert (sig = replicate SIGNATURE_LEN 9) as -> by (cbn [toy_key tk_sign] in Hs; congruence).
  apply length_replicate.
Qed.

Definition toy_public : list Z := unwrap (encode_submit_public_batch toy_md [9; 9; 9] toy_outputs).
Lemma extrinsics_round_trip_witness :
  extrinsic_payloads toy_md toy_bare = Ok [[1; 2]; [3]; [4; 5]] ∧ extrinsic_payloads toy_md toy_public = Ok [[1; 2]; [3]; [4; 5]] ∧
  extrinsic_payloads toy_md (toy_signed 77) = Ok [[6; 6]].
Proof.
  exact (extrinsics_round_trip toy_md [9; 9; 9] toy_outputs toy_key 1000 (replicate 32 5) [6; 6] (toy_context 77)
    toy_bare toy_public (toy_signed 77) ltac:(split; done) toy_key_ok ltac:(done) ltac:(done) ltac:(done) ltac:(split; vm_compute; [discriminate|reflexivity])
    ltac:(vm_compute; reflexivity) ltac:(vm_compute; reflexivity) ltac:(vm_compute; reflexivity)
    ltac:(split; [|split]; (vm_compute; split; [discriminate|reflexivity]))).
Defined.

(** Every call outside the pallet is stepped over, and [batch_all] is such a
    call: a shield carried inside one is not found. *)
Definition batched (call : list Z) : list Z := [9; 2] ++ compact 1 ++ call.
Example wrapped_shield_is_not_found :
  extrinsic_payloads toy_md (unwrap (encode_signed toy_md toy_key (batched toy_shield) (toy_context 0))) = Ok [].
Proof. vm_compute. reflexivity. Qed.
End ToyExtrinsic.
