(* ===== verification/WalletStore.v ===== *)
(** * The wallet's store

    [crates/qnero-wallet/src/store.rs]: the notes a wallet holds, what it
    refused, what it has submitted, and how far it has read. A hex string of
    the file is the bytes it spells ([hex::encode] keeps the order of the
    keys), and the file itself, its permissions and its JSON, are the
    operating system's and [serde]'s. *)

From stdpp Require Import base option numbers list gmap strings.
From S2P Require Import Prelude Crypto.
#[local] Open Scope Z_scope.

(** ** The records of the file *)
Inductive NoteOrigin := Shield | Spend | CoinbaseOrigin.
#[global] Instance NoteOrigin_eq_dec : EqDecision NoteOrigin.
Proof. solve_decision. Defined.

Record StoredNote := {
  sn_leaf_index : Z;
  sn_block_number : option Z;
  sn_value : Z;
  sn_commitment : Hash256;
  sn_nullifier : Hash256;
  sn_rho : Hash256;
  sn_r : Hash256;
  sn_memo : list Z;
  sn_origin : NoteOrigin;
  sn_spent : bool;
  sn_on_chain : bool;
  sn_spent_seen_at_block : option Z;
}.
#[global] Instance StoredNote_eq_dec : EqDecision StoredNote.
Proof. solve_decision. Defined.

Inductive PendingKind := PendingShield | PendingChange.
Record PendingNote := {
  pn_kind : PendingKind;
  pn_commitment : Hash256;
  pn_value : Z;
  pn_rho : Hash256;
  pn_r : Hash256;
  pn_memo : list Z;
  pn_submitted_at_block : Z;
  pn_extrinsic : list Z;
}.
Record RejectedNote := {
  rn_leaf_index : Z;
  rn_commitment : Hash256;
  rn_nullifier : Hash256;
  rn_value : Z;
  rn_reason : string;
}.
Record SyncCheckpoint := { cp_block_number : Z; cp_block_hash : Hash256; cp_next_leaf : Z }.

Record WalletStore := {
  ws_version : Z;
  ws_address : list Z;
  ws_genesis_hash : option Hash256;
  ws_last_synced_block : Z;
  ws_next_leaf : Z;
  ws_notes : list StoredNote;
  ws_pending : list PendingNote;
  ws_rejected : list RejectedNote;
  ws_used_nullifiers : gset Hash256;
  ws_birthday : option SyncCheckpoint;
  ws_checkpoints : list SyncCheckpoint;
}.

Definition STORE_VERSION : Z := 7.
Definition OLDEST_UPGRADABLE_VERSION : Z := 2.
Definition BIRTHDAY_EPOCH : Z := 1024.
Definition MAX_CHECKPOINTS : nat := 16.

(** Field updates. *)
Definition set_spent (b : bool) (seen : option Z) (n : StoredNote) : StoredNote :=
  {| sn_leaf_index := sn_leaf_index n; sn_block_number := sn_block_number n; sn_value := sn_value n;
     sn_commitment := sn_commitment n; sn_nullifier := sn_nullifier n; sn_rho := sn_rho n; sn_r := sn_r n;
     sn_memo := sn_memo n; sn_origin := sn_origin n; sn_spent := b; sn_on_chain := sn_on_chain n;
     sn_spent_seen_at_block := seen |}.
Definition set_on_chain (b : bool) (n : StoredNote) : StoredNote :=
  {| sn_leaf_index := sn_leaf_index n; sn_block_number := sn_block_number n; sn_value := sn_value n;
     sn_commitment := sn_commitment n; sn_nullifier := sn_nullifier n; sn_rho := sn_rho n; sn_r := sn_r n;
     sn_memo := sn_memo n; sn_origin := sn_origin n; sn_spent := sn_spent n; sn_on_chain := b;
     sn_spent_seen_at_block := sn_spent_seen_at_block n |}.
Definition set_place (leaf : Z) (block : option Z) (n : StoredNote) : StoredNote :=
  {| sn_leaf_index := leaf; sn_block_number := block; sn_value := sn_value n;
     sn_commitment := sn_commitment n; sn_nullifier := sn_nullifier n; sn_rho := sn_rho n; sn_r := sn_r n;
     sn_memo := sn_memo n; sn_origin := sn_origin n; sn_spent := sn_spent n; sn_on_chain := sn_on_chain n;
     sn_spent_seen_at_block := sn_spent_seen_at_block n |}.

Definition set_notes (l : list StoredNote) (s : WalletStore) : WalletStore :=
  {| ws_version := ws_version s; ws_address := ws_address s; ws_genesis_hash := ws_genesis_hash s;
     ws_last_synced_block := ws_last_synced_block s; ws_next_leaf := ws_next_leaf s; ws_notes := l;
     ws_pending := ws_pending s; ws_rejected := ws_rejected s; ws_used_nullifiers := ws_used_nullifiers s;
     ws_birthday := ws_birthday s; ws_checkpoints := ws_checkpoints s |}.
Definition set_pending (l : list PendingNote) (s : WalletStore) : WalletStore :=
  {| ws_version := ws_version s; ws_address := ws_address s; ws_genesis_hash := ws_genesis_hash s;
     ws_last_synced_block := ws_last_synced_block s; ws_next_leaf := ws_next_leaf s; ws_notes := ws_notes s;
     ws_pending := l; ws_rejected := ws_rejected s; ws_used_nullifiers := ws_used_nullifiers s;
     ws_birthday := ws_birthday s; ws_checkpoints := ws_checkpoints s |}.
Definition set_rejected (l : list RejectedNote) (s : WalletStore) : WalletStore :=
  {| ws_version := ws_version s; ws_address := ws_address s; ws_genesis_hash := ws_genesis_hash s;
     ws_last_synced_block := ws_last_synced_block s; ws_next_leaf := ws_next_leaf s; ws_notes := ws_notes s;
     ws_pending := ws_pending s; ws_rejected := l; ws_used_nullifiers := ws_used_nullifiers s;
     ws_birthday := ws_birthday s; ws_checkpoints := ws_checkpoints s |}.
Definition set_used_nullifiers (u : gset Hash256) (s : WalletStore) : WalletStore :=
  {| ws_version := ws_version s; ws_address := ws_address s; ws_genesis_hash := ws_genesis_hash s;
     ws_last_synced_block := ws_last_synced_block s; ws_next_leaf := ws_next_leaf s; ws_notes := ws_notes s;
     ws_pending := ws_pending s; ws_rejected := ws_rejected s; ws_used_nullifiers := u;
     ws_birthday := ws_birthday s; ws_checkpoints := ws_checkpoints s |}.
Definition set_genesis (g : option Hash256) (s : WalletStore) : WalletStore :=
  {| ws_version := ws_version s; ws_address := ws_address s; ws_genesis_hash := g;
     ws_last_synced_block := ws_last_synced_block s; ws_next_leaf := ws_next_leaf s; ws_notes := ws_notes s;
     ws_pending := ws_pending s; ws_rejected := ws_rejected s; ws_used_nullifiers := ws_used_nullifiers s;
     ws_birthday := ws_birthday s; ws_checkpoints := ws_checkpoints s |}.
(** The scan's position: the watermark, the height and the checkpoints. *)
Definition set_position (block leaf : Z) (cps : list SyncCheckpoint) (s : WalletStore) : WalletStore :=
  {| ws_version := ws_version s; ws_address := ws_address s; ws_genesis_hash := ws_genesis_hash s;
     ws_last_synced_block := block; ws_next_leaf := leaf; ws_notes := ws_notes s;
     ws_pending := ws_pending s; ws_rejected := ws_rejected s; ws_used_nullifiers := ws_used_nullifiers s;
     ws_birthday := ws_birthday s; ws_checkpoints := cps |}.
Definition set_birthday (b : option SyncCheckpoint) (s : WalletStore) : WalletStore :=
  {| ws_version := ws_version s; ws_address := ws_address s; ws_genesis_hash := ws_genesis_hash s;
     ws_last_synced_block := ws_last_synced_block s; ws_next_leaf := ws_next_leaf s; ws_notes := ws_notes s;
     ws_pending := ws_pending s; ws_rejected := ws_rejected s; ws_used_nullifiers := ws_used_nullifiers s;
     ws_birthday := b; ws_checkpoints := ws_checkpoints s |}.
Definition set_version (v : Z) (s : WalletStore) : WalletStore :=
  {| ws_version := v; ws_address := ws_address s; ws_genesis_hash := ws_genesis_hash s;
     ws_last_synced_block := ws_last_synced_block s; ws_next_leaf := ws_next_leaf s; ws_notes := ws_notes s;
     ws_pending := ws_pending s; ws_rejected := ws_rejected s; ws_used_nullifiers := ws_used_nullifiers s;
     ws_birthday := ws_birthday s; ws_checkpoints := ws_checkpoints s |}.

(** ** Opening and binding *)
Inductive StoreError :=
| AlreadyStarted (next_leaf : Z)
| ReadableBeyondOwner
| NotAStore
| UnsupportedVersion (v : Z)
| OtherAddress (found : list Z)
| OtherChain (bound genesis : Hash256).

Definition birthday_epoch_of (height : Z) : Z := height - height mod BIRTHDAY_EPOCH.

Definition store_new (address : list Z) : WalletStore :=
  {| ws_version := STORE_VERSION; ws_address := address; ws_genesis_hash := None; ws_last_synced_block := 0;
     ws_next_leaf := 0; ws_notes := []; ws_pending := []; ws_rejected := []; ws_used_nullifiers := ∅;
     ws_birthday := None; ws_checkpoints := [] |}.

Definition store_record_birthday (c : SyncCheckpoint) (s : WalletStore) : result StoreError WalletStore :=
  if bool_decide (is_Some (ws_birthday s)) || negb (bool_decide (length (ws_checkpoints s) = 0%nat))
     || negb (ws_next_leaf s =? 0)
  then Err (AlreadyStarted (ws_next_leaf s))
  else Ok (set_birthday (Some c) (set_position (cp_block_number c) (cp_next_leaf c) [c] s)).

Definition unscanned_birthday (watermark : Z) (s : WalletStore) : option Z :=
  match ws_birthday s with
  | Some b => if cp_next_leaf b =? watermark then Some (cp_block_number b) else None
  | None => None
  end.

(** What the file holds: nothing, or bytes [serde] reads as a store or not,
    with the permissions the guard refuses or not. *)
Inductive StoreFile := NoFile | FileOf (private : bool) (decoded : option WalletStore).

Definition load_or_new (file : StoreFile) (address : list Z) : result StoreError WalletStore :=
  match file with
  | NoFile => Ok (store_new address)
  | FileOf private decoded =>
      _ ← ensure private ReadableBeyondOwner;
      s ← ok_or decoded NotAStore;
      _ ← ensure ((ws_version s <=? STORE_VERSION) && (OLDEST_UPGRADABLE_VERSION <=? ws_version s))
            (UnsupportedVersion (ws_version s));
      let s :=
        if ws_version s <? STORE_VERSION
        then set_version STORE_VERSION
               (if ws_version s <? 3 then set_position (ws_last_synced_block s) (ws_next_leaf s) [] s else s)
        else s in
      _ ← ensure (bool_decide (ws_address s = address)) (OtherAddress (ws_address s));
      Ok s
  end.

Definition is_other_chain (genesis : Hash256) (s : WalletStore) : bool :=
  match ws_genesis_hash s with Some bound => negb (bool_decide (bound = genesis)) | None => false end.

Definition ensure_genesis (genesis : Hash256) (s : WalletStore) : result StoreError unit :=
  match ws_genesis_hash s with
  | Some bound => ensure (bool_decide (bound = genesis)) (OtherChain bound genesis)
  | None => Ok tt
  end.

Definition bind_genesis (genesis : Hash256) (s : WalletStore) : result StoreError (bool * WalletStore) :=
  _ ← ensure_genesis genesis s;
  match ws_genesis_hash s with
  | Some _ => Ok (false, s)
  | None => Ok (true, set_genesis (Some genesis) s)
  end.

(** ** Which notes can be spent *)
Definition usable (n : StoredNote) : bool := negb (sn_spent n) && sn_on_chain n.
Definition unspent (s : WalletStore) : list StoredNote := base.filter (λ n, usable n = true) (ws_notes s).
Definition off_chain (s : WalletStore) : list StoredNote :=
  base.filter (λ n, negb (sn_on_chain n) && negb (sn_spent n) = true) (ws_notes s).

(** The largest value, ties to the lowest leaf. *)
Definition outranks (candidate held : StoredNote) : bool :=
  (sn_value held <? sn_value candidate) ||
  ((sn_value held =? sn_value candidate) && (sn_leaf_index candidate <? sn_leaf_index held)).

Definition outranks_for_display (candidate held : StoredNote) : bool :=
  match usable candidate, usable held with
  | true, false => true
  | false, true => false
  | _, _ => outranks candidate held
  end.

(** The order of the keys of a [BTreeMap<&str, _>]. *)
Fixpoint key_lt (a b : Hash256) : bool :=
  match a, b with
  | _, [] => false
  | [], _ :: _ => true
  | x :: a, y :: b => (x <? y) || ((x =? y) && key_lt a b)
  end.

(** One step of the [BTreeMap]'s entry: insert the vacant key in its place,
    or let the candidate outrank the held note. *)
Fixpoint best_entry (n : StoredNote) (best : list StoredNote) : list StoredNote :=
  match best with
  | [] => [n]
  | h :: rest =>
      if bool_decide (sn_nullifier n = sn_nullifier h) then (if outranks n h then n else h) :: rest
      else if key_lt (sn_nullifier n) (sn_nullifier h) then n :: best
      else h :: best_entry n rest
  end.
Definition spendable (s : WalletStore) : list StoredNote := foldl (λ best n, best_entry n best) [] (unspent s).

Definition conflicted (s : WalletStore) : list StoredNote :=
  base.filter (λ n, (1 < length (base.filter (λ m, sn_nullifier m = sn_nullifier n) (ws_notes s)))%nat) (ws_notes s).

(** [collapse]: one row per nullifier, in the order they were first met; the
    row's note and how many notes share it. *)
Fixpoint collapse_entry (n : StoredNote) (rows : list (StoredNote * nat)) : list (StoredNote * nat) :=
  match rows with
  | [] => [(n, 1%nat)]
  | (h, members) :: rest =>
      if bool_decide (sn_nullifier n = sn_nullifier h)
      then ((if outranks_for_display n h then n else h), S members) :: rest
      else (h, members) :: collapse_entry n rest
  end.
Definition collapse (l : list StoredNote) : list (StoredNote * nat) := foldl (λ rows n, collapse_entry n rows) [] l.
Definition rows (s : WalletStore) : list (StoredNote * nat) := collapse (ws_notes s).
Definition off_chain_rows (s : WalletStore) : list (StoredNote * nat) := collapse (off_chain s).

(** [iter().sum()] over a [u64], as a release build adds. *)
Definition sum_u64 {A} (f : A → Z) (l : list A) : Z := foldl (λ acc x, (acc + f x) mod 2 ^ 64) 0 l.
Definition unspent_total (s : WalletStore) : Z := sum_u64 sn_value (spendable s).
Definition off_chain_total (s : WalletStore) : Z := sum_u64 (λ r, sn_value r.1) (off_chain_rows s).
Definition pending_total (s : WalletStore) : Z := sum_u64 pn_value (ws_pending s).

(** ** Writing the notes *)
(** [for note in self.notes.iter_mut()], counting the notes that changed. *)
Definition walk_notes (f : StoredNote → StoredNote * bool) (s : WalletStore) : WalletStore * Z :=
  (set_notes ((λ n, (f n).1) <$> ws_notes s) s, sum_by (λ n, if (f n).2 then 1 else 0) (ws_notes s)).

Definition mark_off_chain (n : StoredNote) : StoredNote * bool :=
  if sn_spent n || negb (sn_on_chain n) then (n, false) else (set_on_chain false n, true).

Definition mark_vanished (from : Z) (seen : gset Hash256) (s : WalletStore) : WalletStore * Z :=
  walk_notes (λ n, if (from <=? sn_leaf_index n) && negb (bool_decide (sn_commitment n ∈ seen))
                   then mark_off_chain n else (n, false)) s.

Definition mark_note_off_chain (commitment : Hash256) (s : WalletStore) : WalletStore * bool :=
  let '(s, marked) := walk_notes (λ n, if bool_decide (sn_commitment n = commitment) then mark_off_chain n else (n, false)) s in
  (s, 0 <? marked).

Definition has_commitment (commitment : Hash256) (s : WalletStore) : bool :=
  existsb (λ n, bool_decide (sn_commitment n = commitment)) (ws_notes s).

Definition relocate_note (commitment : Hash256) (leaf_index : Z) (block_number : option Z) (s : WalletStore) :
    WalletStore * bool :=
  let '(s, moved) :=
    walk_notes (λ n,
      if bool_decide (sn_commitment n = commitment) then
        let n := set_on_chain true n in
        if negb (sn_leaf_index n =? leaf_index) || negb (bool_decide (sn_block_number n = block_number))
        then (set_place leaf_index block_number n, true) else (n, false)
      else (n, false)) s in
  (s, 0 <? moved).

(** The first refusal with the commitment takes the new leaf index. *)
Fixpoint find_rejected (c : Hash256) (leaf : Z) (l : list RejectedNote) : option (list RejectedNote) :=
  match l with
  | [] => None
  | r :: rest =>
      if bool_decide (rn_commitment r = c)
      then Some ({| rn_leaf_index := leaf; rn_commitment := rn_commitment r; rn_nullifier := rn_nullifier r;
                    rn_value := rn_value r; rn_reason := rn_reason r |} :: rest)
      else cons r <$> find_rejected c leaf rest
  end.
Definition record_rejected (r : RejectedNote) (s : WalletStore) : WalletStore * bool :=
  match find_rejected (rn_commitment r) (rn_leaf_index r) (ws_rejected s) with
  | Some l => (set_rejected l s, false)
  | None => (set_rejected (ws_rejected s ++ [r]) s, true)
  end.

Definition nullifier_settled (nullifier : Hash256) (s : WalletStore) : bool :=
  bool_decide (nullifier ∈ ws_used_nullifiers s).

Definition mark_spent (nullifier : Hash256) (seen_at : Z) (s : WalletStore) : WalletStore :=
  (walk_notes (λ n, if bool_decide (sn_nullifier n = nullifier) && negb (sn_spent n)
                    then (set_spent true (Some seen_at) n, true) else (n, false)) s).1.
Definition mark_unspent (nullifier : Hash256) (s : WalletStore) : WalletStore :=
  (walk_notes (λ n, if bool_decide (sn_nullifier n = nullifier) && sn_spent n
                    then (set_spent false None n, true) else (n, false)) s).1.

Inductive SpentDirection := BothWays | AddOnly.
#[global] Instance SpentDirection_eq_dec : EqDecision SpentDirection.
Proof. solve_decision. Defined.
Record SpentReconciliation := { newly_spent : Z; newly_unspent : Z; held_spent : Z }.
Inductive SpentChange := Unchanged | NewlySpent | NewlyUnspent | HeldSpent.

Definition reconcile_note (settled : gset Hash256) (head_block : Z) (direction : SpentDirection) (n : StoredNote) :
    StoredNote * SpentChange :=
  match bool_decide (sn_nullifier n ∈ settled), sn_spent n with
  | true, false => (set_spent true (Some head_block) n, NewlySpent)
  | false, true =>
      let above_this_head := match sn_spent_seen_at_block n with Some seen => head_block <? seen | None => false end in
      if bool_decide (direction = AddOnly) || above_this_head then (n, HeldSpent)
      else (set_spent false None n, NewlyUnspent)
  | _, _ => (n, Unchanged)
  end.

Definition count_change (change : SpentChange) (counts : SpentReconciliation) : SpentReconciliation :=
  match change with
  | Unchanged => counts
  | NewlySpent => {| newly_spent := newly_spent counts + 1; newly_unspent := newly_unspent counts; held_spent := held_spent counts |}
  | NewlyUnspent => {| newly_spent := newly_spent counts; newly_unspent := newly_unspent counts + 1; held_spent := held_spent counts |}
  | HeldSpent => {| newly_spent := newly_spent counts; newly_unspent := newly_unspent counts; held_spent := held_spent counts + 1 |}
  end.

Definition reconcile_spent (head_block : Z) (direction : SpentDirection) (s : WalletStore) :
    WalletStore * SpentReconciliation :=
  let changed := reconcile_note (ws_used_nullifiers s) head_block direction <$> ws_notes s in
  (set_notes changed.*1 s,
   foldl (λ counts c, count_change c.2 counts) {| newly_spent := 0; newly_unspent := 0; held_spent := 0 |} changed).

Definition prune_rejected (s : WalletStore) : WalletStore * Z :=
  let held := sn_commitment <$> ws_notes s in
  let kept := base.filter (λ r, rn_commitment r ∉ held) (ws_rejected s) in
  (set_rejected kept s, Z.of_nat (length (ws_rejected s)) - Z.of_nat (length kept)).

(** ** Checkpoints *)
Definition newest_checkpoint (s : WalletStore) : option SyncCheckpoint := last (ws_checkpoints s).

Definition record_checkpoint (block_number : Z) (block_hash : Hash256) (next_leaf : Z) (s : WalletStore) : WalletStore :=
  let kept := base.filter (λ c, cp_block_number c < block_number) (ws_checkpoints s) in
  let cps := kept ++ [{| cp_block_number := block_number; cp_block_hash := block_hash; cp_next_leaf := next_leaf |}] in
  set_position (ws_last_synced_block s) (ws_next_leaf s) (drop (length cps - MAX_CHECKPOINTS) cps) s.

Definition rewind_to (block_number next_leaf : Z) (s : WalletStore) : WalletStore :=
  set_position block_number next_leaf (base.filter (λ c, cp_block_number c ≤ block_number) (ws_checkpoints s)) s.
