(* ===== verification/WalletStoreProps.v ===== *)
(** * Properties of the wallet's store

    What a balance counts, what a reconciliation decides, and the invariant
    every write of the store keeps. *)

From stdpp Require Import base option numbers list gmap sorting.
From S2P Require Import Prelude Crypto WalletStore.
#[local] Open Scope Z_scope.

Implicit Types (s : WalletStore) (n m h : StoredNote) (l : list StoredNote) (k : Hash256).

(** ** The order of the keys *)
Lemma key_lt_irrefl k : key_lt k k = false.
Proof. induction k as [|x k IH]; [done|]. cbn. by rewrite Z.ltb_irrefl, Z.eqb_refl, IH. Qed.

Lemma key_lt_trans a b c : key_lt a b = true → key_lt b c = true → key_lt a c = true.
Proof.
  revert b c. induction a as [|x a IH]; intros [|y b] [|z c]; cbn; try done.
  rewrite !orb_true_iff, !andb_true_iff, !Z.ltb_lt, !Z.eqb_eq. intros [?|[-> ?]] [?|[-> ?]]; [left; lia|left; lia|left; lia|].
  right. split; [done|]. by eapply IH.
Qed.

Lemma key_lt_total a b : a ≠ b → key_lt a b = false → key_lt b a = true.
Proof.
  revert b. induction a as [|x a IH]; intros [|y b]; cbn; try done.
  rewrite orb_false_iff, orb_true_iff, andb_false_iff, andb_true_iff, Z.ltb_ge, Z.ltb_lt, Z.eqb_eq, Z.eqb_neq.
  intros Hne [Hle Hk]. destruct (Z.eq_dec x y) as [->|Hxy]; [right|left; lia].
  split; [done|]. apply IH; [congruence|]. destruct Hk as [?|?]; done.
Qed.

(** ** One row per nullifier *)
(** The note that stands for [k] in a list with one note per nullifier. *)
Definition held_for k l : option StoredNote := snd <$> list_find (λ n, sn_nullifier n = k) l.

Lemma held_for_cons k n l : held_for k (n :: l) = if decide (sn_nullifier n = k) then Some n else held_for k l.
Proof.
  unfold held_for. cbn. destruct (decide (sn_nullifier n = k)); [done|]. by destruct (list_find _ l) as [[]|].
Qed.

Lemma held_for_Some k l n : held_for k l = Some n → n ∈ l ∧ sn_nullifier n = k.
Proof.
  unfold held_for. destruct (list_find _ l) as [[i m]|] eqn:Hf; [|done]. cbn. intros [= ->].
  apply list_find_Some in Hf as (Hi & Hk & _). split; [by eapply list_elem_of_lookup_2|done].
Qed.

Lemma held_for_elem l n : NoDup (sn_nullifier <$> l) → n ∈ l → held_for (sn_nullifier n) l = Some n.
Proof.
  induction l as [|m l IH]; [by intros _ ?%not_elem_of_nil|]. rewrite fmap_cons, NoDup_cons. intros [Hm Hnd] Hn.
  rewrite held_for_cons. apply elem_of_cons in Hn as [->|Hn]; [by rewrite decide_True|].
  rewrite decide_False; [by apply IH|]. intros He. apply Hm. rewrite He. by apply list_elem_of_fmap_2.
Qed.

(** The winner of a run of candidates, the first one held until it is
    outranked. *)
Definition champion (R : StoredNote → StoredNote → bool) (acc : option StoredNote) n : option StoredNote :=
  Some match acc with Some h => if R n h then n else h | None => n end.
Definition winner (R : StoredNote → StoredNote → bool) k l : option StoredNote :=
  foldl (champion R) None (base.filter (λ n, sn_nullifier n = k) l).

Definition keys_sorted l : Prop := StronglySorted (λ a b, key_lt (sn_nullifier a) (sn_nullifier b) = true) l.

Lemma best_entry_keys n l m : m ∈ best_entry n l → m = n ∨ m ∈ l.
Proof.
  induction l as [|h l IH]; cbn [best_entry]; [rewrite list_elem_of_singleton; auto|].
  repeat case_match; rewrite ?elem_of_cons; naive_solver.
Qed.

Lemma best_entry_sorted n l : keys_sorted l → keys_sorted (best_entry n l).
Proof.
  induction 1 as [|h l Hl IH Hh]; cbn [best_entry]; [by repeat constructor|].
  destruct (bool_decide_reflect (sn_nullifier n = sn_nullifier h)) as [He|Hne].
  { constructor; [done|]. destruct (outranks n h); [|done]. by rewrite He. }
  destruct (key_lt (sn_nullifier n) (sn_nullifier h)) eqn:Hlt.
  - constructor; [by constructor|]. constructor; [done|]. eapply Forall_impl; [exact Hh|].
    intros m Hm. by eapply key_lt_trans.
  - constructor; [done|]. apply Forall_forall. intros m [->|Hm]%best_entry_keys.
    + by apply key_lt_total.
    + rewrite Forall_forall in Hh. by apply Hh.
Qed.

Lemma sorted_absent k l : keys_sorted l → Forall (λ m, key_lt k (sn_nullifier m) = true) l → held_for k l = None.
Proof.
  intros _ Hf. destruct (held_for k l) as [m|] eqn:Hm; [|done]. apply held_for_Some in Hm as [Hm <-].
  rewrite Forall_forall in Hf. specialize (Hf m Hm). by rewrite key_lt_irrefl in Hf.
Qed.

Lemma best_entry_held n l k :
  keys_sorted l →
  held_for k (best_entry n l) = if decide (sn_nullifier n = k) then champion outranks (held_for k l) n else held_for k l.
Proof.
  induction 1 as [|h l Hl IH Hh]; cbn [best_entry].
  { rewrite held_for_cons. done. }
  rewrite (held_for_cons k h). destruct (bool_decide_reflect (sn_nullifier n = sn_nullifier h)) as [He|Hne].
  - rewrite held_for_cons, <- He. destruct (outranks n h) eqn:Ho; rewrite <- ?He;
      destruct (decide (sn_nullifier n = k)); try done; unfold champion; by rewrite Ho.
  - destruct (key_lt (sn_nullifier n) (sn_nullifier h)) eqn:Hlt.
    + rewrite !held_for_cons. destruct (decide (sn_nullifier n = k)) as [<-|]; [|done].
      rewrite decide_False by done. rewrite sorted_absent; [done|done|].
      eapply Forall_impl; [exact Hh|]. intros m Hm. by eapply key_lt_trans.
    + rewrite held_for_cons, IH. destruct (decide (sn_nullifier n = k)) as [<-|]; [|done].
      by rewrite !decide_False by congruence.
Qed.

Lemma foldl_best l acc :
  keys_sorted acc →
  keys_sorted (foldl (λ best n, best_entry n best) acc l) ∧
  ∀ k, held_for k (foldl (λ best n, best_entry n best) acc l) =
       foldl (champion outranks) (held_for k acc) (base.filter (λ n, sn_nullifier n = k) l).
Proof.
  revert acc. induction l as [|n l IH]; intros acc Hacc; [done|]. cbn [foldl].
  destruct (IH _ (best_entry_sorted n acc Hacc)) as [Hs Hk]. split; [done|]. intros k.
  rewrite Hk, best_entry_held by done. rewrite filter_cons. by destruct (decide (sn_nullifier n = k)).
Qed.

Lemma spendable_held s k : held_for k (spendable s) = winner outranks k (unspent s).
Proof. destruct (foldl_best (unspent s) []) as [_ Hk]; [constructor|]. apply Hk. Qed.

Lemma keys_sorted_NoDup l : keys_sorted l → NoDup (sn_nullifier <$> l).
Proof.
  induction 1 as [|n l Hl IH Hn]; cbn; [constructor|]. constructor; [|done].
  intros (m & He & Hm)%list_elem_of_fmap. rewrite Forall_forall in Hn. specialize (Hn m Hm). by rewrite He, key_lt_irrefl in Hn.
Qed.
Lemma spendable_NoDup s : NoDup (sn_nullifier <$> spendable s).
Proof. destruct (foldl_best (unspent s) []) as [Hs _]; [constructor|]. by apply keys_sorted_NoDup. Qed.

(** The winner is a candidate, and no candidate outranks it. *)
Definition at_least m n : Prop := sn_value n < sn_value m ∨ (sn_value n = sn_value m ∧ sn_leaf_index m ≤ sn_leaf_index n).
Lemma outranks_spec n h : outranks n h = true ↔ ¬ at_least h n.
Proof. unfold outranks, at_least. rewrite orb_true_iff, andb_true_iff, Z.eqb_eq, !Z.ltb_lt. lia. Qed.

Lemma champions l acc w :
  foldl (champion outranks) acc l = Some w →
  (Some w = acc ∨ w ∈ l) ∧ (∀ h, acc = Some h → at_least w h) ∧ (∀ n, n ∈ l → at_least w n).
Proof.
  revert acc w. induction l as [|n l IH]; intros acc w; cbn [foldl].
  { intros ->. split_and!; [by left| |by intros ? ?%not_elem_of_nil]. intros h [= ->]. right. lia. }
  intros Hw. destruct (IH _ _ Hw) as (Hin & Hacc & Hl). unfold champion in *.
  destruct acc as [h|].
  - specialize (Hacc _ eq_refl). destruct (outranks n h) eqn:Ho.
    + apply outranks_spec in Ho. split_and!.
      * right. destruct Hin as [[= ->]|?]; [by left|by right].
      * intros ? [= ->]. unfold at_least in *. lia.
      * intros x [->|Hx]%elem_of_cons; auto.
    + assert (Hn : at_least h n) by (destruct (decide (at_least h n)) as [|Hn]; [done|]; apply outranks_spec in Hn; congruence).
      split_and!; [destruct Hin as [?|?]; [by left|right; by right]|intros ? [= ->]; done|].
      intros x [->|Hx]%elem_of_cons; [unfold at_least in *; lia|auto].
  - specialize (Hacc _ eq_refl). split_and!; [right; destruct Hin as [[= ->]|?]; [by left|by right]|done|].
    intros x [->|Hx]%elem_of_cons; auto.
Qed.

Lemma winner_exists R l acc : (is_Some acc ∨ l ≠ []) → is_Some (foldl (champion R) acc l).
Proof.
  revert acc. induction l as [|n l IH]; intros acc [Ha|Hl]; cbn [foldl]; [done|done| |]; apply IH; left; by eexists.
Qed.

Lemma spendable_sub s n : n ∈ spendable s → n ∈ ws_notes s ∧ usable n = true.
Proof.
  intros Hn. apply (held_for_elem _ _ (spendable_NoDup s)) in Hn. rewrite spendable_held in Hn.
  apply champions in Hn as ([?|Hin] & _); [done|]. apply list_elem_of_filter in Hin as [_ Hin].
  apply list_elem_of_filter in Hin as [? ?]. done.
Qed.

(** A balance counts one note per nullifier. The spendable notes are
    usable notes with pairwise distinct nullifiers, and every usable note is
    represented by one that is worth at least as much (ties to the lower
    leaf), so no conflict set is counted twice and none is dropped. *)
Theorem spendable_is_one_best_note_per_nullifier s :
  NoDup (sn_nullifier <$> spendable s) ∧
  (∀ n, n ∈ spendable s → n ∈ ws_notes s ∧ usable n = true) ∧
  (∀ n, n ∈ ws_notes s → usable n = true →
     ∃ m, m ∈ spendable s ∧ sn_nullifier m = sn_nullifier n ∧ at_least m n).
Proof.
  split_and!; [apply spendable_NoDup|apply spendable_sub|].
  - intros n Hn Hu. destruct (winner_exists outranks (base.filter (λ m, sn_nullifier m = sn_nullifier n) (unspent s)) None) as [w Hw].
    { right. intros He. assert (Hmem : n ∈ base.filter (λ m, sn_nullifier m = sn_nullifier n) (unspent s)).
      { apply list_elem_of_filter. split; [done|]. by apply list_elem_of_filter. }
      rewrite He in Hmem. by apply not_elem_of_nil in Hmem. }
    apply champions in Hw as Hch. destruct Hch as (_ & _ & Hall).
    fold (winner outranks (sn_nullifier n) (unspent s)) in Hw. rewrite <- spendable_held in Hw.
    apply held_for_Some in Hw as [Hw Hk]. exists w. split_and!; [done|done|]. apply Hall.
    apply list_elem_of_filter. split; [done|]. by apply list_elem_of_filter.
Qed.

(** ** The table of [balance] *)
Lemma collapse_entry_held n (rs : list (StoredNote * nat)) k :
  held_for k (collapse_entry n rs).*1 =
  if decide (sn_nullifier n = k) then champion outranks_for_display (held_for k rs.*1) n else held_for k rs.*1.
Proof.
  induction rs as [|[h c] rs IH]; cbn [collapse_entry].
  { rewrite !fmap_cons, held_for_cons. done. }
  destruct (bool_decide_reflect (sn_nullifier n = sn_nullifier h)) as [He|Hne]; rewrite !fmap_cons; cbn [fst].
  - rewrite !held_for_cons, <- He. destruct (outranks_for_display n h) eqn:Ho; rewrite <- ?He;
      destruct (decide (sn_nullifier n = k)); try done; unfold champion; by rewrite Ho.
  - rewrite !held_for_cons, IH. destruct (decide (sn_nullifier n = k)) as [<-|]; [|done].
    by rewrite !decide_False by congruence.
Qed.

Lemma collapse_entry_keys n (rs : list (StoredNote * nat)) k :
  k ∈ sn_nullifier <$> (collapse_entry n rs).*1 → k = sn_nullifier n ∨ k ∈ sn_nullifier <$> rs.*1.
Proof.
  induction rs as [|[h c] rs IH]; cbn [collapse_entry]; [intros ?%list_elem_of_singleton; auto|].
  destruct (bool_decide_reflect (sn_nullifier n = sn_nullifier h)) as [He|Hne]; rewrite !fmap_cons, !elem_of_cons; cbn [fst].
  - destruct (outranks_for_display n h); rewrite ?He; auto.
  - naive_solver.
Qed.

Lemma collapse_entry_NoDup n (rs : list (StoredNote * nat)) :
  NoDup (sn_nullifier <$> rs.*1) → NoDup (sn_nullifier <$> (collapse_entry n rs).*1).
Proof.
  induction rs as [|[h c] rs IH]; cbn [collapse_entry]; [intros _; apply NoDup_singleton|].
  rewrite !fmap_cons, NoDup_cons. intros [Hh Hnd].
  destruct (bool_decide_reflect (sn_nullifier n = sn_nullifier h)) as [He|Hne]; rewrite !fmap_cons, NoDup_cons; cbn [fst] in *.
  - split; [|done]. destruct (outranks_for_display n h); by rewrite ?He.
  - split; [|by apply IH]. intros [He|?]%collapse_entry_keys; [by symmetry in He|done].
Qed.

Lemma foldl_collapse l acc :
  NoDup (sn_nullifier <$> acc.*1) →
  NoDup (sn_nullifier <$> (foldl (λ rs n, collapse_entry n rs) acc l).*1) ∧
  (∀ k, held_for k (foldl (λ rs n, collapse_entry n rs) acc l).*1 =
        foldl (champion outranks_for_display) (held_for k acc.*1) (base.filter (λ n, sn_nullifier n = k) l)) ∧
  sum_list (foldl (λ rs n, collapse_entry n rs) acc l).*2 = (sum_list acc.*2 + length l)%nat.
Proof.
  revert acc. induction l as [|n l IH]; intros acc Hacc; [split_and!; [done|done|cbn; lia]|]. cbn [foldl].
  destruct (IH _ (collapse_entry_NoDup n acc Hacc)) as (Hs & Hk & Hc). split_and!; [done| |].
  - intros k. rewrite Hk, collapse_entry_held, filter_cons. by destruct (decide (sn_nullifier n = k)).
  - rewrite Hc. cbn [length]. clear. induction acc as [|[h c] acc IH]; cbn [collapse_entry]; [done|].
    destruct (bool_decide_reflect (sn_nullifier n = sn_nullifier h)); rewrite !fmap_cons; cbn [sum_list sum_list_with snd id] in *; unfold id in *; lia.
Qed.

Lemma collapse_held s k : held_for k (rows s).*1 = winner outranks_for_display k (ws_notes s).
Proof. destruct (foldl_collapse (ws_notes s) []) as (_ & Hk & _); [constructor|]. apply Hk. Qed.

(** A usable candidate wins over one that is not, and among usable ones the
    order is the one a spend uses. *)
Lemma display_winner l :
  let shown := foldl (champion outranks_for_display) None l in
  let spent_on := foldl (champion outranks) None (base.filter (λ n, usable n = true) l) in
  match spent_on with
  | Some w => shown = Some w ∧ usable w = true
  | None => ∀ w, shown = Some w → usable w = false
  end.
Proof.
  cbn zeta. induction l as [|n l IH] using rev_ind; [done|].
  rewrite filter_app, !foldl_app, filter_cons, filter_nil. cbn [foldl].
  destruct (foldl (champion outranks) None _) as [w|].
  - destruct IH as [-> Hw]. unfold champion at 2. unfold outranks_for_display. rewrite Hw. destruct (usable n) eqn:Hu.
    + rewrite decide_True by done. cbn [foldl champion]. split; [done|]. by destruct (outranks n w).
    + rewrite decide_False by done. done.
  - destruct (usable n) eqn:Hu.
    + rewrite decide_True by done. cbn [foldl]. unfold champion. split; [|done].
      destruct (foldl _ None l) as [w|]; [|done]. unfold outranks_for_display. rewrite Hu, (IH w eq_refl). done.
    + rewrite decide_False by done. cbn [foldl]. unfold champion. intros w [= <-].
      destruct (foldl _ None l) as [w|]; [|done]. by destruct (outranks_for_display n w); [|apply IH].
Qed.

Lemma winner_shown s k n :
  usable n = true → winner outranks_for_display k (ws_notes s) = Some n ↔ winner outranks k (unspent s) = Some n.
Proof.
  intros Hu. unfold winner, unspent.
  assert (Hcomm : base.filter (λ m, sn_nullifier m = k) (base.filter (λ m, usable m = true) (ws_notes s)) =
                  base.filter (λ m, usable m = true) (base.filter (λ m, sn_nullifier m = k) (ws_notes s))).
  { rewrite !list_filter_filter. apply list_filter_iff. intros m. tauto. }
  rewrite Hcomm. pose proof (display_winner (base.filter (λ m, sn_nullifier m = k) (ws_notes s))) as Hd. cbn zeta in Hd.
  destruct (foldl (champion outranks) None _) as [w|].
  - destruct Hd as [-> _]. done.
  - split; [|done]. intros Hw. apply Hd in Hw. congruence.
Qed.

(** The table agrees with the balance. [balance] prints one row per
    nullifier, every held note is a member of exactly one row, and the rows
    whose note can be spent are exactly the notes the balance sums and a
    spend selects from. *)
Theorem table_agrees_with_the_balance s :
  NoDup (sn_nullifier <$> (rows s).*1) ∧
  sum_list (rows s).*2 = length (ws_notes s) ∧
  base.filter (λ n, usable n = true) (rows s).*1 ≡ₚ spendable s.
Proof.
  destruct (foldl_collapse (ws_notes s) []) as (Hnd & _ & Hsum); [constructor|].
  change (foldl _ [] (ws_notes s)) with (rows s) in Hnd, Hsum. split_and!; [done|exact Hsum|].
  apply NoDup_Permutation.
  - apply NoDup_filter. by eapply NoDup_fmap_1.
  - eapply NoDup_fmap_1, spendable_NoDup.
  - intros n. rewrite list_elem_of_filter. split.
    + intros [Hu Hn]. apply (held_for_elem _ _ Hnd) in Hn. rewrite collapse_held in Hn.
      apply winner_shown in Hn; [|done]. rewrite <- spendable_held in Hn. by apply held_for_Some in Hn as [? _].
    + intros Hn. apply (held_for_elem _ _ (spendable_NoDup s)) in Hn. rewrite spendable_held in Hn.
      assert (Hu : usable n = true).
      { apply champions in Hn as ([?|Hin] & _); [done|]. apply list_elem_of_filter in Hin as [_ Hin].
        by apply list_elem_of_filter in Hin as [? _]. }
      split; [done|]. apply winner_shown in Hn; [|done]. rewrite <- collapse_held in Hn.
      by apply held_for_Some in Hn as [? _].
Qed.
