(* ===== verification/WalletChain.v ===== *)
(** * Reading a node

    [crates/qnero-wallet/src/chain.rs]: what the wallet makes of a node's
    answers. The node is the parameter [Node]: one answer per question, where
    [None] is a request that failed or JSON that does not decode. Storage
    reads arrive authenticated against the state root of the block they are
    pinned to ([rpc.rs], [qnero-state-proof]). Paging changes nothing but the
    number of requests, so a paged read is a read per item here. *)

From stdpp Require Import base option numbers list gmap.
From S2P Require Import Prelude Crypto NoteRules Header CircuitMerkle WalletTyping WalletExtrinsic.
#[local] Open Scope Z_scope.
Import CircuitHeader.

(** A header as [chain_getHeader] returns it, its hex strings read. *)
Record RawHeader := {
  rh_parent_hash : list Z;
  rh_number : Z;
  rh_state_root : list Z;
  rh_extrinsics_root : list Z;
  rh_zk_tree_root : list Z;
  rh_logs : list (list Z);
}.

(** The storage items a scan reads. *)
Inductive StorageKey := KLeafCount | KEntryCount | KLeaves (i : Z) | KLeafBlocks (i : Z) | KCoinbaseValues (i : Z).

Record Node := {
  (** [chain_getHeader] of the best block, and by hash. *)
  nd_best : option RawHeader;
  nd_header : Hash256 → option RawHeader;
  (** [chain_getBlockHash]: [Some None] where the node has no block. *)
  nd_block_hash : Z → option (option (list Z));
  nd_storage : Hash256 → StorageKey → option (option (list Z));
  (** The entries under the prefix of [Shielded::UsedNullifiers]. *)
  nd_nullifiers : Hash256 → option (list (list Z * list Z));
  (** [chain_getBlock]: [Some None] where it serves no body. *)
  nd_body : Hash256 → option (option (list (list Z)));
}.

Record ChainHead := { hd_number : Z; hd_hash : Hash256 }.

Inductive ChainError :=
| RpcFailed
| NotAHash
| NoBlockAt (number : Z)
| BadDigest
| BadHeader (e : HeaderError)
| WalkUpsideDown
| WalkTooLong (span : Z)
| WrongNumber (number : Z)
| WrongHash (number : Z)
| WrongParent (number : Z)
| BadWidth
| AboveCapacity (count : Z)
| WithheldLeaf (index : Z)
| WithheldBlock (index : Z)
| PaddingLeaf (index : Z)
| NotCanonical (index : Z)
| BadNullifierKey
| WithheldBody (number : Z)
| BodyTooLarge (number : Z)
| UnrootableBody (number : Z)
| WrongBody (number : Z)
| UnwalkableExtrinsic (e : ExtrinsicError).

Definition HEADER_WALK_LIMIT : Z := 1024.
Definition LEAF_BATCH : Z := 64.
Definition PRE_RUNTIME_VARIANT : Z := 6.
Definition POW_ENGINE_ID : list Z := [112; 111; 119; 95].
Definition MAX_BODY_EXTRINSICS : Z := 65536.
Definition MAX_BODY_BYTES : Z := 6 * 1024 * 1024.
Definition tree_capacity : Z := sat_pow 64 4 MAX_TREE_DEPTH.

(** [decode_hash]: 32 bytes. *)
Definition decode_hash (bytes : list Z) : result ChainError Hash256 :=
  _ ← ensure (length bytes =? 32)%nat NotAHash; Ok bytes.

Fixpoint map_result {E A B} (f : A → result E B) (l : list A) : result E (list B) :=
  match l with
  | [] => Ok []
  | x :: l' => y ← f x; ys ← map_result f l'; Ok (y :: ys)
  end.

(** [<&[u8]>::strip_prefix]. *)
Fixpoint strip_prefix (p l : list Z) : option (list Z) :=
  match p, l with
  | [], _ => Some l
  | x :: p, y :: l => if x =? y then strip_prefix p l else None
  | _ :: _, [] => None
  end.

(** What the scan trusts of a body: its trie root ([qnero_state_proof]), and
    the 16-byte hash of a map key. *)
Class BodyOps := {
  extrinsics_root_of : list (list Z) → option Hash256;
  blake2_128 : list Z → list Z;
  nullifier_prefix : list Z;
}.

Section Chain.
Context `{HeaderCodec, ScaleCompact, BodyOps}.
Abbreviation M := (result ChainError).
Implicit Types (nd : Node) (raw : RawHeader).

(** ** Headers *)
Definition digest_bytes raw : list Z := digest_padded (compact_len (length (rh_logs raw)) ++ concat (rh_logs raw)).

(** [Vec::<u8>::decode] of a cursor, with what it leaves. *)
Definition decode_vec (cursor : list Z) : option (list Z * list Z) :=
  '(len, rest) ← decode_compact_u64 cursor;
  if (len <? 2 ^ 32) && (len <=? Z.of_nat (length rest))
  then Some (take (Z.to_nat len) rest, drop (Z.to_nat len) rest) else None.

Definition label_of_log (log : list Z) : option Hash256 :=
  rest ← strip_prefix [PRE_RUNTIME_VARIANT] log;
  rest ← strip_prefix POW_ENGINE_ID rest;
  '(payload, cursor) ← decode_vec rest;
  if bool_decide (cursor = []) && (length payload =? 32)%nat then Some payload else None.
Fixpoint first_label (logs : list (list Z)) : option Hash256 :=
  match logs with
  | [] => None
  | log :: logs => match label_of_log log with Some l => Some l | None => first_label logs end
  end.
Definition author_label raw : option Hash256 := first_label (rh_logs raw).

Definition to_header_inputs raw : M HeaderInputs :=
  parent ← decode_hash (rh_parent_hash raw);
  parent ← ok_or (bytes_to_digest parent) BadDigest;
  zk ← decode_hash (rh_zk_tree_root raw);
  zk ← ok_or (bytes_to_digest zk) BadDigest;
  state ← decode_hash (rh_state_root raw);
  ext ← decode_hash (rh_extrinsics_root raw);
  map_err BadHeader (new parent (rh_number raw) state ext zk (digest_bytes raw)).

Definition block_hash_at_height nd (number : Z) : M (option Hash256) :=
  answer ← ok_or (nd_block_hash nd number) RpcFailed;
  match answer with Some h => h ← decode_hash h; Ok (Some h) | None => Ok None end.
Definition chain_block_hash nd (number : Z) : M Hash256 :=
  answer ← block_hash_at_height nd number;
  ok_or answer (NoBlockAt number).
Definition genesis_hash nd : M Hash256 := chain_block_hash nd 0.
Definition chain_head nd : M ChainHead :=
  raw ← ok_or (nd_best nd) RpcFailed;
  hash ← chain_block_hash nd (rh_number raw);
  Ok {| hd_number := rh_number raw; hd_hash := hash |}.

Definition anchor_header nd (number : Z) : M (HeaderInputs * Hash256) :=
  hash ← chain_block_hash nd number;
  raw ← ok_or (nd_header nd hash) RpcFailed;
  header ← to_header_inputs raw;
  _ ← ensure (bool_decide (block_hash header = hash)) (WrongHash number);
  Ok (header, hash).

(** The checks on the header answered for one height of the walk, below it
    the hash answered for the height below. *)
Definition verify_header (number : Z) (below : option Hash256) (hash : Hash256) raw : M VerifiedBlock :=
  _ ← ensure (rh_number raw =? number) (WrongNumber number);
  header ← to_header_inputs raw;
  _ ← ensure (bool_decide (block_hash header = hash)) (WrongHash number);
  parent ← decode_hash (rh_parent_hash raw);
  _ ← ensure (match below with Some h => bool_decide (parent = h) | None => true end) (WrongParent number);
  ext ← decode_hash (rh_extrinsics_root raw);
  zk ← decode_hash (rh_zk_tree_root raw);
  _ ← ensure (bool_decide (is_Some (bytes_to_digest zk))) BadDigest;
  Ok {| vb_number := number; vb_hash := hash; vb_parent_hash := parent; vb_extrinsics_root := ext;
        vb_zk_tree_root := zk; vb_author_label := author_label raw |}.
Fixpoint verify_headers (number : Z) (below : option Hash256) (l : list (Hash256 * RawHeader)) : M (list VerifiedBlock) :=
  match l with
  | [] => Ok []
  | (hash, raw) :: l =>
      b ← verify_header number below hash raw;
      bs ← verify_headers (number + 1) (Some hash) l;
      Ok (b :: bs)
  end.

(** The heights of the walk below its top. *)
Definition heights (anchor top : Z) : list Z := (λ i, anchor + Z.of_nat i) <$> seq 0 (Z.to_nat (top - anchor)).

Definition header_chain nd (head : ChainHead) (anchor : Z) : M (list VerifiedBlock) :=
  _ ← ensure (anchor <=? hd_number head) WalkUpsideDown;
  let span := hd_number head - anchor in
  _ ← ensure (span <=? HEADER_WALK_LIMIT) (WalkTooLong span);
  below ← map_result (chain_block_hash nd) (heights anchor (hd_number head));
  let hashes := below ++ [hd_hash head] in
  raws ← map_result (λ h, ok_or (nd_header nd h) RpcFailed) hashes;
  verify_headers anchor None (zip hashes raws).

(** ** State *)
Definition decode_exact (width : nat) (bytes : list Z) : M Z :=
  _ ← ensure (length bytes =? width)%nat BadWidth; Ok (le_val bytes).
Definition decode_u64_exact : list Z → M Z := decode_exact 8.
Definition decode_u32_exact : list Z → M Z := decode_exact 4.
Definition transpose {A B} (f : A → M B) (o : option A) : M (option B) :=
  match o with Some x => y ← f x; Ok (Some y) | None => Ok None end.

Definition leaf_count_at nd (at_ : Hash256) : M Z :=
  answer ← ok_or (nd_storage nd at_ KLeafCount) RpcFailed;
  match answer with
  | Some bytes =>
      count ← decode_u64_exact bytes;
      _ ← ensure (count <=? tree_capacity) (AboveCapacity count);
      Ok count
  | None => Ok 0
  end.
Definition entry_count_at nd (at_ : Hash256) : M Z :=
  answer ← ok_or (nd_storage nd at_ KEntryCount) RpcFailed;
  match answer with Some bytes => decode_u64_exact bytes | None => Ok 0 end.

(** The leaf hashes of [from..end_], padded above the count. *)
Definition leaf_hash nd (leaf_count : Z) (at_ : Hash256) (index : Z) : M Hash256 :=
  answer ← ok_or (nd_storage nd at_ (KLeaves index)) RpcFailed;
  match answer with
  | Some bytes =>
      h ← decode_hash bytes;
      _ ← ensure (canonical_limbs h) (NotCanonical index);
      _ ← ensure (negb ((index <? leaf_count) && bool_decide (h = CircuitMerkle.empty_digest))) (PaddingLeaf index);
      Ok h
  | None => if index <? leaf_count then Err (WithheldLeaf index) else Ok CircuitMerkle.empty_digest
  end.
Definition leaf_hashes nd (from end_ leaf_count : Z) (at_ : Hash256) : M (list Hash256) :=
  map_result (leaf_hash nd leaf_count at_) (heights from end_).

Definition nullifier_of_entry (acc : gset Hash256) (entry : list Z * list Z) : M (gset Hash256) :=
  let '(key, value) := entry in
  let skipped := (length nullifier_prefix + 16)%nat in
  _ ← ensure (skipped <=? length key)%nat BadNullifierKey;
  let raw := drop skipped key in
  _ ← ensure ((length raw =? 32)%nat && bool_decide (value = [])) BadNullifierKey;
  _ ← ensure (bool_decide (nullifier_prefix ++ blake2_128 raw ++ raw = key)) BadNullifierKey;
  Ok ({[raw]} ∪ acc).
Definition used_nullifiers_at nd (at_ : Hash256) : M (gset Hash256) :=
  entries ← ok_or (nd_nullifiers nd at_) RpcFailed;
  fold_result nullifier_of_entry ∅ entries.

Definition leaf_record nd (at_ : Hash256) (leaf_count index : Z) : M LeafRecord :=
  commitment ← ok_or (nd_storage nd at_ (KLeaves index)) RpcFailed;
  block ← ok_or (nd_storage nd at_ (KLeafBlocks index)) RpcFailed;
  value ← ok_or (nd_storage nd at_ (KCoinbaseValues index)) RpcFailed;
  let below_count := index <? leaf_count in
  _ ← ensure (negb (below_count && bool_decide (commitment = None))) (WithheldLeaf index);
  _ ← ensure (negb (below_count && bool_decide (block = None))) (WithheldBlock index);
  commitment ← transpose decode_hash commitment;
  _ ← ensure (negb (below_count && bool_decide (commitment = Some CircuitMerkle.empty_digest))) (PaddingLeaf index);
  block ← transpose decode_u32_exact block;
  value ← transpose decode_u64_exact value;
  Ok {| lr_index := index; lr_commitment := commitment; lr_block_number := block; lr_coinbase_value := value |}.
Definition leaf_window nd (from end_ : Z) (at_ : Hash256) (leaf_count : Z) : M (list LeafRecord) :=
  map_result (leaf_record nd at_ leaf_count) (heights from end_).

(** The records of a window up to the first one dated above [top]. *)
Fixpoint until_above (top : Z) (l : list LeafRecord) : list LeafRecord * bool :=
  match l with
  | [] => ([], false)
  | r :: l =>
      if match lr_block_number r with Some b => top <? b | None => false end then ([], true)
      else let '(kept, stopped) := until_above top l in (r :: kept, stopped)
  end.
(** The walk over the windows; [fuel] bounds it by the leaves there are. *)
Fixpoint leaf_windows (fuel : nat) nd (cursor leaf_count top : Z) (at_ : Hash256) : M (list LeafRecord) :=
  match fuel with
  | O => Ok []
  | S fuel =>
      if cursor <? leaf_count then
        let window_end := Z.min (cursor + LEAF_BATCH) leaf_count in
        window ← leaf_window nd cursor window_end at_ leaf_count;
        let '(kept, stopped) := until_above top window in
        if stopped then Ok kept
        else rest ← leaf_windows fuel nd window_end leaf_count top at_; Ok (kept ++ rest)
      else Ok []
  end.
Definition leaves_up_to_block nd (from leaf_count top : Z) (at_ : Hash256) : M (list LeafRecord) :=
  leaf_windows (Z.to_nat (leaf_count - from)) nd from leaf_count top at_.

(** ** Bodies *)
Definition authenticated_body nd (block : VerifiedBlock) : M (list (list Z)) :=
  let number := vb_number block in
  answer ← ok_or (nd_body nd (vb_hash block)) RpcFailed;
  body ← ok_or answer (WithheldBody number);
  _ ← ensure (Z.of_nat (length body) <=? MAX_BODY_EXTRINSICS) (BodyTooLarge number);
  (* Half the hex characters, the [0x] in front of each included. *)
  _ ← ensure (sum_by (λ x, Z.of_nat (length x) + 1) body <=? MAX_BODY_BYTES) (BodyTooLarge number);
  root ← ok_or (extrinsics_root_of body) (UnrootableBody number);
  _ ← ensure (bool_decide (root = vb_extrinsics_root block)) (WrongBody number);
  Ok body.

Definition chain_payloads (md : ChainMetadata) (body : list (list Z)) : M (list (list Z)) :=
  map_err UnwalkableExtrinsic (block_payloads md body).
End Chain.
