(* ===== verification/WalletChainProps.v ===== *)
(** * Properties of the reads

    The header walk is a hash chain its head determines, and a chunk's leaves
    are the next ones of the tree. *)

From stdpp Require Import base option numbers list gmap.
From S2P Require Import Prelude Crypto NoteRules Header CircuitMerkle WalletTyping WalletExtrinsic WalletChain.
#[local] Open Scope Z_scope.
Import CircuitHeader.

Lemma map_result_Ok {E A B} (f : A → result E B) l l' :
  map_result f l = Ok l' → Forall2 (λ x y, f x = Ok y) l l'.
Proof.
  revert l'. induction l as [|x l IH]; intros l'; cbn [map_result]; [by intros [= <-]|].
  intros Hr. res_inv. subst. constructor; auto.
Qed.

Section ChainProps.
Context `{HeaderCodec, ScaleCompact, BodyOps, !HeaderCodecLaws, !PoseidonLaws}.
Implicit Types (nd : Node) (raw : RawHeader) (b : VerifiedBlock) (bs : list VerifiedBlock).

(** ** The header walk *)
(** What one verified block says: it is read off a header that hashes to its
    name. *)
Definition read_off raw b : Prop :=
  ∃ header, to_header_inputs raw = Ok header ∧ block_hash header = vb_hash b ∧
    rh_number raw = vb_number b ∧ rh_parent_hash raw = vb_parent_hash b ∧
    rh_extrinsics_root raw = vb_extrinsics_root b ∧ rh_zk_tree_root raw = vb_zk_tree_root b ∧
    author_label raw = vb_author_label b.

(** Consecutive numbers, and each block names the one below as its parent. *)
Fixpoint hash_chain (number : Z) (below : option Hash256) bs : Prop :=
  match bs with
  | [] => True
  | b :: bs => vb_number b = number ∧ (∀ h, below = Some h → vb_parent_hash b = h) ∧
               hash_chain (number + 1) (Some (vb_hash b)) bs
  end.

Lemma decode_hash_Ok bytes h : decode_hash bytes = Ok h → bytes = h ∧ length h = 32%nat.
Proof. unfold decode_hash. intros Hd. res_inv. subst. apply Nat.eqb_eq in Hv. done. Qed.

Lemma verify_header_Ok number below hash raw b :
  verify_header number below hash raw = Ok b →
  read_off raw b ∧ vb_number b = number ∧ vb_hash b = hash ∧ (∀ h, below = Some h → vb_parent_hash b = h).
Proof.
  unfold verify_header. intros Hb. res_inv. subst b. cbn.
  repeat match goal with H : decode_hash _ = Ok _ |- _ => apply decode_hash_Ok in H as [? _] end.
  split_and!; [|done|done|].
  - exists v0. cbn. split_and!; auto.
  - intros h ->. by res_inv.
Qed.

Lemma verify_headers_Ok l : ∀ number below bs,
  verify_headers number below l = Ok bs →
  hash_chain number below bs ∧ Forall2 (λ hr b, vb_hash b = hr.1 ∧ read_off hr.2 b) l bs.
Proof.
  induction l as [|[hash raw] l IH]; intros number below bs; cbn [verify_headers]; [by intros [= <-]|].
  intros Hv. res_inv. subst bs.
  match goal with H : verify_header _ _ _ _ = Ok _ |- _ => apply verify_header_Ok in H as (Hr & Hn & Hh & Hp) end.
  match goal with H : verify_headers _ _ _ = Ok _ |- _ => apply IH in H as [Hc Hf] end.
  split; [|by constructor]. cbn. split_and!; [done|done|]. by rewrite Hh.
Qed.

(** A walk's blocks: a hash chain from the anchor to the head, each read off
    the header the node serves under its hash. *)
Lemma header_chain_Ok nd head anchor bs :
  header_chain nd head anchor = Ok bs →
  hash_chain anchor None bs ∧ Forall (λ b, ∃ raw, nd_header nd (vb_hash b) = Some raw ∧ read_off raw b) bs ∧
  anchor ≤ hd_number head ≤ anchor + HEADER_WALK_LIMIT ∧
  length bs = S (Z.to_nat (hd_number head - anchor)) ∧ (vb_hash <$> last bs) = Some (hd_hash head).
Proof.
  unfold header_chain. intros Hh. res_inv.
  repeat match goal with H : map_result _ _ = Ok _ |- _ => apply map_result_Ok in H end.
  match goal with H : verify_headers _ _ _ = Ok _ |- _ => apply verify_headers_Ok in H as [Hc Hf] end.
  match goal with H : Forall2 (λ x y, chain_block_hash nd x = Ok y) _ ?l |- _ => rename H into Hbelow; set (below := l) in * end.
  match goal with H : Forall2 (λ x y, ok_or (nd_header nd x) _ = Ok y) _ ?l |- _ => rename H into Hraws; set (raws := l) in * end.
  pose proof (Forall2_length _ _ _ Hbelow) as L1. unfold heights in L1. rewrite length_fmap, length_seq in L1.
  pose proof (Forall2_length _ _ _ Hraws) as L2. rewrite length_app in L2. cbn in L2.
  pose proof (Forall2_length _ _ _ Hf) as L3. rewrite length_zip, length_app in L3. cbn in L3.
  split_and!; [done| |lia|lia|lia|].
  - apply Forall_lookup. intros i b Hb. destruct (Forall2_lookup_r _ _ _ _ _ Hf Hb) as ([h raw] & Hz & Hh & Hr).
    cbn in *. apply lookup_zip_Some in Hz as [Hi Hri]. subst h. exists raw. split; [|done].
    destruct (Forall2_lookup_l _ _ _ _ _ Hraws Hi) as (raw' & Hr' & Ho). apply ok_or_Ok in Ho. congruence.
  - destruct (lookup_lt_is_Some_2 bs (length below)) as [b Hb]; [lia|].
    rewrite last_lookup. replace (pred (length bs)) with (length below) by lia. rewrite Hb. cbn.
    destruct (Forall2_lookup_r _ _ _ _ _ Hf Hb) as ([h raw] & Hz & Hh & _). apply lookup_zip_Some in Hz as [Hi _].
    rewrite lookup_app_r, Nat.sub_diag in Hi by lia. cbn in *. congruence.
Qed.

(** ** The head determines the walk *)
(** The bytes of a node's headers, as their types say. *)
Definition node_bytes nd : Prop :=
  ∀ h raw, nd_header nd h = Some raw →
    Forall is_byte (rh_parent_hash raw) ∧ Forall is_byte (rh_zk_tree_root raw) ∧ in_u 32 (rh_number raw).

(** What a reader of the blocks [bs] hashes: the header preimage of each. *)
Definition header_pres nd (b : VerifiedBlock) : list (list felt) :=
  match nd_header nd (vb_hash b) with
  | Some raw => match to_header_inputs raw with Ok h => [preimage h] | Err _ => [] end
  | None => []
  end.
Definition walk_pres nd (bs : list VerifiedBlock) : list (list felt) := concat (header_pres nd <$> bs).
Lemma walk_pres_app nd bs bs' : walk_pres nd (bs ++ bs') = walk_pres nd bs ++ walk_pres nd bs'.
Proof. unfold walk_pres. by rewrite fmap_app, concat_app. Qed.

Lemma inputs_bind raw1 raw2 h1 h2 :
  to_header_inputs raw1 = Ok h1 → to_header_inputs raw2 = Ok h2 →
  Forall is_byte (rh_parent_hash raw1) → Forall is_byte (rh_parent_hash raw2) →
  Forall is_byte (rh_zk_tree_root raw1) → Forall is_byte (rh_zk_tree_root raw2) →
  block_hash h1 = block_hash h2 →
  collides [preimage h1; preimage h2] ∨ (rh_parent_hash raw1 = rh_parent_hash raw2 ∧ rh_zk_tree_root raw1 = rh_zk_tree_root raw2 ∧
                      digest_bytes raw1 = digest_bytes raw2).
Proof.
  intros E1 E2 Hp1 Hp2 Hz1 Hz2 Heq. unfold to_header_inputs, new in E1, E2. res_inv. subst h1 h2.
  repeat match goal with H : decode_hash _ = Ok _ |- _ => apply decode_hash_Ok in H as [? ?] end. subst.
  apply sponge_eq in Heq as [?|Hab]; [by left|right].
  unfold preimage in Hab. cbn [ci_parent_hash ci_block_number ci_state_root ci_extrinsics_root ci_zk_tree_root ci_digest] in Hab.
  assert (Hd : ∀ h fs, bytes_to_digest h = Some fs → length fs = 4%nat).
  { intros h fs Hfs. rewrite <- (lossy_strict _ _ Hfs). apply lossy_length. }
  apply app_inj_1 in Hab as [Hp Hab]; [|by erewrite !Hd].
  apply app_inj_1 in Hab as [_ Hab]; [|done].
  apply app_inj_1 in Hab as [_ Hab]; [|by rewrite !lossy_length].
  apply app_inj_1 in Hab as [_ Hab]; [|by rewrite !lossy_length].
  apply app_inj_1 in Hab as [Hz Hab]; [|by erewrite !Hd].
  apply bytes_to_felts_inj in Hab. subst. split_and!; [| |done].
  - eapply bytes_to_digest_inj; [by split|by split|eassumption|eassumption].
  - eapply bytes_to_digest_inj; [by split|by split|eassumption|eassumption].
Qed.
Lemma hash_chain_snoc bs b : ∀ number below,
  hash_chain number below (bs ++ [b]) →
  hash_chain number below bs ∧ vb_number b = number + Z.of_nat (length bs) ∧
  ∀ h, vb_hash <$> last bs = Some h ∨ (bs = [] ∧ below = Some h) → vb_parent_hash b = h.
Proof.
  induction bs as [|c bs IH]; intros number below; cbn [app hash_chain].
  { intros (Hn & Hp & _). split_and!; [done|cbn; lia|]. intros h [?|[_ ?]]; [done|by apply Hp]. }
  intros (Hn & Hp & Hc). apply IH in Hc as (Hc & Hb & Hl). split_and!; [done|done|done|cbn [length]; lia|].
  intros h [Hh|[? _]]; [|done]. apply Hl. destruct bs as [|d bs]; [right; by split|by left].
Qed.

(** The fields of two blocks that a hash binds. *)
Definition same_block (b1 b2 : VerifiedBlock) : Prop :=
  vb_number b1 = vb_number b2 ∧ vb_hash b1 = vb_hash b2 ∧ vb_parent_hash b1 = vb_parent_hash b2 ∧
  vb_zk_tree_root b1 = vb_zk_tree_root b2.
Definition served nd b : Prop := ∃ raw, nd_header nd (vb_hash b) = Some raw ∧ read_off raw b.

Lemma served_bind nd1 nd2 b1 b2 :
  node_bytes nd1 → node_bytes nd2 → served nd1 b1 → served nd2 b2 → vb_number b1 = vb_number b2 → vb_hash b1 = vb_hash b2 →
  collides (header_pres nd1 b1 ++ header_pres nd2 b2) ∨ same_block b1 b2.
Proof.
  intros Hn1 Hn2 (r1 & G1 & h1 & E1 & B1 & N1 & P1 & X1 & Z1 & A1) (r2 & G2 & h2 & E2 & B2 & N2 & P2 & X2 & Z2 & A2) Hn Hh.
  destruct (Hn1 _ _ G1) as (? & ? & _), (Hn2 _ _ G2) as (? & ? & _).
  destruct (inputs_bind r1 r2 h1 h2) as [?|(Hp & Hz & _)]; try done; [congruence|left; unfold header_pres; by rewrite G1, G2, E1, E2|right].
  unfold same_block. split_and!; congruence.
Qed.

Lemma walks_agree nd1 nd2 : node_bytes nd1 → node_bytes nd2 → ∀ bs1 bs2 number,
  hash_chain number None bs1 → hash_chain number None bs2 → Forall (served nd1) bs1 → Forall (served nd2) bs2 →
  length bs1 = length bs2 → vb_hash <$> last bs1 = vb_hash <$> last bs2 →
  collides (walk_pres nd1 bs1 ++ walk_pres nd2 bs2) ∨ Forall2 same_block bs1 bs2.
Proof.
  intros Hn1 Hn2. induction bs1 as [|b1 bs1 IH] using rev_ind; intros bs2 number C1 C2 S1 S2 Hl Hh.
  { right. symmetry in Hl. apply nil_length_inv in Hl as ->. constructor. }
  destruct bs2 as [|b2 bs2 _] using rev_ind; [rewrite length_app in Hl; cbn in Hl; lia|].
  rewrite !last_snoc in Hh. injection Hh as Hh. rewrite !length_app in Hl. cbn in Hl.
  apply hash_chain_snoc in C1 as (C1 & N1 & P1), C2 as (C2 & N2 & P2).
  apply Forall_app in S1 as [S1 Sb1], S2 as [S2 Sb2]. rewrite Forall_singleton in Sb1, Sb2.
  assert (Hnum : vb_number b1 = vb_number b2) by (rewrite N1, N2; f_equal; f_equal; lia).
  rewrite !walk_pres_app. change (walk_pres nd1 [b1]) with (header_pres nd1 b1 ++ []). change (walk_pres nd2 [b2]) with (header_pres nd2 b2 ++ []).
  destruct (served_bind nd1 nd2 b1 b2) as [?|Hb]; try done; [left; eapply collides_mono; [|done]; set_solver|].
  destruct (IH bs2 number) as [?|Hf]; try done; [lia| |left; eapply collides_mono; [|done]; set_solver|right; apply Forall2_app; [done|by constructor]].
  destruct Hb as (_ & _ & Hp & _). destruct (last bs1) as [p1|] eqn:L1, (last bs2) as [p2|] eqn:L2; try done.
  - cbn. rewrite <- (P1 (vb_hash p1)), <- (P2 (vb_hash p2)) by (by left). by rewrite Hp.
  - apply last_None in L2 as ->. destruct bs1; [done|cbn in Hl; lia].
  - apply last_None in L1 as ->. destruct bs2; [done|cbn in Hl; lia].
Qed.

(** C26: the head hash authenticates the whole walk. Two nodes that serve a
    header walk to the same head and from the same height serve the same
    blocks: the same hashes, parents and tree roots at every height, unless
    two of the header preimages hashed in the two walks are a collision of the
    sponge. Whatever it hashes, each walk is a gapless chain of at most
    [HEADER_WALK_LIMIT] links whose headers hash to their names. *)
Theorem walk_is_bound_by_its_head nd1 nd2 head anchor bs1 bs2
    (Hbytes1 : node_bytes nd1) (Hbytes2 : node_bytes nd2)
    (Hwalk1 : header_chain nd1 head anchor = Ok bs1) (Hwalk2 : header_chain nd2 head anchor = Ok bs2) :
  (collides (walk_pres nd1 bs1 ++ walk_pres nd2 bs2) ∨ Forall2 same_block bs1 bs2) ∧
  hash_chain anchor None bs1 ∧ Forall (served nd1) bs1 ∧
  Z.of_nat (length bs1) = hd_number head - anchor + 1 ∧ hd_number head - anchor ≤ HEADER_WALK_LIMIT.
Proof.
  apply header_chain_Ok in Hwalk1 as (C1 & S1 & Hr & L1 & H1'). apply header_chain_Ok in Hwalk2 as (C2 & S2 & _ & L2 & H2').
  split_and!; [|done|done|lia|lia].
  apply (walks_agree nd1 nd2 Hbytes1 Hbytes2 bs1 bs2 anchor); try done; [congruence|by rewrite H1', H2'].
Qed.
(** ** The leaves of a chunk *)
Definition dated_above (top : Z) (r : LeafRecord) : bool :=
  match lr_block_number r with Some b => top <? b | None => false end.

Lemma until_above_spec top l kept stopped :
  until_above top l = (kept, stopped) →
  kept `prefix_of` l ∧ Forall (λ r, dated_above top r = false) kept ∧ (stopped = false → kept = l).
Proof.
  revert kept stopped. induction l as [|r l IH]; intros kept stopped; cbn [until_above].
  { intros [= <- <-]. done. }
  fold (dated_above top r). destruct (dated_above top r) eqn:Hr.
  - intros [= <- <-]. split_and!; [apply prefix_nil|done|done].
  - destruct (until_above top l) as [k st] eqn:Hu. intros [= <- <-]. destruct (IH _ _ eq_refl) as (Hp & Hf & Hs).
    split_and!; [by apply prefix_cons|by constructor|]. intros Hst. by rewrite Hs.
Qed.

Lemma heights_lookup from end_ i : (i < Z.to_nat (end_ - from))%nat → heights from end_ !! i = Some (from + Z.of_nat i).
Proof. intros Hi. unfold heights. rewrite list_lookup_fmap, lookup_seq_lt by done. done. Qed.

(** What a chunk reads: the next leaves, in order, up to the chunk's top. *)
Definition next_leaves nd (at_ : Hash256) (leaf_count from top : Z) (rs : list LeafRecord) : Prop :=
  from + Z.of_nat (length rs) ≤ Z.max from leaf_count ∧
  ∀ i r, rs !! i = Some r → leaf_record nd at_ leaf_count (from + Z.of_nat i) = Ok r ∧ dated_above top r = false.

Lemma leaf_window_spec nd from end_ at_ leaf_count rs :
  leaf_window nd from end_ at_ leaf_count = Ok rs →
  length rs = Z.to_nat (end_ - from) ∧
  ∀ i r, rs !! i = Some r → leaf_record nd at_ leaf_count (from + Z.of_nat i) = Ok r.
Proof.
  unfold leaf_window. intros Hw. apply map_result_Ok in Hw. pose proof (Forall2_length _ _ _ Hw) as Hl.
  unfold heights in Hl. rewrite length_fmap, length_seq in Hl. split; [done|]. intros i r Hr.
  destruct (Forall2_lookup_r _ _ _ _ _ Hw Hr) as (x & Hx & Hrec). apply lookup_lt_Some in Hr.
  rewrite heights_lookup in Hx by lia. congruence.
Qed.

Lemma leaf_windows_spec fuel nd leaf_count top at_ : ∀ cursor rs,
  leaf_windows fuel nd cursor leaf_count top at_ = Ok rs → next_leaves nd at_ leaf_count cursor top rs.
Proof.
  induction fuel as [|fuel IH]; intros cursor rs; cbn [leaf_windows]; [intros [= <-]; split; [cbn; lia|done]|].
  destruct (Z.ltb_spec cursor leaf_count) as [Hlt|]; [|intros [= <-]; split; [cbn; lia|done]].
  intros Hr. apply bind_Ok in Hr as (window & Hw & Hr). apply leaf_window_spec in Hw as [Hlen Hw].
  destruct (until_above top window) as [kept stopped] eqn:Hu. apply until_above_spec in Hu as ([more Hpre] & Hk & Hs).
  set (e := Z.min (cursor + LEAF_BATCH) leaf_count) in *. unfold LEAF_BATCH in *.
  assert (Hkept : ∀ i r, kept !! i = Some r → leaf_record nd at_ leaf_count (cursor + Z.of_nat i) = Ok r ∧ dated_above top r = false).
  { intros i r Hi. split; [apply Hw; rewrite Hpre; by apply lookup_app_l_Some|]. rewrite Forall_lookup in Hk. eauto. }
  assert (Hkl : (length kept ≤ length window)%nat) by (rewrite Hpre, length_app; lia).
  destruct stopped.
  - injection Hr as <-. split; [lia|done].
  - res_inv. subst rs. specialize (Hs eq_refl) as ->. match goal with H : leaf_windows _ _ _ _ _ _ = Ok _ |- _ => apply IH in H as [Hl Hrest] end.
    split; [rewrite length_app; lia|]. intros i r Hi. apply lookup_app_Some in Hi as [Hi|[Hge Hi]]; [by apply Hkept|].
    apply Hrest in Hi as [Hi ?]. split; [|done]. replace (cursor + Z.of_nat i) with (e + Z.of_nat (i - length window)) by lia. done.
Qed.

Lemma leaf_record_Ok nd at_ leaf_count index r :
  leaf_record nd at_ leaf_count index = Ok r → index < leaf_count →
  lr_index r = index ∧ (∃ c, lr_commitment r = Some c ∧ c ≠ CircuitMerkle.empty_digest) ∧ is_Some (lr_block_number r).
Proof.
  unfold leaf_record. intros Hr Hlt. rewrite (proj2 (Z.ltb_lt _ _) Hlt) in Hr. cbn [andb] in Hr. res_inv. subst r. cbn.
  destruct v as [c|]; [|done]. destruct v0 as [bl|]; [|done]. cbn in *. res_inv. subst. split_and!; [done| |by eexists].
  eexists. split; [done|]. congruence.
Qed.
End ChainProps.

(** ** A concrete node *)
Module ToyChain.
Import ToyCrypto ToyHeader ScaleFormat.
#[export] Instance toy_body : BodyOps := {|
  extrinsics_root_of body := Some (sponge (concat body)); blake2_128 raw := take 16 raw; nullifier_prefix := [7; 7] |}.

Definition pre_runtime (l : list Z) : list Z := [6; 112; 111; 119; 95] ++ compact 32 ++ l.
Definition seal_log : list Z := [5; 112; 111; 119; 95] ++ compact 64 ++ replicate 64 0.
Definition honest_logs : list (list Z) := [pre_runtime label; seal_log].
Definition toy_header (parent : Hash256) (n : Z) (ext : Hash256) (logs : list (list Z)) : RawHeader :=
  {| rh_parent_hash := parent; rh_number := n; rh_state_root := zero_hash; rh_extrinsics_root := ext;
     rh_zk_tree_root := zero_hash; rh_logs := logs |}.
Definition hash_of (raw : RawHeader) : Hash256 :=
  match to_header_inputs raw with Ok i => block_hash i | Err _ => [] end.

(** The header's hash does not bind how its digest bytes are cut into logs:
    a node that moves the cut keeps the hash and serves the author label it
    likes. *)
Definition forged_label : Hash256 := replicate 32 66.
Definition forged_logs : list (list Z) := [pre_runtime label ++ seal_log; pre_runtime forged_label].
Example author_label_is_not_bound_by_the_hash :
  to_header_inputs (toy_header zero_hash 5 zero_hash forged_logs) = to_header_inputs (toy_header zero_hash 5 zero_hash honest_logs) ∧
  match to_header_inputs (toy_header zero_hash 5 zero_hash honest_logs) with Ok _ => True | Err _ => False end ∧
  author_label (toy_header zero_hash 5 zero_hash honest_logs) = Some label ∧
  author_label (toy_header zero_hash 5 zero_hash forged_logs) = Some forged_label.
Proof. repeat split; vm_compute; first [reflexivity|exact I]. Qed.

Definition header0 : RawHeader := toy_header zero_hash 0 zero_hash honest_logs.
Definition header1 : RawHeader := toy_header (hash_of header0) 1 zero_hash honest_logs.
Definition walk_node : Node := {|
  nd_best := Some header1;
  nd_header h := if bool_decide (h = hash_of header0) then Some header0
                 else if bool_decide (h = hash_of header1) then Some header1 else None;
  nd_block_hash n := Some (if n =? 0 then Some (hash_of header0) else if n =? 1 then Some (hash_of header1) else None);
  nd_storage _ _ := Some None;
  nd_nullifiers _ := Some [];
  nd_body _ := Some None |}.
Definition walk_head : ChainHead := {| hd_number := 1; hd_hash := hash_of header1 |}.
Definition walk_blocks : list VerifiedBlock := match header_chain walk_node walk_head 0 with Ok bs => bs | Err _ => [] end.

Lemma header_bytes raw : raw = header0 ∨ raw = header1 →
  Forall is_byte (rh_parent_hash raw) ∧ Forall is_byte (rh_zk_tree_root raw) ∧ in_u 32 (rh_number raw).
Proof.
  intros Hraw. split_and!.
  - destruct Hraw as [-> | ->]; [apply is_digest_zero|]. unfold header1. cbn [rh_parent_hash toy_header].
    unfold hash_of. destruct (to_header_inputs header0); [|constructor]. by apply digest_of_limbs_digest.
  - destruct Hraw as [-> | ->]; apply is_digest_zero.
  - destruct Hraw as [-> | ->]; split; cbn; lia.
Qed.
Lemma walk_node_bytes : node_bytes walk_node.
Proof.
  intros h raw. cbn [walk_node nd_header].
  destruct (bool_decide (h = hash_of header0)); [intros [= <-]; apply header_bytes; by left|].
  destruct (bool_decide (h = hash_of header1)); [intros [= <-]; apply header_bytes; by right|done].
Qed.

Lemma walk_Ok : header_chain walk_node walk_head 0 = Ok walk_blocks.
Proof. vm_compute. reflexivity. Qed.

Lemma walk_apart : ¬ collides (walk_pres walk_node walk_blocks ++ walk_pres walk_node walk_blocks).
Proof. intros Hc%collides_twice. revert Hc. apply no_collision, (bool_decide_unpack _). vm_compute. exact I. Qed.
Lemma walk_is_bound_by_its_head_witness :
  length walk_blocks = 2%nat ∧ Forall2 same_block walk_blocks walk_blocks ∧ hash_chain 0 None walk_blocks.
Proof.
  split; [vm_compute; reflexivity|].
  destruct (walk_is_bound_by_its_head walk_node walk_node walk_head 0 walk_blocks walk_blocks
    walk_node_bytes walk_node_bytes walk_Ok walk_Ok) as [[Hc|Hf] [Hh _]]; [destruct (walk_apart Hc)|exact (conj Hf Hh)].
Defined.
End ToyChain.
