(* ===== verification/WalletSync.v ===== *)
(** * A sync pass

    [crates/qnero-wallet/src/wallet.rs], [Wallet::sync_with] and what it
    calls: the gates on the node, the chunked header walk, the typing of the
    leaves, the two rules that find a note, and the commit of the pass. The
    wallet's keys are the parameter [WalletKeys]: what the note core derives
    and the ML-KEM opening of a payload. A pass that is refused ends the
    command with the file as it was, so the model returns a store only when
    the pass commits. A memo is kept as its bytes. *)

From stdpp Require Import base option numbers list gmap strings.
From S2P Require Import Prelude Crypto NoteRules Header CircuitMerkle WalletTyping WalletText WalletExtrinsic WalletChain WalletStore.
#[local] Open Scope Z_scope.
Import CircuitMerkle.

(** A note that opened, its memo and its commitment. *)
Record ReceivedNote := { rc_value : Z; rc_rho : Hash256; rc_r : Hash256; rc_memo : list Z; rc_commitment : Hash256 }.

Record WalletKeys := {
  (** [MinerKey::author_label] and [MinerKey::coinbase_note]. *)
  wk_author_label : Hash256 → Hash256;
  wk_coinbase_note : Hash256 → Z → Z → option ReceivedNote;
  (** [NoteCiphertext::from_bytes], then [decrypt_note]. *)
  wk_open : list Z → option ReceivedNote;
  (** [Note::nullifier] under the wallet's nullifier key. *)
  wk_nullifier : ReceivedNote → Hash256;
  (** [entry_rho], the rule of a shield's note. *)
  wk_entry_rho : Z → Z → Hash256;
}.

Inductive SyncError :=
| MetadataE (e : ExtrinsicError)
| StoreE (e : StoreError)
| ChainE (e : ChainError)
| TypingE (e : TypingError)
| MissingCheckpointBlock (number : Z)
| BehindThisWallet
| ShortTree (leaf_count watermark : Z)
| NoCheckpointAtWatermark (start : Z)
| BadCheckpointHash (number : Z)
| NoBlocksInWalk
| WalkLandsElsewhere (number : Z)
| HalvesDisagree (index : Z)
| Unaccounted (cursor leaf_count : Z)
| OutOfFuel.

Definition ENTRY_WALK_LIMIT : Z := 100000.

(** ** Where the node stands *)
Inductive NodeStance := Current | Forked (at_block next_leaf : Z).
Definition stance_watermark (stance : NodeStance) (held : Z) : Z :=
  match stance with Current => held | Forked _ next_leaf => next_leaf end.
Record ScanRewind := { rw_from : Z; rw_to : Z; rw_forked_at : option Z }.

(** What the report counts: one event per count. *)
Inductive SyncEvent :=
| LeafScanned | CoinbaseLeaf | LabelDisagreed | Relocated | NewRejection
| Received (coinbase : bool) (value : Z).

Record SyncReport := {
  rp_head_block : Z;
  rp_scanned_from : Z;
  rp_scanned_to : Z;
  rp_events : list SyncEvent;
  rp_rewind : option ScanRewind;
  rp_add_only : bool;
  rp_bypassed : bool;
  rp_rejected_cleared : Z;
  rp_reconciliation : SpentReconciliation;
  rp_vanished : Z;
  rp_entry_walk_truncated : option Z;
  rp_recorded_genesis : bool;
}.

Record Receipt := {
  rt_leaf_index : Z;
  rt_block_number : Z;
  rt_commitment : Hash256;
  rt_note : ReceivedNote;
  rt_from_coinbase : bool;
}.

(** What a chunk writes: the store, the commitments seen, the events. *)
Record Scan := { sn_store : WalletStore; sn_seen : gset Hash256; sn_events : list SyncEvent }.

(** The loop's state over the chunks. *)
Record Walk := {
  wl_scan : Scan;
  wl_frontier : option TreeFrontier;
  wl_cursor : Z;
  wl_block : Z;
  wl_hash : Hash256;
  wl_checkpoints : list SyncCheckpoint;
}.

Section Sync.
Context `{HeaderCodec, ScaleCompact, BodyOps}.
Abbreviation M := (result SyncError).
Implicit Types (nd : Node) (s : WalletStore) (keys : WalletKeys) (md : ChainMetadata) (head : ChainHead).

(** [read_node_stance]: the walk over the checkpoints, newest first. *)
Fixpoint stance_walk nd head (above forked : bool) (checkpoints : list SyncCheckpoint) : M NodeStance :=
  match checkpoints with
  | [] => if forked then Ok (Forked 0 0) else if above then Err BehindThisWallet else Ok Current
  | c :: rest =>
      if hd_number head <? cp_block_number c then stance_walk nd head true forked rest
      else
        answer ← map_err ChainE (block_hash_at_height nd (cp_block_number c));
        hash ← ok_or answer (MissingCheckpointBlock (cp_block_number c));
        if negb (bool_decide (hash = cp_block_hash c)) then stance_walk nd head above true rest
        else if forked then Ok (Forked (cp_block_number c) (cp_next_leaf c))
        else if above then Err BehindThisWallet
        else Ok Current
  end.
Definition read_node_stance nd head s : M NodeStance := stance_walk nd head false false (rev (ws_checkpoints s)).

Definition apply_stance (stance : NodeStance) (rescan : bool) s : WalletStore * option ScanRewind :=
  let from := ws_next_leaf s in
  if rescan then (rewind_to 0 0 s, Some {| rw_from := from; rw_to := 0; rw_forked_at := None |})
  else match stance with
       | Current => (s, None)
       | Forked at_block next_leaf =>
           (rewind_to at_block next_leaf s, Some {| rw_from := from; rw_to := next_leaf; rw_forked_at := Some at_block |})
       end.

(** ** Finding notes *)
Definition miner_view keys (genesis : Hash256) : MinerView :=
  {| mv_label := wk_author_label keys;
     mv_coinbase_commitment block value := rc_commitment <$> wk_coinbase_note keys genesis block value |}.

Definition receive_coinbase keys (genesis : Hash256) (block value : Z) (commitment : Hash256) : option ReceivedNote :=
  note ← wk_coinbase_note keys genesis block value;
  if bool_decide (rc_commitment note = commitment)
  then Some {| rc_value := rc_value note; rc_rho := rc_rho note; rc_r := rc_r note; rc_memo := []; rc_commitment := rc_commitment note |}
  else None.

(** The coinbase rule over the typed leaves. *)
Definition coinbase_step keys (genesis : Hash256) (acc : list Receipt * list SyncEvent) (leaf : TypedLeaf) :
    M (list Receipt * list SyncEvent) :=
  let '(received, events) := acc in
  match tl_kind leaf with
  | Transfer => Ok acc
  | Coinbase ours value label_disagrees =>
      let events := events ++ CoinbaseLeaf :: if label_disagrees then [LabelDisagreed] else [] in
      match receive_coinbase keys genesis (tl_block_number leaf) value (tl_commitment leaf) with
      | Some note =>
          Ok (received ++ [{| rt_leaf_index := tl_index leaf; rt_block_number := tl_block_number leaf;
                              rt_commitment := tl_commitment leaf; rt_note := note; rt_from_coinbase := true |}], events)
      | None => if ours then Err (HalvesDisagree (tl_index leaf)) else Ok (received, events)
      end
  end.

(** [index_chunk]: where a block holds a commitment, the first leaf winning. *)
Definition index_chunk (typed : list TypedLeaf) (block : Z) (commitment : Hash256) : option Z :=
  (λ p, tl_index p.2) <$> list_find (λ l, tl_block_number l = block ∧ tl_commitment l = commitment) typed.

(** The transfer rule over one payload. *)
Definition payload_step keys (typed : list TypedLeaf) (block : Z) (received : list Receipt) (payload : list Z) : list Receipt :=
  match wk_open keys payload with
  | None => received
  | Some note =>
      match index_chunk typed block (rc_commitment note) with
      | None => received
      | Some leaf_index =>
          received ++ [{| rt_leaf_index := leaf_index; rt_block_number := block; rt_commitment := rc_commitment note;
                          rt_note := note; rt_from_coinbase := false |}]
      end
  end.
Definition appended (typed : list TypedLeaf) (block : Z) : bool :=
  existsb (λ l, tl_block_number l =? block) typed.
Definition body_step nd md keys (typed : list TypedLeaf) (received : list Receipt) (block : VerifiedBlock) : M (list Receipt) :=
  if appended typed (vb_number block) then
    body ← map_err ChainE (authenticated_body nd block);
    payloads ← map_err ChainE (chain_payloads md body);
    Ok (foldl (payload_step keys typed (vb_number block)) received payloads)
  else Ok received.

(** [sort_by_key], which is stable. *)
Fixpoint insert_receipt (x : Receipt) (l : list Receipt) : list Receipt :=
  match l with
  | [] => [x]
  | y :: l' => if rt_leaf_index x <=? rt_leaf_index y then x :: l else y :: insert_receipt x l'
  end.
Definition sort_receipts (l : list Receipt) : list Receipt := foldr insert_receipt [] l.

Definition entry_rho_matches keys (block : Z) (rho : Hash256) (entries : Z) : bool :=
  existsb (λ i, bool_decide (wk_entry_rho keys block (Z.of_nat i) = rho)) (seq 0 (Z.to_nat (Z.min entries ENTRY_WALK_LIMIT))).

Definition SETTLED_REASON : string := "its nullifier is already settled on chain".

(** One receipt, written: the note is moved, refused or kept. [collect] says
    whether the orphan marking will read what was seen. *)
Definition record_receipt keys (entry_count : Z) (collect : bool) (sc : Scan) (rt : Receipt) : Scan :=
  let s := sn_store sc in
  let c := rt_commitment rt in
  let note := rt_note rt in
  let seen := if collect then {[c]} ∪ sn_seen sc else sn_seen sc in
  if has_commitment c s then
    let '(s, moved) := relocate_note c (rt_leaf_index rt) (Some (rt_block_number rt)) s in
    {| sn_store := s; sn_seen := seen; sn_events := sn_events sc ++ if moved then [Relocated] else [] |}
  else
    let nullifier := wk_nullifier keys note in
    if nullifier_settled nullifier s then
      let '(s, new) := record_rejected {| rn_leaf_index := rt_leaf_index rt; rn_commitment := c; rn_nullifier := nullifier;
                                          rn_value := rc_value note; rn_reason := SETTLED_REASON |} s in
      {| sn_store := s; sn_seen := sn_seen sc; sn_events := sn_events sc ++ if new then [NewRejection] else [] |}
    else
      let origin := if rt_from_coinbase rt then CoinbaseOrigin
                    else if entry_rho_matches keys (rt_block_number rt) (rc_rho note) entry_count then Shield else Spend in
      let stored := {| sn_leaf_index := rt_leaf_index rt; sn_block_number := Some (rt_block_number rt); sn_value := rc_value note;
                       sn_commitment := c; sn_nullifier := nullifier; sn_rho := rc_rho note; sn_r := rc_r note;
                       sn_memo := unpad_memo (rc_memo note); sn_origin := origin; sn_spent := false; sn_on_chain := true;
                       sn_spent_seen_at_block := None |} in
      let s := set_notes (ws_notes s ++ [stored]) s in
      let s := set_pending (base.filter (λ p, pn_commitment p ≠ c) (ws_pending s)) s in
      {| sn_store := s; sn_seen := seen; sn_events := sn_events sc ++ [Received (rt_from_coinbase rt) (rc_value note)] |}.

(** One chunk's notes, found and written in leaf order. *)
Definition scan_chunk nd md keys (genesis : Hash256) (entry_count : Z) (collect : bool)
    (blocks : list VerifiedBlock) (typed : list TypedLeaf) (sc : Scan) : M Scan :=
  '(coins, events) ← fold_result (coinbase_step keys genesis) ([], sn_events sc ++ replicate (length typed) LeafScanned) typed;
  received ← fold_result (body_step nd md keys typed) coins (tail blocks);
  Ok (foldl (record_receipt keys entry_count collect)
        {| sn_store := sn_store sc; sn_seen := sn_seen sc; sn_events := events |} (sort_receipts received)).

(** ** The walk *)
Definition complete_record (r : LeafRecord) : M unit :=
  _ ← ensure (bool_decide (is_Some (lr_commitment r))) (ChainE (WithheldLeaf (lr_index r)));
  ensure (bool_decide (is_Some (lr_block_number r))) (ChainE (WithheldBlock (lr_index r))).

Definition walk_step nd md keys (genesis : Hash256) head (start leaf_count entry_count : Z) (collect : bool) (w : Walk) : M Walk :=
  let top := Z.min (sat_add 32 (wl_block w) HEADER_WALK_LIMIT) (hd_number head) in
  top_hash ← (if top =? hd_number head then Ok (hd_hash head) else map_err ChainE (chain_block_hash nd top));
  blocks ← map_err ChainE (header_chain nd {| hd_number := top; hd_hash := top_hash |} (wl_block w));
  anchor ← ok_or (blocks !! 0%nat) NoBlocksInWalk;
  _ ← ensure (bool_decide (vb_hash anchor = wl_hash w)) (WalkLandsElsewhere (wl_block w));
  let finish (sc : Scan) (frontier : option TreeFrontier) (cursor : Z) : Walk :=
    {| wl_scan := sc; wl_frontier := frontier; wl_cursor := cursor; wl_block := top; wl_hash := top_hash;
       wl_checkpoints := wl_checkpoints w ++ [{| cp_block_number := top; cp_block_hash := top_hash; cp_next_leaf := cursor |}] |} in
  if start <? leaf_count then
    fold ← match wl_frontier w with
           | Some f => Ok f
           | None =>
               prefix ← map_err ChainE (leaf_hashes nd 0 start leaf_count (hd_hash head));
               map_err TypingE (seed_frontier anchor start prefix)
           end;
    records ← map_err ChainE (leaves_up_to_block nd (wl_cursor w) leaf_count top (hd_hash head));
    _ ← fold_result (λ _ r, complete_record r) tt records;
    '(fold, typed) ← map_err TypingE (type_chunk fold blocks records (miner_view keys genesis));
    sc ← scan_chunk nd md keys genesis entry_count collect blocks typed (wl_scan w);
    Ok (finish sc (Some fold) (wl_cursor w + Z.of_nat (length typed)))
  else
    _ ← map_err TypingE (check_chunk_appended_nothing blocks);
    Ok (finish (wl_scan w) (wl_frontier w) (wl_cursor w)).

Fixpoint walk_chunks (fuel : nat) nd md keys (genesis : Hash256) head (start leaf_count entry_count : Z) (collect : bool) (w : Walk) :
    M Walk :=
  match fuel with
  | O => Err OutOfFuel
  | S fuel =>
      w ← walk_step nd md keys genesis head start leaf_count entry_count collect w;
      if wl_block w =? hd_number head then Ok w
      else walk_chunks fuel nd md keys genesis head start leaf_count entry_count collect w
  end.

(** The trusted bottom: the genesis, or the checkpoint at the watermark. *)
Definition trusted_bottom (genesis : Hash256) s : M (Z * Hash256) :=
  if ws_next_leaf s =? 0 then Ok (0, genesis)
  else
    c ← ok_or (newest_checkpoint s) (NoCheckpointAtWatermark (ws_next_leaf s));
    _ ← ensure (cp_next_leaf c =? ws_next_leaf s) (NoCheckpointAtWatermark (ws_next_leaf s));
    _ ← ensure (length (cp_block_hash c) =? 32)%nat (BadCheckpointHash (cp_block_number c));
    Ok (cp_block_number c, cp_block_hash c).

(** ** The commit *)
Definition commit_pass (genesis : Hash256) head (start leaf_count : Z) (rescan rewound : bool) (w : Walk) :
    M (WalletStore * (Z * SpentReconciliation * Z * bool)) :=
  let s := sn_store (wl_scan w) in
  let '(s, cleared) := if start <? leaf_count then prune_rejected s else (s, 0) in
  let '(s, reconciled) := reconcile_spent (hd_number head) (if rescan then AddOnly else BothWays) s in
  let '(s, vanished) := if rewound && negb rescan then mark_vanished start (sn_seen (wl_scan w)) s else (s, 0) in
  let s := set_position (hd_number head) leaf_count (ws_checkpoints s) s in
  let s := foldl (λ s c, record_checkpoint (cp_block_number c) (cp_block_hash c) (cp_next_leaf c) s) s (wl_checkpoints w) in
  '(recorded, s) ← map_err StoreE (bind_genesis genesis s);
  Ok (s, (cleared, reconciled, vanished, recorded)).

(** The gates: everything read before the store is written. *)
Record Gates := { gt_genesis : Hash256; gt_head : ChainHead; gt_stance : NodeStance; gt_bypassed : bool; gt_leaf_count : Z }.
Definition sync_gates nd md (rescan : bool) s : M Gates :=
  _ ← map_err MetadataE (ensure_known_storage md);
  genesis ← map_err ChainE (genesis_hash nd);
  _ ← map_err StoreE (ensure_genesis genesis s);
  head ← map_err ChainE (chain_head nd);
  '(stance, bypassed) ← match read_node_stance nd head s with
                        | Ok stance => Ok (stance, false)
                        | Err refusal => if rescan then Ok (Current, true) else Err refusal
                        end;
  leaf_count ← map_err ChainE (leaf_count_at nd (hd_hash head));
  let watermark := if rescan then 0 else stance_watermark stance (ws_next_leaf s) in
  _ ← ensure (watermark <=? leaf_count) (ShortTree leaf_count watermark);
  Ok {| gt_genesis := genesis; gt_head := head; gt_stance := stance; gt_bypassed := bypassed; gt_leaf_count := leaf_count |}.

Definition sync_with nd md keys (rescan : bool) s : M (WalletStore * SyncReport) :=
  g ← sync_gates nd md rescan s;
  let head := gt_head g in
  let '(s, rewind) := apply_stance (gt_stance g) rescan s in
  settled ← map_err ChainE (used_nullifiers_at nd (hd_hash head));
  let s := set_used_nullifiers settled s in
  let start := ws_next_leaf s in
  let rewound := bool_decide (is_Some rewind) in
  '(block, hash) ← trusted_bottom (gt_genesis g) s;
  entry_count ← map_err ChainE (entry_count_at nd (hd_hash head));
  w ← walk_chunks (S (Z.to_nat (hd_number head - block))) nd md keys (gt_genesis g) head start (gt_leaf_count g) entry_count
        (rewound && negb rescan)
        {| wl_scan := {| sn_store := s; sn_seen := ∅; sn_events := [] |}; wl_frontier := None; wl_cursor := start;
           wl_block := block; wl_hash := hash; wl_checkpoints := [] |};
  _ ← ensure (wl_cursor w =? gt_leaf_count g) (Unaccounted (wl_cursor w) (gt_leaf_count g));
  '(s, (cleared, reconciled, vanished, recorded)) ← commit_pass (gt_genesis g) head start (gt_leaf_count g) rescan rewound w;
  Ok (s, {| rp_head_block := hd_number head; rp_scanned_from := start; rp_scanned_to := gt_leaf_count g;
            rp_events := sn_events (wl_scan w); rp_rewind := rewind; rp_add_only := rescan; rp_bypassed := gt_bypassed g;
            rp_rejected_cleared := cleared; rp_reconciliation := reconciled; rp_vanished := vanished;
            rp_entry_walk_truncated := if ENTRY_WALK_LIMIT <? entry_count then Some entry_count else None;
            rp_recorded_genesis := recorded |}).
End Sync.
