(* ===== verification/WalletSyncProps.v ===== *)
(** * Properties of a sync pass

    The node's standing, the invariant of the store, and what a committed
    pass has read. *)

From stdpp Require Import base option numbers list gmap sorting.
From S2P Require Import Prelude Crypto NoteRules Header CircuitMerkle WalletTyping WalletTypingProps WalletText WalletExtrinsic WalletChain WalletChainProps WalletStore WalletStoreProps WalletSync.
#[local] Open Scope Z_scope.
Import CircuitMerkle.

(** ** The store's invariant *)
(** What a note is, as opposed to where it sits and whether it is spent. *)
Definition secrets (n : StoredNote) : Hash256 * Hash256 * Z * Hash256 * Hash256 * list Z * NoteOrigin :=
  (sn_commitment n, sn_nullifier n, sn_value n, sn_rho n, sn_r n, sn_memo n, sn_origin n).

Definition checkpoint_lt (a b : SyncCheckpoint) : Prop := cp_block_number a < cp_block_number b.

Record store_ok (s : WalletStore) : Prop := {
  so_notes : NoDup (sn_commitment <$> ws_notes s);
  so_rejected : NoDup (rn_commitment <$> ws_rejected s);
  so_seen : Forall (λ n, sn_spent n = false → sn_spent_seen_at_block n = None) (ws_notes s);
  so_checkpoints : StronglySorted checkpoint_lt (ws_checkpoints s);
  so_bounded : (length (ws_checkpoints s) ≤ MAX_CHECKPOINTS)%nat;
}.

(** No secret is lost: the notes of [s], in order, are the first of [s']. *)
Definition keeps_secrets (s s' : WalletStore) : Prop := secrets <$> ws_notes s `prefix_of` secrets <$> ws_notes s'.

(** What the scan does to the notes it finds held: the secrets and the spent
    flag stay, and a note on the chain stays on it; what it adds is unspent
    and on the chain. *)
Definition note_kept (n n' : StoredNote) : Prop :=
  secrets n' = secrets n ∧ sn_spent n' = sn_spent n ∧ sn_spent_seen_at_block n' = sn_spent_seen_at_block n ∧
  (sn_on_chain n = true → sn_on_chain n' = true).
Definition fresh (n : StoredNote) : Prop := sn_spent n = false ∧ sn_on_chain n = true.
Definition only_adds (s s' : WalletStore) : Prop :=
  ∃ l extra, ws_notes s' = l ++ extra ∧ Forall2 note_kept (ws_notes s) l ∧ Forall fresh extra.

(** The fields no write of the notes touches. *)
Definition same_position (s s' : WalletStore) : Prop :=
  ws_next_leaf s' = ws_next_leaf s ∧ ws_last_synced_block s' = ws_last_synced_block s ∧
  ws_checkpoints s' = ws_checkpoints s ∧ ws_used_nullifiers s' = ws_used_nullifiers s ∧
  ws_genesis_hash s' = ws_genesis_hash s ∧ ws_birthday s' = ws_birthday s.

#[global] Instance keeps_secrets_preorder : PreOrder keeps_secrets.
Proof. split; [intros s; unfold keeps_secrets; reflexivity|]. intros s1 s2 s3 Ha Hb. unfold keeps_secrets in *. by etrans. Qed.
Lemma note_kept_refl l : Forall2 note_kept l l.
Proof. induction l; constructor; by unfold note_kept. Qed.
Lemma note_kept_trans l1 l2 l3 : Forall2 note_kept l1 l2 → Forall2 note_kept l2 l3 → Forall2 note_kept l1 l3.
Proof.
  intros Hf. revert l3. induction Hf as [|x y l1 l2 Hxy _ IH]; intros l3 H3; inversion H3 as [|? z ? ? Hyz Hr]; subst; constructor; [|auto].
  destruct Hxy as (?&?&?&?), Hyz as (?&?&?&?). split_and!; [congruence..|auto].
Qed.
Lemma only_adds_same_notes (s s' : WalletStore) : ws_notes s' = ws_notes s → only_adds s s'.
Proof. intros Hn. exists (ws_notes s), []. rewrite app_nil_r. split_and!; [done|apply note_kept_refl|constructor]. Qed.
#[global] Instance only_adds_preorder : PreOrder only_adds.
Proof.
  split; [intros s; by apply only_adds_same_notes|].
  intros s1 s2 s3 (l1 & e1 & N2 & F1 & X1) (l2 & e2 & N3 & F2 & X2). rewrite N2 in F2.
  apply Forall2_app_inv_l in F2 as (la & lb & Fa & Fb & ->). exists la, (lb ++ e2). rewrite N3, app_assoc. split_and!; [done| |].
  - by eapply note_kept_trans.
  - apply Forall_app. split; [|done]. clear -Fb X1. induction Fb as [|x y e1 lb Hxy _ IH]; [constructor|].
    apply Forall_cons in X1 as [[Hs Ho] X1]. constructor; [|by apply IH]. destruct Hxy as (_ & Hsp & _ & Hon). split; [congruence|auto].
Qed.
Lemma only_adds_secrets (s s' : WalletStore) : only_adds s s' → keeps_secrets s s'.
Proof.
  intros (l & extra & Hn & Hf & _). unfold keeps_secrets. rewrite Hn, fmap_app. exists (secrets <$> extra). f_equal.
  clear Hn. induction Hf as [|x y k l Hxy _ IH]; [done|]. cbn. rewrite IH. f_equal. apply Hxy.
Qed.

#[global] Instance same_position_preorder : PreOrder same_position.
Proof. split; [done|]. unfold same_position. intros s1 s2 s3 (?&?&?&?&?&?) (?&?&?&?&?&?). split_and!; congruence. Qed.

Lemma keeps_same_notes (s s' : WalletStore) : ws_notes s' = ws_notes s → keeps_secrets s s'.
Proof. unfold keeps_secrets. by intros ->. Qed.

Lemma commitments_of_secrets (l l' : list StoredNote) :
  secrets <$> l = secrets <$> l' → sn_commitment <$> l = sn_commitment <$> l'.
Proof.
  intros Hl. assert (Hf : ∀ k : list StoredNote, sn_commitment <$> k = (λ t, t.1.1.1.1.1.1) <$> (secrets <$> k))
    by (intros k; rewrite <- list_fmap_compose; done).
  by rewrite (Hf l), (Hf l'), Hl.
Qed.

(** A write over the notes that changes no secret and keeps the spent flag
    and its height together. *)
Definition gentle (f : StoredNote → StoredNote * bool) : Prop :=
  ∀ n, secrets (f n).1 = secrets n ∧
       ((sn_spent n = false → sn_spent_seen_at_block n = None) → sn_spent (f n).1 = false → sn_spent_seen_at_block (f n).1 = None).

Lemma walk_notes_ok f s :
  gentle f → store_ok s →
  store_ok (walk_notes f s).1 ∧ keeps_secrets s (walk_notes f s).1 ∧ same_position s (walk_notes f s).1 ∧
  ws_rejected (walk_notes f s).1 = ws_rejected s ∧ secrets <$> ws_notes (walk_notes f s).1 = secrets <$> ws_notes s.
Proof.
  intros Hf [Hn Hr Hs Hc Hb]. cbn.
  assert (Hsec : secrets <$> ((λ n, (f n).1) <$> ws_notes s) = secrets <$> ws_notes s).
  { rewrite <- list_fmap_compose. apply list_fmap_ext. intros i n _. apply Hf. }
  split_and!; [|unfold keeps_secrets; cbn; by rewrite Hsec|done|done|done].
  constructor; cbn; [by rewrite (commitments_of_secrets _ _ Hsec)|done| |done|done].
  apply Forall_fmap. eapply Forall_impl; [exact Hs|]. intros n Hn'. exact (proj2 (Hf n) Hn').
Qed.

Lemma gentle_mark_off_chain (P : StoredNote → bool) : gentle (λ n, if P n then mark_off_chain n else (n, false)).
Proof. intros n. destruct (P n); [|done]. unfold mark_off_chain. by destruct (sn_spent n || _). Qed.

Lemma gentle_relocate c leaf block :
  gentle (λ n, if bool_decide (sn_commitment n = c) then
        let n := set_on_chain true n in
        if negb (sn_leaf_index n =? leaf) || negb (bool_decide (sn_block_number n = block))
        then (set_place leaf block n, true) else (n, false)
      else (n, false)).
Proof. intros n. case_bool_decide; [|done]. cbn zeta. by destruct (_ || _). Qed.

Lemma reconcile_ok head dir s :
  store_ok s →
  store_ok (reconcile_spent head dir s).1 ∧ keeps_secrets s (reconcile_spent head dir s).1 ∧
  same_position s (reconcile_spent head dir s).1 ∧ ws_rejected (reconcile_spent head dir s).1 = ws_rejected s ∧
  secrets <$> ws_notes (reconcile_spent head dir s).1 = secrets <$> ws_notes s.
Proof.
  intros Hs. pose (f := λ n, ((reconcile_note (ws_used_nullifiers s) head dir n).1, true)).
  assert (Heq : (reconcile_spent head dir s).1 = (walk_notes f s).1).
  { cbn. f_equal. rewrite <- list_fmap_compose. done. }
  rewrite Heq. apply walk_notes_ok; [|done]. intros n. cbn. unfold reconcile_note.
  repeat case_match; cbn; (split; [done|intros Hi Hj; first [done|congruence|by apply Hi]]).
Qed.

Lemma find_rejected_spec c leaf l :
  match find_rejected c leaf l with
  | Some l' => rn_commitment <$> l' = rn_commitment <$> l ∧ c ∈ rn_commitment <$> l
  | None => c ∉ rn_commitment <$> l
  end.
Proof.
  induction l as [|r l IH]; cbn [find_rejected]; [by apply not_elem_of_nil|].
  case_bool_decide as Hr.
  - split; [done|]. rewrite fmap_cons, Hr. by left.
  - destruct (find_rejected c leaf l) as [l'|]; cbn.
    + destruct IH as [-> ?]. split; [done|by right].
    + rewrite not_elem_of_cons. auto.
Qed.

Lemma record_rejected_ok r s :
  store_ok s →
  store_ok (record_rejected r s).1 ∧ only_adds s (record_rejected r s).1 ∧ same_position s (record_rejected r s).1 ∧
  ws_notes (record_rejected r s).1 = ws_notes s ∧
  rn_commitment r ∈ rn_commitment <$> ws_rejected (record_rejected r s).1 ∧
  (∀ c, c ∈ rn_commitment <$> ws_rejected s → c ∈ rn_commitment <$> ws_rejected (record_rejected r s).1).
Proof.
  intros [Hn Hr Hs Hc Hb]. unfold record_rejected. pose proof (find_rejected_spec (rn_commitment r) (rn_leaf_index r) (ws_rejected s)) as Hf.
  destruct (find_rejected _ _ _) as [l'|]; cbn.
  - destruct Hf as [Hl Hin]. split_and!; [|by apply only_adds_same_notes|done|done|by rewrite Hl|by rewrite Hl]. constructor; cbn; [done|by rewrite Hl|done..].
  - split_and!; [|by apply only_adds_same_notes|done|done| |].
    + constructor; cbn; [done| |done..]. rewrite fmap_app, NoDup_app. split_and!; [done| |apply NoDup_singleton].
      intros x Hx ->%list_elem_of_singleton. done.
    + rewrite fmap_app, elem_of_app. right. by apply list_elem_of_singleton.
    + intros c Hin. rewrite fmap_app, elem_of_app. by left.
Qed.

Lemma prune_ok s :
  store_ok s →
  store_ok (prune_rejected s).1 ∧ keeps_secrets s (prune_rejected s).1 ∧ same_position s (prune_rejected s).1 ∧
  ws_notes (prune_rejected s).1 = ws_notes s ∧
  (∀ c, c ∈ rn_commitment <$> ws_rejected s →
     c ∈ sn_commitment <$> ws_notes s ∨ c ∈ rn_commitment <$> ws_rejected (prune_rejected s).1) ∧
  (∀ c, c ∈ rn_commitment <$> ws_rejected (prune_rejected s).1 → c ∉ sn_commitment <$> ws_notes s).
Proof.
  intros [Hn Hr Hs Hc Hb]. cbn. split_and!; [|by apply keeps_same_notes|done|done| |].
  - constructor; cbn; [done| |done..]. eapply sublist_NoDup; [exact Hr|]. apply fmap_sublist, sublist_filter.
  - intros c (r & -> & Hin)%list_elem_of_fmap. destruct (decide (rn_commitment r ∈ sn_commitment <$> ws_notes s)); [by left|right].
    apply list_elem_of_fmap. exists r. split; [done|]. by apply list_elem_of_filter.
  - intros c (r & -> & Hin)%list_elem_of_fmap. by apply list_elem_of_filter in Hin as [? _].
Qed.

(** ** One receipt *)
Lemma has_commitment_spec c s : has_commitment c s = true ↔ c ∈ sn_commitment <$> ws_notes s.
Proof.
  unfold has_commitment. rewrite existsb_exists, list_elem_of_fmap. split.
  - intros (n & Hn & Hc). res_inv. exists n. split; [done|by apply list_elem_of_In].
  - intros (n & -> & Hn). exists n. split; [by apply list_elem_of_In|by apply bool_decide_eq_true].
Qed.

Lemma relocate_spec c leaf block s :
  store_ok s →
  let s' := (relocate_note c leaf block s).1 in
  store_ok s' ∧ only_adds s s' ∧ same_position s s' ∧ ws_rejected s' = ws_rejected s ∧
  sn_commitment <$> ws_notes s' = sn_commitment <$> ws_notes s ∧
  ∀ n', n' ∈ ws_notes s' →
    (sn_commitment n' = c ∧ sn_on_chain n' = true ∧ sn_leaf_index n' = leaf ∧ sn_block_number n' = block) ∨
    (n' ∈ ws_notes s ∧ sn_commitment n' ≠ c).
Proof.
  intros Hs. destruct (walk_notes_ok _ s (gentle_relocate c leaf block) Hs) as (Hok & Hkeep & Hpos & Hrej & Hsec).
  unfold relocate_note. cbn zeta in *. match goal with |- context [walk_notes ?f s] => set (g := f) in *; destruct (walk_notes g s) as [s' moved] eqn:Hw end.
  assert (Hnotes : ws_notes s' = (λ n, (g n).1) <$> ws_notes s) by (unfold walk_notes in Hw; by injection Hw as <- <-).
  cbn [fst] in *. split_and!; [done| |done|done|by apply commitments_of_secrets|].
  { exists (ws_notes s'), []. rewrite app_nil_r. split_and!; [done| |constructor]. rewrite Hnotes. apply Forall2_fmap_r, Forall_Forall2_diag, Forall_true.
    intros n. cbn beta delta [compose]. unfold g, note_kept. case_bool_decide; cbn zeta; [|done]. by destruct (_ || _). }
  intros n' Hn'.
  rewrite Hnotes in Hn'. apply list_elem_of_fmap in Hn' as (n & -> & Hn). unfold g. cbn zeta.
  destruct (bool_decide_reflect (sn_commitment n = c)) as [Hc|Hc]; [left|by right].
  destruct (_ || _) eqn:Hmoved; cbn; [done|]. apply orb_false_iff in Hmoved as [H1 H2].
  apply negb_false_iff, Z.eqb_eq in H1. apply negb_false_iff, bool_decide_eq_true in H2. cbn in *. done.
Qed.

Section Pass.
Context `{HeaderCodec, ScaleCompact, BodyOps}.
Implicit Types (nd : Node) (s : WalletStore) (keys : WalletKeys) (md : ChainMetadata) (head : ChainHead) (sc : Scan) (w : Walk) (rt : Receipt).

(** Within a pass, the output [c] with the nullifier [nf] is dealt with: a
    note held for it is on the chain, one was seen, or it is refused because
    it is spent. *)
Definition tracked (collect : bool) (c nf : Hash256) sc : Prop :=
  (∀ n, n ∈ ws_notes (sn_store sc) → sn_commitment n = c → sn_on_chain n = true) ∧
  (collect = true → c ∈ sn_commitment <$> ws_notes (sn_store sc) → c ∈ sn_seen sc) ∧
  (c ∈ sn_commitment <$> ws_notes (sn_store sc) ∨
   c ∈ rn_commitment <$> ws_rejected (sn_store sc) ∧ nf ∈ ws_used_nullifiers (sn_store sc)).

Definition pass_ok sc sc' : Prop :=
  store_ok (sn_store sc') ∧ only_adds (sn_store sc) (sn_store sc') ∧ same_position (sn_store sc) (sn_store sc').

Lemma record_receipt_ok keys entries collect sc rt :
  store_ok (sn_store sc) →
  pass_ok sc (record_receipt keys entries collect sc rt) ∧
  tracked collect (rt_commitment rt) (wk_nullifier keys (rt_note rt)) (record_receipt keys entries collect sc rt) ∧
  ∀ c nf, tracked collect c nf sc → tracked collect c nf (record_receipt keys entries collect sc rt).
Proof.
  intros Hs. set (c := rt_commitment rt). unfold record_receipt. fold c.
  destruct (has_commitment c (sn_store sc)) eqn:Hheld.
  - apply has_commitment_spec in Hheld.
    destruct (relocate_spec c (rt_leaf_index rt) (Some (rt_block_number rt)) (sn_store sc) Hs) as (Hok & Hkeep & Hpos & Hrej & Hcs & Hn).
    destruct (relocate_note c (rt_leaf_index rt) (Some (rt_block_number rt)) (sn_store sc)) as [s' moved]. cbn [fst] in *.
    assert (Hu : ws_used_nullifiers s' = ws_used_nullifiers (sn_store sc)) by apply Hpos.
    split_and!; [done| |]; unfold tracked; cbn [sn_store sn_seen].
    + split_and!; [|intros -> _; set_solver|left; by rewrite Hcs]. intros n' Hn' Hc'. destruct (Hn n' Hn') as [(_ & ? & _)|[_ ?]]; done.
    + intros c0 nf (Hon & Hseen & Hin). rewrite Hcs, Hrej, Hu. split_and!; [|intros Hcol Hc0; specialize (Hseen Hcol Hc0); rewrite Hcol; set_solver|done].
      intros n' Hn' Hc'. destruct (Hn n' Hn') as [(_ & ? & _)|[Hold _]]; [done|]. by apply Hon.
  - assert (Hnot : c ∉ sn_commitment <$> ws_notes (sn_store sc)).
    { intros Hin. apply has_commitment_spec in Hin. congruence. }
    destruct (nullifier_settled (wk_nullifier keys (rt_note rt)) (sn_store sc)) eqn:Hset.
    + unfold nullifier_settled in Hset. apply bool_decide_eq_true in Hset.
      match goal with |- context [record_rejected ?r _] => pose proof (record_rejected_ok r (sn_store sc) Hs) as (Hok & Hkeep & Hpos & Hnotes & Hin & Hmono);
        destruct (record_rejected r (sn_store sc)) as [s' new] end. cbn [fst rn_commitment] in *.
      assert (Hu : ws_used_nullifiers s' = ws_used_nullifiers (sn_store sc)) by apply Hpos.
      split_and!; [done| |]; unfold tracked; cbn [sn_store sn_seen]; rewrite Hnotes, Hu.
      * split_and!; [|done|by right]. intros n Hn Hc'. destruct Hnot. rewrite <- Hc'. by apply list_elem_of_fmap_2.
      * intros c0 nf (Hon & Hseen & Hc0). split_and!; [done|done|]. destruct Hc0 as [?|[? ?]]; [by left|right; auto].
    + match goal with |- context [ws_notes (sn_store sc) ++ [?n]] => set (stored := n) end.
      assert (Hok : store_ok (set_notes (ws_notes (sn_store sc) ++ [stored]) (sn_store sc))).
      { destruct Hs as [Hn Hr Hsp Hc Hb]. constructor; cbn; [|done| |done|done].
        - rewrite fmap_app, NoDup_app. split_and!; [done| |apply NoDup_singleton]. intros x Hx ->%list_elem_of_singleton. by apply Hnot.
        - apply Forall_app. split; [done|]. by apply Forall_singleton. }
      split_and!.
      * split; [by destruct Hok|]. split; [|done]. exists (ws_notes (sn_store sc)), [stored].
        split_and!; [done|apply note_kept_refl|by apply Forall_singleton].
      * unfold tracked. cbn [sn_store sn_seen set_pending set_notes ws_notes ws_rejected ws_used_nullifiers]. split_and!.
        -- intros n [Hn| ->%list_elem_of_singleton]%elem_of_app Hc'; [|done]. destruct Hnot. rewrite <- Hc'. by apply list_elem_of_fmap_2.
        -- intros -> _. set_solver.
        -- left. rewrite fmap_app, elem_of_app. right. by apply list_elem_of_singleton.
      * intros c0 nf (Hon & Hseen & Hc0). unfold tracked. cbn [sn_store sn_seen set_pending set_notes ws_notes ws_rejected ws_used_nullifiers].
        rewrite fmap_app, elem_of_app. split_and!.
        -- intros n [Hn| ->%list_elem_of_singleton]%elem_of_app Hc'; [by apply Hon|done].
        -- intros Hcol [Hin|Hin%list_elem_of_singleton]; [specialize (Hseen Hcol Hin)|subst c0]; rewrite Hcol; set_solver.
        -- destruct Hc0 as [?|?]; auto.
Qed.

(** ** One chunk *)
Lemma record_receipts_ok keys entries collect l sc :
  store_ok (sn_store sc) →
  pass_ok sc (foldl (record_receipt keys entries collect) sc l) ∧
  (∀ rt, rt ∈ l → tracked collect (rt_commitment rt) (wk_nullifier keys (rt_note rt)) (foldl (record_receipt keys entries collect) sc l)) ∧
  (∀ c nf, tracked collect c nf sc → tracked collect c nf (foldl (record_receipt keys entries collect) sc l)).
Proof.
  revert sc. induction l as [|rt l IH]; intros sc Hs; cbn [foldl].
  { split_and!; [by split; [|split]|by intros ? ?%not_elem_of_nil|done]. }
  destruct (record_receipt_ok keys entries collect sc rt Hs) as ((Hok & Hk & Hp) & Ht & Hpres).
  destruct (IH _ Hok) as ((Hok' & Hk' & Hp') & Hall & Hpres'). split_and!.
  - split; [done|]. split; by etrans.
  - intros rt' [->|Hin]%elem_of_cons; [by apply Hpres'|by apply Hall].
  - intros c nf Hc. by apply Hpres', Hpres.
Qed.

Lemma insert_receipt_perm x l : insert_receipt x l ≡ₚ x :: l.
Proof.
  induction l as [|y l IH]; cbn [insert_receipt]; [done|]. destruct (_ <=? _); [done|]. rewrite IH. apply Permutation_swap.
Qed.
Lemma sort_receipts_perm l : sort_receipts l ≡ₚ l.
Proof. induction l as [|x l IH]; [done|]. cbn [sort_receipts foldr]. rewrite insert_receipt_perm. by constructor. Qed.

(** The coinbase rule: every leaf whose coinbase note the wallet rebuilds is
    received, and the rebuild never disagrees with the typing. *)
Definition coinbase_found keys genesis (leaf : TypedLeaf) (received : list Receipt) : Prop :=
  ∀ ours v d note, tl_kind leaf = Coinbase ours v d →
    receive_coinbase keys genesis (tl_block_number leaf) v (tl_commitment leaf) = Some note →
    ∃ rt, rt ∈ received ∧ rt_commitment rt = tl_commitment leaf ∧ rt_note rt = note.

Lemma coinbase_found_mono keys genesis leaf l l' : l ⊆ l' → coinbase_found keys genesis leaf l → coinbase_found keys genesis leaf l'.
Proof. intros Hl Hf ours v d note Hk Hr. destruct (Hf ours v d note Hk Hr) as (rt & ? & ?). exists rt. auto. Qed.

Lemma coinbase_step_Ok keys genesis acc leaf acc' :
  coinbase_step keys genesis acc leaf = Ok acc' → acc.1 ⊆ acc'.1 ∧ coinbase_found keys genesis leaf acc'.1.
Proof.
  unfold coinbase_step, coinbase_found. destruct acc as [received events]. destruct (tl_kind leaf) as [|ours v d] eqn:Hk.
  { intros [= <-]. done. }
  destruct (receive_coinbase _ _ _ _ _) as [note|] eqn:Hr; [|destruct ours; [done|]]; intros [= <-]; cbn.
  - split; [set_solver|]. intros ours' v' d' note' [= <- <- <-] Hn. rewrite Hr in Hn. injection Hn as <-.
    eexists. split; [apply elem_of_app; right; by apply list_elem_of_singleton|done].
  - split; [done|]. intros ours' v' d' note' [= <- <- <-]. by rewrite Hr.
Qed.

Lemma coinbase_fold_Ok keys genesis typed acc acc' :
  fold_result (coinbase_step keys genesis) acc typed = Ok acc' →
  acc.1 ⊆ acc'.1 ∧ ∀ leaf, leaf ∈ typed → coinbase_found keys genesis leaf acc'.1.
Proof.
  revert acc. induction typed as [|leaf typed IH]; intros acc; cbn [fold_result].
  { intros [= <-]. split; [done|by intros ? ?%not_elem_of_nil]. }
  intros (acc1 & Hst & Hr)%bind_Ok. apply coinbase_step_Ok in Hst as [Hsub Hf]. apply IH in Hr as [Hsub' Hall].
  split; [set_solver|]. intros leaf' [->|Hin]%elem_of_cons; [by eapply coinbase_found_mono|by apply Hall].
Qed.

(** The transfer rule over a block's payloads. *)
Definition payment_found keys (typed : list TypedLeaf) (block : Z) (p : list Z) (received : list Receipt) : Prop :=
  ∀ note leaf, wk_open keys p = Some note → leaf ∈ typed → tl_block_number leaf = block → tl_commitment leaf = rc_commitment note →
    ∃ rt, rt ∈ received ∧ rt_commitment rt = rc_commitment note ∧ rt_note rt = note.

Lemma index_chunk_found typed leaf : leaf ∈ typed → is_Some (index_chunk typed (tl_block_number leaf) (tl_commitment leaf)).
Proof.
  intros Hin. unfold index_chunk. destruct (list_find_elem_of (λ l, tl_block_number l = tl_block_number leaf ∧ tl_commitment l = tl_commitment leaf) typed leaf) as [[i l] Hl]; [done|done|].
  rewrite Hl. by eexists.
Qed.

Lemma payloads_fold keys typed block payloads received :
  let out := foldl (payload_step keys typed block) received payloads in
  received ⊆ out ∧ ∀ p, p ∈ payloads → payment_found keys typed block p out.
Proof.
  cbn zeta. revert received. induction payloads as [|p payloads IH]; intros received; cbn [foldl].
  { split; [done|by intros ? ?%not_elem_of_nil]. }
  destruct (IH (payload_step keys typed block received p)) as [Hsub Hall].
  assert (Hstep : received ⊆ payload_step keys typed block received p ∧ payment_found keys typed block p (payload_step keys typed block received p)).
  { unfold payload_step, payment_found. destruct (wk_open keys p) as [note|]; [|done].
    destruct (index_chunk typed block (rc_commitment note)) as [i|] eqn:Hi.
    - split; [set_solver|]. intros note' leaf [= <-] _ _ _. eexists. split; [apply elem_of_app; right; by apply list_elem_of_singleton|done].
    - split; [done|]. intros note' leaf [= <-] Hin Hb Hc. destruct (index_chunk_found typed leaf Hin) as [j Hj].
      rewrite Hb, Hc in Hj. congruence. }
  destruct Hstep as [Hsub0 Hf]. split; [by etrans|]. intros p' [->|Hin]%elem_of_cons; [|by apply Hall].
  intros note leaf Ho Hin Hb Hc. destruct (Hf note leaf Ho Hin Hb Hc) as (rt & ? & ?). exists rt. auto.
Qed.

(** Every block that appended a leaf had its body read whole. *)
Definition body_read nd md keys (typed : list TypedLeaf) (received : list Receipt) (b : VerifiedBlock) : Prop :=
  appended typed (vb_number b) = true → ∃ body payloads,
    authenticated_body nd b = Ok body ∧ chain_payloads md body = Ok payloads ∧
    ∀ p, p ∈ payloads → payment_found keys typed (vb_number b) p received.

Lemma bodies_fold nd md keys typed blocks received received' :
  fold_result (body_step nd md keys typed) received blocks = Ok received' →
  received ⊆ received' ∧ ∀ b, b ∈ blocks → body_read nd md keys typed received' b.
Proof.
  revert received. induction blocks as [|b blocks IH]; intros received; cbn [fold_result].
  { intros [= <-]. split; [done|by intros ? ?%not_elem_of_nil]. }
  intros (r1 & H1' & Hr)%bind_Ok. apply IH in Hr as [Hsub Hall]. unfold body_step in H1'.
  destruct (appended typed (vb_number b)) eqn:Ha.
  - apply bind_Ok in H1' as (body & Hb%map_err_Ok & H1'). apply bind_Ok in H1' as (payloads & Hp%map_err_Ok & H1'). injection H1' as <-.
    destruct (payloads_fold keys typed (vb_number b) payloads received) as [Hs0 Hf]. split; [by etrans|].
    intros b' [->|Hin]%elem_of_cons; [|by apply Hall]. intros _. exists body, payloads. split_and!; [done|done|].
    intros p Hpin note leaf Ho Hin Hbl Hc. destruct (Hf p Hpin note leaf Ho Hin Hbl Hc) as (rt & ? & ?). exists rt. auto.
  - injection H1' as <-. split; [done|]. intros b' [->|Hin]%elem_of_cons; [|by apply Hall]. intros Hc. congruence.
Qed.

(** What a chunk has read of one leaf. *)
Definition leaf_read nd md keys genesis (collect : bool) sc (r : LeafRecord) : Prop :=
  ∃ c n b body payloads, lr_commitment r = Some c ∧ lr_block_number r = Some n ∧ served nd b ∧ vb_number b = n ∧
    authenticated_body nd b = Ok body ∧ chain_payloads md body = Ok payloads ∧
    (∀ p note, p ∈ payloads → wk_open keys p = Some note → rc_commitment note = c → tracked collect c (wk_nullifier keys note) sc) ∧
    (∀ v note, lr_coinbase_value r = Some v → receive_coinbase keys genesis n v c = Some note →
       tracked collect c (wk_nullifier keys note) sc).

Lemma type_chunk_authenticated miner f anchor blocks scanned f' typed :
  type_chunk f (anchor :: blocks) scanned miner = Ok (f', typed) → authenticated miner anchor f blocks scanned typed f'.
Proof.
  unfold type_chunk. intros (u & _ & Hr)%bind_Ok. apply bind_Ok in Hr as ([[f1 ts] stray] & Hb & Hr).
  destruct stray as [|r stray]; [|done]. injection Hr as <- <-. apply type_blocks_sound in Hb as (taken & -> & Hau). by rewrite app_nil_r.
Qed.

(** Each record has its leaf, in one of the blocks, with the kind its value
    gives. *)
Lemma authenticated_records miner p f blocks scanned typed f' :
  authenticated miner p f blocks scanned typed f' →
  length typed = length scanned ∧
  ∀ r, r ∈ scanned → ∃ tl b, tl ∈ typed ∧ b ∈ blocks ∧ same_leaf r tl ∧ vb_number b = tl_block_number tl ∧
    ∀ v, lr_coinbase_value r = Some v → ∃ ours d, tl_kind tl = Coinbase ours v d.
Proof.
  induction 1 as [|p f b bs run rest typed more f' Hp Hn Hk Hroot Hau [IHl IH]]; [split; [done|by intros ? ?%not_elem_of_nil]|].
  pose proof (run_kinds_length _ _ _ Hk) as Hrl. split; [rewrite !length_app; lia|].
  intros r [Hin|Hin]%elem_of_app.
  - apply list_elem_of_lookup in Hin as [i Hi]. destruct (lookup_lt_is_Some_2 typed i) as [tl Htl]; [rewrite <- Hrl; by eapply lookup_lt_Some|].
    destruct (run_kinds_lookup _ _ _ _ _ _ Hk Hi Htl) as [Hsame Hkind]. exists tl, b.
    pose proof (Forall_lookup_1 _ _ _ _ Hn Hi) as Hb. cbn beta in Hb. destruct Hsame as (Hc & Hix & Hbl & Hcan).
    split_and!; [apply elem_of_app; left; by eapply list_elem_of_lookup_2|by left|exact (conj Hc (conj Hix (conj Hbl Hcan)))|congruence|].
    intros v Hv. unfold right_kind in Hkind. destruct (bool_decide _).
    + destruct Hkind as (v' & d & Hv' & ->). rewrite Hv in Hv'. injection Hv' as <-. by eexists _, _.
    + destruct Hkind as [Hnone _]. congruence.
  - destruct (IH r Hin) as (tl & b' & Htl & Hb & Hrest). exists tl, b'. split_and!; [apply elem_of_app; by right|by right|apply Hrest..].
Qed.

Lemma leaf_read_mono nd md keys genesis collect sc sc' r :
  (∀ c nf, tracked collect c nf sc → tracked collect c nf sc') →
  leaf_read nd md keys genesis collect sc r → leaf_read nd md keys genesis collect sc' r.
Proof.
  intros Hpres (c & n & b & body & payloads & Hc & Hn & Hsv & Hb & Hbody & Hp & Hpay & Hcoin).
  exists c, n, b, body, payloads. split_and!; eauto.
Qed.

Lemma same_leaf_appended r tl typed : same_leaf r tl → tl ∈ typed → appended typed (tl_block_number tl) = true.
Proof. intros _ Hin. apply existsb_exists. exists tl. split; [by apply list_elem_of_In|by apply Z.eqb_eq]. Qed.

Lemma scan_chunk_ok nd md keys genesis entries collect anchor blocks typed sc sc' :
  scan_chunk nd md keys genesis entries collect (anchor :: blocks) typed sc = Ok sc' → store_ok (sn_store sc) →
  pass_ok sc sc' ∧ (∀ c nf, tracked collect c nf sc → tracked collect c nf sc') ∧
  ∀ f f' records, authenticated (miner_view keys genesis) anchor f blocks records typed f' → Forall (served nd) blocks →
    ∀ r, r ∈ records → leaf_read nd md keys genesis collect sc' r.
Proof.
  unfold scan_chunk. cbn [tail]. intros ([coins events] & Hcoins & Hr)%bind_Ok Hs. apply bind_Ok in Hr as (received & Hbodies & [= <-]).
  apply coinbase_fold_Ok in Hcoins as [_ Hcoin]. apply bodies_fold in Hbodies as [Hsub Hread]. cbn [fst] in *.
  set (sc0 := {| sn_store := sn_store sc; sn_seen := sn_seen sc; sn_events := events |}).
  destruct (record_receipts_ok keys entries collect (sort_receipts received) sc0 Hs) as (Hok & Hall & Hpres).
  assert (Hrt : ∀ rt, rt ∈ received → tracked collect (rt_commitment rt) (wk_nullifier keys (rt_note rt))
      (foldl (record_receipt keys entries collect) sc0 (sort_receipts received))).
  { intros rt Hin. apply Hall. by rewrite sort_receipts_perm. }
  split_and!; [done|exact Hpres|]. intros f f' records Hau Hserved r Hrin.
  destruct (authenticated_records _ _ _ _ _ _ _ Hau) as [_ Hrec]. destruct (Hrec r Hrin) as (tl & b & Htl & Hb & Hsame & Hbn & Hkind).
  pose proof (same_leaf_appended _ _ _ Hsame Htl) as Happ. rewrite <- Hbn in Happ.
  destruct (Hread b Hb Happ) as (body & payloads & Hbody & Hp & Hpay). destruct Hsame as (Hc & _ & Hbl & _).
  exists (tl_commitment tl), (tl_block_number tl), b, body, payloads. split_and!; [done|done| |done|done|done| |].
  - rewrite Forall_forall in Hserved. by apply Hserved.
  - intros p note Hpin Ho Hcm. destruct (Hpay p Hpin note tl Ho Htl (eq_sym Hbn) (eq_sym Hcm)) as (rt & Hrt1 & Hrc & Hrn).
    specialize (Hrt rt Hrt1). rewrite Hrc, Hrn, Hcm in Hrt. done.
  - intros v note Hv Hrc. destruct (Hkind v Hv) as (ours & d & Hk).
    destruct (Hcoin tl Htl ours v d note Hk Hrc) as (rt & Hrt1 & Hrtc & Hrn).
    specialize (Hrt rt (Hsub _ Hrt1)). rewrite Hrtc, Hrn in Hrt. done.
Qed.

(** ** The walk *)
(** What a walk from [w] to [w'] has done. *)
Record walked nd md keys genesis head (start leaf_count : Z) (collect : bool) w w' : Prop := {
  wd_pass : pass_ok (wl_scan w) (wl_scan w');
  wd_tracked c nf : tracked collect c nf (wl_scan w) → tracked collect c nf (wl_scan w');
  wd_cursor : wl_cursor w ≤ wl_cursor w';
  wd_leaves i : wl_cursor w ≤ i < wl_cursor w' →
    ∃ r, leaf_record nd (hd_hash head) leaf_count i = Ok r ∧ leaf_read nd md keys genesis collect (wl_scan w') r;
  wd_block : wl_block w ≤ wl_block w' ≤ hd_number head;
  wd_checkpoints : ∃ new, wl_checkpoints w' = wl_checkpoints w ++ new ∧
    last new = Some {| cp_block_number := wl_block w'; cp_block_hash := wl_hash w'; cp_next_leaf := wl_cursor w' |};
  wd_top : wl_block w' = hd_number head → wl_hash w' = hd_hash head;
}.

Lemma walked_trans nd md keys genesis head start leaf_count collect w1 w2 w3 :
  walked nd md keys genesis head start leaf_count collect w1 w2 → walked nd md keys genesis head start leaf_count collect w2 w3 →
  walked nd md keys genesis head start leaf_count collect w1 w3.
Proof.
  intros [(A1 & A2 & A3) T1 C1 L1 B1 (n1 & P1 & _) _] [(A1' & A2' & A3') T2 C2 L2 B2 (n2 & P2 & Q2) H2']. constructor.
  - split; [done|]. split; by etrans.
  - auto.
  - lia.
  - intros i Hi. destruct (decide (i < wl_cursor w2)) as [Hlt|Hge]; [|apply L2; lia].
    destruct (L1 i ltac:(lia)) as (r & Hr & Hread). exists r. split; [done|]. by eapply leaf_read_mono.
  - lia.
  - exists (n1 ++ n2). rewrite P2, P1, app_assoc. split; [done|]. rewrite last_app, Q2. done.
  - done.
Qed.

Lemma walk_step_ok nd md keys genesis head start leaf_count entries collect w w' :
  walk_step nd md keys genesis head start leaf_count entries collect w = Ok w' → store_ok (sn_store (wl_scan w)) →
  walked nd md keys genesis head start leaf_count collect w w' ∧
  wl_block w' = Z.min (sat_add 32 (wl_block w) HEADER_WALK_LIMIT) (hd_number head).
Proof.
  unfold walk_step. cbn zeta. set (top := Z.min _ _). intros (top_hash & Htop & Hr)%bind_Ok Hs.
  apply bind_Ok in Hr as (blocks & Hchain%map_err_Ok & Hr). apply bind_Ok in Hr as (anchor & Hanchor%ok_or_Ok & Hr).
  apply bind_Ok in Hr as (u & _ & Hr). apply header_chain_Ok in Hchain as (Hhc & Hserved & Hspan & _ & _). cbn [hd_number] in Hspan.
  assert (Hth : top = hd_number head → top_hash = hd_hash head).
  { intros E. rewrite (proj2 (Z.eqb_eq _ _) E) in Htop. by injection Htop as <-. }
  assert (Hle : top ≤ hd_number head) by lia.
  destruct (Z.ltb_spec start leaf_count) as [Hlt|Hge].
  - apply bind_Ok in Hr as (fold & _ & Hr). apply bind_Ok in Hr as (records & Hrec%map_err_Ok & Hr).
    apply leaf_windows_spec in Hrec as [Hlen Hleaves]. apply bind_Ok in Hr as ([] & _ & Hr).
    apply bind_Ok in Hr as ([fold' typed] & Htyped%map_err_Ok & Hr). apply bind_Ok in Hr as (sc & Hscan & [= <-]).
    destruct blocks as [|b0 blocks]; [done|]. cbn in Hanchor. injection Hanchor as ->.
    apply type_chunk_authenticated in Htyped. destruct (authenticated_records _ _ _ _ _ _ _ Htyped) as [Hl _].
    apply Forall_cons in Hserved as [_ Hserved].
    destruct (scan_chunk_ok _ _ _ _ _ _ _ _ _ _ _ Hscan Hs) as (Hok & Hpres & Hread).
    split; [|done]. constructor; cbn [wl_scan wl_cursor wl_block wl_hash wl_checkpoints].
    + done.
    + done.
    + lia.
    + intros i Hi. destruct (lookup_lt_is_Some_2 records (Z.to_nat (i - wl_cursor w))) as [r Hrl]; [lia|].
      exists r. destruct (Hleaves _ _ Hrl) as [Hlr _]. replace (wl_cursor w + Z.of_nat (Z.to_nat (i - wl_cursor w))) with i in Hlr by lia.
      split; [done|]. eapply Hread; [done|done|by eapply list_elem_of_lookup_2].
    + lia.
    + eexists. split; [done|]. done.
    + done.
  - apply bind_Ok in Hr as ([] & _ & [= <-]). split; [|done]. constructor; cbn [wl_scan wl_cursor wl_block wl_hash wl_checkpoints].
    + split; [done|]. split; reflexivity.
    + done.
    + lia.
    + lia.
    + lia.
    + eexists. split; [done|]. done.
    + done.
Qed.

Lemma walk_chunks_ok nd md keys genesis head start leaf_count entries collect fuel : ∀ w w',
  walk_chunks fuel nd md keys genesis head start leaf_count entries collect w = Ok w' → store_ok (sn_store (wl_scan w)) →
  walked nd md keys genesis head start leaf_count collect w w' ∧ wl_block w' = hd_number head.
Proof.
  induction fuel as [|fuel IH]; intros w w'; cbn [walk_chunks]; [done|].
  intros (w1 & Hstep & Hr)%bind_Ok Hs. apply walk_step_ok in Hstep as [Hw _]; [|done].
  destruct (Z.eqb_spec (wl_block w1) (hd_number head)) as [He|Hne]; [injection Hr as <-; by split|].
  apply IH in Hr as [Hw' He]; [|apply Hw]. split; [by eapply walked_trans|done].
Qed.

(** ** The commit *)
(** Only the checkpoints differ. *)
Definition same_but_checkpoints (s s' : WalletStore) : Prop :=
  ws_notes s' = ws_notes s ∧ ws_rejected s' = ws_rejected s ∧ ws_used_nullifiers s' = ws_used_nullifiers s ∧
  ws_genesis_hash s' = ws_genesis_hash s ∧ ws_next_leaf s' = ws_next_leaf s ∧ ws_last_synced_block s' = ws_last_synced_block s.

Lemma sorted_filter (P : SyncCheckpoint → Prop) `{!∀ c, Decision (P c)} l :
  StronglySorted checkpoint_lt l → StronglySorted checkpoint_lt (base.filter P l).
Proof.
  induction 1 as [|c l Hl IH Hc]; [constructor|]. rewrite filter_cons. case_decide; [|done]. constructor; [done|].
  rewrite Forall_forall in Hc |- *. intros x [_ Hx]%list_elem_of_filter. by apply Hc.
Qed.
Lemma sorted_snoc l c : StronglySorted checkpoint_lt l → Forall (λ x, checkpoint_lt x c) l → StronglySorted checkpoint_lt (l ++ [c]).
Proof.
  induction 1 as [|x l Hl IH Hx]; intros Hf; [by repeat constructor|]. apply Forall_cons in Hf as [Hxc Hf]. cbn. constructor; [auto|].
  apply Forall_app. split; [done|]. by apply Forall_singleton.
Qed.
Lemma sorted_drop k l : StronglySorted checkpoint_lt l → StronglySorted checkpoint_lt (drop k l).
Proof. revert k. induction l as [|x l IH]; intros [|k] Hl; try done. cbn. apply IH. by apply StronglySorted_inv in Hl as [? _]. Qed.

Lemma record_checkpoint_ok c s :
  store_ok s →
  let s' := record_checkpoint (cp_block_number c) (cp_block_hash c) (cp_next_leaf c) s in
  store_ok s' ∧ same_but_checkpoints s s' ∧ newest_checkpoint s' = Some c.
Proof.
  intros [Hn Hr Hs Hc Hb]. cbn zeta. unfold record_checkpoint, newest_checkpoint. destruct c as [bn bh nl]. cbn [cp_block_number cp_block_hash cp_next_leaf].
  set (c := {| cp_block_number := bn; cp_block_hash := bh; cp_next_leaf := nl |}). set (kept := base.filter _ _).
  split_and!; [|done..|].
  - constructor; cbn; [done..| |].
    + apply sorted_drop, sorted_snoc; [by apply sorted_filter|]. apply Forall_forall. intros x [Hx _]%list_elem_of_filter. exact Hx.
    + rewrite length_drop. lia.
  - cbn. rewrite drop_app_le by (rewrite length_app; unfold MAX_CHECKPOINTS; cbn; lia). apply last_snoc.
Qed.

Lemma record_checkpoints_ok l s :
  store_ok s →
  let s' := foldl (λ s c, record_checkpoint (cp_block_number c) (cp_block_hash c) (cp_next_leaf c) s) s l in
  store_ok s' ∧ same_but_checkpoints s s' ∧ (∀ c, last l = Some c → newest_checkpoint s' = Some c).
Proof.
  cbn zeta. induction l as [|c l IH] using rev_ind; intros Hs; [done|]. rewrite foldl_app. cbn [foldl].
  destruct (IH Hs) as (Hok & Hsame & _). destruct (record_checkpoint_ok c _ Hok) as (Hok' & Hsame' & Hnew).
  split_and!; [done| |intros c' Hc'; rewrite last_snoc in Hc'; congruence].
  unfold same_but_checkpoints in *. destruct Hsame as (?&?&?&?&?&?), Hsame' as (?&?&?&?&?&?). split_and!; congruence.
Qed.

(** A note after the reconciliation and the orphan marking. *)
Definition seen_above (head_block : Z) (n : StoredNote) : bool :=
  match sn_spent_seen_at_block n with Some seen => head_block <? seen | None => false end.
Definition settled_note (used : gset Hash256) (head_block : Z) (rescan : bool) (n n' : StoredNote) : Prop :=
  secrets n' = secrets n ∧
  sn_spent n' = bool_decide (sn_nullifier n ∈ used) || (sn_spent n && (rescan || seen_above head_block n)) ∧
  (sn_spent n = true → sn_spent n' = true → sn_spent_seen_at_block n' = sn_spent_seen_at_block n) ∧
  (rescan = true → sn_on_chain n' = sn_on_chain n).

Lemma reconcile_settles used head_block rescan n :
  settled_note used head_block rescan n (reconcile_note used head_block (if rescan then AddOnly else BothWays) n).1.
Proof.
  unfold settled_note, reconcile_note. destruct (bool_decide (sn_nullifier n ∈ used)); destruct (sn_spent n) eqn:Hsp; cbn; try done.
  destruct rescan; cbn; [done|]. fold (seen_above head_block n). destruct (seen_above head_block n); done.
Qed.
Lemma reconcile_on_chain used head_block dir n : sn_on_chain (reconcile_note used head_block dir n).1 = sn_on_chain n.
Proof. unfold reconcile_note. by repeat case_match. Qed.

(** The output [c] with the nullifier [nf], in a committed store. *)
Definition accounted (c nf : Hash256) s : Prop :=
  (∃ n, n ∈ ws_notes s ∧ sn_commitment n = c ∧ sn_on_chain n = true) ∨
  (c ∈ rn_commitment <$> ws_rejected s ∧ nf ∈ ws_used_nullifiers s).

Lemma vanished_note (start : Z) (seen : gset Hash256) (n : StoredNote) :
  let n' := (if (start <=? sn_leaf_index n) && negb (bool_decide (sn_commitment n ∈ seen)) then mark_off_chain n else (n, false)).1 in
  secrets n' = secrets n ∧ sn_spent n' = sn_spent n ∧ sn_spent_seen_at_block n' = sn_spent_seen_at_block n ∧
  (sn_commitment n ∈ seen → sn_on_chain n' = sn_on_chain n).
Proof.
  cbn zeta. destruct (bool_decide_reflect (sn_commitment n ∈ seen)) as [Hin|Hin]; [by rewrite andb_false_r|].
  split_and!; [..|done]; destruct (_ && _); try done; unfold mark_off_chain; by destruct (_ || _).
Qed.

Lemma bind_genesis_ok genesis s r s' : bind_genesis genesis s = Ok (r, s') → s' = set_genesis (Some genesis) s.
Proof.
  unfold bind_genesis, ensure_genesis. destruct s as [? ? [g|] ? ? ? ? ? ? ? ?]; cbn; intros Hb; res_inv; by subst.
Qed.

(** The notes after the commit's three writes over them. *)
Definition committed_note (used : gset Hash256) (head_block start : Z) (rescan marks : bool) (seen : gset Hash256) (n : StoredNote) : StoredNote :=
  let n := (reconcile_note used head_block (if rescan then AddOnly else BothWays) n).1 in
  if marks then (if (start <=? sn_leaf_index n) && negb (bool_decide (sn_commitment n ∈ seen)) then mark_off_chain n else (n, false)).1 else n.

Lemma committed_note_spec used head_block start rescan marks seen n :
  (rescan = true → marks = false) →
  settled_note used head_block rescan n (committed_note used head_block start rescan marks seen n) ∧
  ((marks = true → sn_commitment n ∈ seen) → sn_on_chain (committed_note used head_block start rescan marks seen n) = sn_on_chain n).
Proof.
  intros Hm. unfold committed_note. cbn zeta. set (n1 := (reconcile_note _ _ _ n).1).
  pose proof (reconcile_settles used head_block rescan n) as (Hsec & Hsp & Hsn & Hon). fold n1 in Hsec, Hsp, Hsn, Hon.
  assert (Hon1 : sn_on_chain n1 = sn_on_chain n) by apply reconcile_on_chain.
  assert (Hc1 : sn_commitment n1 = sn_commitment n) by (unfold secrets in Hsec; congruence).
  destruct marks; [|done]. destruct (vanished_note start seen n1) as (Vsec & Vsp & Vsn & Von). cbn zeta in *.
  split; [split_and!; [congruence|congruence|intros E1 E2; rewrite Vsn; apply Hsn; congruence|intros Hr; by specialize (Hm Hr)]|].
  intros Hin. rewrite Von; [done|]. rewrite Hc1. auto.
Qed.

Lemma commit_ok genesis head start leaf_count rescan rewound w s' cleared reconciled vanished recorded cp :
  commit_pass genesis head start leaf_count rescan rewound w = Ok (s', (cleared, reconciled, vanished, recorded)) →
  store_ok (sn_store (wl_scan w)) → last (wl_checkpoints w) = Some cp →
  let s := sn_store (wl_scan w) in
  store_ok s' ∧ keeps_secrets s s' ∧ ws_next_leaf s' = leaf_count ∧ ws_last_synced_block s' = hd_number head ∧
  newest_checkpoint s' = Some cp ∧ ws_genesis_hash s' = Some genesis ∧ ws_used_nullifiers s' = ws_used_nullifiers s ∧
  (∀ c nf, tracked (rewound && negb rescan) c nf (wl_scan w) → accounted c nf s') ∧
  Forall2 (settled_note (ws_used_nullifiers s) (hd_number head) rescan) (ws_notes s) (ws_notes s').
Proof.
  unfold commit_pass. intros Hc Hs Hlast. cbn zeta. set (s := sn_store (wl_scan w)) in *.
  set (marks := rewound && negb rescan) in *. set (seen := sn_seen (wl_scan w)) in *.
  assert (Hm : rescan = true → marks = false) by (intros ->; unfold marks; apply andb_false_r).
  pose (s1 := (if start <? leaf_count then prune_rejected s else (s, 0)).1).
  assert (H1s : store_ok s1 ∧ same_position s s1 ∧ ws_notes s1 = ws_notes s ∧
    ∀ c, c ∈ rn_commitment <$> ws_rejected s → c ∈ sn_commitment <$> ws_notes s ∨ c ∈ rn_commitment <$> ws_rejected s1).
  { unfold s1. destruct (start <? leaf_count); [|split_and!; [done|reflexivity|done|by right]].
    destruct (prune_ok s Hs) as (? & _ & ? & ? & ? & _). done. }
  destruct H1s as (Hok1 & Hpos1 & Hnotes1 & Hrej1).
  destruct (reconcile_ok (hd_number head) (if rescan then AddOnly else BothWays) s1 Hok1) as (Hok2 & _ & Hpos2 & Hrej2 & _).
  set (s2 := (reconcile_spent (hd_number head) (if rescan then AddOnly else BothWays) s1).1) in *.
  pose (s3 := (if marks then mark_vanished start seen s2 else (s2, 0)).1).
  assert (H3s : store_ok s3 ∧ same_position s2 s3 ∧ ws_rejected s3 = ws_rejected s2 ∧
    ws_notes s3 = committed_note (ws_used_nullifiers s) (hd_number head) start rescan marks seen <$> ws_notes s).
  { assert (Hn2 : ws_notes s2 = (λ n, (reconcile_note (ws_used_nullifiers s) (hd_number head) (if rescan then AddOnly else BothWays) n).1) <$> ws_notes s).
    { unfold s2. cbn. rewrite <- list_fmap_compose, Hnotes1. destruct Hpos1 as (_ & _ & _ & -> & _). done. }
    unfold s3, committed_note. destruct marks; [|split_and!; [done|reflexivity|done|done]].
    destruct (walk_notes_ok _ s2 (gentle_mark_off_chain (λ n, (start <=? sn_leaf_index n) && negb (bool_decide (sn_commitment n ∈ seen)))) Hok2)
      as (? & _ & ? & ? & _). split_and!; [done|done|done|]. unfold mark_vanished, walk_notes. cbn [fst ws_notes set_notes]. rewrite Hn2, <- list_fmap_compose. done. }
  destruct H3s as (Hok3 & Hpos3 & Hrej3 & Hnotes3).
  pose (s4 := set_position (hd_number head) leaf_count (ws_checkpoints s3) s3).
  assert (Hok4 : store_ok s4) by (destruct Hok3; by constructor).
  destruct (record_checkpoints_ok (wl_checkpoints w) s4 Hok4) as (Hok5 & Hsame5 & Hnew). set (s5 := foldl _ s4 _) in *.
  assert (Hbind : ∃ r, bind_genesis genesis s5 = Ok (r, s')).
  { clear -Hc. revert Hc. unfold s5, s4, s3, s2, s1. destruct (if start <? leaf_count then _ else _) as [a1 c1]. cbn [fst].
    destruct (reconcile_spent _ _ a1) as [a2 r2]. cbn [fst]. destruct (if marks then mark_vanished start seen a2 else (a2, 0)) as [a3 v3]. cbn [fst].
    intros ([r sx] & Hx%map_err_Ok & Hr)%bind_Ok. injection Hr as <- <- <- <- <-. by exists r. }
  destruct Hbind as [r ->%bind_genesis_ok].
  destruct Hsame5 as (N5 & R5 & U5 & _ & L5 & B5), Hpos1 as (_ & _ & _ & U1 & _), Hpos2 as (_ & _ & _ & U2 & _), Hpos3 as (_ & _ & _ & U3 & _).
  assert (Hused : ws_used_nullifiers s5 = ws_used_nullifiers s) by (rewrite U5; cbn; congruence).
  assert (Hnotes : ws_notes s5 = committed_note (ws_used_nullifiers s) (hd_number head) start rescan marks seen <$> ws_notes s)
    by (rewrite N5; exact Hnotes3).
  cbn [set_genesis ws_next_leaf ws_last_synced_block ws_genesis_hash ws_used_nullifiers ws_notes].
  split_and!; [by destruct Hok5| |by rewrite L5|by rewrite B5|by apply Hnew|done|done| |].
  - unfold keeps_secrets. cbn. rewrite Hnotes, <- list_fmap_compose. exists []. rewrite app_nil_r.
    apply list_fmap_ext. intros i n _. by apply committed_note_spec.
  - intros c nf (Hon & Hseen & Hin). unfold accounted. cbn. rewrite Hnotes, Hused.
    assert (Hheld : c ∈ sn_commitment <$> ws_notes s → ∃ n, n ∈ committed_note (ws_used_nullifiers s) (hd_number head) start rescan marks seen <$> ws_notes s
      ∧ sn_commitment n = c ∧ sn_on_chain n = true).
    { intros Hc'. pose proof Hc' as (n & -> & Hn)%list_elem_of_fmap. eexists. split; [by apply list_elem_of_fmap_2|].
      destruct (committed_note_spec (ws_used_nullifiers s) (hd_number head) start rescan marks seen n Hm) as ((Hsec & _) & Hoc).
      split; [unfold secrets in Hsec; congruence|]. rewrite Hoc by auto. by apply Hon. }
    destruct Hin as [Hin|[Hin Hnf]]; [left; auto|]. destruct (Hrej1 c Hin) as [?|Hin1]; [left; auto|right].
    rewrite R5. cbn. rewrite Hrej3, Hrej2. done.
  - rewrite Hnotes. apply Forall2_fmap_r, Forall_Forall2_diag, Forall_true. intros n. by apply committed_note_spec.
Qed.
End Pass.
