(* ===== verification/WalletSyncTheorems.v ===== *)
(** * What a committed pass guarantees *)

From stdpp Require Import base option numbers list gmap sorting.
From S2P Require Import Prelude Crypto NoteRules Header CircuitMerkle WalletTyping WalletTypingProps WalletText WalletExtrinsic WalletChain WalletChainProps WalletStore WalletStoreProps WalletSync WalletSyncProps.
#[local] Open Scope Z_scope.

Section Theorems.
Context `{HeaderCodec, ScaleCompact, BodyOps}.
Implicit Types (rep : SyncReport) (g : Gates) (nd : Node) (s : WalletStore) (keys : WalletKeys) (md : ChainMetadata) (head : ChainHead).

(** ** A pass, taken apart *)
Lemma rewind_ok block leaf s : store_ok s → store_ok (rewind_to block leaf s).
Proof.
  intros [Hn Hr Hs Hc Hb]. constructor; cbn; [done..| |].
  - by apply sorted_filter.
  - etrans; [|exact Hb]. apply length_filter.
Qed.

Lemma apply_stance_ok stance rescan s :
  store_ok s → store_ok (apply_stance stance rescan s).1 ∧ ws_notes (apply_stance stance rescan s).1 = ws_notes s.
Proof.
  intros Hs. unfold apply_stance. destruct rescan; [by split; [apply rewind_ok|]|]. destruct stance; [done|by split; [apply rewind_ok|]].
Qed.

Record passed nd md keys (rescan : bool) s s' (rep : SyncReport) (g : Gates) (settled : gset Hash256) (s0 : WalletStore) (w : Walk) : Prop := {
  pd_gates : sync_gates nd md rescan s = Ok g;
  pd_settled : used_nullifiers_at nd (hd_hash (gt_head g)) = Ok settled;
  pd_start : store_ok s0 ∧ ws_notes s0 = ws_notes s ∧ ws_used_nullifiers s0 = settled ∧ ws_next_leaf s0 = rp_scanned_from rep;
  pd_walk : ∀ collect, collect = bool_decide (is_Some (rp_rewind rep)) && negb rescan → ∃ w0,
    walked nd md keys (gt_genesis g) (gt_head g) (rp_scanned_from rep) (gt_leaf_count g) collect w0 w ∧
    sn_store (wl_scan w0) = s0 ∧ wl_cursor w0 = rp_scanned_from rep ∧
    ∃ fuel entries, walk_chunks fuel nd md keys (gt_genesis g) (gt_head g) (rp_scanned_from rep) (gt_leaf_count g) entries collect w0 = Ok w;
  pd_end : wl_block w = hd_number (gt_head g) ∧ wl_cursor w = gt_leaf_count g;
  pd_report : rp_head_block rep = hd_number (gt_head g) ∧ rp_scanned_to rep = gt_leaf_count g ∧ rp_add_only rep = rescan;
  pd_commit : ∃ cleared reconciled vanished recorded, commit_pass (gt_genesis g) (gt_head g) (rp_scanned_from rep) (gt_leaf_count g)
     rescan (bool_decide (is_Some (rp_rewind rep))) w = Ok (s', (cleared, reconciled, vanished, recorded));
}.

Lemma sync_passed nd md keys rescan s s' rep :
  sync_with nd md keys rescan s = Ok (s', rep) → store_ok s → ∃ g settled s0 w, passed nd md keys rescan s s' rep g settled s0 w.
Proof.
  unfold sync_with. intros (g & Hg & Hr)%bind_Ok Hs. destruct (apply_stance_ok (gt_stance g) rescan s Hs) as [Hok0 Hn0].
  destruct (apply_stance (gt_stance g) rescan s) as [s1 rewind]. cbn [fst] in *.
  apply bind_Ok in Hr as (settled & Hset%map_err_Ok & Hr). cbn zeta in Hr. set (s0 := set_used_nullifiers settled s1) in *.
  assert (Hok : store_ok s0) by (destruct Hok0; by constructor).
  apply bind_Ok in Hr as ([block hash] & _ & Hr). apply bind_Ok in Hr as (entries & _ & Hr). apply bind_Ok in Hr as (w & Hw & Hr).
  pose proof Hw as Hchunks. apply walk_chunks_ok in Hw as [Hw Hend]; [|done]. apply bind_Ok in Hr as ([] & Hcur & Hr). apply ensure_Ok, Z.eqb_eq in Hcur.
  apply bind_Ok in Hr as ([s2 [[[cleared reconciled] vanished] recorded]] & Hcommit & Hr). injection Hr as <- <-.
  exists g, settled, s0, w. constructor; cbn; try done.
  - intros collect ->. eexists. split; [exact Hw|]. split_and!; [done|done|]. by eexists _, _.
  - by eexists _, _, _, _.
Qed.

Lemma passed_checkpoint nd md keys rescan s s' rep g settled s0 w :
  passed nd md keys rescan s s' rep g settled s0 w →
  ∃ new, last (wl_checkpoints w) = Some new ∧
    new = {| cp_block_number := hd_number (gt_head g); cp_block_hash := hd_hash (gt_head g); cp_next_leaf := gt_leaf_count g |}.
Proof.
  intros [_ _ _ Hw [Hb Hc] _ _]. destruct (Hw _ eq_refl) as (w0 & [_ _ _ _ _ (new & Hcps & Hlast) Htop] & _).
  eexists. rewrite Hcps, last_app, Hlast, Htop by done. rewrite Hb, Hc. done.
Qed.

Lemma passed_store nd md keys rescan s s' rep g settled s0 w :
  passed nd md keys rescan s s' rep g settled s0 w →
  store_ok (sn_store (wl_scan w)) ∧ only_adds s (sn_store (wl_scan w)) ∧ ws_used_nullifiers (sn_store (wl_scan w)) = settled.
Proof.
  intros [_ _ (Hok & Hn & Hu & _) Hw _ _ _]. destruct (Hw _ eq_refl) as (w0 & [(Hok' & Hadd & Hpos) _ _ _ _ _ _] & E & _). rewrite E in *.
  split_and!; [done| |by destruct Hpos as (_ & _ & _ & -> & _)].
  transitivity s0; [by apply only_adds_same_notes|done].
Qed.

Lemma sync_gates_Ok nd md rescan s g :
  sync_gates nd md rescan s = Ok g →
  chain_head nd = Ok (gt_head g) ∧ genesis_hash nd = Ok (gt_genesis g) ∧ leaf_count_at nd (hd_hash (gt_head g)) = Ok (gt_leaf_count g).
Proof.
  unfold sync_gates. intros (u & _ & Hr)%bind_Ok. apply bind_Ok in Hr as (genesis & Hgen%map_err_Ok & Hr).
  apply bind_Ok in Hr as (u1 & _ & Hr). apply bind_Ok in Hr as (head & Hhead%map_err_Ok & Hr).
  apply bind_Ok in Hr as ([stance by_] & _ & Hr). apply bind_Ok in Hr as (count & Hcount%map_err_Ok & Hr).
  apply bind_Ok in Hr as (u2 & _ & Hr). by injection Hr as <-.
Qed.

Lemma passed_commit nd md keys rescan s s' rep g settled s0 w :
  passed nd md keys rescan s s' rep g settled s0 w →
  store_ok s' ∧ keeps_secrets s s' ∧ ws_next_leaf s' = rp_scanned_to rep ∧ ws_last_synced_block s' = rp_head_block rep ∧
  newest_checkpoint s' = Some {| cp_block_number := hd_number (gt_head g); cp_block_hash := hd_hash (gt_head g); cp_next_leaf := gt_leaf_count g |} ∧
  ws_genesis_hash s' = Some (gt_genesis g) ∧ ws_used_nullifiers s' = settled ∧
  (∀ c nf, tracked (bool_decide (is_Some (rp_rewind rep)) && negb rescan) c nf (wl_scan w) → accounted c nf s') ∧
  Forall2 (settled_note settled (hd_number (gt_head g)) rescan) (ws_notes (sn_store (wl_scan w))) (ws_notes s').
Proof.
  intros P. destruct (passed_store _ _ _ _ _ _ _ _ _ _ _ P) as (Hokw & Hadd & Hset).
  destruct (passed_checkpoint _ _ _ _ _ _ _ _ _ _ _ P) as (cp & Hlast & ->).
  destruct P as [_ _ _ _ _ (Hh & Ht & _) (cl & re & va & rc & Hcommit)].
  destruct (commit_ok _ _ _ _ _ _ _ _ _ _ _ _ _ Hcommit Hokw Hlast) as (Hok' & Hk & Hnl & Hls & Hnew & Hgen & Hu & Hacc & Hsn).
  rewrite Hset in *. split_and!; try done; [|congruence..]. etrans; [by apply only_adds_secrets|done].
Qed.

(** C24: a pass never loses a secret. From a well-formed store, a committed
    pass leaves a well-formed store: commitments held once, refusals listed
    once, at most sixteen checkpoints in ascending order. Every note keeps its
    place in the list with its value, its nullifier and the secrets that open
    it, a rescan and a fork included; and the store stands exactly at the head
    it was read from, bound to its chain. *)
Theorem pass_keeps_every_secret nd md keys rescan s s' rep
    (Hok : store_ok s) (Hpass : sync_with nd md keys rescan s = Ok (s', rep)) :
  store_ok s' ∧ keeps_secrets s s' ∧ ws_next_leaf s' = rp_scanned_to rep ∧ ws_last_synced_block s' = rp_head_block rep ∧
  ∃ head genesis, chain_head nd = Ok head ∧ genesis_hash nd = Ok genesis ∧ ws_genesis_hash s' = Some genesis ∧
    newest_checkpoint s' = Some {| cp_block_number := hd_number head; cp_block_hash := hd_hash head; cp_next_leaf := ws_next_leaf s' |}.
Proof.
  destruct (sync_passed _ _ _ _ _ _ _ Hpass Hok) as (g & settled & s0 & w & P).
  destruct (passed_commit _ _ _ _ _ _ _ _ _ _ _ P) as (Hok' & Hk & Hnl & Hls & Hnew & Hgen & _).
  destruct P as [(Hhead & Hgenesis & _)%sync_gates_Ok _ _ _ _ (Hh & Ht & _) _].
  split_and!; try done. exists (gt_head g), (gt_genesis g). split_and!; try done. rewrite Hnl, Ht. done.
Qed.

Lemma block_payloads_spec md body : ∀ out payloads,
  fold_result (λ out extrinsic, more ← extrinsic_payloads md extrinsic; Ok (out ++ more)) out body = Ok payloads →
  (∀ p, p ∈ out → p ∈ payloads) ∧ ∀ x, x ∈ body → ∃ ps, extrinsic_payloads md x = Ok ps ∧ ∀ p, p ∈ ps → p ∈ payloads.
Proof.
  induction body as [|x body IH]; intros out payloads; cbn [fold_result]; [intros [= <-]; split; [done|by intros x ?%elem_of_nil]|].
  intros (out1 & (ps & Hps & [= <-])%bind_Ok & Hr)%bind_Ok. apply IH in Hr as [Hout Hall]. split; [set_solver|].
  intros y [->|Hy]%elem_of_cons; [|by apply Hall]. exists ps. split; [done|]. set_solver.
Qed.

(** What a committed pass has settled about one leaf record: its block's body
    was served and matched the header's extrinsics root; every extrinsic of it
    was decoded, and the ciphertexts of those whose outermost call is one of
    the shielded pallet's were collected; and every note they hold for this
    wallet under the leaf's commitment is in the store. *)
Definition leaf_settled nd md keys (genesis : Hash256) s (r : LeafRecord) : Prop :=
  ∃ c n b body payloads, lr_commitment r = Some c ∧ lr_block_number r = Some n ∧ served nd b ∧ vb_number b = n ∧
    authenticated_body nd b = Ok body ∧ chain_payloads md body = Ok payloads ∧
    (∀ p note, p ∈ payloads → wk_open keys p = Some note → rc_commitment note = c → accounted c (wk_nullifier keys note) s) ∧
    (∀ v note, lr_coinbase_value r = Some v → receive_coinbase keys genesis n v c = Some note → accounted c (wk_nullifier keys note) s) ∧
    (∀ x, x ∈ body → ∃ ps, extrinsic_payloads md x = Ok ps ∧ ∀ p, p ∈ ps → p ∈ payloads).

Lemma pass_settles_leaves nd md keys rescan s s' rep
    (Hok : store_ok s) (Hpass : sync_with nd md keys rescan s = Ok (s', rep)) :
  ∃ head genesis, chain_head nd = Ok head ∧ genesis_hash nd = Ok genesis ∧
    leaf_count_at nd (hd_hash head) = Ok (rp_scanned_to rep) ∧
    ∀ i, rp_scanned_from rep ≤ i < rp_scanned_to rep →
      ∃ r, leaf_record nd (hd_hash head) (rp_scanned_to rep) i = Ok r ∧ leaf_settled nd md keys genesis s' r.
Proof.
  destruct (sync_passed _ _ _ _ _ _ _ Hpass Hok) as (g & settled & s0 & w & P).
  destruct (passed_commit _ _ _ _ _ _ _ _ _ _ _ P) as (_ & _ & _ & _ & _ & _ & _ & Hacc & _).
  destruct P as [(Hhead & Hgenesis & Hcount)%sync_gates_Ok _ _ Hw [_ Hcur] (_ & Ht & _) _].
  exists (gt_head g), (gt_genesis g). rewrite Ht. split_and!; try done. intros i Hi.
  destruct (Hw _ eq_refl) as (w0 & [_ _ _ Hleaves _ _ _] & _ & Hc0 & _). destruct (Hleaves i) as (r & Hr & Hread); [lia|].
  exists r. split; [done|]. destruct Hread as (c & n & b & body & payloads & ? & ? & ? & ? & ? & ? & Hp & Hcb).
  exists c, n, b, body, payloads. split_and!; eauto.
  match goal with Hp : chain_payloads md body = Ok payloads |- _ => apply map_err_Ok in Hp; exact (proj2 (block_payloads_spec md body [] payloads Hp)) end.
Qed.


(** C23: the spent flags follow the chain. After a pass a note is spent exactly
    when its nullifier is in the set the node proved at the head, or it was
    spent before the pass and either its spend had been seen at a height above
    that head or the pass is a rescan. Every note keeps its place and its
    secrets, and on a rescan no note on the chain leaves it. *)
Theorem spent_flags_follow_the_chain nd md keys rescan s s' rep
    (Hok : store_ok s) (Hpass : sync_with nd md keys rescan s = Ok (s', rep)) :
  (∃ head, chain_head nd = Ok head ∧ used_nullifiers_at nd (hd_hash head) = Ok (ws_used_nullifiers s') ∧ rp_head_block rep = hd_number head) ∧
  (∀ i n', ws_notes s' !! i = Some n' →
     (sn_spent n' = true ↔ sn_nullifier n' ∈ ws_used_nullifiers s' ∨
        ∃ n, ws_notes s !! i = Some n ∧ sn_spent n = true ∧ (rescan = true ∨ seen_above (rp_head_block rep) n = true))) ∧
  (∀ i n, ws_notes s !! i = Some n → ∃ n', ws_notes s' !! i = Some n' ∧ secrets n' = secrets n ∧
     (rescan = true → sn_on_chain n = true → sn_on_chain n' = true)).
Proof.
  destruct (sync_passed _ _ _ _ _ _ _ Hpass Hok) as (g & settled & s0 & w & P).
  destruct (passed_commit _ _ _ _ _ _ _ _ _ _ _ P) as (Hok' & _ & _ & _ & _ & _ & Hu & _ & Hsn).
  destruct (passed_store _ _ _ _ _ _ _ _ _ _ _ P) as (_ & (l & extra & Hl & Hkept & Hfresh) & _).
  destruct P as [(Hhead & _ & _)%sync_gates_Ok Hset _ _ _ (Hh & _ & _) _]. rewrite Hu, Hh. split_and!.
  - by exists (gt_head g).
  - intros i n' Hi. destruct (Forall2_lookup_r _ _ _ _ _ Hsn Hi) as (m & Hm & Hsec & Hsp & _ & _).
    assert (Hnf : sn_nullifier n' = sn_nullifier m) by (unfold secrets in Hsec; congruence).
    rewrite Hnf, Hsp, orb_true_iff, bool_decide_eq_true, andb_true_iff, orb_true_iff. apply or_iff_compat_l. rewrite Hl in Hm.
    apply lookup_app_Some in Hm as [Hm|[Hge Hm]].
    + destruct (Forall2_lookup_r _ _ _ _ _ Hkept Hm) as (n & Hn & _ & Hsp0 & Hseen0 & _). unfold seen_above. rewrite Hsp0, Hseen0. split; [by exists n|].
      intros (n1 & Hn1 & Hrest). by simplify_eq.
    + destruct (Forall_lookup_1 _ _ _ _ Hfresh Hm) as [Hf _]. rewrite Hf. split; [by intros [? _]|]. intros (n1 & Hn1%lookup_lt_Some & _).
      apply Forall2_length in Hkept. lia.
  - intros i n Hi. destruct (Forall2_lookup_l _ _ _ _ _ Hkept Hi) as (m & Hm & Hsec & Hsp & _ & Hon).
    assert (Hm' : ws_notes (sn_store (wl_scan w)) !! i = Some m) by (rewrite Hl; by apply lookup_app_l_Some).
    destruct (Forall2_lookup_l _ _ _ _ _ Hsn Hm') as (n' & Hn' & Hsec' & Hsp' & _ & Hon'). exists n'. split_and!; [done|congruence|].
    intros ->. by rewrite Hon'.
Qed.

(** ** Where the node stands *)
(** A checkpoint the node's chain still holds. *)
Definition stands nd head (c : SyncCheckpoint) : Prop :=
  cp_block_number c ≤ hd_number head ∧ block_hash_at_height nd (cp_block_number c) = Ok (Some (cp_block_hash c)).
Definition replaced nd head (c : SyncCheckpoint) : Prop :=
  cp_block_number c ≤ hd_number head ∧ ∃ h, block_hash_at_height nd (cp_block_number c) = Ok (Some h) ∧ h ≠ cp_block_hash c.
Definition above_head head (c : SyncCheckpoint) : Prop := hd_number head < cp_block_number c.

(** What the walk over the checkpoints, newest first, has found: the ones
    before the first that stands are above the head or were replaced. *)
Definition stance_of nd head (above forked : bool) (l : list SyncCheckpoint) (r : result SyncError NodeStance) : Prop :=
  ∃ newer rest, l = newer ++ rest ∧ Forall (λ c, above_head head c ∨ replaced nd head c) newer ∧
    Forall (stands nd head) (take 1 rest) ∧
    let any_forked := forked = true ∨ Exists (replaced nd head) newer in
    let any_above := above = true ∨ Exists (above_head head) newer in
    match r with
    | Ok Current => ¬ any_forked ∧ ¬ any_above
    | Ok (Forked b n) => any_forked ∧ (b, n) = match rest with c :: _ => (cp_block_number c, cp_next_leaf c) | [] => (0, 0) end
    | Err e => e = BehindThisWallet ∧ ¬ any_forked ∧ any_above
    end.

Lemma stance_stops nd head above forked rest :
  Forall (stands nd head) (take 1 rest) →
  stance_of nd head above forked rest
    (if forked then Ok (match rest with c :: _ => Forked (cp_block_number c) (cp_next_leaf c) | [] => Forked 0 0 end)
     else if above then Err BehindThisWallet else Ok Current).
Proof.
  intros Hr. exists [], rest. cbn zeta. split_and!; [done|constructor|done|].
  assert (Hnil : ∀ P : SyncCheckpoint → Prop, ¬ Exists P []) by (intros P Hex; inversion Hex).
  destruct forked; [destruct rest; naive_solver|]. destruct above; naive_solver.
Qed.
Lemma stance_steps nd head above forked above' forked' c l r :
  (above' = true ↔ above = true ∨ above_head head c) → (forked' = true ↔ forked = true ∨ replaced nd head c) →
  above_head head c ∨ replaced nd head c →
  stance_of nd head above' forked' l r → stance_of nd head above forked (c :: l) r.
Proof.
  intros Ha Hf Hc (newer & rest & -> & Hn & Hr & Hm). exists (c :: newer), rest. cbn zeta in *.
  split_and!; [done|by constructor|done|]. destruct r as [[|b n]|e]; rewrite !Exists_cons; tauto.
Qed.

Lemma stance_walk_spec nd head l : ∀ above forked r,
  stance_walk nd head above forked l = r → (∀ n, r ≠ Err (MissingCheckpointBlock n)) → (∀ e, r ≠ Err (ChainE e)) →
  stance_of nd head above forked l r.
Proof.
  induction l as [|c l IH]; intros above forked r; cbn [stance_walk].
  { intros <- _ _. apply (stance_stops nd head above forked []). constructor. }
  destruct (Z.ltb_spec (hd_number head) (cp_block_number c)) as [Hlt|Hge].
  { intros Hr Hm He. eapply (stance_steps nd head above forked true forked); [..|by eapply IH]; unfold above_head, replaced; naive_solver lia. }
  intros Hr Hm He. destruct (block_hash_at_height nd (cp_block_number c)) as [[h|]|e] eqn:Hb; cbn in Hr.
  2: { by destruct (Hm (cp_block_number c)). }
  2: { by destruct (He e). }
  destruct (bool_decide_reflect (h = cp_block_hash c)) as [->|Hne]; cbn [negb] in Hr.
  - assert (Hs : Forall (stands nd head) (take 1 (c :: l))) by (cbn; rewrite Forall_singleton; done).
    rewrite <- Hr. exact (stance_stops nd head above forked (c :: l) Hs).
  - assert (Hrep : replaced nd head c) by (split; [done|by exists h]).
    eapply (stance_steps nd head above forked above true); [..|by eapply IH]; [unfold above_head; naive_solver lia|naive_solver|by right].
Qed.

(** Where the node stands is read exactly. With the checkpoints taken
    newest first up to the first one the node's chain still holds: none before
    it means the node is current; a replaced one among them means a fork, and
    the scan falls back to that standing checkpoint, or to the genesis when
    none stands; only checkpoints above the head, with no fork, mean the node
    is behind and the pass is refused. The other refusals are a node that has
    no answer. *)
Theorem stance_is_read_exactly nd head s :
  stance_of nd head false false (rev (ws_checkpoints s)) (read_node_stance nd head s) ∨
  (∃ n, read_node_stance nd head s = Err (MissingCheckpointBlock n)) ∨ (∃ e, read_node_stance nd head s = Err (ChainE e)).
Proof.
  pose proof (stance_walk_spec nd head (rev (ws_checkpoints s)) false false _ eq_refl) as Hs. fold (read_node_stance nd head s) in Hs.
  destruct (read_node_stance nd head s) as [st|e]; [left; by apply Hs|]. destruct e; try (left; by apply Hs); eauto.
Qed.
(** ** The pass ends, and its own checks agree *)
(** The outcomes that would be a fault of the wallet, or of its store, and not
    of the node: every error but a refused answer of the node, a genesis that
    is not the one the store is bound to, a node behind the store, and a walk
    that does not fit what it served before. *)
Definition internal (e : SyncError) : bool :=
  match e with
  | OutOfFuel | HalvesDisagree _ | NoBlocksInWalk | NoCheckpointAtWatermark _ | BadCheckpointHash _ => true
  | StoreE (OtherChain _ _) => false
  | StoreE _ => true
  | MetadataE _ | ChainE _ | TypingE _ | MissingCheckpointBlock _ | BehindThisWallet | ShortTree _ _ | WalkLandsElsewhere _ | Unaccounted _ _ => false
  end.

(** A store a pass can resume from: the newest checkpoint is at the watermark,
    and every checkpoint names a 32-byte hash. *)
Definition sound_hash (c : SyncCheckpoint) : Prop := length (cp_block_hash c) = 32%nat.
Definition anchored s : Prop :=
  Forall sound_hash (ws_checkpoints s) ∧ (ws_next_leaf s = 0 ∨ cp_next_leaf <$> newest_checkpoint s = Some (ws_next_leaf s)).

Lemma sound_filter (P : SyncCheckpoint → Prop) `{∀ x, Decision (P x)} l : Forall sound_hash l → Forall sound_hash (base.filter P l).
Proof. rewrite !Forall_forall. intros Hl x [_ Hx]%list_elem_of_filter. by apply Hl. Qed.
Lemma filter_split_last (l r : list SyncCheckpoint) c :
  StronglySorted checkpoint_lt ((l ++ [c]) ++ r) →
  base.filter (λ x, cp_block_number x ≤ cp_block_number c) ((l ++ [c]) ++ r) = l ++ [c].
Proof.
  intros Hs. rewrite <- app_assoc in Hs. apply StronglySorted_app in Hs as (Hlc & _ & Hr). cbn [app] in Hr. apply StronglySorted_inv in Hr as [_ Hr].
  rewrite !filter_app. assert (Hc1 : base.filter (λ x, cp_block_number x ≤ cp_block_number c) [c] = [c]) by (rewrite filter_cons_True by done; done).
  rewrite Hc1. rewrite Forall_forall in Hr.
  assert (Hl : base.filter (λ x, cp_block_number x ≤ cp_block_number c) l = l).
  { clear -Hlc. induction l as [|x l IH]; [done|]. assert (Hxc : checkpoint_lt x c) by (apply Hlc; [by left|by left]).
    rewrite filter_cons_True by (unfold checkpoint_lt in Hxc; lia). f_equal. apply IH. intros y z Hy. apply Hlc. by right. }
  assert (Hn : base.filter (λ x, cp_block_number x ≤ cp_block_number c) r = []).
  { clear -Hr. induction r as [|x r IH]; [done|]. rewrite filter_cons_False; [apply IH; intros; apply Hr; by right|].
    assert (Hcx : checkpoint_lt c x) by (apply Hr; by left). unfold checkpoint_lt in Hcx. lia. }
  by rewrite Hl, Hn, app_nil_r.
Qed.

Lemma forked_checkpoint nd head s b n : read_node_stance nd head s = Ok (Forked b n) →
  n = 0 ∨ ∃ l c r, ws_checkpoints s = (l ++ [c]) ++ r ∧ b = cp_block_number c ∧ n = cp_next_leaf c.
Proof.
  intros Hr. assert (Hs : stance_of nd head false false (rev (ws_checkpoints s)) (Ok (Forked b n))) by (rewrite <- Hr; apply stance_walk_spec; [done|by rewrite Hr..]).
  destruct Hs as (newer & rest & Hl & _ & _ & _ & Hb). destruct rest as [|c rest]; [injection Hb as _ ->; by left|right].
  injection Hb as -> ->. exists (rev rest), c, (rev newer). split_and!; [|done|done].
  apply (f_equal (@rev _)) in Hl. rewrite rev_involutive, rev_app_distr in Hl. exact Hl.
Qed.

Lemma apply_stance_anchored nd head rescan s stance : store_ok s → anchored s →
  (rescan = false → read_node_stance nd head s = Ok stance) → anchored (apply_stance stance rescan s).1.
Proof.
  intros Hok [Hh Hn] Hst. unfold apply_stance. destruct rescan; [split; [by apply sound_filter|by left]|].
  specialize (Hst eq_refl). destruct stance as [|b n]; [by split|].
  split; [by apply sound_filter|]. cbn [fst ws_next_leaf rewind_to set_position].
  destruct (forked_checkpoint nd head s b n Hst) as [->|(l & c & r & Hc & -> & ->)]; [by left|right].
  unfold newest_checkpoint. cbn [ws_checkpoints rewind_to set_position]. pose proof (so_checkpoints s Hok) as Hso. rewrite Hc in Hso |- *.
  by rewrite filter_split_last, last_snoc by done.
Qed.

(** The checkpoints of a walk, and of the store it is committed to. *)
Lemma block_hash_sound nd n h : block_hash_at_height nd n = Ok (Some h) → length h = 32%nat.
Proof.
  unfold block_hash_at_height. intros (o & _ & Hr)%bind_Ok. destruct o as [x|]; [|done]. apply bind_Ok in Hr as (y & Hy%decode_hash_Ok & [= <-]). by destruct Hy.
Qed.
Lemma chain_block_hash_sound nd n h : chain_block_hash nd n = Ok h → length h = 32%nat.
Proof. unfold chain_block_hash. intros (o & Ho & ->%ok_or_Ok)%bind_Ok. by eapply block_hash_sound. Qed.
Lemma walk_step_checkpoints nd md keys genesis head start leaf_count entries collect w w' :
  walk_step nd md keys genesis head start leaf_count entries collect w = Ok w' → length (hd_hash head) = 32%nat →
  Forall sound_hash (wl_checkpoints w) → Forall sound_hash (wl_checkpoints w').
Proof.
  unfold walk_step. cbn zeta. intros (top & Htop & Hr)%bind_Ok Hh Hw.
  assert (Ht : length top = 32%nat).
  { destruct (_ =? hd_number head); [by injection Htop as <-|]. apply map_err_Ok in Htop. by eapply chain_block_hash_sound. }
  apply bind_Ok in Hr as (bs & _ & Hr). apply bind_Ok in Hr as (an & _ & Hr). apply bind_Ok in Hr as (u & _ & Hr).
  destruct (start <? leaf_count).
  - apply bind_Ok in Hr as (f & _ & Hr). apply bind_Ok in Hr as (rs & _ & Hr). apply bind_Ok in Hr as (u1 & _ & Hr).
    apply bind_Ok in Hr as ([f' typed] & _ & Hr). apply bind_Ok in Hr as (sc & _ & [= <-]). apply Forall_app. split; [done|]. by apply Forall_singleton.
  - apply bind_Ok in Hr as (u1 & _ & [= <-]). apply Forall_app. split; [done|]. by apply Forall_singleton.
Qed.
Lemma walk_chunks_checkpoints nd md keys genesis head start leaf_count entries collect fuel : ∀ w w',
  walk_chunks fuel nd md keys genesis head start leaf_count entries collect w = Ok w' → length (hd_hash head) = 32%nat →
  Forall sound_hash (wl_checkpoints w) → Forall sound_hash (wl_checkpoints w').
Proof.
  induction fuel as [|fuel IH]; intros w w'; cbn [walk_chunks]; [done|]. intros (w1 & Hstep & Hr)%bind_Ok Hh Hw.
  apply walk_step_checkpoints in Hstep; [|done..]. destruct (_ =? _); [by injection Hr as <-|by eapply IH].
Qed.
Lemma record_checkpoints_sound l : ∀ s, Forall sound_hash l → Forall sound_hash (ws_checkpoints s) →
  Forall sound_hash (ws_checkpoints (foldl (λ s c, record_checkpoint (cp_block_number c) (cp_block_hash c) (cp_next_leaf c) s) s l)).
Proof.
  induction l as [|c l IH]; intros s Hl Hs; [done|]. apply Forall_cons in Hl as [Hc Hl]. cbn [foldl]. apply IH; [done|].
  cbn. apply Forall_drop, Forall_app. split; [by apply sound_filter|by apply Forall_singleton].
Qed.
Lemma commit_checkpoints genesis head start leaf_count rescan rewound w s' x :
  commit_pass genesis head start leaf_count rescan rewound w = Ok (s', x) →
  Forall sound_hash (wl_checkpoints w) → Forall sound_hash (ws_checkpoints (sn_store (wl_scan w))) → Forall sound_hash (ws_checkpoints s').
Proof.
  unfold commit_pass. intros Hc Hw Hs. set (s := sn_store (wl_scan w)) in *.
  assert (H1s : ws_checkpoints (if start <? leaf_count then prune_rejected s else (s, 0)).1 = ws_checkpoints s) by (by destruct (start <? leaf_count)).
  destruct (if start <? leaf_count then _ else _) as [s1 cl]. cbn [fst] in H1s.
  destruct (reconcile_spent _ _ s1) as [s2 re] eqn:E2. assert (H2s : ws_checkpoints s2 = ws_checkpoints s1) by (unfold reconcile_spent in E2; by injection E2 as <- _).
  assert (H3s : ∀ b : bool, ws_checkpoints (if b then mark_vanished start (sn_seen (wl_scan w)) s2 else (s2, 0)).1 = ws_checkpoints s2) by (intros []; done).
  specialize (H3s (rewound && negb rescan)). destruct (if rewound && negb rescan then _ else _) as [s3 va]. cbn [fst] in H3s.
  apply bind_Ok in Hc as ([r s5] & Hb%map_err_Ok & [= <- _]). unfold bind_genesis in Hb. apply bind_Ok in Hb as (u & _ & Hb).
  assert (E5 : ws_checkpoints s5 = ws_checkpoints (foldl (λ s c, record_checkpoint (cp_block_number c) (cp_block_hash c) (cp_next_leaf c) s)
    (set_position (hd_number head) leaf_count (ws_checkpoints s3) s3) (wl_checkpoints w))).
  { destruct (ws_genesis_hash _); by injection Hb as _ <-. }
  rewrite E5. apply record_checkpoints_sound; [done|]. cbn. congruence.
Qed.
Definition faultless {A} (m : result SyncError A) : Prop := ∀ e, m = Err e → internal e = false.

Lemma faultless_Ok {A} (x : A) : faultless (Ok x).
Proof. by intros e. Qed.
Lemma faultless_bind {A B} (m : result SyncError A) (f : A → result SyncError B) :
  faultless m → (∀ x, m = Ok x → faultless (f x)) → faultless (m ≫= f).
Proof. intros Hm Hf e He. apply bind_Err in He as [He|(x & Hx & He)]; [by apply Hm|by apply (Hf x)]. Qed.
Lemma faultless_map_err {E A} (f : E → SyncError) (m : result E A) : (∀ e, internal (f e) = false) → faultless (map_err f m).
Proof. intros Hf e. destruct m; cbn; [done|]. by intros [= <-]. Qed.
Lemma faultless_ensure b e : internal e = false → faultless (ensure b e).
Proof. intros He e'. destruct b; cbn; [done|]. by intros [= <-]. Qed.
Lemma faultless_ok_or {A} (o : option A) e : internal e = false → faultless (ok_or o e).
Proof. intros He e'. destruct o; cbn; [done|]. by intros [= <-]. Qed.
Lemma faultless_Err {A} e : internal e = false → faultless (A:=A) (Err e).
Proof. by intros He e' [= <-]. Qed.
Lemma faultless_fold {A B} (f : A → B → result SyncError A) l : (∀ x y, y ∈ l → faultless (f x y)) → ∀ x, faultless (fold_result f x l).
Proof.
  induction l as [|y l IH]; intros Hf x; [apply faultless_Ok|]. cbn [fold_result]. apply faultless_bind.
  - apply Hf. by left.
  - intros z _. apply IH. intros x' y' Hy. apply Hf. by right.
Qed.
Create HintDb faultless discriminated.
#[local] Hint Resolve faultless_Ok faultless_map_err faultless_ensure faultless_ok_or faultless_Err : faultless.
(** One statement of a monadic body at a time. *)
Ltac faultless_step :=
  match goal with
  | |- faultless (_ ≫= _) => apply faultless_bind; [|intros ? ?]
  | |- faultless (mbind _ _) => apply faultless_bind; [|intros ? ?]
  | |- faultless (if ?b then _ else _) => destruct b eqn:?
  | |- faultless (match ?x with _ => _ end) => destruct x eqn:?
  | |- faultless _ => solve [auto with faultless]
  end.

Lemma stance_walk_faultless nd head above forked l : faultless (stance_walk nd head above forked l).
Proof. revert above forked. induction l as [|c l IH]; intros above forked; cbn [stance_walk]; repeat first [apply IH|faultless_step]. Qed.

(** The typing says ours exactly where the rebuilt note is received. *)
Lemma halves_agree keys genesis block v c :
  mv_coinbase_commitment (miner_view keys genesis) block v = Some c → is_Some (receive_coinbase keys genesis block v c).
Proof.
  cbn. unfold receive_coinbase. destruct (wk_coinbase_note keys genesis block v) as [note|]; cbn; [|done].
  intros [= <-]. rewrite bool_decide_eq_true_2 by done. by eexists.
Qed.

Lemma authenticated_ours miner p f blocks scanned typed f' :
  authenticated miner p f blocks scanned typed f' → ∀ tl v d, tl ∈ typed → tl_kind tl = Coinbase true v d →
  mv_coinbase_commitment miner (tl_block_number tl) v = Some (tl_commitment tl).
Proof.
  induction 1 as [|p f b bs run rest typed more f' Hp Hn Hk Hroot Hau IH]; intros tl v d Htl Hkind; [by apply not_elem_of_nil in Htl|].
  apply elem_of_app in Htl as [Htl|Htl]; [|by eapply IH]. pose proof (run_kinds_length _ _ _ Hk) as Hrl.
  apply list_elem_of_lookup in Htl as [i Hi]. destruct (lookup_lt_is_Some_2 run i) as [r Hr]; [rewrite Hrl; by eapply lookup_lt_Some|].
  destruct (run_kinds_lookup _ _ _ _ _ _ Hk Hr Hi) as [_ Hright]. unfold right_kind in Hright. destruct (bool_decide (S i = _)).
  - destruct Hright as (v' & dis & _ & Hk'). rewrite Hkind in Hk'. injection Hk' as Hours <- _. symmetry in Hours. by apply bool_decide_eq_true in Hours.
  - destruct Hright as [_ ?]. congruence.
Qed.

Lemma coinbase_fold_faultless keys genesis miner p f blocks scanned typed f' :
  authenticated miner p f blocks scanned typed f' → miner = miner_view keys genesis →
  ∀ acc, faultless (fold_result (coinbase_step keys genesis) acc typed).
Proof.
  intros Hau ->. apply faultless_fold. intros [received events] tl Htl. unfold coinbase_step.
  destruct (tl_kind tl) as [|ours v d] eqn:Hk; [apply faultless_Ok|].
  destruct (receive_coinbase _ _ _ _ _) as [note|] eqn:Hr; [apply faultless_Ok|]. destruct ours; [|apply faultless_Ok].
  destruct (halves_agree keys genesis (tl_block_number tl) v (tl_commitment tl)) as [note Hnote]; [|congruence].
  by eapply authenticated_ours.
Qed.

Lemma walk_step_faultless nd md keys genesis head start leaf_count entries collect w :
  faultless (walk_step nd md keys genesis head start leaf_count entries collect w).
Proof.
  unfold walk_step, scan_chunk, complete_record. cbn zeta. repeat faultless_step.
  - match goal with Hc : map_err ChainE (header_chain _ _ _) = Ok ?l |- _ => apply map_err_Ok, header_chain_Ok in Hc as (_ & _ & _ & Hlen & _);
      destruct l; [done|apply faultless_Ok] end.
  - apply faultless_fold. intros u r _. repeat faultless_step.
  - match goal with Ht : map_err TypingE (type_chunk _ ?bs _ _) = Ok _ |- _ => apply map_err_Ok in Ht; destruct bs as [|b bs]; [done|];
      apply type_chunk_authenticated in Ht; by eapply coinbase_fold_faultless end.
  - apply faultless_fold. intros r b _. unfold body_step. repeat faultless_step.
Qed.

(** Each chunk but the last is [HEADER_WALK_LIMIT] blocks of progress. *)
Lemma walk_chunks_faultless nd md keys genesis head start leaf_count entries collect fuel : ∀ w,
  hd_number head < 2 ^ 32 → hd_number head - wl_block w < Z.of_nat fuel → (0 < fuel)%nat → store_ok (sn_store (wl_scan w)) →
  faultless (walk_chunks fuel nd md keys genesis head start leaf_count entries collect w).
Proof.
  induction fuel as [|fuel IH]; intros w Hhead Hfuel Hpos Hs; [lia|]. cbn [walk_chunks]. apply faultless_bind; [apply walk_step_faultless|].
  intros w1 Hstep. apply walk_step_ok in Hstep as [Hw Hb]; [|done]. destruct (Z.eqb_spec (wl_block w1) (hd_number head)); [apply faultless_Ok|].
  unfold sat_add, HEADER_WALK_LIMIT, u_max in Hb. apply IH; [done|lia|lia|apply Hw].
Qed.

Lemma head_below nd head : (∀ raw, nd_best nd = Some raw → in_u 32 (rh_number raw)) → chain_head nd = Ok head →
  hd_number head < 2 ^ 32 ∧ length (hd_hash head) = 32%nat.
Proof.
  intros Hhead Hch. unfold chain_head in Hch. apply bind_Ok in Hch as (raw & Hraw%ok_or_Ok & Hch). apply bind_Ok in Hch as (hash & Hh & [= <-]).
  cbn. split; [apply (Hhead raw Hraw)|by eapply chain_block_hash_sound].
Qed.
Lemma ensure_genesis_faultless genesis s : faultless (map_err StoreE (ensure_genesis genesis s)).
Proof.
  unfold ensure_genesis. destruct (ws_genesis_hash s) as [b|]; [|apply faultless_Ok]. intros e. unfold ensure. destruct (bool_decide _); cbn; [done|]. by intros [= <-].
Qed.
Lemma commit_faultless genesis head start leaf_count rescan rewound w : faultless (commit_pass genesis head start leaf_count rescan rewound w).
Proof.
  unfold commit_pass. destruct (if start <? leaf_count then _ else _) as [s1 cl]. destruct (reconcile_spent _ _ s1) as [s2 re].
  destruct (if rewound && negb rescan then _ else _) as [s3 va]. cbn zeta. apply faultless_bind; [|intros [? ?] _; apply faultless_Ok].
  intros e. set (s := foldl _ _ _). clearbody s. unfold bind_genesis. pose proof (ensure_genesis_faultless genesis s) as Hg.
  destruct (ensure_genesis genesis s) as [[]|x]; cbn [mbind result_bind map_err].
  - destruct (ws_genesis_hash s); done.
  - intros [= <-]. by apply Hg.
Qed.
Lemma trusted_bottom_faultless genesis s : anchored s → faultless (trusted_bottom genesis s).
Proof.
  intros [Hh Hn]. unfold trusted_bottom. destruct (Z.eqb_spec (ws_next_leaf s) 0) as [|Hz]; [apply faultless_Ok|]. destruct Hn as [|Hn]; [done|].
  destruct (newest_checkpoint s) as [c|] eqn:Hc; [|done]. injection Hn as Hn. unfold newest_checkpoint in Hc. apply last_Some_elem_of in Hc.
  rewrite Forall_forall in Hh. cbn [ok_or mbind result_bind]. rewrite Hn, Z.eqb_refl. cbn [ensure mbind result_bind].
  rewrite (proj2 (Nat.eqb_eq _ _) (Hh c Hc)). apply faultless_Ok.
Qed.
Lemma gates_stance nd md rescan s g : sync_gates nd md rescan s = Ok g → rescan = false → read_node_stance nd (gt_head g) s = Ok (gt_stance g).
Proof.
  unfold sync_gates. intros (u & _ & Hr)%bind_Ok Hre. apply bind_Ok in Hr as (gen & _ & Hr). apply bind_Ok in Hr as (u1 & _ & Hr).
  apply bind_Ok in Hr as (head & _ & Hr). apply bind_Ok in Hr as ([st by_] & Hst & Hr). apply bind_Ok in Hr as (cnt & _ & Hr).
  apply bind_Ok in Hr as (u2 & _ & [= <-]). cbn. destruct (read_node_stance nd head s); [by injection Hst as -> _|]. rewrite Hre in Hst. done.
Qed.
Lemma sync_faultless nd md keys rescan s :
  store_ok s → anchored s → (∀ raw, nd_best nd = Some raw → in_u 32 (rh_number raw)) → faultless (sync_with nd md keys rescan s).
Proof.
  intros Hok Hanch Hhead. unfold sync_with. apply faultless_bind.
  { unfold sync_gates. repeat first [apply ensure_genesis_faultless|faultless_step]. apply faultless_Err. by eapply stance_walk_faultless. }
  intros g Hg. destruct (apply_stance_ok (gt_stance g) rescan s Hok) as [Hok0 _].
  pose proof (apply_stance_anchored nd (gt_head g) rescan s (gt_stance g) Hok Hanch (gates_stance _ _ _ _ _ Hg)) as Ha0.
  destruct (apply_stance (gt_stance g) rescan s) as [s1 rewind]. cbn [fst] in Hok0, Ha0. cbn zeta.
  apply sync_gates_Ok in Hg as (Hch & _ & _). destruct (head_below nd _ Hhead Hch) as [Hlt _].
  apply faultless_bind; [apply faultless_map_err; done|]. intros settled _. apply faultless_bind; [by apply trusted_bottom_faultless|].
  intros [block hash] _. apply faultless_bind; [apply faultless_map_err; done|]. intros entries _. apply faultless_bind.
  { apply walk_chunks_faultless; cbn; [done|lia|lia|]. by destruct Hok0. }
  intros w _. apply faultless_bind; [by apply faultless_ensure|]. intros u _. apply faultless_bind; [apply commit_faultless|].
  intros [s2 [[[cl re] va] rc]] _. apply faultless_Ok.
Qed.
Lemma sync_anchored nd md keys rescan s s' rep :
  store_ok s → anchored s → (∀ raw, nd_best nd = Some raw → in_u 32 (rh_number raw)) →
  sync_with nd md keys rescan s = Ok (s', rep) → anchored s'.
Proof.
  intros Hok Hanch Hhead Hpass. pose proof Hpass as Hrun. destruct (sync_passed _ _ _ _ _ _ _ Hpass Hok) as (g & settled & s0 & w & P).
  destruct (passed_commit _ _ _ _ _ _ _ _ _ _ _ P) as (_ & _ & Hnl & _ & Hnew & _). pose proof P as [Hg _ _ _ _ (_ & Ht & _) _].
  split; [|right; rewrite Hnew; cbn; by rewrite Hnl, Ht].
  unfold sync_with in Hrun. apply bind_Ok in Hrun as (g' & Hg' & Hr). rewrite Hg in Hg'. injection Hg' as <-.
  pose proof (apply_stance_anchored nd (gt_head g) rescan s (gt_stance g) Hok Hanch (gates_stance _ _ _ _ _ Hg)) as [Ha0 _].
  destruct (apply_stance_ok (gt_stance g) rescan s Hok) as [Hok0 _]. destruct (apply_stance (gt_stance g) rescan s) as [s1 rewind]. cbn [fst] in Ha0, Hok0.
  apply sync_gates_Ok in Hg as (Hch & _ & _). destruct (head_below nd _ Hhead Hch) as [_ Hh].
  apply bind_Ok in Hr as (st & _ & Hr). cbn zeta in Hr. apply bind_Ok in Hr as ([block hash] & _ & Hr). apply bind_Ok in Hr as (entries & _ & Hr).
  apply bind_Ok in Hr as (w' & Hw & Hr). apply bind_Ok in Hr as (u & _ & Hr). apply bind_Ok in Hr as ([s2 x] & Hc & Hr).
  assert (s2 = s') as -> by (destruct x as [[[? ?] ?] ?]; by injection Hr). apply commit_checkpoints in Hc; [done| |].
  - eapply walk_chunks_checkpoints; [exact Hw|done|constructor].
  - apply walk_chunks_ok in Hw as [[(_ & _ & Hpos) _ _ _ _ _ _] _]; [|by destruct Hok0]. by destruct Hpos as (_ & _ & -> & _).
Qed.

End Theorems.
