(* ===== verification/WalletSyncWitnesses.v ===== *)
(** * A pass over a concrete chain

    A node with a genesis and one block that appended a payment and a coinbase
    of the wallet, and the passes of a fresh store over it: the first one, and
    a rescan. *)

From stdpp Require Import base option numbers list gmap strings.
From S2P Require Import Prelude Crypto ZkTree ZkTreeProps NoteRules Header CircuitMerkle CircuitMerkleProps WalletTyping WalletText WalletExtrinsic WalletChain WalletChainProps WalletStore WalletStoreProps WalletSync WalletSyncProps WalletSyncTheorems.
#[local] Open Scope Z_scope.
Import CircuitMerkle CircuitHeader.

Module ToySync.
Import ToyCrypto ToyHeader ScaleFormat ToyExtrinsic ToyChain.

Definition payment : Hash256 := toy_cm 21.
Definition reward : Hash256 := toy_cm 22.
Definition note (v : Z) (c : Hash256) (memo : list Z) : ReceivedNote :=
  {| rc_value := v; rc_rho := replicate 32 v; rc_r := zero_hash; rc_memo := memo; rc_commitment := c |}.
Definition keys : WalletKeys := {|
  wk_author_label _ := label;
  wk_coinbase_note _ block v := Some (note v reward []);
  wk_open p := if bool_decide (p = [1; 2]) then Some (note 1000 payment [104; 105; 0; 0]) else None;
  wk_nullifier n := 99 :: rc_rho n;
  wk_entry_rho block i := replicate 32 (2000 + i) |}.

Definition root_of (l : list Hash256) : Hash256 :=
  match frontier_root (foldl push frontier_new l) with Ok r => r | Err _ => [] end.
Definition block_header (parent : Hash256) (n : Z) (ext root : Hash256) : RawHeader :=
  {| rh_parent_hash := parent; rh_number := n; rh_state_root := zero_hash; rh_extrinsics_root := ext; rh_zk_tree_root := root;
     rh_logs := honest_logs |}.
Definition header_g : RawHeader := block_header zero_hash 0 zero_hash (root_of []).
Definition le (w : nat) (v : Z) : list Z := (λ i, v / 2 ^ (8 * Z.of_nat i) mod 256) <$> seq 0 w.

(** A chain of one block above the genesis, which appended [pay] and then the
    coinbase [rew]. *)
Definition header_over (pay rew : Hash256) (body : list (list Z)) : RawHeader :=
  block_header (hash_of header_g) 1 (sponge (concat body)) (root_of [pay; rew]).
Definition storage (pay rew : Hash256) (k : StorageKey) : option (list Z) :=
  match k with
  | KLeafCount => Some (le 8 2)
  | KEntryCount => Some (le 8 1)
  | KLeaves i => if i =? 0 then Some pay else if i =? 1 then Some rew else None
  | KLeafBlocks i => if i <? 2 then Some (le 4 1) else None
  | KCoinbaseValues i => if i =? 1 then Some (le 8 500) else None
  end.
Definition node_over (pay rew : Hash256) (body : list (list Z)) : Node :=
  let header := header_over pay rew body in
  let hash_g := hash_of header_g in
  let hash_1 := hash_of header in {|
  nd_best := Some header;
  nd_header h := if bool_decide (h = hash_g) then Some header_g else if bool_decide (h = hash_1) then Some header else None;
  nd_block_hash n := Some (if n =? 0 then Some hash_g else if n =? 1 then Some hash_1 else None);
  nd_storage _ k := Some (storage pay rew k);
  nd_nullifiers _ := Some [];
  nd_body h := Some (if bool_decide (h = hash_1) then Some body else Some []) |}.
Definition node : Node := node_over payment reward [toy_bare].
Definition fresh_store : WalletStore := store_new [1; 2; 3].
Definition empty_report : SyncReport :=
  {| rp_head_block := 0; rp_scanned_from := 0; rp_scanned_to := 0; rp_events := []; rp_rewind := None; rp_add_only := false; rp_bypassed := false;
     rp_rejected_cleared := 0; rp_reconciliation := {| newly_spent := 0; newly_unspent := 0; held_spent := 0 |}; rp_vanished := 0;
     rp_entry_walk_truncated := None; rp_recorded_genesis := false |}.
Definition run (nd : Node) (k : WalletKeys) (rescan : bool) (s : WalletStore) : WalletStore * SyncReport :=
  match sync_with nd toy_md k rescan s with Ok r => r | Err _ => (fresh_store, empty_report) end.
Definition synced : WalletStore * SyncReport := run node keys false fresh_store.
Definition rescanned : WalletStore * SyncReport := run node keys true synced.1.

(** The first pass finds both notes; the payment came by a batch. *)
Example first_pass :
  (λ n, (sn_value n, sn_leaf_index n, sn_memo n, sn_origin n)) <$> ws_notes synced.1 =
    [(1000, 0, [104; 105], Spend); (500, 1, [], CoinbaseOrigin)] ∧
  rp_scanned_to synced.2 = 2 ∧ length (ws_checkpoints synced.1) = 1%nat.
Proof. vm_compute. repeat split; reflexivity. Qed.

Lemma fresh_ok : store_ok fresh_store.
Proof. constructor; cbn; try constructor. lia. Qed.
(** A pass that is seen to end in a report [test] accepts is the one [run]
    reads. *)
Definition passes (test : WalletStore → SyncReport → bool) (r : result SyncError (WalletStore * SyncReport)) : bool :=
  match r with Ok (s, rep) => test s rep | Err _ => false end.
Lemma run_passes nd k rescan s test :
  passes test (sync_with nd toy_md k rescan s) = true →
  sync_with nd toy_md k rescan s = Ok ((run nd k rescan s).1, (run nd k rescan s).2) ∧
  test (run nd k rescan s).1 (run nd k rescan s).2 = true.
Proof. unfold run. destruct (sync_with nd toy_md k rescan s) as [[s' rep]|e]; done. Qed.
Definition scanned_two (s : WalletStore) (rep : SyncReport) : bool := (rp_scanned_from rep =? 0) && (rp_scanned_to rep =? 2).
Lemma synced_passes : passes scanned_two (sync_with node toy_md keys false fresh_store) = true.
Proof. vm_compute. reflexivity. Qed.
Lemma synced_Ok : sync_with node toy_md keys false fresh_store = Ok (synced.1, synced.2).
Proof. exact (proj1 (run_passes _ _ _ _ _ synced_passes)). Qed.
Lemma rescanned_passes : passes (λ _ _, true) (sync_with node toy_md keys true synced.1) = true.
Proof. vm_compute. reflexivity. Qed.
Lemma rescanned_Ok : sync_with node toy_md keys true synced.1 = Ok (rescanned.1, rescanned.2).
Proof. exact (proj1 (run_passes _ _ _ _ _ rescanned_passes)). Qed.

Lemma pass_keeps_every_secret_witness :
  store_ok fresh_store ∧ store_ok synced.1 ∧ keeps_secrets fresh_store synced.1 ∧
  store_ok rescanned.1 ∧ keeps_secrets synced.1 rescanned.1.
Proof.
  split; [exact fresh_ok|].
  destruct (pass_keeps_every_secret node toy_md keys false fresh_store _ _ fresh_ok synced_Ok) as (Hs & Hk & _).
  destruct (pass_keeps_every_secret node toy_md keys true synced.1 _ _ Hs rescanned_Ok) as (Hs' & Hk' & _).
  exact (conj Hs (conj Hk (conj Hs' Hk'))).
Defined.

Lemma scanned_two_eq s rep : scanned_two s rep = true → rp_scanned_from rep = 0 ∧ rp_scanned_to rep = 2.
Proof. unfold scanned_two. intros [Hf Ht]%andb_prop. split; by apply Z.eqb_eq. Qed.
Lemma scanned_range : rp_scanned_from synced.2 = 0 ∧ rp_scanned_to synced.2 = 2.
Proof. exact (scanned_two_eq _ _ (proj2 (run_passes _ _ _ _ _ synced_passes))). Qed.


Lemma spent_flags_follow_the_chain_witness :
  (∃ head, chain_head node = Ok head ∧ used_nullifiers_at node (hd_hash head) = Ok (ws_used_nullifiers synced.1) ∧
    rp_head_block synced.2 = hd_number head) ∧
  ∀ i n', ws_notes synced.1 !! i = Some n' → sn_nullifier n' ∈ ws_used_nullifiers synced.1 → sn_spent n' = true.
Proof.
  destruct (spent_flags_follow_the_chain node toy_md keys false fresh_store _ _ fresh_ok synced_Ok) as (Hhead & Hspent & _).
  split; [exact Hhead|]. intros i n' Hi Hin. exact (proj2 (Hspent i n' Hi) (or_introl Hin)).
Defined.

Lemma best_header_u32 : ∀ raw, nd_best node = Some raw → in_u 32 (rh_number raw).
Proof. intros raw Hraw. cbn in Hraw. injection Hraw as <-. vm_compute. split; [discriminate|reflexivity]. Qed.
Lemma fresh_anchored : anchored fresh_store.
Proof. split; [constructor|left; reflexivity]. Qed.
End ToySync.
