(* ===== verification/Profile.v ===== *)
(** * The protocol profile

    [crates/qnero-circuit/src/profile.rs]: the 192 bytes a chain names its
    release with, and the check a wallet makes before it builds a circuit. The
    constants are those of [Layout], [NoteRules] and [params.rs]. *)

From stdpp Require Import base option list numbers strings.
From S2P Require Import Prelude Crypto NoteRules Layout.
#[local] Open Scope Z_scope.

(** ** [params.rs] *)
Definition SECURITY_BITS : Z := 100.
Definition NUM_CHALLENGES : Z := 2.
Definition FRI_NUM_QUERY_ROUNDS : Z := 28.
Definition FRI_RATE_BITS : Z := 3.
Definition FRI_CAP_HEIGHT : Z := 4.
Definition FRI_PROOF_OF_WORK_BITS : Z := 16.
Definition LEAF_DEGREE_BITS : Z := 9.
Definition PRIVATE_BATCH_NUM_WIRES : Z := 135.
Definition PRIVATE_BATCH_NUM_ROUTED_WIRES : Z := 60.

(** ** [profile.rs] *)
Definition PROFILE_LEN : nat := 192.
Definition PROFILE_VERSION : Z := 1.
Definition EXPERIMENTAL_PROOF_SYSTEM : bool := true.
Definition CIPHERTEXT_RETENTION_BLOCKS : Z := 0.
Definition MAX_OUTPUTS_PER_BLOCK : Z := 2048.
Definition RELEASE_NUM_LEAVES : nat := 6.
Definition RELEASE_NUM_PRIVATE_BATCHES : nat := 53.
Definition LEAF_DIGEST_OFFSET : nat := 96.
Definition PRIVATE_DIGEST_OFFSET : nat := 128.
Definition PUBLIC_DIGEST_OFFSET : nat := 160.

Definition RELEASE_LEAF_DIGEST : Hash256 :=
  [0xc6; 0xa2; 0xc9; 0x1f; 0x8b; 0xb6; 0x09; 0x0d; 0x57; 0x74; 0x5b; 0xaf; 0xb2; 0x62; 0x26; 0x02;
   0xff; 0xc2; 0xa9; 0xed; 0x50; 0xab; 0xa0; 0x84; 0x7d; 0xad; 0x53; 0xec; 0x94; 0xc4; 0xf5; 0x36].
Definition RELEASE_PRIVATE_DIGEST : Hash256 :=
  [0xf0; 0xe7; 0x36; 0xd1; 0x4a; 0x20; 0x68; 0x24; 0xbf; 0xcc; 0x32; 0xb2; 0x7e; 0x67; 0x02; 0x81;
   0x4c; 0xba; 0xf2; 0x9e; 0xca; 0xc0; 0xdd; 0xda; 0xcc; 0xbc; 0x55; 0x8e; 0xdd; 0x0f; 0x77; 0x84].
Definition RELEASE_PUBLIC_DIGEST : Hash256 :=
  [0xa4; 0x82; 0xc6; 0x72; 0x1f; 0x8d; 0x71; 0x3f; 0x09; 0xb2; 0x66; 0xcb; 0x18; 0xfe; 0xaf; 0xf2;
   0x67; 0x8b; 0x34; 0x4b; 0x27; 0x0a; 0x71; 0xbf; 0x64; 0xd1; 0x8b; 0x90; 0x07; 0x80; 0x25; 0x85].

(** The bytes from [offset] are overwritten; past the end it panics. *)
Definition put (out : list Z) (offset : nat) (bytes : list Z) : option (list Z) :=
  if (offset + length bytes <=? length out)%nat then Some (take offset out ++ bytes ++ drop (offset + length bytes) out)
  else None.

(** The writes of [protocol_profile], in its order. *)
Definition profile_writes (num_leaves num_private_batches : nat) (leaf private public : Hash256) : list (nat * list Z) :=
  [ (0%nat, [81; 78; 82; 80; 82; 70; 48; 49]);
    (8%nat, le_bytes 2 PROFILE_VERSION);
    (10%nat, le_bytes 2 1); (12%nat, le_bytes 2 1); (14%nat, le_bytes 2 1); (16%nat, le_bytes 2 1); (18%nat, le_bytes 2 1);
    (20%nat, le_bytes 2 MAX_TREE_DEPTH);
    (22%nat, [4]); (23%nat, le_bytes 1 (Z.of_nat Leaf.NUM_INPUTS)); (24%nat, le_bytes 1 (Z.of_nat Leaf.NUM_OUTPUTS));
    (25%nat, [62]); (26%nat, [12]); (27%nat, [1]); (28%nat, [1]); (29%nat, [1]); (30%nat, [1]); (31%nat, [1]);
    (32%nat, le_bytes 8 10000000000);
    (40%nat, le_bytes 2 SECURITY_BITS); (42%nat, le_bytes 2 NUM_CHALLENGES); (44%nat, le_bytes 2 FRI_NUM_QUERY_ROUNDS);
    (46%nat, le_bytes 1 FRI_RATE_BITS); (47%nat, le_bytes 1 FRI_CAP_HEIGHT);
    (48%nat, le_bytes 4 FRI_PROOF_OF_WORK_BITS);
    (52%nat, le_bytes 2 LEAF_DEGREE_BITS); (54%nat, le_bytes 2 PRIVATE_BATCH_NUM_WIRES);
    (56%nat, le_bytes 2 PRIVATE_BATCH_NUM_ROUTED_WIRES);
    (58%nat, le_bytes 2 2);
    (60%nat, le_bytes 2 (Z.of_nat num_leaves)); (62%nat, le_bytes 2 (Z.of_nat num_private_batches));
    (64%nat, le_bytes 4 (Z.of_nat Leaf.PUBLIC_INPUT_LEN));
    (68%nat, le_bytes 4 (Z.of_nat (private_batch_pi_len num_leaves)));
    (72%nat, le_bytes 4 (Z.of_nat (public_batch_pi_len num_private_batches num_leaves)));
    (76%nat, [2]); (77%nat, [if EXPERIMENTAL_PROOF_SYSTEM then 1 else 0]);
    (80%nat, le_bytes 4 CIPHERTEXT_RETENTION_BLOCKS); (84%nat, le_bytes 4 MAX_OUTPUTS_PER_BLOCK);
    (92%nat, le_bytes 2 SUITE_1_CIPHERTEXT_BYTES);
    (LEAF_DIGEST_OFFSET, leaf); (PRIVATE_DIGEST_OFFSET, private); (PUBLIC_DIGEST_OFFSET, public) ].

Definition put_all (out : list Z) (writes : list (nat * list Z)) : option (list Z) :=
  foldl (λ acc w, out ← acc; put out w.1 w.2) (Some out) writes.

Definition protocol_profile (num_leaves num_private_batches : nat) (leaf private public : Hash256) : option (list Z) :=
  if (0 <? num_leaves)%nat && (num_leaves <=? MAX_PROOF_COUNT)%nat && (0 <? num_private_batches)%nat && (num_private_batches <=? MAX_PROOF_COUNT)%nat
  then put_all (replicate PROFILE_LEN 0) (profile_writes num_leaves num_private_batches leaf private public)
  else None.

Definition SUPPORTED_PROFILE : list Z :=
  default [] (protocol_profile RELEASE_NUM_LEAVES RELEASE_NUM_PRIVATE_BATCHES RELEASE_LEAF_DIGEST RELEASE_PRIVATE_DIGEST RELEASE_PUBLIC_DIGEST).

Inductive ProfileError := UnsupportedDimensions | IncompatibleProfile.
Definition ensure_supported (bytes : list Z) (num_leaves : nat) : result ProfileError unit :=
  _ ← ensure (num_leaves =? RELEASE_NUM_LEAVES)%nat UnsupportedDimensions;
  ensure (bool_decide (bytes = SUPPORTED_PROFILE)) IncompatibleProfile.

#[global] Opaque SUPPORTED_PROFILE.

(** ** Reading a profile back *)
Definition slice (offset n : nat) (l : list Z) : list Z := take n (drop offset l).

Lemma put_length out offset bytes out' : put out offset bytes = Some out' → length out' = length out.
Proof.
  unfold put. destruct (Nat.leb_spec (offset + length bytes) (length out)); [|done]. intros [= <-].
  rewrite !length_app, length_take, length_drop. lia.
Qed.
Lemma put_slice out offset bytes out' : put out offset bytes = Some out' → slice offset (length bytes) out' = bytes.
Proof.
  unfold put, slice. destruct (Nat.leb_spec (offset + length bytes) (length out)); [|done]. intros [= <-].
  rewrite drop_app_length' by (rewrite length_take; lia). by rewrite take_app_length.
Qed.
(** A field outside the written range keeps its bytes. *)
Lemma put_slice_other out offset bytes out' o n :
  put out offset bytes = Some out' → (o + n ≤ offset)%nat ∨ (offset + length bytes ≤ o)%nat → slice o n out' = slice o n out.
Proof.
  unfold put, slice. destruct (Nat.leb_spec (offset + length bytes) (length out)); [|done]. intros [= <-] Ho.
  apply list_eq. intros i. destruct (decide (i < n)%nat); [|by rewrite !lookup_take_ge by lia].
  rewrite !lookup_take_lt, !lookup_drop by done. destruct Ho as [Ho|Ho].
  - by rewrite lookup_app_l, lookup_take_lt by (rewrite ?length_take; lia).
  - rewrite lookup_app_r, length_take by (rewrite length_take; lia). rewrite lookup_app_r by lia. rewrite lookup_drop. f_equal. lia.
Qed.

(** The writes go up and stay inside the buffer. *)
Fixpoint laid_out (from total : nat) (writes : list (nat * list Z)) : Prop :=
  match writes with
  | [] => (from ≤ total)%nat
  | (o, b) :: rest => (from ≤ o)%nat ∧ laid_out (o + length b) total rest
  end.
Lemma laid_out_bound from total writes : laid_out from total writes → (from ≤ total)%nat ∧ Forall (λ w, (from ≤ w.1)%nat) writes.
Proof.
  revert from. induction writes as [|[o b] rest IH]; intros from; cbn [laid_out]; [done|].
  intros [Ho Hr]. destruct (IH _ Hr) as [? Hf]. split; [lia|]. constructor; [done|]. eapply Forall_impl; [exact Hf|]. cbn. lia.
Qed.

Lemma put_all_laid_out writes : ∀ from out, laid_out from (length out) writes →
  ∃ out', put_all out writes = Some out' ∧ length out' = length out ∧
    (∀ o b, (o, b) ∈ writes → slice o (length b) out' = b) ∧ ∀ o n, (o + n ≤ from)%nat → slice o n out' = slice o n out.
Proof.
  induction writes as [|[o b] rest IH]; intros from out Hl; cbn [laid_out] in Hl.
  { exists out. split_and!; [done|done|by intros ? ? ?%not_elem_of_nil|done]. }
  destruct Hl as [Ho Hl]. destruct (laid_out_bound _ _ _ Hl) as [Hb _].
  destruct (put out o b) as [out1|] eqn:Hput; [|unfold put in Hput; destruct (Nat.leb_spec (o + length b) (length out)); [done|lia]].
  pose proof (put_length _ _ _ _ Hput) as Hlen. rewrite <- Hlen in Hl. destruct (IH _ _ Hl) as (out' & Hall & Hlen' & Hread & Hkeep).
  exists out'. unfold put_all in *. cbn [foldl mbind option_bind fst snd]. rewrite Hput. split_and!; [done|lia| |].
  - intros o' b' [[= -> ->]|Hin]%elem_of_cons; [|by apply Hread]. rewrite Hkeep by lia. by eapply put_slice.
  - intros o' n Hn. rewrite Hkeep by lia. eapply put_slice_other; [exact Hput|]. left. lia.
Qed.

(** Verifier hashes are 32 bytes. *)
Definition digests (l p q : Hash256) : Prop := length l = 32%nat ∧ length p = 32%nat ∧ length q = 32%nat.
Definition counted (n : nat) : Prop := (0 < n ≤ MAX_PROOF_COUNT)%nat.

Lemma profile_laid_out n m l p q : digests l p q → laid_out 0 PROFILE_LEN (profile_writes n m l p q).
Proof.
  intros (Hl & Hp & Hq). unfold profile_writes, PROFILE_LEN, LEAF_DIGEST_OFFSET, PRIVATE_DIGEST_OFFSET, PUBLIC_DIGEST_OFFSET.
  cbn [laid_out length]. rewrite ?length_le_bytes, Hl, Hp, Hq. lia.
Qed.

Lemma profile_Some n m l p q :
  digests l p q → counted n → counted m →
  ∃ out, protocol_profile n m l p q = Some out ∧ length out = PROFILE_LEN ∧
    ∀ o b, (o, b) ∈ profile_writes n m l p q → slice o (length b) out = b.
Proof.
  intros Hd Hn Hm. unfold counted in *. pose proof (profile_laid_out n m l p q Hd) as Hl.
  rewrite <- (length_replicate PROFILE_LEN 0) in Hl at 1. destruct (put_all_laid_out _ _ _ Hl) as (out & Hall & Hlen & Hread & _).
  exists out. unfold protocol_profile. rewrite !(proj2 (Nat.ltb_lt _ _)), !(proj2 (Nat.leb_le _ _)) by lia. cbn [andb].
  split_and!; [done|by rewrite Hlen, length_replicate|done].
Qed.

Lemma profile_counts n m l p q out : protocol_profile n m l p q = Some out → counted n ∧ counted m.
Proof.
  unfold protocol_profile, counted. destruct (_ && _) eqn:Hc; [|done]. intros _.
  apply andb_true_iff in Hc as [Hc H4%Nat.leb_le]. apply andb_true_iff in Hc as [Hc H3%Nat.ltb_lt].
  apply andb_true_iff in Hc as [H1%Nat.ltb_lt H2%Nat.leb_le]. lia.
Qed.

(** The fields that tell two releases apart. *)
Lemma profile_fields n m l p q out :
  digests l p q → protocol_profile n m l p q = Some out →
  length out = PROFILE_LEN ∧ slice 20 2 out = le_bytes 2 MAX_TREE_DEPTH ∧ slice 92 2 out = le_bytes 2 SUITE_1_CIPHERTEXT_BYTES ∧
  slice 60 2 out = le_bytes 2 (Z.of_nat n) ∧ slice 62 2 out = le_bytes 2 (Z.of_nat m) ∧
  slice LEAF_DIGEST_OFFSET 32 out = l ∧ slice PRIVATE_DIGEST_OFFSET 32 out = p ∧ slice PUBLIC_DIGEST_OFFSET 32 out = q.
Proof.
  intros Hd Hout. destruct (profile_counts _ _ _ _ _ _ Hout) as [Hn Hm]. destruct (profile_Some n m l p q Hd Hn Hm) as (o & Ho & Hlen & Hread).
  rewrite Hout in Ho. injection Ho as <-. destruct Hd as (Hl & Hp & Hq).
  assert (Hfield : ∀ off k b, length b = k → (off, b) ∈ profile_writes n m l p q → slice off k out = b) by (intros off k b <-; apply Hread).
  split_and!; [done|..]; (apply Hfield; [first [apply length_le_bytes|done]|]);
    apply list_elem_of_In; unfold profile_writes; cbn [In]; tauto.
Qed.

Lemma two_bytes_inj (a b : nat) : counted a → counted b → le_bytes 2 (Z.of_nat a) = le_bytes 2 (Z.of_nat b) → a = b.
Proof. unfold counted, MAX_PROOF_COUNT. intros Ha Hb Heq. apply Nat2Z.inj. apply (le_bytes_inj 2); [cbn; lia..|done]. Qed.

Lemma supported_is_built :
  protocol_profile RELEASE_NUM_LEAVES RELEASE_NUM_PRIVATE_BATCHES RELEASE_LEAF_DIGEST RELEASE_PRIVATE_DIGEST RELEASE_PUBLIC_DIGEST = Some SUPPORTED_PROFILE.
Proof. vm_compute. reflexivity. Qed.

(** A profile names one release. Built from dimensions the circuits
    admit and 32-byte verifier hashes, it always fits its 192 bytes, carries
    the tree depth and the ciphertext length the chain's rules enforce, and
    two profiles are equal only when every dimension and every verifier hash
    is. The check accepts exactly one byte string, and only for a wallet
    compiled with the release's dimensions. *)
Theorem profile_names_the_release n m l p q n' m' l' p' q' out out'
    (Hd : digests l p q) (Hd' : digests l' p' q')
    (Hout : protocol_profile n m l p q = Some out) (Hout' : protocol_profile n' m' l' p' q' = Some out') :
  length out = PROFILE_LEN ∧ slice 20 2 out = le_bytes 2 MAX_TREE_DEPTH ∧ slice 92 2 out = le_bytes 2 SUITE_1_CIPHERTEXT_BYTES ∧
  (out = out' ↔ (n, m, l, p, q) = (n', m', l', p', q')) ∧
  (∀ bytes k, ensure_supported bytes k = Ok tt ↔ k = RELEASE_NUM_LEAVES ∧
     Some bytes = protocol_profile RELEASE_NUM_LEAVES RELEASE_NUM_PRIVATE_BATCHES RELEASE_LEAF_DIGEST RELEASE_PRIVATE_DIGEST RELEASE_PUBLIC_DIGEST).
Proof.
  destruct (profile_fields _ _ _ _ _ _ Hd Hout) as (Hlen & F20 & F92 & F60 & F62 & Fl & Fp & Fq).
  destruct (profile_fields _ _ _ _ _ _ Hd' Hout') as (_ & _ & _ & G60 & G62 & Gl & Gp & Gq).
  destruct (profile_counts _ _ _ _ _ _ Hout) as [Hn Hm]. destruct (profile_counts _ _ _ _ _ _ Hout') as [Hn' Hm'].
  split_and!; [done|done|done|split|].
  - intros <-. rewrite Fl in Gl. rewrite Fp in Gp. rewrite Fq in Gq. rewrite F60 in G60. rewrite F62 in G62.
    apply two_bytes_inj in G60, G62; [|done..]. congruence.
  - intros [= <- <- <- <- <-]. congruence.
  - intros bytes k. rewrite supported_is_built. unfold ensure_supported. rewrite bind_Ok. split.
    + intros ([] & Hk%ensure_Ok%Nat.eqb_eq & Hb%ensure_Ok%bool_decide_eq_true). split; [done|by f_equal].
    + intros [-> Hb]. assert (bytes = SUPPORTED_PROFILE) as -> by congruence. exists tt. split; [done|]. by apply ensure_Ok, bool_decide_eq_true.
Qed.

Lemma profile_names_the_release_witness :
  length SUPPORTED_PROFILE = PROFILE_LEN ∧ ensure_supported SUPPORTED_PROFILE 6 = Ok tt ∧ ensure_supported SUPPORTED_PROFILE 7 ≠ Ok tt.
Proof.
  destruct (profile_names_the_release RELEASE_NUM_LEAVES RELEASE_NUM_PRIVATE_BATCHES RELEASE_LEAF_DIGEST RELEASE_PRIVATE_DIGEST RELEASE_PUBLIC_DIGEST
    RELEASE_NUM_LEAVES RELEASE_NUM_PRIVATE_BATCHES RELEASE_LEAF_DIGEST RELEASE_PRIVATE_DIGEST RELEASE_PUBLIC_DIGEST _ _
    ltac:(done) ltac:(done) supported_is_built supported_is_built)
    as (Hlen & _ & _ & _ & Hs).
  split; [exact Hlen|]. split; [exact (proj2 (Hs SUPPORTED_PROFILE 6%nat) (conj eq_refl (eq_sym supported_is_built)))|].
  intros Hk. apply (Hs SUPPORTED_PROFILE 7%nat) in Hk as [Hk _]. discriminate Hk.
Defined.
