(* ===== verification/NoteCore.v ===== *)
(** * Notes, keys and addresses

    [crates/qnero-note-core] ([digest.rs], [note.rs], [keys.rs], [miner.rs])
    and [crates/qnero-notes] ([keys.rs], [address.rs]): the hash rules of a
    note, the key hierarchy under a seed, and the byte form of the miner key
    and of the address. A [Digest] is held by its canonical bytes, so
    [Digest(hash_to_felts(x))] is [hash_to_bytes x]; the bech32m coding of the
    two strings belongs to its crate. *)

From stdpp Require Import base option list numbers.
From S2P Require Import Prelude Crypto NoteRules ZkTree ZkTreeProps CircuitMerkle.
#[local] Open Scope Z_scope.

(** What the note rules rely on of the field besides [PoseidonLaws]:
    [Goldilocks::new] is [from_u64] below the modulus, a strict decode is the
    four limbs, and the byte-mode sponge answers 32 bytes. *)
Class NoteFieldLaws `{PoseidonOps} := {
  goldilocks_new_is_from_u64 z : 0 ≤ z < GOLDILOCKS_P → goldilocks_new z = from_u64 z;
  bytes_to_digest_limbs h fs : is_digest h → bytes_to_digest h = Some fs → fs = from_u64 <$> limbs h;
  hash_bytes_length x : length (hash_bytes x) = 32%nat;
}.

(** ** [digest.rs] *)
Module domain.
Definition AK : Z := 0x716e0001.
Definition PK : Z := 0x716e0002.
Definition NOTE : Z := 0x716e0003.
Definition NF : Z := 0x716e0005.
Definition RHO : Z := 0x716e0006.
Definition NF_DUMMY : Z := 0x716e0007.
Definition RHO_ENTRY : Z := 0x716e0009.
Definition RHO_COINBASE : Z := 0x716e000a.
Definition R_COINBASE : Z := 0x716e000b.
End domain.

Inductive NoteError := NonCanonicalDigest | ValueTooLarge (v : Z) | InvalidMinerKey | InvalidAddress.

(** [DS_ASK], [DS_NK], [DS_KEM], [DS_CVK] and the two labels. *)
Definition DS_ASK : list Z := [113; 110; 101; 114; 111; 47; 97; 115; 107].
Definition DS_NK : list Z := [113; 110; 101; 114; 111; 47; 110; 107].
Definition DS_KEM : list Z := [113; 110; 101; 114; 111; 47; 107; 101; 109].
Definition DS_CVK : list Z := [113; 110; 101; 114; 111; 47; 99; 118; 107].
Definition DS_CHAIN : list Z :=
  [113; 110; 101; 114; 111; 47; 99; 111; 105; 110; 98; 97; 115; 101; 45; 99; 104; 97; 105; 110].
Definition DS_LABEL : list Z := [113; 110; 101; 114; 111; 47; 97; 117; 116; 104; 111; 114; 45; 108; 97; 98; 101; 108].

Record Note := { nt_pk : Hash256; nt_value : Z; nt_rho : Hash256; nt_r : Hash256 }.
#[global] Instance Note_eq_dec : EqDecision Note.
Proof. solve_decision. Defined.

Record MinerKey := { mk_version : Z; mk_pk : Hash256; mk_cvk : Hash256 }.
Definition MINER_KEY_VERSION : Z := 1.
Definition MINER_KEY_LEN : nat := 1 + 32 + 32.

Section Core.
Context `{PoseidonOps}.
Implicit Types (n : Note).

Definition digest_from_slice (bytes : list Z) : result NoteError Hash256 :=
  _ ← ensure ((length bytes =? 32)%nat && bool_decide (is_Some (bytes_to_digest bytes))) NonCanonicalDigest; Ok bytes.

Definition digest_hash_bytes (parts : list (list Z)) : Hash256 := hash_bytes (concat parts).
Definition felts_pre (domain : Z) (parts : list (list felt)) : list felt := goldilocks_new domain :: concat parts.
Definition hash_felts (domain : Z) (parts : list (list felt)) : Hash256 := hash_to_bytes (felts_pre domain parts).
Definition dfelts : Hash256 → list felt := CircuitMerkle.felts.

(** ** [note.rs] *)
Definition note_new (pk : Hash256) (value : Z) (rho r : Hash256) : result NoteError Note :=
  _ ← ensure (value <=? MAX_VALUE) (ValueTooLarge value);
  Ok {| nt_pk := pk; nt_value := value; nt_rho := rho; nt_r := r |}.
Definition note_inner (pk rho r : Hash256) : Hash256 := hash_felts domain.NOTE [dfelts pk; dfelts rho; dfelts r].
Definition commitment_from_inner (inner : Hash256) (value : Z) : Hash256 := hash_felts CM [dfelts inner; [goldilocks_new value]].
Definition inner n : Hash256 := note_inner (nt_pk n) (nt_rho n) (nt_r n).
Definition note_commitment n : Hash256 := commitment_from_inner (inner n) (nt_value n).
Definition nullifier (nk rho r : Hash256) : Hash256 := hash_felts domain.NF [dfelts nk; dfelts rho; dfelts r].
Definition dummy_nullifier (nk rho r : Hash256) : Hash256 := hash_felts domain.NF_DUMMY [dfelts nk; dfelts rho; dfelts r].
Definition note_nullifier (nk : Hash256) n : Hash256 := nullifier nk (nt_rho n) (nt_r n).
Definition output_rho (nf_1 nf_2 : Hash256) (index : Z) : Hash256 :=
  hash_felts domain.RHO [dfelts nf_1; dfelts nf_2; [goldilocks_new index]].
Definition entry_rho (block_number entry_index : Z) : Hash256 :=
  hash_felts domain.RHO_ENTRY
    [[goldilocks_new block_number]; [goldilocks_new (Z.shiftr entry_index 32); goldilocks_new (Z.land entry_index 0xFFFFFFFF)]].
Definition coinbase_rho (block_number : Z) : Hash256 := hash_felts domain.RHO_COINBASE [[goldilocks_new block_number]].
Definition coinbase_r (cvk genesis_hash : Hash256) (block_number : Z) : Hash256 :=
  let chain := digest_hash_bytes [DS_CHAIN; genesis_hash] in
  hash_felts domain.R_COINBASE [dfelts cvk; dfelts chain; [goldilocks_new block_number]].

(** ** [keys.rs]: everything under the 32-byte seed *)
Definition derive_ak (ask : Hash256) : Hash256 := hash_felts domain.AK [dfelts ask].
Definition derive_pk (ask nk : Hash256) : Hash256 := hash_felts domain.PK [dfelts (derive_ak ask); dfelts nk].
Definition sk_ask (sk : Hash256) : Hash256 := digest_hash_bytes [DS_ASK; sk].
Definition sk_nk (sk : Hash256) : Hash256 := digest_hash_bytes [DS_NK; sk].
Definition sk_pk (sk : Hash256) : Hash256 := derive_pk (sk_ask sk) (sk_nk sk).
Definition sk_cvk (sk : Hash256) : Hash256 := digest_hash_bytes [DS_CVK; sk].
Definition sk_kem_seed (sk : Hash256) : Hash256 := digest_hash_bytes [DS_KEM; sk].

(** ** [miner.rs] *)
Definition miner_key_new (pk cvk : Hash256) : MinerKey := {| mk_version := MINER_KEY_VERSION; mk_pk := pk; mk_cvk := cvk |}.
Definition sk_miner_key (sk : Hash256) : MinerKey := miner_key_new (sk_pk sk) (sk_cvk sk).
Definition miner_key_to_bytes (k : MinerKey) : list Z := [mk_version k] ++ mk_pk k ++ mk_cvk k.
Definition miner_key_from_bytes (bytes : list Z) : result NoteError MinerKey :=
  _ ← ensure (length bytes =? MINER_KEY_LEN)%nat InvalidMinerKey;
  let version := nth 0 bytes 0 in
  _ ← ensure (version =? MINER_KEY_VERSION) InvalidMinerKey;
  pk ← map_err (λ _, InvalidMinerKey) (digest_from_slice (take 32 (drop 1 bytes)));
  cvk ← map_err (λ _, InvalidMinerKey) (digest_from_slice (drop 33 bytes));
  Ok {| mk_version := version; mk_pk := pk; mk_cvk := cvk |}.
Definition miner_author_label (k : MinerKey) (parent_hash : Hash256) : Hash256 := digest_hash_bytes [DS_LABEL; mk_cvk k; parent_hash].
Definition coinbase_note (k : MinerKey) (genesis_hash : Hash256) (block_number value : Z) : result NoteError Note :=
  note_new (mk_pk k) value (coinbase_rho block_number) (coinbase_r (mk_cvk k) genesis_hash block_number).
End Core.

(** ** What the hashes bind *)
Section Bind.
Context `{PoseidonOps, !PoseidonLaws, !NoteFieldLaws}.
Implicit Types (n : Note).

(** The fields of a note as its types hold them. *)
Definition note_ok n : Prop := good_hash (nt_pk n) ∧ good_hash (nt_rho n) ∧ good_hash (nt_r n) ∧ 0 ≤ nt_value n ≤ MAX_VALUE.

Lemma goldilocks_new_inj a b : 0 ≤ a < GOLDILOCKS_P → 0 ≤ b < GOLDILOCKS_P → goldilocks_new a = goldilocks_new b → a = b.
Proof. intros Ha Hb. rewrite !goldilocks_new_is_from_u64 by done. by apply from_u64_inj. Qed.

Lemma dfelts_length h : length (dfelts h) = 4%nat.
Proof. done. Qed.
Lemma dfelts_inj h1 h2 : good_hash h1 → good_hash h2 → dfelts h1 = dfelts h2 → h1 = h2.
Proof. apply limb_felts_inj. Qed.

(** Two hashes under one rule agree on everything after the tag; under two
    tags they never agree, the sponge aside. *)
Lemma hash_felts_eq d1 d2 p1 p2 :
  0 ≤ d1 < GOLDILOCKS_P → 0 ≤ d2 < GOLDILOCKS_P → hash_felts d1 p1 = hash_felts d2 p2 →
  collides [felts_pre d1 p1; felts_pre d2 p2] ∨ (d1 = d2 ∧ concat p1 = concat p2).
Proof.
  intros Hd1 Hd2 E. apply sponge_eq in E as [?|Heq]; [by left|right]. injection Heq as Hd Hp. split; [by apply goldilocks_new_inj|done].
Qed.

(** Peels a preimage: groups of one length in front, then what follows. *)
Lemma peel (a b : Hash256) (x y : list felt) : good_hash a → good_hash b → dfelts a ++ x = dfelts b ++ y → a = b ∧ x = y.
Proof. intros Ha Hb Heq. apply app_inj_1 in Heq as [He ->]; [|done]. split; [by apply dfelts_inj|done]. Qed.

Lemma hash_felts_good d p : good_hash (hash_felts d p).
Proof. split; [apply hash_to_bytes_digest|apply hash_to_bytes_canonical]. Qed.

(** Tags are small constants. *)
Ltac tag := split; vm_compute; (discriminate || reflexivity).

(** What a note's two hashes, a nullifier and an owner key are made from. *)
Definition inner_pre n : list felt := felts_pre domain.NOTE [dfelts (nt_pk n); dfelts (nt_rho n); dfelts (nt_r n)].
Definition note_pres n : list (list felt) := [inner_pre n; felts_pre CM [dfelts (inner n); [goldilocks_new (nt_value n)]]].
Definition nullifier_pre (nk rho r : Hash256) : list felt := felts_pre domain.NF [dfelts nk; dfelts rho; dfelts r].
Definition dummy_pre (nk rho r : Hash256) : list felt := felts_pre domain.NF_DUMMY [dfelts nk; dfelts rho; dfelts r].

(** The collision found is among the preimages excepted. *)
Ltac among := left; eapply collides_mono; [|eassumption]; unfold note_pres; cbn [app];
  intros ? ?; repeat match goal with H : _ ∈ _ :: _ |- _ => apply elem_of_cons in H as [->|H] | H : _ ∈ [] |- _ => by apply elem_of_nil in H end;
  rewrite ?elem_of_cons; tauto.

Lemma three_digests d a b c a' b' c' :
  0 ≤ d < GOLDILOCKS_P → good_hash a → good_hash b → good_hash c → good_hash a' → good_hash b' → good_hash c' →
  hash_felts d [dfelts a; dfelts b; dfelts c] = hash_felts d [dfelts a'; dfelts b'; dfelts c'] →
  collides [felts_pre d [dfelts a; dfelts b; dfelts c]; felts_pre d [dfelts a'; dfelts b'; dfelts c']] ∨ (a = a' ∧ b = b' ∧ c = c').
Proof.
  intros Hd Ha Hb Hc Ha' Hb' Hc' Heq. apply hash_felts_eq in Heq as [?|[_ Heq]]; [by left|right|done..].
  cbn [concat] in Heq. apply peel in Heq as [-> Heq]; [|done..]. apply peel in Heq as [-> Heq]; [|done..]. by apply peel in Heq as [-> _].
Qed.

Lemma inner_binds n1 n2 :
  note_ok n1 → note_ok n2 → inner n1 = inner n2 →
  collides [inner_pre n1; inner_pre n2] ∨ (nt_pk n1 = nt_pk n2 ∧ nt_rho n1 = nt_rho n2 ∧ nt_r n1 = nt_r n2).
Proof. intros (?&?&?&_) (?&?&?&_). unfold inner, note_inner. apply three_digests; (done || tag). Qed.

Lemma note_commitment_binds n1 n2 :
  note_ok n1 → note_ok n2 → note_commitment n1 = note_commitment n2 → collides (note_pres n1 ++ note_pres n2) ∨ n1 = n2.
Proof.
  intros H1' H2' Heq. unfold note_commitment, commitment_from_inner in Heq.
  apply hash_felts_eq in Heq as [?|[_ Heq]]; [among| |tag..].
  cbn [concat] in Heq. apply peel in Heq as [Hi Hv]; [|apply hash_felts_good..]. injection Hv as Hv.
  destruct (inner_binds n1 n2 H1' H2' Hi) as [?|(? & ? & ?)]; [among|right]. pose proof MAX_VALUE_lt_P.
  destruct n1 as [pk1 v1 rho1 r1], n2 as [pk2 v2 rho2 r2]; unfold note_ok in *; cbn [nt_pk nt_value nt_rho nt_r] in *.
  assert (v1 = v2) by (apply goldilocks_new_inj; [lia..|done]). by subst.
Qed.

Lemma tags_apart d1 d2 p1 p2 :
  hash_felts d1 p1 = hash_felts d2 p2 → 0 ≤ d1 < GOLDILOCKS_P → 0 ≤ d2 < GOLDILOCKS_P → d1 ≠ d2 →
  collides [felts_pre d1 p1; felts_pre d2 p2] ∨ False.
Proof. intros Heq Hd1 Hd2 Hne. apply hash_felts_eq in Heq as [?|[? _]]; [by left|done..]. Qed.

(** Claims that hold unless something is broken. *)
Lemma unless_imp (C Q : Prop) (x y : Hash256) : (x = y → C ∨ Q) → C ∨ (x = y → Q).
Proof. intros Hpq. destruct (decide (x = y)) as [Hp|Hp]; [destruct (Hpq Hp); auto|right; done]. Qed.
Lemma unless_and (C X Y : Prop) : C ∨ X → C ∨ Y → C ∨ (X ∧ Y).
Proof. tauto. Qed.

Lemma u32_below_P z : 0 ≤ z < 2 ^ 32 → 0 ≤ z < GOLDILOCKS_P.
Proof. unfold GOLDILOCKS_P. lia. Qed.

Lemma index_limbs_inj i j : in_u 64 i → in_u 64 j →
  Z.shiftr i 32 = Z.shiftr j 32 → Z.land i 0xFFFFFFFF = Z.land j 0xFFFFFFFF → i = j.
Proof.
  intros Hi Hj. rewrite !Z.shiftr_div_pow2 by lia. change 0xFFFFFFFF with (Z.ones 32). rewrite !Z.land_ones by lia.
  intros Hd Hm. rewrite (Z.div_mod i (2 ^ 32)), (Z.div_mod j (2 ^ 32)) by lia. by rewrite Hd, Hm.
Qed.

(** What the seed rules of outputs, entries and coinbases hash. *)
Definition output_pre (nf_1 nf_2 : Hash256) (index : Z) : list felt :=
  felts_pre domain.RHO [dfelts nf_1; dfelts nf_2; [goldilocks_new index]].
Definition entry_pre (block_number entry_index : Z) : list felt :=
  felts_pre domain.RHO_ENTRY
    [[goldilocks_new block_number]; [goldilocks_new (Z.shiftr entry_index 32); goldilocks_new (Z.land entry_index 0xFFFFFFFF)]].
Definition coinbase_pre (block_number : Z) : list felt := felts_pre domain.RHO_COINBASE [[goldilocks_new block_number]].

Lemma entry_rho_binds b i b' i' :
  in_u 32 b → in_u 64 i → in_u 32 b' → in_u 64 i' → entry_rho b i = entry_rho b' i' →
  collides [entry_pre b i; entry_pre b' i'] ∨ (b = b' ∧ i = i').
Proof.
  intros Hb Hi Hb' Hi' Heq. apply hash_felts_eq in Heq as [?|[_ Heq]]; [by left|right|tag..]. cbn [concat app] in Heq.
  injection Heq as E1 E2 E3.
  assert (Hhi : ∀ x, in_u 64 x → 0 ≤ Z.shiftr x 32 < GOLDILOCKS_P).
  { intros x Hx. apply u32_below_P. rewrite Z.shiftr_div_pow2 by lia. unfold in_u in Hx. split; [apply Z.div_pos; lia|apply Z.div_lt_upper_bound; lia]. }
  assert (Hlo : ∀ x, in_u 64 x → 0 ≤ Z.land x 0xFFFFFFFF < GOLDILOCKS_P).
  { intros x Hx. apply u32_below_P. change 0xFFFFFFFF with (Z.ones 32). rewrite Z.land_ones by lia. apply Z.mod_pos_bound. lia. }
  apply goldilocks_new_inj in E1; [|by apply u32_below_P..]. apply goldilocks_new_inj in E2; [|by apply Hhi..].
  apply goldilocks_new_inj in E3; [|by apply Hlo..]. split; [done|by apply index_limbs_inj].
Qed.

(** A note's hashes bind it. Unless two of the preimages of the hashes at
    hand collide: equal
    commitments open to one note, owner, value and seeds; equal nullifiers
    come from one nullifier key and one pair of seeds, and a padding slot's
    nullifier is never a real note's; the seed rules of spends, entries and
    coinbases never meet, and within each the on-chain identifier determines
    the seed and is determined by it. *)
Theorem note_hashes_bind n1 n2 nk1 nk2 nf1 nf2 nf1' nf2' b i b' i' (o o' : Z)
    (Hn1 : note_ok n1) (Hn2 : note_ok n2) (Hk1 : good_hash nk1) (Hk2 : good_hash nk2)
    (Hf1 : good_hash nf1) (Hf2 : good_hash nf2) (Hf1' : good_hash nf1') (Hf2' : good_hash nf2')
    (Hb : in_u 32 b) (Hi : in_u 64 i) (Hb' : in_u 32 b') (Hi' : in_u 64 i') (Ho : 0 ≤ o < 2) (Ho' : 0 ≤ o' < 2) :
  collides (note_pres n1 ++ note_pres n2 ++
    [nullifier_pre nk1 (nt_rho n1) (nt_r n1); nullifier_pre nk2 (nt_rho n2) (nt_r n2); dummy_pre nk1 (nt_rho n1) (nt_r n1);
     output_pre nf1 nf2 o; output_pre nf1' nf2' o'; entry_pre b i; entry_pre b' i'; coinbase_pre b; coinbase_pre b']) ∨
  ((note_commitment n1 = note_commitment n2 → n1 = n2) ∧
   (note_nullifier nk1 n1 = note_nullifier nk2 n2 → nk1 = nk2 ∧ nt_rho n1 = nt_rho n2 ∧ nt_r n1 = nt_r n2) ∧
   dummy_nullifier nk1 (nt_rho n1) (nt_r n1) ≠ note_nullifier nk2 n2 ∧
   (output_rho nf1 nf2 o = output_rho nf1' nf2' o' → nf1 = nf1' ∧ nf2 = nf2' ∧ o = o') ∧
   (entry_rho b i = entry_rho b' i' → b = b' ∧ i = i') ∧ (coinbase_rho b = coinbase_rho b' → b = b') ∧
   entry_rho b i ≠ coinbase_rho b' ∧ entry_rho b i ≠ output_rho nf1 nf2 o ∧ coinbase_rho b ≠ output_rho nf1 nf2 o).
Proof.
  destruct Hn1 as (? & ? & ? & ?), Hn2 as (? & ? & ? & ?). pose proof (u32_below_P b Hb). pose proof (u32_below_P b' Hb').
  assert (Ho2 : ∀ x, 0 ≤ x < 2 → 0 ≤ x < GOLDILOCKS_P) by (unfold GOLDILOCKS_P; lia).
  repeat apply unless_and; apply unless_imp; intros Heq.
  - apply note_commitment_binds in Heq as [?|?]; [among|by right|done|done].
  - apply three_digests in Heq as [?|?]; first [among|by right|done|tag].
  - apply tags_apart in Heq as [?|[]]; [among|tag|tag|done].
  - apply hash_felts_eq in Heq as [?|[_ Heq]]; [among|right|tag..]. cbn [concat app] in Heq.
    apply peel in Heq as [-> Heq]; [|done..]. apply peel in Heq as [-> Heq]; [|done..]. injection Heq as Heq.
    apply goldilocks_new_inj in Heq; auto.
  - apply entry_rho_binds in Heq as [?|?]; [among|by right|done..].
  - apply hash_felts_eq in Heq as [?|[_ Heq]]; [among|right|tag..]. injection Heq as Heq. by apply goldilocks_new_inj in Heq.
  - apply tags_apart in Heq as [?|[]]; [among|tag|tag|done].
  - apply tags_apart in Heq as [?|[]]; [among|tag|tag|done].
  - apply tags_apart in Heq as [?|[]]; [among|tag|tag|done].
Qed.

(** The wallet and the chain hash one note to one leaf. The commitment
    the wallet derives is the one the pallet computes from the opaque [inner]
    and the public value of a shield or a coinbase; and the note a miner key
    mints is rebuilt from the key, the genesis and the block alone, refused
    exactly when the value is outside the circuit's range. *)
Theorem commitment_is_the_chains n k genesis block value
    (Hn : note_ok n) (Hv : 0 ≤ value) :
  NoteRules.commitment (inner n) (nt_value n) = Some (note_commitment n) ∧
  (coinbase_note k genesis block value = Err (ValueTooLarge value) ∧ MAX_VALUE < value ∨
   value ≤ MAX_VALUE ∧ ∃ c, coinbase_note k genesis block value = Ok c ∧ nt_value c = value ∧ nt_pk c = mk_pk k ∧
     NoteRules.commitment (inner c) value = Some (note_commitment c)).
Proof.
  assert (Hc : ∀ m, 0 ≤ nt_value m ≤ MAX_VALUE → NoteRules.commitment (inner m) (nt_value m) = Some (note_commitment m)).
  { intros m Hm. unfold NoteRules.commitment. pose proof MAX_VALUE_lt_P. pose proof (hash_felts_good domain.NOTE [dfelts (nt_pk m); dfelts (nt_rho m); dfelts (nt_r m)]) as [Hd Hcan].
    fold (note_inner (nt_pk m) (nt_rho m) (nt_r m)) in Hd, Hcan. fold (inner m) in Hd, Hcan.
    destruct (proj2 (bytes_to_digest_Some (inner m) Hd) Hcan) as [fs Hfs]. rewrite Hfs, (bytes_to_digest_limbs _ _ Hd Hfs). cbn [mbind option_bind].
    unfold note_commitment, commitment_from_inner, hash_felts. cbn [concat]. rewrite (goldilocks_new_is_from_u64 (nt_value m)) by lia. done. }
  split; [apply Hc, Hn|]. unfold coinbase_note, note_new, ensure. destruct (Z.leb_spec value MAX_VALUE) as [Hle|Hgt]; [right|by left].
  split; [done|]. eexists. split_and!; [done|done|done|]. apply (Hc {| nt_pk := _; nt_value := value; nt_rho := _; nt_r := _ |}). done.
Qed.

Lemma digest_from_slice_good h : good_hash h → digest_from_slice h = Ok h.
Proof.
  intros [Hd Hc]. unfold digest_from_slice. rewrite (proj2 (Nat.eqb_eq _ _)) by apply Hd.
  by rewrite bool_decide_eq_true_2 by (by apply bytes_to_digest_Some).
Qed.
Lemma digest_from_slice_Ok bytes h : Forall is_byte bytes → digest_from_slice bytes = Ok h → h = bytes ∧ good_hash h.
Proof.
  intros Hb. unfold digest_from_slice. intros (u & Hu%ensure_Ok & [= <-])%bind_Ok. apply andb_true_iff in Hu as [Hl%Nat.eqb_eq Hs%bool_decide_eq_true].
  assert (Hd : is_digest bytes) by done. split; [done|]. split; [done|]. by apply bytes_to_digest_Some.
Qed.

(** A miner key reads back from its bytes, and nothing else does: 65
    bytes, the one version, and two canonical digests. *)
Theorem miner_key_round_trips k bytes
    (Hk : good_hash (mk_pk k) ∧ good_hash (mk_cvk k) ∧ mk_version k = MINER_KEY_VERSION) (Hb : Forall is_byte bytes) :
  miner_key_from_bytes (miner_key_to_bytes k) = Ok k ∧
  (∀ k', miner_key_from_bytes bytes = Ok k' → miner_key_to_bytes k' = bytes ∧ good_hash (mk_pk k') ∧ good_hash (mk_cvk k')).
Proof.
  destruct Hk as (Hp & Hc & Hv). split.
  - unfold miner_key_from_bytes, miner_key_to_bytes. assert (Lp : length (mk_pk k) = 32%nat) by apply Hp.
    assert (Lc : length (mk_cvk k) = 32%nat) by apply Hc. cbn [app length]. unfold ensure at 1. rewrite length_app, Lp, Lc, Nat.eqb_refl.
    cbn [mbind result_bind nth]. rewrite Hv. cbn [ensure mbind result_bind]. change (drop 33 (MINER_KEY_VERSION :: mk_pk k ++ mk_cvk k)) with (drop 32 (mk_pk k ++ mk_cvk k)).
    change (drop 1 (MINER_KEY_VERSION :: mk_pk k ++ mk_cvk k)) with (mk_pk k ++ mk_cvk k).
    rewrite take_app_length', drop_app_length', !digest_from_slice_good by done. cbn. rewrite <- Hv. by destruct k.
  - intros k' Hr. unfold miner_key_from_bytes in Hr. apply bind_Ok in Hr as (u & Hl%ensure_Ok%Nat.eqb_eq & Hr).
    apply bind_Ok in Hr as (u1 & Hver%ensure_Ok%Z.eqb_eq & Hr). apply bind_Ok in Hr as (pk & Hpk%map_err_Ok & Hr).
    apply bind_Ok in Hr as (cvk & Hcvk%map_err_Ok & [= <-]).
    apply digest_from_slice_Ok in Hpk as [-> Gp]; [|by apply Forall_take, Forall_drop]. apply digest_from_slice_Ok in Hcvk as [-> Gc]; [|by apply Forall_drop].
    split_and!; [|done|done]. unfold miner_key_to_bytes. cbn [mk_version mk_pk mk_cvk]. destruct bytes as [|v bytes]; [done|]. cbn [nth app drop].
    f_equal. apply take_drop.
Qed.
End Bind.

(** ** A concrete instance *)
Module ToyNotes.
Import ToyCrypto.
#[export] Instance note_field_laws : NoteFieldLaws.
Proof.
  constructor; [done| |done]. intros h fs Hd. cbn -[limbs]. destruct (canonical_limbs h) eqn:Hc; [|done]. intros [= <-].
  pose proof (limbs_range h Hd) as Hr. unfold canonical_limbs in Hc. revert Hr Hc. generalize (limbs h). intros l.
  induction 1 as [|x l Hx _ IH]; [done|]. cbn [forallb fmap list_fmap]. intros [Hlt%Z.ltb_lt Hl]%andb_true_iff.
  rewrite Z.mod_small by lia. f_equal. auto.
Qed.

Definition toy_digest (v : Z) : Hash256 := hash_felts 1 [[v]].
Definition toy_note (v : Z) : Note := {| nt_pk := toy_digest 1; nt_value := v; nt_rho := toy_digest 2; nt_r := toy_digest 3 |}.
Lemma toy_note_ok : note_ok (toy_note 5).
Proof. split_and!; [apply hash_felts_good..|vm_compute; discriminate|vm_compute; discriminate]. Qed.

Lemma note_hashes_bind_witness :
  collides (note_pres (toy_note 5) ++ note_pres (toy_note 5) ++
    [nullifier_pre (toy_digest 4) (toy_digest 2) (toy_digest 3); nullifier_pre (toy_digest 4) (toy_digest 2) (toy_digest 3);
     dummy_pre (toy_digest 4) (toy_digest 2) (toy_digest 3); output_pre (toy_digest 5) (toy_digest 6) 0; output_pre (toy_digest 5) (toy_digest 6) 1;
     entry_pre 7 8; entry_pre 9 10; coinbase_pre 7; coinbase_pre 9]) ∨
  (note_commitment (toy_note 5) = note_commitment (toy_note 5) → toy_note 5 = toy_note 5).
Proof.
  destruct (note_hashes_bind (toy_note 5) (toy_note 5) (toy_digest 4) (toy_digest 4) (toy_digest 5) (toy_digest 6) (toy_digest 5) (toy_digest 6)
    7 8 9 10 0 1 toy_note_ok toy_note_ok (hash_felts_good _ _) (hash_felts_good _ _) (hash_felts_good _ _) (hash_felts_good _ _)
    (hash_felts_good _ _) (hash_felts_good _ _)) as [Hc|[Hn _]]; [by split..|left; exact Hc|right; exact Hn].
Defined.

Definition toy_miner : MinerKey := miner_key_new (toy_digest 11) (toy_digest 12).
Lemma commitment_is_the_chains_witness :
  NoteRules.commitment (inner (toy_note 5)) 5 = Some (note_commitment (toy_note 5)).
Proof. exact (proj1 (commitment_is_the_chains (toy_note 5) toy_miner zero_hash 1 500 toy_note_ok ltac:(discriminate))). Defined.

Lemma miner_key_round_trips_witness : miner_key_from_bytes (miner_key_to_bytes toy_miner) = Ok toy_miner.
Proof.
  exact (proj1 (miner_key_round_trips toy_miner [] (conj (hash_felts_good _ _) (conj (hash_felts_good _ _) eq_refl)) (Forall_nil_2 _))).
Defined.
End ToyNotes.
