(* ===== verification/LeafCircuit.v ===== *)
(** * The spend leaf

    [crates/qnero-circuit]: the leaf circuit ([circuit.rs], [gadgets.rs],
    [note_gadget.rs], the in-circuit half of [header.rs], [merkle.rs] and
    [padding.rs]) and the witness a wallet fills it with ([witness.rs]).

    A target is modelled by the field element an assignment gives it, a
    [BoolTarget] by its bit, a [HashOutTarget] by its four elements, and the
    builder by the option monad: [build_constraints t] is [Some tt] exactly
    when the assignment [t] meets every constraint. The gates themselves are
    plonky2's, the parameter [CircuitOps]; the sponge gadget is the sponge. *)

From stdpp Require Import base option list numbers.
From S2P Require Import Prelude Crypto NoteRules Verifier Header CircuitMerkle NoteCore.
#[local] Open Scope Z_scope.

(** ** Gates ([plonky2::plonk::circuit_builder]) *)
Class CircuitOps `{PoseidonOps} := {
  (** [to_canonical_u64]. *)
  felt_val : felt → Z;
  c_add : felt → felt → felt;
  c_sub : felt → felt → felt;
  c_mul : felt → felt → felt;
  (** Whether the constraint holds. *)
  c_range_check : felt → nat → bool;
  (** The bits, least significant first; [None] when no bits of that width
      add up to the element. *)
  c_split_le : felt → nat → option (list bool);
}.
(** The arithmetic of the field; and, at widths where a decomposition is
    unique, what the two range gadgets document. *)
Class CircuitLaws `{CircuitOps} := {
  felt_val_range x : 0 ≤ felt_val x < GOLDILOCKS_P;
  from_u64_val x : from_u64 (felt_val x) = x;
  val_from_u64 z : 0 ≤ z → felt_val (from_u64 z) = z mod GOLDILOCKS_P;
  c_add_val a b : felt_val (c_add a b) = (felt_val a + felt_val b) mod GOLDILOCKS_P;
  c_sub_val a b : felt_val (c_sub a b) = (felt_val a - felt_val b) mod GOLDILOCKS_P;
  c_mul_val a b : felt_val (c_mul a b) = (felt_val a * felt_val b) mod GOLDILOCKS_P;
  c_range_check_val x n : (n ≤ 63)%nat → c_range_check x n = (felt_val x <? 2 ^ Z.of_nat n);
  c_split_le_val x n : (n ≤ 63)%nat →
    c_split_le x n = if felt_val x <? 2 ^ Z.of_nat n then Some (Z.testbit (felt_val x) ∘ Z.of_nat <$> seq 0 n) else None;
}.

Definition DEPTH_BITS : nat := 5.
Definition VALUE_BITS_NAT : nat := 62.

(** ** Targets *)
Record InputNoteTargets `{PoseidonOps} := {
  it_ask : list felt;
  it_nk : list felt;
  it_rho : list felt;
  it_r : list felt;
  it_value : felt;
  it_siblings : list (list (list felt));
  it_positions : list felt;
  it_is_dummy : bool;
}.
Record OutputNoteTargets `{PoseidonOps} := { ot_pk : list felt; ot_r : list felt; ot_value : felt }.
Record HeaderTargets `{PoseidonOps} := {
  hg_parent_hash : list felt;
  hg_state_root : list felt;
  hg_extrinsics_root : list felt;
  hg_zk_tree_root : list felt;
  hg_digest : list felt;
}.
Record SpendTargets `{PoseidonOps} := {
  tg_block_hash : list felt;
  tg_block_number : felt;
  tg_nullifiers : list felt * list felt;
  tg_commitments : list felt * list felt;
  tg_fee : felt;
  tg_ct_digest : list felt;
  tg_header : HeaderTargets;
  tg_depth : felt;
  tg_inputs : InputNoteTargets * InputNoteTargets;
  tg_outputs : OutputNoteTargets * OutputNoteTargets;
}.

Section Circuit.
Context `{CircuitOps}.
Implicit Types (t : SpendTargets) (x y z : felt) (h : list felt).

Definition c_zero : felt := from_u64 0.
Definition c_one : felt := from_u64 1.
(** [BoolTarget::target] and [BoolTarget::new_unsafe]. *)
Definition bit_target (b : bool) : felt := if b then c_one else c_zero.
Definition new_unsafe x : bool := bool_decide (x = c_one).
(** [connect], [connect_hashes]: the two wires carry one value. *)
Definition check (b : bool) : option unit := if b then Some tt else None.
Definition connect x y : option unit := check (bool_decide (x = y)).
Definition connect_hashes h h' : option unit := check (bool_decide (h = h')).
(** [select] over the four elements of a hash. *)
Definition select {A} (b : bool) (x y : A) : A := if b then x else y.
Definition is_equal x y : bool := bool_decide (x = y).
(** [hash_n_to_hash_no_pad_p2]. *)
Definition hash_no_pad (preimage : list felt) : list felt := dfelts (hash_to_bytes preimage).

(** ** [gadgets.rs] *)
Definition xor (a b : bool) : bool :=
  let a_plus_b := c_add (bit_target a) (bit_target b) in
  let ab := c_mul (bit_target a) (bit_target b) in
  let two_ab := c_add ab ab in
  new_unsafe (c_sub a_plus_b two_ab).

(** One bit of the comparison, from the most significant down. *)
Definition less_than_bit (left : Z) (acc : bool * bool) (bit : nat * bool) : bool * bool :=
  let '(lt, eq) := acc in
  let '(i, b) := bit in
  let a := Z.testbit left (Z.of_nat i) in
  (lt || (negb a && b && eq), eq && negb (xor a b)).
Definition const_less_than_bits (left : Z) (right_bits : list bool) : bool :=
  (foldl (less_than_bit left) (false, true) (rev (imap pair right_bits))).1.

Definition digests_are_equal h h' : bool :=
  foldl (λ all_equal p, all_equal && is_equal p.1 p.2) true (zip h h').

(** ** [note_gadget.rs] *)
Definition hash_with_domain_target (tag : felt) (parts : list (list felt)) : list felt := hash_no_pad (tag :: concat parts).
Definition hash_with_domain (tag : Z) (parts : list (list felt)) : list felt :=
  hash_with_domain_target (goldilocks_new tag) parts.
Definition nullifier_domain_tag (is_dummy : bool) : felt :=
  select is_dummy (goldilocks_new domain.NF_DUMMY) (goldilocks_new domain.NF).
Definition g_derive_ak (ask : list felt) : list felt := hash_with_domain domain.AK [ask].
Definition g_derive_pk (ask nk : list felt) : list felt := hash_with_domain domain.PK [g_derive_ak ask; nk].
Definition g_note_inner (pk rho r : list felt) : list felt := hash_with_domain domain.NOTE [pk; rho; r].
Definition g_note_commitment (inner : list felt) (value : felt) : list felt := hash_with_domain CM [inner; [value]].
Definition g_output_rho (nf1 nf2 : list felt) (index : Z) : list felt :=
  hash_with_domain domain.RHO [nf1; nf2; [from_u64 index]].
Definition note_nullifier_tagged (tag : felt) (nk rho r : list felt) : list felt := hash_with_domain_target tag [nk; rho; r].

(** ** [merkle.rs], in circuit *)
Definition active_level_flags_from_bits (depth_bits : list bool) : list bool :=
  (λ level, const_less_than_bits (Z.of_nat level) depth_bits) <$> seq 0 CircuitMerkle.MAX_DEPTH.

Definition sibling (siblings : list (list felt)) (i : nat) : list felt := nth i siblings [].
(** [current] at [position] among the sorted siblings. *)
Definition insert_current (current : list felt) (siblings : list (list felt)) (position : felt) : list (list felt) :=
  let at_0 := is_equal position (from_u64 0) in
  let at_1 := is_equal position (from_u64 1) in
  let at_2 := is_equal position (from_u64 2) in
  let at_3 := is_equal position (from_u64 3) in
  [ select at_0 current (sibling siblings 0);
    select at_1 current (select at_0 (sibling siblings 0) (sibling siblings 1));
    select at_2 current (select (at_0 || at_1) (sibling siblings 1) (sibling siblings 2));
    select at_3 current (sibling siblings 2) ].

Fixpoint merkle_root_from_path (current : list felt) (path : list (list (list felt) * felt)) (active_levels : list bool) :
    option (list felt) :=
  match path, active_levels with
  | (siblings, position) :: path, is_active :: active_levels =>
      _ ← check (c_range_check position 2);
      let parent := hash_no_pad (concat (insert_current current siblings position)) in
      merkle_root_from_path (select is_active parent current) path active_levels
  | _, _ => Some current
  end.

(** ** [header.rs], in circuit *)
Definition header_preimage (block_number : felt) (hd : HeaderTargets) : list felt :=
  hg_parent_hash hd ++ [block_number] ++ hg_state_root hd ++ hg_extrinsics_root hd ++ hg_zk_tree_root hd ++ hg_digest hd.
Definition constrain_header (block_hash : list felt) (block_number : felt) (hd : HeaderTargets) : option unit :=
  _ ← check (c_range_check block_number 32);
  connect_hashes block_hash (hash_no_pad (header_preimage block_number hd)).

(** ** [padding.rs], in circuit *)
Definition is_padding_block_hash (block_hash : list felt) : bool :=
  digests_are_equal block_hash (from_u64 <$> PADDING_BLOCK_HASH).

(** ** [circuit.rs] *)
(** The loop body over the inputs, constraints 3 and 4. *)
Definition constrain_input (zk_tree_root : list felt) (active_levels : list bool) (input : InputNoteTargets) (published : list felt) :
    option felt :=
  _ ← check (c_range_check (it_value input) VALUE_BITS_NAT);
  _ ← connect (c_mul (it_value input) (bit_target (it_is_dummy input))) c_zero;
  let pk := g_derive_pk (it_ask input) (it_nk input) in
  let inner := g_note_inner pk (it_rho input) (it_r input) in
  let commitment := g_note_commitment inner (it_value input) in
  root ← merkle_root_from_path commitment (zip (it_siblings input) (it_positions input)) active_levels;
  let is_real := negb (it_is_dummy input) in
  _ ← check (forallb (λ p, bool_decide (c_mul (c_sub p.1 p.2) (bit_target is_real) = c_zero)) (zip root zk_tree_root));
  let tag := nullifier_domain_tag (it_is_dummy input) in
  _ ← connect_hashes (note_nullifier_tagged tag (it_nk input) (it_rho input) (it_r input)) published;
  Some (it_value input).

(** The loop body over the outputs, constraint 6. *)
Definition constrain_output (nullifiers : list felt * list felt) (index : Z) (output : OutputNoteTargets) (published : list felt) :
    option felt :=
  _ ← check (c_range_check (ot_value output) VALUE_BITS_NAT);
  let rho := g_output_rho nullifiers.1 nullifiers.2 index in
  let inner := g_note_inner (ot_pk output) rho (ot_r output) in
  _ ← connect_hashes (g_note_commitment inner (ot_value output)) published;
  Some (ot_value output).

Definition build_constraints t : option unit :=
  let hd := tg_header t in
  let '(nf1, nf2) := tg_nullifiers t in
  let '(in1, in2) := tg_inputs t in
  let '(out1, out2) := tg_outputs t in
  _ ← constrain_header (tg_block_hash t) (tg_block_number t) hd;
  depth_bits ← c_split_le (tg_depth t) DEPTH_BITS;
  _ ← connect (bit_target (const_less_than_bits (Z.of_nat CircuitMerkle.MAX_DEPTH) depth_bits)) c_zero;
  let active_levels := active_level_flags_from_bits depth_bits in
  v1 ← constrain_input (hg_zk_tree_root hd) active_levels in1 nf1;
  v2 ← constrain_input (hg_zk_tree_root hd) active_levels in2 nf2;
  _ ← connect (bit_target (digests_are_equal nf1 nf2)) c_zero;
  let is_real_leaf := negb (is_padding_block_hash (tg_block_hash t)) in
  let all_dummy := c_mul (bit_target (it_is_dummy in1)) (bit_target (it_is_dummy in2)) in
  _ ← connect (c_mul all_dummy (bit_target is_real_leaf)) c_zero;
  o1 ← constrain_output (nf1, nf2) 0 out1 (tg_commitments t).1;
  o2 ← constrain_output (nf1, nf2) 1 out2 (tg_commitments t).2;
  _ ← check (c_range_check (tg_fee t) VALUE_BITS_NAT);
  connect (c_add v1 v2) (c_add (c_add o1 o2) (tg_fee t)).

(** ** [layout.rs]: what a proof publishes *)
Definition leaf_public_inputs t : list felt :=
  tg_block_hash t ++ [tg_block_number t] ++ (tg_nullifiers t).1 ++ (tg_nullifiers t).2 ++
  (tg_commitments t).1 ++ (tg_commitments t).2 ++ [tg_fee t] ++ tg_ct_digest t.
End Circuit.

(** ** [witness.rs] *)
Record InputNote := {
  in_ask : Hash256;
  in_nk : Hash256;
  in_value : Z;
  in_rho : Hash256;
  in_r : Hash256;
  in_path : CircuitMerkle.MerklePath;
  in_is_dummy : bool;
}.
Record OutputNote := { out_pk : Hash256; out_value : Z; out_r : Hash256 }.
Record SpendWitness `{PoseidonOps} := {
  sw_header : CircuitHeader.HeaderInputs;
  sw_depth : nat;
  sw_inputs : InputNote * InputNote;
  sw_outputs : OutputNote * OutputNote;
  sw_fee : Z;
  sw_ct_digest : Hash256;
}.
Inductive WitnessError :=
| PkMismatch
| NonCanonicalValue (v : Z)
| BadWitnessDepth (d : nat)
| WitnessPathShape (siblings positions : nat)
| WitnessPathDepth (d depth : nat)
| WitnessPosition (p : Z)
| OutputNoteE (e : NoteError).

(** [b"qnero/dummy-rho"] and [b"qnero/dummy-r"]. *)
Definition DUMMY_RHO : list Z := [113; 110; 101; 114; 111; 47; 100; 117; 109; 109; 121; 45; 114; 104; 111].
Definition DUMMY_R : list Z := [113; 110; 101; 114; 111; 47; 100; 117; 109; 109; 121; 45; 114].

Section Witness.
Context `{PoseidonOps}.
Implicit Types (w : SpendWitness) (i : InputNote).
Abbreviation M := (result WitnessError).

Definition input_real (ask nk : Hash256) (note : Note) (path : CircuitMerkle.MerklePath) : M InputNote :=
  _ ← ensure (bool_decide (derive_pk ask nk = nt_pk note)) PkMismatch;
  Ok {| in_ask := ask; in_nk := nk; in_value := nt_value note; in_rho := nt_rho note; in_r := nt_r note; in_path := path;
        in_is_dummy := false |}.
Definition input_dummy (ask nk rho r : Hash256) (depth : nat) : InputNote :=
  {| in_ask := ask; in_nk := nk; in_value := 0; in_rho := rho; in_r := r; in_path := CircuitMerkle.dummy depth; in_is_dummy := true |}.
(** [seed] is what the RNG gave. *)
Definition dummy_random (seed : list Z) (ask nk : Hash256) (depth : nat) : InputNote :=
  input_dummy ask nk (digest_hash_bytes [DUMMY_RHO; seed]) (digest_hash_bytes [DUMMY_R; seed]) depth.
Definition input_nullifier i : Hash256 :=
  if in_is_dummy i then dummy_nullifier (in_nk i) (in_rho i) (in_r i) else nullifier (in_nk i) (in_rho i) (in_r i).
Definition input_commitment i : Hash256 :=
  commitment_from_inner (note_inner (derive_pk (in_ask i) (in_nk i)) (in_rho i) (in_r i)) (in_value i).
Definition commitment_with_rho (o : OutputNote) (rho : Hash256) : Hash256 :=
  commitment_from_inner (note_inner (out_pk o) rho (out_r o)) (out_value o).

Definition witness_output_rho w (index : Z) : Hash256 :=
  output_rho (input_nullifier (sw_inputs w).1) (input_nullifier (sw_inputs w).2) index.
Definition witness_output w (index : Z) : OutputNote := if index =? 0 then (sw_outputs w).1 else (sw_outputs w).2.
Definition output_commitment w (index : Z) : Hash256 := commitment_with_rho (witness_output w index) (witness_output_rho w index).
Definition output_note w (index : Z) : M Note :=
  let o := witness_output w index in
  map_err OutputNoteE (note_new (out_pk o) (out_value o) (witness_output_rho w index) (out_r o)).

Definition ensure_canonical (v : Z) : M unit := ensure (v <? GOLDILOCKS_P) (NonCanonicalValue v).
Definition validate_path (depth : nat) i : M unit :=
  let p := in_path i in
  let sibs := length (CircuitMerkle.siblings p) in
  _ ← ensure (sibs =? length (CircuitMerkle.positions p))%nat (WitnessPathShape sibs (length (CircuitMerkle.positions p)));
  _ ← ensure (sibs =? depth)%nat (WitnessPathDepth sibs depth);
  fold_result (λ _ position, ensure (position <? 4) (WitnessPosition position)) tt (CircuitMerkle.positions p).
Definition validate w : M unit :=
  _ ← ensure_canonical (in_value (sw_inputs w).1);
  _ ← ensure_canonical (in_value (sw_inputs w).2);
  _ ← ensure_canonical (out_value (sw_outputs w).1);
  _ ← ensure_canonical (out_value (sw_outputs w).2);
  _ ← ensure_canonical (sw_fee w);
  _ ← ensure ((1 <=? sw_depth w)%nat && (sw_depth w <=? CircuitMerkle.MAX_DEPTH)%nat) (BadWitnessDepth (sw_depth w));
  _ ← validate_path (sw_depth w) (sw_inputs w).1;
  validate_path (sw_depth w) (sw_inputs w).2.

(** [fill_private] over one input: the path is padded to twenty levels. *)
Definition pad_to {A} (n : nat) (d : A) (l : list A) : list A := take n l ++ replicate (n - length l) d.
Definition fill_input i : InputNoteTargets := {|
  it_ask := dfelts (in_ask i); it_nk := dfelts (in_nk i); it_rho := dfelts (in_rho i); it_r := dfelts (in_r i);
  it_value := from_u64 (in_value i);
  it_siblings := fmap (M := list) (fmap (M := list) dfelts)
    (pad_to CircuitMerkle.MAX_DEPTH (replicate 3 CircuitMerkle.empty_digest) (CircuitMerkle.siblings (in_path i)));
  it_positions := fmap (M := list) from_u64 (pad_to CircuitMerkle.MAX_DEPTH 0 (CircuitMerkle.positions (in_path i)));
  it_is_dummy := in_is_dummy i |}.
Definition fill_output (o : OutputNote) : OutputNoteTargets :=
  {| ot_pk := dfelts (out_pk o); ot_r := dfelts (out_r o); ot_value := from_u64 (out_value o) |}.

(** [fill_witness]: [fill_public] with [PublicValues::from_witness], then
    [fill_private]. *)
Definition fill_targets w : SpendTargets :=
  let hd := sw_header w in {|
  tg_block_hash := dfelts (CircuitHeader.block_hash hd);
  tg_block_number := from_u64 (CircuitHeader.ci_block_number hd);
  tg_nullifiers := (dfelts (input_nullifier (sw_inputs w).1), dfelts (input_nullifier (sw_inputs w).2));
  tg_commitments := (dfelts (output_commitment w 0), dfelts (output_commitment w 1));
  tg_fee := from_u64 (sw_fee w);
  tg_ct_digest := dfelts (sw_ct_digest w);
  tg_header := {| hg_parent_hash := CircuitHeader.ci_parent_hash hd; hg_state_root := CircuitHeader.ci_state_root hd;
                  hg_extrinsics_root := CircuitHeader.ci_extrinsics_root hd; hg_zk_tree_root := CircuitHeader.ci_zk_tree_root hd;
                  hg_digest := CircuitHeader.ci_digest hd |};
  tg_depth := from_u64 (Z.of_nat (sw_depth w));
  tg_inputs := (fill_input (sw_inputs w).1, fill_input (sw_inputs w).2);
  tg_outputs := (fill_output (sw_outputs w).1, fill_output (sw_outputs w).2) |}.
Definition fill_witness w : M SpendTargets := _ ← validate w; Ok (fill_targets w).

(** [SpendWitness::public_inputs]. *)
Definition witness_public_inputs w : list felt :=
  dfelts (CircuitHeader.block_hash (sw_header w)) ++ [from_u64 (CircuitHeader.ci_block_number (sw_header w))] ++
  dfelts (input_nullifier (sw_inputs w).1) ++ dfelts (input_nullifier (sw_inputs w).2) ++
  dfelts (output_commitment w 0) ++ dfelts (output_commitment w 1) ++ [from_u64 (sw_fee w)] ++ dfelts (sw_ct_digest w).
End Witness.

(** ** [padding.rs]: the padding leaf's fixed witness *)
(** [b"qnero/padding-header"], [padding-ask], [padding-nk], [padding-pk],
    [padding-rho], [padding-r] and [padding-out-r]. *)
Definition PADDING_PREFIX : list Z := [113; 110; 101; 114; 111; 47; 112; 97; 100; 100; 105; 110; 103; 45].
Definition PADDING_PARENT_HASH_DOMAIN : list Z := PADDING_PREFIX ++ [104; 101; 97; 100; 101; 114].
Definition PADDING_ASK_DOMAIN : list Z := PADDING_PREFIX ++ [97; 115; 107].
Definition PADDING_NK_DOMAIN : list Z := PADDING_PREFIX ++ [110; 107].
Definition PADDING_PK_DOMAIN : list Z := PADDING_PREFIX ++ [112; 107].
Definition PADDING_RHO : list Z := PADDING_PREFIX ++ [114; 104; 111].
Definition PADDING_R : list Z := PADDING_PREFIX ++ [114].
Definition PADDING_OUT_R : list Z := PADDING_PREFIX ++ [111; 117; 116; 45; 114].
Definition PADDING_BLOCK_NUMBER : Z := 0.

Section Padding.
Context `{HeaderCodec}.

(** [None] is the panic of [expect]. *)
Definition padding_header : option CircuitHeader.HeaderInputs :=
  match CircuitHeader.new (dfelts (digest_hash_bytes [PADDING_PARENT_HASH_DOMAIN])) PADDING_BLOCK_NUMBER zero_hash zero_hash
          (dfelts CircuitMerkle.empty_digest) (replicate DIGEST_LOGS_SIZE 0) with
  | Ok header => Some header
  | Err _ => None
  end.
Definition padding_block_hash : option Hash256 := header ← padding_header; Some (CircuitHeader.block_hash header).

Definition padding_input (index : Z) : InputNote :=
  input_dummy (digest_hash_bytes [PADDING_ASK_DOMAIN]) (digest_hash_bytes [PADDING_NK_DOMAIN])
    (digest_hash_bytes [PADDING_RHO; [index]]) (digest_hash_bytes [PADDING_R; [index]]) 1.
Definition padding_output (index : Z) : OutputNote :=
  {| out_pk := digest_hash_bytes [PADDING_PK_DOMAIN]; out_value := 0; out_r := digest_hash_bytes [PADDING_OUT_R; [index]] |}.
Definition padding_leaf_witness : option SpendWitness :=
  header ← padding_header;
  Some {| sw_header := header; sw_depth := 1; sw_inputs := (padding_input 0, padding_input 1);
          sw_outputs := (padding_output 0, padding_output 1); sw_fee := 0; sw_ct_digest := CircuitMerkle.empty_digest |}.
Definition canonical_padding_leaf_public_inputs : option (list felt) := w ← padding_leaf_witness; Some (witness_public_inputs w).
(** [generate_padding_leaf_proof], up to the prover. *)
Definition padding_leaf_targets : option SpendTargets :=
  w ← padding_leaf_witness; match fill_witness w with Ok t => Some t | Err _ => None end.
End Padding.
