(* ===== verification/LeafCircuitProps.v ===== *)
(** * What the spend leaf proves

    The constraint system of [LeafCircuit] against the native rules of
    [NoteCore] and [CircuitMerkle]: an assignment meets the constraints exactly
    when it describes a balanced spend. *)

From stdpp Require Import base option numbers list.
From S2P Require Import Prelude Crypto NoteRules Verifier ZkTree ZkTreeProps Header CircuitMerkle NoteCore LeafCircuit.
#[local] Open Scope Z_scope.

Section Exact.
Context `{CircuitOps, !CircuitLaws, !PoseidonLaws, !NoteFieldLaws}.
Implicit Types (t : SpendTargets) (x y : felt) (h : list felt).

(** ** Elements *)
Lemma felt_val_inj x y : felt_val x = felt_val y → x = y.
Proof. intros E. by rewrite <- (from_u64_val x), E, from_u64_val. Qed.
Lemma val_small z : 0 ≤ z < GOLDILOCKS_P → felt_val (from_u64 z) = z.
Proof. intros Hz. rewrite val_from_u64 by lia. by apply Z.mod_small. Qed.
Lemma P_pos : 4 * 2 ^ 61 < GOLDILOCKS_P ∧ 3 * 2 ^ 62 < GOLDILOCKS_P.
Proof. unfold GOLDILOCKS_P. lia. Qed.
Lemma val_zero : felt_val c_zero = 0.
Proof. apply val_small. unfold GOLDILOCKS_P. lia. Qed.
Lemma val_one : felt_val c_one = 1.
Proof. apply val_small. unfold GOLDILOCKS_P. lia. Qed.
Lemma val_bit b : felt_val (bit_target b) = Z.b2z b.
Proof. destruct b; [apply val_one|apply val_zero]. Qed.
Lemma felt_eq x y : x = y ↔ felt_val x = felt_val y.
Proof. split; [by intros ->|apply felt_val_inj]. Qed.

Lemma goldilocks_new_val x : goldilocks_new (felt_val x) = x.
Proof. rewrite goldilocks_new_is_from_u64 by apply felt_val_range. apply from_u64_val. Qed.

(** ** Hashes *)
Definition digest_of h : Hash256 := digest_of_limbs (felt_val <$> h).
Definition is_hash h : Prop := length h = 4%nat.

Lemma felt_vals_canonical h : Forall (λ l, 0 ≤ l < GOLDILOCKS_P) (felt_val <$> h).
Proof. apply Forall_fmap, Forall_true. intros x. apply felt_val_range. Qed.
Lemma good_digest_of h : is_hash h → good_hash (digest_of h).
Proof.
  intros Hl. destruct (digest_of_limbs_canonical (felt_val <$> h)) as [_ Hc]; [by rewrite length_fmap|apply felt_vals_canonical|].
  split; [|done]. apply digest_of_limbs_digest. by rewrite length_fmap.
Qed.
Lemma dfelts_digest_of h : is_hash h → dfelts (digest_of h) = h.
Proof.
  intros Hl. destruct (digest_of_limbs_canonical (felt_val <$> h)) as [Hlimbs _]; [by rewrite length_fmap|apply felt_vals_canonical|].
  unfold dfelts, CircuitMerkle.felts, digest_of. rewrite Hlimbs, <- list_fmap_compose. rewrite <- (list_fmap_id h) at 2.
  apply list_fmap_ext. intros ? x _. apply from_u64_val.
Qed.
Lemma digest_of_dfelts d : good_hash d → digest_of (dfelts d) = d.
Proof. intros Hd. apply dfelts_inj; [by apply good_digest_of|done|]. by apply dfelts_digest_of. Qed.
Lemma is_hash_dfelts d : is_hash (dfelts d).
Proof. done. Qed.
Lemma is_hash_no_pad l : is_hash (hash_no_pad l).
Proof. done. Qed.
Lemma digest_of_hash l : digest_of (hash_no_pad l) = hash_to_bytes l.
Proof. apply digest_of_dfelts. split; [apply hash_to_bytes_digest|apply hash_to_bytes_canonical]. Qed.
Lemma hash_eq h d : is_hash h → good_hash d → (h = dfelts d ↔ digest_of h = d).
Proof. intros Hh Hd. split; [intros ->; by apply digest_of_dfelts|intros <-; by rewrite dfelts_digest_of]. Qed.
Lemma digest_of_inj h h' : is_hash h → is_hash h' → digest_of h = digest_of h' → h = h'.
Proof. intros Hh Hh' E. by rewrite <- (dfelts_digest_of h), E, dfelts_digest_of. Qed.

(** ** Gadgets *)
Lemma xor_spec a b : xor a b = xorb a b.
Proof.
  unfold xor, new_unsafe.
  assert (Hv : felt_val (c_sub (c_add (bit_target a) (bit_target b)) (c_add (c_mul (bit_target a) (bit_target b)) (c_mul (bit_target a) (bit_target b)))) = Z.b2z (xorb a b)).
  { rewrite c_sub_val, !c_add_val, !c_mul_val, !val_bit. by destruct a, b. }
  destruct (xorb a b); [apply bool_decide_eq_true|apply bool_decide_eq_false]; rewrite felt_eq, Hv, val_one; done.
Qed.

(** The bits of [d], and the comparison over the lowest [n] of them. *)
Definition bits_of (d : Z) (n : nat) : list bool := Z.testbit d ∘ Z.of_nat <$> seq 0 n.
Lemma bits_of_S d n : bits_of d (S n) = bits_of d n ++ [Z.testbit d (Z.of_nat n)].
Proof. unfold bits_of. by rewrite seq_S, fmap_app. Qed.
Lemma mod_pow_S d (n : nat) : d mod 2 ^ Z.of_nat (S n) = Z.b2z (Z.testbit d (Z.of_nat n)) * 2 ^ Z.of_nat n + d mod 2 ^ Z.of_nat n.
Proof.
  rewrite Z.testbit_spec' by lia. rewrite Nat2Z.inj_succ, Z.pow_succ_r, (Z.mul_comm 2) by lia.
  rewrite Z.rem_mul_r by (apply Z.pow_nonzero || apply Z.pow_pos_nonneg || lia; lia). lia.
Qed.
Lemma less_than_bits left d n : ∀ lt eq,
  foldl (less_than_bit left) (lt, eq) (rev (imap pair (bits_of d n))) =
    (lt || (eq && (left mod 2 ^ Z.of_nat n <? d mod 2 ^ Z.of_nat n)), eq && (left mod 2 ^ Z.of_nat n =? d mod 2 ^ Z.of_nat n)).
Proof.
  induction n as [|n IH]; intros lt eq.
  - cbn. rewrite !Z.mod_1_r. cbn. by rewrite andb_false_r, orb_false_r, andb_true_r.
  - rewrite bits_of_S, imap_app, rev_app_distr. cbn [imap rev app foldl less_than_bit]. rewrite IH, xor_spec.
    replace (length (bits_of d n) + 0)%nat with n by (unfold bits_of; rewrite length_fmap, length_seq; lia).
    rewrite !mod_pow_S. set (m := 2 ^ Z.of_nat n). set (a := left mod m). set (b := d mod m).
    assert (0 ≤ a < m) by (apply Z.mod_pos_bound; unfold m; lia). assert (0 ≤ b < m) by (apply Z.mod_pos_bound; unfold m; lia).
    destruct (Z.testbit left (Z.of_nat n)), (Z.testbit d (Z.of_nat n)), lt, eq; cbn [Z.b2z negb andb orb xorb]; f_equal;
      rewrite ?Z.mul_0_l, ?Z.mul_1_l, ?Z.add_0_l; repeat (destruct (Z.ltb_spec _ _) || destruct (Z.eqb_spec _ _)); (done || lia).
Qed.
Lemma const_less_than_bits_spec left d n :
  0 ≤ left < 2 ^ Z.of_nat n → 0 ≤ d < 2 ^ Z.of_nat n → const_less_than_bits left (bits_of d n) = (left <? d).
Proof. intros Hl Hd. unfold const_less_than_bits. rewrite less_than_bits. cbn. by rewrite !Z.mod_small. Qed.

Lemma digests_are_equal_spec h h' : length h = length h' → digests_are_equal h h' = bool_decide (h = h').
Proof.
  unfold digests_are_equal.
  assert (Hg : ∀ acc (l l' : list felt), length l = length l' →
    foldl (λ all_equal p, all_equal && is_equal p.1 p.2) acc (zip l l') = acc && bool_decide (l = l')).
  { intros acc l. revert acc. induction l as [|x l IH]; intros acc [|y l'] Hl; try done; [by rewrite andb_true_r|].
    cbn [zip zip_with foldl fst snd]. injection Hl as Hl. rewrite IH by done. unfold is_equal. rewrite <- andb_assoc. f_equal.
    do 3 case_bool_decide; try done; naive_solver. }
  intros Hl. by rewrite Hg.
Qed.
Lemma check_Some b u : check b = Some u ↔ b = true.
Proof. unfold check. destruct u, b; naive_solver. Qed.
Lemma connect_bit b u : connect (bit_target b) c_zero = Some u ↔ b = false.
Proof.
  unfold connect. rewrite check_Some, bool_decide_eq_true, felt_eq, val_bit, val_zero. by destruct b.
Qed.

(** A product with a bit is zero exactly when the bit is clear or the factor
    is zero. *)
Lemma mul_bit x b : c_mul x (bit_target b) = c_zero ↔ b = false ∨ felt_val x = 0.
Proof.
  rewrite felt_eq, c_mul_val, val_bit, val_zero. pose proof (felt_val_range x).
  destruct b; cbn [Z.b2z]; [rewrite Z.mul_1_r, Z.mod_small by done; naive_solver|rewrite Z.mul_0_r; naive_solver].
Qed.
Lemma sub_zero x y : felt_val (c_sub x y) = 0 ↔ x = y.
Proof.
  rewrite c_sub_val, felt_eq. pose proof (felt_val_range x). pose proof (felt_val_range y). split; [|intros ->; by rewrite Z.sub_diag].
  intros Hm. apply Z.mod_divide in Hm as [k Hk]; [|unfold GOLDILOCKS_P; lia]. unfold GOLDILOCKS_P in *. nia.
Qed.
Lemma gated_roots root root' b : length root = length root' →
  forallb (λ p : felt * felt, bool_decide (c_mul (c_sub p.1 p.2) (bit_target b) = c_zero)) (zip root root') = true ↔ (b = true → root = root').
Proof.
  revert root'. induction root as [|x l IH]; intros [|y l'] Hl; try done. cbn [zip zip_with forallb fst snd]. injection Hl as Hl.
  change (zip_with pair l l') with (zip l l'). rewrite andb_true_iff, bool_decide_eq_true, mul_bit, sub_zero, IH by done.
  destruct b; naive_solver.
Qed.
Lemma range_62 x : c_range_check x VALUE_BITS_NAT = true ↔ felt_val x ≤ MAX_VALUE.
Proof. rewrite c_range_check_val by (unfold VALUE_BITS_NAT; lia). unfold VALUE_BITS_NAT. rewrite Z.ltb_lt. change (2 ^ Z.of_nat 62) with (MAX_VALUE + 1). lia. Qed.
Lemma balance v1 v2 o1 o2 fee u :
  felt_val v1 ≤ MAX_VALUE → felt_val v2 ≤ MAX_VALUE → felt_val o1 ≤ MAX_VALUE → felt_val o2 ≤ MAX_VALUE → felt_val fee ≤ MAX_VALUE →
  connect (c_add v1 v2) (c_add (c_add o1 o2) fee) = Some u ↔ felt_val v1 + felt_val v2 = felt_val o1 + felt_val o2 + felt_val fee.
Proof.
  intros. unfold connect. rewrite check_Some, bool_decide_eq_true, felt_eq, !c_add_val.
  pose proof (felt_val_range v1). pose proof (felt_val_range v2). pose proof (felt_val_range o1). pose proof (felt_val_range o2). pose proof (felt_val_range fee).
  change MAX_VALUE with (2 ^ 62 - 1) in *. destruct P_pos. rewrite (Z.mod_small (felt_val o1 + felt_val o2)) by lia. by rewrite !Z.mod_small by lia.
Qed.

(** ** Paths *)
Definition level_ok (l : list (list felt) * felt) : Prop := length l.1 = 3%nat ∧ Forall is_hash l.1.
(** A level as the native path has it. *)
Definition native_level (l : list (list felt) * felt) : list Hash256 * Z := (digest_of <$> l.1, felt_val l.2).

Lemma position_at x k : 0 ≤ k < 4 → is_equal x (from_u64 k) = (felt_val x =? k).
Proof.
  intros Hk. unfold is_equal. rewrite (bool_decide_ext _ _ (felt_eq x (from_u64 k))), val_small by (unfold GOLDILOCKS_P; lia).
  destruct (Z.eqb_spec (felt_val x) k); [by apply bool_decide_eq_true|by apply bool_decide_eq_false].
Qed.
Lemma insert_current_spec cur sibs x :
  length sibs = 3%nat → felt_val x < 4 →
  insert_current cur sibs x = take (Z.to_nat (felt_val x)) sibs ++ cur :: drop (Z.to_nat (felt_val x)) sibs.
Proof.
  intros Hl Hx. pose proof (felt_val_range x) as [Hnn _]. destruct sibs as [|a [|b [|c [|]]]]; try done.
  unfold insert_current. rewrite !position_at by lia. unfold sibling. cbn [nth].
  assert (Hc : felt_val x = 0 ∨ felt_val x = 1 ∨ felt_val x = 2 ∨ felt_val x = 3) by lia.
  destruct Hc as [->|[->|[->| ->]]]; done.
Qed.

Lemma restore_felts cur sibs (p : nat) :
  is_hash cur → Forall is_hash sibs →
  concat (CircuitMerkle.felts <$> CircuitMerkle.restore (digest_of <$> sibs) p (digest_of cur)) = concat (take p sibs ++ cur :: drop p sibs).
Proof.
  intros Hc Hs. unfold CircuitMerkle.restore. rewrite <- fmap_take, <- fmap_drop, fmap_app, fmap_cons, <- !list_fmap_compose.
  assert (Hid : ∀ l, Forall is_hash l → CircuitMerkle.felts ∘ digest_of <$> l = l).
  { induction 1 as [|x l Hx _ IH]; [done|]. cbn. f_equal; [apply (dfelts_digest_of x Hx)|done]. }
  rewrite !Hid by (by apply Forall_take || by apply Forall_drop). f_equal. f_equal. f_equal. apply (dfelts_digest_of cur Hc).
Qed.

(** The flags of the levels from [k] on, for a tree of depth [d]. *)
Definition flags (k m d : nat) : list bool := (λ level, Z.of_nat level <? Z.of_nat d) <$> seq k m.
Definition positions_ok (path : list (list (list felt) * felt)) : Prop := Forall (λ l, felt_val l.2 < 4) path.
Lemma merkle_climbs path : ∀ cur k d,
  is_hash cur → Forall level_ok path →
  (positions_ok path ∧ ∃ root, good_hash root ∧ merkle_root_from_path cur path (flags k (length path) d) = Some (dfelts root) ∧
      CircuitMerkle.climb (take (d - k) (native_level <$> path)) (digest_of cur) = Ok root) ∨
  (¬ positions_ok path ∧ merkle_root_from_path cur path (flags k (length path) d) = None).
Proof.
  induction path as [|[sibs x] path IH]; intros cur k d Hcur Hpath; cbn [length merkle_root_from_path flags seq fmap list_fmap].
  - left. split; [constructor|]. exists (digest_of cur). split_and!; [by apply good_digest_of|by rewrite dfelts_digest_of|].
    by rewrite take_nil.
  - apply Forall_cons_1 in Hpath as [[Hl Hsibs] Hpath]. cbn [fst snd] in Hl, Hsibs. rewrite c_range_check_val by lia. change (2 ^ Z.of_nat 2) with 4.
    unfold check. destruct (Z.ltb_spec (felt_val x) 4) as [Hx|Hx]; cbn [mbind option_bind].
    2: { right. split; [|done]. intros [Hh _]%Forall_cons_1. cbn in Hh. lia. }
    rewrite (insert_current_spec cur sibs x Hl Hx). set (parent := hash_no_pad _).
    assert (Hnode : hash_to_bytes (concat (take (Z.to_nat (felt_val x)) sibs ++ cur :: drop (Z.to_nat (felt_val x)) sibs)) =
      CircuitMerkle.hash_node_presorted (CircuitMerkle.restore (digest_of <$> sibs) (Z.to_nat (felt_val x)) (digest_of cur))).
    { unfold CircuitMerkle.hash_node_presorted. by rewrite restore_felts. }
    destruct (IH (select (Z.of_nat k <? Z.of_nat d) parent cur) (S k) d) as [[Hpos (root & Hg & Hm & Hc)]|[Hpos Hm]]; [by destruct (_ <? _)|done| |].
    + left. split; [by constructor|]. exists root. split_and!; [done|done|].
      destruct (Z.ltb_spec (Z.of_nat k) (Z.of_nat d)) as [Hk|Hk]; cbn [select] in Hc.
      * replace (d - k)%nat with (S (d - S k)) by lia. cbn [take native_level CircuitMerkle.climb fst snd]. unfold ensure, ARITY.
        rewrite (proj2 (Z.ltb_lt _ _)) by done. cbn [mbind result_bind]. rewrite <- Hnode, <- digest_of_hash. exact Hc.
      * replace (d - k)%nat with 0%nat by lia. replace (d - S k)%nat with 0%nat in Hc by lia. exact Hc.
    + right. split; [|done]. by intros [_ ?]%Forall_cons_1.
Qed.

(** ** The note hashes *)
Lemma domain_hash tag parts : hash_with_domain tag parts = dfelts (hash_felts tag parts).
Proof. done. Qed.
Lemma pk_hash ask nk : is_hash ask → is_hash nk → g_derive_pk ask nk = dfelts (derive_pk (digest_of ask) (digest_of nk)).
Proof.
  intros Ha Hn. unfold g_derive_pk, g_derive_ak, derive_pk, derive_ak. rewrite !domain_hash. by rewrite !dfelts_digest_of.
Qed.
Lemma commitment_hash pk rho r x : is_hash pk → is_hash rho → is_hash r →
  g_note_commitment (g_note_inner pk rho r) x =
    dfelts (note_commitment {| nt_pk := digest_of pk; nt_value := felt_val x; nt_rho := digest_of rho; nt_r := digest_of r |}).
Proof.
  intros Hp Hrho Hr. unfold g_note_commitment, g_note_inner, note_commitment, commitment_from_inner, inner, note_inner. cbn [nt_pk nt_value nt_rho nt_r].
  rewrite !domain_hash, !dfelts_digest_of by done. by rewrite goldilocks_new_val.
Qed.
Lemma nullifier_hash b nk rho r : is_hash nk → is_hash rho → is_hash r →
  note_nullifier_tagged (nullifier_domain_tag b) nk rho r =
    dfelts ((if b then dummy_nullifier else nullifier) (digest_of nk) (digest_of rho) (digest_of r)).
Proof.
  intros Hn Hrho Hr. unfold note_nullifier_tagged, nullifier_domain_tag, hash_with_domain_target, hash_no_pad, dummy_nullifier, nullifier, hash_felts.
  destruct b; by rewrite !dfelts_digest_of.
Qed.
Lemma rho_hash nf1 nf2 i : is_hash nf1 → is_hash nf2 → 0 ≤ i < GOLDILOCKS_P →
  g_output_rho nf1 nf2 i = dfelts (output_rho (digest_of nf1) (digest_of nf2) i).
Proof.
  intros Hn1 Hn2 Hi. unfold g_output_rho, output_rho. rewrite domain_hash, !dfelts_digest_of by done.
  by rewrite <- goldilocks_new_is_from_u64.
Qed.

(** ** What an assignment describes *)
(** The widths the targets are allocated with. *)
Record input_targets_ok (i : InputNoteTargets) : Prop := {
  io_keys : is_hash (it_ask i) ∧ is_hash (it_nk i) ∧ is_hash (it_rho i) ∧ is_hash (it_r i);
  io_levels : length (it_siblings i) = CircuitMerkle.MAX_DEPTH ∧ length (it_positions i) = CircuitMerkle.MAX_DEPTH;
  io_siblings : Forall (λ l, length l = 3%nat ∧ Forall is_hash l) (it_siblings i);
}.
Record targets_ok t : Prop := {
  to_public : is_hash (tg_block_hash t) ∧ is_hash (tg_nullifiers t).1 ∧ is_hash (tg_nullifiers t).2 ∧
    is_hash (tg_commitments t).1 ∧ is_hash (tg_commitments t).2 ∧ is_hash (tg_ct_digest t);
  to_root : is_hash (hg_zk_tree_root (tg_header t));
  to_inputs : input_targets_ok (tg_inputs t).1 ∧ input_targets_ok (tg_inputs t).2;
  to_outputs : is_hash (ot_pk (tg_outputs t).1) ∧ is_hash (ot_r (tg_outputs t).1) ∧ is_hash (ot_pk (tg_outputs t).2) ∧ is_hash (ot_r (tg_outputs t).2);
  to_header : is_hash (hg_parent_hash (tg_header t)) ∧ is_hash (hg_state_root (tg_header t)) ∧ is_hash (hg_extrinsics_root (tg_header t));
}.

(** The note an input opens, and the path it claims at depth [d]. *)
Definition input_opening (i : InputNoteTargets) : Note :=
  {| nt_pk := derive_pk (digest_of (it_ask i)) (digest_of (it_nk i)); nt_value := felt_val (it_value i);
     nt_rho := digest_of (it_rho i); nt_r := digest_of (it_r i) |}.
Definition claimed_path (d : nat) (i : InputNoteTargets) : CircuitMerkle.MerklePath :=
  {| CircuitMerkle.siblings := take d (fmap (M := list) (fmap (M := list) digest_of) (it_siblings i));
     CircuitMerkle.positions := take d (felt_val <$> it_positions i) |}.
Record input_claim (root : Hash256) (d : nat) (i : InputNoteTargets) (nf : Hash256) : Prop := {
  ic_value : felt_val (it_value i) ≤ MAX_VALUE;
  ic_positions : Forall (λ p, felt_val p < 4) (it_positions i);
  ic_dummy : it_is_dummy i = true → felt_val (it_value i) = 0 ∧
    nf = dummy_nullifier (digest_of (it_nk i)) (digest_of (it_rho i)) (digest_of (it_r i));
  ic_real : it_is_dummy i = false → nf = nullifier (digest_of (it_nk i)) (digest_of (it_rho i)) (digest_of (it_r i)) ∧
    CircuitMerkle.path_root (claimed_path d i) (note_commitment (input_opening i)) = Ok root;
}.
(** The note an output commits to, its [rho] derived. *)
Definition output_opening (nf1 nf2 : Hash256) (index : Z) (o : OutputNoteTargets) : Note :=
  {| nt_pk := digest_of (ot_pk o); nt_value := felt_val (ot_value o); nt_rho := output_rho nf1 nf2 index; nt_r := digest_of (ot_r o) |}.
Definition header_inputs t : CircuitHeader.HeaderInputs :=
  let hd := tg_header t in
  {| CircuitHeader.ci_parent_hash := hg_parent_hash hd; CircuitHeader.ci_block_number := felt_val (tg_block_number t);
     CircuitHeader.ci_state_root := hg_state_root hd; CircuitHeader.ci_extrinsics_root := hg_extrinsics_root hd;
     CircuitHeader.ci_zk_tree_root := hg_zk_tree_root hd; CircuitHeader.ci_digest := hg_digest hd |}.
Definition padding_digest : Hash256 := digest_of_limbs PADDING_BLOCK_HASH.

Record leaf_claim t : Prop := {
  lc_header : digest_of (tg_block_hash t) = CircuitHeader.block_hash (header_inputs t) ∧ felt_val (tg_block_number t) < 2 ^ 32;
  lc_depth : felt_val (tg_depth t) ≤ Z.of_nat CircuitMerkle.MAX_DEPTH;
  lc_input_1 : input_claim (digest_of (hg_zk_tree_root (tg_header t))) (Z.to_nat (felt_val (tg_depth t))) (tg_inputs t).1 (digest_of (tg_nullifiers t).1);
  lc_input_2 : input_claim (digest_of (hg_zk_tree_root (tg_header t))) (Z.to_nat (felt_val (tg_depth t))) (tg_inputs t).2 (digest_of (tg_nullifiers t).2);
  lc_nullifiers : digest_of (tg_nullifiers t).1 ≠ digest_of (tg_nullifiers t).2;
  lc_consumes : digest_of (tg_block_hash t) ≠ padding_digest → it_is_dummy (tg_inputs t).1 = false ∨ it_is_dummy (tg_inputs t).2 = false;
  lc_output_1 : felt_val (ot_value (tg_outputs t).1) ≤ MAX_VALUE ∧
    digest_of (tg_commitments t).1 = note_commitment (output_opening (digest_of (tg_nullifiers t).1) (digest_of (tg_nullifiers t).2) 0 (tg_outputs t).1);
  lc_output_2 : felt_val (ot_value (tg_outputs t).2) ≤ MAX_VALUE ∧
    digest_of (tg_commitments t).2 = note_commitment (output_opening (digest_of (tg_nullifiers t).1) (digest_of (tg_nullifiers t).2) 1 (tg_outputs t).2);
  lc_fee : felt_val (tg_fee t) ≤ MAX_VALUE;
  lc_balance : felt_val (it_value (tg_inputs t).1) + felt_val (it_value (tg_inputs t).2) =
    felt_val (ot_value (tg_outputs t).1) + felt_val (ot_value (tg_outputs t).2) + felt_val (tg_fee t);
}.

(** ** Each fragment *)
Lemma connect_hashes_digest h d u : is_hash h → good_hash d → connect_hashes (dfelts d) h = Some u ↔ digest_of h = d.
Proof.
  intros Hh Hd. unfold connect_hashes. rewrite check_Some, bool_decide_eq_true. rewrite <- (hash_eq h d Hh Hd). split; congruence.
Qed.
Lemma good_sponge l : good_hash (hash_to_bytes l).
Proof. split; [apply hash_to_bytes_digest|apply hash_to_bytes_canonical]. Qed.

Lemma header_exact h x hd u : is_hash h →
  constrain_header h x hd = Some u ↔
  digest_of h = hash_to_bytes (header_preimage x hd) ∧ felt_val x < 2 ^ 32.
Proof.
  intros Hh. unfold constrain_header. rewrite c_range_check_val by lia. change (2 ^ Z.of_nat 32) with (2 ^ 32).
  unfold check at 1. destruct (Z.ltb_spec (felt_val x) (2 ^ 32)); cbn [mbind option_bind]; [|split; [done|lia]].
  unfold connect_hashes. rewrite check_Some, bool_decide_eq_true. unfold hash_no_pad. rewrite hash_eq by (done || apply good_sponge). naive_solver.
Qed.

Lemma flags_exact x bits : c_split_le x DEPTH_BITS = Some bits →
  felt_val x < 32 ∧ (const_less_than_bits (Z.of_nat CircuitMerkle.MAX_DEPTH) bits = false ↔ felt_val x ≤ Z.of_nat CircuitMerkle.MAX_DEPTH) ∧
  active_level_flags_from_bits bits = flags 0 CircuitMerkle.MAX_DEPTH (Z.to_nat (felt_val x)).
Proof.
  rewrite c_split_le_val by (unfold DEPTH_BITS; lia). change (2 ^ Z.of_nat DEPTH_BITS) with 32. pose proof (felt_val_range x).
  destruct (Z.ltb_spec (felt_val x) 32) as [Hx|]; [|done]. intros [= <-]. fold (bits_of (felt_val x) DEPTH_BITS).
  assert (Hb : ∀ l, 0 ≤ l < 32 → const_less_than_bits l (bits_of (felt_val x) DEPTH_BITS) = (l <? felt_val x)).
  { intros l Hl. apply const_less_than_bits_spec; change (2 ^ Z.of_nat DEPTH_BITS) with 32; lia. }
  split_and!; [done| |].
  - rewrite Hb by (unfold CircuitMerkle.MAX_DEPTH; lia). rewrite Z.ltb_ge. done.
  - unfold active_level_flags_from_bits, flags. apply list_fmap_ext. intros i level Hi%lookup_seq. unfold CircuitMerkle.MAX_DEPTH in *.
    rewrite Hb, Z2Nat.id by lia. done.
Qed.

(** Paths: the zipped targets against the native path. *)
Lemma zip_positions (ss : list (list (list felt))) ps : length ss = length ps →
  positions_ok (zip ss ps) ↔ Forall (λ p, felt_val p < 4) ps.
Proof.
  revert ps. induction ss as [|l ss IH]; intros [|x ps] Hl; try done; [unfold positions_ok; by rewrite !Forall_nil|].
  injection Hl as Hl. unfold positions_ok in *. cbn [zip zip_with]. rewrite !Forall_cons. change (zip_with pair ss ps) with (zip ss ps). rewrite IH by done. done.
Qed.
Lemma zip_levels (ss : list (list (list felt))) ps : length ss = length ps →
  Forall (λ l, length l = 3%nat ∧ Forall is_hash l) ss → Forall level_ok (zip ss ps).
Proof.
  revert ps. induction ss as [|l ss IH]; intros [|x ps] Hl Hf; try done. injection Hl as Hl. apply Forall_cons_1 in Hf as [Hx Hf].
  constructor; [done|by apply IH].
Qed.
Lemma native_path (ss : list (list (list felt))) ps d :
  take d (native_level <$> zip ss ps) = zip (take d (fmap (M := list) (fmap (M := list) digest_of) ss)) (take d (felt_val <$> ps)).
Proof.
  revert ps d. induction ss as [|l ss IH]; intros [|x ps] [|d]; try done. cbn. f_equal. apply IH.
Qed.
Lemma path_root_climbs d i leaf : input_targets_ok i → (d ≤ CircuitMerkle.MAX_DEPTH)%nat →
  CircuitMerkle.path_root (claimed_path d i) leaf =
    CircuitMerkle.climb (take d (native_level <$> zip (it_siblings i) (it_positions i))) leaf.
Proof.
  intros [_ [Hs Hp] _] Hd. unfold CircuitMerkle.path_root, claimed_path. cbn [CircuitMerkle.siblings CircuitMerkle.positions].
  rewrite !length_take, !length_fmap, Hs, Hp. unfold ensure. rewrite Nat.eqb_refl, (proj2 (Nat.leb_le _ _)) by lia. cbn [mbind result_bind].
  by rewrite native_path.
Qed.
Lemma dfelts_eq d h : good_hash d → is_hash h → dfelts d = h ↔ d = digest_of h.
Proof. intros Hd Hh. pose proof (hash_eq h d Hh Hd) as E. split; intros Hx; symmetry; apply E; congruence. Qed.

Lemma bind_unit {A} (b : bool) (k : unit → option A) v : (check b ≫= k) = Some v ↔ b = true ∧ k tt = Some v.
Proof. unfold check. destruct b; cbn; naive_solver. Qed.
Lemma bind_connect {A} x y (k : unit → option A) v : (connect x y ≫= k) = Some v ↔ x = y ∧ k tt = Some v.
Proof. unfold connect. by rewrite bind_unit, bool_decide_eq_true. Qed.
Lemma bind_hashes {A} h h' (k : unit → option A) v : (connect_hashes h h' ≫= k) = Some v ↔ h = h' ∧ k tt = Some v.
Proof. unfold connect_hashes. by rewrite bind_unit, bool_decide_eq_true. Qed.

Lemma input_exact root d i nf v : input_targets_ok i → is_hash root → is_hash nf → (d ≤ CircuitMerkle.MAX_DEPTH)%nat →
  constrain_input root (flags 0 CircuitMerkle.MAX_DEPTH d) i nf = Some v ↔ v = it_value i ∧ input_claim (digest_of root) d i (digest_of nf).
Proof.
  intros Hok Hroot Hnf Hd. pose proof Hok as [(Hask & Hnk & Hrho & Hr) [Hs Hp] Hsib]. unfold constrain_input.
  rewrite bind_unit, range_62, bind_connect, mul_bit.
  assert (Hcm : g_note_commitment (g_note_inner (g_derive_pk (it_ask i) (it_nk i)) (it_rho i) (it_r i)) (it_value i) = dfelts (note_commitment (input_opening i))).
  { rewrite pk_hash, commitment_hash by (done || apply is_hash_dfelts). unfold input_opening. by rewrite digest_of_dfelts by apply hash_felts_good. }
  rewrite Hcm, nullifier_hash by done. set (cm := note_commitment (input_opening i)).
  assert (Hlen : length (zip (it_siblings i) (it_positions i)) = CircuitMerkle.MAX_DEPTH) by (rewrite length_zip; lia).
  assert (Hzip : length (it_siblings i) = length (it_positions i)) by lia.
  pose proof (merkle_climbs (zip (it_siblings i) (it_positions i)) (dfelts cm) 0 d (is_hash_dfelts _) (zip_levels _ _ Hzip Hsib)) as Hm.
  rewrite Hlen, Nat.sub_0_r, digest_of_dfelts in Hm by apply hash_felts_good.
  destruct Hm as [[Hpos (top & Htop & -> & Hc)]|[Hpos ->]]; cbn [mbind option_bind].
  2: { split; [naive_solver|]. intros [_ [_ Hps _ _]]. by rewrite zip_positions in Hpos. }
  rewrite zip_positions in Hpos by done. rewrite bind_unit, gated_roots by (by rewrite Hroot). rewrite bind_hashes, (dfelts_eq top) by done.
  rewrite dfelts_eq by (destruct (it_is_dummy i); apply hash_felts_good || done). rewrite <- (path_root_climbs d i cm Hok Hd) in Hc.
  split.
  - intros (Hv & Hz & Hroots & Hnul & [= <-]). split; [done|]. constructor; [done|done| |].
    + intros Hdm. rewrite Hdm in *. naive_solver.
    + intros Hdm. rewrite Hdm in *. cbn in Hroots. split; [done|]. fold cm. by rewrite Hc, Hroots.
  - intros [-> [Hv _ Hdum Hreal]]. split_and!; [done| | | |done].
    + destruct (it_is_dummy i); [right; naive_solver|by left].
    + intros Hn%negb_true_iff. destruct (Hreal Hn) as [_ Hpr]. fold cm in Hpr. rewrite Hpr in Hc. congruence.
    + destruct (it_is_dummy i); naive_solver.
Qed.

Lemma output_exact nf1 nf2 index o cm v : is_hash nf1 → is_hash nf2 → is_hash (ot_pk o) → is_hash (ot_r o) → is_hash cm → 0 ≤ index < GOLDILOCKS_P →
  constrain_output (nf1, nf2) index o cm = Some v ↔
  v = ot_value o ∧ felt_val (ot_value o) ≤ MAX_VALUE ∧ digest_of cm = note_commitment (output_opening (digest_of nf1) (digest_of nf2) index o).
Proof.
  intros Hn1 Hn2 Hpk Hr Hcm Hi. unfold constrain_output. cbn [fst snd]. rewrite bind_unit, range_62, bind_hashes, rho_hash by done.
  rewrite commitment_hash by (done || apply is_hash_dfelts). rewrite digest_of_dfelts by apply hash_felts_good.
  rewrite dfelts_eq by (done || apply hash_felts_good). unfold output_opening. naive_solver.
Qed.

Lemma padding_exact h : is_hash h → is_padding_block_hash h = bool_decide (digest_of h = padding_digest).
Proof.
  intros Hh. unfold is_padding_block_hash. rewrite digests_are_equal_spec by by rewrite Hh.
  assert (Hl : limbs padding_digest = PADDING_BLOCK_HASH) by (vm_compute; reflexivity).
  assert (Hg : good_hash padding_digest).
  { split; [by apply digest_of_limbs_digest|vm_compute; reflexivity]. }
  apply bool_decide_ext. rewrite <- (hash_eq h padding_digest Hh Hg). unfold dfelts, CircuitMerkle.felts. by rewrite Hl.
Qed.
Lemma consumes_exact b1 b2 real : c_mul (c_mul (bit_target b1) (bit_target b2)) (bit_target real) = c_zero ↔ (real = true → b1 = false ∨ b2 = false).
Proof.
  rewrite mul_bit, <- val_zero, <- felt_eq, mul_bit, val_bit. destruct real, b1, b2; cbn; naive_solver.
Qed.
Lemma bind_Some_iff {A B} (m : option A) (k : A → option B) (v : B) : (m ≫= k) = Some v ↔ ∃ a : A, m = Some a ∧ k a = Some v.
Proof. destruct m; cbn; naive_solver. Qed.

Ltac targets := cbn [tg_block_hash tg_block_number tg_nullifiers tg_commitments tg_fee tg_ct_digest tg_header tg_depth tg_inputs tg_outputs fst snd] in *.
(** The whole system, fragment by fragment. *)
Lemma constraints_exact t : targets_ok t → build_constraints t = Some tt ↔ leaf_claim t.
Proof.
  intros [(Hbh & Hnf1 & Hnf2 & Hcm1 & Hcm2 & _) Hroot [Hin1 Hin2] (Ho1 & Ho1' & Ho2 & Ho2') _].
  unfold build_constraints. destruct t as [bh bn [nf1 nf2] [cm1 cm2] fee ctd hd depth [in1 in2] [out1 out2]]; targets.
  assert (Hhdr : CircuitHeader.block_hash (header_inputs (Build_SpendTargets _ bh bn (nf1, nf2) (cm1, cm2) fee ctd hd depth (in1, in2) (out1, out2))) =
    hash_to_bytes (header_preimage bn hd)).
  { unfold CircuitHeader.block_hash, CircuitHeader.preimage, header_inputs, header_preimage. cbn. by rewrite goldilocks_new_val. }
  split.
  - rewrite bind_Some_iff. intros (u & Hh & Hr). apply header_exact in Hh as [Hh Hn]; [|done].
    apply bind_Some_iff in Hr as (bits & Hbits & Hr). destruct (flags_exact _ _ Hbits) as (_ & Hdep & Hflags).
    apply bind_Some_iff in Hr as (u1 & Hmax & Hr). apply connect_bit, Hdep in Hmax. rewrite Hflags in Hr.
    apply bind_Some_iff in Hr as (v1 & Hv1 & Hr). apply bind_Some_iff in Hr as (v2 & Hv2 & Hr).
    apply input_exact in Hv1 as [-> Hc1]; [|done..|lia]. apply input_exact in Hv2 as [-> Hc2]; [|done..|lia].
    apply bind_Some_iff in Hr as (u2 & Hne & Hr). apply connect_bit in Hne. rewrite digests_are_equal_spec in Hne by congruence. apply bool_decide_eq_false in Hne.
    rewrite bind_connect, consumes_exact in Hr. destruct Hr as [Hcons Hr]. rewrite padding_exact in Hcons by done.
    apply bind_Some_iff in Hr as (o1 & Hq1 & Hr). apply bind_Some_iff in Hr as (o2 & Hq2 & Hr).
    apply output_exact in Hq1 as (-> & Hw1 & Hcom1); [|done..]. apply output_exact in Hq2 as (-> & Hw2 & Hcom2); [|done..].
    rewrite bind_unit, range_62 in Hr. destruct Hr as [Hfee Hr].
    apply balance in Hr; [|apply Hc1|apply Hc2|done..]. constructor; targets; [by rewrite Hhdr|done|done|done| | |done|done|done|done].
    + intros E. apply Hne. by apply digest_of_inj.
    + intros Hp. apply Hcons. by rewrite bool_decide_eq_false_2.
  - intros [[Hh Hn] Hdep Hc1 Hc2 Hne Hcons [Hw1 Hcom1] [Hw2 Hcom2] Hfee Hbal]. targets. rewrite Hhdr in Hh.
    pose proof (felt_val_range depth) as [Hd0 _]. unfold CircuitMerkle.MAX_DEPTH in Hdep.
    rewrite bind_Some_iff. exists tt. split; [by apply header_exact|].
    rewrite bind_Some_iff. exists (bits_of (felt_val depth) DEPTH_BITS).
    assert (Hbits : c_split_le depth DEPTH_BITS = Some (bits_of (felt_val depth) DEPTH_BITS)).
    { rewrite c_split_le_val by (unfold DEPTH_BITS; lia). change (2 ^ Z.of_nat DEPTH_BITS) with 32. by rewrite (proj2 (Z.ltb_lt _ _)) by lia. }
    split; [done|]. destruct (flags_exact _ _ Hbits) as (_ & Hmax & Hflags). rewrite Hflags.
    rewrite bind_Some_iff. exists tt. split; [by apply connect_bit, Hmax|].
    rewrite bind_Some_iff. exists (it_value in1). split; [apply input_exact; (done || unfold CircuitMerkle.MAX_DEPTH; lia)|].
    rewrite bind_Some_iff. exists (it_value in2). split; [apply input_exact; (done || unfold CircuitMerkle.MAX_DEPTH; lia)|].
    rewrite bind_Some_iff. exists tt. split.
    { apply connect_bit. rewrite digests_are_equal_spec by congruence. apply bool_decide_eq_false. intros ->. by apply Hne. }
    rewrite bind_connect, consumes_exact. split.
    { rewrite padding_exact by done. intros Hp%negb_true_iff%bool_decide_eq_false. auto. }
    rewrite bind_Some_iff. exists (ot_value out1). split; [by apply output_exact|].
    rewrite bind_Some_iff. exists (ot_value out2). split; [by apply output_exact|].
    rewrite bind_unit, range_62. split; [done|]. apply balance; [apply Hc1|apply Hc2|done..].
Qed.
End Exact.
