(* ===== verification/LeafCircuitTheorems.v ===== *)
(** * The spend leaf against the chain

    What a satisfied leaf means to the chain that settles it: which leaf of
    the commitment tree it opens and which nullifier that note has; and that
    an honest wallet's witness always satisfies it. *)

From stdpp Require Import base option numbers list sorting gmap relations.
From S2P Require Import Prelude Crypto NoteRules Verifier ZkTree ZkTreeProps Header CircuitMerkle CircuitMerkleProps NoteCore LeafCircuit LeafCircuitProps.
#[local] Open Scope Z_scope.

(** ** Paths against the pallet's tree *)
Section Paths.
Context `{PoseidonOps, !PoseidonLaws, !NoteFieldLaws}.
Implicit Types (t : TreeState) (h : Hash256).

(** Every leaf of the tree is a note commitment: what the shielded pallet
    inserts, by [NoteRules.commitment] or from a verified leaf. [openings] are
    the preimages of those hashes. *)
Definition commitment_leaves t (openings : Z → Hash256 * Z) : Prop :=
  ∀ j c, Leaves t !! j = Some c → c = commitment_from_inner (openings j).1 (openings j).2.

(** What the leaves, and the nodes up a claimed path, hash. *)
Definition commit_pre (inner : Hash256) (v : Z) : list felt := felts_pre CM [dfelts inner; [goldilocks_new v]].
Definition opening_pres (openings : Z → Hash256 * Z) (n : Z) : list (list felt) :=
  (λ j, commit_pre (openings j).1 (openings j).2) <$> seqZ 0 n.
Definition climb_pre (sibs : list Hash256) (p : Z) (c : Hash256) : list felt :=
  concat (CircuitMerkle.felts <$> CircuitMerkle.restore sibs (Z.to_nat p) c).
Fixpoint climb_pres (levels : list (list Hash256 * Z)) (h : Hash256) : list (list felt) :=
  match levels with
  | [] => []
  | (sibs, p) :: rest => climb_pre sibs p h :: climb_pres rest (CircuitMerkle.hash_node_presorted (CircuitMerkle.restore sibs (Z.to_nat p) h))
  end.
Definition good_level (l : list Hash256 * Z) : Prop := length l.1 = 3%nat ∧ Forall good_hash l.1.

Lemma Ok_eq {E A} (a b : A) : @Ok E A a = Ok b → a = b.
Proof. by intros [= ->]. Qed.
Lemma node_felts_length (l : list Hash256) : length (concat (CircuitMerkle.felts <$> l)) = (4 * length l)%nat.
Proof. induction l as [|h l IH]; [done|]. cbn [fmap list_fmap concat]. rewrite length_app, IH. change (length (CircuitMerkle.felts h)) with 4%nat. cbn [length]. lia. Qed.
Lemma length_restore sibs p h : length sibs = 3%nat → length (CircuitMerkle.restore sibs p h) = 4%nat.
Proof. intros Hl. unfold CircuitMerkle.restore. rewrite length_app. cbn [length]. rewrite length_take, length_drop. lia. Qed.

(** A commitment is never a node: six elements against sixteen. *)
Lemma commitment_not_node inner v (x : list felt) :
  length x = 16%nat → commitment_from_inner inner v = hash_to_bytes x → collides [commit_pre inner v; x].
Proof. intros Hl E. apply sponge_eq in E as [?|E]; [done|]. apply (f_equal length) in E. rewrite Hl in E. done. Qed.

Lemma climb_snoc levels sibs p h :
  CircuitMerkle.climb (levels ++ [(sibs, p)]) h =
    c ← CircuitMerkle.climb levels h; CircuitMerkle.climb [(sibs, p)] c.
Proof. revert h. induction levels as [|[s q] levels IH]; intros h; [done|]. cbn [app CircuitMerkle.climb]. unfold ensure. destruct (q <? ARITY); [apply IH|done]. Qed.
Lemma climb_pres_snoc sibs p levels : ∀ h c, CircuitMerkle.climb levels h = Ok c →
  climb_pres (levels ++ [(sibs, p)]) h = climb_pres levels h ++ [climb_pre sibs p c].
Proof.
  induction levels as [|[s q] levels IH]; intros h c; cbn [CircuitMerkle.climb app climb_pres]; [by intros [= <-]|].
  unfold ensure. destruct (q <? ARITY); [|done]. intros E. by rewrite (IH _ c E).
Qed.
Lemma climb_good levels h r : good_hash h → CircuitMerkle.climb levels h = Ok r → good_hash r.
Proof.
  revert h. induction levels as [|[s q] levels IH]; intros h Hh; cbn [CircuitMerkle.climb]; [by intros [= <-]|].
  unfold ensure. destruct (q <? ARITY); [|done]. apply IH, good_presorted.
Qed.

Lemma ref_children_good t n l i : tree_inv t → Forall good_hash (children (Leaves t) n l i).
Proof. intros Ht. apply Forall_fmap, Forall_true. intros. by apply good_ref_node. Qed.
(** A node of the pallet's tree hashes sixteen elements. *)
Lemma children_pre_length t n l i : tree_inv t → length (node_pre (children (Leaves t) n l i)) = 16%nat.
Proof.
  intros Ht. unfold node_pre. rewrite presorted_felts by (rewrite merge_sort_Permutation; by apply ref_children_good).
  by rewrite node_felts_length, merge_sort_Permutation.
Qed.
Lemma climb_pre_length sibs p c : length sibs = 3%nat → length (climb_pre sibs p c) = 16%nat.
Proof. intros Hl. unfold climb_pre. by rewrite node_felts_length, length_restore. Qed.
(** Equal inputs mean equal children. *)
Lemma climb_pre_child t n l i sibs p c : tree_inv t → good_level (sibs, p) → good_hash c →
  climb_pre sibs p c = node_pre (children (Leaves t) n l i) → ∃ k, 0 ≤ k < 4 ∧ c = ref_node (Leaves t) n l (i * 4 + k).
Proof.
  intros Ht [Hn Hg] Hc E. cbn [fst] in Hn, Hg.
  assert (Hr : Forall good_hash (CircuitMerkle.restore sibs (Z.to_nat p) c)).
  { unfold CircuitMerkle.restore. apply Forall_app. split; [by apply Forall_take|]. constructor; [done|by apply Forall_drop]. }
  unfold climb_pre in E. rewrite <- presorted_felts in E by done. unfold node_pre in E. apply concat_felts_inj in E; [|done| |].
  - assert (Hin : c ∈ children (Leaves t) n l i).
    { rewrite <- (merge_sort_Permutation lex), <- E. unfold CircuitMerkle.restore. set_solver. }
    apply list_elem_of_fmap in Hin as (k & -> & Hk%elem_of_seqZ). exists k. split; [lia|done].
  - rewrite merge_sort_Permutation. by apply ref_children_good.
  - rewrite merge_sort_Permutation. by rewrite length_restore.
Qed.

(** Whatever depth the prover claims, a path that reaches a node of the tree
    starts at a settled leaf. *)
Definition climb_queries t (openings : Z → Hash256 * Z) n k inner v levels : list (list felt) :=
  commit_pre inner v :: climb_pres levels (commitment_from_inner inner v) ++ tree_pres (Leaves t) n k ++ opening_pres openings n.
Lemma climb_reaches t openings n inner v : tree_inv t → commitment_leaves t openings → ∀ levels, Forall good_level levels → ∀ k i, 0 ≤ i →
  CircuitMerkle.climb levels (commitment_from_inner inner v) = Ok (ref_node (Leaves t) n k i) →
  broken_on (climb_queries t openings n k inner v levels) ∨ ∃ j, j < n ∧ Leaves t !! j = Some (commitment_from_inner inner v).
Proof.
  intros Ht Hc levels. unfold climb_queries. set (h := commitment_from_inner inner v). induction levels as [|[sibs p] levels IH] using rev_ind; intros Hl k i Hi0 E.
  - cbn [CircuitMerkle.climb] in E. apply Ok_eq in E. destruct (Z.le_gt_cases n (i * 4 ^ Z.of_nat k)) as [He|He].
    { rewrite ref_node_empty in E by done. left. right. exists (commit_pre inner v). split; [by left|exact E]. }
    destruct k as [|k].
    + rewrite Z.mul_1_r in He. rewrite ref_node_leaf in E by done. unfold get_leaf_hash in E.
      destruct (Leaves t !! i) as [c|] eqn:Hi; [|left; right; exists (commit_pre inner v); split; [by left|exact E]].
      right. exists i. split; [done|]. rewrite Hi. f_equal. symmetry. exact E.
    + rewrite ref_node_node in E by done. apply commitment_not_node in E; [|by apply children_pre_length]. left; left.
      eapply collides_mono; [|exact E]. pose proof (elem_of_tree_pres (Leaves t) n (S k) k i ltac:(lia) Hi0 He). unfold children in *. set_solver.
  - apply Forall_app in Hl as [Hl Hlast]. rewrite Forall_singleton in Hlast. pose proof Hlast as Hlev. destruct Hlast as [Hn Hg]. cbn [fst] in Hn, Hg.
    rewrite climb_snoc in E. destruct (CircuitMerkle.climb levels h) as [c|] eqn:Ec; [|done]. cbn [mbind result_bind CircuitMerkle.climb] in E.
    unfold ensure in E. destruct (p <? ARITY); [|done]. cbn [mbind result_bind] in E. apply Ok_eq in E.
    rewrite (climb_pres_snoc sibs p levels h c Ec). change (hash_to_bytes (climb_pre sibs p c) = ref_node (Leaves t) n k i) in E.
    destruct (Z.le_gt_cases n (i * 4 ^ Z.of_nat k)) as [He|He].
    { rewrite ref_node_empty in E by done. left. right. exists (climb_pre sibs p c). split; [set_solver|exact E]. }
    destruct k as [|k].
    { rewrite Z.mul_1_r in He. rewrite ref_node_leaf in E by done. unfold get_leaf_hash in E.
      destruct (Leaves t !! i) as [c'|] eqn:Hi; [|left; right; exists (climb_pre sibs p c); split; [set_solver|exact E]].
      cbn [default from_option id] in E. rewrite (Hc i c' Hi) in E. symmetry in E. apply commitment_not_node in E; [|by apply climb_pre_length].
      left. left. eapply collides_mono; [|exact E]. assert (commit_pre (openings i).1 (openings i).2 ∈ opening_pres openings n).
      { apply list_elem_of_fmap. exists i. split; [done|]. apply elem_of_seqZ. lia. }
      set_solver. }
    rewrite ref_node_node in E by done. apply sponge_eq in E as [E|E].
    { left. left. eapply collides_mono; [|exact E]. pose proof (elem_of_tree_pres (Leaves t) n (S k) k i ltac:(lia) Hi0 He). unfold children in *. set_solver. }
    apply (climb_pre_child t n k i) in E as (k' & Hk' & ->); [|done|done|eapply climb_good; [|exact Ec]; apply hash_felts_good].
    destruct (IH Hl k (i * 4 + k') ltac:(lia) eq_refl) as [Hb|?]; [left|by right].
    eapply broken_on_mono; [|exact Hb]. pose proof (tree_pres_mono (Leaves t) n k (S k) ltac:(lia)). set_solver.
Qed.
End Paths.

(** ** A satisfied leaf *)
Section Leaf.
Context `{CircuitOps, !CircuitLaws, !PoseidonLaws, !NoteFieldLaws}.
Implicit Types (s : SpendTargets) (t : TreeState) (i : InputNoteTargets) (nf : Hash256).

(** The inputs with the nullifiers they publish. *)
Definition spends s i nf : Prop :=
  (i = (tg_inputs s).1 ∧ nf = digest_of (tg_nullifiers s).1) ∨ (i = (tg_inputs s).2 ∧ nf = digest_of (tg_nullifiers s).2).

Lemma spends_claim s i nf : targets_ok s → build_constraints s = Some tt → spends s i nf →
  input_targets_ok i ∧ input_claim (digest_of (hg_zk_tree_root (tg_header s))) (Z.to_nat (felt_val (tg_depth s))) i nf.
Proof.
  intros Hok Hs. apply constraints_exact in Hs as [_ _ Hc1 Hc2 _ _ _ _ _ _]; [|done]. destruct Hok as [_ _ [Hi1 Hi2] _ _].
  by intros [[-> ->]|[-> ->]].
Qed.

Lemma claimed_levels_good d i : input_targets_ok i →
  Forall good_level (zip (CircuitMerkle.siblings (claimed_path d i)) (CircuitMerkle.positions (claimed_path d i))).
Proof.
  intros [_ _ Hs]. unfold claimed_path. cbn [CircuitMerkle.siblings CircuitMerkle.positions]. apply Forall_forall.
  intros [l p] Hin. apply elem_of_zip_l in Hin. apply elem_of_take in Hin as (k & Hk & _).
  rewrite list_lookup_fmap in Hk. apply fmap_Some in Hk as (l' & Hl' & ->).
  destruct (Forall_lookup_1 _ _ _ _ Hs Hl') as [Hlen Hg]. split; cbn [fst]; [by rewrite length_fmap|].
  apply Forall_fmap. eapply Forall_impl; [exact Hg|]. apply good_digest_of.
Qed.

Lemma opening_ok i : input_targets_ok i → felt_val (it_value i) ≤ MAX_VALUE → note_ok (input_opening i).
Proof.
  intros [(Ha & Hn & Hr & Hr') _ _] Hv. pose proof (felt_val_range (it_value i)).
  unfold note_ok, input_opening. cbn [nt_pk nt_value nt_rho nt_r]. split_and!; [apply hash_felts_good|by apply good_digest_of..|lia|done].
Qed.
(** What an owner key is derived from, and all that opening an input hashes. *)
Definition pk_pre (ask nk : Hash256) : list felt := felts_pre domain.PK [dfelts (derive_ak ask); dfelts nk].
Definition opening_hashes i : list (list felt) := pk_pre (digest_of (it_ask i)) (digest_of (it_nk i)) :: note_pres (input_opening i).

Lemma pk_binds ask nk ask' nk' : good_hash nk → good_hash nk' → derive_pk ask nk = derive_pk ask' nk' →
  collides [pk_pre ask nk; pk_pre ask' nk'] ∨ nk = nk'.
Proof.
  intros Hn Hn' E. apply hash_felts_eq in E as [?|[_ E]]; [by left|right|split; vm_compute; (discriminate || reflexivity)..].
  cbn [concat] in E. apply peel in E as [_ E]; [|apply hash_felts_good..]. by apply peel in E as [-> _].
Qed.

(** C5: the leaf circuit proves exactly a balanced spend. An assignment of
    the allocated widths meets every constraint if and only if its header
    hashes to the published block; each input's value is in range and, when
    real, its note (owner derived from the spend keys) climbs the claimed
    levels to the header's tree root and the published nullifier is its own,
    and when dummy it is worthless; the two nullifiers differ and a real
    block has a real input; the published outputs are commitments under the
    derived [rho]s; and inputs equal outputs plus fee over the integers, not
    only in the field. *)
Theorem leaf_circuit_is_exact s (Hok : targets_ok s) : build_constraints s = Some tt ↔ leaf_claim s.
Proof. by apply constraints_exact. Qed.

(** C3: one note, one nullifier. Two real inputs of satisfied leaves that
    open the same commitment publish the same nullifier, unless two of the six
    inputs hashed to open them (each one's owner key, inner hash and
    commitment) are a collision of the sponge; so the chain's nullifier set
    sees every second spend of a note, and a single leaf cannot spend a note
    twice. *)
Theorem note_has_one_nullifier s s' i i' nf nf'
    (Hok : targets_ok s) (Hs : build_constraints s = Some tt) (Hi : spends s i nf) (Hr : it_is_dummy i = false)
    (Hok' : targets_ok s') (Hs' : build_constraints s' = Some tt) (Hi' : spends s' i' nf') (Hr' : it_is_dummy i' = false)
    (Hcm : note_commitment (input_opening i) = note_commitment (input_opening i')) :
  collides (opening_hashes i ++ opening_hashes i') ∨ (nf = nf' ∧ input_opening i = input_opening i' ∧ (s = s' → i = i')).
Proof.
  destruct (spends_claim s i nf Hok Hs Hi) as [Hw [Hv _ _ Hreal]]. destruct (spends_claim s' i' nf' Hok' Hs' Hi') as [Hw' [Hv' _ _ Hreal']].
  destruct (Hreal Hr) as [Hn _], (Hreal' Hr') as [Hn' _].
  destruct (note_commitment_binds _ _ (opening_ok i Hw Hv) (opening_ok i' Hw' Hv') Hcm) as [?|E];
    [left; eapply collides_mono; [|done]; unfold opening_hashes; set_solver|].
  pose proof (f_equal nt_pk E) as Ep. cbn in Ep. destruct Hw as [(? & ? & ? & ?) _ _], Hw' as [(? & ? & ? & ?) _ _].
  apply pk_binds in Ep as [?|Ek]; [left; eapply collides_mono; [|done]; unfold opening_hashes; set_solver| |by apply good_digest_of..]. right.
  pose proof (f_equal nt_rho E) as Erho. pose proof (f_equal nt_r E) as Er. cbn in Erho, Er.
  assert (Hnf : nf = nf') by by rewrite Hn, Hn', Ek, Erho, Er.
  split_and!; [done|done|]. intros <-. apply constraints_exact in Hs as [_ _ _ _ Hne _ _ _ _ _]; [|done].
  destruct Hi as [[-> E1]|[-> E1]], Hi' as [[-> E2]|[-> E2]]; congruence.
Qed.
End Leaf.

(** ** The block a leaf names *)
Section Block.
Context `{HeaderCodecLaws, !CircuitOps, !CircuitLaws, !PoseidonLaws, !NoteFieldLaws}.
Implicit Types (s : SpendTargets) (t : TreeState) (i : InputNoteTargets) (nf : Hash256) (h : Header).

Lemma lossy_dfelts (d : Hash256) : good_hash d → bytes_to_digest_lossy d = dfelts d.
Proof. intros Hd. destruct (good_decodes d Hd) as (fs & E & ->). destruct Hd as [Hd _]. by rewrite (bytes_to_digest_limbs d fs Hd E). Qed.

(** A leaf that names a header's hash carries its tree root and number. *)
Lemma leaf_reads_the_header s h : targets_ok s → build_constraints s = Some tt → header_ok h →
  digest_of (tg_block_hash s) = header_hash h →
  collides [header_felts h; CircuitHeader.preimage (header_inputs s)] ∨ (digest_of (hg_zk_tree_root (tg_header s)) = zk_tree_root h ∧ felt_val (tg_block_number s) = number h).
Proof.
  intros Hok Hs [Hp Hn Hz] Hb. apply constraints_exact in Hs as [[Hh Hr] _ _ _ _ _ _ _ _ _]; [|done].
  destruct Hok as [_ Hroot _ _ (Hp' & Hs' & He')]. rewrite Hb in Hh. apply sponge_eq in Hh as [?|Hf]; [by left|right].
  unfold header_felts, CircuitHeader.preimage, header_inputs in Hf.
  cbn [CircuitHeader.ci_parent_hash CircuitHeader.ci_block_number CircuitHeader.ci_state_root
       CircuitHeader.ci_extrinsics_root CircuitHeader.ci_zk_tree_root CircuitHeader.ci_digest] in Hf.
  apply app_inj_1 in Hf as [_ Hf]; [|by rewrite lossy_length]. apply app_inj_1 in Hf as [En Hf]; [|done].
  apply app_inj_1 in Hf as [_ Hf]; [|by rewrite lossy_length]. apply app_inj_1 in Hf as [_ Hf]; [|by rewrite lossy_length].
  apply app_inj_1 in Hf as [Ez _]; [|by rewrite lossy_length]. rewrite (lossy_dfelts _ Hz) in Ez. split.
  - rewrite <- Ez. by apply digest_of_dfelts.
  - injection En as En. rewrite goldilocks_new_val in En. rewrite <- En. unfold in_u in Hn. rewrite Z.mod_small by done.
    rewrite goldilocks_new_is_from_u64 by (unfold GOLDILOCKS_P; lia). apply val_small. unfold GOLDILOCKS_P. lia.
Qed.

(** What a leaf's paths hash, and what the tree they are checked against
    does. *)
Definition input_levels s i : list (list Hash256 * Z) :=
  let p := claimed_path (Z.to_nat (felt_val (tg_depth s))) i in zip (CircuitMerkle.siblings p) (CircuitMerkle.positions p).
Definition input_queries s t (openings : Z → Hash256 * Z) i : list (list felt) :=
  climb_queries t openings (settled t) (Z.to_nat (Depth t)) (inner (input_opening i)) (nt_value (input_opening i)) (input_levels s i).
Definition leaf_queries s t (openings : Z → Hash256 * Z) h : list (list felt) :=
  [header_felts h; CircuitHeader.preimage (header_inputs s)] ++
  input_queries s t openings (tg_inputs s).1 ++ input_queries s t openings (tg_inputs s).2.

Lemma input_settled s t openings i nf : targets_ok s → build_constraints s = Some tt → tree_inv t → commitment_leaves t openings →
  digest_of (hg_zk_tree_root (tg_header s)) = Root t → spends s i nf →
  broken_on (input_queries s t openings i) ∨ (it_is_dummy i = false → ∃ j, 0 ≤ j < settled t ∧ Leaves t !! j = Some (note_commitment (input_opening i))).
Proof.
  intros Hok Hs Ht Hl Hz Hi. destruct (spends_claim s i nf Hok Hs Hi) as [Hw [_ _ _ Hreal]].
  destruct (it_is_dummy i); [by right|]. destruct (Hreal eq_refl) as [_ Hp]. rewrite Hz, (ti_root t Ht) in Hp.
  unfold CircuitMerkle.path_root in Hp. res_inv.
  eapply (climb_reaches t openings) in Hp as [?|(j & Hj & Hlk)]; [by left| |done..|by apply claimed_levels_good|done].
  right. intros _. exists j. split; [|done]. split; [|done]. by apply (ti_leaves t Ht); eexists.
Qed.

(** What a leaf spends is on the chain. If a satisfied leaf names the hash of
    a header, and the header carries the root of a reachable commitment tree
    whose leaves are note commitments, then the commitment of every real input
    is one of the tree's settled leaves, whatever depth the prover claimed,
    unless the sponge is broken on what the leaf, the header and the tree
    hashed. *)
Lemma leaf_spends_settled s t openings h : targets_ok s → build_constraints s = Some tt → tree_reach genesis_tree t → commitment_leaves t openings →
  header_ok h → zk_tree_root h = Root t → digest_of (tg_block_hash s) = header_hash h →
  broken_on (leaf_queries s t openings h) ∨
  (felt_val (tg_block_number s) = number h ∧
   ∀ i nf, spends s i nf → it_is_dummy i = false →
     ∃ j, 0 ≤ j < settled t ∧ Leaves t !! j = Some (note_commitment (input_opening i))).
Proof.
  intros Hok Hs Hreach Hleaves Hh Hroot Hblock.
  destruct (leaf_reads_the_header s h Hok Hs Hh Hblock) as [?|[Hz Hn]];
    [left; left; eapply collides_mono; [|done]; unfold leaf_queries; set_solver|]. rewrite Hroot in Hz.
  pose proof (reachable_inv t Hreach) as Ht. apply unless_and; [by right|].
  destruct (input_settled s t openings _ _ Hok Hs Ht Hleaves Hz (or_introl (conj eq_refl eq_refl))) as [?|H1'];
    [left; eapply broken_on_mono; [|done]; unfold leaf_queries; set_solver|].
  destruct (input_settled s t openings _ _ Hok Hs Ht Hleaves Hz (or_intror (conj eq_refl eq_refl))) as [?|H2'];
    [left; eapply broken_on_mono; [|done]; unfold leaf_queries; set_solver|].
  right. by intros i nf [[-> _]|[-> _]].
Qed.
End Block.

(** The byte-mode sponge answers canonical digests, as [Digest::hash_bytes]
    documents. *)
Class ByteSpongeLaws `{PoseidonOps} := { hash_bytes_good x : good_hash (hash_bytes x) }.

(** ** An honest witness *)
Section Honest.
Context `{CircuitOps, !CircuitLaws, !PoseidonLaws, !NoteFieldLaws}.
Implicit Types (w : SpendWitness) (i : InputNote) (p : CircuitMerkle.MerklePath).

(** What the types of [witness.rs] say of their fields. *)
Record path_typed p : Prop := {
  pt_siblings : Forall (λ l, length l = 3%nat ∧ Forall good_hash l) (CircuitMerkle.siblings p);
  pt_positions : Forall (λ q, 0 ≤ q) (CircuitMerkle.positions p);
}.
Record input_typed i : Prop := {
  yt_keys : good_hash (in_ask i) ∧ good_hash (in_nk i) ∧ good_hash (in_rho i) ∧ good_hash (in_r i);
  yt_value : 0 ≤ in_value i;
  yt_path : path_typed (in_path i);
}.
Record witness_typed w : Prop := {
  wt_inputs : input_typed (sw_inputs w).1 ∧ input_typed (sw_inputs w).2;
  wt_outputs : (good_hash (out_pk (sw_outputs w).1) ∧ good_hash (out_r (sw_outputs w).1) ∧ 0 ≤ out_value (sw_outputs w).1) ∧
    (good_hash (out_pk (sw_outputs w).2) ∧ good_hash (out_r (sw_outputs w).2) ∧ 0 ≤ out_value (sw_outputs w).2);
  wt_fee : 0 ≤ sw_fee w;
  wt_number : in_u 32 (CircuitHeader.ci_block_number (sw_header w));
  wt_header : is_hash (CircuitHeader.ci_parent_hash (sw_header w)) ∧ is_hash (CircuitHeader.ci_state_root (sw_header w)) ∧
    is_hash (CircuitHeader.ci_extrinsics_root (sw_header w)) ∧ is_hash (CircuitHeader.ci_zk_tree_root (sw_header w));
}.

(** The spend a wallet means to make. *)
Record spendable (root : Hash256) i : Prop := {
  sp_value : in_value i ≤ MAX_VALUE;
  sp_dummy : in_is_dummy i = true → in_value i = 0;
  sp_real : in_is_dummy i = false → CircuitMerkle.path_root (in_path i) (input_commitment i) = Ok root;
}.
Record balanced_spend w : Prop := {
  bs_inputs : spendable (digest_of (CircuitHeader.ci_zk_tree_root (sw_header w))) (sw_inputs w).1 ∧
    spendable (digest_of (CircuitHeader.ci_zk_tree_root (sw_header w))) (sw_inputs w).2;
  bs_nullifiers : input_nullifier (sw_inputs w).1 ≠ input_nullifier (sw_inputs w).2;
  bs_consumes : CircuitHeader.block_hash (sw_header w) ≠ padding_digest → in_is_dummy (sw_inputs w).1 = false ∨ in_is_dummy (sw_inputs w).2 = false;
  bs_outputs : out_value (sw_outputs w).1 ≤ MAX_VALUE ∧ out_value (sw_outputs w).2 ≤ MAX_VALUE;
  bs_fee : sw_fee w ≤ MAX_VALUE;
  bs_balance : in_value (sw_inputs w).1 + in_value (sw_inputs w).2 = out_value (sw_outputs w).1 + out_value (sw_outputs w).2 + sw_fee w;
}.

(** [validate] read off. *)
Record path_valid (d : nat) p : Prop := {
  pv_siblings : length (CircuitMerkle.siblings p) = d;
  pv_positions : length (CircuitMerkle.positions p) = d ∧ Forall (λ q, q < 4) (CircuitMerkle.positions p);
}.
Lemma fold_positions l : fold_result (λ _ q, ensure (q <? 4) (WitnessPosition q)) tt l = Ok tt → Forall (λ q, q < 4) l.
Proof.
  induction l as [|q l IH]; [done|]. cbn [fold_result foldr]. intros E. unfold ensure in E.
  destruct (Z.ltb_spec q 4); [|done]. constructor; [done|]. by apply IH.
Qed.
Lemma validate_path_ok d i : validate_path d i = Ok tt → path_valid d (in_path i).
Proof.
  unfold validate_path. intros E. res_inv. apply Nat.eqb_eq in Hv, Hv0. constructor; [done|]. split; [lia|]. by apply fold_positions.
Qed.

(** Filling and reading back. *)
Lemma pad_to_take {A} n d (x : A) l : length l = d → (d ≤ n)%nat → take d (pad_to n x l) = l.
Proof. intros Hl Hd. unfold pad_to. rewrite (take_ge l n) by lia. by rewrite take_app_length'. Qed.
Lemma pad_to_length {A} n (x : A) l : (length l ≤ n)%nat → length (pad_to n x l) = n.
Proof. intros Hl. unfold pad_to. rewrite (take_ge l n) by lia. rewrite length_app, length_replicate. lia. Qed.
Lemma Forall_pad_to {A} (P : A → Prop) n (x : A) l : P x → Forall P l → Forall P (pad_to n x l).
Proof. intros Hx Hl. apply Forall_app. split; [by apply Forall_take|by apply Forall_replicate]. Qed.
Lemma fmap_good (l : list Hash256) : Forall good_hash l → digest_of <$> (dfelts <$> l) = l.
Proof. induction 1 as [|d l Hd _ IH]; [done|]. cbn [fmap list_fmap]. by rewrite digest_of_dfelts, IH. Qed.
Lemma fmap_levels (l : list (list Hash256)) : Forall (λ x, length x = 3%nat ∧ Forall good_hash x) l →
  fmap (M := list) (fmap (M := list) digest_of) (fmap (M := list) (fmap (M := list) dfelts) l) = l.
Proof. induction 1 as [|x l [_ Hx] _ IH]; [done|]. cbn [fmap list_fmap]. f_equal; [by apply fmap_good|done]. Qed.
Lemma fmap_positions (l : list Z) : Forall (λ q, 0 ≤ q < 4) l → felt_val <$> (from_u64 <$> l) = l.
Proof. induction 1 as [|q l Hq _ IH]; [done|]. cbn [fmap list_fmap]. f_equal; [apply val_small; unfold GOLDILOCKS_P; lia|done]. Qed.
Lemma positions_typed d p : path_typed p → path_valid d p → Forall (λ q, 0 ≤ q < 4) (CircuitMerkle.positions p).
Proof. intros [_ H0'] [_ [_ H4]]. apply Forall_and. by split. Qed.

Lemma fill_claimed_path d i : (d ≤ CircuitMerkle.MAX_DEPTH)%nat → path_typed (in_path i) → path_valid d (in_path i) →
  claimed_path d (fill_input i) = in_path i.
Proof.
  intros Hd Ht Hv. pose proof (positions_typed d _ Ht Hv) as Hq. destruct Ht as [Hs _], Hv as [Ls [Lp _]].
  unfold claimed_path, fill_input. cbn [it_siblings it_positions].
  rewrite <- !fmap_take, !pad_to_take by done. rewrite fmap_levels, fmap_positions by done. by destruct (in_path i).
Qed.
Lemma fill_input_ok d i : (d ≤ CircuitMerkle.MAX_DEPTH)%nat → path_typed (in_path i) → path_valid d (in_path i) → input_targets_ok (fill_input i).
Proof.
  intros Hd [Hs _] [Ls [Lp _]]. constructor; [done| |]; unfold fill_input; cbn [it_siblings it_positions].
  - rewrite !length_fmap, !pad_to_length by lia. done.
  - apply Forall_fmap, Forall_pad_to; [split; [done|by repeat constructor]|]. eapply Forall_impl; [exact Hs|].
    intros l [Hl _]. cbn. split; [by rewrite length_fmap|]. by apply Forall_fmap, Forall_true.
Qed.
Lemma fill_opening i : input_typed i → in_value i < GOLDILOCKS_P → note_commitment (input_opening (fill_input i)) = input_commitment i.
Proof.
  intros [(Ha & Hn & Hr & Hr') Hv _] Hp. unfold note_commitment, inner, input_opening, fill_input, input_commitment. cbn [nt_pk nt_value nt_rho nt_r it_ask it_nk it_rho it_r it_value].
  by rewrite !digest_of_dfelts, val_small.
Qed.
Lemma fill_input_claim root d i : (d ≤ CircuitMerkle.MAX_DEPTH)%nat → input_typed i → in_value i < GOLDILOCKS_P → path_valid d (in_path i) →
  input_claim root d (fill_input i) (input_nullifier i) ↔ spendable root i.
Proof.
  intros Hd Ht Hp Hv. pose proof (fill_opening i Ht Hp) as Hcm. pose proof (fill_claimed_path d i Hd (yt_path i Ht) Hv) as Hpath.
  assert (Hval : felt_val (it_value (fill_input i)) = in_value i) by (apply val_small; destruct Ht; lia).
  assert (Hnf : ∀ f : Hash256 → Hash256 → Hash256 → Hash256, f (digest_of (it_nk (fill_input i))) (digest_of (it_rho (fill_input i))) (digest_of (it_r (fill_input i))) = f (in_nk i) (in_rho i) (in_r i)).
  { intros f. destruct Ht as [(_ & Hn & Hr & Hr') _ _]. cbn [fill_input it_nk it_rho it_r]. by rewrite !digest_of_dfelts. }
  assert (Hq : Forall (λ q, felt_val q < 4) (it_positions (fill_input i))).
  { unfold fill_input. cbn [it_positions]. apply Forall_fmap, Forall_pad_to; cbn.
    - rewrite val_small; unfold GOLDILOCKS_P; lia.
    - eapply Forall_impl; [exact (positions_typed d _ (yt_path i Ht) Hv)|]. intros q Hq'. cbv beta in Hq' |- *. cbn [compose]. rewrite val_small; unfold GOLDILOCKS_P; lia. }
  split.
  - intros [Hm _ Hdum Hreal]. rewrite Hval, Hnf in *. change (it_is_dummy (fill_input i)) with (in_is_dummy i) in *. constructor; [done|naive_solver|].
    intros Hr. destruct (Hreal Hr) as [_ E]. by rewrite Hpath, Hcm in E.
  - intros [Hm Hdum Hreal]. unfold input_nullifier. constructor; rewrite ?Hval, ?Hnf; change (it_is_dummy (fill_input i)) with (in_is_dummy i); [done|done| |].
    + intros Hb. rewrite Hb. auto.
    + intros Hb. rewrite Hb, Hpath, Hcm. auto.
Qed.

Lemma fill_witness_valid w s : fill_witness w = Ok s →
  s = fill_targets w ∧ (sw_depth w ≤ CircuitMerkle.MAX_DEPTH)%nat ∧
  path_valid (sw_depth w) (in_path (sw_inputs w).1) ∧ path_valid (sw_depth w) (in_path (sw_inputs w).2) ∧
  Forall (λ v, v < GOLDILOCKS_P) [in_value (sw_inputs w).1; in_value (sw_inputs w).2; out_value (sw_outputs w).1; out_value (sw_outputs w).2; sw_fee w].
Proof.
  unfold fill_witness, validate, ensure_canonical. intros E. res_inv.
  repeat match goal with Hb : (_ <=? _)%nat = true |- _ => apply Nat.leb_le in Hb end.
  split_and!; [done|done|by apply validate_path_ok|by apply validate_path_ok|by repeat constructor].
Qed.
Lemma fill_targets_ok w : witness_typed w → (sw_depth w ≤ CircuitMerkle.MAX_DEPTH)%nat →
  path_valid (sw_depth w) (in_path (sw_inputs w).1) → path_valid (sw_depth w) (in_path (sw_inputs w).2) → targets_ok (fill_targets w).
Proof.
  intros [[Hi1 Hi2] _ _ _ (Hp & Hs & He & Hz)] Hd Hv1 Hv2.
  constructor; cbn [fill_targets tg_block_hash tg_nullifiers tg_commitments tg_header tg_inputs tg_outputs fst snd hg_parent_hash hg_state_root hg_extrinsics_root hg_zk_tree_root]; try done.
  split; eapply fill_input_ok; (done || apply yt_path; done).
Qed.
(** A filled output commits to the witness's note. *)
Lemma fill_output_opening nf1 nf2 index (o : OutputNote) : good_hash (out_pk o) → good_hash (out_r o) → 0 ≤ out_value o < GOLDILOCKS_P →
  note_commitment (output_opening nf1 nf2 index (fill_output o)) = commitment_with_rho o (output_rho nf1 nf2 index).
Proof.
  intros Hp Hr Hv. unfold note_commitment, inner, output_opening, fill_output, commitment_with_rho. cbn [nt_pk nt_value nt_rho nt_r ot_pk ot_r ot_value].
  by rewrite !digest_of_dfelts, val_small.
Qed.
Lemma good_nullifier i : good_hash (input_nullifier i).
Proof. unfold input_nullifier. destruct (in_is_dummy i); apply hash_felts_good. Qed.
Lemma good_commitment (o : OutputNote) rho : good_hash (commitment_with_rho o rho).
Proof. apply hash_felts_good. Qed.

Lemma filled_exact w s : witness_typed w → fill_witness w = Ok s → build_constraints s = Some tt ↔ balanced_spend w.
Proof.
  intros Ht Hf. destruct (fill_witness_valid w s Hf) as (-> & Hd & Hv1 & Hv2 & Hc). clear Hf.
  pose proof (fill_targets_ok w Ht Hd Hv1 Hv2) as Hok. rewrite (constraints_exact _ Hok). clear Hok.
  destruct Ht as [[Hi1 Hi2] [(Hp1 & Hr1 & Ho1) (Hp2 & Hr2 & Ho2)] Hf0 Hn _]. decompose_Forall_hyps.
  assert (Hdep : felt_val (from_u64 (Z.of_nat (sw_depth w))) = Z.of_nat (sw_depth w)).
  { apply val_small. unfold CircuitMerkle.MAX_DEPTH in Hd. unfold GOLDILOCKS_P. lia. }
  assert (Hnum : felt_val (from_u64 (CircuitHeader.ci_block_number (sw_header w))) = CircuitHeader.ci_block_number (sw_header w)).
  { apply val_small. unfold in_u in Hn. unfold GOLDILOCKS_P. lia. }
  set (T := fill_targets w).
  assert (En1 : digest_of (tg_nullifiers T).1 = input_nullifier (sw_inputs w).1) by apply digest_of_dfelts, good_nullifier.
  assert (En2 : digest_of (tg_nullifiers T).2 = input_nullifier (sw_inputs w).2) by apply digest_of_dfelts, good_nullifier.
  assert (Eb : digest_of (tg_block_hash T) = CircuitHeader.block_hash (sw_header w)) by apply digest_of_dfelts, good_sponge.
  assert (Ev1 : felt_val (it_value (tg_inputs T).1) = in_value (sw_inputs w).1) by (apply val_small; destruct Hi1; lia).
  assert (Ev2 : felt_val (it_value (tg_inputs T).2) = in_value (sw_inputs w).2) by (apply val_small; destruct Hi2; lia).
  assert (Eo1 : felt_val (ot_value (tg_outputs T).1) = out_value (sw_outputs w).1) by (apply val_small; lia).
  assert (Eo2 : felt_val (ot_value (tg_outputs T).2) = out_value (sw_outputs w).2) by (apply val_small; lia).
  assert (Ef : felt_val (tg_fee T) = sw_fee w) by (apply val_small; lia).
  assert (Ec1 : digest_of (tg_commitments T).1 = note_commitment (output_opening (input_nullifier (sw_inputs w).1) (input_nullifier (sw_inputs w).2) 0 (tg_outputs T).1)).
  { cbn [T fill_targets tg_commitments tg_outputs fst]. rewrite fill_output_opening by (done || lia). apply digest_of_dfelts, good_commitment. }
  assert (Ec2 : digest_of (tg_commitments T).2 = note_commitment (output_opening (input_nullifier (sw_inputs w).1) (input_nullifier (sw_inputs w).2) 1 (tg_outputs T).2)).
  { cbn [T fill_targets tg_commitments tg_outputs snd]. rewrite fill_output_opening by (done || lia). apply digest_of_dfelts, good_commitment. }
  assert (Eh : CircuitHeader.block_hash (header_inputs T) = CircuitHeader.block_hash (sw_header w)).
  { unfold header_inputs. cbn [T fill_targets tg_header tg_block_number hg_parent_hash hg_state_root hg_extrinsics_root hg_zk_tree_root hg_digest]. rewrite Hnum. by destruct (sw_header w). }
  assert (Ed : Z.to_nat (felt_val (tg_depth T)) = sw_depth w) by (cbn [T fill_targets tg_depth]; rewrite Hdep; lia).
  set (root := digest_of (hg_zk_tree_root (tg_header T))).
  pose proof (fill_input_claim root (sw_depth w) (sw_inputs w).1 Hd Hi1 ltac:(done) Hv1) as Hs1.
  pose proof (fill_input_claim root (sw_depth w) (sw_inputs w).2 Hd Hi2 ltac:(done) Hv2) as Hs2.
  change (fill_input (sw_inputs w).1) with (tg_inputs T).1 in Hs1. change (fill_input (sw_inputs w).2) with (tg_inputs T).2 in Hs2.
  split.
  - intros [_ _ Hc1 Hc2 Hne Hcons [Hw1 _] [Hw2 _] Hfee Hbal]. fold root in Hc1, Hc2. rewrite ?En1, ?En2, ?Ed, ?Eb, ?Ev1, ?Ev2, ?Eo1, ?Eo2, ?Ef in *.
    constructor; [|done..]. split; [by apply Hs1|by apply Hs2].
  - intros [[Hc1 Hc2] Hne Hcons [Hw1 Hw2] Hfee Hbal]. constructor; fold root; rewrite ?En1, ?En2, ?Ed, ?Eb, ?Ev1, ?Ev2, ?Eo1, ?Eo2, ?Ef, ?Eh;
      [|cbn [T fill_targets tg_depth]; rewrite Hdep; lia|by apply Hs1|by apply Hs2|done|done|by split|by split|done|done].
    split; [done|]. cbn [T fill_targets tg_block_number]. rewrite Hnum. by destruct Hn.
Qed.

(** C21: an honest spend is always provable, and only an honest one. For a
    witness [fill_witness] accepts, the circuit is satisfied if and only if
    all of this holds: each input's, each output's and the fee's value is at
    most [MAX_VALUE]; a dummy input is worth nothing; a real input's path
    climbs from its commitment to the header's root; the two nullifiers differ;
    on any header but the padding one at least one input is real; and inputs
    equal outputs plus fee over the integers. [fill_witness] checks none of
    these itself. Either way the public inputs that are then published are the
    ones the wallet computed from the witness, slot by slot. *)
Theorem honest_witness_is_provable w s (Ht : witness_typed w) (Hf : fill_witness w = Ok s) :
  (build_constraints s = Some tt ↔ balanced_spend w) ∧ leaf_public_inputs s = witness_public_inputs w.
Proof. split; [by apply filled_exact|]. by destruct (fill_witness_valid w s Hf) as [-> _]. Qed.
End Honest.

(** ** The padding leaf *)
Lemma dummy_typed d : path_typed (CircuitMerkle.dummy d).
Proof.
  constructor; cbn [CircuitMerkle.dummy CircuitMerkle.siblings CircuitMerkle.positions]; [|by apply Forall_replicate].
  apply Forall_replicate. split; [done|]. apply Forall_replicate, good_zero.
Qed.
Section Padded.
Context `{HeaderCodec, !HeaderCodecLaws, !CircuitOps, !CircuitLaws, !PoseidonLaws, !NoteFieldLaws, !ByteSpongeLaws}.

Lemma padding_header_typed hd : padding_header = Some hd →
  CircuitHeader.ci_block_number hd = 0 ∧ is_hash (CircuitHeader.ci_parent_hash hd) ∧ is_hash (CircuitHeader.ci_state_root hd) ∧
  is_hash (CircuitHeader.ci_extrinsics_root hd) ∧ is_hash (CircuitHeader.ci_zk_tree_root hd).
Proof.
  unfold padding_header. destruct (CircuitHeader.new _ _ _ _ _ _) as [h|] eqn:E; [|done]. intros [= <-]. unfold CircuitHeader.new in E. res_inv. subst h.
  split_and!; [done|done|apply lossy_length|apply lossy_length|done].
Qed.
(** The four fixed inputs hashed to tell the two padding inputs apart. *)
Definition padding_rho_bytes (index : Z) : list Z := concat [PADDING_RHO; [index]].
Definition padding_pre (index : Z) : list felt :=
  dummy_pre (in_nk (padding_input index)) (in_rho (padding_input index)) (in_r (padding_input index)).
Definition padding_collides : Prop := bytes_collide [padding_rho_bytes 0; padding_rho_bytes 1] ∨ collides [padding_pre 0; padding_pre 1].
Lemma padding_inputs_differ : padding_collides ∨ input_nullifier (padding_input 0) ≠ input_nullifier (padding_input 1).
Proof.
  destruct (decide (input_nullifier (padding_input 0) = input_nullifier (padding_input 1))) as [E|]; [|auto].
  apply hash_felts_eq in E as [?|[_ Hx]]; [left; by right| |done|done]. cbn [concat] in Hx. apply peel in Hx as [_ Hx]; [|apply hash_bytes_good..].
  apply peel in Hx as [Hx _]; [|apply hash_bytes_good..].
  apply byte_sponge_eq in Hx as [?|Hx]; [left; by left|]. by apply (f_equal last) in Hx.
Qed.

Lemma padding_witness_typed w : padding_leaf_witness = Some w → witness_typed w.
Proof.
  unfold padding_leaf_witness. destruct padding_header as [hd|] eqn:Hh; [|done]. destruct (padding_header_typed hd Hh) as (Hn & Hp & Hst & He & Hz). intros [= <-].
  constructor; cbn [sw_inputs sw_outputs sw_fee sw_header fst snd]; [| |done|by rewrite Hn|by split_and!].
  - split; (constructor; [split_and!; apply hash_bytes_good|done|apply dummy_typed]).
  - split; (split_and!; [apply hash_bytes_good|apply hash_bytes_good|done]).
Qed.

(** The template the builder publishes can be built: its witness is valid and
    satisfies the leaf, though it spends nothing. *)
Lemma padding_leaf_is_provable : padding_block_hash = Some padding_digest →
  padding_collides ∨
  ∃ t, padding_leaf_targets = Some t ∧ build_constraints t = Some tt ∧ Some (leaf_public_inputs t) = canonical_padding_leaf_public_inputs.
Proof.
  intros Hs. destruct padding_inputs_differ as [?|Hne]; [auto|right]. unfold padding_block_hash in Hs.
  unfold padding_leaf_targets, canonical_padding_leaf_public_inputs. destruct padding_leaf_witness as [w|] eqn:Hw; [|by unfold padding_leaf_witness in Hw; destruct padding_header].
  pose proof (padding_witness_typed w Hw) as Ht. unfold padding_leaf_witness in Hw. destruct padding_header as [hd|]; [|done]. injection Hs as Hs. injection Hw as <-.
  cbn [mbind option_bind]. set (w := Build_SpendWitness _ _ _ _ _ _ _) in *.
  assert (Hf : fill_witness w = Ok (fill_targets w)) by reflexivity. rewrite Hf. eexists. split_and!; [done| |done].
  apply (filled_exact w _ Ht Hf). constructor; cbn [w sw_inputs sw_outputs sw_fee sw_header fst snd]; [by split; constructor|done|by rewrite Hs|by split|done|done].
Qed.
End Padded.
