(* ===== verification/LeafCircuitWitnesses.v ===== *)
(** * The spend leaf, run

    A field of canonical representatives with a small sponge over it, which
    meets every law the leaf's theorems use, and a spend on it: a settled note
    of ten and a dummy, paid out as six, three and a fee of one. *)

From stdpp Require Import base option numbers list sorting gmap relations countable.
From S2P Require Import Prelude Crypto NoteRules Verifier ZkTree ZkTreeProps Header CircuitMerkle CircuitMerkleProps NoteCore LeafCircuit LeafCircuitProps LeafCircuitTheorems.
#[local] Open Scope Z_scope.

Module ToyLeaf.

(** ** The field *)
Definition canon (z : Z) : Prop := z mod GOLDILOCKS_P = z.
Record elem := { rep : Z; rep_canon : canon rep }.
Lemma elem_eq (x y : elem) : rep x = rep y → x = y.
Proof. destruct x as [x Hx], y as [y Hy]. cbn. intros ->. f_equal. apply (proof_irrel Hx Hy). Qed.
#[global] Instance elem_eq_dec : EqDecision elem := λ x y,
  match decide (rep x = rep y) with
  | left E => left (elem_eq x y E)
  | right N => right (λ E, N (f_equal rep E))
  end.
Lemma canon_mod z : canon (z mod GOLDILOCKS_P).
Proof. apply Z.mod_mod. done. Qed.
Definition red (z : Z) : elem := {| rep := z mod GOLDILOCKS_P; rep_canon := canon_mod z |}.
Lemma rep_range x : 0 ≤ rep x < GOLDILOCKS_P.
Proof. destruct x as [x Hx]. cbn. rewrite <- Hx. by apply Z.mod_pos_bound. Qed.

(** The sponge, with the padding header's hash planted: its parent hash, and
    forty-one zeros. *)
Definition padding_preimage : list Z := limbs (ToyCrypto.sponge PADDING_PARENT_HASH_DOMAIN) ++ replicate 41 0.
Definition leaf_sponge (xs : list Z) : Hash256 :=
  if bool_decide (xs = padding_preimage) then digest_of_limbs PADDING_BLOCK_HASH else ToyCrypto.sponge xs.
Lemma leaf_sponge_good xs : good_hash (leaf_sponge xs).
Proof.
  unfold leaf_sponge. case_bool_decide; (split; [by apply digest_of_limbs_digest|]); [vm_compute; reflexivity|].
  apply digest_of_limbs_canonical; [done|apply ToyCrypto.sponge_limbs].
Qed.

#[export] Instance leaf_poseidon : PoseidonOps := {|
  felt := elem;
  felt_eq_dec := _;
  goldilocks_zero := red 0;
  goldilocks_new := red;
  from_u64 := red;
  bytes_to_digest h := if canonical_limbs h then Some (red <$> limbs h) else None;
  bytes_to_u64s_compact := ToyCrypto.poseidon_ops.(bytes_to_u64s_compact);
  u64_to_felts z := [red (z / 2 ^ 32); red (z mod 2 ^ 32)];
  hash_to_bytes fs := leaf_sponge (rep <$> fs);
  hash_bytes := leaf_sponge;
|}.
Lemma red_inj a b : 0 ≤ a < GOLDILOCKS_P → 0 ≤ b < GOLDILOCKS_P → red a = red b → a = b.
Proof. intros Ha Hb E. apply (f_equal rep) in E. cbn in E. by rewrite !Z.mod_small in E. Qed.
Lemma canonical_range h : is_digest h → canonical_limbs h = true → Forall (λ l, 0 ≤ l < GOLDILOCKS_P) (limbs h).
Proof.
  intros Hd Hc. pose proof (limbs_range h Hd) as Hr. unfold canonical_limbs in Hc. revert Hr Hc. generalize (limbs h). intros l.
  induction 1 as [|x l Hx _ IH]; [done|]. cbn [forallb]. intros [Hlt%Z.ltb_lt Hl]%andb_true_iff. constructor; [lia|auto].
Qed.
Lemma fmap_red_inj l1 l2 : Forall (λ l, 0 ≤ l < GOLDILOCKS_P) l1 → Forall (λ l, 0 ≤ l < GOLDILOCKS_P) l2 → red <$> l1 = red <$> l2 → l1 = l2.
Proof.
  intros F1. revert l2. induction F1 as [|x l1 Hx _ IH]; intros [|y l2] F2 E; try done. apply Forall_cons_1 in F2 as [Hy F2].
  cbn [fmap list_fmap] in E. f_equal; [apply red_inj; [done|done|congruence]|apply IH; [done|congruence]].
Qed.

#[export] Instance leaf_poseidon_laws : PoseidonLaws.
Proof.
  constructor; cbn -[leaf_sponge].
  - intros h _. destruct (canonical_limbs h); [split; intros _; [done|by eexists]|]. split; [by intros [? ?]|done].
  - intros h fs. destruct (canonical_limbs h); [|done]. intros [= <-]. done.
  - intros h1 h2 fs Hd1 Hd2 E1 E2. destruct (canonical_limbs h1) eqn:C1, (canonical_limbs h2) eqn:C2; try done.
    apply limbs_inj; [done..|]. apply fmap_red_inj; [by apply canonical_range..|congruence].
  - apply red_inj.
  - done.
  - apply (bytes_to_u64s_compact_limb (H := ToyCrypto.poseidon_ops)).
  - intros fs. apply leaf_sponge_good.
  - intros fs. apply leaf_sponge_good.
Qed.
#[export] Instance leaf_note_laws : NoteFieldLaws.
Proof.
  constructor; [done| |intros x; apply leaf_sponge_good]. intros h fs _. cbn -[limbs]. destruct (canonical_limbs h); [|done]. by intros [= <-].
Qed.

#[export] Instance leaf_byte_laws : ByteSpongeLaws.
Proof. constructor. apply leaf_sponge_good. Qed.

(** ** The gates *)
#[export] Instance leaf_circuit : CircuitOps := {|
  felt_val := rep;
  c_add a b := red (rep a + rep b);
  c_sub a b := red (rep a - rep b);
  c_mul a b := red (rep a * rep b);
  c_range_check x n := rep x <? 2 ^ Z.of_nat n;
  c_split_le x n := if rep x <? 2 ^ Z.of_nat n then Some (Z.testbit (rep x) ∘ Z.of_nat <$> seq 0 n) else None;
|}.
#[export] Instance leaf_circuit_laws : CircuitLaws.
Proof.
  constructor; try done; [apply rep_range|]. intros x. apply elem_eq. cbn. apply Z.mod_small, rep_range.
Qed.

(** ** The header codec: four bytes an element for a digest window, and bits
    for anything else, so that it is injective on all lists *)
Fixpoint bits (p : positive) : list elem :=
  match p with xH => [] | xO p => red 0 :: bits p | xI p => red 1 :: bits p end.
Lemma red_01 : red 0 ≠ red 1.
Proof. intros E. by apply (f_equal rep) in E. Qed.
Lemma bits_inj p q : bits p = bits q → p = q.
Proof.
  pose proof red_01. revert q. induction p as [p IH|p IH|]; intros [q|q|]; cbn [bits]; intros E; try done; f_equal; try (apply IH; congruence); exfalso; congruence.
Qed.
Fixpoint chunks (n : nat) (l : list Z) : list elem :=
  match n with O => [] | S n => red (le_val (take 4 l)) :: chunks n (drop 4 l) end.
Definition window (l : list Z) : bool := (length l =? 110)%nat && forallb (λ b, (0 <=? b) && (b <? 256)) l.
Definition pack (l : list Z) : list elem := if window l then chunks 28 l else red (2 ^ 40) :: bits (encode l).
Lemma four_bytes l : Forall is_byte l → 0 ≤ le_val (take 4 l) < 2 ^ 32.
Proof.
  intros Hb. apply (Forall_take _ 4) in Hb. pose proof (le_val_bound _ Hb) as [Hl Hu]. split; [done|]. eapply Z.lt_le_trans; [exact Hu|].
  rewrite length_take. change (2 ^ 32) with (256 ^ 4). apply Z.pow_le_mono_r; lia.
Qed.
Lemma chunks_inj n : ∀ l l', length l = length l' → (length l ≤ 4 * n)%nat → Forall is_byte l → Forall is_byte l' → chunks n l = chunks n l' → l = l'.
Proof.
  induction n as [|n IH]; intros l l' Hl Hn Hb Hb' E; cbn [chunks] in E.
  { destruct l, l'; try done; cbn in *; lia. }
  pose proof (four_bytes l Hb). pose proof (four_bytes l' Hb'). assert (He : le_val (take 4 l) = le_val (take 4 l')).
  { apply red_inj; [unfold GOLDILOCKS_P; lia..|congruence]. }
  assert (Hd : drop 4 l = drop 4 l').
  { apply IH; [rewrite !length_drop; lia|rewrite length_drop; lia|by apply Forall_drop|by apply Forall_drop|congruence]. }
  rewrite <- (take_drop 4 l), <- (take_drop 4 l'), Hd. f_equal.
  rewrite <- (le_bytes_le_val (take 4 l) _ (Forall_take _ _ _ Hb) eq_refl), <- (le_bytes_le_val (take 4 l') _ (Forall_take _ _ _ Hb') eq_refl), He, !length_take.
  by rewrite Hl.
Qed.
Lemma window_bytes l : window l = true → length l = 110%nat ∧ Forall is_byte l.
Proof.
  unfold window. intros [Hl%Nat.eqb_eq Hb]%andb_true_iff. split; [done|]. rewrite forallb_forall in Hb. apply Forall_forall. intros b Hin.
  apply Hb, andb_true_iff in Hin as [?%Z.leb_le ?%Z.ltb_lt]. done.
Qed.
Lemma chunks_not_bits l : window l = true → chunks 28 l ≠ red (2 ^ 40) :: bits (encode l) ∧ ∀ x, chunks 28 l ≠ red (2 ^ 40) :: x.
Proof.
  intros [_ Hb]%window_bytes. assert (Hne : ∀ x, chunks 28 l ≠ red (2 ^ 40) :: x); [|by split].
  intros x E. cbn [chunks] in E. assert (Hx : red (le_val (take 4 l)) = red (2 ^ 40)) by congruence. pose proof (four_bytes l Hb).
  apply red_inj in Hx; unfold GOLDILOCKS_P; lia.
Qed.
Lemma pack_inj a b : pack a = pack b → a = b.
Proof.
  unfold pack. destruct (window a) eqn:Wa, (window b) eqn:Wb; intros E.
  - apply window_bytes in Wa as [La Ba], Wb as [Lb Bb]. apply (chunks_inj 28); [congruence|rewrite La; lia|done|done|done].
  - by apply chunks_not_bits in E.
  - symmetry in E. by apply chunks_not_bits in E.
  - assert (Eb : bits (encode a) = bits (encode b)) by congruence. apply bits_inj in Eb. by apply (inj encode) in Eb.
Qed.
#[export] Instance leaf_header_codec : HeaderCodec := {|
  digest_encode d := concat (ToyHeader.item_encode <$> d);
  bytes_to_digest_lossy h := red <$> limbs h;
  bytes_to_felts := pack;
|}.
#[export] Instance leaf_header_codec_laws : HeaderCodecLaws.
Proof.
  constructor.
  - apply ToyHeader.digest_encode_toy_inj.
  - done.
  - intros h fs. cbn -[limbs]. destruct (canonical_limbs h); [|done]. by intros [= <-].
  - apply pack_inj.
  - intros a b Ha Hb. apply red_inj; unfold in_u in *; unfold GOLDILOCKS_P; lia.
Qed.

(** ** The spend *)
Definition word (k : Z) : Hash256 := hash_felts 1 [[red k]].
Definition ask : Hash256 := word 1.
Definition nk : Hash256 := word 2.
Definition coin : Note := {| nt_pk := derive_pk ask nk; nt_value := 10; nt_rho := word 3; nt_r := word 4 |}.
Definition other : Note := {| nt_pk := word 5; nt_value := 7; nt_rho := word 6; nt_r := word 7 |}.

Definition toy_put (t : TreeState) (n : Note) : TreeState :=
  match tree_insert_commitment t (note_commitment n) with Ok (t', _) => t' | Err _ => t end.
Lemma toy_put_step t n : is_ok (tree_insert_commitment t (note_commitment n)) = true → tree_step t (toy_put t n).
Proof.
  unfold toy_put. destruct (tree_insert_commitment t (note_commitment n)) as [[t' i]|] eqn:E; [|done].
  intros _. apply (step_insert_commitment t (note_commitment n) t' i); [|done]. apply hash_to_bytes_digest.
Qed.
Definition tree : TreeState := tree_on_finalize (toy_put (toy_put genesis_tree other) coin).
Lemma tree_reachable : tree_reach genesis_tree tree.
Proof.
  split; [|vm_compute; discriminate]. eapply rtc_r; [|apply step_on_finalize]. eapply rtc_r; [|apply toy_put_step; by vm_compute].
  eapply rtc_r; [|apply toy_put_step; by vm_compute]. apply rtc_refl.
Qed.
Lemma tree_leaves : Leaves tree = {[0 := note_commitment other; 1 := note_commitment coin]}.
Proof. vm_compute. reflexivity. Qed.
Definition openings (j : Z) : Hash256 * Z := if j =? 0 then (inner other, nt_value other) else (inner coin, nt_value coin).
Lemma tree_commitments : commitment_leaves tree openings.
Proof.
  intros j c. rewrite tree_leaves. intros [[<- <-]|[Hj [<- <-]%lookup_singleton_Some]]%lookup_insert_Some; reflexivity.
Qed.

Definition coin_path : CircuitMerkle.MerklePath :=
  match CircuitMerkle.tree_new [note_commitment other; note_commitment coin] 1 with
  | Ok T => match CircuitMerkle.tree_path T 1 with Ok p => p | Err _ => CircuitMerkle.dummy 1 end
  | Err _ => CircuitMerkle.dummy 1
  end.
Definition real : InputNote := match input_real ask nk coin coin_path with Ok i => i | Err _ => input_dummy ask nk ask nk 1 end.
Definition filler : InputNote := dummy_random (word 8) ask nk 1.

Definition block : Header :=
  {| parent_hash := zero_hash; number := 5; state_root := zero_hash; extrinsics_root := zero_hash; zk_tree_root := Root tree;
     digest := [] |}.
Definition header_witness (h : Header) : CircuitHeader.HeaderInputs :=
  {| CircuitHeader.ci_parent_hash := bytes_to_digest_lossy (parent_hash h); CircuitHeader.ci_block_number := number h;
     CircuitHeader.ci_state_root := bytes_to_digest_lossy (state_root h); CircuitHeader.ci_extrinsics_root := bytes_to_digest_lossy (extrinsics_root h);
     CircuitHeader.ci_zk_tree_root := bytes_to_digest_lossy (zk_tree_root h);
     CircuitHeader.ci_digest := bytes_to_felts (digest_padded (digest_encode (digest h))) |}.
Definition spend : SpendWitness :=
  {| sw_header := header_witness block; sw_depth := 1; sw_inputs := (real, filler);
     sw_outputs := ({| out_pk := word 9; out_value := 6; out_r := word 10 |}, {| out_pk := derive_pk ask nk; out_value := 3; out_r := word 11 |});
     sw_fee := 1; sw_ct_digest := word 12 |}.
Definition leaf : SpendTargets := fill_targets spend.

Lemma leaf_filled : fill_witness spend = Ok leaf.
Proof.
  assert (E : validate spend = Ok tt) by (vm_compute; reflexivity). unfold fill_witness. rewrite E. reflexivity.
Qed.
Lemma leaf_satisfied : build_constraints leaf = Some tt.
Proof. vm_compute. reflexivity. Qed.
Definition goodb (l : list Hash256) : bool := forallb good_hashb l.
Lemma goodb_true l : goodb l = true → Forall good_hash l.
Proof. unfold goodb. rewrite forallb_forall. intros Hf. apply Forall_forall. intros x Hx. apply good_hashb_true. exact (Hf x Hx). Qed.
Definition path_typedb (p : CircuitMerkle.MerklePath) : bool :=
  forallb (λ l, (length l =? 3)%nat && goodb l) (CircuitMerkle.siblings p) && forallb (λ q, 0 <=? q) (CircuitMerkle.positions p).
Lemma path_typedb_true p : path_typedb p = true → path_typed p.
Proof.
  unfold path_typedb. intros [Hs Hq]%andb_true_iff. constructor.
  - apply Forall_forall. intros l Hl. rewrite forallb_forall in Hs. apply Hs, andb_true_iff in Hl as [Hn Hg].
    split; [by apply Nat.eqb_eq|by apply goodb_true].
  - apply Forall_forall. intros q Hl. rewrite forallb_forall in Hq. by apply Z.leb_le, Hq.
Qed.
Lemma input_typedb (i : InputNote) : goodb [in_ask i; in_nk i; in_rho i; in_r i] && (0 <=? in_value i) && path_typedb (in_path i) = true → input_typed i.
Proof.
  intros [[Hg Hv]%andb_true_iff Hp]%andb_true_iff. apply goodb_true in Hg. decompose_Forall_hyps.
  constructor; [done|by apply Z.leb_le|by apply path_typedb_true].
Qed.
Lemma spend_typed : witness_typed spend.
Proof.
  constructor.
  - split; apply input_typedb; vm_compute; reflexivity.
  - split; (split_and!; [exact (hash_felts_good _ _)|exact (hash_felts_good _ _)|vm_compute; discriminate]).
  - vm_compute. discriminate.
  - vm_compute. split; [discriminate|reflexivity].
  - done.
Qed.
Lemma leaf_ok : targets_ok leaf.
Proof.
  destruct (fill_witness_valid spend leaf leaf_filled) as (_ & Hd & Hv1 & Hv2 & _). exact (fill_targets_ok spend spend_typed Hd Hv1 Hv2).
Qed.

(** ** The theorems on it *)
Lemma leaf_circuit_is_exact_witness : leaf_claim leaf.
Proof. exact (proj1 (leaf_circuit_is_exact leaf leaf_ok) leaf_satisfied). Defined.

Lemma leaf_spends_coin : spends leaf (tg_inputs leaf).1 (digest_of (tg_nullifiers leaf).1).
Proof. by left. Qed.
Lemma leaf_real : it_is_dummy (tg_inputs leaf).1 = false.
Proof. vm_compute. reflexivity. Qed.
Lemma leaf_opening_apart : ¬ collides (opening_hashes (tg_inputs leaf).1 ++ opening_hashes (tg_inputs leaf).1).
Proof. intros Hc%collides_twice. revert Hc. apply no_collision, (bool_decide_unpack _). vm_compute. exact I. Qed.
Lemma note_has_one_nullifier_witness : digest_of (tg_nullifiers leaf).1 = digest_of (tg_nullifiers leaf).1.
Proof.
  destruct (note_has_one_nullifier leaf leaf _ _ _ _ leaf_ok leaf_satisfied leaf_spends_coin leaf_real
    leaf_ok leaf_satisfied leaf_spends_coin leaf_real eq_refl) as [Hc|[Hn _]]; [destruct (leaf_opening_apart Hc)|exact Hn].
Defined.

Lemma block_ok : header_ok block.
Proof. constructor; [apply good_zero|split; vm_compute; [discriminate|reflexivity]|]. apply good_hashb_true. vm_compute. reflexivity. Qed.
Lemma leaf_names_block : digest_of (tg_block_hash leaf) = header_hash block.
Proof. vm_compute. reflexivity. Qed.
Lemma honest_witness_is_provable_witness : balanced_spend spend ∧ leaf_public_inputs leaf = witness_public_inputs spend.
Proof.
  destruct (honest_witness_is_provable spend leaf spend_typed leaf_filled) as [He Hp]. exact (conj (proj1 He leaf_satisfied) Hp).
Defined.

(** ** A padding leaf *)
Definition padding_spend : SpendWitness := default spend padding_leaf_witness.
Definition padding_leaf : SpendTargets := fill_targets padding_spend.
Lemma padding_filled : fill_witness padding_spend = Ok padding_leaf.
Proof.
  assert (E : validate padding_spend = Ok tt) by (vm_compute; reflexivity). unfold fill_witness. rewrite E. reflexivity.
Qed.
Lemma padding_satisfied : build_constraints padding_leaf = Some tt.
Proof. vm_compute. reflexivity. Qed.
Lemma some_default {A} (d : A) (m : option A) : bool_decide (is_Some m) = true → m = Some (default d m).
Proof. intros [x ->]%bool_decide_eq_true. done. Qed.
Lemma padding_is_canonical : padding_leaf_witness = Some padding_spend.
Proof. unfold padding_spend. apply some_default. vm_compute. reflexivity. Qed.
Lemma padding_typed : witness_typed padding_spend.
Proof. exact (padding_witness_typed padding_spend padding_is_canonical). Qed.
Lemma padding_sentinel : padding_block_hash = Some padding_digest.
Proof. vm_compute. reflexivity. Qed.
Lemma padding_ok : targets_ok padding_leaf.
Proof.
  destruct (fill_witness_valid padding_spend padding_leaf padding_filled) as (_ & Hd & Hv1 & Hv2 & _). exact (fill_targets_ok padding_spend padding_typed Hd Hv1 Hv2).
Qed.
End ToyLeaf.
