(* ===== verification/BatchCircuit.v ===== *)
(** * The batch circuits and their provers

    [crates/qnero-aggregator]: the private batch ([private_batch/circuit.rs],
    [prover.rs], [witness.rs]), which a wallet wraps its leaf proofs in, and
    the public batch ([public_batch/circuit.rs], [prover.rs], [witness.rs]),
    which an aggregator wraps private batches in, over the recursive verifier
    of [recursive.rs]. A target is its value, as in [LeafCircuit]; the
    recursive verification itself is plonky2's [plonky_verify] on the inner
    proof, against the one verifier key the circuit was built over. *)

From stdpp Require Import base option list numbers.
From S2P Require Import Prelude Crypto Layout Verifier Header CircuitMerkle NoteCore LeafCircuit.
#[local] Open Scope Z_scope.

Definition NF_BATCH_PADDING : Z := 0x716e0008.

(** One preimage per input slot of one leaf slot. *)
Definition SlotPaddingPreimages `{PoseidonOps} : Type := list felt * list felt.

Section Circuits.
Context `{CircuitOps}.
Implicit Types (pis digest : list felt) (preimages : SlotPaddingPreimages).

(** ** Reads at fixed offsets; the public-input count is checked when the
    circuit is built *)
Definition pi_digest pis (start : nat) : list felt := take DIGEST_FELTS (drop start pis).
Definition pi_felt pis (index : nat) : felt := nth index pis c_zero.
Definition padding_block_hash_target : list felt := from_u64 <$> PADDING_BLOCK_HASH.

Definition padding_nullifier (preimage : list felt) : list felt := hash_no_pad (goldilocks_new NF_BATCH_PADDING :: preimage).

(** The digests a pair of loops compares, each against all after it. *)
Fixpoint pairwise {A} (constrain : A → A → option unit) (l : list A) : option unit :=
  match l with
  | [] => Some tt
  | x :: rest => _ ← foldr (λ y k, _ ← constrain x y; k) (Some tt) rest; pairwise constrain rest
  end.

(** ** The block reference, a prefix scan over slots or inners *)
Record Reference := { found_real : bool; block_ref : list felt; block_number_ref : felt }.
Definition reference0 : Reference :=
  {| found_real := false; block_ref := padding_block_hash_target; block_number_ref := from_u64 PADDING_BLOCK_NUMBER |}.
Definition pis_padding pis : bool := digests_are_equal (pi_digest pis BLOCK_HASH_START) padding_block_hash_target.
Definition scan_reference (r : Reference) pis : Reference :=
  let is_real := negb (pis_padding pis) in
  let take := is_real && negb (found_real r) in
  {| found_real := found_real r || is_real;
     block_ref := select take (pi_digest pis BLOCK_HASH_START) (block_ref r);
     block_number_ref := select take (pi_felt pis BLOCK_NUMBER_INDEX) (block_number_ref r) |}.
Definition agrees (r : Reference) pis : option unit :=
  let hash_ok := pis_padding pis || digests_are_equal (pi_digest pis BLOCK_HASH_START) (block_ref r) in
  _ ← connect (bit_target hash_ok) c_one;
  let number_ok := pis_padding pis || is_equal (pi_felt pis BLOCK_NUMBER_INDEX) (block_number_ref r) in
  connect (bit_target number_ok) c_one.
Definition all_agree (r : Reference) (l : list (list felt)) : option unit := foldr (λ pis k, _ ← agrees r pis; k) (Some tt) l.

(** ** The private batch *)
Definition emitted (padding : bool) pis preimages (input : nat) : list felt :=
  let preimage := if (input =? 0)%nat then preimages.1 else preimages.2 in
  select padding (padding_nullifier preimage) (pi_digest pis (Leaf.nullifier_index input)).
Definition mask (padding : bool) (limbs : list felt) : list felt := (λ limb, select padding c_zero limb) <$> limbs.
Definition forward_slot pis preimages : list felt :=
  let padding := pis_padding pis in
  emitted padding pis preimages 0 ++ emitted padding pis preimages 1 ++
  mask padding (pi_digest pis (Leaf.commitment_index 0)) ++ mask padding (pi_digest pis (Leaf.commitment_index 1)) ++
  select padding c_zero (pi_felt pis Leaf.FEE_INDEX) :: mask padding (pi_digest pis Leaf.CT_DIGEST_START).

Definition distinct_digests (x y : list felt) : option unit := connect (bit_target (digests_are_equal x y)) c_zero.

(** What the circuit registers as its public inputs, when every constraint
    holds. *)
Definition build_private_batch_constraints (leaf_pis : list (list felt)) (padding_nullifier_preimages : list SlotPaddingPreimages) :
    option (list felt) :=
  let r := foldl scan_reference reference0 leaf_pis in
  _ ← all_agree r leaf_pis;
  let slots := zip leaf_pis padding_nullifier_preimages in
  let output := block_ref r ++ block_number_ref r :: concat ((λ s, forward_slot s.1 s.2) <$> slots) in
  let emitted_nullifiers := concat ((λ s, [emitted (pis_padding s.1) s.1 s.2 0; emitted (pis_padding s.1) s.1 s.2 1]) <$> slots) in
  _ ← pairwise distinct_digests emitted_nullifiers;
  Some output.

(** ** The public batch *)
Definition inner_key pis : list felt := pi_digest pis (slot_nullifier_index 0 0).
(** A pair of real inners with one key. *)
Definition distinct_inners (x y : list felt) : option unit :=
  let both_real := negb (pis_padding x) && negb (pis_padding y) in
  let collision := both_real && digests_are_equal (inner_key x) (inner_key y) in
  connect (bit_target collision) c_zero.
Definition forward_inner pis : list felt := take HEADER_LEN pis ++ mask (pis_padding pis) (drop HEADER_LEN pis).
Definition build_public_batch_constraints (inner_pis : list (list felt)) (aggregator_address : list felt) : option (list felt) :=
  let r := foldl scan_reference reference0 inner_pis in
  _ ← all_agree r inner_pis;
  _ ← pairwise distinct_inners inner_pis;
  Some (aggregator_address ++ concat (forward_inner <$> inner_pis)).
End Circuits.

(** ** The circuits with their recursive verifiers *)
Section Recursive.
Context `{CircuitOps} `{PlonkyOps felt}.

Definition add_recursive_verifiers (inner : verifier_data) (proofs : list proof) : option unit :=
  check (forallb (plonky_verify inner) proofs).

Record PrivateBatchTargets := {
  leaf_proofs : list proof;
  padding_nullifier_preimages : list SlotPaddingPreimages;
}.
Definition private_batch_circuit (leaf : verifier_data) (t : PrivateBatchTargets) : option (list felt) :=
  _ ← add_recursive_verifiers leaf (leaf_proofs t);
  build_private_batch_constraints (public_inputs <$> leaf_proofs t) (padding_nullifier_preimages t).

Record PublicBatchTargets := {
  private_batch_proofs : list proof;
  pt_aggregator_address : list felt;
}.
Definition public_batch_circuit (private_batch : verifier_data) (t : PublicBatchTargets) : option (list felt) :=
  _ ← add_recursive_verifiers private_batch (private_batch_proofs t);
  build_public_batch_constraints (public_inputs <$> private_batch_proofs t) (pt_aggregator_address t).
End Recursive.

(** ** The provers' admission rules *)
Inductive BatchError :=
| NoProofs
| TooManyProofs (n : nat)
| WrongPublicInputLen (n : nat)
| InnerVerification
| DifferentBlock (index : nat)
| DifferentNumber (index : nat)
| RepeatedNullifier (index : nat)
| AllPadding
| PaddingInner (index : nat)
| TemplateNotPadding
| TemplateNotInert
| PaddingPanics
| WrongAggregator.

Section Provers.
Context `{CircuitOps} `{PlonkyOps felt}.
Abbreviation M := (result BatchError).

(** [HashMap::insert] over the published digests: a repeat is refused. The
    limbs are compared as canonical integers, which is equality in the field. *)
Fixpoint insert_all (index : nat) (seen digests : list (list Z)) : M (list (list Z)) :=
  match digests with
  | [] => Ok seen
  | d :: rest => _ ← ensure (negb (bool_decide (d ∈ seen))) (RepeatedNullifier index); insert_all index (d :: seen) rest
  end.
Definition canonical (digest : list felt) : list Z := felt_val <$> digest.

Record Compat := { cp_reference : option (list Z * Z); cp_seen : list (list Z) }.
Definition compat0 : Compat := {| cp_reference := None; cp_seen := [] |}.

(** The loop body of [ensure_batch_compatible]. *)
Definition compatible_leaf (c : Compat) (p : nat * list felt) : M Compat :=
  let '(index, pis) := p in
  let bh := canonical (pi_digest pis Leaf.BLOCK_HASH_START) in
  let bn := felt_val (pi_felt pis Leaf.BLOCK_NUMBER_INDEX) in
  if bool_decide (bh = PADDING_BLOCK_HASH) then Ok c
  else
    reference ← match cp_reference c with
                | None => Ok (bh, bn)
                | Some (rh, rn) =>
                    _ ← ensure (bool_decide (bh = rh)) (DifferentBlock index);
                    _ ← ensure (bn =? rn) (DifferentNumber index);
                    Ok (rh, rn)
                end;
    seen ← insert_all index (cp_seen c)
             [canonical (pi_digest pis (Leaf.nullifier_index 0)); canonical (pi_digest pis (Leaf.nullifier_index 1))];
    Ok {| cp_reference := Some reference; cp_seen := seen |}.
Definition ensure_batch_compatible (leaf_pis : list (list felt)) : M unit :=
  c ← fold_result compatible_leaf compat0 (imap pair leaf_pis);
  ensure (bool_decide (is_Some (cp_reference c))) AllPadding.

(** [build_witness]. [shuffle] is the permutation the RNG gave and
    [preimages] the randomness drawn after it. *)
Definition admit_leaf (leaf : verifier_data) (p : proof) : M unit :=
  _ ← ensure (length (public_inputs p) =? Leaf.PUBLIC_INPUT_LEN)%nat (WrongPublicInputLen (length (public_inputs p)));
  ensure (plonky_verify leaf p) InnerVerification.
Definition build_witness (leaf : verifier_data) (num_leaves : nat) (padding_template : proof) (shuffle : list proof → list proof)
    (preimages : list SlotPaddingPreimages) (proofs : list proof) : M PrivateBatchTargets :=
  _ ← ensure (negb (length proofs =? 0)%nat) NoProofs;
  _ ← ensure (length proofs <=? num_leaves)%nat (TooManyProofs (length proofs));
  _ ← all_ok (admit_leaf leaf) proofs;
  _ ← ensure_batch_compatible (public_inputs <$> proofs);
  let padded := proofs ++ replicate (num_leaves - length proofs) padding_template in
  Ok {| leaf_proofs := shuffle padded; padding_nullifier_preimages := preimages |}.
Definition prove_padding_batch (num_leaves : nat) (padding_template : proof) (preimages : list SlotPaddingPreimages) : PrivateBatchTargets :=
  {| leaf_proofs := replicate num_leaves padding_template; padding_nullifier_preimages := preimages |}.
Definition validate_padding_leaf_template `{!HeaderCodec} (leaf : verifier_data) (template : proof) : M unit :=
  expected ← ok_or canonical_padding_leaf_public_inputs PaddingPanics;
  _ ← ensure (bool_decide (public_inputs template = expected)) TemplateNotPadding;
  ensure (plonky_verify leaf template) InnerVerification.

(** The loop body of [ensure_inner_batch_compatible]. *)
Definition inner_nullifiers (num_leaves : nat) (pis : list felt) : list (list Z) :=
  concat ((λ slot, [canonical (pi_digest pis (slot_nullifier_index slot 0)); canonical (pi_digest pis (slot_nullifier_index slot 1))]) <$> seq 0 num_leaves).
Definition compatible_inner (num_leaves : nat) (c : Compat) (p : nat * list felt) : M Compat :=
  let '(index, pis) := p in
  let bh := canonical (pi_digest pis BLOCK_HASH_START) in
  let bn := felt_val (pi_felt pis BLOCK_NUMBER_INDEX) in
  _ ← ensure (negb (bool_decide (bh = PADDING_BLOCK_HASH))) (PaddingInner index);
  reference ← match cp_reference c with
              | None => Ok (bh, bn)
              | Some (rh, rn) => _ ← ensure (bool_decide (bh = rh) && (bn =? rn)) (DifferentBlock index); Ok (rh, rn)
              end;
  seen ← insert_all index (cp_seen c) (inner_nullifiers num_leaves pis);
  Ok {| cp_reference := Some reference; cp_seen := seen |}.
Definition ensure_inner_batch_compatible (num_leaves : nat) (inner_pis : list (list felt)) : M unit :=
  _ ← fold_result (compatible_inner num_leaves) compat0 (imap pair inner_pis); Ok tt.

Definition admit_inner (private_batch : verifier_data) (num_leaves : nat) (p : proof) : M unit :=
  _ ← ensure (length (public_inputs p) =? private_batch_pi_len num_leaves)%nat (WrongPublicInputLen (length (public_inputs p)));
  ensure (plonky_verify private_batch p) InnerVerification.
Definition preflight (private_batch : verifier_data) (num_inner num_leaves : nat) (proofs : list proof) : M unit :=
  _ ← ensure (negb (length proofs =? 0)%nat) NoProofs;
  _ ← ensure (length proofs <=? num_inner)%nat (TooManyProofs (length proofs));
  _ ← all_ok (admit_inner private_batch num_leaves) proofs;
  ensure_inner_batch_compatible num_leaves (public_inputs <$> proofs).
Definition prove_batch (private_batch : verifier_data) (num_inner num_leaves : nat) (padding_template : proof) (proofs : list proof)
    (aggregator_address : Hash256) : M PublicBatchTargets :=
  _ ← preflight private_batch num_inner num_leaves proofs;
  Ok {| private_batch_proofs := proofs ++ replicate (num_inner - length proofs) padding_template;
        pt_aggregator_address := dfelts aggregator_address |}.

Definition zero_limbs (l : list felt) : bool := forallb (λ x, felt_val x =? 0) l.
Definition inert_slot (pis : list felt) (slot : nat) : bool :=
  zero_limbs (pi_digest pis (slot_commitment_index slot 0)) && zero_limbs (pi_digest pis (slot_commitment_index slot 1)) &&
  (felt_val (pi_felt pis (slot_fee_index slot)) =? 0) && zero_limbs (pi_digest pis (slot_ct_digest_index slot)).
Definition validate_padding_private_batch_template (private_batch : verifier_data) (num_leaves : nat) (template : proof) : M unit :=
  let pis := public_inputs template in
  _ ← ensure (length pis =? private_batch_pi_len num_leaves)%nat (WrongPublicInputLen (length pis));
  _ ← ensure (bool_decide (canonical (pi_digest pis BLOCK_HASH_START) = PADDING_BLOCK_HASH)) TemplateNotPadding;
  _ ← ensure (felt_val (pi_felt pis BLOCK_NUMBER_INDEX) =? PADDING_BLOCK_NUMBER) TemplateNotPadding;
  _ ← ensure (forallb (inert_slot pis) (seq 0 num_leaves)) TemplateNotInert;
  ensure (plonky_verify private_batch template) InnerVerification.
(** [QneroPublicBatchProver::verify]. *)
Definition aggregator_verify (public_batch : verifier_data) (num_inner num_leaves : nat) (p : proof) (expected_address : Hash256) : M unit :=
  let pis := public_inputs p in
  _ ← ensure (length pis =? public_batch_pi_len num_inner num_leaves)%nat (WrongPublicInputLen (length pis));
  _ ← ensure (bool_decide (pi_digest pis AGGREGATOR_ADDRESS_START = dfelts expected_address)) WrongAggregator;
  ensure (plonky_verify public_batch p) InnerVerification.
End Provers.
