(* ===== verification/BatchCircuitProps.v ===== *)
(** * What the batch circuits publish

    The constraint systems of [BatchCircuit] against the public-input layout
    the chain parses ([Verifier]): a satisfied private batch lays out exactly
    its leaves' values, padding masked, one block, no nullifier twice; and a
    public batch its inner batches'. *)

From stdpp Require Import base option numbers list.
From S2P Require Import Prelude Crypto Layout Verifier VerifierProps NoteCore LeafCircuit LeafCircuitProps BatchCircuit.
#[local] Open Scope Z_scope.

(** The chain reads field elements by their canonical value. *)
#[export] Instance circuit_field `{CircuitOps} : FieldOps felt := {| to_canonical_u64 := felt_val |}.

Section Exact.
Context `{CircuitOps, !CircuitLaws, !PoseidonLaws, !NoteFieldLaws}.
Implicit Types (pis : list felt) (pre : SlotPaddingPreimages) (r : Reference) (l : list (list felt)).

(** ** Loops of constraints *)
Lemma foldr_constrain {A} (c : A → option unit) xs : foldr (λ y k, _ ← c y; k) (Some tt) xs = Some tt ↔ Forall (λ y, c y = Some tt) xs.
Proof.
  induction xs as [|x xs IH]; cbn [foldr]; [by rewrite Forall_nil|]. rewrite Forall_cons, <- IH. destruct (c x) as [[]|]; cbn; naive_solver.
Qed.
Lemma pairwise_spec {A} (c : A → A → option unit) xs :
  pairwise c xs = Some tt ↔ ∀ i j x y, (i < j)%nat → xs !! i = Some x → xs !! j = Some y → c x y = Some tt.
Proof.
  induction xs as [|x xs IH]; cbn [pairwise]; [by split|]. rewrite bind_Some_iff. split.
  - intros (u & Hx & Hr) [|i] [|j] a b Hij; cbn; try lia; [|intros; by eapply (proj1 IH Hr i j); [lia|..]].
    intros [= <-] Hb. destruct u. apply foldr_constrain in Hx. by eapply Forall_lookup_1 in Hx.
  - intros Hc. exists tt. split.
    + apply foldr_constrain, Forall_lookup_2. intros j y Hy. by apply (Hc 0%nat (S j) x y); [lia|..].
    + apply IH. intros i j a b Hij Ha Hb. by apply (Hc (S i) (S j)); [lia|..].
Qed.
Lemma pairwise_distinct xs : Forall is_hash xs → pairwise distinct_digests xs = Some tt ↔ NoDup xs.
Proof.
  intros Hh. rewrite pairwise_spec, NoDup_alt. unfold distinct_digests.
  assert (Hd : ∀ i j x y, xs !! i = Some x → xs !! j = Some y → connect (bit_target (digests_are_equal x y)) c_zero = Some tt ↔ x ≠ y).
  { intros i j x y Hx Hy. rewrite connect_bit, digests_are_equal_spec, bool_decide_eq_false; [done|].
    pose proof (Forall_lookup_1 _ _ _ _ Hh Hx) as E1. pose proof (Forall_lookup_1 _ _ _ _ Hh Hy) as E2. unfold is_hash in *. congruence. }
  split.
  - intros Hc i j x Hi Hj. destruct (Nat.lt_trichotomy i j) as [Hl|[->|Hl]]; [|done|].
    + by destruct (proj1 (Hd i j x x Hi Hj) (Hc i j x x Hl Hi Hj)).
    + by destruct (proj1 (Hd j i x x Hj Hi) (Hc j i x x Hl Hj Hi)).
  - intros Hn i j x y Hl Hi Hj. apply (Hd i j x y Hi Hj). intros <-. pose proof (Hn i j x Hi Hj). lia.
Qed.
Lemma connect_one b u : connect (bit_target b) c_one = Some u ↔ b = true.
Proof. unfold connect. rewrite check_Some, bool_decide_eq_true, felt_eq, val_bit, val_one. by destruct b. Qed.

(** ** Padding and the reference *)
Definition sentinel : list felt := padding_block_hash_target.
Lemma sentinel_hash : is_hash sentinel.
Proof. done. Qed.
Definition bh_of pis : list felt := pi_digest pis BLOCK_HASH_START.
Definition bn_of pis : felt := pi_felt pis BLOCK_NUMBER_INDEX.
Lemma pi_digest_hash pis k : (k + 4 ≤ length pis)%nat → is_hash (pi_digest pis k).
Proof. intros Hl. unfold is_hash, pi_digest, DIGEST_FELTS. rewrite length_take, length_drop. lia. Qed.
Lemma pis_padding_spec pis : (4 ≤ length pis)%nat → pis_padding pis = bool_decide (bh_of pis = sentinel).
Proof.
  intros Hl. unfold pis_padding. apply digests_are_equal_spec. pose proof (pi_digest_hash pis BLOCK_HASH_START ltac:(unfold BLOCK_HASH_START; lia)) as E. by rewrite E.
Qed.

Lemma scan_stays r l : found_real r = true → foldl scan_reference r l = r.
Proof.
  intros Hf. induction l as [|p l IH]; [done|]. cbn [foldl]. rewrite <- IH at 2. f_equal. destruct r as [f b n]. cbn in Hf. subst f.
  unfold scan_reference. cbn [found_real block_ref block_number_ref]. by rewrite andb_false_r.
Qed.
Lemma scan_spec l : let r := foldl scan_reference reference0 l in
  (Forall (λ p, pis_padding p = true) l ∧ block_ref r = sentinel ∧ block_number_ref r = from_u64 PADDING_BLOCK_NUMBER) ∨
  (∃ p, p ∈ l ∧ pis_padding p = false ∧ block_ref r = bh_of p ∧ block_number_ref r = bn_of p).
Proof.
  assert (Hg : ∀ l r, found_real r = false → let r' := foldl scan_reference r l in
    (Forall (λ p, pis_padding p = true) l ∧ block_ref r' = block_ref r ∧ block_number_ref r' = block_number_ref r) ∨
    (∃ p, p ∈ l ∧ pis_padding p = false ∧ block_ref r' = bh_of p ∧ block_number_ref r' = bn_of p)).
  { clear l. induction l as [|p l IH]; intros r Hf; [by left|]. cbn [foldl]. destruct (pis_padding p) eqn:Hp.
    - destruct (IH (scan_reference r p)) as [(Hl & Eb & En)|(q & Hq & Hr & Eb & En)].
      + unfold scan_reference. cbn [found_real]. by rewrite Hf, Hp.
      + left. split_and!; [by constructor|rewrite Eb|rewrite En]; unfold scan_reference; cbn [block_ref block_number_ref]; by rewrite Hp.
      + right. exists q. split_and!; [by constructor|done..].
    - right. exists p. rewrite scan_stays by (unfold scan_reference; cbn [found_real]; rewrite Hp; by destruct (found_real r)).
      unfold scan_reference. cbn [block_ref block_number_ref]. rewrite Hp, Hf. split_and!; [by constructor|done..]. }
  by apply Hg.
Qed.
Lemma scan_ref_hash l : Forall (λ p, (5 ≤ length p)%nat) l → is_hash (block_ref (foldl scan_reference reference0 l)).
Proof.
  intros Hl. destruct (scan_spec l) as [(_ & -> & _)|(p & Hp & _ & -> & _)]; [done|].
  rewrite Forall_forall in Hl. apply pi_digest_hash. specialize (Hl p). unfold BLOCK_HASH_START. specialize (Hl Hp). lia.
Qed.
Lemma agrees_spec r pis : (5 ≤ length pis)%nat → is_hash (block_ref r) →
  agrees r pis = Some tt ↔ pis_padding pis = true ∨ (bh_of pis = block_ref r ∧ bn_of pis = block_number_ref r).
Proof.
  intros Hl Hr. unfold agrees, connect. rewrite bind_unit. fold (connect (bit_target (pis_padding pis || is_equal (pi_felt pis BLOCK_NUMBER_INDEX) (block_number_ref r))) c_one).
  rewrite connect_one, bool_decide_eq_true, felt_eq, val_bit, val_one.
  rewrite digests_are_equal_spec by (rewrite Hr; apply pi_digest_hash; unfold BLOCK_HASH_START; lia). unfold is_equal. fold (bh_of pis) (bn_of pis).
  destruct (pis_padding pis); cbn [orb Z.b2z]; [naive_solver|]. rewrite bool_decide_eq_true. case_bool_decide; cbn [Z.b2z]; naive_solver.
Qed.

(** ** One slot *)
Definition masked_slot pis pre : BatchLeafSlot felt :=
  let padding := pis_padding pis in
  {| nullifiers := (emitted padding pis pre 0, emitted padding pis pre 1);
     commitments := (mask padding (pi_digest pis (Leaf.commitment_index 0)), mask padding (pi_digest pis (Leaf.commitment_index 1)));
     fee := select padding c_zero (pi_felt pis Leaf.FEE_INDEX);
     Verifier.ct_digest := mask padding (pi_digest pis Leaf.CT_DIGEST_START) |}.
(** The slot a leaf's own values make. *)
Definition leaf_slot pis : BatchLeafSlot felt :=
  {| nullifiers := (pi_digest pis (Leaf.nullifier_index 0), pi_digest pis (Leaf.nullifier_index 1));
     commitments := (pi_digest pis (Leaf.commitment_index 0), pi_digest pis (Leaf.commitment_index 1));
     fee := pi_felt pis Leaf.FEE_INDEX; Verifier.ct_digest := pi_digest pis Leaf.CT_DIGEST_START |}.
Definition is_leaf pis : Prop := length pis = Leaf.PUBLIC_INPUT_LEN.

Lemma mask_false x : mask false x = x.
Proof. unfold mask, select. apply list_fmap_id. Qed.
Lemma mask_length b x : length (mask b x) = length x.
Proof. apply length_fmap. Qed.
Lemma masked_real pis pre : pis_padding pis = false → masked_slot pis pre = leaf_slot pis.
Proof. intros Hp. unfold masked_slot, leaf_slot. rewrite Hp, !mask_false. done. Qed.
Lemma masked_wf pis pre : is_leaf pis → slot_wf (masked_slot pis pre).
Proof.
  intros Hl. unfold slot_wf, masked_slot. cbn [nullifiers commitments Verifier.ct_digest fst snd]. rewrite !mask_length.
  assert (Hd : ∀ k, (k + 4 ≤ 26)%nat → is_hash (pi_digest pis k)) by (intros; apply pi_digest_hash; rewrite Hl; done).
  split_and!; try (apply Hd; cbn; lia); unfold emitted; destruct (pis_padding pis); try done; apply Hd; cbn; lia.
Qed.

(** ** The private batch *)
Definition slot_digests (s : BatchLeafSlot felt) : list (list felt) := [(nullifiers s).1; (nullifiers s).2].
Record batch_claim (leaves : list (list felt)) (pres : list SlotPaddingPreimages) (b : PrivateBatchPublicInputs felt) : Prop := {
  bc_slots : slots b = zip_with masked_slot leaves pres;
  bc_agree : ∀ p, p ∈ leaves → pis_padding p = false → block_hash b = bh_of p ∧ block_number b = bn_of p;
  bc_empty : Forall (λ p, pis_padding p = true) leaves → block_hash b = sentinel ∧ block_number b = from_u64 PADDING_BLOCK_NUMBER;
  bc_distinct : NoDup (concat (slot_digests <$> slots b));
}.
Lemma zip_masked {B} (g : BatchLeafSlot felt → B) leaves pres :
  (λ s : list felt * SlotPaddingPreimages, g (masked_slot s.1 s.2)) <$> zip leaves pres = g <$> zip_with masked_slot leaves pres.
Proof. revert pres. induction leaves as [|p leaves IH]; intros [|q pres]; try done. cbn. f_equal. apply IH. Qed.
Lemma emitted_hashes leaves pres : Forall is_leaf leaves → Forall is_hash (concat (slot_digests <$> zip_with masked_slot leaves pres)).
Proof.
  intros Hl. apply Forall_concat, Forall_fmap, Forall_lookup_2. intros i s Hs. apply lookup_zip_with_Some in Hs as (p & q & -> & Hp & _).
  destruct (masked_wf p q (Forall_lookup_1 _ _ _ _ Hl Hp)) as (? & ? & _). by repeat constructor.
Qed.

Lemma private_batch_exact leaves pres out : Forall is_leaf leaves →
  build_private_batch_constraints leaves pres = Some out ↔ ∃ b, out = private_batch_felts b ∧ batch_claim leaves pres b.
Proof.
  intros Hl. unfold build_private_batch_constraints. set (r := foldl scan_reference reference0 leaves).
  assert (H5 : Forall (λ p, (5 ≤ length p)%nat) leaves) by (eapply Forall_impl; [exact Hl|]; intros p ->; cbn; lia).
  pose proof (scan_ref_hash leaves H5) as Hr. fold r in Hr. pose proof (scan_spec leaves) as Hscan. cbv zeta in Hscan. fold r in Hscan.
  assert (Hagree : all_agree r leaves = Some tt ↔ ∀ p, p ∈ leaves → pis_padding p = false → bh_of p = block_ref r ∧ bn_of p = block_number_ref r).
  { unfold all_agree. rewrite foldr_constrain, Forall_forall. apply forall_proper. intros p. split; intros Hp Hin; specialize (Hp Hin).
    - intros Hf. apply agrees_spec in Hp as [Hp|Hp]; [congruence|done| |done]. by apply (proj1 (Forall_forall _ _) H5).
    - apply agrees_spec; [by apply (proj1 (Forall_forall _ _) H5)|done|]. destruct (pis_padding p); auto. }
  assert (E1 : (λ s : list felt * SlotPaddingPreimages, forward_slot s.1 s.2) <$> zip leaves pres = slot_felts <$> zip_with masked_slot leaves pres)
    by exact (zip_masked slot_felts leaves pres).
  assert (E2 : (λ s : list felt * SlotPaddingPreimages, [emitted (pis_padding s.1) s.1 s.2 0; emitted (pis_padding s.1) s.1 s.2 1]) <$> zip leaves pres =
    slot_digests <$> zip_with masked_slot leaves pres) by exact (zip_masked slot_digests leaves pres).
  rewrite E1, E2. clear E1 E2.
  rewrite bind_Some_iff. split.
  - intros (u & Ha & Hr'). destruct u. apply bind_Some_iff in Hr' as (u & Hp & Ho). destruct u. injection Ho as <-.
    apply pairwise_distinct in Hp; [|by apply emitted_hashes]. rewrite Hagree in Ha.
    exists {| block_hash := block_ref r; block_number := block_number_ref r; slots := zip_with masked_slot leaves pres |}. split; [done|].
    constructor; cbn [slots block_hash block_number]; [done| | |done].
    + intros p Hin Hf. destruct (Ha p Hin Hf). done.
    + intros Hall. destruct Hscan as [(_ & ? & ?)|(p & Hin & Hf & _)]; [done|]. rewrite Forall_forall in Hall. by rewrite (Hall p Hin) in Hf.
  - intros (b & -> & [Hs Hag Hem Hnd]).
    assert (Hb : block_hash b = block_ref r ∧ block_number b = block_number_ref r).
    { destruct Hscan as [(Hall & -> & ->)|(p & Hin & Hf & -> & ->)]; [by apply Hem|by apply Hag]. }
    destruct Hb as [Eb En]. exists tt. split; [apply Hagree; intros p Hin Hf; destruct (Hag p Hin Hf); split; congruence|].
    rewrite Hs in Hnd. rewrite (proj2 (pairwise_distinct _ (emitted_hashes leaves pres Hl)) Hnd). cbn [mbind option_bind].
    unfold private_batch_felts. by rewrite Hs, Eb, En.
Qed.

Lemma batch_claim_wf leaves pres b : Forall is_leaf leaves → length pres = length leaves → batch_claim leaves pres b → private_batch_wf (length leaves) b.
Proof.
  intros Hl Hn [Hs Hag Hem _]. assert (Hbh : length (block_hash b) = 4%nat).
  { destruct (scan_spec leaves) as [(Hall & _)|(p & Hin & Hf & _)]; [by rewrite (proj1 (Hem Hall))|]. rewrite (proj1 (Hag p Hin Hf)).
    apply pi_digest_hash. rewrite (proj1 (Forall_forall _ _) Hl p Hin). cbn. lia. }
  split_and!; [done|rewrite Hs, length_zip_with; lia|]. rewrite Hs. apply Forall_lookup_2. intros i s' Hi.
  apply lookup_zip_with_Some in Hi as (p & q & -> & Hp & _). apply masked_wf. by eapply Forall_lookup_1.
Qed.

(** ** Reading a batch as the next layer does *)
Implicit Types (b : PrivateBatchPublicInputs felt).
Lemma chain_sentinel (d : list felt) : is_hash d → block_hash_is_the_padding_sentinel d = bool_decide (d = sentinel).
Proof.
  intros Hd. unfold sentinel, padding_block_hash_target, block_hash_is_the_padding_sentinel. destruct d as [|x0 [|x1 [|x2 [|x3 [|]]]]]; try done.
  assert (Hx : ∀ (x : felt) z, 0 ≤ z < GOLDILOCKS_P → (felt_val x =? z) = bool_decide (x = from_u64 z)).
  { intros x z Hz. rewrite (bool_decide_ext _ _ (felt_eq x (from_u64 z))), val_small by done.
    destruct (Z.eqb_spec (felt_val x) z); symmetry; [by apply bool_decide_eq_true|by apply bool_decide_eq_false]. }
  unfold PADDING_BLOCK_HASH. cbn [zip zip_with forallb to_canonical_u64 circuit_field fmap list_fmap].
  rewrite !Hx by (unfold GOLDILOCKS_P; lia). repeat case_bool_decide; cbn; congruence || (exfalso; congruence) || done.
Qed.
Lemma bh_of_batch n b : private_batch_wf n b → bh_of (private_batch_felts b) = block_hash b.
Proof. intros (Hh & _ & _). unfold bh_of, pi_digest, private_batch_felts, BLOCK_HASH_START, DIGEST_FELTS. rewrite drop_0. by rewrite take_app_length'. Qed.
Lemma bn_of_batch n b : private_batch_wf n b → bn_of (private_batch_felts b) = block_number b.
Proof. intros (Hh & _ & _). destruct b as [h m ss]. cbn in Hh. apply four_felts in Hh as (?&?&?&?&->). done. Qed.
Lemma batch_felts_5 n b : private_batch_wf n b → (5 ≤ length (private_batch_felts b))%nat.
Proof. intros Hw. rewrite (private_batch_felts_length b n Hw), private_batch_pi_len_eq. lia. Qed.
Lemma padding_agrees n b : private_batch_wf n b → pis_padding (private_batch_felts b) = is_padding b.
Proof.
  intros Hw. pose proof (batch_felts_5 n b Hw). rewrite pis_padding_spec by lia. rewrite (bh_of_batch n b Hw). unfold is_padding.
  symmetry. apply chain_sentinel, Hw.
Qed.

Definition mask_slot (padding : bool) (s : BatchLeafSlot felt) : BatchLeafSlot felt :=
  {| nullifiers := (mask padding (nullifiers s).1, mask padding (nullifiers s).2);
     commitments := (mask padding (commitments s).1, mask padding (commitments s).2);
     fee := select padding c_zero (fee s); Verifier.ct_digest := mask padding (Verifier.ct_digest s) |}.
Definition mask_batch b : PrivateBatchPublicInputs felt :=
  {| block_hash := block_hash b; block_number := block_number b; slots := mask_slot (is_padding b) <$> slots b |}.
Lemma mask_slot_felts pd s : mask pd (slot_felts s) = slot_felts (mask_slot pd s).
Proof. unfold slot_felts, mask, mask_slot. cbn [nullifiers commitments fee Verifier.ct_digest fst snd]. by rewrite !fmap_app, fmap_cons. Qed.
Lemma mask_slots_felts pd ss : mask pd (concat (slot_felts <$> ss)) = concat (slot_felts <$> (mask_slot pd <$> ss)).
Proof.
  induction ss as [|s ss IH]; [done|]. cbn [fmap list_fmap concat]. rewrite <- mask_slot_felts. unfold mask at 1. rewrite fmap_app.
  f_equal. exact IH.
Qed.
Lemma mask_batch_real b : is_padding b = false → mask_batch b = b.
Proof.
  intros Hp. unfold mask_batch. rewrite Hp. destruct b as [h m ss]. cbn [block_hash block_number slots]. f_equal.
  rewrite <- (list_fmap_id ss) at 2. apply list_fmap_ext. intros _ [[n0 n1] [c0 c1] f d] _. unfold mask_slot. cbn [id nullifiers commitments fee Verifier.ct_digest fst snd]. by rewrite !mask_false.
Qed.
Lemma mask_batch_wf n b : private_batch_wf n b → private_batch_wf n (mask_batch b).
Proof.
  intros (Hh & Hn & Hs). split_and!; [done|cbn; by rewrite length_fmap|]. cbn. apply Forall_fmap. eapply Forall_impl; [exact Hs|].
  intros s' (? & ? & ? & ? & ?). unfold slot_wf, mask_slot. cbn [compose nullifiers commitments Verifier.ct_digest fst snd]. by rewrite !mask_length.
Qed.
Lemma forward_inner_batch n b : private_batch_wf n b → forward_inner (private_batch_felts b) = private_batch_felts (mask_batch b).
Proof.
  intros Hw. unfold forward_inner. rewrite (padding_agrees n b Hw). unfold private_batch_felts, mask_batch. cbn [block_hash block_number slots].
  destruct b as [h m ss], Hw as (Hh & _ & _). cbn [block_hash block_number slots is_padding] in *. apply four_felts in Hh as (?&?&?&?&->).
  cbn [app take drop HEADER_LEN BLOCK_NUMBER_INDEX BLOCK_HASH_START DIGEST_FELTS Nat.add]. do 5 f_equal.
  apply mask_slots_felts.
Qed.

(** ** The public batch *)
Definition first_nullifier b : list felt := default [] (head (slots b) ≫= λ s, Some (nullifiers s).1).
Record public_claim (bs : list (PrivateBatchPublicInputs felt)) (address : list felt) (p : PublicBatchPublicInputs felt) : Prop := {
  pc_batches : batches p = mask_batch <$> bs;
  pc_address : aggregator_address p = address;
  pc_agree : ∀ b b', b ∈ bs → b' ∈ bs → is_padding b = false → is_padding b' = false → block_hash b = block_hash b' ∧ block_number b = block_number b';
  pc_keys : ∀ i j b b', (i < j)%nat → bs !! i = Some b → bs !! j = Some b' → is_padding b = false → is_padding b' = false → first_nullifier b ≠ first_nullifier b';
}.
Lemma inner_key_batch n b : private_batch_wf (S n) b → inner_key (private_batch_felts b) = first_nullifier b ∧ is_hash (first_nullifier b).
Proof.
  intros (Hh & Hn & Hs). destruct b as [h m [|s ss]]; [done|]. cbn [block_hash slots] in *. apply four_felts in Hh as (?&?&?&?&->).
  apply Forall_cons_1 in Hs as [(H1' & _) _]. unfold first_nullifier. cbn [slots head mbind option_bind]. unfold is_hash. cbn. split; [|done].
  destruct s as [[n0 n1] c f d]. cbn in H1'. apply four_felts in H1' as (?&?&?&?&->). done.
Qed.

Lemma inner_reads n b : private_batch_wf (S n) b → (5 ≤ length (private_batch_felts b))%nat ∧ pis_padding (private_batch_felts b) = is_padding b ∧
  bh_of (private_batch_felts b) = block_hash b ∧ bn_of (private_batch_felts b) = block_number b.
Proof.
  intros Hb. split_and!; [by apply (batch_felts_5 (S n))|by apply (padding_agrees (S n))|by apply (bh_of_batch (S n))|by apply (bn_of_batch (S n))].
Qed.
Lemma inners_agree n bs : (∀ b, b ∈ bs → private_batch_wf (S n) b) → let ls := private_batch_felts <$> bs in
  all_agree (foldl scan_reference reference0 ls) ls = Some tt ↔
  ∀ b b', b ∈ bs → b' ∈ bs → is_padding b = false → is_padding b' = false → block_hash b = block_hash b' ∧ block_number b = block_number b'.
Proof.
  intros Hin ls. set (r := foldl scan_reference reference0 ls).
  assert (H5 : Forall (λ p, (5 ≤ length p)%nat) ls) by (apply Forall_fmap, Forall_forall; intros b Hb; apply (inner_reads n b (Hin b Hb))).
  pose proof (scan_ref_hash ls H5) as Hr. fold r in Hr. pose proof (scan_spec ls) as Hscan. cbv zeta in Hscan. fold r in Hscan.
  unfold all_agree. rewrite foldr_constrain. unfold ls. rewrite Forall_fmap, Forall_forall.
  assert (Hone : ∀ b, b ∈ bs → agrees r (private_batch_felts b) = Some tt ↔ is_padding b = true ∨ (block_hash b = block_ref r ∧ block_number b = block_number_ref r)).
  { intros b Hb. destruct (inner_reads n b (Hin b Hb)) as (H5' & Ep & Eb & En). by rewrite agrees_spec, Ep, Eb, En. }
  split.
  - intros Hall b b' Hb Hb' Hp Hp'. pose proof (proj1 (Hone b Hb) (Hall b Hb)). pose proof (proj1 (Hone b' Hb') (Hall b' Hb')).
    destruct (is_padding b), (is_padding b'); naive_solver congruence.
  - intros Hag b Hb. apply (Hone b Hb). destruct (is_padding b) eqn:Hp; [by left|right].
    destruct Hscan as [(Hall & _)|(q & Hq & Hf & -> & ->)].
    + apply Forall_fmap in Hall. rewrite Forall_forall in Hall. specialize (Hall b Hb). cbn [compose] in Hall.
      destruct (inner_reads n b (Hin b Hb)) as (_ & Ep & _). congruence.
    + apply list_elem_of_fmap in Hq as (b' & -> & Hb'). destruct (inner_reads n b' (Hin b' Hb')) as (_ & Ep & -> & ->). apply Hag; congruence || done.
Qed.
Lemma inners_distinct n bs : (∀ b, b ∈ bs → private_batch_wf (S n) b) →
  pairwise distinct_inners (private_batch_felts <$> bs) = Some tt ↔
  ∀ i j b b', (i < j)%nat → bs !! i = Some b → bs !! j = Some b' → is_padding b = false → is_padding b' = false → first_nullifier b ≠ first_nullifier b'.
Proof.
  intros Hin.
  assert (Hone : ∀ b b', b ∈ bs → b' ∈ bs → distinct_inners (private_batch_felts b) (private_batch_felts b') = Some tt ↔
    (is_padding b = false → is_padding b' = false → first_nullifier b ≠ first_nullifier b')).
  { intros b b' Hb Hb'. unfold distinct_inners. destruct (inner_reads n b (Hin b Hb)) as (_ & -> & _), (inner_reads n b' (Hin b' Hb')) as (_ & -> & _).
    destruct (inner_key_batch n b (Hin b Hb)) as [-> Hh], (inner_key_batch n b' (Hin b' Hb')) as [-> Hh'].
    rewrite connect_bit, digests_are_equal_spec by (unfold is_hash in *; congruence).
    destruct (is_padding b), (is_padding b'); cbn [negb andb]; rewrite ?bool_decide_eq_false; naive_solver. }
  rewrite pairwise_spec. split.
  - intros Hp i j b b' Hij Hi Hj. apply Hone; [by eapply list_elem_of_lookup_2|by eapply list_elem_of_lookup_2|].
    by eapply (Hp i j _ _ Hij); rewrite list_lookup_fmap, ?Hi, ?Hj.
  - intros Hk i j x y Hij Hi Hj. rewrite list_lookup_fmap in Hi, Hj. apply fmap_Some in Hi as (b & Hi & ->), Hj as (b' & Hj & ->).
    apply Hone; [by eapply list_elem_of_lookup_2|by eapply list_elem_of_lookup_2|]. by eapply Hk.
Qed.

Lemma public_batch_exact n bs address out : Forall (private_batch_wf (S n)) bs →
  build_public_batch_constraints (private_batch_felts <$> bs) address = Some out ↔ ∃ p, out = public_batch_felts p ∧ public_claim bs address p.
Proof.
  intros Hw. assert (Hin : ∀ b, b ∈ bs → private_batch_wf (S n) b) by (intros b Hb; by apply (proj1 (Forall_forall _ _) Hw)).
  pose proof (inners_agree n bs Hin) as Hagree. cbv zeta in Hagree. pose proof (inners_distinct n bs Hin) as Hkeys.
  assert (Hfwd : concat (forward_inner <$> (private_batch_felts <$> bs)) = concat (private_batch_felts <$> (mask_batch <$> bs))).
  { rewrite <- !list_fmap_compose. f_equal. apply list_fmap_ext. intros i b Hi. apply (forward_inner_batch (S n)), Hin. by eapply list_elem_of_lookup_2. }
  unfold build_public_batch_constraints. rewrite Hfwd, bind_Some_iff. split.
  - intros (u & Ha & Hr'). destruct u. apply bind_Some_iff in Hr' as (u & Hp & Ho). destruct u. injection Ho as <-.
    exists {| aggregator_address := address; batches := mask_batch <$> bs |}. split; [done|]. constructor; [done|done|by apply Hagree|by apply Hkeys].
  - intros (p & -> & [Eb Ea Hag Hk]). exists tt. split; [by apply Hagree|]. rewrite (proj2 Hkeys Hk). cbn [mbind option_bind]. unfold public_batch_felts. by rewrite Eb, Ea.
Qed.
End Exact.
