(* ===== verification/BatchCircuitTheorems.v ===== *)
(** * A settlement the chain accepts

    From proof bytes to notes: the pallet's proof validation, the verifier's
    parser, the two batch circuits and the leaf circuit, composed with the
    commitment tree. The proof system enters through its soundness alone. *)

From stdpp Require Import base option numbers sorting gmap relations sets list.
From S2P Require Import Prelude Crypto NoteRules Layout Verifier VerifierProps ZkTree ZkTreeProps Shielded Header CircuitMerkle CircuitMerkleProps NoteCore LeafCircuit LeafCircuitProps LeafCircuitTheorems BatchCircuit BatchCircuitProps.
#[local] Open Scope Z_scope.

Section Chain.
Context `{CircuitOps, !CircuitLaws, !PoseidonLaws, !NoteFieldLaws, !PlonkyOps felt}.
Implicit Types (s : SpendTargets) (p : proof) (b : PrivateBatchPublicInputs felt) (pis : list felt).

(** ** Soundness of the proof system, per circuit: a proof that verifies has
    an assignment of the circuit's targets that meets its constraints and
    publishes its public inputs. *)
Definition leaf_sound (leaf : verifier_data) : Prop :=
  ∀ p, plonky_verify leaf p = true → ∃ s, targets_ok s ∧ build_constraints s = Some tt ∧ public_inputs p = leaf_public_inputs s.
Definition private_sound (leaf batch : verifier_data) (num_leaves : nat) : Prop :=
  ∀ p, plonky_verify batch p = true → ∃ t, length (leaf_proofs t) = num_leaves ∧ length (padding_nullifier_preimages t) = num_leaves ∧
    private_batch_circuit leaf t = Some (public_inputs p).
Definition public_sound (batch public : verifier_data) (num_inner : nat) : Prop :=
  ∀ p, plonky_verify public p = true → ∃ t, length (private_batch_proofs t) = num_inner ∧ is_hash (pt_aggregator_address t) ∧
    public_batch_circuit batch t = Some (public_inputs p).
Record circuits_sound (cfg : Config QneroPrivateBatchVerifier QneroPublicBatchVerifier) (leaf : verifier_data) : Prop := {
  so_leaf : leaf_sound leaf;
  so_private : ∀ v, private_batch_verifier cfg = Some v → private_sound leaf (prv_circuit_data v) (prv_num_leaves v);
  so_public : ∀ v, public_batch_verifier cfg = Some v → ∃ batch,
    private_sound leaf batch (pub_num_leaves v) ∧ public_sound batch (pub_circuit_data v) (pub_num_inner v);
}.

(** ** A leaf's slot *)
Lemma leaf_slot_targets s : targets_ok s →
  is_leaf (leaf_public_inputs s) ∧ bh_of (leaf_public_inputs s) = tg_block_hash s ∧ bn_of (leaf_public_inputs s) = tg_block_number s ∧
  leaf_slot (leaf_public_inputs s) =
    {| nullifiers := tg_nullifiers s; commitments := tg_commitments s; fee := tg_fee s; Verifier.ct_digest := tg_ct_digest s |}.
Proof.
  intros [(Hb & Hn1 & Hn2 & Hc1 & Hc2 & Hd) _ _ _ _]. destruct s as [bh bn [n1 n2] [c1 c2] f d hd dep ins outs]. cbn in *.
  apply four_felts in Hb as (?&?&?&?&->), Hn1 as (?&?&?&?&->), Hn2 as (?&?&?&?&->), Hc1 as (?&?&?&?&->), Hc2 as (?&?&?&?&->), Hd as (?&?&?&?&->). done.
Qed.
Lemma masked_is_padding pis pre : pis_padding pis = true → slot_is_padding (masked_slot pis pre) = true.
Proof.
  intros Hp. unfold slot_is_padding, masked_slot. rewrite Hp. cbn [commitments fst snd forallb].
  assert (Hm : ∀ x, forallb (λ limb, to_canonical_u64 limb =? 0) (mask true x) = true).
  { intros x. induction x as [|y x IH]; [done|]. cbn [mask fmap list_fmap forallb select]. cbn [to_canonical_u64 circuit_field]. by rewrite val_zero. }
  by rewrite !Hm.
Qed.

(** What the chain reads of a leaf's slot. *)
Definition settles s (slot : RealSlot) : Prop :=
  rs_nullifiers slot = (digest_of (tg_nullifiers s).1, digest_of (tg_nullifiers s).2) ∧
  rs_commitments slot = (digest_of (tg_commitments s).1, digest_of (tg_commitments s).2) ∧
  rs_fee slot = felt_val (tg_fee s) ∧ rs_ct_digest slot = digest_of (tg_ct_digest s).

(** ** A verified private batch *)
Record made_of_leaves (n : nat) b : Prop := {
  ml_wf : private_batch_wf n b;
  ml_leaf : ∀ slot, slot ∈ slots b → slot_is_padding slot = false → ∃ s, targets_ok s ∧ build_constraints s = Some tt ∧
    block_hash b = tg_block_hash s ∧
    slot = {| nullifiers := tg_nullifiers s; commitments := tg_commitments s; fee := tg_fee s; Verifier.ct_digest := tg_ct_digest s |};
  ml_distinct : NoDup (concat (slot_digests <$> slots b));
}.
Lemma verified_private_batch leaf batch n p : leaf_sound leaf → private_sound leaf batch n → plonky_verify batch p = true →
  ∃ b, public_inputs p = private_batch_felts b ∧ made_of_leaves n b.
Proof.
  intros Hleaf Hpriv Hv. destruct (Hpriv p Hv) as (t & Hn & Hpre & Hc). unfold private_batch_circuit, add_recursive_verifiers in Hc.
  rewrite bind_unit in Hc. destruct Hc as [Hall Hc]. rewrite forallb_forall in Hall.
  assert (Hs : ∀ pis, pis ∈ public_inputs <$> leaf_proofs t → ∃ s, targets_ok s ∧ build_constraints s = Some tt ∧ pis = leaf_public_inputs s).
  { intros pis Hin. apply list_elem_of_fmap in Hin as (q & -> & Hq). apply Hleaf, Hall. by apply list_elem_of_In. }
  assert (Hleaves : Forall is_leaf (public_inputs <$> leaf_proofs t)).
  { apply Forall_lookup_2. intros i pis Hi. destruct (Hs pis) as (s & Hok & _ & ->); [by eapply list_elem_of_lookup_2|]. by apply leaf_slot_targets. }
  apply private_batch_exact in Hc as (b & Eb & Hclaim); [|done]. exists b. split; [done|]. constructor.
  - rewrite <- Hn, <- (length_fmap public_inputs (leaf_proofs t)). eapply batch_claim_wf; [done| |done]. by rewrite length_fmap, Hn.
  - intros slot Hin Hreal. destruct Hclaim as [Hsl Hag _ _]. rewrite Hsl in Hin. apply list_elem_of_lookup_1 in Hin as [i Hi].
    apply lookup_zip_with_Some in Hi as (pis & q & -> & Hp & _). apply list_elem_of_lookup_2 in Hp.
    destruct (pis_padding pis) eqn:Hpad; [by rewrite (masked_is_padding pis q Hpad) in Hreal|].
    destruct (Hag pis Hp Hpad) as [Eh _]. destruct (Hs pis Hp) as (s & Hok & Hb & ->). destruct (leaf_slot_targets s Hok) as (_ & Ebh & _ & Esl).
    exists s. split_and!; [done|done|by rewrite Eh|]. by rewrite masked_real, Esl.
  - apply Hclaim.
Qed.

(** A verified public batch settles the inner batches that are not padding. *)
Lemma verified_public_batch leaf batch public m n p q :
  leaf_sound leaf → private_sound leaf batch n → public_sound batch public m → plonky_verify public p = true →
  parse_public_batch_public_input_felts (public_inputs p) m n = Some q →
  ∀ b, b ∈ settleable_batches q → made_of_leaves n b.
Proof.
  intros Hleaf Hpriv Hpub Hv Hparse b Hb. destruct (Hpub p Hv) as (t & Hm & Haddr & Hc).
  unfold public_batch_circuit, add_recursive_verifiers in Hc. rewrite bind_unit in Hc. destruct Hc as [Hall Hc]. rewrite forallb_forall in Hall.
  assert (Hbs : ∃ bs, public_inputs <$> private_batch_proofs t = private_batch_felts <$> bs ∧ Forall (made_of_leaves n) bs ∧ length bs = m).
  { clear Hc. rewrite <- Hm. revert Hall. generalize (private_batch_proofs t). intros l. induction l as [|x l IH]; intros Hall; [by exists []|].
    destruct IH as (bs & E & Hf & Hl); [intros y Hy; apply Hall; by right|].
    destruct (verified_private_batch leaf batch n x Hleaf Hpriv (Hall x (or_introl eq_refl))) as (b' & Ex & Hb').
    exists (b' :: bs). split_and!; [cbn; by rewrite Ex, E|by constructor|cbn; by rewrite Hl]. }
  destruct Hbs as (bs & Ebs & Hf & Hl). rewrite Ebs in Hc.
  assert (Hvc : validate_proof_count n = true ∧ validate_proof_count m = true).
  { unfold parse_public_batch_public_input_felts in Hparse. destruct (validate_proof_count m), (validate_proof_count n); done. }
  destruct Hvc as [Hvn Hvm]. destruct n as [|n]; [done|].
  assert (Hwf : Forall (private_batch_wf (S n)) bs) by (eapply Forall_impl; [exact Hf|]; by intros x []).
  apply (public_batch_exact n bs (pt_aggregator_address t)) in Hc as (q' & Eq & Hclaim); [|done].
  assert (Hq : q = q').
  { rewrite Eq in Hparse. rewrite parse_public_write in Hparse; [by apply (inj Some) in Hparse|done..|].
    destruct Hclaim as [Eb' Ea _ _]. split_and!; [by rewrite Ea|rewrite Eb', length_fmap; done|].
    rewrite Eb'. apply Forall_fmap. eapply Forall_impl; [exact Hwf|]. intros x Hx. by apply mask_batch_wf. }
  subst q'. unfold settleable_batches in Hb. apply list_elem_of_filter in Hb as [Hreal Hin]. rewrite (pc_batches _ _ _ Hclaim) in Hin.
  apply list_elem_of_fmap in Hin as (b' & -> & Hin). change (is_padding (mask_batch b')) with (is_padding b') in Hreal.
  rewrite mask_batch_real by done. by apply (proj1 (Forall_forall _ _) Hf).
Qed.

(** ** The pallet's proof validation *)
Definition accepts (cfg : Config QneroPrivateBatchVerifier QneroPublicBatchVerifier) (pf : list Z) (bundle : SettlementBundle) : Prop :=
  validate_private_batch cfg pf = Ok bundle ∨ validate_public_batch cfg pf = Ok bundle.

Lemma private_felts_inj n b b' : validate_proof_count n = true → private_batch_wf n b → private_batch_wf n b' → private_batch_felts b = private_batch_felts b' → b = b'.
Proof. intros Hn Hb Hb' E. pose proof (parse_private_write b n Hn Hb) as E1. rewrite E, (parse_private_write b' n Hn Hb') in E1. congruence. Qed.
Lemma private_accepted leaf v pf b : leaf_sound leaf → private_sound leaf (prv_circuit_data v) (prv_num_leaves v) →
  private_verify_proof_bytes v pf = Ok b → made_of_leaves (prv_num_leaves v) b.
Proof.
  intros Hleaf Hpriv. unfold private_verify_proof_bytes. intros (p & _ & Ha)%bind_Ok. apply bind_Ok in Ha as (b' & Hparse%ok_or_Ok & Ha).
  apply bind_Ok in Ha as (u & Hv%ensure_Ok & [= ->]). destruct (verified_private_batch leaf _ _ p Hleaf Hpriv Hv) as (b' & Ep & Hm).
  assert (Hn : validate_proof_count (prv_num_leaves v) = true) by (unfold parse_private_batch_public_input_felts in Hparse; by destruct (validate_proof_count _)).
  apply parse_private_read in Hparse as [Ep' Hwf]. rewrite (private_felts_inj _ b b' Hn Hwf (ml_wf _ _ Hm)) by congruence. done.
Qed.
Lemma public_accepted leaf v batch pf q : leaf_sound leaf → private_sound leaf batch (pub_num_leaves v) →
  public_sound batch (pub_circuit_data v) (pub_num_inner v) → public_verify_proof_bytes v pf = Ok q →
  ∀ b, b ∈ settleable_batches q → made_of_leaves (pub_num_leaves v) b.
Proof.
  intros Hleaf Hpriv Hpub. unfold public_verify_proof_bytes. intros (p & _ & Ha)%bind_Ok. apply bind_Ok in Ha as (q' & Hparse%ok_or_Ok & Ha).
  apply bind_Ok in Ha as (u & Hv%ensure_Ok & [= ->]). by eapply verified_public_batch.
Qed.
Lemma accepted_segments cfg leaf pf bundle : circuits_sound cfg leaf → accepts cfg pf bundle → ∀ seg, seg ∈ segments bundle →
  ∃ n b, made_of_leaves n b ∧ is_padding b = false ∧ seg = segment_from b.
Proof.
  intros [Hleaf Hpriv Hpub] [Ha|Ha] seg Hin; apply bind_Ok in Ha as (u & _ & Ha); apply bind_Ok in Ha as (v & Hv%ok_or_Ok & Ha);
    apply bind_Ok in Ha as (b & Hb%map_err_Ok & [= <-]).
  - pose proof (private_accepted leaf v pf b Hleaf (Hpriv v Hv) Hb) as Hm.
    unfold from_private_batch in Hin. cbn [segments] in Hin. destruct (is_padding b) eqn:Hpad; [by inversion Hin|].
    apply list_elem_of_singleton in Hin as ->. by eexists _, b.
  - destruct (Hpub v Hv) as (batch & Hp & Hu). unfold from_public_batch in Hin. cbn [segments] in Hin.
    apply list_elem_of_fmap in Hin as (b' & -> & Hb'). eexists _, b'. split_and!; [by eapply public_accepted|by apply list_elem_of_filter in Hb' as [? _]|done].
Qed.

Lemma segment_slot n b slot : made_of_leaves n b → slot ∈ sg_slots (segment_from b) →
  ∃ s, targets_ok s ∧ build_constraints s = Some tt ∧ block_hash b = tg_block_hash s ∧ settles s slot.
Proof.
  intros Hm Hin. cbn [segment_from sg_slots] in Hin. apply list_elem_of_fmap in Hin as (sl & -> & Hsl). apply list_elem_of_filter in Hsl as [Hreal Hsl].
  destruct (ml_leaf _ _ Hm sl Hsl Hreal) as (s & Hok & Hb & Eb & ->). by exists s.
Qed.

Lemma NoDup_concat_filter {A B} (P : A → Prop) `{∀ x, Decision (P x)} (f : A → list B) l : NoDup (concat (f <$> l)) → NoDup (concat (f <$> filter P l)).
Proof.
  induction l as [|x l IH]; [done|]. cbn [fmap list_fmap concat]. intros (Hx & Hdis & Hl)%NoDup_app.
  rewrite filter_cons. case_decide; [|by apply IH]. cbn [fmap list_fmap concat]. apply NoDup_app. split_and!; [done| |by apply IH].
  intros y Hy Hin. apply (Hdis y Hy). rewrite list_elem_of_In, in_concat in Hin. destruct Hin as (z & Hz & Hin).
  rewrite list_elem_of_In, in_concat. exists z. split; [|done]. rewrite <- list_elem_of_In in Hz |- *.
  apply list_elem_of_fmap in Hz as (w & -> & Hw). apply list_elem_of_fmap. exists w. split; [done|]. by apply list_elem_of_filter in Hw as [_ ?].
Qed.
Lemma NoDup_digests l : Forall is_hash l → NoDup l → NoDup (digest_of <$> l).
Proof.
  intros Hh Hd. revert Hh. induction Hd as [|x l Hx _ IH]; intros Hh; [constructor|].
  apply Forall_cons_1 in Hh as [Hxh Hh]. cbn [fmap list_fmap]. constructor; [|by apply IH]. intros (y & Ey & Hy)%list_elem_of_fmap.
  apply digest_of_inj in Ey; [by subst|done|]. by apply (proj1 (Forall_forall _ _) Hh).
Qed.
Lemma segment_distinct n b : made_of_leaves n b → NoDup (concat (slot_nullifiers <$> sg_slots (segment_from b))).
Proof.
  intros [Hwf _ Hnd]. set (ss := filter (λ slot, slot_is_padding slot = false) (slots b)).
  assert (E : concat (slot_nullifiers <$> sg_slots (segment_from b)) = digest_of <$> concat (slot_digests <$> ss)).
  { cbn [segment_from sg_slots]. fold ss. clearbody ss. clear. induction ss as [|x l IH]; [done|]. cbn [fmap list_fmap concat]. rewrite fmap_app. by f_equal. }
  rewrite E. apply NoDup_digests; [|by apply NoDup_concat_filter].
  apply Forall_concat, Forall_fmap, Forall_forall. intros x Hx%list_elem_of_filter. destruct Hx as [_ Hx], Hwf as (_ & _ & Hs).
  destruct (proj1 (Forall_forall _ _) Hs x Hx) as (? & ? & _). by repeat constructor.
Qed.

(** C11: the two batch circuits publish exactly their inner proofs' values.
    Over leaves of the right width the private batch is satisfied, with a
    given vector of public inputs, if and only if the vector is the layout of
    a batch whose slots are the leaves' own values (padding slots masked:
    fresh nullifiers, zero elsewhere), whose block is every real leaf's, or
    the sentinel when there is none, and whose nullifiers are pairwise
    distinct; and over private batches the public batch is satisfied if and
    only if the vector is the layout of those batches in order, padding ones
    zeroed, under the given address, with one block and no repeated inner. *)
Theorem batch_circuits_are_exact leaves pres out n bs address out'
    (Hleaves : Forall is_leaf leaves) (Hbs : Forall (private_batch_wf (S n)) bs) :
  (build_private_batch_constraints leaves pres = Some out ↔ ∃ b, out = private_batch_felts b ∧ batch_claim leaves pres b) ∧
  (build_public_batch_constraints (private_batch_felts <$> bs) address = Some out' ↔ ∃ q, out' = public_batch_felts q ∧ public_claim bs address q).
Proof. split; [by apply private_batch_exact|by apply (public_batch_exact n)]. Qed.
End Chain.

Section Settled.
Context `{HeaderCodecLaws, !CircuitOps, !CircuitLaws, !PoseidonLaws, !NoteFieldLaws, !PlonkyOps felt}.

Lemma not_padding_digest b n : private_batch_wf n b → is_padding b = false → digest_of (block_hash b) ≠ padding_digest.
Proof.
  intros (Hh & _ & _) Hp E. assert (He : is_padding_block_hash (block_hash b) = true) by (rewrite padding_exact; [by apply bool_decide_eq_true|done]).
  unfold is_padding_block_hash in He. rewrite digests_are_equal_spec in He by (by rewrite Hh). unfold is_padding in Hp. rewrite chain_sentinel in Hp by done.
  unfold sentinel, padding_block_hash_target in Hp. congruence.
Qed.

(** C2: whatever proof the pallet accepts, private batch or public, settles
    only spends of notes on the chain. Given soundness of the proof system for
    the three circuits, every slot of every segment the pallet goes on to
    settle carries the nullifiers, commitments, fee and ciphertext digest of a
    satisfied leaf for the segment's block; that leaf has a real input, its
    values balance with the fee the pallet charges, and every real input's
    nullifier is one of the slot's. When the block is a header carrying the
    root of a reachable tree of commitments, every real input is a settled leaf
    of that tree, unless the sponge is broken on inputs hashed there: the two
    headers, the leaf's two paths, the tree's nodes or its commitments contain
    a collision or a preimage of the zero digest. No segment names a nullifier
    twice. *)
Theorem accepted_slots_spend_settled_notes cfg leaf pf bundle seg t openings h
    (Hsound : circuits_sound cfg leaf) (Hacc : accepts cfg pf bundle) (Hseg : seg ∈ segments bundle)
    (Hreach : tree_reach genesis_tree t) (Hleaves : commitment_leaves t openings)
    (Hh : header_ok h) (Hroot : zk_tree_root h = Root t) (Hblock : sg_block_hash seg = header_hash h) :
  NoDup (concat (slot_nullifiers <$> sg_slots seg)) ∧
  ∀ slot, slot ∈ sg_slots seg →
    ∃ s, leaf_claim s ∧ settles s slot ∧
      felt_val (it_value (tg_inputs s).1) + felt_val (it_value (tg_inputs s).2) =
        felt_val (ot_value (tg_outputs s).1) + felt_val (ot_value (tg_outputs s).2) + rs_fee slot ∧
      (∃ i nf, spends s i nf ∧ it_is_dummy i = false) ∧
      (∀ i nf, spends s i nf → nf ∈ slot_nullifiers slot) ∧
      (broken_on (leaf_queries s t openings h) ∨
       ∀ i nf, spends s i nf → it_is_dummy i = false → ∃ j, 0 ≤ j < settled t ∧ Leaves t !! j = Some (note_commitment (input_opening i))).
Proof.
  destruct (accepted_segments cfg leaf pf bundle Hsound Hacc seg Hseg) as (n & b & Hm & Hpad & ->). split; [by eapply segment_distinct|].
  intros slot Hslot. destruct (segment_slot n b slot Hm Hslot) as (s & Hok & Hs & Eb & Hset).
  change (sg_block_hash (segment_from b)) with (digest_of (block_hash b)) in Hblock. pose proof (not_padding_digest b n (ml_wf _ _ Hm) Hpad) as Hnp. rewrite Eb in Hblock, Hnp.
  pose proof (leaf_spends_settled s t openings h Hok Hs Hreach Hleaves Hh Hroot Hblock) as Hin. exists s. pose proof (proj1 (constraints_exact s Hok) Hs) as Hclaim. destruct Hset as (En & Ec & Ef & Ed).
  split_and!; [done|done|rewrite Ef; apply Hclaim| | |by destruct Hin as [?|[_ ?]]; [left|right]].
  - destruct (lc_consumes s Hclaim Hnp) as [Hr|Hr]; eexists _, _; (split; [|exact Hr]); [by left|by right].
  - intros i nf Hi. unfold slot_nullifiers. rewrite En. destruct Hi as [[_ ->]|[_ ->]]; set_solver.
Qed.
End Settled.

(** ** The batch provers

    What the admission rules of [private_batch/prover.rs] buy: a batch they
    let through always meets the circuit's constraints, whatever order the
    shuffle gives it, and every supplied leaf is in it. *)
Section Admission.
Context `{CircuitOps, !CircuitLaws, !PoseidonLaws, !NoteFieldLaws, !PlonkyOps felt}.
Implicit Types (pis : list felt) (ls : list (list felt)) (c : Compat).

Lemma canonical_inj (x y : list felt) : canonical x = canonical y → x = y.
Proof.
  unfold canonical. revert y. induction x as [|a x IH]; intros [|b y] E; try done. cbn [fmap list_fmap] in E.
  f_equal; [apply felt_val_inj; congruence|apply IH; congruence].
Qed.
Lemma canonical_sentinel : canonical sentinel = PADDING_BLOCK_HASH.
Proof.
  unfold canonical, sentinel, padding_block_hash_target, PADDING_BLOCK_HASH. cbn [fmap list_fmap]. by rewrite !val_small by (unfold GOLDILOCKS_P; lia).
Qed.
Lemma prover_sees_padding pis : is_leaf pis → bool_decide (canonical (pi_digest pis Leaf.BLOCK_HASH_START) = PADDING_BLOCK_HASH) = pis_padding pis.
Proof.
  intros Hl. rewrite pis_padding_spec by (rewrite Hl; cbn; lia). rewrite <- canonical_sentinel. change (pi_digest pis Leaf.BLOCK_HASH_START) with (bh_of pis).
  apply bool_decide_ext. split; [apply canonical_inj|by intros ->].
Qed.

(** The nullifiers of a real leaf. *)
Definition published pis : list (list felt) := [pi_digest pis (Leaf.nullifier_index 0); pi_digest pis (Leaf.nullifier_index 1)].
Definition real_published pis : list (list felt) := if pis_padding pis then [] else published pis.

Lemma insert_all_spec index : ∀ ds seen seen', insert_all index seen ds = Ok seen' → NoDup seen → NoDup seen' ∧ seen' ≡ₚ ds ++ seen.
Proof.
  induction ds as [|d ds IH]; intros seen seen'; cbn [insert_all]; [by intros [= <-]|].
  intros (u & Hd%ensure_Ok & Hr)%bind_Ok Hn. apply negb_true_iff, bool_decide_eq_false in Hd.
  destruct (IH (d :: seen) seen' Hr) as [Hn' Hp]; [by constructor|]. split; [done|]. rewrite Hp. cbn. by rewrite Permutation_middle.
Qed.

Record compat_inv ls c : Prop := {
  ci_reference : match cp_reference c with
    | None => Forall (λ p, pis_padding p = true) ls
    | Some (h, n) => (∃ p, p ∈ ls ∧ pis_padding p = false) ∧
        ∀ p, p ∈ ls → pis_padding p = false → canonical (bh_of p) = h ∧ felt_val (bn_of p) = n
    end;
  ci_seen : cp_seen c ≡ₚ canonical <$> concat (real_published <$> ls);
  ci_nodup : NoDup (cp_seen c);
}.
Lemma compat_step ls c k pis c' : is_leaf pis → compat_inv ls c → compatible_leaf c (k, pis) = Ok c' → compat_inv (ls ++ [pis]) c'.
Proof.
  intros Hl [Hr Hs Hn]. unfold compatible_leaf. rewrite (prover_sees_padding pis Hl).
  assert (Hsnoc : concat (real_published <$> ls ++ [pis]) = concat (real_published <$> ls) ++ real_published pis)
    by (rewrite fmap_app, concat_app; cbn; by rewrite app_nil_r).
  destruct (pis_padding pis) eqn:Hp.
  - intros [= <-]. constructor; [|rewrite Hsnoc; unfold real_published at 2; by rewrite Hp, app_nil_r|done].
    destruct (cp_reference c) as [[h n]|]; [|by apply Forall_app; split; [|constructor]].
    destruct Hr as [(p & Hin & Hpr) Hag]. split; [exists p; set_solver|]. intros q [Hq|Hq%list_elem_of_singleton]%elem_of_app Hqr; [by apply Hag|congruence].
  - intros (r & Href & Hr')%bind_Ok. apply bind_Ok in Hr' as (seen & Hins & [= <-]). destruct (insert_all_spec _ _ _ _ Hins Hn) as [Hn' Hp'].
    assert (Er : real_published pis = published pis) by (unfold real_published; by rewrite Hp).
    constructor; cbn [cp_reference cp_seen]; [|rewrite Hp', Hsnoc, Hs, fmap_app, Er; apply (Permutation_app_comm [_; _])|done].
    destruct r as [h n]. split; [exists pis; set_solver|]. intros q [Hq|Hq%list_elem_of_singleton]%elem_of_app Hqr.
    + destruct (cp_reference c) as [[rh rn]|].
      * apply bind_Ok in Href as (u1 & _ & Href). apply bind_Ok in Href as (u2 & _ & [= <- <-]). by apply Hr.
      * rewrite Forall_forall in Hr. by rewrite (Hr q Hq) in Hqr.
    + subst q. destruct (cp_reference c) as [[rh rn]|]; [|by injection Href as <- <-].
      apply bind_Ok in Href as (u1 & Hb%ensure_Ok%bool_decide_eq_true & Href). apply bind_Ok in Href as (u2 & Hb2%ensure_Ok%Z.eqb_eq & [= <- <-]). done.
Qed.
Lemma compat_fold l : ∀ ls c c', Forall (λ x : nat * list felt, is_leaf x.2) l → compat_inv ls c → fold_result compatible_leaf c l = Ok c' → compat_inv (ls ++ (snd <$> l)) c'.
Proof.
  induction l as [|[k pis] l IH]; intros ls c c' Hl Hc; cbn [fold_result]; [intros [= <-]; by rewrite app_nil_r|].
  apply Forall_cons_1 in Hl as [Hp Hl]. intros (c1 & H1' & Hf)%bind_Ok. cbn [fmap list_fmap snd].
  change (ls ++ pis :: (snd <$> l)) with (ls ++ [pis] ++ (snd <$> l)). rewrite app_assoc. eapply IH; [done|by eapply compat_step|done].
Qed.
Lemma snd_imap {A} (l : list A) : snd <$> imap pair l = l.
Proof. rewrite fmap_imap. rewrite <- (list_fmap_id l) at 2. by rewrite <- imap_const. Qed.
Lemma Forall_imap_snd {A} (P : A → Prop) (l : list A) : Forall P l → Forall (λ x : nat * A, P x.2) (imap pair l).
Proof. intros Hl. rewrite <- (snd_imap l) in Hl. exact (proj1 (Forall_fmap _ _ _) Hl). Qed.
Lemma compatible_spec ls : Forall is_leaf ls → ensure_batch_compatible ls = Ok tt →
  (∃ p, p ∈ ls ∧ pis_padding p = false) ∧
  (∀ p q, p ∈ ls → q ∈ ls → pis_padding p = false → pis_padding q = false → bh_of p = bh_of q ∧ bn_of p = bn_of q) ∧
  NoDup (concat (real_published <$> ls)).
Proof.
  intros Hl (c & Hf & Href%ensure_Ok)%bind_Ok. apply bool_decide_eq_true in Href as [[h n] Href].
  assert (H0' : compat_inv [] compat0) by (constructor; [constructor|done|constructor]).
  apply (compat_fold _ [] _ c) in Hf as [Hr Hs Hn]; [|by apply Forall_imap_snd|done].
  cbn [app] in Hr, Hs. rewrite snd_imap in Hr, Hs. rewrite Href in Hr. destruct Hr as [Hex Hag]. split_and!; [done| |].
  - intros p q Hp Hq Hpr Hqr. destruct (Hag p Hp Hpr) as [E1 E2], (Hag q Hq Hqr) as [E3 E4].
    split; [apply canonical_inj; congruence|apply felt_val_inj; congruence].
  - rewrite Hs in Hn. by apply NoDup_fmap_1 in Hn.
Qed.

(** ** Where an emitted nullifier comes from *)
Inductive origin := Pub (d : list felt) | Pad (q : list felt).
Definition emit (o : origin) : list felt := match o with Pub d => d | Pad q => padding_nullifier q end.
Definition origins pis (q : SlotPaddingPreimages) : list origin := if pis_padding pis then [Pad q.1; Pad q.2] else Pub <$> published pis.
Definition drawn pis (q : SlotPaddingPreimages) : list (list felt) := if pis_padding pis then [q.1; q.2] else [].
Lemma emitted_origins pis q : slot_digests (masked_slot pis q) = emit <$> origins pis q.
Proof. unfold slot_digests, masked_slot, origins, emitted. cbn [nullifiers fst snd]. by destruct (pis_padding pis). Qed.

Lemma origins_perm ls : ∀ pres, length pres = length ls →
  concat (zip_with origins ls pres) ≡ₚ (Pub <$> concat (real_published <$> ls)) ++ (Pad <$> concat (zip_with drawn ls pres)).
Proof.
  induction ls as [|p ls IH]; intros [|q pres] Hl; try done. injection Hl as Hl. cbn [zip_with fmap list_fmap concat]. rewrite IH by done.
  unfold origins, real_published, drawn. destruct (pis_padding p); cbn [app fmap list_fmap].
  - rewrite !Permutation_middle. by rewrite <- !(Permutation_middle (Pub <$> _)).
  - by rewrite fmap_app, app_assoc.
Qed.
Lemma drawn_sublist ls : ∀ pres, concat (zip_with drawn ls pres) `sublist_of` concat ((λ q : SlotPaddingPreimages, [q.1; q.2]) <$> pres).
Proof.
  induction ls as [|p ls IH]; intros [|q pres]; cbn [zip_with fmap list_fmap concat]; [apply sublist_nil_l..|].
  apply sublist_app; [|apply IH]. unfold drawn. destruct (pis_padding p); [done|apply sublist_nil_l].
Qed.
Lemma NoDup_emit (C : Prop) (O : list origin) :
  NoDup O → (∀ o o', o ∈ O → o' ∈ O → emit o = emit o' → C ∨ o = o') → C ∨ NoDup (emit <$> O).
Proof.
  induction 1 as [|o O Ho _ IH]; intros Hinj; [right; constructor|]. destruct IH as [?|Hn]; [intros; apply Hinj; [by right..|done]|by left|].
  cbn [fmap list_fmap]. destruct (decide (emit o ∈ emit <$> O)) as [Hin|]; [|right; by constructor].
  apply list_elem_of_fmap in Hin as (o' & E & Ho'). destruct (Hinj o o') as [?|<-]; [by left|by right|done|by left|done].
Qed.

(** What a leaf's two nullifiers and a padding slot's are made from. *)
Definition target_pre (i : InputNoteTargets) : list felt :=
  felts_pre (if it_is_dummy i then domain.NF_DUMMY else domain.NF) [dfelts (digest_of (it_nk i)); dfelts (digest_of (it_rho i)); dfelts (digest_of (it_r i))].
Definition leaf_nullifier_pres (s : SpendTargets) : list (list felt) := [target_pre (tg_inputs s).1; target_pre (tg_inputs s).2].
Definition slot_padding_pre (q : list felt) : list felt := felts_pre NF_BATCH_PADDING [q].

(** A published nullifier is a hash under one of the leaf's two tags. *)
Definition leaf_tagged (Q : list (list felt)) (d : list felt) : Prop :=
  ∃ tag parts, (tag = domain.NF ∨ tag = domain.NF_DUMMY) ∧ felts_pre tag parts ∈ Q ∧ d = dfelts (hash_felts tag parts).
Lemma published_tag s d : targets_ok s → build_constraints s = Some tt → d ∈ published (leaf_public_inputs s) → leaf_tagged (leaf_nullifier_pres s) d.
Proof.
  intros Hok Hs Hd. pose proof (leaf_slot_targets s Hok) as (_ & _ & _ & E).
  assert (Hp : published (leaf_public_inputs s) = [(tg_nullifiers s).1; (tg_nullifiers s).2]).
  { pose proof (f_equal nullifiers E) as En. cbn [nullifiers leaf_slot] in En. unfold published. by rewrite <- En. }
  rewrite Hp in Hd. assert (Hsp : ∃ i, spends s i (digest_of d) ∧ is_hash d ∧ target_pre i ∈ leaf_nullifier_pres s).
  { destruct Hok as [(_ & ? & ? & _) _ _ _ _]. apply list_elem_of_In in Hd as [<-|[<-|[]]]; eexists; (split; [|split; [done|]]);
      [by left|by left|by right|by right; left]. }
  destruct Hsp as (i & Hi & Hh & Hin). destruct (spends_claim s i _ Hok Hs Hi) as [_ [_ _ Hdum Hreal]]. unfold target_pre in Hin.
  destruct (it_is_dummy i); [destruct (Hdum eq_refl) as [_ En]|destruct (Hreal eq_refl) as [En _]]; eexists _, _; (split; [by (left + right)|split; [exact Hin|]]);
    apply hash_eq; try done; apply hash_felts_good.
Qed.
Lemma padding_tag q : padding_nullifier q = dfelts (hash_felts NF_BATCH_PADDING [q]).
Proof. unfold padding_nullifier, hash_no_pad, hash_felts, felts_pre. cbn [concat]. by rewrite app_nil_r. Qed.
Lemma tag_range t : t = domain.NF ∨ t = domain.NF_DUMMY ∨ t = NF_BATCH_PADDING → 0 ≤ t < GOLDILOCKS_P.
Proof. unfold GOLDILOCKS_P, domain.NF, domain.NF_DUMMY, NF_BATCH_PADDING. lia. Qed.
Lemma pair_among (Q : list (list felt)) x y : x ∈ Q → y ∈ Q → collides [x; y] → collides Q.
Proof. intros Hx Hy. apply collides_mono. intros z [->|[->|[]%elem_of_nil]%elem_of_cons]%elem_of_cons; done. Qed.
Lemma emit_inj Q o o' : (∀ d, Pub d ∈ [o; o'] → leaf_tagged Q d) → (∀ q, Pad q ∈ [o; o'] → slot_padding_pre q ∈ Q) →
  emit o = emit o' → collides Q ∨ o = o'.
Proof.
  intros Hpub Hpad E. assert (Hx : ∀ d q, leaf_tagged Q d → slot_padding_pre q ∈ Q → d = padding_nullifier q → collides Q).
  { intros d q (tag & parts & Ht & Hin & ->) Hq E'. rewrite padding_tag in E'. apply dfelts_inj in E'; [|apply hash_felts_good..].
    destruct (tags_apart _ _ _ _ E') as [Hcol|[]]; [apply tag_range; tauto|apply tag_range; tauto| |exact (pair_among Q _ _ Hin Hq Hcol)].
    unfold domain.NF, domain.NF_DUMMY, NF_BATCH_PADDING in *. lia. }
  destruct o as [d|q], o' as [d'|q']; cbn [emit] in E.
  - right. by subst.
  - left. apply (Hx d q'); [apply Hpub; by left|apply Hpad; right; by left|done].
  - left. apply (Hx d' q); [apply Hpub; right; by left|apply Hpad; by left|done].
  - rewrite !padding_tag in E. apply dfelts_inj in E; [|apply hash_felts_good..]. apply hash_felts_eq in E as [?|[_ E]];
      [left; eapply pair_among; [apply Hpad; by left|apply Hpad; right; by left|done]| |apply tag_range; tauto..].
    cbn [concat] in E. rewrite !app_nil_r in E. right. by subst.
Qed.

(** Knowledge soundness of the leaf proof: [extract] is the assignment behind
    a proof that verifies. *)
Definition leaf_extracts leaf (extract : proof → SpendTargets) : Prop :=
  ∀ p, plonky_verify leaf p = true →
    targets_ok (extract p) ∧ build_constraints (extract p) = Some tt ∧ public_inputs p = leaf_public_inputs (extract p).
Lemma leaf_proof_reads leaf extract (p : proof) : leaf_extracts leaf extract → plonky_verify leaf p = true → is_leaf (public_inputs p).
Proof.
  intros Hs Hv. destruct (Hs p Hv) as (Hok & Hb & ->). by apply leaf_slot_targets.
Qed.
Lemma concat_perm {A} (l l' : list (list A)) : l ≡ₚ l' → concat l ≡ₚ concat l'.
Proof. induction 1; cbn [concat]; [done|by f_equiv|by rewrite !app_assoc, (Permutation_app_comm x)|by etrans]. Qed.
Lemma replicate_padding_published k pis : pis_padding pis = true → concat (real_published <$> replicate k pis) = [].
Proof. intros Hp. induction k as [|k IH]; [done|]. cbn [replicate fmap list_fmap concat]. rewrite IH. unfold real_published. by rewrite Hp. Qed.

Section Batch.
Variables (leaf : verifier_data) (extract : proof → SpendTargets) (num_leaves : nat) (template : proof) (proofs slots_in : list proof) (preimages : list SlotPaddingPreimages).
Hypothesis Hsound : leaf_extracts leaf extract.
Hypothesis Htemplate : plonky_verify leaf template = true ∧ pis_padding (public_inputs template) = true.
Hypothesis Hverify : Forall (λ p, plonky_verify leaf p = true) proofs.
Hypothesis Hcount : (length proofs ≤ num_leaves)%nat.
Hypothesis Hcompat : ensure_batch_compatible (public_inputs <$> proofs) = Ok tt.
Hypothesis Hperm : slots_in ≡ₚ proofs ++ replicate (num_leaves - length proofs) template.
Hypothesis Hdrawn : length preimages = num_leaves ∧ NoDup (concat ((λ q : SlotPaddingPreimages, [q.1; q.2]) <$> preimages)).

Lemma slots_in_elem p : p ∈ slots_in → p ∈ proofs ∨ p = template.
Proof. rewrite Hperm, elem_of_app. intros [?|?%elem_of_replicate]; [by left|right; tauto]. Qed.
Lemma slots_in_verify : Forall (λ p, plonky_verify leaf p = true) slots_in.
Proof.
  apply Forall_forall. intros p [Hp| ->]%slots_in_elem; [by apply (proj1 (Forall_forall _ _) Hverify)|apply Htemplate].
Qed.
Lemma slots_in_leaves l : Forall (λ p, plonky_verify leaf p = true) l → Forall is_leaf (public_inputs <$> l).
Proof. intros Hl. apply Forall_fmap. eapply Forall_impl; [exact Hl|]. intros p Hp. by eapply leaf_proof_reads. Qed.
Lemma slots_in_length : length slots_in = num_leaves.
Proof. rewrite Hperm, length_app, length_replicate. lia. Qed.
Lemma slots_in_published : concat (real_published <$> (public_inputs <$> slots_in)) ≡ₚ concat (real_published <$> (public_inputs <$> proofs)).
Proof.
  rewrite (concat_perm _ (real_published <$> (public_inputs <$> proofs ++ replicate (num_leaves - length proofs) template))) by by rewrite Hperm.
  rewrite !fmap_app, concat_app, fmap_replicate, replicate_padding_published by apply Htemplate. by rewrite app_nil_r.
Qed.

(** What the nullifiers a batch publishes are made from: the supplied leaves'
    and the padding drawn. *)
Definition batch_queries : list (list felt) :=
  concat (leaf_nullifier_pres <$> (extract <$> proofs)) ++ (slot_padding_pre <$> concat ((λ q : SlotPaddingPreimages, [q.1; q.2]) <$> preimages)).
Lemma slots_in_distinct : collides batch_queries ∨ NoDup (concat (slot_digests <$> zip_with masked_slot (public_inputs <$> slots_in) preimages)).
Proof.
  set (ls := public_inputs <$> slots_in). set (O := concat (zip_with origins ls preimages)).
  assert (E : concat (slot_digests <$> zip_with masked_slot ls preimages) = emit <$> O).
  { unfold O. clear. generalize preimages. induction ls as [|p l IH]; intros [|q qs]; try done. cbn [zip_with fmap list_fmap concat].
    by rewrite emitted_origins, fmap_app, IH. }
  rewrite E. destruct Hdrawn as [Hlen Hnd].
  assert (HO : O ≡ₚ (Pub <$> concat (real_published <$> ls)) ++ (Pad <$> concat (zip_with drawn ls preimages))).
  { apply origins_perm. unfold ls. rewrite length_fmap, slots_in_length. done. }
  apply NoDup_emit.
  - rewrite HO. apply NoDup_app. split_and!.
    + apply NoDup_fmap; [by intros ? ? [= ->]|]. unfold ls. rewrite slots_in_published. by apply compatible_spec; [apply slots_in_leaves|].
    + intros o (d & -> & _)%list_elem_of_fmap (q & ? & _)%list_elem_of_fmap. done.
    + apply NoDup_fmap; [by intros ? ? [= ->]|]. eapply sublist_NoDup; [exact Hnd|]. apply drawn_sublist.
  - intros o o' Ho Ho' He. apply emit_inj; [|intros q Hq|done]; last first.
    { assert (HqO : Pad q ∈ O) by (apply list_elem_of_In in Hq as [<-|[<-|[]]]; done).
      rewrite HO in HqO. apply elem_of_app in HqO as [Hin|Hin]; apply list_elem_of_fmap in Hin as (x & Ex & Hin); [done|injection Ex as <-].
      unfold batch_queries. apply elem_of_app. right. apply list_elem_of_fmap_2. eapply elem_of_submseteq; [exact Hin|]. apply sublist_submseteq, drawn_sublist. }
    intros d Hd. assert (HdO : Pub d ∈ O) by (apply list_elem_of_In in Hd as [<-|[<-|[]]]; done).
    rewrite HO in HdO. apply elem_of_app in HdO as [Hin|Hin]; apply list_elem_of_fmap in Hin as (x & Ex & Hin); [injection Ex as <-|done].
    rewrite list_elem_of_In, in_concat in Hin. destruct Hin as (z & Hz & Hin). rewrite <- list_elem_of_In in Hz. rewrite <- list_elem_of_In in Hin.
    apply list_elem_of_fmap in Hz as (pis & -> & Hz). apply list_elem_of_fmap in Hz as (p & -> & Hz).
    destruct (Hsound p) as (Hok & Hb & Ep); [by apply (proj1 (Forall_forall _ _) slots_in_verify)|].
    unfold real_published in Hin. destruct (pis_padding (public_inputs p)) eqn:Hpad; [inversion Hin|]. rewrite Ep in Hin.
    destruct (published_tag (extract p) d Hok Hb Hin) as (tag & parts & Ht & Hpre & Ed). exists tag, parts. split_and!; [done| |done].
    apply slots_in_elem in Hz as [Hz| ->]; [|destruct Htemplate; congruence]. unfold batch_queries. apply elem_of_app. left.
    rewrite list_elem_of_In, in_concat. exists (leaf_nullifier_pres (extract p)). rewrite <- !list_elem_of_In. split; [|done].
    apply list_elem_of_fmap_2, list_elem_of_fmap_2, Hz.
Qed.

(** The batch the witness describes. *)
Lemma batch_of_slots : NoDup (concat (slot_digests <$> zip_with masked_slot (public_inputs <$> slots_in) preimages)) →
  ∃ b, batch_claim (public_inputs <$> slots_in) preimages b ∧ (∃ p, p ∈ proofs ∧ pis_padding (public_inputs p) = false ∧ block_hash b = bh_of (public_inputs p)).
Proof.
  intros Hnd. destruct (compatible_spec _ (slots_in_leaves proofs Hverify) Hcompat) as ((pis & Hin & Hreal) & Hag & _).
  apply list_elem_of_fmap in Hin as (p & -> & Hp). set (ls := public_inputs <$> slots_in).
  assert (Hback : ∀ q, q ∈ ls → pis_padding q = false → ∃ p', q = public_inputs p' ∧ p' ∈ proofs).
  { intros q (p' & -> & [Hp'| ->]%slots_in_elem)%list_elem_of_fmap Hq; [by exists p'|]. destruct Htemplate. congruence. }
  exists {| block_hash := bh_of (public_inputs p); block_number := bn_of (public_inputs p); slots := zip_with masked_slot ls preimages |}.
  split; [|by exists p]. constructor; cbn [slots block_hash block_number]; [done| | |done].
  - intros q Hq Hqr. destruct (Hback q Hq Hqr) as (p' & -> & Hp'). apply Hag; [apply list_elem_of_fmap; by eexists|apply list_elem_of_fmap; by eexists|done|done].
  - intros Hall. rewrite Forall_forall in Hall. rewrite Hall in Hreal; [done|]. apply list_elem_of_fmap. exists p. split; [done|]. rewrite Hperm. apply elem_of_app. by left.
Qed.
Lemma slot_present b p : batch_claim (public_inputs <$> slots_in) preimages b → p ∈ proofs → pis_padding (public_inputs p) = false → leaf_slot (public_inputs p) ∈ slots b.
Proof.
  intros [Hs _ _ _] Hp Hr. rewrite Hs. assert (Hin : public_inputs p ∈ public_inputs <$> slots_in).
  { apply list_elem_of_fmap. exists p. split; [done|]. rewrite Hperm. apply elem_of_app. by left. }
  apply list_elem_of_lookup_1 in Hin as [i Hi]. destruct (preimages !! i) as [q|] eqn:Hq.
  - eapply (list_elem_of_lookup_2 _ i). rewrite lookup_zip_with, Hi, Hq. cbn [mbind option_bind]. f_equal. by apply masked_real.
  - apply lookup_ge_None in Hq. apply lookup_lt_Some in Hi. rewrite length_fmap, slots_in_length in Hi. destruct Hdrawn. lia.
Qed.
End Batch.

(** The canonical padding leaf carries the sentinel, so a validated template
    is padding. *)
Lemma sentinel_limbs : sentinel = dfelts padding_digest.
Proof. unfold dfelts, CircuitMerkle.felts. assert (E : limbs padding_digest = PADDING_BLOCK_HASH) by (vm_compute; reflexivity). by rewrite E. Qed.
Lemma validated_template `{!HeaderCodec} leaf template : padding_block_hash = Some padding_digest →
  validate_padding_leaf_template leaf template = Ok tt → plonky_verify leaf template = true ∧ pis_padding (public_inputs template) = true.
Proof.
  unfold padding_block_hash, validate_padding_leaf_template, canonical_padding_leaf_public_inputs, padding_leaf_witness.
  intros Hs (expected & He%ok_or_Ok & E)%bind_Ok. apply bind_Ok in E as (u & ->%ensure_Ok%bool_decide_eq_true & Hv%ensure_Ok). split; [done|].
  destruct padding_header as [hd|]; [|done]. injection Hs as Hs. injection He as <-. unfold witness_public_inputs. cbn [sw_header]. rewrite Hs.
  rewrite pis_padding_spec by (rewrite length_app; change (length (dfelts padding_digest)) with 4%nat; lia). apply bool_decide_eq_true. by rewrite sentinel_limbs.
Qed.

(** C22: a batch the wallet's prover admits is provable. When [build_witness]
    accepts a set of leaf proofs, pads it with a validated template and
    shuffles it, and the padding randomness drawn is fresh (no preimage
    twice), the private-batch circuit is satisfied, unless two of the preimages
    of the nullifiers it publishes (those of the assignments behind the leaf
    proofs and the padding drawn) are a collision of the sponge; the published
    batch is for the leaves' block, is not padding,
    and holds the slot of every real leaf supplied, with its own nullifiers,
    commitments, fee and ciphertext digest. *)
Theorem admitted_batch_is_provable `{!HeaderCodec} leaf extract num_leaves template shuffle preimages proofs t
    (Hsound : leaf_extracts leaf extract) (Hsentinel : padding_block_hash = Some padding_digest)
    (Htemplate : validate_padding_leaf_template leaf template = Ok tt)
    (Hshuffle : ∀ l, shuffle l ≡ₚ l)
    (Hlen : length preimages = num_leaves) (Hfresh : NoDup (concat ((λ q : SlotPaddingPreimages, [q.1; q.2]) <$> preimages)))
    (Hw : build_witness leaf num_leaves template shuffle preimages proofs = Ok t) :
  collides (batch_queries extract proofs preimages) ∨
  ∃ b, private_batch_circuit leaf t = Some (private_batch_felts b) ∧ is_padding b = false ∧
    ∀ p, p ∈ proofs → pis_padding (public_inputs p) = false →
      leaf_slot (public_inputs p) ∈ slots b ∧ block_hash b = bh_of (public_inputs p) ∧ block_number b = bn_of (public_inputs p).
Proof.
  apply validated_template in Htemplate as [Hv Hexpected]; [|done].
  apply bind_Ok in Hw as (u1 & _ & Hw). apply bind_Ok in Hw as (u2 & Hc%ensure_Ok%Nat.leb_le & Hw).
  apply bind_Ok in Hw as (u3 & Hall & Hw). apply bind_Ok in Hw as ([] & Hcompat & [= <-]).
  assert (Hverify : Forall (λ p, plonky_verify leaf p = true) proofs).
  { destruct u3. apply all_ok_Ok in Hall. eapply Forall_impl; [exact Hall|]. intros p (? & _ & ?%ensure_Ok)%bind_Ok. done. }
  set (slots_in := shuffle _). assert (Hperm : slots_in ≡ₚ proofs ++ replicate (num_leaves - length proofs) template) by apply Hshuffle.
  destruct (slots_in_distinct leaf extract num_leaves template proofs slots_in preimages) as [?|Hnd]; [done..|by left|right].
  destruct (batch_of_slots leaf extract num_leaves template proofs slots_in preimages) as (b & Hclaim & p0 & Hp0 & Hr0 & Eb); [done..|].
  assert (Hvs : Forall (λ p, plonky_verify leaf p = true) slots_in) by (by eapply slots_in_verify).
  assert (Hl : Forall is_leaf (public_inputs <$> slots_in)) by (by eapply slots_in_leaves).
  exists b. split_and!.
  - unfold private_batch_circuit, add_recursive_verifiers. cbn [leaf_proofs padding_nullifier_preimages]. apply bind_unit. split.
    + apply forallb_forall. intros p Hp%list_elem_of_In. by apply (proj1 (Forall_forall _ _) Hvs).
    + apply private_batch_exact; [done|]. by exists b.
  - assert (Hl0 : Forall is_leaf (public_inputs <$> proofs)) by (by eapply slots_in_leaves).
    assert (Hleaf0 : is_leaf (public_inputs p0)) by (apply (proj1 (Forall_forall _ _) Hl0), list_elem_of_fmap; by eexists).
    unfold is_padding. rewrite chain_sentinel, Eb by (rewrite Eb; apply pi_digest_hash; rewrite Hleaf0; cbn; lia).
    rewrite <- pis_padding_spec by (rewrite Hleaf0; cbn; lia). done.
  - intros p Hp Hr. split; [by eapply slot_present|]. apply (bc_agree _ _ _ Hclaim); [|done]. apply list_elem_of_fmap. exists p. split; [done|]. rewrite Hperm. apply elem_of_app. by left.
Qed.

(** ** The aggregator's prover *)
Record inner_inv (n : nat) ls c : Prop := {
  ii_real : Forall (λ p, pis_padding p = false) ls;
  ii_reference : match cp_reference c with
    | None => ls = []
    | Some (h, m) => ∀ p, p ∈ ls → canonical (bh_of p) = h ∧ felt_val (bn_of p) = m
    end;
  ii_seen : cp_seen c ≡ₚ concat (inner_nullifiers n <$> ls);
  ii_nodup : NoDup (cp_seen c);
}.
Definition wide_pis pis : Prop := (5 ≤ length pis)%nat.
Lemma aggregator_sees_padding pis : wide_pis pis → bool_decide (canonical (pi_digest pis BLOCK_HASH_START) = PADDING_BLOCK_HASH) = pis_padding pis.
Proof.
  intros Hl. rewrite pis_padding_spec by (unfold wide_pis in Hl; lia). rewrite <- canonical_sentinel. fold (bh_of pis).
  apply bool_decide_ext. split; [apply canonical_inj|by intros ->].
Qed.
Lemma inner_step n ls c k pis c' : wide_pis pis → inner_inv n ls c → compatible_inner n c (k, pis) = Ok c' → inner_inv n (ls ++ [pis]) c'.
Proof.
  intros Hl [Hre Hr Hs Hn]. unfold compatible_inner. rewrite (aggregator_sees_padding pis Hl).
  intros (u & Hp%ensure_Ok%negb_true_iff & Hb)%bind_Ok. apply bind_Ok in Hb as (r & Href & Hb). apply bind_Ok in Hb as (seen & Hins & [= <-]).
  destruct (insert_all_spec _ _ _ _ Hins Hn) as [Hn' Hperm]. constructor; cbn [cp_reference cp_seen]; [by apply Forall_app; split; [|constructor]| | |done].
  - destruct r as [h m]. intros q [Hq|Hq%list_elem_of_singleton]%elem_of_app.
    + destruct (cp_reference c) as [[rh rn]|]; [|subst; by inversion Hq]. apply bind_Ok in Href as (u1 & _ & [= <- <-]). by apply Hr.
    + subst q. destruct (cp_reference c) as [[rh rn]|]; [|by injection Href as <- <-].
      apply bind_Ok in Href as (u1 & Hb1%ensure_Ok & [= <- <-]). apply andb_true_iff in Hb1 as [Hb1%bool_decide_eq_true Hb2%Z.eqb_eq]. done.
  - rewrite Hperm, fmap_app, concat_app, Hs. cbn [fmap list_fmap concat]. rewrite app_nil_r. apply Permutation_app_comm.
Qed.
Lemma inner_fold n l : ∀ ls c c', Forall (λ x : nat * list felt, wide_pis x.2) l → inner_inv n ls c → fold_result (compatible_inner n) c l = Ok c' → inner_inv n (ls ++ (snd <$> l)) c'.
Proof.
  induction l as [|[k pis] l IH]; intros ls c c' Hl Hc; cbn [fold_result]; [intros [= <-]; by rewrite app_nil_r|].
  apply Forall_cons_1 in Hl as [Hp Hl]. intros (c1 & H1' & Hf)%bind_Ok. cbn [fmap list_fmap snd].
  change (ls ++ pis :: (snd <$> l)) with (ls ++ [pis] ++ (snd <$> l)). rewrite app_assoc. eapply IH; [done|by eapply inner_step|done].
Qed.
Lemma NoDup_blocks {A} (L : list (list A)) : NoDup (concat L) → ∀ i j a b x, (i < j)%nat → L !! i = Some a → L !! j = Some b → x ∈ a → x ∉ b.
Proof.
  induction L as [|y L IH]; [done|]. cbn [concat]. intros (_ & Hd & Hl)%NoDup_app [|i] [|j] a b x Hij; cbn; try lia; [|intros; by eapply (IH Hl i j); [lia|..]].
  intros [= ->] Hj Hx Hb. apply (Hd x Hx). rewrite list_elem_of_In, in_concat. exists b. rewrite <- !list_elem_of_In. split; [by eapply list_elem_of_lookup_2|done].
Qed.
Lemma inner_compatible_spec n ls : Forall wide_pis ls → ensure_inner_batch_compatible (S n) ls = Ok tt →
  Forall (λ p, pis_padding p = false) ls ∧ (∀ p q, p ∈ ls → q ∈ ls → bh_of p = bh_of q ∧ bn_of p = bn_of q) ∧
  (∀ i j p q, (i < j)%nat → ls !! i = Some p → ls !! j = Some q → inner_key p ≠ inner_key q).
Proof.
  intros Hl (c & Hf & _)%bind_Ok. assert (H0' : inner_inv (S n) [] compat0) by (constructor; [constructor|done|done|constructor]).
  apply (inner_fold (S n) _ [] _ c) in Hf as [Hre Hr Hs Hn]; [|by apply Forall_imap_snd|done].
  cbn [app] in Hre, Hr, Hs. rewrite snd_imap in Hre, Hr, Hs. split_and!; [done| |].
  - intros p q Hp Hq. destruct (cp_reference c) as [[h m]|]; [|subst; by inversion Hp].
    destruct (Hr p Hp) as [E1 E2], (Hr q Hq) as [E3 E4]. split; [apply canonical_inj; congruence|apply felt_val_inj; congruence].
  - intros i j p q Hij Hi Hj E. rewrite Hs in Hn.
    apply (NoDup_blocks _ Hn i j (inner_nullifiers (S n) p) (inner_nullifiers (S n) q) (canonical (inner_key p)) Hij).
    + by rewrite list_lookup_fmap, Hi.
    + by rewrite list_lookup_fmap, Hj.
    + by left.
    + rewrite E. by left.
Qed.

(** A template that validates is a padding inner. *)
Lemma template_is_padding pb n template : validate_padding_private_batch_template pb n template = Ok tt →
  plonky_verify pb template = true ∧ pis_padding (public_inputs template) = true.
Proof.
  unfold validate_padding_private_batch_template. intros (u & Hl%ensure_Ok%Nat.eqb_eq & Ht)%bind_Ok.
  apply bind_Ok in Ht as (u1 & Hh%ensure_Ok & Ht). apply bind_Ok in Ht as (u2 & _ & Ht). apply bind_Ok in Ht as (u3 & _ & Hv%ensure_Ok).
  split; [done|]. rewrite <- aggregator_sees_padding; [done|]. unfold wide_pis. rewrite Hl, private_batch_pi_len_eq. lia.
Qed.
Lemma inner_batches leaf pb n (l : list proof) : leaf_sound leaf → private_sound leaf pb n → Forall (λ p, plonky_verify pb p = true) l →
  ∃ bs, public_inputs <$> l = private_batch_felts <$> bs ∧ Forall (private_batch_wf n) bs.
Proof.
  intros Hl Hp. induction 1 as [|x l Hx _ (bs & E & Hf)]; [by exists []|]. destruct (verified_private_batch leaf pb n x Hl Hp Hx) as (b & Ex & []).
  exists (b :: bs). split; [cbn; by rewrite Ex, E|by constructor].
Qed.

Lemma settleable_padded bs bt k address : Forall (λ b, is_padding b = false) bs → is_padding bt = true →
  settleable_batches {| aggregator_address := address; batches := mask_batch <$> bs ++ replicate k bt |} = bs.
Proof.
  intros Hr Ht. unfold settleable_batches. cbn [batches]. rewrite fmap_app, filter_app, fmap_replicate.
  assert (Hnil : filter (λ b, is_padding b = false) (replicate k (mask_batch bt)) = []).
  { induction k as [|k IH]; [done|]. cbn [replicate]. rewrite filter_cons_False; [done|]. change (is_padding (mask_batch bt)) with (is_padding bt). by rewrite Ht. }
  rewrite Hnil, app_nil_r. clear Hnil. induction Hr as [|b l Hb _ IH]; [done|]. cbn [fmap list_fmap]. rewrite filter_cons_True by done. by rewrite mask_batch_real, IH.
Qed.

(** A batch the aggregator admits is provable, and forwards exactly what
    it was given. When [prove_batch] accepts a set of private batches and pads
    it with a validated template, the public-batch circuit is satisfied; what
    it publishes names the aggregator, and the batches a chain settles from it
    are the supplied ones, unchanged and in order. *)
Theorem admitted_inners_are_provable leaf pb m n template proofs address t
    (Hsound : leaf_sound leaf) (Hpriv : private_sound leaf pb n) (Hn : (0 < n)%nat)
    (Htemplate : validate_padding_private_batch_template pb n template = Ok tt)
    (Hp : prove_batch pb m n template proofs address = Ok t) :
  ∃ bs q, public_inputs <$> proofs = private_batch_felts <$> bs ∧
    public_batch_circuit pb t = Some (public_batch_felts q) ∧
    aggregator_address q = dfelts address ∧ settleable_batches q = bs.
Proof.
  destruct n as [|n]; [lia|]. destruct (template_is_padding pb (S n) template Htemplate) as [Hvt Hpt].
  apply bind_Ok in Hp as ([] & Hpre & [= <-]). apply bind_Ok in Hpre as (u1 & _ & Hpre). apply bind_Ok in Hpre as (u2 & Hc%ensure_Ok%Nat.leb_le & Hpre).
  apply bind_Ok in Hpre as ([] & Hall & Hcompat). apply all_ok_Ok in Hall.
  assert (Hv : Forall (λ p, plonky_verify pb p = true) proofs).
  { eapply Forall_impl; [exact Hall|]. intros p (? & _ & ?%ensure_Ok)%bind_Ok. done. }
  destruct (inner_batches leaf pb (S n) proofs Hsound Hpriv Hv) as (bs & Ebs & Hwf).
  destruct (verified_private_batch leaf pb (S n) template Hsound Hpriv Hvt) as (bt & Ebt & [Hwt _ _]).
  assert (Hin : ∀ b, b ∈ bs → private_batch_wf (S n) b) by (intros b Hb; by apply (proj1 (Forall_forall _ _) Hwf)).
  rewrite Ebt, (padding_agrees (S n) bt Hwt) in Hpt. rewrite Ebs in Hcompat.
  destruct (inner_compatible_spec n (private_batch_felts <$> bs)) as (Hreal & Hag & Hkeys); [|done|].
  { apply Forall_fmap, Forall_forall. intros b Hb. apply (batch_felts_5 (S n)), Hin, Hb. }
  assert (Hrb : Forall (λ b, is_padding b = false) bs).
  { apply Forall_forall. intros b Hb. apply Forall_fmap in Hreal. rewrite <- (padding_agrees (S n) b (Hin b Hb)). exact (proj1 (Forall_forall _ _) Hreal b Hb). }
  set (k := (m - length proofs)%nat). set (q := {| aggregator_address := dfelts address; batches := mask_batch <$> bs ++ replicate k bt |}).
  assert (Hsplit_at : ∀ i b, (bs ++ replicate k bt) !! i = Some b → is_padding b = false → bs !! i = Some b).
  { intros i b [Hi|[_ [-> _]%lookup_replicate]]%lookup_app_Some Hr; [done|congruence]. }
  assert (Hsplit : ∀ b, b ∈ bs ++ replicate k bt → is_padding b = false → b ∈ bs).
  { intros b [i Hi]%list_elem_of_lookup_1 Hr. by eapply list_elem_of_lookup_2, Hsplit_at. }
  exists bs, q. split_and!; [done| |done|by apply settleable_padded].
  unfold public_batch_circuit, add_recursive_verifiers. cbn [private_batch_proofs pt_aggregator_address]. apply bind_unit. split.
  { apply forallb_forall. intros p Hp%list_elem_of_In. apply elem_of_app in Hp as [Hp|[-> _]%elem_of_replicate]; [by apply (proj1 (Forall_forall _ _) Hv)|done]. }
  rewrite fmap_app, fmap_replicate, Ebs, Ebt, <- fmap_replicate, <- fmap_app.
  apply (public_batch_exact n); [apply Forall_app; split; [done|by apply Forall_replicate]|]. exists q. split; [done|]. constructor; [done|done| |].
  - intros b b' Hb Hb' Hr Hr'. apply Hsplit in Hb, Hb'; [|done..].
    destruct (Hag (private_batch_felts b) (private_batch_felts b')) as [E1 E2]; [apply list_elem_of_fmap; by eexists..|].
    rewrite !(bh_of_batch (S n)) in E1 by auto. rewrite !(bn_of_batch (S n)) in E2 by auto. done.
  - intros i j b b' Hij Hi Hj Hr Hr'. apply Hsplit_at in Hi, Hj; [|done..].
    destruct (inner_key_batch n b (Hin b (list_elem_of_lookup_2 _ _ _ Hi))) as [<- _], (inner_key_batch n b' (Hin b' (list_elem_of_lookup_2 _ _ _ Hj))) as [<- _].
    by apply (Hkeys i j); [done|rewrite list_lookup_fmap, ?Hi, ?Hj..].
Qed.
End Admission.
