(* ===== verification/BatchWitnesses.v ===== *)
(** * The batch circuits, run

    A proof system of five proofs over the leaf of [LeafCircuitWitnesses]: the
    spend, the padding leaf, the private batch of both, an all-padding private
    batch, and the public batch of those two. Soundness holds of it, so the
    hypotheses of the batch theorems can hold. *)

From stdpp Require Import base option numbers list sorting gmap relations.
From S2P Require Import Prelude Crypto Layout NoteRules Verifier VerifierProps ZkTree ZkTreeProps Shielded Header CircuitMerkle NoteCore LeafCircuit LeafCircuitProps LeafCircuitTheorems LeafCircuitWitnesses BatchCircuit BatchCircuitProps BatchCircuitTheorems.
#[local] Open Scope Z_scope.

Module ToyBatch.
Import ToyLeaf.
#[local] Existing Instances leaf_poseidon leaf_poseidon_laws leaf_note_laws leaf_circuit leaf_circuit_laws leaf_header_codec leaf_header_codec_laws.

Inductive tproof := PLeaf | PPad | PBatch | PPadBatch | PPublic.
Inductive tkey := VLeaf | VBatch | VPublic.

Definition fresh (k : Z) : list elem := [red k; red 1; red 2; red 3].
Definition draws (k : Z) : list SlotPaddingPreimages := [(fresh k, fresh (k + 1)); (fresh (k + 2), fresh (k + 3))].
Definition leaf_pis : list elem := leaf_public_inputs leaf.
Definition pad_pis : list elem := leaf_public_inputs padding_leaf.
Definition batch_run : option (list elem) := build_private_batch_constraints [leaf_pis; pad_pis] (draws 30).
Definition pad_batch_run : option (list elem) := build_private_batch_constraints [pad_pis; pad_pis] (draws 40).
Definition batch_pis : list elem := default [] batch_run.
Definition pad_batch_pis : list elem := default [] pad_batch_run.
Definition aggregator : Hash256 := word 50.
Definition agg_felts : list elem := dfelts (H := leaf_poseidon) aggregator.
Definition public_run : option (list elem) := build_public_batch_constraints [batch_pis; pad_batch_pis] agg_felts.
Definition public_pis : list elem := default [] public_run.

Definition pis_of (p : tproof) : list elem :=
  match p with PLeaf => leaf_pis | PPad => pad_pis | PBatch => batch_pis | PPadBatch => pad_batch_pis | PPublic => public_pis end.
Definition verifies (v : tkey) (p : tproof) : bool :=
  match v, p with VLeaf, (PLeaf | PPad) | VBatch, (PBatch | PPadBatch) | VPublic, PPublic => true | _, _ => false end.
Definition byte_of (p : tproof) : Z := match p with PLeaf => 0 | PPad => 1 | PBatch => 2 | PPadBatch => 3 | PPublic => 4 end.
#[export] Instance toy_plonky : PlonkyOps (@felt leaf_poseidon) := {|
  proof := tproof; common_data := unit; verifier_data := tkey; common _ := tt;
  proof_from_bytes bs _ := match bs with [0] => Some PLeaf | [1] => Some PPad | [2] => Some PBatch | [3] => Some PPadBatch | [4] => Some PPublic | _ => None end;
  proof_to_bytes p := [byte_of p];
  public_inputs := pis_of;
  plonky_verify := verifies;
|}.

Definition private_targets (ls : list tproof) (qs : list SlotPaddingPreimages) : PrivateBatchTargets (H1 := toy_plonky) :=
  @Build_PrivateBatchTargets leaf_poseidon toy_plonky ls qs.
Definition public_targets (ls : list tproof) (address : list elem) : PublicBatchTargets (H1 := toy_plonky) :=
  @Build_PublicBatchTargets leaf_poseidon toy_plonky ls address.

(** ** Soundness *)
Lemma batch_run_ok : build_private_batch_constraints [leaf_pis; pad_pis] (draws 30) = Some batch_pis.
Proof. unfold batch_pis, batch_run. apply some_default. vm_compute. reflexivity. Qed.
Lemma pad_batch_run_ok : build_private_batch_constraints [pad_pis; pad_pis] (draws 40) = Some pad_batch_pis.
Proof. unfold pad_batch_pis, pad_batch_run. apply some_default. vm_compute. reflexivity. Qed.
Lemma public_run_ok : build_public_batch_constraints [batch_pis; pad_batch_pis] agg_felts = Some public_pis.
Proof. unfold public_pis, public_run. apply some_default. vm_compute. reflexivity. Qed.
Definition toy_extract (p : tproof) : SpendTargets := match p with PLeaf => leaf | _ => padding_leaf end.
Lemma toy_leaf_extracts : leaf_extracts VLeaf toy_extract.
Proof.
  intros [| | | |] Hv; try discriminate.
  - split; [exact leaf_ok|split; [exact leaf_satisfied|reflexivity]].
  - split; [exact padding_ok|split; [exact padding_satisfied|reflexivity]].
Qed.
Lemma toy_leaf_sound : leaf_sound VLeaf.
Proof. intros p Hv. exists (toy_extract p). exact (toy_leaf_extracts p Hv). Qed.
Lemma private_of_run (ls : list tproof) (qs : list (@SlotPaddingPreimages leaf_poseidon)) (out : list elem) : forallb (verifies VLeaf) ls = true → build_private_batch_constraints (pis_of <$> ls) qs = Some out →
  private_batch_circuit VLeaf (private_targets ls qs) = Some out.
Proof. intros Hv Hb. unfold private_batch_circuit. apply bind_unit. split; [exact Hv|exact Hb]. Qed.
Lemma public_of_run (ls : list tproof) (address out : list elem) : forallb (verifies VBatch) ls = true → build_public_batch_constraints (pis_of <$> ls) address = Some out →
  public_batch_circuit VBatch (public_targets ls address) = Some out.
Proof. intros Hv Hb. unfold public_batch_circuit. apply bind_unit. split; [exact Hv|exact Hb]. Qed.
Lemma toy_private_sound : private_sound VLeaf VBatch 2.
Proof.
  intros [| | | |] Hv; try discriminate.
  - exists (private_targets [PLeaf; PPad] (draws 30)). split; [reflexivity|split; [reflexivity|]]. apply private_of_run; [reflexivity|]. cbn [fmap list_fmap public_inputs toy_plonky pis_of]. exact batch_run_ok.
  - exists (private_targets [PPad; PPad] (draws 40)). split; [reflexivity|split; [reflexivity|]]. apply private_of_run; [reflexivity|]. cbn [fmap list_fmap public_inputs toy_plonky pis_of]. exact pad_batch_run_ok.
Qed.
Lemma toy_public_sound : public_sound VBatch VPublic 2.
Proof.
  intros [| | | |] Hv; try discriminate.
  exists (public_targets [PBatch; PPadBatch] agg_felts). split; [reflexivity|split; [reflexivity|]]. apply public_of_run; [reflexivity|]. cbn [fmap list_fmap public_inputs toy_plonky pis_of]. exact public_run_ok.
Qed.

(** ** What the chain accepts *)
Definition cfg : Config QneroPrivateBatchVerifier QneroPublicBatchVerifier := {|
  BlockHashWindow := 256; MinLeafFee := 1; CiphertextBytesPerFeeQuantum := 1; FeeBurnRate := 0; MaxCiphertextBytes := 4096;
  CiphertextRetentionBlocks := 256; MaxOutputsPerBlock := 100;
  private_batch_verifier := Some {| prv_circuit_data := VBatch; prv_num_leaves := 2 |};
  public_batch_verifier := Some {| pub_circuit_data := VPublic; pub_num_inner := 2; pub_num_leaves := 2 |} |}.
Lemma toy_sound : circuits_sound cfg VLeaf.
Proof.
  constructor; [exact toy_leaf_sound| |].
  - intros v Hv. injection Hv as <-. exact toy_private_sound.
  - intros v Hv. injection Hv as <-. exists VBatch. split; [exact toy_private_sound|exact toy_public_sound].
Qed.
Definition bundle : SettlementBundle := match validate_public_batch (F := elem) (H3 := circuit_field (H := leaf_poseidon)) (H4 := toy_plonky) cfg [4] with Ok b => b | Err _ => {| segments := [] |} end.
Lemma ok_match {E A} (d : A) (r : result E A) : is_ok r = true → r = Ok (match r with Ok a => a | Err _ => d end).
Proof. by destruct r. Qed.
Lemma bundle_accepted : accepts cfg [4] bundle.
Proof. right. unfold bundle. apply ok_match. vm_compute. reflexivity. Qed.
Definition seg : Segment := default {| sg_block_hash := []; sg_block_number := 0; sg_slots := [] |} (head (segments bundle)).
Lemma head_elem {A} (d : A) (l : list A) : (0 <? length l)%nat = true → default d (head l) ∈ l.
Proof. destruct l; [done|]. intros _. by left. Qed.
Lemma seg_in : seg ∈ segments bundle.
Proof. apply head_elem. vm_compute. reflexivity. Qed.
Lemma seg_block : sg_block_hash seg = header_hash block.
Proof. vm_compute. reflexivity. Qed.

Lemma accepted_slots_spend_settled_notes_witness : length (sg_slots seg) = 1%nat ∧ NoDup (concat (slot_nullifiers <$> sg_slots seg)) ∧
  ∀ slot, slot ∈ sg_slots seg → ∃ s i nf, settles s slot ∧ spends s i nf ∧ it_is_dummy i = false ∧ nf ∈ slot_nullifiers slot ∧
    (broken_on (leaf_queries s tree openings block) ∨ ∃ j, 0 ≤ j < settled tree ∧ Leaves tree !! j = Some (note_commitment (input_opening i))).
Proof.
  split; [vm_compute; reflexivity|].
  destruct (accepted_slots_spend_settled_notes cfg VLeaf [4] bundle seg tree openings block toy_sound bundle_accepted seg_in tree_reachable tree_commitments block_ok eq_refl seg_block) as [Hnd Hs].
  split; [exact Hnd|]. intros slot Hslot. destruct (Hs slot Hslot) as (s & _ & Hset & _ & (i & nf & Hsp & Hreal) & Hnf & Hor).
  exists s, i, nf. split_and!; [exact Hset|exact Hsp|exact Hreal|exact (Hnf i nf Hsp)|]. destruct Hor as [Hb|Hin]; [left; exact Hb|right; exact (Hin i nf Hsp Hreal)].
Defined.

Lemma leaf_wide : Forall is_leaf [leaf_pis; pad_pis].
Proof. constructor; [exact (proj1 (leaf_slot_targets leaf leaf_ok))|]. constructor; [exact (proj1 (leaf_slot_targets padding_leaf padding_ok))|constructor]. Qed.
Lemma batch_circuits_are_exact_witness : ∃ b, batch_pis = private_batch_felts b ∧ batch_claim [leaf_pis; pad_pis] (draws 30) b.
Proof.
  exact (proj1 (proj1 (batch_circuits_are_exact [leaf_pis; pad_pis] (draws 30) batch_pis 0 [] [] [] leaf_wide (Forall_nil_2 _))) batch_run_ok).
Defined.

(** ** What the provers admit *)
Definition admitted : PrivateBatchTargets := (private_targets [PPad; PLeaf] (draws 30)).
Lemma rev_perm (l : list tproof) : rev l ≡ₚ l.
Proof. symmetry. apply Permutation_rev. Qed.
Lemma admitted_ok : build_witness VLeaf 2 PPad (@rev tproof) (draws 30) [PLeaf] = Ok admitted.
Proof.
  assert (Ea : all_ok (@admit_leaf leaf_poseidon toy_plonky VLeaf) [PLeaf] = Ok tt) by (vm_compute; reflexivity).
  unfold build_witness. cbn [length Nat.eqb negb ensure mbind result_bind Nat.leb]. rewrite Ea. cbn [mbind result_bind].
  match goal with |- context [ensure_batch_compatible ?l] => assert (Ec : ensure_batch_compatible l = Ok tt) by (vm_compute; reflexivity); rewrite Ec end.
  reflexivity.
Qed.
Lemma draws_fresh : NoDup (concat ((λ q : SlotPaddingPreimages, [q.1; q.2]) <$> draws 30)).
Proof. apply (bool_decide_unpack _). vm_compute. exact I. Qed.
Lemma pad_template_ok : validate_padding_leaf_template VLeaf PPad = Ok tt.
Proof. vm_compute. reflexivity. Qed.
Lemma batch_apart : ¬ collides (batch_queries (PlonkyOps0 := toy_plonky) toy_extract [PLeaf] (draws 30)).
Proof. apply no_collision, (bool_decide_unpack _). vm_compute. exact I. Qed.
Lemma admitted_batch_is_provable_witness : ∃ b, private_batch_circuit (H1 := toy_plonky) VLeaf admitted = Some (private_batch_felts b).
Proof.
  destruct (admitted_batch_is_provable (PlonkyOps0 := toy_plonky) VLeaf toy_extract 2 PPad (@rev tproof) (draws 30) [PLeaf] admitted toy_leaf_extracts
    padding_sentinel pad_template_ok rev_perm eq_refl draws_fresh admitted_ok) as [Hc|(b & Hb & _)]; [destruct (batch_apart Hc)|exists b; exact Hb].
Defined.

Lemma padding_template_ok : validate_padding_private_batch_template VBatch 2 PPadBatch = Ok tt.
Proof. vm_compute. reflexivity. Qed.
Definition aggregated : PublicBatchTargets := (public_targets [PBatch; PPadBatch] agg_felts).
Lemma aggregated_ok : prove_batch VBatch 2 2 PPadBatch [PBatch] aggregator = Ok aggregated.
Proof.
  assert (E : preflight VBatch 2 2 [PBatch] = Ok tt) by (vm_compute; reflexivity). unfold prove_batch. rewrite E. reflexivity.
Qed.
Lemma admitted_inners_are_provable_witness :
  ∃ bs q, pis_of <$> [PBatch] = private_batch_felts <$> bs ∧ public_batch_circuit (H1 := toy_plonky) VBatch aggregated = Some (public_batch_felts q) ∧
    aggregator_address q = agg_felts ∧ settleable_batches q = bs.
Proof.
  exact (admitted_inners_are_provable (PlonkyOps0 := toy_plonky) VLeaf VBatch 2 2 PPadBatch [PBatch] aggregator aggregated toy_leaf_sound toy_private_sound
    (Nat.lt_0_succ 1) padding_template_ok aggregated_ok).
Defined.
End ToyBatch.
