(* ===== verification/NoteCipher.v ===== *)
(** * Note encryption

    [crates/qnero-pqcrypto] ([note_encryption.rs], [ml_kem.rs],
    [deterministic.rs]) and [crates/qnero-notes] ([encrypt.rs],
    [address.rs]): the key pair under a seed, the encapsulation, the two AEAD
    payloads, the wire format and what a viewing key makes of one. SHA-256,
    ML-KEM-1024 and ChaCha20-Poly1305 are the class [NoteCrypto]. *)

From stdpp Require Import base option list numbers.
From S2P Require Import Prelude Crypto NoteRules CircuitMerkle NoteCore WalletText.
#[local] Open Scope Z_scope.

Definition ML_KEM_PUBLIC_KEY_LEN : nat := 1568.
Definition ML_KEM_CIPHERTEXT_LEN : nat := 1568.
Definition AEAD_KEY_SIZE : nat := 32.
Definition AEAD_NONCE_SIZE : nat := 12.

Class NoteCrypto := {
  sha256 : list Z → list Z;
  (** [DecapsulationKey::from_seed], its [encapsulation_key], the check of
      [EncapsulationKey::new], [encapsulate_deterministic], [decapsulate]. *)
  ml_kem_from_seed : list Z → list Z;
  ml_kem_ek : list Z → list Z;
  ml_kem_ek_valid : list Z → bool;
  ml_kem_encapsulate : list Z → list Z → list Z * list Z;
  ml_kem_decapsulate : list Z → list Z → list Z;
  (** ChaCha20-Poly1305: key, nonce, associated data, message. *)
  aead_encrypt : list Z → list Z → list Z → list Z → option (list Z);
  aead_decrypt : list Z → list Z → list Z → list Z → option (list Z);
}.
(** FIPS 203's correctness and sizes, and RFC 8439's. *)
Class NoteCryptoLaws `{NoteCrypto} := {
  sha256_length x : length (sha256 x) = 32%nat;
  ml_kem_correct seed m :
    let dk := ml_kem_from_seed seed in
    ml_kem_decapsulate dk (ml_kem_encapsulate (ml_kem_ek dk) m).1 = (ml_kem_encapsulate (ml_kem_ek dk) m).2;
  ml_kem_ct_bytes ek m :
    length (ml_kem_encapsulate ek m).1 = ML_KEM_CIPHERTEXT_LEN ∧ Forall is_byte (ml_kem_encapsulate ek m).1;
  ml_kem_ek_ok seed :
    length (ml_kem_ek (ml_kem_from_seed seed)) = ML_KEM_PUBLIC_KEY_LEN ∧ ml_kem_ek_valid (ml_kem_ek (ml_kem_from_seed seed)) = true;
  aead_correct k n aad m c : Forall is_byte m → aead_encrypt k n aad m = Some c → aead_decrypt k n aad c = Some m;
  aead_length k n aad m c : aead_encrypt k n aad m = Some c → length c = (length m + 16)%nat ∧ Forall is_byte c;
  aead_decrypt_bytes k n aad c m : aead_decrypt k n aad c = Some m → Forall is_byte m;
  aead_total k n aad m : Z.of_nat (length m) ≤ 2 ^ 38 - 64 → is_Some (aead_encrypt k n aad m);
}.

Inductive CryptoError := InvalidLength (expected actual : nat) | InvalidKey | EncryptionFailed | DecryptionFailed.
Inductive NotesError := NotOurs | CommitmentMismatch | BadAddress | Crypto (e : CryptoError).

Record NoteCiphertext := {
  nc_version : Z;
  nc_crypto_suite : Z;
  nc_diversifier_index : Z;
  nc_kem_ciphertext : list Z;
  nc_note_payload : list Z;
  nc_memo_payload : list Z;
}.
Record NotePlaintext := { np_value : Z; np_asset_id : Z; np_rho : Hash256; np_r : Hash256; np_memo : list Z }.
Record NotePayload := { py_value : Z; py_asset_id : Z; py_rho : Hash256; py_r : Hash256; py_pk_recipient : Hash256 }.

Definition PAYLOAD_LEN : nat := 8 + 8 + 32 + 32 + 32.
Definition payload_to_bytes (p : NotePayload) : list Z :=
  le_bytes 8 (py_value p) ++ le_bytes 8 (py_asset_id p) ++ py_rho p ++ py_r p ++ py_pk_recipient p.
Definition payload_from_bytes (bytes : list Z) : result CryptoError NotePayload :=
  _ ← ensure (length bytes =? PAYLOAD_LEN)%nat (InvalidLength PAYLOAD_LEN (length bytes));
  Ok {| py_value := le_val (take 8 bytes); py_asset_id := le_val (take 8 (drop 8 bytes)); py_rho := take 32 (drop 16 bytes);
        py_r := take 32 (drop 48 bytes); py_pk_recipient := take 32 (drop 80 bytes) |}.

(** ** The wire format *)
Definition nc_to_bytes (c : NoteCiphertext) : list Z :=
  [nc_version c] ++ le_bytes 2 (nc_crypto_suite c) ++ le_bytes 4 (nc_diversifier_index c)
    ++ le_bytes 4 (Z.of_nat (length (nc_kem_ciphertext c))) ++ nc_kem_ciphertext c
    ++ le_bytes 4 (Z.of_nat (length (nc_note_payload c))) ++ nc_note_payload c
    ++ le_bytes 4 (Z.of_nat (length (nc_memo_payload c))) ++ nc_memo_payload c.

(** The bytes at the offset, which moves past them. *)
Definition take_bytes (bytes : list Z) (offset len : nat) : result CryptoError (list Z * nat) :=
  let end_ := (offset + len)%nat in
  _ ← ensure (negb (length bytes <? end_)%nat) (InvalidLength end_ (length bytes));
  Ok (take len (drop offset bytes), end_).
Definition read_le (width : nat) (bytes : list Z) (offset : nat) : result CryptoError (Z * nat) :=
  '(raw, offset) ← take_bytes bytes offset width; Ok (le_val raw, offset).

Definition nc_from_bytes (bytes : list Z) : result CryptoError NoteCiphertext :=
  '(version, offset) ← read_le 1 bytes 0;
  '(suite, offset) ← read_le 2 bytes offset;
  '(index, offset) ← read_le 4 bytes offset;
  '(kem_len, offset) ← read_le 4 bytes offset;
  _ ← ensure (Z.to_nat kem_len =? ML_KEM_CIPHERTEXT_LEN)%nat (InvalidLength ML_KEM_CIPHERTEXT_LEN (Z.to_nat kem_len));
  '(kem, offset) ← take_bytes bytes offset (Z.to_nat kem_len);
  '(note_len, offset) ← read_le 4 bytes offset;
  '(note, offset) ← take_bytes bytes offset (Z.to_nat note_len);
  '(memo_len, offset) ← read_le 4 bytes offset;
  '(memo, offset) ← take_bytes bytes offset (Z.to_nat memo_len);
  _ ← ensure (length bytes =? offset)%nat (InvalidLength offset (length bytes));
  Ok {| nc_version := version; nc_crypto_suite := suite; nc_diversifier_index := index; nc_kem_ciphertext := kem;
        nc_note_payload := note; nc_memo_payload := memo |}.

Definition build_aad (version crypto_suite index : Z) : list Z := [version] ++ le_bytes 2 crypto_suite ++ le_bytes 4 index.

(** [b"note-aead"], [b"memo-aead"], [b"wallet-aead"] and the KEM labels. *)
Definition NOTE_AEAD : list Z := [110; 111; 116; 101; 45; 97; 101; 97; 100].
Definition MEMO_AEAD : list Z := [109; 101; 109; 111; 45; 97; 101; 97; 100].
Definition WALLET_AEAD : list Z := [119; 97; 108; 108; 101; 116; 45; 97; 101; 97; 100].
Definition ML_KEM_D : list Z := [109; 108; 45; 107; 101; 109; 45; 49; 48; 50; 52; 45; 100].
Definition ML_KEM_Z : list Z := [109; 108; 45; 107; 101; 109; 45; 49; 48; 50; 52; 45; 122].
Definition ML_KEM_ENC : list Z :=
  [109; 108; 45; 107; 101; 109; 45; 49; 48; 50; 52; 45; 101; 110; 99; 97; 112; 115; 117; 108; 97; 116; 101].

Definition CIPHERTEXT_VERSION : Z := 1.
Definition CRYPTO_SUITE : Z := 1.
Definition DIVERSIFIER_INDEX : Z := 0.
Definition ASSET_ID : Z := 0.

Section Cipher.
Context `{NoteCrypto}.

(** ** Key pairs and key material *)
(** The loop runs at most once per 32 bytes, so once per byte is enough. *)
Fixpoint expand_loop (fuel : nat) (domain : list Z) (counter : Z) (input : list Z) (length_ : nat) (output : list Z) : list Z :=
  match fuel with
  | O => output
  | S fuel =>
      if (length output <? length_)%nat then
        let digest := sha256 (domain ++ rev (le_bytes 4 counter) ++ input) in
        let n := Nat.min (length_ - length output) (length digest) in
        expand_loop fuel domain (counter + 1) input length_ (output ++ take n digest)
      else output
  end.
Definition expand_to_length (domain input : list Z) (length_ : nat) : list Z := expand_loop length_ domain 0 input length_ [].

Definition generate_deterministic (seed : list Z) : list Z := ml_kem_from_seed (sha256 (ML_KEM_D ++ seed) ++ sha256 (ML_KEM_Z ++ seed)).
Definition encapsulate (ek seed : list Z) : list Z * list Z := ml_kem_encapsulate ek (sha256 (ML_KEM_ENC ++ seed)).

Definition derive_aead_material (shared label : list Z) (crypto_suite : Z) : list Z * list Z :=
  let bytes := expand_to_length WALLET_AEAD (shared ++ label ++ le_bytes 2 crypto_suite) (AEAD_KEY_SIZE + AEAD_NONCE_SIZE) in
  (take AEAD_KEY_SIZE bytes, drop AEAD_KEY_SIZE bytes).
Definition encrypt_payload (shared label : list Z) (suite : Z) (data aad : list Z) : result CryptoError (list Z) :=
  let '(key, nonce) := derive_aead_material shared label suite in ok_or (aead_encrypt key nonce aad data) EncryptionFailed.
Definition decrypt_payload (shared label : list Z) (suite : Z) (data aad : list Z) : result CryptoError (list Z) :=
  let '(key, nonce) := derive_aead_material shared label suite in ok_or (aead_decrypt key nonce aad data) DecryptionFailed.

(** ** [NoteCiphertext::encrypt] and [decrypt] *)
Definition nc_encrypt (ek : list Z) (pk_recipient : Hash256) (version suite index : Z) (note : NotePlaintext) (kem_randomness : list Z) :
    result CryptoError NoteCiphertext :=
  let '(kem_ct, shared) := encapsulate ek kem_randomness in
  let payload := {| py_value := np_value note; py_asset_id := np_asset_id note; py_rho := np_rho note; py_r := np_r note;
                    py_pk_recipient := pk_recipient |} in
  let aad := build_aad version suite index in
  note_payload ← encrypt_payload shared NOTE_AEAD suite (payload_to_bytes payload) aad;
  memo_payload ← encrypt_payload shared MEMO_AEAD suite (np_memo note) aad;
  Ok {| nc_version := version; nc_crypto_suite := suite; nc_diversifier_index := index; nc_kem_ciphertext := kem_ct;
        nc_note_payload := note_payload; nc_memo_payload := memo_payload |}.

Definition nc_decrypt (c : NoteCiphertext) (sk_enc : list Z) (expected_pk : Hash256) (expected_index : Z) : result CryptoError NotePlaintext :=
  _ ← ensure (nc_diversifier_index c =? expected_index) DecryptionFailed;
  _ ← ensure (length (nc_kem_ciphertext c) =? ML_KEM_CIPHERTEXT_LEN)%nat (InvalidLength ML_KEM_CIPHERTEXT_LEN (length (nc_kem_ciphertext c)));
  let shared := ml_kem_decapsulate sk_enc (nc_kem_ciphertext c) in
  let aad := build_aad (nc_version c) (nc_crypto_suite c) (nc_diversifier_index c) in
  payload_bytes ← decrypt_payload shared NOTE_AEAD (nc_crypto_suite c) (nc_note_payload c) aad;
  payload ← payload_from_bytes payload_bytes;
  _ ← ensure (bool_decide (py_pk_recipient payload = expected_pk)) DecryptionFailed;
  memo ← decrypt_payload shared MEMO_AEAD (nc_crypto_suite c) (nc_memo_payload c) aad;
  Ok {| np_value := py_value payload; np_asset_id := py_asset_id payload; np_rho := py_rho payload; np_r := py_r payload; np_memo := memo |}.
End Cipher.

Section Encrypt.
Context `{NoteCrypto, PoseidonOps}.

(** ** [encrypt.rs]: what a viewing key makes of a ciphertext *)
Record Received := { rv_note : Note; rv_memo : list Z; rv_commitment : Hash256 }.

Definition encrypt_note (ek : list Z) (note : Note) (memo kem_randomness : list Z) : result NotesError NoteCiphertext :=
  map_err Crypto (nc_encrypt ek (nt_pk note) CIPHERTEXT_VERSION CRYPTO_SUITE DIVERSIFIER_INDEX
    {| np_value := nt_value note; np_asset_id := ASSET_ID; np_rho := nt_rho note; np_r := nt_r note; np_memo := memo |} kem_randomness).

(** The viewing key is the wallet's [pk] and its decapsulation key. *)
Definition decrypt_note (pk : Hash256) (dk : list Z) (c : NoteCiphertext) : result NotesError Received :=
  _ ← ensure ((nc_version c =? CIPHERTEXT_VERSION) && (nc_crypto_suite c =? CRYPTO_SUITE)) NotOurs;
  pt ← map_err (λ _, NotOurs) (nc_decrypt c dk pk DIVERSIFIER_INDEX);
  _ ← ensure (np_asset_id pt =? ASSET_ID) NotOurs;
  rho ← map_err (λ _, NotOurs) (digest_from_slice (np_rho pt));
  r ← map_err (λ _, NotOurs) (digest_from_slice (np_r pt));
  note ← map_err (λ _, NotOurs) (note_new pk (np_value pt) rho r);
  Ok {| rv_note := note; rv_memo := np_memo pt; rv_commitment := note_commitment note |}.

Definition try_receive (pk : Hash256) (dk : list Z) (c : NoteCiphertext) (on_chain : Hash256) : result NotesError Received :=
  received ← decrypt_note pk dk c;
  _ ← ensure (bool_decide (rv_commitment received = on_chain)) CommitmentMismatch;
  Ok received.
Definition try_receive_coinbase (pk : Hash256) (dk : list Z) (c : NoteCiphertext) (value : Z) (on_chain : Hash256) : result NotesError Received :=
  received ← decrypt_note pk dk c;
  note ← map_err (λ _, NotOurs) (note_new pk value (nt_rho (rv_note received)) (nt_r (rv_note received)));
  _ ← ensure (bool_decide (note_commitment note = on_chain)) CommitmentMismatch;
  Ok {| rv_note := note; rv_memo := rv_memo received; rv_commitment := note_commitment note |}.

(** ** [address.rs] *)
Record Address := { ad_version : Z; ad_pk : Hash256; ad_ek : list Z }.
Definition ADDRESS_VERSION : Z := 1.
Definition ADDRESS_LEN : nat := 1 + 32 + ML_KEM_PUBLIC_KEY_LEN.
Definition address_to_bytes (a : Address) : list Z := [ad_version a] ++ ad_pk a ++ ad_ek a.
Definition public_key_from_bytes (bytes : list Z) : result CryptoError (list Z) :=
  _ ← ensure (length bytes =? ML_KEM_PUBLIC_KEY_LEN)%nat (InvalidLength ML_KEM_PUBLIC_KEY_LEN (length bytes));
  _ ← ensure (ml_kem_ek_valid bytes) InvalidKey;
  Ok bytes.
Definition address_from_bytes (bytes : list Z) : result NotesError Address :=
  _ ← ensure (length bytes =? ADDRESS_LEN)%nat BadAddress;
  let version := nth 0 bytes 0 in
  _ ← ensure (version =? ADDRESS_VERSION) BadAddress;
  pk ← map_err (λ _, BadAddress) (digest_from_slice (take 32 (drop 1 bytes)));
  ek ← map_err (λ _, BadAddress) (public_key_from_bytes (drop 33 bytes));
  Ok {| ad_version := version; ad_pk := pk; ad_ek := ek |}.

(** The keys of a seed. *)
Definition sk_kem (sk : Hash256) : list Z := generate_deterministic (sk_kem_seed sk).
Definition sk_address (sk : Hash256) : Address := {| ad_version := ADDRESS_VERSION; ad_pk := sk_pk sk; ad_ek := ml_kem_ek (sk_kem sk) |}.
End Encrypt.
