(* ===== verification/NoteCipherProps.v ===== *)
(** * Properties of the note encryption

    The wire format reads back exactly, and a ciphertext opens for the address
    it was made for, as the note that was put in it. *)

From stdpp Require Import base option list numbers.
From S2P Require Import Prelude Crypto NoteRules CircuitMerkle NoteCore WalletText NoteCipher.
#[local] Open Scope Z_scope.

(** ** The cursor *)
(** At the offset, [rest] is what is left to read. *)
Definition left_at (bytes : list Z) (offset : nat) (rest : list Z) : Prop := (offset ≤ length bytes)%nat ∧ drop offset bytes = rest.

Lemma take_bytes_spec bytes offset rest len x o :
  left_at bytes offset rest →
  take_bytes bytes offset len = Ok (x, o) ↔ length x = len ∧ o = (offset + len)%nat ∧ ∃ rest', rest = x ++ rest' ∧ left_at bytes o rest'.
Proof.
  intros [Ho Hr]. unfold take_bytes. rewrite bind_Ok. split.
  - intros ([] & He%ensure_Ok & [= <- <-]). apply negb_true_iff, Nat.ltb_ge in He. rewrite length_take, length_drop.
    split_and!; [lia|done|]. exists (drop len rest). rewrite <- Hr. split; [by rewrite take_drop|]. split; [done|]. by rewrite drop_drop.
  - intros (Hl & -> & rest' & E & [Hb Hd]). exists tt. split; [apply ensure_Ok, negb_true_iff, Nat.ltb_ge; done|].
    rewrite Hr, E, take_app_length' by done. done.
Qed.

Lemma read_le_spec w bytes offset rest v o :
  left_at bytes offset rest → Forall is_byte bytes →
  read_le w bytes offset = Ok (v, o) ↔ 0 ≤ v < 256 ^ Z.of_nat w ∧ o = (offset + w)%nat ∧ ∃ rest', rest = le_bytes w v ++ rest' ∧ left_at bytes o rest'.
Proof.
  intros Hat Hb. unfold read_le. rewrite bind_Ok. split.
  - intros ([raw o'] & Ht & [= <- <-]). apply (take_bytes_spec _ _ _ _ _ _ Hat) in Ht as (Hl & -> & rest' & E & Hat').
    assert (Hraw : Forall is_byte raw).
    { destruct Hat as [_ Hd]. rewrite E in Hd. apply (Forall_drop _ offset) in Hb. rewrite Hd in Hb. by apply Forall_app in Hb as [? _]. }
    split_and!; [by apply le_val_bound|rewrite <- Hl; by apply le_val_bound|done|]. exists rest'. by rewrite le_bytes_le_val.
  - intros (Hv & -> & rest' & E & Hat'). exists (le_bytes w v, (offset + w)%nat). split; [|by rewrite le_val_le_bytes].
    apply (take_bytes_spec _ _ _ _ _ _ Hat). split_and!; [apply length_le_bytes|done|by exists rest'].
Qed.

(** ** The wire format *)
(** A ciphertext as its types hold it. *)
Record wire_ok (c : NoteCiphertext) : Prop := {
  wo_version : 0 ≤ nc_version c < 256;
  wo_suite : in_u 16 (nc_crypto_suite c);
  wo_index : in_u 32 (nc_diversifier_index c);
  wo_kem : length (nc_kem_ciphertext c) = ML_KEM_CIPHERTEXT_LEN;
  wo_note : Z.of_nat (length (nc_note_payload c)) < 2 ^ 32;
  wo_memo : Z.of_nat (length (nc_memo_payload c)) < 2 ^ 32;
  wo_bytes : Forall is_byte (nc_kem_ciphertext c ++ nc_note_payload c ++ nc_memo_payload c);
}.

Lemma nc_to_bytes_length c :
  length (nc_to_bytes c) = (19 + length (nc_kem_ciphertext c) + length (nc_note_payload c) + length (nc_memo_payload c))%nat.
Proof. unfold nc_to_bytes. rewrite !length_app, !length_le_bytes. cbn [length]. lia. Qed.
Lemma nc_to_bytes_bytes c : wire_ok c → Forall is_byte (nc_to_bytes c).
Proof.
  intros [Hv _ _ _ _ _ Hb]. apply Forall_app in Hb as [Hk Hb]. apply Forall_app in Hb as [Hn Hm]. unfold nc_to_bytes.
  repeat (apply Forall_app; split); auto using le_bytes_are_bytes.
Qed.

(** One field at a time, in either direction. *)
Lemma byte_le v : 0 ≤ v < 256 → [v] = le_bytes 1 v.
Proof. intros Hv. unfold le_bytes. rewrite Z.mod_small by done. done. Qed.

Lemma nc_from_bytes_Ok bytes c : Forall is_byte bytes → nc_from_bytes bytes = Ok c → wire_ok c ∧ nc_to_bytes c = bytes.
Proof.
  intros Hb Hr. assert (A0 : left_at bytes 0 bytes) by (split; [lia|done]). unfold nc_from_bytes in Hr.
  apply bind_Ok in Hr as ([v o1] & F1 & Hr). apply (read_le_spec _ _ _ _ _ _ A0 Hb) in F1 as (R1 & -> & t1 & E1 & A1).
  apply bind_Ok in Hr as ([su o2] & F2 & Hr). apply (read_le_spec _ _ _ _ _ _ A1 Hb) in F2 as (R2 & -> & t2 & E2 & A2).
  apply bind_Ok in Hr as ([ix o3] & F3 & Hr). apply (read_le_spec _ _ _ _ _ _ A2 Hb) in F3 as (R3 & -> & t3 & E3 & A3).
  apply bind_Ok in Hr as ([kl o4] & F4 & Hr). apply (read_le_spec _ _ _ _ _ _ A3 Hb) in F4 as (R4 & -> & t4 & E4 & A4).
  apply bind_Ok in Hr as (u & Hkl%ensure_Ok%Nat.eqb_eq & Hr).
  apply bind_Ok in Hr as ([kem o5] & F5 & Hr). apply (take_bytes_spec _ _ _ _ _ _ A4) in F5 as (L5 & -> & t5 & E5 & A5).
  apply bind_Ok in Hr as ([nl o6] & F6 & Hr). apply (read_le_spec _ _ _ _ _ _ A5 Hb) in F6 as (R6 & -> & t6 & E6 & A6).
  apply bind_Ok in Hr as ([note o7] & F7 & Hr). apply (take_bytes_spec _ _ _ _ _ _ A6) in F7 as (L7 & -> & t7 & E7 & A7).
  apply bind_Ok in Hr as ([ml o8] & F8 & Hr). apply (read_le_spec _ _ _ _ _ _ A7 Hb) in F8 as (R8 & -> & t8 & E8 & A8).
  apply bind_Ok in Hr as ([memo o9] & F9 & Hr). apply (take_bytes_spec _ _ _ _ _ _ A8) in F9 as (L9 & -> & t9 & E9 & A9).
  apply bind_Ok in Hr as (u1 & Hend%ensure_Ok%Nat.eqb_eq & [= <-]).
  assert (t9 = []) as ->. { destruct A9 as [_ <-]. apply drop_ge. lia. }
  assert (Hbytes : bytes = le_bytes 1 v ++ le_bytes 2 su ++ le_bytes 4 ix ++ le_bytes 4 kl ++ kem ++ le_bytes 4 nl ++ note ++ le_bytes 4 ml ++ memo).
  { rewrite E1, E2, E3, E4, E5, E6, E7, E8, E9, app_nil_r. done. }
  change (256 ^ Z.of_nat 1) with 256 in R1. change (256 ^ Z.of_nat 2) with (2 ^ 16) in R2. change (256 ^ Z.of_nat 4) with (2 ^ 32) in *.
  split; [|unfold nc_to_bytes; cbn; rewrite L5, L7, L9, !Z2Nat.id, Hbytes, <- (byte_le v) by lia; done].
  rewrite Hbytes in Hb. do 4 (apply Forall_app in Hb as [_ Hb]). apply Forall_app in Hb as [Hk Hb].
  apply Forall_app in Hb as [_ Hb]. apply Forall_app in Hb as [Hn Hb]. apply Forall_app in Hb as [_ Hm].
  constructor; cbn; [done|done|done|lia|lia|lia|]. repeat (apply Forall_app; split); done.
Qed.

Lemma nc_from_bytes_to c : wire_ok c → nc_from_bytes (nc_to_bytes c) = Ok c.
Proof.
  intros Hc. pose proof (nc_to_bytes_bytes c Hc) as Hb. destruct Hc as [Hv Hs Hi Hk Hn Hm _].
  set (bytes := nc_to_bytes c) in *. assert (A0 : left_at bytes 0 bytes) by (split; [lia|done]).
  assert (Hnext : ∀ offset x rest, left_at bytes offset (x ++ rest) → left_at bytes (offset + length x) rest).
  { intros offset x rest [Ho Hd]. assert (Hl : length (drop offset bytes) = (length x + length rest)%nat) by (rewrite Hd; apply length_app).
    rewrite length_drop in Hl. split; [lia|]. rewrite <- drop_drop, Hd. by apply drop_app_length'. }
  assert (Hread : ∀ w offset v rest, left_at bytes offset (le_bytes w v ++ rest) → 0 ≤ v < 256 ^ Z.of_nat w →
    read_le w bytes offset = Ok (v, (offset + w)%nat) ∧ left_at bytes (offset + w) rest).
  { intros w offset v rest Hat Hv'. pose proof (Hnext _ _ _ Hat) as Hat'. rewrite length_le_bytes in Hat'. split; [|done].
    apply (read_le_spec _ _ _ _ _ _ Hat Hb). split_and!; [apply Hv'|apply Hv'|done|by exists rest]. }
  assert (Htake : ∀ offset x rest, left_at bytes offset (x ++ rest) →
    take_bytes bytes offset (length x) = Ok (x, (offset + length x)%nat) ∧ left_at bytes (offset + length x) rest).
  { intros offset x rest Hat. pose proof (Hnext _ _ _ Hat) as Hat'. split; [|done]. apply (take_bytes_spec _ _ _ _ _ _ Hat). split_and!; [done|done|by exists rest]. }
  unfold nc_from_bytes. change (256 ^ Z.of_nat 2) with (2 ^ 16) in *. unfold bytes at 2, nc_to_bytes in A0. rewrite (byte_le (nc_version c)) in A0 by done.
  destruct (Hread _ _ _ _ A0) as [-> A1]; [done|]. cbn [mbind result_bind]. destruct (Hread _ _ _ _ A1) as [-> A2]; [done|]. cbn [mbind result_bind].
  destruct (Hread _ _ _ _ A2) as [-> A3]; [done|]. cbn [mbind result_bind].
  destruct (Hread _ _ _ _ A3) as [-> A4]; [change (256 ^ Z.of_nat 4) with (2 ^ 32); rewrite Hk; done|]. cbn [mbind result_bind].
  rewrite !Nat2Z.id, Hk, Nat.eqb_refl. cbn [ensure mbind result_bind]. rewrite <- Hk.
  destruct (Htake _ _ _ A4) as [-> A5]. cbn [mbind result_bind].
  destruct (Hread _ _ _ _ A5) as [-> A6]; [change (256 ^ Z.of_nat 4) with (2 ^ 32); lia|]. cbn [mbind result_bind]. rewrite Nat2Z.id.
  destruct (Htake _ _ _ A6) as [-> A7]. cbn [mbind result_bind].
  destruct (Hread _ _ _ _ A7) as [-> A8]; [change (256 ^ Z.of_nat 4) with (2 ^ 32); lia|]. cbn [mbind result_bind]. rewrite Nat2Z.id.
  rewrite <- (app_nil_r (nc_memo_payload c)) in A8. destruct (Htake _ _ _ A8) as [-> [H9 E9]]. cbn [mbind result_bind].
  assert (Hl : length (drop (0 + 1 + 2 + 4 + 4 + length (nc_kem_ciphertext c) + 4 + length (nc_note_payload c) + 4 + length (nc_memo_payload c)) bytes) = 0%nat) by by rewrite E9.
  rewrite length_drop in Hl. unfold ensure. rewrite (proj2 (Nat.eqb_eq _ _)) by lia. by destruct c.
Qed.

(** The wire format is exact. Every ciphertext reads back as itself, and
    every byte string that is accepted is the serialization of the ciphertext
    it is read as: no trailing byte, no second reading, and the encapsulation
    is always of ML-KEM-1024's length. *)
Theorem ciphertexts_round_trip c bytes (Hc : wire_ok c) (Hb : Forall is_byte bytes) :
  nc_from_bytes (nc_to_bytes c) = Ok c ∧
  (∀ c', nc_from_bytes bytes = Ok c' → nc_to_bytes c' = bytes ∧ wire_ok c').
Proof. split; [by apply nc_from_bytes_to|]. intros c' Hr. by apply nc_from_bytes_Ok in Hr as [? ?]. Qed.

(** ** Opening *)
Definition payload_ok (p : NotePayload) : Prop :=
  in_u 64 (py_value p) ∧ in_u 64 (py_asset_id p) ∧ length (py_rho p) = 32%nat ∧ length (py_r p) = 32%nat ∧ length (py_pk_recipient p) = 32%nat.

Lemma payload_round_trip p : payload_ok p → length (payload_to_bytes p) = PAYLOAD_LEN ∧ payload_from_bytes (payload_to_bytes p) = Ok p.
Proof.
  intros (Hv & Ha & Hrho & Hr & Hpk). unfold payload_to_bytes, payload_from_bytes, PAYLOAD_LEN.
  assert (Hl : length (le_bytes 8 (py_value p) ++ le_bytes 8 (py_asset_id p) ++ py_rho p ++ py_r p ++ py_pk_recipient p) = 112%nat)
    by (rewrite !length_app, !length_le_bytes; lia).
  split; [exact Hl|]. rewrite Hl. cbn [ensure Nat.eqb Nat.add mbind result_bind]. f_equal.
  set (a := le_bytes 8 (py_value p)). set (b := le_bytes 8 (py_asset_id p)).
  assert (La : length a = 8%nat) by apply length_le_bytes. assert (Lb : length b = 8%nat) by apply length_le_bytes.
  set (l := a ++ b ++ _ ++ _ ++ _).
  assert (D8 : drop 8 l = b ++ py_rho p ++ py_r p ++ py_pk_recipient p) by (by apply drop_app_length').
  assert (D16 : drop 16 l = py_rho p ++ py_r p ++ py_pk_recipient p) by (change 16%nat with (8 + 8)%nat; rewrite <- drop_drop, D8; by apply drop_app_length').
  assert (D48 : drop 48 l = py_r p ++ py_pk_recipient p) by (change 48%nat with (16 + 32)%nat; rewrite <- drop_drop, D16; by apply drop_app_length').
  assert (D80 : drop 80 l = py_pk_recipient p) by (change 80%nat with (48 + 32)%nat; rewrite <- drop_drop, D48; by apply drop_app_length').
  rewrite D8, D16, D48, D80. unfold l.
  rewrite !take_app_length' by done. rewrite (take_ge (py_pk_recipient p)) by lia. unfold a, b.
  rewrite !le_val_le_bytes by (change (256 ^ Z.of_nat 8) with (2 ^ 64); done). by destruct p.
Qed.

Lemma payload_bytes p :
  is_digest (py_rho p) → is_digest (py_r p) → is_digest (py_pk_recipient p) → Forall is_byte (payload_to_bytes p).
Proof. intros [_ ?] [_ ?] [_ ?]. unfold payload_to_bytes. repeat (apply Forall_app; split); auto using le_bytes_are_bytes. Qed.

Section Opening.
Context `{NoteCrypto, PoseidonOps, !NoteCryptoLaws, !PoseidonLaws, !NoteFieldLaws}.

Lemma payload_decrypts shared label suite data aad :
  Z.of_nat (length data) ≤ 2 ^ 38 - 64 → Forall is_byte data →
  ∃ c, encrypt_payload shared label suite data aad = Ok c ∧ length c = (length data + 16)%nat ∧ Forall is_byte c ∧
    decrypt_payload shared label suite c aad = Ok data.
Proof.
  intros Hl Hd. unfold encrypt_payload, decrypt_payload. destruct (derive_aead_material shared label suite) as [key nonce].
  destruct (aead_total key nonce aad data Hl) as [c Hc]. exists c. rewrite Hc. destruct (aead_length _ _ _ _ _ Hc) as [Hlen Hb].
  split_and!; [done|done|done|]. by rewrite (aead_correct _ _ _ _ _ Hd Hc).
Qed.

(** The length of a ciphertext is its memo's and a constant. *)
Lemma encrypt_note_length ek note memo randomness c :
  length (nt_pk note) = 32%nat → length (nt_rho note) = 32%nat → length (nt_r note) = 32%nat →
  encrypt_note ek note memo randomness = Ok c → length (nc_to_bytes c) = (CIPHERTEXT_FIXED_BYTES + length memo)%nat.
Proof.
  intros Hpk Hrho Hr He. unfold encrypt_note, nc_encrypt, encapsulate in He. apply map_err_Ok in He.
  destruct (ml_kem_ct_bytes ek (sha256 (ML_KEM_ENC ++ randomness))) as [Hct _]. destruct (ml_kem_encapsulate _ _) as [kem_ct shared]. cbn [fst] in Hct.
  assert (Hlen : ∀ label data aad x, encrypt_payload shared label CRYPTO_SUITE data aad = Ok x → length x = (length data + 16)%nat).
  { intros label data aad x Hx. unfold encrypt_payload in Hx. destruct (derive_aead_material shared label CRYPTO_SUITE) as [key nonce].
    apply ok_or_Ok in Hx. by apply aead_length in Hx as [? _]. }
  apply bind_Ok in He as (np & Hn%Hlen & He). apply bind_Ok in He as (mp & Hm%Hlen & He). injection He as <-.
  rewrite nc_to_bytes_length. cbn [nc_kem_ciphertext nc_note_payload nc_memo_payload]. rewrite Hct, Hn, Hm. unfold payload_to_bytes.
  cbn [py_value py_asset_id py_rho py_r py_pk_recipient np_value np_asset_id np_rho np_r np_memo]. rewrite !length_app, !length_le_bytes, Hpk, Hrho, Hr.
  unfold ML_KEM_CIPHERTEXT_LEN, CIPHERTEXT_FIXED_BYTES. lia.
Qed.

(** The loop delivers the length it is asked for. *)
Lemma expand_length domain input len : length (expand_to_length domain input len) = len.
Proof.
  unfold expand_to_length. assert (Hgen : ∀ fuel counter out, (length out ≤ len)%nat → (len ≤ length out + fuel)%nat →
    length (expand_loop fuel domain counter input len out) = len); [|apply Hgen; cbn; lia].
  induction fuel as [|fuel IH]; intros counter out Ho Hf; cbn [expand_loop]; [lia|].
  destruct (Nat.ltb_spec (length out) len) as [Hlt|Hge]; [|lia]. apply IH; rewrite length_app, length_take, sha256_length; lia.
Qed.

(** A note encrypted to an address opens under its keys. *)
Lemma note_opens sk note memo randomness :
  note_ok note → nt_pk note = sk_pk sk → Z.of_nat (length memo) < 2 ^ 31 → Forall is_byte memo →
  ∃ c, encrypt_note (ad_ek (sk_address sk)) note memo randomness = Ok c ∧ wire_ok c ∧
    length (nc_to_bytes c) = (CIPHERTEXT_FIXED_BYTES + length memo)%nat ∧
    nc_version c = CIPHERTEXT_VERSION ∧ nc_crypto_suite c = CRYPTO_SUITE ∧
    decrypt_note (sk_pk sk) (sk_kem sk) c = Ok {| rv_note := note; rv_memo := memo; rv_commitment := note_commitment note |}.
Proof.
  intros (Hpk & Hrho & Hr & Hv) Hown Hmemo Hmb. unfold encrypt_note, nc_encrypt, encapsulate, decrypt_note. cbn [sk_address ad_ek].
  set (ek := ml_kem_ek (sk_kem sk)). set (m := sha256 (ML_KEM_ENC ++ randomness)).
  pose proof (ml_kem_correct (sha256 (ML_KEM_D ++ sk_kem_seed sk) ++ sha256 (ML_KEM_Z ++ sk_kem_seed sk)) m) as Hkem. cbn zeta in Hkem.
  fold (generate_deterministic (sk_kem_seed sk)) in Hkem. fold (sk_kem sk) in Hkem. fold ek in Hkem.
  destruct (ml_kem_ct_bytes ek m) as [Hctl Hctb]. destruct (ml_kem_encapsulate ek m) as [kem_ct shared]. cbn [fst snd] in *.
  set (payload := {| py_value := _ |}). assert (Hpok : payload_ok payload).
  { change MAX_VALUE with (2 ^ 62 - 1) in Hv. unfold payload_ok, in_u, payload, ASSET_ID; cbn [py_value py_asset_id py_rho py_r py_pk_recipient np_value np_asset_id np_rho np_r].
    split_and!; [lia|lia|lia|lia|apply Hrho|apply Hr|apply Hpk]. }
  destruct (payload_round_trip payload Hpok) as [Hplen Hpr]. set (aad := build_aad _ _ _).
  destruct (payload_decrypts shared NOTE_AEAD CRYPTO_SUITE (payload_to_bytes payload) aad) as (np & -> & Ln & Bn & Dn);
    [rewrite Hplen; done|by apply payload_bytes; [apply Hrho|apply Hr|apply Hpk]|].
  destruct (payload_decrypts shared MEMO_AEAD CRYPTO_SUITE memo aad) as (mp & Em & Lm & Bm & Dm); [lia|done|]. cbn [mbind result_bind np_memo]. rewrite Em.
  cbn [mbind result_bind map_err]. eexists. split; [done|]. rewrite Hplen in Ln. unfold PAYLOAD_LEN in Ln. cbn [Nat.add] in Ln. split_and!.
  - constructor; cbn; [done..|rewrite Ln; done|lia|]. repeat (apply Forall_app; split); done.
  - rewrite nc_to_bytes_length. cbn. rewrite Hctl, Ln, Lm. unfold ML_KEM_CIPHERTEXT_LEN, CIPHERTEXT_FIXED_BYTES. lia.
  - done.
  - done.
  - cbn [nc_version nc_crypto_suite ensure andb Z.eqb CIPHERTEXT_VERSION CRYPTO_SUITE Pos.eqb mbind result_bind]. unfold nc_decrypt. cbn [nc_diversifier_index nc_kem_ciphertext nc_note_payload nc_memo_payload nc_version nc_crypto_suite].
    rewrite Hctl, Nat.eqb_refl. cbn [ensure Z.eqb DIVERSIFIER_INDEX mbind result_bind]. rewrite Hkem. fold aad. rewrite Dn. cbn [mbind result_bind].
    rewrite Hpr. cbn [mbind result_bind py_pk_recipient payload]. rewrite Hown, bool_decide_eq_true_2 by done. cbn [ensure mbind result_bind]. rewrite Dm.
    cbn [mbind result_bind map_err np_asset_id np_rho np_r np_value np_memo payload py_asset_id py_rho py_r py_value ensure Z.eqb ASSET_ID].
    rewrite !digest_from_slice_good by done. cbn [mbind result_bind map_err]. unfold note_new, ensure. rewrite (proj2 (Z.leb_le _ _)) by lia.
    cbn [mbind result_bind map_err]. rewrite <- Hown. by destruct note.
Qed.

(** What a ciphertext opens to is a note of the key's own, committed as the
    chain commits it. *)
Lemma decrypt_payload_bytes shared label suite data aad m : decrypt_payload shared label suite data aad = Ok m → Forall is_byte m.
Proof.
  unfold decrypt_payload. destruct (derive_aead_material shared label suite) as [key nonce]. intros Hd%ok_or_Ok. by eapply aead_decrypt_bytes.
Qed.
Lemma decrypt_note_Ok pk dk c r :
  good_hash pk → decrypt_note pk dk c = Ok r →
  note_ok (rv_note r) ∧ nt_pk (rv_note r) = pk ∧ rv_commitment r = note_commitment (rv_note r).
Proof.
  intros Hpk. unfold decrypt_note. intros (u & _ & Hr)%bind_Ok. apply bind_Ok in Hr as (pt & Hpt%map_err_Ok & Hr). apply bind_Ok in Hr as (u1 & _ & Hr).
  apply bind_Ok in Hr as (rho & Hrho%map_err_Ok & Hr). apply bind_Ok in Hr as (rr & Hrr%map_err_Ok & Hr). apply bind_Ok in Hr as (note & Hn%map_err_Ok & [= <-]).
  unfold note_new in Hn. apply bind_Ok in Hn as (u2 & Hle%ensure_Ok%Z.leb_le & [= <-]). cbn [rv_note rv_commitment]. split_and!; [|done|done].
  unfold nc_decrypt in Hpt. apply bind_Ok in Hpt as (v1 & _ & Hpt). apply bind_Ok in Hpt as (v2 & _ & Hpt). cbn zeta in Hpt.
  apply bind_Ok in Hpt as (bytes & Hb%decrypt_payload_bytes & Hpt). apply bind_Ok in Hpt as (payload & Hpay & Hpt).
  apply bind_Ok in Hpt as (v3 & _ & Hpt). apply bind_Ok in Hpt as (memo & _ & [= <-]).
  unfold payload_from_bytes in Hpay. apply bind_Ok in Hpay as (v4 & _ & [= <-]). cbn in *.
  apply digest_from_slice_Ok in Hrho as [-> Grho]; [|by apply Forall_take, Forall_drop]. apply digest_from_slice_Ok in Hrr as [-> Grr]; [|by apply Forall_take, Forall_drop].
  unfold note_ok. cbn. split_and!; [done|done|done| |done]. by apply le_val_bound, Forall_take.
Qed.

Lemma declared_suite c : wire_ok c → declared_crypto_suite (nc_to_bytes c) = Some (nc_crypto_suite c).
Proof.
  intros [_ Hs _ _ _ _ _]. unfold declared_crypto_suite. pose proof (nc_to_bytes_length c) as Hl.
  destruct (Nat.ltb_spec (length (nc_to_bytes c)) CT_HEADER_LEN) as [Hlt|_]; [unfold CT_HEADER_LEN in Hlt; lia|]. f_equal.
  transitivity (le_val (le_bytes 2 (nc_crypto_suite c))); [done|by apply le_val_le_bytes].
Qed.

(** C29: a payment opens for its owner and settles at the chain's length. A
    note for a seed's address, encrypted with a padded memo, always encrypts;
    its bytes are exactly the length and the suite the settlement requires;
    and the owner of the seed, reading those bytes beside the commitment the
    chain published, gets the note and the memo back. Whatever opens for a key
    is a note of that key's own, in range, and committed by its own fields. *)
Theorem payment_opens_for_its_owner sk note text memo randomness
    (Hn : note_ok note) (Hown : nt_pk note = sk_pk sk) (Htext : Forall is_byte text) (Hpad : pad_memo text = Ok memo) :
  (∃ c, encrypt_note (ad_ek (sk_address sk)) note memo randomness = Ok c ∧
    Z.of_nat (length (nc_to_bytes c)) = SUITE_1_CIPHERTEXT_BYTES ∧
    declared_crypto_suite (nc_to_bytes c) = Some CRYPTO_SUITE_ML_KEM_1024 ∧
    ∃ c', nc_from_bytes (nc_to_bytes c) = Ok c' ∧
      try_receive (sk_pk sk) (sk_kem sk) c' (note_commitment note) =
        Ok {| rv_note := note; rv_memo := memo; rv_commitment := note_commitment note |}) ∧
  (∀ dk c r, decrypt_note (sk_pk sk) dk c = Ok r →
     note_ok (rv_note r) ∧ nt_pk (rv_note r) = sk_pk sk ∧ rv_commitment r = note_commitment (rv_note r)).
Proof.
  split; [|intros dk c r; apply decrypt_note_Ok, hash_felts_good].
  assert (Hm : length memo = MEMO_BYTES ∧ Forall is_byte memo).
  { unfold pad_memo in Hpad. destruct (Nat.ltb_spec MEMO_BYTES (length text)); [done|]. injection Hpad as <-.
    rewrite length_app, length_replicate. split; [lia|]. apply Forall_app. split; [done|]. by apply Forall_replicate. }
  destruct Hm as [Hl Hmb].
  destruct (note_opens sk note memo randomness Hn Hown) as (c & Henc & Hw & Hlen & Hver & Hsuite & Hdec); [rewrite Hl; done|done|].
  exists c. split_and!; [done|by rewrite Hlen, Hl|by rewrite declared_suite, Hsuite|]. exists c. split; [by apply nc_from_bytes_to|].
  unfold try_receive. rewrite Hdec. cbn [mbind result_bind rv_commitment]. by rewrite bool_decide_eq_true_2.
Qed.

(** An address reads back from its bytes, and what is accepted is 1601
    bytes of one version, a canonical key and an encapsulation key ML-KEM
    admits. *)
Theorem addresses_round_trip sk bytes (Hb : Forall is_byte bytes) :
  address_from_bytes (address_to_bytes (sk_address sk)) = Ok (sk_address sk) ∧
  (∀ a, address_from_bytes bytes = Ok a → address_to_bytes a = bytes ∧ good_hash (ad_pk a) ∧ ml_kem_ek_valid (ad_ek a) = true).
Proof.
  split.
  - assert (Hpk : good_hash (sk_pk sk)) by apply hash_felts_good. unfold address_from_bytes, address_to_bytes, sk_address. cbn [ad_version ad_pk ad_ek].
    destruct (ml_kem_ek_ok (sha256 (ML_KEM_D ++ sk_kem_seed sk) ++ sha256 (ML_KEM_Z ++ sk_kem_seed sk))) as [Hlen Hvalid]. fold (generate_deterministic (sk_kem_seed sk)) in Hlen, Hvalid. fold (sk_kem sk) in Hlen, Hvalid.
    assert (Lp : length (sk_pk sk) = 32%nat) by apply Hpk. set (ek := ml_kem_ek (sk_kem sk)) in *. clearbody ek.
    assert (Hl : length ([ADDRESS_VERSION] ++ sk_pk sk ++ ek) = ADDRESS_LEN) by (rewrite !length_app, Lp, Hlen; done).
    rewrite Hl, Nat.eqb_refl. cbn [ensure mbind result_bind nth app]. cbn [ensure Z.eqb ADDRESS_VERSION Pos.eqb mbind result_bind].
    change (drop 33 (ADDRESS_VERSION :: sk_pk sk ++ ek)) with (drop 32 (sk_pk sk ++ ek)). change (drop 1 (ADDRESS_VERSION :: sk_pk sk ++ ek)) with (sk_pk sk ++ ek).
    rewrite take_app_length', drop_app_length', digest_from_slice_good by done. cbn [map_err mbind result_bind].
    unfold public_key_from_bytes. rewrite Hlen, Nat.eqb_refl, Hvalid. done.
  - intros a Hr. unfold address_from_bytes in Hr. apply bind_Ok in Hr as (u & Hl%ensure_Ok%Nat.eqb_eq & Hr).
    apply bind_Ok in Hr as (u1 & Hver%ensure_Ok%Z.eqb_eq & Hr). apply bind_Ok in Hr as (pk & Hpk%map_err_Ok & Hr).
    apply bind_Ok in Hr as (ek & Hek%map_err_Ok & [= <-]). apply digest_from_slice_Ok in Hpk as [-> Gp]; [|by apply Forall_take, Forall_drop].
    unfold public_key_from_bytes in Hek. apply bind_Ok in Hek as (u2 & _ & Hek). apply bind_Ok in Hek as (u3 & Hvalid%ensure_Ok & [= <-]).
    split_and!; [|done|done]. unfold address_to_bytes. cbn [ad_version ad_pk ad_ek]. destruct bytes as [|v bytes]; [done|]. cbn [nth app drop].
    f_equal. apply take_drop.
Qed.
End Opening.

(** ** A concrete instance *)
Module ToyCipher.
Import ToyCrypto ToyNotes.
Definition pad_to (n : nat) (l : list Z) : list Z := take n ((λ b, b mod 256) <$> l) ++ replicate (n - length (take n l)) 0.
(** The key pair is its seed, the encapsulation carries the secret, and the
    cipher appends its tag. *)
#[export] Instance toy_note_crypto : NoteCrypto := {|
  sha256 l := pad_to 32 [Z.of_nat (length l); foldl Z.add 0 l];
  ml_kem_from_seed seed := seed;
  ml_kem_ek dk := pad_to 1568 dk;
  ml_kem_ek_valid _ := true;
  ml_kem_encapsulate ek m := (pad_to 1568 m, take 32 (pad_to 1568 m));
  ml_kem_decapsulate dk ct := take 32 ct;
  aead_encrypt k n aad m := Some (((λ b, b mod 256) <$> m) ++ replicate 16 7);
  aead_decrypt k n aad c := Some ((λ b, b mod 256) <$> take (length c - 16) c) |}.

Lemma mod_bytes l : Forall is_byte ((λ b, b mod 256) <$> l).
Proof. apply Forall_fmap, Forall_true. intros b. by apply Z.mod_pos_bound. Qed.
Lemma pad_to_ok n l : length (pad_to n l) = n ∧ Forall is_byte (pad_to n l).
Proof.
  unfold pad_to. rewrite length_app, length_replicate, !length_take, length_fmap. split; [lia|].
  apply Forall_app. split; [apply Forall_take, mod_bytes|by apply Forall_replicate].
Qed.
#[export] Instance toy_note_crypto_laws : NoteCryptoLaws.
Proof.
  constructor.
  - intros x. apply pad_to_ok.
  - done.
  - intros ek m. apply pad_to_ok.
  - intros seed. split; [apply pad_to_ok|done].
  - intros k n aad m c Hm [= <-]. set (x := (λ b, b mod 256) <$> m). change (Some ((λ b, b mod 256) <$> take (length (x ++ replicate 16 7) - 16) (x ++ replicate 16 7)) = Some m).
    f_equal. rewrite length_app, length_replicate, Nat.add_sub, take_app_length. unfold x. induction Hm as [|b m Hb _ IH]; [done|]. cbn. rewrite IH, !Z.mod_small by (rewrite ?Z.mod_small; done). done.
  - intros k n aad m c [= <-]. rewrite length_app, length_fmap. split; [done|]. apply Forall_app. split; [apply mod_bytes|by apply (Forall_replicate is_byte 16 7)].
  - intros k n aad c m [= <-]. apply mod_bytes.
  - intros k n aad m _. by eexists.
Qed.

Definition toy_sk : Hash256 := replicate 32 3.
Definition owned (v : Z) : Note := {| nt_pk := sk_pk toy_sk; nt_value := v; nt_rho := toy_digest 2; nt_r := toy_digest 3 |}.
Lemma owned_ok : note_ok (owned 5).
Proof. split_and!; [apply hash_felts_good..|vm_compute; discriminate|vm_compute; discriminate]. Qed.

Lemma payment_opens_for_its_owner_witness :
  ∃ c memo, encrypt_note (ad_ek (sk_address toy_sk)) (owned 5) memo [1] = Ok c ∧ Z.of_nat (length (nc_to_bytes c)) = SUITE_1_CIPHERTEXT_BYTES.
Proof.
  destruct (payment_opens_for_its_owner toy_sk (owned 5) [104; 105] ([104; 105] ++ replicate 59 0) [1] owned_ok eq_refl
    ltac:(repeat constructor; done) eq_refl) as [(c & He & Hl & _) _]. exists c, ([104; 105] ++ replicate 59 0). exact (conj He Hl).
Defined.

Definition toy_ct : NoteCiphertext :=
  {| nc_version := 1; nc_crypto_suite := 1; nc_diversifier_index := 0; nc_kem_ciphertext := replicate 1568 0; nc_note_payload := [1; 2]; nc_memo_payload := [] |}.
Lemma toy_ct_ok : wire_ok toy_ct.
Proof.
  constructor; cbn [toy_ct nc_version nc_crypto_suite nc_diversifier_index nc_kem_ciphertext nc_note_payload nc_memo_payload];
    [done|done|done|apply length_replicate|done|done|]. apply Forall_app. split; [by apply Forall_replicate|]. repeat constructor; done.
Qed.
Lemma ciphertexts_round_trip_witness : nc_from_bytes (nc_to_bytes toy_ct) = Ok toy_ct.
Proof. exact (proj1 (ciphertexts_round_trip toy_ct [] toy_ct_ok (Forall_nil_2 _))). Defined.

Lemma addresses_round_trip_witness : address_from_bytes (address_to_bytes (sk_address toy_sk)) = Ok (sk_address toy_sk).
Proof. exact (proj1 (addresses_round_trip toy_sk [] (Forall_nil_2 _))). Defined.
End ToyCipher.
