(* ===== verification/WalletSpend.v ===== *)
(** * Choosing notes and paying the fee

    [crates/qnero-wallet/src/select.rs], [fee.rs], and [preflight] and
    [resolve_fee] of [wallet.rs]. The runtime constants a node declares are
    [ChainMetadata]; the pallet's own floor is the one of [Shielded]. *)

From stdpp Require Import base option numbers list gmap sorting strings.
From S2P Require Import Prelude Crypto NoteRules Verifier Interfaces Shielded Profile NoteCore WalletText NoteCipher NoteCipherProps WalletExtrinsic WalletStore WalletStoreProps.
#[local] Open Scope Z_scope.

(** ** [select.rs] *)
Definition MAX_INPUTS : nat := 2.
(** The order of the sort: larger values first, then the lower leaf index. *)
Definition before_b (a b : StoredNote) : bool :=
  (sn_value b <? sn_value a) || ((sn_value a =? sn_value b) && (sn_leaf_index a <=? sn_leaf_index b)).

(** [sort_by], which is stable. *)
Fixpoint insert_note (x : StoredNote) (l : list StoredNote) : list StoredNote :=
  match l with
  | [] => [x]
  | y :: l' => if before_b x y then x :: l else y :: insert_note x l'
  end.
Definition sort_notes (l : list StoredNote) : list StoredNote := foldr insert_note [] l.

Inductive SelectError :=
| NoNotes
| Unreachable (target : Z) (chosen candidates : nat) (reachable held : Z).

(** The loop over the first [MAX_INPUTS] candidates. *)
Fixpoint choose (target total : Z) (chosen candidates : list StoredNote) : (list StoredNote * Z) * bool :=
  match candidates with
  | [] => (chosen, total, false)
  | note :: rest =>
      let chosen := chosen ++ [note] in
      let total := sat_add 64 total (sn_value note) in
      if target <=? total then (chosen, total, true) else choose target total chosen rest
  end.

(** The message of a refusal sums what is held in a [u64], as a release build
    does. *)
Definition select_notes (unspent : list StoredNote) (target : Z) : result SelectError (list StoredNote) :=
  let candidates := sort_notes unspent in
  match choose target 0 [] (take MAX_INPUTS candidates) with
  | (chosen, _, true) => Ok chosen
  | (chosen, reachable, false) =>
      if (length candidates =? 0)%nat then Err NoNotes
      else Err (Unreachable target (length chosen) (length candidates) reachable
             (sum_u64 sn_value candidates))
  end.

(** ** [fee.rs] *)
Definition MAX_TRUSTED_MIN_LEAF_FEE : Z := 64.
Definition MIN_TRUSTED_BYTES_PER_FEE_QUANTUM : Z := 64.
Definition MAX_TRUSTED_SLOT_FEE : Z := 256.
Definition HIGH_FEE_ALLOWANCE : Z := 16.
Definition HIGH_FEE_AMOUNT_SHARE : Z := 2.

Inductive FeeError :=
| UntrustedMinLeafFee (fee : Z)
| UntrustedQuantum (bytes : Z)
| AboveCeiling (fee : Z)
| CiphertextTooLong (len : nat)
| PadTooLong (len : nat)
| UnsupportedProfile (e : ProfileError)
| MemoRefused (e : MemoError)
| ProbeFailed (e : NotesError)
| UnequalProbes (payment change : nat)
| BelowFloor (fee floor : Z)
| RunsAway (fee floor : Z)
| OutrunsAmount (fee amount : Z)
| TargetOverflows (amount fee : Z)
| Unfunded (e : SelectError).

Definition ensure_fee_constants_are_sane (md : ChainMetadata) : result FeeError unit :=
  _ ← ensure (md_min_leaf_fee md <=? MAX_TRUSTED_MIN_LEAF_FEE) (UntrustedMinLeafFee (md_min_leaf_fee md));
  ensure (MIN_TRUSTED_BYTES_PER_FEE_QUANTUM <=? md_ciphertext_bytes_per_fee_quantum md)
    (UntrustedQuantum (md_ciphertext_bytes_per_fee_quantum md)).

Definition ensure_fee_within_ceiling (fee : Z) : result FeeError unit :=
  ensure (fee <=? MAX_TRUSTED_SLOT_FEE) (AboveCeiling fee).

Definition fee_outruns_amount (fee amount : Z) : bool :=
  (HIGH_FEE_ALLOWANCE <? fee) && (amount <? sat_mul 64 fee HIGH_FEE_AMOUNT_SHARE).

Definition wallet_bytes_per_fee_quantum (md : ChainMetadata) : Z := Z.max (md_ciphertext_bytes_per_fee_quantum md) 1.

(** The sum of two lengths; it cannot overflow on real ciphertexts. *)
Definition slot_fee_floor (md : ChainMetadata) (ct_1_len ct_2_len : nat) : Z :=
  let bytes := Z.of_nat ct_1_len + Z.of_nat ct_2_len in
  sat_add 64 (md_min_leaf_fee md) (div_ceil bytes (wallet_bytes_per_fee_quantum md)).

Definition submission_fee_floor (md : ChainMetadata) (real_slots carried : Z) : Z :=
  sat_add 64 (sat_mul 64 (md_min_leaf_fee md) real_slots) (div_ceil carried (wallet_bytes_per_fee_quantum md)).

Definition ensure_ciphertext_fits (md : ChainMetadata) (len : nat) : result FeeError unit :=
  ensure (Z.of_nat len <=? md_max_ciphertext_bytes md) (CiphertextTooLong len).

Definition ensure_memo_pad_fits (md : ChainMetadata) : result FeeError unit :=
  let padded := (CIPHERTEXT_FIXED_BYTES + MEMO_BYTES)%nat in
  ensure (Z.of_nat padded <=? md_max_ciphertext_bytes md) (PadTooLong padded).

(** ** [wallet.rs]: the fee and the preflight *)
Definition FEE_CEILING_MULTIPLE : Z := 10.
Definition fee_runs_away (fee floor : Z) : bool := sat_mul 64 (Z.max floor 1) FEE_CEILING_MULTIPLE <? fee.
Inductive HighFee := RefuseHighFee | AcceptHighFee.
#[global] Instance HighFee_eq_dec : EqDecision HighFee.
Proof. solve_decision. Defined.
Record PreflightPlan := { pf_fee : Z; pf_floor : Z }.

(** [b"qnero-wallet/probe-pk"], [probe-rho], [probe-r]. *)
Definition PROBE_PREFIX : list Z := [113; 110; 101; 114; 111; 45; 119; 97; 108; 108; 101; 116; 47; 112; 114; 111; 98; 101; 45].
Definition PROBE_PK : list Z := PROBE_PREFIX ++ [112; 107].
Definition PROBE_RHO : list Z := PROBE_PREFIX ++ [114; 104; 111].
Definition PROBE_R : list Z := PROBE_PREFIX ++ [114].

Section Preflight.
Context `{NoteCrypto, PoseidonOps}.
Abbreviation M := (result FeeError).

(** The randomness of a probe is the operating system's. *)
Definition probe_ciphertext_len (ek memo randomness : list Z) : M nat :=
  note ← map_err (λ _, ProbeFailed NotOurs)
           (note_new (digest_hash_bytes [PROBE_PK]) 0 (digest_hash_bytes [PROBE_RHO]) (digest_hash_bytes [PROBE_R]));
  c ← map_err ProbeFailed (encrypt_note ek note memo randomness);
  Ok (length (nc_to_bytes c)).

Definition probe_lengths (own_ek to_ek memo rand1 rand2 : list Z) : M (nat * nat) :=
  padded ← map_err MemoRefused (pad_memo memo);
  payment ← probe_ciphertext_len to_ek padded rand1;
  empty ← map_err MemoRefused (pad_memo []);
  change ← probe_ciphertext_len own_ek empty rand2;
  _ ← ensure (payment =? change)%nat (UnequalProbes payment change);
  Ok (payment, change).

Definition resolve_fee (md : ChainMetadata) (own_ek to_ek memo rand1 rand2 : list Z) (amount : Z) (requested : option Z) (high : HighFee) : M PreflightPlan :=
  _ ← ensure_fee_constants_are_sane md;
  '(payment, change) ← probe_lengths own_ek to_ek memo rand1 rand2;
  _ ← ensure_ciphertext_fits md payment;
  _ ← ensure_ciphertext_fits md change;
  let floor := slot_fee_floor md payment change in
  plan ← match requested with
         | None => Ok {| pf_fee := floor; pf_floor := floor |}
         | Some fee =>
             if fee <? floor then Err (BelowFloor fee floor)
             else if fee_runs_away fee floor then Err (RunsAway fee floor)
             else Ok {| pf_fee := fee; pf_floor := floor |}
         end;
  _ ← ensure_fee_within_ceiling (pf_fee plan);
  _ ← ensure (negb (bool_decide (high = RefuseHighFee) && fee_outruns_amount (pf_fee plan) amount)) (OutrunsAmount (pf_fee plan) amount);
  Ok plan.

Definition preflight (num_leaf_proofs : nat) (md : ChainMetadata) (s : WalletStore) (own_ek to_ek memo rand1 rand2 : list Z)
    (amount : Z) (requested : option Z) (high : HighFee) : M PreflightPlan :=
  _ ← map_err UnsupportedProfile (ensure_supported (md_protocol_profile md) num_leaf_proofs);
  _ ← ensure_memo_pad_fits md;
  plan ← resolve_fee md own_ek to_ek memo rand1 rand2 amount requested high;
  target ← ok_or (checked_add 64 amount (pf_fee plan)) (TargetOverflows amount (pf_fee plan));
  _ ← map_err Unfunded (select_notes (spendable s) target);
  Ok plan.
End Preflight.

(** ** Properties: the selection *)
Section Select.
Implicit Types (l : list StoredNote) (n : StoredNote).

(** [a] is worth at least as much as [b], or ties and comes first. *)
Definition note_le (a b : StoredNote) : Prop := before_b a b = true.

Lemma note_le_spec a b :
  note_le a b ↔ sn_value b < sn_value a ∨ (sn_value a = sn_value b ∧ sn_leaf_index a ≤ sn_leaf_index b).
Proof. unfold note_le, before_b. rewrite orb_true_iff, andb_true_iff, Z.ltb_lt, Z.eqb_eq, Z.leb_le. done. Qed.

Lemma insert_note_perm x l : insert_note x l ≡ₚ x :: l.
Proof.
  induction l as [|y l IH]; cbn [insert_note]; [done|]. destruct (before_b x y); [done|]. rewrite IH. apply Permutation_swap.
Qed.
Lemma sort_notes_perm l : sort_notes l ≡ₚ l.
Proof. induction l as [|x l IH]; [done|]. cbn [sort_notes foldr]. rewrite insert_note_perm. by constructor. Qed.

Lemma insert_sorted_notes x l : StronglySorted note_le l → StronglySorted note_le (insert_note x l).
Proof.
  induction 1 as [|y l Hl IH Hy]; cbn [insert_note]; [by repeat constructor|].
  destruct (before_b x y) eqn:Hxy.
  - constructor; [by constructor|]. constructor; [exact Hxy|]. eapply Forall_impl; [exact Hy|]. intros z Hz.
    apply note_le_spec. apply note_le_spec in Hz. assert (Hxy' : note_le x y) by exact Hxy. apply note_le_spec in Hxy'. lia.
  - constructor; [done|]. rewrite insert_note_perm. constructor; [|done]. apply note_le_spec.
    assert (Hn : ¬ note_le x y) by (unfold note_le; congruence). rewrite note_le_spec in Hn. lia.
Qed.
Lemma sort_notes_sorted l : StronglySorted note_le (sort_notes l).
Proof. induction l as [|x l IH]; [constructor|]. cbn [sort_notes foldr]. by apply insert_sorted_notes. Qed.

Definition total_value l : Z := foldr (λ n acc, sn_value n + acc) 0 l.

(** Any choice of at most two notes of the wallet, as the circuit spends. *)
Definition choice_of l (chosen : list StoredNote) : Prop := chosen ⊆+ l ∧ (length chosen ≤ MAX_INPUTS)%nat.

Lemma note_value_le a b : note_le a b → sn_value b ≤ sn_value a.
Proof. rewrite note_le_spec. lia. Qed.

Lemma take_two_most l chosen :
  StronglySorted note_le l → Forall (λ n, 0 ≤ sn_value n) l → choice_of l chosen → total_value chosen ≤ total_value (take 2 l).
Proof.
  intros Hs Hv [Hsub Hlen]. unfold MAX_INPUTS in Hlen.
  assert (Hin : ∀ x, x ∈ chosen → x ∈ l) by (intros x Hx; by eapply elem_of_submseteq).
  destruct l as [|a l].
  { apply submseteq_nil_r in Hsub as ->. done. }
  apply StronglySorted_inv in Hs as [Hs Ha]. apply Forall_cons in Hv as [Hva Hv]. rewrite Forall_forall in Ha.
  assert (Hle : ∀ x, x ∈ a :: l → sn_value x ≤ sn_value a).
  { intros x [->|Hx]%elem_of_cons; [lia|]. by apply note_value_le, Ha. }
  destruct l as [|b l].
  { apply submseteq_length in Hsub as Hl. cbn in Hl. destruct chosen as [|x [|y chosen]]; cbn in *; [lia| |lia].
    specialize (Hle x ltac:(apply Hin; by left)). lia. }
  apply StronglySorted_inv in Hs as [Hs Hb]. apply Forall_cons in Hv as [Hvb Hv]. rewrite Forall_forall in Hb.
  cbn [take]. rewrite take_0. cbn [total_value foldr].
  destruct chosen as [|x [|y [|z chosen]]]; cbn [length] in Hlen; [cbn; lia| | |lia].
  { cbn. specialize (Hle x ltac:(apply Hin; by left)). lia. }
  cbn [total_value foldr].
  assert (Hcase : ∃ u v, [x; y] ≡ₚ [u; v] ∧ v ∈ b :: l).
  { destruct (decide (x = a)) as [->|Hxa].
    - exists a, y. split; [done|]. apply submseteq_cons_l in Hsub as (k & Hk & Hy). apply Permutation_cons_inv in Hk.
      rewrite Hk. eapply elem_of_submseteq; [|exact Hy]. by left.
    - exists y, x. split; [apply Permutation_swap|]. specialize (Hin x ltac:(by left)).
      apply elem_of_cons in Hin as [?|?]; [done|done]. }
  destruct Hcase as (u & v & Hp & Hv').
  assert (Hu : sn_value u ≤ sn_value a) by (apply Hle, Hin; rewrite Hp; by left).
  assert (Hvb' : sn_value v ≤ sn_value b).
  { apply elem_of_cons in Hv' as [->|Hx]; [lia|]. by apply note_value_le, Hb. }
  assert (Hsum : sn_value x + sn_value y = sn_value u + sn_value v).
  { apply Permutation_length_2_inv in Hp as [E|E]; injection E as -> ->; lia. }
  lia.
Qed.

Lemma sat_reaches acc v target : 0 ≤ acc → 0 ≤ v → target ≤ u_max 64 → (target ≤ sat_add 64 acc v ↔ target ≤ acc + v).
Proof. unfold sat_add. lia. Qed.

Lemma selection_spec unspent target
    (Hval : Forall (λ n, 0 ≤ sn_value n) unspent) (Htarget : 0 ≤ target ≤ u_max 64) :
  match select_notes unspent target with
  | Ok chosen => choice_of unspent chosen ∧ chosen ≠ [] ∧ target ≤ total_value chosen ∧
      (length chosen = 2%nat → ∀ n, n ∈ unspent → sn_value n < target)
  | Err _ => ∀ chosen, choice_of unspent chosen → chosen ≠ [] → total_value chosen < target
  end.
Proof.
  unfold select_notes. pose proof (sort_notes_perm unspent) as Hp. pose proof (sort_notes_sorted unspent) as Hs.
  set (l := sort_notes unspent) in *. rewrite <- Hp in Hval.
  assert (Hmost : ∀ chosen, choice_of unspent chosen → total_value chosen ≤ total_value (take 2 l)).
  { intros chosen [Hsub Hlen]. apply take_two_most; [done|done|]. split; [by rewrite Hp|done]. }
  assert (Hspend : ∀ k, (k ≤ 2)%nat → choice_of unspent (take k l)).
  { intros k Hk. split; [|rewrite length_take; unfold MAX_INPUTS; lia]. rewrite <- Hp. apply sublist_submseteq, sublist_take. }
  destruct l as [|a [|b l]]; cbn [take MAX_INPUTS choose].
  - intros chosen Hc Hne. destruct Hc as [Hc _]. rewrite <- Hp in Hc. by apply submseteq_nil_r in Hc.
  - apply Forall_cons in Hval as [Ha _]. cbn [app]. specialize (Hspend 1%nat ltac:(lia)). cbn in Hspend, Hmost.
    destruct (Z.leb_spec target (sat_add 64 0 (sn_value a))) as [Hle|Hgt].
    + split_and!; [done|done|cbn; apply sat_reaches in Hle; lia|done].
    + cbn. intros chosen Hc _. specialize (Hmost chosen Hc).
      assert (¬ target ≤ 0 + sn_value a) by (rewrite <- sat_reaches by lia; lia). lia.
  - apply Forall_cons in Hval as [Ha Hv]. apply Forall_cons in Hv as [Hb _]. cbn [app].
    pose proof (Hspend 1%nat ltac:(lia)) as Hs1. pose proof (Hspend 2%nat ltac:(lia)) as Hs2. cbn in Hs1, Hs2.
    cbn [take] in Hmost. rewrite take_0 in *. cbn [total_value foldr] in Hmost.
    destruct (Z.leb_spec target (sat_add 64 0 (sn_value a))) as [Hle|Hgt].
    { split_and!; [done|done|cbn; apply sat_reaches in Hle; lia|done]. }
    assert (Hna : ¬ target ≤ 0 + sn_value a) by (rewrite <- sat_reaches by lia; lia).
    rewrite (sat_add_exact 64 0) in * by lia.
    destruct (Z.leb_spec target (sat_add 64 (0 + sn_value a) (sn_value b))) as [Hle|Hgt2].
    + split_and!; [done|done|cbn; apply sat_reaches in Hle; lia|]. intros _ n Hn. rewrite <- Hp in Hn.
      apply StronglySorted_inv in Hs as [_ Hs]. rewrite Forall_forall in Hs.
      apply elem_of_cons in Hn as [->|Hn]; [lia|]. pose proof (note_value_le _ _ (Hs n Hn)). lia.
    + cbn. intros chosen Hc _. specialize (Hmost chosen Hc).
      assert (¬ target ≤ 0 + sn_value a + sn_value b) by (rewrite <- sat_reaches by lia; lia). lia.
Qed.

(** The selection finds a payment whenever the circuit could make one.
    If it answers, the notes are the wallet's own, one or two of them, they
    cover the target, and a second one is taken only when no single note
    does. If it refuses, no choice of one or two of the wallet's notes covers
    the target. *)
Theorem selection_is_optimal unspent target
    (Hval : Forall (λ n, 0 ≤ sn_value n) unspent) (Htarget : 0 ≤ target ≤ u_max 64) :
  match select_notes unspent target with
  | Ok chosen => choice_of unspent chosen ∧ chosen ≠ [] ∧ target ≤ total_value chosen ∧
      (length chosen = 2%nat → ∀ n, n ∈ unspent → sn_value n < target)
  | Err _ => ∀ chosen, choice_of unspent chosen → chosen ≠ [] → total_value chosen < target
  end.
Proof. exact (selection_spec unspent target Hval Htarget). Qed.
End Select.


(** ** Properties: the fee *)
Section Fee.
Context `{NoteCrypto, PoseidonOps, !NoteCryptoLaws, !PoseidonLaws, !NoteFieldLaws} {F : Type} `{FieldOps F, PlonkyOps F}.
Abbreviation RuntimeConfig := (Config QneroPrivateBatchVerifier QneroPublicBatchVerifier).

(** The metadata of a runtime: its own constants. *)
Definition declares (md : ChainMetadata) (cfg : RuntimeConfig) : Prop :=
  md_min_leaf_fee md = MinLeafFee cfg ∧ md_ciphertext_bytes_per_fee_quantum md = CiphertextBytesPerFeeQuantum cfg.

Lemma probe_Ok ek memo rand n : probe_ciphertext_len ek memo rand = Ok n → n = (CIPHERTEXT_FIXED_BYTES + length memo)%nat.
Proof.
  unfold probe_ciphertext_len. intros (note & Hn%map_err_Ok & Hr)%bind_Ok. apply bind_Ok in Hr as (c & Hc%map_err_Ok & [= <-]).
  unfold note_new in Hn. apply bind_Ok in Hn as (u & _ & [= <-]). eapply encrypt_note_length; [..|exact Hc]; apply hash_bytes_length.
Qed.
Lemma pad_memo_length m p : pad_memo m = Ok p → length p = MEMO_BYTES.
Proof. unfold pad_memo. destruct (Nat.ltb_spec MEMO_BYTES (length m)); [done|]. intros [= <-]. rewrite length_app, length_replicate. lia. Qed.
Lemma probe_lengths_Ok own_ek to_ek memo rand1 rand2 a b :
  probe_lengths own_ek to_ek memo rand1 rand2 = Ok (a, b) → Z.of_nat a = SUITE_1_CIPHERTEXT_BYTES ∧ Z.of_nat b = SUITE_1_CIPHERTEXT_BYTES.
Proof.
  unfold probe_lengths. intros (p & Hp%map_err_Ok%pad_memo_length & Hr)%bind_Ok. apply bind_Ok in Hr as (x & Hx%probe_Ok & Hr).
  apply bind_Ok in Hr as (q & Hq%map_err_Ok%pad_memo_length & Hr). apply bind_Ok in Hr as (y & Hy%probe_Ok & Hr).
  apply bind_Ok in Hr as (u & _ & [= <- <-]). rewrite Hx, Hy, Hp, Hq. done.
Qed.

(** What a resolved fee satisfies. *)
Lemma resolve_fee_Ok md own_ek to_ek memo rand1 rand2 amount requested high plan :
  resolve_fee md own_ek to_ek memo rand1 rand2 amount requested high = Ok plan →
  pf_floor plan = sat_add 64 (md_min_leaf_fee md) (div_ceil (2 * SUITE_1_CIPHERTEXT_BYTES) (Z.max (md_ciphertext_bytes_per_fee_quantum md) 1)) ∧
  pf_floor plan ≤ pf_fee plan ≤ MAX_TRUSTED_SLOT_FEE ∧
  (requested = None → pf_fee plan = pf_floor plan) ∧ (∀ fee, requested = Some fee → pf_fee plan = fee ∧ fee_runs_away fee (pf_floor plan) = false) ∧
  (high = RefuseHighFee → fee_outruns_amount (pf_fee plan) amount = false).
Proof.
  unfold resolve_fee. intros (u & _ & Hr)%bind_Ok. apply bind_Ok in Hr as ([a b] & [Ha Hb]%probe_lengths_Ok & Hr).
  apply bind_Ok in Hr as (u1 & _ & Hr). apply bind_Ok in Hr as (u2 & _ & Hr).
  assert (Hfloor : slot_fee_floor md a b = sat_add 64 (md_min_leaf_fee md) (div_ceil (2 * SUITE_1_CIPHERTEXT_BYTES) (Z.max (md_ciphertext_bytes_per_fee_quantum md) 1))).
  { unfold slot_fee_floor, wallet_bytes_per_fee_quantum. rewrite Ha, Hb. done. }
  rewrite Hfloor in Hr. set (floor := sat_add 64 _ _) in *. cbn zeta in Hr.
  apply bind_Ok in Hr as (p & Hp & Hr). apply bind_Ok in Hr as (u3 & Hceil%ensure_Ok%Z.leb_le & Hr). apply bind_Ok in Hr as (u4 & Hhigh%ensure_Ok & [= <-]).
  assert (Hlast : high = RefuseHighFee → fee_outruns_amount (pf_fee p) amount = false).
  { intros ->. rewrite bool_decide_eq_true_2 in Hhigh by done. cbn [andb] in Hhigh. by apply negb_true_iff in Hhigh. }
  destruct requested as [fee|].
  - destruct (Z.ltb_spec fee floor); [done|]. destruct (fee_runs_away fee floor) eqn:Haway; [done|]. injection Hp as <-. cbn in *.
    split_and!; [done|done|done|done| |done]. intros f [= <-]. done.
  - injection Hp as <-. cbn in *. split_and!; [done|lia|done|done|done|done].
Qed.

(** A preflight that passes prices a settlement the pallet accepts. The
    fee clears the floor the pallet itself computes for the pair of suite-1
    ciphertexts the spend will carry, under the constants the node declares;
    it is never above 256 steps, nor ten times the floor, nor, unless the
    caller agrees, more than half the amount once it passes the allowance; and
    one or two of the wallet's spendable notes, of distinct nullifiers, cover
    the amount and the fee without overflow. *)
Theorem preflight_prices_a_settlement leaves md (cfg : RuntimeConfig) s own_ek to_ek memo rand1 rand2 amount requested high plan o
    (Hpre : preflight leaves md s own_ek to_ek memo rand1 rand2 amount requested high = Ok plan)
    (Hmd : declares md cfg) (Hamount : in_u 64 amount) (Hval : Forall (λ n, 0 ≤ sn_value n) (ws_notes s)) (Hmin : 0 ≤ MinLeafFee cfg)
    (Hct : len (ct_1 o) = SUITE_1_CIPHERTEXT_BYTES ∧ len (ct_2 o) = SUITE_1_CIPHERTEXT_BYTES) :
  fee_floor cfg (MinLeafFee cfg) (output_bytes o) ≤ pf_fee plan ∧ pf_fee plan ≤ MAX_TRUSTED_SLOT_FEE ∧
  pf_fee plan ≤ FEE_CEILING_MULTIPLE * Z.max (pf_floor plan) 1 ∧
  (high = RefuseHighFee → pf_fee plan ≤ HIGH_FEE_ALLOWANCE ∨ HIGH_FEE_AMOUNT_SHARE * pf_fee plan ≤ amount) ∧
  ∃ chosen, select_notes (spendable s) (amount + pf_fee plan) = Ok chosen ∧ choice_of (spendable s) chosen ∧
    NoDup (sn_nullifier <$> chosen) ∧ amount + pf_fee plan ≤ total_value chosen.
Proof.
  unfold preflight in Hpre. apply bind_Ok in Hpre as (u & _ & Hr). apply bind_Ok in Hr as (u1 & _ & Hr).
  apply bind_Ok in Hr as (p & Hp & Hr). apply bind_Ok in Hr as (target & Ht%ok_or_Ok & Hr). apply bind_Ok in Hr as (chosen & Hsel%map_err_Ok & [= <-]).
  apply resolve_fee_Ok in Hp as (Hfloor & [Hge Hceil] & Hnone & Hsome & Hhigh). destruct Hmd as [Em Eq], Hct as [L1 L2].
  assert (Htarget : target = amount + pf_fee p ∧ 0 ≤ target ≤ u_max 64).
  { unfold checked_add in Ht. destruct (Z.leb_spec (amount + pf_fee p) (u_max 64)); [|done]. injection Ht as <-.
    assert (0 ≤ pf_floor p).
    { rewrite Hfloor, Em. unfold sat_add. assert (0 ≤ div_ceil (2 * SUITE_1_CIPHERTEXT_BYTES) (Z.max (md_ciphertext_bytes_per_fee_quantum md) 1)) by (apply div_ceil_nonneg; unfold SUITE_1_CIPHERTEXT_BYTES; lia).
      unfold u_max. lia. }
    unfold in_u in Hamount. lia. }
  destruct Htarget as [-> Htarget].
  assert (Hpos : Forall (λ n, 0 ≤ sn_value n) (spendable s)).
  { apply Forall_forall. intros n Hn. rewrite Forall_forall in Hval. apply Hval. by apply spendable_sub. }
  pose proof (selection_spec (spendable s) (amount + pf_fee p) Hpos Htarget) as Hspec. rewrite Hsel in Hspec. destruct Hspec as (Hch & _ & Hcov & _).
  split_and!.
  - unfold fee_floor, bytes_per_fee_quantum, output_bytes. rewrite L1, L2, <- Em, <- Eq. rewrite Hfloor in Hge. exact Hge.
  - done.
  - destruct requested as [fee|]; [|rewrite Hnone by done; unfold FEE_CEILING_MULTIPLE; lia].
    destruct (Hsome fee eq_refl) as [-> Haway]. unfold fee_runs_away in Haway. apply Z.ltb_ge in Haway. unfold sat_mul in Haway. lia.
  - intros ->. specialize (Hhigh eq_refl). unfold fee_outruns_amount, sat_mul in Hhigh. unfold MAX_TRUSTED_SLOT_FEE, HIGH_FEE_AMOUNT_SHARE, HIGH_FEE_ALLOWANCE in *.
    apply andb_false_iff in Hhigh as [Hh%Z.ltb_ge|Hh%Z.ltb_ge]; [by left|right]. change (u_max 64) with 18446744073709551615 in Hh. lia.
  - exists chosen. split_and!; [done|done| |done]. destruct Hch as [Hsub _]. apply submseteq_Permutation in Hsub as [k Hk].
    pose proof (spendable_NoDup s) as Hnd. rewrite Hk, fmap_app in Hnd. by apply NoDup_app in Hnd as [? _].
Qed.
End Fee.
