(* ===== verification/WalletLedger.v ===== *)
(** * The ledger of a seed

    The scan of [WalletSync] with the real keys: what [NoteCore] derives from a
    seed and what [NoteCipher] opens with it. A note in the store is a note of
    that seed, and a payment encrypted to the seed's address is credited. *)

From stdpp Require Import base option numbers list gmap sorting.
From S2P Require Import Prelude Crypto NoteRules Header CircuitMerkle NoteCore WalletTyping WalletTypingProps WalletText NoteCipher NoteCipherProps WalletExtrinsic WalletChain WalletChainProps WalletStore WalletStoreProps WalletSync WalletSyncProps WalletSyncTheorems.
#[local] Open Scope Z_scope.

Section Ledger.
Context `{NoteCrypto, !NoteCryptoLaws, HeaderCodec, !PoseidonLaws, !NoteFieldLaws, ScaleCompact, BodyOps}.
Implicit Types (nd : Node) (s : WalletStore) (md : ChainMetadata) (head : ChainHead) (sc : Scan) (w : Walk) (sk : Hash256) (rep : SyncReport).

Definition received (n : Note) (memo : list Z) : ReceivedNote :=
  {| rc_value := nt_value n; rc_rho := nt_rho n; rc_r := nt_r n; rc_memo := memo; rc_commitment := note_commitment n |}.

(** What [Wallet] derives from its seed: the miner key, the viewing key and
    the nullifier key. *)
Definition wallet_keys sk : WalletKeys := {|
  wk_author_label parent := miner_author_label (sk_miner_key sk) parent;
  wk_coinbase_note genesis block value :=
    match coinbase_note (sk_miner_key sk) genesis block value with Ok n => Some (received n []) | Err _ => None end;
  wk_open payload :=
    match nc_from_bytes payload with
    | Ok c => match decrypt_note (sk_pk sk) (sk_kem sk) c with Ok r => Some (received (rv_note r) (rv_memo r)) | Err _ => None end
    | Err _ => None
    end;
  wk_nullifier n := nullifier (sk_nk sk) (rc_rho n) (rc_r n);
  wk_entry_rho block i := entry_rho block i |}.

(** ** Genuine notes *)
(** The commitment is the hash of the seed's [pk] and the fields the wallet
    keeps, and the nullifier is the one its spend will publish. *)
Definition opened sk (v : Z) (rho r : Hash256) : Note := {| nt_pk := sk_pk sk; nt_value := v; nt_rho := rho; nt_r := r |}.
Definition genuine sk (n : StoredNote) : Prop :=
  sn_commitment n = note_commitment (opened sk (sn_value n) (sn_rho n) (sn_r n)) ∧
  sn_nullifier n = nullifier (sk_nk sk) (sn_rho n) (sn_r n) ∧ note_ok (opened sk (sn_value n) (sn_rho n) (sn_r n)).
Definition genuine_receipt sk (rt : Receipt) : Prop :=
  rt_commitment rt = rc_commitment (rt_note rt) ∧ note_ok (opened sk (rc_value (rt_note rt)) (rc_rho (rt_note rt)) (rc_r (rt_note rt))) ∧
  rc_commitment (rt_note rt) = note_commitment (opened sk (rc_value (rt_note rt)) (rc_rho (rt_note rt)) (rc_r (rt_note rt))).

Lemma genuine_secrets sk n n' : secrets n' = secrets n → genuine sk n → genuine sk n'.
Proof. unfold genuine, secrets. intros Hs. assert (E : sn_commitment n' = sn_commitment n ∧ sn_nullifier n' = sn_nullifier n ∧ sn_value n' = sn_value n ∧ sn_rho n' = sn_rho n ∧ sn_r n' = sn_r n) by (split_and!; congruence).
  destruct E as (-> & -> & -> & -> & ->). done.
Qed.
Lemma genuine_list sk l l' : secrets <$> l' = secrets <$> l → Forall (genuine sk) l → Forall (genuine sk) l'.
Proof.
  revert l'. induction l as [|n l IH]; intros [|n' l']; try done. cbn [fmap list_fmap]. intros Heq Hf.
  pose proof (f_equal head Heq) as Hs. pose proof (f_equal tail Heq) as Hr. cbn [head tail] in Hs, Hr. apply (inj Some) in Hs. apply Forall_cons in Hf as [Hn Hl].
  constructor; [by eapply genuine_secrets|by apply IH].
Qed.

Lemma record_receipt_genuine keys sk entries collect sc rt :
  keys = wallet_keys sk → store_ok (sn_store sc) → genuine_receipt sk rt → Forall (genuine sk) (ws_notes (sn_store sc)) →
  Forall (genuine sk) (ws_notes (sn_store (record_receipt keys entries collect sc rt))).
Proof.
  intros -> Hs (Hc & Hv & Hcm) Hg. unfold record_receipt. destruct (has_commitment _ _).
  - destruct (walk_notes_ok _ (sn_store sc) (gentle_relocate (rt_commitment rt) (rt_leaf_index rt) (Some (rt_block_number rt))) Hs) as (_ & _ & _ & _ & Hsec).
    unfold relocate_note. destruct (walk_notes _ (sn_store sc)) as [s' moved]. cbn in *. by eapply genuine_list.
  - destruct (nullifier_settled _ _).
    + unfold record_rejected. by destruct (find_rejected _ _ _).
    + cbn. apply Forall_app. split; [done|]. apply Forall_singleton. unfold genuine. cbn. split_and!; [congruence|done|done].
Qed.

Lemma record_receipts_genuine sk entries collect l sc :
  store_ok (sn_store sc) → Forall (genuine_receipt sk) l → Forall (genuine sk) (ws_notes (sn_store sc)) →
  Forall (genuine sk) (ws_notes (sn_store (foldl (record_receipt (wallet_keys sk) entries collect) sc l))).
Proof.
  revert sc. induction l as [|rt l IH]; intros sc Hs Hl Hg; [done|]. apply Forall_cons in Hl as [Hr Hl]. cbn [foldl].
  apply IH; [|done|by apply record_receipt_genuine]. by apply record_receipt_ok.
Qed.

(** Both rules only receive the seed's notes. *)
Definition values_ok (typed : list TypedLeaf) : Prop := Forall (λ tl, ∀ ours v d, tl_kind tl = Coinbase ours v d → 0 ≤ v) typed.
Lemma coinbase_receipts sk genesis typed acc acc' :
  fold_result (coinbase_step (wallet_keys sk) genesis) acc typed = Ok acc' → values_ok typed →
  Forall (genuine_receipt sk) acc.1 → Forall (genuine_receipt sk) acc'.1.
Proof.
  revert acc. induction typed as [|leaf typed IH]; intros acc; cbn [fold_result]; [by intros [= <-]|].
  intros (acc1 & Hst & Hr)%bind_Ok Hval Hg. apply Forall_cons in Hval as [Hval Hvals]. apply (IH acc1 Hr Hvals). unfold coinbase_step in Hst. destruct acc as [received0 events].
  destruct (tl_kind leaf) as [|ours v d] eqn:Hk; [by injection Hst as <-|]. specialize (Hval ours v d eq_refl).
  destruct (receive_coinbase _ _ _ _ _) as [note|] eqn:Hn; [|destruct ours; [done|by injection Hst as <-]].
  injection Hst as <-. cbn in *. apply Forall_app. split; [done|]. apply Forall_singleton. unfold receive_coinbase in Hn. cbn in Hn.
  destruct (coinbase_note _ _ _ _) as [m|] eqn:Hm; [|done]. cbn in Hn. case_bool_decide as Hc; [|done]. injection Hn as <-.
  unfold coinbase_note, note_new in Hm. apply bind_Ok in Hm as (u & Hle%ensure_Ok%Z.leb_le & [= <-]). unfold genuine_receipt, note_ok. cbn in *.
  split_and!; [done|apply hash_felts_good..|done|done|done].
Qed.
Lemma body_receipts nd md sk typed blocks received0 received' :
  fold_result (body_step nd md (wallet_keys sk) typed) received0 blocks = Ok received' →
  Forall (genuine_receipt sk) received0 → Forall (genuine_receipt sk) received'.
Proof.
  revert received0. induction blocks as [|b blocks IH]; intros received0; cbn [fold_result]; [by intros [= <-]|].
  intros (r1 & Hst & Hr)%bind_Ok Hg. apply (IH r1 Hr). unfold body_step in Hst. destruct (appended _ _); [|by injection Hst as <-].
  apply bind_Ok in Hst as (body & _ & Hst). apply bind_Ok in Hst as (payloads & _ & [= <-]). clear Hr IH. revert received0 Hg.
  induction payloads as [|p payloads IH]; intros received0 Hg; [done|]. cbn [foldl]. apply IH. unfold payload_step. cbn [wallet_keys wk_open].
  destruct (nc_from_bytes p) as [c|]; [|done]. destruct (decrypt_note (sk_pk sk) (sk_kem sk) c) as [r|] eqn:Hd; [|done].
  destruct (index_chunk _ _ _); [|done]. apply Forall_app. split; [done|]. apply Forall_singleton.
  apply decrypt_note_Ok in Hd as (Hok & Hpk & _); [|apply hash_felts_good]. unfold genuine_receipt, opened. cbn.
  destruct (rv_note r) as [pk v rho rr]; cbn in *; subst pk. done.
Qed.

(** ** Over a pass *)
Lemma scan_chunk_genuine nd md sk genesis entries collect blocks typed sc sc' :
  scan_chunk nd md (wallet_keys sk) genesis entries collect blocks typed sc = Ok sc' →
  values_ok typed → store_ok (sn_store sc) → Forall (genuine sk) (ws_notes (sn_store sc)) → Forall (genuine sk) (ws_notes (sn_store sc')).
Proof.
  unfold scan_chunk. intros ([coins events] & Hcoins & Hr)%bind_Ok Hval Hs Hg. apply bind_Ok in Hr as (received0 & Hbodies & [= <-]).
  apply coinbase_receipts in Hcoins; [|done|constructor]. apply body_receipts in Hbodies; [|done].
  apply record_receipts_genuine; [done| |done]. by rewrite sort_receipts_perm.
Qed.

(** The node's storage answers are bytes, as their type says. *)
Definition storage_bytes nd : Prop := ∀ at_ k bytes, nd_storage nd at_ k = Some (Some bytes) → Forall is_byte bytes.

Lemma leaf_record_value nd at_ count i r v :
  storage_bytes nd → leaf_record nd at_ count i = Ok r → lr_coinbase_value r = Some v → 0 ≤ v.
Proof.
  intros Hsb. unfold leaf_record. intros (cm & _ & Hr)%bind_Ok. apply bind_Ok in Hr as (bl & _ & Hr). apply bind_Ok in Hr as (va & Hva%ok_or_Ok & Hr).
  cbn zeta in Hr. apply bind_Ok in Hr as (u & _ & Hr). apply bind_Ok in Hr as (u1 & _ & Hr). apply bind_Ok in Hr as (cm' & _ & Hr).
  apply bind_Ok in Hr as (u2 & _ & Hr). apply bind_Ok in Hr as (bl' & _ & Hr). apply bind_Ok in Hr as (va' & Hv & [= <-]). cbn. intros ->.
  destruct va as [bytes|]; [|done]. cbn in Hv. apply bind_Ok in Hv as (y & Hy & [= <-]). unfold decode_u64_exact, decode_exact in Hy.
  apply bind_Ok in Hy as (u3 & _ & [= <-]). by apply le_val_bound, (Hsb _ _ _ Hva).
Qed.

Lemma authenticated_values miner p f blocks scanned typed f' :
  authenticated miner p f blocks scanned typed f' → Forall (λ r, ∀ v, lr_coinbase_value r = Some v → 0 ≤ v) scanned → values_ok typed.
Proof.
  induction 1 as [|p f b bs run rest typed more f' Hp Hn Hk Hroot Hau IH]; intros Hf; [constructor|].
  apply Forall_app in Hf as [Hrun Hrest]. apply Forall_app. split; [|by apply IH]. apply Forall_lookup. intros i tl Hi ours v d Hkind.
  pose proof (run_kinds_length _ _ _ Hk) as Hrl. destruct (lookup_lt_is_Some_2 run i) as [r Hr]; [rewrite Hrl; by eapply lookup_lt_Some|].
  destruct (run_kinds_lookup _ _ _ _ _ _ Hk Hr Hi) as [_ Hright]. unfold right_kind in Hright. destruct (bool_decide (S i = _)).
  - destruct Hright as (v' & dis & Hv' & Hk'). rewrite Hkind in Hk'. injection Hk' as _ -> _. by eapply (Forall_lookup_1 _ _ _ _ Hrun Hr).
  - destruct Hright as [_ ?]. congruence.
Qed.

Lemma walk_step_genuine nd md sk genesis head start leaf_count entries collect w w' :
  walk_step nd md (wallet_keys sk) genesis head start leaf_count entries collect w = Ok w' →
  storage_bytes nd → store_ok (sn_store (wl_scan w)) → Forall (genuine sk) (ws_notes (sn_store (wl_scan w))) → Forall (genuine sk) (ws_notes (sn_store (wl_scan w'))).
Proof.
  unfold walk_step. cbn zeta. intros (top_hash & _ & Hr)%bind_Ok Hsb Hs Hg. apply bind_Ok in Hr as (blocks & _ & Hr).
  apply bind_Ok in Hr as (anchor & Hanchor%ok_or_Ok & Hr). apply bind_Ok in Hr as (u & _ & Hr). destruct (start <? leaf_count).
  - apply bind_Ok in Hr as (fold & _ & Hr). apply bind_Ok in Hr as (records & Hrec%map_err_Ok & Hr). apply bind_Ok in Hr as (u1 & _ & Hr).
    apply bind_Ok in Hr as ([fold' typed] & Htyped%map_err_Ok & Hr). apply bind_Ok in Hr as (sc & Hscan & [= <-]).
    eapply scan_chunk_genuine; [exact Hscan| |done|done]. destruct blocks as [|b0 blocks]; [done|]. apply type_chunk_authenticated in Htyped.
    eapply authenticated_values; [exact Htyped|]. apply leaf_windows_spec in Hrec as [_ Hleaves]. apply Forall_lookup. intros i r Hi v Hv.
    destruct (Hleaves i r Hi) as [Hl _]. by eapply leaf_record_value.
  - by apply bind_Ok in Hr as (u1 & _ & [= <-]).
Qed.

Lemma walk_chunks_genuine nd md sk genesis head start leaf_count entries collect fuel : ∀ w w',
  walk_chunks fuel nd md (wallet_keys sk) genesis head start leaf_count entries collect w = Ok w' →
  storage_bytes nd → store_ok (sn_store (wl_scan w)) → Forall (genuine sk) (ws_notes (sn_store (wl_scan w))) → Forall (genuine sk) (ws_notes (sn_store (wl_scan w'))).
Proof.
  induction fuel as [|fuel IH]; intros w w'; cbn [walk_chunks]; [done|]. intros (w1 & Hstep & Hr)%bind_Ok Hsb Hs Hg.
  pose proof (walk_step_genuine _ _ _ _ _ _ _ _ _ _ _ Hstep Hsb Hs Hg) as Hg1. apply walk_step_ok in Hstep as [Hw _]; [|done].
  destruct (_ =? _); [by injection Hr as <-|]. eapply IH; [exact Hr|done| |done]. apply Hw.
Qed.

Lemma sync_genuine nd md sk rescan s s' rep :
  sync_with nd md (wallet_keys sk) rescan s = Ok (s', rep) → storage_bytes nd → store_ok s → Forall (genuine sk) (ws_notes s) →
  Forall (genuine sk) (ws_notes s').
Proof.
  intros Hpass Hsb Hok Hg. destruct (sync_passed _ _ _ _ _ _ _ Hpass Hok) as (g & settled & s0 & w & P).
  destruct (passed_commit _ _ _ _ _ _ _ _ _ _ _ P) as (_ & _ & _ & _ & _ & _ & _ & _ & Hsn).
  destruct P as [_ _ (Hok0 & Hn0 & _) Hw _ _ _]. destruct (Hw _ eq_refl) as (w0 & _ & E & _ & fuel & entries & Hchunks).
  assert (Hg1 : Forall (genuine sk) (ws_notes (sn_store (wl_scan w)))).
  { eapply walk_chunks_genuine; [exact Hchunks|done|by rewrite E|by rewrite E, Hn0]. }
  clear -Hsn Hg1. induction Hsn as [|n n' l l' Hnn _ IH]; [done|]. apply Forall_cons in Hg1 as [Hn Hl].
  constructor; [eapply genuine_secrets; [apply Hnn|done]|auto].
Qed.

(** C13: a wallet holds only notes it can spend. Whatever the node serves,
    every note in the store after a committed pass opens its commitment under
    the seed's own key, with the value, the [rho] and the [r] the store keeps,
    carries the nullifier the seed's nullifier key gives it, and is within the
    circuit's range. A node can withhold a note; it cannot make one up. *)
Theorem ledger_is_genuine nd md sk rescan s s' rep
    (Hbytes : storage_bytes nd) (Hok : store_ok s) (Hg : Forall (genuine sk) (ws_notes s)) (Hpass : sync_with nd md (wallet_keys sk) rescan s = Ok (s', rep)) :
  Forall (genuine sk) (ws_notes s').
Proof. by eapply sync_genuine. Qed.

(** The payload of a note encrypted to the seed's address opens to it. *)
Lemma payment_payload sk note memo randomness c :
  note_ok note → nt_pk note = sk_pk sk → Z.of_nat (length memo) < 2 ^ 31 → Forall is_byte memo →
  encrypt_note (ad_ek (sk_address sk)) note memo randomness = Ok c →
  wk_open (wallet_keys sk) (nc_to_bytes c) = Some (received note memo).
Proof.
  intros Hn Hown Hl Hb Hc. destruct (note_opens sk note memo randomness Hn Hown Hl Hb) as (c' & Hc' & Hw & _ & _ & _ & Hd).
  rewrite Hc in Hc'. injection Hc' as <-. cbn [wallet_keys wk_open]. rewrite nc_from_bytes_to by done. by rewrite Hd.
Qed.

(** C4: a payment is credited. Someone encrypts a note to this seed's
    address; a block's body carries the bytes in a call the scan reads, and the
    block appends the note's commitment. Once a pass over that leaf commits,
    the wallet holds a note on the chain under that commitment, or has refused
    it because its nullifier is already used; and the note held has exactly the
    payment's value and seeds, unless the four inputs hashed to commit to it
    and to the payment contain a collision of the sponge. *)
Theorem payment_is_credited nd md sk rescan s s' rep i r note memo randomness c
    (Hbytes : storage_bytes nd) (Hok : store_ok s) (Hg : Forall (genuine sk) (ws_notes s)) (Hpass : sync_with nd md (wallet_keys sk) rescan s = Ok (s', rep))
    (Hi : rp_scanned_from rep ≤ i < rp_scanned_to rep)
    (Hleaf : ∀ head, chain_head nd = Ok head → leaf_record nd (hd_hash head) (rp_scanned_to rep) i = Ok r)
    (Hnote : note_ok note) (Hown : nt_pk note = sk_pk sk) (Hmemo : Z.of_nat (length memo) < 2 ^ 31 ∧ Forall is_byte memo)
    (Hc : encrypt_note (ad_ek (sk_address sk)) note memo randomness = Ok c)
    (Hcm : lr_commitment r = Some (note_commitment note))
    (Hcarries : ∀ b body payloads, served nd b → lr_block_number r = Some (vb_number b) → authenticated_body nd b = Ok body →
       chain_payloads md body = Ok payloads → nc_to_bytes c ∈ payloads) :
  (∃ n, n ∈ ws_notes s' ∧ sn_on_chain n = true ∧ sn_commitment n = note_commitment note ∧
     (collides (note_pres (opened sk (sn_value n) (sn_rho n) (sn_r n)) ++ note_pres note) ∨
      sn_value n = nt_value note ∧ sn_rho n = nt_rho note ∧ sn_r n = nt_r note)) ∨
  (note_commitment note ∈ rn_commitment <$> ws_rejected s' ∧ nullifier (sk_nk sk) (nt_rho note) (nt_r note) ∈ ws_used_nullifiers s').
Proof.
  destruct (pass_settles_leaves _ _ _ _ _ _ _ Hok Hpass) as (head & genesis & Hhead & _ & _ & Hall).
  destruct (Hall i Hi) as (r' & Hr' & cm & n & b & body & payloads & Hcm' & Hn & Hsv & Hbn & Hbody & Hpay & Hopen & _).
  rewrite (Hleaf head Hhead) in Hr'. injection Hr' as <-. rewrite Hcm in Hcm'. injection Hcm' as <-. destruct Hmemo as [Hml Hmb].
  pose proof (payment_payload sk note memo randomness c Hnote Hown Hml Hmb Hc) as Hop.
  rewrite <- Hbn in Hn. specialize (Hopen _ _ (Hcarries b body payloads Hsv Hn Hbody Hpay) Hop eq_refl).
  destruct Hopen as [(m & Hm & Hmc & Hon)|[Hrej Hused]]; [|by right]. left. exists m. split_and!; [done..|].
  pose proof (sync_genuine _ _ _ _ _ _ _ Hpass Hbytes Hok Hg) as Hg'. rewrite Forall_forall in Hg'. destruct (Hg' m Hm) as (Hgc & _ & Hgo).
  destruct (note_commitment_binds (opened sk (sn_value m) (sn_rho m) (sn_r m)) note Hgo Hnote) as [?|Heq]; [congruence|by left|right].
  rewrite <- Heq. done.
Qed.
End Ledger.
