(* ===== verification/WalletLedgerWitnesses.v ===== *)
(** * A payment, end to end

    A note encrypted to a seed's address, settled in a block, and found by the
    pass of the wallet that holds the seed. *)

From stdpp Require Import base option numbers list gmap strings.
From S2P Require Import Prelude Crypto NoteRules Verifier VerifierProps Interfaces Shielded ShieldedWitnesses Header CircuitMerkle WalletTyping WalletText WalletExtrinsic WalletStore WalletChain WalletChainProps WalletSync WalletSyncProps WalletSyncTheorems WalletSyncWitnesses Profile NoteCore NoteCipher NoteCipherProps WalletSpend WalletLedger.
#[local] Open Scope Z_scope.

Module ToyLedger.
Import ToyCrypto ToyNotes ToyCipher ToyHeader ScaleFormat ToyExtrinsic ToyChain ToySync.

Definition memo : list Z := [104; 105] ++ replicate 59 0.
Definition sent_ct : NoteCiphertext := match encrypt_note (ad_ek (sk_address toy_sk)) (owned 5) memo [1] with Ok c => c | Err _ => toy_ct end.
Definition sent : list Z := nc_to_bytes sent_ct.
Definition other : Hash256 := toy_digest 99.
Definition paying_body : list (list Z) := [unwrap (encode_submit_private_batch toy_md [9; 9; 9] [{| wo_ct_1 := sent; wo_ct_2 := [7] |}])].
Definition paying : Node := node_over (note_commitment (owned 5)) other paying_body.
Definition toy_keys : WalletKeys := wallet_keys toy_sk.
Definition run_paying : WalletStore * SyncReport := run paying toy_keys false fresh_store.

Definition one_note (s : WalletStore) (rep : SyncReport) : bool := (length (ws_notes s) =? 1)%nat && scanned_two s rep.
Lemma paying_passes : passes one_note (sync_with paying toy_md toy_keys false fresh_store) = true.
Proof. vm_compute. reflexivity. Qed.
Lemma paying_Ok : sync_with paying toy_md toy_keys false fresh_store = Ok (run_paying.1, run_paying.2).
Proof. exact (proj1 (run_passes _ _ _ _ _ paying_passes)). Qed.
Lemma one_note_eq s rep : one_note s rep = true → length (ws_notes s) = 1%nat ∧ rp_scanned_from rep = 0 ∧ rp_scanned_to rep = 2.
Proof. unfold one_note. intros [Hl Hs]%andb_prop. exact (conj (proj1 (Nat.eqb_eq _ _) Hl) (scanned_two_eq _ _ Hs)). Qed.
Lemma paying_found : length (ws_notes run_paying.1) = 1%nat ∧ rp_scanned_from run_paying.2 = 0 ∧ rp_scanned_to run_paying.2 = 2.
Proof. exact (one_note_eq _ _ (proj2 (run_passes _ _ _ _ _ paying_passes))). Qed.
Lemma le_bytes_ok w v : Forall is_byte (le w v).
Proof. unfold le. apply Forall_fmap, Forall_true. intros i. by apply Z.mod_pos_bound. Qed.
Lemma storage_over_bytes pay rew k bytes :
  Forall is_byte pay → Forall is_byte rew → storage pay rew k = Some bytes → Forall is_byte bytes.
Proof.
  intros Hp Hr. unfold storage. destruct k; repeat case_match; intros Hs; try discriminate Hs; apply (inj Some) in Hs; subst bytes;
    first [exact Hp|exact Hr|apply le_bytes_ok].
Qed.
Lemma node_over_bytes pay rew body : Forall is_byte pay → Forall is_byte rew → storage_bytes (node_over pay rew body).
Proof.
  intros Hp Hr at_ k bytes Hs. unfold node_over in Hs. cbn [nd_storage] in Hs. apply (inj Some) in Hs.
  exact (storage_over_bytes _ _ _ _ Hp Hr Hs).
Qed.
Lemma paying_bytes : storage_bytes paying.
Proof. apply node_over_bytes; [apply (hash_felts_good CM)|apply (hash_felts_good 1)]. Qed.
Lemma fresh_genuine : Forall (genuine toy_sk) (ws_notes fresh_store).
Proof. constructor. Qed.

Lemma ledger_is_genuine_witness : Forall (genuine toy_sk) (ws_notes run_paying.1) ∧ length (ws_notes run_paying.1) = 1%nat.
Proof.
  split; [|exact (proj1 paying_found)].
  exact (ledger_is_genuine paying toy_md toy_sk false fresh_store _ _ paying_bytes fresh_ok fresh_genuine paying_Ok).
Defined.

Definition leaf0 : LeafRecord :=
  {| lr_index := 0; lr_commitment := Some (note_commitment (owned 5)); lr_block_number := Some 1; lr_coinbase_value := None |}.
Lemma paying_range : rp_scanned_from run_paying.2 = 0 ∧ rp_scanned_to run_paying.2 = 2.
Proof. exact (proj2 paying_found). Qed.
Lemma paying_leaf : ∀ head, chain_head paying = Ok head → leaf_record paying (hd_hash head) (rp_scanned_to run_paying.2) 0 = Ok leaf0.
Proof. intros head _. rewrite (proj2 paying_range). generalize (hd_hash head). intros at_. vm_compute. reflexivity. Qed.
Lemma sent_Ok : encrypt_note (ad_ek (sk_address toy_sk)) (owned 5) memo [1] = Ok sent_ct.
Proof. vm_compute. reflexivity. Qed.

(** The one block the node serves at height 1 is the paying one. *)
Lemma paying_payloads : chain_payloads toy_md paying_body = Ok [sent; [7]].
Proof. vm_compute. reflexivity. Qed.
Lemma node_over_body pay rew body b answer :
  served (node_over pay rew body) b → vb_number b = 1 → authenticated_body (node_over pay rew body) b = Ok answer → answer = body.
Proof.
  intros (raw & Hraw & header & _ & _ & Hnum & _) Hb Hbody.
  assert (Hn : rh_number header_g = 0) by reflexivity.
  unfold node_over in Hraw. cbn zeta in Hraw. cbn [nd_header] in Hraw.
  destruct (bool_decide (vb_hash b = hash_of header_g)); [apply (inj Some) in Hraw; subst raw; rewrite Hn in Hnum; congruence|].
  destruct (bool_decide (vb_hash b = hash_of (header_over pay rew body))) eqn:Hh; [|discriminate Hraw].
  unfold authenticated_body in Hbody. apply bind_Ok in Hbody as (got & Ha%ok_or_Ok & Hbody). unfold node_over in Ha. cbn zeta in Ha.
  cbn [nd_body] in Ha. rewrite Hh in Ha. apply (inj Some) in Ha. subst got.
  apply bind_Ok in Hbody as (body' & Hb'%ok_or_Ok & Hbody). apply (inj Some) in Hb'. subst body'.
  apply bind_Ok in Hbody as (u & _ & Hbody). apply bind_Ok in Hbody as (u1 & _ & Hbody). apply bind_Ok in Hbody as (root & _ & Hbody).
  apply bind_Ok in Hbody as (u2 & _ & Hbody). by injection Hbody.
Qed.
Lemma paying_carries b body payloads :
  served paying b → lr_block_number leaf0 = Some (vb_number b) → authenticated_body paying b = Ok body →
  chain_payloads toy_md body = Ok payloads → nc_to_bytes sent_ct ∈ payloads.
Proof.
  intros Hs Hb Hbody Hpay. apply (inj Some) in Hb. pose proof (node_over_body _ _ _ _ _ Hs (eq_sym Hb) Hbody) as ->.
  rewrite paying_payloads in Hpay. assert (Hp : payloads = [sent; [7]]) by congruence. rewrite Hp. apply list_elem_of_here.
Qed.

Lemma payment_is_credited_witness :
  (∃ n, n ∈ ws_notes run_paying.1 ∧ sn_on_chain n = true ∧ sn_commitment n = note_commitment (owned 5)) ∨
  nullifier (sk_nk toy_sk) (nt_rho (owned 5)) (nt_r (owned 5)) ∈ ws_used_nullifiers run_paying.1.
Proof.
  destruct (payment_is_credited paying toy_md toy_sk false fresh_store run_paying.1 run_paying.2 0 leaf0 (owned 5) memo [1] sent_ct
    paying_bytes fresh_ok fresh_genuine paying_Ok) as [(n & Hn & Ho & Hv & _)|[_ Hu]].
  - destruct paying_range as [Hf Ht]. rewrite Hf, Ht. lia.
  - exact paying_leaf.
  - exact owned_ok.
  - reflexivity.
  - split; [reflexivity|]. apply Forall_app. split; [repeat constructor; done|by apply Forall_replicate].
  - exact sent_Ok.
  - reflexivity.
  - exact paying_carries.
  - left. exists n. exact (conj Hn (conj Ho Hv)).
  - right. exact Hu.
Defined.
End ToyLedger.

(** ** A spend, priced on a concrete wallet *)
#[local] Existing Instance toy_plonky.

Module ToySpend.
Import ToyCrypto ToyNotes ToyCipher.
Definition toy_note (i v : Z) : StoredNote :=
  {| sn_leaf_index := i; sn_block_number := Some 1; sn_value := v; sn_commitment := [i]; sn_nullifier := [100 + i]; sn_rho := []; sn_r := [];
     sn_memo := []; sn_origin := Spend; sn_spent := false; sn_on_chain := true; sn_spent_seen_at_block := None |}.
Definition toy_store : WalletStore := set_notes [toy_note 0 30; toy_note 1 500; toy_note 2 90] (store_new []).

Lemma selection_is_optimal_witness :
  select_notes (spendable toy_store) 560 = Ok [toy_note 1 500; toy_note 2 90] ∧ 560 ≤ total_value [toy_note 1 500; toy_note 2 90].
Proof.
  split; [vm_compute; reflexivity|].
  destruct (selection_is_optimal (spendable toy_store) 560 ltac:(vm_compute; repeat constructor; discriminate) ltac:(vm_compute; split; discriminate))
    as (_ & _ & Hc & _). exact Hc.
Defined.

Definition toy_md : ChainMetadata :=
  {| md_protocol_profile := SUPPORTED_PROFILE; md_shielded_pallet_index := 24; md_submit_private_batch := 0; md_submit_public_batch := 1;
     md_shield := 2; md_block_hash_window := 256; md_min_leaf_fee := MinLeafFee toy_cfg;
     md_ciphertext_bytes_per_fee_quantum := CiphertextBytesPerFeeQuantum toy_cfg;
     md_max_ciphertext_bytes := 2048; md_signed_extensions := []; md_extrinsic_version := 4; md_storage := [] |}.
Definition priced : PreflightPlan := {| pf_fee := 17; pf_floor := 17 |}.
Definition toy_pair : ShieldedOutput := {| ct_1 := replicate 1792 0; ct_2 := replicate 1792 0 |}.
Lemma toy_preflight :
  preflight 6 toy_md toy_store (ad_ek (sk_address toy_sk)) (ad_ek (sk_address toy_sk)) [104; 105] [1] [2] 540 None RefuseHighFee = Ok priced.
Proof. vm_compute. reflexivity. Qed.
Lemma preflight_prices_a_settlement_witness :
  fee_floor toy_cfg (MinLeafFee toy_cfg) (output_bytes toy_pair) ≤ 17 ∧ ∃ chosen, select_notes (spendable toy_store) 557 = Ok chosen.
Proof.
  destruct (preflight_prices_a_settlement 6 toy_md toy_cfg toy_store _ _ _ _ _ 540 None RefuseHighFee priced toy_pair toy_preflight (conj eq_refl eq_refl)
    ltac:(vm_compute; split; [discriminate|reflexivity]) ltac:(repeat constructor; vm_compute; discriminate) ltac:(vm_compute; discriminate)
    ltac:(split; vm_compute; reflexivity)) as (Hf & _ & _ & _ & chosen & Hc & _).
  split; [exact Hf|]. exists chosen. exact Hc.
Defined.
End ToySpend.
