(* ===== verification/WalletSend.v ===== *)
(** * Sending a payment

    [crates/qnero-wallet/src/wallet.rs], [Wallet::send]: [prepare_spend] with
    the two ways it obtains its Merkle paths, [submit_spend], and the one error
    that writes to the store; with what they read of [chain.rs]. Everything
    [prepare_spend] does up to the call of the prover is [assemble_spend].

    A command's writes and its submission are recorded in order, as a list of
    [Action]s, because their order is what a crash between two of them makes
    visible. A draw the operating system's RNG refuses ends the command like
    any error of [assemble_spend], so the draws are given: [Draws]. *)

From stdpp Require Import base option numbers list gmap.
From S2P Require Import Prelude Crypto NoteRules Header CircuitMerkle NoteCore LeafCircuit WalletText NoteCipher WalletExtrinsic WalletChain WalletStore Profile WalletSpend.
#[local] Open Scope Z_scope.

(** ** What a spend reads beyond a scan *)
(** [RawMerkleProof], the answer of [zkTree_getMerkleProof]. *)
Record RawMerkleProof := {
  mp_leaf_index : Z;
  mp_leaf_hash : list Z;
  mp_depth : nat;
  mp_siblings : list (list Z * list Z * list Z);
  mp_root : list Z;
}.
Record SpendNode := {
  sp_node : Node;
  (** [ZkTree::Depth] and [Shielded::ActiveProtocolProfile]. *)
  sp_depth : Hash256 → option (option (list Z));
  sp_profile : option Hash256 → option (option (list Z));
  sp_proof : Z → Hash256 → option (option RawMerkleProof);
}.

Inductive SendError :=
| SProfile (e : ProfileError)
| SNoProfile
| SProfileDiffers
| SVerifiers
| SMetadata (e : ExtrinsicError)
| SFee (e : FeeError)
| SStore (e : StoreError)
| SChain (e : ChainError)
| STargetOverflows
| SSelect (e : SelectError)
| SMerkle (e : CircuitMerkle.MerkleError)
| SRootDiffers
| SShortTree (leaf_count watermark : Z)
| NoteNotOnChain (commitment : Hash256) (leaf_index recorded_at_block anchor_block leaf_count : Z)
| SNotFolded (leaf_index : Z)
| SLeafDiffers (leaf_index : Z)
| SOtherProof (leaf_index : Z)
| SProofShape (leaf_index : Z)
| SNotCanonical
| SNote (e : NoteError)
| SSlots (n : nat)
| SWitness (e : WitnessError)
| SMemo (e : MemoError)
| SCipher (e : NotesError)
| SCiphertextLengths (ct_1 ct_2 : nat)
| SProver
| SOwnProof
| SSave
| SRefused
| SNotIncluded
| SNotSettled.

Inductive MerkleSource := MerkleLocal | MerkleRpc.

Record LocalTree := { lt_leaves : list Hash256; lt_tree : CircuitMerkle.CommitmentTree }.

(** What the command draws, in the order it draws it. [dr_payment_slot] is
    [choose_payment_slot]: true for slot one. *)
Record Draws := {
  dr_probe_1 : list Z;
  dr_probe_2 : list Z;
  dr_probe_3 : list Z;
  dr_probe_4 : list Z;
  dr_dummy : list Z;
  dr_payment_slot : bool;
  dr_payment_r : list Z;
  dr_change_r : list Z;
  dr_payment_kem : list Z;
  dr_change_kem : list Z;
}.

(** [b"qnero-wallet/out-payment"] and [b"qnero-wallet/out-change"]. *)
Definition OUT_PREFIX : list Z := [113; 110; 101; 114; 111; 45; 119; 97; 108; 108; 101; 116; 47; 111; 117; 116; 45].
Definition OUT_PAYMENT : list Z := OUT_PREFIX ++ [112; 97; 121; 109; 101; 110; 116].
Definition OUT_CHANGE : list Z := OUT_PREFIX ++ [99; 104; 97; 110; 103; 101].

(** The spend as it reaches the prover. *)
Record Assembled `{PoseidonOps} := {
  as_witness : SpendWitness;
  as_output : WalletOutput;
  as_payment_note : Note;
  as_change_note : Note;
  as_selected : list StoredNote;
  as_fee : Z;
  as_change : Z;
  as_head : ChainHead;
}.

(** [PreparedSpend]; the proving time is left out. *)
Record PreparedSpend := {
  ps_proof : list Z;
  ps_outputs : list WalletOutput;
  ps_nullifiers : Hash256 * Hash256;
  ps_change_note : PendingNote;
  ps_spent_nullifiers : list Hash256;
  ps_input_leaves : list Z;
  ps_amount : Z;
  ps_fee : Z;
  ps_change : Z;
  ps_anchor_block : Z;
}.

Section Prepare.
Context `{NoteCrypto, HeaderCodec, ScaleCompact, BodyOps}.
Implicit Types (nd : SpendNode) (s : WalletStore) (md : ChainMetadata) (sk : Hash256).
Abbreviation M := (result SendError).

(** [metadata.rs], [ensure_active_profile]. *)
Definition ensure_active_profile (num_leaf_proofs : nat) nd md (at_ : option Hash256) : M unit :=
  _ ← map_err SProfile (ensure_supported (md_protocol_profile md) num_leaf_proofs);
  answer ← ok_or (sp_profile nd at_) (SChain RpcFailed);
  value ← ok_or answer SNoProfile;
  _ ← map_err SProfile (ensure_supported value num_leaf_proofs);
  ensure (bool_decide (value = md_protocol_profile md)) SProfileDiffers.

(** [StoredNote::note]. *)
Definition stored_note (pk : Hash256) (n : StoredNote) : M Note :=
  rho ← map_err SNote (digest_from_slice (sn_rho n));
  r ← map_err SNote (digest_from_slice (sn_r n));
  map_err SNote (note_new pk (sn_value n) rho r).

(** ** The tree, rebuilt *)
Definition tree_depth_at nd (at_ : Hash256) : M nat :=
  answer ← ok_or (sp_depth nd at_) (SChain RpcFailed);
  match answer with
  | Some bytes => d ← map_err SChain (decode_exact 1 bytes); Ok (Z.to_nat d)
  | None => Ok 0%nat
  end.
Definition rebuild_tree nd (at_ : Hash256) : M LocalTree :=
  leaf_count ← map_err SChain (leaf_count_at (sp_node nd) at_);
  depth ← tree_depth_at nd at_;
  leaves ← map_err SChain (leaf_hashes (sp_node nd) 0 leaf_count leaf_count at_);
  tree ← map_err SMerkle (CircuitMerkle.tree_new leaves depth);
  Ok {| lt_leaves := leaves; lt_tree := tree |}.
Definition tree_leaf_count (t : LocalTree) : Z := Z.of_nat (length (lt_leaves t)).

Definition short_tree_refusal (leaf_count watermark : Z) : option SendError :=
  if watermark <=? leaf_count then None else Some (SShortTree leaf_count watermark).
Definition out_of_range (n : StoredNote) (leaf_count anchor_block : Z) : SendError :=
  match sn_block_number n with
  | Some block =>
      if block <? anchor_block
      then NoteNotOnChain (sn_commitment n) (sn_leaf_index n) block anchor_block leaf_count
      else SNotFolded (sn_leaf_index n)
  | None => SNotFolded (sn_leaf_index n)
  end.

(** The body of the loop of [local_paths]. *)
Definition local_path (pk : Hash256) (t : LocalTree) (header : CircuitHeader.HeaderInputs) (n : StoredNote) :
    M (Note * CircuitMerkle.MerklePath) :=
  stored ← stored_note pk n;
  let index := Z.to_nat (sn_leaf_index n) in
  on_chain ← ok_or (lt_leaves t !! index) (SLeafDiffers (sn_leaf_index n));
  _ ← ensure (bool_decide (on_chain = note_commitment stored)) (SLeafDiffers (sn_leaf_index n));
  path ← map_err SMerkle (CircuitMerkle.tree_path (lt_tree t) index);
  reached ← map_err SMerkle (CircuitMerkle.path_root path (note_commitment stored));
  _ ← ensure (bool_decide (dfelts reached = CircuitHeader.ci_zk_tree_root header)) SRootDiffers;
  Ok (stored, path).
Definition local_paths nd s (pk : Hash256) (selected : list StoredNote) (header : CircuitHeader.HeaderInputs)
    (anchor_hash : Hash256) (anchor_block : Z) : M (list (Note * CircuitMerkle.MerklePath)) :=
  tree ← rebuild_tree nd anchor_hash;
  _ ← ensure (bool_decide (dfelts (CircuitMerkle.tree_root (lt_tree tree)) = CircuitHeader.ci_zk_tree_root header)) SRootDiffers;
  _ ← match short_tree_refusal (tree_leaf_count tree) (ws_next_leaf s) with Some refusal => Err refusal | None => Ok tt end;
  _ ← all_ok (λ n, ensure (sn_leaf_index n <? tree_leaf_count tree) (out_of_range n (tree_leaf_count tree) anchor_block)) selected;
  map_result (local_path pk tree header) selected.

(** ** Paths from the node *)
Definition sibling_digests (level : list Z * list Z * list Z) : M (Hash256 * Hash256 * Hash256) :=
  let '(a, b, c) := level in
  a ← map_err (λ _, SNotCanonical) (digest_from_slice a);
  b ← map_err (λ _, SNotCanonical) (digest_from_slice b);
  c ← map_err (λ _, SNotCanonical) (digest_from_slice c);
  Ok (a, b, c).
Definition merkle_path nd (leaf_index : Z) (leaf : Hash256) (at_ : Hash256) : M (option (CircuitMerkle.MerklePath * Hash256)) :=
  answer ← ok_or (sp_proof nd leaf_index at_) (SChain RpcFailed);
  match answer with
  | None => Ok None
  | Some raw =>
      _ ← ensure (mp_leaf_index raw =? leaf_index) (SOtherProof leaf_index);
      _ ← ensure (bool_decide (mp_leaf_hash raw = leaf)) (SLeafDiffers leaf_index);
      _ ← ensure (length (mp_siblings raw) =? mp_depth raw)%nat (SProofShape leaf_index);
      siblings ← map_result sibling_digests (mp_siblings raw);
      path ← map_err SMerkle (CircuitMerkle.from_unsorted siblings leaf);
      root ← map_err (λ _, SNotCanonical) (digest_from_slice (mp_root raw));
      recomputed ← map_err SMerkle (CircuitMerkle.path_root path leaf);
      _ ← ensure (bool_decide (recomputed = root)) SRootDiffers;
      Ok (Some (path, root))
  end.
Definition rpc_path nd (pk : Hash256) (header : CircuitHeader.HeaderInputs) (anchor_hash : Hash256) (n : StoredNote) :
    M (Note * CircuitMerkle.MerklePath) :=
  stored ← stored_note pk n;
  answer ← merkle_path nd (sn_leaf_index n) (note_commitment stored) anchor_hash;
  '(path, root) ← ok_or answer (SNotFolded (sn_leaf_index n));
  _ ← ensure (bool_decide (dfelts root = CircuitHeader.ci_zk_tree_root header)) SRootDiffers;
  Ok (stored, path).
Definition rpc_paths nd (pk : Hash256) (selected : list StoredNote) (header : CircuitHeader.HeaderInputs) (anchor_hash : Hash256) :
    M (list (Note * CircuitMerkle.MerklePath)) :=
  map_result (rpc_path nd pk header anchor_hash) selected.

(** ** The witness *)
(** The two input slots; [paths[0]] gives the depth. *)
Definition spend_inputs sk (seed : list Z) (paths : list (Note * CircuitMerkle.MerklePath)) : M (InputNote * InputNote * nat) :=
  let ask := sk_ask sk in let nk := sk_nk sk in
  match paths with
  | [(note, path)] =>
      let depth := length (CircuitMerkle.siblings path) in
      real ← map_err SWitness (input_real ask nk note path);
      Ok (real, dummy_random seed ask nk depth, depth)
  | [(first_note, first_path); (second_note, second_path)] =>
      first ← map_err SWitness (input_real ask nk first_note first_path);
      second ← map_err SWitness (input_real ask nk second_note second_path);
      Ok (first, second, length (CircuitMerkle.siblings first_path))
  | _ => Err (SSlots (length paths))
  end.
Definition random_digest (domain bytes : list Z) : Hash256 := digest_hash_bytes [domain; bytes].
Definition output_ct_digest (o : WalletOutput) : M Hash256 :=
  map_err (λ _, SNotCanonical) (digest_from_slice (ct_digest [wo_ct_1 o; wo_ct_2 o])).

Definition with_ct_digest (w : SpendWitness) (d : Hash256) : SpendWitness :=
  {| sw_header := sw_header w; sw_depth := sw_depth w; sw_inputs := sw_inputs w; sw_outputs := sw_outputs w;
     sw_fee := sw_fee w; sw_ct_digest := d |}.

(** The outputs, encrypted and bound: from the choice of the slots to the
    second [validate]. *)
Definition seal_outputs sk (to : Address) (amount change fee : Z) (memo : list Z) (lengths : nat * nat) (dr : Draws)
    (header : CircuitHeader.HeaderInputs) (inputs : InputNote * InputNote) (depth : nat) :
    M (SpendWitness * WalletOutput * Note * Note) :=
  let payment_slot := if dr_payment_slot dr then 1 else 0 in
  let change_slot := 1 - payment_slot in
  let payment_out := {| out_pk := ad_pk to; out_value := amount; out_r := random_digest OUT_PAYMENT (dr_payment_r dr) |} in
  let change_out := {| out_pk := sk_pk sk; out_value := change; out_r := random_digest OUT_CHANGE (dr_change_r dr) |} in
  let outputs := if payment_slot =? 0 then (payment_out, change_out) else (change_out, payment_out) in
  let witness := {| sw_header := header; sw_depth := depth; sw_inputs := inputs; sw_outputs := outputs; sw_fee := fee; sw_ct_digest := zero_hash |} in
  _ ← map_err SWitness (validate witness);
  payment_note ← map_err SWitness (output_note witness payment_slot);
  change_note ← map_err SWitness (output_note witness change_slot);
  padded ← map_err SMemo (pad_memo memo);
  payment_c ← map_err SCipher (encrypt_note (ad_ek to) payment_note padded (dr_payment_kem dr));
  empty ← map_err SMemo (pad_memo []);
  change_c ← map_err SCipher (encrypt_note (ad_ek (sk_address sk)) change_note empty (dr_change_kem dr));
  let payment_ct := nc_to_bytes payment_c in
  let change_ct := nc_to_bytes change_c in
  let '(ct_1, ct_2) := if payment_slot =? 0 then (payment_ct, change_ct) else (change_ct, payment_ct) in
  let required := SUITE_1_CIPHERTEXT_BYTES in
  _ ← ensure ((length ct_1 =? lengths.1)%nat && (length ct_2 =? lengths.2)%nat &&
              (Z.of_nat (length ct_1) =? required) && (Z.of_nat (length ct_2) =? required))
        (SCiphertextLengths (length ct_1) (length ct_2));
  let output := {| wo_ct_1 := ct_1; wo_ct_2 := ct_2 |} in
  d ← output_ct_digest output;
  let witness := with_ct_digest witness d in
  _ ← map_err SWitness (validate witness);
  Ok (witness, output, payment_note, change_note).

(** [prepare_spend] up to the prover. [supported] is the answer of
    [ensure_supported_verifiers]. *)
Definition assemble_spend (num_leaf_proofs : nat) (supported : bool) nd md sk s (to : Address) (amount : Z) (requested_fee : option Z)
    (memo : list Z) (merkle : MerkleSource) (high_fee : HighFee) (dr : Draws) : M Assembled :=
  _ ← ensure_active_profile num_leaf_proofs nd md None;
  _ ← ensure supported SVerifiers;
  _ ← map_err SMetadata (ensure_known_storage md);
  _ ← map_err SFee (ensure_memo_pad_fits md);
  genesis ← map_err SChain (genesis_hash (sp_node nd));
  _ ← map_err SStore (ensure_genesis genesis s);
  let own_ek := ad_ek (sk_address sk) in
  plan ← map_err SFee (resolve_fee md own_ek (ad_ek to) memo (dr_probe_1 dr) (dr_probe_2 dr) amount requested_fee high_fee);
  let fee := pf_fee plan in
  lengths ← map_err SFee (probe_lengths own_ek (ad_ek to) memo (dr_probe_3 dr) (dr_probe_4 dr));
  target ← ok_or (checked_add 64 amount fee) STargetOverflows;
  selected ← map_err SSelect (select_notes (spendable s) target);
  let input_total := sum_u64 sn_value selected in
  let change := (input_total - target) mod 2 ^ 64 in
  head ← map_err SChain (chain_head (sp_node nd));
  '(header, anchor_hash) ← map_err SChain (anchor_header (sp_node nd) (hd_number head));
  _ ← ensure_active_profile num_leaf_proofs nd md (Some anchor_hash);
  let pk := sk_pk sk in
  paths ← match merkle with
          | MerkleLocal => local_paths nd s pk selected header anchor_hash (hd_number head)
          | MerkleRpc => rpc_paths nd pk selected header anchor_hash
          end;
  '(inputs, depth) ← spend_inputs sk (dr_dummy dr) paths;
  '(witness, output, payment_note, change_note) ← seal_outputs sk to amount change fee memo lengths dr header inputs depth;
  Ok {| as_witness := witness; as_output := output; as_payment_note := payment_note; as_change_note := change_note;
        as_selected := selected; as_fee := fee; as_change := change; as_head := head |}.

(** The change note as [prepare_spend] records it. *)
Definition pending_change (a : Assembled) : PendingNote :=
  let note := as_change_note a in
  {| pn_kind := PendingChange; pn_commitment := note_commitment note; pn_value := as_change a; pn_rho := nt_rho note; pn_r := nt_r note;
     pn_memo := []; pn_submitted_at_block := hd_number (as_head a); pn_extrinsic := [] |}.
End Prepare.

(** ** Proving and submitting *)
(** The prover of the build: whether its circuits are the release's, its
    [prove_submission], its own batch verifier and the canonical encoding. *)
Record Prover `{PoseidonOps} := {
  pv_proof : Type;
  pv_supported : bool;
  pv_prove_submission : list SpendWitness → option pv_proof;
  pv_verify : pv_proof → bool;
  pv_to_bytes : pv_proof → list Z;
}.

(** What leaves the process, in order: the file as it is saved, and the
    extrinsic handed to the node. *)
Inductive Action := Saved (s : WalletStore) | Submitted (extrinsic : list Z).

(** How a save ends. It publishes by a rename and then syncs the directory: it
    can fail before the rename, with the old store in place, or after it, with
    the new one. *)
Inductive SaveOutcome := Written | Unwritten | Unsynced.
Definition save_ok (o : SaveOutcome) : bool := match o with Written => true | _ => false end.

(** What the environment answers [submit_spend]: how each save ends, the
    node's answer to the submission, the node as every poll of
    [wait_for_inclusion] finds it until the deadline (the code polls at least
    once), and the node that answers for the block of inclusion. *)
Record Environment := {
  en_saves : SaveOutcome * SaveOutcome;
  en_accepts : bool;
  en_polls : list Node;
  en_after : Node;
  en_used : Hash256 → Hash256 → option bool;
}.

Record SendReport := {
  sr_amount : Z;
  sr_fee : Z;
  sr_change : Z;
  sr_inputs : list Z;
  sr_anchor_block : Z;
  sr_included_at : Z;
  sr_proof_bytes : nat;
}.

Section Send.
Context `{NoteCrypto, HeaderCodec, ScaleCompact, BodyOps}.
Implicit Types (nd : SpendNode) (s : WalletStore) (md : ChainMetadata) (sk : Hash256) (env : Environment).
Abbreviation M := (result SendError).

Definition prepare_spend (num_leaf_proofs : nat) (prover : Prover) nd md sk s (to : Address) (amount : Z) (requested_fee : option Z)
    (memo : list Z) (merkle : MerkleSource) (high_fee : HighFee) (dr : Draws) : M PreparedSpend :=
  a ← assemble_spend num_leaf_proofs (pv_supported prover) nd md sk s to amount requested_fee memo merkle high_fee dr;
  let w := as_witness a in
  proof ← ok_or (pv_prove_submission prover [w]) SProver;
  _ ← ensure (pv_verify prover proof) SOwnProof;
  Ok {| ps_proof := pv_to_bytes prover proof; ps_outputs := [as_output a];
        ps_nullifiers := (input_nullifier (sw_inputs w).1, input_nullifier (sw_inputs w).2);
        ps_change_note := pending_change a; ps_spent_nullifiers := sn_nullifier <$> as_selected a;
        ps_input_leaves := sn_leaf_index <$> as_selected a; ps_amount := amount; ps_fee := as_fee a; ps_change := as_change a;
        ps_anchor_block := hd_number (as_head a) |}.

(** [wait_for_inclusion]. The inner loop reads the blocks up to the head of
    this poll; the next poll goes on above them. *)
Definition block_has (nd' : Node) (extrinsic : list Z) (number : Z) : M bool :=
  hash ← map_err SChain (chain_block_hash nd' number);
  answer ← ok_or (nd_body nd' hash) (SChain RpcFailed);
  body ← ok_or answer (SChain (WithheldBody number));
  Ok (bool_decide (extrinsic ∈ body)).
Fixpoint find_block (nd' : Node) (extrinsic : list Z) (numbers : list Z) : M (option Z) :=
  match numbers with
  | [] => Ok None
  | number :: rest =>
      has ← block_has nd' extrinsic number;
      if (has : bool) then Ok (Some number) else find_block nd' extrinsic rest
  end.
Fixpoint wait_for_inclusion (polls : list Node) (extrinsic : list Z) (next : Z) : M Z :=
  match polls with
  | [] => Err SNotIncluded
  | nd' :: rest =>
      head ← map_err SChain (chain_head nd');
      found ← find_block nd' extrinsic (heights next (hd_number head + 1));
      match found with
      | Some number => Ok number
      | None => wait_for_inclusion rest extrinsic (Z.max next (hd_number head + 1))
      end
  end.

Definition push_pending (p : PendingNote) s : WalletStore := set_pending (ws_pending s ++ [p]) s.
Definition with_extrinsic (p : PendingNote) (extrinsic : list Z) : PendingNote :=
  {| pn_kind := pn_kind p; pn_commitment := pn_commitment p; pn_value := pn_value p; pn_rho := pn_rho p; pn_r := pn_r p;
     pn_memo := pn_memo p; pn_submitted_at_block := pn_submitted_at_block p; pn_extrinsic := extrinsic |}.

(** From the acceptance of the extrinsic to the report: the block, whether it
    settled the two nullifiers, and the notes marked. *)
Definition confirm env (prepared : PreparedSpend) (encoded : list Z) s : M (WalletStore * Z) :=
  included_at ← wait_for_inclusion (en_polls env) encoded (ps_anchor_block prepared + 1);
  included_hash ← map_err SChain (chain_block_hash (en_after env) included_at);
  first ← ok_or (en_used env (ps_nullifiers prepared).1 included_hash) (SChain RpcFailed);
  second ← ok_or (en_used env (ps_nullifiers prepared).2 included_hash) (SChain RpcFailed);
  _ ← ensure (first && second) SNotSettled;
  Ok (foldl (λ s nullifier, mark_spent nullifier included_at s) s (ps_spent_nullifiers prepared), included_at).

(** What a save leaves behind. *)
Definition save (o : SaveOutcome) s : list Action := match o with Unwritten => [] | _ => [Saved s] end.

Definition submit_spend env nd md s (prepared : PreparedSpend) : list Action * M SendReport :=
  match (encoded ← map_err SMetadata (encode_submit_private_batch md (ps_proof prepared) (ps_outputs prepared));
         genesis ← map_err SChain (genesis_hash (sp_node nd));
         '(_, bound) ← map_err SStore (bind_genesis genesis s);
         Ok (encoded, push_pending (with_extrinsic (ps_change_note prepared) encoded) bound)) with
  | Err e => ([], Err e)
  | Ok (encoded, s1) =>
      if negb (save_ok (en_saves env).1) then (save (en_saves env).1 s1, Err SSave)
      else if negb (en_accepts env) then ([Saved s1; Submitted encoded], Err SRefused)
      else match confirm env prepared encoded s1 with
           | Err e => ([Saved s1; Submitted encoded], Err e)
           | Ok (s2, included_at) =>
               if negb (save_ok (en_saves env).2) then ([Saved s1; Submitted encoded] ++ save (en_saves env).2 s2, Err SSave)
               else ([Saved s1; Submitted encoded; Saved s2],
                     Ok {| sr_amount := ps_amount prepared; sr_fee := ps_fee prepared; sr_change := ps_change prepared;
                           sr_inputs := ps_input_leaves prepared; sr_anchor_block := ps_anchor_block prepared;
                           sr_included_at := included_at; sr_proof_bytes := length (ps_proof prepared) |})
           end
  end.

(** One error writes: the note the rebuilt tree says the chain does not
    carry. A save that fails leaves the error with more to say. *)
Definition write_off_missing_note (saves : SaveOutcome) s (error : SendError) : list Action * SendError :=
  match error with
  | NoteNotOnChain commitment _ _ _ _ =>
      let '(s', marked) := mark_note_off_chain commitment s in
      (if marked then save saves s' else [], error)
  | _ => ([], error)
  end.

Definition send (num_leaf_proofs : nat) (prover : Prover) env nd md sk s (to : Address) (amount : Z) (requested_fee : option Z)
    (memo : list Z) (merkle : MerkleSource) (high_fee : HighFee) (dr : Draws) : list Action * M SendReport :=
  match prepare_spend num_leaf_proofs prover nd md sk s to amount requested_fee memo merkle high_fee dr with
  | Ok prepared => submit_spend env nd md s prepared
  | Err error => let '(actions, error) := write_off_missing_note (en_saves env).1 s error in (actions, Err error)
  end.
End Send.
