(* ===== verification/WalletSendProps.v ===== *)
(** * Sending a payment: the theorems

    Whatever the node answers, a spend [assemble_spend] builds over a genuine
    ledger satisfies the leaf circuit, conserves value, and pays the address
    it was asked to pay; and what a [send] leaves on disk and hands to the
    node, on every outcome. *)

From stdpp Require Import base option numbers gmap sorting list.
From S2P Require Import Prelude Crypto NoteRules ZkTree ZkTreeProps Header CircuitMerkle CircuitMerkleProps NoteCore LeafCircuit LeafCircuitProps LeafCircuitTheorems WalletText NoteCipher NoteCipherProps WalletExtrinsic WalletChain WalletChainProps WalletStore WalletStoreProps WalletSync WalletSyncProps WalletSpend WalletLedger WalletSend.
#[local] Open Scope Z_scope.

(** ** Paths are well formed *)
Section Shape.
Context `{PoseidonOps, !PoseidonLaws}.
Import CircuitMerkle.

Lemma good_empty : good_hash empty_digest.
Proof. apply good_zero. Qed.
Lemma length_sorted (l : list Hash256) : length (merge_sort lex l) = length l.
Proof. apply Permutation_length, merge_sort_Permutation. Qed.
Lemma sorted_good (l : list Hash256) : Forall good_hash l → Forall good_hash (merge_sort lex l).
Proof. by rewrite (merge_sort_Permutation lex l). Qed.
Lemma place_typed children current :
  length children = 4%nat → Forall good_hash children →
  length (place_current children current).1 = 3%nat ∧ Forall good_hash (place_current children current).1 ∧ 0 ≤ (place_current children current).2.
Proof.
  intros Hl Hg. unfold place_current. cbn [fst snd]. set (i := default 0%nat _). pose proof (sorted_good _ Hg) as Hs.
  assert (Hi : (i < length (merge_sort lex children))%nat).
  { unfold i. destruct (list_find _ _) as [[p x]|] eqn:E; cbn; [|rewrite length_sorted; lia]. apply list_find_Some in E as (E & _). by eapply lookup_lt_Some. }
  split_and!; [rewrite length_delete by (by apply lookup_lt_is_Some); rewrite length_sorted; lia|by apply Forall_delete|lia].
Qed.

Lemma unsorted_typed levels : ∀ current, good_hash current → Forall (λ '(a, b, c), good_hash a ∧ good_hash b ∧ good_hash c) levels →
  Forall (λ l, length l = 3%nat ∧ Forall good_hash l) (unsorted_levels levels current).1 ∧ Forall (λ q, 0 ≤ q) (unsorted_levels levels current).2.
Proof.
  induction levels as [|[[a b] c] levels IH]; intros current Hc Hl; cbn [unsorted_levels]; [split; constructor|].
  apply Forall_cons in Hl as [(Ha & Hb & Hcc) Hl]. destruct (place_typed [current; a; b; c] current) as (H3 & Hg & Hp); [done|by repeat (apply Forall_cons_2; [done|])|].
  destruct (place_current _ _) as [sibs pos]. destruct (IH (hash_node_presorted (merge_sort lex [current; a; b; c])) (good_presorted _) Hl) as [Hss Hps].
  destruct (unsorted_levels levels _) as [ss ps]. cbn in *. split; by constructor.
Qed.
Lemma parents_good below : Forall good_hash (parents below).
Proof.
  revert below. fix IH 1. intros [|a [|b [|c [|d rest]]]]; cbn [parents]; [constructor|apply Forall_singleton, good_presorted..|].
  apply Forall_cons_2; [apply good_presorted|apply IH].
Qed.
Lemma build_levels_good d : ∀ below, Forall (Forall good_hash) (build_levels d below).
Proof. induction d as [|d IH]; intros below; cbn [build_levels]; [constructor|]. constructor; [apply parents_good|apply IH]. Qed.
Lemma tree_new_good leaves d T : Forall good_hash leaves → tree_new leaves d = Ok T → Forall (Forall good_hash) (ct_levels T) ∧ ct_depth T = d ∧ (1 ≤ d)%nat.
Proof.
  intros Hl E. unfold tree_new in E. res_inv. subst T. split_and!; [constructor; [done|apply build_levels_good]|done|]. by apply Nat.leb_le.
Qed.
Lemma family_typed level i : Forall good_hash level → length (family level i) = 4%nat ∧ Forall good_hash (family level i).
Proof.
  intros Hl. unfold family. rewrite length_fmap. split; [done|]. apply Forall_fmap, Forall_true. intros slot. cbn.
  destruct (level !! _) as [h|] eqn:E; cbn; [by eapply Forall_lookup_1|apply good_empty].
Qed.
Lemma level_good T l : Forall (Forall good_hash) (ct_levels T) → Forall good_hash (level_of T l).
Proof. intros Hf. unfold level_of. destruct (ct_levels T !! l) eqn:E; cbn; [by eapply Forall_lookup_1|constructor]. Qed.
Lemma levels_typed T fuel : Forall (Forall good_hash) (ct_levels T) → ∀ l i,
  Forall (λ l, length l = 3%nat ∧ Forall good_hash l) (path_levels T l fuel i).1 ∧ Forall (λ q, 0 ≤ q) (path_levels T l fuel i).2.
Proof.
  intros Hf. induction fuel as [|fuel IH]; intros l i; cbn [path_levels]; [split; constructor|].
  destruct (family_typed (level_of T l) i (level_good T l Hf)) as [H4 Hg].
  pose proof (place_typed _ (default empty_digest (family (level_of T l) i !! (i mod 4)%nat)) H4 Hg) as (H3 & Hgs & Hp).
  destruct (place_current _ _) as [sibs pos]. destruct (IH (S l) (i / 4)%nat) as [Hss Hps]. destruct (path_levels T (S l) fuel _) as [ss ps].
  cbn in *. split; by constructor.
Qed.
Lemma tree_path_typed T i p : Forall (Forall good_hash) (ct_levels T) → tree_path T i = Ok p → path_typed p.
Proof.
  intros Hf E. unfold tree_path in E. res_inv. destruct (levels_typed T (ct_depth T) Hf 0 i) as [Hs Hp].
  destruct (path_levels _ _ _ _) as [ss ps]. injection E as <-. by constructor.
Qed.
Lemma from_unsorted_typed levels leaf p :
  good_hash leaf → Forall (λ '(a, b, c), good_hash a ∧ good_hash b ∧ good_hash c) levels → from_unsorted levels leaf = Ok p → path_typed p.
Proof.
  intros Hl Hf E. unfold from_unsorted in E. res_inv. destruct (unsorted_typed levels leaf Hl Hf) as [Hs Hp].
  destruct (unsorted_levels _ _) as [ss ps]. injection E as <-. by constructor.
Qed.
Lemma climb_root_good levels : ∀ h root, good_hash h → climb levels h = Ok root → good_hash root.
Proof.
  induction levels as [|[sibs pos] levels IH]; intros h root Hh E; cbn [climb] in E; [by injection E as <-|].
  res_inv. eapply IH; [apply good_presorted|exact E].
Qed.
Lemma path_root_good p leaf root : good_hash leaf → path_root p leaf = Ok root → good_hash root.
Proof. intros Hl E. unfold path_root in E. res_inv. by eapply climb_root_good. Qed.
End Shape.

(** ** What the reads establish *)
Section Reads.
Context `{NoteCrypto, HeaderCodec, !HeaderCodecLaws, !PoseidonLaws, !NoteFieldLaws, ScaleCompact, BodyOps, !CircuitOps, !CircuitLaws}.
Implicit Types (nd : SpendNode) (s : WalletStore) (md : ChainMetadata) (sk : Hash256) (n : StoredNote).

(** The types of the node's answers: bytes, and a [u32] height. *)
Record answers_typed nd : Prop := {
  ay_storage : storage_bytes (sp_node nd);
  ay_number : ∀ h raw, nd_header (sp_node nd) h = Some raw → in_u 32 (rh_number raw);
  ay_proof : ∀ i h raw, sp_proof nd i h = Some (Some raw) →
    Forall (λ '(a, b, c), Forall is_byte a ∧ Forall is_byte b ∧ Forall is_byte c) (mp_siblings raw);
}.

Lemma leaf_hashes_good (nd' : Node) from end_ count at_ leaves :
  storage_bytes nd' → leaf_hashes nd' from end_ count at_ = Ok leaves → Forall good_hash leaves.
Proof.
  intros Hb Hl. apply map_result_Ok in Hl. induction Hl as [|i h l l' Hh _ IH]; [constructor|]. apply Forall_cons_2; [|done].
  unfold leaf_hash in Hh. apply bind_Ok in Hh as (answer & Ha%ok_or_Ok & Hh). destruct answer as [bytes|].
  - unfold decode_hash in Hh. res_inv. simplify_eq. split; [split; [by apply Nat.eqb_eq|by eapply Hb]|done].
  - destruct (i <? count); [done|]. injection Hh as <-. apply good_empty.
Qed.

Lemma anchor_header_typed (nd' : Node) number header hash :
  (∀ h raw, nd_header nd' h = Some raw → in_u 32 (rh_number raw)) → anchor_header nd' number = Ok (header, hash) →
  in_u 32 (CircuitHeader.ci_block_number header) ∧ is_hash (CircuitHeader.ci_parent_hash header) ∧ is_hash (CircuitHeader.ci_state_root header) ∧
  is_hash (CircuitHeader.ci_extrinsics_root header) ∧ is_hash (CircuitHeader.ci_zk_tree_root header).
Proof.
  intros Hn E. unfold anchor_header, to_header_inputs, CircuitHeader.new in E. res_inv. simplify_eq. cbn.
  split_and!; [by eapply Hn|by eapply bytes_to_digest_length|apply lossy_length|apply lossy_length|by eapply bytes_to_digest_length].
Qed.

(** A path from either source: the stored note, opened, and a well-formed path
    that climbs to the header's root. *)
Record path_found sk (header : CircuitHeader.HeaderInputs) n (x : Note * CircuitMerkle.MerklePath) : Prop := {
  pd_note : x.1 = opened sk (sn_value n) (sn_rho n) (sn_r n);
  pd_typed : path_typed x.2;
  pd_root : CircuitMerkle.path_root x.2 (note_commitment x.1) = Ok (digest_of (CircuitHeader.ci_zk_tree_root header));
}.
Lemma stored_note_opened sk n m : stored_note (sk_pk sk) n = Ok m → m = opened sk (sn_value n) (sn_rho n) (sn_r n).
Proof. unfold stored_note, digest_from_slice, note_new. intros E. res_inv. by subst. Qed.
Lemma stored_commitment_good (m : Note) : good_hash (note_commitment m).
Proof. apply hash_felts_good. Qed.
Lemma root_read p m reached header : CircuitMerkle.path_root p (note_commitment m) = Ok reached →
  dfelts reached = CircuitHeader.ci_zk_tree_root header → CircuitMerkle.path_root p (note_commitment m) = Ok (digest_of (CircuitHeader.ci_zk_tree_root header)).
Proof. intros Hr <-. rewrite digest_of_dfelts; [done|]. eapply path_root_good; [apply stored_commitment_good|exact Hr]. Qed.

Lemma local_path_found sk t header n x : Forall (Forall good_hash) (CircuitMerkle.ct_levels (lt_tree t)) →
  local_path (sk_pk sk) t header n = Ok x → path_found sk header n x.
Proof.
  intros Ht E. unfold local_path in E. res_inv. subst x. constructor; cbn [fst snd]; [by apply stored_note_opened|by eapply tree_path_typed|by eapply root_read].
Qed.
Lemma sibling_digests_good level x :
  (let '(a, b, c) := level in Forall is_byte a ∧ Forall is_byte b ∧ Forall is_byte c) → sibling_digests level = Ok x →
  let '(a, b, c) := x in good_hash a ∧ good_hash b ∧ good_hash c.
Proof.
  destruct level as [[a b] c]. intros (Ha & Hb & Hc) E. unfold sibling_digests in E. res_inv. subst x.
  apply digest_from_slice_Ok in Hv as [_ ?]; [|done]. apply digest_from_slice_Ok in Hv0 as [_ ?]; [|done]. by apply digest_from_slice_Ok in Hv1 as [_ ?].
Qed.
Lemma siblings_good levels sibs : Forall (λ '(a, b, c), Forall is_byte a ∧ Forall is_byte b ∧ Forall is_byte c) levels →
  map_result sibling_digests levels = Ok sibs → Forall (λ '(a, b, c), good_hash a ∧ good_hash b ∧ good_hash c) sibs.
Proof.
  intros Hty Hm%map_result_Ok. revert Hty. induction Hm as [|l x ls xs Hx _ IH]; intros Hty; [constructor|].
  apply Forall_cons in Hty as [Hl Hls]. apply Forall_cons_2; [|by apply IH]. by eapply sibling_digests_good.
Qed.
Lemma merkle_path_found nd i leaf at_ path root : answers_typed nd → good_hash leaf → merkle_path nd i leaf at_ = Ok (Some (path, root)) →
  path_typed path ∧ CircuitMerkle.path_root path leaf = Ok root.
Proof.
  intros Ht Hg E. unfold merkle_path in E. apply bind_Ok in E as (answer & Ha%ok_or_Ok & E). destruct answer as [raw|]; [|done].
  apply bind_Ok in E as (u & _ & E). apply bind_Ok in E as (u1 & _ & E). apply bind_Ok in E as (u2 & _ & E).
  apply bind_Ok in E as (sibs & Hs & E). apply bind_Ok in E as (p & Hp%map_err_Ok & E). res_inv. simplify_eq.
  split; [|done]. eapply from_unsorted_typed; [done| |done]. eapply siblings_good; [by eapply ay_proof|done].
Qed.
Lemma rpc_path_found nd sk header at_ n x : answers_typed nd → rpc_path nd (sk_pk sk) header at_ n = Ok x → path_found sk header n x.
Proof.
  intros Ht E. unfold rpc_path in E. apply bind_Ok in E as (stored & Hs & E). apply bind_Ok in E as (answer & Ha & E).
  apply bind_Ok in E as ([path root] & ->%ok_or_Ok & E). res_inv. subst x. apply merkle_path_found in Ha as [Hp Hr]; [|done|apply stored_commitment_good].
  constructor; cbn [fst snd]; [by apply stored_note_opened|done|by eapply root_read].
Qed.

Lemma paths_found nd s sk merkle selected header at_ anchor paths : answers_typed nd →
  match merkle with MerkleLocal => local_paths nd s (sk_pk sk) selected header at_ anchor | MerkleRpc => rpc_paths nd (sk_pk sk) selected header at_ end = Ok paths →
  Forall2 (path_found sk header) selected paths.
Proof.
  intros Ht E. destruct merkle.
  - unfold local_paths in E. apply bind_Ok in E as (tree & Htree & E). res_inv. apply map_result_Ok in E. unfold rebuild_tree in Htree.
    apply bind_Ok in Htree as (count & _ & Htree). apply bind_Ok in Htree as (d & _ & Htree). apply bind_Ok in Htree as (leaves & Hl%map_err_Ok & Htree).
    apply bind_Ok in Htree as (T & HT%map_err_Ok & [= <-]). apply leaf_hashes_good in Hl; [|apply Ht].
    eapply Forall2_impl; [exact E|]. intros n x. apply local_path_found. by eapply tree_new_good.
  - unfold rpc_paths in E. apply map_result_Ok in E. eapply Forall2_impl; [exact E|]. intros n x. by apply rpc_path_found.
Qed.
End Reads.

(** ** The assembled spend *)
Section Assembled.
Context `{NoteCrypto, !NoteCryptoLaws, HeaderCodec, !HeaderCodecLaws, !PoseidonLaws, !NoteFieldLaws, !ByteSpongeLaws, ScaleCompact, BodyOps, !CircuitOps, !CircuitLaws}.
Implicit Types (nd : SpendNode) (s : WalletStore) (md : ChainMetadata) (sk : Hash256) (n : StoredNote) (i : InputNote).

(** What an input's nullifier is made from. *)
Definition input_pre i : list felt :=
  if in_is_dummy i then dummy_pre (in_nk i) (in_rho i) (in_r i) else nullifier_pre (in_nk i) (in_rho i) (in_r i).
Lemma tags_differ i i' : in_is_dummy i = false → in_is_dummy i' = true → input_nullifier i = input_nullifier i' → collides [input_pre i; input_pre i'].
Proof.
  intros Hi Hi' E. unfold input_pre, input_nullifier in *. rewrite Hi, Hi' in *. destruct (sponge_eq _ _ E) as [?|Hx]; [done|]. exfalso. injection Hx as Ht _.
  rewrite !goldilocks_new_is_from_u64 in Ht by done. by apply from_u64_inj in Ht.
Qed.

(** One real input, from a genuine note and its path. *)
Record real_input sk (root : Hash256) n i : Prop := {
  rl_typed : input_typed i;
  rl_spendable : LeafCircuitTheorems.spendable root i;
  rl_nullifier : input_nullifier i = sn_nullifier n;
  rl_fields : in_is_dummy i = false ∧ in_value i = sn_value n ∧ in_nk i = sk_nk sk;
}.
Lemma input_real_spec sk header n x i : genuine sk n → path_found sk header n x →
  input_real (sk_ask sk) (sk_nk sk) x.1 x.2 = Ok i → real_input sk (digest_of (CircuitHeader.ci_zk_tree_root header)) n i.
Proof.
  intros (_ & Hnf & _ & Hrho & Hr & Hv0 & Hvm) [Hn Hp Hroot] E. rewrite Hn in *. unfold input_real in E. res_inv. subst i.
  constructor; [constructor; cbn; [|done|done]|constructor; cbn; [done|done|]| |]; [..|by rewrite Hnf|done].
  - split_and!; [apply hash_bytes_good|apply hash_bytes_good|exact Hrho|exact Hr].
  - intros _. exact Hroot.
Qed.

Record inputs_claim sk (root : Hash256) (selected : list StoredNote) (inputs : InputNote * InputNote) : Prop := {
  ic_typed : input_typed inputs.1 ∧ input_typed inputs.2;
  ic_spendable : LeafCircuitTheorems.spendable root inputs.1 ∧ LeafCircuitTheorems.spendable root inputs.2;
  ic_real : in_is_dummy inputs.1 = false;
  ic_value : in_value inputs.1 + in_value inputs.2 = total_value selected;
  ic_nullifiers : sn_nullifier <$> selected `prefix_of` [input_nullifier inputs.1; input_nullifier inputs.2];
  ic_distinct : collides [input_pre inputs.1; input_pre inputs.2] ∨ input_nullifier inputs.1 ≠ input_nullifier inputs.2;
}.
Lemma spend_inputs_spec sk seed header selected paths inputs depth :
  Forall (genuine sk) selected → NoDup (sn_nullifier <$> selected) → Forall2 (path_found sk header) selected paths →
  spend_inputs sk seed paths = Ok (inputs, depth) →
  inputs_claim sk (digest_of (CircuitHeader.ci_zk_tree_root header)) selected inputs.
Proof.
  intros Hg Hnd Hp E. destruct Hp as [|n x ? ? Hx Hp]; [done|]. apply Forall_cons in Hg as [Hgn Hg].
  destruct Hp as [|n2 x2 ? ? Hx2 Hp]; [|destruct Hp; [|destruct x, x2; done]].
  - destruct x as [note path]. unfold spend_inputs in E. res_inv. subst inputs. apply (input_real_spec sk header n (note, path) v) in Hv; [|done|done].
    destruct Hv as [Ht Hs Hf (Hd & Hval & _)].
    constructor; cbn [fst snd fmap list_fmap total_value foldr]; [split; [done|]|split; [done|]|done|cbn; lia|rewrite Hf; by exists [input_nullifier (dummy_random seed (sk_ask sk) (sk_nk sk) (length (CircuitMerkle.siblings path)))]|].
    + constructor; cbn; [|done|apply dummy_typed]. split_and!; apply hash_bytes_good.
    + by constructor.
    + destruct (decide (input_nullifier v = input_nullifier (dummy_random seed (sk_ask sk) (sk_nk sk) (length (CircuitMerkle.siblings path))))) as [Heq|Hne]; [left|by right].
      by apply tags_differ.
  - destruct x as [note path], x2 as [note2 path2]. unfold spend_inputs in E. res_inv. subst inputs. apply Forall_cons in Hg as [Hgn2 _].
    apply (input_real_spec sk header n (note, path) v) in Hv; [|done|done]. apply (input_real_spec sk header n2 (note2, path2) v0) in Hv0; [|done|done].
    destruct Hv as [Ht Hs Hf (Hd & Hval & _)], Hv0 as [Ht2 Hs2 Hf2 (Hd2 & Hval2 & _)].
    constructor; cbn [fst snd fmap list_fmap total_value foldr]; [done|done|done|lia|by rewrite Hf, Hf2|].
    right. rewrite Hf, Hf2. cbn in Hnd. intros He. apply NoDup_cons in Hnd as [Hn _]. apply Hn. rewrite He. by left.
Qed.

(** The slot of the payment, and what travels in a slot. *)
Definition payment_slot (dr : Draws) : Z := if dr_payment_slot dr then 1 else 0.
Definition slot_ct (o : WalletOutput) (slot : Z) : list Z := if slot =? 0 then wo_ct_1 o else wo_ct_2 o.

(** An output of the spend: the leaf commits to the note, and the slot's
    ciphertext is that note under the given key. *)
Record output_sealed (w : SpendWitness) (o : WalletOutput) (slot : Z) (note : Note) (ek : list Z) (memo kem : list Z) : Prop := {
  os_commitment : output_commitment w slot = note_commitment note;
  os_note : note_ok note;
  os_cipher : ∃ c, encrypt_note ek note memo kem = Ok c ∧ slot_ct o slot = nc_to_bytes c;
}.
Record sealed sk (to : Address) (amount change fee : Z) (memo : list Z) dr header inputs depth (w : SpendWitness) (o : WalletOutput) (payment change_note : Note) : Prop := {
  sl_witness : sw_header w = header ∧ sw_inputs w = inputs ∧ sw_depth w = depth ∧ sw_fee w = fee;
  sl_valid : validate w = Ok tt;
  sl_sum : out_value (sw_outputs w).1 + out_value (sw_outputs w).2 = amount + change;
  sl_outputs : Forall (λ x, good_hash (out_pk x) ∧ good_hash (out_r x) ∧ 0 ≤ out_value x ≤ MAX_VALUE) [(sw_outputs w).1; (sw_outputs w).2];
  sl_payment : (∃ padded, pad_memo memo = Ok padded ∧ output_sealed w o (payment_slot dr) payment (ad_ek to) padded (dr_payment_kem dr)) ∧
    nt_pk payment = ad_pk to ∧ nt_value payment = amount;
  sl_change : (∃ padded, pad_memo [] = Ok padded ∧ output_sealed w o (1 - payment_slot dr) change_note (ad_ek (sk_address sk)) padded (dr_change_kem dr)) ∧
    nt_pk change_note = sk_pk sk ∧ nt_value change_note = change;
  sl_bound : sw_ct_digest w = ct_digest [wo_ct_1 o; wo_ct_2 o] ∧
    Z.of_nat (length (wo_ct_1 o)) = SUITE_1_CIPHERTEXT_BYTES ∧ Z.of_nat (length (wo_ct_2 o)) = SUITE_1_CIPHERTEXT_BYTES;
}.

Lemma output_note_Ok w slot m : output_note w slot = Ok m →
  m = {| nt_pk := out_pk (witness_output w slot); nt_value := out_value (witness_output w slot); nt_rho := witness_output_rho w slot; nt_r := out_r (witness_output w slot) |} ∧
  out_value (witness_output w slot) ≤ MAX_VALUE ∧ output_commitment w slot = note_commitment m.
Proof. unfold output_note, note_new. intros E. res_inv. subst m. by split_and!. Qed.
Lemma seal_outputs_spec sk to amount change fee memo lengths dr header inputs depth w o payment change_note :
  good_hash (ad_pk to) → 0 ≤ amount → 0 ≤ change →
  seal_outputs sk to amount change fee memo lengths dr header inputs depth = Ok (w, o, payment, change_note) →
  sealed sk to amount change fee memo dr header inputs depth w o payment change_note.
Proof.
  intros Hto Ha Hc E. unfold seal_outputs in E. cbn zeta in E. unfold payment_slot in *.
  pose proof (hash_felts_good domain.PK [dfelts (derive_ak (sk_ask sk)); dfelts (sk_nk sk)] : good_hash (sk_pk sk)) as Hpk.
  apply bind_Ok in E as (u & _ & E). apply bind_Ok in E as (pn & (-> & Hpm & Hpc)%map_err_Ok%output_note_Ok & E).
  apply bind_Ok in E as (cn & (-> & Hcm & Hcc)%map_err_Ok%output_note_Ok & E). apply bind_Ok in E as (padded & Hpad%map_err_Ok & E).
  apply bind_Ok in E as (pc & Hpe%map_err_Ok & E). apply bind_Ok in E as (empty & Hemp%map_err_Ok & E). apply bind_Ok in E as (cc & Hce%map_err_Ok & E).
  destruct (dr_payment_slot dr) eqn:Hslot; cbn [Z.eqb Z.sub Z.add Z.opp Pos.eqb Z.pos_sub] in *; cbn [witness_output Z.eqb sw_outputs fst snd out_pk out_value out_r] in *;
    apply bind_Ok in E as (u1 & Hlen%ensure_Ok & E); apply bind_Ok in E as (d & Hd & E); apply bind_Ok in E as (u2 & Hval%map_err_Ok & [= <- <- <- <-]); destruct u2;
    unfold output_ct_digest, digest_from_slice in Hd; res_inv; subst d;
    (constructor; cbn [with_ct_digest sw_header sw_inputs sw_depth sw_fee sw_outputs sw_ct_digest fst snd out_value out_pk out_r wo_ct_1 wo_ct_2 nt_pk nt_value];
      [done|done|lia|repeat (apply Forall_cons_2; [split_and!; first [done|apply hash_bytes_good]|]); constructor| | |done]).
  all: unfold payment_slot; rewrite Hslot; (split; [|done]); eexists; (split; [eassumption|]).
  all: constructor; [done|split_and!; first [done|apply hash_felts_good|apply hash_bytes_good]|eexists; split; [eassumption|done]].
Qed.

(** What a user who asked to send [amount] to [to] means. *)
Record spend_meets sk s (to : Address) (amount : Z) (memo : list Z) (dr : Draws) (a : Assembled) : Prop := {
  (** Its inputs are spendable notes of the wallet, and they balance. *)
  sm_inputs : (∀ n, n ∈ as_selected a → n ∈ ws_notes s ∧ usable n = true) ∧ as_selected a ≠ [];
  sm_balance : total_value (as_selected a) = amount + as_change a + as_fee a;
  (** The nullifiers it publishes are theirs. *)
  sm_nullifiers : sn_nullifier <$> as_selected a `prefix_of` [input_nullifier (sw_inputs (as_witness a)).1; input_nullifier (sw_inputs (as_witness a)).2];
  (** One output is the payment, and a wallet of the address finds it. *)
  sm_payment : output_commitment (as_witness a) (payment_slot dr) = note_commitment (as_payment_note a) ∧
    nt_pk (as_payment_note a) = ad_pk to ∧ nt_value (as_payment_note a) = amount;
  sm_received sk' : to = sk_address sk' → ∃ padded, pad_memo memo = Ok padded ∧
    wk_open (wallet_keys sk') (slot_ct (as_output a) (payment_slot dr)) = Some (received (as_payment_note a) padded);
  (** The other is the change: what the wallet records of it opens it. *)
  sm_change : output_commitment (as_witness a) (1 - payment_slot dr) = pn_commitment (pending_change a) ∧
    pn_commitment (pending_change a) = note_commitment (opened sk (pn_value (pending_change a)) (pn_rho (pending_change a)) (pn_r (pending_change a))) ∧
    pn_value (pending_change a) = as_change a;
  sm_returned : ∃ padded, wk_open (wallet_keys sk) (slot_ct (as_output a) (1 - payment_slot dr)) = Some (received (as_change_note a) padded);
  (** The leaf binds the bytes the extrinsic carries, at the settled size. *)
  sm_bound : sw_ct_digest (as_witness a) = ct_digest [wo_ct_1 (as_output a); wo_ct_2 (as_output a)] ∧
    Z.of_nat (length (wo_ct_1 (as_output a))) = SUITE_1_CIPHERTEXT_BYTES ∧ Z.of_nat (length (wo_ct_2 (as_output a))) = SUITE_1_CIPHERTEXT_BYTES;
}.

Lemma sum_two (l : list StoredNote) : (length l ≤ 2)%nat → Forall (λ n, 0 ≤ sn_value n ≤ MAX_VALUE) l →
  sum_u64 sn_value l = total_value l ∧ 0 ≤ total_value l < 2 ^ 63.
Proof.
  intros Hl Hf. change MAX_VALUE with (2 ^ 62 - 1) in Hf. destruct l as [|a [|b [|c l]]]; cbn in Hl; [done| | |lia]; decompose_Forall_hyps;
    unfold sum_u64; cbn [foldl foldr total_value]; rewrite Z.add_0_l, (Z.mod_small (sn_value a)) by lia;
    rewrite ?Z.mod_small by lia; lia.
Qed.
Lemma submseteq_fmap_NoDup {A B} (f : A → B) (l k : list A) : l ⊆+ k → NoDup (f <$> k) → NoDup (f <$> l).
Proof.
  intros [k' Hk]%submseteq_Permutation Hn. rewrite Hk, fmap_app in Hn. by apply NoDup_app in Hn as [? _].
Qed.
Lemma pad_memo_bytes memo padded : Forall is_byte memo → pad_memo memo = Ok padded → Forall is_byte padded ∧ Z.of_nat (length padded) < 2 ^ 31.
Proof.
  intros Hb Hp. rewrite (pad_memo_length _ _ Hp). split; [|done]. unfold pad_memo in Hp. destruct (_ <? _)%nat; [done|]. injection Hp as <-.
  apply Forall_app. split; [done|]. by apply Forall_replicate.
Qed.
Lemma sealed_opens sk w o slot note memo padded kem : nt_pk note = sk_pk sk → Forall is_byte memo → pad_memo memo = Ok padded →
  output_sealed w o slot note (ad_ek (sk_address sk)) padded kem → wk_open (wallet_keys sk) (slot_ct o slot) = Some (received note padded).
Proof.
  intros Hpk Hb Hp [_ Hok (c & Hc & ->)]. destruct (pad_memo_bytes _ _ Hb Hp). by eapply payment_payload.
Qed.

(** The selection, over a genuine ledger. *)
Record selected_ok sk s (target : Z) (selected : list StoredNote) : Prop := {
  se_genuine : Forall (genuine sk) selected;
  se_own : ∀ n, n ∈ selected → n ∈ ws_notes s ∧ usable n = true;
  se_some : selected ≠ [];
  se_distinct : NoDup (sn_nullifier <$> selected);
  se_change : (sum_u64 sn_value selected - target) mod 2 ^ 64 = total_value selected - target;
  se_covers : target ≤ total_value selected;
}.
Lemma selection_ok sk s target selected : Forall (genuine sk) (ws_notes s) → 0 ≤ target ≤ u_max 64 →
  select_notes (spendable s) target = Ok selected → selected_ok sk s target selected.
Proof.
  intros Hg Ht Hs. rewrite Forall_forall in Hg.
  assert (Hv : ∀ n, n ∈ ws_notes s → 0 ≤ sn_value n ≤ MAX_VALUE) by (intros n (_ & _ & _ & _ & _ & Hv)%Hg; exact Hv).
  pose proof (selection_spec (spendable s) target) as Hspec. rewrite Hs in Hspec. destruct Hspec as ([Hsub Hlen] & Hne & Hcov & _); [|done|].
  { apply Forall_forall. intros n [Hn _]%spendable_sub. by apply Hv. }
  assert (Hin : ∀ n, n ∈ selected → n ∈ ws_notes s ∧ usable n = true) by (intros n Hn; apply spendable_sub; by eapply elem_of_submseteq).
  destruct (sum_two selected Hlen) as [Hsum Htot]; [apply Forall_forall; intros n [Hn _]%Hin; by apply Hv|].
  constructor; [|done|done| |rewrite Hsum; apply Z.mod_small; lia|done].
  - apply Forall_forall. intros n [Hn _]%Hin. by apply Hg.
  - eapply submseteq_fmap_NoDup; [exact Hsub|apply spendable_NoDup].
Qed.
Lemma floor_nonneg md : in_u 64 (md_min_leaf_fee md) →
  0 ≤ sat_add 64 (md_min_leaf_fee md) (div_ceil (2 * SUITE_1_CIPHERTEXT_BYTES) (md_ciphertext_bytes_per_fee_quantum md `max` 1)).
Proof.
  intros [Hm _]. assert (0 ≤ div_ceil (2 * SUITE_1_CIPHERTEXT_BYTES) (md_ciphertext_bytes_per_fee_quantum md `max` 1)).
  { unfold div_ceil, SUITE_1_CIPHERTEXT_BYTES. assert (0 ≤ (2 * 1792) `div` (md_ciphertext_bytes_per_fee_quantum md `max` 1)) by (apply Z.div_pos; lia). case_match; lia. }
  unfold sat_add, u_max. lia.
Qed.

(** The witness of a sealed spend over checked inputs. *)
Lemma sealed_balanced sk to amount change fee memo dr header inputs depth w o payment cn selected :
  sealed sk to amount change fee memo dr header inputs depth w o payment cn →
  inputs_claim sk (digest_of (CircuitHeader.ci_zk_tree_root header)) selected inputs →
  in_u 32 (CircuitHeader.ci_block_number header) ∧ is_hash (CircuitHeader.ci_parent_hash header) ∧ is_hash (CircuitHeader.ci_state_root header) ∧
    is_hash (CircuitHeader.ci_extrinsics_root header) ∧ is_hash (CircuitHeader.ci_zk_tree_root header) →
  0 ≤ fee ≤ MAX_VALUE → total_value selected = amount + change + fee →
  collides [input_pre (sw_inputs w).1; input_pre (sw_inputs w).2] ∨ witness_typed w ∧ balanced_spend w.
Proof.
  intros [(Eh & Ei & Ed & Ef) _ Hsum Hout _ _ _] [Ht Hs Hr Hv _ Hd] (Hn & Hp & Hst & He & Hz) Hfee Hbal.
  rewrite <- Ei in Hd. destruct Hd as [?|Hd]; [by left|right]. rewrite Ei in Hd. decompose_Forall_hyps.
  split; constructor; rewrite ?Eh, ?Ei, ?Ef.
  - done.
  - tauto.
  - lia.
  - done.
  - done.
  - done.
  - done.
  - intros _. by left.
  - tauto.
  - lia.
  - lia.
Qed.

Lemma assembled_spec num_leaf_proofs supported nd md sk s to amount requested memo merkle high dr a :
  answers_typed nd → Forall (genuine sk) (ws_notes s) → good_hash (ad_pk to) → in_u 64 amount → in_u 64 (md_min_leaf_fee md) → Forall is_byte memo →
  assemble_spend num_leaf_proofs supported nd md sk s to amount requested memo merkle high dr = Ok a →
  spend_meets sk s to amount memo dr a ∧ validate (as_witness a) = Ok tt ∧
  (collides [input_pre (sw_inputs (as_witness a)).1; input_pre (sw_inputs (as_witness a)).2] ∨
   witness_typed (as_witness a) ∧ balanced_spend (as_witness a)).
Proof.
  intros Hty Hg Hto Ham Hmin Hmemo E. unfold assemble_spend in E. cbn zeta in E.
  do 4 (apply bind_Ok in E as (? & _ & E)). apply bind_Ok in E as (genesis & _ & E). apply bind_Ok in E as (u & _ & E).
  apply bind_Ok in E as (plan & Hplan%map_err_Ok & E). apply bind_Ok in E as (lengths & _ & E). apply bind_Ok in E as (target & Htar%ok_or_Ok & E).
  apply bind_Ok in E as (selected & Hsel%map_err_Ok & E). apply bind_Ok in E as (head & _ & E). apply bind_Ok in E as ([header anchor] & Hh%map_err_Ok & E).
  apply bind_Ok in E as (u1 & _ & E). apply bind_Ok in E as (paths & Hpaths & E). apply bind_Ok in E as ([inputs depth] & Hin & E).
  apply bind_Ok in E as ([[[w o] payment] cn] & Hseal & [= <-]).
  apply resolve_fee_Ok in Hplan as (Hfloor & [Hf1 Hf2] & _). apply checked_add_Some in Htar as [-> Hfit].
  assert (Hfee : 0 ≤ pf_fee plan ≤ MAX_VALUE) by (pose proof (floor_nonneg md Hmin); unfold MAX_TRUSTED_SLOT_FEE in Hf2; change MAX_VALUE with (2 ^ 62 - 1); lia).
  apply (selection_ok sk) in Hsel as [Hsg Hown Hne Hnd Hchange Hcov]; [|done|unfold in_u in Ham; lia]. rewrite Hchange in *.
  apply paths_found in Hpaths; [|done]. pose proof (spend_inputs_spec _ _ _ _ _ _ _ Hsg Hnd Hpaths Hin) as Hic.
  apply seal_outputs_spec in Hseal; [|done|unfold in_u in Ham; lia|lia]. apply anchor_header_typed in Hh; [|apply Hty].
  assert (Hbs : collides [input_pre (sw_inputs w).1; input_pre (sw_inputs w).2] ∨ witness_typed w ∧ balanced_spend w) by (eapply sealed_balanced; try done; lia).
  destruct Hseal as [(Eh & Ei & _ & _) Hval _ _ [(pp & Hpp & Hps) [Hppk Hpv]] [(pc & Hpc & Hcs) [Hcpk Hcv]] Hb].
  cbn [as_witness]. split; [|by split_and!]. constructor; cbn [as_witness as_output as_payment_note as_change_note as_selected as_fee as_change as_head pending_change pn_commitment pn_value pn_rho pn_r].
  - done.
  - lia.
  - rewrite Ei. apply Hic.
  - split; [apply Hps|done].
  - intros sk' ->. exists pp. split; [done|]. by eapply sealed_opens.
  - split_and!; [apply Hcs| |done]. f_equal. unfold opened. destruct cn; cbn in *. by subst.
  - exists pc. eapply (sealed_opens sk _ _ _ _ []); [done|constructor|done|done].
  - done.
Qed.
End Assembled.

(** ** The spend *)
Section Provable.
Context `{NoteCrypto, !NoteCryptoLaws, HeaderCodec, !HeaderCodecLaws, !PoseidonLaws, !NoteFieldLaws, !ByteSpongeLaws, ScaleCompact, BodyOps, !CircuitOps, !CircuitLaws}.

(** C14: a wallet never proves in vain, and never proves anything but what it
    was asked for. Whatever the node answers, a spend assembled over a genuine
    ledger has spendable notes of the wallet as its inputs, and their value is
    the amount, the change and the fee; the payment is a note of exactly the
    amount under the recipient's key, which a wallet of that address opens from
    the bytes the extrinsic carries; the change record the wallet keeps opens
    the other output; the leaf binds those bytes. The spend satisfies every
    constraint of the leaf circuit, with the public inputs of its witness,
    unless the preimages of its two nullifiers, a real note's and a dummy's, are
    a collision of the sponge. *)
Theorem assembled_spend_is_provable num_leaf_proofs supported nd md sk s to amount requested memo merkle high dr a
    (Hanswers : answers_typed nd) (Hledger : Forall (genuine sk) (ws_notes s)) (Hto : good_hash (ad_pk to))
    (Hamount : in_u 64 amount) (Hmin : in_u 64 (md_min_leaf_fee md)) (Hmemo : Forall is_byte memo)
    (Ha : assemble_spend num_leaf_proofs supported nd md sk s to amount requested memo merkle high dr = Ok a) :
  spend_meets sk s to amount memo dr a ∧
  (collides [input_pre (sw_inputs (as_witness a)).1; input_pre (sw_inputs (as_witness a)).2] ∨
   ∃ t, fill_witness (as_witness a) = Ok t ∧ build_constraints t = Some tt ∧ leaf_public_inputs t = witness_public_inputs (as_witness a)).
Proof.
  destruct (assembled_spec _ _ _ _ _ _ _ _ _ _ _ _ _ _ Hanswers Hledger Hto Hamount Hmin Hmemo Ha) as (Hm & Hv & [?|(Ht & Hb)]); [split; [done|by left]|].
  split; [done|]. right. exists (fill_targets (as_witness a)). assert (Hf : fill_witness (as_witness a) = Ok (fill_targets (as_witness a))) by (unfold fill_witness; by rewrite Hv).
  split_and!; [done|by apply (filled_exact _ _ Ht Hf)|done].
Qed.
End Provable.

(** ** The command *)
Section Command.
Context `{NoteCrypto, HeaderCodec, ScaleCompact, BodyOps}.
Implicit Types (nd : SpendNode) (s : WalletStore) (md : ChainMetadata) (sk : Hash256) (env : Environment).

(** A note whose nullifier is among [spent] is spent from that block on. *)
Definition settle_note (spent : list Hash256) (at_ : Z) (n : StoredNote) : StoredNote :=
  if bool_decide (sn_nullifier n ∈ spent) && negb (sn_spent n) then set_spent true (Some at_) n else n.
Lemma mark_all_spent l at_ : ∀ s, let s' := foldl (λ s nf, mark_spent nf at_ s) s l in
  ws_notes s' = settle_note l at_ <$> ws_notes s ∧ ws_pending s' = ws_pending s.
Proof.
  induction l as [|nf l IH]; intros s; cbn [foldl].
  - split; [|done]. symmetry. rewrite <- (list_fmap_id (ws_notes s)) at 2. apply list_fmap_ext. intros i n _. unfold settle_note.
    rewrite bool_decide_eq_false_2; [done|]. by intros ?%elem_of_nil.
  - destruct (IH (mark_spent nf at_ s)) as [-> ->]. split; [|done]. cbn. rewrite <- list_fmap_compose. apply list_fmap_ext. intros i n _. cbn.
    unfold settle_note. destruct (bool_decide_reflect (sn_nullifier n = nf)) as [->|Hne].
    + rewrite (bool_decide_eq_true_2 (nf ∈ nf :: l)) by (by left). destruct (sn_spent n) eqn:Hs; cbn [andb negb fst]; rewrite ?Hs; cbn; by rewrite ?andb_false_r.
    + cbn [andb fst]. rewrite (bool_decide_ext (sn_nullifier n ∈ nf :: l) (sn_nullifier n ∈ l)); [done|]. rewrite elem_of_cons. naive_solver.
Qed.

(** The block of inclusion is one a poll found the extrinsic in. *)
Lemma find_block_Some (nd' : Node) x l number : find_block nd' x l = Ok (Some number) → number ∈ l ∧ block_has nd' x number = Ok true.
Proof.
  induction l as [|m l IH]; cbn [find_block]; [done|]. intros ([] & Hb & E)%bind_Ok; [injection E as <-; split; [by left|done]|].
  destruct (IH E). split; [by right|done].
Qed.
Lemma wait_Ok polls x : ∀ next number, wait_for_inclusion polls x next = Ok number → next ≤ number ∧ ∃ nd' : Node, nd' ∈ polls ∧ block_has nd' x number = Ok true.
Proof.
  induction polls as [|nd' polls IH]; intros next number; cbn [wait_for_inclusion]; [done|].
  intros (head & _ & E)%bind_Ok. apply bind_Ok in E as ([found|] & Hf & E).
  - injection E as <-. apply find_block_Some in Hf as [(i & -> & _)%list_elem_of_fmap Hb]. split; [lia|]. exists nd'. split; [by left|done].
  - destruct (IH _ _ E) as (Hle & nd1 & Hin & Hb). split; [lia|]. exists nd1. split; [by right|done].
Qed.

(** What an accepted submission rests on: a poll saw the extrinsic in the
    block at a height above the anchor's, and at the block the node then names
    at that height both nullifiers are used. *)
Record confirmed env (a : Assembled) (x : list Z) (at_ : Z) : Prop := {
  cf_block : hd_number (as_head a) < at_ ∧ ∃ nd' : Node, nd' ∈ en_polls env ∧ block_has nd' x at_ = Ok true;
  cf_settled : ∃ h, chain_block_hash (en_after env) at_ = Ok h ∧
    en_used env (input_nullifier (sw_inputs (as_witness a)).1) h = Some true ∧ en_used env (input_nullifier (sw_inputs (as_witness a)).2) h = Some true;
}.
(** The record of the change, as it is saved beside its extrinsic. *)
Definition change_record (a : Assembled) (x : list Z) : PendingNote := with_extrinsic (pending_change a) x.

(** The store saved before the submission: the change's record beside the
    verified extrinsic, and every note as it was. *)
Definition change_saved prover md s (a : Assembled) (s1 : WalletStore) (x : list Z) : Prop :=
  (∃ proof, pv_prove_submission prover [as_witness a] = Some proof ∧ pv_verify prover proof = true ∧
     encode_submit_private_batch md (pv_to_bytes prover proof) [as_output a] = Ok x) ∧
  ws_notes s1 = ws_notes s ∧ ws_pending s1 = ws_pending s ++ [change_record a x].

(** The outcomes of a command that got as far as submitting. *)
Definition send_outcome prover env md s (a : Assembled) (s1 : WalletStore) (x : list Z) (rest : list Action) (answer : result SendError SendReport) : Prop :=
  change_saved prover md s a s1 x ∧
  match rest with
  | [] => is_ok answer = false
  | [Saved s2] => ∃ at_, confirmed env a x at_ ∧ ws_pending s2 = ws_pending s1 ∧
      ws_notes s2 = settle_note (sn_nullifier <$> as_selected a) at_ <$> ws_notes s ∧
      (answer = Err SSave ∨ ∃ rep, answer = Ok rep ∧ sr_included_at rep = at_)
  | _ => False
  end.

Lemma bind_genesis_keeps g s b s' : bind_genesis g s = Ok (b, s') → ws_notes s' = ws_notes s ∧ ws_pending s' = ws_pending s.
Proof. unfold bind_genesis. intros E. res_inv. destruct (ws_genesis_hash s); by injection E as <- <-. Qed.

Lemma submit_outcome prover env nd md s a proof prepared :
  pv_prove_submission prover [as_witness a] = Some proof → pv_verify prover proof = true →
  ps_proof prepared = pv_to_bytes prover proof → ps_outputs prepared = [as_output a] →
  ps_nullifiers prepared = (input_nullifier (sw_inputs (as_witness a)).1, input_nullifier (sw_inputs (as_witness a)).2) →
  ps_change_note prepared = pending_change a → ps_spent_nullifiers prepared = sn_nullifier <$> as_selected a →
  ps_anchor_block prepared = hd_number (as_head a) →
  match submit_spend env nd md s prepared with
  | ([], answer) => is_ok answer = false
  | ([Saved s1], answer) => answer = Err SSave ∧ ∃ x, change_saved prover md s a s1 x
  | (Saved s1 :: Submitted x :: rest, answer) => send_outcome prover env md s a s1 x rest answer
  | _ => False
  end.
Proof.
  intros Hprove Hver E1 E2 E3 E4 E5 E6. unfold submit_spend. destruct (_ ≫= _) as [[x s1]|e] eqn:E; [|done].
  destruct (en_saves env) as [save1 save2]. cbn [fst snd]. rewrite E1, E2 in E.
  apply bind_Ok in E as (x' & Hx%map_err_Ok & E). apply bind_Ok in E as (g & _ & E). apply bind_Ok in E as ([b bound] & Hb%map_err_Ok & [= <- <-]).
  apply bind_genesis_keeps in Hb as [Hn Hp]. rewrite E4.
  set (s1 := push_pending (with_extrinsic (pending_change a) x') bound).
  assert (Hbase : change_saved prover md s a s1 x') by (split_and!; [by exists proof|done|by cbn; rewrite Hp]).
  destruct save1; cbn [save_ok negb save]; [|done|split; [done|by exists x']].
  destruct (en_accepts env); cbn [negb]; [|done]. destruct (confirm _ _ _ _) as [[s2 at_]|e] eqn:Hc; [|done].
  assert (Hs2 : confirmed env a x' at_ ∧ ws_pending s2 = ws_pending s1 ∧ ws_notes s2 = settle_note (sn_nullifier <$> as_selected a) at_ <$> ws_notes s).
  2: { destruct Hs2 as (? & ? & ?). destruct save2; cbn [save_ok negb save app]; (split; [done|]); [|done|]; exists at_; split_and!; try done; [right; by eexists|by left]. }
  unfold confirm in Hc. rewrite E3, E5, E6 in Hc. cbn [fst snd] in Hc. apply bind_Ok in Hc as (n & (Hle & nd' & Hnd & Hhas)%wait_Ok & Hc).
  apply bind_Ok in Hc as (h & Hh%map_err_Ok & Hc). apply bind_Ok in Hc as (u1 & Hu1%ok_or_Ok & Hc). apply bind_Ok in Hc as (u2 & Hu2%ok_or_Ok & Hc).
  apply bind_Ok in Hc as (u3 & [-> ->]%ensure_Ok%andb_true_iff & [= <- <-]).
  destruct (mark_all_spent (sn_nullifier <$> as_selected a) n s1) as [Hm1 Hm2].
  split_and!; [|done|rewrite Hm1; by rewrite (proj1 (proj2 Hbase))]. constructor; [split; [lia|by exists nd']|by exists h].
Qed.

(** C15: a send can be interrupted anywhere. The change's secrets are on disk,
    beside the extrinsic, before the node is handed anything; nothing is
    handed over that the wallet's own verifier refused. A note is marked spent
    only in a save after a poll found the extrinsic in a block above the anchor
    and the node answered that both nullifiers of that very spend are used at
    the block it names at that height; the notes marked are exactly the unspent
    ones that carry a selected note's nullifier. The command answers success
    only after that save; when the save fails it reports so, with the old or
    the new store in place. Any other outcome leaves every note as it was, but
    for the one the rebuilt tree shows the chain does not carry, which is only
    written off. *)
Theorem send_is_crash_safe num_leaf_proofs prover env nd md sk s to amount requested memo merkle high dr :
  match send num_leaf_proofs prover env nd md sk s to amount requested memo merkle high dr with
  | ([], answer) => is_ok answer = false
  | ([Saved s'], answer) =>
      (∃ cm leaf recorded anchor count, answer = Err (NoteNotOnChain cm leaf recorded anchor count) ∧ s' = (mark_note_off_chain cm s).1) ∨
      (answer = Err SSave ∧ ∃ a x, change_saved prover md s a s' x)
  | (Saved s1 :: Submitted x :: rest, answer) => ∃ a,
      assemble_spend num_leaf_proofs (pv_supported prover) nd md sk s to amount requested memo merkle high dr = Ok a ∧
      send_outcome prover env md s a s1 x rest answer
  | _ => False
  end.
Proof.
  unfold send. destruct (prepare_spend _ _ _ _ _ _ _ _ _ _ _ _ _) as [prepared|e] eqn:E.
  - unfold prepare_spend in E. apply bind_Ok in E as (a & Ha & E). apply bind_Ok in E as (proof & Hp%ok_or_Ok & E). apply bind_Ok in E as (u & Hv%ensure_Ok & [= <-]).
    match goal with |- context [submit_spend _ _ _ _ ?p] => pose proof (submit_outcome prover env nd md s a proof p Hp Hv eq_refl eq_refl eq_refl eq_refl eq_refl eq_refl) as Ho end.
    destruct (submit_spend _ _ _ _ _) as [[|[s1|] [|[|x] rest]] answer]; try done; [|by exists a]. destruct Ho as [-> [x Hx]]. right. split; [done|]. by exists a, x.
  - unfold write_off_missing_note. destruct e; try done. destruct (mark_note_off_chain _ _) as [s' marked] eqn:Hm.
    destruct marked; [|done]. destruct (en_saves env).1; cbn [save]; [|done|]; left; eexists _, _, _, _, _; (split; [done|]); by rewrite Hm.
Qed.
End Command.
