(* ===== verification/WalletSendWitnesses.v ===== *)
(** * A payment, sent

    A wallet of one settled note of ten sends six: over a node that serves the
    note's tree, with the field of [LeafCircuitWitnesses]. *)

From stdpp Require Import base option numbers gmap sorting strings list.
From S2P Require Import Prelude Crypto NoteRules ZkTree Header CircuitMerkle NoteCore LeafCircuit LeafCircuitProps LeafCircuitTheorems LeafCircuitWitnesses WalletText NoteCipher NoteCipherProps WalletExtrinsic WalletChain WalletChainProps WalletStore WalletStoreProps WalletSync WalletSyncProps Profile WalletSpend WalletLedger WalletSend WalletSendProps.
#[local] Open Scope Z_scope.

Module ToySend.
Import ToyLeaf.
#[local] Existing Instances leaf_poseidon leaf_poseidon_laws leaf_note_laws leaf_byte_laws leaf_circuit leaf_circuit_laws leaf_header_codec leaf_header_codec_laws.
#[local] Existing Instances ToyCipher.toy_note_crypto ToyCipher.toy_note_crypto_laws ScaleFormat.format ToyChain.toy_body.

Definition sender : Hash256 := replicate 32 3.
Definition recipient : Hash256 := replicate 32 4.
Definition to : Address := sk_address recipient.
Definition md : ChainMetadata :=
  {| md_protocol_profile := SUPPORTED_PROFILE; md_shielded_pallet_index := 24; md_submit_private_batch := 0; md_submit_public_batch := 1;
     md_shield := 2; md_block_hash_window := 256; md_min_leaf_fee := 1; md_ciphertext_bytes_per_fee_quantum := 4096;
     md_max_ciphertext_bytes := 2048; md_signed_extensions := KNOWN_SIGNED_EXTENSIONS; md_extrinsic_version := 4;
     md_storage := md_storage ToyExtrinsic.toy_md |}.

(** ** The node: two leaves, the second one ours *)
Definition coin : Note := opened sender 10 (word 61) (word 62).
Definition stranger : Hash256 := note_commitment ToyLeaf.other.
Definition leaves : list Hash256 := [stranger; note_commitment coin].
Definition root : Hash256 := match CircuitMerkle.tree_new leaves 1 with Ok T => CircuitMerkle.tree_root T | Err _ => [] end.
Definition raw (n : Z) : RawHeader :=
  {| rh_parent_hash := zero_hash; rh_number := n; rh_state_root := zero_hash; rh_extrinsics_root := zero_hash; rh_zk_tree_root := root; rh_logs := [] |}.
Definition hash_at (n : Z) : Hash256 := match to_header_inputs (raw n) with Ok i => CircuitHeader.block_hash i | Err _ => [] end.
Definition toy_storage (k : StorageKey) : option (list Z) :=
  match k with
  | KLeafCount => Some (le_bytes 8 2)
  | KLeaves i => if i =? 0 then Some stranger else if i =? 1 then Some (note_commitment coin) else None
  | _ => None
  end.
Definition node_at (n : Z) (body : list (list Z)) : Node := {|
  nd_best := Some (raw n);
  nd_header h := if bool_decide (h = hash_at n) then Some (raw n) else None;
  nd_block_hash k := Some (if k =? 0 then Some zero_hash else if k =? n then Some (hash_at n) else None);
  nd_storage _ k := Some (toy_storage k);
  nd_nullifiers _ := Some [];
  nd_body _ := Some (Some body) |}.
Definition node : SpendNode :=
  {| sp_node := node_at 5 []; sp_depth _ := Some (Some [1]); sp_profile _ := Some (Some SUPPORTED_PROFILE); sp_proof _ _ := Some None |}.

(** ** The wallet *)
Definition held : StoredNote :=
  {| sn_leaf_index := 1; sn_block_number := Some 3; sn_value := 10; sn_commitment := note_commitment coin;
     sn_nullifier := nullifier (sk_nk sender) (word 61) (word 62); sn_rho := word 61; sn_r := word 62; sn_memo := []; sn_origin := Spend;
     sn_spent := false; sn_on_chain := true; sn_spent_seen_at_block := None |}.
Definition wallet : WalletStore := set_notes [held] (store_new []).
Definition memo : list Z := [104; 105].
Definition toy_draws : Draws :=
  {| dr_probe_1 := [1]; dr_probe_2 := [2]; dr_probe_3 := [3]; dr_probe_4 := [4]; dr_dummy := [5]; dr_payment_slot := true;
     dr_payment_r := [6]; dr_change_r := [7]; dr_payment_kem := [8]; dr_change_kem := [9] |}.
Definition assembled : result SendError Assembled := assemble_spend 6 true node md sender wallet to 6 None memo MerkleLocal RefuseHighFee toy_draws.

Lemma word_good k : good_hash (word k).
Proof. exact (hash_felts_good _ _). Qed.
Lemma pk_good sk : good_hash (sk_pk sk).
Proof. exact (hash_felts_good _ _). Qed.
Lemma commitment_bytes n : Forall is_byte (note_commitment n).
Proof. exact (proj2 (proj1 (stored_commitment_good n))). Qed.
Lemma toy_storage_bytes k bytes : toy_storage k = Some bytes → Forall is_byte bytes.
Proof.
  unfold toy_storage, stranger. generalize (commitment_bytes ToyLeaf.other), (commitment_bytes coin).
  generalize (note_commitment ToyLeaf.other), (note_commitment coin). intros c1 c2 H1 H2. destruct k; repeat case_match; try done;
    intros Hs; apply (inj Some) in Hs; subst bytes; first [assumption|apply le_bytes_are_bytes].
Qed.
Lemma wallet_genuine : Forall (genuine sender) (ws_notes wallet).
Proof.
  apply Forall_singleton. split_and!; [reflexivity|reflexivity|]. split_and!; [exact (pk_good _)|exact (word_good _)|exact (word_good _)|vm_compute; discriminate|vm_compute; discriminate].
Qed.
Lemma node_answers : answers_typed node.
Proof.
  constructor.
  - intros at_ k bytes Hs. cbn [node sp_node node_at nd_storage] in Hs. apply (inj Some) in Hs. exact (toy_storage_bytes k bytes Hs).
  - intros h r Hs. cbn [node sp_node node_at nd_header] in Hs. destruct (bool_decide _); [|discriminate Hs]. apply (inj Some) in Hs. rewrite <- Hs.
    split; cbn; lia.
  - intros i h p Hs. discriminate Hs.
Qed.
Lemma is_ok_ex {E A} (r : result E A) : is_ok r = true → ∃ x, r = Ok x.
Proof. destruct r as [x|]; [by exists x|done]. Qed.
Lemma assembled_ok : is_ok assembled = true.
Proof. vm_compute. reflexivity. Qed.

Lemma assembled_spend_is_provable_witness : ∃ a, assembled = Ok a ∧ spend_meets sender wallet to 6 memo toy_draws a ∧
  (collides [input_pre (sw_inputs (as_witness a)).1; input_pre (sw_inputs (as_witness a)).2] ∨ ∃ t, fill_witness (as_witness a) = Ok t ∧ build_constraints t = Some tt).
Proof.
  destruct (is_ok_ex assembled assembled_ok) as [a Ha]. exists a. split; [exact Ha|].
  destruct (assembled_spend_is_provable 6 true node md sender wallet to 6 None memo MerkleLocal RefuseHighFee toy_draws a node_answers wallet_genuine
    (pk_good _) ltac:(split; [discriminate|reflexivity]) ltac:(split; [discriminate|reflexivity]) ltac:(repeat constructor; discriminate) Ha)
    as [Hm [Hc|(t & Hf & Hb & _)]]; (split; [exact Hm|]); [left; exact Hc|right; exists t; exact (conj Hf Hb)].
Defined.

(** ** The whole command, confirmed at the second poll *)
Definition toy_prover : Prover :=
  {| pv_proof := unit; pv_supported := true; pv_prove_submission _ := Some tt; pv_verify _ := true; pv_to_bytes _ := [9; 9; 9] |}.
Definition encoded : list Z :=
  match prepare_spend 6 toy_prover node md sender wallet to 6 None memo MerkleLocal RefuseHighFee toy_draws with
  | Ok p => ToyExtrinsic.unwrap (encode_submit_private_batch md (ps_proof p) (ps_outputs p))
  | Err _ => []
  end.
Definition environment (polls : list Node) (used : bool) : Environment :=
  {| en_saves := (Written, Written); en_accepts := true; en_polls := polls; en_after := node_at 6 [encoded]; en_used _ _ := Some used |}.
Definition sent (env : Environment) : list Action * result SendError SendReport :=
  send 6 toy_prover env node md sender wallet to 6 None memo MerkleLocal RefuseHighFee toy_draws.
Definition shown (a : Action) : list bool * nat :=
  match a with Saved s => (sn_spent <$> ws_notes s, length (ws_pending s)) | Submitted x => ([], length x) end.
Example a_send_confirmed :
  match sent (environment [node_at 5 []; node_at 6 [encoded]] true) with
  | (actions, Ok rep) => shown <$> actions = [([false], 1%nat); ([], length encoded); ([true], 1%nat)] ∧
      (sr_included_at rep, sr_fee rep, sr_change rep, sr_inputs rep) = (6, 2, 2, [1])
  | _ => False
  end.
Proof. vm_compute. split; reflexivity. Qed.
End ToySend.
